(* ===== verification/_CoqProject ===== *)
-Q . S2P
Prelude.v
Kv.v
KvRefine.v
KvTheorems.v
LedgerId.v
Adapter.v
NsTypes.v
NsApply.v
NsStep.v
NsInvariant.v
NsQueue.v
NsTheorems.v
NsRefs.v
NsLineage.v
NsRefTheorems.v
NsRegisters.v
Ownership.v
Waiter.v
NsNode.v
NsAdapter.v
FsFrame.v
RaftLog.v
FsLog.v
FsLogScan.v
FsLogInvariant.v
FsLogAppend.v
FsLogCut.v
FsLogTheorems.v
FsMigrate.v
FsCommitted.v
Text.v
FsStorageTheorems.v
LogAdapter.v
BoltPack.v
BoltPackSound.v
BoltChunk.v
BoltMessage.v
BoltSession.v
BoltServer.v
BoltMonitor.v
BoltTheorems.v
Vocab.v
CommitWire.v
CommitOp.v
CommitOpSound.v
CommitEnvelope.v
CommitEnvelopeSound.v
CommitFormat.v
CommitBlob.v
CommitBlobSound.v
CommitTheorems.v
Ordering.v
FlakeOrder.v
FlakeTheorems.v
FlakeEq.v
Edge.v
Attachments.v
ArenaFormat.v
Arena.v
NoveltySegment.v
NoveltyMerge.v
NoveltyFacts.v
Novelty.v
NoveltyReads.v
NoveltyApply.v
NoveltyCompact.v
NoveltyBulk.v
NoveltyTheorems.v
Accumulator.v
ArenaTheorems.v
ArenaSeal.v
IndexFormat.v
IndexDedup.v
IndexMerge.v
IndexReplay.v
IndexLeaf.v
IndexUpdate.v
IndexBranch.v
IndexScan.v
IndexTheorems.v
