(* ===== verification/Prelude.v ===== *)
(** * Fluree DB: a verification library of its replicated core

    Fluree is a graph database whose ledgers are chains of immutable commits.
    What a cluster agrees on is small: which branches exist, which commit and
    index each branch points at, what is waiting to be committed, and a few
    registers.  That state is replicated by Raft.  This library models the code
    that holds and moves it, from the bytes a node writes to its log up to the
    answer a client gets, and proves what that code has to guarantee.

    ** The system and how its parts interact

    A client's transaction is stored as an envelope blob and submitted as
    [Command::EnqueueCommand].  openraft orders commands in a log; the log is
    kept by a [RaftLogStore] behind the log adapter.  Every node reduces
    committed entries with [StateMachineAdapter], which calls the application
    ([NameServiceApp::apply]) and records the effects the observer asks for.
    The owner of a branch (rendezvous hashing over the eligible voters) stages
    the front of its queue and proposes [ApplyHead] or [PoisonQueueEntry];
    applying it moves the head, retires the entry, remembers its outcome under
    its idempotency key, wakes the parked proposer through the waiter map and
    releases the envelope.  Snapshots carry the state to lagging nodes.  A
    second application, the key/value fragment, gives other services leases and
    one-shot records on the same machinery.  What a head points at is a commit
    blob, written and read by the commit codec.  Drivers of other graph
    databases reach the same ledgers through the Bolt gateway, a byte protocol
    with its own session state machine.

    ** Files and what they model

    - [Prelude]: machine integers with their wrap-around, stable sorting,
      ordered iteration of maps, generic lemmas, tactics and the hint database.
    - [Kv] models [fluree-raft-core/src/kv.rs]: [KvFragment] with its two
      denormalizations (byte total and expiry index) and logical-time floor,
      the four commands, the policy checks, the snapshot form and the
      invariant; [KvRefine] has the abstract store that only knows
      live records and proves the refinement; [KvTheorems] states
      the claims.
    - [LedgerId] models [fluree-db-core/src/ledger_id.rs]: splitting,
      formatting and normalizing ids, time-travel suffixes, branch validation.
    - [Adapter] models [fluree-raft-core/src/state_machine.rs] and the snapshot
      side of [storage.rs] and [storage/memory.rs]: [AppStateMachine] and
      [RaftSnapshotStore] are classes, the adapter is generic over both.
      Its claims are proved from the class laws.
    - [NsTypes] and [NsApply] model
      [fluree-db-consensus/src/raft/state_machine.rs]: [NameServiceState],
      every [Command] and [Response], one definition per handler and the
      dispatcher [apply], and the pure part of [raft/app.rs].
    - [NsStep] gives the labelled transition relation [queue_step] of the queue
      side and proves that every command is a step of it; [NsInvariant] defines
      [reachable] (the states some log reduces to) and the queue invariant [wf];
      [NsQueue] adds the idempotency invariant, envelope accounting and runs;
      [NsTheorems] states the claims on queues, exactly-once and
      eviction.
    - [NsRefs] is the transition relation of the ref table, [NsLineage] the
      catalog and child-count invariants, [NsRefTheorems] the claims on heads,
      tombstones and lineage; [NsRegisters] the claims on the versioned
      registers, compare-and-set, graph sources and voters.
    - [Ownership] models [fluree-raft-core/src/ownership.rs] and
      [raft/ownership.rs].
    - [Waiter] models [raft/waiter.rs], [raft/staged_receipt.rs] and the waiter
      side of the observer, with its invariant; [NsNode] is a
      whole node: reducer, waiter map and receipts under every interleaving of
      applies, installs and local proposers, equal envelopes on several
      branches included.
    - [NsAdapter] instantiates the adapter with the nameservice, models the two
      phases of [publish], and proves the adapter implements the node model.

    - [RaftLog] states what a log store promises ([storage.rs]) over the
      abstract [Log], as the classes [RaftLogStore] and [RaftHardState], and
      models the memory backend ([storage/memory.rs]), and lifts the
      contract to histories of calls.
    - The file backend ([storage/fs.rs]): [FsFrame] the frames, [FsLog] the
      segmented log over a device whose operations a crash may cut anywhere,
      [FsLogScan] to [FsLogCut] its representation relation and operations,
      [FsLogTheorems] the store as an instance of the contract, its histories
      with crashes and the claims; [FsMigrate] folds the
      files of earlier releases; [FsCommitted] is the
      watermark and the vote, [FsStorageTheorems] the snapshot files (with
      [Text] for what it needs of strings) and the claims on all three.
    - [LogAdapter] models [fluree-raft-core/src/log_adapter.rs] over any store
      that keeps the contract, and states its claims and the end-to-end
      durability of an acknowledged entry.
    - The Bolt gateway ([fluree-db-bolt/src], [fluree-db-server/src/bolt.rs]):
      [BoltPack] the value tree and PackStream, [BoltPackSound]
      its laws, [BoltChunk] message chunking, [BoltMessage] version
      negotiation, requests and responses, [BoltSession] the
      session's states and handlers over the class [BoltBackend], [BoltServer]
      the connection loop and its behaviour when the stream is cut
      at arbitrary points, [BoltMonitor] the protocol seen from outside,
      [BoltTheorems] records and pulls, and the claims.
    - [Vocab] models the built-in datatype codes and names of
      [fluree-vocab/src/lib.rs].
    - The commit codec ([fluree-db-core/src/commit/codec]):
      [CommitWire] varints, string
      dictionaries and the reader monad, whose third outcome is a panic;
      [CommitOp] one flake to bytes and back, [CommitEnvelope] the metadata,
      [CommitFormat] header, footer and signature block, [CommitBlob] the whole
      blob, its readers and the dispatch on versions; [CommitOpSound],
      [CommitEnvelopeSound] and [CommitBlobSound] their
      laws, [CommitTheorems] the claims and a concrete instance with the
      exhibits.
    - The order of flakes ([fluree-db-core/src/value.rs], [comparator.rs],
      [flake.rs], [sid.rs]): [Ordering] comparisons, sorting and binary search
      as the standard library has them; [FlakeOrder] the order of values,
      [FlakeTheorems] the four index comparators, the scan sentinels, the
      claims and a concrete order; [FlakeEq] equality and
      hashing of values and flakes, and how they agree with the order.
    - Edge annotations: [Edge] models [fluree-db-core/src/edge.rs] (edge keys
      and the bundles of reifying flakes), [Attachments] models
      [fluree-db-novelty/src/attachments.rs] (the overlay derived from them).
    - The annotation arenas ([fluree-db-binary-index/src/annotation_arena]):
      [ArenaFormat] the blobs and what serde makes of the rows, [Arena] the
      builder and the reader with its cache, written once for both directions;
      [ArenaTheorems] the two directions, building from flakes and events and
      the claims; [ArenaSeal] the annotation phase of an incremental index
      ([fluree-db-indexer/src/build/annotation_arena.rs], [incremental.rs] and
      [run_index/build/incremental_root.rs]).
    - The novelty overlay ([fluree-db-novelty/src/lib.rs], [fact_state.rs]):
      [NoveltySegment] flake ids and immutable segments, [NoveltyMerge] the
      k-way merge, [NoveltyFacts] the index of current facts, [Novelty] the
      overlay, its reads and its mutations;
      [NoveltyReads], [NoveltyApply], [NoveltyCompact] (with clearing) and
      [NoveltyBulk] their laws; [NoveltyTheorems] the claims and a concrete
      overlay.
    - [Accumulator] models [fluree-db-transact/src/generate/accumulator.rs],
      [cancellation.rs] and, of [stage.rs], the batches and waves a transaction
      pushes and what it stages of them; [ArenaTheorems] also runs transactions through cancellation, the novelty
      overlay and the attachment overlay.
    - The index of facts ([fluree-db-binary-index/src/format] and [read],
      [fluree-db-indexer/src/run_index/build], [build/incremental.rs]):
      [IndexFormat] records, their four orders, routing keys, columns and the
      history sidecar; [IndexDedup] object types and the resolution of a window
      of records to winners and superseded events; [IndexMerge] the merge of
      both into a leaflet and its history; [IndexReplay] a leaflet at an
      earlier time; [IndexLeaf] leaflets, leaves and their update,
      [IndexUpdate] its laws; [IndexBranch] the update of a branch, serial and
      in parallel windows, with its fetches and its sink, the leaf writer and the fresh branch; [IndexScan] filters, the
      overlay and the cursor; [IndexTheorems] the passes of the indexer over
      windows, the claims and examples.

    ** What the theorems show

    Logs.  [reachable P s n] quantifies over every log whose commands satisfy
    [P] and whose indexes increase within [u64]; a theorem about a reachable
    state is a theorem about every replica.

    Exactly once and queues: no idempotency key is retired twice within the
    retention window; queues are first in, first out, bounded and never stuck;
    each transition balances the envelopes it references and releases.

    Heads: commit heads only advance except by an admin command on the branch
    itself, a retraction is a tombstone, indexes stay behind commits, child
    counts are exact unless a branch is reset to unborn (the theorem
    [ns_unborn_reset_orphans] shows what goes wrong then), registers and
    compare-and-set lose no update.

    Answers: a parked proposer bound to an entry of its own branch waits only
    while that entry is queued, and is answered, with the right answer, in the
    step that removes it (an equal envelope enqueued on another branch can bind
    it there and leave it waiting, [ns_crossed_waiter_stranded]); the ledger
    cache hears of every head before any event of the batch is broadcast.

    Replication: batching is invisible, restart from a snapshot and replay is
    the identity, an install is atomic; eviction does not depend on hash-map
    order; owners agree across nodes and move minimally.

    Storage: both backends answer as the abstract log; a crash at any point of
    the file store's device operations, again and again, but for a purge past
    the last entry, loses nothing that was acknowledged, and the store always
    opens; the watermark and the current
    snapshot survive torn writes; peer-supplied snapshot ids stay inside their
    directory.  Three crash or upgrade paths that do lose data are exhibited
    ([fs_log_purge_crash_loses_entries], [legacy_fold_drops_index_zero],
    [committed_marker_lost]).

    Key/value: every command implements the abstract store in which expired
    means absent; leases exclude, versions fence, a one-shot record is taken
    once, the denormalizations always agree with their recomputation.

    Bolt: PackStream decodes what it encodes; no statement runs before the
    client has authenticated and after it failed; how the network cuts the
    stream does not change what the server answers; pulls return every record
    of a result once and in order.

    Commits: whatever the writer accepts, the reader returns; the readers of
    parts agree with the reader of the whole on version 4, and on version 3 up
    to its graph delta and the datatypes of its metadata ([commit_readers_v3]);
    a version 3 blob that reads is the one whose hash it carries.  The writer's and readers' disagreements on
    inputs outside those theorems are exhibited in [CommitTheorems].

    Flakes: the index orders are orders, refined by the identity of a fact, on
    every flake whose doubles are finite; the sentinels of a scan enclose
    exactly what they name.  With NaN or infinities the value order has cycles
    ([value_order_cycles]).  Equality agrees with the orders and the hash
    ([flake_equality]), except for what [value_eq_breaks] exhibits.

    Transactions and annotations: staging leaves at most one flake of a fact in
    a graph, the net one, however the WHERE stream is cut into batches, and of a
    graph sync exactly the difference between graph and payload; bundles and
    edges without list index correspond; the attachment overlay answers from
    the latest event, both ways and at every time.  A transaction that moves an
    annotation leaves it behind ([repoint_leaves_overlay_stale]).

    Arenas: from their bytes, and whatever the reader has cached, lookups find
    exactly what the latest event up to a time asserts, one by one or in a
    batch.  Sealing the overlay into the arenas of the next index changes no
    answer and retires exactly the blobs no longer referenced.  Both are about
    objects that read back from their serialized form as themselves.  An edge whose
    object does not survive the untagged serialization is lost
    ([arena_loses_json]).

    Novelty: the overlay is a bag of flakes per graph.  Reads give exactly the
    bag's flakes in range and in order; commits apply whole or not at all, with
    set semantics; clears keep exactly what is later; compaction is invisible
    and, where the flakes of a graph fit one segment, settles; the index of current facts always says what the bags say;
    bulk loading equals applying in turn, except after a commit that retracts
    and asserts one fact at one time ([bulk_loses_reassertion]).

    Index: a branch built from any windows of commits, the first of assertions
    only, holds at every time exactly the facts left standing by the events up
    to then ([index_history_exact]); a scan of the latest state with the
    overlay on top returns exactly what passes the filter and survives
    ([index_scan_exact]), unless an operation falls between two leaves; the
    parallel update of a branch is the serial one, up to which error a leaf
    that cannot be fetched or updated leads to; routing keys compare as
    records do, and sidecars read back.  Where the cursor differs from the
    branch it reads is shown in [scan_divergences], and what a fresh branch
    makes of retractions in [fresh_branch_keeps_retracted].

    ** Bounds, fuel and widths

    Definitions that take fuel consume bytes or queued messages and are given
    as much fuel as there are of them: [scan_frames], [chunks_fuel], and the
    Bolt assembler and drain loop.  [encode_varint_loop] has ten steps, since
    ten groups of seven bits hold a [u64]; repeated reads of the commit codec
    recurse on the count the blob declares.  The search of [partition_point]
    halves its range, [merge_collect] is given the number of items left and
    [build_chunks] the number of flakes; a size class is at most 64, so
    [compact_loop] makes at most 65 passes ([compact_loop_fuel]).  In the index,
    [dedup_loop], [split_segments], [resolve_runs] and [update_windows]
    are given the number of records, operations or leaves, of which each step
    consumes one at least.  Every other recursion is structural.  [u64] counters
    wrap as in a release build ([+u64]); [u32] child counts saturate; theorems
    that need a bound (log indexes below 2^64, at most 2^32 - 1 entries for
    child counts, [fits] for history segments below 2^32 bytes) say so.  [i64] commit and index times are unbounded [Z]: the
    code only compares them.

    ** Parameters

    Hash functions (xxh64) and postcard encodings are arguments of the
    definitions; theorems about agreement hold for any hash, and those about
    snapshots assume only that what was encoded decodes to itself.  openraft is
    represented by what it hands over: committed entries in order.  The query
    engine behind a Bolt session is the class [BoltBackend]; the value
    conversions, content identifiers, compression and signatures the commit
    codec calls are the classes [CoreValues], [Cids] and [Blobs], with the laws
    their documentation states and one concrete instance of each.  Sorting is
    the class [Sorting] (a permutation, sorted where the comparison is an
    order), the iteration order of a hash map [HashIteration], arbitrary
    precision numbers and temporal types [ValueOrd] and [ValueHash], the order
    in which a hash map is drained [HashDrain].  What a branch update
    fetches, decodes and hands to its sink are the fields of [DrainEnv].  The
    novelty overlay is proved
    over any [AttachmentOverlay]; [Attachments] is the one it has.  CBOR is the
    class [Cbor] (what was written reads back), the serde forms of temporal and
    arbitrary-precision values and of content ids the class [Serde]; the
    content store is a list of blobs under ids that determine them.

    ** Not modelled

    Network, timers, task scheduling and process wiring; serde derives, except
    where the bytes of an arena depend on them; the commit worker's staging (a
    transaction's semantics, beyond what it pushes and stages); query languages.  I/O
    errors of the file store are not modelled, nor is the loss of a flush; the
    hypothesis that a segment is larger than its header excludes sizes only
    tests use.  Of the index, leaves and branches are modelled by their
    contents: compression, content ids, the bytes around columns and
    directories, fetching, caches and uploads are left out, as are
    dictionaries, roots, full rebuilds, statistics and other arenas; the
    reading of a window's commits into records is where the model starts.
    Statistics over the overlay and the arenas, the failure of content-store
    writes and the loading of a ledger from its commits are left, and the
    server-sent events and other small codecs. *)

From stdpp Require Export base tactics list gmap strings sorting fin_maps.
From Stdlib Require Export ZArith Lia.
From Stdlib Require Import Ascii.

(** Numbers default to [Z]: every machine integer of the source is a [Z]
    kept in its width by the operations below. *)
#[global] Open Scope Z_scope.

Declare Scope fluree_scope.
Delimit Scope fluree_scope with fluree.

(** ** Machine integers *)

(** [u64::MAX + 1] and the two's-complement bounds of [i64]. *)
Definition two64 : Z := 18446744073709551616.
Definition u64_max : Z := two64 - 1.
Definition u32_max : Z := 4294967295.

(** [wrapping_add] and the release-profile [+] and [-] of [u64]. *)
Definition wrap64 (x : Z) : Z := x mod two64.
Definition u64_add (x y : Z) : Z := wrap64 (x + y).
Definition u64_sub (x y : Z) : Z := wrap64 (x - y).

(** [u64::checked_add]. *)
Definition u64_checked_add (x y : Z) : option Z :=
  if x + y <=? u64_max then Some (x + y) else None.

(** [u32::saturating_add] and [u32::saturating_sub]. *)
Definition u32_saturating_add (x y : Z) : Z := Z.min u32_max (x + y).
Definition u32_saturating_sub (x y : Z) : Z := Z.max 0 (x - y).

(** [Ord::clamp]. *)
Definition clamp (x lo hi : Z) : Z := Z.max lo (Z.min x hi).

Infix "+u64" := u64_add (at level 50, left associativity) : fluree_scope.
Infix "-u64" := u64_sub (at level 50, left associativity) : fluree_scope.
#[global] Open Scope fluree_scope.

(** ** Stable sorting, [slice::sort_by_key] *)

Section sort_by.
Context {A : Type} (R : relation A) `{!RelDecision R}.

Fixpoint insert_by (x : A) (l : list A) : list A :=
  match l with
  | [] => [x]
  | y :: l' => if decide (R x y) then x :: y :: l' else y :: insert_by x l'
  end.

(** Insertion from the right: an element lands before the later elements
    whose key is equal to its own, so the sort is stable. *)
Definition sort_by (l : list A) : list A := foldr insert_by [] l.

Lemma insert_by_Permutation x l : insert_by x l ≡ₚ x :: l.
Proof.
  induction l as [|y l IH]; simpl; [done|].
  case_decide; [done|]. rewrite IH. apply perm_swap.
Qed.

Lemma sort_by_Permutation l : sort_by l ≡ₚ l.
Proof.
  induction l as [|x l IH]; simpl; [done|].
  by rewrite insert_by_Permutation, IH.
Qed.

Lemma elem_of_sort_by x l : x ∈ sort_by l ↔ x ∈ l.
Proof. by rewrite sort_by_Permutation. Qed.

Lemma insert_by_StronglySorted `{!Transitive R, !Total R} x l :
  StronglySorted R l → StronglySorted R (insert_by x l).
Proof.
  induction 1 as [|y l Hl IH Hy]; simpl; [repeat constructor|].
  case_decide as Hxy.
  - constructor; [by constructor|]. constructor; [done|].
    eapply Forall_impl; [exact Hy|]. intros z Hz; by etrans.
  - constructor; [done|]. rewrite insert_by_Permutation. constructor; [|done].
    destruct (total R x y); naive_solver.
Qed.

Lemma sort_by_StronglySorted `{!Transitive R, !Total R} l :
  StronglySorted R (sort_by l).
Proof. induction l; simpl; eauto using SSorted_nil, insert_by_StronglySorted. Qed.

(** The sorted list depends only on the multiset of the input when
    distinct elements have distinct keys. *)
Lemma sort_by_unique `{!Transitive R, !Total R} l1 l2 :
  (∀ x y, x ∈ l1 → y ∈ l1 → R x y → R y x → x = y) →
  l1 ≡ₚ l2 → sort_by l1 = sort_by l2.
Proof.
  intros Hanti Hp.
  apply (StronglySorted_unique_strong R);
    eauto using sort_by_StronglySorted.
  - intros x y. rewrite !elem_of_sort_by, <- Hp. eauto.
  - by rewrite !sort_by_Permutation.
Qed.
End sort_by.

(** Comparing elements by a key. *)
Definition by_key {A K} (R : relation K) (f : A → K) : relation A :=
  λ x y, R (f x) (f y).

Section by_key.
Context {A K : Type} (R : relation K) (f : A → K).
#[global] Instance by_key_dec `{!RelDecision R} : RelDecision (by_key R f).
Proof. intros x y. unfold by_key. apply _. Defined.
#[global] Instance by_key_trans `{!Transitive R} : Transitive (by_key R f).
Proof. intros x y z. unfold by_key. apply transitivity. Qed.
#[global] Instance by_key_total `{!Total R} : Total (by_key R f).
Proof. intros x y. apply (total R). Qed.
End by_key.

(** Lexicographic order of two keys, the derived [Ord] of a tuple. *)
Definition lex_le {A B} (R : relation A) (S : relation B) : relation (A * B) :=
  λ x y, (R x.1 y.1 ∧ ¬ R y.1 x.1) ∨ (R x.1 y.1 ∧ R y.1 x.1 ∧ S x.2 y.2).

Section lex_le.
Context {A B : Type} (R : relation A) (S : relation B).
#[global] Instance lex_le_dec `{!RelDecision R, !RelDecision S} :
  RelDecision (lex_le R S).
Proof. intros x y. unfold lex_le. apply _. Defined.
#[global] Instance lex_le_trans `{!Transitive R, !Transitive S} :
  Transitive (lex_le R S).
Proof.
  intros [a1 b1] [a2 b2] [a3 b3]; unfold lex_le; simpl.
  intros [[H1 H2]|(H1 & H2 & H3)] [[H4 H5]|(H4 & H5 & H6)].
  - left; split; [by etrans|]. intros ?; apply H2; by etrans.
  - left; split; [by etrans|]. intros ?; apply H2; by etrans.
  - left; split; [by etrans|]. intros ?; apply H5; by etrans.
  - right; repeat split; by etrans.
Qed.
#[global] Instance lex_le_total `{!RelDecision R, !Total R, !Total S} :
  Total (lex_le R S).
Proof.
  intros [a1 b1] [a2 b2]; unfold lex_le; simpl.
  destruct (decide (R a1 a2)), (decide (R a2 a1)), (total S b1 b2), (total R a1 a2);
    naive_solver.
Qed.
End lex_le.

#[global] Instance Z_le_total : Total Z.le.
Proof. intros x y. lia. Qed.

(** ** Ordered containers

    A [BTreeMap] or a [BTreeSet] is a [gmap] or a [gset] whose iteration
    visits the elements in key order. *)
Definition btree_iter {V} (m : gmap string V) : list (string * V) :=
  sort_by (by_key String.le fst) (map_to_list m).

Lemma btree_iter_Permutation {V} (m : gmap string V) :
  btree_iter m ≡ₚ map_to_list m.
Proof. apply sort_by_Permutation. Qed.

(** ** Generic lemmas *)

Lemma filter_None_sub {A} (P : A → bool) (o : option A) x :
  (match o with Some a => if P a then Some a else None | None => None end) = Some x →
  o = Some x ∧ P x = true.
Proof. destruct o as [a|]; [destruct (P a) eqn:?|]; naive_solver. Qed.

Lemma wrap64_small x : 0 <= x < two64 → wrap64 x = x.
Proof. apply Z.mod_small. Qed.

Lemma wrap64_range x : 0 <= wrap64 x < two64.
Proof. by apply Z.mod_pos_bound. Qed.

Lemma u64_checked_add_Some x y z :
  u64_checked_add x y = Some z ↔ z = x + y ∧ x + y <= u64_max.
Proof. unfold u64_checked_add. destruct (Z.leb_spec (x + y) u64_max); naive_solver lia. Qed.

Lemma u64_checked_add_None x y : u64_checked_add x y = None ↔ u64_max < x + y.
Proof. unfold u64_checked_add. destruct (Z.leb_spec (x + y) u64_max); naive_solver lia. Qed.

Lemma elem_of_take_sub {A} (x : A) n l : x ∈ take n l → x ∈ l.
Proof. rewrite elem_of_take, list_elem_of_lookup. naive_solver. Qed.

Lemma NoDup_filter_length_lt {A} (P : A → Prop) `{!∀ x, Decision (P x)} (l : list A) x :
  x ∈ l → ¬ P x → (length (filter P l) < length l)%nat.
Proof.
  induction l as [|y l IH]; [by intros ?%not_elem_of_nil|].
  intros [->|Hx]%elem_of_cons HP.
  - rewrite filter_cons_False by done. pose proof (length_filter P l). simpl; lia.
  - rewrite filter_cons. case_decide; simpl; [specialize (IH Hx HP); lia|].
    pose proof (length_filter P l). lia.
Qed.

Lemma list_filter_id {A} (P : A → Prop) `{!∀ x, Decision (P x)} (l : list A) :
  Forall P l → filter P l = l.
Proof. induction 1; [done|]. rewrite filter_cons_True by done. by f_equal. Qed.

Lemma list_filter_none {A} (P : A → Prop) `{!∀ x, Decision (P x)} (l : list A) :
  Forall (λ x, ¬ P x) l → filter P l = [].
Proof. induction 1; [done|]. by rewrite filter_cons_False. Qed.

Lemma StronglySorted_filter {A} (R : relation A) (P : A → Prop) `{!∀ x, Decision (P x)} l :
  StronglySorted R l → StronglySorted R (filter P l).
Proof.
  induction 1 as [|x l Hl IH Hx]; [constructor|].
  destruct (decide (P x)); [rewrite filter_cons_True by done|by rewrite filter_cons_False].
  constructor; [done|]. rewrite Forall_forall in *. intros y [_ Hy]%list_elem_of_filter. auto.
Qed.

Lemma StronglySorted_weaken {A} (R S : relation A) l :
  (∀ x y, R x y → S x y) → StronglySorted R l → StronglySorted S l.
Proof.
  intros HRS. induction 1 as [|x l Hs IH Hx]; constructor; [done|].
  eapply Forall_impl; [exact Hx|]. auto.
Qed.

Lemma StronglySorted_reverse {A} (R : relation A) l :
  StronglySorted R l → StronglySorted (λ x y, R y x) (reverse l).
Proof.
  induction 1 as [|x l Hs IH Hx]; [constructor|]. rewrite reverse_cons.
  apply StronglySorted_app_2; [|done|repeat constructor].
  intros y z Hy Hz. apply list_elem_of_singleton in Hz as ->. rewrite elem_of_reverse in Hy.
  rewrite Forall_forall in Hx. by apply Hx.
Qed.

(** [slice::chunks]. *)
Fixpoint chunks_fuel {A} (fuel n : nat) (l : list A) : list (list A) :=
  match fuel, l with
  | _, [] | 0%nat, _ => []
  | S fuel, _ => take n l :: chunks_fuel fuel n (drop n l)
  end.
Definition chunks {A} (n : nat) (l : list A) : list (list A) := chunks_fuel (length l) n l.

Lemma chunks_fuel_nil {A} fuel n : chunks_fuel fuel n (@nil A) = [].
Proof. by destruct fuel. Qed.

Lemma elem_of_concat {A} (x : A) ls : x ∈ concat ls ↔ ∃ l, l ∈ ls ∧ x ∈ l.
Proof.
  rewrite list_elem_of_In, in_concat. split; intros (l & ? & ?); exists l;
    rewrite ?list_elem_of_In in *; auto.
Qed.

(** ** Bytes *)

(** The bytes of a [str]. *)
Definition str_bytes (s : string) : list Z :=
  (λ a, Z.of_N (N_of_ascii a)) <$> String.list_ascii_of_string s.

(** [to_le_bytes] of an [n]-byte unsigned integer, and [from_le_bytes]. *)
Fixpoint le_bytes (n : nat) (x : Z) : list Z :=
  match n with
  | O => []
  | S n => Z.land x 255 :: le_bytes n (Z.shiftr x 8)
  end.
Fixpoint from_le (bs : list Z) : Z :=
  match bs with
  | [] => 0
  | b :: bs => Z.lor b (Z.shiftl (from_le bs) 8)
  end.

(** [bytes.get(a..b)]. *)
Definition slice {A} (l : list A) (a b : nat) : option (list A) :=
  if decide (a <= b <= length l)%nat then Some (take (b - a) (drop a l)) else None.

#[global] Arguments slice : simpl never.

Lemma length_le_bytes n x : length (le_bytes n x) = n.
Proof. revert x. induction n; intros; simpl; auto. Qed.

Lemma from_le_bytes n x : 0 <= x < 256 ^ Z.of_nat n → from_le (le_bytes n x) = x.
Proof.
  revert x. induction n as [|n IH]; intros x Hx; simpl; [change (256 ^ Z.of_nat 0) with 1 in Hx; lia|].
  rewrite IH.
  - apply Z.bits_inj'. intros i Hi. rewrite Z.lor_spec, Z.land_spec.
    change 255 with (Z.ones 8). rewrite Z.testbit_ones_nonneg by lia.
    rewrite Z.shiftl_spec by done.
    destruct (Z.ltb_spec i 8) as [Hlt|Hge].
    + rewrite (Z.testbit_neg_r _ (i - 8)) by lia. by rewrite andb_true_r, orb_false_r.
    + rewrite andb_false_r, Z.shiftr_spec by lia. simpl. f_equal; lia.
  - rewrite Z.shiftr_div_pow2 by lia. change (2 ^ 8) with 256.
    rewrite Nat2Z.inj_succ, Z.pow_succ_r in Hx by lia.
    split; [apply Z.div_pos; lia|]. apply Z.div_lt_upper_bound; lia.
Qed.

Definition is_byte (b : Z) : Prop := 0 <= b < 256.

Lemma from_le_cons b bs : is_byte b → 0 <= from_le bs → from_le (b :: bs) = b + 256 * from_le bs.
Proof.
  intros Hb Hbs. simpl. rewrite Z.shiftl_mul_pow2 by lia. change (2 ^ 8) with 256.
  assert (Z.land b (from_le bs * 256) = 0) as Hd.
  { apply Z.bits_inj'. intros i Hi. rewrite Z.land_spec, Z.bits_0.
    change 256 with (2 ^ 8). rewrite <- Z.shiftl_mul_pow2 by lia.
    destruct (Z.ltb_spec i 8) as [Hlt|Hge].
    - rewrite Z.shiftl_spec, (Z.testbit_neg_r _ (i - 8)) by lia. apply andb_false_r.
    - assert (Z.testbit b i = false) as ->; [|done]. unfold is_byte in Hb.
      apply Z.testbit_false; [lia|]. rewrite Z.div_small; [done|].
      assert (2 ^ 8 <= 2 ^ i) by (apply Z.pow_le_mono_r; lia). lia. }
  pose proof (Z.add_lor_land b (from_le bs * 256)). lia.
Qed.

Lemma from_le_range bs : Forall is_byte bs → 0 <= from_le bs < 256 ^ Z.of_nat (length bs).
Proof.
  induction 1 as [|b bs Hb Hbs IH]; [done|]. rewrite from_le_cons by (done || lia).
  cbn [length]. rewrite Nat2Z.inj_succ, Z.pow_succ_r by lia. unfold is_byte in Hb. lia.
Qed.

Lemma from_le_u64 bs : Forall is_byte bs → (length bs <= 8)%nat → 0 <= from_le bs < two64.
Proof.
  intros Hb Hl. pose proof (from_le_range bs Hb).
  assert (256 ^ Z.of_nat (length bs) <= 256 ^ 8) by (apply Z.pow_le_mono_r; lia).
  change (256 ^ 8) with two64 in *. lia.
Qed.

(** [to_be_bytes] and [from_be_bytes]; a negative integer gives the bytes of
    its two's complement. *)
Definition be_bytes (n : nat) (x : Z) : list Z := rev (le_bytes n x).
Definition from_be (bs : list Z) : Z := from_le (rev bs).

(** The signed reading of a [w]-bit pattern ([as i8] of a [u8] and so on). *)
Definition to_signed (w x : Z) : Z := if x <? 2 ^ (w - 1) then x else x - 2 ^ w.

Lemma length_be_bytes n x : length (be_bytes n x) = n.
Proof. unfold be_bytes. by rewrite length_rev, length_le_bytes. Qed.

Lemma le_bytes_byte n x : Forall is_byte (le_bytes n x).
Proof.
  revert x. induction n as [|n IH]; intros x; [constructor|]. constructor; [|apply IH].
  unfold is_byte. change 255 with (Z.ones 8). rewrite Z.land_ones by lia.
  change 256 with (2 ^ 8). by apply Z.mod_pos_bound.
Qed.

Lemma be_bytes_byte n x : Forall is_byte (be_bytes n x).
Proof. apply Forall_rev, le_bytes_byte. Qed.

Lemma le_bytes_mod n x : le_bytes n (x mod 256 ^ Z.of_nat n) = le_bytes n x.
Proof.
  revert x. induction n as [|n IH]; intros x; [done|]. cbn [le_bytes]. f_equal.
  - change 255 with (Z.ones 8). rewrite !Z.land_ones by lia. change (2 ^ 8) with 256.
    rewrite Nat2Z.inj_succ, Z.pow_succ_r by lia.
    rewrite Z.rem_mul_r by lia. rewrite (Z.mul_comm 256), Z_mod_plus_full, Z.mod_mod; lia.
  - rewrite <- (IH (Z.shiftr x 8)). f_equal. rewrite !Z.shiftr_div_pow2 by lia. change (2 ^ 8) with 256.
    rewrite Nat2Z.inj_succ, Z.pow_succ_r by lia.
    rewrite Z.rem_mul_r by lia. rewrite (Z.mul_comm 256), Z.div_add by lia.
    by rewrite (Z.div_small (x mod 256)) by (apply Z.mod_pos_bound; lia).
Qed.

Lemma from_be_bytes n x : 0 <= x < 256 ^ Z.of_nat n → from_be (be_bytes n x) = x.
Proof. intros. unfold from_be, be_bytes. rewrite rev_involutive. by apply from_le_bytes. Qed.

Lemma from_be_range bs : Forall is_byte bs → 0 <= from_be bs < 256 ^ Z.of_nat (length bs).
Proof. intros. unfold from_be. rewrite <- length_rev. by apply from_le_range, Forall_rev. Qed.

(** Sign extension undoes truncation. *)
Lemma to_signed_mod w x : 0 < w → - 2 ^ (w - 1) <= x < 2 ^ (w - 1) → to_signed w (x mod 2 ^ w) = x.
Proof.
  intros Hw Hx. unfold to_signed.
  assert (2 ^ w = 2 * 2 ^ (w - 1)) as E by (rewrite <- Z.pow_succ_r by lia; f_equal; lia).
  destruct (decide (0 <= x)).
  - rewrite Z.mod_small by lia. by rewrite (proj2 (Z.ltb_lt _ _)) by lia.
  - rewrite <- (Z_mod_plus_full x 1), Z.mod_small by lia.
    rewrite (proj2 (Z.ltb_ge _ _)); lia.
Qed.

Lemma to_signed_range w x :
  0 < w → 0 <= x < 2 ^ w → - 2 ^ (w - 1) <= to_signed w x < 2 ^ (w - 1).
Proof.
  intros Hw Hx. unfold to_signed.
  assert (2 ^ w = 2 * 2 ^ (w - 1)) as E by (rewrite <- Z.pow_succ_r by lia; f_equal; lia).
  destruct (Z.ltb_spec x (2 ^ (w - 1))); lia.
Qed.

Lemma signed_be_bytes n x :
  (0 < n)%nat → - 2 ^ (8 * Z.of_nat n - 1) <= x < 2 ^ (8 * Z.of_nat n - 1) →
  to_signed (8 * Z.of_nat n) (from_be (be_bytes n x)) = x.
Proof.
  intros Hn Hx. unfold from_be, be_bytes. rewrite rev_involutive, <- le_bytes_mod.
  assert (256 ^ Z.of_nat n = 2 ^ (8 * Z.of_nat n)) as E.
  { change 256 with (2 ^ 8). by rewrite <- Z.pow_mul_r by lia. }
  rewrite from_le_bytes by (apply Z.mod_pos_bound, Z.pow_pos_nonneg; lia).
  rewrite E. apply to_signed_mod; lia.
Qed.

Lemma slice_app {A} (l1 l2 l3 : list A) a b :
  a = length l1 → b = (length l1 + length l2)%nat → slice (l1 ++ l2 ++ l3) a b = Some l2.
Proof.
  intros -> ->. unfold slice. rewrite decide_True by (rewrite !length_app; lia).
  rewrite drop_app_length. f_equal. apply take_app_length'. lia.
Qed.

#[global] Arguments le_bytes : simpl never.
#[global] Arguments from_le : simpl never.
#[global] Arguments be_bytes : simpl never.
#[global] Arguments from_be : simpl never.
#[global] Arguments to_signed : simpl never.

Lemma slice_None {A} (l : list A) a b : (length l < b)%nat → slice l a b = None.
Proof. intros. unfold slice. apply decide_False. lia. Qed.

(** ** Automation *)

(** Case analysis on every [match] and [if] of the goal or of [H]. *)
Ltac case_all :=
  repeat match goal with
  | |- context [match ?x with _ => _ end] => destruct x eqn:?; simplify_eq/=
  end.
Ltac case_all_in H :=
  repeat match type of H with
  | context [match ?x with _ => _ end] => destruct x eqn:?; simplify_eq/=
  end.

(** Turn the boolean comparisons of the source into propositions. *)
Ltac reflect_bools :=
  repeat match goal with
  | H : bool_decide _ = true |- _ => apply bool_decide_eq_true in H
  | H : bool_decide _ = false |- _ => apply bool_decide_eq_false in H
  | H : (_ <=? _) = true |- _ => apply Z.leb_le in H
  | H : (_ <=? _) = false |- _ => apply Z.leb_gt in H
  | H : (_ <? _) = true |- _ => apply Z.ltb_lt in H
  | H : (_ <? _) = false |- _ => apply Z.ltb_ge in H
  | H : (_ =? _) = true |- _ => apply Z.eqb_eq in H
  | H : (_ =? _) = false |- _ => apply Z.eqb_neq in H
  | H : (_ && _)%bool = true |- _ => apply andb_prop in H as [? ?]
  | H : (_ || _)%bool = false |- _ => apply orb_false_elim in H as [? ?]
  | H : u64_checked_add _ _ = Some _ |- _ => apply u64_checked_add_Some in H as [? ?]
  | H : u64_checked_add _ _ = None |- _ => apply u64_checked_add_None in H
  | H : negb _ = true |- _ => apply negb_true_iff in H
  | H : negb _ = false |- _ => apply negb_false_iff in H
  end.

Create HintDb fluree.
#[export] Hint Resolve wrap64_range : fluree.
