(* ===== verification/Kv.v ===== *)
(** * The replicated key/value fragment ([fluree-raft-core/src/kv.rs])

    The fragment an application embeds in its own replicated state machine:
    the records, the two denormalizations kept beside them (the expiry index
    and the byte total), the logical-time floor, the policy checks, and
    [apply] with its four commands.  [expiring] and the record map are the
    source's [BTreeSet] and [BTreeMap]: finite sets and maps whose iteration
    is in key order.  Byte counts are [u64] and wrap at their width. *)

From Stdlib Require Import Init.Byte.
From S2P Require Import Prelude.
Module Kv.

(** ** Constants *)

Definition HARD_MAX_EVICT_LIMIT : Z := 1024.
Definition DEFAULT_EVICT_LIMIT : Z := 256.
Definition DEFAULT_MAX_KEY_BYTES : Z := 1024.
Definition DEFAULT_MAX_VALUE_BYTES : Z := 1024 * 1024.

(** ** Commands and responses *)

Inductive Expect :=
  | Any
  | Absent
  | Version (v : Z).

Inductive KvCommand :=
  | Put (key : string) (value : list byte) (expect : Expect)
        (ttl_ms : option Z) (now_ms : Z)
  | Delete (key : string) (expect : Expect) (now_ms : Z)
  | TakeOnce (key : string) (now_ms : Z)
  | Evict (cutoff_ms : Z) (limit : Z).

(** [KvRecord], and [Record] and [KvRecordRef], which have the same fields:
    the borrowed and the stored form of a record differ in ownership only. *)
Record KvRecord := mkRecord {
  value : list byte;
  version : Z;
  expires_at_ms : option Z;
}.

Inductive KvRejection :=
  | KeyTooLarge (bytes max : Z)
  | ValueTooLarge (bytes max : Z)
  | TtlZero
  | TtlAboveMax (ttl_ms max_ttl_ms : Z)
  | TtlOverflow (now_ms ttl_ms : Z)
  | ImmortalNotAllowed
  | EntryQuotaExceeded (entries max : Z)
  | ByteQuotaExceeded (bytes max : Z).

Inductive KvResponse :=
  | Written (version : Z) (expires_at_ms : option Z)
  | Deleted (removed : bool)
  | Taken (record : option KvRecord)
  | Evicted (removed : Z) (more_expired : bool)
  | Conflict (current : option KvRecord)
  | Rejected (rejection : KvRejection).

(** ** Policy *)

Record KvPolicy := mkPolicy {
  max_key_bytes : Z;
  max_value_bytes : Z;
  max_ttl_ms : Z;
  allow_immortal : bool;
  max_entries : Z;
  max_bytes : Z;
  max_evict_per_apply : Z;
}.

(** [impl Default for KvPolicy]. *)
Definition default_policy : KvPolicy := {|
  max_key_bytes := DEFAULT_MAX_KEY_BYTES;
  max_value_bytes := DEFAULT_MAX_VALUE_BYTES;
  max_ttl_ms := 24 * 60 * 60 * 1000;
  allow_immortal := false;
  max_entries := 100000;
  max_bytes := 64 * 1024 * 1024;
  max_evict_per_apply := DEFAULT_EVICT_LIMIT;
|}.

(** [str::len] and [<[u8]>::len]. *)
Definition key_len (key : string) : Z := Z.of_nat (String.length key).
Definition value_len (v : list byte) : Z := Z.of_nat (length v).

(** [Result<(), KvRejection>]: [None] is [Ok(())]. *)
Definition check_key (p : KvPolicy) (key : string) : option KvRejection :=
  let bytes := key_len key in
  if max_key_bytes p <? bytes then Some (KeyTooLarge bytes (max_key_bytes p))
  else None.

Definition check_put (p : KvPolicy) (key : string) (v : list byte)
    (ttl_ms : option Z) (now_ms : Z) : KvRejection + option Z :=
  match check_key p key with
  | Some r => inl r
  | None =>
      let value_bytes := value_len v in
      if max_value_bytes p <? value_bytes
      then inl (ValueTooLarge value_bytes (max_value_bytes p))
      else
        match ttl_ms with
        | None => if negb (allow_immortal p) then inl ImmortalNotAllowed else inr None
        | Some ttl =>
            if ttl =? 0 then inl TtlZero
            else if max_ttl_ms p <? ttl then inl (TtlAboveMax ttl (max_ttl_ms p))
            else
              match u64_checked_add now_ms ttl with
              | Some at_ms => inr (Some at_ms)
              | None => inl (TtlOverflow now_ms ttl)
              end
        end
  end.

Definition evict_batch (p : KvPolicy) (limit : Z) : Z :=
  clamp limit 1 (clamp (max_evict_per_apply p) 1 HARD_MAX_EVICT_LIMIT).

(** ** State *)

Definition expired_at (r : KvRecord) (now_ms : Z) : bool :=
  match expires_at_ms r with Some at_ms => at_ms <=? now_ms | None => false end.

Definition footprint (r : KvRecord) (key : string) : Z :=
  key_len key +u64 value_len (value r).

(** An element of the expiry index, [(expires_at_ms, key, version)]. *)
Abbreviation expiry := (Z * string * Z)%type.

Record KvFragment := mkFragment {
  entries : gmap string KvRecord;
  expiring : gset expiry;
  bytes : Z;
  time_floor : Z;
}.

Definition empty_fragment : KvFragment := mkFragment ∅ ∅ 0 0.

(** The derived [Ord] of the index's tuples. *)
Definition expiry_le : relation expiry := lex_le (lex_le Z.le String.le) Z.le.

(** The instant a decision is made at, [KvFragment::at]. *)
Definition at_floor (f : KvFragment) (now_ms : Z) : Z := Z.max now_ms (time_floor f).

(** [entries.get(key).filter(|record| !record.expired_at(now_ms))]. *)
Definition live (f : KvFragment) (key : string) (now_ms : Z) : option KvRecord :=
  match entries f !! key with
  | Some r => if expired_at r now_ms then None else Some r
  | None => None
  end.

Definition get_at (f : KvFragment) (key : string) (now_ms : Z) : option KvRecord :=
  live f key (at_floor f now_ms).

Definition iter_at (f : KvFragment) (now_ms : Z) : list (string * KvRecord) :=
  List.filter (λ kr, negb (expired_at kr.2 (at_floor f now_ms))) (btree_iter (entries f)).

Definition physical_len (f : KvFragment) : Z := Z.of_nat (size (entries f)).

Definition physical_bytes (f : KvFragment) : Z := bytes f.

(** Everything strictly before [(cutoff_ms + 1, "", 0)] in the index's
    order, or the whole index when [cutoff_ms] is [u64::MAX]. *)
Definition expired_range (f : KvFragment) (cutoff_ms : Z) : list expiry :=
  let in_order := sort_by expiry_le (elements (expiring f)) in
  match u64_checked_add cutoff_ms 1 with
  | Some next =>
      List.filter (λ x, negb (bool_decide (expiry_le (next, EmptyString, 0) x))) in_order
  | None => in_order
  end.

Definition has_expired_at (f : KvFragment) (cutoff_ms : Z) : bool :=
  match expired_range f (at_floor f cutoff_ms) with [] => false | _ => true end.

(** The recomputed denormalizations of [KvFragment::check_invariants]. *)
Definition actual_bytes (m : gmap string KvRecord) : Z :=
  map_fold (λ key r acc, footprint r key +u64 acc) 0 m.

Definition actual_expiring (m : gmap string KvRecord) : gset expiry :=
  list_to_set (omap (λ kr, at_ms ← expires_at_ms kr.2; Some (at_ms, kr.1, version kr.2))
                    (map_to_list m)).

Inductive InvariantViolation :=
  | ByteTotal (stored actual : Z)
  | ExpiryIndex (stored actual : list expiry).

Definition check_invariants (f : KvFragment) : option InvariantViolation :=
  let actual := actual_bytes (entries f) in
  if negb (actual =? bytes f) then Some (ByteTotal (bytes f) actual)
  else
    let actual := actual_expiring (entries f) in
    if negb (bool_decide (actual = expiring f))
    then Some (ExpiryIndex (sort_by expiry_le (elements (expiring f)))
                           (sort_by expiry_le (elements actual)))
    else None.

(** ** Mutations *)

Definition index_remove (key : string) (r : KvRecord) (s : gset expiry) : gset expiry :=
  match expires_at_ms r with
  | Some at_ms => s ∖ {[ (at_ms, key, version r) ]}
  | None => s
  end.

Definition index_insert (key : string) (r : KvRecord) (s : gset expiry) : gset expiry :=
  match expires_at_ms r with
  | Some at_ms => {[ (at_ms, key, version r) ]} ∪ s
  | None => s
  end.

(** [KvFragment::take]. *)
Definition take_record (f : KvFragment) (key : string) : KvFragment * option KvRecord :=
  match entries f !! key with
  | None => (f, None)
  | Some r =>
      (mkFragment (delete key (entries f)) (index_remove key r (expiring f))
         (bytes f -u64 footprint r key) (time_floor f), Some r)
  end.

(** [KvFragment::insert]. *)
Definition insert_record (f : KvFragment) (key : string) (r : KvRecord) : KvFragment :=
  mkFragment (<[key := r]> (entries f)) (index_insert key r (expiring f))
    (bytes f +u64 footprint r key) (time_floor f).

Definition note_reclaimed_at (f : KvFragment) (now_ms : Z) : KvFragment :=
  mkFragment (entries f) (expiring f) (bytes f) (Z.max (time_floor f) now_ms).

Definition reclaim_if_expired (f : KvFragment) (key : string) (now_ms : Z) : KvFragment :=
  match entries f !! key with
  | Some r =>
      if expired_at r now_ms
      then note_reclaimed_at (take_record f key).1 now_ms
      else f
  | None => f
  end.

Definition conflict (f : KvFragment) (key : string) (now_ms : Z) : KvResponse :=
  Conflict (live f key now_ms).

(** ** Apply *)

Definition put_satisfied (f : KvFragment) (key : string) (e : Expect) (now_ms : Z) : bool :=
  match e with
  | Any => true
  | Absent => match live f key now_ms with None => true | Some _ => false end
  | Version want =>
      match live f key now_ms with Some r => version r =? want | None => false end
  end.

Definition put (f : KvFragment) (key : string) (v : list byte) (expect : Expect)
    (ttl_ms : option Z) (now_ms : Z) (p : KvPolicy) (log_index : Z)
    : KvFragment * KvResponse :=
  let now_ms := at_floor f now_ms in
  match check_put p key v ttl_ms now_ms with
  | inl rejection => (f, Rejected rejection)
  | inr expires =>
      if negb (put_satisfied f key expect now_ms) then (f, conflict f key now_ms)
      else
        let f := reclaim_if_expired f key now_ms in
        let displaced :=
          match entries f !! key with Some r => footprint r key | None => 0 end in
        let record := mkRecord v log_index expires in
        let after_bytes := bytes f -u64 displaced +u64 footprint record key in
        if max_bytes p <? after_bytes
        then (f, Rejected (ByteQuotaExceeded after_bytes (max_bytes p)))
        else
          let after_entries :=
            Z.of_nat (size (entries f)) +
            (if bool_decide (is_Some (entries f !! key)) then 0 else 1) in
          if max_entries p <? after_entries
          then (f, Rejected (EntryQuotaExceeded after_entries (max_entries p)))
          else
            let f := (take_record f key).1 in
            (insert_record f key record, Written log_index expires)
  end.

Definition delete_satisfied (e : Expect) (live_version : option Z) : bool :=
  match e with
  | Any => true
  | Absent => match live_version with None => true | Some _ => false end
  | Version want => bool_decide (live_version = Some want)
  end.

Definition delete_key (f : KvFragment) (key : string) (expect : Expect) (now_ms : Z)
    (p : KvPolicy) : KvFragment * KvResponse :=
  match check_key p key with
  | Some rejection => (f, Rejected rejection)
  | None =>
      let now_ms := at_floor f now_ms in
      let live_version := version <$> live f key now_ms in
      if negb (delete_satisfied expect live_version) then (f, conflict f key now_ms)
      else
        let f := reclaim_if_expired f key now_ms in
        match live_version with
        | Some _ =>
            let '(f, taken) := take_record f key in
            (f, Deleted (bool_decide (is_Some taken)))
        | None => (f, Deleted false)
        end
  end.

Definition take_once (f : KvFragment) (key : string) (now_ms : Z) (p : KvPolicy)
    : KvFragment * KvResponse :=
  match check_key p key with
  | Some rejection => (f, Rejected rejection)
  | None =>
      let now_ms := at_floor f now_ms in
      let f := reclaim_if_expired f key now_ms in
      match live f key now_ms with
      | Some _ => let '(f, record) := take_record f key in (f, Taken record)
      | None => (f, Taken None)
      end
  end.

(** The removal loop of [evict]: the fragment and how many keys it removed. *)
Fixpoint take_all (f : KvFragment) (doomed : list string) : KvFragment * Z :=
  match doomed with
  | [] => (f, 0)
  | key :: rest =>
      let '(f, taken) := take_record f key in
      let '(f, removed) := take_all f rest in
      (f, (if bool_decide (is_Some taken) then 1 else 0) + removed)
  end.

Definition evict (f : KvFragment) (cutoff_ms : Z) (limit : Z) : KvFragment * KvResponse :=
  let cutoff_ms := at_floor f cutoff_ms in
  let doomed := (λ x : expiry, x.1.2) <$> take (Z.to_nat limit) (expired_range f cutoff_ms) in
  let '(f, removed) := take_all f doomed in
  let f := if 0 <? removed then note_reclaimed_at f cutoff_ms else f in
  (f, Evicted removed (match expired_range f cutoff_ms with [] => false | _ => true end)).

Definition apply (f : KvFragment) (command : KvCommand) (p : KvPolicy) (log_index : Z)
    : KvFragment * KvResponse :=
  match command with
  | Put key v expect ttl_ms now_ms => put f key v expect ttl_ms now_ms p log_index
  | Delete key expect now_ms => delete_key f key expect now_ms p
  | TakeOnce key now_ms => take_once f key now_ms p
  | Evict cutoff_ms limit => evict f cutoff_ms (evict_batch p limit)
  end.

(** ** What crosses a snapshot *)

Record KvFragmentWire := mkWire {
  wire_entries : gmap string KvRecord;
  wire_time_floor : Z;
}.

Definition to_wire (f : KvFragment) : KvFragmentWire :=
  mkWire (entries f) (time_floor f).

Definition from_wire (w : KvFragmentWire) : KvFragment :=
  foldl (λ f kr, insert_record f kr.1 kr.2)
    (mkFragment ∅ ∅ 0 (wire_time_floor w)) (btree_iter (wire_entries w)).

End Kv.

(** * The invariant of the key/value fragment

    [wf p f]: both denormalizations of a fragment agree with its records, the
    physical quotas of the policy hold, and no byte count leaves [u64].  Every
    mutation of [Kv] preserves it, a snapshot round trip restores it, and
    [check_invariants] decides it. *)

Import Kv.

(** ** The byte total, without the machine width *)

Definition weight (key : string) (r : KvRecord) : Z := key_len key + value_len (value r).

Definition total (m : gmap string KvRecord) : Z :=
  map_fold (λ key r acc, weight key r + acc) 0 m.

(** Limits under which the [u64] sums of [put] cannot wrap. *)
Definition policy_ok (p : KvPolicy) : Prop :=
  0 <= max_bytes p ∧ 0 <= max_entries p ∧
  max_bytes p + Z.max 0 (max_key_bytes p) + Z.max 0 (max_value_bytes p) < two64.

(** The fields of a record are [u64]s. *)
Definition record_u64 (r : KvRecord) : Prop :=
  0 <= version r ∧ (∀ a, expires_at_ms r = Some a → a <= u64_max).

Record wf (p : KvPolicy) (f : KvFragment) : Prop := {
  wf_bytes : bytes f = total (entries f);
  wf_index : expiring f = actual_expiring (entries f);
  wf_max_bytes : total (entries f) <= max_bytes p;
  wf_max_entries : Z.of_nat (size (entries f)) <= max_entries p;
  wf_u64 : map_Forall (λ _ r, record_u64 r) (entries f);
}.

Lemma weight_nonneg key r : 0 <= weight key r.
Proof. unfold weight, key_len, value_len. lia. Qed.

Lemma total_insert m key r :
  m !! key = None → total (<[key := r]> m) = weight key r + total m.
Proof.
  intros Hk. unfold total. rewrite map_fold_insert_L; [done|intros; lia|done].
Qed.

Lemma total_delete m key r :
  m !! key = Some r → total m = weight key r + total (delete key m).
Proof.
  intros Hk. rewrite <- total_insert by apply lookup_delete_eq.
  by rewrite insert_delete_id.
Qed.

Lemma total_nonneg m : 0 <= total m.
Proof.
  induction m as [|key r m Hk IH] using map_ind; [done|].
  rewrite total_insert by done. pose proof (weight_nonneg key r). lia.
Qed.

Lemma weight_le_total m key r : m !! key = Some r → weight key r <= total m.
Proof.
  intros Hk. rewrite (total_delete m key r Hk).
  pose proof (total_nonneg (delete key m)). lia.
Qed.

Lemma footprint_weight key r : weight key r < two64 → footprint r key = weight key r.
Proof.
  intros. apply wrap64_small. pose proof (weight_nonneg key r). unfold weight in *. lia.
Qed.

(** ** The expiry index *)

Lemma elem_of_actual_expiring m at_ms key v :
  (at_ms, key, v) ∈ actual_expiring m ↔
  ∃ r, m !! key = Some r ∧ expires_at_ms r = Some at_ms ∧ version r = v.
Proof.
  unfold actual_expiring. rewrite elem_of_list_to_set, list_elem_of_omap.
  split.
  - intros ([k r] & Hin%elem_of_map_to_list & Heq); simpl in *.
    destruct (expires_at_ms r) as [a|] eqn:?; simplify_eq/=. eauto.
  - intros (r & Hk & He & <-). exists (key, r).
    rewrite elem_of_map_to_list; simpl. by rewrite He.
Qed.

Lemma actual_expiring_delete m key r :
  m !! key = Some r →
  actual_expiring (delete key m) = index_remove key r (actual_expiring m).
Proof.
  intros Hk. apply set_eq. intros [[a k] v]. unfold index_remove.
  rewrite elem_of_actual_expiring.
  destruct (expires_at_ms r) as [at_ms|] eqn:He;
    rewrite ?elem_of_difference, ?elem_of_singleton, elem_of_actual_expiring;
    setoid_rewrite lookup_delete_Some; split.
  - intros (r' & [Hne Hk'] & ? & ?). split; [eauto|]. naive_solver.
  - intros [(r' & Hk' & ? & ?) Hne]. exists r'. split_and!; auto.
    intros ->. naive_solver.
  - naive_solver.
  - intros (r' & Hk' & ? & ?). exists r'. split_and!; auto. intros ->. naive_solver.
Qed.

Lemma actual_expiring_insert m key r :
  m !! key = None →
  actual_expiring (<[key := r]> m) = index_insert key r (actual_expiring m).
Proof.
  intros Hk. apply set_eq. intros [[a k] v]. unfold index_insert.
  rewrite elem_of_actual_expiring.
  destruct (expires_at_ms r) as [at_ms|] eqn:He;
    rewrite ?elem_of_union, ?elem_of_singleton, elem_of_actual_expiring;
    setoid_rewrite lookup_insert_Some; naive_solver.
Qed.

(** ** The elementary mutations preserve it *)

Lemma wf_empty p : policy_ok p → wf p empty_fragment.
Proof. intros (? & ? & _). by split. Qed.

Section preservation.
Context (p : KvPolicy) (Hp : policy_ok p).

Lemma wf_footprint f key r :
  wf p f → entries f !! key = Some r → footprint r key = weight key r.
Proof.
  intros [? ? Hb _ _] Hk. apply footprint_weight.
  pose proof (weight_le_total _ _ _ Hk). unfold policy_ok in Hp. lia.
Qed.

Lemma take_record_wf f key : wf p f → wf p (take_record f key).1.
Proof.
  intros Hf. unfold take_record. destruct (entries f !! key) as [r|] eqn:Hk; [|done].
  pose proof (wf_footprint f key r Hf Hk) as Hfp. destruct Hf as [Hb Hi Hm He Hu].
  pose proof (total_delete _ _ _ Hk) as Ht.
  pose proof (total_nonneg (delete key (entries f))).
  pose proof (weight_nonneg key r).
  split; simpl.
  - rewrite Hfp, Hb, Ht. unfold u64_sub.
    rewrite wrap64_small; unfold policy_ok in Hp; lia.
  - rewrite Hi. symmetry. by apply actual_expiring_delete.
  - lia.
  - rewrite map_size_delete_Some by eauto. lia.
  - by apply map_Forall_delete.
Qed.

Lemma note_reclaimed_at_wf f now : wf p f → wf p (note_reclaimed_at f now).
Proof. intros []; by split. Qed.

Lemma reclaim_if_expired_wf f key now : wf p f → wf p (reclaim_if_expired f key now).
Proof.
  intros Hf. unfold reclaim_if_expired. case_all; auto.
  by apply note_reclaimed_at_wf, take_record_wf.
Qed.

Lemma insert_record_wf f key r :
  wf p f → entries f !! key = None →
  weight key r + total (entries f) <= max_bytes p →
  Z.of_nat (size (entries f)) + 1 <= max_entries p →
  record_u64 r →
  wf p (insert_record f key r).
Proof.
  intros [Hb Hi Hm He Hu] Hk Hw Hs Hr. pose proof (weight_nonneg key r).
  pose proof (total_nonneg (entries f)). unfold policy_ok in Hp.
  split; simpl.
  - rewrite total_insert, footprint_weight, Hb by (done || lia).
    unfold u64_add. rewrite wrap64_small; lia.
  - rewrite Hi. symmetry. by apply actual_expiring_insert.
  - by rewrite total_insert.
  - rewrite map_size_insert_None by done. lia.
  - by apply map_Forall_insert_2.
Qed.

Lemma take_all_wf f doomed : wf p f → wf p (take_all f doomed).1.
Proof.
  revert f. induction doomed as [|key doomed IH]; intros f Hf; simpl; [done|].
  pose proof (take_record_wf f key Hf).
  destruct (take_record f key) as [f1 t] eqn:E1; simpl in *.
  destruct (take_all f1 doomed) as [f2 n] eqn:E2; simpl.
  specialize (IH f1 H). by rewrite E2 in IH.
Qed.

Lemma check_put_weight key v ttl now expires :
  check_put p key v ttl now = inr expires →
  key_len key <= max_key_bytes p ∧ value_len v <= max_value_bytes p ∧
  (∀ a, expires = Some a → a <= u64_max).
Proof.
  unfold check_put. destruct (check_key p key) eqn:Hk; [done|].
  unfold check_key in Hk. intros H. case_all_in Hk; case_all_in H;
    reflect_bools; split_and!; try lia; intros; simplify_eq; lia.
Qed.

Lemma put_wf f key v expect ttl now idx :
  0 <= idx → wf p f → wf p (put f key v expect ttl now p idx).1.
Proof.
  intros Hidx Hf. unfold put.
  destruct (check_put _ _ _ _ _) as [rj|expires] eqn:Hc; [done|].
  apply check_put_weight in Hc as (Hkl & Hvl & Hexp).
  destruct (negb _); [done|].
  set (f1 := reclaim_if_expired _ _ _).
  assert (wf p f1) as Hf1 by by apply reclaim_if_expired_wf.
  set (r := mkRecord v idx expires).
  destruct (max_bytes p <? _) eqn:Hbq; [done|].
  destruct (max_entries p <? _) eqn:Heq; [done|].
  reflect_bools. simpl. fold r.
  pose proof (weight_nonneg key r). assert (weight key r < two64).
  { unfold weight, policy_ok in *. simpl. lia. }
  rewrite footprint_weight in Hbq by done. pose proof (take_record_wf f1 key Hf1) as Hf2.
  pose proof (total_nonneg (delete key (entries f1))).
  assert (weight key r <= Z.max 0 (max_key_bytes p) + Z.max 0 (max_value_bytes p)).
  { unfold weight; simpl; lia. }
  destruct Hf1 as [Hb1 Hi1 Hm1 He1 Hu1] eqn:E. clear E.
  assert (record_u64 r) by by split.
  unfold take_record in *. destruct (entries f1 !! key) as [r0|] eqn:Hk; simpl in *.
  - pose proof (total_delete _ _ _ Hk).
    rewrite (wf_footprint f1 key r0) in Hbq by done.
    pose proof (weight_nonneg key r0).
    unfold policy_ok, u64_sub, u64_add in *.
    rewrite (wrap64_small (bytes f1 - _)), wrap64_small in Hbq by lia.
    assert (0 < Z.of_nat (size (entries f1))).
    { assert (size (entries f1) ≠ 0%nat); [|lia]. apply map_size_non_empty_iff. intros He.
      by rewrite He in Hk. }
    apply insert_record_wf; simpl; [done|apply lookup_delete_eq|lia| |done].
    rewrite map_size_delete_Some by eauto. lia.
  - unfold policy_ok, u64_sub, u64_add in *. pose proof (total_nonneg (entries f1)).
    rewrite (wrap64_small (bytes f1 - _)), wrap64_small in Hbq by lia.
    apply insert_record_wf; [done|done|lia|lia|done].
Qed.

Lemma delete_key_wf f key expect now : wf p f → wf p (delete_key f key expect now p).1.
Proof.
  intros Hf. unfold delete_key. destruct (check_key _ _); [done|].
  destruct (negb _); [done|]. set (f1 := reclaim_if_expired _ _ _).
  assert (wf p f1) as Hf1 by by apply reclaim_if_expired_wf.
  destruct (_ <$> _); [|done].
  pose proof (take_record_wf f1 key Hf1). by destruct (take_record f1 key).
Qed.

Lemma take_once_wf f key now : wf p f → wf p (take_once f key now p).1.
Proof.
  intros Hf. unfold take_once. destruct (check_key _ _); [done|].
  set (f1 := reclaim_if_expired _ _ _).
  assert (wf p f1) as Hf1 by by apply reclaim_if_expired_wf.
  destruct (live _ _ _); [|done].
  pose proof (take_record_wf f1 key Hf1). by destruct (take_record f1 key).
Qed.

Lemma evict_wf f cutoff limit : wf p f → wf p (evict f cutoff limit).1.
Proof.
  intros Hf. unfold evict. set (doomed := _ <$> _).
  pose proof (take_all_wf f doomed Hf). destruct (take_all f doomed) as [f1 n]; simpl in *.
  destruct (0 <? n); auto using note_reclaimed_at_wf.
Qed.

Lemma apply_wf f command idx :
  0 <= idx → wf p f → wf p (apply f command p idx).1.
Proof.
  intros Hidx Hf. destruct command; simpl;
    auto using put_wf, delete_key_wf, take_once_wf, evict_wf.
Qed.
End preservation.

#[export] Hint Resolve take_record_wf reclaim_if_expired_wf note_reclaimed_at_wf
  apply_wf : fluree.
