(* ===== verification/KvRefine.v ===== *)
(** * What the key/value fragment promises its clients

    An observer never sees whether an expired record has been swept: a store
    is what a read returns at every instant, together with the logical-time
    floor below which no decision is made.  [spec_step] gives the effect of
    each command on that view, in terms of what an observer could have read;
    [LogicalKv] is the interface an implementation discharges, and the lease
    and fencing theorems are proved against it. *)

From Stdlib Require Import Init.Byte.
From S2P Require Import Prelude Kv.
Import Kv.

(** ** The logical store *)

Record LStore := mkLStore {
  l_read : string → Z → option KvRecord;
  l_floor : Z;
}.

Definition instant (s : LStore) (now_ms : Z) : Z := Z.max now_ms (l_floor s).

(** What a record reads as at [t]: itself until it expires, then nothing. *)
Definition visible (r : KvRecord) (t : Z) : option KvRecord :=
  if expired_at r t then None else Some r.

Definition cmd_time (c : KvCommand) : Z :=
  match c with
  | Put _ _ _ _ now | Delete _ _ now | TakeOnce _ now => now
  | Evict cutoff _ => cutoff
  end.

Definition cmd_key (c : KvCommand) : option string :=
  match c with
  | Put k _ _ _ _ | Delete k _ _ | TakeOnce k _ => Some k
  | Evict _ _ => None
  end.

(** The precondition of a mutation, evaluated on what a reader sees. *)
Definition satisfied (e : Expect) (current : option KvRecord) : Prop :=
  match e with
  | Any => True
  | Absent => current = None
  | Version v => ∃ r, current = Some r ∧ version r = v
  end.

(** [k] reads in [s'] as it read in [s], at instants clipped to the new floor. *)
Definition carries (s s' : LStore) (k : string) : Prop :=
  ∀ t, l_read s' k t = l_read s k (instant s' t).

(** Logical time never runs backwards, and never passes the command's instant. *)
Definition advances (s s' : LStore) (now_ms : Z) : Prop :=
  l_floor s <= l_floor s' <= instant s now_ms.

(** Why a command may be refused: its shape, or a physical quota. *)
Definition refusable (p : KvPolicy) (s : LStore) (c : KvCommand) (rj : KvRejection) : Prop :=
  match c with
  | Put k v _ ttl now =>
      check_put p k v ttl (instant s now) = inl rj ∨
      (∃ n, rj = ByteQuotaExceeded n (max_bytes p) ∧ max_bytes p < n) ∨
      (∃ n, rj = EntryQuotaExceeded n (max_entries p) ∧ max_entries p < n)
  | Delete k _ _ | TakeOnce k _ => check_key p k = Some rj
  | Evict _ _ => False
  end.

Inductive spec_step (p : KvPolicy) (idx : Z) (s : LStore)
    : KvCommand → LStore → KvResponse → Prop :=
  | spec_rejected c s' rj :
      refusable p s c rj →
      (∀ k, carries s s' k) → advances s s' (cmd_time c) →
      spec_step p idx s c s' (Rejected rj)
  | spec_put_conflict k v e ttl now s' :
      ¬ satisfied e (l_read s k now) →
      (∀ k', carries s s' k') → l_floor s' = l_floor s →
      spec_step p idx s (Put k v e ttl now) s' (Conflict (l_read s k now))
  | spec_put_written k v e ttl now s' expires :
      check_put p k v ttl (instant s now) = inr expires →
      satisfied e (l_read s k now) →
      (∀ t, l_read s' k t = visible (mkRecord v idx expires) (instant s' t)) →
      (∀ k', k' ≠ k → carries s s' k') → advances s s' now →
      spec_step p idx s (Put k v e ttl now) s' (Written idx expires)
  | spec_delete_conflict k e now s' :
      ¬ satisfied e (l_read s k now) →
      (∀ k', carries s s' k') → l_floor s' = l_floor s →
      spec_step p idx s (Delete k e now) s' (Conflict (l_read s k now))
  | spec_deleted k e now s' :
      satisfied e (l_read s k now) →
      (∀ t, l_read s' k t = None) →
      (∀ k', k' ≠ k → carries s s' k') → advances s s' now →
      spec_step p idx s (Delete k e now) s' (Deleted (bool_decide (is_Some (l_read s k now))))
  | spec_taken k now s' :
      (∀ t, l_read s' k t = None) →
      (∀ k', k' ≠ k → carries s s' k') → advances s s' now →
      spec_step p idx s (TakeOnce k now) s' (Taken (l_read s k now))
  | spec_evicted cutoff limit s' n more :
      (∀ k, carries s s' k) → advances s s' cutoff →
      spec_step p idx s (Evict cutoff limit) s' (Evicted n more).

(** ** The interface *)

Class LogicalKv (St : Type) := {
  kv_apply : St → KvCommand → KvPolicy → Z → St * KvResponse;
  kv_abs : St → LStore;
  kv_ok : KvPolicy → St → Prop;
  kv_preserves : ∀ p st c idx,
    0 <= idx → kv_ok p st → kv_ok p (kv_apply st c p idx).1;
  kv_refines : ∀ p st c idx,
    0 <= idx → kv_ok p st →
    spec_step p idx (kv_abs st) c (kv_abs (kv_apply st c p idx).1) (kv_apply st c p idx).2;
}.

(** ** Leases *)

(** [key] holds [r]: it reads as [r] until [r] expires. *)
Definition holds (s : LStore) (key : string) (r : KvRecord) : Prop :=
  ∀ t, l_read s key t = visible r (instant s t).

(** A command that respects the fence of the record with version [v]: it may
    act on [key] only on the precondition that the record is not there. *)
Definition respects (key : string) (v : Z) (c : KvCommand) : Prop :=
  match c with
  | Put k _ e _ _ | Delete k e _ =>
      k ≠ key ∨ e = Absent ∨ ∃ w, e = Version w ∧ w ≠ v
  | TakeOnce k _ => k ≠ key
  | Evict _ _ => True
  end.

Lemma instant_carry s s' now t :
  advances s s' now → instant s (instant s' t) = instant s' t.
Proof. unfold advances, instant. lia. Qed.

Lemma holds_carry s s' key r now :
  holds s key r → carries s s' key → advances s s' now → holds s' key r.
Proof.
  intros Hh Hc Ha t. by rewrite Hc, Hh, (instant_carry _ _ _ _ Ha).
Qed.

Lemma respects_satisfied r e w :
  e = Absent ∨ (∃ w, e = Version w ∧ w ≠ version r) → w = Some r →
  ¬ satisfied e w.
Proof. intros [->|(v & -> & Hv)] ->; simpl; naive_solver. Qed.

(** The holder of an unexpired record keeps it across a fence-respecting
    command, which can only be refused on the key. *)
Lemma lease_step p idx s c s' resp key r :
  spec_step p idx s c s' resp →
  holds s key r → respects key (version r) c →
  expired_at r (instant s (cmd_time c)) = false →
  holds s' key r ∧
  (cmd_key c = Some key → resp = Conflict (Some r) ∨ ∃ rj, resp = Rejected rj).
Proof.
  intros Hs Hh Hr He.
  assert (l_read s key (cmd_time c) = Some r) as Hread.
  { rewrite Hh. unfold visible. by rewrite He. }
  destruct Hs; simpl in *.
  - eauto using holds_carry.
  - split; [|intros [= ->]; left; by rewrite Hread].
    eapply (holds_carry _ _ _ _ now); eauto. unfold advances, instant; lia.
  - assert (k ≠ key) as Hne.
    { intros ->. destruct Hr as [?|Hr]; [done|].
      by eapply respects_satisfied in Hr; [|exact Hread]. }
    split; [eauto using holds_carry|congruence].
  - split; [|intros [= ->]; left; by rewrite Hread].
    eapply (holds_carry _ _ _ _ now); eauto. unfold advances, instant; lia.
  - assert (k ≠ key) as Hne.
    { intros ->. destruct Hr as [?|Hr]; [done|].
      by eapply respects_satisfied in Hr; [|exact Hread]. }
    split; [eauto using holds_carry|congruence].
  - split; [eauto using holds_carry|congruence].
  - split; [eauto using holds_carry|done].
Qed.

(** ** Runs of an implementation *)

Section client.
Context {St : Type} `{!LogicalKv St} (p : KvPolicy).

Fixpoint kv_run (st : St) (log : list (Z * KvCommand)) : St * list KvResponse :=
  match log with
  | [] => (st, [])
  | (idx, c) :: log =>
      let '(st', r) := kv_apply st c p idx in
      let '(st'', rs) := kv_run st' log in
      (st'', r :: rs)
  end.

(** Every command of [log] is decided before [r] expires, on the clock the
    store had when the command arrived. *)
Fixpoint within (r : KvRecord) (st : St) (log : list (Z * KvCommand)) : Prop :=
  match log with
  | [] => True
  | (idx, c) :: log =>
      expired_at r (instant (kv_abs st) (cmd_time c)) = false ∧
      within r (kv_apply st c p idx).1 log
  end.

Lemma lease_run st log key r :
  kv_ok p st → holds (kv_abs st) key r →
  Forall (λ ic, 0 <= ic.1 ∧ respects key (version r) ic.2) log →
  within r st log →
  holds (kv_abs (kv_run st log).1) key r ∧
  Forall2 (λ ic resp, cmd_key ic.2 = Some key →
             resp = Conflict (Some r) ∨ ∃ rj, resp = Rejected rj)
          log (kv_run st log).2.
Proof.
  revert st. induction log as [|[idx c] log IH]; intros st Hok Hh Hlog Hw; simpl.
  { auto. }
  apply Forall_cons in Hlog as [[Hidx Hresp] Hlog]. destruct Hw as [Hexp Hw].
  simpl in *.
  pose proof (kv_refines p st c idx Hidx Hok) as Href.
  pose proof (kv_preserves p st c idx Hidx Hok) as Hok'.
  destruct (kv_apply st c p idx) as [st1 r1] eqn:E; simpl in *.
  eapply lease_step in Href as [Hh1 Hr1]; [|done..].
  specialize (IH st1 Hok' Hh1 Hlog Hw) as [IH1 IH2].
  destruct (kv_run st1 log) as [st2 rs]; simpl in *. auto.
Qed.
End client.

(** * The key/value fragment implements its specification

    [apply] of [Kv] refines [spec_step]: whether an expired record
    is still physically present cannot be observed.  [KvFragment] is made an
    instance of [LogicalKv], which gives it the lease theorem. *)

Import Kv.

(** What an observer of a fragment can see. *)
Definition abs (f : KvFragment) : LStore := mkLStore (get_at f) (time_floor f).

Lemma expired_at_mono r t t' : t <= t' → expired_at r t = true → expired_at r t' = true.
Proof. unfold expired_at. destruct (expires_at_ms r); [|done]. intros; lia. Qed.

Lemma expired_at_mono_false r t t' :
  t <= t' → expired_at r t' = false → expired_at r t = false.
Proof.
  intros Hle Hf. destruct (expired_at r t) eqn:E; [|done].
  by rewrite (expired_at_mono _ _ _ Hle E) in Hf.
Qed.

Lemma get_at_floor f k t : get_at f k (at_floor f t) = get_at f k t.
Proof. unfold get_at, at_floor. f_equal. lia. Qed.

Lemma carries_refl f k : carries (abs f) (abs f) k.
Proof. intros t. symmetry. apply get_at_floor. Qed.

Lemma advances_refl s now : advances s s now.
Proof. unfold advances, instant. lia. Qed.

Lemma live_visible f k r t : entries f !! k = Some r → live f k t = visible r t.
Proof. unfold live, visible. by intros ->. Qed.

(** ** Physical reclamation is invisible *)

Lemma take_record_entries f k : entries (take_record f k).1 = delete k (entries f).
Proof.
  unfold take_record. destruct (entries f !! k) eqn:E; simpl; [done|].
  by rewrite delete_id.
Qed.

Lemma take_record_floor f k : time_floor (take_record f k).1 = time_floor f.
Proof. unfold take_record. by destruct (entries f !! k). Qed.

Lemma take_record_result f k : (take_record f k).2 = entries f !! k.
Proof. unfold take_record. by destruct (entries f !! k). Qed.

Lemma take_record_live_ne f k k' t : k' ≠ k → live (take_record f k).1 k' t = live f k' t.
Proof. intros. unfold live. by rewrite take_record_entries, lookup_delete_ne. Qed.

Lemma take_record_live_eq f k t : live (take_record f k).1 k t = None.
Proof. unfold live. by rewrite take_record_entries, lookup_delete_eq. Qed.

Lemma reclaim_floor f k now :
  time_floor f <= time_floor (reclaim_if_expired f k now) <= Z.max now (time_floor f).
Proof.
  unfold reclaim_if_expired. case_all; simpl; rewrite ?take_record_floor; lia.
Qed.

Lemma reclaim_carries f k k' now : carries (abs f) (abs (reclaim_if_expired f k now)) k'.
Proof.
  intros t. unfold reclaim_if_expired.
  destruct (entries f !! k) as [r|] eqn:E; [|apply carries_refl].
  destruct (expired_at r now) eqn:Er; [|apply carries_refl].
  unfold abs, instant, get_at, at_floor. simpl. rewrite take_record_floor.
  replace (live (note_reclaimed_at (take_record f k).1 now) k')
    with (live (take_record f k).1 k') by done.
  replace (Z.max (Z.max t (Z.max (time_floor f) now)) (time_floor f))
    with (Z.max t (Z.max (time_floor f) now)) by lia.
  destruct (decide (k' = k)) as [->|]; [|by apply take_record_live_ne].
  rewrite take_record_live_eq, (live_visible _ _ _ _ E). unfold visible.
  by rewrite (expired_at_mono r now) by (done || lia).
Qed.

(** After reclaiming at [now], what is physically left of the key is live. *)
Lemma reclaim_entries f k now :
  entries (reclaim_if_expired f k now) !! k = live f k now.
Proof.
  unfold reclaim_if_expired, live. destruct (entries f !! k) as [r|] eqn:E; [|done].
  destruct (expired_at r now); simpl; [|done].
  by rewrite take_record_entries, lookup_delete_eq.
Qed.

Lemma reclaim_take_carries f k k' now :
  k' ≠ k → carries (abs f) (abs (take_record (reclaim_if_expired f k now) k).1) k'.
Proof.
  intros Hne t. set (f1 := reclaim_if_expired f k now).
  pose proof (reclaim_carries f k k' now t) as Hc. fold f1 in Hc.
  unfold abs, instant, get_at, at_floor in *. simpl in *.
  by rewrite take_record_floor, take_record_live_ne.
Qed.

Lemma reclaim_advances f k now :
  advances (abs f) (abs (reclaim_if_expired f k now)) now.
Proof. unfold advances, instant; simpl. apply reclaim_floor. Qed.

Lemma reclaim_take_advances f k now :
  advances (abs f) (abs (take_record (reclaim_if_expired f k now) k).1) now.
Proof. unfold advances, instant; simpl. rewrite take_record_floor. apply reclaim_floor. Qed.

Lemma advances_at f f' now :
  advances (abs f) (abs f') (at_floor f now) → advances (abs f) (abs f') now.
Proof. unfold advances, instant, at_floor; simpl. lia. Qed.

(** ** The precondition *)

Lemma put_satisfied_spec f k e t :
  put_satisfied f k e t = true ↔ satisfied e (live f k t).
Proof.
  destruct e; simpl; [done| |]; destruct (live f k t) as [r|]; try naive_solver.
  rewrite Z.eqb_eq. naive_solver.
Qed.

Lemma delete_satisfied_spec f k e t :
  delete_satisfied e (version <$> live f k t) = true ↔ satisfied e (live f k t).
Proof.
  destruct e; simpl; [done| |]; destruct (live f k t) as [r|]; simpl;
    rewrite ?bool_decide_eq_true; split; try done.
  - intros [= <-]. eauto.
  - by intros (? & [= <-] & ->).
  - by intros (? & ? & _).
Qed.

(** ** The commands *)

Lemma put_refines p idx f k v e ttl now :
  spec_step p idx (abs f) (Put k v e ttl now)
    (abs (put f k v e ttl now p idx).1) (put f k v e ttl now p idx).2.
Proof.
  unfold put. set (t := at_floor f now).
  destruct (check_put p k v ttl t) as [rj|expires] eqn:Hc; simpl.
  { apply spec_rejected; [by left|intros; apply carries_refl|apply advances_refl]. }
  destruct (put_satisfied f k e t) eqn:Hs; simpl.
  2:{ apply spec_put_conflict; [|intros; apply carries_refl|done].
      change (l_read (abs f) k now) with (live f k t).
      rewrite <- put_satisfied_spec. by rewrite Hs. }
  apply put_satisfied_spec in Hs. set (f1 := reclaim_if_expired f k t).
  destruct (max_bytes p <? _) eqn:Hb; simpl.
  { apply spec_rejected; [right; left; reflect_bools; eauto|
      intros; apply reclaim_carries|apply advances_at, reclaim_advances]. }
  destruct (max_entries p <? _) eqn:He; simpl.
  { apply spec_rejected; [right; right; reflect_bools; eauto|
      intros; apply reclaim_carries|apply advances_at, reclaim_advances]. }
  apply spec_put_written; [done|done| | |].
  - intros t'. apply live_visible. simpl. apply lookup_insert_eq.
  - intros k' Hne t'. pose proof (reclaim_take_carries f k k' t Hne t') as Hct.
    fold f1 in Hct. unfold abs, instant, get_at, at_floor, live in *. simpl in *.
    rewrite <- Hct. by rewrite lookup_insert_ne by done.
  - apply advances_at, (reclaim_take_advances f k t).
Qed.

Lemma delete_refines p idx f k e now :
  spec_step p idx (abs f) (Delete k e now)
    (abs (delete_key f k e now p).1) (delete_key f k e now p).2.
Proof.
  unfold delete_key. set (t := at_floor f now).
  destruct (check_key p k) as [rj|] eqn:Hc; simpl.
  { apply spec_rejected; [done|intros; apply carries_refl|apply advances_refl]. }
  destruct (delete_satisfied e _) eqn:Hs; simpl.
  2:{ apply spec_delete_conflict; [|intros; apply carries_refl|done].
      change (l_read (abs f) k now) with (live f k t).
      rewrite <- delete_satisfied_spec. by rewrite Hs. }
  apply delete_satisfied_spec in Hs. set (f1 := reclaim_if_expired f k t).
  pose proof (reclaim_entries f k t) as Hent. fold f1 in Hent.
  destruct (live f k t) as [r|] eqn:Hl; simpl.
  - pose proof (take_record_result f1 k) as Hr.
    pose proof (reclaim_take_carries f k) as Hcar.
    pose proof (reclaim_take_advances f k t) as Hadv.
    pose proof (take_record_live_eq f1 k) as Hnone. subst f1.
    destruct (take_record _ k) as [f2 o] eqn:E; simpl in *. rewrite Hr, Hent.
    pose proof (spec_deleted p idx (abs f) k e now (abs f2)) as Hd.
    change (l_read (abs f) k now) with (live f k t) in Hd. rewrite Hl in Hd. apply Hd; auto.
    + intros t'. apply Hnone.
    + intros k' Hne t'. specialize (Hcar k' t Hne t'). by rewrite E in Hcar.
    + by apply advances_at.
  - pose proof (spec_deleted p idx (abs f) k e now (abs f1)) as Hd.
    change (l_read (abs f) k now) with (live f k t) in Hd. rewrite Hl in Hd. apply Hd; auto.
    + intros t'. simpl. unfold get_at, live. by rewrite Hent.
    + intros k' _. apply reclaim_carries.
    + apply advances_at, reclaim_advances.
Qed.

Lemma take_once_refines p idx f k now :
  spec_step p idx (abs f) (TakeOnce k now)
    (abs (take_once f k now p).1) (take_once f k now p).2.
Proof.
  unfold take_once. set (t := at_floor f now).
  destruct (check_key p k) as [rj|] eqn:Hc; simpl.
  { apply spec_rejected; [done|intros; apply carries_refl|apply advances_refl]. }
  set (f1 := reclaim_if_expired f k t).
  pose proof (reclaim_entries f k t) as Hent. fold f1 in Hent.
  assert (live f1 k t = live f k t) as Hl1.
  { unfold live at 1. rewrite Hent. unfold live.
    destruct (entries f !! k) as [r|]; [|done].
    destruct (expired_at r t) eqn:E; [done|]. by rewrite E. }
  rewrite Hl1. change (live f k t) with (l_read (abs f) k now).
  destruct (l_read (abs f) k now) as [r|] eqn:Hl.
  - pose proof (take_record_result f1 k) as Hr.
    pose proof (reclaim_take_carries f k) as Hcar.
    pose proof (reclaim_take_advances f k t) as Hadv.
    pose proof (take_record_live_eq f1 k) as Hnone. subst f1.
    destruct (take_record _ k) as [f2 o] eqn:E; simpl in *.
    rewrite Hr, Hent. change (live f k t) with (l_read (abs f) k now).
    apply spec_taken.
    + intros t'. apply Hnone.
    + intros k' Hne t'. specialize (Hcar k' t Hne t'). by rewrite E in Hcar.
    + by apply advances_at.
  - simpl. rewrite <- Hl. apply spec_taken.
    + intros t'. simpl. unfold get_at, live. rewrite Hent.
      change (live f k t) with (l_read (abs f) k now). by rewrite Hl.
    + intros k' _. apply reclaim_carries.
    + apply advances_at, reclaim_advances.
Qed.

(** ** The sweep *)

Lemma expiry_le_bound next a k v :
  0 <= v → expiry_le (next, EmptyString, 0) (a, k, v) ↔ next <= a.
Proof.
  intros Hv. unfold expiry_le, lex_le; simpl.
  assert (String.le EmptyString k) by by destruct k.
  destruct (Z.le_gt_cases next a); [|naive_solver lia]. split; [done|intros _].
  destruct (decide (a <= next)) as [Ha|]; [|naive_solver].
  destruct (decide (String.le k EmptyString)); naive_solver.
Qed.

Lemma elem_of_expired_range p f c x :
  wf p f → x ∈ expired_range f c ↔ x ∈ expiring f ∧ x.1.1 <= c.
Proof.
  intros Hf. destruct x as [[a k] v]; simpl.
  assert ((a, k, v) ∈ expiring f → 0 <= v ∧ a <= u64_max) as Hu.
  { rewrite (wf_index p f Hf), elem_of_actual_expiring. intros (r & Hr & He & <-).
    destruct (wf_u64 p f Hf k r Hr). auto. }
  unfold expired_range. destruct (u64_checked_add c 1) as [next|] eqn:Hc; reflect_bools.
  - rewrite list_elem_of_In, filter_In, <- list_elem_of_In, elem_of_sort_by, elem_of_elements.
    rewrite negb_true_iff, bool_decide_eq_false. split; intros [Hin Hle];
      (split; [done|]); rewrite expiry_le_bound in * by naive_solver; lia.
  - rewrite elem_of_sort_by, elem_of_elements. naive_solver lia.
Qed.

Lemma expired_range_NoDup f c : NoDup (expired_range f c).
Proof.
  unfold expired_range. assert (NoDup (sort_by expiry_le (elements (expiring f)))) as Hn.
  { rewrite sort_by_Permutation. apply NoDup_elements. }
  destruct (u64_checked_add c 1); [|done].
  apply NoDup_ListNoDup. apply NoDup_ListNoDup in Hn. by apply List.NoDup_filter.
Qed.

(** The keys of the index are those of distinct records. *)
Lemma expiring_key_inj p f x y :
  wf p f → x ∈ expiring f → y ∈ expiring f → x.1.2 = y.1.2 → x = y.
Proof.
  intros Hf. rewrite (wf_index p f Hf). destruct x as [[a k] v], y as [[b k'] w]; simpl.
  rewrite !elem_of_actual_expiring. naive_solver.
Qed.

(** The keys one sweep removes. *)
Definition doomed (f : KvFragment) (c limit : Z) : list string :=
  (λ x : expiry, x.1.2) <$> take (Z.to_nat limit) (expired_range f c).

Lemma doomed_NoDup p f c limit : wf p f → NoDup (doomed f c limit).
Proof.
  intros Hf. unfold doomed. apply NoDup_fmap_2_strong.
  - intros x y Hx Hy Heq. apply (expiring_key_inj p f); [done|..|done];
      eapply (elem_of_expired_range p f c), elem_of_take_sub; eauto.
  - eapply sublist_NoDup; [apply (expired_range_NoDup f c)|apply sublist_take].
Qed.

Lemma doomed_expired p f c limit k :
  wf p f → k ∈ doomed f c limit →
  ∃ r, entries f !! k = Some r ∧ expired_at r c = true.
Proof.
  intros Hf. unfold doomed. rewrite list_elem_of_fmap.
  intros (x & -> & Hx%elem_of_take_sub). apply (elem_of_expired_range p) in Hx as [Hx Hc]; [|done].
  rewrite (wf_index p f Hf) in Hx. destruct x as [[a k] v]; simpl in *.
  apply elem_of_actual_expiring in Hx as (r & Hr & He & _).
  exists r. split; [done|]. unfold expired_at. rewrite He. lia.
Qed.

Lemma take_all_entries f d k :
  entries (take_all f d).1 !! k = if decide (k ∈ d) then None else entries f !! k.
Proof.
  revert f. induction d as [|k' d IH]; intros f.
  { by rewrite decide_False by apply not_elem_of_nil. }
  cbn [take_all].
  pose proof (take_record_entries f k') as Hk'.
  destruct (take_record f k') as [f1 o] eqn:E1; simpl in *.
  specialize (IH f1). destruct (take_all f1 d) as [f2 n] eqn:E2; simpl in *.
  rewrite IH, Hk'. destruct (decide (k = k')) as [->|].
  - rewrite lookup_delete_eq. rewrite (decide_True (P := k' ∈ k' :: d)) by left.
    by case_decide.
  - rewrite lookup_delete_ne by done. by repeat case_decide; set_solver.
Qed.

Lemma take_all_floor f d : time_floor (take_all f d).1 = time_floor f.
Proof.
  revert f. induction d as [|k' d IH]; intros f; simpl; [done|].
  pose proof (take_record_floor f k').
  destruct (take_record f k') as [f1 o] eqn:E1; simpl in *.
  specialize (IH f1). destruct (take_all f1 d) as [f2 n]; simpl in *. congruence.
Qed.

Lemma take_all_removed f d :
  NoDup d → (∀ k, k ∈ d → is_Some (entries f !! k)) →
  (take_all f d).2 = Z.of_nat (length d).
Proof.
  revert f. induction d as [|k' d IH]; intros f Hnd Hall; simpl; [done|].
  apply NoDup_cons in Hnd as [Hk' Hnd].
  pose proof (take_record_entries f k') as He. pose proof (take_record_result f k') as Hr.
  destruct (take_record f k') as [f1 o] eqn:E1; simpl in *.
  assert (∀ k, k ∈ d → is_Some (entries f1 !! k)) as Hall'.
  { intros k Hk. rewrite He, lookup_delete_ne by set_solver. apply Hall. by right. }
  specialize (IH f1 Hnd Hall'). destruct (take_all f1 d) as [f2 n]; simpl in *.
  subst. rewrite bool_decide_true by (apply Hall; left). lia.
Qed.

Lemma evict_removed p f c limit :
  wf p f → (take_all f (doomed f c limit)).2 = Z.of_nat (length (doomed f c limit)).
Proof.
  intros Hf. apply take_all_removed; [by eapply doomed_NoDup|].
  intros k Hk. eapply doomed_expired in Hk as (r & ? & _); eauto.
Qed.

Lemma evict_refines p idx f cutoff limit :
  wf p f →
  spec_step p idx (abs f) (Evict cutoff limit)
    (abs (evict f cutoff (evict_batch p limit)).1) (evict f cutoff (evict_batch p limit)).2.
Proof.
  intros Hf. unfold evict. set (c := at_floor f cutoff).
  fold (doomed f c (evict_batch p limit)). set (d := doomed _ _ _).
  pose proof (evict_removed p f c (evict_batch p limit) Hf) as Hn. fold d in Hn.
  pose proof (take_all_entries f d) as He. pose proof (take_all_floor f d) as Hfl.
  destruct (take_all f d) as [f1 n] eqn:E; simpl in *. subst n.
  destruct (Z.ltb_spec 0 (Z.of_nat (length d))) as [Hpos|Hz].
  - apply spec_evicted.
    + intros k t. unfold abs, instant; simpl. unfold get_at, at_floor; simpl. rewrite Hfl.
      replace (Z.max (Z.max t (Z.max (time_floor f) c)) (time_floor f))
        with (Z.max t (Z.max (time_floor f) c)) by lia.
      unfold live; simpl. rewrite He. case_decide as Hk; [|done].
      destruct (doomed_expired p f c _ k Hf Hk) as (r & -> & Hr).
      by rewrite (expired_at_mono r c) by (done || lia).
    + unfold advances, instant; simpl. unfold c, at_floor in *. lia.
  - assert (d = []) as Hd by (destruct d; [done|simpl in Hz; lia]).
    rewrite Hd in E. simpl in E. simplify_eq/=.
    apply spec_evicted; [intros; apply carries_refl|apply advances_refl].
Qed.

(** ** The implementation *)

Lemma apply_refines p idx f c :
  wf p f → spec_step p idx (abs f) c (abs (apply f c p idx).1) (apply f c p idx).2.
Proof.
  intros Hf. destruct c; simpl;
    eauto using put_refines, delete_refines, take_once_refines, evict_refines.
Qed.

#[export] Instance fragment_logical_kv : LogicalKv KvFragment := {
  kv_apply := apply;
  kv_abs := abs;
  kv_ok p f := policy_ok p ∧ wf p f;
  kv_preserves p f c idx Hi H := conj (proj1 H) (apply_wf p (proj1 H) f c idx Hi (proj2 H));
  kv_refines p f c idx _ H := apply_refines p idx f c (proj2 H);
}.
