(* ===== verification/KvTheorems.v ===== *)
(** * Properties of the key/value fragment

    The claims about [fluree-raft-core/src/kv.rs], over runs of [Kv.apply]
    from the empty fragment with strictly increasing log indexes: the
    denormalizations and quotas, the refinement, leases, fencing tokens,
    one-shot takes, snapshots and the progress of the sweep. *)

From Stdlib Require Import Init.Byte.
From S2P Require Import Prelude Kv KvRefine.
Import Kv.

(** ** Runs *)

(** Log indexes are non-negative and strictly increase, as Raft assigns them. *)
Fixpoint log_ok (last : Z) (log : list (Z * KvCommand)) : Prop :=
  match log with
  | [] => True
  | (idx, _) :: log => last < idx ∧ log_ok idx log
  end.

Definition run (p : KvPolicy) (f : KvFragment) (log : list (Z * KvCommand)) : KvFragment :=
  (kv_run p f log).1.
Definition responses (p : KvPolicy) (f : KvFragment) (log : list (Z * KvCommand))
  : list KvResponse := (kv_run p f log).2.

Lemma run_cons p f idx c log :
  run p f ((idx, c) :: log) = run p (apply f c p idx).1 log.
Proof.
  unfold run; simpl. destruct (apply f c p idx) as [f1 r]; simpl.
  by destruct (kv_run p f1 log).
Qed.

Lemma responses_cons p f idx c log :
  responses p f ((idx, c) :: log) =
  (apply f c p idx).2 :: responses p (apply f c p idx).1 log.
Proof.
  unfold responses; simpl. destruct (apply f c p idx) as [f1 r]; simpl.
  by destruct (kv_run p f1 log).
Qed.

Lemma run_wf p f last log :
  policy_ok p → 0 <= last → log_ok last log → wf p f → wf p (run p f log).
Proof.
  intros Hp. revert f last. induction log as [|[idx c] log IH]; intros f last H0 Hl Hf.
  { done. }
  destruct Hl as [Hi Hl]. rewrite run_cons. apply (IH _ idx); [lia|done|].
  apply apply_wf; [done|lia|done].
Qed.

(** ** The recomputed denormalizations *)

Lemma actual_bytes_total m : actual_bytes m = wrap64 (total m).
Proof.
  unfold actual_bytes. induction m as [|k r m Hk IH] using map_ind; [done|].
  rewrite map_fold_insert_L, IH, total_insert by
    (done || (intros; unfold u64_add, wrap64; rewrite !Zplus_mod_idemp_r; f_equal; lia)).
  unfold footprint, u64_add, wrap64, weight.
  by rewrite Zplus_mod_idemp_r, Zplus_mod_idemp_l.
Qed.

Lemma check_invariants_spec f :
  check_invariants f = None ↔
  bytes f = wrap64 (total (entries f)) ∧ expiring f = actual_expiring (entries f).
Proof.
  unfold check_invariants. rewrite actual_bytes_total.
  destruct (Z.eqb_spec (wrap64 (total (entries f))) (bytes f)) as [He|Hne]; simpl.
  - case_bool_decide; simpl; naive_solver.
  - naive_solver.
Qed.

Lemma wf_check_invariants p f : policy_ok p → wf p f → check_invariants f = None.
Proof.
  intros Hp [Hb Hi Hm _ _]. apply check_invariants_spec. split; [|done].
  rewrite wrap64_small; [done|]. pose proof (total_nonneg (entries f)).
  unfold policy_ok in Hp. lia.
Qed.

(** ** Snapshots *)

Lemma fold_insert_spec l f :
  NoDup l.*1 → (∀ k, k ∈ l.*1 → entries f !! k = None) →
  bytes f = wrap64 (total (entries f)) → expiring f = actual_expiring (entries f) →
  let f' := foldl (λ f kr, insert_record f kr.1 kr.2) f l in
  entries f' = list_to_map l ∪ entries f ∧
  bytes f' = wrap64 (total (entries f')) ∧
  expiring f' = actual_expiring (entries f') ∧ time_floor f' = time_floor f.
Proof.
  revert f. induction l as [|[k r] l IH]; intros f Hnd Hfresh Hb He; simpl in *.
  { by rewrite (left_id_L ∅ (∪)). }
  apply NoDup_cons in Hnd as [Hk Hnd].
  assert (entries f !! k = None) as Hkf by (apply Hfresh; left).
  destruct (IH (insert_record f k r)) as (H1 & H2 & H3 & H4); simpl.
  - done.
  - intros k' Hk'. rewrite lookup_insert_ne by set_solver. apply Hfresh. by right.
  - rewrite total_insert, Hb by done. unfold footprint, u64_add, wrap64, weight.
    rewrite Zplus_mod_idemp_r, Zplus_mod_idemp_l. f_equal. lia.
  - rewrite He. symmetry. by apply actual_expiring_insert.
  - split_and!; try done. rewrite H1. simpl.
    rewrite <- insert_union_r by by apply not_elem_of_list_to_map_1.
    apply insert_union_l.
Qed.

Lemma from_wire_spec w :
  let f := from_wire w in
  entries f = wire_entries w ∧ time_floor f = wire_time_floor w ∧
  bytes f = wrap64 (total (entries f)) ∧ expiring f = actual_expiring (entries f).
Proof.
  unfold from_wire. set (f0 := mkFragment ∅ ∅ 0 _).
  destruct (fold_insert_spec (btree_iter (wire_entries w)) f0) as (H1 & H2 & H3 & H4); simpl; auto.
  - rewrite btree_iter_Permutation. apply NoDup_fst_map_to_list.
  - split_and!; try done. rewrite H1. simpl. rewrite (right_id_L ∅ (∪)).
    rewrite <- (list_to_map_to_list (wire_entries w)) at 2. apply list_to_map_proper.
    + rewrite btree_iter_Permutation. apply NoDup_fst_map_to_list.
    + apply btree_iter_Permutation.
Qed.

(** ** Where the records of a fragment come from *)

Lemma reclaim_entries_sub f k now k' r :
  entries (reclaim_if_expired f k now) !! k' = Some r → entries f !! k' = Some r.
Proof.
  unfold reclaim_if_expired. case_all; auto; simpl.
  rewrite take_record_entries. intros [_ ?]%lookup_delete_Some. done.
Qed.

Lemma take_reclaim_sub f k now k' r :
  entries (take_record (reclaim_if_expired f k now) k).1 !! k' = Some r →
  k' ≠ k ∧ entries f !! k' = Some r.
Proof.
  rewrite take_record_entries. intros [? ?]%lookup_delete_Some.
  eauto using reclaim_entries_sub.
Qed.

(** A record after [apply] was there before, or is the one this [Put] wrote. *)
Lemma apply_provenance p f c idx k r :
  entries (apply f c p idx).1 !! k = Some r →
  entries f !! k = Some r ∨
  (version r = idx ∧ cmd_key c = Some k ∧ ∃ exp, (apply f c p idx).2 = Written idx exp).
Proof.
  destruct c as [key v e ttl now|key e now|key now|cutoff limit]; simpl.
  - unfold put. destruct (check_put _ _ _ _ _); [auto|]. destruct (negb _); [auto|].
    destruct (max_bytes p <? _); [eauto using reclaim_entries_sub|].
    destruct (max_entries p <? _); [eauto using reclaim_entries_sub|]. simpl.
    rewrite lookup_insert. case_decide; [naive_solver|].
    intros []%take_reclaim_sub; auto.
  - unfold delete_key. destruct (check_key _ _); [auto|]. destruct (negb _); [auto|].
    destruct (_ <$> _); [|eauto using reclaim_entries_sub].
    pose proof (take_reclaim_sub f key (at_floor f now) k r) as Hs.
    destruct (take_record _ _); simpl in *. intros []%Hs; auto.
  - unfold take_once. destruct (check_key _ _); [auto|].
    destruct (live _ _ _); [|eauto using reclaim_entries_sub].
    pose proof (take_reclaim_sub f key (at_floor f now) k r) as Hs.
    destruct (take_record _ _); simpl in *. intros []%Hs; auto.
  - unfold evict. set (d := _ <$> _). pose proof (take_all_entries f d k) as He.
    destruct (take_all f d) as [f1 n]; simpl in *.
    intros Hk. left. assert (entries f1 !! k = Some r) as Hk' by by destruct (0 <? n).
    rewrite He in Hk'. by case_decide.
Qed.

(** Versions are fences: bounded by the log, and never shared by two keys. *)
Definition fenced (f : KvFragment) (last : Z) : Prop :=
  (∀ k r, entries f !! k = Some r → version r <= last) ∧
  (∀ k1 k2 r1 r2, entries f !! k1 = Some r1 → entries f !! k2 = Some r2 →
     version r1 = version r2 → k1 = k2).

Lemma fenced_empty last : fenced empty_fragment last.
Proof. split; intros; simplify_map_eq. Qed.

Lemma fenced_apply p f last c idx :
  fenced f last → last < idx → fenced (apply f c p idx).1 idx.
Proof.
  intros [Hle Hinj] Hlt. split.
  - intros k r [?%Hle|[? _]]%apply_provenance; lia.
  - intros k1 k2 r1 r2 H1 H2 Heq.
    apply apply_provenance in H1 as [H1|(H1 & K1 & _)], H2 as [H2|(H2 & K2 & _)].
    + eauto.
    + apply Hle in H1. lia.
    + apply Hle in H2. lia.
    + congruence.
Qed.

Lemma fenced_run p f last log :
  fenced f last → log_ok last log →
  ∃ last', last <= last' ∧ fenced (run p f log) last' ∧
    ∀ idx c, log_ok last (log ++ [(idx, c)]) → last' < idx.
Proof.
  revert f last. induction log as [|[i c] log IH]; intros f last Hf Hl.
  { exists last. split_and!; [lia|done|]. naive_solver. }
  destruct Hl as [Hi Hl]. rewrite run_cons.
  destruct (IH (apply f c p i).1 i) as (last' & Hle & Hf' & Hn); [by eapply fenced_apply|done|].
  exists last'. split_and!; [lia|done|]. simpl. intros idx c' [_ ?]. eauto.
Qed.

(** ** A version that has left the store never comes back *)

Definition gone (f : KvFragment) (v : Z) : Prop :=
  ∀ k r, entries f !! k = Some r → version r ≠ v.

Lemma gone_apply p f last c idx v :
  gone f v → v <= last → last < idx → gone (apply f c p idx).1 v.
Proof. intros Hg Hv Hlt k r [?|[? _]]%apply_provenance; [eauto|lia]. Qed.

Lemma taken_from_store p f c idx r :
  (apply f c p idx).2 = Taken (Some r) →
  ∃ k now, c = TakeOnce k now ∧ entries f !! k = Some r ∧
    entries (apply f c p idx).1 !! k = None.
Proof.
  destruct c as [key v e ttl now|key e now|key now|cutoff limit]; simpl.
  - unfold put, conflict. intros H. by case_all_in H.
  - unfold delete_key, conflict. intros H. by case_all_in H.
  - unfold take_once. destruct (check_key _ _); [done|].
    set (f1 := reclaim_if_expired _ _ _). destruct (live f1 key _) as [r0|]; [|done].
    pose proof (take_record_result f1 key) as Hr. pose proof (take_record_entries f1 key) as He.
    destruct (take_record f1 key) as [f2 o]; simpl in *. intros [= ->].
    exists key, now. split_and!; [done| |by rewrite He, lookup_delete_eq].
    symmetry in Hr. by apply reclaim_entries_sub in Hr.
  - unfold evict. intros H. by destruct (take_all _ _).
Qed.

Lemma gone_not_taken p f last log v :
  gone f v → v <= last → log_ok last log →
  ∀ r, Taken (Some r) ∈ responses p f log → version r ≠ v.
Proof.
  revert f last. induction log as [|[i c] log IH]; intros f last Hg Hv Hl r.
  { by intros ?%not_elem_of_nil. }
  destruct Hl as [Hi Hl]. rewrite responses_cons. intros [Ht|Ht]%elem_of_cons.
  - symmetry in Ht. apply taken_from_store in Ht as (k & now & -> & Hk & _). eauto.
  - eapply (IH (apply f c p i).1 i); [|lia|done|done]. eapply gone_apply; eauto.
Qed.

(** ** The sweep makes progress *)

Lemma evict_entries p f cutoff limit k :
  wf p f →
  entries (evict f cutoff limit).1 !! k =
  if decide (k ∈ doomed f (at_floor f cutoff) limit) then None else entries f !! k.
Proof.
  intros Hf. unfold evict. fold (doomed f (at_floor f cutoff) limit).
  pose proof (take_all_entries f (doomed f (at_floor f cutoff) limit) k) as He.
  destruct (take_all _ _) as [f1 n]; simpl in *. by destruct (0 <? n).
Qed.

Lemma doomed_iff p f c limit x :
  wf p f → x ∈ expired_range f c →
  x.1.2 ∈ doomed f c limit ↔ x ∈ take (Z.to_nat limit) (expired_range f c).
Proof.
  intros Hf Hx. unfold doomed. rewrite list_elem_of_fmap. split; [|eauto].
  intros (y & Hxy & Hy). assert (x = y) as ->; [|done].
  apply (expiring_key_inj p f); [done|..|done].
  - by apply (elem_of_expired_range p f c).
  - eapply (elem_of_expired_range p f c), elem_of_take_sub; eauto.
Qed.

Lemma evict_expired_range p f cutoff limit :
  policy_ok p → wf p f →
  let c := at_floor f cutoff in
  expired_range (evict f cutoff limit).1 c ≡ₚ drop (Z.to_nat limit) (expired_range f c).
Proof.
  intros Hp Hf c. set (l := expired_range f c).
  assert (NoDup l) as Hnd by apply expired_range_NoDup.
  pose proof (evict_wf p Hp f cutoff limit Hf) as Hf'.
  apply NoDup_Permutation; [apply expired_range_NoDup|
    eapply sublist_NoDup; [exact Hnd|apply sublist_drop]|].
  intros x. rewrite (elem_of_expired_range p) by done. rewrite (wf_index p _ Hf').
  assert (x ∈ l ↔ x ∈ take (Z.to_nat limit) l ∨ x ∈ drop (Z.to_nat limit) l) as Hsplit.
  { by rewrite <- elem_of_app, take_drop. }
  assert (x ∈ take (Z.to_nat limit) l → x ∉ drop (Z.to_nat limit) l) as Hdisj.
  { rewrite <- (take_drop (Z.to_nat limit) l) in Hnd. apply NoDup_app in Hnd. naive_solver. }
  pose proof (elem_of_expired_range p f c x Hf) as Hl. fold l in Hl.
  rewrite (wf_index p f Hf) in Hl. pose proof (doomed_iff p f c limit x Hf) as Hd. fold l in Hd.
  destruct x as [[a k] v]. rewrite !elem_of_actual_expiring in *; simpl in *.
  pose proof (evict_entries p f cutoff limit k Hf) as He. fold c in He.
  rewrite He. case_decide as Hk; naive_solver.
Qed.

Lemma evict_floor f cutoff limit :
  at_floor (evict f cutoff limit).1 cutoff = at_floor f cutoff.
Proof.
  unfold evict, at_floor. set (d := _ <$> _). pose proof (take_all_floor f d) as Hfl.
  destruct (take_all f d) as [f1 n]; simpl in *.
  destruct (0 <? n); simpl; rewrite Hfl; unfold at_floor; lia.
Qed.

(** [n] sweeps in a row at the same cutoff, the retry protocol of
    [more_expired]. *)
Fixpoint sweep (p : KvPolicy) (cutoff limit : Z) (n : nat) (f : KvFragment) : KvFragment :=
  match n with
  | O => f
  | S n => sweep p cutoff limit n (evict f cutoff (evict_batch p limit)).1
  end.

Lemma evict_batch_bounds p limit : 1 <= evict_batch p limit <= HARD_MAX_EVICT_LIMIT.
Proof. unfold evict_batch, clamp, HARD_MAX_EVICT_LIMIT. lia. Qed.

Lemma sweep_drains p cutoff limit n f :
  policy_ok p → wf p f →
  (length (expired_range f (at_floor f cutoff)) <= n)%nat →
  has_expired_at (sweep p cutoff limit n f) cutoff = false.
Proof.
  intros Hp. revert f. induction n as [|n IH]; intros f Hf Hlen; simpl.
  - unfold has_expired_at. destruct (expired_range _ _); simpl in *; [done|lia].
  - pose proof (evict_batch_bounds p limit).
    apply IH; [by apply evict_wf|]. rewrite evict_floor.
    rewrite (evict_expired_range p f cutoff) by done. rewrite length_drop. lia.
Qed.

(** ** The claims *)

Module Claims.

(** A log used by the witnesses: a lease on ["job"] taken at 100 for 50 ms, a
    record beside it, a renewal attempt by somebody else, a sweep. *)
Definition demo_log : list (Z * KvCommand) :=
  [ (1, Put "job" [x41] Absent (Some 50) 100);
    (2, Put "cfg" [x42; x43] Any (Some 500) 100);
    (4, Put "job" [x44] Absent (Some 50) 120);
    (7, Evict 160 10) ].

Definition demo : KvFragment := run default_policy empty_fragment demo_log.

Lemma default_policy_ok : policy_ok default_policy.
Proof. by vm_compute. Qed.

Lemma demo_wf : wf default_policy demo.
Proof.
  apply (run_wf _ _ 0); [apply default_policy_ok|lia|by vm_compute|].
  apply wf_empty, default_policy_ok.
Qed.

(** After any log of commands, reduced from the empty fragment with
    strictly increasing log indexes, the fragment's own [check_invariants]
    finds nothing wrong: the running byte total and the expiry index are what
    recomputing them from the records gives; and the records physically held
    respect the policy's byte and entry quotas. *)
Theorem kv_run_invariants p log :
  policy_ok p → log_ok 0 log →
  let f := run p empty_fragment log in
  check_invariants f = None ∧
  physical_bytes f <= max_bytes p ∧ physical_len f <= max_entries p.
Proof.
  intros Hp Hl f. assert (wf p f) as Hf.
  { apply (run_wf _ _ 0); auto using wf_empty with lia. }
  split; [by eapply wf_check_invariants|]. unfold physical_bytes, physical_len.
  destruct Hf as [-> _ ? ? _]. auto.
Qed.

Lemma kv_run_invariants_witness :
  policy_ok default_policy ∧ log_ok 0 demo_log ∧ check_invariants demo = None.
Proof.
  assert (policy_ok default_policy) as Hp by by vm_compute.
  assert (log_ok 0 demo_log) as Hl by by vm_compute.
  split; [exact Hp|]. split; [exact Hl|].
  exact (proj1 (kv_run_invariants default_policy demo_log Hp Hl)).
Defined.

(** C8: Every command, applied to any fragment a log can produce, does what the
    logical specification says: preconditions are judged on what a reader would
    have seen, a conflict answers with the current record, a write is readable
    until it expires, every other key reads as before, and whether an expired
    record has been swept is invisible at every instant. *)
Theorem kv_apply_refines p log idx c :
  policy_ok p → log_ok 0 (log ++ [(idx, c)]) →
  let f := run p empty_fragment log in
  spec_step p idx (abs f) c (abs (apply f c p idx).1) (apply f c p idx).2.
Proof.
  intros Hp Hl f. apply apply_refines. apply (run_wf _ _ 0); auto using wf_empty with lia.
  clear f. revert Hl. generalize 0. induction log as [|[i c'] log IH]; simpl; naive_solver.
Qed.

Lemma kv_apply_refines_witness :
  spec_step default_policy 9 (abs demo) (TakeOnce "cfg" 170)
    (abs (apply demo (TakeOnce "cfg" 170) default_policy 9).1)
    (Taken (Some (mkRecord [x42; x43] 2 (Some 600)))).
Proof.
  assert (policy_ok default_policy) as Hp by by vm_compute.
  assert (log_ok 0 (demo_log ++ [(9, TakeOnce "cfg" 170)])) as Hl by by vm_compute.
  pose proof (kv_apply_refines default_policy demo_log 9 (TakeOnce "cfg" 170) Hp Hl) as H.
  assert ((apply demo (TakeOnce "cfg" 170) default_policy 9).2 =
          Taken (Some (mkRecord [x42; x43] 2 (Some 600)))) as E by (vm_compute; reflexivity).
  rewrite <- E. exact H.
Defined.

(** A lease is exclusive.  Once a key holds a record, then through any
    sequence of commands that act on the key only if it is absent or at another
    version, and that are decided before the record expires, the record stays
    readable and every such command on the key is refused, the conflicts
    carrying the holder's own record. *)
Theorem kv_lease_exclusive p f log key r :
  policy_ok p → wf p f →
  holds (abs f) key r →
  Forall (λ ic, 0 <= ic.1 ∧ respects key (version r) ic.2) log →
  within p r f log →
  holds (abs (run p f log)) key r ∧
  Forall2 (λ ic resp, cmd_key ic.2 = Some key →
             resp = Conflict (Some r) ∨ ∃ rj, resp = Rejected rj)
          log (responses p f log).
Proof. intros Hp Hf Hh Hl Hw. exact (lease_run p f log key r (conj Hp Hf) Hh Hl Hw). Qed.

Lemma kv_lease_exclusive_witness :
  let f := run default_policy empty_fragment [(1, Put "job" [x41] Absent (Some 50) 100)] in
  let r := mkRecord [x41] 1 (Some 150) in
  let log := [(2, Put "job" [x44] Absent (Some 50) 120); (3, Evict 140 8);
              (4, Delete "job" (Version 0) 149)] in
  holds (abs (run default_policy f log)) "job" r.
Proof.
  intros f r log. apply (kv_lease_exclusive default_policy f log "job" r).
  - by vm_compute.
  - apply (run_wf _ _ 0); [by vm_compute|lia|by vm_compute|].
    apply wf_empty. by vm_compute.
  - intros t. apply live_visible. vm_compute. reflexivity.
  - apply Forall_cons. split; [split; [simpl; lia|right; left; reflexivity]|].
    apply Forall_cons. split; [split; [simpl; lia|exact I]|].
    apply Forall_cons. split; [split; [simpl; lia|]|apply Forall_nil; exact I].
    right; right. exists 0. split; [reflexivity|simpl; lia].
  - by vm_compute.
Defined.

(** Versions are fencing tokens.  A successful put's version is its log
    index, it is larger than the version of every record ever in the store, and
    no two keys hold records with the same version. *)
Theorem kv_fencing p log idx k v e ttl now ver exp :
  policy_ok p → log_ok 0 (log ++ [(idx, Put k v e ttl now)]) →
  let f := run p empty_fragment log in
  (apply f (Put k v e ttl now) p idx).2 = Written ver exp →
  ver = idx ∧
  (∀ k' r, entries f !! k' = Some r → version r < ver) ∧
  (∀ k1 k2 r1 r2, entries f !! k1 = Some r1 → entries f !! k2 = Some r2 →
     version r1 = version r2 → k1 = k2).
Proof.
  intros Hp Hl f Hw.
  destruct (fenced_run p empty_fragment 0 log) as (last & _ & [Hle Hinj] & Hn).
  - apply fenced_empty.
  - clear -Hl. revert Hl. generalize 0. induction log as [|[? ?] ? IH]; simpl; naive_solver.
  - apply Hn in Hl. assert (ver = idx) as ->.
    { simpl in Hw. unfold put, conflict in Hw. by case_all_in Hw. }
    split_and!; [done| |done]. intros k' r Hk%Hle. lia.
Qed.

Lemma kv_fencing_witness :
  entries demo !! "cfg" = Some (mkRecord [x42; x43] 2 (Some 600)) ∧ 2 < 9.
Proof.
  destruct (kv_fencing default_policy demo_log 9 "job" [x45] Absent (Some 10) 170 9 (Some 180))
    as (_ & H2 & _).
  - by vm_compute.
  - by vm_compute.
  - vm_compute; reflexivity.
  - assert (entries demo !! "cfg" = Some (mkRecord [x42; x43] 2 (Some 600))) as E
      by (vm_compute; reflexivity).
    exact (conj E (H2 _ _ E)).
Defined.

(** C40: A taken record is taken once.  When [TakeOnce] answers with a record,
    no later command of the log answers with a record of that version: exactly
    one proposer sees it. *)
Theorem kv_take_once_unique p log1 idx c log2 r :
  log_ok 0 (log1 ++ (idx, c) :: log2) →
  let f := run p empty_fragment log1 in
  (apply f c p idx).2 = Taken (Some r) →
  ∀ r', Taken (Some r') ∈ responses p (apply f c p idx).1 log2 → version r' ≠ version r.
Proof.
  intros Hl f Ht.
  assert (log_ok 0 log1 ∧ log_ok 0 (log1 ++ [(idx, c)]) ∧ log_ok idx log2) as (H1 & H2 & H3).
  { clear -Hl. revert Hl. generalize 0. induction log1 as [|[? ?] ? IH]; simpl; naive_solver. }
  destruct (fenced_run p empty_fragment 0 log1) as (last & _ & [Hle Hinj] & Hn);
    [apply fenced_empty|done|]. fold f in Hle, Hinj. apply Hn in H2.
  apply taken_from_store in Ht as (k & now & -> & Hk & Hk'). pose proof (Hle _ _ Hk).
  eapply (gone_not_taken _ _ idx); [|lia|done].
  intros k2 r2 Hk2 Heq.
  destruct (apply_provenance _ _ _ _ _ _ Hk2) as [Hk3|[Hv _]]; [|lia].
  rewrite (Hinj _ _ _ _ Hk3 Hk Heq) in Hk2. congruence.
Qed.

Lemma kv_take_once_unique_witness :
  Taken (Some (mkRecord [x42; x43] 2 (Some 600))) ∉
    responses default_policy (apply demo (TakeOnce "cfg" 170) default_policy 9).1
      [(10, TakeOnce "cfg" 171); (11, TakeOnce "cfg" 172)].
Proof.
  intros Hin.
  refine (kv_take_once_unique default_policy demo_log 9 (TakeOnce "cfg" 170)
            [(10, TakeOnce "cfg" 171); (11, TakeOnce "cfg" 172)]
            (mkRecord [x42; x43] 2 (Some 600)) _ _ _ Hin _).
  - by vm_compute.
  - vm_compute; reflexivity.
  - reflexivity.
Defined.

(** A snapshot carries the records and the floor only, and that is enough:
    decoding an encoded fragment gives the fragment back, and decoding any
    snapshot whatever gives a fragment with consistent denormalizations that
    encodes to the same bytes. *)
Theorem kv_snapshot_roundtrip p f w :
  policy_ok p → wf p f →
  from_wire (to_wire f) = f ∧
  check_invariants (from_wire w) = None ∧ to_wire (from_wire w) = w.
Proof.
  intros Hp [Hb Hi Hm _ _]. destruct (from_wire_spec (to_wire f)) as (H1 & H2 & H3 & H4).
  destruct (from_wire_spec w) as (G1 & G2 & G3 & G4). split_and!.
  - destruct (from_wire (to_wire f)) as [e x b t], f as [e' x' b' t']; simpl in *; subst.
    f_equal. apply wrap64_small. pose proof (total_nonneg e').
    unfold policy_ok in Hp. lia.
  - by apply check_invariants_spec.
  - destruct w; unfold to_wire; simpl in *. congruence.
Qed.

Lemma kv_snapshot_roundtrip_witness : from_wire (to_wire demo) = demo.
Proof.
  apply (kv_snapshot_roundtrip default_policy demo (to_wire demo)).
  - apply default_policy_ok.
  - apply demo_wf.
Defined.

(** The sweep terminates and only removes what has expired.  Repeating
    [Evict] at one cutoff, at most once per expired record, leaves nothing
    expired at that cutoff, whatever batch limit was asked for; and one sweep
    removes exactly the first [evict_batch] expired keys of the index. *)
Theorem kv_sweep_terminates p cutoff limit f :
  policy_ok p → wf p f →
  has_expired_at
    (sweep p cutoff limit (length (expired_range f (at_floor f cutoff))) f) cutoff = false ∧
  (∀ k r, entries f !! k = Some r → expired_at r (at_floor f cutoff) = false →
     entries (evict f cutoff (evict_batch p limit)).1 !! k = Some r) ∧
  (evict f cutoff (evict_batch p limit)).2 =
    Evicted (Z.min (evict_batch p limit)
                   (Z.of_nat (length (expired_range f (at_floor f cutoff)))))
            (evict_batch p limit <? Z.of_nat (length (expired_range f (at_floor f cutoff)))).
Proof.
  intros Hp Hf. split_and!.
  - by apply sweep_drains.
  - intros k r Hk Hr. rewrite (evict_entries p) by done. case_decide as Hd; [|done].
    apply (doomed_expired p) in Hd as (r' & ? & ?); [|done]. congruence.
  - set (c := at_floor f cutoff). set (b := evict_batch p limit).
    pose proof (evict_removed p f c b Hf) as Hr.
    pose proof (evict_expired_range p f cutoff b Hp Hf) as Hperm. simpl in Hperm.
    pose proof (evict_batch_bounds p limit). fold c b in Hperm, H.
    apply Permutation_length in Hperm. rewrite length_drop in Hperm.
    unfold evict in *. fold c in Hperm |- *. fold (doomed f c b) in *.
    destruct (take_all f (doomed f c b)) as [f1 n]; simpl in *. f_equal.
    + rewrite Hr. unfold doomed. rewrite length_fmap, length_take. lia.
    + destruct (expired_range _ c) in Hperm |- *; simpl in Hperm; lia.
Qed.

Lemma kv_sweep_terminates_witness :
  has_expired_at
    (sweep default_policy 600 1 (length (expired_range demo (at_floor demo 600))) demo) 600
  = false.
Proof.
  apply (kv_sweep_terminates default_policy 600 1 demo).
  - apply default_policy_ok.
  - apply demo_wf.
Defined.

(** [iter_at] lists exactly the records [get_at] would return, each key
    once, in the byte order of the keys. *)
Theorem kv_iter_at_sorted f now :
  (∀ k r, (k, r) ∈ iter_at f now ↔ get_at f k now = Some r) ∧
  StronglySorted (by_key String.le fst) (iter_at f now) ∧
  NoDup (iter_at f now).*1.
Proof.
  unfold iter_at. set (l := btree_iter (entries f)).
  assert (StronglySorted (by_key String.le fst) l) as Hs by (apply sort_by_StronglySorted; apply _).
  assert (NoDup l.*1) as Hn by (unfold l; rewrite btree_iter_Permutation;
                                apply NoDup_fst_map_to_list).
  split_and!.
  - intros k r. rewrite list_elem_of_In, filter_In, <- list_elem_of_In. unfold l.
    rewrite btree_iter_Permutation, elem_of_map_to_list. simpl.
    unfold get_at, live. rewrite negb_true_iff.
    split; [intros [-> He]; by rewrite He|].
    destruct (entries f !! k) as [r'|]; [|done].
    destruct (expired_at r' (at_floor f now)) eqn:E; [done|]. by intros [= <-].
  - clear Hn. induction Hs as [|x l' Hl IH Hx]; simpl; [constructor|].
    case_match; [|done]. constructor; [done|].
    rewrite Forall_forall in Hx |- *. intros y Hy. apply Hx.
    rewrite list_elem_of_In in Hy |- *. by apply filter_In in Hy as [? _].
  - clear Hs. induction l as [|x l' IH]; simpl in *; [constructor|].
    apply NoDup_cons in Hn as [Hx Hn]. case_match; [|auto]. simpl. constructor; [|auto].
    rewrite !list_elem_of_fmap in Hx |- *. intros (y & Hy & Hin). apply Hx.
    exists y. split; [done|]. rewrite list_elem_of_In in Hin |- *.
    by apply filter_In in Hin as [? _].
Qed.

(** The client-side pre-check can accept a put that [apply] then refuses: the
    floor, which the proposer does not know, may push the expiry past
    [u64::MAX]. *)
Lemma precheck_can_disagree :
  let f := mkFragment ∅ ∅ 0 u64_max in
  check_put default_policy "job" [] (Some 1) 100 = inr (Some 101) ∧
  (put f "job" [] Any (Some 1) 100 default_policy 1).2 = Rejected (TtlOverflow u64_max 1).
Proof. split; reflexivity. Qed.

End Claims.
