(* ===== verification/LedgerId.v ===== *)
(** * Ledger ids ([fluree-db-core/src/ledger_id.rs])

    The address grammar [name[:branch][@spec]]: splitting and formatting
    [name:branch] ids, the time-travel suffix, and branch-name validation.
    A Rust [str] is the [string] of its UTF-8 bytes; [len] counts bytes, and the
    separators searched for are ASCII, so byte search is character search. *)

From Stdlib Require Import Ascii.
From S2P Require Import Prelude.

Module LedgerId.

(** ** Operations of [str] *)

(** [s.contains(c)] for an ASCII character. *)
Fixpoint contains_char (c : ascii) (s : string) : bool :=
  match s with
  | EmptyString => false
  | String a s => if Ascii.eqb a c then true else contains_char c s
  end.

(** [s.find(c)], as the text before and after the first [c]. *)
Fixpoint split_once (c : ascii) (s : string) : option (string * string) :=
  match s with
  | EmptyString => None
  | String a rest =>
      if Ascii.eqb a c then Some (EmptyString, rest)
      else match split_once c rest with
           | Some (x, y) => Some (String a x, y)
           | None => None
           end
  end.

(** [s.strip_prefix(p)]. *)
Fixpoint strip_prefix (p s : string) : option string :=
  match p, s with
  | EmptyString, _ => Some s
  | String a p, String b s => if Ascii.eqb a b then strip_prefix p s else None
  | String _ _, EmptyString => None
  end.

(** [s.contains(p)] for a string pattern. *)
Fixpoint contains_str (p s : string) : bool :=
  match strip_prefix p s with
  | Some _ => true
  | None => match s with EmptyString => false | String _ s => contains_str p s end
  end.

Definition len (s : string) : Z := Z.of_nat (String.length s).
Definition is_empty (s : string) : bool := match s with EmptyString => true | _ => false end.

(** [s.trim().is_empty()]: every character is Unicode white space, read off
    the UTF-8 bytes. *)
Fixpoint all_whitespace (s : string) : bool :=
  match s with
  | EmptyString => true
  | String a s1 =>
      let n := Z.of_nat (nat_of_ascii a) in
      if ((9 <=? n) && (n <=? 13)) || (n =? 32) then all_whitespace s1
      else
        match s1 with
        | EmptyString => false
        | String b s2 =>
            let m := Z.of_nat (nat_of_ascii b) in
            if (n =? 0xC2) && ((m =? 0x85) || (m =? 0xA0)) then all_whitespace s2
            else
              match s2 with
              | EmptyString => false
              | String c s3 =>
                  let o := Z.of_nat (nat_of_ascii c) in
                  if ((n =? 0xE1) && (m =? 0x9A) && (o =? 0x80))
                     || ((n =? 0xE2) && (m =? 0x80) &&
                         (((0x80 <=? o) && (o <=? 0x8A)) || (o =? 0xA8) || (o =? 0xA9)
                          || (o =? 0xAF)))
                     || ((n =? 0xE2) && (m =? 0x81) && (o =? 0x9F))
                     || ((n =? 0xE3) && (m =? 0x80) && (o =? 0x80))
                  then all_whitespace s3
                  else false
              end
        end
  end.

(** [str::parse::<i64>]: an optional sign, then at least one decimal digit,
    within the range of [i64]. *)
Definition digit_value (a : ascii) : option Z :=
  let n := Z.of_nat (nat_of_ascii a) in
  if (48 <=? n) && (n <=? 57) then Some (n - 48) else None.

Fixpoint parse_digits (acc : Z) (s : string) : option Z :=
  match s with
  | EmptyString => Some acc
  | String a s => match digit_value a with
                  | Some d => parse_digits (10 * acc + d) s
                  | None => None
                  end
  end.

Definition i64_min : Z := -9223372036854775808.
Definition i64_max : Z := 9223372036854775807.

Definition parse_i64 (s : string) : option Z :=
  let '(neg, digits) :=
    match s with
    | String "-"%char rest => (true, rest)
    | String "+"%char rest => (false, rest)
    | _ => (false, s)
    end in
  match digits with
  | EmptyString => None
  | _ =>
      match parse_digits 0 digits with
      | None => None
      | Some n =>
          let v := if neg : bool then - n else n in
          if (i64_min <=? v) && (v <=? i64_max) then Some v else None
      end
  end.

(** ** Data *)

Definition DEFAULT_BRANCH : string := "main".
Definition COMMIT_PREFIX_MIN_LEN : Z := 6.
Definition MAX_BRANCH_NAME_LEN : Z := 128.
Definition TIME_TRAVEL_TAGS : list string :=
  ["t:"; "time:"; "iso:"; "commit:"; "recorded:"; "snapshot:"].

Inductive LedgerIdTimeSpec :=
  | AtT (t : Z)
  | AtIso (ts : string)
  | AtCommit (cid : string)
  | AtRecorded (ts : string)
  | AtSnapshot (id : Z).

Record ParsedLedgerId := mkParsed {
  name : string;
  branch : string;
  time : option LedgerIdTimeSpec;
}.

Record LedgerIdParseError := mkError { message : string }.

Definition result (A : Type) : Type := LedgerIdParseError + A.
Definition Ok {A} (x : A) : result A := inr x.
Definition Err {A} (msg : string) : result A := inl (mkError msg).
Notation "'let?' x := c 'in' k" :=
  (match c with inr x => k | inl e => inl e end)
  (at level 10, x pattern, k at level 200).

(** ** Operations *)

Definition invalid_format (ledger_id : string) : string :=
  "Invalid ledger ID format '" +:+ ledger_id +:+ "': expected 'name' or 'name:branch'".

Definition split_ledger_id (ledger_id : string) : result (string * string) :=
  match split_once ":" ledger_id with
  | None =>
      if negb (is_empty ledger_id) then Ok (ledger_id, DEFAULT_BRANCH)
      else Err (invalid_format ledger_id)
  | Some (name, branch) =>
      if negb (is_empty name) && negb (is_empty branch) then
        if contains_char ":" branch then Err (invalid_format ledger_id)
        else Ok (name, branch)
      else Err (invalid_format ledger_id)
  end.

Definition format_ledger_id (name branch : string) : string := name +:+ ":" +:+ branch.

Definition normalize_ledger_id (ledger_id : string) : result string :=
  let? (name, branch) := split_ledger_id ledger_id in
  Ok (format_ledger_id name branch).

(** [["time:", "iso:"].into_iter().find_map(..)]. *)
Definition strip_time_or_iso (spec : string) : option (string * string) :=
  match strip_prefix "time:" spec with
  | Some val => Some ("time:", val)
  | None => match strip_prefix "iso:" spec with
            | Some val => Some ("iso:", val)
            | None => None
            end
  end.

Definition missing_value (sigil tag : string) : string :=
  "Missing value after '" +:+ sigil +:+ tag +:+ "'".
Definition invalid_integer (sigil tag val : string) : string :=
  "Invalid integer for " +:+ sigil +:+ tag +:+ " '" +:+ val +:+ "'".

Definition parse_time_travel_spec (spec sigil : string) : result LedgerIdTimeSpec :=
  match strip_prefix "t:" spec with
  | Some val =>
      if is_empty val then Err (missing_value sigil "t:")
      else match parse_i64 val with
           | Some t => Ok (AtT t)
           | None => Err (invalid_integer sigil "t:" val)
           end
  | None =>
  match strip_time_or_iso spec with
  | Some (tag, val) =>
      if is_empty val then Err (missing_value sigil tag) else Ok (AtIso val)
  | None =>
  match strip_prefix "commit:" spec with
  | Some val =>
      if is_empty val then Err (missing_value sigil "commit:")
      else if len val <? COMMIT_PREFIX_MIN_LEN
           then Err "Commit prefix must be at least 6 characters"
           else Ok (AtCommit val)
  | None =>
  match strip_prefix "recorded:" spec with
  | Some val =>
      if is_empty val then Err (missing_value sigil "recorded:") else Ok (AtRecorded val)
  | None =>
  match strip_prefix "snapshot:" spec with
  | Some val =>
      if is_empty val then Err (missing_value sigil "snapshot:")
      else match parse_i64 val with
           | Some id => Ok (AtSnapshot id)
           | None => Err (invalid_integer sigil "snapshot:" val)
           end
  | None =>
      Err ("Invalid time travel format: '" +:+ spec +:+ "'. Expected " +:+ sigil +:+ "t:, "
           +:+ sigil +:+ "time:, " +:+ sigil +:+ "recorded:, " +:+ sigil +:+ "commit:, or "
           +:+ sigil +:+ "snapshot: prefix")
  end end end end end.

Definition split_time_travel_suffix (ledger_id : string)
    : result (string * option LedgerIdTimeSpec) :=
  match split_once "@" ledger_id with
  | Some (base, time_str) =>
      if is_empty base then Err "Ledger ID cannot be empty before '@'"
      else
        let? time := parse_time_travel_spec time_str "@" in
        Ok (base, Some time)
  | None => Ok (ledger_id, None)
  end.

Definition parse_ledger_id_with_time (ledger_id : string) : result ParsedLedgerId :=
  let? (base, time) := split_time_travel_suffix ledger_id in
  let? (name, branch) := split_ledger_id base in
  Ok (mkParsed name branch time).

Definition validate_branch_name (name : string) : result unit :=
  if is_empty name || all_whitespace name then Err "Branch name cannot be empty"
  else if MAX_BRANCH_NAME_LEN <? len name
       then Err "Branch name exceeds maximum length of 128 characters"
  else if contains_char ":" name then Err "Branch name cannot contain ':'"
  else if contains_char "@" name then Err "Branch name cannot contain '@'"
  else if contains_char "000"%char name then Err "Branch name cannot contain null bytes"
  else if String.eqb name ".." || contains_str "../" name || contains_str "/.." name
       then Err "Branch name cannot contain path traversal (..)"
  else Ok tt.

(** ** Lemmas on the separators *)

Lemma app_cons a x y : String a x +:+ y = String a (x +:+ y).
Proof. done. Qed.

Lemma app_inj_l x y z : x +:+ y = x +:+ z → y = z.
Proof. apply (inj (String.append x)). Qed.

Lemma contains_char_app c x y :
  contains_char c (x +:+ y) = contains_char c x || contains_char c y.
Proof.
  induction x as [|a x IH]; [done|]. rewrite app_cons. simpl. by destruct (Ascii.eqb a c).
Qed.

Lemma split_once_app c x y :
  contains_char c x = false → split_once c (x +:+ String c y) = Some (x, y).
Proof.
  induction x as [|a x IH]; intros Hx.
  - change (EmptyString +:+ String c y) with (String c y). cbn [split_once].
    by rewrite Ascii.eqb_refl.
  - rewrite app_cons. cbn [split_once contains_char] in *.
    destruct (Ascii.eqb a c); [done|]. by rewrite IH.
Qed.

Lemma split_once_inv c s x y :
  split_once c s = Some (x, y) → s = x +:+ String c y ∧ contains_char c x = false.
Proof.
  revert x y. induction s as [|a s IH]; intros x y; simpl; [done|].
  destruct (Ascii.eqb_spec a c) as [->|Hne].
  - by intros [= <- <-].
  - destruct (split_once c s) as [[x' y']|]; [|done]. intros [= <- <-].
    destruct (IH x' y' eq_refl) as [-> Hx]. rewrite app_cons; simpl.
    by rewrite (proj2 (Ascii.eqb_neq a c) Hne).
Qed.

Lemma split_once_None c s : split_once c s = None ↔ contains_char c s = false.
Proof.
  induction s as [|a s IH]; simpl; [done|]. destruct (Ascii.eqb a c); [done|].
  rewrite <- IH. by destruct (split_once c s) as [[? ?]|].
Qed.

(** What [split_ledger_id] accepts: a non-empty name and branch without [:]. *)
Definition plain (s : string) : Prop := is_empty s = false ∧ contains_char ":" s = false.

(** A ledger name as [split_ledger_id] gives it: the separator is not in it. *)
Definition colon_free (s : string) : Prop := contains_char ":" s = false.

Lemma split_ledger_id_plain id n b :
  split_ledger_id id = Ok (n, b) → plain n ∧ plain b.
Proof.
  unfold split_ledger_id, plain. destruct (split_once ":" id) as [[x y]|] eqn:E; intros H.
  - apply split_once_inv in E as [_ Hx]. case_all_in H; reflect_bools; auto.
  - apply split_once_None in E. case_all_in H; reflect_bools; auto.
Qed.

Lemma split_format n b : plain n → plain b → split_ledger_id (format_ledger_id n b) = Ok (n, b).
Proof.
  intros [Hn Hn'] [Hb Hb']. unfold split_ledger_id, format_ledger_id.
  change (":" +:+ b) with (String ":" b). rewrite split_once_app by done.
  by rewrite Hn, Hb, Hb'.
Qed.

Lemma format_inj n b n' b' :
  colon_free n → colon_free n' →
  format_ledger_id n b = format_ledger_id n' b' → n = n' ∧ b = b'.
Proof.
  unfold colon_free. intros Hn Hn' H. unfold format_ledger_id in H.
  change (":" +:+ b) with (String ":" b) in H. change (":" +:+ b') with (String ":" b') in H.
  pose proof (split_once_app ":" n b Hn) as E. rewrite H, split_once_app in E by done.
  naive_solver.
Qed.

Lemma strip_prefix_app p s : strip_prefix p (p +:+ s) = Some s.
Proof.
  induction p as [|a p IH]; [done|]. rewrite app_cons. simpl. by rewrite Ascii.eqb_refl.
Qed.

(** ** Claims *)

(** Ledger ids round-trip.  A plain name and branch (non-empty, no [:])
    format to an id that splits back into them; whatever splits, splits into a
    plain name and branch; two ids of plain names that are equal come from the
    same name and branch; and normalizing twice is normalizing once. *)
Theorem ledger_id_roundtrip :
  (∀ n b, plain n → plain b → split_ledger_id (format_ledger_id n b) = Ok (n, b)) ∧
  (∀ id n b, split_ledger_id id = Ok (n, b) → plain n ∧ plain b) ∧
  (∀ n b n' b', plain n → plain n' →
     format_ledger_id n b = format_ledger_id n' b' → n = n' ∧ b = b') ∧
  (∀ id id', normalize_ledger_id id = Ok id' → normalize_ledger_id id' = Ok id').
Proof.
  split_and!.
  - apply split_format.
  - apply split_ledger_id_plain.
  - intros n b n' b' [_ Hn] [_ Hn']. by apply format_inj.
  - unfold normalize_ledger_id. intros id id' H.
    destruct (split_ledger_id id) as [e|[n b]] eqn:E; [done|]. injection H as <-.
    apply split_ledger_id_plain in E as [Hn Hb]. by rewrite split_format.
Qed.

Lemma ledger_id_roundtrip_witness :
  split_ledger_id (format_ledger_id "mydb" "dev") = Ok ("mydb", "dev").
Proof. apply (proj1 ledger_id_roundtrip); split; reflexivity. Defined.

(** A branch name that [validate_branch_name] accepts is safe in an
    address: with any plain ledger name free of [@], the id parses back to that
    name and branch with no time travel, and appending [@commit:] and a long
    enough prefix selects exactly that commit of that branch. *)
Theorem validated_branch_parses n b c :
  validate_branch_name b = Ok tt →
  plain n → contains_char "@" n = false →
  COMMIT_PREFIX_MIN_LEN <= len c →
  parse_ledger_id_with_time (format_ledger_id n b) = Ok (mkParsed n b None) ∧
  parse_ledger_id_with_time (format_ledger_id n b +:+ "@commit:" +:+ c) =
    Ok (mkParsed n b (Some (AtCommit c))).
Proof.
  intros Hv Hn Ha Hc. unfold validate_branch_name in Hv.
  case_all_in Hv. reflect_bools.
  assert (plain b) as Hb by by split.
  assert (contains_char "@" (format_ledger_id n b) = false) as Hat.
  { unfold format_ledger_id. rewrite !contains_char_app, Ha. simpl. done. }
  unfold parse_ledger_id_with_time, split_time_travel_suffix. split.
  - rewrite (proj2 (split_once_None "@" _) Hat).
    cbn -[split_ledger_id format_ledger_id]. by rewrite split_format.
  - change ("@commit:" +:+ c) with (String "@" ("commit:" +:+ c)).
    rewrite split_once_app by done.
    assert (is_empty (format_ledger_id n b) = false) as -> by by destruct n.
    assert (parse_time_travel_spec ("commit:" +:+ c) "@" = Ok (AtCommit c)) as ->.
    { unfold parse_time_travel_spec.
      assert (strip_prefix "t:" ("commit:" +:+ c) = None) as -> by done.
      assert (strip_time_or_iso ("commit:" +:+ c) = None) as -> by done.
      rewrite strip_prefix_app. destruct c as [|a c]; [done|]. simpl.
      unfold len in *. by rewrite (proj2 (Z.ltb_ge _ _) Hc). }
    cbn -[split_ledger_id format_ledger_id]. by rewrite split_format.
Qed.

Lemma validated_branch_parses_witness :
  parse_ledger_id_with_time "mydb:dev@commit:abc123" =
    Ok (mkParsed "mydb" "dev" (Some (AtCommit "abc123"))).
Proof.
  refine (proj2 (validated_branch_parses "mydb" "dev" "abc123" _ _ _ _)).
  - vm_compute; reflexivity.
  - split; reflexivity.
  - reflexivity.
  - vm_compute; discriminate.
Defined.

End LedgerId.
