(* ===== verification/Adapter.v ===== *)
(** * The Raft state-machine adapter
    ([fluree-raft-core/src/state_machine.rs], [storage.rs], [storage/memory.rs])

    [StateMachineAdapter] drives a deterministic application
    ([AppStateMachine], a class here) from committed log entries, collects the
    effects of its observer, and persists and installs snapshots through a
    [RaftSnapshotStore].  openraft's membership type and the postcard encoding
    of [StoredMembership] are parameters.  An openraft [LogId] is the pair of
    its leader's term and its index, so the conversions to and from the
    stored form are the identity. *)

From stdpp Require Import pretty.
From S2P Require Import Prelude.
#[local] Open Scope Z_scope.

(** ** Storage types *)

Record LogId := mkLogId { li_term : Z; li_index : Z }.

Record SnapshotMeta := mkSnapshotMeta {
  sm_id : string;
  sm_last_applied : option LogId;
  sm_membership : list Z;
}.

Inductive ErrorVerb := VRead | VWrite.
Inductive ErrorSubject := SubjStateMachine | SubjSnapshot | SubjLogs | SubjVote.

(** openraft's [StorageError::IO]. *)
Record StorageIOError := mkIOError {
  err_subject : ErrorSubject;
  err_verb : ErrorVerb;
  err_source : string;
}.

Definition read_state_err (source : string) : StorageIOError :=
  mkIOError SubjStateMachine VRead source.
Definition write_state_err (source : string) : StorageIOError :=
  mkIOError SubjStateMachine VWrite source.
Definition snapshot_err (verb : ErrorVerb) (source : string) : StorageIOError :=
  mkIOError SubjSnapshot verb source.

(** The snapshot side of a storage backend: what success of a write promises
    the adapter. *)
Class RaftSnapshotStore (S : Type) := {
  ss_write : S → SnapshotMeta → list Z → S * (string + unit);
  ss_current : S → string + option (SnapshotMeta * list Z);
  ss_write_current st meta data st' :
    ss_write st meta data = (st', inr tt) → ss_current st' = inr (Some (meta, data));
}.

(** [MemoryRaftSnapshotStore]; its lock is never poisoned, as no holder panics. *)
Record MemorySnapshotStore := mkMemoryStore {
  ms_snapshots : gmap string (SnapshotMeta * list Z);
  ms_current : option string;
}.

Definition memory_write (st : MemorySnapshotStore) (meta : SnapshotMeta) (data : list Z)
    : MemorySnapshotStore * (string + unit) :=
  (mkMemoryStore (<[sm_id meta := (meta, data)]> (ms_snapshots st)) (Some (sm_id meta)), inr tt).

Definition memory_read (st : MemorySnapshotStore) (id : string) : option (list Z) :=
  snd <$> ms_snapshots st !! id.

Definition memory_current (st : MemorySnapshotStore)
    : string + option (SnapshotMeta * list Z) :=
  inr (ms_current st ≫= λ id, ms_snapshots st !! id).

#[export] Instance memory_snapshot_store : RaftSnapshotStore MemorySnapshotStore.
Proof.
  refine {| ss_write := memory_write; ss_current := memory_current |}.
  intros st meta data st' [= <-]. unfold memory_current; simpl. by rewrite lookup_insert_eq.
Defined.

(** ** The application seam *)

Inductive SnapshotLoad := BootRestore | LiveInstall.

Record MembershipView := mkView { mv_voters : gset Z; mv_learners : gset Z }.

(** [AppStateMachine] with its [StateMachineObserver].  Hooks return the
    effects they push; [on_command] also returns the response it leaves. *)
Class AppStateMachine (St Cmd Resp Eff : Type) := {
  app_initial_state : St;
  app_apply : St → Cmd → Z → St * Resp;
  app_noop_response : Resp;
  app_apply_membership : St → MembershipView → Z → St;
  app_encode_snapshot : St → string + list Z;
  app_decode_snapshot : list Z → string + St;
  obs_on_command : St → Cmd → Resp → Z → list Eff * Resp;
  obs_on_membership : St → MembershipView → Z → list Eff;
  obs_on_snapshot_loaded : St → SnapshotLoad → list Eff;
}.

Section adapter.
Context {St Cmd Resp Eff : Type} `{App : !AppStateMachine St Cmd Resp Eff}.
Context {Store : Type} `{!RaftSnapshotStore Store}.

(** openraft's [Membership] and postcard's encoding of [StoredMembership]. *)
Context {M : Type} (default_membership : M) (membership_view : M → MembershipView).
Context (encode_membership : option LogId * M → string + list Z).
Context (decode_membership : list Z → string + (option LogId * M)).

Inductive EntryPayload := Blank | Normal (c : Cmd) | Membership (m : M).
Record Entry := mkEntry { en_log_id : LogId; en_payload : EntryPayload }.

Record StateMachineAdapter := mkAdapter {
  ad_state : St;
  ad_last_applied : option LogId;
  ad_last_membership : option LogId * M;
  ad_snapshot_counter : Z;
  ad_storage : Store;
}.

(** [StateMachineAdapter::new]. *)
Definition adapter_new (storage : Store) : StateMachineAdapter :=
  mkAdapter app_initial_state None (None, default_membership) 0 storage.

(** One iteration of the loop of [apply]: the new adapter, the response and the
    effects recorded. *)
Definition apply_one (a : StateMachineAdapter) (e : Entry)
    : StateMachineAdapter * Resp * list Eff :=
  let log_id := en_log_id e in
  let a := mkAdapter (ad_state a) (Some log_id) (ad_last_membership a)
             (ad_snapshot_counter a) (ad_storage a) in
  match en_payload e with
  | Blank => (a, app_noop_response, [])
  | Normal command =>
      let '(state, response) := app_apply (ad_state a) command (li_index log_id) in
      let '(effects, response) := obs_on_command state command response (li_index log_id) in
      (mkAdapter state (ad_last_applied a) (ad_last_membership a) (ad_snapshot_counter a)
         (ad_storage a), response, effects)
  | Membership m =>
      let view := membership_view m in
      let state := app_apply_membership (ad_state a) view (li_index log_id) in
      let effects := obs_on_membership state view (li_index log_id) in
      (mkAdapter state (ad_last_applied a) (Some log_id, m) (ad_snapshot_counter a)
         (ad_storage a), app_noop_response, effects)
  end.

(** [apply]: the whole batch under one lock, the effects published after it.
    The result is the adapter, the responses and the published batch. *)
Fixpoint apply_batch (a : StateMachineAdapter) (entries : list Entry)
    : StateMachineAdapter * list Resp * list Eff :=
  match entries with
  | [] => (a, [], [])
  | e :: rest =>
      let '(a1, r, eff) := apply_one a e in
      let '(a2, rs, effs) := apply_batch a1 rest in
      (a2, r :: rs, eff ++ effs)
  end.

(** Successive calls of [apply]. *)
Fixpoint apply_batches (a : StateMachineAdapter) (batches : list (list Entry))
    : StateMachineAdapter * list Resp * list Eff :=
  match batches with
  | [] => (a, [], [])
  | es :: rest =>
      let '(a1, rs, effs) := apply_batch a es in
      let '(a2, rs', effs') := apply_batches a1 rest in
      (a2, rs ++ rs', effs ++ effs')
  end.

(** [restore_from_snapshot], run by [open]; the effects are those published. *)
Definition restore_from_snapshot (a : StateMachineAdapter)
    : StateMachineAdapter * (StorageIOError + list Eff) :=
  match ss_current (ad_storage a) with
  | inl e => (a, inl (snapshot_err VRead e))
  | inr None => (a, inr [])
  | inr (Some (meta, bytes)) =>
      match app_decode_snapshot bytes with
      | inl e => (a, inl (read_state_err e))
      | inr restored =>
          match decode_membership (sm_membership meta) with
          | inl e => (a, inl (read_state_err e))
          | inr last_membership =>
              (mkAdapter restored (sm_last_applied meta) last_membership
                 (ad_snapshot_counter a) (ad_storage a),
               inr (obs_on_snapshot_loaded restored BootRestore))
          end
      end
  end.

(** [open]: a fresh adapter, restored. *)
Definition adapter_open (storage : Store) : StateMachineAdapter * (StorageIOError + list Eff) :=
  restore_from_snapshot (adapter_new storage).

(** [get_snapshot_builder] and [build_snapshot]: the builder works on a clone
    of the state, so the build is described by its counter and that clone. *)
Record SnapshotBuilder := mkBuilder {
  sb_state : St;
  sb_last_applied : option LogId;
  sb_last_membership : option LogId * M;
  sb_counter : Z;
}.

Definition get_snapshot_builder (a : StateMachineAdapter)
    : StateMachineAdapter * SnapshotBuilder :=
  let counter := ad_snapshot_counter a +u64 1 in
  (mkAdapter (ad_state a) (ad_last_applied a) (ad_last_membership a) counter (ad_storage a),
   mkBuilder (ad_state a) (ad_last_applied a) (ad_last_membership a) counter).

(** [format!("snap-{}-{}", last_index, counter)]. *)
Definition snapshot_name (last_applied : option LogId) (counter : Z) : string :=
  let last_index : Z := match last_applied with Some id => li_index id | None => 0 end in
  "snap-" +:+ pretty last_index +:+ "-" +:+ pretty counter.

(** Against the storage at the time of the build. *)
Definition build_snapshot (b : SnapshotBuilder) (storage : Store)
    : Store * (StorageIOError + (SnapshotMeta * list Z)) :=
  match app_encode_snapshot (sb_state b) with
  | inl e => (storage, inl (write_state_err e))
  | inr bytes =>
      match encode_membership (sb_last_membership b) with
      | inl e => (storage, inl (write_state_err e))
      | inr membership_bytes =>
          let meta := mkSnapshotMeta (snapshot_name (sb_last_applied b) (sb_counter b))
                        (sb_last_applied b) membership_bytes in
          match ss_write storage meta bytes with
          | (storage', inl e) => (storage', inl (snapshot_err VWrite e))
          | (storage', inr _) => (storage', inr (meta, bytes))
          end
      end
  end.

(** The metadata openraft hands to [install_snapshot]. *)
Record InstallMeta := mkInstallMeta {
  im_last_log_id : option LogId;
  im_last_membership : option LogId * M;
  im_snapshot_id : string;
}.

Definition install_snapshot (a : StateMachineAdapter) (meta : InstallMeta) (bytes : list Z)
    : StateMachineAdapter * (StorageIOError + list Eff) :=
  match app_decode_snapshot bytes with
  | inl e => (a, inl (read_state_err e))
  | inr new_state =>
      match encode_membership (im_last_membership meta) with
      | inl e => (a, inl (write_state_err e))
      | inr membership_bytes =>
          let effects := obs_on_snapshot_loaded new_state LiveInstall in
          let our_meta := mkSnapshotMeta (im_snapshot_id meta) (im_last_log_id meta)
                            membership_bytes in
          match ss_write (ad_storage a) our_meta bytes with
          | (storage', inl e) =>
              (mkAdapter (ad_state a) (ad_last_applied a) (ad_last_membership a)
                 (ad_snapshot_counter a) storage', inl (snapshot_err VWrite e))
          | (storage', inr _) =>
              (mkAdapter new_state (im_last_log_id meta) (im_last_membership meta)
                 (ad_snapshot_counter a) storage', inr effects)
          end
      end
  end.

Definition get_current_snapshot (a : StateMachineAdapter)
    : StorageIOError + option (InstallMeta * list Z) :=
  match ss_current (ad_storage a) with
  | inl e => inl (snapshot_err VRead e)
  | inr None => inr None
  | inr (Some (meta, data)) =>
      match decode_membership (sm_membership meta) with
      | inl e => inl (read_state_err e)
      | inr last_membership =>
          inr (Some (mkInstallMeta (sm_last_applied meta) last_membership (sm_id meta), data))
      end
  end.

(** ** Lemmas *)

(** What a replica holds of the log: everything but the storage and the counter. *)
Definition replica (a : StateMachineAdapter) : St * option LogId * (option LogId * M) :=
  (ad_state a, ad_last_applied a, ad_last_membership a).

Lemma apply_one_replica a b e :
  replica a = replica b →
  replica (apply_one a e).1.1 = replica (apply_one b e).1.1
  ∧ (apply_one a e).1.2 = (apply_one b e).1.2 ∧ (apply_one a e).2 = (apply_one b e).2.
Proof.
  unfold replica, apply_one; destruct a, b; simpl. intros [= <- <- <-].
  destruct (en_payload e) as [|c|m]; simpl; auto.
  destruct (app_apply _ _ _) as [s r]. destruct (obs_on_command _ _ _ _). auto.
Qed.

Lemma apply_batch_replica a b es :
  replica a = replica b →
  replica (apply_batch a es).1.1 = replica (apply_batch b es).1.1
  ∧ (apply_batch a es).1.2 = (apply_batch b es).1.2
  ∧ (apply_batch a es).2 = (apply_batch b es).2.
Proof.
  revert a b. induction es as [|e es IH]; intros a b Hab; simpl; [by auto|].
  destruct (apply_one_replica a b e Hab) as (H1 & H2 & H3).
  destruct (apply_one a e) as [[a1 ra] ea], (apply_one b e) as [[b1 rb] eb]; simpl in *; subst.
  destruct (IH a1 b1 H1) as (H4 & H5 & H6).
  destruct (apply_batch a1 es) as [[a2 rsa] esa], (apply_batch b1 es) as [[b2 rsb] esb].
  simpl in *; subst. auto.
Qed.

Lemma apply_batch_app a es1 es2 :
  apply_batch a (es1 ++ es2) =
  let '(a1, rs1, eff1) := apply_batch a es1 in
  let '(a2, rs2, eff2) := apply_batch a1 es2 in
  (a2, rs1 ++ rs2, eff1 ++ eff2).
Proof.
  revert a. induction es1 as [|e es1 IH]; intros a; simpl.
  { by destruct (apply_batch a es2) as [[??]?]. }
  destruct (apply_one a e) as [[a1 r] eff]. rewrite IH.
  destruct (apply_batch a1 es1) as [[a2 rs1] eff1].
  destruct (apply_batch a2 es2) as [[a3 rs2] eff2]. by rewrite app_assoc.
Qed.

Lemma apply_batch_storage a es : ad_storage (apply_batch a es).1.1 = ad_storage a.
Proof.
  revert a. induction es as [|e es IH]; intros a; simpl; [done|].
  destruct (apply_one a e) as [[a1 r] eff] eqn:E. specialize (IH a1).
  destruct (apply_batch a1 es) as [[a2 rs] effs]; simpl in *. rewrite IH.
  unfold apply_one in E. destruct (en_payload e); simplify_eq/=; auto.
  destruct (app_apply _ _ _), (obs_on_command _ _ _ _). by simplify_eq/=.
Qed.
End adapter.

(** * Properties of the Raft state-machine adapter

    Batch boundaries do not matter, a node that restarts from its snapshot and
    replays the rest of the log is the node that did not restart, and an
    installed snapshot is durable before it is visible. *)

Section claims.
Context {St Cmd Resp Eff : Type} `{App : !AppStateMachine St Cmd Resp Eff}.
Context {Store : Type} `{!RaftSnapshotStore Store}.
Context {M : Type} (default_membership : M) (membership_view : M → MembershipView).
Context (encode_membership : option LogId * M → string + list Z).
Context (decode_membership : list Z → string + (option LogId * M)).

#[local] Abbreviation batch := (apply_batch membership_view).
#[local] Abbreviation reopen := (adapter_open default_membership decode_membership).

(** What [decode_snapshot] of the application and postcard promise: a value
    that was encoded decodes to itself. *)
Definition snapshot_codec_ok : Prop :=
  ∀ s bytes, app_encode_snapshot s = inr bytes → app_decode_snapshot bytes = inr s.
Definition membership_codec_ok : Prop :=
  ∀ m bytes, encode_membership m = inr bytes → decode_membership bytes = inr m.

(** A restart from the store after a write of a snapshot that decodes. *)
Lemma reopen_after_write (st st' : Store) meta bytes (s : St) lm :
  ss_write st meta bytes = (st', inr tt) → app_decode_snapshot bytes = inr s →
  decode_membership (sm_membership meta) = inr lm →
  reopen st' = (mkAdapter s (sm_last_applied meta) lm 0 st',
                inr (obs_on_snapshot_loaded s BootRestore)).
Proof.
  intros Hw Hs Hm. unfold adapter_open, restore_from_snapshot; simpl.
  by rewrite (ss_write_current _ _ _ _ Hw), Hs, Hm.
Qed.

Lemma build_snapshot_ok b (st st' : Store) meta bytes :
  build_snapshot encode_membership b st = (st', inr (meta, bytes)) →
  app_encode_snapshot (sb_state b) = inr bytes
  ∧ encode_membership (sb_last_membership b) = inr (sm_membership meta)
  ∧ sm_last_applied meta = sb_last_applied b ∧ ss_write st meta bytes = (st', inr tt).
Proof.
  unfold build_snapshot. destruct (app_encode_snapshot _) as [?|bs]; [done|].
  destruct (encode_membership _) as [?|mb]; [done|].
  destruct (ss_write _ _ _) as [? [?|[]]] eqn:Hw; [done|]. by intros [= <- <- <-].
Qed.
End claims.

(** Batch boundaries are invisible: openraft may hand the adapter a log in
    any batches, and the state, the responses and the effects in order are
    those of applying it entry by entry. *)
Theorem adapter_batching {St Cmd Resp Eff} `{!AppStateMachine St Cmd Resp Eff} {Store M}
    (membership_view : M → MembershipView)
    (a : StateMachineAdapter (St:=St) (Store:=Store)) (batches : list (list Entry)) :
  apply_batches membership_view a batches = apply_batch membership_view a (concat batches).
Proof.
  revert a. induction batches as [|es bs IH]; intros a; simpl; [done|].
  rewrite apply_batch_app. destruct (apply_batch _ a es) as [[a1 rs1] effs1]. by rewrite IH.
Qed.

(** C37: Restarting loses nothing: take a snapshot builder, let [during] be
    applied while it builds and [after] after it wrote; a node that restarts
    from the storage and replays [during] and [after] holds the state, the last
    applied id and the membership of the node that stayed up, and gives the
    same responses. *)
Theorem adapter_restart {St Cmd Resp Eff} `{!AppStateMachine St Cmd Resp Eff}
    {Store} `{!RaftSnapshotStore Store} {M} (default_membership : M)
    (membership_view : M → MembershipView) encode_membership decode_membership
    (a : StateMachineAdapter (St:=St) (Store:=Store)) (during after : list Entry) st' snap :
  snapshot_codec_ok → membership_codec_ok encode_membership decode_membership →
  let '(a0, b) := get_snapshot_builder a in
  let '(a1, rs1, _) := apply_batch membership_view a0 during in
  build_snapshot encode_membership b (ad_storage a1) = (st', inr snap) →
  let '(a2, rs2, _) := apply_batch membership_view a1 after in
  ∃ r effs, adapter_open default_membership decode_membership st' = (r, inr effs)
    ∧ let '(r', rs, _) := apply_batch membership_view r (during ++ after) in
      replica r' = replica a2 ∧ rs = rs1 ++ rs2.
Proof.
  intros Hcodec Hmem. unfold get_snapshot_builder.
  set (a0 := mkAdapter _ _ _ _ _). set (b := mkBuilder _ _ _ _).
  pose proof (apply_batch_app membership_view a0 during after) as Happ.
  destruct (apply_batch membership_view a0 during) as [[a1 rs1] eff1] eqn:E1.
  destruct snap as [meta bytes]. intros Hbuild.
  apply build_snapshot_ok in Hbuild as (Hs & Hm & Hla & Hw).
  destruct (apply_batch membership_view a1 after) as [[a2 rs2] eff2] eqn:E2.
  eexists _, _. split.
  { eapply (reopen_after_write _ _ _ _ meta); [exact Hw|by apply Hcodec|by apply Hmem]. }
  match goal with |- context [apply_batch membership_view ?r (during ++ after)] =>
    destruct (apply_batch_replica membership_view r a0 (during ++ after)) as (H1 & H2 & _) end.
  { unfold replica; simpl. by rewrite Hla. }
  rewrite Happ in H1, H2; cbn [fst snd] in H1, H2. clear Happ.
  destruct (apply_batch membership_view _ (during ++ after)) as [[r' rs] effs]; auto.
Qed.

(** C20: Installing a snapshot is atomic: on an error the replica is what it
    was, and on success the snapshot is already durable, so a crash at any
    point after the write restarts into exactly the state being installed. *)
Theorem adapter_install_atomic {St Cmd Resp Eff} `{!AppStateMachine St Cmd Resp Eff}
    {Store} `{!RaftSnapshotStore Store} {M} (default_membership : M)
    encode_membership decode_membership
    (a : StateMachineAdapter (St:=St) (Store:=Store)) (meta : InstallMeta (M:=M)) bytes :
  membership_codec_ok encode_membership decode_membership →
  let '(a', r) := install_snapshot encode_membership a meta bytes in
  match r with
  | inl _ => replica a' = replica a
  | inr effs =>
      ∃ s, app_decode_snapshot bytes = inr s ∧ effs = obs_on_snapshot_loaded s LiveInstall
        ∧ replica a' = (s, im_last_log_id meta, im_last_membership meta)
        ∧ replica (adapter_open default_membership decode_membership (ad_storage a')).1
          = replica a'
  end.
Proof.
  intros Hmem. unfold install_snapshot.
  destruct (app_decode_snapshot bytes) as [?|s] eqn:Hs; [done|].
  destruct (encode_membership _) as [?|mb] eqn:Hm; [done|].
  destruct (ss_write _ _ _) as [st' [?|[]]] eqn:Hw; [done|].
  exists s. do 3 (split; [done|]). simpl.
  by rewrite (reopen_after_write default_membership decode_membership _ _ _ _ _ _ Hw Hs
                (Hmem _ _ Hm)).
Qed.

(** ** A concrete application *)

(** A counter: commands add, the snapshot is the number. *)
#[export] Instance counter_app : AppStateMachine Z Z Z Z := {|
  app_initial_state := 0;
  app_apply s c _ := (s + c, s + c);
  app_noop_response := 0;
  app_apply_membership s _ _ := s;
  app_encode_snapshot s := inr [s];
  app_decode_snapshot b := match b with [s] => inr s | _ => inl "bad" end;
  obs_on_command _ c r i := ([c], r);
  obs_on_membership _ _ _ := [];
  obs_on_snapshot_loaded s _ := [s];
|}.

Definition toy_view (m : unit) : MembershipView := mkView ∅ ∅.
Definition toy_encode (m : option LogId * unit) : string + list Z :=
  inr match m.1 with Some (mkLogId t i) => [t; i] | None => [] end.
Definition toy_decode (b : list Z) : string + (option LogId * unit) :=
  match b with
  | [] => inr (None, ())
  | [t; i] => inr (Some (mkLogId t i), ())
  | _ => inl "bad"
  end.

Lemma toy_codec : membership_codec_ok toy_encode toy_decode.
Proof. by intros [[[t i]|] []] bytes [= <-]. Qed.
Lemma counter_codec : snapshot_codec_ok (St:=Z) (Cmd:=Z) (Resp:=Z) (Eff:=Z).
Proof. by intros s bytes [= <-]. Qed.

Definition toy_store : MemorySnapshotStore := mkMemoryStore ∅ None.
Definition toy_adapter : StateMachineAdapter (St:=Z) (Store:=MemorySnapshotStore) (M:=unit) :=
  adapter_new () toy_store.
Definition toy_entry (i c : Z) : Entry (Cmd:=Z) (M:=unit) := mkEntry (mkLogId 1 i) (Normal c).

Lemma adapter_restart_witness :
  ∃ r effs, adapter_open () toy_decode
      (build_snapshot toy_encode (get_snapshot_builder toy_adapter).2 toy_store).1 = (r, inr effs)
    ∧ let '(r', rs, _) := apply_batch toy_view r ([toy_entry 1 5] ++ [toy_entry 2 7]) in
      replica r' = (12, Some (mkLogId 1 2), (None, ())) ∧ rs = [5; 12].
Proof.
  exact (adapter_restart () toy_view toy_encode toy_decode toy_adapter
    [toy_entry 1 5] [toy_entry 2 7] _ _ counter_codec toy_codec eq_refl).
Defined.

Lemma adapter_install_atomic_witness :
  replica (install_snapshot toy_encode toy_adapter
    (mkInstallMeta (Some (mkLogId 2 9)) (None, ()) "snap-9-1") [41]).1
    = (41, Some (mkLogId 2 9), (None, ()))
  ∧ ∃ s, app_decode_snapshot (AppStateMachine:=counter_app) [41] = inr s.
Proof.
  split; [by vm_compute|].
  pose proof (adapter_install_atomic () toy_encode toy_decode toy_adapter
    (mkInstallMeta (Some (mkLogId 2 9)) (None, ()) "snap-9-1") [41] toy_codec) as H.
  simpl in H. destruct H as (s & Hs & _). by exists s.
Defined.
