(* ===== verification/NsTypes.v ===== *)
(** * The replicated nameservice: data
    ([fluree-db-consensus/src/raft/state_machine.rs])

    The state the Raft log reduces into, the commands it carries and the
    responses [apply] gives.  A [HashMap] is a [gmap], a [HashSet] or a
    [BTreeSet] of scalars a [gset]; the [VecDeque] of a branch is a list with
    its front first; timestamps, log indexes, queue ids and [t] are [Z].  Field
    names carry a prefix per struct where the source reuses a name. *)

From S2P Require Import Prelude LedgerId.
Import LedgerId.

(** ** Identifiers and values of other crates *)

(** A content id is compared and passed on, never inspected: it is its
    canonical binary form. *)
Record ContentId := mkCid { cid_bytes : string }.
#[export] Instance ContentId_eq_dec : EqDecision ContentId.
Proof. solve_decision. Defined.

(** An [f64], by its bits; [PartialEq] is IEEE equality. *)
Record f64 := mkF64 { f64_bits : Z }.

Definition f64_is_nan (x : f64) : bool :=
  let m := Z.land (f64_bits x) 0x7FFFFFFFFFFFFFFF in 0x7FF0000000000000 <? m.
Definition f64_is_zero (x : f64) : bool :=
  Z.land (f64_bits x) 0x7FFFFFFFFFFFFFFF =? 0.
Definition f64_eqb (x y : f64) : bool :=
  negb (f64_is_nan x) && negb (f64_is_nan y) &&
  ((f64_bits x =? f64_bits y) || (f64_is_zero x && f64_is_zero y)).

Record PolicyStats := mkPolicyStats { executed : Z; allowed : Z }.

Record IdempotencyCacheKey := mkIdemKey {
  ik_ledger_id : string;
  ik_key : string;
}.
#[export] Instance IdempotencyCacheKey_eq_dec : EqDecision IdempotencyCacheKey.
Proof. solve_decision. Defined.
#[export] Instance IdempotencyCacheKey_countable : Countable IdempotencyCacheKey.
Proof.
  refine (inj_countable' (λ k, (ik_ledger_id k, ik_key k))
            (λ p, mkIdemKey p.1 p.2) _). by intros [].
Defined.

Inductive BodyKind :=
  | JsonLdInsert | JsonLdUpsert | JsonLdUpdate
  | TurtleInsert | TurtleUpsert | TrigUpsert
  | Sparql | Cypher | Pushed | Revert | Merge | Rebase
  | JsonLdGraphSync | RdfGraphSync | GraphInsert.

Inductive RefKind := CommitHead | IndexHead.

Record RefValue := mkRefValue { rv_id : option ContentId; rv_t : Z }.
#[export] Instance RefValue_eq_dec : EqDecision RefValue.
Proof. solve_decision. Defined.

Inductive GraphSourceType :=
  | Bm25 | Vector | Geo | R2rml | Iceberg | Sql | Delta
  | Unknown (s : string).

Record GraphSourceRecord := mkGraphSource {
  gs_graph_source_id : string;
  gs_name : string;
  gs_branch : string;
  gs_source_type : GraphSourceType;
  gs_config : string;
  gs_dependencies : list string;
  gs_index_id : option ContentId;
  gs_index_t : Z;
  gs_retracted : bool;
}.

(** [GraphSourceRecord::new]. *)
Definition GraphSourceRecord_new (name branch : string) (source_type : GraphSourceType)
    (config : string) (dependencies : list string) : GraphSourceRecord :=
  {| gs_graph_source_id := format_ledger_id name branch;
     gs_name := name; gs_branch := branch; gs_source_type := source_type;
     gs_config := config; gs_dependencies := dependencies;
     gs_index_id := None; gs_index_t := 0; gs_retracted := false |}.

(** ** Tallies *)

Record RecordedReasoningTally := mkReasoningTally {
  rt_capped : bool;
  rt_capped_reason : option string;
  rt_derived_facts : Z;
  rt_iterations : Z;
  rt_duration_ms : Z;
}.

Record RecordedTally := mkTally {
  tally_time : option string;
  tally_fuel : option f64;
  tally_policy : option (gmap string PolicyStats);
  tally_reasoning : option RecordedReasoningTally;
}.

(** ** Branches and ledgers *)

Record RefKey := mkRefKey {
  rk_ledger_name : string;
  rk_branch : string;
}.
#[export] Instance RefKey_eq_dec : EqDecision RefKey.
Proof. solve_decision. Defined.
#[export] Instance RefKey_countable : Countable RefKey.
Proof.
  refine (inj_countable' (λ k, (rk_ledger_name k, rk_branch k))
            (λ p, mkRefKey p.1 p.2) _). by intros [].
Defined.

(** [RefKey::ledger_id]. *)
Definition ref_key_ledger_id (k : RefKey) : string :=
  format_ledger_id (rk_ledger_name k) (rk_branch k).

Record IndexState := mkIndexState { ix_head : ContentId; ix_t : Z }.

Record RefEntry := mkRefEntry {
  re_head : ContentId;
  re_t : Z;
  re_last_advanced_at_millis : Z;
  re_last_advanced_index : Z;
  re_index : option IndexState;
  re_source_branch : option string;
  re_branches : Z;
}.

Record LedgerRecord := mkLedger {
  lr_created_at_millis : Z;
  lr_created_index : Z;
  lr_branches : list string;
}.

(** ** Outcomes and queue entries *)

Inductive PoisonReason :=
  | StagingFailed (error : string) (attempts : Z)
  | BodyMalformed (error : string)
  | PolicyViolation (error : string)
  | PoisonLedgerNotFound (ledger_id : string)
  | PushCasFailed (head_at_worker expected_by_chain : option ContentId)
  | WorkerPanic (message : string).

Record ApplyRecord := mkApplyRecord {
  ar_request_cid : ContentId;
  ar_body_cid : ContentId;
  ar_body_kind : BodyKind;
  ar_recorded_at_millis : Z;
  ar_head : ContentId;
  ar_t : Z;
  ar_recorded_index : Z;
  ar_tally : option RecordedTally;
  ar_flake_count : Z;
}.

Record PoisonRecord := mkPoisonRecord {
  pr_request_cid : ContentId;
  pr_body_cid : ContentId;
  pr_reason : PoisonReason;
  pr_recorded_index : Z;
  pr_recorded_at_millis : Z;
}.

Inductive ApplyOutcome :=
  | Applied (r : ApplyRecord)
  | Failed (r : PoisonRecord).

(** The four accessors of [impl ApplyOutcome]. *)
Definition outcome_request_cid (o : ApplyOutcome) : ContentId :=
  match o with Applied r => ar_request_cid r | Failed r => pr_request_cid r end.
Definition outcome_body_cid (o : ApplyOutcome) : ContentId :=
  match o with Applied r => ar_body_cid r | Failed r => pr_body_cid r end.
Definition outcome_recorded_at_millis (o : ApplyOutcome) : Z :=
  match o with Applied r => ar_recorded_at_millis r | Failed r => pr_recorded_at_millis r end.
Definition outcome_recorded_index (o : ApplyOutcome) : Z :=
  match o with Applied r => ar_recorded_index r | Failed r => pr_recorded_index r end.

Record QueueEntry := mkQueueEntry {
  qe_queue_id : Z;
  qe_enqueued_index : Z;
  qe_enqueued_at_millis : Z;
  qe_idempotency : option IdempotencyCacheKey;
  qe_request_cid : ContentId;
  qe_body_cid : ContentId;
  qe_body_kind : BodyKind;
}.

Inductive ClearReason :=
  | ClearBranchDropped | ClearBranchPurged | ClearBranchHeadReset | ClearBranchRetracted.

Record ClearMarker := mkMarker {
  cm_reason : ClearReason;
  cm_applied_at_millis : Z;
}.

Record QueueConfig := mkQueueConfig {
  per_branch_cap : Z;
  global_cap : Z;
}.

Definition DEFAULT_PER_BRANCH : Z := 1024.
Definition DEFAULT_GLOBAL : Z := 16384.
Definition default_queue_config : QueueConfig :=
  mkQueueConfig DEFAULT_PER_BRANCH DEFAULT_GLOBAL.

(** ** Versioned values *)

(** The stored form of a JSON value.  An object is its [BTreeMap], in key
    order. *)
Inductive CanonicalValue :=
  | CNull
  | CBool (b : bool)
  | CInt (i : Z)
  | CUInt (u : Z)
  | CFloat (x : f64)
  | CString (s : string)
  | CArray (items : list CanonicalValue)
  | CObject (fields : list (string * CanonicalValue)).

(** The derived [PartialEq]. *)
Fixpoint canonical_eqb (x y : CanonicalValue) : bool :=
  match x, y with
  | CNull, CNull => true
  | CBool a, CBool b => Bool.eqb a b
  | CInt a, CInt b | CUInt a, CUInt b => a =? b
  | CFloat a, CFloat b => f64_eqb a b
  | CString a, CString b => String.eqb a b
  | CArray a, CArray b =>
      (fix go (a b : list CanonicalValue) : bool :=
         match a, b with
         | [], [] => true
         | x :: a, y :: b => canonical_eqb x y && go a b
         | _, _ => false
         end) a b
  | CObject a, CObject b =>
      (fix go (a b : list (string * CanonicalValue)) : bool :=
         match a, b with
         | [], [] => true
         | (j, x) :: a, (k, y) :: b => String.eqb j k && canonical_eqb x y && go a b
         | _, _ => false
         end) a b
  | _, _ => false
  end.

(** Equality of two metadata maps. *)
Fixpoint extra_eqb (a b : list (string * CanonicalValue)) : bool :=
  match a, b with
  | [], [] => true
  | (j, x) :: a, (k, y) :: b => String.eqb j k && canonical_eqb x y && extra_eqb a b
  | _, _ => false
  end.

Record StoredStatus := mkStatus {
  ss_v : Z;
  ss_state : string;
  ss_extra : list (string * CanonicalValue);
}.

(** [StoredStatus::initial], the stored form of [StatusValue::initial]. *)
Definition StoredStatus_initial : StoredStatus := mkStatus 1 "ready" [].

Definition status_eqb (x y : StoredStatus) : bool :=
  (ss_v x =? ss_v y) && String.eqb (ss_state x) (ss_state y)
  && extra_eqb (ss_extra x) (ss_extra y).

Record StoredConfigPayload := mkConfigPayload {
  cp_default_context : option ContentId;
  cp_config_id : option ContentId;
  cp_extra : list (string * CanonicalValue);
}.

Record StoredConfig := mkConfig {
  sc_v : Z;
  sc_payload : option StoredConfigPayload;
}.

Definition StoredConfig_unborn : StoredConfig := mkConfig 0 None.

Definition config_payload_eqb (x y : StoredConfigPayload) : bool :=
  bool_decide (cp_default_context x = cp_default_context y)
  && bool_decide (cp_config_id x = cp_config_id y)
  && extra_eqb (cp_extra x) (cp_extra y).

Definition config_eqb (x y : StoredConfig) : bool :=
  (sc_v x =? sc_v y) &&
  match sc_payload x, sc_payload y with
  | None, None => true
  | Some p, Some q => config_payload_eqb p q
  | _, _ => false
  end.

(** ** The state *)

Record NameServiceState := mkState {
  refs : gmap RefKey RefEntry;
  ledgers : gmap string LedgerRecord;
  retracted : gset RefKey;
  idempotency : gmap IdempotencyCacheKey ApplyOutcome;
  queues : gmap RefKey (list QueueEntry);
  next_queue_id : Z;
  recently_cleared : gmap RefKey ClearMarker;
  evicted_idempotency_count : Z;
  queue_config : QueueConfig;
  status : gmap string StoredStatus;
  config : gmap string StoredConfig;
  graph_sources : gmap string GraphSourceRecord;
  worker_eligible_voters : gset Z;
  configured_voters : gset Z;
}.

(** [NameServiceState::default]. *)
Definition initial_state : NameServiceState := {|
  refs := ∅; ledgers := ∅; retracted := ∅; idempotency := ∅; queues := ∅;
  next_queue_id := 0; recently_cleared := ∅; evicted_idempotency_count := 0;
  queue_config := default_queue_config; status := ∅; config := ∅;
  graph_sources := ∅; worker_eligible_voters := ∅; configured_voters := ∅;
|}.

(** Assignments to one field of the state. *)
Definition set_refs (s : NameServiceState) x := mkState x (ledgers s) (retracted s)
  (idempotency s) (queues s) (next_queue_id s) (recently_cleared s)
  (evicted_idempotency_count s) (queue_config s) (status s) (config s) (graph_sources s)
  (worker_eligible_voters s) (configured_voters s).
Definition set_ledgers (s : NameServiceState) x := mkState (refs s) x (retracted s)
  (idempotency s) (queues s) (next_queue_id s) (recently_cleared s)
  (evicted_idempotency_count s) (queue_config s) (status s) (config s) (graph_sources s)
  (worker_eligible_voters s) (configured_voters s).
Definition set_retracted (s : NameServiceState) x := mkState (refs s) (ledgers s) x
  (idempotency s) (queues s) (next_queue_id s) (recently_cleared s)
  (evicted_idempotency_count s) (queue_config s) (status s) (config s) (graph_sources s)
  (worker_eligible_voters s) (configured_voters s).
Definition set_idempotency (s : NameServiceState) x := mkState (refs s) (ledgers s)
  (retracted s) x (queues s) (next_queue_id s) (recently_cleared s)
  (evicted_idempotency_count s) (queue_config s) (status s) (config s) (graph_sources s)
  (worker_eligible_voters s) (configured_voters s).
Definition set_queues (s : NameServiceState) x := mkState (refs s) (ledgers s)
  (retracted s) (idempotency s) x (next_queue_id s) (recently_cleared s)
  (evicted_idempotency_count s) (queue_config s) (status s) (config s) (graph_sources s)
  (worker_eligible_voters s) (configured_voters s).
Definition set_next_queue_id (s : NameServiceState) x := mkState (refs s) (ledgers s)
  (retracted s) (idempotency s) (queues s) x (recently_cleared s)
  (evicted_idempotency_count s) (queue_config s) (status s) (config s) (graph_sources s)
  (worker_eligible_voters s) (configured_voters s).
Definition set_recently_cleared (s : NameServiceState) x := mkState (refs s) (ledgers s)
  (retracted s) (idempotency s) (queues s) (next_queue_id s) x
  (evicted_idempotency_count s) (queue_config s) (status s) (config s) (graph_sources s)
  (worker_eligible_voters s) (configured_voters s).
Definition set_evicted_count (s : NameServiceState) x := mkState (refs s) (ledgers s)
  (retracted s) (idempotency s) (queues s) (next_queue_id s) (recently_cleared s)
  x (queue_config s) (status s) (config s) (graph_sources s)
  (worker_eligible_voters s) (configured_voters s).
Definition set_status (s : NameServiceState) x := mkState (refs s) (ledgers s)
  (retracted s) (idempotency s) (queues s) (next_queue_id s) (recently_cleared s)
  (evicted_idempotency_count s) (queue_config s) x (config s) (graph_sources s)
  (worker_eligible_voters s) (configured_voters s).
Definition set_config (s : NameServiceState) x := mkState (refs s) (ledgers s)
  (retracted s) (idempotency s) (queues s) (next_queue_id s) (recently_cleared s)
  (evicted_idempotency_count s) (queue_config s) (status s) x (graph_sources s)
  (worker_eligible_voters s) (configured_voters s).
Definition set_graph_sources (s : NameServiceState) x := mkState (refs s) (ledgers s)
  (retracted s) (idempotency s) (queues s) (next_queue_id s) (recently_cleared s)
  (evicted_idempotency_count s) (queue_config s) (status s) (config s) x
  (worker_eligible_voters s) (configured_voters s).
Definition set_voters (s : NameServiceState) eligible configured := mkState (refs s) (ledgers s)
  (retracted s) (idempotency s) (queues s) (next_queue_id s) (recently_cleared s)
  (evicted_idempotency_count s) (queue_config s) (status s) (config s) (graph_sources s)
  eligible configured.

(** ** Command payloads *)

Record ConfigUpdate := mkConfigUpdate {
  cu_ledger_id : string;
  cu_expected : option StoredConfig;
  cu_new : StoredConfig;
}.

Record QueueSubmission := mkSubmission {
  qs_ledger_id : string;
  qs_branch : string;
  qs_idempotency : option IdempotencyCacheKey;
  qs_request_cid : ContentId;
  qs_body_cid : ContentId;
  qs_body_kind : BodyKind;
  qs_applied_at_millis : Z;
}.

Record StagedHead := mkStagedHead {
  sh_ledger_id : string;
  sh_branch : string;
  sh_queue_id : Z;
  sh_commit_id : ContentId;
  sh_commit_t : Z;
  sh_applied_at_millis : Z;
  sh_tally : option RecordedTally;
  sh_flake_count : Z;
}.

Record EntryPoisoning := mkPoisoning {
  ep_ledger_id : string;
  ep_branch : string;
  ep_queue_id : Z;
  ep_reason : PoisonReason;
  ep_applied_at_millis : Z;
}.

Record WorkerEligibility := mkEligibility {
  we_voter : Z;
  we_eligible : bool;
  we_applied_at_millis : Z;
}.

Record NewIndexHead := mkNewIndexHead {
  ni_ledger_id : string;
  ni_branch : string;
  ni_new_index_head : ContentId;
  ni_t : Z;
  ni_applied_at_millis : Z;
}.

Record RefCas := mkRefCas {
  rc_ledger_id : string;
  rc_branch : string;
  rc_kind : RefKind;
  rc_expected : option RefValue;
  rc_new : RefValue;
  rc_applied_at_millis : Z;
}.

Record NewLedger := mkNewLedger {
  nl_ledger_id : string;
  nl_branch : string;
  nl_created_at_millis : Z;
}.

Record NewBranch := mkNewBranch {
  nb_ledger_id : string;
  nb_branch : string;
  nb_source_branch : string;
  nb_at_commit : option (ContentId * Z);
  nb_applied_at_millis : Z;
}.

Record ResetHeadSnapshot := mkResetSnapshot {
  rs_commit_head_id : option ContentId;
  rs_commit_t : Z;
  rs_index_head_id : option ContentId;
  rs_index_t : Z;
}.

Inductive Command :=
  | AdvanceIndexHead (args : NewIndexHead)
  | RewriteIndexHead (args : NewIndexHead)
  | CreateLedger (args : NewLedger)
  | CreateBranch (args : NewBranch)
  | DropBranch (ledger_id branch : string) (applied_at_millis : Z)
  | ResetHead (ledger_id branch : string) (snapshot : ResetHeadSnapshot)
              (applied_at_millis : Z)
  | RetractLedger (ledger_id branch : string) (applied_at_millis : Z)
  | PurgeBranch (ledger_id branch : string) (applied_at_millis : Z)
  | ReleaseContent (id : ContentId)
  | CompareAndSetRef (args : RefCas)
  | PushStatus (ledger_id : string) (expected : option StoredStatus) (new : StoredStatus)
  | PushConfig (args : ConfigUpdate)
  | PublishGraphSource (name branch : string) (source_type : GraphSourceType)
                       (config : string) (dependencies : list string)
  | PublishGraphSourceIndex (name branch : string) (index_id : ContentId) (index_t : Z)
  | RetractGraphSource (name branch : string)
  | EnqueueCommand (args : QueueSubmission)
  | ApplyHead (args : StagedHead)
  | PoisonQueueEntry (args : EntryPoisoning)
  | EvictIdempotency (cutoff_millis marker_cutoff_millis : Z)
  | SetWorkerEligibility (args : WorkerEligibility).

(** ** Responses *)

Inductive QueueFullScope := PerBranch | Global.

Inductive EligibilityRefusal := VoterNotConfigured.

Inductive DesyncReason :=
  | WrongFront (actual_queue_id : Z)
  | QueueCleared (reason : ClearReason)
  | HeadNotMonotonic (current_t proposed_t : Z)
  | InvariantViolated (description : string).

Inductive Response :=
  | IndexAdvanced (index_t : Z) (index_head : ContentId)
  | IndexStale (current_t : Z)
  | IndexAhead (commit_t proposed_t : Z)
  | RefCasUpdated
  | RefCasConflict (actual : option RefValue)
  | StatusUpdated
  | StatusConflict (actual : option StoredStatus)
  | ConfigUpdated
  | ConfigConflict (actual : option StoredConfig)
  | GraphSourcePublished
  | GraphSourceIndexAdvanced (index_t : Z)
  | GraphSourceIndexStale (current_t : Z)
  | GraphSourceNotFound (graph_source_id : string)
  | GraphSourceRetracted (graph_source_id : string)
  | GraphSourceAlreadyRetracted (graph_source_id : string)
  | Created (ledger_id : string)
  | AlreadyExists (ledger_id : string)
  | BranchCreated (ledger_id : string) (head : ContentId) (t : Z)
  | SourceBranchNotFound (ledger_id : string)
  | BranchDropped (ledger_id : string) (parent_branches : option Z)
                  (released_envelopes : list (string * ContentId))
  | BranchHasChildren (ledger_id : string) (children : Z)
  | HeadReset (ledger_id : string) (released_envelopes : list (string * ContentId))
  | Retracted (ledger_id : string) (released_envelopes : list (string * ContentId))
  | AlreadyRetracted (ledger_id : string)
  | LedgerRetracted (ledger_id : string)
  | Purged (ledger_id : string) (released_envelopes : list (string * ContentId))
  | AlreadyPurged (ledger_id : string)
  | LedgerNotFound (ledger_id : string)
  | BodyHashMismatch
  | Enqueued (ledger_id : string) (queue_id : Z)
  | IdempotencyHit (record : ApplyRecord)
  | IdempotencyFailed (record : PoisonRecord)
  | InFlight (ledger_id : string) (queue_id : Z)
  | QueueFull (ledger_id : string) (depth cap : Z) (scope : QueueFullScope)
  | HeadApplied (ledger_id : string) (commit_id : ContentId) (commit_t : Z)
                (released_envelope : option ContentId)
  | QueueDesync (ledger_id : string) (requested_queue_id : Z) (reason : DesyncReason)
  | Poisoned (ledger_id : string) (queue_id : Z) (reason : PoisonReason)
             (released_envelope : option ContentId)
  | EvictionApplied (removed : Z) (released_envelopes : list (string * ContentId))
  | WorkerEligibilitySet (voter : Z) (eligible changed : bool)
  | WorkerEligibilityRefused (voter : Z) (eligible : bool) (reason : EligibilityRefusal)
  | NoOp.

(** [trait VersionedValue]: a CAS-updated value with an advancing version. *)
Class VersionedValue (T : Type) := {
  vv_absent : T;
  vv_v : T → Z;
  vv_eqb : T → T → bool;
  vv_conflict : option T → Response;
  vv_updated : Response;
}.

#[export] Instance versioned_status : VersionedValue StoredStatus := {
  vv_absent := StoredStatus_initial;
  vv_v := ss_v;
  vv_eqb := status_eqb;
  vv_conflict := StatusConflict;
  vv_updated := StatusUpdated;
}.

#[export] Instance versioned_config : VersionedValue StoredConfig := {
  vv_absent := StoredConfig_unborn;
  vv_v := sc_v;
  vv_eqb := config_eqb;
  vv_conflict := ConfigConflict;
  vv_updated := ConfigUpdated;
}.
