(* ===== verification/NsApply.v ===== *)
(** * The replicated nameservice: the reducer
    ([fluree-db-consensus/src/raft/state_machine.rs], [apply] and its handlers)

    One definition per handler, under the handler's name.  A handler takes the
    state and gives the state it leaves and its response; an early [return] is
    a branch of the definition.  [HashMap::entry], [get_mut] and [retain] are
    written as the insert, the update of the entry found and the filter they
    perform. *)

From S2P Require Import Prelude LedgerId NsTypes Adapter.
Import LedgerId.

Implicit Types (s : NameServiceState).

(** [state.ledgers.get(&ledger_id).is_some_and(|l| l.branches.contains(&branch))]. *)
Definition ledger_known (m : gmap string LedgerRecord) (ledger_id branch : string) : bool :=
  match m !! ledger_id with
  | Some l => bool_decide (branch ∈ lr_branches l)
  | None => false
  end.

(** ** Worker eligibility *)

Definition apply_set_worker_eligibility s (args : WorkerEligibility)
    : NameServiceState * Response :=
  let voter := we_voter args in
  let eligible := we_eligible args in
  if negb (bool_decide (voter ∈ configured_voters s)) then
    (s, WorkerEligibilityRefused voter eligible VoterNotConfigured)
  else if eligible then
    let changed := negb (bool_decide (voter ∈ worker_eligible_voters s)) in
    (set_voters s ({[voter]} ∪ worker_eligible_voters s) (configured_voters s),
     WorkerEligibilitySet voter eligible changed)
  else
    let changed := bool_decide (voter ∈ worker_eligible_voters s) in
    (set_voters s (worker_eligible_voters s ∖ {[voter]}) (configured_voters s),
     WorkerEligibilitySet voter eligible changed).

(** ** Queues cleared by admin commands *)

Definition clear_queue_for_admin s (ref_key : RefKey) (reason : ClearReason)
    (applied_at_millis : Z) : NameServiceState * list (string * ContentId) :=
  match queues s !! ref_key with
  | None => (s, [])
  | Some queue =>
      let s1 := set_queues s (delete ref_key (queues s)) in
      match queue with
      | [] => (s1, [])
      | _ :: _ =>
          let s2 := set_recently_cleared s1
            (<[ref_key := mkMarker reason applied_at_millis]> (recently_cleared s1)) in
          (s2, (λ entry, (ref_key_ledger_id ref_key, qe_request_cid entry)) <$> queue)
      end
  end.

Definition with_branches (r : RefEntry) (n : Z) : RefEntry :=
  mkRefEntry (re_head r) (re_t r) (re_last_advanced_at_millis r)
    (re_last_advanced_index r) (re_index r) (re_source_branch r) n.

(** The state and the parent's count after the decrement. *)
Definition decrement_child_count s (ledger_id parent_branch : string)
    : NameServiceState * Z :=
  let k := mkRefKey ledger_id parent_branch in
  match refs s !! k with
  | Some parent =>
      let n := u32_saturating_sub (re_branches parent) 1 in
      (set_refs s (<[k := with_branches parent n]> (refs s)), n)
  | None => (s, 0)
  end.

(** ** Ledger and branch lifecycle *)

Definition create_ledger s (log_index : Z) (args : NewLedger)
    : NameServiceState * Response :=
  let ledger_id := nl_ledger_id args in
  let branch := nl_branch args in
  let ledger := default (mkLedger (nl_created_at_millis args) log_index [])
                  (ledgers s !! ledger_id) in
  let s1 := set_ledgers s (<[ledger_id := ledger]> (ledgers s)) in
  if bool_decide (branch ∈ lr_branches ledger) then
    (s1, AlreadyExists (format_ledger_id ledger_id branch))
  else
    let ledger' := mkLedger (lr_created_at_millis ledger) (lr_created_index ledger)
                     (lr_branches ledger ++ [branch]) in
    (set_ledgers s1 (<[ledger_id := ledger']> (ledgers s1)),
     Created (format_ledger_id ledger_id branch)).

Definition retract_ledger s (ledger_id branch : string) (applied_at_millis : Z)
    : NameServiceState * Response :=
  let key := mkRefKey ledger_id branch in
  let full := format_ledger_id ledger_id branch in
  if negb (ledger_known (ledgers s) ledger_id branch) then (s, AlreadyRetracted full)
  else if bool_decide (key ∈ retracted s) then (s, AlreadyRetracted full)
  else
    let s1 := set_retracted s ({[key]} ∪ retracted s) in
    let '(s2, released_envelopes) :=
      clear_queue_for_admin s1 key ClearBranchRetracted applied_at_millis in
    (s2, Retracted full released_envelopes).

(** [ledger.branches.retain(|b| b != &branch)], with the removal of a record
    left without branches, shared by [purge_branch] and [drop_branch]. *)
Definition remove_branch (m : gmap string LedgerRecord) (ledger_id branch : string)
    : gmap string LedgerRecord :=
  match m !! ledger_id with
  | Some ledger =>
      let kept := filter (λ b, b ≠ branch) (lr_branches ledger) in
      match kept with
      | [] => delete ledger_id m
      | _ => <[ledger_id := mkLedger (lr_created_at_millis ledger)
                              (lr_created_index ledger) kept]> m
      end
  | None => m
  end.

Definition purge_branch s (ledger_id branch : string) (applied_at_millis : Z)
    : NameServiceState * Response :=
  let key := mkRefKey ledger_id branch in
  let full := format_ledger_id ledger_id branch in
  let children := match refs s !! key with Some e => re_branches e | None => 0 end in
  if 0 <? children then (s, BranchHasChildren full children)
  else
    let removed_entry := refs s !! key in
    let removed_ref := match removed_entry with Some _ => true | None => false end in
    let removed_source := removed_entry ≫= re_source_branch in
    let removed_retraction := bool_decide (key ∈ retracted s) in
    let removed_branch :=
      match ledgers s !! ledger_id with
      | Some ledger =>
          bool_decide (length (filter (λ b, b ≠ branch) (lr_branches ledger))
                       < length (lr_branches ledger))%nat
      | None => false
      end in
    let s1 := set_refs s (delete key (refs s)) in
    let s2 := set_retracted s1 (retracted s1 ∖ {[key]}) in
    let s3 := set_ledgers s2 (remove_branch (ledgers s2) ledger_id branch) in
    let s4 := match removed_source with
              | Some parent => (decrement_child_count s3 ledger_id parent).1
              | None => s3
              end in
    let '(s5, released_envelopes) :=
      clear_queue_for_admin s4 key ClearBranchPurged applied_at_millis in
    if removed_ref || removed_retraction || removed_branch
    then (s5, Purged full released_envelopes)
    else (s5, AlreadyPurged full).

Definition create_branch s (log_index : Z) (args : NewBranch)
    : NameServiceState * Response :=
  let ledger_id := nb_ledger_id args in
  let branch := nb_branch args in
  let full := format_ledger_id ledger_id branch in
  match ledgers s !! ledger_id with
  | None => (s, LedgerNotFound ledger_id)
  | Some ledger =>
      if bool_decide (branch ∈ lr_branches ledger) then (s, AlreadyExists full)
      else
        let source_key := mkRefKey ledger_id (nb_source_branch args) in
        match refs s !! source_key with
        | None => (s, SourceBranchNotFound (format_ledger_id ledger_id (nb_source_branch args)))
        | Some source =>
            let '(head, t) := default (re_head source, re_t source) (nb_at_commit args) in
            let ledger' := mkLedger (lr_created_at_millis ledger) (lr_created_index ledger)
                             (lr_branches ledger ++ [branch]) in
            let s1 := set_ledgers s (<[ledger_id := ledger']> (ledgers s)) in
            let s2 := set_refs s1
              (<[source_key :=
                   with_branches source (u32_saturating_add (re_branches source) 1)]>
                 (refs s1)) in
            let s3 := set_refs s2
              (<[mkRefKey ledger_id branch :=
                   mkRefEntry head t (nb_applied_at_millis args) log_index None
                     (Some (nb_source_branch args)) 0]> (refs s2)) in
            (s3, BranchCreated full head t)
        end
  end.

Definition drop_branch s (ledger_id branch : string) (applied_at_millis : Z)
    : NameServiceState * Response :=
  let key := mkRefKey ledger_id branch in
  let full := format_ledger_id ledger_id branch in
  if negb (ledger_known (ledgers s) ledger_id branch) then (s, LedgerNotFound full)
  else
    let children := match refs s !! key with Some e => re_branches e | None => 0 end in
    if 0 <? children then (s, BranchHasChildren full children)
    else
      let removed_source := refs s !! key ≫= re_source_branch in
      let s1 := set_refs s (delete key (refs s)) in
      let s2 := set_retracted s1 (retracted s1 ∖ {[key]}) in
      let s3 := set_ledgers s2 (remove_branch (ledgers s2) ledger_id branch) in
      let '(s4, parent_branches) :=
        match removed_source with
        | Some parent =>
            let '(s', n) := decrement_child_count s3 ledger_id parent in (s', Some n)
        | None => (s3, None)
        end in
      let '(s5, released_envelopes) :=
        clear_queue_for_admin s4 key ClearBranchDropped applied_at_millis in
      (s5, BranchDropped full parent_branches released_envelopes).

Definition reset_head s (ledger_id branch : string) (snapshot : ResetHeadSnapshot)
    (applied_at_millis : Z) : NameServiceState * Response :=
  let key := mkRefKey ledger_id branch in
  let full := format_ledger_id ledger_id branch in
  if negb (ledger_known (ledgers s) ledger_id branch) then (s, LedgerNotFound full)
  else if bool_decide (key ∈ retracted s) then (s, LedgerRetracted full)
  else
    match rs_commit_head_id snapshot with
    | None =>
        let s1 := set_refs s (delete key (refs s)) in
        let '(s2, released_envelopes) :=
          clear_queue_for_admin s1 key ClearBranchHeadReset applied_at_millis in
        (s2, HeadReset full released_envelopes)
    | Some head =>
        let '(prior_source, prior_branches) :=
          match refs s !! key with
          | Some r => (re_source_branch r, re_branches r)
          | None => (None, 0)
          end in
        let index := (λ head, mkIndexState head (rs_index_t snapshot))
                       <$> rs_index_head_id snapshot in
        let s1 := set_refs s
          (<[key := mkRefEntry head (rs_commit_t snapshot) 0 0 index
                      prior_source prior_branches]> (refs s)) in
        let '(s2, released_envelopes) :=
          clear_queue_for_admin s1 key ClearBranchHeadReset applied_at_millis in
        (s2, HeadReset full released_envelopes)
    end.

(** ** Index heads *)

Definition with_index (r : RefEntry) (ix : option IndexState) (millis : Z) : RefEntry :=
  mkRefEntry (re_head r) (re_t r) millis (re_last_advanced_index r) ix
    (re_source_branch r) (re_branches r).

Definition set_index_head s (args : NewIndexHead) (is_stale : Z → Z → bool)
    : NameServiceState * Response :=
  let ledger_id := ni_ledger_id args in
  let branch := ni_branch args in
  let t := ni_t args in
  match ledgers s !! ledger_id with
  | None => (s, LedgerNotFound ledger_id)
  | Some _ =>
      let ref_key := mkRefKey ledger_id branch in
      if bool_decide (ref_key ∈ retracted s)
      then (s, LedgerRetracted (format_ledger_id ledger_id branch))
      else
        match refs s !! ref_key with
        | None => (s, LedgerNotFound ledger_id)
        | Some entry =>
            let write :=
              if re_t entry <? t then (s, IndexAhead (re_t entry) t)
              else
                (set_refs s
                   (<[ref_key := with_index entry
                                   (Some (mkIndexState (ni_new_index_head args) t))
                                   (ni_applied_at_millis args)]> (refs s)),
                 IndexAdvanced t (ni_new_index_head args)) in
            match re_index entry with
            | Some existing =>
                if is_stale (ix_t existing) t then (s, IndexStale (ix_t existing)) else write
            | None => write
            end
        end
  end.

Definition advance_index_head s (args : NewIndexHead) : NameServiceState * Response :=
  set_index_head s args (λ existing_t new_t, new_t <=? existing_t).

Definition rewrite_index_head s (args : NewIndexHead) : NameServiceState * Response :=
  set_index_head s args (λ existing_t new_t, new_t <? existing_t).

(** ** Compare-and-set of a ref *)

Definition current_ref_value s (key : RefKey) (kind : RefKind) : option RefValue :=
  if negb (ledger_known (ledgers s) (rk_ledger_name key) (rk_branch key)) then None
  else
    let entry := refs s !! key in
    Some match kind with
         | CommitHead => mkRefValue (re_head <$> entry) (default 0 (re_t <$> entry))
         | IndexHead =>
             let ix := entry ≫= re_index in
             mkRefValue (ix_head <$> ix) (default 0 (ix_t <$> ix))
         end.

Definition apply_compare_and_set_ref s (log_index : Z) (args : RefCas)
    : NameServiceState * Response :=
  let key := mkRefKey (rc_ledger_id args) (rc_branch args) in
  let full_ledger_id := format_ledger_id (rc_ledger_id args) (rc_branch args) in
  let new := rc_new args in
  match current_ref_value s key (rc_kind args) with
  | None => (s, LedgerNotFound full_ledger_id)
  | Some current =>
      if bool_decide (key ∈ retracted s) then (s, LedgerRetracted full_ledger_id)
      else
        let expected_matches :=
          match rc_expected args with
          | None => bool_decide (rv_id current = None)
          | Some rv => bool_decide (current = rv)
          end in
        if negb expected_matches then (s, RefCasConflict (Some current))
        else
          let monotonic := match rc_kind args with
                           | CommitHead => rv_t current <? rv_t new
                           | IndexHead => rv_t current <=? rv_t new
                           end in
          if negb monotonic then (s, RefCasConflict (Some current))
          else
            match rc_kind args with
            | CommitHead =>
                let '(prior_index, prior_source, prior_branches) :=
                  match refs s !! key with
                  | Some r => (re_index r, re_source_branch r, re_branches r)
                  | None => (None, None, 0)
                  end in
                match rv_id new with
                | None => (s, RefCasConflict (Some current))
                | Some head =>
                    (set_refs s
                       (<[key := mkRefEntry head (rv_t new) (rc_applied_at_millis args)
                                   log_index prior_index prior_source prior_branches]>
                          (refs s)),
                     RefCasUpdated)
                end
            | IndexHead =>
                match refs s !! key with
                | None => (s, IndexAhead 0 (rv_t new))
                | Some entry =>
                    if re_t entry <? rv_t new then (s, IndexAhead (re_t entry) (rv_t new))
                    else
                      let ix := (λ head, mkIndexState head (rv_t new)) <$> rv_id new in
                      (set_refs s (<[key := with_index entry ix (rc_applied_at_millis args)]>
                                     (refs s)),
                       RefCasUpdated)
                end
            end
  end.

(** ** Versioned values *)

Definition apply_versioned_push {T} `{!VersionedValue T} (m : gmap string LedgerRecord)
    (values : gmap string T) (ledger_id : string) (expected : option T) (new : T)
    : gmap string T * Response :=
  match split_ledger_id ledger_id with
  | inl _ => (values, vv_conflict (T:=T) None)
  | inr (name, branch) =>
      if negb (ledger_known m name branch) then (values, vv_conflict (T:=T) None)
      else
        let current := default vv_absent (values !! ledger_id) in
        let matches := match expected with Some e => vv_eqb e current | None => false end in
        if negb matches then (values, vv_conflict (Some current))
        else if vv_v new <=? vv_v current then (values, vv_conflict (Some current))
        else (<[ledger_id := new]> values, vv_updated (T:=T))
  end.

(** ** Graph sources *)

Definition apply_publish_graph_source s (name branch : string)
    (source_type : GraphSourceType) (cfg : string) (dependencies : list string)
    : NameServiceState * Response :=
  let graph_source_id := format_ledger_id name branch in
  let record' :=
    match graph_sources s !! graph_source_id with
    | Some r =>
        mkGraphSource (gs_graph_source_id r) (gs_name r) (gs_branch r) source_type cfg
          dependencies (gs_index_id r) (gs_index_t r) false
    | None => GraphSourceRecord_new name branch source_type cfg dependencies
    end in
  (set_graph_sources s (<[graph_source_id := record']> (graph_sources s)),
   GraphSourcePublished).

Definition apply_publish_graph_source_index s (name branch : string)
    (index_id : ContentId) (index_t : Z) : NameServiceState * Response :=
  let graph_source_id := format_ledger_id name branch in
  match graph_sources s !! graph_source_id with
  | None => (s, GraphSourceNotFound graph_source_id)
  | Some r =>
      if index_t <=? gs_index_t r then (s, GraphSourceIndexStale (gs_index_t r))
      else
        let r' := mkGraphSource (gs_graph_source_id r) (gs_name r) (gs_branch r)
                    (gs_source_type r) (gs_config r) (gs_dependencies r)
                    (Some index_id) index_t (gs_retracted r) in
        (set_graph_sources s (<[graph_source_id := r']> (graph_sources s)),
         GraphSourceIndexAdvanced index_t)
  end.

Definition apply_retract_graph_source s (name branch : string)
    : NameServiceState * Response :=
  let graph_source_id := format_ledger_id name branch in
  match graph_sources s !! graph_source_id with
  | Some r =>
      if negb (gs_retracted r) then
        let r' := mkGraphSource (gs_graph_source_id r) (gs_name r) (gs_branch r)
                    (gs_source_type r) (gs_config r) (gs_dependencies r)
                    (gs_index_id r) (gs_index_t r) true in
        (set_graph_sources s (<[graph_source_id := r']> (graph_sources s)),
         GraphSourceRetracted graph_source_id)
      else (s, GraphSourceAlreadyRetracted graph_source_id)
  | None => (s, GraphSourceAlreadyRetracted graph_source_id)
  end.

(** ** The command queue *)

(** The queue of a branch; a missing queue reads as an empty one. *)
Definition queue_of s (k : RefKey) : list QueueEntry := default [] (queues s !! k).

(** [state.queues.values().map(VecDeque::len).sum()]. *)
Definition global_depth s : Z :=
  map_fold (λ _ (q : list QueueEntry) (n : Z), Z.of_nat (length q) + n) 0 (queues s).

(** The scan of the branch's queue for an entry under [key]. *)
Definition in_flight (key : IdempotencyCacheKey) (q : list QueueEntry) : option QueueEntry :=
  snd <$> list_find (λ e, qe_idempotency e = Some key) q.

Definition apply_enqueue_command s (log_index : Z) (args : QueueSubmission)
    : NameServiceState * Response :=
  let ledger_id := qs_ledger_id args in
  let branch := qs_branch args in
  let full_ledger_id := format_ledger_id ledger_id branch in
  let ref_key := mkRefKey ledger_id branch in
  let append :=
    let depth := Z.of_nat (length (queue_of s ref_key)) in
    if per_branch_cap (queue_config s) <=? depth then
      (s, QueueFull full_ledger_id depth (per_branch_cap (queue_config s)) PerBranch)
    else if global_cap (queue_config s) <=? global_depth s then
      (s, QueueFull full_ledger_id (global_depth s) (global_cap (queue_config s)) Global)
    else
      let s1 := set_recently_cleared s (delete ref_key (recently_cleared s)) in
      let queue_id := next_queue_id s1 in
      let s2 := set_next_queue_id s1 (next_queue_id s1 +u64 1) in
      let entry := mkQueueEntry queue_id log_index (qs_applied_at_millis args)
                     (qs_idempotency args) (qs_request_cid args) (qs_body_cid args)
                     (qs_body_kind args) in
      let s3 := set_queues s2 (<[ref_key := queue_of s2 ref_key ++ [entry]]> (queues s2)) in
      (s3, Enqueued full_ledger_id queue_id) in
  if negb (ledger_known (ledgers s) ledger_id branch) then (s, LedgerNotFound full_ledger_id)
  else if bool_decide (ref_key ∈ retracted s) then (s, LedgerRetracted full_ledger_id)
  else
    match qs_idempotency args with
    | None => append
    | Some key =>
        match idempotency s !! key with
        | Some outcome =>
            if negb (bool_decide (outcome_body_cid outcome = qs_body_cid args))
            then (s, BodyHashMismatch)
            else match outcome with
                 | Applied record => (s, IdempotencyHit record)
                 | Failed record => (s, IdempotencyFailed record)
                 end
        | None =>
            match in_flight key (queue_of s ref_key) with
            | Some entry =>
                if bool_decide (qe_body_cid entry = qs_body_cid args)
                then (s, InFlight full_ledger_id (qe_queue_id entry))
                else (s, BodyHashMismatch)
            | None => append
            end
        end
    end.

(** [Result<QueueEntry, Box<Response>>], with the state the call leaves. *)
Definition pop_validated_front s (ref_key : RefKey) (full_ledger_id : string)
    (requested_queue_id : Z) : NameServiceState * (QueueEntry + Response) :=
  match recently_cleared s !! ref_key with
  | Some marker =>
      (set_recently_cleared s (delete ref_key (recently_cleared s)),
       inr (QueueDesync full_ledger_id requested_queue_id (QueueCleared (cm_reason marker))))
  | None =>
      match queues s !! ref_key with
      | Some (entry :: rest) =>
          if negb (qe_queue_id entry =? requested_queue_id) then
            (s, inr (QueueDesync full_ledger_id requested_queue_id
                       (WrongFront (qe_queue_id entry))))
          else (set_queues s (<[ref_key := rest]> (queues s)), inl entry)
      | _ =>
          (s, inr (QueueDesync full_ledger_id requested_queue_id
             (InvariantViolated "queue missing or empty without recently_cleared marker")))
      end
  end.

Definition drop_queue_if_empty s (ref_key : RefKey) : NameServiceState :=
  match queues s !! ref_key with
  | Some [] => set_queues s (delete ref_key (queues s))
  | _ => s
  end.

(** The verdict of the monotonicity guard of [apply_head]. *)
Inductive HeadCheck := HeadAdvances | HeadNoop | HeadStale (current_t : Z).

Definition check_head s (ref_key : RefKey) (commit_id : ContentId) (commit_t : Z) : HeadCheck :=
  match refs s !! ref_key with
  | Some r =>
      if (commit_t =? re_t r) && bool_decide (re_head r = commit_id) then HeadNoop
      else if commit_t <=? re_t r then HeadStale (re_t r)
      else HeadAdvances
  | None => HeadAdvances
  end.

(** The [RefEntry] a head advance leaves. *)
Definition advanced_entry (prior : option RefEntry) (commit_id : ContentId)
    (commit_t applied_at_millis log_index : Z) : RefEntry :=
  match prior with
  | Some r => mkRefEntry commit_id commit_t applied_at_millis log_index (re_index r)
                (re_source_branch r) (re_branches r)
  | None => mkRefEntry commit_id commit_t applied_at_millis log_index None None 0
  end.

(** Self-healing registration of a branch on its ledger's record. *)
Definition heal_branch (m : gmap string LedgerRecord) (ledger_id branch : string)
    : gmap string LedgerRecord :=
  match m !! ledger_id with
  | Some ledger =>
      if bool_decide (branch ∈ lr_branches ledger) then m
      else <[ledger_id := mkLedger (lr_created_at_millis ledger) (lr_created_index ledger)
                            (lr_branches ledger ++ [branch])]> m
  | None => m
  end.

(** The end of a consumed entry: a keyed one leaves [outcome] in the cache, a
    keyless one releases its envelope. *)
Definition retire_entry s (entry : QueueEntry) (outcome : ApplyOutcome)
    : NameServiceState * option ContentId :=
  match qe_idempotency entry with
  | Some key => (set_idempotency s (<[key := outcome]> (idempotency s)), None)
  | None => (s, Some (qe_request_cid entry))
  end.

Definition apply_head s (log_index : Z) (args : StagedHead) : NameServiceState * Response :=
  let ledger_id := sh_ledger_id args in
  let branch := sh_branch args in
  let full_ledger_id := format_ledger_id ledger_id branch in
  let ref_key := mkRefKey ledger_id branch in
  if bool_decide (ref_key ∈ retracted s) then (s, LedgerRetracted full_ledger_id)
  else
    match pop_validated_front s ref_key full_ledger_id (sh_queue_id args) with
    | (s1, inr resp) => (s1, resp)
    | (s1, inl entry) =>
        let check := check_head s1 ref_key (sh_commit_id args) (sh_commit_t args) in
        let finish (advance : bool) :=
          let s2 := drop_queue_if_empty s1 ref_key in
          let s3 :=
            if advance then
              set_refs s2
                (<[ref_key := advanced_entry (refs s2 !! ref_key) (sh_commit_id args)
                                (sh_commit_t args) (sh_applied_at_millis args) log_index]>
                   (refs s2))
            else s2 in
          let s4 := set_ledgers s3 (heal_branch (ledgers s3) ledger_id branch) in
          let '(s5, released_envelope) :=
            retire_entry s4 entry
              (Applied (mkApplyRecord (qe_request_cid entry) (qe_body_cid entry)
                          (qe_body_kind entry) (sh_applied_at_millis args)
                          (sh_commit_id args) (sh_commit_t args) log_index
                          (sh_tally args) (sh_flake_count args))) in
          (s5, HeadApplied full_ledger_id (sh_commit_id args) (sh_commit_t args)
                 released_envelope) in
        match check with
        | HeadStale current_t =>
            (set_queues s1 (<[ref_key := entry :: queue_of s1 ref_key]> (queues s1)),
             QueueDesync full_ledger_id (sh_queue_id args)
               (HeadNotMonotonic current_t (sh_commit_t args)))
        | HeadNoop => finish false
        | HeadAdvances => finish true
        end
    end.

Definition apply_poison_queue_entry s (log_index : Z) (args : EntryPoisoning)
    : NameServiceState * Response :=
  let full_ledger_id := format_ledger_id (ep_ledger_id args) (ep_branch args) in
  let ref_key := mkRefKey (ep_ledger_id args) (ep_branch args) in
  match pop_validated_front s ref_key full_ledger_id (ep_queue_id args) with
  | (s1, inr resp) => (s1, resp)
  | (s1, inl entry) =>
      let s2 := drop_queue_if_empty s1 ref_key in
      let '(s3, released_envelope) :=
        retire_entry s2 entry
          (Failed (mkPoisonRecord (qe_request_cid entry) (qe_body_cid entry)
                     (ep_reason args) log_index (ep_applied_at_millis args))) in
      (s3, Poisoned full_ledger_id (ep_queue_id args) (ep_reason args) released_envelope)
  end.

(** ** Eviction of the idempotency cache *)

Definition EVICT_BATCH_SIZE : nat := 1024.

(** The candidates of a sweep, over the cache's entries in the order the
    [HashMap] yields them. *)
Definition expired_candidates (cutoff_millis : Z)
    (entries : list (IdempotencyCacheKey * ApplyOutcome))
    : list (Z * Z * IdempotencyCacheKey) :=
  omap (λ '(key, outcome),
          let recorded_at := outcome_recorded_at_millis outcome in
          if recorded_at <? cutoff_millis
          then Some (recorded_at, outcome_recorded_index outcome, key) else None) entries.

Definition eviction_batch (cutoff_millis : Z)
    (entries : list (IdempotencyCacheKey * ApplyOutcome))
    : list (Z * Z * IdempotencyCacheKey) :=
  take EVICT_BATCH_SIZE
    (sort_by (by_key (lex_le Z.le Z.le) fst) (expired_candidates cutoff_millis entries)).

(** The removal loop: the cache it leaves and the envelopes it releases. *)
Fixpoint evict_loop (cache : gmap IdempotencyCacheKey ApplyOutcome)
    (expired : list (Z * Z * IdempotencyCacheKey))
    : gmap IdempotencyCacheKey ApplyOutcome * list (string * ContentId) :=
  match expired with
  | [] => (cache, [])
  | (_, key) :: rest =>
      let released :=
        match cache !! key with
        | Some outcome => [(ik_ledger_id key, outcome_request_cid outcome)]
        | None => []
        end in
      let '(cache', out) := evict_loop (delete key cache) rest in
      (cache', released ++ out)
  end.

(** The handler for one iteration order of the cache. *)
Definition evict_in_order s (cutoff_millis marker_cutoff_millis : Z)
    (entries : list (IdempotencyCacheKey * ApplyOutcome)) : NameServiceState * Response :=
  let expired := eviction_batch cutoff_millis entries in
  let '(cache, released_envelopes) := evict_loop (idempotency s) expired in
  let removed := Z.of_nat (length expired) in
  let s1 := set_idempotency s cache in
  let s2 := set_evicted_count s1 (evicted_idempotency_count s1 +u64 removed) in
  let s3 := set_recently_cleared s2
    (filter (λ '(_, marker), marker_cutoff_millis <= cm_applied_at_millis marker)
       (recently_cleared s2)) in
  (s3, EvictionApplied removed released_envelopes).

Definition apply_evict_idempotency s (cutoff_millis marker_cutoff_millis : Z)
    : NameServiceState * Response :=
  evict_in_order s cutoff_millis marker_cutoff_millis (map_to_list (idempotency s)).

(** ** The dispatcher *)

Definition apply s (command : Command) (log_index : Z) : NameServiceState * Response :=
  match command with
  | AdvanceIndexHead args => advance_index_head s args
  | RewriteIndexHead args => rewrite_index_head s args
  | CreateLedger args => create_ledger s log_index args
  | CreateBranch args => create_branch s log_index args
  | DropBranch ledger_id branch millis => drop_branch s ledger_id branch millis
  | ResetHead ledger_id branch snapshot millis => reset_head s ledger_id branch snapshot millis
  | RetractLedger ledger_id branch millis => retract_ledger s ledger_id branch millis
  | PurgeBranch ledger_id branch millis => purge_branch s ledger_id branch millis
  | ReleaseContent _ => (s, NoOp)
  | CompareAndSetRef args => apply_compare_and_set_ref s log_index args
  | PushStatus ledger_id expected new =>
      let '(m, resp) := apply_versioned_push (ledgers s) (status s) ledger_id expected new in
      (set_status s m, resp)
  | PushConfig args =>
      let '(m, resp) := apply_versioned_push (ledgers s) (config s) (cu_ledger_id args)
                          (cu_expected args) (cu_new args) in
      (set_config s m, resp)
  | PublishGraphSource name branch source_type cfg dependencies =>
      apply_publish_graph_source s name branch source_type cfg dependencies
  | PublishGraphSourceIndex name branch index_id index_t =>
      apply_publish_graph_source_index s name branch index_id index_t
  | RetractGraphSource name branch => apply_retract_graph_source s name branch
  | EnqueueCommand args => apply_enqueue_command s log_index args
  | ApplyHead args => apply_head s log_index args
  | PoisonQueueEntry args => apply_poison_queue_entry s log_index args
  | EvictIdempotency cutoff marker_cutoff => apply_evict_idempotency s cutoff marker_cutoff
  | SetWorkerEligibility args => apply_set_worker_eligibility s args
  end.

(** [NameServiceApp::apply_membership] of [raft/app.rs]: the new voter set
    replaces the old one, and a demotion survives for the voters that stay. *)
Definition apply_membership s (new_voters : gset Z) : NameServiceState :=
  let surviving_demotions :=
    filter (λ id, id ∈ new_voters) (configured_voters s ∖ worker_eligible_voters s) in
  set_voters s (new_voters ∖ surviving_demotions) new_voters.

(** * The nameservice as an application of the Raft adapter
    ([fluree-db-consensus/src/raft/app.rs])

    What one applied command asks of the node beside the state change: the
    event for the bus, the parked proposers to wake and the envelope blobs to
    release.  [on_command] records the three in this order. *)

Import LedgerId.

(** [NameServiceEvent]; the reducer raises the first three. *)
Inductive NameServiceEvent :=
  | LedgerCommitPublished (ledger_id : string) (commit_id : ContentId) (commit_t : Z)
  | LedgerIndexPublished (ledger_id : string) (index_id : ContentId) (index_t : Z)
  | EvLedgerRetracted (ledger_id : string)
  | EvGraphSourceConfigPublished (graph_source_id : string) (source_type : GraphSourceType)
                                 (dependencies : list string)
  | EvGraphSourceIndexPublished (graph_source_id : string) (index_id : ContentId) (index_t : Z)
  | EvGraphSourceRetracted (graph_source_id : string).

(** [raft/waiter.rs]: why a parked proposer gives up. *)
Inductive AbortReason :=
  | AbortPoisoned (reason : PoisonReason)
  | AbortBranchDropped | AbortBranchPurged | AbortBranchHeadReset | AbortBranchRetracted
  | AbortSnapshotInstalled.

Inductive WaiterResolution :=
  | WBind (request_cid : ContentId) (queue_id : Z)
  | WApplied (queue_id : Z) (commit_id : ContentId) (commit_t : Z)
  | WAborted (queue_id : Z) (reason : AbortReason)
  | WAbortBranch (ref_key : RefKey) (reason : AbortReason).

Definition waiter_resolution_for (cmd : Command) (response : Response)
    : option WaiterResolution :=
  match cmd, response with
  | EnqueueCommand args, (Enqueued _ queue_id | InFlight _ queue_id) =>
      Some (WBind (qs_request_cid args) queue_id)
  | ApplyHead args, HeadApplied _ commit_id commit_t _ =>
      Some (WApplied (sh_queue_id args) commit_id commit_t)
  | PoisonQueueEntry _, Poisoned _ queue_id reason _ =>
      Some (WAborted queue_id (AbortPoisoned reason))
  | DropBranch ledger_id branch _, BranchDropped _ _ _ =>
      Some (WAbortBranch (mkRefKey ledger_id branch) AbortBranchDropped)
  | PurgeBranch ledger_id branch _, Purged _ _ =>
      Some (WAbortBranch (mkRefKey ledger_id branch) AbortBranchPurged)
  | ResetHead ledger_id branch _ _, HeadReset _ _ =>
      Some (WAbortBranch (mkRefKey ledger_id branch) AbortBranchHeadReset)
  | RetractLedger ledger_id branch _, Retracted _ _ =>
      Some (WAbortBranch (mkRefKey ledger_id branch) AbortBranchRetracted)
  | _, _ => None
  end.

Definition event_for (cmd : Command) (response : Response) : option NameServiceEvent :=
  match cmd, response with
  | ApplyHead args, HeadApplied _ commit_id commit_t _ =>
      Some (LedgerCommitPublished (format_ledger_id (sh_ledger_id args) (sh_branch args))
              commit_id commit_t)
  | AdvanceIndexHead args, IndexAdvanced index_t index_head =>
      Some (LedgerIndexPublished (format_ledger_id (ni_ledger_id args) (ni_branch args))
              index_head index_t)
  | RetractLedger _ _ _, Retracted ledger_id _
  | PurgeBranch _ _ _, Purged ledger_id _
  | DropBranch _ _ _, BranchDropped ledger_id _ _ => Some (EvLedgerRetracted ledger_id)
  | CreateBranch _, BranchCreated ledger_id head t =>
      Some (LedgerCommitPublished ledger_id head t)
  | _, _ => None
  end.

(** The pairs taken out of the response. *)
Definition drain_releases (response : Response) : list (string * ContentId) :=
  match response with
  | EvictionApplied _ released_envelopes
  | Purged _ released_envelopes
  | BranchDropped _ _ released_envelopes
  | HeadReset _ released_envelopes
  | Retracted _ released_envelopes => released_envelopes
  | HeadApplied ledger_id _ _ released_envelope
  | Poisoned ledger_id _ _ released_envelope =>
      match released_envelope with Some cid => [(ledger_id, cid)] | None => [] end
  | _ => []
  end.

(** The response after [std::mem::take] and [Option::take]. *)
Definition drained (response : Response) : Response :=
  match response with
  | EvictionApplied removed _ => EvictionApplied removed []
  | Purged ledger_id _ => Purged ledger_id []
  | BranchDropped ledger_id parent_branches _ => BranchDropped ledger_id parent_branches []
  | HeadReset ledger_id _ => HeadReset ledger_id []
  | Retracted ledger_id _ => Retracted ledger_id []
  | HeadApplied ledger_id commit_id commit_t _ => HeadApplied ledger_id commit_id commit_t None
  | Poisoned ledger_id queue_id reason _ => Poisoned ledger_id queue_id reason None
  | r => r
  end.

Inductive Effect :=
  | EEvent (event : NameServiceEvent)
  | EHeadAdvance (ledger_id : string) (commit_t : Z)
  | EWaiter (resolution : WaiterResolution)
  | ERelease (ledger_id : string) (cid : ContentId)
  | EInvalidateInFlight.

(** The effects recorded for one command, and the response the client gets. *)
Definition on_command (command : Command) (response : Response) : list Effect * Response :=
  (option_list (EEvent <$> event_for command response)
   ++ option_list (EWaiter <$> waiter_resolution_for command response)
   ++ ((λ '(ledger_id, cid), ERelease ledger_id cid) <$> drain_releases response),
   drained response).

Definition on_snapshot_loaded (s : NameServiceState) (load : SnapshotLoad) : list Effect :=
  ((λ '(key, entry), EHeadAdvance (ref_key_ledger_id key) (re_t entry)) <$> map_to_list (refs s))
  ++ match load with LiveInstall => [EInvalidateInFlight] | BootRestore => [] end.
