(* ===== verification/NsStep.v ===== *)
(** * The replicated nameservice: what one command does to the queues

    Twenty commands change the queue side of the state (queues, queue ids,
    admin-clear markers, idempotency cache, tombstones and registrations) in
    six ways.  [queue_step] is that abstract transition relation, labelled by
    a [QueueEvent]; [apply_queue_step] shows every command of the reducer
    implements one of its transitions.  The invariants of the queue are then
    proved once per event instead of once per command. *)

From S2P Require Import Prelude LedgerId NsTypes NsApply.
Import LedgerId.

Implicit Types (s : NameServiceState).

(** A branch is registered on its ledger's record. *)
Definition registered s (k : RefKey) : Prop :=
  ledger_known (ledgers s) (rk_ledger_name k) (rk_branch k) = true.

#[export] Instance registered_dec s k : Decision (registered s k).
Proof. unfold registered. apply _. Defined.

(** The envelopes of a branch's entries, as they are released. *)
Definition envelopes (k : RefKey) (q : list QueueEntry) : list (string * ContentId) :=
  (λ e, (ref_key_ledger_id k, qe_request_cid e)) <$> q.

Inductive QueueEvent :=
  | EvQuiet
  | EvEnqueue (k : RefKey) (e : QueueEntry)
  | EvMarker (k : RefKey)
  | EvRetire (k : RefKey) (e : QueueEntry) (outcome : ApplyOutcome)
  | EvClear (k : RefKey) (reason : ClearReason)
  | EvEvict (evicted : list (Z * Z * IdempotencyCacheKey)) (marker_cutoff : Z).

(** What a clear does to the registrations and the tombstones. *)
Definition clear_catalog (reason : ClearReason) (k : RefKey) s s' : Prop :=
  match reason with
  | ClearBranchRetracted =>
      registered s k ∧ retracted s' = {[k]} ∪ retracted s
      ∧ ∀ k', registered s' k' ↔ registered s k'
  | ClearBranchHeadReset =>
      registered s k ∧ retracted s' = retracted s ∧ (k ∉ retracted s)
      ∧ ∀ k', registered s' k' ↔ registered s k'
  | ClearBranchDropped | ClearBranchPurged =>
      retracted s' = retracted s ∖ {[k]}
      ∧ ∀ k', registered s' k' ↔ registered s k' ∧ k' ≠ k
  end.

(** The marker a clear stamps: only over a queue that held entries. *)
Definition clear_markers s k reason millis : gmap RefKey ClearMarker :=
  match queue_of s k with
  | [] => recently_cleared s
  | _ :: _ => <[k := mkMarker reason millis]> (recently_cleared s)
  end.

Inductive queue_step (i : Z) s s' (rel : list (string * ContentId)) : QueueEvent → Prop :=
  | QQuiet :
      rel = [] →
      queues s' = queues s → next_queue_id s' = next_queue_id s →
      recently_cleared s' = recently_cleared s → idempotency s' = idempotency s →
      retracted s' = retracted s → queue_config s' = queue_config s →
      (∀ k, registered s k → registered s' k) →
      queue_step i s s' rel EvQuiet
  | QEnqueue k e :
      rel = [] →
      registered s k → k ∉ retracted s →
      Z.of_nat (length (queue_of s k)) < per_branch_cap (queue_config s) →
      global_depth s < global_cap (queue_config s) →
      (∀ key, qe_idempotency e = Some key →
         idempotency s !! key = None ∧ Forall (λ e', qe_idempotency e' ≠ Some key) (queue_of s k)) →
      qe_queue_id e = next_queue_id s →
      s' = set_queues
             (set_next_queue_id
                (set_recently_cleared s (delete k (recently_cleared s)))
                (next_queue_id s +u64 1))
             (<[k := queue_of s k ++ [e]]> (queues s)) →
      queue_step i s s' rel (EvEnqueue k e)
  | QMarker k :
      rel = [] → is_Some (recently_cleared s !! k) →
      s' = set_recently_cleared s (delete k (recently_cleared s)) →
      queue_step i s s' rel (EvMarker k)
  | QRetire k e rest outcome :
      queues s !! k = Some (e :: rest) → recently_cleared s !! k = None →
      queues s' = match rest with [] => delete k (queues s) | _ => <[k := rest]> (queues s) end →
      next_queue_id s' = next_queue_id s → recently_cleared s' = recently_cleared s →
      retracted s' = retracted s → queue_config s' = queue_config s →
      (∀ k, registered s k → registered s' k) →
      outcome_request_cid outcome = qe_request_cid e →
      outcome_body_cid outcome = qe_body_cid e →
      outcome_recorded_index outcome = i →
      match qe_idempotency e with
      | Some key => idempotency s' = <[key := outcome]> (idempotency s) ∧ rel = []
      | None => idempotency s' = idempotency s ∧ rel = envelopes k [e]
      end →
      queue_step i s s' rel (EvRetire k e outcome)
  | QClear k reason millis :
      queues s' = delete k (queues s) → next_queue_id s' = next_queue_id s →
      recently_cleared s' = clear_markers s k reason millis →
      idempotency s' = idempotency s → queue_config s' = queue_config s →
      clear_catalog reason k s s' →
      rel = envelopes k (queue_of s k) →
      queue_step i s s' rel (EvClear k reason)
  | QEvict cutoff marker_cutoff :
      let evicted := eviction_batch cutoff (map_to_list (idempotency s)) in
      queues s' = queues s → next_queue_id s' = next_queue_id s →
      recently_cleared s' =
        filter (λ '(_, m), marker_cutoff <= cm_applied_at_millis m) (recently_cleared s) →
      (idempotency s', rel) = evict_loop (idempotency s) evicted →
      retracted s' = retracted s → queue_config s' = queue_config s →
      (∀ k, registered s k → registered s' k) →
      queue_step i s s' rel (EvEvict evicted marker_cutoff).

(** The entry a submission becomes. *)
Definition entry_of s (i : Z) (a : QueueSubmission) : QueueEntry :=
  mkQueueEntry (next_queue_id s) i (qs_applied_at_millis a) (qs_idempotency a)
    (qs_request_cid a) (qs_body_cid a) (qs_body_kind a).

(** The outcomes an [ApplyHead] and a [PoisonQueueEntry] record for an entry. *)
Definition applied_outcome (i : Z) (e : QueueEntry) (a : StagedHead) : ApplyOutcome :=
  Applied (mkApplyRecord (qe_request_cid e) (qe_body_cid e) (qe_body_kind e)
             (sh_applied_at_millis a) (sh_commit_id a) (sh_commit_t a) i
             (sh_tally a) (sh_flake_count a)).
Definition failed_outcome (i : Z) (e : QueueEntry) (a : EntryPoisoning) : ApplyOutcome :=
  Failed (mkPoisonRecord (qe_request_cid e) (qe_body_cid e) (ep_reason a) i
            (ep_applied_at_millis a)).

(** The admin command behind a clear. *)
Definition clears (c : Command) (k : RefKey) (reason : ClearReason) : Prop :=
  match c, reason with
  | DropBranch n b _, ClearBranchDropped
  | PurgeBranch n b _, ClearBranchPurged
  | ResetHead n b _ _, ClearBranchHeadReset
  | RetractLedger n b _, ClearBranchRetracted => k = mkRefKey n b
  | _, _ => False
  end.

(** The abort a cleared proposer is woken with. *)
Definition abort_reason (reason : ClearReason) : AbortReason :=
  match reason with
  | ClearBranchDropped => AbortBranchDropped
  | ClearBranchPurged => AbortBranchPurged
  | ClearBranchHeadReset => AbortBranchHeadReset
  | ClearBranchRetracted => AbortBranchRetracted
  end.

(** A response that neither accepts, retires nor releases anything. *)
Definition quiet_response (r : Response) : bool :=
  match r with
  | Enqueued _ _ | HeadApplied _ _ _ _ | Poisoned _ _ _ _ | EvictionApplied _ _
  | Purged _ _ | BranchDropped _ _ _ | HeadReset _ _ | Retracted _ _ => false
  | _ => true
  end.

(** The command and the response an event comes from. *)
Definition event_label (i : Z) s (c : Command) (r : Response) (ev : QueueEvent) : Prop :=
  match ev with
  | EvQuiet => quiet_response r = true
  | EvEnqueue k e =>
      ∃ a, c = EnqueueCommand a ∧ k = mkRefKey (qs_ledger_id a) (qs_branch a)
        ∧ e = entry_of s i a ∧ r = Enqueued (ref_key_ledger_id k) (qe_queue_id e)
  | EvMarker k =>
      ∃ l q reason, r = QueueDesync l q (QueueCleared reason)
  | EvRetire k e o =>
      (∃ a rel, c = ApplyHead a ∧ k = mkRefKey (sh_ledger_id a) (sh_branch a)
         ∧ sh_queue_id a = qe_queue_id e ∧ o = applied_outcome i e a
         ∧ r = HeadApplied (ref_key_ledger_id k) (sh_commit_id a) (sh_commit_t a) rel)
      ∨ (∃ a rel, c = PoisonQueueEntry a ∧ k = mkRefKey (ep_ledger_id a) (ep_branch a)
         ∧ ep_queue_id a = qe_queue_id e ∧ o = failed_outcome i e a
         ∧ r = Poisoned (ref_key_ledger_id k) (ep_queue_id a) (ep_reason a) rel)
  | EvClear k reason =>
      clears c k reason
      ∧ (waiter_resolution_for c r = Some (WAbortBranch k (abort_reason reason))
         ∨ queue_of s k = [])
  | EvEvict ex mc =>
      ∃ cutoff, c = EvictIdempotency cutoff mc
        ∧ ex = eviction_batch cutoff (map_to_list (idempotency s))
  end.

Lemma quiet_response_releases r : quiet_response r = true → drain_releases r = [].
Proof. by destruct r. Qed.

(** A command's transition with the event it is labelled by. *)
Definition implements (i : Z) s (c : Command) (x : NameServiceState * Response) : Prop :=
  ∃ ev, queue_step i s x.1 (drain_releases x.2) ev ∧ event_label i s c x.2 ev.

(** ** The registrations *)

Lemma ledger_known_Some m n b :
  ledger_known m n b = true ↔ ∃ l, m !! n = Some l ∧ b ∈ lr_branches l.
Proof.
  unfold ledger_known. destruct (m !! n) as [l|]; [|naive_solver].
  rewrite bool_decide_eq_true. naive_solver.
Qed.

Lemma ledger_known_push m n l c j b n' b' :
  m !! n = Some l ∨ lr_branches l = [] →
  ledger_known (<[n := mkLedger c j (lr_branches l ++ [b])]> m) n' b' = true ↔
  (n' = n ∧ b' = b) ∨ (n' = n ∧ b' ∈ lr_branches l) ∨ (n' ≠ n ∧ ledger_known m n' b' = true).
Proof.
  intros Hl. unfold ledger_known. destruct (decide (n' = n)) as [->|Hn].
  - rewrite lookup_insert_eq. rewrite bool_decide_eq_true. simpl. set_solver.
  - rewrite lookup_insert_ne by done. naive_solver.
Qed.

Lemma ledger_known_remove m n b n' b' :
  ledger_known (remove_branch m n b) n' b' = true ↔
  ledger_known m n' b' = true ∧ (n', b') ≠ (n, b).
Proof.
  unfold remove_branch. destruct (m !! n) as [l|] eqn:Hl.
  2:{ rewrite ledger_known_Some. naive_solver. }
  set (kept := filter (λ x, x ≠ b) (lr_branches l)).
  assert (Hk : ∀ x, x ∈ kept ↔ x ∈ lr_branches l ∧ x ≠ b).
  { intros x. unfold kept. rewrite list_elem_of_filter. naive_solver. }
  destruct (decide (n' = n)) as [->|Hn].
  - transitivity (b' ∈ kept); [|rewrite Hk, ledger_known_Some; naive_solver].
    rewrite ledger_known_Some. destruct kept eqn:Hkept.
    + rewrite lookup_delete_eq. split; [naive_solver|by intros ?%not_elem_of_nil].
    + rewrite lookup_insert_eq. naive_solver.
  - rewrite !ledger_known_Some.
    destruct kept; rewrite ?lookup_delete_ne, ?lookup_insert_ne by done; naive_solver.
Qed.

Lemma ledger_known_heal m n b n' b' :
  ledger_known m n' b' = true → ledger_known (heal_branch m n b) n' b' = true.
Proof.
  intros H. unfold heal_branch. destruct (m !! n) as [l|] eqn:Hl; [|done].
  case_bool_decide; [done|]. apply ledger_known_push; [by left|].
  destruct (decide (n' = n)) as [->|]; [|by auto].
  apply ledger_known_Some in H. naive_solver.
Qed.

Lemma heal_branch_known m n b : ledger_known m n b = true → heal_branch m n b = m.
Proof.
  intros (l & Hl & Hb)%ledger_known_Some. unfold heal_branch.
  rewrite Hl, bool_decide_true by done. done.
Qed.

(** ** Each handler is a transition *)

Lemma queue_of_Some s k q : queues s !! k = Some q → queue_of s k = q.
Proof. unfold queue_of. by intros ->. Qed.

Lemma quiet_refl i s : queue_step i s s [] EvQuiet.
Proof. by constructor. Qed.

(** A state that differs only in fields the queue does not read. *)
Lemma quiet_frame i s s' :
  queues s' = queues s → next_queue_id s' = next_queue_id s →
  recently_cleared s' = recently_cleared s → idempotency s' = idempotency s →
  retracted s' = retracted s → queue_config s' = queue_config s → ledgers s' = ledgers s →
  queue_step i s s' [] EvQuiet.
Proof. intros. constructor; auto. intros k. unfold registered. congruence. Qed.

Ltac quiet := first [apply quiet_refl | by apply quiet_frame].

Lemma implements_quiet i s c x :
  queue_step i s x.1 [] EvQuiet ∧ quiet_response x.2 = true → implements i s c x.
Proof.
  intros [H Hq]. exists EvQuiet. by rewrite (quiet_response_releases _ Hq).
Qed.

Lemma implements_same i s c r : quiet_response r = true → implements i s c (s, r).
Proof. intros. apply implements_quiet. split; [quiet|done]. Qed.

Lemma set_index_head_quiet i s a f :
  queue_step i s (set_index_head s a f).1 [] EvQuiet
  ∧ quiet_response (set_index_head s a f).2 = true.
Proof. unfold set_index_head. case_all; split; done || quiet. Qed.

Lemma compare_and_set_quiet i s a :
  queue_step i s (apply_compare_and_set_ref s i a).1 [] EvQuiet
  ∧ quiet_response (apply_compare_and_set_ref s i a).2 = true.
Proof. unfold apply_compare_and_set_ref. case_all; split; done || quiet. Qed.

Lemma graph_sources_quiet i s s' r :
  (∃ n b t c d, (s', r) = apply_publish_graph_source s n b t c d)
  ∨ (∃ n b x t, (s', r) = apply_publish_graph_source_index s n b x t)
  ∨ (∃ n b, (s', r) = apply_retract_graph_source s n b) →
  queue_step i s s' [] EvQuiet ∧ quiet_response r = true.
Proof.
  unfold apply_publish_graph_source, apply_publish_graph_source_index,
    apply_retract_graph_source.
  intros [(?&?&?&?&?&H)|[(?&?&?&?&H)|(?&?&H)]]; case_all_in H; split; done || quiet.
Qed.

Lemma create_ledger_quiet i s a :
  queue_step i s (create_ledger s i a).1 [] EvQuiet
  ∧ quiet_response (create_ledger s i a).2 = true.
Proof.
  unfold create_ledger. set (l := default _ _). case_bool_decide as Hb; split; try done.
  - constructor; try done. intros k. unfold registered; simpl.
    unfold ledger_known. destruct (decide (rk_ledger_name k = nl_ledger_id a)) as [->|Hn].
    + rewrite lookup_insert_eq. unfold l. by destruct (_ !! _).
    + by rewrite lookup_insert_ne.
  - constructor; try done. intros k. unfold registered; simpl. intros Hk.
    rewrite insert_insert_eq. apply ledger_known_push.
    + unfold l. destruct (_ !! _); [by left|by right].
    + destruct (decide (rk_ledger_name k = nl_ledger_id a)) as [E|]; [|by auto].
      rewrite E in *. apply ledger_known_Some in Hk as (l' & Hl & ?). right; left.
      unfold l. rewrite Hl. done.
Qed.

Lemma create_branch_quiet i s a :
  queue_step i s (create_branch s i a).1 [] EvQuiet
  ∧ quiet_response (create_branch s i a).2 = true.
Proof.
  unfold create_branch. destruct (ledgers s !! _) as [l|] eqn:Hl; [|split; done || quiet].
  case_bool_decide; [split; done || quiet|].
  destruct (refs s !! _); [|split; done || quiet].
  destruct (default _ _). split; [|done]. constructor; try done.
  intros k. unfold registered; simpl. intros Hk.
  apply ledger_known_push; [by left|].
  destruct (decide (rk_ledger_name k = nb_ledger_id a)) as [E|]; [|by auto].
  rewrite E in *. apply ledger_known_Some in Hk. naive_solver.
Qed.

Lemma set_worker_eligibility_quiet i s a :
  queue_step i s (apply_set_worker_eligibility s a).1 [] EvQuiet
  ∧ quiet_response (apply_set_worker_eligibility s a).2 = true.
Proof. unfold apply_set_worker_eligibility. case_all; split; done || quiet. Qed.

(** What [clear_queue_for_admin] leaves, given the fields it starts from. *)
Lemma clear_queue_for_admin_spec s k reason millis :
  let '(s', rel) := clear_queue_for_admin s k reason millis in
  rel = envelopes k (queue_of s k)
  ∧ queues s' = delete k (queues s)
  ∧ recently_cleared s' = clear_markers s k reason millis
  ∧ next_queue_id s' = next_queue_id s ∧ idempotency s' = idempotency s
  ∧ queue_config s' = queue_config s ∧ retracted s' = retracted s
  ∧ ledgers s' = ledgers s ∧ refs s' = refs s.
Proof.
  unfold clear_queue_for_admin, clear_markers, queue_of.
  destruct (queues s !! k) as [[|e q]|] eqn:Hq; simpl; try by auto 20.
  by rewrite delete_id.
Qed.

(** The state a clear is applied to, after a handler's other writes. *)
Lemma clear_step i s s1 k reason millis :
  queues s1 = queues s → next_queue_id s1 = next_queue_id s →
  recently_cleared s1 = recently_cleared s → idempotency s1 = idempotency s →
  queue_config s1 = queue_config s → clear_catalog reason k s s1 →
  let '(s', rel) := clear_queue_for_admin s1 k reason millis in
  queue_step i s s' rel (EvClear k reason).
Proof.
  intros Hq Hn Hm Hi Hc Hcat.
  pose proof (clear_queue_for_admin_spec s1 k reason millis) as H.
  destruct (clear_queue_for_admin _ _ _ _) as [s' rel].
  destruct H as (-> & ? & Hm' & ? & ? & ? & Hr & Hl & _).
  assert (queue_of s1 k = queue_of s k) as Hqk by (unfold queue_of; by rewrite Hq).
  apply (QClear _ _ _ _ _ _ millis); try congruence.
  - rewrite Hm'. unfold clear_markers. by rewrite Hqk, Hm.
  - unfold clear_catalog, registered in *. by rewrite Hr, Hl.
Qed.

Lemma retract_ledger_step i s n b millis :
  implements i s (RetractLedger n b millis) (retract_ledger s n b millis).
Proof.
  unfold retract_ledger. destruct (ledger_known _ _ _) eqn:Hk; simpl; [|by apply implements_same].
  case_bool_decide; simpl; [by apply implements_same|].
  pose proof (clear_step i s (set_retracted s ({[mkRefKey n b]} ∪ retracted s)) (mkRefKey n b)
                ClearBranchRetracted millis) as H'.
  destruct (clear_queue_for_admin _ _ _ _). eexists. split; [by apply H'|by split; [|left]].
Qed.

Lemma decrement_child_count_frame s n b :
  let s' := (decrement_child_count s n b).1 in
  queues s' = queues s ∧ next_queue_id s' = next_queue_id s
  ∧ recently_cleared s' = recently_cleared s ∧ idempotency s' = idempotency s
  ∧ queue_config s' = queue_config s ∧ retracted s' = retracted s ∧ ledgers s' = ledgers s.
Proof. unfold decrement_child_count. by case_all. Qed.

Lemma remove_branch_length m n b l :
  m !! n = Some l →
  bool_decide (length (filter (λ x, x ≠ b) (lr_branches l)) < length (lr_branches l))%nat = true
  ↔ ledger_known m n b = true.
Proof.
  intros Hl. rewrite bool_decide_eq_true, ledger_known_Some. split.
  - intros Hlt. exists l. split; [done|]. destruct (decide (b ∈ lr_branches l)); [done|].
    rewrite list_filter_id in Hlt; [lia|]. apply Forall_forall. set_solver.
  - intros (l' & ? & Hb). simplify_eq.
    apply (NoDup_filter_length_lt (λ x, x ≠ b) _ b); naive_solver.
Qed.

(** The common prefix of [purge_branch] and [drop_branch]: everything but the
    decrement of the parent and the clear. *)
Definition unregister s n b : NameServiceState :=
  let key := mkRefKey n b in
  let s1 := set_refs s (delete key (refs s)) in
  let s2 := set_retracted s1 (retracted s1 ∖ {[key]}) in
  set_ledgers s2 (remove_branch (ledgers s2) n b).

Lemma unregister_catalog s s' n b reason :
  reason = ClearBranchDropped ∨ reason = ClearBranchPurged →
  retracted s' = retracted (unregister s n b) → ledgers s' = ledgers (unregister s n b) →
  clear_catalog reason (mkRefKey n b) s s'.
Proof.
  intros Hreason Hr Hl.
  assert (retracted s' = retracted s ∖ {[mkRefKey n b]}
    ∧ ∀ k', registered s' k' ↔ registered s k' ∧ k' ≠ mkRefKey n b) as HC.
  { split; [done|]. intros [n' b']. unfold registered. rewrite Hl; simpl.
    rewrite ledger_known_remove. naive_solver. }
  by destruct Hreason; subst.
Qed.

(** [unregister] followed by the decrement of the parent, if there is one. *)
Definition unregister_dec s n b (source : option string) : NameServiceState :=
  match source with
  | Some parent => (decrement_child_count (unregister s n b) n parent).1
  | None => unregister s n b
  end.

Lemma unregister_clear_step i s n b source reason millis :
  reason = ClearBranchDropped ∨ reason = ClearBranchPurged →
  let '(s', rel) :=
    clear_queue_for_admin (unregister_dec s n b source) (mkRefKey n b) reason millis in
  queue_step i s s' rel (EvClear (mkRefKey n b) reason).
Proof.
  intros Hr. set (s1 := unregister_dec s n b source).
  assert (queues s1 = queues s ∧ next_queue_id s1 = next_queue_id s
    ∧ recently_cleared s1 = recently_cleared s ∧ idempotency s1 = idempotency s
    ∧ queue_config s1 = queue_config s ∧ retracted s1 = retracted (unregister s n b)
    ∧ ledgers s1 = ledgers (unregister s n b)) as (?&?&?&?&?&?&?).
  { unfold s1, unregister_dec. destruct source as [p|]; [|done].
    pose proof (decrement_child_count_frame (unregister s n b) n p) as (?&?&?&?&?&?&?).
    repeat split; (etrans; [eassumption|done]). }
  apply clear_step; auto. by apply unregister_catalog.
Qed.

Lemma purge_branch_step i s n b millis :
  (∀ k, is_Some (queues s !! k) → registered s k) →
  implements i s (PurgeBranch n b millis) (purge_branch s n b millis).
Proof.
  intros Hqr. unfold purge_branch.
  destruct (0 <? _); simpl; [by apply implements_same|].
  set (source := refs s !! mkRefKey n b ≫= re_source_branch).
  set (s1 := match source with Some _ => _ | None => _ end).
  pose proof (unregister_clear_step i s n b source ClearBranchPurged millis
                (or_intror eq_refl)) as H.
  change (unregister_dec s n b source) with s1 in H.
  destruct (clear_queue_for_admin s1 _ _ _) as [s' rel].
  exists (EvClear (mkRefKey n b) ClearBranchPurged).
  destruct (_ || _) eqn:Hrm; simpl; [by split; [|split; [|left]]|]. reflect_bools.
  assert (queue_of s (mkRefKey n b) = []) as Hempty.
  { unfold queue_of. destruct (queues s !! mkRefKey n b) eqn:Hq; [|done]. exfalso.
    assert (registered s (mkRefKey n b)) as Hreg by (by apply Hqr; eexists).
    unfold registered in Hreg; simpl in Hreg.
    pose proof Hreg as (l' & Hl' & _)%ledger_known_Some. rewrite Hl' in *.
    apply (remove_branch_length _ _ _ _ Hl') in Hreg. congruence. }
  inversion H; subst. rewrite Hempty in H. by split; [|split; [|right]].
Qed.

Lemma drop_branch_step i s n b millis :
  implements i s (DropBranch n b millis) (drop_branch s n b millis).
Proof.
  unfold drop_branch. destruct (ledger_known _ _ _) eqn:Hk; simpl; [|by apply implements_same].
  destruct (0 <? _); simpl; [by apply implements_same|].
  set (source := refs s !! mkRefKey n b ≫= re_source_branch).
  pose proof (unregister_clear_step i s n b source ClearBranchDropped millis
                (or_introl eq_refl)) as H.
  unfold unregister_dec, unregister in H. simpl in H.
  destruct source as [p|].
  - destruct (decrement_child_count _ _ _) as [s4 c]. simpl in H.
    destruct (clear_queue_for_admin _ _ _ _). eexists. split; [exact H|by split; [|left]].
  - destruct (clear_queue_for_admin _ _ _ _). eexists. split; [exact H|by split; [|left]].
Qed.

Lemma reset_head_step i s n b snap millis :
  implements i s (ResetHead n b snap millis) (reset_head s n b snap millis).
Proof.
  unfold reset_head. destruct (ledger_known _ _ _) eqn:Hk; simpl; [|by apply implements_same].
  case_bool_decide; simpl; [by apply implements_same|].
  assert (∀ rs, let '(s', rel) := clear_queue_for_admin (set_refs s rs) (mkRefKey n b)
                  ClearBranchHeadReset millis in
    queue_step i s s' rel (EvClear (mkRefKey n b) ClearBranchHeadReset)) as H'.
  { intros rs. by apply clear_step. }
  destruct (rs_commit_head_id snap).
  - destruct (match refs s !! _ with Some _ => _ | None => _ end).
    match goal with |- context [set_refs s ?rs] => specialize (H' rs) end.
    destruct (clear_queue_for_admin _ _ _ _). eexists. split; [exact H'|by split; [|left]].
  - match goal with |- context [set_refs s ?rs] => specialize (H' rs) end.
    destruct (clear_queue_for_admin _ _ _ _). eexists. split; [exact H'|by split; [|left]].
Qed.

Lemma in_flight_None key q :
  in_flight key q = None → Forall (λ e, qe_idempotency e ≠ Some key) q.
Proof.
  unfold in_flight. rewrite fmap_None. intros H. by apply list_find_None in H.
Qed.

Lemma in_flight_Some key q e :
  in_flight key q = Some e → e ∈ q ∧ qe_idempotency e = Some key.
Proof.
  unfold in_flight. intros ([j e'] & H & ->)%fmap_Some.
  apply list_find_Some in H as (H & ? & _). eauto using list_elem_of_lookup_2.
Qed.

(** An enqueue either refuses and leaves the state alone, or appends the
    submission's entry to its branch's queue. *)
Lemma enqueue_cases i s a :
  let k := mkRefKey (qs_ledger_id a) (qs_branch a) in
  let '(s', r) := apply_enqueue_command s i a in
  (s' = s ∧ quiet_response r = true)
  ∨ (r = Enqueued (ref_key_ledger_id k) (next_queue_id s)
     ∧ queue_step i s s' [] (EvEnqueue k (entry_of s i a))).
Proof.
  unfold apply_enqueue_command.
  destruct (ledger_known _ _ _) eqn:Hk; simpl; [|by auto].
  case_bool_decide as Hr; [by auto|].
  set (k := mkRefKey (qs_ledger_id a) (qs_branch a)) in *.
  match goal with |- context [match qs_idempotency a with Some _ => _ | None => ?ap end] =>
    set (append := ap) end.
  assert ((∀ key, qs_idempotency a = Some key →
       idempotency s !! key = None ∧ Forall (λ e', qe_idempotency e' ≠ Some key) (queue_of s k)) →
    let '(s', r) := append in
    (s' = s ∧ quiet_response r = true)
    ∨ (r = Enqueued (ref_key_ledger_id k) (next_queue_id s)
       ∧ queue_step i s s' [] (EvEnqueue k (entry_of s i a)))) as Happend.
  { intros Hfresh. unfold append. destruct (_ <=? _) eqn:H1; [by auto|].
    destruct (global_cap _ <=? _) eqn:H2; [by auto|]. reflect_bools.
    right. split; [done|]. by apply QEnqueue. }
  destruct (qs_idempotency a) as [key|] eqn:Hi; [|by apply Happend].
  destruct (idempotency s !! key) as [o|] eqn:Ho; [destruct (negb _), o; by auto|].
  destruct (in_flight _ _) as [e|] eqn:Hf; [destruct (bool_decide _); by auto|].
  apply Happend. intros key' [= <-]. eauto using in_flight_None.
Qed.

(** The outcomes of a pop: a marker consumed, a refusal that leaves the state
    alone, or the front entry. *)
Lemma pop_validated_front_cases s k full q :
  match pop_validated_front s k full q with
  | (s', inr r) =>
      (s' = s ∧ quiet_response r = true)
      ∨ (is_Some (recently_cleared s !! k)
         ∧ s' = set_recently_cleared s (delete k (recently_cleared s))
         ∧ ∃ reason, r = QueueDesync full q (QueueCleared reason))
  | (s', inl e) =>
      ∃ rest, queues s !! k = Some (e :: rest) ∧ recently_cleared s !! k = None
        ∧ qe_queue_id e = q ∧ s' = set_queues s (<[k := rest]> (queues s))
  end.
Proof.
  unfold pop_validated_front. destruct (recently_cleared s !! k) eqn:Hm; [by eauto 10|].
  destruct (queues s !! k) as [[|e rest]|] eqn:Hq; try by eauto 10.
  destruct (qe_queue_id e =? q) eqn:He; simpl; reflect_bools; eauto 10.
Qed.

(** After the pop: the queue the branch keeps. *)
Lemma drop_queue_if_empty_popped s k e rest :
  queues s !! k = Some (e :: rest) →
  let s1 := drop_queue_if_empty (set_queues s (<[k := rest]> (queues s))) k in
  s1 = set_queues s (match rest with [] => delete k (queues s) | _ => <[k := rest]> (queues s) end).
Proof.
  intros Hq. unfold drop_queue_if_empty; simpl. rewrite lookup_insert_eq.
  destruct rest; [|done]. by rewrite delete_insert_eq.
Qed.

(** A retired entry, seen from the state before the pop. *)
Lemma retire_step i s s1 k e rest outcome :
  queues s !! k = Some (e :: rest) → recently_cleared s !! k = None →
  queues s1 = match rest with [] => delete k (queues s) | _ => <[k := rest]> (queues s) end →
  next_queue_id s1 = next_queue_id s → recently_cleared s1 = recently_cleared s →
  retracted s1 = retracted s → queue_config s1 = queue_config s →
  (∀ k, registered s k → registered s1 k) → idempotency s1 = idempotency s →
  outcome_request_cid outcome = qe_request_cid e → outcome_body_cid outcome = qe_body_cid e →
  outcome_recorded_index outcome = i →
  let '(s', rel) := retire_entry s1 e outcome in
  queue_step i s s' (match rel with Some cid => [(ref_key_ledger_id k, cid)] | None => [] end)
    (EvRetire k e outcome).
Proof.
  intros. unfold retire_entry. destruct (qe_idempotency e) as [key|] eqn:Hk;
    eapply QRetire; eauto; rewrite Hk; simpl; split; congruence.
Qed.

(** A pop that fails, as a transition of the command that asked for it. *)
Lemma pop_failed_step i s c k full q s' r :
  pop_validated_front s k full q = (s', inr r) → implements i s c (s', r).
Proof.
  intros E. pose proof (pop_validated_front_cases s k full q) as Hp. rewrite E in Hp.
  destruct Hp as [[-> ?]|(Hm & -> & reason & ->)]; [by apply implements_same|].
  exists (EvMarker k). split; [by apply QMarker|by repeat eexists].
Qed.

(** An entry consumed by [ApplyHead], from the state [s3] its writes leave. *)
Lemma finish_head_step i s a e rest s3 k :
  k = mkRefKey (sh_ledger_id a) (sh_branch a) →
  queues s !! k = Some (e :: rest) → recently_cleared s !! k = None →
  qe_queue_id e = sh_queue_id a →
  ledgers s3 = ledgers s → idempotency s3 = idempotency s →
  queues s3 = match rest with [] => delete k (queues s) | _ => <[k := rest]> (queues s) end →
  next_queue_id s3 = next_queue_id s → recently_cleared s3 = recently_cleared s →
  retracted s3 = retracted s → queue_config s3 = queue_config s →
  implements i s (ApplyHead a)
    (let '(s5, rel) := retire_entry
       (set_ledgers s3 (heal_branch (ledgers s3) (sh_ledger_id a) (sh_branch a))) e
       (applied_outcome i e a) in
     (s5, HeadApplied (format_ledger_id (sh_ledger_id a) (sh_branch a)) (sh_commit_id a)
            (sh_commit_t a) rel)).
Proof.
  intros -> Hq Hm Hid Hl. intros.
  pose proof (retire_step i s
    (set_ledgers s3 (heal_branch (ledgers s3) (sh_ledger_id a) (sh_branch a)))
    _ e rest (applied_outcome i e a) Hq Hm) as Hfin.
  destruct (retire_entry _ _ _) as [s5 rel]. eexists. split.
  - apply Hfin; simpl; auto. intros k'. unfold registered; simpl.
    intros. apply ledger_known_heal. congruence.
  - left. exists a, rel. auto.
Qed.

Lemma apply_head_step i s a : implements i s (ApplyHead a) (apply_head s i a).
Proof.
  unfold apply_head. set (k := mkRefKey _ _). set (full := format_ledger_id _ _).
  case_bool_decide; [by apply implements_same|].
  pose proof (pop_validated_front_cases s k full (sh_queue_id a)) as Hp.
  destruct (pop_validated_front _ _ _ _) as [s1 [e|r]] eqn:E; [|by eapply pop_failed_step].
  destruct Hp as (rest & Hq & Hm & Hid & ->).
  rewrite (drop_queue_if_empty_popped s k e rest Hq); cbv zeta.
  destruct (check_head _ _ _ _).
  - by apply (finish_head_step i s a e rest (set_refs _ _) k).
  - by apply (finish_head_step i s a e rest (set_queues _ _) k).
  - apply implements_quiet. split; [|done]. apply quiet_frame; try done.
    simpl. unfold queue_of; simpl.
    rewrite lookup_insert_eq, insert_insert_eq; simpl. by apply insert_id.
Qed.

Lemma apply_poison_step i s a :
  implements i s (PoisonQueueEntry a) (apply_poison_queue_entry s i a).
Proof.
  unfold apply_poison_queue_entry. set (k := mkRefKey _ _). set (full := format_ledger_id _ _).
  pose proof (pop_validated_front_cases s k full (ep_queue_id a)) as Hp.
  destruct (pop_validated_front _ _ _ _) as [s1 [e|r]] eqn:E; [|by eapply pop_failed_step].
  destruct Hp as (rest & Hq & Hm & Hid & ->).
  rewrite (drop_queue_if_empty_popped s k e rest Hq).
  match goal with |- context [retire_entry ?s3 e ?o] =>
    pose proof (retire_step i s s3 k e rest o Hq Hm) as Hfin end.
  destruct (retire_entry _ _ _). eexists. split; [by apply Hfin|].
  right. by repeat eexists.
Qed.

Lemma evict_step i s c mc :
  implements i s (EvictIdempotency c mc) (apply_evict_idempotency s c mc).
Proof.
  unfold apply_evict_idempotency, evict_in_order.
  destruct (evict_loop _ _) as [cache rel] eqn:He.
  exists (EvEvict (eviction_batch c (map_to_list (idempotency s))) mc).
  split; [by apply (QEvict _ _ _ _ c mc)|by eexists].
Qed.

Lemma enqueue_step i s a :
  implements i s (EnqueueCommand a) (apply_enqueue_command s i a).
Proof.
  pose proof (enqueue_cases i s a) as H. destruct (apply_enqueue_command _ _ _).
  destruct H as [[-> H]|[-> H]]; [by apply implements_same|].
  eexists. split; [exact H|]. by repeat eexists.
Qed.

Lemma versioned_push_quiet `{!VersionedValue T} m (vs : gmap string T) l e n :
  (∀ a, quiet_response (vv_conflict (T:=T) a) = true) → quiet_response (vv_updated (T:=T)) = true →
  quiet_response (apply_versioned_push m vs l e n).2 = true.
Proof. intros. unfold apply_versioned_push. case_all; done. Qed.

(** Every command implements a transition of the abstract queue. *)
Lemma apply_queue_step i s c :
  (∀ k, is_Some (queues s !! k) → registered s k) → implements i s c (apply s c i).
Proof.
  intros Hqr.
  destruct c; unfold apply; try (by eauto using retract_ledger_step, purge_branch_step,
    drop_branch_step, reset_head_step, apply_head_step, apply_poison_step, evict_step,
    enqueue_step); apply implements_quiet.
  - apply set_index_head_quiet.
  - apply set_index_head_quiet.
  - apply create_ledger_quiet.
  - apply create_branch_quiet.
  - split; [quiet|done].
  - apply compare_and_set_quiet.
  - pose proof (versioned_push_quiet (ledgers s) (status s) ledger_id expected new) as H.
    destruct (apply_versioned_push _ _ _ _ _). split; [quiet|by apply H].
  - destruct args as [l e n]; simpl.
    pose proof (versioned_push_quiet (ledgers s) (config s) l e n) as H.
    destruct (apply_versioned_push _ _ _ _ _). split; [quiet|by apply H].
  - eapply graph_sources_quiet. left. repeat eexists.
  - eapply graph_sources_quiet. right; left. repeat eexists. symmetry. apply surjective_pairing.
  - eapply graph_sources_quiet. right; right. repeat eexists. symmetry. apply surjective_pairing.
  - apply set_worker_eligibility_quiet.
Qed.
