(* ===== verification/NsInvariant.v ===== *)
(** * The replicated nameservice: reachable states and the queue invariant

    [reachable] is the set of states some Raft log reduces to.  [wf] collects
    what holds of all of them on the queue side; it is preserved by every
    transition of [queue_step] and therefore by every log entry. *)

From S2P Require Import Prelude LedgerId NsTypes NsApply NsStep.
Import LedgerId.

Implicit Types (s : NameServiceState).

(** ** Log entries and reachability *)

Inductive LogEntry :=
  | Normal (c : Command)
  | MembershipChange (voters : gset Z)
  | Blank.

(** The reduction of one log entry by the adapter. *)
Definition apply_entry s (i : Z) (e : LogEntry) : NameServiceState * Response :=
  match e with
  | Normal c => apply s c i
  | MembershipChange voters => (apply_membership s voters, NoOp)
  | Blank => (s, NoOp)
  end.

(** A predicate on commands lifted to log entries. *)
Definition entry_ok (P : Command → Prop) (e : LogEntry) : Prop :=
  match e with Normal c => P c | _ => True end.

(** The states a log of commands satisfying [P] reduces to, with the index of
    the last entry.  Log indexes increase and are [u64]s. *)
Inductive reachable (P : Command → Prop) : NameServiceState → Z → Prop :=
  | reach_init : reachable P initial_state 0
  | reach_entry s n i e :
      reachable P s n → n < i < two64 → entry_ok P e →
      reachable P (apply_entry s i e).1 i.

Lemma reachable_mono (P Q : Command → Prop) s n :
  (∀ c, P c → Q c) → reachable P s n → reachable Q s n.
Proof.
  intros HPQ. induction 1 as [|s n i e ? IH ? He]; [apply reach_init|].
  apply (reach_entry _ _ n); auto. destruct e; simpl in *; auto.
Qed.

Lemma reachable_index P s n : reachable P s n → 0 <= n < two64.
Proof. induction 1; [done|lia]. Qed.

(** ** Entries of all queues *)

Definition flat (m : gmap RefKey (list QueueEntry)) : list (RefKey * QueueEntry) :=
  '(k, q) ← map_to_list m; (pair k) <$> q.

Lemma elem_of_flat m k e : (k, e) ∈ flat m ↔ ∃ q, m !! k = Some q ∧ e ∈ q.
Proof.
  unfold flat. rewrite list_elem_of_bind. split.
  - intros ([k' q] & H & Hm). apply list_elem_of_fmap in H as (e' & [= <- <-] & ?).
    apply elem_of_map_to_list in Hm. eauto.
  - intros (q & Hm & He). exists (k, q). split; [by apply list_elem_of_fmap_2|].
    by apply elem_of_map_to_list.
Qed.

Lemma flat_insert m k q : m !! k = None → flat (<[k := q]> m) ≡ₚ ((pair k) <$> q) ++ flat m.
Proof. intros Hk. unfold flat. by rewrite map_to_list_insert. Qed.

Lemma flat_split m k : flat m ≡ₚ ((pair k) <$> default [] (m !! k)) ++ flat (delete k m).
Proof.
  destruct (m !! k) as [q|] eqn:Hk; simpl.
  - rewrite <- flat_insert by apply lookup_delete_eq. by rewrite insert_delete_id.
  - by rewrite delete_id.
Qed.

Lemma flat_replace m k q :
  flat (<[k := q]> m) ≡ₚ ((pair k) <$> q) ++ flat (delete k m).
Proof. rewrite <- insert_delete_eq. apply flat_insert, lookup_delete_eq. Qed.

Lemma flat_push m k e :
  flat (<[k := default [] (m !! k) ++ [e]]> m) ≡ₚ (k, e) :: flat m.
Proof.
  rewrite flat_replace, (flat_split m k), fmap_app; simpl.
  rewrite <- app_assoc, Permutation_middle. done.
Qed.

Lemma flat_pop m k e rest :
  m !! k = Some (e :: rest) →
  (k, e) :: flat (match rest with [] => delete k m | _ => <[k := rest]> m end) ≡ₚ flat m.
Proof.
  intros Hk. rewrite (flat_split m k), Hk. simpl. f_equiv.
  destruct rest; [done|]. apply flat_replace.
Qed.

Lemma global_depth_flat s : global_depth s = Z.of_nat (length (flat (queues s))).
Proof.
  unfold global_depth, flat. rewrite map_fold_foldr.
  induction (map_to_list (queues s)) as [|[k q] l IH]; simpl; [done|].
  rewrite IH, length_app, length_fmap, Nat2Z.inj_add. done.
Qed.

(** ** The invariant *)

Definition queue_ids s : list Z := (λ p, qe_queue_id p.2) <$> flat (queues s).

Record wf (n : Z) s : Prop := {
  (* a queue is never empty and belongs to a live, unmarked branch *)
  wf_live k q : queues s !! k = Some q →
    q ≠ [] ∧ registered s k ∧ (k ∉ retracted s) ∧ recently_cleared s !! k = None;
  (* a tombstone is held by a registered branch *)
  wf_retracted k : k ∈ retracted s → registered s k;
  (* queue ids grow along a queue and are unique across queues *)
  wf_sorted k q : queues s !! k = Some q → StronglySorted Z.lt (qe_queue_id <$> q);
  wf_ids : Forall (λ j, 0 <= j < next_queue_id s) (queue_ids s);
  wf_ids_unique : NoDup (queue_ids s);
  wf_next : 0 <= next_queue_id s <= n;
  (* the caps *)
  wf_config : queue_config s = default_queue_config;
  wf_per_branch k q : queues s !! k = Some q → Z.of_nat (length q) <= DEFAULT_PER_BRANCH;
  wf_global : global_depth s <= DEFAULT_GLOBAL;
  (* outcomes are recorded at distinct indexes of the log *)
  wf_recorded key o : idempotency s !! key = Some o → 0 <= outcome_recorded_index o <= n;
  wf_recorded_inj key1 key2 o1 o2 :
    idempotency s !! key1 = Some o1 → idempotency s !! key2 = Some o2 →
    outcome_recorded_index o1 = outcome_recorded_index o2 → key1 = key2;
}.

Lemma wf_init : wf 0 initial_state.
Proof. constructor; try done; try apply NoDup_nil_2. Qed.

Lemma wf_queues_registered n s : wf n s → ∀ k, is_Some (queues s !! k) → registered s k.
Proof. intros Hwf k [q Hq]. by apply (wf_live _ _ Hwf) in Hq as (_ & ? & _). Qed.

(** ** Preservation, event by event *)

Section frame.
Context (n : Z) (s s' : NameServiceState) (Hwf : wf n s).

(** Preservation when the queues only lose entries. *)
Lemma wf_shrink i :
  n <= i →
  (∀ k q, queues s' !! k = Some q → q ≠ [] ∧ ∃ pre, queues s !! k = Some (pre ++ q)) →
  (∃ gone, flat (queues s) ≡ₚ gone ++ flat (queues s')) →
  next_queue_id s' = next_queue_id s → queue_config s' = queue_config s →
  (∀ k, is_Some (queues s' !! k) →
     registered s' k ∧ (k ∉ retracted s') ∧ recently_cleared s' !! k = None) →
  (∀ k, k ∈ retracted s' → registered s' k) →
  (∀ key o, idempotency s' !! key = Some o → 0 <= outcome_recorded_index o <= i) →
  (∀ key1 key2 o1 o2,
    idempotency s' !! key1 = Some o1 → idempotency s' !! key2 = Some o2 →
    outcome_recorded_index o1 = outcome_recorded_index o2 → key1 = key2) →
  wf i s'.
Proof.
  intros Hi Hq [gone Hflat] Hn Hc Hlive Hret Hrec Hinj.
  assert (queue_ids s ≡ₚ ((λ p, qe_queue_id p.2) <$> gone) ++ queue_ids s') as Hids.
  { unfold queue_ids. by rewrite Hflat, fmap_app. }
  destruct Hwf. constructor; auto.
  - intros k q Hk. split; [by apply Hq in Hk as [? _]|]. apply Hlive; eauto.
  - intros k q (_ & pre & Hpre)%Hq. apply wf_sorted0 in Hpre.
    rewrite fmap_app in Hpre. by apply StronglySorted_app_1_r in Hpre.
  - rewrite Hids in wf_ids0. rewrite Hn. by apply Forall_app in wf_ids0 as [_ ?].
  - rewrite Hids in wf_ids_unique0. by apply NoDup_app in wf_ids_unique0 as (_ & _ & ?).
  - lia.
  - congruence.
  - intros k q (_ & pre & Hpre)%Hq. apply wf_per_branch0 in Hpre.
    rewrite length_app in Hpre. lia.
  - rewrite !global_depth_flat in *. rewrite Hflat, length_app in wf_global0. lia.
Qed.
End frame.

Lemma wf_recorded_weaken n i s key o :
  wf n s → n <= i → idempotency s !! key = Some o → 0 <= outcome_recorded_index o <= i.
Proof. intros Hwf ? Ho. apply (wf_recorded _ _ Hwf) in Ho. lia. Qed.
#[export] Hint Resolve wf_recorded_weaken wf_recorded_inj : fluree.

Lemma wf_quiet n i s s' rel : wf n s → n <= i → queue_step i s s' rel EvQuiet → wf i s'.
Proof.
  intros Hwf Hi H. inversion H as [_ Hq Hn Hm Hc Hr Hcfg Hreg| | | | |]; subst.
  apply (wf_shrink n s); auto; rewrite ?Hq, ?Hm, ?Hc, ?Hr; eauto with fluree.
  - intros k q Hk. split; [by apply (wf_live _ _ Hwf) in Hk as [? _]|]. by exists [].
  - by exists [].
  - intros k [q Hk]. apply (wf_live _ _ Hwf) in Hk. naive_solver.
  - intros k Hk. by apply Hreg, (wf_retracted _ _ Hwf).
Qed.

Lemma wf_marker n i s s' rel k : wf n s → n <= i → queue_step i s s' rel (EvMarker k) → wf i s'.
Proof.
  intros Hwf Hi H. inversion H as [| |? _ Hk ->| | |]; subst.
  apply (wf_shrink n s); auto; simpl; eauto with fluree.
  - intros k' q Hq. split; [by apply (wf_live _ _ Hwf) in Hq as [? _]|]. by exists [].
  - by exists [].
  - intros k' [q Hq]. apply (wf_live _ _ Hwf) in Hq as (_ & ? & ? & ?).
    rewrite lookup_delete_None. auto.
  - apply (wf_retracted _ _ Hwf).
Qed.

(** The cache a sweep leaves: the evicted keys are gone, the rest is as it was. *)
Lemma evict_loop_lookup cache ex key :
  (evict_loop cache ex).1 !! key = if decide (key ∈ ex.*2) then None else cache !! key.
Proof.
  revert cache. induction ex as [|[x k] ex IH]; intros cache; [done|].
  rewrite fmap_cons; cbn [evict_loop].
  specialize (IH (delete k cache)). destruct (evict_loop _ _) as [c out]; cbn [fst snd] in *.
  rewrite IH. destruct (decide (key ∈ ex.*2)).
  - rewrite decide_True; set_solver.
  - destruct (decide (key = k)) as [->|].
    + rewrite decide_True by set_solver. by rewrite lookup_delete_eq.
    + rewrite decide_False by set_solver. by rewrite lookup_delete_ne.
Qed.

Lemma evict_loop_sub cache ex key o :
  (evict_loop cache ex).1 !! key = Some o → cache !! key = Some o.
Proof. rewrite evict_loop_lookup. case_decide; naive_solver. Qed.

Lemma wf_evict n i s s' rel ex mc :
  wf n s → n <= i → queue_step i s s' rel (EvEvict ex mc) → wf i s'.
Proof.
  intros Hwf Hi H. inversion H as [| | | | |? ? ? Hq Hn Hm Hc Hr Hcfg Hreg]; subst.
  assert (∀ key o, idempotency s' !! key = Some o → idempotency s !! key = Some o) as Hsub.
  { intros key o. replace (idempotency s') with (idempotency s', rel).1 by done.
    rewrite Hc. apply evict_loop_sub. }
  apply (wf_shrink n s); auto; rewrite ?Hq, ?Hr; eauto with fluree.
  - intros k q Hk. split; [by apply (wf_live _ _ Hwf) in Hk as [? _]|]. by exists [].
  - by exists [].
  - intros k [q Hk]. apply (wf_live _ _ Hwf) in Hk as (_ & ? & ? & Hk).
    rewrite Hm, map_lookup_filter_None. auto.
  - intros k Hk. by apply Hreg, (wf_retracted _ _ Hwf).
Qed.

Lemma wf_retire n i s s' rel k e o :
  wf n s → n < i → queue_step i s s' rel (EvRetire k e o) → wf i s'.
Proof.
  intros Hwf Hi H.
  inversion H as [| | |? ? rest ? Hk Hmk Hq Hn Hm Hr Hcfg Hreg _ _ Hrec Hcache| |]; subst.
  assert (0 <= n) by (pose proof (wf_next _ _ Hwf); lia).
  assert (∀ key o', idempotency s' !! key = Some o' →
    idempotency s !! key = Some o'
    ∨ o' = o ∧ qe_idempotency e = Some key) as Hsub.
  { intros key o'. destruct (qe_idempotency e) as [key'|]; destruct Hcache as [-> _]; [|by auto].
    rewrite lookup_insert_Some. naive_solver. }
  apply (wf_shrink n s); auto; try lia; rewrite ?Hq, ?Hr.
  - intros k' q. destruct rest.
    + intros [? Hk']%lookup_delete_Some. split; [by apply (wf_live _ _ Hwf) in Hk' as [? _]|].
      by exists [].
    + intros [[<- <-]|[? Hk']]%lookup_insert_Some; [split; [done|by exists [e]]|].
      split; [by apply (wf_live _ _ Hwf) in Hk' as [? _]|]. by exists [].
  - exists [(k, e)]. by rewrite <- (flat_pop _ k e rest).
  - intros k' Hk'. assert (is_Some (queues s !! k')) as [q Hq'].
    { destruct (decide (k' = k)) as [->|Hne]; [by eexists|].
      by destruct rest; rewrite ?lookup_delete_ne, ?lookup_insert_ne in Hk'. }
    rewrite Hm. apply (wf_live _ _ Hwf) in Hq'. naive_solver.
  - intros k' Hk'. by apply Hreg, (wf_retracted _ _ Hwf).
  - intros key o' [Ho|[-> _]]%Hsub; [|lia]. apply (wf_recorded _ _ Hwf) in Ho. lia.
  - intros key1 key2 o1 o2 [H1|[-> H1]]%Hsub [H2|[-> H2]]%Hsub E.
    + by eapply (wf_recorded_inj _ _ Hwf).
    + apply (wf_recorded _ _ Hwf) in H1. lia.
    + apply (wf_recorded _ _ Hwf) in H2. lia.
    + congruence.
Qed.

(** Membership of a queue key and of a marker after a clear. *)
Lemma clear_markers_ne s k reason millis k' :
  k' ≠ k → clear_markers s k reason millis !! k' = recently_cleared s !! k'.
Proof.
  intros Hne. unfold clear_markers. destruct (queue_of s k); [done|].
  by rewrite lookup_insert_ne.
Qed.

Lemma wf_clear n i s s' rel k reason :
  wf n s → n <= i → queue_step i s s' rel (EvClear k reason) → wf i s'.
Proof.
  intros Hwf Hi H. inversion H as [| | | |? ? millis Hq Hn Hm Hc Hcfg Hcat _|]; subst.
  assert (∀ k', k' ≠ k → registered s k' → registered s' k') as Hreg.
  { intros. unfold clear_catalog in Hcat. destruct reason; naive_solver. }
  assert (∀ k', k' ≠ k → k' ∉ retracted s → k' ∉ retracted s') as Hret.
  { intros. unfold clear_catalog in Hcat. destruct reason; set_solver. }
  apply (wf_shrink n s); auto; rewrite ?Hq, ?Hc; eauto with fluree.
  - intros k' q [? Hk]%lookup_delete_Some.
    split; [by apply (wf_live _ _ Hwf) in Hk as [? _]|]. by exists [].
  - eexists. apply flat_split.
  - intros k' [q [Hne Hk']%lookup_delete_Some]. rewrite Hm, clear_markers_ne by done.
    apply (wf_live _ _ Hwf) in Hk' as (_ & ? & ? & ?). auto.
  - intros k' Hk'. unfold clear_catalog in Hcat. pose proof (wf_retracted _ _ Hwf k').
    destruct reason; set_solver.
Qed.

Lemma wf_enqueue n i s s' rel k e :
  wf n s → n < i < two64 → queue_step i s s' rel (EvEnqueue k e) → wf i s'.
Proof.
  intros Hwf Hi H.
  inversion H as [|? ? _ Hreg Hret Hpb Hgl _ Hid ->| | | |]; subst.
  pose proof (wf_next _ _ Hwf) as Hnext. rewrite (wf_config _ _ Hwf) in Hpb, Hgl; simpl in *.
  assert (u64_add (next_queue_id s) 1 = next_queue_id s + 1) as Hadd.
  { unfold u64_add. apply wrap64_small. lia. }
  assert (queue_ids (set_queues s (<[k := queue_of s k ++ [e]]> (queues s)))
          ≡ₚ next_queue_id s :: queue_ids s) as Hids.
  { unfold queue_ids, queue_of; simpl. rewrite flat_push. simpl. by rewrite Hid. }
  assert (Forall (λ j, j < next_queue_id s) (qe_queue_id <$> queue_of s k)) as Hbelow.
  { unfold queue_of. destruct (queues s !! k) as [q|] eqn:Hq; [|constructor].
    apply Forall_fmap, Forall_forall. intros e' He'.
    pose proof (wf_ids _ _ Hwf) as Hall. rewrite Forall_forall in Hall.
    apply Hall. unfold queue_ids. apply list_elem_of_fmap. exists (k, e').
    split; [done|]. apply elem_of_flat; eauto. }
  constructor; simpl; rewrite ?Hadd; auto with fluree lia.
  - intros k' q [[<- <-]|[Hne Hk']]%lookup_insert_Some.
    + split; [by destruct (queue_of s k)|]. by rewrite lookup_delete_eq.
    + rewrite lookup_delete_ne by done. by apply (wf_live _ _ Hwf).
  - apply (wf_retracted _ _ Hwf).
  - intros k' q [[<- <-]|[Hne Hk']]%lookup_insert_Some; [|by eapply wf_sorted].
    rewrite fmap_app. apply StronglySorted_app_2; [| |by repeat constructor].
    + intros x1 x2 Hx1 ->%list_elem_of_singleton. rewrite Hid.
      rewrite Forall_forall in Hbelow. by apply Hbelow.
    + unfold queue_of. destruct (queues s !! k) eqn:Hq; [by eapply wf_sorted|constructor].
  - change (queue_ids _) with
      (queue_ids (set_queues s (<[k := queue_of s k ++ [e]]> (queues s)))).
    rewrite Hids. constructor; [lia|].
    eapply Forall_impl; [apply (wf_ids _ _ Hwf)|]. simpl; lia.
  - change (queue_ids _) with
      (queue_ids (set_queues s (<[k := queue_of s k ++ [e]]> (queues s)))).
    rewrite Hids. apply NoDup_cons. split; [|apply (wf_ids_unique _ _ Hwf)].
    intros Hin. pose proof (wf_ids _ _ Hwf) as Hall. rewrite Forall_forall in Hall.
    apply Hall in Hin. lia.
  - apply (wf_config _ _ Hwf).
  - intros k' q [[<- <-]|[Hne Hk']]%lookup_insert_Some; [|by eapply wf_per_branch].
    rewrite length_app; simpl. lia.
  - rewrite global_depth_flat in *. simpl. unfold queue_of. rewrite flat_push. simpl. lia.
  - intros. eapply wf_recorded_weaken; eauto; lia.
  - eauto with fluree.
Qed.

(** ** Every reachable state *)

Lemma queue_step_wf n i s s' rel ev :
  wf n s → n < i < two64 → queue_step i s s' rel ev → wf i s'.
Proof.
  intros Hwf Hi H. assert (n <= i) by lia.
  destruct ev; eauto using wf_quiet, wf_enqueue, wf_marker, wf_clear, wf_evict.
  eapply wf_retire; eauto. lia.
Qed.

(** The step of a log entry, seen from the queue. *)
Lemma entry_queue_step n i s e :
  wf n s →
  ∃ ev, queue_step i s (apply_entry s i e).1 (drain_releases (apply_entry s i e).2) ev
    ∧ match e with
      | Normal c => event_label i s c (apply_entry s i e).2 ev
      | _ => ev = EvQuiet
      end.
Proof.
  intros Hwf. destruct e; simpl; [|exists EvQuiet; split; [quiet|done]..].
  apply apply_queue_step. by eapply wf_queues_registered.
Qed.

Lemma reachable_wf P s n : reachable P s n → wf n s.
Proof.
  induction 1 as [|s n i e Hr IH Hi He]; [apply wf_init|].
  destruct (entry_queue_step n i s e IH) as (ev & Hev & _). by eapply queue_step_wf.
Qed.
#[export] Hint Resolve reachable_wf : fluree.
