(* ===== verification/NsQueue.v ===== *)
(** * The command queue and the idempotency cache

    The invariant behind exactly-once execution, and the accounting of the
    envelope blobs: both hold for logs whose keyed submissions carry the
    canonical ledger id of their own branch, which is how
    [QueuedTransactor::propose_enqueue] builds them. *)

From S2P Require Import Prelude LedgerId NsTypes NsApply NsStep NsInvariant.
Import LedgerId.

Implicit Types (s : NameServiceState).

(** ** Well-scoped logs *)

(** The ledger name comes out of [split_ledger_id], so it has no [':'], and an
    idempotency key is scoped to the submission's own branch. *)
Definition scoped (c : Command) : Prop :=
  match c with
  | EnqueueCommand a =>
      colon_free (qs_ledger_id a)
      ∧ ∀ key, qs_idempotency a = Some key →
          ik_ledger_id key = format_ledger_id (qs_ledger_id a) (qs_branch a)
  | _ => True
  end.

(** The idempotency keys of the entries in flight. *)
Definition keys_in_flight s : list IdempotencyCacheKey :=
  omap (λ p, qe_idempotency p.2) (flat (queues s)).

Record idem_wf s : Prop := {
  iw_scope k e key : (k, e) ∈ flat (queues s) → qe_idempotency e = Some key →
    ik_ledger_id key = ref_key_ledger_id k ∧ colon_free (rk_ledger_name k);
  iw_disjoint key : key ∈ keys_in_flight s → idempotency s !! key = None;
  iw_unique : NoDup (keys_in_flight s);
}.

Lemma elem_of_keys_in_flight s key :
  key ∈ keys_in_flight s ↔ ∃ k e, (k, e) ∈ flat (queues s) ∧ qe_idempotency e = Some key.
Proof.
  unfold keys_in_flight. rewrite list_elem_of_omap. split.
  - intros ([k e] & ? & ?). eauto.
  - intros (k & e & ? & ?). by exists (k, e).
Qed.

(** Queues that lose entries, over a cache that gains none of the keys left. *)
Lemma idem_wf_shrink s s' gone :
  idem_wf s → flat (queues s) ≡ₚ gone ++ flat (queues s') →
  (∀ key, key ∈ keys_in_flight s' → idempotency s !! key = None → idempotency s' !! key = None) →
  idem_wf s'.
Proof.
  intros Hwf Hflat Hcache.
  assert (keys_in_flight s ≡ₚ omap (λ p, qe_idempotency p.2) gone ++ keys_in_flight s') as Hk.
  { unfold keys_in_flight. by rewrite Hflat, omap_app. }
  constructor.
  - intros k e key Hin. apply (iw_scope _ Hwf). rewrite Hflat. set_solver.
  - intros key Hin. apply Hcache; [done|]. apply (iw_disjoint _ Hwf). rewrite Hk. set_solver.
  - pose proof (iw_unique _ Hwf) as H. rewrite Hk in H. by apply NoDup_app in H as (_ & _ & ?).
Qed.

Lemma idem_wf_enqueue i s s' rel k e :
  idem_wf s → queue_step i s s' rel (EvEnqueue k e) →
  colon_free (rk_ledger_name k) →
  (∀ key, qe_idempotency e = Some key → ik_ledger_id key = ref_key_ledger_id k) →
  idem_wf s'.
Proof.
  intros Hwf H Hplain Hscope.
  inversion H as [|? ? _ Hreg Hret Hpb Hgl Hfresh Hid ->| | | |]; subst.
  assert (flat (<[k := queue_of s k ++ [e]]> (queues s)) ≡ₚ (k, e) :: flat (queues s)) as Hflat
    by apply flat_push.
  assert (∀ key, qe_idempotency e = Some key → key ∉ keys_in_flight s) as Hnew.
  { intros key Hkey (k' & e' & Hin & Hkey')%elem_of_keys_in_flight.
    destruct (iw_scope _ Hwf _ _ _ Hin Hkey') as [Hs Hp].
    assert (k' = k) as ->.
    { rewrite (Hscope key Hkey) in Hs. unfold ref_key_ledger_id in Hs.
      apply format_inj in Hs as [? ?]; auto. destruct k, k'; naive_solver. }
    apply elem_of_flat in Hin as (q & Hq & Hin). destruct (Hfresh key Hkey) as [_ HF].
    rewrite (queue_of_Some _ _ _ Hq), Forall_forall in HF. by apply (HF e'). }
  constructor; unfold keys_in_flight; simpl.
  - intros k' e' key. rewrite Hflat. intros [[= -> ->]|Hin]%elem_of_cons Hkey; [by auto|].
    by eapply (iw_scope _ Hwf).
  - intros key. rewrite Hflat. simpl. destruct (qe_idempotency e) as [key'|] eqn:Hkey.
    + intros [->|Hin]%elem_of_cons; [by apply Hfresh|by apply (iw_disjoint _ Hwf)].
    + apply (iw_disjoint _ Hwf).
  - rewrite Hflat. simpl. destruct (qe_idempotency e) as [key|] eqn:Hkey; [|apply (iw_unique _ Hwf)].
    apply NoDup_cons. split; [by apply Hnew|apply (iw_unique _ Hwf)].
Qed.

Lemma idem_wf_retire i s s' rel k e o :
  idem_wf s → queue_step i s s' rel (EvRetire k e o) → idem_wf s'.
Proof.
  intros Hwf H. inversion H as [| | |? ? rest ? Hk _ Hq _ _ _ _ _ _ _ _ Hc| |]; subst.
  assert (flat (queues s) ≡ₚ [(k, e)] ++ flat (queues s')) as Hflat
    by (rewrite Hq; symmetry; by apply flat_pop).
  eapply idem_wf_shrink; [done..|]. intros key Hin Hnone.
  destruct (qe_idempotency e) as [key'|] eqn:He; destruct Hc as [-> _]; [|done].
  rewrite lookup_insert_ne; [done|]. intros ->.
  pose proof (iw_unique _ Hwf) as Hnd. unfold keys_in_flight in Hnd. rewrite Hflat in Hnd.
  simpl in Hnd. rewrite He in Hnd. by apply NoDup_cons in Hnd as [? _].
Qed.

Lemma queue_step_idem i s s' rel ev c r :
  idem_wf s → queue_step i s s' rel ev → event_label i s c r ev → scoped c → idem_wf s'.
Proof.
  intros Hwf H Hlab Hsc. destruct ev.
  - inversion H as [_ Hq _ _ Hc _ _ _| | | | |]; subst.
    apply (idem_wf_shrink s _ []); rewrite ?Hq, ?Hc; auto.
  - destruct Hlab as (a & -> & -> & -> & _). destruct Hsc as [? ?].
    by eapply idem_wf_enqueue.
  - inversion H; subst. by apply (idem_wf_shrink s _ []).
  - by eapply idem_wf_retire.
  - inversion H as [| | | |? ? ? Hq _ _ Hc _ _ _|]; subst.
    eapply idem_wf_shrink; [done|rewrite Hq; apply flat_split|]. by rewrite Hc.
  - inversion H as [| | | | |? ? ? Hq _ _ Hc _ _ _]; subst.
    apply (idem_wf_shrink s _ []); rewrite ?Hq; auto. intros key _ Hn.
    replace (idempotency s') with (idempotency s', rel).1 by done.
    rewrite Hc, evict_loop_lookup. by case_decide.
Qed.

Lemma reachable_idem s n : reachable scoped s n → idem_wf s.
Proof.
  induction 1 as [|s n i e Hr IH Hi He].
  { constructor; [by intros ??? ?%not_elem_of_nil|done|apply NoDup_nil_2]. }
  destruct (entry_queue_step n i s e) as (ev & Hev & Hlab); [by eauto with fluree|].
  destruct e as [c| |]; [by eapply queue_step_idem| |]; subst;
    by eapply (queue_step_idem _ _ _ _ _ (ReleaseContent (mkCid EmptyString)) NoOp).
Qed.
#[export] Hint Resolve reachable_idem : fluree.

(** ** Envelope accounting *)

Definition queue_envelopes s : list (string * ContentId) :=
  (λ p, (ref_key_ledger_id p.1, qe_request_cid p.2)) <$> flat (queues s).
Definition cache_envelopes (m : gmap IdempotencyCacheKey ApplyOutcome)
    : list (string * ContentId) :=
  (λ p, (ik_ledger_id p.1, outcome_request_cid p.2)) <$> map_to_list m.

(** The envelope blobs the state machine still refers to. *)
Definition live_envelopes s : list (string * ContentId) :=
  queue_envelopes s ++ cache_envelopes (idempotency s).

(** The envelope a log entry hands over, when its submission is accepted. *)
Definition accepted (e : LogEntry) (r : Response) : list (string * ContentId) :=
  match e, r with
  | Normal (EnqueueCommand a), Enqueued ledger_id _ => [(ledger_id, qs_request_cid a)]
  | _, _ => []
  end.

Lemma cache_envelopes_insert m key o :
  m !! key = None →
  cache_envelopes (<[key := o]> m) ≡ₚ (ik_ledger_id key, outcome_request_cid o) :: cache_envelopes m.
Proof. intros Hk. unfold cache_envelopes. by rewrite map_to_list_insert. Qed.

(** A sweep releases exactly the envelopes of the records it removes. *)
Lemma evict_loop_envelopes cache ex :
  cache_envelopes cache ≡ₚ (evict_loop cache ex).2 ++ cache_envelopes (evict_loop cache ex).1.
Proof.
  revert cache. induction ex as [|[x key] ex IH]; intros cache; simpl; [done|].
  specialize (IH (delete key cache)). destruct (evict_loop _ _) as [c out]; simpl in *.
  rewrite <- app_assoc, <- IH. destruct (cache !! key) as [o|] eqn:Hk; simpl.
  - rewrite <- cache_envelopes_insert by apply lookup_delete_eq. by rewrite insert_delete_id.
  - by rewrite delete_id.
Qed.

Lemma queue_envelopes_flat s s' gone :
  flat (queues s) ≡ₚ gone ++ flat (queues s') →
  queue_envelopes s ≡ₚ
    ((λ p, (ref_key_ledger_id p.1, qe_request_cid p.2)) <$> gone) ++ queue_envelopes s'.
Proof. intros H. unfold queue_envelopes. by rewrite H, fmap_app. Qed.

(** The balance of a transition that accepts nothing. *)
Lemma queue_step_envelopes i s s' rel ev :
  idem_wf s → queue_step i s s' rel ev → (∀ k e, ev ≠ EvEnqueue k e) →
  live_envelopes s' ++ rel ≡ₚ live_envelopes s.
Proof.
  intros Hwf H Hne. unfold live_envelopes. destruct ev.
  - inversion H as [-> Hq _ _ Hc _ _ _| | | | |]; subst.
    unfold queue_envelopes. by rewrite Hq, Hc, app_nil_r.
  - by destruct (Hne k e).
  - inversion H as [| |? -> Hk ->| | |]; subst. simpl. by rewrite app_nil_r.
  - inversion H as [| | |? ? rest ? Hk _ Hq _ _ _ _ _ Hreq _ _ Hc| |]; subst.
    rewrite (queue_envelopes_flat s s' [(k, e)]) by (rewrite Hq; symmetry; by apply flat_pop).
    simpl. destruct (qe_idempotency e) as [key|] eqn:He; destruct Hc as [-> ->].
    + assert (key ∈ keys_in_flight s) as Hin.
      { apply elem_of_keys_in_flight. exists k, e. split; [|done].
        apply elem_of_flat. eexists; split; [done|left]. }
      rewrite cache_envelopes_insert by by apply (iw_disjoint _ Hwf).
      destruct (iw_scope _ Hwf k e key) as [-> _]; [|done|].
      { apply elem_of_flat. eexists; split; [done|left]. }
      rewrite Hreq, app_nil_r. by rewrite Permutation_middle.
    + rewrite Permutation_app_comm. done.
  - inversion H as [| | | |? ? millis Hq _ _ Hc _ _ ->|]; subst.
    rewrite (queue_envelopes_flat s s' _) by (rewrite Hq; apply flat_split).
    rewrite Hc, <- list_fmap_compose. rewrite Permutation_app_comm, <- app_assoc. done.
  - inversion H as [| | | | |? ? ? Hq _ _ Hc _ _ _]; subst.
    unfold queue_envelopes. rewrite Hq, <- app_assoc. f_equiv.
    match type of Hc with _ = evict_loop _ ?x =>
      pose proof (evict_loop_envelopes (idempotency s) x) as HE end.
    rewrite <- Hc in HE; simpl in HE. rewrite HE. apply Permutation_app_comm.
Qed.

Lemma enqueue_envelopes i s s' rel k e :
  queue_step i s s' rel (EvEnqueue k e) →
  live_envelopes s' ++ rel ≡ₚ live_envelopes s ++ envelopes k [e].
Proof.
  intros H. inversion H as [|? ? Hrel _ _ _ _ _ _ Hs| | | |]; subst. rewrite app_nil_r.
  unfold live_envelopes, queue_envelopes, queue_of; simpl.
  rewrite flat_push; simpl. by rewrite Permutation_cons_append.
Qed.

(** ** Logs *)

Fixpoint run s (log : list (Z * LogEntry)) : NameServiceState * list Response :=
  match log with
  | [] => (s, [])
  | (i, e) :: rest =>
      let '(s1, r) := apply_entry s i e in
      let '(s2, rs) := run s1 rest in
      (s2, r :: rs)
  end.

(** The indexes of a log increase from [n] and its commands satisfy [P]. *)
Fixpoint log_ok (P : Command → Prop) (n : Z) (log : list (Z * LogEntry)) : Prop :=
  match log with
  | [] => True
  | (i, e) :: rest => n < i < two64 ∧ entry_ok P e ∧ log_ok P i rest
  end.

Fixpoint last_index (n : Z) (log : list (Z * LogEntry)) : Z :=
  match log with [] => n | (i, _) :: rest => last_index i rest end.

Lemma reachable_run P s n log :
  reachable P s n → log_ok P n log → reachable P (run s log).1 (last_index n log).
Proof.
  revert s n. induction log as [|[i e] log IH]; intros s n Hr Hok; simpl; [done|].
  destruct Hok as (Hi & He & Hok). pose proof (reach_entry P s n i e Hr Hi He) as Hr'.
  destruct (apply_entry s i e) as [s1 r]. specialize (IH s1 i Hr' Hok).
  by destruct (run s1 log).
Qed.

(** The keys of the entries a log retires, in order. *)
Definition retired_key s (e : LogEntry) (r : Response) : option IdempotencyCacheKey :=
  match e, r with
  | Normal (ApplyHead a), HeadApplied _ _ _ _ =>
      head (queue_of s (mkRefKey (sh_ledger_id a) (sh_branch a))) ≫= qe_idempotency
  | Normal (PoisonQueueEntry a), Poisoned _ _ _ _ =>
      head (queue_of s (mkRefKey (ep_ledger_id a) (ep_branch a))) ≫= qe_idempotency
  | _, _ => None
  end.

Fixpoint retired_keys s (log : list (Z * LogEntry)) : list IdempotencyCacheKey :=
  match log with
  | [] => []
  | (i, e) :: rest =>
      let '(s1, r) := apply_entry s i e in
      option_list (retired_key s e r) ++ retired_keys s1 rest
  end.

(** The retention window: nothing retired in the log is old enough for its
    sweeps. *)
Definition in_window (C : Z) (c : Command) : Prop :=
  scoped c ∧
  match c with
  | EvictIdempotency cutoff _ => cutoff <= C
  | ApplyHead a => C <= sh_applied_at_millis a
  | PoisonQueueEntry a => C <= ep_applied_at_millis a
  | _ => True
  end.

(** The key retired by a transition is the one its event retires. *)
Lemma retired_key_event i s s' rel c r ev :
  queue_step i s s' rel ev → event_label i s c r ev →
  retired_key s (Normal c) r =
    match ev with EvRetire _ e _ => qe_idempotency e | _ => None end.
Proof.
  intros H Hlab. destruct ev; simpl in Hlab.
  - destruct c, r; done.
  - by destruct Hlab as (? & -> & _ & _ & ->).
  - destruct Hlab as (? & ? & ? & ->). by destruct c.
  - inversion H as [| | |? ? rest ? Hk| |]; subst.
    destruct Hlab as [(a & ? & -> & -> & _ & _ & ->)|(a & ? & -> & -> & _ & _ & ->)]; simpl;
      by rewrite (queue_of_Some _ _ _ Hk).
  - destruct Hlab as [Hlab _]. unfold clears in Hlab. by destruct c.
  - by destruct Hlab as (? & -> & _).
Qed.

(** A sweep spares the outcomes recorded at or after its cutoff. *)
Lemma eviction_batch_cutoff cutoff m x :
  x ∈ eviction_batch cutoff (map_to_list m) →
  ∃ o, m !! x.2 = Some o ∧ outcome_recorded_at_millis o < cutoff
    ∧ x.1 = (outcome_recorded_at_millis o, outcome_recorded_index o).
Proof.
  unfold eviction_batch. intros Hx%elem_of_take_sub. rewrite elem_of_sort_by in Hx.
  apply list_elem_of_omap in Hx as ([key o] & Hin%elem_of_map_to_list & Hx).
  simpl in Hx. destruct (_ <? _) eqn:E in Hx; simplify_eq. reflect_bools. by exists o.
Qed.

(** Outcomes of the window survive a transition of the window. *)
Lemma window_stable C i s s' rel ev c r key o :
  idem_wf s → queue_step i s s' rel ev → event_label i s c r ev → in_window C c →
  idempotency s !! key = Some o → C <= outcome_recorded_at_millis o →
  idempotency s' !! key = Some o.
Proof.
  intros Hwf H Hlab [_ Hwin] Ho HC. destruct ev.
  - inversion H as [_ _ _ _ -> _ _ _| | | | |]; done.
  - inversion H; by subst.
  - inversion H; by subst.
  - inversion H as [| | |? ? rest ? Hk _ _ _ _ _ _ _ _ _ _ Hc| |]; subst.
    destruct (qe_idempotency e) as [key'|] eqn:He; destruct Hc as [-> _]; [|done].
    rewrite lookup_insert_ne; [done|]. intros ->.
    rewrite (iw_disjoint _ Hwf) in Ho; [done|]. apply elem_of_keys_in_flight.
    exists k, e. split; [|done]. apply elem_of_flat. eexists; split; [done|left].
  - inversion H as [| | | |? ? ? _ _ _ -> _ _ _|]; done.
  - destruct Hlab as (cutoff & -> & ->). inversion H as [| | | | |? ? ? _ _ _ Hc _ _ _]; subst.
    replace (idempotency s') with (idempotency s', rel).1 by done.
    match goal with E : evicted = _ |- _ => rewrite E in Hc end.
    rewrite Hc, evict_loop_lookup. rewrite decide_False; [done|].
    intros ([x key'] & -> & Hin%eviction_batch_cutoff)%list_elem_of_fmap. simpl in *.
    destruct Hin as (o' & ? & ? & _). simplify_eq. lia.
Qed.

(** What a transition of the window retires was not cached before, and stays
    cached, with a time in the window. *)
Lemma retire_caches i s s' rel ev c r C key :
  idem_wf s → queue_step i s s' rel ev → event_label i s c r ev → in_window C c →
  retired_key s (Normal c) r = Some key →
  idempotency s !! key = None
  ∧ ∃ o, idempotency s' !! key = Some o ∧ C <= outcome_recorded_at_millis o.
Proof.
  intros Hwf H Hlab [_ Hwin] Hret. rewrite (retired_key_event _ _ _ _ _ _ _ H Hlab) in Hret.
  destruct ev as [| | |k e o| |]; try done.
  inversion H as [| | |? ? rest ? Hk _ _ _ _ _ _ _ _ _ _ Hc| |]; subst.
  rewrite Hret in Hc. destruct Hc as [-> _]. split.
  - apply (iw_disjoint _ Hwf), elem_of_keys_in_flight. exists k, e. split; [|done].
    apply elem_of_flat. eexists; split; [done|left].
  - exists o. split; [apply lookup_insert_eq|].
    by destruct Hlab as [(a & ? & -> & _ & _ & -> & _)|(a & ? & -> & _ & _ & -> & _)].
Qed.

(** Keys cached with a time in the window are not retired again. *)
Lemma retired_keys_fresh C s n log :
  reachable scoped s n → log_ok (in_window C) n log →
  NoDup (retired_keys s log)
  ∧ ∀ key o, idempotency s !! key = Some o → C <= outcome_recorded_at_millis o →
      key ∉ retired_keys s log.
Proof.
  revert s n. induction log as [|[i e] log IH]; intros s n Hr Hok; simpl.
  { split; [apply NoDup_nil_2|]. intros. apply not_elem_of_nil. }
  destruct Hok as (Hi & He & Hok).
  assert (entry_ok scoped e) as He' by (destruct e; [apply He|done..]).
  pose proof (reach_entry scoped s n i e Hr Hi He') as Hr'.
  destruct (entry_queue_step n i s e) as (ev & Hev & Hlab); [by eauto with fluree|].
  pose proof (reachable_idem _ _ Hr) as Hwf.
  destruct (apply_entry s i e) as [s1 r] eqn:E; simpl in *.
  destruct (IH s1 i Hr' Hok) as [Hnd Hfresh].
  destruct e as [c| |]; [|destruct r; split; auto; intros; apply (Hfresh _ o); auto;
    by inversion Hev; congruence..].
  assert (∀ key o, idempotency s !! key = Some o → C <= outcome_recorded_at_millis o →
    key ∉ retired_keys s1 log) as Hold.
  { intros key o Ho HC. apply (Hfresh key o); [|done]. by eapply window_stable. }
  destruct (retired_key s (Normal c) r) as [key|] eqn:Hret; simpl; [|by auto].
  destruct (retire_caches _ _ _ _ _ _ _ C key Hwf Hev Hlab He Hret) as (Hnone & o & Ho & HC).
  split.
  - apply NoDup_cons. split; [by eapply Hfresh|done].
  - intros key' o' Ho' HC' [->|Hin]%elem_of_cons; [congruence|by eapply Hold].
Qed.
