(* ===== verification/NsTheorems.v ===== *)
(** * Properties of the command queue

    Exactly-once execution under an idempotency key, envelope accounting,
    queue order, the outcome of every [ApplyHead], and the determinism and
    order of cache eviction, for every state a Raft log reduces to. *)

From S2P Require Import Prelude LedgerId NsTypes NsApply NsStep NsInvariant NsQueue.
Import LedgerId.

Implicit Types (s : NameServiceState).

(** ** A concrete log *)

Definition demo_key (name : string) : IdempotencyCacheKey := mkIdemKey "db:main" name.
Definition demo_sub (key : option IdempotencyCacheKey) (req body : string) : QueueSubmission :=
  mkSubmission "db" "main" key (mkCid req) (mkCid body) Sparql 100.
Definition demo_head (q : Z) (commit : string) (t : Z) : StagedHead :=
  mkStagedHead "db" "main" q (mkCid commit) t 100 None 1.

(** A ledger with two submissions queued. *)
Definition demo_log : list (Z * LogEntry) :=
  [ (1, Normal (CreateLedger (mkNewLedger "db" "main" 7)));
    (2, Normal (EnqueueCommand (demo_sub (Some (demo_key "a")) "r1" "b1")));
    (3, Normal (EnqueueCommand (demo_sub None "r2" "b2"))) ].
Definition demo_state : NameServiceState := (run initial_state demo_log).1.

(** The first submission committed. *)
Definition demo_log2 : list (Z * LogEntry) :=
  [ (4, Normal (ApplyHead (demo_head 0 "c1" 1))) ].
Definition demo_state2 : NameServiceState := (run demo_state demo_log2).1.

Lemma demo_reachable : reachable (in_window 100) demo_state 3.
Proof.
  apply (reachable_run _ initial_state 0 demo_log); [apply reach_init|].
  repeat split; try done; by intros ? [= <-].
Qed.

Lemma demo_reachable2 : reachable (in_window 100) demo_state2 4.
Proof. apply (reachable_run _ _ 3 demo_log2); [apply demo_reachable|done]. Qed.

Lemma in_window_scoped C c : in_window C c → scoped c.
Proof. by intros [? _]. Qed.

Lemma demo_scoped : reachable scoped demo_state 3.
Proof. eapply reachable_mono, demo_reachable. apply in_window_scoped. Qed.
Lemma demo_scoped2 : reachable scoped demo_state2 4.
Proof. eapply reachable_mono, demo_reachable2. apply in_window_scoped. Qed.

(** ** The invariant *)

(** C29: In every state a Raft log reduces to: queues are never empty and belong
    to registered, unretracted branches without a clear marker; tombstones are
    held by registered branches; queue ids increase along every queue, are
    unique across queues, below the next id, and the counter never wraps; the
    per-branch and the global cap hold; cached outcomes have distinct log
    indexes. *)
Theorem ns_queue_invariants P s n : reachable P s n → wf n s.
Proof. apply reachable_wf. Qed.

Lemma ns_queue_invariants_witness : wf 3 demo_state ∧ global_depth demo_state = 2.
Proof.
  split; [|by vm_compute].
  apply (ns_queue_invariants (in_window 100)), demo_reachable.
Defined.

(** ** Exactly once *)

(** C1: Within the retention window (no sweep reaches an outcome recorded by
    the log) a log never retires two entries under the same idempotency key,
    and never retires one whose outcome the window already recorded, whatever
    drops, purges, resets and re-creations of branches are interleaved. *)
Theorem ns_exactly_once C s n log :
  reachable scoped s n → log_ok (in_window C) n log →
  NoDup (retired_keys s log)
  ∧ ∀ key o, idempotency s !! key = Some o → C <= outcome_recorded_at_millis o →
      key ∉ retired_keys s log.
Proof. apply retired_keys_fresh. Qed.

Lemma ns_exactly_once_witness :
  NoDup (retired_keys initial_state (demo_log ++ demo_log2))
  ∧ retired_keys initial_state (demo_log ++ demo_log2) = [demo_key "a"].
Proof.
  split; [|by vm_compute].
  apply (ns_exactly_once 100 initial_state 0); [apply reach_init|].
  repeat split; try done; by intros ? [= <-].
Defined.

(** What an enqueue answers from the cache. *)
Definition cached_answer (a : QueueSubmission) (o : ApplyOutcome) : Response :=
  if bool_decide (outcome_body_cid o = qs_body_cid a)
  then match o with Applied r => IdempotencyHit r | Failed r => IdempotencyFailed r end
  else BodyHashMismatch.

(** What an enqueue answers from an entry in flight. *)
Definition in_flight_answer (a : QueueSubmission) (e : QueueEntry) : Response :=
  if bool_decide (qe_body_cid e = qs_body_cid a)
  then InFlight (format_ledger_id (qs_ledger_id a) (qs_branch a)) (qe_queue_id e)
  else BodyHashMismatch.

(** An entry in flight under a key scoped to [k] is in [k]'s queue, and it is
    the only one. *)
Lemma in_flight_here s k key :
  idem_wf s → colon_free (rk_ledger_name k) → ik_ledger_id key = ref_key_ledger_id k →
  key ∈ keys_in_flight s → ∃ e, in_flight key (queue_of s k) = Some e.
Proof.
  intros Hwf Hk Hs (k' & e & Hin & He)%elem_of_keys_in_flight.
  destruct (iw_scope _ Hwf _ _ _ Hin He) as [Hs' Hk'].
  assert (k' = k) as ->.
  { rewrite Hs in Hs'. unfold ref_key_ledger_id in Hs'. apply format_inj in Hs' as [? ?]; auto.
    destruct k, k'; naive_solver. }
  apply elem_of_flat in Hin as (q & Hq & Hin). rewrite (queue_of_Some _ _ _ Hq).
  destruct (in_flight key q) as [e'|] eqn:Hf; [by eauto|].
  apply in_flight_None in Hf. rewrite Forall_forall in Hf. by destruct (Hf e).
Qed.

(** A submission under a key that is cached or in flight changes nothing:
    it is answered with the recorded outcome, or with the id of the entry in
    flight, or with a body mismatch; and a key is never both. *)
Theorem ns_dedup s n i a key :
  let k := mkRefKey (qs_ledger_id a) (qs_branch a) in
  reachable scoped s n → scoped (EnqueueCommand a) → qs_idempotency a = Some key →
  registered s k → k ∉ retracted s →
  (∀ o, idempotency s !! key = Some o →
     (key ∉ keys_in_flight s) ∧ apply_enqueue_command s i a = (s, cached_answer a o))
  ∧ (key ∈ keys_in_flight s →
     ∃ e, e ∈ queue_of s k ∧ qe_idempotency e = Some key
       ∧ apply_enqueue_command s i a = (s, in_flight_answer a e)).
Proof.
  intros k Hr [Hcf Hs] Hkey Hreg Hret. pose proof (reachable_idem _ _ Hr) as Hwf.
  unfold apply_enqueue_command, cached_answer, in_flight_answer.
  unfold registered in Hreg; simpl in Hreg. rewrite Hreg; simpl.
  rewrite bool_decide_false by done. rewrite Hkey. fold k. split.
  - intros o Ho. split; [intros Hin%(iw_disjoint _ Hwf); congruence|].
    rewrite Ho. by destruct (bool_decide _), o.
  - intros Hin. rewrite (iw_disjoint _ Hwf) by done.
    destruct (in_flight_here s k key) as [e He]; auto. rewrite He.
    apply in_flight_Some in He as [? ?]. exists e. by destruct (bool_decide _).
Qed.

Definition demo_retry : QueueSubmission := demo_sub (Some (demo_key "a")) "r9" "b1".

Lemma demo_retry_in_flight : demo_key "a" ∈ keys_in_flight demo_state.
Proof.
  replace (keys_in_flight demo_state) with [demo_key "a"] by (by vm_compute). left.
Qed.

Lemma ns_dedup_witness :
  (apply_enqueue_command demo_state 9 demo_retry).2 = InFlight "db:main" 0
  ∧ ∃ e, e ∈ queue_of demo_state (mkRefKey (qs_ledger_id demo_retry) (qs_branch demo_retry))
      ∧ qe_idempotency e = Some (demo_key "a")
      ∧ apply_enqueue_command demo_state 9 demo_retry
        = (demo_state, in_flight_answer demo_retry e).
Proof.
  split; [by vm_compute|].
  refine (proj2 (ns_dedup demo_state 3 9 demo_retry (demo_key "a") demo_scoped _ _ _ _)
            demo_retry_in_flight).
  - split; [done|]. by intros ? [= <-].
  - done.
  - by vm_compute.
  - by vm_compute.
Defined.

(** ** Envelopes *)

(** C5: Every log entry balances the envelope blobs: those the state refers to
    afterwards, plus those handed out for release, are those it referred to
    before, plus the one of an accepted submission.  So no blob is leaked and
    none is released twice or while still referred to. *)
Theorem ns_envelope_conservation s n i e :
  reachable scoped s n → n < i < two64 → entry_ok scoped e →
  let '(s', r) := apply_entry s i e in
  live_envelopes s' ++ drain_releases r ≡ₚ live_envelopes s ++ accepted e r.
Proof.
  intros Hr Hi He. pose proof (reachable_idem _ _ Hr) as Hwf.
  destruct (entry_queue_step n i s e) as (ev & Hev & Hlab); [by eauto with fluree|].
  destruct (apply_entry s i e) as [s' r]; simpl in *.
  destruct ev as [|k e'| | | |].
  2:{ destruct e as [c| |]; [|done..]. destruct Hlab as (a & -> & -> & -> & ->).
      by rewrite (enqueue_envelopes _ _ _ _ _ _ Hev). }
  all: rewrite (queue_step_envelopes _ _ _ _ _ Hwf Hev) by done.
  all: assert (accepted e r = []) as ->; [|by rewrite app_nil_r].
  all: destruct e as [c| |]; try done; simpl in Hlab.
  - by destruct c, r.
  - destruct Hlab as (? & ? & ? & ->). by destruct c.
  - by destruct Hlab as [(? & ? & -> & _)|(? & ? & -> & _)].
  - destruct Hlab as [Hlab _]. unfold clears in Hlab. by destruct c.
  - by destruct Hlab as (? & -> & _).
Qed.

Lemma ns_envelope_conservation_witness :
  let '(s', r) := apply_entry demo_state 4 (Normal (ApplyHead (demo_head 0 "c1" 1))) in
  live_envelopes s' ++ drain_releases r
  ≡ₚ live_envelopes demo_state ++ accepted (Normal (ApplyHead (demo_head 0 "c1" 1))) r.
Proof.
  apply (ns_envelope_conservation demo_state 3 4 (Normal (ApplyHead (demo_head 0 "c1" 1))));
    [apply demo_scoped|done|done].
Defined.

(** ** Order *)

(** The ways a branch's queue changes in one log entry. *)
Inductive queue_evolves (k : RefKey) (e : LogEntry) (r : Response)
    : list QueueEntry → list QueueEntry → Prop :=
  | QESame q : queue_evolves k e r q q
  | QEPush q a x :
      e = Normal (EnqueueCommand a) → k = mkRefKey (qs_ledger_id a) (qs_branch a) →
      r = Enqueued (ref_key_ledger_id k) (qe_queue_id x) →
      qe_request_cid x = qs_request_cid a → qe_idempotency x = qs_idempotency a →
      Forall (λ y, qe_queue_id y < qe_queue_id x) q →
      queue_evolves k e r q (q ++ [x])
  | QEPop x q :
      (∃ a rel, e = Normal (ApplyHead a) ∧ sh_queue_id a = qe_queue_id x
         ∧ r = HeadApplied (ref_key_ledger_id k) (sh_commit_id a) (sh_commit_t a) rel)
      ∨ (∃ a rel, e = Normal (PoisonQueueEntry a) ∧ ep_queue_id a = qe_queue_id x
         ∧ r = Poisoned (ref_key_ledger_id k) (ep_queue_id a) (ep_reason a) rel) →
      queue_evolves k e r (x :: q) q
  | QEClear q c reason :
      e = Normal c → clears c k reason → drain_releases r = envelopes k q →
      queue_evolves k e r q [].

Lemma queue_of_ne s s' k k' q :
  queues s' = <[k := q]> (queues s) ∨ queues s' = delete k (queues s) → k' ≠ k →
  queue_of s' k' = queue_of s k'.
Proof.
  unfold queue_of.
  intros [->| ->] Hne; by rewrite ?lookup_insert_ne, ?lookup_delete_ne.
Qed.

(** C3: Queues are first in, first out and lose nothing: in one log entry the
    queue of a branch stays as it is, gains the accepted submission at its back
    under a fresh larger id, loses its front to the [ApplyHead] or
    [PoisonQueueEntry] that names the front's id, or is cleared as a whole by
    an admin command on that branch that releases every envelope of it. *)
Theorem ns_queue_fifo P s n i e k :
  reachable P s n → n < i < two64 →
  let '(s', r) := apply_entry s i e in
  queue_evolves k e r (queue_of s k) (queue_of s' k).
Proof.
  intros Hr Hi. pose proof (reachable_wf _ _ _ Hr) as Hwf.
  destruct (entry_queue_step n i s e Hwf) as (ev & Hev & Hlab).
  destruct (apply_entry s i e) as [s' r]; simpl in *.
  assert (queue_of s' k = queue_of s k → queue_evolves k e r (queue_of s k) (queue_of s' k))
    as Hsame by (intros ->; constructor).
  destruct ev as [|k' x|k'|k' x o|k' reason|ex mc].
  - apply Hsame. inversion Hev as [_ Hq| | | | |]. unfold queue_of. by rewrite Hq.
  - destruct (decide (k = k')) as [->|Hne].
    2:{ apply Hsame. inversion Hev; subst. by eapply queue_of_ne; [left|]. }
    destruct e as [c| |]; [|done..]. destruct Hlab as (a & -> & -> & -> & ->).
    inversion Hev; subst. unfold queue_of at 2; simpl. rewrite lookup_insert_eq; simpl.
    apply (QEPush _ _ _ _ a); auto. apply Forall_forall. intros y Hy.
    pose proof (wf_ids _ _ Hwf) as Hall. rewrite Forall_forall in Hall. apply Hall.
    unfold queue_of in Hy. destruct (queues s !! _) as [q|] eqn:Hq; [|by apply not_elem_of_nil in Hy].
    apply list_elem_of_fmap. eexists (_, y). split; [done|]. apply elem_of_flat; eauto.
  - apply Hsame. inversion Hev; by subst.
  - inversion Hev as [| | |? ? rest ? Hk _ Hq| |]; subst.
    destruct (decide (k = k')) as [->|Hne].
    2:{ apply Hsame. destruct rest as [|y rest]; [eapply (queue_of_ne _ _ k' _ [])|
          eapply (queue_of_ne _ _ k' _ (y :: rest))]; eauto. }
    assert (queue_of s' k' = rest) as ->.
    { unfold queue_of. rewrite Hq. by destruct rest; rewrite ?lookup_delete_eq, ?lookup_insert_eq. }
    rewrite (queue_of_Some _ _ _ Hk). apply QEPop.
    destruct e as [c| |]; [|done..]. destruct Hlab as
      [(a & rel' & -> & -> & ? & _ & ->)|(a & rel' & -> & -> & ? & _ & ->)]; eauto 10.
  - inversion Hev as [| | | |? ? ? Hq _ _ _ _ _ Hrel|]; subst.
    destruct (decide (k = k')) as [->|Hne]; [|apply Hsame; eapply (queue_of_ne _ _ k' _ []); eauto].
    assert (queue_of s' k' = []) as -> by (unfold queue_of; by rewrite Hq, lookup_delete_eq).
    destruct e as [c| |]; [|done..]. destruct Hlab. by eapply QEClear.
  - apply Hsame. inversion Hev as [| | | | |? ? ? Hq]; subst. unfold queue_of. by rewrite Hq.
Qed.

Lemma ns_queue_fifo_witness :
  let '(s', r) := apply_entry demo_state 4 (Normal (ApplyHead (demo_head 0 "c1" 1))) in
  queue_evolves (mkRefKey "db" "main") (Normal (ApplyHead (demo_head 0 "c1" 1))) r
    (queue_of demo_state (mkRefKey "db" "main")) (queue_of s' (mkRefKey "db" "main")).
Proof.
  apply (ns_queue_fifo (in_window 100) demo_state 3 4); [apply demo_reachable|done].
Defined.

(** ** The outcome of an [ApplyHead] *)

Lemma pop_front s k full x rest :
  recently_cleared s !! k = None → queues s !! k = Some (x :: rest) →
  pop_validated_front s k full (qe_queue_id x)
  = (set_queues s (<[k := rest]> (queues s)), inl x).
Proof. intros Hm Hq. unfold pop_validated_front. by rewrite Hm, Hq, Z.eqb_refl. Qed.

Lemma set_queues_back s k x rest :
  queues s !! k = Some (x :: rest) →
  set_queues (set_queues s (<[k := rest]> (queues s)))
    (<[k := x :: queue_of (set_queues s (<[k := rest]> (queues s))) k]> (<[k := rest]> (queues s)))
  = s.
Proof.
  intros Hq. destruct s; unfold set_queues, queue_of; simpl in *.
  rewrite lookup_insert_eq, insert_insert_eq; simpl. by rewrite insert_id.
Qed.

(** What a consumed front leaves: the rest of the queue, and the outcome in the
    cache when the entry is keyed. *)
Definition retired s s' (k : RefKey) (x : QueueEntry) (rest : list QueueEntry)
    (o : ApplyOutcome) : Prop :=
  queue_of s' k = rest
  ∧ match qe_idempotency x with
    | Some key => idempotency s' !! key = Some o
    | None => idempotency s' = idempotency s
    end.

Lemma retire_entry_result s s1 k x rest o :
  queues s1 = match rest with [] => delete k (queues s) | _ => <[k := rest]> (queues s) end →
  idempotency s1 = idempotency s →
  let '(s', rel) := retire_entry s1 x o in refs s' = refs s1 ∧ retired s s' k x rest o.
Proof.
  intros Hq Hc. unfold retire_entry, retired, queue_of.
  destruct (qe_idempotency x); simpl; rewrite Hq; repeat split; auto using lookup_insert_eq;
    by destruct rest; rewrite ?lookup_delete_eq, ?lookup_insert_eq.
Qed.

(** What an [ApplyHead] does to a branch whose queue has front [x]: a
    worker that names another entry, or stages a commit at or below the current
    [t], changes nothing and learns why; one that republishes the current head
    retires [x] and leaves the refs alone; any other retires [x] and installs
    the commit as the branch's head.  A keyed [x] leaves its outcome in the
    cache. *)
Theorem ns_apply_head_outcome P s n i a x rest :
  let k := mkRefKey (sh_ledger_id a) (sh_branch a) in
  let full := format_ledger_id (sh_ledger_id a) (sh_branch a) in
  reachable P s n → n < i < two64 → queues s !! k = Some (x :: rest) →
  let '(s', r) := apply_head s i a in
  let done := retired s s' k x rest (applied_outcome i x a)
    ∧ ∃ rel, r = HeadApplied full (sh_commit_id a) (sh_commit_t a) rel in
  if decide (sh_queue_id a = qe_queue_id x) then
    match check_head s k (sh_commit_id a) (sh_commit_t a) with
    | HeadStale t => s' = s
        ∧ r = QueueDesync full (sh_queue_id a) (HeadNotMonotonic t (sh_commit_t a))
    | HeadNoop => refs s' = refs s ∧ done
    | HeadAdvances =>
        refs s' = <[k := advanced_entry (refs s !! k) (sh_commit_id a) (sh_commit_t a)
                           (sh_applied_at_millis a) i]> (refs s) ∧ done
    end
  else s' = s ∧ r = QueueDesync full (sh_queue_id a) (WrongFront (qe_queue_id x)).
Proof.
  intros k full Hr Hi Hq. pose proof (reachable_wf _ _ _ Hr) as Hwf.
  destruct (wf_live _ _ Hwf _ _ Hq) as (_ & Hreg & Hret & Hm).
  unfold apply_head. fold k full. rewrite bool_decide_false by done.
  case_decide as Hid.
  2:{ unfold pop_validated_front. rewrite Hm, Hq.
      rewrite (proj2 (Z.eqb_neq _ _)) by done. done. }
  rewrite Hid, (pop_front s k full x rest Hm Hq).
  rewrite (drop_queue_if_empty_popped s k x rest Hq); cbv zeta.
  change (check_head (set_queues s _)) with (check_head s).
  destruct (check_head s k _ _).
  - match goal with |- context [retire_entry ?s3 x ?o] =>
      pose proof (retire_entry_result s s3 k x rest o eq_refl eq_refl) as H end.
    destruct (retire_entry _ _ _). destruct H as [-> ?]. eauto.
  - match goal with |- context [retire_entry ?s3 x ?o] =>
      pose proof (retire_entry_result s s3 k x rest o eq_refl eq_refl) as H end.
    destruct (retire_entry _ _ _). destruct H as [-> ?]. eauto.
  - split; [by apply set_queues_back|done].
Qed.

Lemma ns_apply_head_outcome_witness :
  (apply_head demo_state 4 (demo_head 0 "c1" 1)).2 = HeadApplied "db:main" (mkCid "c1") 1 None
  ∧ (let '(s', r) := apply_head demo_state2 5 (demo_head 1 "c0" 1) in
     s' = demo_state2 ∧ r = QueueDesync "db:main" 1 (HeadNotMonotonic 1 1)).
Proof.
  assert (check_head demo_state2 (mkRefKey "db" "main") (mkCid "c0") 1 = HeadStale 1) as Hc
    by (by vm_compute).
  split; [by vm_compute|].
  assert (queues demo_state2 !! mkRefKey "db" "main"
    = Some [mkQueueEntry 1 3 100 None (mkCid "r2") (mkCid "b2") Sparql]) as Hq by (by vm_compute).
  pose proof (ns_apply_head_outcome (in_window 100) demo_state2 4 5 (demo_head 1 "c0" 1)
    (mkQueueEntry 1 3 100 None (mkCid "r2") (mkCid "b2") Sparql) []) as H.
  cbv zeta in H. cbn [sh_ledger_id sh_branch sh_commit_id sh_commit_t sh_queue_id demo_head] in H.
  specialize (H demo_reachable2 (conj eq_refl eq_refl) Hq).
  destruct (apply_head demo_state2 5 (demo_head 1 "c0" 1)) as [s' r].
  rewrite decide_True, Hc in H by reflexivity. exact H.
Defined.

(** ** Draining *)

(** The log that poisons the entries of a queue in order. *)
Fixpoint poison_log (k : RefKey) (q : list QueueEntry) (reason : PoisonReason) (millis i : Z)
    : list (Z * LogEntry) :=
  match q with
  | [] => []
  | x :: q =>
      (i + 1, Normal (PoisonQueueEntry
                (mkPoisoning (rk_ledger_name k) (rk_branch k) (qe_queue_id x) reason millis)))
      :: poison_log k q reason millis (i + 1)
  end.

Lemma poison_front n s i a x rest :
  let k := mkRefKey (ep_ledger_id a) (ep_branch a) in
  wf n s → queues s !! k = Some (x :: rest) → ep_queue_id a = qe_queue_id x →
  queue_of (apply_poison_queue_entry s i a).1 k = rest.
Proof.
  intros k Hwf Hq Hid. destruct (wf_live _ _ Hwf _ _ Hq) as (_ & _ & _ & Hm).
  unfold apply_poison_queue_entry. fold k. rewrite Hid, (pop_front s k _ x rest Hm Hq).
  rewrite (drop_queue_if_empty_popped s k x rest Hq).
  match goal with |- context [retire_entry ?s3 x ?o] =>
    pose proof (retire_entry_result s s3 k x rest o eq_refl eq_refl) as H end.
  destruct (retire_entry _ _ _). by destruct H as [_ [? _]].
Qed.

(** No queue is stuck: from every reachable state, poisoning the entries of
    a branch's queue in order, one log entry each, empties it. *)
Theorem ns_queue_drains s n k reason millis :
  reachable scoped s n → n + Z.of_nat (length (queue_of s k)) < two64 →
  let log := poison_log k (queue_of s k) reason millis n in
  queue_of (run s log).1 k = [] ∧ length log = length (queue_of s k).
Proof.
  intros Hr Hlen. remember (queue_of s k) as q eqn:Hq. symmetry in Hq. revert s n Hr Hlen Hq.
  induction q as [|x q IH]; intros s n Hr Hlen Hq; simpl; [by rewrite Hq|].
  assert (queues s !! k = Some (x :: q)) as Hk.
  { unfold queue_of in Hq. by destruct (queues s !! k); simpl in Hq; subst. }
  simpl in Hlen. pose proof (reachable_index _ _ _ Hr).
  set (a := mkPoisoning _ _ _ _ _).
  assert (Hr1 : reachable scoped (apply_poison_queue_entry s (n + 1) a).1 (n + 1)).
  { apply (reach_entry scoped s n (n + 1) (Normal (PoisonQueueEntry a))); [done|lia|done]. }
  assert (queue_of (apply_poison_queue_entry s (n + 1) a).1 k = q) as Hq1.
  { destruct k. eapply poison_front; eauto with fluree. }
  destruct (apply_poison_queue_entry s (n + 1) a) as [s1 r]; simpl in *.
  destruct (IH s1 (n + 1) Hr1 ltac:(lia) Hq1) as [IH1 IH2].
  destruct (run s1 _); simpl in *. split; [done|by f_equal].
Qed.

Lemma ns_queue_drains_witness :
  queue_of (run demo_state
    (poison_log (mkRefKey "db" "main") (queue_of demo_state (mkRefKey "db" "main"))
       (WorkerPanic "x") 5 3)).1 (mkRefKey "db" "main") = []
  ∧ length (poison_log (mkRefKey "db" "main") (queue_of demo_state (mkRefKey "db" "main"))
       (WorkerPanic "x") 5 3) = length (queue_of demo_state (mkRefKey "db" "main")).
Proof.
  apply (ns_queue_drains demo_state 3 (mkRefKey "db" "main") (WorkerPanic "x") 5);
    [apply demo_scoped|by vm_compute].
Defined.

(** * Eviction of the idempotency cache

    Replicas iterate the cache's [HashMap] in different orders; the sweep must
    still remove the same records on all of them, oldest first and at most one
    batch at a time. *)

Import LedgerId.


#[local] Abbreviation candidate_le := (by_key (lex_le Z.le Z.le) (@fst (Z * Z) IdempotencyCacheKey)).

Lemma lex_le_antisym (x y : Z * Z) : lex_le Z.le Z.le x y → lex_le Z.le Z.le y x → x = y.
Proof. destruct x, y; unfold lex_le; simpl. intros. f_equal; lia. Qed.

(** The candidates of a sweep are the cache's records older than the cutoff. *)
Lemma elem_of_candidates c m at_ idx key :
  (at_, idx, key) ∈ expired_candidates c (map_to_list m) ↔
  ∃ o, m !! key = Some o ∧ at_ = outcome_recorded_at_millis o
    ∧ idx = outcome_recorded_index o ∧ at_ < c.
Proof.
  unfold expired_candidates. rewrite list_elem_of_omap. split.
  - intros ([key' o] & Hin%elem_of_map_to_list & Hx). simpl in Hx.
    destruct (_ <? _) eqn:E; simplify_eq. reflect_bools. eauto.
  - intros (o & Ho & -> & -> & Hlt). exists (key, o). split; [by apply elem_of_map_to_list|].
    simpl. by rewrite (proj2 (Z.ltb_lt _ _) Hlt).
Qed.

(** Candidates with the same sort key are the same candidate: an index of the
    log records at most one outcome. *)
Lemma candidates_antisym n s c x y :
  wf n s →
  x ∈ expired_candidates c (map_to_list (idempotency s)) →
  y ∈ expired_candidates c (map_to_list (idempotency s)) →
  candidate_le x y → candidate_le y x → x = y.
Proof.
  destruct x as [[at1 i1] key1], y as [[at2 i2] key2].
  intros Hwf (o1 & H1 & -> & -> & _)%elem_of_candidates (o2 & H2 & -> & -> & _)%elem_of_candidates.
  intros Hxy Hyx. pose proof (lex_le_antisym _ _ Hxy Hyx) as E. simpl in E. simplify_eq.
  assert (key1 = key2) as -> by by eapply (wf_recorded_inj _ _ Hwf). congruence.
Qed.

Lemma eviction_batch_order n s c entries :
  wf n s → entries ≡ₚ map_to_list (idempotency s) →
  eviction_batch c entries = eviction_batch c (map_to_list (idempotency s)).
Proof.
  intros Hwf Hp. unfold eviction_batch. f_equal. symmetry. apply (sort_by_unique candidate_le).
  - intros x y Hx Hy. by apply (candidates_antisym n s c).
  - unfold expired_candidates. by rewrite Hp.
Qed.

(** Eviction is deterministic across replicas: whatever order the cache's
    [HashMap] is iterated in, a reachable state and its sweep give the same
    state, the same count and the same envelopes in the same order. *)
Theorem ns_evict_deterministic P s n cutoff marker_cutoff entries :
  reachable P s n → entries ≡ₚ map_to_list (idempotency s) →
  evict_in_order s cutoff marker_cutoff entries
  = apply_evict_idempotency s cutoff marker_cutoff.
Proof.
  intros Hr Hp. unfold apply_evict_idempotency, evict_in_order.
  by rewrite (eviction_batch_order n s cutoff entries (reachable_wf _ _ _ Hr) Hp).
Qed.

Lemma ns_evict_deterministic_witness :
  evict_in_order demo_state2 1000 0 (reverse (map_to_list (idempotency demo_state2)))
  = apply_evict_idempotency demo_state2 1000 0.
Proof.
  apply (ns_evict_deterministic (in_window 100) demo_state2 4);
    [apply demo_reachable2|apply reverse_Permutation].
Defined.

(** ** Order and bound *)

Definition expired_in s (c : Z) : gmap IdempotencyCacheKey ApplyOutcome :=
  filter (λ x, outcome_recorded_at_millis x.2 < c) (idempotency s).

Lemma candidates_keys c l :
  (expired_candidates c l).*2
  = (filter (λ x : IdempotencyCacheKey * ApplyOutcome, outcome_recorded_at_millis x.2 < c) l).*1.
Proof.
  induction l as [|[key o] l IH]; [done|]. rewrite filter_cons. simpl.
  destruct (Z.ltb_spec (outcome_recorded_at_millis o) c); case_decide; simpl in *; try lia; [|done].
  by f_equal.
Qed.

Lemma candidates_perm s c :
  (expired_candidates c (map_to_list (idempotency s))).*2 ≡ₚ (map_to_list (expired_in s c)).*1.
Proof.
  rewrite candidates_keys. unfold expired_in. f_equiv. apply NoDup_Permutation.
  - apply NoDup_filter, NoDup_map_to_list.
  - apply NoDup_map_to_list.
  - intros [key o]. rewrite list_elem_of_filter, !elem_of_map_to_list, map_lookup_filter_Some.
    naive_solver.
Qed.

Lemma batch_keys_NoDup s c : NoDup (eviction_batch c (map_to_list (idempotency s))).*2.
Proof.
  unfold eviction_batch. rewrite fmap_take. eapply sublist_NoDup; [|apply sublist_take].
  rewrite sort_by_Permutation, candidates_perm. apply NoDup_fst_map_to_list.
Qed.

(** The loop over distinct cached keys releases one envelope per key. *)
Lemma evict_loop_length cache ex :
  NoDup ex.*2 → (∀ key, key ∈ ex.*2 → is_Some (cache !! key)) →
  length (evict_loop cache ex).2 = length ex.
Proof.
  revert cache. induction ex as [|[x key] ex IH]; intros cache; [done|].
  rewrite fmap_cons; simpl. intros [Hnot Hnd]%NoDup_cons Hsome.
  specialize (IH (delete key cache) Hnd).
  destruct (Hsome key) as [o Ho]; [left|]. rewrite Ho.
  destruct (evict_loop _ _) as [c out]; simpl in *. f_equal. apply IH.
  intros key' Hin. rewrite lookup_delete_ne by (intros ->; done). apply Hsome. by right.
Qed.

Lemma evict_take_split {A} m (l : list A) x y :
  x ∈ take m l → y ∈ l → y ∉ take m l → ∃ l1 l2, l = l1 ++ l2 ∧ x ∈ l1 ∧ y ∈ l2.
Proof.
  intros Hx Hy Hny. exists (take m l), (drop m l). rewrite take_drop. split; [done|].
  split; [done|]. rewrite <- (take_drop m l) in Hy. set_solver.
Qed.

(** A candidate left behind by the batch is younger than every one taken. *)
Lemma batch_oldest n s c x y :
  wf n s → x ∈ eviction_batch c (map_to_list (idempotency s)) →
  y ∈ expired_candidates c (map_to_list (idempotency s)) →
  y ∉ eviction_batch c (map_to_list (idempotency s)) →
  lex_le Z.le Z.le x.1 y.1 ∧ x.1 ≠ y.1.
Proof.
  intros Hwf Hx Hy Hny. pose proof (elem_of_take_sub _ _ _ Hx) as Hx'.
  rewrite elem_of_sort_by in Hx'. rewrite <- (elem_of_sort_by candidate_le) in Hy.
  destruct (evict_take_split _ _ _ _ Hx Hy Hny) as (l1 & l2 & E & H1 & H2).
  pose proof (sort_by_StronglySorted candidate_le
    (expired_candidates c (map_to_list (idempotency s)))) as Hsorted.
  rewrite E in Hsorted. pose proof (StronglySorted_app_1_elem_of _ _ _ _ _ Hsorted H1 H2) as Hle.
  split; [done|]. intros Heq. apply Hny.
  replace y with x; [done|]. apply (candidates_antisym n s c); auto.
  - by rewrite elem_of_sort_by in Hy.
  - unfold by_key in *. by rewrite Heq in Hle |- *.
Qed.

(** A sweep removes the oldest expired outcomes, one batch at most: it
    removes exactly [min 1024 (number expired)] records, each recorded before
    the cutoff; every record it leaves is unchanged, and an expired one it
    leaves is strictly younger, by time and then log index, than every one
    removed.  It releases one envelope per record removed. *)
Theorem ns_evict_oldest_first P s n cutoff marker_cutoff :
  reachable P s n →
  let '(s', r) := apply_evict_idempotency s cutoff marker_cutoff in
  ∃ gone rel, NoDup gone
    ∧ r = EvictionApplied (Z.of_nat (length gone)) rel ∧ length rel = length gone
    ∧ length gone = Nat.min EVICT_BATCH_SIZE (size (expired_in s cutoff))
    ∧ (∀ key, idempotency s' !! key = if decide (key ∈ gone) then None else idempotency s !! key)
    ∧ ∀ key, key ∈ gone → ∃ o, idempotency s !! key = Some o
        ∧ outcome_recorded_at_millis o < cutoff
        ∧ ∀ key' o', idempotency s' !! key' = Some o' → outcome_recorded_at_millis o' < cutoff →
            let x := (outcome_recorded_at_millis o, outcome_recorded_index o) in
            let y := (outcome_recorded_at_millis o', outcome_recorded_index o') in
            lex_le Z.le Z.le x y ∧ x ≠ y.
Proof.
  intros Hr. pose proof (reachable_wf _ _ _ Hr) as Hwf.
  unfold apply_evict_idempotency, evict_in_order.
  set (batch := eviction_batch cutoff (map_to_list (idempotency s))).
  pose proof (evict_loop_lookup (idempotency s) batch) as Hlook.
  pose proof (evict_loop_length (idempotency s) batch (batch_keys_NoDup s cutoff)) as Hlen.
  destruct (evict_loop _ _) as [cache rel]; simpl in *.
  assert (∀ x, x ∈ batch → ∃ o, idempotency s !! x.2 = Some o
    ∧ outcome_recorded_at_millis o < cutoff
    ∧ x.1 = (outcome_recorded_at_millis o, outcome_recorded_index o)) as Hb.
  { intros x. apply eviction_batch_cutoff. }
  exists (batch.*2), rel. rewrite length_fmap. split; [apply batch_keys_NoDup|].
  split; [done|]. split.
  { apply Hlen. intros key (x & -> & (o & Ho & _)%Hb)%list_elem_of_fmap. by exists o. }
  split.
  { unfold batch, eviction_batch. rewrite length_take. f_equal.
    rewrite (Permutation_length (sort_by_Permutation candidate_le _)).
    rewrite <- (length_fmap snd), (Permutation_length (candidates_perm s cutoff)).
    by rewrite length_fmap, length_map_to_list. }
  split; [done|].
  intros key (x & -> & Hx)%list_elem_of_fmap. destruct (Hb x Hx) as (o & Ho & Hlt & Ex).
  exists o. split; [done|]. split; [done|]. intros key' o' Ho' Hlt'.
  rewrite Hlook in Ho'. case_decide as Hin; [done|]. rewrite <- Ex.
  apply (batch_oldest n s cutoff x
    (outcome_recorded_at_millis o', outcome_recorded_index o', key')); auto.
  - apply elem_of_candidates. eauto.
  - intros Hin'. apply Hin, list_elem_of_fmap. by eexists (_, key').
Qed.

Lemma ns_evict_oldest_first_witness :
  (apply_evict_idempotency demo_state2 1000 0).2
    = EvictionApplied 1 [("db:main", mkCid "r1")]
  ∧ let '(s', r) := apply_evict_idempotency demo_state2 1000 0 in
    ∃ (gone : list IdempotencyCacheKey) rel,
      NoDup gone ∧ r = EvictionApplied (Z.of_nat (length gone)) rel ∧ length rel = length gone.
Proof.
  split; [by vm_compute|].
  pose proof (ns_evict_oldest_first (in_window 100) demo_state2 4 1000 0 demo_reachable2) as H.
  destruct (apply_evict_idempotency _ _ _).
  destruct H as (gone & rel & ? & ? & ? & _). exists gone, rel. auto.
Defined.
