(* ===== verification/NsRefs.v ===== *)
(** * The replicated nameservice: what one command does to the refs

    [refs_step] is the abstract transition relation of the ref table, the
    counterpart of [queue_step]: a ref is updated in place, born, forked off
    another branch, removed with its branch, or reset to unborn.
    [entry_refs_step] shows every log entry is one of these.  The catalog
    invariant (every ref belongs to a registered branch, branch lists have no
    duplicates and are never empty) follows. *)

From S2P Require Import Prelude LedgerId NsTypes NsApply NsStep NsInvariant.
Import LedgerId.

Implicit Types (s : NameServiceState).

(** ** The transition relation *)

Definition grows s s' : Prop := ∀ k, registered s k → registered s' k.

(** The index state after an index write: never past the commit [t], never
    backwards, and erased only by a compare-and-set to no id. *)
Definition index_ok (c : Command) (t : Z) (old new : option IndexState) : Prop :=
  match new with
  | Some x => ix_t x <= t ∧ ∀ y, old = Some y → ix_t y <= ix_t x
  | None => ∃ a, c = CompareAndSetRef a ∧ rc_kind a = IndexHead ∧ rv_id (rc_new a) = None
  end.

Definition reset_index (snap : ResetHeadSnapshot) : option IndexState :=
  (λ head, mkIndexState head (rs_index_t snap)) <$> rs_index_head_id snap.

Inductive update_ok (c : Command) (k : RefKey) (r r' : RefEntry) : Prop :=
  | UAdvance : re_t r < re_t r' → re_index r' = re_index r → update_ok c k r r'
  | UIndex :
      re_head r' = re_head r → re_t r' = re_t r →
      index_ok c (re_t r) (re_index r) (re_index r') → update_ok c k r r'
  | UReset snap millis :
      c = ResetHead (rk_ledger_name k) (rk_branch k) snap millis →
      re_t r' = rs_commit_t snap → re_index r' = reset_index snap → update_ok c k r r'.

(** The table after [decrement_child_count] of [n]'s branch [source], if any. *)
Definition decrement (rs : gmap RefKey RefEntry) (n : string) (source : option string)
    : gmap RefKey RefEntry :=
  match source with
  | Some p =>
      match rs !! mkRefKey n p with
      | Some r =>
          <[mkRefKey n p := with_branches r (u32_saturating_sub (re_branches r) 1)]> rs
      | None => rs
      end
  | None => rs
  end.

Definition removes (c : Command) (k : RefKey) : Prop :=
  match c with
  | DropBranch n b _ | PurgeBranch n b _ => k = mkRefKey n b
  | _ => False
  end.

Inductive refs_step (i : Z) s s' (c : Command) : Prop :=
  | RSame : refs s' = refs s → grows s s' → refs_step i s s' c
  | RUpdate k r r' :
      refs s !! k = Some r → refs s' = <[k := r']> (refs s) → k ∉ retracted s →
      re_source_branch r' = re_source_branch r → re_branches r' = re_branches r →
      update_ok c k r r' → grows s s' → refs_step i s s' c
  | RBirth k r' :
      refs s !! k = None → refs s' = <[k := r']> (refs s) → k ∉ retracted s →
      registered s k → re_source_branch r' = None → re_branches r' = 0 →
      (re_index r' = None
       ∨ ∃ snap millis, c = ResetHead (rk_ledger_name k) (rk_branch k) snap millis
           ∧ re_t r' = rs_commit_t snap ∧ re_index r' = reset_index snap) →
      grows s s' → refs_step i s s' c
  | RFork n b p r r' :
      ¬ registered s (mkRefKey n b) → registered s' (mkRefKey n b) → grows s s' →
      refs s !! mkRefKey n p = Some r →
      refs s' = <[mkRefKey n b := r']>
        (<[mkRefKey n p := with_branches r (u32_saturating_add (re_branches r) 1)]> (refs s)) →
      re_index r' = None → re_source_branch r' = Some p → re_branches r' = 0 →
      refs_step i s s' c
  | RRemove k :
      removes c k → (∀ r, refs s !! k = Some r → re_branches r <= 0) →
      refs s' = decrement (delete k (refs s)) (rk_ledger_name k)
                  (refs s !! k ≫= re_source_branch) →
      (∀ k', registered s' k' ↔ registered s k' ∧ k' ≠ k) → refs_step i s s' c
  | RUnborn k snap millis :
      c = ResetHead (rk_ledger_name k) (rk_branch k) snap millis →
      rs_commit_head_id snap = None → k ∉ retracted s →
      refs s' = delete k (refs s) → grows s s' → refs_step i s s' c.

(** ** Each handler is a transition *)

Lemma grows_frame s s' : ledgers s' = ledgers s → grows s s'.
Proof. intros H k. unfold registered. by rewrite H. Qed.
#[export] Hint Resolve grows_frame : fluree.

Lemma refs_same i s s' c : refs s' = refs s → ledgers s' = ledgers s → refs_step i s s' c.
Proof. intros. apply RSame; auto with fluree. Qed.

(** The queue-side transition already says what happens to registrations. *)
Lemma quiet_grows i s s' : queue_step i s s' [] EvQuiet → grows s s'.
Proof. inversion 1; subst; done. Qed.

Lemma set_index_head_refs i s a f c :
  (∀ x y, f x y = false → x <= y) → refs_step i s (set_index_head s a f).1 c.
Proof.
  intros Hf. unfold set_index_head.
  destruct (ledgers s !! _); [|by apply refs_same].
  case_bool_decide; [by apply refs_same|].
  destruct (refs s !! _) as [r|] eqn:Hr; [|by apply refs_same].
  assert (∀ y, re_index r = Some y → f (ix_t y) (ni_t a) = false ∨ f (ix_t y) (ni_t a) = true)
    by (intros; destruct (f _ _); auto).
  destruct (re_index r) as [x|] eqn:Hx; [destruct (f (ix_t x) (ni_t a)) eqn:Hs|];
    try by apply refs_same.
  all: destruct (_ <? _) eqn:Ht; [by apply refs_same|reflect_bools].
  all: eapply RUpdate; eauto with fluree; simpl; eauto.
  all: apply UIndex; simpl; rewrite ?Hx; auto.
  all: split; [done|]; intros y; simplify_eq; try done; intros [= <-]; auto.
Qed.

Lemma compare_and_set_refs i s a :
  refs_step i s (apply_compare_and_set_ref s i a).1 (CompareAndSetRef a).
Proof.
  unfold apply_compare_and_set_ref, current_ref_value.
  set (k := mkRefKey (rc_ledger_id a) (rc_branch a)).
  destruct (ledger_known _ _ _) eqn:Hk; simpl; [|by apply refs_same].
  case_bool_decide as Hret; [by apply refs_same|].
  destruct (negb _); [by apply refs_same|].
  destruct (rc_kind a) eqn:Hkind; simpl.
  - destruct (negb _) eqn:Hmono; [by apply refs_same|]. reflect_bools.
    destruct (refs s !! k) as [r|] eqn:Hr; simpl in *;
      (destruct (rv_id (rc_new a)) as [h|]; [|by apply refs_same]).
    + eapply (RUpdate _ _ _ _ k r); eauto with fluree. by apply UAdvance.
    + eapply (RBirth _ _ _ _ k); eauto with fluree.
  - destruct (negb _) eqn:Hmono; [by apply refs_same|]. reflect_bools.
    destruct (refs s !! k) as [r|] eqn:Hr; simpl in *; [|by apply refs_same].
    destruct (_ <? _) eqn:Ht; [by apply refs_same|reflect_bools].
    eapply (RUpdate _ _ _ _ k r); eauto with fluree.
    apply UIndex; simpl; try done. destruct (rv_id (rc_new a)) as [h|] eqn:Hid; simpl.
    + split; [done|]. intros y Hy. by rewrite Hy in Hmono.
    + by exists a.
Qed.

Lemma create_branch_refs i s a : refs_step i s (create_branch s i a).1 (CreateBranch a).
Proof.
  pose proof (create_branch_quiet i s a) as [Hgrow%quiet_grows _]. unfold create_branch in *.
  destruct (ledgers s !! _) as [l|] eqn:Hl; [|by apply refs_same].
  case_bool_decide as Hb; [by apply refs_same|].
  destruct (refs s !! _) as [r|] eqn:Hr; [|by apply refs_same].
  destruct (default _ _) as [h t].
  eapply (RFork _ _ _ _ (nb_ledger_id a) (nb_branch a) (nb_source_branch a) r); simpl; auto.
  - unfold registered; simpl. intros (l' & ? & ?)%ledger_known_Some. naive_solver.
  - unfold registered; simpl. apply ledger_known_push; [by left|]. by left.
Qed.

Lemma clear_queue_refs i s s1 k reason millis c :
  refs_step i s s1 c →
  refs_step i s (clear_queue_for_admin s1 k reason millis).1 c.
Proof.
  pose proof (clear_queue_for_admin_spec s1 k reason millis) as H.
  destruct (clear_queue_for_admin _ _ _ _) as [s' rel]; simpl in *.
  destruct H as (_ & _ & _ & _ & _ & _ & Hret & Hl & Hrefs).
  assert (∀ k', registered s' k' ↔ registered s1 k') as Hreg
    by (intros; unfold registered; by rewrite Hl).
  destruct 1; rewrite <- ?Hrefs in *.
  - apply RSame; [done|]. intros k'. rewrite Hreg. auto.
  - eapply RUpdate; eauto. intros k'. rewrite Hreg. auto.
  - eapply RBirth; eauto. intros k'. rewrite Hreg. auto.
  - eapply RFork; eauto; [by apply Hreg|]. intros k'. rewrite Hreg. auto.
  - eapply RRemove; eauto. intros k'. rewrite Hreg. auto.
  - eapply RUnborn; eauto. intros k'. rewrite Hreg. auto.
Qed.

Lemma decrement_child_count_refs s n p :
  refs (decrement_child_count s n p).1 = decrement (refs s) n (Some p)
  ∧ ledgers (decrement_child_count s n p).1 = ledgers s.
Proof. unfold decrement_child_count, decrement. by destruct (refs s !! _). Qed.

Lemma unregister_refs i s n b c :
  removes c (mkRefKey n b) →
  (∀ r, refs s !! mkRefKey n b = Some r → re_branches r <= 0) →
  refs_step i s (unregister_dec s n b (refs s !! mkRefKey n b ≫= re_source_branch)) c.
Proof.
  intros Hc Hg. apply (RRemove _ _ _ _ (mkRefKey n b)); auto.
  - unfold unregister_dec. destruct (refs s !! mkRefKey n b ≫= _) as [p|] eqn:Hp; simpl; [|done].
    by destruct (decrement_child_count_refs (unregister s n b) n p) as [-> _].
  - assert (ledgers (unregister_dec s n b (refs s !! mkRefKey n b ≫= re_source_branch))
            = remove_branch (ledgers s) n b) as Hl.
    { unfold unregister_dec. destruct (_ ≫= _) as [p|]; [|done].
      by destruct (decrement_child_count_refs (unregister s n b) n p) as [_ ->]. }
    intros [n' b']. unfold registered. rewrite Hl, ledger_known_remove. naive_solver.
Qed.

(** The guard of [purge_branch] and [drop_branch]. *)
Lemma children_guard s k :
  (0 <? match refs s !! k with Some e => re_branches e | None => 0 end) = false →
  ∀ r, refs s !! k = Some r → re_branches r <= 0.
Proof. intros H r Hr. rewrite Hr in H. by reflect_bools. Qed.

Lemma purge_branch_refs i s n b millis :
  refs_step i s (purge_branch s n b millis).1 (PurgeBranch n b millis).
Proof.
  unfold purge_branch. destruct (0 <? _) eqn:Hg; [by apply refs_same|].
  pose proof (clear_queue_refs i s _ (mkRefKey n b) ClearBranchPurged millis _
    (unregister_refs i s n b (PurgeBranch n b millis) eq_refl (children_guard _ _ Hg))) as H.
  unfold unregister_dec, unregister in H.
  destruct (clear_queue_for_admin _ _ _ _). by destruct (_ || _).
Qed.

Lemma drop_branch_refs i s n b millis :
  refs_step i s (drop_branch s n b millis).1 (DropBranch n b millis).
Proof.
  unfold drop_branch. destruct (ledger_known _ _ _); simpl; [|by apply refs_same].
  destruct (0 <? _) eqn:Hg; [by apply refs_same|].
  pose proof (clear_queue_refs i s _ (mkRefKey n b) ClearBranchDropped millis _
    (unregister_refs i s n b (DropBranch n b millis) eq_refl (children_guard _ _ Hg))) as H.
  unfold unregister_dec, unregister in H. simpl in H. destruct (_ ≫= _).
  - destruct (decrement_child_count _ _ _) as [s4 c]; simpl in H.
    by destruct (clear_queue_for_admin _ _ _ _).
  - by destruct (clear_queue_for_admin _ _ _ _).
Qed.

Lemma reset_head_refs i s n b snap millis :
  refs_step i s (reset_head s n b snap millis).1 (ResetHead n b snap millis).
Proof.
  unfold reset_head. destruct (ledger_known _ _ _) eqn:Hk; simpl; [|by apply refs_same].
  case_bool_decide; [by apply refs_same|].
  assert (∀ rs, refs_step i s (set_refs s rs) (ResetHead n b snap millis) →
    refs_step i s (let '(s2, rel) := clear_queue_for_admin (set_refs s rs) (mkRefKey n b)
                     ClearBranchHeadReset millis in
                   (s2, HeadReset (format_ledger_id n b) rel)).1 (ResetHead n b snap millis))
    as Hclear.
  { intros rs Hrs. pose proof (clear_queue_refs i s _ (mkRefKey n b) ClearBranchHeadReset
                                 millis _ Hrs) as H'.
    by destruct (clear_queue_for_admin _ _ _ _). }
  destruct (rs_commit_head_id snap) as [h|] eqn:Hh.
  - destruct (refs s !! mkRefKey n b) as [r|] eqn:Hr; apply Hclear.
    + eapply (RUpdate _ _ _ _ (mkRefKey n b) r); simpl; eauto with fluree.
      by apply (UReset _ _ _ _ snap millis).
    + eapply (RBirth _ _ _ _ (mkRefKey n b)); simpl; eauto 10 with fluree.
  - apply Hclear. by apply (RUnborn _ _ _ _ (mkRefKey n b) snap millis); auto with fluree.
Qed.

Lemma retract_ledger_refs i s n b millis c : refs_step i s (retract_ledger s n b millis).1 c.
Proof.
  unfold retract_ledger. destruct (ledger_known _ _ _); simpl; [|by apply refs_same].
  case_bool_decide; [by apply refs_same|].
  pose proof (clear_queue_refs i s (set_retracted s ({[mkRefKey n b]} ∪ retracted s))
    (mkRefKey n b) ClearBranchRetracted millis c) as H'.
  destruct (clear_queue_for_admin _ _ _ _). apply H'. by apply refs_same.
Qed.

Lemma retire_entry_frame s e o :
  refs (retire_entry s e o).1 = refs s ∧ ledgers (retire_entry s e o).1 = ledgers s
  ∧ retracted (retire_entry s e o).1 = retracted s.
Proof. unfold retire_entry. by destruct (qe_idempotency e). Qed.

Lemma pop_failed_refs i s k full q s' r c :
  pop_validated_front s k full q = (s', inr r) → refs_step i s s' c.
Proof.
  intros E. pose proof (pop_validated_front_cases s k full q) as Hp. rewrite E in Hp.
  destruct Hp as [[-> ?]|(Hm & -> & _)]; by apply refs_same.
Qed.

(** The end of [apply_head], over a table [rs]. *)
Lemma finish_head_refs i s s3 a e c :
  (∀ s', refs s' = refs s3 → ledgers s' = ledgers s → refs_step i s s' c) →
  ledgers s3 = ledgers s → registered s (mkRefKey (sh_ledger_id a) (sh_branch a)) →
  refs_step i s
    (let '(s5, rel) := retire_entry
       (set_ledgers s3 (heal_branch (ledgers s3) (sh_ledger_id a) (sh_branch a))) e
       (applied_outcome i e a) in
     (s5, HeadApplied (format_ledger_id (sh_ledger_id a) (sh_branch a)) (sh_commit_id a)
            (sh_commit_t a) rel)).1 c.
Proof.
  intros Hc Hl Hreg.
  pose proof (retire_entry_frame
    (set_ledgers s3 (heal_branch (ledgers s3) (sh_ledger_id a) (sh_branch a))) e
    (applied_outcome i e a)) as (Hr & Hl' & _).
  destruct (retire_entry _ _ _) as [s5 rel]; simpl in *. apply Hc; [done|].
  rewrite Hl', Hl. by apply heal_branch_known.
Qed.

Lemma apply_head_refs i n s a : wf n s → refs_step i s (apply_head s i a).1 (ApplyHead a).
Proof.
  intros Hwf. unfold apply_head. set (k := mkRefKey _ _). set (full := format_ledger_id _ _).
  case_bool_decide as Hret; [by apply refs_same|].
  pose proof (pop_validated_front_cases s k full (sh_queue_id a)) as Hp.
  destruct (pop_validated_front _ _ _ _) as [s1 [e|r]] eqn:E; [|by eapply pop_failed_refs].
  destruct Hp as (rest & Hq & Hm & Hid & ->).
  destruct (wf_live _ _ Hwf _ _ Hq) as (_ & Hreg & _ & _).
  rewrite (drop_queue_if_empty_popped s k e rest Hq); cbv zeta.
  destruct (check_head _ _ _ _) eqn:Hcheck; [..|by apply refs_same].
  - apply (finish_head_refs i s (set_refs _ _) a e); [|done|done].
    intros s' Hs' Hl'; simpl in Hs'. unfold check_head in Hcheck; simpl in Hcheck.
    destruct (refs s !! k) as [r|] eqn:Hr.
    + case_all_in Hcheck; reflect_bools. eapply (RUpdate _ _ _ _ k r); eauto with fluree.
      by apply UAdvance.
    + eapply (RBirth _ _ _ _ k); eauto with fluree.
  - apply (finish_head_refs i s (set_queues _ _) a e); [|done|done].
    intros s' Hs' Hl'. by apply refs_same.
Qed.

Lemma poison_refs i s a c : refs_step i s (apply_poison_queue_entry s i a).1 c.
Proof.
  unfold apply_poison_queue_entry. set (k := mkRefKey _ _). set (full := format_ledger_id _ _).
  pose proof (pop_validated_front_cases s k full (ep_queue_id a)) as Hp.
  destruct (pop_validated_front _ _ _ _) as [s1 [e|r]] eqn:E; [|by eapply pop_failed_refs].
  destruct Hp as (rest & Hq & Hm & Hid & ->).
  rewrite (drop_queue_if_empty_popped s k e rest Hq).
  match goal with |- context [retire_entry ?x ?y ?z] =>
    pose proof (retire_entry_frame x y z) as (? & ? & _) end.
  destruct (retire_entry _ _ _). by apply refs_same.
Qed.

Lemma apply_refs_step i n s c : wf n s → refs_step i s (apply s c i).1 c.
Proof.
  intros Hwf. destruct c; unfold apply;
    try (by eauto using purge_branch_refs, drop_branch_refs, reset_head_refs,
      retract_ledger_refs, apply_head_refs, poison_refs, create_branch_refs,
      compare_and_set_refs).
  - apply set_index_head_refs. intros x y. rewrite Z.leb_gt. lia.
  - apply set_index_head_refs. intros x y. rewrite Z.ltb_ge. lia.
  - apply RSame; [|by eapply quiet_grows, create_ledger_quiet].
    unfold create_ledger. by case_bool_decide.
  - by apply refs_same.
  - destruct (apply_versioned_push _ _ _ _ _). by apply refs_same.
  - destruct (apply_versioned_push _ _ _ _ _). by apply refs_same.
  - by apply refs_same.
  - unfold apply_publish_graph_source_index. case_all; by apply refs_same.
  - unfold apply_retract_graph_source. case_all; by apply refs_same.
  - pose proof (enqueue_cases i s args) as H. destruct (apply_enqueue_command _ _ _).
    destruct H as [[-> _]|[_ H]]; [by apply refs_same|].
    inversion H; subst. by apply refs_same.
  - unfold apply_evict_idempotency, evict_in_order. destruct (evict_loop _ _). by apply refs_same.
  - unfold apply_set_worker_eligibility. case_all; by apply refs_same.
Qed.
