(* ===== verification/NsLineage.v ===== *)
(** * The catalog and the branch lineage

    Invariants of the ledger records and of the ref table: refs belong to
    registered branches, branch lists are duplicate free, and the child count
    of a ref is the number of refs forked off it, for logs that never reset a
    branch to unborn. *)

From S2P Require Import Prelude LedgerId NsTypes NsApply NsStep NsInvariant NsRefs.
Import LedgerId.

Implicit Types (s : NameServiceState) (rs : gmap RefKey RefEntry).

(** ** Refs belong to registered branches *)

Definition refs_registered s : Prop := ∀ k, is_Some (refs s !! k) → registered s k.

Lemma decrement_dom rs n source k : is_Some (decrement rs n source !! k) ↔ is_Some (rs !! k).
Proof.
  unfold decrement. destruct source as [p|]; [|done]. destruct (rs !! mkRefKey n p) eqn:Hp; [|done].
  rewrite lookup_insert_is_Some. destruct (decide (mkRefKey n p = k)); naive_solver.
Qed.

Lemma refs_step_registered i s s' c :
  refs_registered s → refs_step i s s' c → refs_registered s'.
Proof.
  intros Hreg H k' Hk'. destruct H as [Hr Hg|k r r' Hk Hr _ _ _ _ Hg|k r' Hk Hr _ Hkr _ _ _ Hg
    |n b p r r' Hnb Hb Hg Hp Hr _ _ _|k _ _ Hr Hiff|k ? ? _ _ _ Hr Hg]; rewrite Hr in Hk'.
  - by apply Hg, Hreg.
  - apply lookup_insert_is_Some in Hk' as [<-|[_ ?]]; apply Hg, Hreg; [by eexists|done].
  - apply lookup_insert_is_Some in Hk' as [<-|[_ ?]]; [by apply Hg|by apply Hg, Hreg].
  - apply lookup_insert_is_Some in Hk' as [<-|[_ Hk']]; [done|].
    apply lookup_insert_is_Some in Hk' as [<-|[_ ?]]; apply Hg, Hreg; [by eexists|done].
  - apply decrement_dom in Hk'. apply lookup_delete_is_Some in Hk' as [? ?].
    apply Hiff. auto.
  - apply lookup_delete_is_Some in Hk' as [? ?]. by apply Hg, Hreg.
Qed.

(** The step of a log entry, seen from the refs. *)
Lemma entry_refs_step n i s e :
  wf n s →
  match e with
  | Normal c => refs_step i s (apply_entry s i e).1 c
  | _ => refs (apply_entry s i e).1 = refs s ∧ ledgers (apply_entry s i e).1 = ledgers s
  end.
Proof. intros Hwf. destruct e; simpl; [by eapply apply_refs_step|done..]. Qed.

Lemma reachable_refs_registered P s n : reachable P s n → refs_registered s.
Proof.
  induction 1 as [|s n i e Hr IH Hi He]; [by intros k [? ?]|].
  pose proof (entry_refs_step n i s e (reachable_wf _ _ _ Hr)) as H.
  destruct e; [by eapply refs_step_registered| |]; destruct H as [Hrefs Hl];
    intros k; unfold registered; rewrite Hrefs, Hl; apply IH.
Qed.
#[export] Hint Resolve reachable_refs_registered : fluree.

(** ** Child counts *)

Definition is_child (k : RefKey) (x : RefKey * RefEntry) : Prop :=
  rk_ledger_name x.1 = rk_ledger_name k ∧ re_source_branch x.2 = Some (rk_branch k).
#[export] Instance is_child_dec k x : Decision (is_child k x).
Proof. unfold is_child. apply _. Defined.

(** The refs forked off [k]. *)
Definition children rs (k : RefKey) : gmap RefKey RefEntry := filter (is_child k) rs.
Definition child_count rs (k : RefKey) : Z := Z.of_nat (size (children rs k)).

Lemma child_count_new rs k' r' k :
  rs !! k' = None →
  child_count (<[k' := r']> rs) k
  = child_count rs k + (if decide (is_child k (k', r')) then 1 else 0).
Proof.
  intros Hk'. unfold child_count, children. case_decide.
  - rewrite map_filter_insert_True by done. rewrite map_size_insert_None; [lia|].
    rewrite map_lookup_filter_None. by left.
  - rewrite map_filter_insert_False by done. rewrite delete_id by done. lia.
Qed.

Lemma child_count_delete rs k' r' k :
  rs !! k' = Some r' →
  child_count (delete k' rs) k
  = child_count rs k - (if decide (is_child k (k', r')) then 1 else 0).
Proof.
  intros Hk'. pose proof (child_count_new (delete k' rs) k' r' k (lookup_delete_eq _ _)) as H.
  rewrite insert_delete_id in H by done. lia.
Qed.

Lemma child_count_update rs k' r r' k :
  rs !! k' = Some r → re_source_branch r' = re_source_branch r →
  child_count (<[k' := r']> rs) k = child_count rs k.
Proof.
  intros Hk' Hsrc. rewrite <- insert_delete_eq, child_count_new by apply lookup_delete_eq.
  rewrite (child_count_delete _ _ _ _ Hk').
  assert (is_child k (k', r') ↔ is_child k (k', r)) by (unfold is_child; simpl; by rewrite Hsrc).
  repeat case_decide; naive_solver lia.
Qed.

Lemma child_count_pos rs k' r' k : rs !! k' = Some r' → is_child k (k', r') → 0 < child_count rs k.
Proof.
  intros Hk' Hc. pose proof (child_count_delete rs k' r' k Hk') as H.
  rewrite decide_True in H by done. unfold child_count in *. lia.
Qed.

Lemma child_count_zero rs k :
  (∀ k' r', rs !! k' = Some r' → ¬ is_child k (k', r')) → child_count rs k = 0.
Proof.
  intros H. unfold child_count, children.
  replace (filter (is_child k) rs) with (∅ : gmap RefKey RefEntry); [done|].
  symmetry. apply map_empty. intros k'. rewrite map_lookup_filter_None.
  destruct (rs !! k') eqn:Hk'; [right; intros ? [= <-]|]; eauto.
Qed.

Lemma child_count_le rs k : child_count rs k <= Z.of_nat (size rs).
Proof.
  unfold child_count, children. apply inj_le, map_subseteq_size, map_filter_subseteq.
Qed.

(** ** The lineage invariant *)

Record lineage (n : Z) rs : Prop := {
  ln_count k r : rs !! k = Some r → re_branches r = child_count rs k;
  ln_source k r p : rs !! k = Some r → re_source_branch r = Some p →
    p ≠ rk_branch k ∧ is_Some (rs !! mkRefKey (rk_ledger_name k) p);
  ln_size : Z.of_nat (size rs) <= n;
}.

(** A branch that is not in the table has no children. *)
Lemma no_orphans n rs k : lineage n rs → rs !! k = None → child_count rs k = 0.
Proof.
  intros Hl Hk. apply child_count_zero. intros k' r' Hk' [Hn Hs]; simpl in *.
  destruct (ln_source _ _ Hl _ _ _ Hk' Hs) as [_ H]. rewrite Hn in H.
  destruct k; simpl in *. rewrite Hk in H. by destruct H.
Qed.

(** Transitions that reset no branch to unborn. *)
Definition no_unborn (c : Command) : Prop :=
  match c with ResetHead _ _ snap _ => rs_commit_head_id snap ≠ None | _ => True end.

Lemma lineage_update n rs k r r' :
  lineage n rs → rs !! k = Some r → re_source_branch r' = re_source_branch r →
  re_branches r' = re_branches r → lineage n (<[k := r']> rs).
Proof.
  intros Hl Hk Hs Hb. constructor.
  - intros k1 r1 [[<- <-]|[? Hk1]]%lookup_insert_Some;
      rewrite (child_count_update _ _ r) by done; [rewrite Hb|]; by apply (ln_count _ _ Hl).
  - intros k1 r1 p Hk1 Hp. rewrite lookup_insert_is_Some'.
    assert (∃ r2, rs !! k1 = Some r2 ∧ re_source_branch r2 = Some p) as (r2 & Hk2 & Hp2).
    { apply lookup_insert_Some in Hk1 as [[<- <-]|[? Hk1]]; eauto. exists r. by rewrite <- Hs. }
    destruct (ln_source _ _ Hl k1 r2 p); auto.
  - rewrite map_size_insert_Some by (by eexists). apply (ln_size _ _ Hl).
Qed.

Lemma lineage_birth n rs k r' :
  lineage n rs → rs !! k = None → re_source_branch r' = None → re_branches r' = 0 →
  lineage (n + 1) (<[k := r']> rs).
Proof.
  intros Hl Hk Hs Hb.
  assert (∀ k1, child_count (<[k := r']> rs) k1 = child_count rs k1) as Hcc.
  { intros k1. rewrite child_count_new by done. rewrite decide_False; [lia|].
    unfold is_child; simpl. rewrite Hs. naive_solver. }
  constructor.
  - intros k1 r1 [[<- <-]|[? Hk1]]%lookup_insert_Some; rewrite Hcc; [|by apply (ln_count _ _ Hl)].
    rewrite Hb. symmetry. by eapply no_orphans.
  - intros k1 r1 p [[<- <-]|[? Hk1]]%lookup_insert_Some Hp; [congruence|].
    rewrite lookup_insert_is_Some'. destruct (ln_source _ _ Hl k1 r1 p); auto.
  - rewrite map_size_insert_None by done. pose proof (ln_size _ _ Hl). lia.
Qed.

(** A fork: the source's count goes up by one, which does not saturate below
    the bound of [u32]. *)
Lemma lineage_fork n rs nm b p r r' :
  lineage n rs → n < u32_max → rs !! mkRefKey nm b = None → rs !! mkRefKey nm p = Some r →
  re_source_branch r' = Some p → re_branches r' = 0 →
  lineage (n + 1)
    (<[mkRefKey nm b := r']>
       (<[mkRefKey nm p := with_branches r (u32_saturating_add (re_branches r) 1)]> rs)).
Proof.
  intros Hl Hn Hb Hp Hs Hz. set (kb := mkRefKey nm b) in *. set (kp := mkRefKey nm p) in *.
  set (rp := with_branches _ _). set (rs1 := <[kp := rp]> rs).
  assert (kb ≠ kp) as Hne by congruence.
  assert (rs1 !! kb = None) as Hb1 by (unfold rs1; by rewrite lookup_insert_ne).
  assert (∀ k1, child_count (<[kb := r']> rs1) k1
                = child_count rs k1 + (if decide (k1 = kp) then 1 else 0)) as Hcc.
  { intros k1. rewrite child_count_new by done. unfold rs1.
    rewrite (child_count_update _ _ r) by done. f_equal.
    assert (is_child k1 (kb, r') ↔ k1 = kp) as Hiff.
    { unfold is_child; simpl. rewrite Hs. destruct k1; unfold kp; simpl. naive_solver. }
    repeat case_decide; naive_solver. }
  constructor.
  - intros k1 r1 [[<- <-]|[? Hk1]]%lookup_insert_Some; rewrite Hcc.
    + rewrite decide_False by done. rewrite Hz, (no_orphans n rs kb) by done. done.
    + unfold rs1 in Hk1. apply lookup_insert_Some in Hk1 as [[<- <-]|[? Hk1]].
      * rewrite decide_True by done. unfold rp, u32_saturating_add; simpl.
        rewrite (ln_count _ _ Hl _ _ Hp). pose proof (child_count_le rs kp).
        pose proof (ln_size _ _ Hl). lia.
      * rewrite decide_False by done. rewrite (ln_count _ _ Hl _ _ Hk1). lia.
  - intros k1 r1 q Hk1 Hq. unfold rs1 in *. rewrite !lookup_insert_is_Some'.
    apply lookup_insert_Some in Hk1 as [[<- <-]|[? Hk1]]; simpl.
    + rewrite Hs in Hq. simplify_eq. split; [naive_solver|]. right. by left.
    + assert (∃ r2, rs !! k1 = Some r2 ∧ re_source_branch r2 = Some q) as (r2 & Hk2 & Hq2).
      { apply lookup_insert_Some in Hk1 as [[<- <-]|[? Hk1]]; eauto. }
      destruct (ln_source _ _ Hl k1 r2 q); auto.
  - rewrite map_size_insert_None by done. unfold rs1.
    rewrite map_size_insert_Some by (by eexists). pose proof (ln_size _ _ Hl). lia.
Qed.

Lemma decrement_lookup rs n source k r :
  decrement rs n source !! k = Some r →
  ∃ r0, rs !! k = Some r0 ∧ re_source_branch r = re_source_branch r0
    ∧ re_branches r = if decide (source = Some (rk_branch k) ∧ rk_ledger_name k = n)
                      then u32_saturating_sub (re_branches r0) 1 else re_branches r0.
Proof.
  unfold decrement. destruct source as [p|].
  2:{ intros H. exists r. rewrite decide_False by naive_solver. done. }
  destruct (rs !! mkRefKey n p) as [r0|] eqn:Hp.
  - intros [[<- <-]|[Hne H]]%lookup_insert_Some.
    + exists r0. by rewrite decide_True.
    + exists r. rewrite decide_False; [done|]. destruct k; simpl in *. naive_solver.
  - intros H. exists r. rewrite decide_False; [done|]. destruct k; simpl in *. naive_solver.
Qed.

Lemma decrement_child_counts rs n source k :
  child_count (decrement rs n source) k = child_count rs k.
Proof.
  unfold decrement. destruct source as [p|]; [|done].
  destruct (rs !! mkRefKey n p) as [r0|] eqn:Hp; [|done]. by apply (child_count_update _ _ r0).
Qed.

Lemma decrement_size rs n source : size (decrement rs n source) = size rs.
Proof.
  unfold decrement. destruct source as [p|]; [|done].
  destruct (rs !! mkRefKey n p) as [r0|] eqn:Hp; [|done].
  by rewrite map_size_insert_Some by (by eexists).
Qed.

(** A removal behind the guard: the parent's count goes down by one. *)
Lemma lineage_remove n rs k :
  lineage n rs → (∀ r, rs !! k = Some r → re_branches r <= 0) →
  lineage n (decrement (delete k rs) (rk_ledger_name k) (rs !! k ≫= re_source_branch)).
Proof.
  intros Hl Hguard. destruct (rs !! k) as [r|] eqn:Hk; simpl; [|by rewrite delete_id].
  specialize (Hguard r eq_refl). rewrite (ln_count _ _ Hl _ _ Hk) in Hguard.
  assert (∀ k1 r1, rs !! k1 = Some r1 → ¬ is_child k (k1, r1)) as Hnochild.
  { intros k1 r1 Hk1 Hc. pose proof (child_count_pos _ _ _ _ Hk1 Hc). lia. }
  constructor.
  - intros k1 r1 (r0 & [? Hk1]%lookup_delete_Some & _ & ->)%decrement_lookup.
    rewrite decrement_child_counts, (child_count_delete _ _ _ _ Hk), (ln_count _ _ Hl _ _ Hk1).
    assert (is_child k1 (k, r) ↔ re_source_branch r = Some (rk_branch k1)
      ∧ rk_ledger_name k1 = rk_ledger_name k) as Hiff by (unfold is_child; simpl; naive_solver).
    unfold u32_saturating_sub. destruct (decide (is_child k1 (k, r))) as [Hc|Hc].
    + rewrite decide_True by (by apply Hiff). pose proof (child_count_pos rs k r k1 Hk Hc). lia.
    + rewrite decide_False by (by rewrite <- Hiff). lia.
  - intros k1 r1 q (r0 & [Hne Hk1]%lookup_delete_Some & Hs & _)%decrement_lookup Hq.
    rewrite Hs in Hq. destruct (ln_source _ _ Hl _ _ _ Hk1 Hq) as [? ?]. split; [done|].
    rewrite decrement_dom, lookup_delete_is_Some. split; [|done]. intros ->.
    apply (Hnochild _ _ Hk1). by split.
  - rewrite decrement_size, map_size_delete, Hk. pose proof (ln_size _ _ Hl). lia.
Qed.

Lemma lineage_weaken n m rs : lineage n rs → n <= m → lineage m rs.
Proof. intros [] ?. constructor; auto. lia. Qed.

Lemma refs_step_lineage n i s s' c :
  refs_registered s → lineage n (refs s) → n < i <= u32_max → no_unborn c →
  refs_step i s s' c → lineage i (refs s').
Proof.
  intros Hreg Hl Hi Hc H. eapply (lineage_weaken (n + 1)); [|lia].
  destruct H as [Hr Hg|k r r' Hk Hr _ Hs Hb _ _|k r' Hk Hr _ Hkr Hs Hb _ _
    |nm b p r r' Hnb Hb Hg Hp Hr _ Hs Hz|k _ Hguard Hr Hiff|k snap ? -> Hnone _ Hr _].
  - rewrite Hr. eapply lineage_weaken; [done|lia].
  - rewrite Hr. eapply lineage_weaken; [by eapply lineage_update|lia].
  - rewrite Hr. by apply lineage_birth.
  - rewrite Hr. apply lineage_fork; auto; [lia|].
    apply eq_None_not_Some. intros ?%Hreg. done.
  - rewrite Hr. eapply lineage_weaken; [by apply lineage_remove|lia].
  - by simpl in Hc.
Qed.

Lemma reachable_lineage s n : reachable no_unborn s n → n <= u32_max → lineage n (refs s).
Proof.
  induction 1 as [|s n i e Hr IH Hi He]; intros Hn.
  { constructor; done. }
  pose proof (entry_refs_step n i s e (reachable_wf _ _ _ Hr)) as H.
  assert (lineage n (refs s)) as Hl by (apply IH; lia).
  destruct e; [eapply refs_step_lineage; eauto with fluree; lia| |];
    destruct H as [-> _]; (eapply lineage_weaken; [done|lia]).
Qed.

(** ** Ledger records *)

Definition ledgers_wf (m : gmap string LedgerRecord) : Prop :=
  map_Forall (λ _ l, NoDup (lr_branches l) ∧ lr_branches l ≠ []) m.

Lemma ledgers_wf_push m n l c j b :
  ledgers_wf m → NoDup (lr_branches l) → b ∉ lr_branches l →
  ledgers_wf (<[n := mkLedger c j (lr_branches l ++ [b])]> m).
Proof.
  intros Hm Hl Hb. apply map_Forall_insert_2; [|done]. simpl. split; [|by destruct (lr_branches l)].
  apply NoDup_app. split; [done|]. split; [|apply NoDup_singleton].
  intros x Hx ->%list_elem_of_singleton. done.
Qed.

Lemma ledgers_wf_remove m n b : ledgers_wf m → ledgers_wf (remove_branch m n b).
Proof.
  intros Hm. unfold remove_branch. destruct (m !! n) as [l|] eqn:Hl; [|done].
  destruct (Hm _ _ Hl) as [Hnd _]. destruct (filter _ _) as [|x xs] eqn:Hf.
  - by apply map_Forall_delete.
  - apply map_Forall_insert_2; [|done]. simpl. rewrite <- Hf. split; [by apply NoDup_filter|].
    by rewrite Hf.
Qed.

Lemma ledgers_wf_heal m n b : ledgers_wf m → ledgers_wf (heal_branch m n b).
Proof.
  intros Hm. unfold heal_branch. destruct (m !! n) as [l|] eqn:Hl; [|done].
  case_bool_decide; [done|]. apply ledgers_wf_push; [done|by apply (Hm _ _ Hl)|done].
Qed.
#[export] Hint Resolve ledgers_wf_remove ledgers_wf_heal : fluree.

Lemma clear_queue_ledgers s k reason millis :
  ledgers (clear_queue_for_admin s k reason millis).1 = ledgers s.
Proof. unfold clear_queue_for_admin. by case_all. Qed.

Lemma unregister_dec_ledgers s n b source :
  ledgers (unregister_dec s n b source) = remove_branch (ledgers s) n b.
Proof.
  unfold unregister_dec. destruct source as [p|]; [|done].
  by destruct (decrement_child_count_refs (unregister s n b) n p) as [_ ->].
Qed.

Lemma purge_branch_ledgers s n b millis :
  ledgers_wf (ledgers s) → ledgers_wf (ledgers (purge_branch s n b millis).1).
Proof.
  intros Hw. unfold purge_branch. destruct (0 <? _); [done|].
  set (source := refs s !! mkRefKey n b ≫= re_source_branch).
  pose proof (clear_queue_ledgers (unregister_dec s n b source) (mkRefKey n b)
                ClearBranchPurged millis) as H.
  rewrite unregister_dec_ledgers in H. unfold unregister_dec, unregister in H.
  destruct (clear_queue_for_admin _ _ _ _) as [s5 rel]; simpl in H.
  destruct (_ || _); simpl; rewrite H; auto with fluree.
Qed.

Lemma drop_branch_ledgers s n b millis :
  ledgers_wf (ledgers s) → ledgers_wf (ledgers (drop_branch s n b millis).1).
Proof.
  intros Hw. unfold drop_branch. destruct (negb _); [done|]. destruct (0 <? _); [done|].
  set (source := refs s !! mkRefKey n b ≫= re_source_branch).
  pose proof (clear_queue_ledgers (unregister_dec s n b source) (mkRefKey n b)
                ClearBranchDropped millis) as H.
  rewrite unregister_dec_ledgers in H. unfold unregister_dec, unregister in H. simpl in H.
  destruct source as [p|].
  - destruct (decrement_child_count _ _ _) as [s4 c]; simpl in H.
    destruct (clear_queue_for_admin _ _ _ _); simpl in *. rewrite H; auto with fluree.
  - destruct (clear_queue_for_admin _ _ _ _); simpl in *. rewrite H; auto with fluree.
Qed.

Lemma apply_head_ledgers s i a :
  ledgers_wf (ledgers s) → ledgers_wf (ledgers (apply_head s i a).1).
Proof.
  intros Hw. unfold apply_head. set (k := mkRefKey _ _). set (full := format_ledger_id _ _).
  case_bool_decide as Hret; [done|].
  pose proof (pop_validated_front_cases s k full (sh_queue_id a)) as Hp.
  destruct (pop_validated_front _ _ _ _) as [s1 [e|r]].
  2:{ by destruct Hp as [[-> ?]|(Hm & -> & _)]. }
  destruct Hp as (rest & Hq & Hm & Hid & ->).
  rewrite (drop_queue_if_empty_popped s k e rest Hq); cbv zeta.
  destruct (check_head _ _ _ _); try done.
  all: match goal with |- context [retire_entry ?x ?y ?z] =>
    pose proof (retire_entry_frame x y z) as (_ & H & _) end.
  all: destruct (retire_entry _ _ _); simpl in *; rewrite H; auto with fluree.
Qed.

Lemma apply_poison_ledgers s i a : ledgers (apply_poison_queue_entry s i a).1 = ledgers s.
Proof.
  unfold apply_poison_queue_entry. set (k := mkRefKey _ _). set (full := format_ledger_id _ _).
  pose proof (pop_validated_front_cases s k full (ep_queue_id a)) as Hp.
  destruct (pop_validated_front _ _ _ _) as [s1 [e|r]].
  2:{ by destruct Hp as [[-> ?]|(Hm & -> & _)]. }
  destruct Hp as (rest & Hq & Hm & Hid & ->).
  rewrite (drop_queue_if_empty_popped s k e rest Hq).
  match goal with |- context [retire_entry ?x ?y ?z] =>
    pose proof (retire_entry_frame x y z) as (_ & ? & _) end.
  by destruct (retire_entry _ _ _).
Qed.

Lemma apply_ledgers_wf s c i : ledgers_wf (ledgers s) → ledgers_wf (ledgers (apply s c i).1).
Proof.
  intros Hw. destruct c; unfold apply;
    auto using purge_branch_ledgers, drop_branch_ledgers, apply_head_ledgers.
  - unfold advance_index_head, set_index_head. by case_all.
  - unfold rewrite_index_head, set_index_head. by case_all.
  - unfold create_ledger. set (l := default _ _).
    assert (NoDup (lr_branches l)) as Hl.
    { unfold l. destruct (ledgers s !! _) eqn:Hl; simpl; [by eapply Hw|apply NoDup_nil_2]. }
    case_bool_decide as Hb; simpl; [|rewrite insert_insert_eq; by apply ledgers_wf_push].
    apply map_Forall_insert_2; [|done]. split; [done|]. intros E; rewrite E in Hb; by apply not_elem_of_nil in Hb.
  - unfold create_branch. destruct (ledgers s !! _) as [l|] eqn:Hl; [|done].
    case_bool_decide; [done|]. destruct (refs s !! _); [|done]. destruct (default _ _); simpl.
    apply ledgers_wf_push; [done|by eapply Hw|done].
  - unfold reset_head. case_all; try done.
    all: match goal with H : clear_queue_for_admin ?a ?b ?c ?d = _ |- _ =>
      pose proof (clear_queue_ledgers a b c d) as HL; rewrite H in HL; simpl in HL; by rewrite HL end.
  - unfold retract_ledger. case_all; try done.
    all: match goal with H : clear_queue_for_admin ?a ?b ?c ?d = _ |- _ =>
      pose proof (clear_queue_ledgers a b c d) as HL; rewrite H in HL; simpl in HL; by rewrite HL end.
  - unfold apply_compare_and_set_ref. by case_all.
  - by destruct (apply_versioned_push _ _ _ _ _).
  - by destruct (apply_versioned_push _ _ _ _ _).
  - unfold apply_publish_graph_source_index. by case_all.
  - unfold apply_retract_graph_source. by case_all.
  - pose proof (enqueue_cases i s args) as H. destruct (apply_enqueue_command _ _ _).
    destruct H as [[-> _]|[_ H]]; [done|]. by inversion H; subst.
  - by rewrite apply_poison_ledgers.
  - unfold apply_evict_idempotency, evict_in_order. by destruct (evict_loop _ _).
  - unfold apply_set_worker_eligibility. by case_all.
Qed.

Lemma reachable_ledgers_wf P s n : reachable P s n → ledgers_wf (ledgers s).
Proof.
  induction 1 as [|s n i e Hr IH Hi He]; [done|]. destruct e; simpl; auto using apply_ledgers_wf.
Qed.
