(* ===== verification/NsRefTheorems.v ===== *)
(** * Properties of the refs, the catalog and the small registers

    Heads only advance, tombstones freeze a branch, an index never outruns its
    commits, child counts are exact; compare-and-set, versioned values, graph
    sources and worker eligibility behave as their contracts say. *)

From S2P Require Import Prelude LedgerId NsTypes NsApply NsStep NsInvariant NsQueue.
From S2P Require Import NsRefs NsLineage NsTheorems.
Import LedgerId.

Implicit Types (s : NameServiceState).

(** ** Heads *)

(** The commands that may take a head away or back. *)
Definition rewinds (c : Command) (k : RefKey) : Prop :=
  match c with
  | DropBranch n b _ | PurgeBranch n b _ | ResetHead n b _ _ => k = mkRefKey n b
  | _ => False
  end.

(** The commit head of a ref, kept or advanced. *)
Definition head_kept_or_advanced (r r' : RefEntry) : Prop :=
  (re_head r' = re_head r ∧ re_t r' = re_t r) ∨ re_t r < re_t r'.

Lemma refs_step_head i s s' c k r :
  refs_step i s s' c → ¬ rewinds c k → refs_registered s → refs s !! k = Some r →
  ∃ r', refs s' !! k = Some r' ∧ head_kept_or_advanced r r'.
Proof.
  intros H Hc Hreg Hk. unfold head_kept_or_advanced.
  assert (∃ r', refs s !! k = Some r' ∧ head_kept_or_advanced r r') as Hid
    by (exists r; by split; [|left]).
  destruct H as [Hr _|k' q q' Hk' Hr _ _ _ Hu _|k' q' Hk' Hr _ _ _ _ _ _
    |nm b p q q' Hnb _ _ Hp Hr _ _ _|k' Hrm _ Hr _|k' snap m -> _ _ Hr _]; rewrite Hr.
  - done.
  - destruct (decide (k' = k)) as [->|Hne]; [|by rewrite lookup_insert_ne].
    rewrite lookup_insert_eq. exists q'. split; [done|]. simplify_eq.
    destruct Hu as [? ?|? ? ?|snap m -> ? ?]; auto. destruct k; simpl in Hc; naive_solver.
  - rewrite lookup_insert_ne by congruence. done.
  - rewrite lookup_insert_ne by (intros <-; apply Hnb, Hreg; by eexists).
    destruct (decide (mkRefKey nm p = k)) as [<-|Hne]; [|by rewrite lookup_insert_ne].
    rewrite lookup_insert_eq. simplify_eq. eexists; split; [done|]. by left.
  - assert (k ≠ k') as Hne by (destruct c; simpl in *; naive_solver).
    destruct (decrement (delete k' (refs s)) (rk_ledger_name k') (refs s !! k' ≫= _) !! k)
      as [r'|] eqn:E.
    + exists r'. split; [done|]. unfold decrement in E.
      destruct (_ ≫= _) as [p|]; [|rewrite lookup_delete_ne in E by done; naive_solver].
      destruct (delete k' (refs s) !! mkRefKey _ p) as [q|] eqn:Hq.
      * apply lookup_insert_Some in E as [[<- <-]|[_ E]];
          [apply lookup_delete_Some in Hq as [_ ?]|apply lookup_delete_Some in E as [_ ?]];
          simplify_eq; by left.
      * apply lookup_delete_Some in E as [_ ?]. simplify_eq. by left.
    + apply eq_None_not_Some in E. destruct E. apply decrement_dom, lookup_delete_is_Some.
      split; [done|]. by eexists.
  - rewrite lookup_delete_ne; [done|]. destruct k'. simpl in *. naive_solver.
Qed.

(** C2: Commit heads only advance: no command but a drop, purge or reset of
    the branch itself removes its ref, lowers its [t] or swaps the head at the
    same [t]. *)
Theorem ns_head_monotone P s n i e k r :
  reachable P s n → n < i < two64 →
  (∀ c, e = Normal c → ¬ rewinds c k) → refs s !! k = Some r →
  ∃ r', refs (apply_entry s i e).1 !! k = Some r' ∧ head_kept_or_advanced r r'.
Proof.
  intros Hr Hi He Hk.
  pose proof (entry_refs_step n i s e (reachable_wf _ _ _ Hr)) as H. destruct e as [c| |].
  - eapply refs_step_head; eauto with fluree.
  - destruct H as [-> _]. exists r. split; [done|by left].
  - destruct H as [-> _]. exists r. split; [done|by left].
Qed.

Definition demo_main : RefKey := mkRefKey "db" "main".
Definition demo_ref : RefEntry := mkRefEntry (mkCid "c1") 1 100 4 None None 0.

Lemma ns_head_monotone_witness :
  ∃ r', refs (apply_entry demo_state2 5 (Normal (ApplyHead (demo_head 1 "c2" 2)))).1 !! demo_main
        = Some r' ∧ head_kept_or_advanced demo_ref r'.
Proof.
  apply (ns_head_monotone (in_window 100) demo_state2 4 5
           (Normal (ApplyHead (demo_head 1 "c2" 2))));
    [apply demo_reachable2|done|intros ? [= <-] []|by vm_compute].
Defined.

(** ** Tombstones *)

(** Only the child count of a ref may differ. *)
Definition frozen (o o' : option RefEntry) : Prop :=
  match o, o' with
  | Some r, Some r' => ∃ m, r' = with_branches r m
  | None, None => True
  | _, _ => False
  end.

Lemma frozen_refl o : frozen o o.
Proof. destruct o as [r|]; simpl; [|done]. exists (re_branches r). by destruct r. Qed.

Lemma refs_step_frozen i s s' c k :
  refs_step i s s' c → ¬ removes c k → (k ∈ retracted s) → registered s k →
  frozen (refs s !! k) (refs s' !! k).
Proof.
  intros H Hc Hret Hreg.
  destruct H as [Hr _|k' q q' Hk' Hr ? _ _ _ _|k' q' Hk' Hr ? _ _ _ _ _
    |nm b p q q' Hnb _ _ Hp Hr _ _ _|k' Hrm _ Hr _|k' snap m -> _ ? Hr _]; rewrite Hr.
  - apply frozen_refl.
  - rewrite lookup_insert_ne by naive_solver. apply frozen_refl.
  - rewrite lookup_insert_ne by naive_solver. apply frozen_refl.
  - rewrite lookup_insert_ne by naive_solver.
    destruct (decide (mkRefKey nm p = k)) as [<-|Hne].
    + rewrite lookup_insert_eq, Hp. simpl. eauto.
    + rewrite lookup_insert_ne by done. apply frozen_refl.
  - assert (k ≠ k') as Hne by naive_solver. unfold decrement.
    destruct (_ ≫= _) as [p|]; [|rewrite lookup_delete_ne by done; apply frozen_refl].
    destruct (delete k' (refs s) !! mkRefKey _ p) as [q|] eqn:Hq;
      [|rewrite lookup_delete_ne by done; apply frozen_refl].
    destruct (decide (mkRefKey (rk_ledger_name k') p = k)) as [<-|Hne'].
    + rewrite lookup_insert_eq. apply lookup_delete_Some in Hq as [_ ->]. simpl. eauto.
    + rewrite lookup_insert_ne, lookup_delete_ne by done. apply frozen_refl.
  - rewrite lookup_delete_ne by naive_solver. apply frozen_refl.
Qed.

(** The tombstones after a transition. *)
Lemma queue_step_retracted i s s' rel ev c r k :
  queue_step i s s' rel ev → event_label i s c r ev → ¬ removes c k →
  k ∈ retracted s → k ∈ retracted s'.
Proof.
  intros H Hlab Hc Hk. destruct ev; inversion H; subst; simpl in *; try congruence.
  destruct Hlab as [Hlab _]. unfold clears, clear_catalog in *.
  destruct reason, c; try done; set_solver.
Qed.

(** A retraction is a tombstone: until the branch is dropped or purged, no
    command changes its head, its [t] or its index, creates or removes its ref,
    lifts the flag or queues anything on it. *)
Theorem ns_retracted_frozen P s n i e k :
  reachable P s n → n < i < two64 →
  (∀ c, e = Normal c → ¬ removes c k) → k ∈ retracted s →
  let s' := (apply_entry s i e).1 in
  k ∈ retracted s' ∧ frozen (refs s !! k) (refs s' !! k) ∧ queues s' !! k = None.
Proof.
  intros Hr Hi He Hk s'. pose proof (reachable_wf _ _ _ Hr) as Hwf.
  destruct (entry_queue_step n i s e Hwf) as (ev & Hev & Hlab).
  pose proof (queue_step_wf n i s s' _ ev Hwf Hi Hev) as Hwf'.
  pose proof (entry_refs_step n i s e Hwf) as Href.
  assert (k ∈ retracted s' ∧ frozen (refs s !! k) (refs s' !! k)) as [Hk' ?].
  { destruct e as [c| |].
    - split; [by eapply queue_step_retracted; eauto|].
      eapply refs_step_frozen; eauto. by apply (wf_retracted _ _ Hwf).
    - split; [done|]. destruct Href as [Hr' _]. unfold s'. rewrite Hr'. apply frozen_refl.
    - split; [done|]. destruct Href as [Hr' _]. unfold s'. rewrite Hr'. apply frozen_refl. }
  split; [done|]. split; [done|]. destruct (queues s' !! k) as [q|] eqn:Hq; [|done].
  by destruct (wf_live _ _ Hwf' _ _ Hq) as (_ & _ & ? & _).
Qed.

Definition demo_log3 : list (Z * LogEntry) := [ (5, Normal (RetractLedger "db" "main" 200)) ].
Definition demo_state3 : NameServiceState := (run demo_state2 demo_log3).1.
Lemma demo_reachable3 : reachable (in_window 100) demo_state3 5.
Proof. apply (reachable_run _ _ 4 demo_log3); [apply demo_reachable2|done]. Qed.

Lemma ns_retracted_frozen_witness :
  (apply_entry demo_state3 6 (Normal (ApplyHead (demo_head 1 "c2" 2)))).2
    = LedgerRetracted "db:main"
  ∧ demo_main ∈ retracted (apply_entry demo_state3 6 (Normal (ApplyHead (demo_head 1 "c2" 2)))).1.
Proof.
  split; [by vm_compute|].
  refine (proj1 (ns_retracted_frozen (in_window 100) demo_state3 5 6
           (Normal (ApplyHead (demo_head 1 "c2" 2))) demo_main demo_reachable3 _ _ _));
    [done|intros ? [= <-] []|by vm_compute].
Defined.

(** ** Index heads *)

(** A reset installs an index that is not past its commit. *)
Definition sane_reset (c : Command) : Prop :=
  match c with
  | ResetHead _ _ snap _ => ∀ h, rs_index_head_id snap = Some h → rs_index_t snap <= rs_commit_t snap
  | _ => True
  end.

Definition index_behind (rs : gmap RefKey RefEntry) : Prop :=
  map_Forall (λ _ r, ∀ x, re_index r = Some x → ix_t x <= re_t r) rs.

Lemma reset_index_behind n b snap millis x :
  sane_reset (ResetHead n b snap millis) → reset_index snap = Some x →
  ix_t x <= rs_commit_t snap.
Proof.
  unfold reset_index. intros Hs Hx. destruct (rs_index_head_id snap) as [h|] eqn:Hh; simplify_eq/=.
  by eapply Hs.
Qed.

Lemma refs_step_index i s s' c :
  refs_step i s s' c → sane_reset c → index_behind (refs s) → index_behind (refs s').
Proof.
  intros H Hc Hix.
  destruct H as [Hr _|k q q' Hk Hr _ _ _ Hu _|k q' Hk Hr _ _ _ _ Hi _
    |nm b p q q' _ _ _ Hp Hr Hi _ _|k _ _ Hr _|k snap m -> _ _ Hr _]; rewrite Hr.
  - done.
  - apply map_Forall_insert_2; [|done]. intros x Hx. destruct Hu as [Ht Hi|_ Ht Hi|snap m -> Ht Hi].
    + rewrite Hi in Hx. pose proof (Hix _ _ Hk _ Hx). lia.
    + unfold index_ok in Hi. rewrite Hx in Hi. lia.
    + rewrite Hi in Hx. rewrite Ht. by eapply reset_index_behind.
  - apply map_Forall_insert_2; [|done]. intros x Hx.
    destruct Hi as [?|(snap & m & -> & Ht & Hi)]; [congruence|].
    rewrite Hi in Hx. rewrite Ht. by eapply reset_index_behind.
  - apply map_Forall_insert_2; [by rewrite Hi|]. apply map_Forall_insert_2; [|done].
    apply (Hix _ _ Hp).
  - unfold decrement. destruct (_ ≫= _) as [p|]; [|by apply map_Forall_delete].
    destruct (delete k (refs s) !! mkRefKey _ p) as [q|] eqn:Hq; [|by apply map_Forall_delete].
    apply map_Forall_insert_2; [|by apply map_Forall_delete].
    apply lookup_delete_Some in Hq as [_ Hq]. apply (Hix _ _ Hq).
  - by apply map_Forall_delete.
Qed.

(** An index head never claims commits its branch does not have: in every
    state reached by a log whose resets install consistent snapshots, the
    index [t] of a branch is at most its commit [t]. *)
Theorem ns_index_behind_commit s n k r x :
  reachable sane_reset s n → refs s !! k = Some r → re_index r = Some x → ix_t x <= re_t r.
Proof.
  intros Hr. assert (index_behind (refs s)) as H; [|by intros Hk; apply (H k r Hk)].
  induction Hr as [|s n i e Hr IH Hi He]; [done|].
  pose proof (entry_refs_step n i s e (reachable_wf _ _ _ Hr)) as H.
  destruct e; [by eapply refs_step_index| |]; by destruct H as [-> _].
Qed.

Definition demo_log_ix : list (Z * LogEntry) :=
  demo_log ++ demo_log2
  ++ [ (5, Normal (AdvanceIndexHead (mkNewIndexHead "db" "main" (mkCid "ix") 1 100))) ].

Lemma ns_index_behind_commit_witness :
  ix_t (mkIndexState (mkCid "ix") 1) <= re_t (mkRefEntry (mkCid "c1") 1 100 4
    (Some (mkIndexState (mkCid "ix") 1)) None 0).
Proof.
  apply (ns_index_behind_commit (run initial_state demo_log_ix).1 5 demo_main);
    [|by vm_compute|done].
  apply (reachable_run _ initial_state 0 demo_log_ix); [apply reach_init|].
  repeat split; done.
Defined.

(** ** Lineage *)

(** Child counts are exact: for logs that reset no branch to unborn (and
    fit the [u32] counter), the count kept on a ref is the number of refs
    forked off it, every fork's source is still in the table, and a branch with
    forks can neither be dropped nor purged. *)
Theorem ns_lineage s n k :
  reachable no_unborn s n → n <= u32_max →
  (∀ r, refs s !! k = Some r →
     re_branches r = child_count (refs s) k
     ∧ ∀ p, re_source_branch r = Some p → is_Some (refs s !! mkRefKey (rk_ledger_name k) p))
  ∧ (0 < child_count (refs s) k → ∀ millis,
     let refused := (s, BranchHasChildren (ref_key_ledger_id k) (child_count (refs s) k)) in
     drop_branch s (rk_ledger_name k) (rk_branch k) millis = refused
     ∧ purge_branch s (rk_ledger_name k) (rk_branch k) millis = refused).
Proof.
  intros Hr Hn. pose proof (reachable_lineage s n Hr Hn) as Hl. split.
  - intros r Hk. split; [by apply (ln_count _ _ Hl)|]. intros p Hp.
    by apply (ln_source _ _ Hl _ _ _ Hk).
  - intros Hpos millis. destruct (refs s !! k) as [r|] eqn:Hk.
    2:{ rewrite (no_orphans _ _ _ Hl Hk) in Hpos. lia. }
    assert (registered s k) as Hreg by (by apply (reachable_refs_registered _ _ _ Hr); eexists).
    pose proof (ln_count _ _ Hl _ _ Hk) as Hcnt.
    unfold drop_branch, purge_branch. unfold registered in Hreg. destruct k as [nm b]; simpl in *.
    rewrite Hreg; simpl. rewrite Hk, Hcnt. by rewrite (proj2 (Z.ltb_lt _ _) Hpos).
Qed.

Definition fork_log : list (Z * LogEntry) :=
  [ (1, Normal (CreateLedger (mkNewLedger "db" "main" 7)));
    (2, Normal (CompareAndSetRef (mkRefCas "db" "main" CommitHead None
                  (mkRefValue (Some (mkCid "c1")) 1) 8)));
    (3, Normal (CreateBranch (mkNewBranch "db" "dev" "main" None 9))) ].
Definition fork_state : NameServiceState := (run initial_state fork_log).1.

Lemma ns_lineage_witness :
  child_count (refs fork_state) demo_main = 1
  ∧ drop_branch fork_state "db" "main" 10 = (fork_state, BranchHasChildren "db:main" 1).
Proof.
  split; [by vm_compute|].
  refine (proj1 (proj2 (ns_lineage fork_state 3 demo_main _ _) _ 10)); [|done|by vm_compute].
  apply (reachable_run _ initial_state 0 fork_log); [apply reach_init|]. repeat split; done.
Defined.

(** The same log with the parent reset to unborn and then dropped. *)
Definition orphan_log : list (Z * LogEntry) :=
  fork_log ++
  [ (4, Normal (ResetHead "db" "main" (mkResetSnapshot None 0 None 0) 10));
    (5, Normal (DropBranch "db" "main" 11)) ].

(** A reset to unborn defeats the lineage guard: after forking [dev] off
    [main], resetting [main] to unborn discards its child count, and a drop of
    [main] then succeeds and leaves [dev] with a source branch that is neither
    registered nor in the ref table. *)
Theorem ns_unborn_reset_orphans :
  let '(s, rs) := run initial_state orphan_log in
  last rs = Some (BranchDropped "db:main" None [])
  ∧ (∃ r, refs s !! mkRefKey "db" "dev" = Some r ∧ re_source_branch r = Some "main")
  ∧ refs s !! demo_main = None ∧ ¬ registered s demo_main.
Proof.
  vm_compute. split; [done|]. split; [by eexists|]. by split.
Qed.

(** The catalog is well formed in every reachable state: branch lists are
    duplicate free and no ledger record is left without branches, and every
    ref, tombstone and queue belongs to a registered branch. *)
Theorem ns_catalog P s n :
  reachable P s n →
  ledgers_wf (ledgers s)
  ∧ ∀ k, is_Some (refs s !! k) ∨ k ∈ retracted s ∨ is_Some (queues s !! k) → registered s k.
Proof.
  intros Hr. split; [by eapply reachable_ledgers_wf|].
  pose proof (reachable_wf _ _ _ Hr) as Hwf. intros k [?|[?|?]].
  - by eapply reachable_refs_registered.
  - by apply (wf_retracted _ _ Hwf).
  - by eapply wf_queues_registered.
Qed.

Lemma ns_catalog_witness : ledgers_wf (ledgers fork_state).
Proof.
  refine (proj1 (ns_catalog (λ _, True) fork_state 3 _)).
  apply (reachable_run _ initial_state 0 fork_log); [apply reach_init|]. repeat split; done.
Defined.
