(* ===== verification/NsRegisters.v ===== *)
(** * The small registers of the nameservice

    Ref compare-and-set, the versioned status and config values, graph
    sources, and the worker-eligibility set with its membership mirror. *)

From S2P Require Import Prelude LedgerId NsTypes NsApply NsStep NsInvariant NsQueue.
From S2P Require Import NsRefs NsLineage NsTheorems NsRefTheorems.
Import LedgerId.

Implicit Types (s : NameServiceState).

(** ** The registers only their own commands write *)

Record Registers := mkRegisters {
  rg_status : gmap string StoredStatus;
  rg_config : gmap string StoredConfig;
  rg_graph_sources : gmap string GraphSourceRecord;
  rg_eligible : gset Z;
  rg_configured : gset Z;
}.

Definition registers s : Registers :=
  mkRegisters (status s) (config s) (graph_sources s) (worker_eligible_voters s)
    (configured_voters s).

Lemma clear_queue_registers s k reason millis :
  registers (clear_queue_for_admin s k reason millis).1 = registers s.
Proof. unfold clear_queue_for_admin. by case_all. Qed.

Lemma decrement_registers s n b : registers (decrement_child_count s n b).1 = registers s.
Proof. unfold decrement_child_count. by case_all. Qed.

Lemma retire_registers s e o : registers (retire_entry s e o).1 = registers s.
Proof. unfold retire_entry. by case_all. Qed.

Lemma pop_registers s k full q : registers (pop_validated_front s k full q).1 = registers s.
Proof. unfold pop_validated_front. by case_all. Qed.

Lemma drop_queue_registers s k : registers (drop_queue_if_empty s k) = registers s.
Proof. unfold drop_queue_if_empty. by case_all. Qed.

(** Rewrite an equation [f x = (s', y)] into the registers of [s']. *)
Ltac frame_registers :=
  repeat match goal with
  | H : clear_queue_for_admin ?s ?k ?r ?m = (?s', _) |- _ =>
      pose proof (clear_queue_registers s k r m); rewrite H in *; clear H; simpl in *
  | H : decrement_child_count ?s ?n ?b = (?s', _) |- _ =>
      pose proof (decrement_registers s n b); rewrite H in *; clear H; simpl in *
  | H : retire_entry ?s ?e ?o = (?s', _) |- _ =>
      pose proof (retire_registers s e o); rewrite H in *; clear H; simpl in *
  | H : pop_validated_front ?s ?k ?f ?q = (?s', _) |- _ =>
      pose proof (pop_registers s k f q); rewrite H in *; clear H; simpl in *
  end.

(** The commands that write a register. *)
Definition writes_register (c : Command) : Prop :=
  match c with
  | PushStatus _ _ _ | PushConfig _ | PublishGraphSource _ _ _ _ _
  | PublishGraphSourceIndex _ _ _ _ | RetractGraphSource _ _ | SetWorkerEligibility _ => True
  | _ => False
  end.

Lemma purge_registers s n b millis : registers (purge_branch s n b millis).1 = registers s.
Proof.
  unfold purge_branch. destruct (0 <? _); [done|]. destruct (_ ≫= _) as [p|].
  - destruct (clear_queue_for_admin _ _ _ _) eqn:H. frame_registers.
    rewrite decrement_registers in *. by destruct (_ || _).
  - destruct (clear_queue_for_admin _ _ _ _) eqn:H. frame_registers. by destruct (_ || _).
Qed.

Lemma drop_registers s n b millis : registers (drop_branch s n b millis).1 = registers s.
Proof.
  unfold drop_branch. destruct (negb _); [done|]. destruct (0 <? _); [done|].
  destruct (_ ≫= _) as [p|].
  - destruct (decrement_child_count _ _ _) eqn:H'. destruct (clear_queue_for_admin _ _ _ _) eqn:H.
    frame_registers. by etrans.
  - destruct (clear_queue_for_admin _ _ _ _) eqn:H. by frame_registers.
Qed.

Lemma apply_head_registers s i a : registers (apply_head s i a).1 = registers s.
Proof.
  unfold apply_head. case_bool_decide; [done|].
  destruct (pop_validated_front _ _ _ _) as [s1 [e|r]] eqn:Hp; frame_registers; [|done].
  destruct (check_head _ _ _ _); [| |done];
    (destruct (retire_entry _ _ _) eqn:H'; frame_registers;
     match goal with E : registers _ = registers _, E' : registers s1 = _ |- _ =>
       rewrite E; etrans; [|exact E']; apply drop_queue_registers end).
Qed.

Lemma apply_poison_registers s i a : registers (apply_poison_queue_entry s i a).1 = registers s.
Proof.
  unfold apply_poison_queue_entry.
  destruct (pop_validated_front _ _ _ _) as [s1 [e|r]] eqn:Hp; frame_registers; [|done].
  destruct (retire_entry _ _ _) eqn:H'; frame_registers.
  match goal with E : registers _ = registers _, E' : registers s1 = _ |- _ =>
    rewrite E; etrans; [|exact E']; apply drop_queue_registers end.
Qed.

Lemma apply_registers s c i : ¬ writes_register c → registers (apply s c i).1 = registers s.
Proof.
  intros Hc. destruct c; try (by destruct Hc); unfold apply;
    auto using purge_registers, drop_registers, apply_head_registers, apply_poison_registers.
  - unfold advance_index_head, set_index_head. by case_all.
  - unfold rewrite_index_head, set_index_head. by case_all.
  - unfold create_ledger. by case_all.
  - unfold create_branch. by case_all.
  - unfold reset_head. case_all; by frame_registers.
  - unfold retract_ledger. case_all; by frame_registers.
  - unfold apply_compare_and_set_ref. by case_all.
  - pose proof (enqueue_cases i s args) as H. destruct (apply_enqueue_command _ _ _).
    destruct H as [[-> _]|[_ H]]; [done|]. by inversion H; subst.
  - unfold apply_evict_idempotency, evict_in_order. by destruct (evict_loop _ _).
Qed.

(** ** Versioned values *)

(** What the two versioned registers of the state promise: pushes go through
    [apply_versioned_push], nothing else writes the register, equal values have
    equal versions. *)
Class VersionedRegister (T : Type) `{!VersionedValue T} := {
  vr_get : NameServiceState → gmap string T;
  vr_push : string → option T → T → Command;
  vr_eqb_v x y : vv_eqb x y = true → vv_v x = vv_v y;
  vr_updated a : vv_updated (T:=T) ≠ vv_conflict a;
  vr_apply_push s i id e new :
    (vr_get (apply s (vr_push id e new) i).1, (apply s (vr_push id e new) i).2)
    = apply_versioned_push (ledgers s) (vr_get s) id e new;
  vr_frame s c i :
    (∃ id e new, c = vr_push id e new) ∨ vr_get (apply s c i).1 = vr_get s;
  vr_membership s voters : vr_get (apply_membership s voters) = vr_get s;
}.

(** A register no other command writes. *)
Lemma registers_frame {A} (f : Registers → A) s c i :
  ¬ writes_register c → f (registers (apply s c i).1) = f (registers s).
Proof. intros. by rewrite apply_registers. Qed.

Lemma graph_source_frames s c i :
  match c with
  | PublishGraphSource _ _ _ _ _ | PublishGraphSourceIndex _ _ _ _ | RetractGraphSource _ _
  | SetWorkerEligibility _ =>
      status (apply s c i).1 = status s ∧ config (apply s c i).1 = config s
  | _ => True
  end.
Proof.
  destruct c; try done; unfold apply, apply_publish_graph_source,
    apply_publish_graph_source_index, apply_retract_graph_source, apply_set_worker_eligibility;
    by case_all.
Qed.

#[export] Instance status_register : VersionedRegister StoredStatus.
Proof.
  refine {| vr_get := status; vr_push := PushStatus |}.
  - intros x y. simpl. unfold status_eqb. intros H. by reflect_bools.
  - done.
  - intros. simpl. by destruct (apply_versioned_push _ _ _ _ _).
  - intros s c i. pose proof (graph_source_frames s c i). pose proof (registers_frame rg_status s c i).
    destruct c; eauto; right; try (simpl in *; naive_solver).
    simpl. by destruct (apply_versioned_push _ _ _ _ _).
  - done.
Defined.

#[export] Instance config_register : VersionedRegister StoredConfig.
Proof.
  refine {| vr_get := config; vr_push := λ id e new, PushConfig (mkConfigUpdate id e new) |}.
  - intros x y. simpl. unfold config_eqb. intros H. by reflect_bools.
  - done.
  - intros. simpl. by destruct (apply_versioned_push _ _ _ _ _).
  - intros s c i. pose proof (graph_source_frames s c i). pose proof (registers_frame rg_config s c i).
    destruct c; eauto; try (right; simpl in *; naive_solver).
    + right. simpl. by destruct (apply_versioned_push _ _ _ _ _).
    + left. destruct args. eauto.
  - done.
Defined.

Section versioned.
Context {T : Type} `{!VersionedValue T, !VersionedRegister T}.

(** A push either conflicts and writes nothing, or replaces a value equal to
    the expected one by one with a larger version. *)
Lemma versioned_push_cases m (vs : gmap string T) id e new :
  let '(vs', r) := apply_versioned_push m vs id e new in
  (vs' = vs ∧ ∃ a, r = vv_conflict a)
  ∨ (vs' = <[id := new]> vs ∧ r = vv_updated
     ∧ ∃ x, e = Some x ∧ vv_eqb x (default vv_absent (vs !! id)) = true
         ∧ vv_v (default vv_absent (vs !! id)) < vv_v new).
Proof.
  unfold apply_versioned_push. destruct (split_ledger_id id) as [?|[nm b]]; [by eauto|].
  destruct (negb (ledger_known _ _ _)); [by eauto|].
  destruct e as [x|]; simpl; [|by eauto].
  destruct (vv_eqb x _) eqn:Hx; simpl; [|by eauto].
  destruct (vv_v new <=? _) eqn:Hv; [by eauto|]. reflect_bools. right; eauto 10.
Qed.

(** Versions never go back, and a record is never removed. *)
Lemma version_monotone_entry s i e id (x : T) :
  vr_get s !! id = Some x →
  ∃ x', vr_get (apply_entry s i e).1 !! id = Some x' ∧ vv_v x <= vv_v x'.
Proof.
  intros Hx. assert (∃ x', vr_get s !! id = Some x' ∧ vv_v x <= vv_v x') as Hid by eauto with lia.
  destruct e as [c|voters|]; simpl; [|by rewrite vr_membership|done].
  destruct (vr_frame s c i) as [(id' & e & new & ->)| ->]; [|done].
  pose proof (vr_apply_push s i id' e new) as E.
  pose proof (versioned_push_cases (ledgers s) (vr_get s) id' e new) as H. rewrite <- E in H.
  destruct H as [[-> _]|(-> & _ & y & _ & _ & Hlt)]; [done|].
  destruct (decide (id' = id)) as [->|Hne]; [|by rewrite lookup_insert_ne].
  rewrite lookup_insert_eq. rewrite Hx in Hlt; simpl in Hlt. eexists; split; [done|lia].
Qed.

Lemma version_monotone_run s log id (x : T) :
  vr_get s !! id = Some x →
  ∃ x', vr_get (run s log).1 !! id = Some x' ∧ vv_v x <= vv_v x'.
Proof.
  revert s x. induction log as [|[i e] log IH]; intros s x Hx; simpl; [by eauto with lia|].
  destruct (version_monotone_entry s i e id x Hx) as (x1 & Hx1 & Hle).
  destruct (apply_entry s i e) as [s1 r]. destruct (IH s1 x1 Hx1) as (x2 & Hx2 & Hle2).
  destruct (run s1 log). simpl in *. eauto with lia.
Qed.
End versioned.

(** No lost updates on the versioned registers (status and config): once a
    push that expected [e] has been accepted, no later push that expects the
    same [e] is accepted, whatever log is applied in between; it conflicts and
    leaves the register as it is. *)
Theorem ns_push_no_lost_update {T} `{!VersionedValue T, !VersionedRegister T}
    s i id (e : option T) new1 new2 log j :
  (apply s (vr_push id e new1) i).2 = vv_updated (T:=T) →
  let s2 := (run (apply s (vr_push id e new1) i).1 log).1 in
  (∃ a, (apply s2 (vr_push id e new2) j).2 = vv_conflict (T:=T) a)
  ∧ vr_get (apply s2 (vr_push id e new2) j).1 = vr_get s2.
Proof.
  intros Hok s2.
  pose proof (vr_apply_push s i id e new1) as E1.
  pose proof (versioned_push_cases (ledgers s) (vr_get s) id e new1) as H1. rewrite <- E1 in H1.
  destruct H1 as [[_ [a Ha]]|(Hget & _ & x & -> & Hx & Hlt)].
  { rewrite Hok in Ha. by apply vr_updated in Ha. }
  destruct (version_monotone_run (apply s (vr_push id (Some x) new1) i).1 log id new1)
    as (y & Hy & Hle); [by rewrite Hget, lookup_insert_eq|]. fold s2 in Hy.
  pose proof (vr_apply_push s2 j id (Some x) new2) as E2.
  pose proof (versioned_push_cases (ledgers s2) (vr_get s2) id (Some x) new2) as H2.
  rewrite <- E2 in H2. destruct H2 as [[? ?]|(_ & _ & x' & [= <-] & Hx' & _)]; [done|].
  rewrite Hy in Hx'; simpl in Hx'. apply vr_eqb_v in Hx, Hx'. lia.
Qed.

Lemma ns_push_no_lost_update_witness :
  (apply demo_state (PushStatus "db:main" (Some StoredStatus_initial) (mkStatus 2 "busy" [])) 9).2
    = StatusUpdated
  ∧ ∃ a, (apply (run (apply demo_state
        (PushStatus "db:main" (Some StoredStatus_initial) (mkStatus 2 "busy" [])) 9).1 demo_log2).1
        (PushStatus "db:main" (Some StoredStatus_initial) (mkStatus 7 "idle" [])) 10).2
      = StatusConflict a.
Proof.
  split; [by vm_compute|].
  refine (proj1 (ns_push_no_lost_update (T:=StoredStatus) demo_state 9 "db:main"
    (Some StoredStatus_initial) (mkStatus 2 "busy" []) (mkStatus 7 "idle" []) demo_log2 10 _)).
  by vm_compute.
Defined.

(** ** Compare-and-set of a commit head *)

(** A successful compare-and-set of a commit head found the value it expected
    and installed a later one. *)
Lemma cas_commit_updated s i a :
  let k := mkRefKey (rc_ledger_id a) (rc_branch a) in
  rc_kind a = CommitHead → (apply_compare_and_set_ref s i a).2 = RefCasUpdated →
  match rc_expected a with
  | None => refs s !! k = None
  | Some rv => rv = mkRefValue (re_head <$> refs s !! k) (default 0 (re_t <$> refs s !! k))
  end
  ∧ default 0 (re_t <$> refs s !! k) < rv_t (rc_new a)
  ∧ ∃ r h, rv_id (rc_new a) = Some h ∧ re_head r = h ∧ re_t r = rv_t (rc_new a)
      ∧ refs (apply_compare_and_set_ref s i a).1 = <[k := r]> (refs s).
Proof.
  intros k Hk. unfold apply_compare_and_set_ref, current_ref_value. fold k. rewrite Hk.
  destruct (ledger_known _ _ _); simpl; [|done]. case_bool_decide; [done|].
  destruct (negb _) eqn:Hexp; [done|]. destruct (negb (_ <? _)) eqn:Hmono; [done|].
  reflect_bools. destruct (match refs s !! k with Some _ => _ | None => _ end) as [[ix src] bs].
  destruct (rv_id (rc_new a)) as [h|]; [|done]. intros _. split; [|split; [done|]].
  - destruct (rc_expected a); reflect_bools; [done|]. by destruct (refs s !! k).
  - eexists _, h. repeat split; done.
Qed.

(** Heads over a log that rewinds nothing of the branch. *)
Lemma head_monotone_run (P : Command → Prop) s n log k r :
  reachable P s n → log_ok (λ c, P c ∧ ¬ rewinds c k) n log → refs s !! k = Some r →
  ∃ r', refs (run s log).1 !! k = Some r' ∧ re_t r <= re_t r'.
Proof.
  revert s n r. induction log as [|[i e] log IH]; intros s n r Hr Hok Hk; simpl;
    [by eauto with lia|]. destruct Hok as (Hi & He & Hok).
  assert (∃ r1, refs (apply_entry s i e).1 !! k = Some r1 ∧ head_kept_or_advanced r r1)
    as (r1 & Hk1 & Hadv).
  { pose proof (entry_refs_step n i s e (reachable_wf _ _ _ Hr)) as H. destruct e as [c| |].
    - destruct He. eapply refs_step_head; eauto with fluree.
    - destruct H as [-> _]. exists r. split; [done|by left].
    - destruct H as [-> _]. exists r. split; [done|by left]. }
  assert (reachable P (apply_entry s i e).1 i) as Hr1.
  { apply (reach_entry P s n); auto. by destruct e; [apply He|..]. }
  destruct (apply_entry s i e) as [s1 resp].
  destruct (IH s1 i r1 Hr1 Hok Hk1) as (r2 & Hk2 & Hle).
  destruct (run s1 log). simpl in *. exists r2. split; [done|].
  destruct Hadv as [[_ ?]|?]; lia.
Qed.

(** No lost updates on commit heads: once a compare-and-set has moved a
    branch's head from the value it expected, no later compare-and-set that
    expects the same value succeeds, whatever log is applied in between, unless
    the branch itself was dropped, purged or reset. *)
Theorem ns_cas_no_lost_update P s n i a1 a2 log j :
  let k := mkRefKey (rc_ledger_id a1) (rc_branch a1) in
  reachable P s n → n < i < two64 → P (CompareAndSetRef a1) →
  rc_kind a1 = CommitHead → rc_kind a2 = CommitHead →
  mkRefKey (rc_ledger_id a2) (rc_branch a2) = k → rc_expected a2 = rc_expected a1 →
  (apply s (CompareAndSetRef a1) i).2 = RefCasUpdated →
  let s1 := (apply s (CompareAndSetRef a1) i).1 in
  log_ok (λ c, P c ∧ ¬ rewinds c k) i log →
  (apply (run s1 log).1 (CompareAndSetRef a2) j).2 ≠ RefCasUpdated.
Proof.
  intros k Hr Hi HP Hk1 Hk2 Hk Hexp Hok s1 Hlog Hok2. simpl in *.
  destruct (cas_commit_updated s i a1 Hk1 Hok) as (He1 & Hlt & r & h & Hid & Hh & Ht & Hrefs).
  fold k in Hrefs, Hlt, He1. assert (refs s1 !! k = Some r) as Hs1
    by (unfold s1; by rewrite Hrefs, lookup_insert_eq).
  assert (reachable P s1 i) as Hr1
    by (apply (reach_entry P s n i (Normal (CompareAndSetRef a1))); done).
  destruct (head_monotone_run P s1 i log k r Hr1 Hlog Hs1) as (r2 & Hr2 & Hle).
  destruct (cas_commit_updated _ j a2 Hk2 Hok2) as (He2 & _). rewrite Hk, Hexp, Hr2 in He2. destruct (rc_expected a1) as [rv|]; [|done].
  subst rv. simpl in He2. injection He2 as ? Ht2. lia.
Qed.

Definition demo_cas (h : string) (t : Z) : RefCas :=
  mkRefCas "db" "main" CommitHead (Some (mkRefValue (Some (mkCid "c1")) 1))
    (mkRefValue (Some (mkCid h)) t) 300.

Lemma ns_cas_no_lost_update_witness :
  (apply demo_state2 (CompareAndSetRef (demo_cas "x" 5)) 5).2 = RefCasUpdated
  ∧ (apply (run (apply demo_state2 (CompareAndSetRef (demo_cas "x" 5)) 5).1
       [(6, Normal (EnqueueCommand demo_retry))]).1 (CompareAndSetRef (demo_cas "y" 9)) 7).2
    ≠ RefCasUpdated.
Proof.
  split; [by vm_compute|].
  apply (ns_cas_no_lost_update (λ _, True) demo_state2 4 5 (demo_cas "x" 5) (demo_cas "y" 9)
    [(6, Normal (EnqueueCommand demo_retry))] 7); try done; [|by vm_compute].
  by eapply reachable_mono, demo_reachable2.
Defined.

(** ** Graph sources *)

Definition source_le (r r' : GraphSourceRecord) : Prop :=
  gs_graph_source_id r' = gs_graph_source_id r ∧ gs_name r' = gs_name r
  ∧ gs_branch r' = gs_branch r
  ∧ (gs_index_t r' = gs_index_t r ∧ gs_index_id r' = gs_index_id r
     ∨ gs_index_t r < gs_index_t r').

Lemma source_le_refl r : source_le r r.
Proof. by repeat split; auto. Qed.
#[local] Hint Resolve source_le_refl : core.

(** The record of an id after a write at [id'] that respects [source_le]. *)
Lemma source_write (m : gmap string GraphSourceRecord) id id' r q :
  m !! id = Some r → (∀ p, m !! id' = Some p → source_le p q) →
  ∃ r', <[id' := q]> m !! id = Some r' ∧ source_le r r'.
Proof.
  intros Hr Hq. destruct (decide (id' = id)) as [->|Hne].
  - rewrite lookup_insert_eq. eauto.
  - rewrite lookup_insert_ne by done. eauto.
Qed.

(** The index pointer of a graph source only advances, and its identity
    never changes: no command removes a graph source, publishing over one keeps
    its index and reactivates it, and an index publish is accepted only with a
    larger [t]. *)
Theorem ns_graph_source_index_monotone s i c id r :
  graph_sources s !! id = Some r →
  ∃ r', graph_sources (apply s c i).1 !! id = Some r' ∧ source_le r r'.
Proof.
  intros Hr. assert (∃ r', graph_sources s !! id = Some r' ∧ source_le r r') as Hid
    by eauto.
  destruct c; try (replace (graph_sources _) with (graph_sources s); [done|];
    symmetry; apply (registers_frame rg_graph_sources); by intros []); unfold apply.
  - by destruct (apply_versioned_push _ _ _ _ _).
  - by destruct (apply_versioned_push _ _ _ _ _).
  - unfold apply_publish_graph_source; simpl. apply source_write; [done|]. intros p ->.
    by repeat split; auto.
  - unfold apply_publish_graph_source_index. destruct (graph_sources s !! format_ledger_id _ _) eqn:Hp; [|done].
    destruct (_ <=? _) eqn:Ht; [done|]. reflect_bools. simpl. apply source_write; [done|].
    intros p Hp'. rewrite Hp in Hp'. simplify_eq. by repeat split; auto.
  - unfold apply_retract_graph_source. destruct (graph_sources s !! format_ledger_id _ _) eqn:Hp; [|done].
    destruct (negb _); [|done]. simpl. apply source_write; [done|].
    intros p Hp'. rewrite Hp in Hp'. simplify_eq. by repeat split; auto.
  - unfold apply_set_worker_eligibility. by case_all.
Qed.

Lemma ns_graph_source_index_monotone_witness :
  ∃ r', graph_sources (apply (apply initial_state
      (PublishGraphSource "g" "main" Bm25 "cfg" []) 1).1
      (PublishGraphSourceIndex "g" "main" (mkCid "x") 4) 2).1 !! "g:main" = Some r'
    ∧ source_le (GraphSourceRecord_new "g" "main" Bm25 "cfg" []) r'.
Proof.
  apply (ns_graph_source_index_monotone (apply initial_state
      (PublishGraphSource "g" "main" Bm25 "cfg" []) 1).1 2
      (PublishGraphSourceIndex "g" "main" (mkCid "x") 4) "g:main").
  by vm_compute.
Defined.

(** ** Worker eligibility *)

Lemma apply_voters s c i :
  configured_voters (apply s c i).1 = configured_voters s
  ∧ (worker_eligible_voters s ⊆ configured_voters s →
     worker_eligible_voters (apply s c i).1 ⊆ configured_voters s).
Proof.
  assert (¬ writes_register c → configured_voters (apply s c i).1 = configured_voters s
    ∧ worker_eligible_voters (apply s c i).1 = worker_eligible_voters s) as H.
  { intros Hc. pose proof (apply_registers s c i Hc) as E. by injection E. }
  destruct c; try (destruct H as [-> ->]; [by intros []|done]); unfold apply.
  - by destruct (apply_versioned_push _ _ _ _ _).
  - by destruct (apply_versioned_push _ _ _ _ _).
  - done.
  - unfold apply_publish_graph_source_index. by case_all.
  - unfold apply_retract_graph_source. by case_all.
  - unfold apply_set_worker_eligibility. destruct (negb _) eqn:Hv; [done|]. reflect_bools.
    destruct (we_eligible args); simpl; split; [done| |done|]; set_solver.
Qed.

(** Only configured voters are worker-eligible, and a membership change
    keeps the demotions of the voters that stay: afterwards a voter is eligible
    exactly when it is in the new set and was not demoted in the old one, so a
    voter that joins starts eligible and one that leaves is forgotten. *)
Theorem ns_voters P s n :
  reachable P s n →
  worker_eligible_voters s ⊆ configured_voters s
  ∧ ∀ voters v,
      v ∈ worker_eligible_voters (apply_membership s voters) ↔
      v ∈ voters ∧ (v ∈ configured_voters s → v ∈ worker_eligible_voters s).
Proof.
  intros Hr. split.
  - induction Hr as [|s n i e Hr IH Hi He]; [done|]. destruct e as [c|voters|]; simpl; [|set_solver|done].
    destruct (apply_voters s c i) as [-> H]. auto.
  - intros voters v. unfold apply_membership; simpl.
    rewrite elem_of_difference, elem_of_filter, elem_of_difference.
    destruct (decide (v ∈ worker_eligible_voters s)); naive_solver.
Qed.

Definition voters_log : list (Z * LogEntry) :=
  [ (1, MembershipChange {[1; 2]}); (2, Normal (SetWorkerEligibility (mkEligibility 2 false 5))) ].

Lemma ns_voters_witness :
  worker_eligible_voters (run initial_state voters_log).1
  ⊆ configured_voters (run initial_state voters_log).1.
Proof.
  refine (proj1 (ns_voters (λ _, True) (run initial_state voters_log).1 2 _)).
  apply (reachable_run _ initial_state 0 voters_log); [apply reach_init|]. repeat split; done.
Defined.
