(* ===== verification/Ownership.v ===== *)
(** * Rendezvous hashing of work to voters
    ([fluree-raft-core/src/ownership.rs], [fluree-db-consensus/src/raft/ownership.rs])

    Every node computes the owner of a branch on its own, from the replicated
    set of eligible voters.  The hash [xxh64] of the [xxhash_rust] crate is a
    parameter: the theorems hold for every hash function, since ties break by
    the node id. *)

From S2P Require Import Prelude LedgerId NsTypes.

Section ownership.
(** [xxh64(bytes, seed)]. *)
Context (xxh64 : list Z → Z → Z).

Definition RENDEZVOUS_SEED : Z := 0x6661656652464252.

Definition digest_parts (parts : list (list Z)) : Z :=
  foldl (λ hash part, xxh64 part hash) RENDEZVOUS_SEED parts.

Definition rendezvous_score (node key_digest : Z) : Z := xxh64 (le_bytes 8 node) key_digest.

(** The derived order of a [(u64, NodeId)] pair. *)
Definition score_le : relation (Z * Z) := lex_le Z.le Z.le.

(** [Iterator::max_by_key]: the last of the maximal elements. *)
Fixpoint max_by_key (l : list (Z * Z)) : option (Z * Z) :=
  match l with
  | [] => None
  | x :: l =>
      match max_by_key l with
      | None => Some x
      | Some y => if decide (score_le x y) then Some y else Some x
      end
  end.

Definition owner_for_digest (key_digest : Z) (voters : list Z) : option Z :=
  snd <$> max_by_key ((λ node, (rendezvous_score node key_digest, node)) <$> voters).

Definition key_digest (k : RefKey) : Z :=
  digest_parts [str_bytes (rk_ledger_name k); str_bytes ":"; str_bytes (rk_branch k)].

Definition owner (k : RefKey) (voters : list Z) : option Z :=
  owner_for_digest (key_digest k) voters.

(** ** The maximum *)

Lemma score_le_total x y : score_le x y ∨ score_le y x.
Proof. apply (total (lex_le Z.le Z.le)). Qed.
Lemma score_le_trans x y z : score_le x y → score_le y z → score_le x z.
Proof. apply (transitivity (R := lex_le Z.le Z.le)). Qed.
Lemma score_le_antisym x y : score_le x y → score_le y x → x = y.
Proof. destruct x, y; unfold score_le, lex_le; simpl. intros. f_equal; lia. Qed.
Lemma score_le_refl x : score_le x x.
Proof. by destruct (score_le_total x x). Qed.

Lemma max_by_key_spec l m :
  max_by_key l = Some m ↔ m ∈ l ∧ ∀ x, x ∈ l → score_le x m.
Proof.
  revert m. induction l as [|x l IH]; intros m; simpl.
  { split; [done|]. by intros [?%not_elem_of_nil _]. }
  destruct (max_by_key l) as [y|] eqn:Hy.
  - destruct (proj1 (IH y) eq_refl) as [Hin Hmax]. case_decide as Hxy.
    + split.
      * intros [= <-]. split; [by right|]. intros z [->|Hz]%elem_of_cons; auto.
      * intros [Hm Hle]. f_equal. apply score_le_antisym; [apply Hle; by right|].
        apply elem_of_cons in Hm as [->|Hm]; auto.
    + assert (score_le y x) by (destruct (score_le_total x y); naive_solver). split.
      * intros [= <-]. split; [by left|]. intros z [->|Hz]%elem_of_cons; [apply score_le_refl|].
        eapply score_le_trans; eauto.
      * intros [Hm Hle]. f_equal. apply score_le_antisym; [apply Hle; by left|].
        apply elem_of_cons in Hm as [->|Hm]; [apply score_le_refl|].
        eapply score_le_trans; eauto.
  - destruct l as [|y l].
    + split.
      * intros [= <-]. split; [left|]. intros z ->%list_elem_of_singleton. apply score_le_refl.
      * intros [->%list_elem_of_singleton _]. done.
    + simpl in Hy. destruct (max_by_key l); [case_decide|]; done.
Qed.

(** The owner is the voter with the best (score, id) pair. *)
Lemma owner_for_digest_spec d voters v :
  owner_for_digest d voters = Some v ↔
  v ∈ voters ∧ ∀ w, w ∈ voters →
    score_le (rendezvous_score w d, w) (rendezvous_score v d, v).
Proof.
  unfold owner_for_digest. rewrite fmap_Some. setoid_rewrite max_by_key_spec.
  split.
  - intros ([sc v'] & [Hin Hmax] & ->). apply list_elem_of_fmap in Hin as (u & [= -> ->] & Hu).
    split; [done|]. intros w Hw. apply Hmax. apply list_elem_of_fmap. by exists w.
  - intros [Hv Hmax]. exists (rendezvous_score v d, v). split; [|done]. split.
    + apply list_elem_of_fmap. by exists v.
    + intros x (w & -> & Hw)%list_elem_of_fmap. by apply Hmax.
Qed.

(** Owners by membership only. *)
Lemma owner_unique d voters voters' v v' :
  (∀ w, w ∈ voters ↔ w ∈ voters') →
  owner_for_digest d voters = Some v → owner_for_digest d voters' = Some v' → v = v'.
Proof.
  intros Hiff [H1 H2]%owner_for_digest_spec [H3 H4]%owner_for_digest_spec.
  assert ((rendezvous_score v d, v) = (rendezvous_score v' d, v')) as [= _ ->]; [|done].
  apply score_le_antisym; [apply H4; by apply Hiff|apply H2; by apply Hiff].
Qed.

Lemma owner_total d voters : voters ≠ [] → is_Some (owner_for_digest d voters).
Proof.
  intros Hne. unfold owner_for_digest. destruct voters as [|v l]; [done|]. simpl.
  destruct (max_by_key _); [case_decide|]; simpl; eauto.
Qed.
End ownership.

(** ** Claims *)

(** Exactly one owner, the same on every node: for any hash function, a
    non-empty voter set gives every branch an owner, the owner is a voter, and
    two nodes that list the same voters in different orders (or with
    repetitions) compute the same one. *)
Theorem owner_agreement xxh64 k voters voters' :
  voters ≠ [] → (∀ v, v ∈ voters ↔ v ∈ voters') →
  ∃ v, v ∈ voters ∧ owner xxh64 k voters = Some v ∧ owner xxh64 k voters' = Some v.
Proof.
  intros Hne Hiff. unfold owner. destruct (owner_total xxh64 (key_digest xxh64 k) voters Hne) as [v Hv].
  assert (voters' ≠ []) as Hne'.
  { destruct voters as [|u l]; [done|]. intros ->. by apply (not_elem_of_nil u), Hiff; left. }
  destruct (owner_total xxh64 (key_digest xxh64 k) voters' Hne') as [v' Hv'].
  exists v. split; [by apply owner_for_digest_spec in Hv as [? _]|]. split; [done|].
  rewrite Hv'. f_equal. symmetry. by eapply owner_unique.
Qed.

Definition toy_hash (bytes : list Z) (seed : Z) : Z := foldl (λ h b, (h * 31 + b) mod 1009) seed bytes.

Lemma owner_agreement_witness :
  owner toy_hash (mkRefKey "db" "main") [1; 2; 3; 4] = owner toy_hash (mkRefKey "db" "main") [4; 3; 2; 1]
  ∧ ∃ v, v ∈ [1; 2; 3; 4] ∧ owner toy_hash (mkRefKey "db" "main") [1; 2; 3; 4] = Some v
      ∧ owner toy_hash (mkRefKey "db" "main") [4; 3; 2; 1] = Some v.
Proof.
  split; [by vm_compute|].
  apply (owner_agreement toy_hash (mkRefKey "db" "main") [1; 2; 3; 4] [4; 3; 2; 1]); [done|].
  intros v. rewrite !elem_of_cons. naive_solver.
Defined.

(** Minimal disruption: when the voter set changes, a branch whose owner is
    still a voter moves only if it moves to a voter that joined; so removing a
    voter reassigns only that voter's branches, and adding voters moves
    branches only onto the new ones. *)
Theorem owner_minimal_disruption xxh64 k before after v v' :
  owner xxh64 k before = Some v → owner xxh64 k after = Some v' →
  v ∈ after → v' = v ∨ v' ∉ before.
Proof.
  unfold owner. intros [H1 H2]%owner_for_digest_spec [H3 H4]%owner_for_digest_spec Hv.
  destruct (decide (v' ∈ before)) as [Hin|]; [left|by right].
  assert ((rendezvous_score xxh64 v' (key_digest xxh64 k), v')
          = (rendezvous_score xxh64 v (key_digest xxh64 k), v)) as [= _ ->]; [|done].
  apply score_le_antisym; [by apply H2|by apply H4].
Qed.

Lemma owner_minimal_disruption_witness :
  owner toy_hash (mkRefKey "db" "main") [1; 2; 3; 4] = Some 4
  ∧ ((4 : Z) = 4 ∨ 4 ∉ [1; 2; 3; 4]).
Proof.
  split; [by vm_compute|].
  apply (owner_minimal_disruption toy_hash (mkRefKey "db" "main") [1; 2; 3; 4] [2; 3; 4] 4 4);
    [by vm_compute|by vm_compute|]. rewrite !elem_of_cons. naive_solver.
Defined.
