(* ===== verification/Waiter.v ===== *)
(** * Parked proposers and staged receipts
    ([fluree-db-consensus/src/raft/waiter.rs], [raft/staged_receipt.rs], and the
    waiter side of [raft/app.rs])

    A proposer arms interest in its submission before proposing it; the
    adapter binds the interest to the queue id when this node applies the
    enqueue, and resolves it when the entry leaves the queue.  The two
    [DashMap]s are maps; a oneshot channel is an entry of a channel table under
    the ticket it was created for, and the [Arc<OnceLock<u64>>] a ticket shares
    with its map entry is the table of bound ids, so pointer identity is
    equality of tickets.  A receipt is a parameter [R] with the constructor
    [AppliedReceipt::Minimal]. *)

From S2P Require Import Prelude LedgerId NsTypes NsApply.
#[export] Instance ContentId_countable : Countable ContentId.
Proof. refine (inj_countable' cid_bytes mkCid _). by intros []. Defined.

Section waiter.
Context {R : Type} (Minimal : ContentId → Z → R).

Inductive WaiterOutcome := WOApplied (receipt : R) | WOAborted (reason : AbortReason).

(** The channel of a ticket: its sender is alive, has sent, or was dropped. *)
Inductive Channel := ChOpen | ChSent (o : WaiterOutcome) | ChClosed.

Record Interest := mkInterest { it_ref_key : RefKey; it_ticket : Z }.
Record Waiter := mkWaiter { wt_ref_key : RefKey; wt_ticket : Z }.

Record WaiterMap := mkWaiterMap {
  wm_interests : gmap ContentId Interest;
  wm_waiters : gmap Z Waiter;
  wm_bound : gmap Z Z;
  wm_channels : gmap Z Channel;
  wm_next_ticket : Z;
}.

Definition empty_waiter_map : WaiterMap := mkWaiterMap ∅ ∅ ∅ ∅ 0.

(** Dropping a sender that has not sent closes the channel. *)
Definition drop_sender (chans : gmap Z Channel) (t : Z) : gmap Z Channel :=
  match chans !! t with Some ChOpen => <[t := ChClosed]> chans | _ => chans end.

(** [sender.send(outcome)]. *)
Definition send (chans : gmap Z Channel) (t : Z) (o : WaiterOutcome) : gmap Z Channel :=
  match chans !! t with Some ChOpen => <[t := ChSent o]> chans | _ => chans end.

(** [WaiterMap::arm]: the map and the new ticket.  An interest already armed
    under the id is replaced and its sender dropped. *)
Definition arm (m : WaiterMap) (request_cid : ContentId) (ref_key : RefKey) : WaiterMap * Z :=
  let t := wm_next_ticket m in
  let chans := match wm_interests m !! request_cid with
               | Some old => drop_sender (wm_channels m) (it_ticket old)
               | None => wm_channels m
               end in
  (mkWaiterMap (<[request_cid := mkInterest ref_key t]> (wm_interests m)) (wm_waiters m)
     (wm_bound m) (<[t := ChOpen]> chans) (t + 1), t).

(** [WaiterMap::bind]. *)
Definition bind_waiter (m : WaiterMap) (request_cid : ContentId) (queue_id : Z) : WaiterMap :=
  match wm_interests m !! request_cid with
  | None => m
  | Some interest =>
      let t := it_ticket interest in
      let bound := match wm_bound m !! t with
                   | Some _ => wm_bound m
                   | None => <[t := queue_id]> (wm_bound m)
                   end in
      let chans := match wm_waiters m !! queue_id with
                   | Some old => drop_sender (wm_channels m) (wt_ticket old)
                   | None => wm_channels m
                   end in
      mkWaiterMap (delete request_cid (wm_interests m))
        (<[queue_id := mkWaiter (it_ref_key interest) t]> (wm_waiters m)) bound chans
        (wm_next_ticket m)
  end.

Definition resolve_with (m : WaiterMap) (queue_id : Z) (outcome : WaiterOutcome) : WaiterMap :=
  match wm_waiters m !! queue_id with
  | Some waiter =>
      mkWaiterMap (wm_interests m) (delete queue_id (wm_waiters m)) (wm_bound m)
        (send (wm_channels m) (wt_ticket waiter) outcome) (wm_next_ticket m)
  | None => m
  end.

Definition resolve_applied (m : WaiterMap) (queue_id : Z) (receipt : R) : WaiterMap :=
  resolve_with m queue_id (WOApplied receipt).
Definition resolve_aborted (m : WaiterMap) (queue_id : Z) (reason : AbortReason) : WaiterMap :=
  resolve_with m queue_id (WOAborted reason).

(** [WaiterMap::abort_all_for_branch]. *)
Definition abort_all_for_branch (m : WaiterMap) (ref_key : RefKey) (reason : AbortReason)
    : WaiterMap :=
  let ids := fst <$> filter (λ x, wt_ref_key x.2 = ref_key) (map_to_list (wm_waiters m)) in
  foldl (λ m queue_id, resolve_aborted m queue_id reason) m ids.

(** One interest abandoned by [drain_all_with]. *)
Definition abandon_interest (reason : AbortReason) (m : WaiterMap) (cid : ContentId)
    : WaiterMap :=
  match wm_interests m !! cid with
  | Some interest =>
      mkWaiterMap (delete cid (wm_interests m)) (wm_waiters m) (wm_bound m)
        (send (wm_channels m) (it_ticket interest) (WOAborted reason)) (wm_next_ticket m)
  | None => m
  end.

(** [WaiterMap::drain_all_with]. *)
Definition drain_all_with (m : WaiterMap) (reason : AbortReason) : WaiterMap :=
  let ids := fst <$> map_to_list (wm_waiters m) in
  let m1 := foldl (λ m queue_id, resolve_aborted m queue_id reason) m ids in
  let cids := fst <$> map_to_list (wm_interests m1) in
  foldl (abandon_interest reason) m1 cids.

(** [Drop for WaiterTicket]: only the ticket's own entry is removed. *)
Definition drop_ticket (m : WaiterMap) (request_cid : ContentId) (t : Z) : WaiterMap :=
  match wm_bound m !! t with
  | Some queue_id =>
      match wm_waiters m !! queue_id with
      | Some w =>
          if wt_ticket w =? t then
            mkWaiterMap (wm_interests m) (delete queue_id (wm_waiters m)) (wm_bound m)
              (drop_sender (wm_channels m) t) (wm_next_ticket m)
          else m
      | None => m
      end
  | None =>
      match wm_interests m !! request_cid with
      | Some i =>
          if it_ticket i =? t then
            mkWaiterMap (delete request_cid (wm_interests m)) (wm_waiters m) (wm_bound m)
              (drop_sender (wm_channels m) t) (wm_next_ticket m)
          else m
      | None => m
      end
  end.

(** ** Staged receipts *)

Definition ReceiptMap : Type := gmap Z (RefKey * R).

Definition stash (m : ReceiptMap) (queue_id : Z) (ref_key : RefKey) (receipt : R) : ReceiptMap :=
  <[queue_id := (ref_key, receipt)]> m.
Definition stash_if_absent (m : ReceiptMap) (queue_id : Z) (ref_key : RefKey) (receipt : R)
    : ReceiptMap * bool :=
  match m !! queue_id with
  | None => (<[queue_id := (ref_key, receipt)]> m, true)
  | Some _ => (m, false)
  end.
Definition take_receipt (m : ReceiptMap) (queue_id : Z) : ReceiptMap * option R :=
  (delete queue_id m, snd <$> m !! queue_id).
Definition take_for_ref_key (m : ReceiptMap) (ref_key : RefKey) : ReceiptMap :=
  let matching := fst <$> filter (λ x, x.2.1 = ref_key) (map_to_list m) in
  foldl (λ m qid, delete qid m) m matching.

(** ** The waiter side of the observer *)

(** [NameServiceObserver::resolve_waiter] over both maps. *)
Definition resolve_waiter (m : WaiterMap) (rm : ReceiptMap) (resolution : WaiterResolution)
    : WaiterMap * ReceiptMap :=
  match resolution with
  | WBind request_cid queue_id => (bind_waiter m request_cid queue_id, rm)
  | WApplied queue_id commit_id commit_t =>
      let '(rm', staged) := take_receipt rm queue_id in
      (resolve_applied m queue_id (default (Minimal commit_id commit_t) staged), rm')
  | WAborted queue_id reason =>
      (resolve_aborted m queue_id reason, (take_receipt rm queue_id).1)
  | WAbortBranch ref_key reason =>
      (abort_all_for_branch m ref_key reason, take_for_ref_key rm ref_key)
  end.

(** Phase two of [publish], on the waiters and the receipts. *)
Definition publish_effect (mr : WaiterMap * ReceiptMap) (e : Effect) : WaiterMap * ReceiptMap :=
  match e with
  | EWaiter resolution => resolve_waiter mr.1 mr.2 resolution
  | EInvalidateInFlight => (drain_all_with mr.1 AbortSnapshotInstalled, ∅)
  | EEvent _ | EHeadAdvance _ _ | ERelease _ _ => mr
  end.
Definition publish (mr : WaiterMap * ReceiptMap) (effects : list Effect)
    : WaiterMap * ReceiptMap :=
  foldl publish_effect mr effects.
End waiter.

(** * The invariant of the waiter map

    Every ticket is in at most one place, an open channel is always held by an
    armed interest or a bound waiter, and each operation keeps it so.  The
    second half computes what a round of aborts leaves. *)

Section waiter_wf.
Context {R : Type}.
Implicit Types (m : WaiterMap (R:=R)).

Definition held m (t : Z) : Prop :=
  (∃ c i, wm_interests m !! c = Some i ∧ it_ticket i = t)
  ∨ (∃ q w, wm_waiters m !! q = Some w ∧ wt_ticket w = t).

Record wm_wf m : Prop := {
  wm_interest c i : wm_interests m !! c = Some i →
    wm_channels m !! it_ticket i = Some ChOpen ∧ wm_bound m !! it_ticket i = None;
  wm_waiter q w : wm_waiters m !! q = Some w →
    wm_channels m !! wt_ticket w = Some ChOpen ∧ wm_bound m !! wt_ticket w = Some q;
  wm_interest_inj c1 c2 i1 i2 :
    wm_interests m !! c1 = Some i1 → wm_interests m !! c2 = Some i2 →
    it_ticket i1 = it_ticket i2 → c1 = c2;
  (* no proposer waits on a channel nobody will answer *)
  wm_held t : wm_channels m !! t = Some ChOpen → held m t;
  wm_fresh t : wm_next_ticket m <= t →
    wm_channels m !! t = None ∧ wm_bound m !! t = None;
}.

Lemma wm_wf_empty : wm_wf empty_waiter_map.
Proof. by constructor. Qed.

Lemma wm_waiter_inj m q1 q2 w1 w2 :
  wm_wf m → wm_waiters m !! q1 = Some w1 → wm_waiters m !! q2 = Some w2 →
  wt_ticket w1 = wt_ticket w2 → q1 = q2.
Proof.
  intros Hwf H1 H2 E. apply (wm_waiter _ Hwf) in H1 as [_ H1], H2 as [_ H2].
  rewrite E in H1. congruence.
Qed.

Lemma wm_disjoint m c i q w :
  wm_wf m → wm_interests m !! c = Some i → wm_waiters m !! q = Some w →
  it_ticket i ≠ wt_ticket w.
Proof.
  intros Hwf H1 H2 E. apply (wm_interest _ Hwf) in H1 as [_ H1].
  apply (wm_waiter _ Hwf) in H2 as [_ H2]. rewrite E in H1. congruence.
Qed.

(** Ending the channel of one ticket. *)
Lemma drop_sender_open chans t :
  chans !! t = Some ChOpen → drop_sender (R:=R) chans t = <[t := ChClosed]> chans.
Proof. unfold drop_sender. by intros ->. Qed.
Lemma send_open chans t (o : WaiterOutcome) :
  chans !! t = Some ChOpen → send (R:=R) chans t o = <[t := ChSent o]> chans.
Proof. unfold send. by intros ->. Qed.

(** Removing a waiter and ending its channel. *)
Lemma wm_wf_remove_waiter m q w ch :
  wm_wf m → wm_waiters m !! q = Some w → ch ≠ ChOpen →
  wm_wf (mkWaiterMap (wm_interests m) (delete q (wm_waiters m)) (wm_bound m)
           (<[wt_ticket w := ch]> (wm_channels m)) (wm_next_ticket m)).
Proof.
  intros Hwf Hq Hch. constructor; simpl.
  - intros c i Hc. pose proof (wm_disjoint _ _ _ _ _ Hwf Hc Hq).
    rewrite lookup_insert_ne by done. by apply (wm_interest _ Hwf c).
  - intros q' w' [Hne Hq']%lookup_delete_Some. rewrite lookup_insert_ne.
    { by apply (wm_waiter _ Hwf). }
    intros E. apply Hne. by eapply wm_waiter_inj.
  - apply (wm_interest_inj _ Hwf).
  - intros t [[_ ?]|[Hne Ht]]%lookup_insert_Some; [done|]. apply (wm_held _ Hwf) in Ht.
    destruct Ht as [Ht|(q' & w' & Hq' & Ht)]; [by left|right]. exists q', w'. split; [|done].
    simpl. rewrite lookup_delete_ne; [done|]. intros <-. simplify_eq.
  - intros t Ht. destruct (wm_fresh _ Hwf t Ht) as [Hn ?]. split; [|done].
    rewrite lookup_insert_ne; [done|]. intros <-.
    apply (wm_waiter _ Hwf) in Hq as [Hq _]. congruence.
Qed.

(** Removing an interest and ending its channel. *)
Lemma wm_wf_remove_interest m c i ch :
  wm_wf m → wm_interests m !! c = Some i → ch ≠ ChOpen →
  wm_wf (mkWaiterMap (delete c (wm_interests m)) (wm_waiters m) (wm_bound m)
           (<[it_ticket i := ch]> (wm_channels m)) (wm_next_ticket m)).
Proof.
  intros Hwf Hc Hch. constructor; simpl.
  - intros c' i' [Hne Hc']%lookup_delete_Some. rewrite lookup_insert_ne.
    { by apply (wm_interest _ Hwf c'). }
    intros E. apply Hne. by eapply (wm_interest_inj _ Hwf).
  - intros q w Hq. pose proof (wm_disjoint _ _ _ _ _ Hwf Hc Hq).
    rewrite lookup_insert_ne by done. by apply (wm_waiter _ Hwf).
  - intros c1 c2 i1 i2 [_ H1]%lookup_delete_Some [_ H2]%lookup_delete_Some.
    by apply (wm_interest_inj _ Hwf).
  - intros t [[_ ?]|[Hne Ht]]%lookup_insert_Some; [done|]. apply (wm_held _ Hwf) in Ht.
    destruct Ht as [(c' & i' & Hc' & Ht)|Ht]; [left|by right]. exists c', i'. split; [|done].
    simpl. rewrite lookup_delete_ne; [done|]. intros <-. simplify_eq.
  - intros t Ht. destruct (wm_fresh _ Hwf t Ht) as [Hn ?]. split; [|done].
    rewrite lookup_insert_ne; [done|]. intros <-.
    apply (wm_interest _ Hwf) in Hc as [Hc _]. congruence.
Qed.

(** A fresh interest under an id that has none. *)
Lemma wm_wf_add_interest m c k :
  wm_wf m → wm_interests m !! c = None →
  let t := wm_next_ticket m in
  wm_wf (mkWaiterMap (<[c := mkInterest k t]> (wm_interests m)) (wm_waiters m)
           (wm_bound m) (<[t := ChOpen]> (wm_channels m)) (t + 1)).
Proof.
  intros Hwf Hc t. destruct (wm_fresh _ Hwf t ltac:(lia)) as [Hch Hb].
  assert (∀ c i, wm_interests m !! c = Some i → it_ticket i ≠ t) as Hi.
  { intros c' i Hc' E. apply (wm_interest _ Hwf) in Hc' as [? _]. congruence. }
  assert (∀ q w, wm_waiters m !! q = Some w → wt_ticket w ≠ t) as Hw.
  { intros q w Hq E. apply (wm_waiter _ Hwf) in Hq as [? _]. congruence. }
  constructor; simpl.
  - intros c' i [[<- <-]|[Hne Hc']]%lookup_insert_Some; simpl; [by rewrite lookup_insert_eq|].
    rewrite lookup_insert_ne by (apply not_eq_sym; eauto). by apply (wm_interest _ Hwf c').
  - intros q w Hq. rewrite lookup_insert_ne by (apply not_eq_sym; eauto).
    by apply (wm_waiter _ Hwf).
  - intros c1 c2 i1 i2 [[<- <-]|[? H1]]%lookup_insert_Some [[<- <-]|[? H2]]%lookup_insert_Some;
      simpl; intros E; try done; [by destruct (Hi _ _ H2)|by destruct (Hi _ _ H1)|].
    by eapply (wm_interest_inj _ Hwf).
  - intros t' [[<- _]|[Hne Ht]]%lookup_insert_Some.
    + left. exists c. eexists. simpl. by rewrite lookup_insert_eq.
    + apply (wm_held _ Hwf) in Ht as [(c' & i & Hc' & Ht)|Ht]; [left|by right].
      exists c', i. split; [|done]. simpl. rewrite lookup_insert_ne; [done|]. congruence.
  - intros t' Ht. destruct (wm_fresh _ Hwf t' ltac:(lia)) as [? ?]. split; [|done].
    rewrite lookup_insert_ne by lia. done.
Qed.

Lemma arm_wf m c k : wm_wf m → wm_wf (arm m c k).1.
Proof.
  intros Hwf. unfold arm. destruct (wm_interests m !! c) as [i|] eqn:Hc; simpl.
  - rewrite drop_sender_open by by apply (wm_interest _ Hwf c).
    rewrite <- (insert_delete_eq (wm_interests m)).
    pose proof (wm_wf_remove_interest m c i ChClosed Hwf Hc ltac:(done)) as Hwf1.
    exact (wm_wf_add_interest _ c k Hwf1 (lookup_delete_eq _ _)).
  - by apply wm_wf_add_interest.
Qed.

(** Moving an interest to a queue id that has no waiter. *)
Lemma wm_wf_bind_free m c i q :
  wm_wf m → wm_interests m !! c = Some i → wm_waiters m !! q = None →
  wm_wf (mkWaiterMap (delete c (wm_interests m))
           (<[q := mkWaiter (it_ref_key i) (it_ticket i)]> (wm_waiters m))
           (<[it_ticket i := q]> (wm_bound m)) (wm_channels m) (wm_next_ticket m)).
Proof.
  intros Hwf Hc Hq. destruct (wm_interest _ Hwf _ _ Hc) as [Hch Hb]. constructor; simpl.
  - intros c' i' [Hne Hc']%lookup_delete_Some. rewrite lookup_insert_ne.
    { by apply (wm_interest _ Hwf c'). }
    intros E. apply Hne. by eapply (wm_interest_inj _ Hwf).
  - intros q' w [[<- <-]|[Hne Hq']]%lookup_insert_Some; simpl; [by rewrite lookup_insert_eq|].
    rewrite lookup_insert_ne by by eapply wm_disjoint. by apply (wm_waiter _ Hwf).
  - intros c1 c2 i1 i2 [_ H1]%lookup_delete_Some [_ H2]%lookup_delete_Some.
    by apply (wm_interest_inj _ Hwf).
  - intros t Ht. apply (wm_held _ Hwf) in Ht as [(c' & i' & Hc' & <-)|(q' & w & Hq' & <-)].
    + destruct (decide (c' = c)) as [->|Hne].
      * simplify_eq. right. exists q. eexists. simpl. by rewrite lookup_insert_eq.
      * left. exists c', i'. simpl. by rewrite lookup_delete_ne.
    + right. exists q', w. simpl. rewrite lookup_insert_ne by congruence. done.
  - intros t Ht. destruct (wm_fresh _ Hwf t Ht) as [? ?]. split; [done|].
    rewrite lookup_insert_ne by congruence. done.
Qed.

Lemma bind_wf m c q : wm_wf m → wm_wf (bind_waiter m c q).
Proof.
  intros Hwf. unfold bind_waiter. destruct (wm_interests m !! c) as [i|] eqn:Hc; [|done].
  destruct (wm_interest _ Hwf _ _ Hc) as [Hch Hb]. rewrite Hb.
  destruct (wm_waiters m !! q) as [w|] eqn:Hq.
  - rewrite drop_sender_open by by apply (wm_waiter _ Hwf q).
    rewrite <- (insert_delete_eq (wm_waiters m)).
    pose proof (wm_wf_remove_waiter m q w ChClosed Hwf Hq ltac:(done)) as Hwf1.
    exact (wm_wf_bind_free _ c i q Hwf1 Hc (lookup_delete_eq _ _)).
  - by apply wm_wf_bind_free.
Qed.

Lemma resolve_with_wf m q o : wm_wf m → wm_wf (resolve_with m q o).
Proof.
  intros Hwf. unfold resolve_with. destruct (wm_waiters m !! q) as [w|] eqn:Hq; [|done].
  rewrite send_open by by apply (wm_waiter _ Hwf q). by apply wm_wf_remove_waiter.
Qed.

Lemma abandon_interest_wf m reason c : wm_wf m → wm_wf (abandon_interest reason m c).
Proof.
  intros Hwf. unfold abandon_interest. destruct (wm_interests m !! c) as [i|] eqn:Hc; [|done].
  rewrite send_open by by apply (wm_interest _ Hwf c). by apply wm_wf_remove_interest.
Qed.

Lemma drop_ticket_wf m c t : wm_wf m → wm_wf (drop_ticket m c t).
Proof.
  intros Hwf. unfold drop_ticket. destruct (wm_bound m !! t) as [q|] eqn:Hb.
  - destruct (wm_waiters m !! q) as [w|] eqn:Hq; [|done].
    destruct (wt_ticket w =? t) eqn:E; [|done]. reflect_bools. subst t.
    rewrite drop_sender_open by by apply (wm_waiter _ Hwf q). by apply wm_wf_remove_waiter.
  - destruct (wm_interests m !! c) as [i|] eqn:Hc; [|done].
    destruct (it_ticket i =? t) eqn:E; [|done]. reflect_bools. subst t.
    rewrite drop_sender_open by by apply (wm_interest _ Hwf c). by apply wm_wf_remove_interest.
Qed.

Lemma foldl_wf {A} (f : WaiterMap (R:=R) → A → WaiterMap) m l :
  (∀ m x, wm_wf m → wm_wf (f m x)) → wm_wf m → wm_wf (foldl f m l).
Proof. intros Hf. revert m. induction l; simpl; eauto. Qed.

Lemma abort_all_wf m k reason : wm_wf m → wm_wf (abort_all_for_branch m k reason).
Proof. apply foldl_wf. intros. by apply resolve_with_wf. Qed.

Lemma drain_all_wf m reason : wm_wf m → wm_wf (drain_all_with m reason).
Proof.
  intros Hwf. unfold drain_all_with. apply foldl_wf; [intros; by apply abandon_interest_wf|].
  apply foldl_wf; [intros; by apply resolve_with_wf|done].
Qed.

(** ** What the operations leave *)

Lemma resolve_with_waiters m q o :
  wm_waiters (resolve_with m q o) = delete q (wm_waiters m).
Proof.
  unfold resolve_with. destruct (wm_waiters m !! q) eqn:Hq; [done|]. by rewrite delete_id.
Qed.

Lemma resolve_with_interests m q o : wm_interests (resolve_with m q o) = wm_interests m.
Proof. unfold resolve_with. by destruct (wm_waiters m !! q). Qed.

(** The resolved waiter gets the outcome. *)
Lemma resolve_with_sent m q w o :
  wm_wf m → wm_waiters m !! q = Some w →
  wm_channels (resolve_with m q o) !! wt_ticket w = Some (ChSent o).
Proof.
  intros Hwf Hq. unfold resolve_with. rewrite Hq; simpl.
  rewrite send_open by by apply (wm_waiter _ Hwf q). apply lookup_insert_eq.
Qed.

(** A channel that has an answer keeps it. *)
Lemma resolve_with_stable m q o o' t :
  wm_channels m !! t = Some (ChSent o') → wm_channels (resolve_with m q o) !! t = Some (ChSent o').
Proof.
  intros Ht. unfold resolve_with. destruct (wm_waiters m !! q) as [w|]; [|done]. simpl.
  unfold send. destruct (wm_channels m !! wt_ticket w) as [[]|] eqn:Hw; try done.
  rewrite lookup_insert_ne by congruence. done.
Qed.

Section resolve_all.
Context (reason : AbortReason).
#[local] Abbreviation resolve_all := (foldl (λ m q, resolve_aborted m q reason)).

Lemma resolve_all_interests m ids : wm_interests (resolve_all m ids) = wm_interests m.
Proof.
  revert m. induction ids as [|q ids IH]; intros m; simpl; [done|].
  rewrite IH. apply resolve_with_interests.
Qed.

Lemma resolve_all_waiters m ids q :
  wm_waiters (resolve_all m ids) !! q = if decide (q ∈ ids) then None else wm_waiters m !! q.
Proof.
  revert m. induction ids as [|q' ids IH]; intros m; [done|]. cbn [foldl].
  rewrite IH. unfold resolve_aborted. rewrite resolve_with_waiters.
  destruct (decide (q ∈ ids)).
  - rewrite decide_True by set_solver. done.
  - destruct (decide (q = q')) as [->|].
    + rewrite decide_True by set_solver. apply lookup_delete_eq.
    + rewrite decide_False by set_solver. by rewrite lookup_delete_ne.
Qed.

Lemma resolve_all_stable m ids t o :
  wm_channels m !! t = Some (ChSent o) → wm_channels (resolve_all m ids) !! t = Some (ChSent o).
Proof.
  revert m. induction ids as [|q ids IH]; intros m Ht; simpl; [done|].
  by apply IH, resolve_with_stable.
Qed.

Lemma resolve_all_sent m ids q w :
  wm_wf m → wm_waiters m !! q = Some w → q ∈ ids →
  wm_channels (resolve_all m ids) !! wt_ticket w = Some (ChSent (WOAborted reason)).
Proof.
  revert m. induction ids as [|q' ids IH]; intros m Hwf Hq; [by intros ?%not_elem_of_nil|].
  simpl. intros Hin. destruct (decide (q' = q)) as [->|Hne].
  - by apply resolve_all_stable, resolve_with_sent.
  - apply IH; [by apply resolve_with_wf| |set_solver].
    unfold resolve_aborted. by rewrite resolve_with_waiters, lookup_delete_ne.
Qed.
End resolve_all.

Lemma elem_of_branch_ids m k q :
  q ∈ (fst <$> filter (λ x, wt_ref_key x.2 = k) (map_to_list (wm_waiters m))) ↔
  ∃ w, wm_waiters m !! q = Some w ∧ wt_ref_key w = k.
Proof.
  rewrite list_elem_of_fmap. split.
  - intros ([q' w] & -> & [Hk Hin]%list_elem_of_filter). apply elem_of_map_to_list in Hin. eauto.
  - intros (w & Hq & Hk). exists (q, w). split; [done|].
    apply list_elem_of_filter. split; [done|]. by apply elem_of_map_to_list.
Qed.

(** The waiters an admin clear leaves are those of other branches. *)
Lemma abort_all_waiters m k reason q w :
  wm_waiters (abort_all_for_branch m k reason) !! q = Some w ↔
  wm_waiters m !! q = Some w ∧ wt_ref_key w ≠ k.
Proof.
  unfold abort_all_for_branch. rewrite resolve_all_waiters. case_decide as Hin.
  - apply elem_of_branch_ids in Hin as (w' & Hw' & Hk). split; [done|]. naive_solver.
  - rewrite elem_of_branch_ids in Hin. naive_solver.
Qed.

Lemma abort_all_sent m k reason q w :
  wm_wf m → wm_waiters m !! q = Some w → wt_ref_key w = k →
  wm_channels (abort_all_for_branch m k reason) !! wt_ticket w
  = Some (ChSent (WOAborted reason)).
Proof.
  intros Hwf Hq Hk. apply (resolve_all_sent reason _ _ q); [done|done|].
  apply elem_of_branch_ids. eauto.
Qed.

Lemma abort_all_interests m k reason :
  wm_interests (abort_all_for_branch m k reason) = wm_interests m.
Proof. apply resolve_all_interests. Qed.

(** A snapshot install abandons everything. *)
Lemma abandon_all_waiters m reason cids :
  wm_waiters (foldl (abandon_interest reason) m cids) = wm_waiters m.
Proof.
  revert m. induction cids as [|c cids IH]; intros m; simpl; [done|]. rewrite IH.
  unfold abandon_interest. by destruct (wm_interests m !! c).
Qed.

Lemma abandon_all_interests m reason cids c i :
  wm_interests (foldl (abandon_interest reason) m cids) !! c = Some i →
  wm_interests m !! c = Some i ∧ c ∉ cids.
Proof.
  revert m. induction cids as [|c' cids IH]; intros m; simpl; [set_solver|].
  intros [H Hn]%IH. unfold abandon_interest in H.
  destruct (wm_interests m !! c') as [i'|] eqn:Hc'; simpl in H.
  - apply lookup_delete_Some in H as [? ?]. set_solver.
  - split; [done|]. rewrite not_elem_of_cons. split; [congruence|done].
Qed.

Lemma drain_all_empty m reason :
  wm_waiters (drain_all_with m reason) = ∅ ∧ wm_interests (drain_all_with m reason) = ∅.
Proof.
  unfold drain_all_with. split; apply map_empty; intros x.
  - rewrite abandon_all_waiters, resolve_all_waiters. case_decide as Hin; [done|].
    destruct (wm_waiters m !! x) as [w|] eqn:Hw; [|done]. destruct Hin.
    apply list_elem_of_fmap. exists (x, w). split; [done|]. by apply elem_of_map_to_list.
  - match goal with |- ?o = None => destruct o as [i|] eqn:H; [|done] end.
    apply abandon_all_interests in H as [H Hn]. destruct Hn.
    apply list_elem_of_fmap. exists (x, i). split; [done|]. by apply elem_of_map_to_list.
Qed.
End waiter_wf.

#[export] Hint Resolve arm_wf bind_wf resolve_with_wf drop_ticket_wf abort_all_wf drain_all_wf
  wm_wf_empty : fluree.
