(* ===== verification/NsNode.v ===== *)
(** * One node: the reducer with its parked proposers

    A node reduces the log into its nameservice state and publishes the effects
    of every entry to its waiter map, while local proposers arm, abandon and
    stash at any point in between; a snapshot install replaces the state and
    invalidates everything in flight.  The theorems say that a bound proposer
    waits only while its entry is queued, and is answered when it leaves. *)

From S2P Require Import Prelude LedgerId Adapter NsTypes NsApply NsStep NsInvariant NsQueue.
From S2P Require Import NsTheorems Waiter.
Import LedgerId.

Section node.
Context {R : Type} (Minimal : ContentId → Z → R).

Record Node := mkNode {
  nd_state : NameServiceState;
  nd_waiters : WaiterMap (R:=R);
  nd_receipts : ReceiptMap (R:=R);
}.

(** The effects the adapter collects for one entry. *)
Definition entry_effects (e : LogEntry) (r : Response) : list Effect :=
  match e with Normal c => (on_command c r).1 | _ => [] end.

(** An entry applied and its effects published. *)
Definition node_apply (nd : Node) (i : Z) (e : LogEntry) : Node :=
  let '(s, r) := apply_entry (nd_state nd) i e in
  let '(m, rm) := publish Minimal (nd_waiters nd, nd_receipts nd) (entry_effects e r) in
  mkNode s m rm.

(** A snapshot installed from the leader. *)
Definition node_install (nd : Node) (s : NameServiceState) : Node :=
  let '(m, rm) := publish Minimal (nd_waiters nd, nd_receipts nd)
                    (on_snapshot_loaded s LiveInstall) in
  mkNode s m rm.

(** A request id is the hash of an envelope that names neither ledger nor
    branch, so submissions of equal envelopes to two branches share it, and an
    interest may be bound by the enqueue of the other branch.  [crossed] is the
    set of queue ids whose waiter was bound that way. *)
Definition crossed_bind (m : WaiterMap (R:=R)) (a : QueueSubmission) (q : Z) (crossed : gset Z) : gset Z :=
  match wm_interests m !! qs_request_cid a with
  | None => crossed
  | Some i => if decide (it_ref_key i = mkRefKey (qs_ledger_id a) (qs_branch a))
              then crossed ∖ {[q]} else {[q]} ∪ crossed
  end.

Definition crossed_for (m : WaiterMap (R:=R)) (c : Command) (r : Response) (crossed : gset Z) : gset Z :=
  match c, waiter_resolution_for c r with
  | EnqueueCommand a, Some (WBind _ q) => crossed_bind m a q crossed
  | _, _ => crossed
  end.

Definition crossed_after (nd : Node) (i : Z) (e : LogEntry) (crossed : gset Z) : gset Z :=
  match e with
  | Normal c => crossed_for (nd_waiters nd) c (apply (nd_state nd) c i).2 crossed
  | _ => crossed
  end.

(** What a node goes through: boot from a state of the log, apply, install, and
    the actions of local proposers and workers. *)
Inductive node_reach : Node → gset Z → Z → Prop :=
  | node_boot s n :
      reachable (λ _, True) s n → node_reach (mkNode s empty_waiter_map ∅) ∅ n
  | node_applies nd crossed n i e :
      node_reach nd crossed n → n < i < two64 →
      node_reach (node_apply nd i e) (crossed_after nd i e crossed) i
  | node_installs nd crossed n s n' :
      node_reach nd crossed n → reachable (λ _, True) s n' → node_reach (node_install nd s) ∅ n'
  | node_arms nd crossed n cid k :
      node_reach nd crossed n →
      node_reach (mkNode (nd_state nd) (arm (nd_waiters nd) cid k).1 (nd_receipts nd)) crossed n
  | node_drops nd crossed n cid t :
      node_reach nd crossed n →
      node_reach (mkNode (nd_state nd) (drop_ticket (nd_waiters nd) cid t) (nd_receipts nd)) crossed n
  | node_stashes nd crossed n q k receipt :
      node_reach nd crossed n →
      node_reach (mkNode (nd_state nd) (nd_waiters nd) (stash (nd_receipts nd) q k receipt)) crossed n.

(** The entry a waiter is bound to is in its branch's queue. *)
Definition queued (s : NameServiceState) (k : RefKey) (q : Z) : Prop :=
  ∃ x, x ∈ queue_of s k ∧ qe_queue_id x = q.

Record node_wf (crossed : gset Z) (nd : Node) : Prop := {
  nw_map : wm_wf (nd_waiters nd);
  nw_waiter q w : wm_waiters (nd_waiters nd) !! q = Some w → q ∉ crossed →
    queued (nd_state nd) (wt_ref_key w) q;
}.

(** ** Publishing *)

Lemma publish_app mr es1 es2 :
  publish Minimal mr (es1 ++ es2) = publish Minimal (publish Minimal mr es1) es2.
Proof. apply foldl_app. Qed.

Lemma publish_ignored mr es :
  Forall (λ e, match e with EWaiter _ | EInvalidateInFlight => False | _ => True end) es →
  publish (R:=R) Minimal mr es = mr.
Proof.
  intros H. revert mr. induction H as [|e es He _ IH]; intros mr; [done|].
  unfold publish in *; simpl. rewrite IH. by destruct e.
Qed.

(** Of the effects of a command only its waiter resolution reaches the maps. *)
Lemma publish_on_command mr c r :
  publish Minimal mr (on_command c r).1 =
  match waiter_resolution_for c r with
  | Some res => resolve_waiter Minimal mr.1 mr.2 res
  | None => mr
  end.
Proof.
  unfold on_command; cbn [fst]. rewrite !publish_app.
  rewrite (publish_ignored mr); [|by destruct (event_for c r); repeat constructor].
  rewrite (publish_ignored (publish _ _ _)); [by destruct (waiter_resolution_for c r)|].
  apply Forall_fmap, Forall_forall. by intros [??] _.
Qed.

Lemma publish_install mr s :
  publish Minimal mr (on_snapshot_loaded s LiveInstall)
  = (drain_all_with mr.1 AbortSnapshotInstalled, ∅).
Proof.
  unfold on_snapshot_loaded. rewrite publish_app, (publish_ignored mr); [done|].
  apply Forall_fmap, Forall_forall. by intros [??] _.
Qed.

Lemma node_apply_normal nd i c :
  let '(s, r) := apply (nd_state nd) c i in
  node_apply nd i (Normal c) =
  let '(m, rm) := match waiter_resolution_for c r with
                  | Some res => resolve_waiter Minimal (nd_waiters nd) (nd_receipts nd) res
                  | None => (nd_waiters nd, nd_receipts nd)
                  end in mkNode s m rm.
Proof.
  unfold node_apply, entry_effects, apply_entry. destruct (apply (nd_state nd) c i) as [s r].
  by rewrite publish_on_command.
Qed.

(** ** Preservation *)

Lemma queued_same s s' k q : queues s' = queues s → queued s k q → queued s' k q.
Proof. intros H. unfold queued, queue_of. by rewrite H. Qed.

(** A submission that joins an entry in flight names an entry of its queue. *)
Lemma in_flight_queued s i a s' l q :
  apply_enqueue_command s i a = (s', InFlight l q) →
  queued s (mkRefKey (qs_ledger_id a) (qs_branch a)) q.
Proof.
  unfold apply_enqueue_command. intros H. case_all_in H.
  match goal with Hf : in_flight _ _ = Some ?e |- _ =>
    apply in_flight_Some in Hf as [? _]; by exists e end.
Qed.

Lemma quiet_resolution c r :
  quiet_response r = true →
  waiter_resolution_for c r = None
  ∨ ∃ a l q, c = EnqueueCommand a ∧ r = InFlight l q
      ∧ waiter_resolution_for c r = Some (WBind (qs_request_cid a) q).
Proof. intros. destruct c, r; simpl in *; try done; eauto 10. Qed.

(** Binding an interest to an entry of a queue. *)
Lemma bind_node_wf crossed s' nd a q rm :
  node_wf crossed nd → (∀ k q, queued (nd_state nd) k q → queued s' k q) →
  queued s' (mkRefKey (qs_ledger_id a) (qs_branch a)) q →
  node_wf (crossed_bind (nd_waiters nd) a q crossed)
    (mkNode s' (bind_waiter (nd_waiters nd) (qs_request_cid a) q) rm).
Proof.
  intros Hwf Hkeep Hq. constructor; simpl; [apply bind_wf, (nw_map _ _ Hwf)|].
  intros q' w. unfold bind_waiter, crossed_bind.
  destruct (wm_interests (nd_waiters nd) !! qs_request_cid a) as [i|]; simpl.
  2:{ intros H Hx. by apply Hkeep, (nw_waiter _ _ Hwf). }
  intros [[<- <-]|[Hne H]]%lookup_insert_Some Hx; simpl.
  - destruct (decide _) as [->|]; [done|set_solver].
  - apply Hkeep, (nw_waiter _ _ Hwf); [done|]. destruct (decide _); set_solver.
Qed.

Lemma keep_node_wf crossed s' nd rm :
  node_wf crossed nd → (∀ k q, queued (nd_state nd) k q → queued s' k q) →
  node_wf crossed (mkNode s' (nd_waiters nd) rm).
Proof. intros [] ?. constructor; simpl; eauto. Qed.

(** An entry that leaves, with the waiter of its id resolved. *)
Lemma retire_node_wf crossed n i s' nd rel k x o oc rm :
  node_wf crossed nd → wf n (nd_state nd) →
  queue_step i (nd_state nd) s' rel (EvRetire k x o) →
  node_wf crossed (mkNode s' (resolve_with (nd_waiters nd) (qe_queue_id x) oc) rm).
Proof.
  intros Hwf Hs Hstep. inversion Hstep as [| | |? ? rest ? Hk _ Hq| |]; subst.
  constructor; simpl.
  - apply resolve_with_wf, (nw_map _ _ Hwf).
  - intros q w. rewrite resolve_with_waiters. intros [Hne Hw]%lookup_delete_Some Hx.
    destruct (nw_waiter _ _ Hwf _ _ Hw Hx) as (y & Hy & <-). exists y. split; [|done].
    destruct (decide (wt_ref_key w = k)) as [E|Hnk].
    + rewrite E in *. rewrite (queue_of_Some _ _ _ Hk) in Hy.
      assert (queue_of s' k = rest) as ->.
      { unfold queue_of. rewrite Hq. by destruct rest; rewrite ?lookup_delete_eq, ?lookup_insert_eq. }
      apply elem_of_cons in Hy as [->|Hy]; [by destruct Hne|done].
    + unfold queue_of in *. rewrite Hq.
      by destruct rest; rewrite ?lookup_delete_ne, ?lookup_insert_ne by done.
Qed.

Lemma clear_node_wf crossed i s' nd rel k reason ab rm :
  node_wf crossed nd → queue_step i (nd_state nd) s' rel (EvClear k reason) →
  node_wf crossed (mkNode s' (abort_all_for_branch (nd_waiters nd) k ab) rm).
Proof.
  intros Hwf Hstep. inversion Hstep as [| | | |? ? ? Hq|]; subst. constructor; simpl.
  - apply abort_all_wf, (nw_map _ _ Hwf).
  - intros q w [Hw Hne]%abort_all_waiters Hx.
    destruct (nw_waiter _ _ Hwf _ _ Hw Hx) as (y & Hy & <-). exists y. split; [|done].
    unfold queue_of in *. by rewrite Hq, lookup_delete_ne.
Qed.

Lemma queued_enqueue i s s' rel k x :
  queue_step i s s' rel (EvEnqueue k x) →
  queued s' k (qe_queue_id x) ∧ ∀ k' q, queued s k' q → queued s' k' q.
Proof.
  intros H. inversion H; subst. split.
  - exists x. split; [|done]. unfold queue_of; simpl. rewrite lookup_insert_eq; simpl. set_solver.
  - intros k' q (y & Hy & <-). exists y. split; [|done]. unfold queue_of in *; simpl.
    destruct (decide (k = k')) as [->|]; [rewrite lookup_insert_eq; simpl; set_solver|].
    by rewrite lookup_insert_ne.
Qed.

(** Only a bind crosses branches. *)
Lemma crossed_for_id m c r crossed :
  (∀ cid q, waiter_resolution_for c r ≠ Some (WBind cid q)) → crossed_for m c r crossed = crossed.
Proof.
  intros H. unfold crossed_for. destruct c; try done.
  destruct (waiter_resolution_for _ r) as [[]|]; try done. by destruct (H request_cid queue_id).
Qed.

Lemma clear_resolution c r k reason res :
  clears c k reason → waiter_resolution_for c r = Some res → res = WAbortBranch k (abort_reason reason).
Proof.
  unfold clears. intros Hc Hr. destruct c, reason; try done; subst; destruct r; simpl in Hr; by simplify_eq.
Qed.

Lemma apply_node_wf crossed n nd i c :
  node_wf crossed nd → wf n (nd_state nd) →
  node_wf (crossed_after nd i (Normal c) crossed) (node_apply nd i (Normal c)).
Proof.
  intros Hwf Hs. pose proof (node_apply_normal nd i c) as E. unfold crossed_after.
  destruct (apply_queue_step i (nd_state nd) c (wf_queues_registered _ _ Hs))
    as (ev & Hstep & Hlab).
  destruct (apply (nd_state nd) c i) as [s' r] eqn:Happ; simpl in *.
  destruct ev as [|k x|k|k x o|k reason|ex mc].
  - inversion Hstep as [_ Hq| | | | |]; subst.
    destruct (quiet_resolution c r Hlab) as [Hn|(a & l & q & -> & -> & Hres)].
    + rewrite crossed_for_id by (intros; by rewrite Hn). rewrite Hn in E. rewrite E.
      apply keep_node_wf; [done|]. intros. by eapply queued_same.
    + rewrite Hres in E. rewrite E. apply bind_node_wf; [done|intros; by eapply queued_same|].
      eapply queued_same; [done|]. by eapply in_flight_queued.
  - destruct Hlab as (a & -> & -> & -> & ->). simpl in E. rewrite E.
    destruct (queued_enqueue _ _ _ _ _ _ Hstep) as [Hq Hkeep]. by apply bind_node_wf.
  - destruct Hlab as (l & q & reason & ->).
    assert (waiter_resolution_for c (QueueDesync l q (QueueCleared reason)) = None) as Hn
      by (by destruct c). rewrite crossed_for_id by (intros; by rewrite Hn). rewrite Hn in E. rewrite E.
    apply keep_node_wf; [done|]. intros. inversion Hstep; subst. done.
  - destruct Hlab as [(a & rel & -> & -> & Hid & -> & ->)|(a & rel & -> & -> & Hid & -> & ->)];
      simpl in E; rewrite E, Hid; by eapply retire_node_wf.
  - destruct Hlab as [Hclears Hlab].
    assert (∀ cid q, waiter_resolution_for c r ≠ Some (WBind cid q)) as Hnb
      by (intros cid q Hb; by pose proof (clear_resolution _ _ _ _ _ Hclears Hb)).
    rewrite crossed_for_id by done. destruct (waiter_resolution_for c r) as [res|] eqn:Hres.
    + rewrite (clear_resolution _ _ _ _ _ Hclears Hres) in E. simpl in E. rewrite E. by eapply clear_node_wf.
    + destruct Hlab as [Hlab|Hempty]; [done|]. rewrite E. apply keep_node_wf; [done|].
      inversion Hstep as [| | | |? ? ? Hq|]; subst. intros k' q (y & Hy & <-). exists y.
      split; [|done]. destruct (decide (k = k')) as [->|]; [rewrite Hempty in Hy; set_solver|].
      unfold queue_of in *. by rewrite Hq, lookup_delete_ne.
  - destruct Hlab as (cutoff & -> & _). simpl in E. rewrite E. apply keep_node_wf; [done|].
    intros. inversion Hstep as [| | | | |? ? ? Hq]; subst. by eapply queued_same.
Qed.

Lemma node_apply_state nd i e : nd_state (node_apply nd i e) = (apply_entry (nd_state nd) i e).1.
Proof. unfold node_apply. destruct (apply_entry _ _ _). by destruct (publish _ _ _). Qed.

Lemma node_reach_state nd crossed n :
  node_reach nd crossed n → reachable (λ _, True) (nd_state nd) n.
Proof.
  induction 1 as [|nd crossed n i e Hr IH Hi|nd crossed n s n' Hr IH Hs| | |]; auto.
  - rewrite node_apply_state. apply (reach_entry _ _ n); [done..|]. by destruct e.
  - unfold node_install. by destruct (publish _ _ _).
Qed.

Lemma node_reach_wf nd crossed n : node_reach nd crossed n → node_wf crossed nd.
Proof.
  induction 1 as [s n Hs|nd crossed n i e Hr IH Hi|nd crossed n s n' Hr IH Hs|nd crossed n cid k Hr IH
    |nd crossed n cid t Hr IH|nd crossed n q k rec Hr IH].
  - by constructor; [apply wm_wf_empty|..].
  - pose proof (reachable_wf _ _ _ (node_reach_state _ _ _ Hr)) as Hwf.
    destruct e as [c|v|]; [by eapply apply_node_wf|..]; by destruct IH.
  - unfold node_install. rewrite publish_install. destruct IH as [Hm _].
    destruct (drain_all_empty (nd_waiters nd) AbortSnapshotInstalled) as [Hw Hi].
    constructor; simpl; [by apply drain_all_wf|by rewrite Hw].
  - destruct IH as [Hm Hw]. constructor; simpl; [by apply arm_wf|done].
  - destruct IH as [Hm Hw]. constructor; simpl; [by apply drop_ticket_wf|].
    unfold drop_ticket. intros q w Hq. case_all_in Hq; eauto;
      match goal with H : delete _ _ !! _ = Some _ |- _ => apply lookup_delete_Some in H as [_ ?] end;
      eauto.
  - by destruct IH.
Qed.

(** The answer a proposer gets when its entry leaves by log entry [e]. *)
Definition answer (nd : Node) (q : Z) (k : RefKey) (e : LogEntry) (o : WaiterOutcome) : Prop :=
  match e with
  | Normal (ApplyHead a) =>
      sh_queue_id a = q
      ∧ o = WOApplied (default (Minimal (sh_commit_id a) (sh_commit_t a))
                         (snd <$> nd_receipts nd !! q))
  | Normal (PoisonQueueEntry a) =>
      ep_queue_id a = q ∧ o = WOAborted (AbortPoisoned (ep_reason a))
  | Normal c => ∃ reason, clears c k reason ∧ o = WOAborted (abort_reason reason)
  | _ => False
  end.

Lemma node_apply_answer crossed n nd i c q w :
  node_wf crossed nd → wf n (nd_state nd) →
  wm_waiters (nd_waiters nd) !! q = Some w → q ∉ crossed →
  ¬ queued (apply (nd_state nd) c i).1 (wt_ref_key w) q →
  ∃ o, wm_channels (nd_waiters (node_apply nd i (Normal c))) !! wt_ticket w = Some (ChSent o)
    ∧ answer nd q (wt_ref_key w) (Normal c) o.
Proof.
  intros Hwf Hs Hw Hx Hgone. pose proof (node_apply_normal nd i c) as E.
  pose proof (nw_waiter _ _ Hwf _ _ Hw Hx) as Hqd. pose proof (nw_map _ _ Hwf) as Hm.
  destruct (apply_queue_step i (nd_state nd) c (wf_queues_registered _ _ Hs))
    as (ev & Hstep & Hlab).
  destruct (apply (nd_state nd) c i) as [s' r] eqn:Happ; simpl in *.
  destruct ev as [|k x|k|k x o|k reason|ex mc].
  - inversion Hstep as [_ Hq| | | | |]; subst. destruct Hgone. by eapply queued_same.
  - destruct Hgone. by eapply queued_enqueue.
  - inversion Hstep; subst. by destruct Hgone.
  - assert (qe_queue_id x = q) as Hxq.
    { destruct (decide (qe_queue_id x = q)) as [|Hne]; [done|]. destruct Hgone.
      pose proof (retire_node_wf crossed n i s' nd _ k x o (WOAborted AbortBranchDropped) ∅
        Hwf Hs Hstep) as Hwf'.
      apply (nw_waiter _ _ Hwf' q w); simpl; [|done]. by rewrite resolve_with_waiters, lookup_delete_ne. }
    destruct Hlab as [(a & rel & -> & -> & Hid & -> & ->)|(a & rel & -> & -> & Hid & -> & ->)];
      simpl in E; rewrite E; simpl; eexists; split; try (by split; [congruence|]).
    + rewrite Hid, Hxq. by apply resolve_with_sent.
    + rewrite Hid, Hxq. by apply resolve_with_sent.
  - destruct (decide (wt_ref_key w = k)) as [Hk|Hne].
    2:{ destruct Hgone. inversion Hstep as [| | | |? ? ? Hq|]; subst.
        destruct Hqd as (y & Hy & <-). exists y. split; [|done]. unfold queue_of in *.
        by rewrite Hq, lookup_delete_ne. }
    rewrite Hk in *. destruct Hlab as [Hclears [Hres|Hempty]].
    2:{ destruct Hqd as (y & Hy & _). rewrite Hempty in Hy. by apply not_elem_of_nil in Hy. }
    rewrite Hres in E. simpl in E. rewrite E; simpl.
    exists (WOAborted (abort_reason reason)). split; [by eapply abort_all_sent|].
    unfold clears in Hclears. destruct c; try done; by exists reason.
  - inversion Hstep as [| | | | |? ? ? Hq]; subst. destruct Hgone. by eapply queued_same.
Qed.
End node.

(** ** Claims *)

(** C28: No proposer is stranded by its own branch: on a node that has gone
    through any interleaving of applied entries, snapshot installs, arms for
    any branch, abandoned tickets and stashed receipts, every channel still open
    belongs to an interest whose enqueue has not been applied here, or to a
    waiter whose entry is still in its branch's queue, or to a waiter that the
    enqueue of an equal envelope on another branch was bound to. *)
Theorem ns_no_stranded_waiter {R} (Minimal : ContentId → Z → R) nd crossed n t :
  node_reach Minimal nd crossed n →
  wm_channels (nd_waiters nd) !! t = Some ChOpen →
  (∃ c i, wm_interests (nd_waiters nd) !! c = Some i ∧ it_ticket i = t)
  ∨ (∃ q w, wm_waiters (nd_waiters nd) !! q = Some w ∧ wt_ticket w = t
       ∧ (queued (nd_state nd) (wt_ref_key w) q ∨ q ∈ crossed)).
Proof.
  intros Hr Ht. pose proof (node_reach_wf _ _ _ _ Hr) as Hwf.
  destruct (wm_held _ (nw_map _ _ Hwf) t Ht) as [?|(q & w & Hq & Hw)]; [by left|right].
  exists q, w. split; [done|]. split; [done|].
  destruct (decide (q ∈ crossed)); [by right|left]. by apply (nw_waiter _ _ Hwf).
Qed.

(** C4: A proposer bound to an entry of its own branch is answered when the
    entry leaves the queue, with the right answer: the staged receipt (or the
    commit's identity) when an [ApplyHead] named its entry, the poison reason
    when it was poisoned, and the matching abort when an admin command cleared
    its branch.  The history of the node is arbitrary; equal envelopes may be
    submitted to several branches. *)
Theorem ns_waiter_answered {R} (Minimal : ContentId → Z → R) nd crossed n i e q w :
  node_reach Minimal nd crossed n → n < i < two64 →
  wm_waiters (nd_waiters nd) !! q = Some w → q ∉ crossed →
  ¬ queued (nd_state (node_apply Minimal nd i e)) (wt_ref_key w) q →
  ∃ o, wm_channels (nd_waiters (node_apply Minimal nd i e)) !! wt_ticket w = Some (ChSent o)
    ∧ answer Minimal nd q (wt_ref_key w) e o.
Proof.
  intros Hr Hi Hw Hx Hgone. pose proof (node_reach_wf _ _ _ _ Hr) as Hwf.
  pose proof (reachable_wf _ _ _ (node_reach_state _ _ _ _ Hr)) as Hs.
  rewrite node_apply_state in Hgone. destruct e as [c|v|]; simpl in Hgone.
  - by eapply node_apply_answer.
  - by destruct Hgone; apply (nw_waiter _ _ Hwf).
  - by destruct Hgone; apply (nw_waiter _ _ Hwf).
Qed.

(** A proposer that armed, was bound by its enqueue, and is committed. *)
Definition demo_minimal (c : ContentId) (t : Z) : ContentId * Z := (c, t).
Definition demo_state : NameServiceState :=
  (run initial_state [(1, Normal (CreateLedger (mkNewLedger "db" "main" 7)))]).1.
Definition demo_node0 : Node :=
  mkNode demo_state (arm (R:=ContentId * Z) empty_waiter_map (mkCid "r1") (mkRefKey "db" "main")).1 ∅.
Definition demo_node : Node :=
  node_apply demo_minimal demo_node0 2 (Normal (EnqueueCommand (demo_sub None "r1" "b1"))).
Definition demo_crossed : gset Z :=
  crossed_after demo_node0 2 (Normal (EnqueueCommand (demo_sub None "r1" "b1"))) ∅.

Lemma demo_state_reach : reachable (λ _, True) demo_state 1.
Proof.
  apply (reachable_run _ initial_state 0
    [(1, Normal (CreateLedger (mkNewLedger "db" "main" 7)))]); [apply reach_init|done].
Qed.

Lemma demo_node_reach : node_reach demo_minimal demo_node demo_crossed 2.
Proof.
  apply (node_applies _ _ _ 1); [|done].
  refine (node_arms demo_minimal (mkNode demo_state empty_waiter_map ∅) ∅ 1 (mkCid "r1") (mkRefKey "db" "main") _).
  apply node_boot, demo_state_reach.
Qed.

Lemma ns_no_stranded_waiter_witness :
  (∃ c i, wm_interests (nd_waiters demo_node) !! c = Some i ∧ it_ticket i = 0)
  ∨ (∃ q w, wm_waiters (nd_waiters demo_node) !! q = Some w ∧ wt_ticket w = 0
       ∧ (queued (nd_state demo_node) (wt_ref_key w) q ∨ q ∈ demo_crossed)).
Proof.
  apply (ns_no_stranded_waiter demo_minimal demo_node demo_crossed 2 0);
    [apply demo_node_reach|by vm_compute].
Defined.

Lemma ns_waiter_answered_witness :
  ∃ o, wm_channels (nd_waiters (node_apply demo_minimal demo_node 3
         (Normal (ApplyHead (demo_head 0 "c1" 1))))) !! 0 = Some (ChSent o)
    ∧ answer demo_minimal demo_node 0 (mkRefKey "db" "main")
        (Normal (ApplyHead (demo_head 0 "c1" 1))) o.
Proof.
  apply (ns_waiter_answered demo_minimal demo_node demo_crossed 2 3
    (Normal (ApplyHead (demo_head 0 "c1" 1))) 0 (mkWaiter (mkRefKey "db" "main") 0));
    [apply demo_node_reach|done|by vm_compute|by vm_compute|].
  intros (x & Hx & _). replace (queue_of _ _) with (@nil QueueEntry) in Hx by (by vm_compute).
  by apply not_elem_of_nil in Hx.
Defined.

(** ** Equal envelopes on two branches

    A proposer for ledger [db2] arms interest in an envelope whose equal is
    already proposed for [db].  The enqueue on [db] binds it; when [db] is
    retracted its queue is cleared, and the proposer is neither answered nor
    bound by the enqueue on its own ledger. *)
Definition cross_node0 : Node :=
  mkNode (run initial_state [(1, Normal (CreateLedger (mkNewLedger "db" "main" 7)));
                             (2, Normal (CreateLedger (mkNewLedger "db2" "main" 7)))]).1
    (arm (R:=ContentId * Z) empty_waiter_map (mkCid "r1") (mkRefKey "db2" "main")).1 ∅.
Definition cross_node : Node :=
  foldl (λ nd '(i, e), node_apply demo_minimal nd i e) cross_node0
    [ (3, Normal (EnqueueCommand (demo_sub None "r1" "b1")));
      (4, Normal (RetractLedger "db" "main" 9));
      (5, Normal (EnqueueCommand (mkSubmission "db2" "main" None (mkCid "r1") (mkCid "b1") Sparql 100))) ].

Example ns_crossed_waiter_stranded :
  wm_channels (nd_waiters cross_node) !! 0 = Some ChOpen
  ∧ wm_waiters (nd_waiters cross_node) !! 0 = Some (mkWaiter (mkRefKey "db2" "main") 0)
  ∧ (qe_queue_id <$> queue_of (nd_state cross_node) (mkRefKey "db" "main")) = []
  ∧ (qe_queue_id <$> queue_of (nd_state cross_node) (mkRefKey "db2" "main")) = [1]
  ∧ wm_waiters (nd_waiters cross_node) !! 1 = None.
Proof. repeat split; by vm_compute. Qed.
