(* ===== verification/NsAdapter.v ===== *)
(** * The nameservice run by the Raft adapter
    ([fluree-db-consensus/src/raft/app.rs] over
    [fluree-raft-core/src/state_machine.rs])

    The instance of [AppStateMachine] that [NameServiceApp] and
    [NameServiceObserver] form, the two phases of [publish], and the theorems
    that tie the adapter to the model of one node: a batch handed over by
    openraft reduces and publishes as its entries one by one, and the ledger
    cache learns every head of a batch before the bus announces any event of
    it. *)

From S2P Require Import Prelude LedgerId Adapter NsTypes NsApply NsStep NsInvariant NsQueue.
From S2P Require Import NsTheorems Waiter NsNode.
Import LedgerId.

(** ** The application *)

(** postcard's encoding of the state is a parameter. *)
Definition name_service_app (to_snapshot : NameServiceState → string + list Z)
    (from_snapshot : list Z → string + NameServiceState)
    : AppStateMachine NameServiceState Command Response Effect := {|
  app_initial_state := initial_state;
  app_apply s command log_index := apply s command log_index;
  app_noop_response := NoOp;
  app_apply_membership s membership _ := apply_membership s (mv_voters membership);
  app_encode_snapshot := to_snapshot;
  app_decode_snapshot := from_snapshot;
  obs_on_command _ command response _ := on_command command response;
  obs_on_membership _ _ _ := [];
  obs_on_snapshot_loaded := on_snapshot_loaded;
|}.

(** ** Publishing *)

(** What [publish] does, in order. *)
Inductive Action :=
  | NoteHeadAdvance (ledger_id : string) (commit_t : Z)
  | Notify (event : NameServiceEvent)
  | ResolveWaiter (resolution : WaiterResolution)
  | SendRelease (ledger_id : string) (cid : ContentId)
  | DrainInFlight.

(** Phase one: the head an effect carries. *)
Definition watermark (e : Effect) : option Action :=
  match e with
  | EEvent (LedgerCommitPublished ledger_id _ commit_t) => Some (NoteHeadAdvance ledger_id commit_t)
  | EHeadAdvance ledger_id commit_t => Some (NoteHeadAdvance ledger_id commit_t)
  | _ => None
  end.

(** Phase two. *)
Definition perform_effect (e : Effect) : option Action :=
  match e with
  | EEvent event => Some (Notify event)
  | EHeadAdvance _ _ => None
  | EWaiter resolution => Some (ResolveWaiter resolution)
  | ERelease ledger_id cid => Some (SendRelease ledger_id cid)
  | EInvalidateInFlight => Some DrainInFlight
  end.

Definition publish_actions (effects : list Effect) : list Action :=
  omap watermark effects ++ omap perform_effect effects.

(** What an action does to the parked proposers and the staged receipts. *)
Definition perform {R} (Minimal : ContentId → Z → R) (mr : WaiterMap * ReceiptMap) (a : Action)
    : WaiterMap * ReceiptMap :=
  match a with
  | ResolveWaiter resolution => resolve_waiter Minimal mr.1 mr.2 resolution
  | DrainInFlight => (drain_all_with mr.1 AbortSnapshotInstalled, ∅)
  | NoteHeadAdvance _ _ | Notify _ | SendRelease _ _ => mr
  end.

Section publish.
Context {R : Type} (Minimal : ContentId → Z → R).

Lemma perform_watermarks mr effects :
  foldl (perform Minimal) mr (omap watermark effects) = mr.
Proof.
  induction effects as [|[[]| | | |] effects IH]; simpl; auto.
Qed.

(** The two phases leave the maps where the single pass over the effects does. *)
Lemma publish_actions_publish mr effects :
  foldl (perform Minimal) mr (publish_actions effects) = publish Minimal mr effects.
Proof.
  unfold publish_actions. rewrite foldl_app, perform_watermarks. unfold publish.
  revert mr. induction effects as [|[] effects IH]; intros mr; simpl; auto.
Qed.
End publish.

(** ** Batches *)

Section batch.
Context (to_snapshot : NameServiceState → string + list Z).
Context (from_snapshot : list Z → string + NameServiceState).
Context {Store M : Type} (membership_view : M → MembershipView).
Context {R : Type} (Minimal : ContentId → Z → R).

#[local] Instance app : AppStateMachine NameServiceState Command Response Effect :=
  name_service_app to_snapshot from_snapshot.
#[local] Abbreviation batch := (apply_batch (Store:=Store) membership_view).

(** The log entry of the reducer model an openraft entry is. *)
Definition log_entry (e : Entry (Cmd:=Command) (M:=M)) : Z * LogEntry :=
  (li_index (en_log_id e),
   match en_payload e with
   | Adapter.Blank => Blank
   | Adapter.Normal c => Normal c
   | Membership m => MembershipChange (mv_voters (membership_view m))
   end).

(** The effects of a log, entry by entry. *)
Fixpoint run_effects (s : NameServiceState) (log : list (Z * LogEntry)) : list Effect :=
  match log with
  | [] => []
  | (i, e) :: rest =>
      let '(s', r) := apply_entry s i e in entry_effects e r ++ run_effects s' rest
  end.

(** A node that applies and publishes one entry at a time. *)
Definition node_run (nd : Node (R:=R)) (log : list (Z * LogEntry)) : Node :=
  foldl (λ nd '(i, e), node_apply Minimal nd i e) nd log.

Lemma apply_one_entry a e :
  let '(i, le) := log_entry e in
  let '(s', r) := apply_entry (ad_state a) i le in
  (ad_state (apply_one (Store:=Store) membership_view a e).1.1 = s')
  ∧ (apply_one membership_view a e).1.2 = drained r
  ∧ (apply_one membership_view a e).2 = entry_effects le r.
Proof.
  unfold apply_one, log_entry; simpl. destruct (en_payload e) as [|c|m]; simpl; [done| |done].
  by destruct (apply _ _ _).
Qed.

Lemma batch_run a es :
  let log := log_entry <$> es in
  let '(a', rs, effs) := batch a es in
  ad_state a' = (run (ad_state a) log).1
  ∧ rs = drained <$> (run (ad_state a) log).2
  ∧ effs = run_effects (ad_state a) log.
Proof.
  cbn zeta. revert a. induction es as [|e es IH]; intros a; [done|].
  cbn [apply_batch]. rewrite fmap_cons.
  pose proof (apply_one_entry a e) as H. destruct (log_entry e) as [i le].
  destruct (apply_entry (ad_state a) i le) as [s' r] eqn:E.
  destruct (apply_one _ a e) as [[a1 r1] eff1]; simpl in H. destruct H as (<- & -> & ->).
  specialize (IH a1). destruct (batch a1 es) as [[a2 rs] effs]. destruct IH as (-> & -> & ->).
  cbn [run run_effects]. rewrite E. by destruct (run (ad_state a1) _).
Qed.

Lemma node_run_state nd log : nd_state (node_run nd log) = (run (nd_state nd) log).1.
Proof.
  revert nd. induction log as [|[i e] log IH]; intros nd; [done|]. simpl. unfold node_run in *.
  simpl. rewrite IH, node_apply_state.
  destruct (apply_entry _ _ _) as [s' r]. simpl. by destruct (run s' log).
Qed.

Lemma node_run_publish nd log :
  (nd_waiters (node_run nd log), nd_receipts (node_run nd log))
  = publish Minimal (nd_waiters nd, nd_receipts nd) (run_effects (nd_state nd) log).
Proof.
  revert nd. induction log as [|[i e] log IH]; intros nd; [done|].
  unfold node_run in *; simpl. rewrite IH. unfold node_apply.
  destruct (apply_entry _ _ _) as [s' r]. simpl. unfold publish. rewrite foldl_app.
  by destruct (foldl _ _ (entry_effects e r)).
Qed.
End batch.

(** ** Announcements *)

(** The commit head a response tells the client about. *)
Definition announces (r : Response) (id : string) (c : ContentId) (t : Z) : Prop :=
  (∃ rel, r = HeadApplied id c t rel) ∨ r = BranchCreated id c t.

Lemma announces_drained r id c t : announces (drained r) id c t → announces r id c t.
Proof. intros [[rel H]|H]; destruct r; simplify_eq/=; unfold announces; eauto. Qed.

Lemma pop_desync s k full q s' r :
  pop_validated_front s k full q = (s', inr r) → ∃ reason, r = QueueDesync full q reason.
Proof. unfold pop_validated_front. case_all; intros; simplify_eq; eauto. Qed.

Lemma versioned_push_response {T} `{!VersionedValue T} m (vs : gmap string T) id e new :
  (apply_versioned_push m vs id e new).2 = vv_updated (T:=T)
  ∨ ∃ a, (apply_versioned_push m vs id e new).2 = vv_conflict a.
Proof. unfold apply_versioned_push. repeat case_match; simpl; eauto. Qed.

(** Only [ApplyHead] and [CreateBranch] give such a response, and both raise
    the event. *)
Lemma announced s c i id cid t :
  announces (apply s c i).2 id cid t →
  event_for c (apply s c i).2 = Some (LedgerCommitPublished id cid t).
Proof.
  assert (∀ r, (∀ rel, r ≠ HeadApplied id cid t rel) → r ≠ BranchCreated id cid t →
    ¬ announces r id cid t) as Hno by (intros r ?? [[? ->] | ->]; naive_solver).
  destruct c; simpl; try (intros H; exfalso; revert H; apply Hno; [intros ?|];
    unfold advance_index_head, rewrite_index_head, set_index_head, create_ledger, drop_branch,
      reset_head, retract_ledger, purge_branch, apply_compare_and_set_ref, apply_versioned_push,
      apply_publish_graph_source_index, apply_retract_graph_source, apply_enqueue_command,
      apply_evict_idempotency, evict_in_order, apply_set_worker_eligibility;
    case_all; simpl; done).
  - unfold create_branch, announces. case_all; intros [[? ?]|?]; simplify_eq/=; done.
  - destruct (apply_versioned_push _ _ _ _ _) as [m r] eqn:Hp; simpl.
    pose proof (versioned_push_response (ledgers s) (status s) ledger_id expected new) as Hr.
    rewrite Hp in Hr. destruct Hr as [Hr|[? Hr]]; simpl in Hr; subst r;
      intros [[? ?]|?]; simplify_eq/=.
  - destruct (apply_versioned_push _ _ _ _ _) as [m r] eqn:Hp; simpl.
    pose proof (versioned_push_response (ledgers s) (config s) (cu_ledger_id args)
      (cu_expected args) (cu_new args)) as Hr.
    rewrite Hp in Hr. destruct Hr as [Hr|[? Hr]]; simpl in Hr; subst r;
      intros [[? ?]|?]; simplify_eq/=.
  - unfold apply_head, announces. destruct (bool_decide _); [intros [[? ?]|?]; simplify_eq/=; done|].
    destruct (pop_validated_front _ _ _ _) as [s1 [e|r]] eqn:Hp.
    + destruct (check_head _ _ _ _); simpl; try destruct (retire_entry _ _ _);
        intros [[? ?]|?]; simplify_eq/=; done.
    + apply pop_desync in Hp as [? ->]. intros [[? ?]|?]; simplify_eq/=; done.
  - unfold apply_poison_queue_entry, announces.
    destruct (pop_validated_front _ _ _ _) as [s1 [e|r]] eqn:Hp.
    + destruct (retire_entry _ _ _); intros [[? ?]|?]; simplify_eq/=; done.
    + apply pop_desync in Hp as [? ->]. intros [[? ?]|?]; simplify_eq/=; done.
Qed.

Lemma run_announced s log r id c t :
  r ∈ (run s log).2 → announces r id c t →
  EEvent (LedgerCommitPublished id c t) ∈ run_effects s log.
Proof.
  revert s. induction log as [|[i e] log IH]; intros s; simpl; [by intros ?%not_elem_of_nil|].
  destruct (apply_entry s i e) as [s' r'] eqn:E. specialize (IH s').
  destruct (run s' log) as [s2 rs]; simpl in *.
  intros [-> | Hr]%elem_of_cons Ha; apply elem_of_app; [left|right; by apply IH].
  destruct e as [cmd|v|]; simpl in E |- *; simplify_eq.
  - pose proof (announced s cmd i id c t) as Hev. rewrite E in Hev; simpl in Hev.
    rewrite (Hev Ha). simpl. by left.
  - by destruct Ha as [[? ?]|?].
  - by destruct Ha as [[? ?]|?].
Qed.

Lemma watermark_before_notify effs id c t pre ev post :
  EEvent (LedgerCommitPublished id c t) ∈ effs →
  publish_actions effs = pre ++ Notify ev :: post → NoteHeadAdvance id t ∈ pre.
Proof.
  intros He Hsplit. unfold publish_actions in Hsplit.
  assert (NoteHeadAdvance id t ∈ omap watermark effs) as Hin
    by (apply list_elem_of_omap; eexists; split; [exact He|done]).
  apply app_eq_inv in Hsplit as [(l & Hpre & Hl)|(l & -> & _)]; [|by apply elem_of_app; left].
  destruct l as [|x l]; [by rewrite app_nil_r in Hpre; rewrite <- Hpre|].
  simplify_eq/=. exfalso. assert (Notify ev ∈ omap watermark effs) as Hno
    by (rewrite Hpre; apply elem_of_app; right; by left).
  apply list_elem_of_omap in Hno as ([[]| | | |] & _ & ?); done.
Qed.

(** ** Claims *)

(** C36: The adapter runs the nameservice: a batch of committed entries, in
    whatever form openraft hands it over, leaves the reducer, the parked
    proposers and the staged receipts exactly as applying and publishing its
    entries one at a time does, and answers every client with the reducer's
    response less the envelopes handed to the release task. *)
Theorem ns_batch_refines_node to_snapshot from_snapshot {Store M R}
    (membership_view : M → MembershipView) (Minimal : ContentId → Z → R)
    (a : StateMachineAdapter (Store:=Store)) nd (es : list Entry) :
  ad_state a = nd_state nd →
  let log := log_entry membership_view <$> es in
  let nd' := node_run Minimal nd log in
  let '(a', rs, effs) := apply_batch (App:=name_service_app to_snapshot from_snapshot)
                           membership_view a es in
  ad_state a' = nd_state nd'
  ∧ rs = drained <$> (run (nd_state nd) log).2
  ∧ foldl (perform Minimal) (nd_waiters nd, nd_receipts nd) (publish_actions effs)
    = (nd_waiters nd', nd_receipts nd').
Proof.
  intros Ha. cbn zeta. pose proof (batch_run to_snapshot from_snapshot membership_view a es) as H.
  destruct (apply_batch _ _ _) as [[a' rs] effs]; simpl in H. destruct H as (Hs & -> & ->).
  rewrite Hs, Ha, node_run_state, publish_actions_publish, node_run_publish. done.
Qed.

(** Watermarks before events: in what one batch publishes, every commit
    head that the batch moved (a head applied or a branch created) has its
    event on the bus, and the ledger cache has been told of that head before
    any event of the batch, of any ledger, reaches the bus. *)
Theorem ns_watermarks_before_events to_snapshot from_snapshot {Store M}
    (membership_view : M → MembershipView)
    (a : StateMachineAdapter (Store:=Store)) (es : list Entry) id c t :
  let '(_, rs, effs) := apply_batch (App:=name_service_app to_snapshot from_snapshot)
                          membership_view a es in
  (∃ r, r ∈ rs ∧ announces r id c t) →
  Notify (LedgerCommitPublished id c t) ∈ publish_actions effs
  ∧ ∀ pre ev post, publish_actions effs = pre ++ Notify ev :: post → NoteHeadAdvance id t ∈ pre.
Proof.
  pose proof (batch_run to_snapshot from_snapshot membership_view a es) as H.
  destruct (apply_batch _ _ _) as [[a' rs] effs]; simpl in H. destruct H as (_ & -> & ->).
  intros (r & (r0 & -> & Hr)%list_elem_of_fmap & Ha%announces_drained).
  pose proof (run_announced _ _ _ _ _ _ Hr Ha) as He. split.
  - apply elem_of_app; right. apply list_elem_of_omap. by eexists.
  - intros pre ev post. by apply watermark_before_notify with c.
Qed.

(** A batch that enqueues and commits on one branch, handed over at once. *)
Definition demo_encode (s : NameServiceState) : string + list Z := inl "unsupported".
Definition demo_decode (b : list Z) : string + NameServiceState := inl "unsupported".
Definition demo_view (m : unit) : MembershipView := mkView {[1]} ∅.
Definition demo_entries : list (Entry (Cmd:=Command) (M:=unit)) :=
  [mkEntry (mkLogId 1 1) (Adapter.Normal (CreateLedger (mkNewLedger "db" "main" 7)));
   mkEntry (mkLogId 1 2) (Membership ());
   mkEntry (mkLogId 1 3) (Adapter.Normal (EnqueueCommand (demo_sub None "r1" "b1")));
   mkEntry (mkLogId 1 4) (Adapter.Normal (ApplyHead (demo_head 0 "c1" 1)))].
Definition demo_adapter : StateMachineAdapter (St:=NameServiceState) (Store:=unit) (M:=unit) :=
  mkAdapter initial_state None (None, ()) 0 ().
Definition demo_parked : Node (R:=ContentId * Z) :=
  mkNode initial_state (arm empty_waiter_map (mkCid "r1") (mkRefKey "db" "main")).1 ∅.

Lemma ns_batch_refines_node_witness :
  let nd' := node_run demo_minimal demo_parked (log_entry demo_view <$> demo_entries) in
  ad_state (apply_batch (App:=name_service_app demo_encode demo_decode) demo_view demo_adapter
    demo_entries).1.1 = nd_state nd'
  ∧ wm_channels (nd_waiters nd') !! 0 = Some (ChSent (WOApplied (mkCid "c1", 1))).
Proof.
  split; [|by vm_compute].
  pose proof (ns_batch_refines_node demo_encode demo_decode demo_view demo_minimal demo_adapter
    demo_parked demo_entries eq_refl) as H. cbv zeta in H |- *.
  destruct (apply_batch _ _ _) as [[a' rs] effs]. apply H.
Defined.

Lemma ns_watermarks_before_events_witness :
  let effs := (apply_batch (App:=name_service_app demo_encode demo_decode) demo_view demo_adapter
    demo_entries).2 in
  Notify (LedgerCommitPublished "db:main" (mkCid "c1") 1) ∈ publish_actions effs.
Proof.
  pose proof (ns_watermarks_before_events demo_encode demo_decode demo_view demo_adapter
    demo_entries "db:main" (mkCid "c1") 1) as H.
  assert ((apply_batch (App:=name_service_app demo_encode demo_decode) demo_view demo_adapter
    demo_entries).1.2 !! 3%nat = Some (HeadApplied "db:main" (mkCid "c1") 1 None)) as Hr
    by (by vm_compute).
  cbv zeta. destruct (apply_batch _ _ _) as [[a' rs] effs]. simpl in *. apply H.
  exists (HeadApplied "db:main" (mkCid "c1") 1 None). split; [|by left; eexists].
  by apply list_elem_of_lookup_2 with 3%nat.
Defined.
