(* ===== verification/FsFrame.v ===== *)
(** * Frames of the segmented Raft log
    ([fluree-raft-core/src/storage/fs.rs], [encode_frame] and [decode_frame])

    An entry is stored as magic, payload length, index, term, payload and a
    hash of all of it.  What was encoded decodes to itself wherever it stands in
    a file, and a frame cut short anywhere does not decode, whatever the hash
    function is.  Offsets and lengths of a file are [nat]; a byte is a [Z]. *)

From S2P Require Import Prelude Adapter.

(** [storage.rs]. *)
Record LogEntry := mkLogEntry { le_log_id : LogId; le_payload : list Z }.

#[export] Instance LogId_eq_dec : EqDecision LogId.
Proof. solve_decision. Defined.
#[export] Instance LogEntry_eq_dec : EqDecision LogEntry.
Proof. solve_decision. Defined.

Definition le_index (e : LogEntry) : Z := li_index (le_log_id e).
Definition le_term (e : LogEntry) : Z := li_term (le_log_id e).

Definition FRAME_MAGIC : list Z := str_bytes "FRLE".
Definition FRAME_HEADER : nat := 4 + 4 + 8 + 8.
Definition FRAME_HASH : nat := 8.

#[global] Arguments FRAME_HEADER : simpl never.
#[global] Arguments FRAME_HASH : simpl never.

Section frame.
(** [xxh64(bytes, seed)]. *)
Context (xxh64 : list Z → Z → Z).

Definition frame_hash (bytes : list Z) : Z := xxh64 bytes 0x526166744c6f6721.

(** The hashed part of a frame. *)
Definition frame_body (entry : LogEntry) : list Z :=
  FRAME_MAGIC ++ le_bytes 4 (Z.of_nat (length (le_payload entry)))
  ++ le_bytes 8 (le_index entry) ++ le_bytes 8 (le_term entry) ++ le_payload entry.

Definition encode_frame (entry : LogEntry) : list Z :=
  let frame := frame_body entry in frame ++ le_bytes 8 (frame_hash frame).

(** The id, the payload and the total length of the frame at [at_]. *)
Definition decode_frame (bytes : list Z) (at_ : nat) : option (LogId * list Z * nat) :=
  match slice bytes at_ (at_ + FRAME_HEADER) with
  | None => None
  | Some header =>
      if decide (take 4 header = FRAME_MAGIC) then
        let len := Z.to_nat (from_le (take 4 (drop 4 header))) in
        let index := from_le (take 8 (drop 8 header)) in
        let term := from_le (take 8 (drop 16 header)) in
        let end_ := (at_ + FRAME_HEADER + len)%nat in
        match slice bytes end_ (end_ + FRAME_HASH) with
        | None => None
        | Some stored =>
            if decide (le_bytes 8 (frame_hash (take (end_ - at_) (drop at_ bytes))) = stored)
            then Some (mkLogId term index, take len (drop (at_ + FRAME_HEADER) bytes),
                       (FRAME_HEADER + len + FRAME_HASH)%nat)
            else None
        end
      else None
  end.

(** An entry whose fields fit their widths. *)
Definition entry_fits (e : LogEntry) : Prop :=
  0 <= le_index e < two64 ∧ 0 <= le_term e < two64
  ∧ Z.of_nat (length (le_payload e)) + 32 <= u32_max.

Lemma length_frame_body e : length (frame_body e) = (FRAME_HEADER + length (le_payload e))%nat.
Proof. unfold frame_body. rewrite !length_app, !length_le_bytes. unfold FRAME_HEADER. simpl. lia. Qed.

Lemma length_encode_frame e :
  length (encode_frame e) = (FRAME_HEADER + length (le_payload e) + FRAME_HASH)%nat.
Proof.
  unfold encode_frame. rewrite length_app, length_le_bytes, length_frame_body. done.
Qed.

(** Decoding at an offset is decoding what follows it. *)
Lemma slice_shift {A} (pre l : list A) a b :
  slice (pre ++ l) (length pre + a) (length pre + b) = slice l a b.
Proof.
  unfold slice. rewrite length_app.
  destruct (decide (a <= b <= length l)%nat).
  - rewrite decide_True by lia. rewrite drop_app_add'; [|done].
    by replace (length pre + b - (length pre + a))%nat with (b - a)%nat by lia.
  - by rewrite decide_False by lia.
Qed.

Lemma decode_frame_shift pre bytes :
  decode_frame (pre ++ bytes) (length pre) = decode_frame bytes 0.
Proof.
  unfold decode_frame. rewrite <- (Nat.add_0_r (length pre)) at 1.
  rewrite slice_shift. rewrite Nat.add_0_l.
  destruct (slice bytes 0 FRAME_HEADER) as [header|]; [|done].
  case_decide; [|done]. set (len := Z.to_nat _).
  rewrite <- !Nat.add_assoc, slice_shift.
  destruct (slice bytes _ _) as [stored|]; [|done].
  rewrite drop_app_length, (drop_app_add' pre bytes _ (FRAME_HEADER)) by done.
  by replace (length pre + (FRAME_HEADER + len) - length pre)%nat
    with (FRAME_HEADER + len - 0)%nat by lia.
Qed.

(** The header of a frame, read back. *)
Lemma frame_header e rest :
  entry_fits e →
  let bytes := frame_body e ++ rest in
  ∃ header, slice bytes 0 (0 + FRAME_HEADER) = Some header
    ∧ take 4 header = FRAME_MAGIC
    ∧ Z.to_nat (from_le (take 4 (drop 4 header))) = length (le_payload e)
    ∧ from_le (take 8 (drop 8 header)) = le_index e
    ∧ from_le (take 8 (drop 16 header)) = le_term e.
Proof.
  intros (Hi & Ht & Hl) bytes.
  set (a := le_bytes 4 (Z.of_nat (length (le_payload e)))).
  set (b := le_bytes 8 (le_index e)). set (c := le_bytes 8 (le_term e)).
  assert (length a = 4%nat ∧ length b = 8%nat ∧ length c = 8%nat) as (Ha & Hb & Hc)
    by (unfold a, b, c; by rewrite !length_le_bytes).
  exists (FRAME_MAGIC ++ a ++ b ++ c). split.
  { unfold bytes, frame_body. fold a b c. rewrite <- !app_assoc.
    rewrite (app_assoc b c), (app_assoc a), (app_assoc FRAME_MAGIC).
    apply (slice_app []); [done|]. rewrite !length_app, Ha, Hb, Hc. done. }
  split; [done|].
  rewrite (drop_app_length' FRAME_MAGIC) by done. rewrite (take_app_length' a) by lia.
  assert (drop 8 (FRAME_MAGIC ++ a ++ b ++ c) = b ++ c) as ->
    by (rewrite (app_assoc FRAME_MAGIC); apply drop_app_length'; rewrite length_app, Ha; done).
  assert (drop 16 (FRAME_MAGIC ++ a ++ b ++ c) = c) as ->
    by (rewrite (app_assoc FRAME_MAGIC), (app_assoc _ b); apply drop_app_length';
        rewrite !length_app, Ha, Hb; done).
  rewrite (take_app_length' b) by lia. rewrite (take_ge c) by lia.
  unfold a, b, c. rewrite !from_le_bytes.
  - split; [apply Nat2Z.id|done].
  - exact Ht.
  - exact Hi.
  - unfold u32_max in Hl. change (256 ^ Z.of_nat 4) with 4294967296. lia.
Qed.

(** What was encoded decodes, wherever it stands. *)
Lemma decode_encode_frame pre e post :
  entry_fits e →
  decode_frame (pre ++ encode_frame e ++ post) (length pre)
  = Some (le_log_id e, le_payload e, length (encode_frame e)).
Proof.
  intros He. rewrite decode_frame_shift, length_encode_frame.
  unfold encode_frame. rewrite <- app_assoc.
  destruct (frame_header e (le_bytes 8 (frame_hash (frame_body e)) ++ post) He)
    as (header & Hs & Hm & Hl & Hi & Ht).
  unfold decode_frame. rewrite Hs, decide_True by done. rewrite Hl, Hi, Ht.
  pose proof (length_frame_body e) as Hb.
  rewrite (slice_app (frame_body e) (le_bytes 8 (frame_hash (frame_body e))) post)
    by (rewrite ?length_le_bytes, ?Hb; unfold FRAME_HASH; lia).
  rewrite drop_0, Nat.sub_0_r, take_app_length' by (rewrite Hb; lia).
  rewrite decide_True by done. do 3 f_equal; [by destruct e as [[] ?]|].
  unfold frame_body. rewrite <- !app_assoc, !(app_assoc _ _ (le_payload e ++ _)).
  rewrite drop_app_length' by (rewrite !length_app, !length_le_bytes; done).
  by apply take_app_length'.
Qed.

(** A frame cut short does not decode. *)
Lemma decode_torn_frame pre p e q :
  entry_fits e → encode_frame e = p ++ q → q ≠ [] → decode_frame (pre ++ p) (length pre) = None.
Proof.
  intros He Hpq Hq. rewrite decode_frame_shift.
  pose proof (length_encode_frame e) as Hlen. rewrite Hpq, length_app in Hlen.
  assert (0 < length q)%nat as Hq' by (destruct q; [done|simpl; lia]).
  unfold decode_frame. destruct (decide (length p < FRAME_HEADER)%nat) as [Hs|Hs].
  { by rewrite slice_None. }
  destruct (frame_header e (le_bytes 8 (frame_hash (frame_body e))) He)
    as (header & Hh & _ & Hl & _).
  replace (slice p 0 (0 + FRAME_HEADER)) with (Some header).
  - case_decide; [|done]. rewrite Hl. by rewrite slice_None by lia.
  - symmetry. rewrite <- Hh. fold (encode_frame e). change (frame_body e ++ _) with (encode_frame e).
    rewrite Hpq. unfold slice. rewrite length_app, !decide_True by lia.
    by rewrite !drop_0, take_app_le by lia.
Qed.
End frame.
