(* ===== verification/RaftLog.v ===== *)
(** * The Raft log store: its contract and the memory backend
    ([fluree-raft-core/src/storage.rs], [storage/memory.rs])

    [Log] is what a log store holds, as openraft sees it: the purge marker and
    a contiguous run of entries.  [RaftLogStore] states what a backend promises
    for the calls Raft makes; [MemoryRaftLogStore] is its first instance, the
    file backend the second. *)

From S2P Require Import Prelude Adapter FsFrame.
(** ** The contract *)

Record Log := mkLog { lg_purged : option LogId; lg_entries : list LogEntry }.

Definition empty_log : Log := mkLog None [].

(** Entries at consecutive indexes from [first] on. *)
Fixpoint contiguous (first : Z) (es : list LogEntry) : Prop :=
  match es with
  | [] => True
  | e :: es => le_index e = first ∧ contiguous (first + 1) es
  end.

(** Above the purge marker. *)
Definition live (purged : option LogId) (index : Z) : bool :=
  match purged with Some p => li_index p <? index | None => true end.

Definition log_wf (L : Log) : Prop :=
  (∃ first, contiguous first (lg_entries L))
  ∧ Forall (λ e, live (lg_purged L) (le_index e) = true) (lg_entries L).

(** Where the next append has to start. *)
Definition next_index (L : Log) : option Z :=
  match last (lg_entries L) with
  | Some e => Some (le_index e + 1)
  | None => (λ p, li_index p + 1) <$> lg_purged L
  end.

Definition spec_append (L : Log) (es : list LogEntry) : Log :=
  mkLog (lg_purged L) (lg_entries L ++ es).
Definition spec_truncate (L : Log) (from : Z) : Log :=
  mkLog (lg_purged L) (filter (λ e, le_index e < from) (lg_entries L)).
Definition spec_purge (L : Log) (id : LogId) : Log :=
  mkLog (match lg_purged L with
         | Some p => if li_index id <=? li_index p then Some p else Some id
         | None => Some id
         end)
    (filter (λ e, li_index id < le_index e) (lg_entries L)).

(** What Raft guarantees of its calls: an append continues the log, a
    truncation stays above the purge marker, ids fit their width. *)
Definition append_ok (L : Log) (es : list LogEntry) : Prop :=
  Forall entry_fits es
  ∧ ∃ first, contiguous first es ∧ first + Z.of_nat (length es) < two64
      ∧ ∀ n, next_index L = Some n → first = n.
Definition truncate_ok (L : Log) (from : Z) : Prop :=
  live (lg_purged L) from = true.
Definition purge_ok (id : LogId) : Prop := 0 <= li_index id < two64 - 1.

Record LogState := mkLogState { st_last_purged : option LogId; st_last_log : option LogId }.

Definition spec_log_state (L : Log) : LogState :=
  mkLogState (lg_purged L) (le_log_id <$> last (lg_entries L)).
Definition spec_read (L : Log) (start end_ : Z) : list LogEntry :=
  filter (λ e, start <= le_index e < end_) (lg_entries L).

(** A read is [None] where the code panics: an inverted range. *)
Class RaftLogStore (S : Type) := {
  ls_append : S → list LogEntry → S * (string + unit);
  ls_read_range : S → Z → Z → option (string + list LogEntry);
  ls_truncate_from : S → Z → S * (string + unit);
  ls_purge_through : S → LogId → S * (string + unit);
  ls_log_state : S → LogState;
  ls_holds : S → Log → Prop;
  ls_append_ok s L es :
    ls_holds s L → append_ok L es →
    ∃ s', ls_append s es = (s', inr ()) ∧ ls_holds s' (spec_append L es);
  ls_truncate_ok s L from :
    ls_holds s L → truncate_ok L from →
    ∃ s', ls_truncate_from s from = (s', inr ()) ∧ ls_holds s' (spec_truncate L from);
  ls_purge_ok s L id :
    ls_holds s L → purge_ok id →
    ∃ s', ls_purge_through s id = (s', inr ()) ∧ ls_holds s' (spec_purge L id);
  ls_read_ok s L start end_ :
    ls_holds s L → start <= end_ → ls_read_range s start end_ = Some (inr (spec_read L start end_));
  ls_log_state_ok s L : ls_holds s L → ls_log_state s = spec_log_state L;
}.

(** The vote and the committed watermark, next to the log. *)
Record Vote := mkVote { vt_term : Z; vt_candidate : Z; vt_committed : bool }.

Definition vote_fits (v : Vote) : Prop := 0 <= vt_term v < two64 ∧ 0 <= vt_candidate v < two64.
Definition log_id_fits (id : LogId) : Prop := 0 <= li_term id < two64 ∧ 0 <= li_index id < two64.

(** [hs_holds s v c n]: the store holds the vote [v] and the watermark [c], and
    has room for [n] more writes of the watermark (a backend may number them). *)
Class RaftHardState (S : Type) := {
  hs_save_vote : S → Vote → S * (string + unit);
  hs_read_vote : S → string + option Vote;
  hs_save_committed : S → option LogId → S * (string + unit);
  hs_read_committed : S → string + option LogId;
  hs_holds : S → option Vote → option LogId → nat → Prop;
  hs_save_vote_ok s v c n vote :
    hs_holds s v c n → vote_fits vote →
    ∃ s', hs_save_vote s vote = (s', inr ()) ∧ hs_holds s' (Some vote) c n;
  hs_save_committed_ok s v c n id :
    hs_holds s v c (1 + n) → (∀ i, id = Some i → log_id_fits i) →
    ∃ s', hs_save_committed s id = (s', inr ()) ∧ hs_holds s' v id n;
  hs_read_ok s v c n :
    hs_holds s v c n → hs_read_vote s = inr v ∧ hs_read_committed s = inr c;
}.

(** ** Contiguous runs *)

Lemma contiguous_app first l k :
  contiguous first (l ++ k) ↔ contiguous first l ∧ contiguous (first + Z.of_nat (length l)) k.
Proof.
  revert first. induction l as [|e l IH]; intros first; simpl.
  { rewrite Z.add_0_r. naive_solver. }
  rewrite IH. replace (first + 1 + Z.of_nat (length l)) with (first + Z.of_nat (S (length l))) by lia.
  naive_solver.
Qed.

Lemma contiguous_range first es e :
  contiguous first es → e ∈ es → first <= le_index e < first + Z.of_nat (length es).
Proof.
  revert first. induction es as [|x es IH]; intros first; simpl; [by intros _ ?%not_elem_of_nil|].
  intros [Hx Hes] [-> | He]%elem_of_cons; [lia|]. specialize (IH _ Hes He). lia.
Qed.

Lemma contiguous_last first es e :
  contiguous first es → last es = Some e → le_index e + 1 = first + Z.of_nat (length es).
Proof.
  intros Hc (es' & ->)%last_Some. apply contiguous_app in Hc as [_ [He _]].
  rewrite length_app. simpl. lia.
Qed.

Lemma contiguous_first first first' es :
  contiguous first es → contiguous first' es → es ≠ [] → first = first'.
Proof. destruct es; [done|]. simpl. intros [<- _] [<- _]. done. Qed.

(** Cutting a contiguous run below or above an index. *)
Lemma contiguous_filter_lt first es from :
  contiguous first es →
  filter (λ e, le_index e < from) es = take (Z.to_nat (from - first)) es.
Proof.
  revert first. induction es as [|e es IH]; intros first Hc; simpl; [by rewrite take_nil|].
  destruct Hc as [He Hc]. specialize (IH _ Hc). destruct (decide (le_index e < from)) as [Hlt|Hge].
  - rewrite filter_cons_True, IH by done.
    replace (Z.to_nat (from - first)) with (S (Z.to_nat (from - (first + 1)))) by lia. done.
  - rewrite filter_cons_False, IH by done.
    by replace (Z.to_nat (from - first)) with 0%nat by lia;
      replace (Z.to_nat (from - (first + 1))) with 0%nat by lia.
Qed.

Lemma contiguous_filter_gt first es p :
  contiguous first es →
  filter (λ e, p < le_index e) es = drop (Z.to_nat (p + 1 - first)) es.
Proof.
  revert first. induction es as [|e es IH]; intros first Hc; simpl; [by rewrite drop_nil|].
  destruct Hc as [He Hc]. specialize (IH _ Hc). destruct (decide (p < le_index e)) as [Hlt|Hge].
  - rewrite filter_cons_True, IH by done.
    by replace (Z.to_nat (p + 1 - first)) with 0%nat by lia;
      replace (Z.to_nat (p + 1 - (first + 1))) with 0%nat by lia.
  - rewrite filter_cons_False, IH by done.
    by replace (Z.to_nat (p + 1 - first)) with (S (Z.to_nat (p + 1 - (first + 1)))) by lia.
Qed.

Lemma contiguous_take first es n : contiguous first es → contiguous first (take n es).
Proof. intros H. rewrite <- (take_drop n es) in H. by apply contiguous_app in H as [? _]. Qed.

Lemma contiguous_drop first es n :
  contiguous first es → contiguous (first + Z.of_nat (Nat.min n (length es))) (drop n es).
Proof.
  intros H. rewrite <- (take_drop n es) in H. apply contiguous_app in H as [_ H].
  by rewrite length_take in H.
Qed.

(** ** Maps ordered by index *)

(** Iteration of a [BTreeMap<u64, _>]. *)
Definition zmap_iter {V} (m : gmap Z V) : list (Z * V) :=
  sort_by (by_key Z.le fst) (map_to_list m).

(** [BTreeMap::range], which panics on an inverted range. *)
Definition zmap_range {V} (m : gmap Z V) (start end_ : Z) : option (list (Z * V)) :=
  if end_ <? start then None
  else Some (filter (λ x, start <= x.1 < end_) (zmap_iter m)).

(** Strictly increasing keys. *)
Definition ascending {V} (l : list (Z * V)) : Prop := StronglySorted (λ x y, x.1 < y.1) l.

Lemma ascending_NoDup {V} (l : list (Z * V)) : ascending l → NoDup l.*1.
Proof.
  induction 1 as [|[k v] l _ IH Hall]; simpl; constructor; [|done].
  rewrite list_elem_of_fmap. intros ([k' v'] & -> & Hin).
  rewrite Forall_forall in Hall. specialize (Hall _ Hin). simpl in *. lia.
Qed.

Lemma zmap_iter_list_to_map {V} (l : list (Z * V)) :
  ascending l → zmap_iter (list_to_map l : gmap Z V) = l.
Proof.
  intros Hl. unfold zmap_iter.
  apply (StronglySorted_unique_strong (by_key Z.le fst)).
  - intros [k1 v1] [k2 v2] H1 H2 H12 H21. unfold by_key in *; simpl in *.
    rewrite elem_of_sort_by in H1. apply elem_of_map_to_list in H1.
    apply (elem_of_list_to_map_1 (M:=gmap Z)) in H2; [|by apply ascending_NoDup].
    assert (k1 = k2) as -> by lia. by simplify_eq.
  - apply sort_by_StronglySorted; apply _.
  - induction Hl as [|x l _ IH Hx]; constructor; [done|].
    eapply Forall_impl; [exact Hx|]. intros y Hy. unfold by_key. simpl in *. lia.
  - rewrite sort_by_Permutation. apply map_to_list_to_map. by apply ascending_NoDup.
Qed.

Lemma ascending_filter {V} (P : Z * V → Prop) `{!∀ x, Decision (P x)} l :
  ascending l → ascending (filter P l).
Proof.
  unfold ascending. induction 1 as [|x l Hl IH Hx]; [constructor|].
  destruct (decide (P x)); [rewrite filter_cons_True by done|by rewrite filter_cons_False].
  constructor; [done|]. rewrite Forall_forall in *. intros y [_ Hy]%list_elem_of_filter. auto.
Qed.

(** Maps written as lists of distinct keys, changed at the end. *)
Lemma list_to_map_snoc {V} (l : list (Z * V)) k v :
  k ∉ l.*1 → (list_to_map (l ++ [(k, v)]) : gmap Z V) = <[k := v]> (list_to_map l).
Proof.
  intros Hk. rewrite list_to_map_app. simpl.
  by rewrite <- insert_union_r, (right_id_L ∅ (∪)) by (by apply not_elem_of_list_to_map_1).
Qed.

Lemma alter_list_to_map_snoc {V} (h : V → V) (l : list (Z * V)) k v :
  k ∉ l.*1 →
  alter h k (list_to_map (l ++ [(k, v)]) : gmap Z V) = list_to_map (l ++ [(k, h v)]).
Proof. intros Hk. rewrite !list_to_map_snoc by done. apply alter_insert_eq. Qed.

Lemma delete_list_to_map_snoc {V} (l : list (Z * V)) k v :
  k ∉ l.*1 → delete k (list_to_map (l ++ [(k, v)]) : gmap Z V) = list_to_map l.
Proof.
  intros Hk. rewrite list_to_map_snoc by done. apply delete_insert_id.
  by apply not_elem_of_list_to_map_1.
Qed.

(** ** The memory backend *)

Record MemoryRaftLogStore := mkMemLog {
  ml_entries : gmap Z LogEntry;
  ml_vote : option Vote;
  ml_committed : option LogId;
  ml_last_purged : option LogId;
}.

(** The store with other entries and purge marker. *)
Definition with_log (s : MemoryRaftLogStore) (entries : gmap Z LogEntry)
    (last_purged : option LogId) : MemoryRaftLogStore :=
  mkMemLog entries (ml_vote s) (ml_committed s) last_purged.

Definition mem_append (s : MemoryRaftLogStore) (entries : list LogEntry)
    : MemoryRaftLogStore * (string + unit) :=
  (with_log s (foldl (λ m e, <[le_index e := e]> m) (ml_entries s) entries) (ml_last_purged s),
   inr ()).

Definition mem_read_range (s : MemoryRaftLogStore) (start end_ : Z)
    : option (string + list LogEntry) :=
  match zmap_range (ml_entries s) start end_ with
  | Some l => Some (inr l.*2)
  | None => None
  end.

Definition mem_truncate_from (s : MemoryRaftLogStore) (from_index : Z)
    : MemoryRaftLogStore * (string + unit) :=
  (with_log s (filter (λ x, x.1 < from_index) (ml_entries s)) (ml_last_purged s), inr ()).

Definition mem_purge_through (s : MemoryRaftLogStore) (log_id : LogId)
    : MemoryRaftLogStore * (string + unit) :=
  (with_log s (filter (λ x, li_index log_id < x.1) (ml_entries s))
     (match ml_last_purged s with
      | Some existing => if li_index log_id <=? li_index existing then Some existing else Some log_id
      | None => Some log_id
      end), inr ()).

Definition mem_log_state (s : MemoryRaftLogStore) : LogState :=
  mkLogState (ml_last_purged s) ((λ x, le_log_id x.2) <$> last (zmap_iter (ml_entries s))).

(** Entries keyed by their index. *)
Definition keyed (es : list LogEntry) : list (Z * LogEntry) := (λ e, (le_index e, e)) <$> es.

Lemma keyed_ascending first es : contiguous first es → ascending (keyed es).
Proof.
  revert first. induction es as [|e es IH]; intros first; [constructor|].
  intros [He Hc]. constructor; [by eapply IH|]. rewrite Forall_forall.
  intros x (y & -> & Hy)%list_elem_of_fmap. simpl.
  pose proof (contiguous_range _ _ _ Hc Hy). lia.
Qed.

Lemma keyed_filter (P : Z * LogEntry → Prop) `{!∀ x, Decision (P x)} es :
  filter P (keyed es) = keyed (filter (λ e, P (le_index e, e)) es).
Proof.
  induction es as [|e es IH]; [done|].
  change (keyed (e :: es)) with ((le_index e, e) :: keyed es).
  destruct (decide (P (le_index e, e))).
  - rewrite !filter_cons_True by done. by rewrite IH.
  - rewrite !filter_cons_False by done. done.
Qed.

Lemma list_to_map_filter {V} (P : Z * V → Prop) `{!∀ x, Decision (P x)} (l : list (Z * V)) :
  NoDup l.*1 →
  filter P (list_to_map l : gmap Z V) = list_to_map (filter P l).
Proof.
  induction l as [|[k v] l IH]; intros Hnd; [apply map_filter_empty|].
  apply NoDup_cons in Hnd as [Hk Hnd]. specialize (IH Hnd). simpl.
  destruct (decide (P (k, v))).
  - rewrite filter_cons_True by done. rewrite map_filter_insert_True by done. simpl. by rewrite IH.
  - rewrite filter_cons_False by done. rewrite map_filter_insert_not'; [done..|].
    intros y Hy. by rewrite (not_elem_of_list_to_map_1 (M:=gmap Z) l k Hk) in Hy.
Qed.

Lemma foldl_insert_keyed (m : gmap Z LogEntry) es :
  foldl (λ m e, <[le_index e := e]> m) m es = list_to_map (rev (keyed es)) ∪ m.
Proof.
  revert m. induction es as [|e es IH]; intros m; simpl; [by rewrite (left_id_L ∅ (∪))|].
  rewrite IH. change (keyed (e :: es)) with ((le_index e, e) :: keyed es). simpl.
  rewrite list_to_map_app. simpl. rewrite <- (assoc_L (∪)). f_equal.
  rewrite <- insert_union_l. by rewrite (left_id_L ∅ (∪)).
Qed.

(** A log is still well formed after each operation. *)
Lemma spec_append_wf L es : log_wf L → append_ok L es → log_wf (spec_append L es).
Proof.
  intros [[f Hc] Hl] (_ & f' & Hc' & _ & Hn). unfold spec_append. split; simpl.
  - unfold next_index in Hn. destruct (last (lg_entries L)) as [e|] eqn:He.
    + exists f. apply contiguous_app. split; [done|].
      rewrite <- (contiguous_last _ _ _ Hc He). by rewrite <- (Hn _ eq_refl).
    + apply last_None in He. rewrite He. by exists f'.
  - apply Forall_app. split; [done|]. rewrite Forall_forall. intros x Hx.
    pose proof (contiguous_range _ _ _ Hc' Hx) as Hr.
    unfold next_index, live in *. destruct (lg_purged L) as [p|]; [|done]. apply Z.ltb_lt.
    destruct (last (lg_entries L)) as [e|] eqn:He; simpl in Hn.
    + apply last_Some in He as [l' He]. rewrite He, Forall_app, Forall_singleton in Hl.
      destruct Hl as [_ Hl%Z.ltb_lt]. specialize (Hn _ eq_refl). lia.
    + specialize (Hn _ eq_refl). lia.
Qed.

Lemma spec_truncate_wf L from : log_wf L → log_wf (spec_truncate L from).
Proof.
  intros [[f Hc] Hl]. split; simpl.
  - rewrite (contiguous_filter_lt _ _ _ Hc). exists f. by apply contiguous_take.
  - rewrite Forall_forall in *. intros x [_ Hx]%list_elem_of_filter. auto.
Qed.

Lemma spec_purge_wf L id : log_wf L → log_wf (spec_purge L id).
Proof.
  intros [[f Hc] Hl]. split; simpl.
  - rewrite (contiguous_filter_gt _ _ _ Hc). eexists. by apply contiguous_drop.
  - rewrite Forall_forall in *. intros x [Hid Hx]%list_elem_of_filter. specialize (Hl _ Hx).
    unfold live in *. destruct (lg_purged L) as [p|]; [destruct (_ <=? _)|];
      [done|by apply Z.ltb_lt..].
Qed.

#[export] Instance memory_log_store : RaftLogStore MemoryRaftLogStore.
Proof.
  refine {| ls_append := mem_append; ls_read_range := mem_read_range;
    ls_truncate_from := mem_truncate_from; ls_purge_through := mem_purge_through;
    ls_log_state := mem_log_state;
    ls_holds s L := log_wf L ∧ ml_last_purged s = lg_purged L
      ∧ ml_entries s = list_to_map (keyed (lg_entries L)) |}.
  - intros [m v c p] L es (Hwf & Hp & Hm) Hok; simpl in *. eexists; split; [done|].
    pose proof (spec_append_wf _ _ Hwf Hok) as Hwf'. split; [done|]. split; [done|]. simpl.
    rewrite foldl_insert_keyed, Hm. unfold keyed at 3. rewrite fmap_app.
    destruct Hwf' as [[f Hc] _]. apply keyed_ascending in Hc. simpl in Hc.
    unfold keyed in Hc. rewrite fmap_app in Hc. apply ascending_NoDup in Hc.
    fold (keyed (lg_entries L)) (keyed es) in Hc |- *.
    rewrite <- list_to_map_app. apply list_to_map_proper; [|].
    + rewrite fmap_app in *. rewrite (Permutation_app_comm _ _).
      rewrite <- (Permutation_rev (keyed es)). done.
    + rewrite <- (Permutation_rev (keyed es)). apply Permutation_app_comm.
  - intros [m v c p] L from (Hwf & Hp & Hm) _; simpl in *. eexists; split; [done|].
    split; [by apply spec_truncate_wf|]. split; [done|]. simpl. rewrite Hm.
    destruct Hwf as [[f Hc] _].
    etrans; [apply (list_to_map_filter (λ x, x.1 < from));
      eauto using ascending_NoDup, keyed_ascending|].
    by rewrite keyed_filter.
  - intros [m v c p] L id (Hwf & Hp & Hm) _; simpl in *. eexists; split; [done|].
    split; [by apply spec_purge_wf|]. split; [by rewrite Hp|]. simpl. rewrite Hm.
    destruct Hwf as [[f Hc] _].
    etrans; [apply (list_to_map_filter (λ x, li_index id < x.1));
      eauto using ascending_NoDup, keyed_ascending|].
    by rewrite keyed_filter.
  - intros [m v c p] L start end_ ([[f Hc] _] & Hp & Hm) Hse; simpl in *.
    unfold mem_read_range, zmap_range. simpl. rewrite (proj2 (Z.ltb_ge _ _)) by done. simpl.
    rewrite Hm, zmap_iter_list_to_map by eauto using keyed_ascending.
    rewrite (keyed_filter (λ x, start <= x.1 < end_)). unfold keyed.
    rewrite <- list_fmap_compose. by rewrite list_fmap_id.
  - intros [m v c p] L ([[f Hc] _] & Hp & Hm); simpl in *. unfold mem_log_state, spec_log_state; simpl.
    rewrite Hp, Hm, zmap_iter_list_to_map by eauto using keyed_ascending.
    unfold keyed. rewrite fmap_last. by destruct (last _).
Defined.

Definition mem_save_vote (s : MemoryRaftLogStore) (vote : Vote)
    : MemoryRaftLogStore * (string + unit) :=
  (mkMemLog (ml_entries s) (Some vote) (ml_committed s) (ml_last_purged s), inr ()).
Definition mem_read_vote (s : MemoryRaftLogStore) : string + option Vote := inr (ml_vote s).
Definition mem_save_committed (s : MemoryRaftLogStore) (log_id : option LogId)
    : MemoryRaftLogStore * (string + unit) :=
  (mkMemLog (ml_entries s) (ml_vote s) log_id (ml_last_purged s), inr ()).
Definition mem_read_committed (s : MemoryRaftLogStore) : string + option LogId :=
  inr (ml_committed s).

#[export] Instance memory_hard_state : RaftHardState MemoryRaftLogStore.
Proof.
  refine {| hs_save_vote := mem_save_vote; hs_read_vote := mem_read_vote;
    hs_save_committed := mem_save_committed; hs_read_committed := mem_read_committed;
    hs_holds s v c _ := ml_vote s = v ∧ ml_committed s = c |}.
  - intros s v c n vote [_ <-] _. by eexists.
  - intros s v c n id [<- _] _. by eexists.
  - intros s v c n [<- <-]. done.
Defined.

(** * Histories of log calls

    The calls Raft makes on a log store, over any [RaftLogStore]: their
    answers, what the abstract log answers, and that an admissible history
    cannot tell a store from the log it holds. *)

Inductive LogCall :=
  | Append (entries : list LogEntry)
  | ReadRange (start end_ : Z)
  | TruncateFrom (from_index : Z)
  | PurgeThrough (log_id : LogId)
  | GetLogState.

(** [ADone] is the result of a write; a read is [None] where it panics. *)
Inductive LogAnswer :=
  | ADone (r : string + unit)
  | AEntries (r : option (string + list LogEntry))
  | AState (st : LogState).

Definition call_ok (L : Log) (c : LogCall) : Prop :=
  match c with
  | Append es => append_ok L es
  | ReadRange start end_ => start <= end_
  | TruncateFrom from => truncate_ok L from
  | PurgeThrough id => purge_ok id
  | GetLogState => True
  end.

Definition spec_call (L : Log) (c : LogCall) : Log * LogAnswer :=
  match c with
  | Append es => (spec_append L es, ADone (inr ()))
  | ReadRange start end_ => (L, AEntries (Some (inr (spec_read L start end_))))
  | TruncateFrom from => (spec_truncate L from, ADone (inr ()))
  | PurgeThrough id => (spec_purge L id, ADone (inr ()))
  | GetLogState => (L, AState (spec_log_state L))
  end.

(** Every call is admissible on the log the calls before it leave. *)
Fixpoint calls_ok (L : Log) (cs : list LogCall) : Prop :=
  match cs with
  | [] => True
  | c :: cs => call_ok L c ∧ calls_ok (spec_call L c).1 cs
  end.

Fixpoint spec_calls (L : Log) (cs : list LogCall) : Log * list LogAnswer :=
  match cs with
  | [] => (L, [])
  | c :: cs =>
      let '(L', a) := spec_call L c in
      let '(L'', answers) := spec_calls L' cs in (L'', a :: answers)
  end.

Section store.
Context {St : Type} `{!RaftLogStore St}.

Definition do_call (s : St) (c : LogCall) : St * LogAnswer :=
  match c with
  | Append es => let '(s', r) := ls_append s es in (s', ADone r)
  | ReadRange start end_ => (s, AEntries (ls_read_range s start end_))
  | TruncateFrom from => let '(s', r) := ls_truncate_from s from in (s', ADone r)
  | PurgeThrough id => let '(s', r) := ls_purge_through s id in (s', ADone r)
  | GetLogState => (s, AState (ls_log_state s))
  end.

Fixpoint do_calls (s : St) (cs : list LogCall) : St * list LogAnswer :=
  match cs with
  | [] => (s, [])
  | c :: cs =>
      let '(s', a) := do_call s c in
      let '(s'', answers) := do_calls s' cs in (s'', a :: answers)
  end.

Lemma do_call_spec s L c :
  ls_holds s L → call_ok L c →
  ∃ s', do_call s c = (s', (spec_call L c).2) ∧ ls_holds s' (spec_call L c).1.
Proof.
  intros Hs Hok. destruct c as [es|start end_|from|id|]; cbn in *.
  - destruct (ls_append_ok s L es Hs Hok) as (s' & -> & ?). eauto.
  - rewrite (ls_read_ok s L) by done. eauto.
  - destruct (ls_truncate_ok s L from Hs Hok) as (s' & -> & ?). eauto.
  - destruct (ls_purge_ok s L id Hs Hok) as (s' & -> & ?). eauto.
  - rewrite (ls_log_state_ok s L) by done. eauto.
Qed.

Lemma do_calls_spec cs : ∀ s L,
  ls_holds s L → calls_ok L cs →
  ∃ s', do_calls s cs = (s', (spec_calls L cs).2) ∧ ls_holds s' (spec_calls L cs).1.
Proof.
  induction cs as [|c cs IH]; intros s L Hs Hok; [by exists s|]. destruct Hok as [Hc Hcs].
  destruct (do_call_spec s L c Hs Hc) as (s1 & Hdo & Hs1).
  destruct (IH s1 _ Hs1 Hcs) as (s2 & Hrun & Hs2). exists s2. cbn [do_calls spec_calls].
  rewrite Hdo, Hrun. destruct (spec_call L c) as [L1 a]. cbn [fst snd] in *.
  by destruct (spec_calls L1 cs).
Qed.
End store.
