(* ===== verification/FsLog.v ===== *)
(** * The segmented Raft log on disk
    ([fluree-raft-core/src/storage/fs.rs], [Inner])

    Entries are appended to segment files named after their first index; an
    in-memory index locates the live ones.  Opening replays the segments: a
    frame that does not decode at the end of the last segment is a torn append
    and is cut off, anything else that does not fit is corruption.

    [Device] is what is durable: the segment files by their first index and the
    purge marker.  An operation is the new in-memory state with the list of
    device operations it performs, in order, each flushed before the next; a
    crash keeps a prefix of them, and of an interrupted write any prefix of its
    bytes.  A segment is created, and the marker replaced, by a rename, so those
    are atomic.  The marker is kept decoded.  I/O errors are not modelled, nor
    is the folding of per-entry files of earlier releases. *)

From S2P Require Import Prelude Adapter FsFrame RaftLog.

Definition SEGMENT_MAGIC : list Z := str_bytes "FRSG0001".
Definition SEGMENT_HEADER : nat := 16.
#[global] Arguments SEGMENT_HEADER : simpl never.

(** ** The device *)

Record Device := mkDevice {
  dv_log : gmap Z (list Z);
  dv_last_purged : option LogId;
}.

Inductive DeviceOp :=
  | WriteAt (segment : Z) (offset : nat) (bytes : list Z)
  | CreateSegment (segment : Z) (bytes : list Z)
  | Unlink (segment : Z)
  | SetLen (segment : Z) (len : nat)
  | WritePurged (id : LogId).

(** [seek] and [write_all]: the bytes replace what is there, past a hole of
    zeros where the file is shorter than the offset. *)
Definition write_bytes (file : list Z) (offset : nat) (bytes : list Z) : list Z :=
  take offset (file ++ replicate (offset - length file) 0) ++ bytes
  ++ drop (offset + length bytes) file.

Definition set_len (file : list Z) (len : nat) : list Z :=
  take len file ++ replicate (len - length file) 0.

Definition run_op (d : Device) (op : DeviceOp) : Device :=
  match op with
  | WriteAt segment offset bytes =>
      mkDevice (alter (λ file, write_bytes file offset bytes) segment (dv_log d)) (dv_last_purged d)
  | CreateSegment segment bytes => mkDevice (<[segment := bytes]> (dv_log d)) (dv_last_purged d)
  | Unlink segment => mkDevice (delete segment (dv_log d)) (dv_last_purged d)
  | SetLen segment len =>
      mkDevice (alter (λ file, set_len file len) segment (dv_log d)) (dv_last_purged d)
  | WritePurged id => mkDevice (dv_log d) (Some id)
  end.

Definition run_ops (d : Device) (ops : list DeviceOp) : Device := foldl run_op d ops.

(** What a crash while [ops] run can leave. *)
Inductive crash : Device → list DeviceOp → Device → Prop :=
  | crash_here d ops : crash d ops d
  | crash_torn d segment offset bytes n ops :
      crash d (WriteAt segment offset bytes :: ops)
        (run_op d (WriteAt segment offset (take n bytes)))
  | crash_later d op ops d' : crash (run_op d op) ops d' → crash d (op :: ops) d'.

(** ** The in-memory state *)

Record Segment := mkSegment { sg_first_index : Z; sg_last_index : option Z; sg_len : nat }.
Record Loc := mkLoc { lc_segment : Z; lc_offset : nat; lc_len : nat; lc_term : Z }.
Record Inner := mkInner {
  in_segments : list Segment;
  in_index : gmap Z Loc;
  in_last_purged : option LogId;
}.

Section fs_log.
Context (xxh64 : list Z → Z → Z) (segment_bytes : nat).
#[local] Abbreviation encode := (encode_frame xxh64).
#[local] Abbreviation decode := (decode_frame xxh64).

(** The highest live index. *)
Definition index_last (st : Inner) : option (Z * Loc) := last (zmap_iter (in_index st)).

Definition segment_header (first_index : Z) : list Z := SEGMENT_MAGIC ++ le_bytes 8 first_index.

(** ** Opening *)

(** The loop over the frames of one segment from [at_]: the entries found, where
    it stopped, the next index, and whether it reached the end.  Every frame
    takes bytes, so the length of the file is enough fuel. *)
Fixpoint scan_frames (fuel : nat) (first : Z) (bytes : list Z) (at_ : nat) (physical_next : Z)
    (last_index : option Z) : list (Z * Loc) * nat * Z * option Z * bool :=
  if decide (at_ = length bytes) then ([], at_, physical_next, last_index, true)
  else
    match fuel, decode bytes at_ with
    | S fuel, Some (id, _, frame_len) =>
        if decide (li_index id = physical_next) then
          let '(locs, at', next', last', clean) :=
            scan_frames fuel first bytes (at_ + frame_len) (physical_next + 1)
              (Some (li_index id)) in
          ((li_index id, mkLoc first at_ frame_len (li_term id)) :: locs, at', next', last', clean)
        else ([], at_, physical_next, last_index, false)
    | _, _ => ([], at_, physical_next, last_index, false)
    end.

Definition header_ok (first : Z) (bytes : list Z) : bool :=
  bool_decide (SEGMENT_HEADER <= length bytes)%nat
  && bool_decide (take 8 bytes = SEGMENT_MAGIC)
  && (from_le (take 8 (drop 8 bytes)) =? first).

(** The loop over the segments, in order of their first index. *)
Fixpoint scan_loop (found : list (Z * list Z)) (expected_next : option Z)
    : list DeviceOp * (string + list Segment * list (Z * Loc)) :=
  match found with
  | [] => ([], inr ([], []))
  | (first, bytes) :: rest =>
      if negb (header_ok first bytes) then
        match rest with
        | [] => ([Unlink first], inr ([], []))
        | _ => ([], inl "bad header")
        end
      else if match expected_next with Some next => negb (next =? first) | None => false end
      then ([], inl "does not continue the previous segment")
      else
        let '(locs, at_, physical_next, last_index, clean) :=
          scan_frames (length bytes) first bytes SEGMENT_HEADER first None in
        let segment := mkSegment first last_index at_ in
        if clean then
          let '(ops, r) := scan_loop rest (Some physical_next) in
          (ops, match r with
                | inl e => inl e
                | inr (segments, locs') => inr (segment :: segments, locs ++ locs')
                end)
        else
          match rest with
          | [] => ([SetLen first at_], inr ([segment], locs))
          | _ => ([], inl "damaged before a later segment")
          end
  end.

(** [Inner::open]: the device operations of the recovery and the state. *)
Definition open (d : Device) : list DeviceOp * (string + Inner) :=
  let last_purged := dv_last_purged d in
  let '(ops, r) := scan_loop (zmap_iter (dv_log d)) None in
  (ops, match r with
        | inl e => inl e
        | inr (segments, locs) =>
            inr (mkInner segments
                   (list_to_map (filter (λ x, live last_purged x.1 = true) locs)) last_purged)
        end).

(** ** Appending *)

(** The leftover header-only segment that [append] removes. *)
Definition pop_leftover (segments : list Segment) (first : Z) : list Segment * list DeviceOp :=
  match last segments with
  | Some seg =>
      if decide (sg_last_index seg = None ∧ sg_first_index seg ≠ first)
      then (take (length segments - 1) segments, [Unlink (sg_first_index seg)])
      else (segments, [])
  | None => (segments, [])
  end.

(** [start_segment], where one is needed. *)
Definition ensure_segment (segments : list Segment) (first : Z) : list Segment * list DeviceOp :=
  let needs_segment :=
    match last segments with Some seg => bool_decide (segment_bytes <= sg_len seg)%nat | None => true end in
  if needs_segment
  then (segments ++ [mkSegment first None SEGMENT_HEADER], [CreateSegment first (segment_header first)])
  else (segments, []).

(** The locations of entries written at [offset] of a segment. *)
Fixpoint entry_locs (segment : Z) (offset : nat) (entries : list LogEntry) : list (Z * Loc) :=
  match entries with
  | [] => []
  | e :: entries =>
      let len := length (encode e) in
      (le_index e, mkLoc segment offset len (le_term e)) :: entry_locs segment (offset + len) entries
  end.

Definition frames (entries : list LogEntry) : list Z := concat (encode <$> entries).

Definition append (st : Inner) (entries : list LogEntry) : string + Inner * list DeviceOp :=
  match entries with
  | [] => inr (st, [])
  | e0 :: _ =>
      let first := le_index e0 in
      if match index_last st with Some (last, _) => negb (first =? last + 1) | None => false end
      then inl "append does not continue the log"
      else
        let '(segments1, ops1) := pop_leftover (in_segments st) first in
        let '(segments2, ops2) := ensure_segment segments1 first in
        match last segments2 with
        | None => inl "unreachable"
        | Some seg =>
            let buf := frames entries in
            let seg' := mkSegment (sg_first_index seg) (le_index <$> last entries)
                          (sg_len seg + length buf) in
            let index := foldl (λ m x, <[x.1 := x.2]> m) (in_index st)
                           (entry_locs (sg_first_index seg) (sg_len seg) entries) in
            inr (mkInner (take (length segments2 - 1) segments2 ++ [seg']) index (in_last_purged st),
                 ops1 ++ ops2 ++ [WriteAt (sg_first_index seg) (sg_len seg) buf])
        end
  end.

(** ** Truncating *)

(** The later segments, removed newest first. *)
Fixpoint drop_later (rev_segments : list Segment) (cut : Z) : list Segment * list DeviceOp :=
  match rev_segments with
  | seg :: rest =>
      if cut <? sg_first_index seg then
        let '(kept, ops) := drop_later rest cut in (kept, Unlink (sg_first_index seg) :: ops)
      else (rev_segments, [])
  | [] => ([], [])
  end.

Definition truncate_from (st : Inner) (from_index : Z) : string + Inner * list DeviceOp :=
  match index_last st with
  | None => inr (st, [])
  | Some (last, _) =>
      if last <? from_index then inr (st, [])
      else
        let cut :=
          match in_index st !! from_index with
          | Some loc => Some (lc_segment loc, lc_offset loc)
          | None => (λ x : Z * Loc, (lc_segment x.2, SEGMENT_HEADER)) <$> head (zmap_iter (in_index st))
          end in
        match cut with
        | None => inl "unreachable"
        | Some (segment, offset) =>
            let '(kept, ops) := drop_later (rev (in_segments st)) segment in
            let index := filter (λ x, x.1 < from_index) (in_index st) in
            match kept with
            | [] => inl "unreachable"
            | seg :: rest =>
                if decide (offset = SEGMENT_HEADER) then
                  inr (mkInner (rev rest) index (in_last_purged st),
                       ops ++ [Unlink (sg_first_index seg)])
                else
                  inr (mkInner (rev rest ++ [mkSegment (sg_first_index seg) (Some (from_index - 1)) offset])
                         index (in_last_purged st),
                       ops ++ [SetLen (sg_first_index seg) offset])
            end
        end
  end.

(** ** Purging *)

Definition obsolete (log_id : LogId) (seg : Segment) : bool :=
  match sg_last_index seg with
  | Some last => last <=? li_index log_id
  | None => sg_first_index seg <=? li_index log_id
  end.

Definition purge_through (st : Inner) (log_id : LogId) : string + Inner * list DeviceOp :=
  if match in_last_purged st with Some p => li_index log_id <=? li_index p | None => false end
  then inr (st, [])
  else
    inr (mkInner (filter (λ seg, obsolete log_id seg = false) (in_segments st))
           (filter (λ x, li_index log_id < x.1) (in_index st)) (Some log_id),
         WritePurged log_id
         :: ((λ seg, Unlink (sg_first_index seg)) <$>
               filter (λ seg, obsolete log_id seg = true) (in_segments st))).

(** ** Reading *)

Definition read_loc (d : Device) (st : Inner) (index : Z) (loc : Loc) : string + LogEntry :=
  match list_find (λ s, sg_first_index s = lc_segment loc) (in_segments st) with
  | None => inl "no such segment"
  | Some _ =>
      match dv_log d !! lc_segment loc with
      | None => inl "open segment"
      | Some file =>
          match slice file (lc_offset loc) (lc_offset loc + lc_len loc) with
          | None => inl "read entry"
          | Some frame =>
              match decode frame 0 with
              | Some (id, payload, _) =>
                  if decide (li_index id = index) then inr (mkLogEntry id payload)
                  else inl "entry failed its check"
              | None => inl "entry failed its check"
              end
          end
      end
  end.

Fixpoint read_all (d : Device) (st : Inner) (l : list (Z * Loc)) : string + list LogEntry :=
  match l with
  | [] => inr []
  | (index, loc) :: l =>
      match read_loc d st index loc with
      | inl e => inl e
      | inr entry =>
          match read_all d st l with inl e => inl e | inr out => inr (entry :: out) end
      end
  end.

Definition read_range (d : Device) (st : Inner) (start end_ : Z)
    : option (string + list LogEntry) :=
  match zmap_range (in_index st) start end_ with
  | Some l => Some (read_all d st l)
  | None => None
  end.

Definition log_state (st : Inner) : LogState :=
  mkLogState (in_last_purged st) ((λ x, mkLogId (lc_term x.2) x.1) <$> index_last st).
End fs_log.
#[global] Arguments frames : simpl never.
#[global] Arguments segment_header : simpl never.
