(* ===== verification/FsLogScan.v ===== *)
(** * Replaying segments

    The files that hold a chain of segments, possibly with a torn frame at the
    very end, and the proof that opening them recovers exactly the chain. *)

From S2P Require Import Prelude Adapter FsFrame RaftLog FsLog.

Section scan.
Context (xxh64 : list Z → Z → Z).
#[local] Abbreviation encode := (encode_frame xxh64).
#[local] Abbreviation decode := (decode_frame xxh64).
#[local] Abbreviation frames := (frames xxh64).
#[local] Abbreviation entry_locs := (entry_locs xxh64).

(** ** Chains of segments *)

Implicit Types gs : list (Z * list LogEntry).

(** Each segment's entries run from its first index; the next one continues
    them; only the last may be empty. *)
Fixpoint chain gs : Prop :=
  match gs with
  | [] => True
  | (f, es) :: rest =>
      0 <= f < two64 ∧ contiguous f es ∧ Forall entry_fits es
      ∧ match rest with [] => True | (f', _) :: _ => es ≠ [] ∧ f' = f + Z.of_nat (length es) end
      ∧ chain rest
  end.

Definition phys gs : list LogEntry := concat (snd <$> gs).
Definition phys_next gs : option Z := (λ g, g.1 + Z.of_nat (length g.2)) <$> last gs.

(** What the file and the in-memory records of a segment are. *)
Definition seg_file (junk : list Z) (g : Z * list LogEntry) : Z * list Z :=
  (g.1, segment_header g.1 ++ frames g.2 ++ junk).
Definition seg_info (g : Z * list LogEntry) : Segment :=
  mkSegment g.1 (le_index <$> last g.2) (SEGMENT_HEADER + length (frames g.2)).
Definition seg_locs (g : Z * list LogEntry) : list (Z * Loc) := entry_locs g.1 SEGMENT_HEADER g.2.
Definition locs gs : list (Z * Loc) := concat (seg_locs <$> gs).

Lemma frames_app es es' : frames (es ++ es') = frames es ++ frames es'.
Proof. unfold frames. by rewrite fmap_app, concat_app. Qed.

Lemma frames_cons e es : frames (e :: es) = encode e ++ frames es.
Proof. done. Qed.

Lemma length_encode_pos e : (0 < length (encode e))%nat.
Proof. rewrite length_encode_frame. unfold FRAME_HEADER. lia. Qed.

Lemma length_frames es : (length es <= length (frames es))%nat.
Proof.
  induction es as [|e es IH]; [done|]. rewrite frames_cons, length_app.
  pose proof (length_encode_pos e). simpl. lia.
Qed.

Lemma length_header f : length (segment_header f) = SEGMENT_HEADER.
Proof. unfold segment_header. by rewrite length_app, length_le_bytes. Qed.

Lemma entry_locs_app f off es es' :
  entry_locs f off (es ++ es') = entry_locs f off es ++ entry_locs f (off + length (frames es)) es'.
Proof.
  revert off. induction es as [|e es IH]; intros off; [by rewrite Nat.add_0_r|].
  rewrite <- app_comm_cons. cbn [FsLog.entry_locs]. rewrite IH, frames_cons, length_app.
  by rewrite Nat.add_assoc.
Qed.

Lemma chain_cons f es gs :
  chain ((f, es) :: gs) →
  0 <= f < two64 ∧ contiguous f es ∧ Forall entry_fits es ∧ chain gs
  ∧ (∀ f', (fst <$> head gs) = Some f' → es ≠ [] ∧ f' = f + Z.of_nat (length es)).
Proof.
  simpl. intros (? & ? & ? & H & ?). do 4 (split; [done|]).
  intros f' Hf'. destruct gs as [|[]]; [done|]. by simplify_eq/=.
Qed.

Lemma chain_app gs f es gs' :
  chain (gs ++ (f, es) :: gs') ↔
  chain gs ∧ chain ((f, es) :: gs') ∧ (gs ≠ [] → phys_next gs = Some f ∧ Forall (λ g, g.2 ≠ []) gs).
Proof.
  induction gs as [|[f0 es0] gs IH]; [simpl; naive_solver|].
  destruct gs as [|[f1 es1] gs].
  - simpl in *. unfold phys_next; simpl. split.
    + intros (H1 & H2 & H3 & [H4 ->] & H5). split; [exact (conj H1 (conj H2 (conj H3 (conj I I))))|]. split; [exact H5|].
      intros _. split; [done|]. by repeat constructor.
    + intros ((H1 & H2 & H3 & _) & H5 & Hn). specialize (Hn ltac:(done)) as [Hn He].
      pose proof (Forall_inv He) as He'. simplify_eq/=.
      exact (conj H1 (conj H2 (conj H3 (conj (conj He' eq_refl) H5)))).
  - rewrite <- app_comm_cons in IH |- *. change (chain ((f0, es0) :: ?x)) with
      (0 <= f0 < two64 ∧ contiguous f0 es0 ∧ Forall entry_fits es0
       ∧ match x with [] => True | (f', _) :: _ => es0 ≠ [] ∧ f' = f0 + Z.of_nat (length es0) end
       ∧ chain x).
    rewrite IH. change (phys_next ((f0, es0) :: (f1, es1) :: gs)) with (phys_next ((f1, es1) :: gs)).
    rewrite (Forall_cons _ (f0, es0)). split.
    + intros (H1 & H2 & H3 & [H4 H5] & H6 & H7 & H8). do 2 (split; [by auto|]).
      intros _. destruct (H8 ltac:(done)). auto.
    + intros ((H1 & H2 & H3 & H4 & H5) & H6 & H7). destruct (H7 ltac:(done)) as (? & ? & ?).
      by auto 10.
Qed.

Lemma chain_prefix gs gs' : chain (gs ++ gs') → chain gs.
Proof. destruct gs' as [|[f es] gs']; [by rewrite app_nil_r|]. by intros [? _]%chain_app. Qed.

Lemma chain_suffix gs gs' : chain (gs ++ gs') → chain gs'.
Proof. destruct gs' as [|[f es] gs']; [done|]. by intros (_ & ? & _)%chain_app. Qed.

Lemma phys_app gs gs' : phys (gs ++ gs') = phys gs ++ phys gs'.
Proof. unfold phys. by rewrite fmap_app, concat_app. Qed.

Lemma locs_app gs gs' : locs (gs ++ gs') = locs gs ++ locs gs'.
Proof. unfold locs. by rewrite fmap_app, concat_app. Qed.

(** The whole chain is one contiguous run. *)
Lemma chain_contiguous gs f es :
  chain ((f, es) :: gs) →
  contiguous f (phys ((f, es) :: gs))
  ∧ phys_next ((f, es) :: gs) = Some (f + Z.of_nat (length (phys ((f, es) :: gs)))).
Proof.
  revert f es. induction gs as [|[f' es'] gs IH]; intros f es Hc.
  - destruct Hc as (_ & Hc & _). unfold phys, phys_next; simpl. by rewrite app_nil_r.
  - apply chain_cons in Hc as (_ & Hc & _ & Hgs & Hn). destruct (Hn f' eq_refl) as [_ ->].
    apply IH in Hgs as [Hc' Hp].
    change (phys ((f, es) :: ?x)) with (es ++ phys x).
    change (phys_next ((f, es) :: ?x :: ?y)) with (phys_next (x :: y)). split.
    + apply contiguous_app. done.
    + rewrite Hp, length_app. f_equal. lia.
Qed.

Lemma chain_run gs : chain gs → ∃ f, contiguous f (phys gs) ∧
  ∀ n, phys_next gs = Some n → n = f + Z.of_nat (length (phys gs)).
Proof.
  destruct gs as [|[f es] gs]; intros Hc; [by exists 0|].
  apply chain_contiguous in Hc as [? Hn]. exists f. split; [done|]. rewrite Hn. by intros ? [= <-].
Qed.

Lemma chain_fits gs : chain gs → Forall entry_fits (phys gs).
Proof.
  induction gs as [|[f es] gs IH]; [constructor|]. intros Hc. apply chain_cons in Hc as (_ & _ & ? & ? & _).
  apply Forall_app. auto.
Qed.

(** ** Files *)

Lemma fst_seg_file junk g : (seg_file junk g).1 = g.1.
Proof. done. Qed.

Lemma chain_keys_ascending gs : chain gs → StronglySorted Z.lt gs.*1.
Proof.
  induction gs as [|[f es] gs IH]; [constructor|]. intros Hc.
  apply chain_cons in Hc as (_ & _ & _ & Hgs & Hn). specialize (IH Hgs).
  change (StronglySorted Z.lt (f :: gs.*1)). constructor; [done|].
  destruct gs as [|[f' es'] gs]; [constructor|]. destruct (Hn f' eq_refl) as [Hes ->].
  assert (0 < length es)%nat by (destruct es; [done|simpl; lia]).
  change ((_ :: gs).*1) with (f + Z.of_nat (length es) :: gs.*1) in IH |- *.
  apply StronglySorted_inv in IH as [_ Hall]. constructor; [lia|].
  eapply Forall_impl; [exact Hall|]. simpl. intros. lia.
Qed.

Lemma ascending_keys {V} (l : list (Z * V)) : StronglySorted Z.lt l.*1 → ascending l.
Proof.
  unfold ascending. induction l as [|x l IH]; [constructor|]. intros H.
  change ((x :: l).*1) with (x.1 :: l.*1) in H. apply StronglySorted_inv in H as [H Hx].
  constructor; [auto|]. rewrite Forall_fmap in Hx. done.
Qed.

Lemma files_keys junk gs : (seg_file junk <$> gs).*1 = gs.*1.
Proof. by rewrite <- list_fmap_compose. Qed.

(** The files of a chain, with [junk] after the last one. *)
Definition files gs (junk : list Z) : list (Z * list Z) :=
  match last gs with
  | Some g => (seg_file [] <$> take (length gs - 1) gs) ++ [seg_file junk g]
  | None => []
  end.

Lemma files_snoc gs g junk : files (gs ++ [g]) junk = (seg_file [] <$> gs) ++ [seg_file junk g].
Proof.
  unfold files. rewrite last_snoc, length_app. simpl.
  by rewrite take_app_length' by lia.
Qed.

Lemma files_clean gs : files gs [] = seg_file [] <$> gs.
Proof.
  destruct gs as [|g gs] using rev_ind; [done|]. by rewrite files_snoc, fmap_app.
Qed.

Lemma files_ascending gs junk : chain gs → ascending (files gs junk).
Proof.
  intros Hc. apply ascending_keys. destruct gs as [|g gs _] using rev_ind; [constructor|].
  rewrite files_snoc, fmap_app, files_keys.
  replace (gs.*1 ++ [seg_file junk g].*1) with ((gs ++ [g]).*1) by (by rewrite fmap_app).
  by apply chain_keys_ascending.
Qed.

(** ** Scanning one segment *)

(** Bytes in which no frame with index [next] starts. *)
Definition torn (next : Z) (junk : list Z) : Prop :=
  match decode junk 0 with Some (id, _, _) => li_index id ≠ next | None => True end.

Lemma torn_nil next : torn next [].
Proof. done. Qed.

Lemma scan_frames_ok es : ∀ fuel first pre junk next last_index,
  contiguous next es → Forall entry_fits es → (length es <= fuel)%nat →
  (junk ≠ [] → torn (next + Z.of_nat (length es)) junk) →
  scan_frames xxh64 fuel first (pre ++ frames es ++ junk) (length pre) next last_index
  = (entry_locs first (length pre) es, (length pre + length (frames es))%nat,
     next + Z.of_nat (length es),
     match last es with Some e => Some (le_index e) | None => last_index end,
     bool_decide (junk = [])).
Proof.
  induction es as [|e es IH]; intros fuel first pre junk next last_index Hc Hf Hfuel Hj.
  - change (frames []) with (@nil Z). cbn [app length FsLog.entry_locs last].
    rewrite Z.add_0_r, Nat.add_0_r in *. destruct junk as [|b junk].
    + destruct fuel; cbn [scan_frames]; rewrite app_nil_r, decide_True by done; done.
    + specialize (Hj ltac:(done)). unfold torn in Hj.
      destruct fuel; cbn [scan_frames]; rewrite decide_False by (rewrite length_app; simpl; lia);
        [done|]. rewrite decode_frame_shift.
      destruct (decode_frame _ _ _) as [[[id ?] ?]|]; [|done]. by rewrite decide_False by done.
  - destruct fuel as [|fuel]; [simpl in Hfuel; lia|]. destruct Hc as [He Hc].
    apply Forall_cons in Hf as [Hfe Hf]. rewrite frames_cons, <- app_assoc.
    pose proof (length_encode_pos e) as Hpos. cbn [scan_frames].
    rewrite decide_False by (rewrite !length_app; lia).
    rewrite (decode_encode_frame xxh64 pre e _ Hfe).
    change (li_index (le_log_id e)) with (le_index e). rewrite decide_True by done.
    rewrite <- (length_app pre), (app_assoc pre).
    rewrite (IH fuel first (pre ++ encode e) junk (next + 1) (Some (le_index e))); [..|done| |].
    + cbn [FsLog.entry_locs length]. rewrite !length_app.
      replace (next + 1 + Z.of_nat (length es)) with (next + Z.of_nat (S (length es))) by lia.
      rewrite last_cons. rewrite <- Nat.add_assoc. by destruct (last es).
    + done.
    + simpl in Hfuel. lia.
    + intros Hne. specialize (Hj Hne). cbn [length] in Hj.
      by replace (next + 1 + Z.of_nat (length es)) with (next + Z.of_nat (S (length es))) by lia.
Qed.

Lemma header_ok_header f rest : 0 <= f < two64 → header_ok f (segment_header f ++ rest) = true.
Proof.
  intros Hf. unfold header_ok.
  rewrite (bool_decide_true (SEGMENT_HEADER <= _)%nat) by (rewrite length_app, length_header; lia).
  unfold segment_header. rewrite <- app_assoc.
  rewrite (take_app_length' SEGMENT_MAGIC) by done. rewrite bool_decide_true by done.
  rewrite (drop_app_length' SEGMENT_MAGIC) by done.
  rewrite take_app_length' by (by rewrite length_le_bytes).
  rewrite from_le_bytes by exact Hf. by rewrite Z.eqb_refl.
Qed.

Lemma scan_segment f es junk :
  0 <= f < two64 → contiguous f es → Forall entry_fits es →
  (junk ≠ [] → torn (f + Z.of_nat (length es)) junk) →
  let bytes := (seg_file junk (f, es)).2 in
  scan_frames xxh64 (length bytes) f bytes SEGMENT_HEADER f None
  = (seg_locs (f, es), sg_len (seg_info (f, es)), f + Z.of_nat (length es),
     sg_last_index (seg_info (f, es)), bool_decide (junk = [])).
Proof.
  intros Hf Hc Hfit Hj bytes. unfold bytes. cbn [seg_file snd fst].
  pose proof (length_frames es). rewrite <- (length_header f) at 1.
  rewrite scan_frames_ok; [|done|done|rewrite !length_app; lia|done].
  unfold seg_locs, seg_info; cbn [fst snd sg_len sg_last_index]. rewrite length_header.
  by destruct (last es).
Qed.

(** ** Scanning the directory *)

Lemma scan_loop_ok gs : ∀ junk exp,
  chain gs → (∀ n, phys_next gs = Some n → junk ≠ [] → torn n junk) → (gs = [] → junk = []) →
  (∀ next, exp = Some next → gs = [] ∨ (fst <$> head gs) = Some next) →
  ∃ ops, scan_loop xxh64 (files gs junk) exp = (ops, inr (seg_info <$> gs, locs gs))
    ∧ ((junk = [] ∧ ops = []) ∨
       (junk ≠ [] ∧ ∃ g, last gs = Some g ∧ ops = [SetLen g.1 (sg_len (seg_info g))])).
Proof.
  induction gs as [|[f es] gs IH]; intros junk exp Hc Hj Hnil Hexp.
  { exists []. rewrite (Hnil eq_refl). split; [done|]. by left. }
  pose proof Hc as Hc0. apply chain_cons in Hc0 as (Hf & Hes & Hfit & Hgs & Hn).
  assert (match exp with Some next => negb (next =? f) | None => false end = false) as He.
  { destruct exp as [next|]; [|done]. destruct (Hexp _ eq_refl) as [?|?]; simplify_eq/=.
    by rewrite Z.eqb_refl. }
  destruct gs as [|g gs].
  - change (files [(f, es)] junk) with [seg_file junk (f, es)].
    assert (junk ≠ [] → torn (f + Z.of_nat (length es)) junk) as Hj' by (intros; by apply Hj).
    pose proof (scan_segment f es junk Hf Hes Hfit Hj') as Hscan.
    cbn [scan_loop]. unfold seg_file at 1. cbn [fst snd]. rewrite header_ok_header by done.
    cbn [negb]. rewrite He. cbv zeta in Hscan. cbn [seg_file fst snd] in Hscan. rewrite Hscan.
    unfold locs. cbn [fmap list_fmap concat]. rewrite app_nil_r.
    destruct (decide (junk = [])) as [->|Hne].
    + rewrite bool_decide_true by done. exists []. cbn [scan_loop]. split; [done|by left].
    + rewrite bool_decide_false by done. eexists. split; [done|]. right. eauto.
  - assert (files ((f, es) :: g :: gs) junk = seg_file [] (f, es) :: files (g :: gs) junk) as ->.
    { unfold files. rewrite last_cons_cons. destruct (last (g :: gs)) eqn:El; [|by apply last_None in El].
      replace (length ((f, es) :: g :: gs) - 1)%nat with (S (length (g :: gs) - 1)) by (simpl; lia).
      done. }
    pose proof (scan_segment f es [] Hf Hes Hfit ltac:(done)) as Hscan.
    cbn [scan_loop]. unfold seg_file at 1. cbn [fst snd]. rewrite header_ok_header by done.
    cbn [negb]. rewrite He. cbv zeta in Hscan. cbn [seg_file fst snd] in Hscan. rewrite Hscan.
    rewrite bool_decide_true by done.
    destruct (IH junk (Some (f + Z.of_nat (length es)))) as (ops & -> & Hops); [done..| | |].
    + done.
    + intros next [= <-]. right. destruct g as [f' es']. by destruct (Hn f' eq_refl) as [_ ->].
    + exists ops. split; [done|]. rewrite last_cons_cons. done.
Qed.

End scan.
