(* ===== verification/FsLogInvariant.v ===== *)
(** * The file log: what a device and its in-memory state represent

    [disk] relates a device, possibly with a torn frame at its end, to the
    chain of segments it holds; [rep] adds the in-memory state.  Opening a
    [disk] gives a [rep] of the same chain, and reads of a [rep] return its
    entries. *)

From S2P Require Import Prelude Adapter FsFrame RaftLog FsLog FsLogScan.
Section invariant.
Context (xxh64 : list Z → Z → Z).
#[local] Abbreviation encode := (encode_frame xxh64).
#[local] Abbreviation frames := (frames xxh64).
#[local] Abbreviation entry_locs := (entry_locs xxh64).
#[local] Abbreviation seg_file := (seg_file xxh64).
#[local] Abbreviation seg_info := (seg_info xxh64).
#[local] Abbreviation seg_locs := (seg_locs xxh64).
#[local] Abbreviation files := (files xxh64).
#[local] Abbreviation locs := (locs xxh64).
#[local] Abbreviation torn := (torn xxh64).

Implicit Types gs : list (Z * list LogEntry).

Record disk (d : Device) (p : option LogId) gs (junk : list Z) : Prop := {
  dk_log : dv_log d = list_to_map (files gs junk);
  dk_purged : dv_last_purged d = p;
  dk_chain : chain gs;
  dk_torn n : phys_next gs = Some n → junk ≠ [] → torn n junk;
  dk_nil : gs = [] → junk = [];
}.

(** The live part of the location table. *)
Definition live_locs (p : option LogId) gs : list (Z * Loc) :=
  filter (λ x, live p x.1 = true) (locs gs).

Record rep (d : Device) (st : Inner) (p : option LogId) gs : Prop := {
  rp_disk : disk d p gs [];
  rp_segments : in_segments st = seg_info <$> gs;
  rp_index : in_index st = list_to_map (live_locs p gs);
  rp_purged : in_last_purged st = p;
}.

(** ** Locations *)

Lemma entry_locs_keys f off es : (entry_locs f off es).*1 = le_index <$> es.
Proof.
  revert off. induction es as [|e es IH]; intros off; [done|]. cbn [FsLog.entry_locs].
  rewrite !fmap_cons. by rewrite IH.
Qed.

Lemma locs_keys gs : (locs gs).*1 = le_index <$> phys gs.
Proof.
  unfold FsLogScan.locs, phys. induction gs as [|[f es] gs IH]; [done|].
  rewrite !fmap_cons. cbn [concat snd]. rewrite !fmap_app, IH. f_equal. apply entry_locs_keys.
Qed.

Lemma contiguous_keys first es : contiguous first es → StronglySorted Z.lt (le_index <$> es).
Proof.
  revert first. induction es as [|e es IH]; intros first; [constructor|]. intros [He Hc].
  rewrite fmap_cons. constructor; [by eapply IH|]. rewrite Forall_fmap, Forall_forall.
  intros x Hx. pose proof (contiguous_range _ _ _ Hc Hx). simpl. lia.
Qed.

Lemma locs_ascending gs : chain gs → ascending (locs gs).
Proof.
  intros Hc. apply ascending_keys. rewrite locs_keys.
  destruct (chain_run gs Hc) as (f & Hf & _). by eapply contiguous_keys.
Qed.

Lemma live_locs_iter p gs : chain gs →
  zmap_iter (list_to_map (live_locs p gs) : gmap Z Loc) = live_locs p gs.
Proof. intros. apply zmap_iter_list_to_map, ascending_filter. by apply locs_ascending. Qed.

Lemma index_iter d st p gs : rep d st p gs → zmap_iter (in_index st) = live_locs p gs.
Proof. intros H. rewrite (rp_index _ _ _ _ H). by apply live_locs_iter, (dk_chain _ _ _ _ (rp_disk _ _ _ _ H)). Qed.

(** ** Opening *)

Lemma files_lookup_last gs g junk :
  chain (gs ++ [g]) →
  (list_to_map (files (gs ++ [g]) junk) : gmap Z (list Z)) !! g.1 = Some (seg_file junk g).2.
Proof.
  intros Hc. apply elem_of_list_to_map_1.
  - by apply ascending_NoDup, files_ascending.
  - rewrite files_snoc. apply elem_of_app. right. by left.
Qed.

Lemma files_fresh gs g : chain (gs ++ [g]) → g.1 ∉ (seg_file [] <$> gs).*1.
Proof.
  intros Hc%chain_keys_ascending. rewrite files_keys. rewrite fmap_app in Hc.
  intros Hin. apply (StronglySorted_app_1_elem_of _ _ _ g.1 g.1) in Hc; [lia|done|by left].
Qed.

(** Changing the last file. *)
Lemma files_alter_last (h : list Z → list Z) gs g g' junk junk' :
  chain (gs ++ [g]) → g'.1 = g.1 → h (seg_file junk g).2 = (seg_file junk' g').2 →
  alter h g.1 (list_to_map (files (gs ++ [g]) junk) : gmap Z (list Z))
  = list_to_map (files (gs ++ [g']) junk').
Proof.
  intros Hc Hg Hh. rewrite !files_snoc.
  change (seg_file junk g) with (g.1, (seg_file junk g).2).
  change (seg_file junk' g') with (g'.1, (seg_file junk' g').2).
  rewrite alter_list_to_map_snoc by (by apply files_fresh). by rewrite Hg, Hh.
Qed.

(** Cutting a segment file after some of its frames. *)
Lemma set_len_cut f es rest :
  set_len (segment_header f ++ frames es ++ rest) (SEGMENT_HEADER + length (frames es))
  = segment_header f ++ frames es.
Proof.
  unfold set_len. rewrite app_assoc, take_app_length' by (by rewrite length_app, length_header).
  rewrite !length_app, length_header. replace (_ - _)%nat with 0%nat by lia. apply app_nil_r.
Qed.

(** Recovery leaves the chain clean. *)
Lemma open_disk d p gs junk :
  disk d p gs junk →
  ∃ ops st, open xxh64 d = (ops, inr st) ∧ rep (run_ops d ops) st p gs
    ∧ (ops = [] ∨ ∃ f n, ops = [SetLen f n]).
Proof.
  intros [Hlog Hp Hc Ht Hn]. unfold open. rewrite Hlog, Hp.
  rewrite (zmap_iter_list_to_map (files gs junk)) by (by apply files_ascending).
  destruct (scan_loop_ok xxh64 gs junk None Hc Ht Hn ltac:(done)) as (ops & -> & Hops).
  exists ops. eexists. split; [done|]. split.
  - assert (disk (run_ops d ops) p gs []) as Hd; [|by split].
    destruct Hops as [[-> ->]|(Hj & g & Hg & ->)]; [by split|].
    apply last_Some in Hg as [gs' ->]. split; simpl; [|done..].
    rewrite Hlog. apply files_alter_last; [done..|].
    cbn [FsLogScan.seg_file FsLogScan.seg_info sg_len fst snd].
    by rewrite set_len_cut, app_nil_r.
  - destruct Hops as [[_ ->]|(_ & g & _ & ->)]; eauto.
Qed.

(** ** Steps of the device *)

Lemma disk_unlink_last d p gs g :
  disk d p (gs ++ [g]) [] → disk (run_op d (Unlink g.1)) p gs [].
Proof.
  intros [Hlog Hp Hc _ _]. pose proof (chain_prefix _ _ Hc) as Hc'. split; simpl; [|done..].
  rewrite Hlog, files_snoc, files_clean.
  change (seg_file [] g) with (g.1, (seg_file [] g).2).
  by apply delete_list_to_map_snoc, files_fresh.
Qed.

Lemma disk_unlink_first d p g gs :
  disk d p (g :: gs) [] → disk (run_op d (Unlink g.1)) p gs [].
Proof.
  intros [Hlog Hp Hc _ _]. pose proof (chain_suffix [g] _ Hc) as Hc'. split; simpl; [|done..].
  rewrite Hlog, !files_clean.
  pose proof (ascending_NoDup _ (files_ascending xxh64 _ [] Hc)) as Hnd.
  rewrite files_clean in Hnd. apply NoDup_cons in Hnd as [Hg _].
  rewrite fmap_cons. simpl. rewrite delete_insert_eq. apply delete_id, not_elem_of_list_to_map_1.
  done.
Qed.

Lemma disk_create d p gs f :
  disk d p gs [] → chain (gs ++ [(f, [])]) →
  disk (run_op d (CreateSegment f (segment_header f))) p (gs ++ [(f, [])]) [].
Proof.
  intros [Hlog Hp _ _ _] Hc. split; simpl; [|done..|by destruct gs].
  rewrite Hlog, files_clean, files_snoc.
  change (seg_file [] (f, [])) with (f, segment_header f ++ []). rewrite app_nil_r.
  by rewrite list_to_map_snoc by (by apply (files_fresh _ (f, []))).
Qed.

Lemma disk_set_len d p gs f es es' :
  disk d p (gs ++ [(f, es ++ es')]) [] →
  disk (run_op d (SetLen f (SEGMENT_HEADER + length (frames es)))) p (gs ++ [(f, es)]) [].
Proof.
  intros [Hlog Hp Hc _ _].
  assert (chain (gs ++ [(f, es)])) as Hc'.
  { apply chain_app in Hc as (? & (Hf & Hcs & Hfit & _) & ?). apply chain_app.
    split; [done|]. split; [|done]. apply contiguous_app in Hcs as [Hcs _].
    apply Forall_app in Hfit as [Hfit _]. exact (conj Hf (conj Hcs (conj Hfit (conj I I)))). }
  split; simpl; [|done..|by destruct gs]. rewrite Hlog.
  apply (files_alter_last _ gs (f, es ++ es') (f, es)); [done..|].
  cbn [FsLogScan.seg_file fst snd].
  by rewrite frames_app, <- (app_assoc (frames es)), set_len_cut, !app_nil_r.
Qed.

(** Frames written at the end of the last file: whole ones join the chain, a
    partial one is junk. *)
Lemma write_at_end file bytes : write_bytes file (length file) bytes = file ++ bytes.
Proof.
  unfold write_bytes. rewrite Nat.sub_diag, app_nil_r, firstn_all.
  rewrite drop_ge by lia. by rewrite app_nil_r.
Qed.

(** Any prefix of the frames of [es] is some whole frames and part of one. *)
Lemma frames_prefix es n next :
  contiguous next es → Forall entry_fits es →
  ∃ k junk, take n (frames es) = frames (take k es) ++ junk
    ∧ (junk ≠ [] → torn (next + Z.of_nat (length (take k es))) junk).
Proof.
  revert n next. induction es as [|e es IH]; intros n next Hc Hf.
  { exists 0%nat, []. split; [apply take_nil|done]. }
  destruct Hc as [_ Hc]. apply Forall_cons in Hf as [Hfe Hf]. rewrite frames_cons.
  destruct (decide (length (encode e) <= n)%nat) as [Hle|Hgt].
  - destruct (IH (n - length (encode e))%nat (next + 1) Hc Hf) as (k & junk & Htake & Hj).
    exists (S k), junk. split.
    + rewrite take_app_ge, Htake by done. cbn [take]. by rewrite frames_cons, app_assoc.
    + intros Hne. specialize (Hj Hne). cbn [take length].
      by replace (next + Z.of_nat (S (length (take k es))))
        with (next + 1 + Z.of_nat (length (take k es))) by lia.
  - exists 0%nat, (take n (encode e)). split; [by rewrite take_app_le by lia|].
    intros _. unfold FsLogScan.torn.
    pose proof (decode_torn_frame xxh64 [] (take n (encode e)) e (drop n (encode e)) Hfe) as Hd.
    cbn [app length] in Hd. rewrite Hd; [done|by rewrite take_drop|].
    intros Hnil%(f_equal length). rewrite length_drop in Hnil. cbn [length] in Hnil. lia.
Qed.

Lemma chain_extend gs f es es' :
  chain (gs ++ [(f, es)]) → contiguous (f + Z.of_nat (length es)) es' → Forall entry_fits es' →
  chain (gs ++ [(f, es ++ es')]).
Proof.
  intros Hc Hes' Hfit'. apply chain_app in Hc as (? & (Hf & Hcs & Hfit & _) & ?). apply chain_app.
  split; [done|]. split; [|done].
  exact (conj Hf (conj (proj2 (contiguous_app _ _ _) (conj Hcs Hes'))
    (conj (Forall_app_2 _ _ _ Hfit Hfit') (conj I I)))).
Qed.

Lemma disk_write d p gs f es0 es junk :
  disk d p (gs ++ [(f, es0)]) [] → contiguous (f + Z.of_nat (length es0)) es →
  Forall entry_fits es → (junk ≠ [] → torn (f + Z.of_nat (length es0) + Z.of_nat (length es)) junk) →
  disk (run_op d (WriteAt f (SEGMENT_HEADER + length (frames es0)) (frames es ++ junk))) p
    (gs ++ [(f, es0 ++ es)]) junk.
Proof.
  intros [Hlog Hp Hc _ _] Hes Hfit Hj. split; [|done|..].
  - cbn [run_op dv_log]. rewrite Hlog.
    apply (files_alter_last _ gs (f, es0) (f, es0 ++ es)); [done..|].
    cbn [FsLogScan.seg_file fst snd]. rewrite app_nil_r.
    rewrite <- (length_header f), <- length_app, write_at_end, frames_app.
    by rewrite <- !app_assoc.
  - by apply chain_extend.
  - unfold phys_next. rewrite last_snoc. cbn. intros m [= <-] Hne.
    rewrite length_app, Nat2Z.inj_add, Z.add_assoc. auto.
  - by destruct gs.
Qed.
End invariant.

(** * The file log: reads return the log

    [holds d st L]: a device and an in-memory state hold the log [L].  Reads
    and [log_state] answer from [L]; a [recoverable] device opens into a state
    that holds its log. *)

Section read.
Context (xxh64 : list Z → Z → Z).
#[local] Abbreviation encode := (encode_frame xxh64).
#[local] Abbreviation frames := (frames xxh64).
#[local] Abbreviation entry_locs := (entry_locs xxh64).
#[local] Abbreviation seg_file := (seg_file xxh64).
#[local] Abbreviation locs := (locs xxh64).
#[local] Abbreviation rep := (rep xxh64).
#[local] Abbreviation disk := (disk xxh64).

Implicit Types gs : list (Z * list LogEntry).

Definition log_of (p : option LogId) gs : Log :=
  mkLog p (filter (λ e, live p (le_index e) = true) (phys gs)).

(** The purge marker does not reach past the entries on the device: the next
    append continues the last segment. *)
Definition no_gap (p : option LogId) gs : Prop :=
  ∀ q e, p = Some q → last (phys gs) = Some e → li_index q <= le_index e.

Definition holds (d : Device) (st : Inner) (L : Log) : Prop :=
  ∃ gs, rep d st (lg_purged L) gs ∧ no_gap (lg_purged L) gs ∧ L = log_of (lg_purged L) gs.

Definition recoverable (d : Device) (L : Log) : Prop :=
  ∃ gs junk, disk d (lg_purged L) gs junk ∧ no_gap (lg_purged L) gs
    ∧ L = log_of (lg_purged L) gs.

Lemma recover d L :
  recoverable d L →
  ∃ ops st, open xxh64 d = (ops, inr st) ∧ holds (run_ops d ops) st L
    ∧ (ops = [] ∨ ∃ f n, ops = [SetLen f n]).
Proof.
  intros (gs & junk & Hd & Hn & HL). destruct (open_disk _ _ _ _ _ Hd) as (ops & st & Ho & Hr & Hl).
  exists ops, st. split; [done|]. split; [|done]. by exists gs.
Qed.

Lemma holds_recoverable d st L : holds d st L → recoverable d L.
Proof. intros (gs & Hr & ?). exists gs, []. split; [apply Hr|done]. Qed.

(** ** One entry *)

Definition reads (d : Device) (st : Inner) (x : Z * Loc) (e : LogEntry) : Prop :=
  x.1 = le_index e ∧ lc_term x.2 = le_term e ∧ read_loc xxh64 d st x.1 x.2 = inr e.

Lemma read_entry d st f es1 e es2 :
  (∃ s, s ∈ in_segments st ∧ sg_first_index s = f) → entry_fits e →
  dv_log d !! f = Some (segment_header f ++ frames (es1 ++ e :: es2)) →
  reads d st (le_index e, mkLoc f (SEGMENT_HEADER + length (frames es1)) (length (encode e)) (le_term e)) e.
Proof.
  intros (s & Hs & Hsf) He Hfile. split; [done|]. split; [done|].
  unfold read_loc. cbn [fst snd lc_segment lc_offset lc_len].
  destruct (list_find_elem_of (λ s, sg_first_index s = f) (in_segments st) s Hs Hsf) as [? ->].
  rewrite Hfile, frames_app, frames_cons, app_assoc.
  rewrite (slice_app (segment_header f ++ frames es1) (encode e) (frames es2))
    by (rewrite length_app, length_header; done).
  pose proof (decode_encode_frame xxh64 [] e [] He) as Hd. cbn [app length] in Hd.
  rewrite app_nil_r in Hd. rewrite Hd, decide_True by done. by destruct e.
Qed.

Lemma read_segment d st f es2 : ∀ es1,
  (∃ s, s ∈ in_segments st ∧ sg_first_index s = f) → Forall entry_fits es2 →
  dv_log d !! f = Some (segment_header f ++ frames (es1 ++ es2)) →
  Forall2 (reads d st) (entry_locs f (SEGMENT_HEADER + length (frames es1)) es2) es2.
Proof.
  induction es2 as [|e es2 IH]; intros es1 Hs Hfit Hfile; [constructor|].
  apply Forall_cons in Hfit as [He Hfit]. constructor; [by eapply read_entry|].
  assert (length (frames (es1 ++ [e])) = length (frames es1) + length (encode e))%nat as Hl
    by (rewrite frames_app, frames_cons, app_nil_r, length_app; done).
  rewrite <- Nat.add_assoc, <- Hl. apply IH; [done..|]. by rewrite <- app_assoc.
Qed.

Lemma read_locs d st p gs : rep d st p gs → Forall2 (reads d st) (locs gs) (phys gs).
Proof.
  intros [[Hlog _ Hc _ _] Hsegs _ _].
  assert (∀ gs', gs' ⊆ gs → Forall2 (reads d st) (locs gs') (phys gs')) as H; [|by apply H].
  induction gs' as [|[f es] gs' IH]; intros Hsub; [constructor|].
  apply Forall2_app; [|apply IH; set_solver].
  assert ((f, es) ∈ gs) as Hin by set_solver.
  apply (read_segment d st f es []).
  - exists (seg_info xxh64 (f, es)). split; [|done]. rewrite Hsegs. apply list_elem_of_fmap. eauto.
  - apply chain_fits in Hc. rewrite Forall_forall in Hc |- *. intros e He. apply Hc.
    unfold phys. apply list_elem_of_In, in_concat. exists es. rewrite <- !list_elem_of_In.
    split; [|done]. apply list_elem_of_fmap. by exists (f, es).
  - rewrite Hlog, files_clean. rewrite app_nil_l.
    apply elem_of_list_to_map_1.
    + rewrite <- files_clean. by apply ascending_NoDup, files_ascending.
    + apply list_elem_of_fmap. exists (f, es). split; [|done].
      unfold FsLogScan.seg_file. cbn [fst snd]. by rewrite app_nil_r.
Qed.

(** ** Ranges *)

Lemma Forall2_filter_iff {A B} (R : A → B → Prop) (P : A → Prop) (Q : B → Prop)
    `{!∀ x, Decision (P x), !∀ y, Decision (Q y)} l k :
  (∀ x y, R x y → P x ↔ Q y) → Forall2 R l k → Forall2 R (filter P l) (filter Q k).
Proof.
  intros HPQ. induction 1 as [|x y l k Hxy _ IH]; [constructor|].
  destruct (decide (P x)) as [HP|HP].
  - rewrite !filter_cons_True by naive_solver. by constructor.
  - rewrite !filter_cons_False by naive_solver. done.
Qed.

Lemma live_reads d st p gs :
  rep d st p gs → Forall2 (reads d st) (live_locs xxh64 p gs) (lg_entries (log_of p gs)).
Proof.
  intros Hr. apply Forall2_filter_iff; [|by eapply read_locs].
  by intros x e (-> & _ & _).
Qed.

Lemma read_all_ok d st l es : Forall2 (reads d st) l es → read_all xxh64 d st l = inr es.
Proof.
  induction 1 as [|[i loc] e l es (Hi & _ & Hr) _ IH]; [done|].
  cbn [read_all fst snd] in *. by rewrite Hr, IH.
Qed.

Lemma holds_read d st L start end_ :
  holds d st L → start <= end_ →
  read_range xxh64 d st start end_ = Some (inr (spec_read L start end_)).
Proof.
  intros (gs & Hr & _ & ->) Hse. unfold read_range, zmap_range.
  rewrite (proj2 (Z.ltb_ge _ _)) by done. rewrite (index_iter _ _ _ _ _ Hr). do 2 f_equal.
  apply read_all_ok. apply Forall2_filter_iff; [|by eapply live_reads].
  by intros x e (-> & _ & _).
Qed.

Lemma Forall2_last {A B} (R : A → B → Prop) l k :
  Forall2 R l k → option_Forall2 R (last l) (last k).
Proof.
  induction 1 as [|x y l k Hxy H IH]; [constructor|]. rewrite !last_cons.
  inversion IH; by constructor.
Qed.

Lemma holds_last d st L :
  holds d st L → option_Forall2 (reads d st) (index_last st) (last (lg_entries L)).
Proof.
  intros (gs & Hr & _ & ->). unfold index_last. rewrite (index_iter _ _ _ _ _ Hr).
  by apply Forall2_last, live_reads.
Qed.

Lemma holds_log_state d st L : holds d st L → log_state st = spec_log_state L.
Proof.
  intros H. pose proof (holds_last _ _ _ H) as Hl. destruct H as (gs & [_ _ _ Hp] & _ & _).
  unfold log_state, spec_log_state. rewrite Hp. f_equal.
  inversion Hl as [x e (Hi & Ht & _)|]; simpl; [|done]. f_equal. rewrite Hi, Ht. by destruct e as [[] ?].
Qed.
End read.
