(* ===== verification/FsLogAppend.v ===== *)
(** * The file log: appending

    An append extends the log it holds, and a crash at any point of it leaves a
    device from which the log with some of the new entries, in order, is
    recovered. *)

From S2P Require Import Prelude Adapter FsFrame RaftLog FsLog FsLogScan FsLogInvariant.

(** ** Crashes *)

Lemma crash_app d ops1 ops2 d' :
  crash d (ops1 ++ ops2) d' → crash d ops1 d' ∨ crash (run_ops d ops1) ops2 d'.
Proof.
  revert d. induction ops1 as [|op ops1 IH]; intros d; [by right|].
  rewrite <- app_comm_cons. inversion 1 as [| |d0 op0 ops0 d0' Hc]; subst.
  - left. constructor.
  - left. constructor.
  - apply IH in Hc as [?|?]; [left; by constructor|by right].
Qed.

Lemma crash_nil d d' : crash d [] d' → d' = d.
Proof. by inversion 1. Qed.

(** All operations but a write are atomic. *)
Lemma crash_atomic d op d' :
  (∀ f off bytes, op ≠ WriteAt f off bytes) → crash d [op] d' → d' = d ∨ d' = run_op d op.
Proof.
  intros Hop. inversion 1 as [| |d0 op0 ops0 d0' Hc]; subst; [by left|by destruct (Hop _ _ _ eq_refl)|].
  right. by apply crash_nil in Hc.
Qed.

Lemma run_ops_app d ops1 ops2 : run_ops d (ops1 ++ ops2) = run_ops (run_ops d ops1) ops2.
Proof. apply foldl_app. Qed.

(** ** Where the log ends *)

Section ends.
Implicit Types gs : list (Z * list LogEntry).

Lemma phys_next_last gs e :
  chain gs → last (phys gs) = Some e → phys_next gs = Some (le_index e + 1).
Proof.
  intros Hc He. destruct gs as [|[f es] gs]; [done|]. apply chain_contiguous in Hc as [Hc ->].
  by rewrite (contiguous_last _ _ _ Hc He).
Qed.

(** Below the marker nothing is live; above it everything is. *)
Lemma live_filter first es q :
  contiguous first es →
  filter (λ e, live (Some q) (le_index e) = true) es = drop (Z.to_nat (li_index q + 1 - first)) es.
Proof.
  intros Hc. rewrite <- (contiguous_filter_gt _ _ _ Hc). apply list_filter_iff.
  intros e. apply Z.ltb_lt.
Qed.

Lemma last_drop_lt {A} (l : list A) n : (n < length l)%nat → last (drop n l) = last l.
Proof.
  intros Hn. rewrite <- (take_drop n l) at 2. rewrite last_app.
  destruct (last (drop n l)) eqn:E; [done|]. apply last_None in E.
  apply (f_equal length) in E. rewrite length_drop in E. simpl in E. lia.
Qed.

Lemma next_phys p gs e :
  chain gs → no_gap p gs → last (phys gs) = Some e →
  next_index (log_of p gs) = Some (le_index e + 1).
Proof.
  intros Hc Hg He. destruct (chain_run gs Hc) as (f & Hf & _).
  pose proof (contiguous_last _ _ _ Hf He) as Hlast.
  unfold next_index, log_of; cbn [lg_entries lg_purged]. destruct p as [q|].
  - rewrite (live_filter _ _ _ Hf). specialize (Hg q e eq_refl He).
    destruct (decide (Z.to_nat (li_index q + 1 - f) < length (phys gs))%nat).
    + by rewrite last_drop_lt, He.
    + assert (0 < length (phys gs))%nat by (destruct (phys gs); [done|simpl; lia]).
      rewrite drop_ge by lia. simpl. f_equal. lia.
  - rewrite list_filter_id by (by apply Forall_true). by rewrite He.
Qed.

Lemma chain_empty gs : chain gs → phys gs = [] → gs = [] ∨ ∃ f, gs = [(f, [])] ∧ 0 <= f < two64.
Proof.
  destruct gs as [|[f es] gs]; [by left|]. intros Hc Hp. right. exists f.
  apply chain_cons in Hc as (Hf & _ & _ & _ & Hn).
  apply app_eq_nil in Hp as [Hes _]. cbn in Hes. subst es.
  destruct gs as [|[f' es'] gs]; [done|]. by destruct (Hn f' eq_refl).
Qed.
End ends.

Section append.
Context (xxh64 : list Z → Z → Z) (segment_bytes : nat).
Context (Hbytes : (SEGMENT_HEADER < segment_bytes)%nat).
#[local] Abbreviation frames := (frames xxh64).
#[local] Abbreviation seg_info := (seg_info xxh64).
#[local] Abbreviation locs := (locs xxh64).
#[local] Abbreviation rep := (rep xxh64).
#[local] Abbreviation disk := (disk xxh64).
#[local] Abbreviation holds := (holds xxh64).
#[local] Abbreviation recoverable := (recoverable xxh64).

Implicit Types gs : list (Z * list LogEntry).

(** ** Preparing the last segment *)

(** The segments after [pop_leftover] and [ensure_segment]. *)
Record prepared (d : Device) (p : option LogId) gs (first : Z) (segs : list Segment)
    (ops : list DeviceOp) gs0 (f0 : Z) (es0 : list LogEntry) : Prop := {
  pr_segs : segs = seg_info <$> (gs0 ++ [(f0, es0)]);
  pr_disk : disk (run_ops d ops) p (gs0 ++ [(f0, es0)]) [];
  pr_next : f0 + Z.of_nat (length es0) = first;
  pr_phys : phys (gs0 ++ [(f0, es0)]) = phys gs;
  pr_locs : locs (gs0 ++ [(f0, es0)]) = locs gs;
  pr_crash d' : crash d ops d' → ∃ gs', disk d' p gs' [] ∧ phys gs' = phys gs;
}.

Definition prepare (segs : list Segment) (first : Z) : list Segment * list DeviceOp :=
  let '(segs1, ops1) := pop_leftover segs first in
  let '(segs2, ops2) := ensure_segment segment_bytes segs1 first in (segs2, ops1 ++ ops2).

(** A fresh segment after [gs]. *)
Lemma prepare_create d p gs first :
  disk d p gs [] → chain (gs ++ [(first, [])]) →
  prepared d p gs first (seg_info <$> (gs ++ [(first, [])]))
    [CreateSegment first (segment_header first)] gs first [].
Proof.
  intros Hd Hc. split.
  - done.
  - by apply disk_create.
  - simpl. lia.
  - rewrite phys_app. apply app_nil_r.
  - rewrite locs_app. apply app_nil_r.
  - intros d' [-> | ->]%crash_atomic; [by exists gs| |done].
    exists (gs ++ [(first, [])]). split; [by apply disk_create|].
    rewrite phys_app. apply app_nil_r.
Qed.

Lemma prepare_same d p gs f es first :
  disk d p (gs ++ [(f, es)]) [] → f + Z.of_nat (length es) = first →
  prepared d p (gs ++ [(f, es)]) first (seg_info <$> (gs ++ [(f, es)])) [] gs f es.
Proof.
  intros Hd Hf. split; [done..|]. intros d' ->%crash_nil. eauto.
Qed.

Lemma prepare_empty d p first :
  disk d p [] [] → 0 <= first < two64 →
  ∃ segs ops gs0 f0 es0, prepare [] first = (segs, ops) ∧ prepared d p [] first segs ops gs0 f0 es0.
Proof.
  intros Hd Hf. eexists _, _, _, _, _. split; [reflexivity|].
  apply (prepare_create d p []); [done|]. exact (conj Hf (conj I (conj (Forall_nil_2 _) (conj I I)))).
Qed.

Lemma last_seg_info gs g : last (seg_info <$> (gs ++ [g])) = Some (seg_info g).
Proof. rewrite fmap_app. apply last_snoc. Qed.

Lemma prepare_ok d st p gs first :
  rep d st p gs → 0 <= first < two64 →
  (∀ e, last (phys gs) = Some e → first = le_index e + 1) →
  ∃ segs ops gs0 f0 es0, prepare (in_segments st) first = (segs, ops)
    ∧ prepared d p gs first segs ops gs0 f0 es0.
Proof.
  intros [Hd Hsegs _ _] Hf Hfirst. rewrite Hsegs. pose proof (dk_chain _ _ _ _ _ Hd) as Hc.
  destruct (last (phys gs)) as [e|] eqn:He.
  - specialize (Hfirst e eq_refl). pose proof (phys_next_last _ _ Hc He) as Hn.
    destruct gs as [|[f es] gs _] using rev_ind; [done|].
    unfold phys_next in Hn. rewrite last_snoc in Hn. cbn in Hn. injection Hn as Hn.
    rewrite <- Hfirst in Hn. unfold prepare, pop_leftover. rewrite last_seg_info.
    rewrite decide_False by (intros [Hl Hne]; cbn in Hl, Hne; apply fmap_None, last_None in Hl;
      subst es; simpl in Hn; lia).
    unfold ensure_segment. rewrite last_seg_info. case_bool_decide as Hlen.
    + eexists _, _, _, _, _. split; [done|]. replace (seg_info <$> gs ++ [(f, es)]) with
        (seg_info <$> (gs ++ [(f, es)])) by done.
      pose proof (prepare_create d p (gs ++ [(f, es)]) first Hd) as Hp.
      rewrite (fmap_app _ (gs ++ _)) in Hp. apply Hp. clear Hp.
      apply chain_app. split; [done|].
      split; [exact (conj Hf (conj I (conj (Forall_nil_2 _) (conj I I))))|].
      intros _. unfold phys_next. rewrite last_snoc. cbn. split; [by rewrite Hn|].
      apply chain_app in Hc as (_ & _ & Hne). apply Forall_app. split.
      * destruct gs; [constructor|]. by apply Hne.
      * apply Forall_singleton. cbn. intros ->. change (sg_len (seg_info (f, []))) with (SEGMENT_HEADER + 0)%nat in Hlen. lia.
    + eexists _, _, _, _, _. split; [done|]. by apply prepare_same.
  - apply last_None in He. destruct (chain_empty _ Hc He) as [-> | (f & -> & _)].
    + by apply prepare_empty.
    + destruct (decide (f = first)) as [->|Hne].
      * exists [seg_info (first, [])], [], [], first, []. split.
        { unfold prepare, pop_leftover. cbn [fmap list_fmap last].
          rewrite decide_False by (cbn; tauto).
          unfold ensure_segment. cbn [last]. rewrite bool_decide_false; [done|].
          cbn [sg_len FsLogScan.seg_info snd]. change (length (frames [])) with 0%nat. lia. }
        apply (prepare_same d p [] first []); [done|]. simpl. lia.
      * assert (disk (run_op d (Unlink f)) p [] []) as Hd' by (by apply (disk_unlink_last _ _ _ [] (f, []))).
        destruct (prepare_empty _ _ _ Hd' Hf) as (segs & ops & gs0 & f0 & es0 & Hp & Hpr).
        exists segs, (Unlink f :: ops), gs0, f0, es0. split.
        { unfold prepare, pop_leftover in *. cbn [fmap list_fmap last] in *.
          rewrite decide_True by done. cbn [length Nat.sub take].
          destruct (ensure_segment _ _ _). by simplify_eq/=. }
        destruct Hpr as [H1 H2 H3 H4 H5 H6]. split; [done..|].
        intros d' Hcr. apply (crash_app _ [Unlink f] ops) in Hcr as [Hcr|Hcr]; [|by apply H6].
        apply crash_atomic in Hcr as [-> | ->]; [by exists [(f, [])]|by exists []|done].
Qed.

(** ** The append *)

Lemma append_prepare st e0 es segs ops seg :
  prepare (in_segments st) (le_index e0) = (segs, ops) → last segs = Some seg →
  (∀ x, index_last st = Some x → le_index e0 = x.1 + 1) →
  append xxh64 segment_bytes st (e0 :: es) =
  inr (mkInner (take (length segs - 1) segs
         ++ [mkSegment (sg_first_index seg) (le_index <$> last (e0 :: es))
               (sg_len seg + length (frames (e0 :: es)))])
         (foldl (λ m x, <[x.1 := x.2]> m) (in_index st)
            (entry_locs xxh64 (sg_first_index seg) (sg_len seg) (e0 :: es)))
         (in_last_purged st),
       ops ++ [WriteAt (sg_first_index seg) (sg_len seg) (frames (e0 :: es))]).
Proof.
  intros Hp Hs Hl. unfold append, prepare in *.
  replace (match index_last st with Some (last, _) => negb (le_index e0 =? last + 1)
           | None => false end) with false.
  - destruct (pop_leftover _ _) as [segs1 ops1]. destruct (ensure_segment _ _ _) as [segs2 ops2].
    simplify_eq. by rewrite Hs, <- app_assoc.
  - destruct (index_last st) as [[last loc]|]; [|done].
    by rewrite (Hl _ eq_refl), Z.eqb_refl.
Qed.

Lemma foldl_insert_locs {V} (l k : list (Z * V)) :
  NoDup (l ++ k).*1 →
  foldl (λ m x, <[x.1 := x.2]> m) (list_to_map l : gmap Z V) k = list_to_map (l ++ k).
Proof.
  revert l. induction k as [|[i v] k IH]; intros l Hnd; [by rewrite app_nil_r|].
  simpl. rewrite <- list_to_map_snoc.
  - rewrite IH by (by rewrite <- app_assoc). by rewrite <- app_assoc.
  - rewrite fmap_app in Hnd. apply NoDup_app in Hnd as (_ & Hd & _). intros Hi.
    apply (Hd _ Hi). by left.
Qed.

Lemma log_of_phys p gs gs' : phys gs' = phys gs → log_of p gs' = log_of p gs.
Proof. intros H. unfold log_of. by rewrite H. Qed.

(** Entries appended to the chain are appended to the log. *)
Lemma log_of_append p gs gs' es :
  phys gs' = phys gs ++ es → Forall (λ e, live p (le_index e) = true) es →
  log_of p gs' = spec_append (log_of p gs) es.
Proof.
  intros H Hl. unfold log_of, spec_append. cbn. rewrite H, filter_app. f_equal. f_equal.
  by apply list_filter_id.
Qed.

Lemma no_gap_append p gs gs' es :
  no_gap p gs → phys gs' = phys gs ++ es → Forall (λ e, live p (le_index e) = true) es →
  no_gap p gs'.
Proof.
  intros Hg Hp Hl q e -> He. rewrite Hp, last_app in He.
  destruct (last es) as [e'|] eqn:El; [|by apply (Hg q)]. simplify_eq.
  apply last_Some in El as [? ->]. apply Forall_app in Hl as [_ Hl%Forall_inv].
  cbn in Hl. apply Z.ltb_lt in Hl. lia.
Qed.

Lemma append_live L es : log_wf L → append_ok L es →
  Forall (λ e, live (lg_purged L) (le_index e) = true) es.
Proof. intros Hwf Hok. pose proof (spec_append_wf _ _ Hwf Hok) as [_ H]. by apply Forall_app in H as [_ H]. Qed.

Lemma holds_wf d st L : holds d st L → log_wf L.
Proof.
  intros (gs & Hr & _ & ->). pose proof (dk_chain _ _ _ _ _ (rp_disk _ _ _ _ _ Hr)) as Hc.
  destruct (chain_run gs Hc) as (f & Hf & _). split.
  - unfold log_of; cbn. destruct (lg_purged L) as [q|].
    + rewrite (live_filter _ _ _ Hf). eexists. by apply contiguous_drop.
    + exists f. by rewrite list_filter_id by (by apply Forall_true).
  - unfold log_of; cbn. rewrite Forall_forall. by intros e [? _]%list_elem_of_filter.
Qed.

(** The last segment extended by [es]. *)
Lemma extend_phys gs0 f0 es0 gs es :
  phys (gs0 ++ [(f0, es0)]) = phys gs → phys (gs0 ++ [(f0, es0 ++ es)]) = phys gs ++ es.
Proof.
  intros <-. rewrite !phys_app. unfold phys; cbn. by rewrite !app_nil_r, <- app_assoc.
Qed.

Lemma extend_recoverable d gs0 f0 es0 gs es junk L :
  disk d (lg_purged L) (gs0 ++ [(f0, es0 ++ es)]) junk → phys (gs0 ++ [(f0, es0)]) = phys gs →
  no_gap (lg_purged L) gs → L = log_of (lg_purged L) gs →
  Forall (λ e, live (lg_purged L) (le_index e) = true) es → recoverable d (spec_append L es).
Proof.
  intros Hd Hp%(extend_phys _ _ _ _ es) Hg HL Hl. exists (gs0 ++ [(f0, es0 ++ es)]), junk.
  split; [done|]. split; [by eapply no_gap_append|]. rewrite HL at 1. symmetry.
  by apply log_of_append.
Qed.

(** What crashing during the write leaves, given the device before it. *)
Lemma crash_write d gs0 f0 es0 gs es d' L :
  disk d (lg_purged L) (gs0 ++ [(f0, es0)]) [] → phys (gs0 ++ [(f0, es0)]) = phys gs →
  no_gap (lg_purged L) gs → L = log_of (lg_purged L) gs →
  contiguous (f0 + Z.of_nat (length es0)) es → Forall entry_fits es →
  Forall (λ e, live (lg_purged L) (le_index e) = true) es →
  crash d [WriteAt f0 (SEGMENT_HEADER + length (frames es0)) (frames es)] d' →
  ∃ k, recoverable d' (spec_append L (take k es)).
Proof.
  intros Hd Hp Hg HL Hc Hf Hl Hcr.
  assert (∃ n, d' = d ∧ n = 0%nat ∨
    d' = run_op d (WriteAt f0 (SEGMENT_HEADER + length (frames es0)) (take n (frames es))))
    as (n & [[-> _] | ->]).
  { inversion Hcr as [| |d0 op0 ops0 d0' Hcr']; subst; [by exists 0%nat; left|by eexists; right|].
    apply crash_nil in Hcr' as ->. exists (length (frames es)). right. by rewrite firstn_all. }
  - exists 0%nat. apply (extend_recoverable d gs0 f0 es0 gs [] [] L); [|done..|constructor].
    by rewrite app_nil_r.
  - destruct (frames_prefix xxh64 es n _ Hc Hf) as (k & junk & -> & Hj). exists k.
    apply (extend_recoverable _ gs0 f0 es0 gs _ junk L); [|done..|by apply Forall_take].
    apply disk_write; [done|by apply contiguous_take|by apply Forall_take|done].
Qed.

(** The index after the write. *)
Lemma append_index p gs gs0 f0 es0 es :
  chain (gs0 ++ [(f0, es0 ++ es)]) → locs (gs0 ++ [(f0, es0)]) = locs gs →
  Forall (λ e, live p (le_index e) = true) es →
  foldl (λ m x, <[x.1 := x.2]> m) (list_to_map (live_locs xxh64 p gs) : gmap Z Loc)
    (entry_locs xxh64 f0 (SEGMENT_HEADER + length (frames es0)) es)
  = list_to_map (live_locs xxh64 p (gs0 ++ [(f0, es0 ++ es)])).
Proof.
  intros Hc Hl Hlive. set (new := entry_locs _ _ _ _).
  assert (locs (gs0 ++ [(f0, es0 ++ es)]) = locs gs ++ new) as Hlocs.
  { rewrite <- Hl, !locs_app. unfold FsLogScan.locs, FsLogScan.seg_locs; cbn.
    by rewrite !app_nil_r, entry_locs_app, app_assoc. }
  assert (live_locs xxh64 p (gs0 ++ [(f0, es0 ++ es)]) = live_locs xxh64 p gs ++ new) as Hll.
  { unfold live_locs. rewrite Hlocs, filter_app. f_equal. apply list_filter_id.
    assert (Forall (λ i, live p i = true) new.*1) as H
      by (unfold new; rewrite entry_locs_keys, Forall_fmap; exact Hlive).
    by rewrite Forall_fmap in H. }
  rewrite Hll. apply foldl_insert_locs. rewrite <- Hll.
  apply ascending_NoDup, ascending_filter, locs_ascending. done.
Qed.

Lemma append_step d st L es :
  holds d st L → append_ok L es →
  ∃ st' ops, append xxh64 segment_bytes st es = inr (st', ops)
    ∧ holds (run_ops d ops) st' (spec_append L es)
    ∧ ∀ d', crash d ops d' → ∃ k, recoverable d' (spec_append L (take k es)).
Proof.
  intros Hh Hok. pose proof (append_live _ _ (holds_wf _ _ _ Hh) Hok) as Hlive.
  pose proof (holds_last _ _ _ _ Hh) as Hlast. destruct es as [|e0 es].
  { exists st, []. assert (spec_append L [] = L) as HL
      by (unfold spec_append; rewrite app_nil_r; by destruct L).
    split; [done|]. split; [by rewrite HL|]. intros d' ->%crash_nil. exists 0%nat.
    cbn [take]. rewrite HL. by eapply holds_recoverable. }
  destruct Hh as (gs & Hr & Hg & HL). pose proof (dk_chain _ _ _ _ _ (rp_disk _ _ _ _ _ Hr)) as Hc.
  destruct Hok as (Hfit & first & Hcon & _ & Hnext). pose proof (proj1 Hcon) as Hfirst.
  destruct (prepare_ok d st (lg_purged L) gs (le_index e0) Hr (proj1 (Forall_inv Hfit)))
    as (segs & ops & gs0 & f0 & es0 & Hprep & [Hsegs Hdisk Hn Hph Hlocs Hcrash]).
  { intros e He. rewrite Hfirst. apply Hnext. rewrite HL. by apply next_phys. }
  assert (last segs = Some (seg_info (f0, es0))) as Hlseg by (by rewrite Hsegs, last_seg_info).
  rewrite (append_prepare st e0 es segs ops (seg_info (f0, es0)) Hprep Hlseg).
  2:{ intros x Hx. rewrite Hx in Hlast. inversion Hlast as [? e (Hxe & _) Hxe2 He|].
      rewrite Hxe, Hfirst. apply Hnext. unfold next_index. by rewrite <- He. }
  eexists _, _. split; [reflexivity|]. rewrite run_ops_app.
  cbn [FsLogScan.seg_info sg_first_index sg_len fst snd].
  assert (contiguous (f0 + Z.of_nat (length es0)) (e0 :: es)) as Hcon' by (by rewrite Hn, Hfirst).
  pose proof (disk_write xxh64 _ _ gs0 f0 es0 (e0 :: es) [] Hdisk Hcon' Hfit ltac:(done)) as Hw.
  rewrite app_nil_r in Hw. split.
  - exists (gs0 ++ [(f0, es0 ++ e0 :: es)]). split; [split; [exact Hw|..]|split].
    + cbn [in_segments]. rewrite Hsegs, !fmap_app, length_app. cbn [length fmap list_fmap].
      rewrite take_app_length' by lia. unfold FsLogScan.seg_info. cbn [fst snd].
      by rewrite last_app_cons, frames_app, length_app, Nat.add_assoc.
    + cbn [in_index]. rewrite (rp_index _ _ _ _ _ Hr).
      apply append_index; [apply (dk_chain _ _ _ _ _ Hw)|done|done].
    + exact (rp_purged _ _ _ _ _ Hr).
    + apply (no_gap_append (lg_purged L) gs _ (e0 :: es)); [done|by apply extend_phys|done].
    + rewrite HL at 1. symmetry. apply log_of_append; [by apply extend_phys|done].
  - intros d' [Hcr|Hcr]%crash_app; [|exact (crash_write _ gs0 f0 es0 gs _ d' L Hdisk Hph Hg HL Hcon' Hfit Hlive Hcr)].
    destruct (Hcrash _ Hcr) as (gs' & Hd' & Hp'). exists 0%nat, gs', [].
    split; [done|]. unfold no_gap. rewrite Hp'. split; [done|].
    rewrite HL at 1. unfold spec_append, log_of. cbn. by rewrite Hp', app_nil_r.
Qed.
End append.
