(* ===== verification/FsLogCut.v ===== *)
(** * The file log: truncating and purging

    A truncation removes whole segments newest first and then shortens the one
    that holds the cut, so every crash leaves the log cut at or above where it
    was asked to; a purge writes its marker first and then removes segments
    oldest first. *)

From S2P Require Import Prelude Adapter FsFrame RaftLog FsLog FsLogScan FsLogInvariant FsLogAppend.
Section cut.
Context (xxh64 : list Z → Z → Z).
#[local] Abbreviation frames := (frames xxh64).
#[local] Abbreviation seg_info := (seg_info xxh64).
#[local] Abbreviation locs := (locs xxh64).
#[local] Abbreviation rep := (rep xxh64).
#[local] Abbreviation disk := (disk xxh64).
#[local] Abbreviation holds := (holds xxh64).
#[local] Abbreviation recoverable := (recoverable xxh64).

Implicit Types gs : list (Z * list LogEntry).

Definition unlinks gs : list DeviceOp := (λ g, Unlink g.1) <$> gs.

(** ** Removing segments *)

(** Newest first. *)
Lemma unlink_newest d p gs gs3 :
  disk d p (gs ++ gs3) [] →
  disk (run_ops d (unlinks (rev gs3))) p gs []
  ∧ ∀ d', crash d (unlinks (rev gs3)) d' →
      ∃ gs4 gs5, gs3 = gs4 ++ gs5 ∧ disk d' p (gs ++ gs4) [].
Proof.
  revert d. induction gs3 as [|g gs3 IH] using rev_ind; intros d Hd.
  - rewrite app_nil_r in Hd. split; [done|]. intros d' ->%crash_nil. exists [], [].
    split; [done|]. by rewrite app_nil_r.
  - rewrite rev_unit. change (unlinks (g :: rev gs3)) with ([Unlink g.1] ++ unlinks (rev gs3)).
    rewrite app_assoc in Hd. pose proof (disk_unlink_last _ _ _ _ _ Hd) as Hd'.
    destruct (IH _ Hd') as [Hrun Hcr]. split; [done|].
    intros d' [Hc|Hc]%crash_app.
    + apply crash_atomic in Hc as [-> | ->]; [..|done].
      * exists (gs3 ++ [g]), []. split; [by rewrite app_nil_r|]. by rewrite app_assoc.
      * by exists gs3, [g].
    + destruct (Hcr _ Hc) as (gs4 & gs5 & -> & ?). exists gs4, (gs5 ++ [g]).
      split; [by rewrite app_assoc|done].
Qed.

(** Oldest first. *)
Lemma unlink_oldest d p gs3 gs :
  disk d p (gs3 ++ gs) [] →
  disk (run_ops d (unlinks gs3)) p gs []
  ∧ ∀ d', crash d (unlinks gs3) d' → ∃ gs4 gs5, gs3 = gs4 ++ gs5 ∧ disk d' p (gs5 ++ gs) [].
Proof.
  revert d. induction gs3 as [|g gs3 IH]; intros d Hd.
  - split; [done|]. intros d' ->%crash_nil. by exists [], [].
  - change (unlinks (g :: gs3)) with ([Unlink g.1] ++ unlinks gs3).
    pose proof (disk_unlink_first _ _ _ _ _ Hd) as Hd'. destruct (IH _ Hd') as [Hrun Hcr].
    split; [done|]. intros d' [Hc|Hc]%crash_app.
    + apply crash_atomic in Hc as [-> | ->]; [by exists [], (g :: gs3)|by exists [g], gs3|done].
    + destruct (Hcr _ Hc) as (gs4 & gs5 & -> & ?). by exists (g :: gs4), gs5.
Qed.

Lemma drop_later_ok gs g gs3 :
  chain (gs ++ g :: gs3) →
  drop_later (rev (seg_info <$> (gs ++ g :: gs3))) g.1
  = (rev (seg_info <$> (gs ++ [g])), unlinks (rev gs3)).
Proof.
  intros Hc%chain_keys_ascending. induction gs3 as [|g' gs3 IH] using rev_ind.
  - rewrite !fmap_app. cbn [fmap list_fmap]. rewrite !rev_unit. cbn [drop_later].
    change (sg_first_index (seg_info g)) with g.1. by rewrite Z.ltb_irrefl.
  - rewrite app_comm_cons, app_assoc in Hc |- *.
    rewrite fmap_app in Hc. specialize (IH (StronglySorted_app_1_l _ _ _ Hc)).
    rewrite fmap_app. cbn [fmap list_fmap]. rewrite rev_unit. cbn [drop_later].
    change (sg_first_index (seg_info g')) with g'.1.
    rewrite (proj2 (Z.ltb_lt _ _)).
    + rewrite IH, rev_unit. done.
    + apply (StronglySorted_app_1_elem_of _ _ _ _ _ Hc); [|by left].
      apply list_elem_of_fmap. exists g. set_solver.
Qed.

(** ** The cut of a chain *)

Lemma entry_locs_elem f off es i loc :
  (i, loc) ∈ entry_locs xxh64 f off es →
  ∃ es1 e es2, es = es1 ++ e :: es2 ∧ le_index e = i ∧ lc_segment loc = f
    ∧ lc_offset loc = (off + length (frames es1))%nat.
Proof.
  revert off. induction es as [|e es IH]; intros off; [by intros ?%not_elem_of_nil|].
  cbn [FsLog.entry_locs]. intros [Heq|Hin]%elem_of_cons.
  - simplify_eq. exists [], e, es. change (length (frames [])) with 0%nat.
    by rewrite Nat.add_0_r.
  - destruct (IH _ Hin) as (es1 & e' & es2 & -> & ? & ? & Ho). exists (e :: es1), e', es2.
    rewrite frames_cons, length_app, Nat.add_assoc. done.
Qed.

Lemma locs_elem gs i loc :
  (i, loc) ∈ locs gs →
  ∃ gs0 f es1 e es2 gs3, gs = gs0 ++ (f, es1 ++ e :: es2) :: gs3 ∧ le_index e = i
    ∧ lc_segment loc = f ∧ lc_offset loc = (SEGMENT_HEADER + length (frames es1))%nat.
Proof.
  induction gs as [|[f es] gs IH]; [by intros ?%not_elem_of_nil|].
  change (locs ((f, es) :: gs)) with (entry_locs xxh64 f SEGMENT_HEADER es ++ locs gs).
  intros [Hin|Hin]%elem_of_app.
  - destruct (entry_locs_elem _ _ _ _ _ Hin) as (es1 & e & es2 & -> & ?).
    by exists [], f, es1, e, es2, gs.
  - destruct (IH Hin) as (gs0 & f' & es1 & e & es2 & gs3 & -> & ?).
    by exists ((f, es) :: gs0), f', es1, e, es2, gs3.
Qed.

(** Where [truncate_from] cuts: below [from] everything is kept, from it on
    everything goes. *)
Record cuts gs (from : Z) (gs0 gs3 : list (Z * list LogEntry)) (f : Z)
    (es1 es2 : list LogEntry) : Prop := {
  ct_split : gs = gs0 ++ (f, es1 ++ es2) :: gs3;
  ct_some : es2 ≠ [];
  ct_below : Forall (λ e, le_index e < from) (phys (gs0 ++ [(f, es1)]));
  ct_above : Forall (λ e, from <= le_index e) (es2 ++ phys gs3);
  ct_last e : last (phys (gs0 ++ [(f, es1)])) = Some e → le_index e = from - 1;
}.

Lemma cuts_phys gs from gs0 gs3 f es1 es2 :
  cuts gs from gs0 gs3 f es1 es2 → phys gs = phys (gs0 ++ [(f, es1)]) ++ es2 ++ phys gs3.
Proof.
  intros [-> _ _ _ _]. rewrite !phys_app. unfold phys; cbn. by rewrite app_nil_r, <- !app_assoc.
Qed.

(** Splitting a contiguous run at the entry with index [from]. *)
Lemma contiguous_split first l e k :
  contiguous first (l ++ e :: k) →
  Forall (λ x, le_index x < le_index e) l ∧ Forall (λ x, le_index e <= le_index x) (e :: k)
  ∧ ∀ x, last l = Some x → le_index x = le_index e - 1.
Proof.
  intros Hc. apply contiguous_app in Hc as [Hl Hk]. pose proof (proj1 Hk) as He. split; [|split].
  - rewrite Forall_forall. intros x Hx. pose proof (contiguous_range _ _ _ Hl Hx). lia.
  - rewrite Forall_forall. intros x Hx. pose proof (contiguous_range _ _ _ Hk Hx). lia.
  - intros x Hx. pose proof (contiguous_last _ _ _ Hl Hx). lia.
Qed.

Lemma contiguous_elem first es i :
  contiguous first es → first <= i < first + Z.of_nat (length es) → ∃ e, e ∈ es ∧ le_index e = i.
Proof.
  revert first. induction es as [|e es IH]; intros first; simpl; [lia|]. intros [He Hc] Hi.
  destruct (decide (i = first)) as [->|Hne]; [exists e; split; [by left|done]|].
  destruct (IH _ Hc ltac:(lia)) as (e' & ? & ?). exists e'. split; [by right|done].
Qed.

(** An index the location table lacks, at or below its last one, is below the
    whole log. *)
Lemma index_below d st p gs F from x :
  rep d st p gs → contiguous F (phys gs) → live p from = true → index_last st = Some x →
  from <= x.1 → in_index st !! from = None → from < F ∧ phys gs ≠ [].
Proof.
  intros Hr HF Hlive Hx Hfrom Hnone. unfold index_last in Hx.
  rewrite (index_iter _ _ _ _ _ Hr) in Hx.
  assert (x ∈ locs gs) as Hin.
  { apply last_Some in Hx as [l Hl]. assert (x ∈ live_locs xxh64 p gs) as Hx
      by (rewrite Hl; set_solver). by apply list_elem_of_filter in Hx as [_ ?]. }
  assert (x.1 ∈ le_index <$> phys gs) as Hk
    by (rewrite <- (locs_keys xxh64); apply list_elem_of_fmap; eauto).
  apply list_elem_of_fmap in Hk as (e & Hxe & He). pose proof (contiguous_range _ _ _ HF He).
  split; [|by intros Hn; rewrite Hn in He; apply not_elem_of_nil in He].
  destruct (decide (from < F)) as [|Hge]; [done|]. exfalso.
  destruct (contiguous_elem _ _ from HF) as (e' & He' & Hi); [lia|].
  assert (from ∈ (locs gs).*1) as Hk by (rewrite locs_keys; apply list_elem_of_fmap; eauto).
  apply list_elem_of_fmap in Hk as ([j loc] & Hj & Hloc). cbn in Hj. subst j.
  rewrite (rp_index _ _ _ _ _ Hr) in Hnone. apply not_elem_of_list_to_map_2 in Hnone.
  apply Hnone, list_elem_of_fmap. exists (from, loc). split; [done|].
  apply list_elem_of_filter. done.
Qed.

Lemma live_above p from i : live p from = true → from <= i → live p i = true.
Proof. destruct p as [q|]; [|done]. cbn. rewrite !Z.ltb_lt. lia. Qed.

Definition cut_at (st : Inner) (from : Z) : option (Z * nat) :=
  match in_index st !! from with
  | Some loc => Some (lc_segment loc, lc_offset loc)
  | None => (λ x : Z * Loc, (lc_segment x.2, SEGMENT_HEADER)) <$> head (zmap_iter (in_index st))
  end.

Lemma cut_ok d st p gs from x :
  rep d st p gs → live p from = true → index_last st = Some x → from <= x.1 →
  ∃ gs0 gs3 f es1 es2, cuts gs from gs0 gs3 f es1 es2
    ∧ cut_at st from = Some (f, (SEGMENT_HEADER + length (frames es1))%nat).
Proof.
  intros Hr Hlive Hx Hfrom. pose proof (dk_chain _ _ _ _ _ (rp_disk _ _ _ _ _ Hr)) as Hc.
  destruct (chain_run gs Hc) as (F & HF & _). unfold cut_at.
  destruct (in_index st !! from) as [loc|] eqn:Hloc.
  - rewrite (rp_index _ _ _ _ _ Hr) in Hloc. apply elem_of_list_to_map_2 in Hloc.
    apply list_elem_of_filter in Hloc as [_ Hloc].
    destruct (locs_elem _ _ _ Hloc) as (gs0 & f & es1 & e & es2 & gs3 & -> & He & -> & ->).
    exists gs0, gs3, f, es1, (e :: es2). split; [|done].
    assert (phys (gs0 ++ (f, es1 ++ e :: es2) :: gs3)
      = phys (gs0 ++ [(f, es1)]) ++ e :: es2 ++ phys gs3) as Hp.
    { rewrite !phys_app. unfold phys; cbn. by rewrite app_nil_r, <- !app_assoc. }
    rewrite Hp in HF. destruct (contiguous_split _ _ _ _ HF) as (H1 & H2 & H3).
    rewrite He in H1, H2, H3. by split.
  - destruct (index_below _ _ _ _ _ _ _ Hr HF Hlive Hx Hfrom Hloc) as [Hlt Hne].
    destruct gs as [|[f es] gs]; [done|].
    destruct (chain_cons _ _ _ Hc) as (_ & Hes & _ & _ & Hn).
    assert (Forall (λ e, from <= le_index e) (phys ((f, es) :: gs))) as Habove.
    { rewrite Forall_forall. intros e He. pose proof (contiguous_range _ _ _ HF He). lia. }
    destruct es as [|e es].
    { destruct gs as [|[f' es'] gs]; [done|]. by destruct (Hn f' eq_refl). }
    exists [], gs, f, [], (e :: es). split; [split; [done..|by constructor|done|done]|].
    rewrite (index_iter _ _ _ _ _ Hr). unfold live_locs.
    change (locs ((f, e :: es) :: gs)) with
      ((le_index e, mkLoc f SEGMENT_HEADER (length (encode_frame xxh64 e)) (le_term e))
       :: entry_locs xxh64 f (SEGMENT_HEADER + length (encode_frame xxh64 e)) es ++ locs gs).
    rewrite filter_cons_True; [|by apply (live_above p from); [|apply (Forall_inv Habove)]].
    cbn. by rewrite Nat.add_0_r.
Qed.

(** ** Truncating *)

Lemma filter_cut {A} (P Q : A → Prop) `{!∀ x, Decision (P x), !∀ x, Decision (Q x)} l k :
  Forall P l → Forall (λ x, ¬ P x) k → filter P (filter Q (l ++ k)) = filter Q l.
Proof.
  intros Hl Hk. rewrite !filter_app. rewrite list_filter_id.
  - rewrite (list_filter_none P (filter Q k)); [apply app_nil_r|].
    rewrite Forall_forall in *. intros x [_ Hx]%list_elem_of_filter. auto.
  - rewrite Forall_forall in *. intros x [_ Hx]%list_elem_of_filter. auto.
Qed.

Lemma log_of_cut p gs gs' rest j :
  phys gs = phys gs' ++ rest → Forall (λ e, le_index e < j) (phys gs') →
  Forall (λ e, j <= le_index e) rest → log_of p gs' = spec_truncate (log_of p gs) j.
Proof.
  intros Hp Hl Hr. unfold log_of, spec_truncate. cbn. rewrite Hp. f_equal. symmetry.
  apply filter_cut; [done|]. eapply Forall_impl; [exact Hr|]. simpl. lia.
Qed.

Lemma cut_index p gs gs' rest j :
  chain gs → locs gs = locs gs' ++ rest → Forall (λ e, le_index e < j) (phys gs') →
  Forall (λ x, j <= x.1) rest →
  filter (λ x, x.1 < j) (list_to_map (live_locs xxh64 p gs) : gmap Z Loc)
  = list_to_map (live_locs xxh64 p gs').
Proof.
  intros Hc Hlocs Hl Hr. rewrite list_to_map_filter
    by (by apply ascending_NoDup, ascending_filter, locs_ascending).
  f_equal. unfold live_locs. rewrite Hlocs. apply filter_cut.
  - assert (Forall (λ i, i < j) (locs gs').*1) as H by (by rewrite locs_keys, Forall_fmap).
    by rewrite Forall_fmap in H.
  - eapply Forall_impl; [exact Hr|]. simpl. lia.
Qed.

Lemma spec_truncate_id L from :
  log_wf L → (∀ e, last (lg_entries L) = Some e → le_index e < from) → spec_truncate L from = L.
Proof.
  intros [[f Hc] _] Hlast. unfold spec_truncate. rewrite list_filter_id; [by destruct L|].
  rewrite Forall_forall. intros e He. pose proof (contiguous_range _ _ _ Hc He).
  destruct (last (lg_entries L)) as [x|] eqn:Hx.
  - pose proof (contiguous_last _ _ _ Hc Hx). specialize (Hlast x eq_refl). lia.
  - apply last_None in Hx. rewrite Hx in He. by apply not_elem_of_nil in He.
Qed.

(** Entries at or above the cut keep the marker below them. *)
Lemma no_gap_above p gs e from :
  live p from = true → last (phys gs) = Some e → from - 1 <= le_index e → no_gap p gs.
Proof.
  intros Hl He Hi q e' -> He'. simplify_eq. cbn in Hl. apply Z.ltb_lt in Hl. lia.
Qed.

(** What the two ways to finish a truncation leave. *)
Lemma finish_cut d p gs0 f es1 es2 :
  disk d p (gs0 ++ [(f, es1 ++ es2)]) [] →
  let off := (SEGMENT_HEADER + length (frames es1))%nat in
  let op := if decide (off = SEGMENT_HEADER) then Unlink f else SetLen f off in
  let gs' := if decide (off = SEGMENT_HEADER) then gs0 else gs0 ++ [(f, es1)] in
  disk (run_op d op) p gs' [] ∧ phys gs' = phys (gs0 ++ [(f, es1)])
  ∧ locs gs' = locs (gs0 ++ [(f, es1)]) ∧ ∀ d', crash d [op] d' → d' = d ∨ d' = run_op d op.
Proof.
  intros Hd off op gs'. split; [|split; [|split]].
  - unfold op, gs'. case_decide as Ho.
    + by apply (disk_unlink_last _ _ _ _ (f, es1 ++ es2)).
    + by eapply disk_set_len.
  - unfold gs'. case_decide as Ho; [|done].
    assert (es1 = []) as -> by (pose proof (length_frames xxh64 es1); destruct es1; [done|];
      unfold off in Ho; cbn [length] in *; lia).
    rewrite phys_app. symmetry. apply app_nil_r.
  - unfold gs'. case_decide as Ho; [|done].
    assert (es1 = []) as -> by (pose proof (length_frames xxh64 es1); destruct es1; [done|];
      unfold off in Ho; cbn [length] in *; lia).
    rewrite locs_app. symmetry. apply app_nil_r.
  - intros d' Hcr. apply crash_atomic in Hcr; [done|]. unfold op. by case_decide.
Qed.

Lemma truncate_cut st gs from gs0 gs3 f es1 es2 x :
  in_segments st = seg_info <$> gs → chain gs → cuts gs from gs0 gs3 f es1 es2 →
  index_last st = Some x → from <= x.1 →
  let off := (SEGMENT_HEADER + length (frames es1))%nat in
  cut_at st from = Some (f, off) →
  ∃ segs, truncate_from st from =
    inr (mkInner segs (filter (λ x, x.1 < from) (in_index st)) (in_last_purged st),
         unlinks (rev gs3) ++ [if decide (off = SEGMENT_HEADER) then Unlink f else SetLen f off])
  ∧ (off = SEGMENT_HEADER → segs = seg_info <$> gs0)
  ∧ (off ≠ SEGMENT_HEADER →
     segs = (seg_info <$> gs0) ++ [mkSegment f (Some (from - 1)) off]).
Proof.
  intros Hsegs Hc Hcuts Hx Hfrom off Hcut. unfold truncate_from. rewrite Hx.
  destruct x as [last loc]. cbn [fst] in Hfrom. rewrite (proj2 (Z.ltb_ge _ _)) by done.
  fold (cut_at st from). rewrite Hcut, Hsegs. destruct Hcuts as [-> _ _ _ _].
  pose proof (drop_later_ok gs0 (f, es1 ++ es2) gs3 Hc) as Hd. cbn [fst] in Hd. rewrite Hd.
  rewrite (fmap_app _ gs0 [_]). cbn [fmap list_fmap]. rewrite rev_unit.
  change (sg_first_index (seg_info (f, es1 ++ es2))) with f. rewrite rev_involutive.
  case_decide; eexists; split; [done|split; done|done|split; done].
Qed.

(** A prefix of the chain that still has entries at or above the cut. *)
Lemma prefix_recoverable d L gs gs' rest e from :
  disk d (lg_purged L) gs' [] → chain gs → L = log_of (lg_purged L) gs →
  phys gs = phys gs' ++ rest → last (phys gs') = Some e → from <= le_index e →
  live (lg_purged L) from = true →
  ∃ j, from <= j ∧ recoverable d (spec_truncate L j).
Proof.
  intros Hd Hc HL Hp He Hi Hlive. destruct (chain_run gs Hc) as (F & HF & _).
  rewrite Hp in HF. apply contiguous_app in HF as [HF Hrest].
  pose proof (contiguous_last _ _ _ HF He) as Hlast.
  exists (le_index e + 1). split; [lia|]. exists gs', []. split; [done|].
  split; [apply (no_gap_above _ _ e from); [done..|lia]|]. rewrite HL at 1. symmetry.
  apply (log_of_cut _ _ _ rest); [done|..]; rewrite Forall_forall; intros x Hx.
  - pose proof (contiguous_range _ _ _ HF Hx). lia.
  - pose proof (contiguous_range _ _ _ Hrest Hx). lia.
Qed.

Lemma last_prefix_some gs0 f es1 es2 gs4 from :
  es2 ≠ [] → Forall (λ e, from <= le_index e) (es2 ++ phys gs4) →
  ∃ e, last (phys (gs0 ++ (f, es1 ++ es2) :: gs4)) = Some e ∧ from <= le_index e.
Proof.
  intros Hne Hall.
  assert (phys (gs0 ++ (f, es1 ++ es2) :: gs4) = (phys gs0 ++ es1) ++ es2 ++ phys gs4) as ->
    by (rewrite phys_app; unfold phys; cbn; by rewrite <- !app_assoc).
  rewrite last_app. destruct (last (es2 ++ phys gs4)) as [e|] eqn:He.
  - exists e. split; [done|]. apply last_Some in He as [l He]. rewrite He in Hall.
    apply Forall_app in Hall as [_ Hall%Forall_inv]. done.
  - apply last_None, app_eq_nil in He as [? _]. done.
Qed.

(** The chain and the in-memory state after a truncation. *)
Definition cut_chain gs0 (f : Z) (es1 : list LogEntry) : list (Z * list LogEntry) :=
  if decide (SEGMENT_HEADER + length (frames es1) = SEGMENT_HEADER)%nat
  then gs0 else gs0 ++ [(f, es1)].
Definition cut_op (f : Z) (es1 : list LogEntry) : DeviceOp :=
  let off := (SEGMENT_HEADER + length (frames es1))%nat in
  if decide (off = SEGMENT_HEADER) then Unlink f else SetLen f off.

Lemma cut_chain_log p gs from gs0 gs3 f es1 es2 :
  cuts gs from gs0 gs3 f es1 es2 → phys (cut_chain gs0 f es1) = phys (gs0 ++ [(f, es1)]) →
  live p from = true →
  no_gap p (cut_chain gs0 f es1) ∧ log_of p (cut_chain gs0 f es1) = spec_truncate (log_of p gs) from.
Proof.
  intros Hcuts Hp Hlive. pose proof (cuts_phys _ _ _ _ _ _ _ Hcuts) as Hphys.
  destruct Hcuts as [_ _ Hbelow Habove Hlast]. split.
  - intros q e -> He. rewrite Hp in He. rewrite (Hlast _ He). cbn in Hlive.
    apply Z.ltb_lt in Hlive. lia.
  - apply (log_of_cut _ _ _ (es2 ++ phys gs3)); rewrite ?Hp; done.
Qed.

Lemma cut_chain_index p gs from gs0 gs3 f es1 es2 :
  cuts gs from gs0 gs3 f es1 es2 → chain gs →
  phys (cut_chain gs0 f es1) = phys (gs0 ++ [(f, es1)]) →
  locs (cut_chain gs0 f es1) = locs (gs0 ++ [(f, es1)]) →
  filter (λ x, x.1 < from) (list_to_map (live_locs xxh64 p gs) : gmap Z Loc)
  = list_to_map (live_locs xxh64 p (cut_chain gs0 f es1)).
Proof.
  intros Hcuts Hc Hp Hl. destruct Hcuts as [Hgs _ Hbelow Habove _].
  set (off := (SEGMENT_HEADER + length (frames es1))%nat).
  apply (cut_index _ _ _ (entry_locs xxh64 f off es2 ++ locs gs3)); [done| |by rewrite Hp|].
  - rewrite Hl, Hgs, !locs_app. unfold FsLogScan.locs, FsLogScan.seg_locs; cbn.
    by rewrite app_nil_r, entry_locs_app, <- !app_assoc.
  - assert (Forall (λ i, from <= i) (entry_locs xxh64 f off es2 ++ locs gs3).*1) as H.
    { rewrite fmap_app, entry_locs_keys, locs_keys, <- fmap_app, Forall_fmap. exact Habove. }
    by rewrite Forall_fmap in H.
Qed.

Lemma cut_chain_segs from gs0 f es1 segs :
  (∀ e, last (phys (gs0 ++ [(f, es1)])) = Some e → le_index e = from - 1) →
  let off := (SEGMENT_HEADER + length (frames es1))%nat in
  (off = SEGMENT_HEADER → segs = seg_info <$> gs0) →
  (off ≠ SEGMENT_HEADER → segs = (seg_info <$> gs0) ++ [mkSegment f (Some (from - 1)) off]) →
  segs = seg_info <$> cut_chain gs0 f es1.
Proof.
  intros Hlast off H1 H2. unfold cut_chain. fold off. case_decide as Ho; [by apply H1|].
  rewrite (H2 Ho), fmap_app.
  assert (mkSegment f (Some (from - 1)) off = seg_info (f, es1)) as ->; [|done].
  unfold FsLogScan.seg_info. cbn [fst snd]. destruct (last es1) as [e|] eqn:He.
  - rewrite <- (Hlast e); [done|]. rewrite phys_app. unfold phys at 2; cbn.
    by rewrite app_nil_r, last_app, He.
  - apply last_None in He. subst es1. by destruct Ho.
Qed.

(** Crashing between the removals and the final cut. *)
Lemma truncate_crash d d' L gs from gs0 gs3 f es1 es2 :
  disk d (lg_purged L) gs [] → L = log_of (lg_purged L) gs → live (lg_purged L) from = true →
  cuts gs from gs0 gs3 f es1 es2 →
  (∃ gs4 gs5, gs3 = gs4 ++ gs5 ∧ disk d' (lg_purged L) ((gs0 ++ [(f, es1 ++ es2)]) ++ gs4) []) →
  ∃ j, from <= j ∧ recoverable d' (spec_truncate L j).
Proof.
  intros Hd HL Hlive [Hgs Hne _ Habove _] (gs4 & gs5 & -> & Hd').
  rewrite <- app_assoc in Hd'. cbn [app] in Hd'. rewrite phys_app, app_assoc in Habove.
  apply Forall_app in Habove as [Habove _].
  destruct (last_prefix_some gs0 f es1 es2 gs4 from Hne Habove) as (e & He & Hi).
  apply (prefix_recoverable d' L gs (gs0 ++ (f, es1 ++ es2) :: gs4) (phys gs5) e from); try done.
  - apply (dk_chain _ _ _ _ _ Hd).
  - by rewrite <- phys_app, <- app_assoc, Hgs.
Qed.

Lemma truncate_step_cut d st L from x :
  holds d st L → truncate_ok L from → index_last st = Some x → from <= x.1 →
  ∃ st' ops, truncate_from st from = inr (st', ops)
    ∧ holds (run_ops d ops) st' (spec_truncate L from)
    ∧ ∀ d', crash d ops d' → ∃ j, from <= j ∧ recoverable d' (spec_truncate L j).
Proof.
  intros (gs & Hr & Hg & HL) Hok Hx Hfrom. pose proof Hr as [Hd Hsegs Hindex Hpur].
  pose proof (dk_chain _ _ _ _ _ Hd) as Hc.
  destruct (cut_ok _ _ _ _ _ _ Hr Hok Hx Hfrom) as (gs0 & gs3 & f & es1 & es2 & Hcuts & Hat).
  destruct (truncate_cut st gs from gs0 gs3 f es1 es2 x Hsegs Hc Hcuts Hx Hfrom Hat)
    as (segs & Ht & Hs1 & Hs2).
  eexists _, _. split; [exact Ht|]. fold (cut_op f es1).
  assert (gs = (gs0 ++ [(f, es1 ++ es2)]) ++ gs3) as Hgs'
    by (by rewrite (ct_split _ _ _ _ _ _ _ Hcuts), <- app_assoc).
  pose proof Hd as Hd0. rewrite Hgs' in Hd0. destruct (unlink_newest _ _ _ _ Hd0) as [Hd1 Hcr1].
  destruct (finish_cut _ _ _ _ _ _ Hd1) as (Hd2 & Hp2 & Hl2 & Hcr2).
  fold (cut_chain gs0 f es1) (cut_op f es1) in Hd2, Hp2, Hl2, Hcr2.
  destruct (cut_chain_log _ _ _ _ _ _ _ _ Hcuts Hp2 Hok) as [Hg' HL'].
  rewrite <- HL in HL'. rewrite run_ops_app. split.
  - exists (cut_chain gs0 f es1). split; [split; [exact Hd2|..]|done].
    + cbn [in_segments]. eapply cut_chain_segs; [apply (ct_last _ _ _ _ _ _ _ Hcuts)|done..].
    + cbn [in_index]. rewrite Hindex. by eapply cut_chain_index.
    + exact Hpur.
  - intros d' [Hcr|Hcr]%crash_app; [by apply (truncate_crash d d' L gs from gs0 gs3 f es1 es2); auto|].
    destruct (Hcr2 _ Hcr) as [-> | ->].
    + apply (truncate_crash d _ L gs from gs0 gs3 f es1 es2); [done..|]. exists [], gs3. split; [done|]. by rewrite app_nil_r.
    + exists from. split; [done|]. by exists (cut_chain gs0 f es1), [].
Qed.

Lemma truncate_step d st L from :
  holds d st L → truncate_ok L from →
  ∃ st' ops, truncate_from st from = inr (st', ops)
    ∧ holds (run_ops d ops) st' (spec_truncate L from)
    ∧ ∀ d', crash d ops d' → ∃ j, from <= j ∧ recoverable d' (spec_truncate L j).
Proof.
  intros Hh Hok. destruct (index_last st) as [x|] eqn:Hx.
  - destruct (decide (from <= x.1)) as [Hle|Hgt]; [by eapply truncate_step_cut|].
    assert (spec_truncate L from = L) as HL.
    { apply spec_truncate_id; [by eapply holds_wf|]. intros e He.
      pose proof (holds_last _ _ _ _ Hh) as Hl. rewrite Hx, He in Hl.
      inversion Hl as [? ? (Hxe & _)|]; subst. lia. }
    exists st, []. unfold truncate_from. rewrite Hx. destruct x as [last loc]. cbn [fst] in Hgt.
    rewrite (proj2 (Z.ltb_lt _ _)) by lia. rewrite HL. split; [done|]. split; [done|].
    intros d' ->%crash_nil. exists from. rewrite HL. split; [done|by eapply holds_recoverable].
  - assert (spec_truncate L from = L) as HL.
    { apply spec_truncate_id; [by eapply holds_wf|]. intros e He.
      pose proof (holds_last _ _ _ _ Hh) as Hl. rewrite Hx, He in Hl. inversion Hl. }
    exists st, []. unfold truncate_from. rewrite Hx, HL. split; [done|]. split; [done|].
    intros d' ->%crash_nil. exists from. rewrite HL. split; [done|by eapply holds_recoverable].
Qed.
End cut.

(** * The file log: purging

    The marker is written first, then the segments it covers go, oldest first.
    Run to the end, any purge is right.  A crash in between is harmless when
    the marker stays within the log; past its end it leaves segments the next
    append must not continue (see [fs_log_purge_crash_loses_entries]). *)

(** The marker does not pass the end of the log. *)
Definition purge_within (L : Log) (id : LogId) : Prop :=
  ∀ n, next_index L = Some n → li_index id < n.

Section purge.
Context (xxh64 : list Z → Z → Z).
#[local] Abbreviation seg_info := (seg_info xxh64).
#[local] Abbreviation locs := (locs xxh64).
#[local] Abbreviation rep := (rep xxh64).
#[local] Abbreviation disk := (disk xxh64).
#[local] Abbreviation holds := (holds xxh64).
#[local] Abbreviation recoverable := (recoverable xxh64).

Implicit Types gs : list (Z * list LogEntry).

(** ** The obsolete segments are a prefix *)

Definition gone (id : LogId) (g : Z * list LogEntry) : bool := obsolete id (seg_info g).

Lemma kept_above id gs :
  chain gs → (∀ f, (fst <$> head gs) = Some f → li_index id < f) →
  Forall (λ g, gone id g = false) gs.
Proof.
  induction gs as [|[f es] gs IH]; [constructor|]. intros Hc Hf.
  apply chain_cons in Hc as (_ & Hes & _ & Hgs & Hn). specialize (Hf f eq_refl). constructor.
  - unfold gone, obsolete, FsLogScan.seg_info. cbn. destruct (last es) as [e|] eqn:He; cbn.
    + pose proof (contiguous_last _ _ _ Hes He). destruct es; [done|]. cbn [length] in *.
      apply Z.leb_gt. lia.
    + by apply Z.leb_gt.
  - apply IH; [done|]. intros f' Hf'. destruct (Hn _ Hf') as [_ ->]. lia.
Qed.

Lemma gone_split id gs :
  chain gs → ∃ gsO gsK, gs = gsO ++ gsK ∧ Forall (λ g, gone id g = true) gsO
    ∧ Forall (λ g, gone id g = false) gsK.
Proof.
  induction gs as [|[f es] gs IH]; intros Hc; [by exists [], []|].
  destruct (chain_cons _ _ _ Hc) as (_ & Hes & _ & Hgs & Hn).
  destruct (gone id (f, es)) eqn:Hg.
  - destruct (IH Hgs) as (gsO & gsK & -> & HO & HK). exists ((f, es) :: gsO), gsK.
    split; [done|]. split; [by constructor|done].
  - exists [], ((f, es) :: gs). split; [done|]. split; [constructor|]. constructor; [done|].
    apply kept_above; [done|]. intros f' Hf'. destruct (Hn _ Hf') as [Hne ->].
    unfold gone, obsolete, FsLogScan.seg_info in Hg. cbn in Hg.
    destruct (last es) as [e|] eqn:He; cbn in Hg; [|by apply last_None in He].
    apply Z.leb_gt in Hg. pose proof (contiguous_last _ _ _ Hes He). lia.
Qed.

Lemma gone_below id gs :
  chain gs → Forall (λ g, gone id g = true) gs →
  Forall (λ e, le_index e <= li_index id) (phys gs).
Proof.
  induction gs as [|[f es] gs IH]; [constructor|]. intros Hc [Hg HG]%Forall_cons.
  apply chain_cons in Hc as (_ & Hes & _ & Hgs & _). apply Forall_app. split; [|by apply IH].
  cbn. rewrite Forall_forall. intros e He. pose proof (contiguous_range _ _ _ Hes He).
  unfold gone, obsolete, FsLogScan.seg_info in Hg. cbn in Hg.
  destruct (last es) as [x|] eqn:Hx; cbn in Hg; apply Z.leb_le in Hg.
  - pose proof (contiguous_last _ _ _ Hes Hx). lia.
  - apply last_None in Hx. subst. by apply not_elem_of_nil in He.
Qed.

Lemma kept_last id gs e :
  Forall (λ g, gone id g = false) gs → last (phys gs) = Some e → li_index id < le_index e.
Proof.
  induction gs as [|[f es] gs IH] using rev_ind; [done|]. intros [HK Hg]%Forall_app He.
  rewrite phys_app, last_app in He. unfold phys at 1 in He. cbn in He. rewrite app_nil_r in He.
  destruct (last es) as [x|] eqn:Hx; [|by apply IH]. simplify_eq.
  apply Forall_inv in Hg. unfold gone, obsolete, FsLogScan.seg_info in Hg. cbn in Hg.
  rewrite Hx in Hg. cbn in Hg. by apply Z.leb_gt in Hg.
Qed.

Lemma gone_filter id gsO gsK :
  Forall (λ g, gone id g = true) gsO → Forall (λ g, gone id g = false) gsK →
  filter (λ seg, obsolete id seg = false) (seg_info <$> (gsO ++ gsK)) = seg_info <$> gsK
  ∧ (λ seg, Unlink (sg_first_index seg)) <$>
      filter (λ seg, obsolete id seg = true) (seg_info <$> (gsO ++ gsK)) = unlinks gsO.
Proof.
  intros HO HK. rewrite fmap_app, !filter_app. split.
  - rewrite list_filter_none, list_filter_id; [done|by apply Forall_fmap|].
    apply Forall_fmap. eapply Forall_impl; [exact HO|]. cbn. unfold gone. by intros g ->.
  - rewrite list_filter_id, list_filter_none, app_nil_r.
    + unfold unlinks. by rewrite <- list_fmap_compose.
    + apply Forall_fmap. eapply Forall_impl; [exact HK|]. cbn. unfold gone. by intros g ->.
    + by apply Forall_fmap.
Qed.

(** ** The log above the marker *)

Lemma filter_purge {A} (key : A → Z) p id l k :
  Forall (λ x, key x <= li_index id) l → (∀ q, p = Some q → li_index q < li_index id) →
  filter (λ x, li_index id < key x) (filter (λ x, live p (key x) = true) (l ++ k))
  = filter (λ x, live (Some id) (key x) = true) k.
Proof.
  intros Hl Hp. rewrite list_filter_filter, filter_app, list_filter_none.
  - apply list_filter_iff. intros x. cbn. rewrite Z.ltb_lt. split; [by intros [? _]|].
    intros Hx. split; [done|]. destruct p as [q|]; [|done]. apply Z.ltb_lt.
    specialize (Hp q eq_refl). lia.
  - eapply Forall_impl; [exact Hl|]. cbn. lia.
Qed.

Lemma log_of_purge p gs gs' rest id :
  phys gs = rest ++ phys gs' → Forall (λ e, le_index e <= li_index id) rest →
  (∀ q, p = Some q → li_index q < li_index id) →
  log_of (Some id) gs' = spec_purge (log_of p gs) id.
Proof.
  intros Hp Hr Hq. unfold log_of, spec_purge. cbn [lg_purged lg_entries].
  rewrite Hp, (filter_purge le_index) by done. f_equal. destruct p as [q|]; [|done].
  specialize (Hq q eq_refl). by rewrite (proj2 (Z.leb_gt _ _)) by lia.
Qed.

Lemma spec_purge_id L id q :
  log_wf L → lg_purged L = Some q → li_index id <= li_index q → spec_purge L id = L.
Proof.
  intros [_ Hl] Hq Hle. unfold spec_purge. rewrite Hq, (proj2 (Z.leb_le _ _)) by done.
  rewrite list_filter_id; [by destruct L; simplify_eq/=|].
  eapply Forall_impl; [exact Hl|]. intros e. rewrite Hq. cbn. rewrite Z.ltb_lt. lia.
Qed.

Lemma disk_write_purged d p gs id : disk d p gs [] → disk (run_op d (WritePurged id)) (Some id) gs [].
Proof. by intros [? _ ? ? ?]. Qed.

(** ** The purge *)

(** The part of the location table above the marker. *)
Lemma purge_index p gsO gsK id :
  chain (gsO ++ gsK) → Forall (λ e, le_index e <= li_index id) (phys gsO) →
  (∀ q, p = Some q → li_index q < li_index id) →
  filter (λ x, li_index id < x.1) (list_to_map (live_locs xxh64 p (gsO ++ gsK)) : gmap Z Loc)
  = list_to_map (live_locs xxh64 (Some id) gsK).
Proof.
  intros Hc HO Hp. rewrite list_to_map_filter
    by (by apply ascending_NoDup, ascending_filter, locs_ascending).
  f_equal. unfold live_locs. rewrite locs_app. apply (filter_purge fst); [|done].
  assert (Forall (λ i, i <= li_index id) (locs gsO).*1) as H by (by rewrite locs_keys, Forall_fmap).
  by rewrite Forall_fmap in H.
Qed.

(** The device once the marker is written and the segments it covers are
    gone, all or only the oldest of them. *)
Lemma purged_recoverable d L gs gs' rest id junk :
  disk d (Some id) gs' junk → no_gap (Some id) gs' → L = log_of (lg_purged L) gs →
  phys gs = rest ++ phys gs' → Forall (λ e, le_index e <= li_index id) rest →
  (∀ q, lg_purged L = Some q → li_index q < li_index id) →
  recoverable d (spec_purge L id) ∧ spec_purge L id = log_of (Some id) gs'.
Proof.
  intros Hd Hg HL Hp Hr Hq. pose proof (log_of_purge _ _ _ _ _ Hp Hr Hq) as Hlog.
  rewrite <- HL in Hlog. split; [|done]. exists gs', junk. by rewrite <- Hlog.
Qed.

Lemma within_no_gap p gs gs' rest id :
  chain gs → no_gap p gs → purge_within (log_of p gs) id → phys gs = rest ++ phys gs' →
  no_gap (Some id) gs'.
Proof.
  intros Hc Hg Hw Hp q e [= <-] He. assert (last (phys gs) = Some e) as Hl
    by (by rewrite Hp, last_app, He).
  specialize (Hw _ (next_phys _ _ _ Hc Hg Hl)). lia.
Qed.

Lemma purge_new d st L id :
  holds d st L → (∀ q, lg_purged L = Some q → li_index q < li_index id) →
  ∃ st' ops, purge_through st id = inr (st', ops)
    ∧ holds (run_ops d ops) st' (spec_purge L id)
    ∧ (purge_within L id →
       ∀ d', crash d ops d' → recoverable d' L ∨ recoverable d' (spec_purge L id)).
Proof.
  intros Hh Hq. pose proof Hh as (gs & Hr & Hg & HL).
  pose proof Hr as [Hd Hsegs Hindex Hpur]. pose proof (dk_chain _ _ _ _ _ Hd) as Hc.
  destruct (gone_split id gs Hc) as (gsO & gsK & -> & HO & HK).
  pose proof (gone_below _ _ (chain_prefix _ _ Hc) HO) as Hbelow.
  destruct (gone_filter id gsO gsK HO HK) as [Hkeep Hgone].
  pose proof (disk_write_purged _ _ _ id Hd) as Hd1.
  destruct (unlink_oldest _ _ _ _ _ Hd1) as [Hrun Hcr].
  destruct (purged_recoverable _ L (gsO ++ gsK) gsK (phys gsO) id [] Hrun) as [_ Hlog];
    [by intros q e [= <-] He; pose proof (kept_last _ _ _ HK He); lia|done|apply phys_app|done|done|].
  eexists _, _. split.
  { unfold purge_through. rewrite Hpur. destruct (lg_purged L) as [q|].
    - rewrite (proj2 (Z.leb_gt _ _)) by (by apply Hq). reflexivity.
    - reflexivity. }
  rewrite Hsegs, Hkeep, Hgone. split.
  - exists gsK. rewrite Hlog. cbn [log_of lg_purged]. split; [split|split]; [exact Hrun|done|..|done| |done].
    + cbn [in_index]. rewrite Hindex. by apply purge_index.
    + intros q e [= <-] He. pose proof (kept_last _ _ _ HK He). lia.
  - intros Hw d' Hcrash. change (WritePurged id :: unlinks gsO) with ([WritePurged id] ++ unlinks gsO) in Hcrash.
    rewrite HL in Hw. apply crash_app in Hcrash as [Hc1|Hc1].
    + apply crash_atomic in Hc1 as [-> | ->]; [by left; eapply holds_recoverable| |done]. right.
      by destruct (purged_recoverable _ L (gsO ++ gsK) (gsO ++ gsK) [] id [] Hd1); [by eapply (within_no_gap _ _ _ [])|..].
    + destruct (Hcr _ Hc1) as (gs4 & gs5 & -> & Hd5). right.
      rewrite <- app_assoc in *. rewrite phys_app in Hbelow. apply Forall_app in Hbelow as [Hb4 _].
      destruct (purged_recoverable _ L (gs4 ++ gs5 ++ gsK) (gs5 ++ gsK) (phys gs4) id [] Hd5) as [? _];
        [by eapply within_no_gap; [..|apply phys_app]|done|apply phys_app|done..].
Qed.

Lemma purge_step d st L id :
  holds d st L →
  ∃ st' ops, purge_through st id = inr (st', ops)
    ∧ holds (run_ops d ops) st' (spec_purge L id)
    ∧ (purge_within L id →
       ∀ d', crash d ops d' → recoverable d' L ∨ recoverable d' (spec_purge L id)).
Proof.
  intros Hh. pose proof (holds_wf _ _ _ _ Hh) as Hwf. destruct (lg_purged L) as [q|] eqn:Hq;
    [|by apply purge_new; [|rewrite Hq]].
  destruct (decide (li_index id <= li_index q)) as [Hle|Hgt].
  - exists st, []. pose proof Hh as (gs & [_ _ _ Hpur] & _). unfold purge_through.
    rewrite Hpur, Hq, (proj2 (Z.leb_le _ _)) by done. rewrite (spec_purge_id L id q) by done.
    split; [done|]. split; [done|]. intros _ d' ->%crash_nil. left. by eapply holds_recoverable.
  - apply purge_new; [done|]. rewrite Hq. intros ? [= <-]. lia.
Qed.
End purge.
