(* ===== verification/FsLogTheorems.v ===== *)
(** * The file log as a log store, and its histories with crashes

    [FsRaftLogStore] is the device with the in-memory state; its calls meet the
    [RaftLogStore] contract.  [fs_run] adds crashes: at any point of the device
    operations of a call, and again during the recovery that follows. *)

From S2P Require Import Prelude Adapter FsFrame RaftLog FsLog FsLogScan FsLogInvariant FsLogAppend.
From S2P Require Import FsLogCut.
Definition FsRaftLogStore : Type := Device * Inner.

Definition empty_device : Device := mkDevice ∅ None.

Section store.
Context (xxh64 : list Z → Z → Z) (segment_bytes : nat).
#[local] Abbreviation holds := (holds xxh64).
#[local] Abbreviation recoverable := (recoverable xxh64).

(** ** The store *)

(** [FsRaftLogStore::open] on a directory. *)
Definition fs_open (d : Device) : Device * (string + Inner) :=
  let '(ops, r) := open xxh64 d in (run_ops d ops, r).

(** A call that succeeded has done its device operations; the errors here are
    raised before the first of them. *)
Definition committed (s : FsRaftLogStore) (r : string + Inner * list DeviceOp)
    : FsRaftLogStore * (string + unit) :=
  match r with
  | inr (st, ops) => ((run_ops s.1 ops, st), inr ())
  | inl e => (s, inl e)
  end.

Definition fs_append (s : FsRaftLogStore) (entries : list LogEntry) :=
  committed s (append xxh64 segment_bytes s.2 entries).
Definition fs_read_range (s : FsRaftLogStore) (start end_ : Z) :=
  read_range xxh64 s.1 s.2 start end_.
Definition fs_truncate_from (s : FsRaftLogStore) (from_index : Z) :=
  committed s (truncate_from s.2 from_index).
Definition fs_purge_through (s : FsRaftLogStore) (log_id : LogId) :=
  committed s (purge_through s.2 log_id).
Definition fs_log_state (s : FsRaftLogStore) : LogState := log_state s.2.

Lemma fs_committed (s : FsRaftLogStore) r L :
  (∃ st ops, r = inr (st, ops) ∧ holds (run_ops s.1 ops) st L) →
  ∃ s', committed s r = (s', inr ()) ∧ holds s'.1 s'.2 L.
Proof. intros (st & ops & -> & Hh). by exists (run_ops s.1 ops, st). Qed.

Lemma empty_recoverable : recoverable empty_device empty_log.
Proof. exists [], []. split; [by split|]. by split. Qed.

Lemma fs_open_empty :
  ∃ st, fs_open empty_device = (empty_device, inr st) ∧ holds empty_device st empty_log.
Proof.
  exists (mkInner [] ∅ None). split; [reflexivity|]. exists []. split; [|by split].
  split; [by split|done..].
Qed.

(** What the store holds, as a reader sees it. *)
Definition contents (s : FsRaftLogStore) : Log :=
  mkLog (st_last_purged (fs_log_state s))
    match fs_read_range s 0 two64 with Some (inr es) => es | _ => [] end.

Lemma holds_contents s L : holds s.1 s.2 L → contents s = L.
Proof.
  intros Hh. unfold contents, fs_read_range, fs_log_state.
  rewrite (holds_read _ _ _ _ _ _ Hh), (holds_log_state _ _ _ _ Hh) by done.
  cbn [st_last_purged spec_log_state]. destruct L as [p es]. f_equal. apply list_filter_id.
  destruct Hh as (gs & Hr & _ & HL). injection HL as ->.
  pose proof (chain_fits _ (dk_chain _ _ _ _ _ (rp_disk _ _ _ _ _ Hr))) as Hf.
  rewrite Forall_forall in *. intros e [_ He]%list_elem_of_filter. apply (Hf e He).
Qed.

(** ** Crashes *)

Inductive Event :=
  | Completed (c : LogCall)
  | Crashed (c : LogCall).

(** The device operations of a call. *)
Definition call_ops (st : Inner) (c : LogCall) : list DeviceOp :=
  let ops r := match r with inr (_, ops) => ops | inl _ => [] end in
  match c with
  | Append es => ops (append xxh64 segment_bytes st es)
  | TruncateFrom from => ops (truncate_from st from)
  | PurgeThrough id => ops (purge_through st id)
  | ReadRange _ _ | GetLogState => []
  end.

(** Opening after a crash; recovery may crash too and start over. *)
Inductive reopens : Device → FsRaftLogStore → Prop :=
  | reopens_ok d ops st : open xxh64 d = (ops, inr st) → reopens d (run_ops d ops, st)
  | reopens_again d ops r d' s :
      open xxh64 d = (ops, r) → crash d ops d' → reopens d' s → reopens d s.

(** What a crash during a call may leave of the log. *)
Definition crashed_log (L : Log) (c : LogCall) (L' : Log) : Prop :=
  match c with
  | Append es => ∃ k, L' = spec_append L (take k es)
  | TruncateFrom from => ∃ j, from <= j ∧ L' = spec_truncate L j
  | PurgeThrough id => L' = L ∨ L' = spec_purge L id
  | ReadRange _ _ | GetLogState => L' = L
  end.

(** A purge a crash may interrupt stays within the log: [purge_through] also
    takes ids past its end, and a crash between the marker and the unlinks of
    such a purge leaves a log that loses the next append. *)
Definition crash_ok (L : Log) (c : LogCall) : Prop :=
  call_ok L c ∧ match c with PurgeThrough id => purge_within L id | _ => True end.

Inductive log_step (L : Log) : Event → Log → Prop :=
  | log_completed c : log_step L (Completed c) (spec_call L c).1
  | log_crashed c L' : crashed_log L c L' → log_step L (Crashed c) L'.

Inductive log_run : Log → list Event → Log → Prop :=
  | log_run_nil L : log_run L [] L
  | log_run_cons L ev L1 evs L2 : log_step L ev L1 → log_run L1 evs L2 → log_run L (ev :: evs) L2.

Lemma reopens_holds d s L : reopens d s → recoverable d L → holds s.1 s.2 L.
Proof.
  intros Hre. induction Hre as [d ops st Ho|d ops r d' s Ho Hcr _ IH]; intros Hrec;
    destruct (recover _ _ _ Hrec) as (ops' & st' & Ho' & Hh & Hops); rewrite Ho in Ho'; simplify_eq.
  - done.
  - apply IH. destruct Hops as [->|(f & n & ->)].
    + by apply crash_nil in Hcr as ->.
    + apply crash_atomic in Hcr as [-> | ->]; [done| |done]. by eapply holds_recoverable.
Qed.

Section steps.
Context (Hbytes : (SEGMENT_HEADER < segment_bytes)%nat).

#[local] Instance fs_log_store : RaftLogStore FsRaftLogStore.
Proof.
  refine {| ls_append := fs_append; ls_read_range := fs_read_range;
    ls_truncate_from := fs_truncate_from; ls_purge_through := fs_purge_through;
    ls_log_state := fs_log_state; ls_holds s L := holds s.1 s.2 L |}.
  - intros s L es Hh Hok. apply fs_committed.
    destruct (append_step _ _ Hbytes _ _ _ _ Hh Hok) as (st & ops & ? & ? & _). eauto.
  - intros s L from Hh Hok. apply fs_committed.
    destruct (truncate_step _ _ _ _ _ Hh Hok) as (st & ops & ? & ? & _). eauto.
  - intros s L id Hh _. apply fs_committed.
    destruct (purge_step _ _ _ _ id Hh) as (st & ops & ? & ? & _). eauto.
  - intros s L start end_ Hh Hle. by apply holds_read.
  - intros s L Hh. by apply (holds_log_state xxh64 s.1).
Defined.

Lemma crash_call d st L c d' :
  holds d st L → crash_ok L c → crash d (call_ops st c) d' →
  ∃ L', crashed_log L c L' ∧ recoverable d' L'.
Proof.
  intros Hh [Hok Hin] Hcr. destruct c as [es|start end_|from|id|]; cbn in *.
  - destruct (append_step _ _ Hbytes _ _ _ _ Hh Hok) as (st' & ops & Hc & _ & Hall).
    rewrite Hc in Hcr. destruct (Hall _ Hcr) as [k ?]. eauto.
  - apply crash_nil in Hcr as ->. eauto using holds_recoverable.
  - destruct (truncate_step _ _ _ _ _ Hh Hok) as (st' & ops & Hc & _ & Hall).
    rewrite Hc in Hcr. destruct (Hall _ Hcr) as (j & ? & ?). eauto.
  - destruct (purge_step _ _ _ _ id Hh) as (st' & ops & Hc & _ & Hall).
    rewrite Hc in Hcr. destruct (Hall Hin _ Hcr); eauto.
  - apply crash_nil in Hcr as ->. eauto using holds_recoverable.
Qed.

(** One event of the store: a call Raft may make on what the store holds. *)
Inductive fs_step (s : FsRaftLogStore) : Event → FsRaftLogStore → Prop :=
  | fs_completed c s' a :
      call_ok (contents s) c → do_call s c = (s', a) → fs_step s (Completed c) s'
  | fs_crashed c d' s' :
      crash_ok (contents s) c → crash s.1 (call_ops s.2 c) d' → reopens d' s' →
      fs_step s (Crashed c) s'.

Inductive fs_run : FsRaftLogStore → list Event → FsRaftLogStore → Prop :=
  | fs_run_nil s : fs_run s [] s
  | fs_run_cons s ev s1 evs s2 : fs_step s ev s1 → fs_run s1 evs s2 → fs_run s (ev :: evs) s2.

Lemma fs_step_refines s L ev s' :
  holds s.1 s.2 L → fs_step s ev s' → ∃ L', log_step L ev L' ∧ holds s'.1 s'.2 L'.
Proof.
  intros Hh Hst. destruct Hst as [c s' a Hok Hdo|c d' s' Hok Hcr Hre];
    rewrite (holds_contents _ _ Hh) in Hok.
  - destruct (@do_call_spec _ fs_log_store s L c Hh Hok) as (s1 & Hdo' & Hh'). rewrite Hdo in Hdo'. simplify_eq.
    eexists. split; [constructor|done].
  - destruct (crash_call _ _ _ _ _ Hh Hok Hcr) as (L' & HL' & Hrec). exists L'.
    split; [by constructor|]. by eapply reopens_holds.
Qed.

Lemma fs_run_refines s evs s' L :
  holds s.1 s.2 L → fs_run s evs s' → ∃ L', log_run L evs L' ∧ holds s'.1 s'.2 L'.
Proof.
  intros Hh Hrun. revert L Hh. induction Hrun as [s|s ev s1 evs s2 Hst _ IH]; intros L Hh.
  - exists L. by split; [constructor|].
  - destruct (fs_step_refines _ _ _ _ Hh Hst) as (L1 & Hl & Hh1).
    destruct (IH _ Hh1) as (L2 & Hr & Hh2). exists L2. split; [by econstructor|done].
Qed.
End steps.
End store.

(** * What the Raft log store promises

    The file log and the memory log answer every admissible history alike; a
    crash at any point of the file log's device operations loses nothing that
    was acknowledged, except during a purge past the end of the log, which is
    exhibited. *)

(** A concrete checksum for the examples. *)
Definition byte_sum (bytes : list Z) (seed : Z) : Z := foldl Z.add seed bytes `mod` two64.

Definition memory_empty : MemoryRaftLogStore := mkMemLog ∅ None None None.

Lemma memory_empty_holds : ls_holds memory_empty empty_log.
Proof. split; [by split; [exists 0|constructor]|done]. Qed.

(** ** Entries that survive *)

(** A call that neither cuts nor purges index [i]. *)
Definition spares (i : Z) (c : LogCall) : Prop :=
  match c with
  | TruncateFrom from => i < from
  | PurgeThrough id => li_index id < i
  | _ => True
  end.

Definition event_call (ev : Event) : LogCall :=
  match ev with Completed c | Crashed c => c end.

Lemma log_step_spares L ev L' e :
  log_step L ev L' → spares (le_index e) (event_call ev) → e ∈ lg_entries L → e ∈ lg_entries L'.
Proof.
  intros Hst Hsp He. destruct Hst as [c|c L' Hc]; destruct c as [es|a b|from|id|]; cbn in *;
    rewrite ?elem_of_app, ?list_elem_of_filter; try by auto.
  - destruct Hc as [k ->]. apply elem_of_app. by left.
  - by subst.
  - destruct Hc as (j & Hj & ->). apply list_elem_of_filter. split; [cbn; lia|done].
  - destruct Hc as [-> | ->]; [done|]. by apply list_elem_of_filter.
  - by subst.
Qed.

Lemma log_run_spares L evs L' e :
  log_run L evs L' → Forall (λ ev, spares (le_index e) (event_call ev)) evs →
  e ∈ lg_entries L → e ∈ lg_entries L'.
Proof.
  induction 1 as [|L ev L1 evs L2 Hst _ IH]; [done|]. intros [Hev Hevs]%Forall_cons He.
  eauto using log_step_spares.
Qed.

Section theorems.
Context (xxh64 : list Z → Z → Z) (segment_bytes : nat).
Context (Hbytes : (SEGMENT_HEADER < segment_bytes)%nat).
#[local] Abbreviation fs_run := (fs_run xxh64 segment_bytes Hbytes).
#[local] Existing Instance fs_log_store.

Lemma fs_run_fresh evs st s :
  fs_open xxh64 empty_device = (empty_device, inr st) → fs_run (empty_device, st) evs s →
  ∃ L, log_run empty_log evs L ∧ holds xxh64 s.1 s.2 L.
Proof.
  intros Ho Hrun. destruct (fs_open_empty xxh64) as (st' & Ho' & Hh). rewrite Ho in Ho'.
  injection Ho' as <-. exact (fs_run_refines xxh64 segment_bytes Hbytes (empty_device, st) _ _ _ Hh Hrun).
Qed.
End theorems.

(** C38: Over any history of calls Raft may make, from an empty directory, the
    file store and the memory store give the same answers, and both are the
    answers of the abstract log: every write succeeds, every read returns the
    entries of its range. *)
Theorem log_stores_agree xxh64 segment_bytes (Hbytes : (SEGMENT_HEADER < segment_bytes)%nat) cs :
  calls_ok empty_log cs →
  ∃ st, fs_open xxh64 empty_device = (empty_device, inr st)
    ∧ (@do_calls _ (fs_log_store xxh64 segment_bytes Hbytes) (empty_device, st) cs).2
      = (spec_calls empty_log cs).2
    ∧ (do_calls memory_empty cs).2 = (spec_calls empty_log cs).2.
Proof.
  intros Hok. destruct (fs_open_empty xxh64) as (st & Ho & Hh). exists st. split; [done|].
  destruct (@do_calls_spec _ (fs_log_store xxh64 segment_bytes Hbytes) cs (empty_device, st) empty_log Hh Hok)
    as (s' & -> & _).
  by destruct (do_calls_spec cs memory_empty empty_log memory_empty_holds Hok) as (m' & -> & _).
Qed.

(** C6: crash safety, but for one case.  Take any history of completed calls and
    of calls cut short by a crash (a torn write included) and a reopening
    (itself crashing any number of times), in which no crash interrupts a purge
    past the last entry of the log.  After it the store holds the log of that
    history, where a crashed append left a prefix of its entries, a crashed
    truncation cut at or above where it was asked to, and a crashed purge
    happened or did not; and every range read returns exactly its entries.
    The purge past the end is left out because the code loses entries there:
    see [fs_log_purge_crash_loses_entries]. *)
Theorem fs_log_crash_safe xxh64 segment_bytes (Hbytes : (SEGMENT_HEADER < segment_bytes)%nat)
    st evs s :
  fs_open xxh64 empty_device = (empty_device, inr st) →
  fs_run xxh64 segment_bytes Hbytes (empty_device, st) evs s →
  ∃ L, log_run empty_log evs L ∧ log_wf L ∧ fs_log_state s = spec_log_state L
    ∧ ∀ start end_, start <= end_ →
        fs_read_range xxh64 s start end_ = Some (inr (spec_read L start end_)).
Proof.
  intros Ho Hrun. destruct (fs_run_fresh _ _ _ _ _ _ Ho Hrun) as (L & Hl & Hh). exists L.
  split; [done|]. split; [by eapply holds_wf|]. split; [by eapply holds_log_state|].
  intros. by apply holds_read.
Qed.

(** Whatever crashes in between, an entry the store holds stays in it as
    long as no call truncates or purges its index. *)
Theorem fs_log_durable xxh64 segment_bytes (Hbytes : (SEGMENT_HEADER < segment_bytes)%nat)
    st evs s evs' s' e :
  fs_open xxh64 empty_device = (empty_device, inr st) →
  fs_run xxh64 segment_bytes Hbytes (empty_device, st) evs s →
  fs_run xxh64 segment_bytes Hbytes s evs' s' →
  e ∈ lg_entries (contents xxh64 s) →
  Forall (λ ev, spares (le_index e) (event_call ev)) evs' →
  e ∈ lg_entries (contents xxh64 s').
Proof.
  intros Ho Hrun Hrun' He Hsp. destruct (fs_run_fresh _ _ _ _ _ _ Ho Hrun) as (L & _ & Hh).
  destruct (fs_run_refines _ _ _ _ _ _ _ Hh Hrun') as (L' & Hl & Hh').
  rewrite (holds_contents _ _ _ Hh) in He. rewrite (holds_contents _ _ _ Hh').
  by eapply log_run_spares.
Qed.

(** A store can be reopened: after any such history, whatever point of such a
    call the crash hits, [open] succeeds on what is left. *)
Theorem fs_log_reopens xxh64 segment_bytes (Hbytes : (SEGMENT_HEADER < segment_bytes)%nat)
    st evs s c d' :
  fs_open xxh64 empty_device = (empty_device, inr st) →
  fs_run xxh64 segment_bytes Hbytes (empty_device, st) evs s →
  crash_ok (contents xxh64 s) c → crash s.1 (call_ops xxh64 segment_bytes s.2 c) d' →
  ∃ ops st', open xxh64 d' = (ops, inr st').
Proof.
  intros Ho Hrun Hok Hcr. destruct (fs_run_fresh _ _ _ _ _ _ Ho Hrun) as (L & _ & Hh).
  rewrite (holds_contents _ _ _ Hh) in Hok.
  destruct (crash_call _ _ Hbytes _ _ _ _ _ Hh Hok Hcr) as (L' & _ & Hrec).
  destruct (recover _ _ _ Hrec) as (ops & st' & ? & _). eauto.
Qed.

(** ** A concrete history *)

Definition entry (term index : Z) : LogEntry := mkLogEntry (mkLogId term index) [index; 7].

Lemma demo_bytes : (SEGMENT_HEADER < 100)%nat.
Proof. apply Nat.ltb_lt. reflexivity. Qed.

Definition demo_calls : list LogCall :=
  [Append [entry 1 1; entry 1 2; entry 1 3]; TruncateFrom 3; Append [entry 2 3; entry 2 4];
   PurgeThrough (mkLogId 1 1); ReadRange 0 10; GetLogState].

(** The store of the demonstration, and the device a torn append leaves. *)
Definition demo_store (d : Device) (st : Inner) (cs : list LogCall) : FsRaftLogStore :=
  (@do_calls _ (fs_log_store byte_sum 100 demo_bytes) (d, st) cs).1.

Definition demo0 : FsRaftLogStore := (empty_device, mkInner [] ∅ None).
Definition demo1 : FsRaftLogStore := demo_store empty_device (mkInner [] ∅ None) [Append [entry 1 1; entry 1 2]].
Definition demo_torn : Device :=
  run_op demo1.1 (WriteAt 1 (sg_len (List.hd (mkSegment 0 None 0) (in_segments demo1.2)))
    (take 50 (frames byte_sum [entry 1 3; entry 1 4]))).
Definition demo2 : FsRaftLogStore :=
  let '(ops, r) := open byte_sum demo_torn in
  (run_ops demo_torn ops, match r with inr st => st | inl _ => demo0.2 end).

Lemma demo_append_ok L es first :
  Forall entry_fits es → contiguous first es → first + Z.of_nat (length es) < two64 →
  match next_index L with Some n => first = n | None => True end → append_ok L es.
Proof.
  intros Hf Hc Hb Hn. split; [done|]. exists first. split; [done|]. split; [done|].
  intros n Hn'. by rewrite Hn' in Hn.
Qed.

Lemma entry_ok t i : 0 <= t < two64 → 0 <= i < two64 → entry_fits (entry t i).
Proof. intros Ht Hi. split; [done|]. split; [done|]. cbn. unfold u32_max. lia. Qed.

(** Admissibility of a concrete append. *)
Ltac demo_append first :=
  apply (demo_append_ok _ _ first); [by repeat constructor; apply entry_ok|done..].

Lemma demo_calls_ok : calls_ok empty_log demo_calls.
Proof.
  split; [demo_append 1|]. split; [done|]. split; [demo_append 3|]. repeat split; done.
Qed.

Lemma log_stores_agree_witness :
  ∃ st, fs_open byte_sum empty_device = (empty_device, inr st)
    ∧ (@do_calls _ (fs_log_store byte_sum 100 demo_bytes) (empty_device, st) demo_calls).2
      = (spec_calls empty_log demo_calls).2
    ∧ (do_calls memory_empty demo_calls).2 = (spec_calls empty_log demo_calls).2.
Proof. exact (log_stores_agree byte_sum 100 demo_bytes demo_calls demo_calls_ok). Defined.

Definition demo_events : list Event :=
  [Completed (Append [entry 1 1; entry 1 2]); Crashed (Append [entry 1 3; entry 1 4])].

#[local] Abbreviation demo_run := (fs_run byte_sum 100 demo_bytes).

Lemma demo1_contents : contents byte_sum demo1 = mkLog None [entry 1 1; entry 1 2].
Proof. vm_compute. reflexivity. Qed.

(** The torn append keeps the entry that was written whole. *)
Lemma demo2_contents : contents byte_sum demo2 = mkLog None [entry 1 1; entry 1 2; entry 1 3].
Proof. vm_compute. reflexivity. Qed.

Lemma demo_torn_crash :
  crash demo1.1 (call_ops byte_sum 100 demo1.2 (Append [entry 1 3; entry 1 4])) demo_torn.
Proof.
  replace (call_ops byte_sum 100 demo1.2 (Append [entry 1 3; entry 1 4])) with
    [WriteAt 1 (sg_len (List.hd (mkSegment 0 None 0) (in_segments demo1.2)))
       (frames byte_sum [entry 1 3; entry 1 4])] by (vm_compute; reflexivity).
  apply crash_torn.
Qed.

Lemma demo_reopens : reopens byte_sum demo_torn demo2.
Proof.
  replace demo2 with (run_ops demo_torn (open byte_sum demo_torn).1, demo2.2)
    by (vm_compute; reflexivity).
  apply reopens_ok. vm_compute. reflexivity.
Qed.

Lemma demo_history : demo_run demo0 demo_events demo2.
Proof.
  econstructor; [|econstructor; [|constructor]].
  - eapply (fs_completed _ _ _ _ _ demo1). 2: { vm_compute. reflexivity. }
    replace (contents byte_sum demo0) with empty_log by (vm_compute; reflexivity). demo_append 1.
  - eapply fs_crashed; [|exact demo_torn_crash|exact demo_reopens].
    rewrite demo1_contents. split; [demo_append 3|done].
Qed.

Lemma demo_later : demo_run demo2 [Completed (TruncateFrom 3)]
  (@do_call _ (fs_log_store byte_sum 100 demo_bytes) demo2 (TruncateFrom 3)).1.
Proof.
  econstructor; [|constructor]. eapply fs_completed; [|apply surjective_pairing].
  rewrite demo2_contents. reflexivity.
Qed.

Lemma demo_open : fs_open byte_sum empty_device = (empty_device, inr demo0.2).
Proof. vm_compute. reflexivity. Qed.

Lemma fs_log_crash_safe_witness :
  ∃ L, log_run empty_log demo_events L ∧ log_wf L ∧ fs_log_state demo2 = spec_log_state L
    ∧ ∀ start end_, start <= end_ →
        fs_read_range byte_sum demo2 start end_ = Some (inr (spec_read L start end_)).
Proof.
  exact (fs_log_crash_safe byte_sum 100 demo_bytes demo0.2 demo_events demo2 demo_open demo_history).
Defined.

Lemma fs_log_durable_witness :
  entry 1 2 ∈ lg_entries (contents byte_sum
    (@do_call _ (fs_log_store byte_sum 100 demo_bytes) demo2 (TruncateFrom 3)).1).
Proof.
  refine (fs_log_durable byte_sum 100 demo_bytes demo0.2 demo_events demo2 _ _ (entry 1 2)
    demo_open demo_history demo_later _ _).
  - rewrite demo2_contents. right. left.
  - constructor; [reflexivity|constructor].
Defined.

Lemma fs_log_reopens_witness :
  ∃ ops st', open byte_sum
    (run_op demo2.1 (SetLen 1 (SEGMENT_HEADER + length (frames byte_sum [entry 1 1; entry 1 2]))))
    = (ops, inr st').
Proof.
  refine (fs_log_reopens byte_sum 100 demo_bytes demo0.2 demo_events demo2 (TruncateFrom 3) _
    demo_open demo_history _ _).
  - rewrite demo2_contents. split; reflexivity || exact I.
  - replace (call_ops byte_sum 100 demo2.2 (TruncateFrom 3)) with
      [SetLen 1 (SEGMENT_HEADER + length (frames byte_sum [entry 1 1; entry 1 2]))]
      by (vm_compute; reflexivity).
    apply crash_later, crash_here.
Defined.

(** ** A purge past the end of the log

    A follower that installs a snapshot purges past its own log.  [demo1]
    holds entries 1 and 2; the purge through 5 crashes after its marker. *)

Definition stale_device : Device := run_op demo1.1 (WritePurged (mkLogId 2 5)).
Definition stale : FsRaftLogStore :=
  (stale_device, match (open byte_sum stale_device).2 with inr st => st | inl _ => demo0.2 end).
Definition stale_append : FsRaftLogStore * (string + unit) :=
  fs_append byte_sum 100 stale [entry 2 6].

(** The purge the crash theorem leaves out.  A crash between the marker of
    a purge past the end of the log and the removal of its segments leaves
    segments that [open] keeps; the append of the next entry succeeds, and can
    be read back, but it continues the stale segment, so the next [open], with
    no crash in between, takes it for a torn write and cuts it off: an
    acknowledged entry is lost. *)
Theorem fs_log_purge_crash_loses_entries :
  crash demo1.1 (call_ops byte_sum 100 demo1.2 (PurgeThrough (mkLogId 2 5))) stale_device
  ∧ reopens byte_sum stale_device stale
  ∧ call_ok (contents byte_sum stale) (Append [entry 2 6])
  ∧ stale_append.2 = inr ()
  ∧ fs_read_range byte_sum stale_append.1 6 7 = Some (inr [entry 2 6])
  ∧ ∃ st, (fs_open byte_sum stale_append.1.1).2 = inr st
      ∧ fs_read_range byte_sum ((fs_open byte_sum stale_append.1.1).1, st) 6 7 = Some (inr []).
Proof.
  split; [|split; [|split; [|split; [|split]]]].
  - replace (call_ops byte_sum 100 demo1.2 (PurgeThrough (mkLogId 2 5))) with
      [WritePurged (mkLogId 2 5); Unlink 1] by (vm_compute; reflexivity).
    apply crash_later, crash_here.
  - replace stale with (run_ops stale_device (open byte_sum stale_device).1, stale.2)
      by (vm_compute; reflexivity).
    apply reopens_ok. vm_compute. reflexivity.
  - replace (contents byte_sum stale) with (mkLog (Some (mkLogId 2 5)) []) by (vm_compute; reflexivity).
    demo_append 6.
  - vm_compute. reflexivity.
  - vm_compute. reflexivity.
  - eexists. split; [vm_compute; reflexivity|]. vm_compute. reflexivity.
Qed.
