(* ===== verification/FsMigrate.v ===== *)
(** * Folding the per-entry files of earlier releases
    ([fluree-raft-core/src/storage/fs.rs], [migrate_legacy_entries])

    Earlier releases kept one file per entry.  Opening folds the contiguous run
    above the purge marker into one segment, published by a rename, and then
    removes the entry files; a directory that has a segment was folded before
    and only loses its entry files.  Entry files are kept decoded, by index. *)

From S2P Require Import Prelude Adapter FsFrame RaftLog FsLog FsLogScan FsLogInvariant FsLogAppend.
From S2P Require Import FsLogTheorems.

Record LegacyDevice := mkLegacy { lv_entries : gmap Z LogEntry; lv_device : Device }.

Inductive LegacyOp := LDevice (op : DeviceOp) | LRemove (index : Z).

Definition run_legacy (d : LegacyDevice) (op : LegacyOp) : LegacyDevice :=
  match op with
  | LDevice op => mkLegacy (lv_entries d) (run_op (lv_device d) op)
  | LRemove index => mkLegacy (delete index (lv_entries d)) (lv_device d)
  end.

(** Removals are flushed once at the end, so a crash may lose any of them; the
    segment is created by a rename. *)
Inductive legacy_crash : LegacyDevice → list LegacyOp → LegacyDevice → Prop :=
  | lcrash_here d ops : legacy_crash d ops d
  | lcrash_later d op ops d' : legacy_crash (run_legacy d op) ops d' → legacy_crash d (op :: ops) d'
  | lcrash_lost d index ops d' : legacy_crash d ops d' → legacy_crash d (LRemove index :: ops) d'.

Definition cutoff (purged : option LogId) : option Z := li_index <$> purged.

(** The [scan]: entries at consecutive indexes from the anchor on. *)
Fixpoint contiguous_run (expected : Z) (l : list (Z * LogEntry)) : list LogEntry :=
  match l with
  | (i, e) :: l => if i =? expected then e :: contiguous_run (expected + 1) l else []
  | [] => []
  end.

Definition legacy_anchor (purged : option LogId) : Z :=
  match cutoff purged with Some c => c + 1 | None => 1 end.

Definition legacy_run (purged : option LogId) (entries : gmap Z LogEntry) : list LogEntry :=
  contiguous_run (legacy_anchor purged)
    (filter (λ x, live purged x.1 = true) (zmap_iter entries)).

Section migrate.
Context (xxh64 : list Z → Z → Z).

Definition migrate_legacy_entries (d : LegacyDevice) : list LegacyOp :=
  let indices := (zmap_iter (lv_entries d)).*1 in
  match indices with
  | [] => []
  | _ =>
      let has_segment := negb (bool_decide (dv_log (lv_device d) = ∅)) in
      let publish :=
        if has_segment then []
        else
          match legacy_run (dv_last_purged (lv_device d)) (lv_entries d) with
          | [] => []
          | (e0 :: _) as run =>
              [LDevice (CreateSegment (le_index e0) (segment_header (le_index e0) ++ frames xxh64 run))]
          end in
      publish ++ (LRemove <$> indices)
  end.

(** [Inner::open] with the folding. *)
Definition open_legacy (d : LegacyDevice) : Device * list DeviceOp * (string + Inner) :=
  let d' := lv_device (foldl run_legacy d (migrate_legacy_entries d)) in
  let '(ops, r) := open xxh64 d' in (d', ops, r).

(** ** The folded log *)

(** Entry files name the index of their entry. *)
Definition legacy_wf (entries : gmap Z LogEntry) : Prop :=
  map_Forall (λ i e, le_index e = i ∧ entry_fits e) entries.

Definition legacy_log (d : LegacyDevice) : Log :=
  mkLog (dv_last_purged (lv_device d)) (legacy_run (dv_last_purged (lv_device d)) (lv_entries d)).

Lemma contiguous_run_ok l : ∀ expected,
  Forall (λ x, le_index x.2 = x.1 ∧ entry_fits x.2) l →
  contiguous expected (contiguous_run expected l)
  ∧ Forall (λ e, ∃ i, (i, e) ∈ l) (contiguous_run expected l)
  ∧ Forall entry_fits (contiguous_run expected l).
Proof.
  induction l as [|[i e] l IH]; intros expected Hl; [by repeat constructor|].
  apply Forall_cons in Hl as [[Hi Hfit] Hl]. cbn [contiguous_run].
  destruct (Z.eqb_spec i expected) as [->|]; [|by repeat constructor].
  destruct (IH (expected + 1) Hl) as (Hc & Hin & Hf). split; [by split|]. split.
  - constructor; [exists expected; by left|]. eapply Forall_impl; [exact Hin|].
    intros e' [j Hj]. exists j. by right.
  - by constructor.
Qed.

Lemma legacy_run_ok purged entries :
  legacy_wf entries →
  contiguous (legacy_anchor purged) (legacy_run purged entries)
  ∧ Forall (λ e, live purged (le_index e) = true) (legacy_run purged entries)
  ∧ Forall entry_fits (legacy_run purged entries).
Proof.
  intros Hwf. unfold legacy_run. set (l := filter _ _).
  assert (Forall (λ x, le_index x.2 = x.1 ∧ entry_fits x.2) l) as Hl.
  { rewrite Forall_forall. intros [i e] [_ Hin]%list_elem_of_filter. unfold zmap_iter in Hin.
    rewrite elem_of_sort_by in Hin. apply elem_of_map_to_list in Hin. exact (Hwf _ _ Hin). }
  destruct (contiguous_run_ok l (legacy_anchor purged) Hl) as (Hc & Hin & Hf).
  split; [done|]. split; [|done]. eapply Forall_impl; [exact Hin|]. intros e [i Hi]. cbn.
  rewrite Forall_forall in Hl. destruct (Hl _ Hi) as [Hie _]. cbn in Hie. rewrite Hie.
  by apply list_elem_of_filter in Hi as [? _].
Qed.

(** What the device holds once folded, and before if it was. *)
Lemma folded_recoverable d run e0 :
  dv_log d = ∅ → run = e0 :: tail run → contiguous (legacy_anchor (dv_last_purged d)) run →
  Forall (λ e, live (dv_last_purged d) (le_index e) = true) run → Forall entry_fits run →
  recoverable xxh64 (run_op d (CreateSegment (le_index e0) (segment_header (le_index e0) ++ frames xxh64 run)))
    (mkLog (dv_last_purged d) run).
Proof.
  intros Hlog Hrun Hc Hl Hf. set (p := dv_last_purged d) in *.
  assert (contiguous (le_index e0) run) as Hc0 by (rewrite Hrun in Hc |- *; destruct Hc as [<- ?]; by split).
  assert (phys [(le_index e0, run)] = run) as Hphys by (unfold phys; cbn; apply app_nil_r).
  exists [(le_index e0, run)], []. cbn [lg_purged]. split; [|split].
  - split; [|done| |done|done].
    + cbn [run_op dv_log]. rewrite Hlog. unfold files. cbn. by rewrite app_nil_r.
    + assert (0 <= le_index e0 < two64) as Hi by (rewrite Hrun in Hf; apply (Forall_inv Hf)).
      exact (conj Hi (conj Hc0 (conj Hf (conj I I)))).
  - intros q e Hq He. rewrite Hphys in He. rewrite Forall_forall in Hl.
    apply last_Some in He as [l He]. assert (e ∈ run) as Hin by (rewrite He; set_solver).
    specialize (Hl e Hin). rewrite Hq in Hl. cbn in Hl. apply Z.ltb_lt in Hl. lia.
  - unfold log_of. rewrite Hphys. f_equal. symmetry. by apply list_filter_id.
Qed.
(** ** Crashes *)

(** No live entry file sits below the anchor.  A purge marker makes it so; a
    log that was never purged has to start at index 1 (see
    [legacy_fold_drops_index_zero]). *)
Definition legacy_based (purged : option LogId) (entries : gmap Z LogEntry) : Prop :=
  map_Forall (λ i _, live purged i = true → legacy_anchor purged <= i) entries.

Lemma legacy_run_nil purged entries :
  legacy_based purged entries → live purged (legacy_anchor purged) = true →
  legacy_run purged entries = [] ↔ entries !! legacy_anchor purged = None.
Proof.
  intros Hb Hlive. unfold legacy_run. set (a := legacy_anchor purged) in *.
  set (l := filter _ (zmap_iter entries)).
  assert (∀ i e, (i, e) ∈ l ↔ live purged i = true ∧ entries !! i = Some e) as Hl.
  { intros i e. unfold l. rewrite list_elem_of_filter. unfold zmap_iter.
    by rewrite elem_of_sort_by, elem_of_map_to_list. }
  assert (StronglySorted (by_key Z.le fst) l) as Hs.
  { apply StronglySorted_filter, sort_by_StronglySorted; apply _. }
  split.
  - intros Hrun. destruct (entries !! a) as [e|] eqn:He; [|done]. exfalso.
    assert ((a, e) ∈ l) as Hin by (by apply Hl).
    destruct l as [|[i x] l']; [by apply not_elem_of_nil in Hin|]. cbn [contiguous_run] in Hrun.
    destruct (Z.eqb_spec i a) as [->|Hne]; [done|].
    apply StronglySorted_inv in Hs as [_ Hall]. rewrite Forall_forall in Hall.
    apply elem_of_cons in Hin as [[= -> ->]|Hin]; [done|]. specialize (Hall _ Hin). unfold by_key in Hall. cbn in Hall.
    destruct (proj1 (Hl i x) ltac:(by left)) as [Hli Hei]. specialize (Hb i x Hei Hli). lia.
  - intros Hnone. destruct l as [|[i x] l'] eqn:El; [done|]. cbn [contiguous_run].
    destruct (Z.eqb_spec i a) as [->|]; [|done].
    destruct (proj1 (Hl a x) ltac:(by left)) as [_ Hax]. congruence.
Qed.

(** A device on the way through the fold of log [L]. *)
Definition folding (d : LegacyDevice) (L : Log) : Prop :=
  (dv_log (lv_device d) = ∅ ∧ legacy_wf (lv_entries d)
   ∧ legacy_based (dv_last_purged (lv_device d)) (lv_entries d) ∧ legacy_log d = L)
  ∨ (dv_log (lv_device d) ≠ ∅ ∧ recoverable xxh64 (lv_device d) L).

Lemma removals_only l : ∀ d d',
  legacy_crash d (LRemove <$> l) d' → lv_device d' = lv_device d ∧ lv_entries d' ⊆ lv_entries d.
Proof.
  induction l as [|i l IH]; intros d d' Hcr; [by inversion Hcr|].
  inversion Hcr as [|d0 op ops d0' Hc|d0 j ops d0' Hc]; subst; [done| |by apply IH].
  apply IH in Hc as [Hd He]. split; [done|]. etrans; [exact He|]. apply delete_subseteq.
Qed.

Lemma run_removals_only l : ∀ d, lv_device (foldl run_legacy d (LRemove <$> l)) = lv_device d.
Proof. induction l as [|i l IH]; intros d; [done|]. cbn. by rewrite IH. Qed.

Lemma anchor_live purged : live purged (legacy_anchor purged) = true.
Proof. destruct purged as [q|]; [|done]. cbn. apply Z.ltb_lt. lia. Qed.

(** An empty run stays empty as its files go. *)
Lemma folding_shrink d entries' :
  dv_log (lv_device d) = ∅ → legacy_wf (lv_entries d) →
  legacy_based (dv_last_purged (lv_device d)) (lv_entries d) →
  lg_entries (legacy_log d) = [] → entries' ⊆ lv_entries d →
  folding (mkLegacy entries' (lv_device d)) (legacy_log d).
Proof.
  intros Hlog Hwf Hb Hrun Hsub. left. set (p := dv_last_purged (lv_device d)) in *. cbn [lv_device lv_entries].
  assert (legacy_based p entries') as Hb'.
  { intros i e He. apply (Hb i e). by eapply lookup_weaken. }
  split; [done|]. split; [|split; [done|]].
  - intros i e He. apply (Hwf i e). by eapply lookup_weaken.
  - unfold legacy_log in *. cbn [lg_entries lv_device lv_entries] in *. fold p in Hrun |- *. f_equal.
    rewrite Hrun. apply (legacy_run_nil p entries' Hb' (anchor_live p)).
    apply (legacy_run_nil p _ Hb (anchor_live p)) in Hrun.
    destruct (entries' !! _) as [e|] eqn:He; [|done]. by rewrite (lookup_weaken _ _ _ _ He Hsub) in Hrun.
Qed.

Lemma empty_folding d : lv_entries d = ∅ → folding d (legacy_log d) → recoverable xxh64 (lv_device d) (legacy_log d).
Proof.
  intros He [(Hlog & _)|[_ Hrec]]; [|done]. unfold legacy_log. rewrite He.
  exists [], []. cbn [lg_purged]. split; [by split|]. by split.
Qed.

(** What the fold does, step by step. *)
Lemma migrate_step d L :
  folding d L →
  recoverable xxh64 (lv_device (foldl run_legacy d (migrate_legacy_entries d))) L
  ∧ ∀ d', legacy_crash d (migrate_legacy_entries d) d' → folding d' L.
Proof.
  intros Hf. unfold migrate_legacy_entries. set (indices := (zmap_iter (lv_entries d)).*1).
  assert (indices = [] → lv_entries d = ∅) as Hempty.
  { unfold indices. intros H%fmap_nil_inv. unfold zmap_iter in H.
    apply (f_equal length) in H. rewrite sort_by_Permutation in H. cbn in H.
    apply map_to_list_empty_iff. by apply length_zero_iff_nil. }
  destruct Hf as [(Hlog & Hwf & Hb & HL)|[Hlog Hrec]].
  - subst L. destruct (legacy_run_ok (dv_last_purged (lv_device d)) _ Hwf) as (Hc & Hl & Hfit).
    destruct (legacy_run (dv_last_purged (lv_device d)) (lv_entries d)) as [|e0 run] eqn:Hrun.
    + assert (recoverable xxh64 (lv_device d) (legacy_log d)) as Hrec.
      { unfold legacy_log. rewrite Hrun. exists [], []. cbn [lg_purged]. split; [by split|]. by split. }
      assert (∀ d', legacy_crash d (LRemove <$> indices) d' → folding d' (legacy_log d)) as Hcr.
      { intros [ents dev] [Hd He]%removals_only. cbn in Hd, He. subst dev.
        apply folding_shrink; [done..|by unfold legacy_log; rewrite Hrun|done]. }
      rewrite bool_decide_eq_true_2 by done. destruct indices as [|i0 indices0] eqn:Hi.
      * split; [done|]. intros d' Hd'. inversion Hd'; subst. left. done.
      * cbn [negb app]. split; [by rewrite run_removals_only|done].
    + destruct indices as [|i0 indices0] eqn:Hi.
      { rewrite (Hempty eq_refl) in Hrun. done. }
      rewrite bool_decide_eq_true_2 by done. cbn [negb app]. rewrite <- Hi.
      pose proof (folded_recoverable (lv_device d) (e0 :: run) e0 Hlog eq_refl Hc Hl Hfit) as Hrec.
      assert (legacy_log d = mkLog (dv_last_purged (lv_device d)) (e0 :: run)) as HL
        by (unfold legacy_log; by rewrite Hrun). rewrite HL.
      split; [cbn [foldl]; by rewrite run_removals_only|]. intros d' Hcr.
      inversion Hcr as [|d0 op ops d0' Hc1|]; subst; [left; by rewrite <- HL|]. right.
      apply removals_only in Hc1 as [-> _]. split; [|exact Hrec].
      cbn. rewrite Hlog. apply insert_non_empty.
  - rewrite bool_decide_eq_false_2 by done. cbn [negb app].
    destruct indices as [|i0 indices0] eqn:Hi.
    + split; [done|]. intros d' Hd'. inversion Hd'; subst. by right.
    + split; [by rewrite run_removals_only|]. intros d' Hcr. apply removals_only in Hcr as [Hd _]. right. by rewrite Hd.
Qed.
(** Opening a directory of an earlier release: the fold may crash any number of
    times before it completes; no entry file is left then, and the segments are
    opened as usual. *)
Inductive reopens_legacy : LegacyDevice → FsRaftLogStore → Prop :=
  | reopens_folded d s :
      reopens xxh64 (lv_device (foldl run_legacy d (migrate_legacy_entries d))) s → reopens_legacy d s
  | reopens_fold_again d d' s :
      legacy_crash d (migrate_legacy_entries d) d' → reopens_legacy d' s → reopens_legacy d s.

Lemma folding_reopens d s : reopens_legacy d s → ∀ L, folding d L → holds xxh64 s.1 s.2 L.
Proof.
  induction 1 as [d s Hre|d d' s Hcr _ IH]; intros L Hf; destruct (migrate_step d L Hf) as [Hrec Hall].
  - by eapply reopens_holds.
  - apply IH. by apply Hall.
Qed.

(** A directory of entry files opens, whatever crashes the fold meets, into the
    log of their contiguous run above the purge marker. *)
Theorem legacy_fold_crash_safe d s :
  dv_log (lv_device d) = ∅ → legacy_wf (lv_entries d) →
  legacy_based (dv_last_purged (lv_device d)) (lv_entries d) →
  reopens_legacy d s → holds xxh64 s.1 s.2 (legacy_log d).
Proof. intros Hlog Hwf Hb Hre. eapply folding_reopens; [exact Hre|]. by left. Qed.

(** A log that was never purged and starts at index 0 is not such a run: the
    anchor is index 1, the scan stops at the entry before it, and the fold
    keeps nothing and removes every entry file. *)
Theorem legacy_fold_drops_index_zero e0 e1 :
  let d := mkLegacy (<[0 := e0]> {[1 := e1]}) (mkDevice ∅ None) in
  migrate_legacy_entries d = [LRemove 0; LRemove 1].
Proof. reflexivity. Qed.
End migrate.
