(* ===== verification/FsCommitted.v ===== *)
(** * The committed watermark on disk
    ([fluree-raft-core/src/storage/fs.rs], [encode_committed], [decode_committed],
    [load_committed] and [write_committed])

    The watermark is kept in a file of two slots, written alternately and
    numbered by a generation; the valid slot with the higher generation wins.
    Files of earlier releases, adjacent short slots or a separate marker, are
    converted on open.  A slot torn by a crash is told from a whole one by its
    checksum; that the checksum tells them apart is a condition of the torn
    write, since no hash excludes every collision. *)

From S2P Require Import Prelude Adapter FsFrame RaftLog FsLog.
Definition LEGACY_COMMITTED_MAGIC : list Z := str_bytes "FRCM".
Definition LEGACY_COMMITTED_SLOT : nat := 64.
Definition COMMITTED_MAGIC : list Z := str_bytes "FRC2".
Definition COMMITTED_SLOT : nat := Z.to_nat 4096.
#[global] Arguments COMMITTED_SLOT : simpl never.
#[global] Opaque COMMITTED_SLOT.

(** [Iterator::max_by_key] on the first component: the last of the greatest. *)
Definition max_by_fst {A} (l : list (Z * A)) : option (Z * A) :=
  foldl (λ best x,
    match best with
    | Some b => if x.1 <? b.1 then Some b else Some x
    | None => Some x
    end) None l.

(** ** The files *)

Record CommittedDir := mkCommittedDir {
  cd_slots : option (list Z);       (* committed.slots *)
  cd_legacy : option LogId;         (* the marker of earlier releases, decoded *)
}.

Inductive CommittedOp :=
  | CCreate
  | CSetLen (len : nat)
  | CWriteAt (offset : nat) (bytes : list Z)
  | CReplace (bytes : list Z)
  | CRemoveLegacy.

Definition run_cop (d : CommittedDir) (op : CommittedOp) : CommittedDir :=
  match op with
  | CCreate => mkCommittedDir (Some (default [] (cd_slots d))) (cd_legacy d)
  | CSetLen len => mkCommittedDir ((λ b, set_len b len) <$> cd_slots d) (cd_legacy d)
  | CWriteAt offset bytes => mkCommittedDir ((λ b, write_bytes b offset bytes) <$> cd_slots d) (cd_legacy d)
  | CReplace bytes => mkCommittedDir (Some bytes) (cd_legacy d)
  | CRemoveLegacy => mkCommittedDir (cd_slots d) None
  end.
Definition run_cops (d : CommittedDir) (ops : list CommittedOp) : CommittedDir := foldl run_cop d ops.

(** The in-memory part; [cm_open] is whether the file handle is. *)
Record Committed := mkCommitted {
  cm_committed : option LogId;
  cm_generation : Z;
  cm_open : bool;
}.

Section committed.
Context (xxh64 : list Z → Z → Z).

(** ** Slots *)

(** Bytes 12 to 29 of a slot. *)
Definition slot_id (id : option LogId) : list Z :=
  match id with
  | Some id => 1 :: le_bytes 8 (li_term id) ++ le_bytes 8 (li_index id)
  | None => replicate 17 0
  end.

Definition slot_body (generation : Z) (id : option LogId) : list Z :=
  COMMITTED_MAGIC ++ le_bytes 8 generation ++ slot_id id
  ++ replicate (COMMITTED_SLOT - FRAME_HASH - 29) 0.

Definition encode_committed (generation : Z) (id : option LogId) : list Z :=
  let body := slot_body generation id in body ++ le_bytes 8 (frame_hash xxh64 body).

Definition slot_magic (len : nat) : option (list Z) :=
  if decide (len = COMMITTED_SLOT) then Some COMMITTED_MAGIC
  else if decide (len = LEGACY_COMMITTED_SLOT) then Some LEGACY_COMMITTED_MAGIC
  else None.

Definition decode_committed (slot : list Z) : option (Z * option LogId) :=
  match slot_magic (length slot) with
  | None => None
  | Some magic =>
      if decide (take 4 slot = magic) then
        let hashed := (length slot - FRAME_HASH)%nat in
        if decide (le_bytes 8 (frame_hash xxh64 (take hashed slot)) = drop hashed slot) then
          let generation := from_le (take 8 (drop 4 slot)) in
          let id :=
            if decide (slot !! 12%nat = Some 1)
            then Some (mkLogId (from_le (take 8 (drop 13 slot))) (from_le (take 8 (drop 21 slot))))
            else None in
          Some (generation, id)
        else None
      else None
  end.

(** ** Writing and loading *)

Definition write_committed (d : CommittedDir) (st : Committed) (id : option LogId)
    : Committed * list CommittedOp :=
  let ops :=
    if cm_open st then []
    else match cd_slots d with
         | Some _ => []
         | None => [CCreate; CSetLen (2 * COMMITTED_SLOT)]
         end in
  let generation := cm_generation st + 1 in
  (mkCommitted id generation true,
   ops ++ [CWriteAt (Z.to_nat (generation mod 2) * COMMITTED_SLOT) (encode_committed generation id)]).

(** The converted file of two adjacent short slots. *)
Fixpoint migrate (i : nat) (slots : list (list Z)) (migrated : list Z) : list Z :=
  match slots with
  | [] => migrated
  | slot :: slots =>
      migrate (S i) slots
        match decode_committed slot with
        | Some (generation, id) =>
            take (i * COMMITTED_SLOT) migrated ++ encode_committed generation id
            ++ drop ((i + 1) * COMMITTED_SLOT) migrated
        | None => migrated
        end
  end.

Definition load_committed (d : CommittedDir) : Committed * list CommittedOp :=
  match cd_slots d with
  | Some bytes =>
      let legacy := bool_decide (length bytes = 2 * LEGACY_COMMITTED_SLOT)%nat in
      let stride := if legacy then LEGACY_COMMITTED_SLOT else COMMITTED_SLOT in
      let st :=
        match max_by_fst (omap decode_committed (chunks stride bytes)) with
        | Some (generation, id) => mkCommitted id generation false
        | None => mkCommitted None 0 false
        end in
      (st, if legacy
           then [CReplace (migrate 0 (chunks stride bytes) (replicate (2 * COMMITTED_SLOT) 0))]
           else [])
  | None =>
      match cd_legacy d with
      | Some id =>
          let '(st, ops) := write_committed d (mkCommitted (Some id) 0 false) (Some id) in
          (st, ops ++ [CRemoveLegacy])
      | None => (mkCommitted None 0 false, [])
      end
  end.

(** ** Crashes *)

(** The slot at [offset] of a file. *)
Definition slot_at (offset : nat) (bytes : list Z) : list Z := take COMMITTED_SLOT (drop offset bytes).

(** A torn write the checksum tells from a whole slot. *)
Definition tear_detected (bytes : list Z) (offset : nat) (slot : list Z) (n : nat) : Prop :=
  let torn := slot_at offset (write_bytes bytes offset (take n slot)) in
  decode_committed torn = None ∨ torn = slot_at offset bytes ∨ torn = slot.

Inductive ccrash : CommittedDir → list CommittedOp → CommittedDir → Prop :=
  | ccrash_here d ops : ccrash d ops d
  | ccrash_torn d bytes offset slot n ops :
      cd_slots d = Some bytes → tear_detected bytes offset slot n →
      ccrash d (CWriteAt offset slot :: ops) (run_cop d (CWriteAt offset (take n slot)))
  | ccrash_later d op ops d' : ccrash (run_cop d op) ops d' → ccrash d (op :: ops) d'.

(** ** Slots round trip *)

Lemma slot_len : (FRAME_HASH + 29 <= COMMITTED_SLOT)%nat ∧ (2 * LEGACY_COMMITTED_SLOT < COMMITTED_SLOT)%nat.
Proof.
  Transparent COMMITTED_SLOT. unfold COMMITTED_SLOT, FRAME_HASH, LEGACY_COMMITTED_SLOT. lia.
  Opaque COMMITTED_SLOT.
Qed.

Lemma length_slot_id id : length (slot_id id) = 17%nat.
Proof. by destruct id. Qed.

Lemma length_slot_body g id : length (slot_body g id) = (COMMITTED_SLOT - FRAME_HASH)%nat.
Proof.
  unfold slot_body. rewrite !length_app, length_le_bytes, length_slot_id, length_replicate.
  change (length COMMITTED_MAGIC) with 4%nat. pose proof slot_len. lia.
Qed.

Lemma length_encode_committed g id : length (encode_committed g id) = COMMITTED_SLOT.
Proof.
  unfold encode_committed. cbv zeta. rewrite length_app, length_slot_body, length_le_bytes.
  pose proof slot_len. unfold FRAME_HASH in *. lia.
Qed.

(** The parts of a slot. *)
Lemma encode_committed_hashed g id :
  take (COMMITTED_SLOT - FRAME_HASH) (encode_committed g id) = slot_body g id
  ∧ drop (COMMITTED_SLOT - FRAME_HASH) (encode_committed g id)
    = le_bytes 8 (frame_hash xxh64 (slot_body g id)).
Proof.
  unfold encode_committed. cbv zeta. rewrite <- (length_slot_body g id).
  by rewrite take_app_length, drop_app_length.
Qed.

Lemma encode_committed_fields g id :
  ∃ tail, encode_committed g id = COMMITTED_MAGIC ++ le_bytes 8 g ++ slot_id id ++ tail.
Proof. eexists. unfold encode_committed, slot_body. cbv zeta. by rewrite <- !app_assoc. Qed.

Lemma take_drop_mid {A} (l1 l2 l3 : list A) n m :
  n = length l1 → m = length l2 → take m (drop n (l1 ++ l2 ++ l3)) = l2.
Proof. intros -> ->. by rewrite drop_app_length, take_app_length. Qed.

Lemma decode_encode_committed g id :
  0 <= g < two64 → (∀ i, id = Some i → log_id_fits i) →
  decode_committed (encode_committed g id) = Some (g, id).
Proof.
  intros Hg Hid. unfold decode_committed, slot_magic. rewrite length_encode_committed.
  rewrite decide_True by done. destruct (encode_committed_hashed g id) as [-> ->].
  rewrite (decide_True (P:=le_bytes _ _ = _)) by done.
  destruct (encode_committed_fields g id) as [tail ->]. rewrite decide_True by done.
  rewrite (take_drop_mid COMMITTED_MAGIC (le_bytes 8 g)) by (by rewrite ?length_le_bytes).
  rewrite from_le_bytes by (by unfold two64 in Hg). f_equal. f_equal.
  rewrite app_assoc, lookup_app_r by (by rewrite length_app, length_le_bytes).
  rewrite length_app, length_le_bytes. change (12 - _)%nat with 0%nat.
  destruct id as [[t i]|]; [|done]. destruct (Hid _ eq_refl) as [Ht Hi]. cbn [li_term li_index] in *.
  rewrite decide_True by done. cbn [slot_id li_term li_index].
  change ((1 :: ?x) ++ tail) with ([1] ++ x ++ tail).
  rewrite <- (app_assoc (le_bytes 8 t)), (app_assoc (COMMITTED_MAGIC ++ _) [1]).
  set (l := (COMMITTED_MAGIC ++ le_bytes 8 g) ++ [1]).
  assert (length l = 13%nat) as Hl by (unfold l; rewrite !length_app, length_le_bytes; done).
  rewrite take_drop_mid by (by rewrite ?length_le_bytes).
  rewrite (app_assoc l), take_drop_mid by (by rewrite ?length_app, ?length_le_bytes, ?Hl).
  by rewrite !from_le_bytes by (by unfold two64 in *).
Qed.

(** ** What a slot file holds *)

Definition older (slot : list Z) (generation : Z) : Prop :=
  ∀ g id, decode_committed slot = Some (g, id) → g < generation.

Definition slot_offset (generation : Z) : nat := Z.to_nat (generation mod 2) * COMMITTED_SLOT.

(** Two slots, the second of them perhaps short of its length before the first
    write, or nothing at all. *)
Inductive layout : list Z → list Z → list Z → Prop :=
  | layout_empty : layout [] [] []
  | layout_two s0 s1 :
      length s0 = COMMITTED_SLOT → (length s1 <= COMMITTED_SLOT)%nat → layout (s0 ++ s1) s0 s1.

Definition pick (generation : Z) (s0 s1 : list Z) : list Z :=
  if decide (generation mod 2 = 0) then s0 else s1.

(** The file holds watermark [c], written as [generation]; nothing was ever
    written at generation 0. *)
Definition slot_file (bytes : list Z) (generation : Z) (c : option LogId) : Prop :=
  ∃ s0 s1, layout bytes s0 s1 ∧ older (pick (generation + 1) s0 s1) generation
    ∧ if decide (generation = 0) then c = None ∧ decode_committed s0 = None ∧ decode_committed s1 = None
      else length bytes = (2 * COMMITTED_SLOT)%nat ∧ pick generation s0 s1 = encode_committed generation c.

Lemma decode_committed_nil : decode_committed [] = None.
Proof.
  unfold decode_committed, slot_magic. destruct slot_len as [H1 H2].
  rewrite decide_False by (cbn [length]; lia). done.
Qed.

Lemma chunks_two s0 s1 :
  length s0 = COMMITTED_SLOT → (length s1 <= COMMITTED_SLOT)%nat →
  omap decode_committed (chunks COMMITTED_SLOT (s0 ++ s1)) = omap decode_committed [s0; s1].
Proof.
  intros H0 H1. unfold chunks. pose proof slot_len as [Hpos _]. unfold FRAME_HASH in Hpos.
  destruct s0 as [|b s0']; [cbn [length] in H0; lia|]. set (s0 := b :: s0') in *.
  assert (length (s0 ++ s1) = S (length s0' + length s1)) as -> by (by rewrite length_app).
  change (chunks_fuel (S ?n) COMMITTED_SLOT (s0 ++ s1)) with
    (take COMMITTED_SLOT (s0 ++ s1) :: chunks_fuel n COMMITTED_SLOT (drop COMMITTED_SLOT (s0 ++ s1))).
  rewrite take_app_length', drop_app_length' by done.
  destruct s1 as [|b1 s1'].
  - rewrite chunks_fuel_nil. cbn [omap list_omap]. by rewrite decode_committed_nil; destruct (decode_committed s0).
  - destruct (length s0' + length (b1 :: s1'))%nat as [|n] eqn:Hn; [cbn [length] in *; lia|].
    change (chunks_fuel (S n) COMMITTED_SLOT (b1 :: s1')) with
      (take COMMITTED_SLOT (b1 :: s1') :: chunks_fuel n COMMITTED_SLOT (drop COMMITTED_SLOT (b1 :: s1'))).
    rewrite take_ge, drop_ge by done.
    by rewrite chunks_fuel_nil.
Qed.

Lemma layout_chunks bytes s0 s1 :
  layout bytes s0 s1 → omap decode_committed (chunks COMMITTED_SLOT bytes) = omap decode_committed [s0; s1].
Proof.
  intros [|s0' s1' H0 H1]; [|by apply chunks_two].
  cbn [omap list_omap chunks chunks_fuel length]. by rewrite decode_committed_nil.
Qed.

Lemma layout_legacy bytes s0 s1 : layout bytes s0 s1 → length bytes ≠ (2 * LEGACY_COMMITTED_SLOT)%nat.
Proof.
  intros [|s0' s1' H0 H1]; [done|]. rewrite length_app. pose proof slot_len. lia.
Qed.

Lemma parity g : (g mod 2 = 0 ∧ (g + 1) mod 2 = 1) ∨ (g mod 2 = 1 ∧ (g + 1) mod 2 = 0).
Proof. Z.to_euclidean_division_equations. lia. Qed.

(** The two slots by the parity of the generation. *)
Lemma pick_cases g :
  ((∀ a b, pick g a b = a) ∧ (∀ a b, pick (g + 1) a b = b) ∧ slot_offset (g + 1) = COMMITTED_SLOT)
  ∨ ((∀ a b, pick g a b = b) ∧ (∀ a b, pick (g + 1) a b = a) ∧ slot_offset (g + 1) = 0%nat ∧ g ≠ 0).
Proof.
  unfold pick, slot_offset. destruct (parity g) as [[H0 H1]|[H0 H1]]; rewrite H0, H1; [left|right].
  - split; [done|]. split; [done|]. apply Nat.mul_1_l.
  - split; [done|]. split; [done|]. split; [done|]. by intros ->.
Qed.

Lemma decode_zeros : decode_committed (replicate COMMITTED_SLOT 0) = None.
Proof.
  unfold decode_committed, slot_magic. rewrite length_replicate, decide_True by done.
  rewrite decide_False; [done|]. destruct slot_len as [H _]. unfold FRAME_HASH in H.
  rewrite take_replicate, Nat.min_l by lia. done.
Qed.

(** A file that holds a watermark loads it. *)
Lemma load_slot_file bytes g c :
  slot_file bytes g c → 0 <= g < two64 → (∀ i, c = Some i → log_id_fits i) →
  load_committed (mkCommittedDir (Some bytes) None) = (mkCommitted c g false, []).
Proof.
  intros (s0 & s1 & Hl & Hold & Hg) Hr Hc. unfold load_committed. cbn [cd_slots].
  rewrite bool_decide_eq_false_2 by (by eapply layout_legacy). rewrite (layout_chunks _ _ _ Hl).
  cbn [omap list_omap]. destruct (decide (g = 0)) as [->|Hne].
  - destruct Hg as (-> & -> & ->). done.
  - destruct Hg as [_ Hp]. pose proof (decode_encode_committed g c Hr Hc) as Hd. rewrite <- Hp in Hd.
    unfold older in Hold.
    destruct (pick_cases g) as [(Hpg & Ho & _)|(Hpg & Ho & _)]; rewrite Hpg in Hd; rewrite Ho in Hold; rewrite Hd.
    + destruct (decode_committed s1) as [[g' i]|]; [|done]. specialize (Hold _ _ eq_refl).
      unfold max_by_fst. cbn [foldl fst]. by rewrite (proj2 (Z.ltb_lt _ _)).
    + destruct (decode_committed s0) as [[g' i]|]; [|done]. specialize (Hold _ _ eq_refl).
      unfold max_by_fst. cbn [foldl fst]. by rewrite (proj2 (Z.ltb_ge _ _)) by lia.
Qed.

(** ** Writing a slot *)

Lemma write_second s0 s1 x :
  length s0 = COMMITTED_SLOT → write_bytes (s0 ++ s1) COMMITTED_SLOT x = s0 ++ x ++ drop (length x) s1.
Proof.
  intros <-. unfold write_bytes. rewrite length_app.
  replace (length s0 - (length s0 + length s1))%nat with 0%nat by lia.
  rewrite app_nil_r, take_app_length. do 2 f_equal. rewrite <- drop_drop. by rewrite drop_app_length.
Qed.

Lemma write_first s0 s1 x :
  (length x <= length s0)%nat → write_bytes (s0 ++ s1) 0 x = (x ++ drop (length x) s0) ++ s1.
Proof.
  intros Hx. unfold write_bytes. rewrite take_0, app_nil_l, Nat.add_0_l, drop_app_le by done.
  by rewrite app_assoc.
Qed.

Lemma slot_at_first s0 s1 : length s0 = COMMITTED_SLOT → slot_at 0 (s0 ++ s1) = s0.
Proof. intros H. unfold slot_at. by rewrite drop_0, take_app_length'. Qed.

Lemma slot_at_second s0 s1 :
  length s0 = COMMITTED_SLOT → (length s1 <= COMMITTED_SLOT)%nat → slot_at COMMITTED_SLOT (s0 ++ s1) = s1.
Proof. intros H H1. unfold slot_at. rewrite drop_app_length' by done. by apply take_ge. Qed.

(** What writing [x] at the slot of the next generation leaves. *)
Lemma write_layout bytes s0 s1 g x :
  layout bytes s0 s1 → (length x <= COMMITTED_SLOT)%nat → g = 0 ∨ length bytes = (2 * COMMITTED_SLOT)%nat →
  let off := slot_offset (g + 1) in
  let bytes' := write_bytes bytes off x in
  ∃ s0' s1', layout bytes' s0' s1'
    ∧ decode_committed (pick g s0' s1') = decode_committed (pick g s0 s1)
    ∧ (g ≠ 0 → pick g s0' s1' = pick g s0 s1)
    ∧ pick (g + 1) s0' s1' = slot_at off bytes'
    ∧ slot_at off bytes = pick (g + 1) s0 s1
    ∧ slot_at off bytes' = x ++ drop (length x) (pick (g + 1) s0 s1)
    ∧ (length bytes = (2 * COMMITTED_SLOT)%nat ∨ length x = COMMITTED_SLOT →
       length bytes' = (2 * COMMITTED_SLOT)%nat).
Proof.
  intros Hl Hx Hg off bytes'. pose proof slot_len as [Hpos _]. unfold FRAME_HASH in Hpos.
  unfold bytes', off. destruct Hl as [|s0 s1 H0 H1].
  - assert (g = 0) as -> by (destruct Hg; [done|cbn [length] in *; lia]).
    change (slot_offset (0 + 1)) with (1 * COMMITTED_SLOT)%nat. rewrite Nat.mul_1_l.
    assert (write_bytes [] COMMITTED_SLOT x = replicate COMMITTED_SLOT 0 ++ x) as ->.
    { unfold write_bytes. rewrite drop_nil, app_nil_r, app_nil_l, Nat.sub_0_r.
      by rewrite take_ge by (by rewrite length_replicate). }
    exists (replicate COMMITTED_SLOT 0), x. pose proof (length_replicate COMMITTED_SLOT 0) as Hz.
    change (pick (0 + 1) ?a ?b) with b. change (pick 0 ?a ?b) with a.
    split; [by constructor|]. split; [by rewrite decode_zeros, decode_committed_nil|].
    rewrite slot_at_second by done. rewrite drop_nil, app_nil_r.
    do 2 (split; [done|]). split; [by unfold slot_at; rewrite drop_nil, take_nil|].
    split; [done|]. rewrite length_app, Hz. cbn [length]. lia.
  - destruct (pick_cases g) as [(Hpg & Hpn & ->)|(Hpg & Hpn & -> & Hne)].
    + rewrite write_second by done. exists s0, (x ++ drop (length x) s1).
      assert (length (x ++ drop (length x) s1) <= COMMITTED_SLOT)%nat by (rewrite length_app, length_drop; lia).
      rewrite !Hpg, !Hpn, !slot_at_second by done. split; [by constructor|]. do 5 (split; [done|]).
      rewrite !length_app, length_drop. lia.
    + destruct Hg as [|Hg]; [done|]. rewrite write_first by lia. exists (x ++ drop (length x) s0), s1.
      assert (length (x ++ drop (length x) s0) = COMMITTED_SLOT)%nat by (rewrite length_app, length_drop; lia).
      rewrite !Hpg, !Hpn, !slot_at_first by done. split; [by constructor|]. do 5 (split; [done|]).
      rewrite !length_app in *. lia.
Qed.

Lemma layout_pick bytes s0 s1 g : layout bytes s0 s1 → (length (pick g s0 s1) <= COMMITTED_SLOT)%nat.
Proof. intros [|a b Ha Hb]; unfold pick; case_decide; cbn [length]; lia. Qed.

Lemma pick_next g : pick (g + 1 + 1) = pick g.
Proof.
  unfold pick. replace (g + 1 + 1) with (g + 1 * 2) by lia. by rewrite Z.mod_add.
Qed.

(** The other slot of a file that holds [c] is older than [g + 1]. *)
Lemma current_older (bytes : list Z) s0 s1 g c slot :
  0 <= g → g + 1 < two64 → (∀ i, c = Some i → log_id_fits i) →
  (if decide (g = 0) then c = None ∧ decode_committed s0 = None ∧ decode_committed s1 = None
   else length bytes = (2 * COMMITTED_SLOT)%nat ∧ pick g s0 s1 = encode_committed g c) →
  decode_committed slot = decode_committed (pick g s0 s1) → older slot (g + 1).
Proof.
  intros H0 Hlt Hc Hg Hd g' i. rewrite Hd. destruct (decide (g = 0)) as [->|Hne].
  - destruct Hg as (_ & Hd0 & _). change (pick 0 s0 s1) with s0. by rewrite Hd0.
  - destruct Hg as [_ ->]. rewrite decode_encode_committed by (done || lia). intros [= <- _]. lia.
Qed.

Lemma write_whole bytes g c id :
  slot_file bytes g c → 0 <= g → g + 1 < two64 → (∀ i, c = Some i → log_id_fits i) →
  slot_file (write_bytes bytes (slot_offset (g + 1)) (encode_committed (g + 1) id)) (g + 1) id.
Proof.
  intros (s0 & s1 & Hl & Hold & Hg) H0 Hlt Hc.
  destruct (write_layout bytes s0 s1 g (encode_committed (g + 1) id) Hl)
    as (s0' & s1' & Hl' & Hd & Hpg & Hpn & _ & Hat & Hlen).
  { by rewrite length_encode_committed. }
  { destruct (decide (g = 0)); [by left|right; apply Hg]. }
  exists s0', s1'. split; [done|]. rewrite decide_False by lia. split; [|split].
  - rewrite pick_next. by apply (current_older bytes s0 s1 g c).
  - apply Hlen. right. apply length_encode_committed.
  - rewrite Hpn, Hat, drop_ge, app_nil_r; [done|]. rewrite length_encode_committed.
    by eapply layout_pick.
Qed.
Lemma write_torn bytes g c id n :
  slot_file bytes g c → 0 <= g → g + 1 < two64 → (∀ i, c = Some i → log_id_fits i) →
  tear_detected bytes (slot_offset (g + 1)) (encode_committed (g + 1) id) n →
  let bytes' := write_bytes bytes (slot_offset (g + 1)) (take n (encode_committed (g + 1) id)) in
  slot_file bytes' g c ∨ slot_file bytes' (g + 1) id.
Proof.
  intros (s0 & s1 & Hl & Hold & Hg) H0 Hlt Hc Htear bytes'.
  destruct (write_layout bytes s0 s1 g (take n (encode_committed (g + 1) id)) Hl)
    as (s0' & s1' & Hl' & Hd & Hpg & Hpn & Hat & _ & Hlen).
  { rewrite length_take, length_encode_committed. lia. }
  { destruct (decide (g = 0)); [by left|right; apply Hg]. }
  fold bytes' in Hl', Hpn, Hlen. unfold tear_detected in Htear. fold bytes' in Htear.
  rewrite <- Hpn, Hat in Htear.
  assert (decode_committed (pick (g + 1) s0' s1') = None
    ∨ decode_committed (pick (g + 1) s0' s1') = decode_committed (pick (g + 1) s0 s1) →
    slot_file bytes' g c) as Hkeep.
  { intros Hdec. exists s0', s1'. split; [done|]. split.
    - intros g' i Hgi. destruct Hdec as [Hdec|Hdec]; rewrite Hdec in Hgi; [done|]. by eapply Hold.
    - destruct (decide (g = 0)) as [->|Hne].
      + destruct Hg as (-> & Hd0 & Hd1). change (pick 0 ?a ?b) with a in *.
        change (pick (0 + 1) ?a ?b) with b in *. split; [done|]. split; [by rewrite Hd|].
        by destruct Hdec as [?|Hdec]; [|rewrite Hdec].
      + destruct Hg as [Hlb Hp]. split; [apply Hlen; by left|]. by rewrite Hpg. }
  destruct Htear as [Hn|[He|He]]; [left; auto| |].
  { left. apply Hkeep. right. by rewrite He. }
  right. exists s0', s1'. split; [done|]. rewrite decide_False by lia. split.
  - rewrite pick_next. by apply (current_older bytes s0 s1 g c).
  - split; [|done]. destruct (decide (g = 0)) as [->|Hne]; [|apply Hlen; left; apply Hg].
    change (pick (0 + 1) s0' s1') with s1' in He. apply (f_equal length) in He.
    rewrite length_encode_committed in He. pose proof slot_len. unfold FRAME_HASH in *.
    destruct Hl' as [|a b Ha Hb]; [cbn [length] in He; lia|]. rewrite length_app. lia.
Qed.
(** ** Histories *)

(** The directory holds [c], with room for [n] more writes. *)
Definition dir_holds (d : CommittedDir) (g : Z) (c : option LogId) (n : nat) : Prop :=
  cd_legacy d = None ∧ 0 <= g ∧ g + Z.of_nat n < two64 ∧ (∀ i, c = Some i → log_id_fits i)
  ∧ match cd_slots d with Some bytes => slot_file bytes g c | None => g = 0 ∧ c = None end.

Definition committed_holds (d : CommittedDir) (st : Committed) (c : option LogId) (n : nat) : Prop :=
  dir_holds d (cm_generation st) c n ∧ cm_committed st = c
  ∧ (cd_slots d = None → cm_open st = false).

Lemma load_holds d g c n :
  dir_holds d g c n → ∃ st, load_committed d = (st, []) ∧ committed_holds d st c n.
Proof.
  destruct d as [slots legacy]. intros (Hl & H0 & Hb & Hc & Hf). cbn [cd_legacy cd_slots] in *. subst.
  destruct slots as [bytes|].
  - exists (mkCommitted c g false). split; [by apply load_slot_file; [..|lia|]|]. by split.
  - destruct Hf as [-> ->]. exists (mkCommitted None 0 false). by split.
Qed.

Lemma slot_file_blank s0 s1 :
  length s0 = COMMITTED_SLOT → (length s1 <= COMMITTED_SLOT)%nat →
  decode_committed s0 = None → decode_committed s1 = None → slot_file (s0 ++ s1) 0 None.
Proof.
  intros H0 H1 D0 D1. exists s0, s1. split; [by constructor|]. split; [|done].
  intros g i. change (pick (0 + 1) s0 s1) with s1. by rewrite D1.
Qed.

Lemma slot_file_empty : slot_file [] 0 None.
Proof.
  exists [], []. split; [constructor|]. pose proof decode_committed_nil as Hn. split; [|done].
  intros g i. change (pick (0 + 1) [] []) with (@nil Z). by rewrite Hn.
Qed.

Lemma slot_file_sized : slot_file (set_len [] (2 * COMMITTED_SLOT)) 0 None.
Proof.
  unfold set_len. rewrite take_nil, app_nil_l, Nat.sub_0_r.
  replace (2 * COMMITTED_SLOT)%nat with (COMMITTED_SLOT + COMMITTED_SLOT)%nat by lia.
  rewrite replicate_add.
  apply slot_file_blank; rewrite ?length_replicate; try done; apply decode_zeros.
Qed.

(** The write of one slot, whole or torn. *)
Lemma write_slot_step bytes g c n id d :
  cd_slots d = Some bytes → dir_holds d g c (S n) → (∀ i, id = Some i → log_id_fits i) →
  let op := CWriteAt (slot_offset (g + 1)) (encode_committed (g + 1) id) in
  dir_holds (run_cop d op) (g + 1) id n
  ∧ ∀ d', ccrash d [op] d' → dir_holds d' g c n ∨ dir_holds d' (g + 1) id n.
Proof.
  destruct d as [slots legacy]. intros Hs (Hl & H0 & Hb & Hc & Hf) Hid op.
  cbn [cd_legacy cd_slots] in *. subst.
  assert (dir_holds (run_cop (mkCommittedDir (Some bytes) None) op) (g + 1) id n) as Hdone.
  { split; [done|]. split; [lia|]. split; [lia|]. split; [done|]. by apply (write_whole bytes g c); [|lia..|]. }
  split; [done|]. intros d' Hcr.
  inversion Hcr as [|d0 bytes0 off slot k ops Hs Ht|d0 op0 ops0 d0' Hcr']; subst.
  - left. split; [done|]. split; [lia|]. split; [lia|done].
  - cbn [cd_slots] in Hs. simplify_eq.
    destruct (write_torn bytes0 g c id k) as [Hw|Hw]; [done|lia..|done|done|left|right];
      (split; [done|]; split; [lia|]; split; [lia|]; split; [done|exact Hw]).
  - inversion Hcr'; subst. by right.
Qed.

Lemma write_step d st c n id :
  committed_holds d st c (S n) → (∀ i, id = Some i → log_id_fits i) →
  let '(st', ops) := write_committed d st id in
  committed_holds (run_cops d ops) st' id n
  ∧ ∀ d', ccrash d ops d' → ∃ g, dir_holds d' g c n ∨ dir_holds d' g id n.
Proof.
  intros (Hd & Hst & Hopen) Hid. unfold write_committed. set (g := cm_generation st) in *.
  change (Z.to_nat ((g + 1) mod 2) * COMMITTED_SLOT)%nat with (slot_offset (g + 1)).
  destruct (cd_slots d) as [bytes|] eqn:Hs.
  - destruct (write_slot_step bytes g c n id d Hs Hd Hid) as [Hdone Hcr].
    replace (if cm_open st then _ else _) with (@nil CommittedOp) by (by destruct (cm_open st)).
    rewrite app_nil_l. split; [|naive_solver]. split; [done|]. split; [done|].
    destruct d as [slots legacy]. cbn [cd_slots] in Hs. by subst.
  - rewrite (Hopen eq_refl). destruct d as [slots legacy]. cbn [cd_slots] in Hs. subst.
    destruct Hd as (Hl & H0 & Hb & Hc & Hg & ->). cbn [cd_legacy] in Hl. subst legacy.
    set (d1 := mkCommittedDir (Some []) None).
    set (d2 := mkCommittedDir (Some (set_len [] (2 * COMMITTED_SLOT))) None).
    assert (dir_holds d1 g None (S n)) as H1.
    { rewrite Hg in *. split; [done|]. split; [done|]. split; [done|]. split; [done|]. apply slot_file_empty. }
    assert (dir_holds d2 g None (S n)) as H2.
    { rewrite Hg in *. split; [done|]. split; [done|]. split; [done|]. split; [done|]. apply slot_file_sized. }
    destruct (write_slot_step _ g None n id d2 eq_refl H2 Hid) as [Hdone Hcr].
    assert (∀ d' m, dir_holds d' g None (S m) → dir_holds d' g None m) as Hless.
    { intros d' m (Ha & Hb' & Hc' & ?). split; [done|]. split; [done|]. split; [lia|done]. }
    split; [split; [exact Hdone|done]|]. intros d' Hcrash.
    change ([CCreate; CSetLen (2 * COMMITTED_SLOT)] ++ ?x) with
      (CCreate :: CSetLen (2 * COMMITTED_SLOT) :: x) in Hcrash.
    inversion Hcrash as [| |a op ops b Hc1]; subst; [exists g; left; apply Hless; split; [done|]; by split|].
    inversion Hc1 as [| |a op ops b Hc2]; subst; [exists g; left; by apply Hless|].
    destruct (Hcr _ Hc2); eauto.
Qed.

Inductive CommittedEvent :=
  | Saved (id : option LogId)
  | SaveCrashed (id : option LogId).

Definition event_id (ev : CommittedEvent) : option LogId :=
  match ev with Saved id | SaveCrashed id => id end.

(** A completed write, or one a crash cut short and the load that follows. *)
Inductive committed_step (s : CommittedDir * Committed) : CommittedEvent → CommittedDir * Committed → Prop :=
  | committed_saved id st ops :
      write_committed s.1 s.2 id = (st, ops) → committed_step s (Saved id) (run_cops s.1 ops, st)
  | committed_crashed id st ops d' st' lops :
      write_committed s.1 s.2 id = (st, ops) → ccrash s.1 ops d' → load_committed d' = (st', lops) →
      committed_step s (SaveCrashed id) (run_cops d' lops, st').

Inductive committed_run : CommittedDir * Committed → list CommittedEvent → CommittedDir * Committed → Prop :=
  | committed_run_nil s : committed_run s [] s
  | committed_run_cons s ev s1 evs s2 :
      committed_step s ev s1 → committed_run s1 evs s2 → committed_run s (ev :: evs) s2.

(** The watermarks a history may leave. *)
Fixpoint watermarks (c : option LogId) (evs : list CommittedEvent) (c' : option LogId) : Prop :=
  match evs with
  | [] => c' = c
  | Saved id :: evs => watermarks id evs c'
  | SaveCrashed id :: evs => watermarks c evs c' ∨ watermarks id evs c'
  end.

Lemma committed_run_holds s evs s' : committed_run s evs s' → ∀ c n,
  committed_holds s.1 s.2 c (length evs + n) →
  Forall (λ ev, ∀ i, event_id ev = Some i → log_id_fits i) evs →
  ∃ c', watermarks c evs c' ∧ committed_holds s'.1 s'.2 c' n.
Proof.
  induction 1 as [s|s ev s1 evs s2 Hst _ IH]; intros c n Hh Hev; [by exists c|].
  apply Forall_cons in Hev as [He Hev]. cbn [length] in Hh.
  destruct Hst as [id st ops Hw|id st ops d' st' lops Hw Hcr Hload];
    pose proof (write_step s.1 s.2 c (length evs + n) id Hh He) as Hs; rewrite Hw in Hs; destruct Hs as [Hdone Hall].
  - destruct (IH id n Hdone Hev) as (c' & ? & ?). by exists c'.
  - destruct (Hall _ Hcr) as (g & [Hd|Hd]); destruct (load_holds _ _ _ _ Hd) as (st1 & Hl1 & Hh1);
      rewrite Hload in Hl1; simplify_eq; destruct (IH _ n Hh1 Hev) as (c' & ? & ?); exists c';
      (split; [|done]); [by left|by right].
Qed.
(** ** Files of earlier releases *)

(** A converted slot: the same content, or zeros. *)
Definition converted (slot : list Z) : list Z :=
  match decode_committed slot with
  | Some (generation, id) => encode_committed generation id
  | None => replicate COMMITTED_SLOT 0
  end.

Lemma length_converted slot : length (converted slot) = COMMITTED_SLOT.
Proof.
  unfold converted. destruct (decode_committed slot) as [[g i]|];
    [apply length_encode_committed|apply length_replicate].
Qed.

Lemma decode_fits slot g id :
  Forall is_byte slot → decode_committed slot = Some (g, id) →
  0 <= g < two64 ∧ ∀ i, id = Some i → log_id_fits i.
Proof.
  intros Hb. unfold decode_committed. destruct (slot_magic _) as [magic|]; [|done].
  destruct (decide (take 4 slot = magic)); [|done]. destruct (decide (_ = drop _ _)); [|done].
  assert (∀ k, 0 <= from_le (take 8 (drop k slot)) < two64) as Hle.
  { intros k. apply from_le_u64; [by apply Forall_take, Forall_drop|]. rewrite length_take. lia. }
  intros [= <- <-]. split; [apply Hle|]. intros i. destruct (decide _); [|done].
  intros [= <-]. split; apply Hle.
Qed.

Lemma decode_converted slot : Forall is_byte slot → decode_committed (converted slot) = decode_committed slot.
Proof.
  intros Hb. unfold converted. destruct (decode_committed slot) as [[g i]|] eqn:Hd; [|apply decode_zeros].
  destruct (decode_fits _ _ _ Hb Hd). by apply decode_encode_committed.
Qed.

Lemma chunks_legacy (a b : list Z) :
  length a = LEGACY_COMMITTED_SLOT → length b = LEGACY_COMMITTED_SLOT →
  chunks LEGACY_COMMITTED_SLOT (a ++ b) = [a; b].
Proof.
  intros Ha Hb. unfold chunks. rewrite length_app, Ha, Hb.
  assert (∀ (l k : list Z) f, length l = LEGACY_COMMITTED_SLOT →
    chunks_fuel (S f) LEGACY_COMMITTED_SLOT (l ++ k) = l :: chunks_fuel f LEGACY_COMMITTED_SLOT k) as Hstep.
  { intros l k f Hl. destruct l as [|x l]; [done|]. cbn [app chunks_fuel].
    by rewrite app_comm_cons, take_app_length', drop_app_length'. }
  change (LEGACY_COMMITTED_SLOT + LEGACY_COMMITTED_SLOT)%nat with (S (S 126)).
  rewrite Hstep by done. rewrite <- (app_nil_r b) at 1. rewrite Hstep by done.
  by rewrite chunks_fuel_nil.
Qed.

Lemma migrate_slot i slot slots l r :
  length l = (i * COMMITTED_SLOT)%nat →
  migrate i (slot :: slots) (l ++ replicate COMMITTED_SLOT 0 ++ r)
  = migrate (S i) slots (l ++ converted slot ++ r).
Proof.
  intros Hl. cbn [migrate]. unfold converted. destruct (decode_committed slot) as [[g id]|]; [|done].
  rewrite take_app_length' by done. f_equal. do 2 f_equal.
  rewrite app_assoc, drop_app_length'; [done|]. rewrite length_app, length_replicate. lia.
Qed.

Lemma migrate_two a b : migrate 0 [a; b] (replicate (2 * COMMITTED_SLOT) 0) = converted a ++ converted b.
Proof.
  replace (2 * COMMITTED_SLOT)%nat with (COMMITTED_SLOT + COMMITTED_SLOT)%nat by lia.
  rewrite replicate_add. etrans; [apply (migrate_slot 0 a [b] [] (replicate COMMITTED_SLOT 0)); done|].
  rewrite app_nil_l. rewrite <- (app_nil_r (replicate COMMITTED_SLOT 0)).
  rewrite (migrate_slot 1 b [] (converted a) []) by (rewrite length_converted; lia).
  cbn [migrate]. by rewrite app_nil_r.
Qed.

(** Converting a file of short slots keeps the watermark and the generation,
    whether or not the conversion was made before a crash. *)
Lemma committed_migration bytes :
  Forall is_byte bytes → length bytes = (2 * LEGACY_COMMITTED_SLOT)%nat →
  let d := mkCommittedDir (Some bytes) None in
  let '(st, ops) := load_committed d in
  ∀ d', ccrash d ops d' → (load_committed d').1 = st ∧ (load_committed (run_cops d' (load_committed d').2)).1 = st.
Proof.
  intros Hb Hlen d. set (a := take LEGACY_COMMITTED_SLOT bytes). set (b := drop LEGACY_COMMITTED_SLOT bytes).
  assert (bytes = a ++ b) as Hab by (symmetry; apply take_drop).
  assert (length a = LEGACY_COMMITTED_SLOT ∧ length b = LEGACY_COMMITTED_SLOT) as [Ha Hlb].
  { unfold a, b. rewrite length_take, length_drop. lia. }
  clearbody a b. subst bytes. apply Forall_app in Hb as [Hba Hbb].
  assert (load_committed d = (match max_by_fst (omap decode_committed [a; b]) with
    | Some (g, i) => mkCommitted i g false | None => mkCommitted None 0 false end,
    [CReplace (converted a ++ converted b)])) as Hload.
  { unfold load_committed, d. cbn [cd_slots]. rewrite bool_decide_eq_true_2 by done.
    by rewrite chunks_legacy, migrate_two. }
  set (d2 := mkCommittedDir (Some (converted a ++ converted b)) None).
  assert (load_committed d2 = ((load_committed d).1, [])) as Hload2.
  { rewrite Hload. unfold load_committed, d2. cbn [cd_slots fst]. pose proof slot_len as [_ Hs].
    rewrite bool_decide_eq_false_2 by (rewrite length_app, !length_converted; lia).
    rewrite chunks_two by (rewrite !length_converted; done).
    cbn [omap list_omap]. by rewrite !decode_converted. }
  rewrite Hload. intros d' Hcr. rewrite Hload in Hload2. cbn [fst] in Hload2.
  inversion Hcr as [| |x op ops y Hc]; subst.
  - rewrite Hload. cbn [fst snd run_cops foldl run_cop]. change (mkCommittedDir (Some _) (cd_legacy d)) with d2.
    by rewrite Hload2.
  - inversion Hc; subst. change (run_cop d _) with d2. rewrite Hload2.
    split; [done|]. change (run_cops d2 _) with d2. by rewrite Hload2.
Qed.

Lemma load_slots_only bytes legacy :
  load_committed (mkCommittedDir (Some bytes) legacy) = load_committed (mkCommittedDir (Some bytes) None).
Proof. done. Qed.

(** The marker of an earlier release is folded in two steps, and the first
    hides it: a crash after the slot file is created and before its first slot
    is written leaves a file with no valid slot, which every later open prefers
    to the marker, so the watermark is lost. *)
Theorem committed_marker_lost id :
  let d := mkCommittedDir None (Some id) in
  ∃ d', ccrash d (load_committed d).2 d' ∧ cd_legacy d' = Some id
    ∧ load_committed d' = (mkCommitted None 0 false, []).
Proof.
  intros d. exists (run_cop (run_cop d CCreate) (CSetLen (2 * COMMITTED_SLOT))). split; [|split].
  - unfold load_committed, d. cbn [cd_slots cd_legacy write_committed cm_open snd app].
    apply ccrash_later, ccrash_later, ccrash_here.
  - done.
  - cbn [run_cop cd_slots cd_legacy default fmap option_fmap option_map d]. rewrite load_slots_only.
    apply (load_slot_file (set_len [] (2 * COMMITTED_SLOT)) 0 None);
      [apply slot_file_sized|unfold two64; lia|done].
Qed.
End committed.

(** * The vote and the watermark of the file store
    ([fluree-raft-core/src/storage/fs.rs], [save_vote] to [read_committed])

    The vote is one file replaced by a rename, so a save has happened or has
    not; its postcard encoding is a parameter.  With the watermark's slots it
    keeps the [RaftHardState] contract. *)

#[local] Open Scope Z_scope.

Record FsHardState := mkFsHard {
  fh_dir : CommittedDir;
  fh_committed : Committed;
  fh_vote : option (list Z);
}.

Section hard_state.
Context (xxh64 : list Z → Z → Z).
Context (encode_vote : Vote → string + list Z) (decode_vote : list Z → string + Vote).

Definition fs_save_vote (s : FsHardState) (vote : Vote) : FsHardState * (string + unit) :=
  match encode_vote vote with
  | inl e => (s, inl e)
  | inr bytes => (mkFsHard (fh_dir s) (fh_committed s) (Some bytes), inr ())
  end.

Definition fs_read_vote (s : FsHardState) : string + option Vote :=
  match fh_vote s with
  | Some bytes => match decode_vote bytes with inl e => inl e | inr vote => inr (Some vote) end
  | None => inr None
  end.

Definition fs_save_committed (s : FsHardState) (log_id : option LogId) : FsHardState * (string + unit) :=
  let '(st, ops) := write_committed xxh64 (fh_dir s) (fh_committed s) log_id in
  (mkFsHard (run_cops (fh_dir s) ops) st (fh_vote s), inr ()).

Definition fs_read_committed (s : FsHardState) : string + option LogId :=
  inr (cm_committed (fh_committed s)).

Context (vote_codec : ∀ v, vote_fits v → ∃ bytes, encode_vote v = inr bytes ∧ decode_vote bytes = inr v).

Definition vote_holds (bytes : option (list Z)) (vote : option Vote) : Prop :=
  match bytes, vote with
  | Some b, Some v => decode_vote b = inr v
  | None, None => True
  | _, _ => False
  end.

Definition fs_hard_state : RaftHardState FsHardState.
Proof.
  refine {| hs_save_vote := fs_save_vote; hs_read_vote := fs_read_vote;
    hs_save_committed := fs_save_committed; hs_read_committed := fs_read_committed;
    hs_holds s v c n := vote_holds (fh_vote s) v ∧ committed_holds xxh64 (fh_dir s) (fh_committed s) c n |}.
  - intros s v c n vote [_ Hc] Hfit. destruct (vote_codec vote Hfit) as (bytes & He & Hd).
    unfold fs_save_vote. rewrite He. eexists. split; [reflexivity|]. by split.
  - intros s v c n id [Hv Hc] Hid. unfold fs_save_committed.
    pose proof (write_step xxh64 _ _ _ _ _ Hc Hid) as Hw. destruct (write_committed _ _ _ _) as [st ops].
    eexists. split; [reflexivity|]. split; [done|]. apply Hw.
  - intros s v c n [Hv (_ & Hc & _)]. unfold fs_read_vote, fs_read_committed. rewrite Hc. split; [|done].
    destruct (fh_vote s) as [b|], v as [w|]; cbn in Hv; try done. by rewrite Hv.
Defined.
End hard_state.
