(* ===== verification/Text.v ===== *)
(** * Strings as the sources use them

    A [str] is a [string] of bytes.  What the components need of the standard
    library's string methods, with their laws, and UTF-8 validation. *)

From Stdlib Require Import Ascii.
From S2P Require Import Prelude.
#[local] Open Scope Z_scope.

(** ** Appending *)

#[local] Abbreviation chars := String.list_ascii_of_string.

Lemma chars_app s t : chars (s +:+ t) = chars s ++ chars t.
Proof. induction s as [|c s IH]; [done|]. simpl. by rewrite IH. Qed.

Lemma string_length_app s t : String.length (s +:+ t) = (String.length s + String.length t)%nat.
Proof. induction s as [|c s IH]; [done|]. simpl. by rewrite IH. Qed.

Lemma chars_inj s t : chars s = chars t → s = t.
Proof.
  intros H. rewrite <- (String.string_of_list_ascii_of_string s), H.
  apply String.string_of_list_ascii_of_string.
Qed.

Lemma string_app_inj_r s t u : s +:+ u = t +:+ u → s = t.
Proof.
  intros H. apply chars_inj. apply (f_equal chars) in H. rewrite !chars_app in H.
  by apply (inj (.++ chars u)) in H.
Qed.

(** Strings with different last characters differ. *)
Lemma string_app_last_ne s t u v a b :
  last (chars u) = Some a → last (chars v) = Some b → a ≠ b → s +:+ u ≠ t +:+ v.
Proof.
  intros Hu Hv Hab H. apply (f_equal (last ∘ chars)) in H. simpl in H.
  rewrite !chars_app, !last_app, Hu, Hv in H. congruence.
Qed.

(** Suffixes of the same length. *)
Lemma string_app_inj_tail s t u v :
  length (chars u) = length (chars v) → s +:+ u = t +:+ v → s = t ∧ u = v.
Proof.
  intros Hl H. apply (f_equal chars) in H. rewrite !chars_app in H.
  apply app_inj_2 in H as [? ?]; [|done]. auto using chars_inj.
Qed.

(** ** [str] methods *)

(** [strip_suffix]. *)
Definition strip_suffix (suffix s : string) : option string :=
  let n := (length (chars s) - length (chars suffix))%nat in
  if decide (drop n (chars s) = chars suffix)
  then Some (String.string_of_list_ascii (take n (chars s))) else None.

Definition ends_with (suffix s : string) : bool :=
  match strip_suffix suffix s with Some _ => true | None => false end.

Lemma strip_suffix_app s u : strip_suffix u (s +:+ u) = Some s.
Proof.
  unfold strip_suffix. rewrite chars_app, length_app.
  replace (length (chars s) + length (chars u) - length (chars u))%nat with (length (chars s)) by lia.
  rewrite drop_app_length, decide_True, take_app_length by done.
  by rewrite String.string_of_list_ascii_of_string.
Qed.

Lemma strip_suffix_Some u s t : strip_suffix u s = Some t → s = t +:+ u.
Proof.
  unfold strip_suffix. set (n := (_ - _)%nat). destruct (decide _) as [Hd|]; [|done]. intros [= <-].
  apply chars_inj. rewrite chars_app, String.list_ascii_of_string_of_list_ascii.
  rewrite <- (take_drop n (chars s)) at 1. by rewrite Hd.
Qed.

(** [contains] of a two-character pattern. *)
Fixpoint contains2 (a b : Ascii.ascii) (s : string) : bool :=
  match s with
  | String c ((String d _) as rest) => (bool_decide (c = a) && bool_decide (d = b)) || contains2 a b rest
  | _ => false
  end.

(** [Path::with_extension("tmp")] of a file name: the last dot and what follows
    it are replaced, unless the dot leads the name. *)
Fixpoint stem (s : string) : option string :=
  match s with
  | EmptyString => None
  | String c s =>
      match stem s with
      | Some t => Some (String c t)
      | None => if decide (c = "."%char) then Some EmptyString else None
      end
  end.
Definition with_extension (name ext : string) : string :=
  match stem name with
  | Some EmptyString | None => name +:+ "." +:+ ext
  | Some t => t +:+ "." +:+ ext
  end.

Lemma stem_app s u : stem u = Some EmptyString → stem (s +:+ u) = Some s.
Proof. intros Hu. induction s as [|c s IH]; [done|]. simpl. by rewrite IH. Qed.

(** ** Bytes and UTF-8 *)

Lemma str_bytes_app s t : str_bytes (s +:+ t) = str_bytes s ++ str_bytes t.
Proof. unfold str_bytes. by rewrite chars_app, fmap_app. Qed.

Definition bytes_str (bs : list Z) : string :=
  String.string_of_list_ascii ((λ b, Ascii.ascii_of_N (Z.to_N b)) <$> bs).

Lemma bytes_str_bytes s : bytes_str (str_bytes s) = s.
Proof.
  unfold bytes_str, str_bytes. rewrite <- list_fmap_compose.
  rewrite (list_fmap_ext _ id), list_fmap_id; [apply String.string_of_list_ascii_of_string|].
  intros i c _. simpl. rewrite N2Z.id. apply Ascii.ascii_N_embedding.
Qed.

Lemma str_bytes_str bs : Forall is_byte bs → str_bytes (bytes_str bs) = bs.
Proof.
  intros Hb. unfold bytes_str, str_bytes. rewrite String.list_ascii_of_string_of_list_ascii.
  rewrite <- list_fmap_compose. rewrite <- (list_fmap_id bs) at 2.
  apply list_fmap_ext. intros i b Hi. rewrite Forall_lookup in Hb. specialize (Hb i b Hi).
  unfold is_byte in Hb. simpl. rewrite Ascii.N_ascii_embedding by lia. lia.
Qed.

Definition in_range (lo hi b : Z) : bool := (lo <=? b) && (b <=? hi).

(** The well-formed byte sequences of the Unicode standard, as [from_utf8]
    checks them. *)
Fixpoint utf8_ok (bs : list Z) : bool :=
  match bs with
  | [] => true
  | b :: r =>
      if b <? 128 then utf8_ok r
      else match r with
      | c1 :: r1 =>
          if in_range 194 223 b then in_range 128 191 c1 && utf8_ok r1
          else match r1 with
          | c2 :: r2 =>
              if b =? 224 then in_range 160 191 c1 && in_range 128 191 c2 && utf8_ok r2
              else if b =? 237 then in_range 128 159 c1 && in_range 128 191 c2 && utf8_ok r2
              else if in_range 225 239 b then in_range 128 191 c1 && in_range 128 191 c2 && utf8_ok r2
              else match r2 with
              | c3 :: r3 =>
                  if b =? 240 then in_range 144 191 c1 && in_range 128 191 c2 && in_range 128 191 c3 && utf8_ok r3
                  else if in_range 241 243 b then in_range 128 191 c1 && in_range 128 191 c2 && in_range 128 191 c3 && utf8_ok r3
                  else if b =? 244 then in_range 128 143 c1 && in_range 128 191 c2 && in_range 128 191 c3 && utf8_ok r3
                  else false
              | [] => false
              end
          | [] => false
          end
      | [] => false
      end
  end.

Definition from_utf8 (bs : list Z) : option string :=
  if utf8_ok bs then Some (bytes_str bs) else None.

Lemma utf8_ascii bs : Forall (λ b, b < 128) bs → utf8_ok bs = true.
Proof.
  induction 1 as [|b bs Hb _ IH]; [done|]. simpl. by rewrite (proj2 (Z.ltb_lt _ _)).
Qed.
