(* ===== verification/FsStorageTheorems.v ===== *)
(** * The snapshot store on disk
    ([fluree-raft-core/src/storage/fs.rs], [FsRaftSnapshotStore])

    A snapshot is a pair of files named after its id, and the file [current]
    names the newest one; a write replaces each file by a rename, the pointer
    last, and then removes what the pointer no longer reaches.  A directory is a
    map from file names to bytes.  The listing of the directory comes in any
    order, so it is an argument; the postcard encoding of the metadata is a
    parameter with its round trip.  I/O errors are not modelled. *)

From Stdlib Require Import Ascii.
From S2P Require Import Prelude Adapter Text FsFrame RaftLog FsLog FsCommitted FsLogTheorems.
#[local] Open Scope Z_scope.

Abbreviation SnapshotDir := (gmap string (list Z)).

Inductive FileOp :=
  | FWrite (name : string) (bytes : list Z)       (* create, write and flush *)
  | FRename (from to : string)
  | FRemove (name : string).

Definition run_file (d : SnapshotDir) (op : FileOp) : SnapshotDir :=
  match op with
  | FWrite name bytes => <[name := bytes]> d
  | FRename from to => match d !! from with Some b => <[to := b]> (delete from d) | None => d end
  | FRemove name => delete name d
  end.
Definition run_files (d : SnapshotDir) (ops : list FileOp) : SnapshotDir := foldl run_file d ops.

(** What a crash leaves: any prefix of the bytes of an interrupted write; of
    the removals, which only one flush at the end makes durable, any part. *)
Inductive file_crash : SnapshotDir → list FileOp → SnapshotDir → Prop :=
  | fcrash_here d ops : file_crash d ops d
  | fcrash_torn d name bytes n ops :
      file_crash d (FWrite name bytes :: ops) (run_file d (FWrite name (take n bytes)))
  | fcrash_later d op ops d' : file_crash (run_file d op) ops d' → file_crash d (op :: ops) d'
  | fcrash_lost d name ops d' : file_crash d ops d' → file_crash d (FRemove name :: ops) d'.

(** ** Names *)

Definition meta_path (id : string) : string := id +:+ ".meta".
Definition data_path (id : string) : string := id +:+ ".data".
Definition current_path : string := "current".

Definition path_char (c : ascii) : bool :=
  let n := N_of_ascii c in
  ((65 <=? n) && (n <=? 90))%N || ((97 <=? n) && (n <=? 122))%N || ((48 <=? n) && (n <=? 57))%N
  || bool_decide (c = "-"%char) || bool_decide (c = "_"%char) || bool_decide (c = "."%char).

Definition MAX_LEN : nat := 128.

Definition validate_path_safe_id (id : string) : string + string :=
  if decide (id = "") then inl "snapshot id is empty"
  else if decide (MAX_LEN < String.length id)%nat then inl "snapshot id length exceeds cap"
  else if contains2 "."%char "."%char id then inl "snapshot id contains path-traversal '..'"
  else if forallb path_char (String.list_ascii_of_string id) then inr id
  else inl "snapshot id contains disallowed character".

(** ** Operations *)

(** [atomic_write]. *)
Definition atomic_write (path : string) (bytes : list Z) : list FileOp :=
  let tmp := with_extension path "tmp" in [FWrite tmp bytes; FRename tmp path].

Definition superseded (keep_id name : string) : bool :=
  match strip_suffix ".meta" name with
  | Some stem => negb (bool_decide (stem = keep_id))
  | None =>
      match strip_suffix ".data" name with
      | Some stem => negb (bool_decide (stem = keep_id))
      | None => false
      end
  end || ends_with ".tmp" name.

(** [reclaim_superseded] over a listing of the directory. *)
Definition reclaim_superseded (listing : list string) (keep_id : string) : list FileOp :=
  FRemove <$> filter (λ name, superseded keep_id name = true) listing.

Section snapshots.
Context (encode_meta : SnapshotMeta → string + list Z).
Context (decode_meta : list Z → string + SnapshotMeta).

Definition write_ops (listing : list string) (id : string) (meta_bytes data : list Z) : list FileOp :=
  atomic_write (meta_path id) meta_bytes ++ atomic_write (data_path id) data
  ++ atomic_write current_path (str_bytes id) ++ reclaim_superseded listing id.

Definition snapshot_write (listing : list string) (meta : SnapshotMeta) (data : list Z)
    : string + list FileOp :=
  match validate_path_safe_id (sm_id meta) with
  | inl e => inl e
  | inr safe_id =>
      match encode_meta meta with
      | inl e => inl e
      | inr meta_bytes => inr (write_ops listing safe_id meta_bytes data)
      end
  end.

Definition snapshot_read (d : SnapshotDir) (id : string) : string + option (list Z) :=
  match validate_path_safe_id id with
  | inl e => inl e
  | inr safe_id => inr (d !! data_path safe_id)
  end.

Definition snapshot_current (d : SnapshotDir) : string + option (SnapshotMeta * list Z) :=
  match d !! current_path with
  | None => inr None
  | Some id_bytes =>
      match from_utf8 id_bytes with
      | None => inl "current snapshot id is not utf8"
      | Some id =>
          match validate_path_safe_id id with
          | inl e => inl e
          | inr safe_id =>
              match d !! meta_path safe_id with
              | None => inl "current snapshot pointer names but its meta file is missing"
              | Some meta_bytes =>
                  match decode_meta meta_bytes with
                  | inl e => inl e
                  | inr meta =>
                      match d !! data_path safe_id with
                      | None => inl "current snapshot pointer names but its data file is missing"
                      | Some data => inr (Some (meta, data))
                      end
                  end
              end
          end
      end
  end.

(** ** Valid ids *)

Lemma validate_inv id s :
  validate_path_safe_id id = inr s →
  s = id ∧ id ≠ "" ∧ Forall (λ c, path_char c = true) (String.list_ascii_of_string id)
  ∧ contains2 "." "." id = false ∧ (String.length id <= MAX_LEN)%nat.
Proof.
  unfold validate_path_safe_id. destruct (decide (id = "")); [done|].
  destruct (decide _); [done|]. destruct (contains2 _ _ _) eqn:Hd; [done|].
  destruct (forallb _ _) eqn:Hf; [|done]. intros [= <-].
  split; [done|]. split; [done|]. split; [|split; [done|lia]].
  rewrite Forall_forall. intros c Hc%list_elem_of_In. by eapply forallb_forall in Hf.
Qed.

Lemma path_char_ascii c : path_char c = true → (Z.of_N (N_of_ascii c) < 128)%Z.
Proof. destruct c as [[] [] [] [] [] [] [] []]; vm_compute; done. Qed.

Lemma from_utf8_id id s : validate_path_safe_id id = inr s → from_utf8 (str_bytes id) = Some id.
Proof.
  intros (_ & _ & Hc & _)%validate_inv. unfold from_utf8. rewrite utf8_ascii, bytes_str_bytes; [done|].
  unfold str_bytes. apply Forall_fmap. eapply Forall_impl; [exact Hc|]. apply path_char_ascii.
Qed.

(** ** Names do not collide *)

Lemma meta_ne_data a b : meta_path a ≠ data_path b.
Proof. intros [_ H]%string_app_inj_tail; done. Qed.
Lemma tmp_ne_meta t a : t +:+ ".tmp" ≠ meta_path a.
Proof. by eapply string_app_last_ne. Qed.
Lemma tmp_ne_data t a : t +:+ ".tmp" ≠ data_path a.
Proof. by eapply string_app_last_ne. Qed.
Lemma current_ne_meta a : current_path ≠ meta_path a.
Proof. apply (string_app_last_ne "" a current_path ".meta" "t" "a"); done. Qed.
Lemma current_ne_data a : current_path ≠ data_path a.
Proof. apply (string_app_last_ne "" a current_path ".data" "t" "a"); done. Qed.
Lemma tmp_ne_current t : t +:+ ".tmp" ≠ current_path.
Proof. apply (string_app_last_ne t "" ".tmp" current_path "p" "t"); done. Qed.

(** None of the kept files is temporary. *)
Lemma not_tmp id name :
  name = current_path ∨ name = meta_path id ∨ name = data_path id → ∀ t, name ≠ t +:+ ".tmp".
Proof.
  intros H t Ht. symmetry in Ht. destruct H as [->|[->| ->]]; revert Ht;
    [apply tmp_ne_current|apply tmp_ne_meta|apply tmp_ne_data].
Qed.

Lemma tmp_of_meta id : id ≠ "" → with_extension (meta_path id) "tmp" = id +:+ ".tmp".
Proof. intros H. unfold with_extension, meta_path. rewrite stem_app by done. by destruct id. Qed.
Lemma tmp_of_data id : id ≠ "" → with_extension (data_path id) "tmp" = id +:+ ".tmp".
Proof. intros H. unfold with_extension, data_path. rewrite stem_app by done. by destruct id. Qed.
Lemma tmp_of_current : with_extension current_path "tmp" = "current" +:+ ".tmp".
Proof. done. Qed.
(** ** What a directory holds *)

Context (decode_encode_meta : ∀ meta bytes, encode_meta meta = inr bytes → decode_meta bytes = inr meta).

Definition holds_snapshot (d : SnapshotDir) (current : option (SnapshotMeta * list Z)) : Prop :=
  match current with
  | None => d !! current_path = None
  | Some (meta, data) =>
      validate_path_safe_id (sm_id meta) = inr (sm_id meta)
      ∧ d !! current_path = Some (str_bytes (sm_id meta))
      ∧ d !! data_path (sm_id meta) = Some data
      ∧ ∃ bytes, encode_meta meta = inr bytes ∧ d !! meta_path (sm_id meta) = Some bytes
  end.

Lemma holds_current d current : holds_snapshot d current → snapshot_current d = inr current.
Proof.
  destruct current as [[meta data]|]; unfold snapshot_current; [|by intros ->].
  intros (Hv & -> & Hd & bytes & He & Hm). rewrite (from_utf8_id _ _ Hv), Hv, Hm, Hd.
  by rewrite (decode_encode_meta _ _ He).
Qed.

(** Equal up to temporary files. *)
Definition same_files (d d' : SnapshotDir) : Prop :=
  ∀ name, (∀ t, name ≠ t +:+ ".tmp") → d !! name = d' !! name.

Lemma holds_same d d' current : same_files d d' → holds_snapshot d current → holds_snapshot d' current.
Proof.
  intros Hs. destruct current as [[meta data]|]; cbn.
  - intros (Hv & Hc & Hd & bytes & He & Hm). rewrite <- !Hs by (apply (not_tmp (sm_id meta)); auto).
    eauto 10.
  - by rewrite <- Hs by (apply (not_tmp ""); auto).
Qed.

Lemma same_files_trans d1 d2 d3 : same_files d1 d2 → same_files d2 d3 → same_files d1 d3.
Proof. intros H1 H2 name Hn. by rewrite H1, H2. Qed.

Lemma atomic_write_run d path bytes t :
  with_extension path "tmp" = t +:+ ".tmp" → path ≠ t +:+ ".tmp" →
  run_files d (atomic_write path bytes) = <[path := bytes]> (delete (t +:+ ".tmp") d).
Proof.
  intros Ht Hp. unfold atomic_write, run_files. rewrite Ht. cbn [foldl run_file].
  by rewrite lookup_insert_eq, delete_insert_eq.
Qed.

(** A crash during an atomic write leaves the file as it was. *)
Lemma atomic_write_crash d path bytes ops d' t :
  with_extension path "tmp" = t +:+ ".tmp" →
  file_crash d (atomic_write path bytes ++ ops) d' →
  same_files d d' ∨ file_crash (run_files d (atomic_write path bytes)) ops d'.
Proof.
  intros Ht. unfold atomic_write, run_files. rewrite Ht. cbn [foldl app]. intros Hcr.
  assert (∀ b, same_files d (run_file d (FWrite (t +:+ ".tmp") b))) as Htmp.
  { intros b name Hn. cbn. by rewrite lookup_insert_ne by (intros H; by apply (Hn t)). }
  inversion Hcr as [|d0 n b k ops0|d0 op ops0 d0' Hc|]; subst; [by left|by left|].
  inversion Hc as [| |d1 op ops1 d1' Hc1|]; subst; [by left|by right].
Qed.

(** ** Reclaiming *)

Lemma not_superseded keep :
  superseded keep (meta_path keep) = false ∧ superseded keep (data_path keep) = false
  ∧ superseded keep current_path = false.
Proof.
  assert (∀ name, (∀ t, name ≠ t +:+ ".tmp") → ends_with ".tmp" name = false) as Htmp.
  { intros name Hn. unfold ends_with. destruct (strip_suffix _ _) as [t|] eqn:H; [|done].
    apply strip_suffix_Some in H. by destruct (Hn t). }
  unfold superseded. rewrite !Htmp by (apply (not_tmp keep); auto).
  unfold meta_path, data_path. rewrite !strip_suffix_app, bool_decide_eq_true_2 by done. cbn.
  split; [done|]. split; [|done].
  destruct (strip_suffix ".meta" _) as [t|] eqn:H; [|done]. apply strip_suffix_Some in H. symmetry in H.
  exfalso. revert H. apply (meta_ne_data t keep).
Qed.

Lemma removals_crash d names d' :
  file_crash d (FRemove <$> names) d' → ∀ name, name ∉ names → d' !! name = d !! name.
Proof.
  revert d. induction names as [|n names IH]; intros d Hcr name Hn; [by inversion Hcr|].
  apply not_elem_of_cons in Hn as [Hne Hn].
  inversion Hcr as [| |d0 op ops d0' Hc|d0 m ops d0' Hc]; subst; [done| |].
  - rewrite (IH _ Hc name Hn). cbn. by rewrite lookup_delete_ne.
  - by apply (IH _ Hc).
Qed.

Lemma run_removals d names name : name ∉ names → run_files d (FRemove <$> names) !! name = d !! name.
Proof.
  revert d. induction names as [|n names IH]; intros d Hn; [done|]. apply not_elem_of_cons in Hn as [? ?].
  cbn. rewrite IH by done. by rewrite lookup_delete_ne.
Qed.

Lemma holds_agree d d' meta data :
  holds_snapshot d (Some (meta, data)) →
  (∀ name, name = current_path ∨ name = meta_path (sm_id meta) ∨ name = data_path (sm_id meta) →
     d' !! name = d !! name) →
  holds_snapshot d' (Some (meta, data)).
Proof. intros (Hv & Hc & Hd & bytes & He & Hm) Ha. cbn. rewrite !Ha by auto. eauto 10. Qed.

Lemma kept_names (listing : list string) keep name :
  name = current_path ∨ name = meta_path keep ∨ name = data_path keep →
  name ∉ filter (λ n, superseded keep n = true) listing.
Proof.
  destruct (not_superseded keep) as (H1 & H2 & H3). rewrite list_elem_of_filter.
  intros [->|[->| ->]] [? _]; congruence.
Qed.
(** ** Writing *)

(** A directory with the files of [meta] written over it still holds what it
    held, if an equal id means an equal snapshot. *)
Lemma holds_overwrite d current id bytes data (path : string) content t :
  holds_snapshot d current →
  (∀ m x, current = Some (m, x) → sm_id m = id → encode_meta m = inr bytes ∧ x = data) →
  (path = meta_path id ∧ content = bytes) ∨ (path = data_path id ∧ content = data) →
  holds_snapshot (<[path := content]> (delete (t +:+ ".tmp") d)) current.
Proof.
  intros Hh Hsame Hpath.
  assert (holds_snapshot (delete (t +:+ ".tmp") d) current) as Hdel.
  { apply (holds_same d); [|done]. intros name Hn. by rewrite lookup_delete_ne by (intros H; by apply (Hn t)). }
  assert (path ≠ current_path) as Hpc.
  { destruct Hpath as [[-> _]|[-> _]]; intros H; symmetry in H; revert H;
      [apply current_ne_meta|apply current_ne_data]. }
  destruct current as [[m x]|]; [|by cbn in *; rewrite lookup_insert_ne].
  destruct Hdel as (Hv & Hc & Hd & mb & He & Hm). cbn. split; [done|].
  rewrite (lookup_insert_ne _ path current_path) by done. split; [done|].
  destruct (decide (sm_id m = id)) as [Hid|Hid].
  - destruct (Hsame m x eq_refl Hid) as [He' ->]. assert (mb = bytes) as -> by congruence.
    rewrite Hid in *. destruct Hpath as [[-> ->]|[-> ->]].
    + rewrite lookup_insert_ne, lookup_insert_eq by apply meta_ne_data. eauto.
    + rewrite lookup_insert_eq, lookup_insert_ne by (intros H; symmetry in H; revert H; apply meta_ne_data). eauto.
  - assert (path ≠ meta_path (sm_id m) ∧ path ≠ data_path (sm_id m)) as [H1 H2].
    { destruct Hpath as [[-> _]|[-> _]]; split; intros H;
        [by apply string_app_inj_r in H|by apply meta_ne_data in H
        |by symmetry in H; apply meta_ne_data in H|by apply string_app_inj_r in H]. }
    rewrite !lookup_insert_ne by done. eauto.
Qed.

(** The directory after each of the three atomic writes. *)
Definition wrote_meta (d : SnapshotDir) (id : string) (bytes : list Z) : SnapshotDir :=
  <[meta_path id := bytes]> (delete (id +:+ ".tmp") d).
Definition wrote_data (d : SnapshotDir) (id : string) (bytes data : list Z) : SnapshotDir :=
  <[data_path id := data]> (delete (id +:+ ".tmp") (wrote_meta d id bytes)).
Definition wrote_current (d : SnapshotDir) (id : string) (bytes data : list Z) : SnapshotDir :=
  <[current_path := str_bytes id]> (delete ("current" +:+ ".tmp") (wrote_data d id bytes data)).

Lemma run_write_ops d listing id bytes data :
  id ≠ "" →
  run_files d (write_ops listing id bytes data)
  = run_files (wrote_current d id bytes data) (reclaim_superseded listing id).
Proof.
  intros Hne. unfold write_ops, run_files at 1. rewrite !foldl_app. unfold run_files at 1. f_equal.
  pose proof (not_tmp id) as Hn.
  fold (run_files d (atomic_write (meta_path id) bytes)).
  rewrite (atomic_write_run d _ bytes id (tmp_of_meta id Hne)) by auto. fold (wrote_meta d id bytes).
  fold (run_files (wrote_meta d id bytes) (atomic_write (data_path id) data)).
  rewrite (atomic_write_run _ _ data id (tmp_of_data id Hne)) by auto. fold (wrote_data d id bytes data).
  fold (run_files (wrote_data d id bytes data) (atomic_write current_path (str_bytes id))).
  by rewrite (atomic_write_run _ _ (str_bytes id) "current" tmp_of_current) by auto.
Qed.

Lemma write_ops_crash d listing id bytes data d' :
  id ≠ "" → file_crash d (write_ops listing id bytes data) d' →
  same_files d d' ∨ same_files (wrote_meta d id bytes) d' ∨ same_files (wrote_data d id bytes data) d'
  ∨ file_crash (wrote_current d id bytes data) (reclaim_superseded listing id) d'.
Proof.
  intros Hne Hcr. unfold write_ops in Hcr. pose proof (not_tmp id) as Hn.
  apply (atomic_write_crash _ _ _ _ _ id (tmp_of_meta id Hne)) in Hcr as [Hs|Hcr]; [auto|].
  rewrite (atomic_write_run d _ bytes id (tmp_of_meta id Hne)) in Hcr by auto.
  apply (atomic_write_crash _ _ _ _ _ id (tmp_of_data id Hne)) in Hcr as [Hs|Hcr]; [auto|].
  rewrite (atomic_write_run _ _ data id (tmp_of_data id Hne)) in Hcr by auto.
  apply (atomic_write_crash _ _ _ _ _ "current" tmp_of_current) in Hcr as [Hs|Hcr]; [auto|].
  rewrite (atomic_write_run _ _ (str_bytes id) "current" tmp_of_current) in Hcr by auto. auto.
Qed.

Lemma wrote_current_holds d meta bytes data :
  validate_path_safe_id (sm_id meta) = inr (sm_id meta) → encode_meta meta = inr bytes →
  holds_snapshot (wrote_current d (sm_id meta) bytes data) (Some (meta, data)).
Proof.
  intros Hv He. set (id := sm_id meta) in *. unfold wrote_current, wrote_data, wrote_meta. cbn. fold id.
  assert (∀ t name, name = current_path ∨ name = meta_path id ∨ name = data_path id → t +:+ ".tmp" ≠ name) as Hn.
  { intros t name Hname Ht. symmetry in Ht. revert Ht. by apply (not_tmp id). }
  split; [done|]. rewrite lookup_insert_eq. split; [done|].
  rewrite !(lookup_insert_ne _ current_path) by (apply current_ne_meta || apply current_ne_data).
  rewrite !lookup_delete_ne by (apply Hn; auto). rewrite lookup_insert_eq. split; [done|].
  exists bytes. split; [done|].
  rewrite lookup_insert_ne by (intros Hx; symmetry in Hx; revert Hx; apply meta_ne_data).
  rewrite lookup_delete_ne by (apply Hn; auto). by rewrite lookup_insert_eq.
Qed.

Lemma snapshot_write_inv listing meta data ops :
  snapshot_write listing meta data = inr ops →
  ∃ bytes, validate_path_safe_id (sm_id meta) = inr (sm_id meta) ∧ sm_id meta ≠ ""
    ∧ encode_meta meta = inr bytes ∧ ops = write_ops listing (sm_id meta) bytes data.
Proof.
  unfold snapshot_write. destruct (validate_path_safe_id _) as [e|s] eqn:Hv; [done|].
  destruct (validate_inv _ _ Hv) as (-> & Hne & _). destruct (encode_meta meta) as [e|bytes]; [done|].
  intros [= <-]. by exists bytes.
Qed.

Lemma write_done d listing meta data ops :
  snapshot_write listing meta data = inr ops → holds_snapshot (run_files d ops) (Some (meta, data)).
Proof.
  intros (bytes & Hv & Hne & He & ->)%snapshot_write_inv. rewrite run_write_ops by done.
  apply (holds_agree (wrote_current d (sm_id meta) bytes data)); [by apply wrote_current_holds|].
  intros name Hn. apply run_removals. by apply kept_names.
Qed.

Lemma write_crash d current listing meta data ops d' :
  holds_snapshot d current →
  (∀ m x, current = Some (m, x) → sm_id m = sm_id meta → m = meta ∧ x = data) →
  snapshot_write listing meta data = inr ops → file_crash d ops d' →
  holds_snapshot d' current ∨ holds_snapshot d' (Some (meta, data)).
Proof.
  intros Hh Hfresh (bytes & Hv & Hne & He & ->)%snapshot_write_inv Hcr. set (id := sm_id meta) in *.
  assert (∀ m x, current = Some (m, x) → sm_id m = id → encode_meta m = inr bytes ∧ x = data) as Hsame.
  { intros m x Hc Hid. by destruct (Hfresh m x Hc Hid) as [-> ->]. }
  assert (holds_snapshot (wrote_meta d id bytes) current) as H1
    by (apply (holds_overwrite d current id bytes data); auto).
  assert (holds_snapshot (wrote_data d id bytes data) current) as H2
    by (apply (holds_overwrite _ current id bytes data); auto).
  apply write_ops_crash in Hcr as [Hs|[Hs|[Hs|Hcr]]]; [left; by eapply holds_same..| |done].
  right. apply (holds_agree (wrote_current d id bytes data)); [by apply wrote_current_holds|].
  intros name Hn. apply (removals_crash _ _ _ Hcr). by apply kept_names.
Qed.

(** ** The store *)

(** The listing the reclamation reads is that of the directory by then. *)
Definition dir_listing (d : SnapshotDir) (meta : SnapshotMeta) (data : list Z) : list string :=
  match snapshot_write [] meta data with inr ops => (map_to_list (run_files d ops)).*1 | inl _ => [] end.

Definition fs_snapshot_write (d : SnapshotDir) (meta : SnapshotMeta) (data : list Z)
    : SnapshotDir * (string + unit) :=
  match snapshot_write (dir_listing d meta data) meta data with
  | inl e => (d, inl e)
  | inr ops => (run_files d ops, inr ())
  end.

Lemma fs_snapshot_write_current d meta data d' :
  fs_snapshot_write d meta data = (d', inr ()) → snapshot_current d' = inr (Some (meta, data)).
Proof.
  unfold fs_snapshot_write. destruct (snapshot_write _ meta data) as [e|ops] eqn:Hw; [done|].
  intros [= <-]. eapply holds_current, write_done, Hw.
Qed.

Definition fs_snapshot_store : RaftSnapshotStore SnapshotDir :=
  {| ss_write := fs_snapshot_write; ss_current := snapshot_current;
     ss_write_current := fs_snapshot_write_current |}.
End snapshots.

(** * What the watermark and snapshot files promise *)

(** ** The committed watermark *)

Definition fresh_dir : CommittedDir := mkCommittedDir None None.

(** After any history of fewer than 2^64 saves of the committed watermark,
    each completed or cut short by a crash (the slot torn anywhere, as long as
    its checksum tells) and a reload, a read returns the last one saved, where a
    save that crashed may or may not have happened. *)
Theorem committed_crash_safe xxh64 evs s :
  committed_run xxh64 (fresh_dir, mkCommitted None 0 false) evs s →
  Forall (λ ev, ∀ i, event_id ev = Some i → log_id_fits i) evs →
  Z.of_nat (length evs) < two64 →
  watermarks None evs (cm_committed s.2)
  ∧ ∃ st, load_committed xxh64 s.1 = (st, []) ∧ cm_committed st = cm_committed s.2.
Proof.
  intros Hrun Hev Hlen.
  destruct (committed_run_holds xxh64 _ _ _ Hrun None 0) as (c & Hc & Hh); [|done|].
  { rewrite Nat.add_0_r. split; [|done]. split; [done|]. split; [done|]. cbn [cm_generation]. done. }
  pose proof Hh as (Hd & Hst & _). rewrite Hst. split; [done|].
  destruct (load_holds xxh64 _ _ _ _ Hd) as (st & Hl & _ & Hst' & _). by exists st.
Qed.

(** ** Snapshots *)

(** A name that stays inside the directory it is joined to. *)
Definition path_component (name : string) : Prop :=
  name ≠ "" ∧ name ≠ "." ∧ name ≠ ".."
  ∧ Forall (λ c, c ≠ "/"%char ∧ c ≠ "\"%char ∧ c ≠ zero) (String.list_ascii_of_string name).

Lemma path_char_plain c : path_char c = true → c ≠ "/"%char ∧ c ≠ "\"%char ∧ c ≠ zero.
Proof. intros H. split; [|split]; intros ->; vm_compute in H; done. Qed.

Lemma id_component id suffix :
  Forall (λ c, path_char c = true) (String.list_ascii_of_string id) →
  Forall (λ c, path_char c = true) (String.list_ascii_of_string suffix) →
  (3 <= String.length suffix)%nat → path_component (id +:+ suffix).
Proof.
  intros Hc Hs Hl. assert (∀ s, (String.length s < 3)%nat → id +:+ suffix ≠ s) as Hlen.
  { intros s Hlt <-. rewrite string_length_app in Hlt. lia. }
  split; [apply Hlen; simpl; lia|]. split; [apply Hlen; simpl; lia|]. split; [apply Hlen; simpl; lia|].
  rewrite chars_app. apply Forall_app.
  split; (eapply Forall_impl; [eassumption|apply path_char_plain]).
Qed.

(** Whatever id a peer sends, a snapshot write that is accepted only names
    files directly inside the snapshot directory, and one that is refused
    performs no file operation at all; reads of a refused id touch nothing
    either. *)
Theorem snapshot_paths_confined encode_meta listing meta data ops :
  snapshot_write encode_meta listing meta data = inr ops →
  let id := sm_id meta in
  path_component (meta_path id) ∧ path_component (data_path id)
  ∧ path_component (with_extension (meta_path id) "tmp")
  ∧ path_component (with_extension (data_path id) "tmp")
  ∧ ∀ op, op ∈ ops → match op with
    | FWrite name _ => path_component name
    | FRename from to => path_component from ∧ path_component to
    | FRemove name => name ∈ listing
    end.
Proof.
  intros (bytes & Hv & Hne & _ & ->)%snapshot_write_inv id. fold id in Hv, Hne.
  destruct (validate_inv _ _ Hv) as (_ & _ & Hc & _).
  rewrite tmp_of_meta, tmp_of_data by done.
  assert (path_component (meta_path id)) as Hm by (apply id_component; [done|by repeat constructor|simpl; lia]).
  assert (path_component (data_path id)) as Hd by (apply id_component; [done|by repeat constructor|simpl; lia]).
  assert (path_component (id +:+ ".tmp")) as Ht by (apply id_component; [done|by repeat constructor|simpl; lia]).
  do 4 (split; [done|]). intros op. unfold write_ops, atomic_write.
  rewrite tmp_of_meta, tmp_of_data, tmp_of_current by done. rewrite !elem_of_app.
  assert (path_component current_path ∧ path_component "current.tmp") as [Hcur Hct]
    by (split; (split; [done|]; split; [done|]; split; [done|]; by repeat constructor)).
  intros [H|[H|[H|H]]].
  1-3: apply elem_of_cons in H as [->|H]; [done|]; apply elem_of_cons in H as [->|H]; [by split|];
    by apply not_elem_of_nil in H.
  unfold reclaim_superseded in H. apply list_elem_of_fmap in H as (name & -> & H).
  by apply list_elem_of_filter in H as [_ ?].
Qed.

(** C39: a snapshot write that crashes anywhere leaves the current snapshot
    readable: it is the one before the write or the new one, never an error
    and never a mixture; a write that completes is the current one.  A write
    that reuses the current id is assumed to carry the same snapshot. *)
Theorem snapshot_crash_safe encode_meta decode_meta
    (codec : ∀ meta bytes, encode_meta meta = inr bytes → decode_meta bytes = inr meta)
    d current listing meta data ops :
  holds_snapshot encode_meta d current →
  (∀ m x, current = Some (m, x) → sm_id m = sm_id meta → m = meta ∧ x = data) →
  snapshot_write encode_meta listing meta data = inr ops →
  snapshot_current decode_meta d = inr current
  ∧ snapshot_current decode_meta (run_files d ops) = inr (Some (meta, data))
  ∧ ∀ d', file_crash d ops d' →
      snapshot_current decode_meta d' = inr current
      ∨ snapshot_current decode_meta d' = inr (Some (meta, data)).
Proof.
  intros Hh Hf Hw. split; [by eapply holds_current|]. split.
  - by eapply holds_current, write_done.
  - intros d' Hcr. destruct (write_crash _ _ _ _ _ _ _ _ Hh Hf Hw Hcr); [left|right]; by eapply holds_current.
Qed.

(** ** Concrete instances *)

Definition wm0 : CommittedDir * Committed := (fresh_dir, mkCommitted None 0 false).
Definition wm_write (s : CommittedDir * Committed) (id : option LogId) := write_committed byte_sum s.1 s.2 id.
Definition wm1 : CommittedDir * Committed :=
  (run_cops wm0.1 (wm_write wm0 (Some (mkLogId 1 5))).2, (wm_write wm0 (Some (mkLogId 1 5))).1).
Definition wm_slot : list Z := encode_committed byte_sum 2 (Some (mkLogId 1 9)).
Definition wm_torn : CommittedDir := run_cop wm1.1 (CWriteAt 0 (take 100 wm_slot)).
Definition wm2 : CommittedDir * Committed :=
  (run_cops wm_torn (load_committed byte_sum wm_torn).2, (load_committed byte_sum wm_torn).1).

Lemma wm_torn_crash : ccrash byte_sum wm1.1 (wm_write wm1 (Some (mkLogId 1 9))).2 wm_torn.
Proof.
  replace (wm_write wm1 (Some (mkLogId 1 9))).2 with [CWriteAt 0 wm_slot] by (vm_compute; reflexivity).
  apply (ccrash_torn _ _ (default [] (cd_slots wm1.1))); [vm_compute; reflexivity|].
  left. vm_compute. reflexivity.
Qed.

Lemma wm_history :
  committed_run byte_sum wm0 [Saved (Some (mkLogId 1 5)); SaveCrashed (Some (mkLogId 1 9))] wm2.
Proof.
  eapply committed_run_cons; [apply committed_saved, surjective_pairing|].
  eapply committed_run_cons; [|constructor].
  eapply committed_crashed; [apply surjective_pairing|exact wm_torn_crash|apply surjective_pairing].
Qed.

Lemma committed_crash_safe_witness :
  watermarks None [Saved (Some (mkLogId 1 5)); SaveCrashed (Some (mkLogId 1 9))] (cm_committed wm2.2)
  ∧ ∃ st, load_committed byte_sum wm2.1 = (st, []) ∧ cm_committed st = cm_committed wm2.2.
Proof.
  refine (committed_crash_safe byte_sum _ wm2 wm_history _ _).
  - constructor; [|constructor; [|constructor]]; intros i H; injection H as <-;
      (split; split; vm_compute; first [reflexivity|intros X; discriminate X]).
  - vm_compute. reflexivity.
Defined.

#[export] Instance SnapshotMeta_eq_dec : EqDecision SnapshotMeta.
Proof. solve_decision. Defined.

(** A codec that knows two snapshots. *)
Definition snap1 : SnapshotMeta := mkSnapshotMeta "snap-5-1" (Some (mkLogId 1 5)) [3].
Definition snap2 : SnapshotMeta := mkSnapshotMeta "snap-9-2" (Some (mkLogId 1 9)) [3].
Definition demo_encode (m : SnapshotMeta) : string + list Z :=
  if decide (m = snap1) then inr [1] else if decide (m = snap2) then inr [2] else inl "unknown".
Definition demo_decode (bytes : list Z) : string + SnapshotMeta :=
  if decide (bytes = [1]) then inr snap1 else if decide (bytes = [2]) then inr snap2 else inl "unknown".

Lemma demo_codec meta bytes : demo_encode meta = inr bytes → demo_decode bytes = inr meta.
Proof.
  unfold demo_encode. destruct (decide (meta = snap1)) as [->|]; [by intros [= <-]|].
  destruct (decide (meta = snap2)) as [->|]; [by intros [= <-]|done].
Qed.

Definition snap_dir : SnapshotDir :=
  list_to_map [("current", str_bytes "snap-5-1"); ("snap-5-1.meta", [1]); ("snap-5-1.data", [10; 11])].
Definition snap_listing : list string := ["snap-5-1.meta"; "snap-5-1.data"; "current"; "snap-9-2.meta"; "snap-9-2.data"].
Definition snap_ops : list FileOp := write_ops snap_listing "snap-9-2" [2] [20; 21].

Lemma snapshot_paths_confined_witness :
  path_component (meta_path "snap-9-2") ∧ path_component (data_path "snap-9-2")
  ∧ path_component (with_extension (meta_path "snap-9-2") "tmp")
  ∧ path_component (with_extension (data_path "snap-9-2") "tmp")
  ∧ ∀ op, op ∈ snap_ops → match op with
    | FWrite name _ => path_component name
    | FRename from to => path_component from ∧ path_component to
    | FRemove name => name ∈ snap_listing
    end.
Proof.
  refine (snapshot_paths_confined demo_encode snap_listing snap2 [20; 21] snap_ops _).
  vm_compute. reflexivity.
Defined.

Lemma snapshot_crash_safe_witness :
  snapshot_current demo_decode snap_dir = inr (Some (snap1, [10; 11]))
  ∧ snapshot_current demo_decode (run_files snap_dir snap_ops) = inr (Some (snap2, [20; 21]))
  ∧ ∀ d', file_crash snap_dir snap_ops d' →
      snapshot_current demo_decode d' = inr (Some (snap1, [10; 11]))
      ∨ snapshot_current demo_decode d' = inr (Some (snap2, [20; 21])).
Proof.
  refine (snapshot_crash_safe demo_encode demo_decode demo_codec snap_dir (Some (snap1, [10; 11]))
    snap_listing snap2 [20; 21] snap_ops _ _ _).
  - split; [vm_compute; reflexivity|]. split; [vm_compute; reflexivity|]. split; [vm_compute; reflexivity|].
    exists [1]. split; vm_compute; reflexivity.
  - intros m x H. injection H as <- <-. intros H. discriminate H.
  - vm_compute. reflexivity.
Defined.
