(* ===== verification/LogAdapter.v ===== *)
(** * The openraft log adapter
    ([fluree-raft-core/src/log_adapter.rs])

    [LogAdapter] lets openraft drive any [RaftLogStore]: entries are serialized
    into the store's payloads and back, ranges are made half-open, an empty log
    reports its purge marker as its last id.  openraft's entry type and its
    postcard encoding are parameters; an openraft log id is a term and an index,
    as for the state-machine adapter.  The theorems are over the contract of the
    store, so they hold of the file and of the memory backend. *)

From S2P Require Import Prelude Adapter FsFrame RaftLog FsLog FsLogInvariant FsLogAppend.
From S2P Require Import FsLogTheorems.
From S2P Require Import FsLogTheorems.
#[local] Open Scope Z_scope.

(** ** openraft's types *)

Inductive Bound := Included (n : Z) | Excluded (n : Z) | Unbounded.

Record OrVote := mkOrVote { ov_term : Z; ov_voted_for : option Z; ov_committed : bool }.

Record OrLogState := mkOrLogState { os_last_purged : option LogId; os_last_log : option LogId }.

(** ** Conversions *)

Definition to_openraft_vote (v : Vote) : OrVote := mkOrVote (vt_term v) (Some (vt_candidate v)) (vt_committed v).

Definition from_openraft_vote (v : OrVote) : option Vote :=
  match ov_voted_for v with
  | Some candidate => Some (mkVote (ov_term v) candidate (ov_committed v))
  | None => None
  end.

Definition to_openraft_log_state (s : LogState) : OrLogState :=
  mkOrLogState (st_last_purged s)
    match st_last_log s with Some id => Some id | None => st_last_purged s end.

Definition read_log_err (source : string) : StorageIOError := mkIOError SubjLogs VRead source.
Definition write_log_err (source : string) : StorageIOError := mkIOError SubjLogs VWrite source.
Definition vote_err (verb : ErrorVerb) (source : string) : StorageIOError := mkIOError SubjVote verb source.

Definition map_err {A} (f : string → StorageIOError) (r : string + A) : StorageIOError + A :=
  match r with inl e => inl (f e) | inr x => inr x end.

(** [u64::saturating_add]. *)
Definition u64_saturating_add (x y : Z) : Z := Z.min u64_max (x + y).

Definition resolve_range (lo hi : Bound) : Z * Z :=
  let start := match lo with Included n => n | Excluded n => u64_saturating_add n 1 | Unbounded => 0 end in
  let end_ := match hi with Included n => u64_saturating_add n 1 | Excluded n => n | Unbounded => u64_max end in
  (start, end_).

(** ** The adapter *)

Section adapter.
Context {St : Type} `{!RaftLogStore St} `{!RaftHardState St}.
Context {Ent : Type} (en_id : Ent → LogId).
Context (serialize_entry : Ent → string + list Z) (deserialize_entry : list Z → string + Ent).

Fixpoint deserialize_all (raw : list LogEntry) : StorageIOError + list Ent :=
  match raw with
  | [] => inr []
  | raw_entry :: raw =>
      match map_err read_log_err (deserialize_entry (le_payload raw_entry)) with
      | inl e => inl e
      | inr entry =>
          match deserialize_all raw with inl e => inl e | inr entries => inr (entry :: entries) end
      end
  end.

(** [None] where the store's read panics. *)
Definition try_get_log_entries (s : St) (lo hi : Bound) : option (StorageIOError + list Ent) :=
  let '(start, end_) := resolve_range lo hi in
  match ls_read_range s start end_ with
  | None => None
  | Some (inl e) => Some (inl (read_log_err e))
  | Some (inr raw) => Some (deserialize_all raw)
  end.

Definition get_log_state (s : St) : OrLogState := to_openraft_log_state (ls_log_state s).

Fixpoint serialize_all (entries : list Ent) : StorageIOError + list LogEntry :=
  match entries with
  | [] => inr []
  | entry :: entries =>
      match map_err write_log_err (serialize_entry entry) with
      | inl e => inl e
      | inr payload =>
          match serialize_all entries with
          | inl e => inl e
          | inr ours => inr (mkLogEntry (en_id entry) payload :: ours)
          end
      end
  end.

(** The store, the result, and what the flush callback was told, if called. *)
Definition append (s : St) (entries : list Ent)
    : St * (StorageIOError + unit) * option (string + unit) :=
  match serialize_all entries with
  | inl e => (s, inl e, None)
  | inr ours =>
      match ls_append s ours with
      | (s', inr _) => (s', inr (), Some (inr ()))
      | (s', inl e) => (s', inl (write_log_err e), Some (inl e))
      end
  end.

Definition truncate (s : St) (log_id : LogId) : St * (StorageIOError + unit) :=
  let '(s', r) := ls_truncate_from s (li_index log_id) in (s', map_err write_log_err r).

Definition purge (s : St) (log_id : LogId) : St * (StorageIOError + unit) :=
  let '(s', r) := ls_purge_through s log_id in (s', map_err write_log_err r).

Definition save_vote (s : St) (vote : OrVote) : St * (StorageIOError + unit) :=
  match from_openraft_vote vote with
  | None => (s, inl (vote_err VWrite "openraft attempted to save a vote with no voted_for"))
  | Some ours => let '(s', r) := hs_save_vote s ours in (s', map_err (vote_err VWrite) r)
  end.

Definition read_vote (s : St) : StorageIOError + option OrVote :=
  match map_err (vote_err VRead) (hs_read_vote s) with
  | inl e => inl e
  | inr ours => inr (to_openraft_vote <$> ours)
  end.

Definition save_committed (s : St) (committed : option LogId) : St * (StorageIOError + unit) :=
  let '(s', r) := hs_save_committed s committed in (s', map_err write_log_err r).

Definition read_committed (s : St) : StorageIOError + option LogId :=
  map_err read_log_err (hs_read_committed s).

(** ** Ranges *)

Definition in_bounds (lo hi : Bound) (i : Z) : Prop :=
  match lo with Included n => n <= i | Excluded n => n < i | Unbounded => True end
  ∧ match hi with Included n => i <= n | Excluded n => i < n | Unbounded => True end.

#[local] Instance in_bounds_dec lo hi i : Decision (in_bounds lo hi i).
Proof. unfold in_bounds. destruct lo, hi; apply _. Defined.

Definition bound_fits (b : Bound) : Prop :=
  match b with Included n | Excluded n => 0 <= n <= u64_max | Unbounded => True end.

(** The half-open range picks the same indexes, the largest [u64] aside. *)
Lemma resolve_range_in lo hi i :
  bound_fits lo → bound_fits hi → 0 <= i < u64_max →
  (resolve_range lo hi).1 <= i < (resolve_range lo hi).2 ↔ in_bounds lo hi i.
Proof.
  unfold resolve_range, in_bounds, bound_fits, u64_saturating_add. cbn [fst snd].
  intros Hlo Hhi Hi. destruct lo, hi; lia.
Qed.

(** ** Entries *)

(** A stored entry and the openraft entry it came from. *)
Definition stores (e : Ent) (le : LogEntry) : Prop :=
  le_log_id le = en_id e ∧ serialize_entry e = inr (le_payload le).

Definition adapter_holds (s : St) (purged : option LogId) (entries : list Ent) : Prop :=
  ∃ L, ls_holds s L ∧ lg_purged L = purged ∧ Forall2 stores entries (lg_entries L).

Lemma serialize_all_stores entries ours :
  serialize_all entries = inr ours → Forall2 stores entries ours.
Proof.
  revert ours. induction entries as [|e entries IH]; intros ours; cbn; [by intros [= <-]|].
  destruct (serialize_entry e) as [|payload] eqn:He; [done|]. cbn.
  destruct (serialize_all entries) as [|ours']; [done|]. intros [= <-]. constructor; [done|auto].
Qed.

Lemma serialize_all_ok entries :
  Forall (λ e, ∃ payload, serialize_entry e = inr payload) entries →
  ∃ ours, serialize_all entries = inr ours.
Proof.
  induction 1 as [|e entries [payload He] _ [ours IH]]; cbn; [eauto|]. rewrite He, IH. eauto.
Qed.

Context (codec : ∀ e bytes, serialize_entry e = inr bytes → deserialize_entry bytes = inr e).

Lemma deserialize_all_stores entries ours :
  Forall2 stores entries ours → deserialize_all ours = inr entries.
Proof using codec.
  induction 1 as [|e le entries ours [_ He] _ IH]; [done|]. cbn.
  by rewrite (codec _ _ He), IH.
Qed.

Lemma stores_index e le : stores e le → le_index le = li_index (en_id e).
Proof. intros [H _]. unfold le_index. by rewrite H. Qed.

Lemma Forall2_filter_stores (P : Ent → Prop) (Q : LogEntry → Prop)
    `{!∀ e, Decision (P e), !∀ le, Decision (Q le)} entries ours :
  Forall2 stores entries ours → (∀ e le, e ∈ entries → stores e le → P e ↔ Q le) →
  Forall2 stores (filter P entries) (filter Q ours).
Proof.
  induction 1 as [|e le entries ours Hs _ IH]; intros Hpq; [constructor|].
  assert (P e ↔ Q le) as Hiff by (apply Hpq; [by left|done]).
  assert (Forall2 stores (filter P entries) (filter Q ours)) as Hrest
    by (apply IH; intros e' le' He'; apply Hpq; by right).
  destruct (decide (P e)).
  - rewrite !filter_cons_True by tauto. by constructor.
  - rewrite !filter_cons_False by tauto. done.
Qed.

Lemma Forall2_stores_last entries ours :
  Forall2 stores entries ours → le_log_id <$> last ours = en_id <$> last entries.
Proof.
  induction 1 as [|e le entries ours [He _] _ IH]; [done|]. rewrite !last_cons.
  destruct (last ours), (last entries); cbn in *; congruence.
Qed.

(** ** Calls *)

Inductive OrCall :=
  | OrAppend (entries : list Ent)
  | OrTruncate (log_id : LogId)
  | OrPurge (log_id : LogId)
  | OrGet (lo hi : Bound)
  | OrState.

Inductive OrAnswer :=
  | OrDone (r : StorageIOError + unit) (flushed : option (string + unit))
  | OrEntries (r : option (StorageIOError + list Ent))
  | OrLogs (st : OrLogState).

Definition or_call (s : St) (c : OrCall) : St * OrAnswer :=
  match c with
  | OrAppend entries => let '(s', r, cb) := append s entries in (s', OrDone r cb)
  | OrTruncate id => let '(s', r) := truncate s id in (s', OrDone r None)
  | OrPurge id => let '(s', r) := purge s id in (s', OrDone r None)
  | OrGet lo hi => (s, OrEntries (try_get_log_entries s lo hi))
  | OrState => (s, OrLogs (get_log_state s))
  end.

(** The log as openraft sees it: its purge marker and its entries. *)
Definition or_index (e : Ent) : Z := li_index (en_id e).

Definition or_spec (purged : option LogId) (entries : list Ent) (c : OrCall)
    : option LogId * list Ent * OrAnswer :=
  match c with
  | OrAppend more => (purged, entries ++ more, OrDone (inr ()) (Some (inr ())))
  | OrTruncate id => (purged, filter (λ e, or_index e < li_index id) entries, OrDone (inr ()) None)
  | OrPurge id =>
      (match purged with
       | Some p => if li_index id <=? li_index p then Some p else Some id
       | None => Some id
       end, filter (λ e, li_index id < or_index e) entries, OrDone (inr ()) None)
  | OrGet lo hi =>
      (purged, entries, OrEntries (Some (inr (filter (λ e, in_bounds lo hi (or_index e)) entries))))
  | OrState =>
      (purged, entries,
       OrLogs (mkOrLogState purged (match en_id <$> last entries with Some id => Some id | None => purged end)))
  end.

(** What openraft guarantees of its calls. *)
Definition or_ok (purged : option LogId) (entries : list Ent) (c : OrCall) : Prop :=
  match c with
  | OrAppend more =>
      ∃ ours, serialize_all more = inr ours ∧ Forall entry_fits ours
        ∧ ∃ first, contiguous first ours ∧ first + Z.of_nat (length ours) < two64
            ∧ match last entries with
              | Some e => first = or_index e + 1
              | None => match purged with Some p => first = li_index p + 1 | None => True end
              end
  | OrTruncate id => live purged (li_index id) = true
  | OrPurge id => purge_ok id
  | OrGet lo hi =>
      bound_fits lo ∧ bound_fits hi ∧ (resolve_range lo hi).1 <= (resolve_range lo hi).2
      ∧ Forall (λ e, 0 <= or_index e < u64_max) entries
  | OrState => True
  end.

Lemma adapter_append_ok L purged entries more ours :
  lg_purged L = purged → Forall2 stores entries (lg_entries L) → serialize_all more = inr ours →
  or_ok purged entries (OrAppend more) → append_ok L ours.
Proof.
  intros Hp Hs Hser (ours' & Hser' & Hfit & first & Hc & Hb & Hn).
  assert (ours' = ours) as -> by congruence. split; [done|]. exists first. split; [done|].
  split; [done|]. intros n. unfold next_index. pose proof (Forall2_stores_last _ _ Hs) as Hl.
  rewrite Hp. destruct (last (lg_entries L)) as [le|], (last entries) as [e|]; cbn in Hl; try done.
  - intros [= <-]. injection Hl as Hl. unfold le_index. by rewrite Hl.
  - destruct purged as [p|]; [|done]. by intros [= <-].
Qed.

Lemma or_call_refines s purged entries c :
  adapter_holds s purged entries → or_ok purged entries c →
  let '(purged', entries', a) := or_spec purged entries c in
  ∃ s', or_call s c = (s', a) ∧ adapter_holds s' purged' entries'.
Proof using codec.
  intros (L & Hh & Hp & Hs) Hok. destruct c as [more|id|id|lo hi|]; cbn [or_spec or_call].
  - pose proof Hok as (ours & Hser & _). pose proof (adapter_append_ok _ _ _ _ _ Hp Hs Hser Hok) as Ha.
    destruct (ls_append_ok s L ours Hh Ha) as (s' & Happ & Hh'). exists s'. unfold append.
    rewrite Hser, Happ. split; [done|]. eexists. split; [done|]. split; [done|].
    apply Forall2_app; [done|by apply serialize_all_stores].
  - destruct (ls_truncate_ok s L (li_index id) Hh) as (s' & Ht & Hh'); [unfold truncate_ok; by rewrite Hp|].
    exists s'. unfold truncate. rewrite Ht. split; [done|]. eexists. split; [done|]. split; [done|].
    apply Forall2_filter_stores; [done|]. intros e le _ Hst. by rewrite (stores_index _ _ Hst).
  - destruct (ls_purge_ok s L id Hh Hok) as (s' & Ht & Hh').
    exists s'. unfold purge. rewrite Ht. split; [done|]. eexists. split; [done|]. split; [by cbn; rewrite Hp|].
    apply Forall2_filter_stores; [done|]. intros e le _ Hst. by rewrite (stores_index _ _ Hst).
  - destruct Hok as (Hlo & Hhi & Hle & Hfit). exists s. split; [|by exists L]. unfold try_get_log_entries.
    destruct (resolve_range lo hi) as [start end_] eqn:Hr. rewrite (ls_read_ok s L) by done. do 3 f_equal.
    apply deserialize_all_stores. apply Forall2_filter_stores; [done|]. intros e le He Hst.
    rewrite Forall_forall in Hfit. rewrite (stores_index _ _ Hst).
    pose proof (resolve_range_in lo hi (or_index e) Hlo Hhi (Hfit e He)) as Hin. rewrite Hr in Hin. by symmetry.
  - exists s. split; [|by exists L]. unfold get_log_state. rewrite (ls_log_state_ok s L Hh).
    unfold to_openraft_log_state, spec_log_state. cbn. rewrite Hp, (Forall2_stores_last _ _ Hs).
    by destruct (en_id <$> last entries).
Qed.

(** ** Histories *)

Fixpoint or_calls (s : St) (cs : list OrCall) : St * list OrAnswer :=
  match cs with
  | [] => (s, [])
  | c :: cs =>
      let '(s', a) := or_call s c in
      let '(s'', answers) := or_calls s' cs in (s'', a :: answers)
  end.

Fixpoint or_specs (purged : option LogId) (entries : list Ent) (cs : list OrCall) : list OrAnswer :=
  match cs with
  | [] => []
  | c :: cs => let '(purged', entries', a) := or_spec purged entries c in a :: or_specs purged' entries' cs
  end.

Fixpoint or_all_ok (purged : option LogId) (entries : list Ent) (cs : list OrCall) : Prop :=
  match cs with
  | [] => True
  | c :: cs =>
      or_ok purged entries c
      ∧ let '(purged', entries', _) := or_spec purged entries c in or_all_ok purged' entries' cs
  end.

Lemma or_calls_refine cs : ∀ s purged entries,
  adapter_holds s purged entries → or_all_ok purged entries cs →
  (or_calls s cs).2 = or_specs purged entries cs.
Proof using codec.
  induction cs as [|c cs IH]; intros s purged entries Hh Hok; [done|]. destruct Hok as [Hc Hcs].
  pose proof (or_call_refines s purged entries c Hh Hc) as Hr. cbn [or_calls or_specs].
  destruct (or_spec purged entries c) as [[purged' entries'] a]. destruct Hr as (s' & -> & Hh').
  specialize (IH s' _ _ Hh' Hcs). destruct (or_calls s' cs) as [s'' answers]. cbn in *. by rewrite IH.
Qed.
End adapter.

(** * What openraft gets from the log adapter

    Over any store that keeps the contract, the adapter behaves as the log of
    openraft entries; over the file store, an entry openraft was told is flushed
    can be read back whatever crashes follow. *)

(** Over any store that keeps the [RaftLogStore] contract and holds no
    entries, openraft's calls (append, truncate, purge, ranges with any bounds,
    log state) answer as the log of its entries does: what was appended comes
    back whole and in order, every write is acknowledged and its flush callback
    told, and an empty log reports its purge marker as its last id. *)
Theorem log_adapter_refines {St} `{!RaftLogStore St} {Ent} (en_id : Ent → LogId)
    serialize deserialize
    (codec : ∀ e bytes, serialize e = inr bytes → deserialize bytes = inr e) s purged cs :
  ls_holds s (mkLog purged []) → or_all_ok en_id serialize purged [] cs →
  (or_calls en_id serialize deserialize s cs).2 = or_specs en_id purged [] cs.
Proof.
  intros Hs Hok. eapply or_calls_refine; [exact codec| |exact Hok].
  exists (mkLog purged []). split; [done|]. split; [done|constructor].
Qed.

(** ** Votes and the watermark *)

(** Through the adapter, over any store that keeps the [RaftHardState]
    contract, a saved vote and a saved watermark are read back; a vote without
    a candidate is refused with a write error and changes nothing. *)
Theorem log_adapter_hard_state {St} `{!RaftHardState St} (s : St) v c n vote committed :
  hs_holds s v c (S n) → (∀ i, committed = Some i → log_id_fits i) →
  match ov_voted_for vote with
  | None => ∃ e, save_vote s vote = (s, inl e) ∧ err_subject e = SubjVote ∧ err_verb e = VWrite
  | Some candidate =>
      0 <= ov_term vote < two64 → 0 <= candidate < two64 →
      ∃ s1 s2, save_vote s vote = (s1, inr ()) ∧ save_committed s1 committed = (s2, inr ())
        ∧ read_vote s2 = inr (Some vote) ∧ read_committed s2 = inr committed
  end.
Proof.
  intros Hh Hc. unfold save_vote, from_openraft_vote. destruct (ov_voted_for vote) as [candidate|] eqn:Hv.
  - intros Ht Hcand. set (ours := mkVote (ov_term vote) candidate (ov_committed vote)).
    destruct (hs_save_vote_ok s v c (S n) ours Hh (conj Ht Hcand)) as (s1 & -> & Hh1).
    destruct (hs_save_committed_ok s1 _ _ n committed Hh1 Hc) as (s2 & Hsc & Hh2).
    exists s1, s2. unfold save_committed. rewrite Hsc. split; [done|]. split; [done|].
    destruct (hs_read_ok s2 _ _ _ Hh2) as [Hrv Hrc]. unfold read_vote, read_committed. rewrite Hrv, Hrc.
    split; [|done]. cbn. unfold to_openraft_vote. cbn. destruct vote; cbn in *. by rewrite Hv.
  - eexists. done.
Qed.

(** ** Crashes *)

Lemma spec_read_one L e :
  log_wf L → e ∈ lg_entries L → spec_read L (le_index e) (le_index e + 1) = [e].
Proof.
  intros [[f Hc] _]. unfold spec_read. revert f Hc. generalize (lg_entries L) as es.
  induction es as [|x es IH]; intros f Hc He; [by apply not_elem_of_nil in He|].
  destruct Hc as [Hx Hc]. apply elem_of_cons in He as [->|He].
  - rewrite filter_cons_True by lia. f_equal. apply list_filter_none. rewrite Forall_forall.
    intros y Hy. pose proof (contiguous_range _ _ _ Hc Hy). lia.
  - pose proof (contiguous_range _ _ _ Hc He). rewrite filter_cons_False by lia. by eapply IH.
Qed.

(** C7: the node's durability, end to end.  An entry appended through the
    adapter to a file store, acknowledged to openraft, is what the adapter reads
    at its index after any later history of calls and crashes, as long as none
    of them truncates or purges that index, and no crash, before or after,
    interrupts a purge past the last entry of the log. *)
Theorem acknowledged_entry_survives {Ent} (en_id : Ent → LogId) serialize deserialize
    (codec : ∀ e bytes, serialize e = inr bytes → deserialize bytes = inr e)
    xxh64 segment_bytes (Hbytes : (SEGMENT_HEADER < segment_bytes)%nat) st evs s entries s' evs' s'' e
    (store := fs_log_store xxh64 segment_bytes Hbytes) :
  fs_open xxh64 empty_device = (empty_device, inr st) →
  fs_run xxh64 segment_bytes Hbytes (empty_device, st) evs s →
  (∀ ours, serialize_all en_id serialize entries = inr ours → append_ok (contents xxh64 s) ours) →
  append en_id serialize s entries = (s', inr (), Some (inr ())) →
  fs_run xxh64 segment_bytes Hbytes s' evs' s'' →
  Forall (λ ev, spares (li_index (en_id e)) (event_call ev)) evs' →
  e ∈ entries → li_index (en_id e) + 1 < two64 →
  try_get_log_entries deserialize s'' (Included (li_index (en_id e))) (Included (li_index (en_id e)))
  = Some (inr [e]).
Proof.
  intros Ho Hrun Hok Happ Hrun' Hsp He Hi.
  destruct (fs_run_fresh _ _ _ _ _ _ Ho Hrun) as (L & _ & Hh).
  rewrite (holds_contents _ _ _ Hh) in Hok. unfold append in Happ.
  destruct (serialize_all en_id serialize entries) as [|ours] eqn:Hser; [done|].
  destruct (@ls_append_ok _ store s L ours Hh (Hok _ eq_refl)) as (s1 & Hs1 & Hh1).
  rewrite Hs1 in Happ. simplify_eq.
  destruct (fs_run_refines _ _ _ _ _ _ _ Hh1 Hrun') as (L2 & Hl & Hh2).
  pose proof (serialize_all_stores _ _ _ _ Hser) as Hst.
  apply list_elem_of_lookup in He as [k Hk]. destruct (Forall2_lookup_l _ _ _ _ _ Hst Hk) as (le & Hle & Hs).
  assert (le_index le = li_index (en_id e)) as Hidx by (by eapply stores_index).
  rewrite <- Hidx in Hsp, Hi |- *.
  assert (le ∈ lg_entries L2) as Hin.
  { eapply log_run_spares; [exact Hl|exact Hsp|]. apply elem_of_app. right. by eapply list_elem_of_lookup_2. }
  unfold try_get_log_entries, resolve_range, u64_saturating_add. rewrite Z.min_r by (unfold u64_max; lia).
  cbn [ls_read_range store fs_log_store]. unfold fs_read_range.
  rewrite (holds_read _ _ _ _ _ _ Hh2) by lia. rewrite (spec_read_one L2 le) by (by eapply holds_wf || done).
  cbn. destruct Hs as [_ Hs]. by rewrite (codec _ _ Hs).
Qed.

(** ** Concrete instances *)

(** Entries that are their own encoding: a term, an index and a byte. *)
Definition demo_entry_id (e : Z * Z * Z) : LogId := mkLogId e.1.1 e.1.2.
Definition demo_serialize (e : Z * Z * Z) : string + list Z := inr [e.1.1; e.1.2; e.2].
Definition demo_deserialize (bytes : list Z) : string + Z * Z * Z :=
  match bytes with [t; i; b] => inr (t, i, b) | _ => inl "bad entry" end.

Lemma demo_entry_codec e bytes : demo_serialize e = inr bytes → demo_deserialize bytes = inr e.
Proof. destruct e as [[t i] b]. by intros [= <-]. Qed.

Definition demo_or_calls : list (@OrCall (Z * Z * Z)) :=
  [OrAppend [(1, 1, 10); (1, 2, 20)]; OrTruncate (mkLogId 1 2); OrAppend [(2, 2, 30); (2, 3, 40)];
   OrGet (Excluded 1) Unbounded; OrPurge (mkLogId 2 3); OrState].

Definition demo_stored (e : Z * Z * Z) : LogEntry := mkLogEntry (demo_entry_id e) [e.1.1; e.1.2; e.2].

Lemma demo_fits t i b : 0 <= t < 100 → 0 <= i < 100 → entry_fits (demo_stored (t, i, b)).
Proof. unfold entry_fits, le_index, le_term, two64, u32_max. cbn. lia. Qed.

Lemma demo_serialize_all entries :
  serialize_all demo_entry_id demo_serialize entries = inr (demo_stored <$> entries).
Proof. induction entries as [|e entries IH]; [done|]. cbn. by rewrite IH. Qed.

Lemma demo_or_append purged entries more first :
  Forall (λ e, entry_fits (demo_stored e)) more → contiguous first (demo_stored <$> more) →
  first + Z.of_nat (length more) < two64 →
  match last entries with
  | Some e => first = or_index demo_entry_id e + 1
  | None => match purged with Some p => first = li_index p + 1 | None => True end
  end → or_ok demo_entry_id demo_serialize purged entries (OrAppend more).
Proof.
  intros Hf Hc Hb Hn. exists (demo_stored <$> more). split; [apply demo_serialize_all|].
  split; [by apply Forall_fmap|]. exists first. rewrite length_fmap. done.
Qed.

Lemma demo_or_ok : or_all_ok demo_entry_id demo_serialize None [] demo_or_calls.
Proof.
  split; [apply (demo_or_append _ _ _ 1); [|done..]; repeat constructor; by apply demo_fits|].
  split; [done|].
  split; [apply (demo_or_append _ _ _ 2); [|done..]; repeat constructor; by apply demo_fits|].
  split; [|done]. split; [unfold bound_fits, u64_max, two64; lia|]. split; [done|]. split; [done|].
  repeat constructor; cbn; unfold u64_max, two64; lia.
Qed.

Lemma log_adapter_refines_witness :
  (or_calls demo_entry_id demo_serialize demo_deserialize memory_empty demo_or_calls).2
  = or_specs demo_entry_id None [] demo_or_calls.
Proof.
  exact (log_adapter_refines demo_entry_id demo_serialize demo_deserialize demo_entry_codec
    memory_empty None demo_or_calls memory_empty_holds demo_or_ok).
Defined.

Lemma log_adapter_hard_state_witness :
  ∃ s1 s2, save_vote memory_empty (mkOrVote 3 (Some 2) true) = (s1, inr ())
    ∧ save_committed s1 (Some (mkLogId 3 7)) = (s2, inr ())
    ∧ read_vote s2 = inr (Some (mkOrVote 3 (Some 2) true)) ∧ read_committed s2 = inr (Some (mkLogId 3 7)).
Proof.
  refine (log_adapter_hard_state memory_empty None None 0 (mkOrVote 3 (Some 2) true) (Some (mkLogId 3 7)) _ _ _ _).
  - split; reflexivity.
  - intros i H. injection H as <-. split; split; vm_compute; first [reflexivity|intros X; discriminate X].
  - split; vm_compute; first [reflexivity|intros X; discriminate X].
  - split; vm_compute; first [reflexivity|intros X; discriminate X].
Defined.

(** Entry 4 appended to the store the torn append left, then a truncation
    above it cut short by a crash. *)
Definition demo_more : list (Z * Z * Z) := [(2, 4, 9)].
Definition demo3 : FsRaftLogStore := (fs_append byte_sum 100 demo2 (demo_stored <$> demo_more)).1.

Lemma demo3_contents :
  contents byte_sum demo3 = mkLog None [entry 1 1; entry 1 2; entry 1 3; demo_stored (2, 4, 9)].
Proof. vm_compute. reflexivity. Qed.

Lemma demo3_later : fs_run byte_sum 100 demo_bytes demo3 [Crashed (TruncateFrom 5); Completed GetLogState] demo3.
Proof.
  eapply (fs_run_cons _ _ _ _ _ demo3); [|eapply (fs_run_cons _ _ _ _ _ demo3); [|constructor]].
  - eapply (fs_crashed _ _ _ _ _ demo3.1).
    + rewrite demo3_contents. split; reflexivity || exact I.
    + apply crash_here.
    + replace demo3 with (run_ops demo3.1 (open byte_sum demo3.1).1, demo3.2) by (vm_compute; reflexivity).
      apply reopens_ok. vm_compute. reflexivity.
  - eapply fs_completed; [exact I|]. reflexivity.
Qed.

Lemma acknowledged_entry_survives_witness :
  @try_get_log_entries _ (fs_log_store byte_sum 100 demo_bytes) _ demo_deserialize demo3
    (Included 4) (Included 4) = Some (inr [(2, 4, 9)]).
Proof.
  refine (acknowledged_entry_survives demo_entry_id demo_serialize demo_deserialize demo_entry_codec
    byte_sum 100 demo_bytes demo0.2 demo_events demo2 demo_more demo3 _ demo3 (2, 4, 9)
    demo_open demo_history _ _ demo3_later _ _ _).
  - intros ours. rewrite demo_serialize_all. intros H. injection H as <-. rewrite demo2_contents.
    apply (demo_append_ok _ _ 4); [repeat constructor; by apply demo_fits|done..].
  - vm_compute. reflexivity.
  - constructor; [reflexivity|]. constructor; [exact I|constructor].
  - left.
  - reflexivity.
Defined.
