(* ===== verification/BoltPack.v ===== *)
(** * The PackStream value model ([fluree-db-bolt/src/value.rs], [lib.rs])

    Values of the Bolt protocol, the insertion-ordered map they use, and the
    decoding errors of the crate.  A float is its 64-bit pattern: the codec
    never computes with it. *)

From S2P Require Import Prelude Text.
(** [Value], with [MapValue] (a [Vec] of pairs) and [Structure] inlined. *)
#[local] Unset Elimination Schemes.
Inductive Value :=
| VNull
| VBoolean (b : bool)
| VInteger (i : Z)
| VFloat (bits : Z)
| VBytes (bs : list Z)
| VString (s : string)
| VList (items : list Value)
| VMap (entries : list (string * Value))
| VStructure (signature : Z) (fields : list Value).
#[local] Set Elimination Schemes.

Abbreviation MapValue := (list (string * Value)).

(** ** [MapValue] *)

(** Insert or replace a key: the first entry with the key keeps its place. *)
Fixpoint map_insert {V} (m : list (string * V)) (key : string) (value : V) : list (string * V) :=
  match m with
  | [] => [(key, value)]
  | (k, v) :: m => if decide (k = key) then (k, value) :: m else (k, v) :: map_insert m key value
  end.

Fixpoint map_get {V} (m : list (string * V)) (key : string) : option V :=
  match m with
  | [] => None
  | (k, v) :: m => if decide (k = key) then Some v else map_get m key
  end.

Definition get_str (m : MapValue) (key : string) : option string :=
  match map_get m key with Some (VString s) => Some s | _ => None end.

Definition get_int (m : MapValue) (key : string) : option Z :=
  match map_get m key with Some (VInteger i) => Some i | _ => None end.

Definition as_map (v : Value) : option MapValue :=
  match v with VMap m => Some m | _ => None end.

Definition as_str (v : Value) : option string :=
  match v with VString s => Some s | _ => None end.

(** [DecodeError]: one constructor per message of the crate, with the values
    the message prints. *)
Inductive DecodeError :=
| NestingTooDeep
| UnexpectedEnd
| UnknownMarker (m : Z)
| LengthExceedsLimit (len : Z)
| InvalidUtf8
| MapKeyNotString (other : Value)
| TrailingBytes (n : nat)
| MessageTooLarge
| TrailingAfterMessage
| NotAStructure
| Expected (what type : string) (other : option Value)
| UnknownSignature (signature : Z).

(** ** Laws of the map *)

Lemma map_get_insert {V} (m : list (string * V)) k v : map_get (map_insert m k v) k = Some v.
Proof.
  induction m as [|[k' v'] m IH]; simpl; [by rewrite decide_True|].
  destruct (decide (k' = k)) as [->|]; simpl; [by rewrite decide_True|by rewrite decide_False].
Qed.

Lemma map_get_insert_ne {V} (m : list (string * V)) k k' v : k' ≠ k → map_get (map_insert m k' v) k = map_get m k.
Proof.
  intros Hk. induction m as [|[j w] m IH]; simpl; [by rewrite decide_False|].
  destruct (decide (j = k')) as [->|]; simpl; [by rewrite !decide_False|by rewrite IH].
Qed.

(** Inserting keeps the keys distinct and in first-insertion order. *)
Lemma map_insert_keys {V} (m : list (string * V)) k v :
  (map_insert m k v).*1 = if decide (k ∈ m.*1) then m.*1 else m.*1 ++ [k].
Proof.
  induction m as [|[j w] m IH]; csimpl; [done|].
  destruct (decide (j = k)) as [->|Hj]; csimpl.
  - rewrite decide_True; [done|left].
  - rewrite IH. destruct (decide (k ∈ m.*1)).
    + rewrite decide_True; [done|by right].
    + rewrite decide_False; [done|]. rewrite elem_of_cons. naive_solver.
Qed.

Lemma map_insert_NoDup {V} (m : list (string * V)) k v : NoDup m.*1 → NoDup (map_insert m k v).*1.
Proof.
  intros Hm. rewrite map_insert_keys. destruct (decide _); [done|].
  apply NoDup_app. split; [done|]. split; [set_solver|apply NoDup_singleton].
Qed.

#[export] Hint Resolve map_insert_NoDup : fluree.

(** * PackStream encoding and decoding ([fluree-db-bolt/src/packstream.rs])

    [encode] gives the bytes the source appends to its output buffer.  A
    [Decoder] is the part of its buffer that is not consumed, [buf[pos..]], and
    its methods are functions in the error monad [Decode] that return the rest.
    The source counts the nesting depth upwards and refuses depths above
    [MAX_DECODE_DEPTH]; [decode_levels] counts the levels that are left, which
    is also its structural measure. *)

Definition NULL : Z := 0xC0.
Definition FLOAT64 : Z := 0xC1.
Definition FALSE : Z := 0xC2.
Definition TRUE : Z := 0xC3.
Definition INT8 : Z := 0xC8.
Definition INT16 : Z := 0xC9.
Definition INT32 : Z := 0xCA.
Definition INT64 : Z := 0xCB.
Definition BYTES8 : Z := 0xCC.
Definition BYTES16 : Z := 0xCD.
Definition BYTES32 : Z := 0xCE.
Definition TINY_STRING : Z := 0x80.
Definition STRING8 : Z := 0xD0.
Definition STRING16 : Z := 0xD1.
Definition STRING32 : Z := 0xD2.
Definition TINY_LIST : Z := 0x90.
Definition LIST8 : Z := 0xD4.
Definition LIST16 : Z := 0xD5.
Definition LIST32 : Z := 0xD6.
Definition TINY_MAP : Z := 0xA0.
Definition MAP8 : Z := 0xD8.
Definition MAP16 : Z := 0xD9.
Definition MAP32 : Z := 0xDA.
Definition TINY_STRUCT : Z := 0xB0.

Definition MAX_DECODE_LEN : Z := 64 * 1024 * 1024.
Definition MAX_DECODE_DEPTH : nat := 128.

(** ** Encoding *)

Definition zlength {A} (l : list A) : Z := Z.of_nat (length l).

Definition encode_int (i : Z) : list Z :=
  if in_range (-16) 127 i then [Z.land i 0xFF]
  else if in_range (-128) 127 i then [INT8; Z.land i 0xFF]
  else if in_range (-32768) 32767 i then INT16 :: be_bytes 2 i
  else if in_range (-2147483648) 2147483647 i then INT32 :: be_bytes 4 i
  else INT64 :: be_bytes 8 i.

Definition encode_collection_header (tiny m8 m16 m32 len : Z) : list Z :=
  if len <=? 15 then [Z.lor tiny len]
  else if len <=? 0xFF then [m8; len]
  else if len <=? 0xFFFF then m16 :: be_bytes 2 len
  else m32 :: be_bytes 4 len.

Definition encode_str (s : string) : list Z :=
  let bytes := str_bytes s in
  encode_collection_header TINY_STRING STRING8 STRING16 STRING32 (zlength bytes) ++ bytes.

(** The [Value::Bytes] arm: there is no tiny form. *)
Definition encode_bytes (b : list Z) : list Z :=
  let n := zlength b in
  (if n <=? 0xFF then [BYTES8; n]
   else if n <=? 0xFFFF then BYTES16 :: be_bytes 2 n
   else BYTES32 :: be_bytes 4 n) ++ b.

Fixpoint encode (value : Value) : list Z :=
  match value with
  | VNull => [NULL]
  | VBoolean true => [TRUE]
  | VBoolean false => [FALSE]
  | VInteger i => encode_int i
  | VFloat bits => FLOAT64 :: be_bytes 8 bits
  | VBytes b => encode_bytes b
  | VString s => encode_str s
  | VList items =>
      encode_collection_header TINY_LIST LIST8 LIST16 LIST32 (zlength items)
      ++ flat_map encode items
  | VMap entries =>
      encode_collection_header TINY_MAP MAP8 MAP16 MAP32 (zlength entries)
      ++ flat_map (λ kv, encode_str kv.1 ++ encode kv.2) entries
  | VStructure signature fields =>
      Z.lor TINY_STRUCT (Z.land (zlength fields) 0x0F) :: signature :: flat_map encode fields
  end.

(** ** The decoder monad *)

Definition Decode (A : Type) : Type := list Z → DecodeError + (A * list Z).

Definition dec_fail {A} (e : DecodeError) : Decode A := λ _, inl e.
#[export] Instance decode_ret : MRet Decode := λ A x buf, inr (x, buf).
#[export] Instance decode_bind : MBind Decode :=
  λ A B k m buf, match m buf with inl e => inl e | inr (x, rest) => k x rest end.

Definition take_u8 : Decode Z := λ buf,
  match buf with [] => inl UnexpectedEnd | b :: rest => inr (b, rest) end.

Definition take_n (n : nat) : Decode (list Z) := λ buf,
  if (length buf <? n)%nat then inl UnexpectedEnd else inr (take n buf, drop n buf).

(** A big-endian length of 1, 2 or 4 bytes. *)
Definition take_len (size_exp : Z) : Decode nat :=
  len ← (if size_exp =? 0 then take_u8
         else if size_exp =? 1 then b ← take_n 2; mret (from_be b)
         else b ← take_n 4; mret (from_be b));
  if MAX_DECODE_LEN <? len then dec_fail (LengthExceedsLimit len) else mret (Z.to_nat len).

(** [for _ in 0..n]. *)
Fixpoint times {A} (n : nat) (p : Decode A) : Decode (list A) :=
  match n with
  | O => mret []
  | S n => x ← p; xs ← times n p; mret (x :: xs)
  end.

(** ** Decoding *)

Definition decode_string (len : nat) : Decode Value :=
  bytes ← take_n len;
  match from_utf8 bytes with Some s => mret (VString s) | None => dec_fail InvalidUtf8 end.

Definition decode_bytes (len : nat) : Decode Value := b ← take_n len; mret (VBytes b).

Section nested.
(** [decode_at_depth(depth + 1)]. *)
Context (rec : Decode Value).

Definition decode_list (len : nat) : Decode Value := items ← times len rec; mret (VList items).

Definition decode_entry : Decode (string * Value) :=
  key ← rec;
  match key with
  | VString s => value ← rec; mret (s, value)
  | other => dec_fail (MapKeyNotString other)
  end.

Definition decode_map (len : nat) : Decode Value :=
  entries ← times len decode_entry; mret (VMap entries).

Definition decode_struct (n_fields : nat) : Decode Value :=
  signature ← take_u8;
  fields ← times n_fields rec;
  mret (VStructure signature fields).

(** The arms of [decode_at_depth], in their order. *)
Definition decode_marker (m : Z) : Decode Value :=
  let low := Z.to_nat (Z.land m 0x0F) in
  if in_range 0x00 0x7F m then mret (VInteger m)
  else if in_range 0xF0 0xFF m then mret (VInteger (to_signed 8 m))
  else if m =? NULL then mret VNull
  else if m =? TRUE then mret (VBoolean true)
  else if m =? FALSE then mret (VBoolean false)
  else if m =? FLOAT64 then b ← take_n 8; mret (VFloat (from_be b))
  else if m =? INT8 then b ← take_u8; mret (VInteger (to_signed 8 b))
  else if m =? INT16 then b ← take_n 2; mret (VInteger (to_signed 16 (from_be b)))
  else if m =? INT32 then b ← take_n 4; mret (VInteger (to_signed 32 (from_be b)))
  else if m =? INT64 then b ← take_n 8; mret (VInteger (to_signed 64 (from_be b)))
  else if in_range BYTES8 BYTES32 m then len ← take_len (m - BYTES8); decode_bytes len
  else if Z.land m 0xF0 =? TINY_STRING then decode_string low
  else if in_range STRING8 STRING32 m then len ← take_len (m - STRING8); decode_string len
  else if Z.land m 0xF0 =? TINY_LIST then decode_list low
  else if in_range LIST8 LIST32 m then len ← take_len (m - LIST8); decode_list len
  else if Z.land m 0xF0 =? TINY_MAP then decode_map low
  else if in_range MAP8 MAP32 m then len ← take_len (m - MAP8); decode_map len
  else if Z.land m 0xF0 =? TINY_STRUCT then decode_struct low
  else dec_fail (UnknownMarker m).
End nested.

Fixpoint decode_levels (levels : nat) : Decode Value :=
  match levels with
  | O => dec_fail NestingTooDeep
  | S levels => marker ← take_u8; decode_marker (decode_levels levels) marker
  end.

Definition decode_at_depth (depth : nat) : Decode Value :=
  decode_levels (S MAX_DECODE_DEPTH - depth).

Definition decode_value : Decode Value := decode_at_depth 0.

Definition decode_exact (buf : list Z) : DecodeError + Value :=
  match decode_value buf with
  | inl e => inl e
  | inr (v, rest) => if decide (rest = []) then inr v else inl (TrailingBytes (length rest))
  end.

(** ** Values that fit the wire format *)

Definition str_fits (s : string) : bool :=
  utf8_ok (str_bytes s) && (zlength (str_bytes s) <=? MAX_DECODE_LEN).

(** Every component is in its type's range and within the decoder's limits,
    with at most [levels] levels of nesting. *)
Fixpoint fits (levels : nat) (v : Value) : bool :=
  match levels with
  | O => false
  | S levels =>
      match v with
      | VNull | VBoolean _ => true
      | VInteger i => in_range (- 2 ^ 63) (2 ^ 63 - 1) i
      | VFloat bits => in_range 0 u64_max bits
      | VBytes b => forallb (in_range 0 255) b && (zlength b <=? MAX_DECODE_LEN)
      | VString s => str_fits s
      | VList items => (zlength items <=? MAX_DECODE_LEN) && forallb (fits levels) items
      | VMap entries =>
          (zlength entries <=? MAX_DECODE_LEN)
          && forallb (λ kv, str_fits kv.1 && fits levels kv.2) entries
      | VStructure signature fields =>
          in_range 0 255 signature && (zlength fields <=? 15) && forallb (fits levels) fields
      end
  end.

(** ** Round trip *)

Lemma bind_inr {A B} (m : Decode A) (k : A → Decode B) buf y rest :
  (m ≫= k) buf = inr (y, rest) ↔ ∃ x buf', m buf = inr (x, buf') ∧ k x buf' = inr (y, rest).
Proof.
  unfold mbind, decode_bind. destruct (m buf) as [e|[x buf']] eqn:E; [|naive_solver].
  split; [done|intros (? & ? & ? & ?); congruence].
Qed.

Lemma bind_step {A B} (m : Decode A) (k : A → Decode B) buf x rest :
  m buf = inr (x, rest) → (m ≫= k) buf = k x rest.
Proof. unfold mbind, decode_bind. by intros ->. Qed.

Lemma take_n_app n (a b : list Z) : length a = n → take_n n (a ++ b) = inr (a, b).
Proof.
  intros <-. unfold take_n. rewrite length_app.
  destruct (Nat.ltb_spec (length a + length b) (length a)); [lia|].
  by rewrite take_app_length, drop_app_length.
Qed.

Lemma times_flat_map {A} (p : Decode A) (enc : A → list Z) xs rest :
  (∀ x rest, x ∈ xs → p (enc x ++ rest) = inr (x, rest)) →
  times (length xs) p (flat_map enc xs ++ rest) = inr (xs, rest).
Proof.
  induction xs as [|x xs IH]; intros Hp; [done|]. cbn [length times flat_map].
  rewrite <- (app_assoc (enc x)), (bind_step _ _ _ x (flat_map enc xs ++ rest)) by (apply Hp; left).
  erewrite bind_step; [done|]. apply IH. intros. apply Hp. by right.
Qed.

Lemma take_len_8 len rest : 0 <= len <= 255 → take_len 0 (len :: rest) = inr (Z.to_nat len, rest).
Proof.
  intros. unfold take_len. rewrite (bind_step _ _ _ len rest) by done.
  destruct (Z.ltb_spec MAX_DECODE_LEN len); [unfold MAX_DECODE_LEN in *; lia|done].
Qed.

Lemma take_len_16 len rest :
  0 <= len <= 65535 → take_len 1 (be_bytes 2 len ++ rest) = inr (Z.to_nat len, rest).
Proof.
  intros. unfold take_len. rewrite (bind_step _ _ _ len rest).
  - destruct (Z.ltb_spec MAX_DECODE_LEN len); [unfold MAX_DECODE_LEN in *; lia|done].
  - cbn [Z.eqb Pos.eqb]. erewrite bind_step by apply take_n_app, length_be_bytes.
    rewrite from_be_bytes; [done|]. change (256 ^ Z.of_nat 2) with 65536. lia.
Qed.

Lemma take_len_32 len rest :
  0 <= len <= MAX_DECODE_LEN → take_len 2 (be_bytes 4 len ++ rest) = inr (Z.to_nat len, rest).
Proof.
  intros. unfold take_len. rewrite (bind_step _ _ _ len rest).
  - destruct (Z.ltb_spec MAX_DECODE_LEN len); [lia|done].
  - cbn [Z.eqb Pos.eqb]. erewrite bind_step by apply take_n_app, length_be_bytes.
    rewrite from_be_bytes; [done|]. change (256 ^ Z.of_nat 4) with 4294967296.
    unfold MAX_DECODE_LEN in *. lia.
Qed.

Lemma zlength_nat {A} (l : list A) : Z.to_nat (zlength l) = length l.
Proof. apply Nat2Z.id. Qed.

Lemma zlength_nonneg {A} (l : list A) : 0 <= zlength l.
Proof. apply Nat2Z.is_nonneg. Qed.

(** A number below 16 is one of sixteen. *)
Lemma small_cases (P : Z → Prop) n :
  Forall P [0; 1; 2; 3; 4; 5; 6; 7; 8; 9; 10; 11; 12; 13; 14; 15] → 0 <= n <= 15 → P n.
Proof.
  intros HP Hn. rewrite Forall_forall in HP. apply HP. rewrite !elem_of_cons. lia.
Qed.

(** How a length header is read back: [body] is what the decoder does with the
    length. *)
Section header.
Context (rec : Decode Value) (tiny m8 m16 m32 : Z) (body : nat → Decode Value).
Hypothesis Htiny : ∀ n, 0 <= n <= 15 → decode_marker rec (Z.lor tiny n) = body (Z.to_nat n).
Hypothesis H8 : decode_marker rec m8 = (len ← take_len 0; body len).
Hypothesis H16 : decode_marker rec m16 = (len ← take_len 1; body len).
Hypothesis H32 : decode_marker rec m32 = (len ← take_len 2; body len).

Lemma header_decodes len rest :
  0 <= len <= MAX_DECODE_LEN →
  (marker ← take_u8; decode_marker rec marker)
    (encode_collection_header tiny m8 m16 m32 len ++ rest) = body (Z.to_nat len) rest.
Proof.
  intros Hlen. unfold encode_collection_header.
  destruct (Z.leb_spec len 15); [|destruct (Z.leb_spec len 0xFF); [|destruct (Z.leb_spec len 0xFFFF)]];
    cbn [app]; (erewrite bind_step; [|reflexivity]).
  - by rewrite Htiny by lia.
  - by rewrite H8, (bind_step _ _ _ _ _ (take_len_8 len rest ltac:(lia))).
  - by rewrite H16, (bind_step _ _ _ _ _ (take_len_16 len rest ltac:(lia))).
  - by rewrite H32, (bind_step _ _ _ _ _ (take_len_32 len rest ltac:(lia))).
Qed.
End header.

Ltac tiny_marker := intros n Hn; pattern n; apply small_cases; [repeat constructor|exact Hn].

Section decodes.
Context (rec : Decode Value).
#[local] Abbreviation decode_one := (marker ← take_u8; decode_marker rec marker).

Lemma decode_one_int i rest :
  - 2 ^ 63 <= i <= 2 ^ 63 - 1 → decode_one (encode_int i ++ rest) = inr (VInteger i, rest).
Proof.
  intros Hi. unfold encode_int, in_range.
  repeat match goal with |- context [if ?b then _ else _] => destruct b eqn:? end; reflect_bools;
    cbn [app]; (erewrite bind_step; [|reflexivity]).
  - change 0xFF with (Z.ones 8). rewrite Z.land_ones by lia. change (2 ^ 8) with 256.
    unfold decode_marker, in_range. destruct (decide (0 <= i)).
    + rewrite Z.mod_small, !(proj2 (Z.leb_le _ _)) by lia. done.
    + assert (i mod 256 = i + 256) as ->.
      { rewrite <- (Z_mod_plus_full i 1), Z.mod_small; lia. }
      rewrite (proj2 (Z.leb_gt (i + 256) 0x7F)), !(proj2 (Z.leb_le _ _)) by lia.
      rewrite andb_false_r. cbn [andb]. unfold mret, decode_ret. do 3 f_equal.
      unfold to_signed. change (2 ^ (8 - 1)) with 128. change (2 ^ 8) with 256.
      rewrite (proj2 (Z.ltb_ge _ _)) by lia. lia.
  - change (decode_marker rec INT8) with (b ← take_u8; mret (M:=Decode) (VInteger (to_signed 8 b))).
    erewrite bind_step; [|reflexivity]. unfold mret, decode_ret. do 3 f_equal.
    change 0xFF with (Z.ones 8). rewrite Z.land_ones by lia. apply to_signed_mod; lia.
  - change (decode_marker rec INT16) with (b ← take_n 2; mret (M:=Decode) (VInteger (to_signed 16 (from_be b)))).
    erewrite bind_step by apply take_n_app, length_be_bytes. unfold mret, decode_ret. do 3 f_equal.
    apply (signed_be_bytes 2); [lia|]. change (2 ^ _) with 32768. lia.
  - change (decode_marker rec INT32) with (b ← take_n 4; mret (M:=Decode) (VInteger (to_signed 32 (from_be b)))).
    erewrite bind_step by apply take_n_app, length_be_bytes. unfold mret, decode_ret. do 3 f_equal.
    apply (signed_be_bytes 4); [lia|]. change (2 ^ _) with 2147483648. lia.
  - change (decode_marker rec INT64) with (b ← take_n 8; mret (M:=Decode) (VInteger (to_signed 64 (from_be b)))).
    erewrite bind_step by apply take_n_app, length_be_bytes. unfold mret, decode_ret. do 3 f_equal.
    apply (signed_be_bytes 8); [lia|]. change (8 * Z.of_nat 8 - 1) with 63. lia.
Qed.

Lemma decode_one_str s rest :
  str_fits s = true → decode_one (encode_str s ++ rest) = inr (VString s, rest).
Proof.
  unfold str_fits. intros Hs. reflect_bools. unfold encode_str. rewrite <- app_assoc.
  rewrite (header_decodes rec _ _ _ _ decode_string); [|by tiny_marker|done..|unfold zlength in *; lia].
  unfold decode_string. rewrite zlength_nat, (bind_step _ _ _ _ _ (take_n_app _ _ _ eq_refl)).
  unfold from_utf8. by rewrite H, bytes_str_bytes.
Qed.

Lemma decode_one_bytes b rest :
  zlength b <= MAX_DECODE_LEN → decode_one (encode_bytes b ++ rest) = inr (VBytes b, rest).
Proof.
  intros Hb. pose proof (zlength_nonneg b). unfold encode_bytes. rewrite <- app_assoc.
  transitivity (decode_bytes (Z.to_nat (zlength b)) (b ++ rest)).
  - destruct (Z.leb_spec (zlength b) 0xFF); [|destruct (Z.leb_spec (zlength b) 0xFFFF)];
      cbn [app]; (erewrite bind_step; [|reflexivity]).
    + change (decode_marker rec BYTES8) with (len ← take_len 0; decode_bytes len).
      by rewrite (bind_step _ _ _ _ _ (take_len_8 (zlength b) (b ++ rest) ltac:(lia))).
    + change (decode_marker rec BYTES16) with (len ← take_len 1; decode_bytes len).
      by rewrite (bind_step _ _ _ _ _ (take_len_16 (zlength b) (b ++ rest) ltac:(lia))).
    + change (decode_marker rec BYTES32) with (len ← take_len 2; decode_bytes len).
      by rewrite (bind_step _ _ _ _ _ (take_len_32 (zlength b) (b ++ rest) ltac:(lia))).
  - unfold decode_bytes. by rewrite zlength_nat, (bind_step _ _ _ _ _ (take_n_app _ _ _ eq_refl)).
Qed.

Lemma decode_one_float bits rest :
  0 <= bits <= u64_max → decode_one (FLOAT64 :: be_bytes 8 bits ++ rest) = inr (VFloat bits, rest).
Proof.
  intros Hb. erewrite bind_step; [|reflexivity].
  change (decode_marker rec FLOAT64) with (b ← take_n 8; mret (M:=Decode) (VFloat (from_be b))).
  erewrite bind_step by apply take_n_app, length_be_bytes. unfold mret, decode_ret.
  rewrite from_be_bytes; [done|]. change (256 ^ Z.of_nat 8) with two64. unfold u64_max in Hb. lia.
Qed.

Lemma decode_one_list items rest :
  zlength items <= MAX_DECODE_LEN →
  (∀ v rest, v ∈ items → rec (encode v ++ rest) = inr (v, rest)) →
  decode_one (encode (VList items) ++ rest) = inr (VList items, rest).
Proof.
  intros Hl Hrec. pose proof (zlength_nonneg items). cbn [encode]. rewrite <- app_assoc.
  rewrite (header_decodes rec _ _ _ _ (decode_list rec)); [|by tiny_marker|done..].
  unfold decode_list. by rewrite zlength_nat, (bind_step _ _ _ _ _ (times_flat_map rec encode _ _ Hrec)).
Qed.

Lemma decode_one_map entries rest :
  zlength entries <= MAX_DECODE_LEN →
  (∀ k v rest, (k, v) ∈ entries → rec (encode_str k ++ rest) = inr (VString k, rest)) →
  (∀ k v rest, (k, v) ∈ entries → rec (encode v ++ rest) = inr (v, rest)) →
  decode_one (encode (VMap entries) ++ rest) = inr (VMap entries, rest).
Proof.
  intros Hl Hk Hv. pose proof (zlength_nonneg entries). cbn [encode]. rewrite <- app_assoc.
  rewrite (header_decodes rec _ _ _ _ (decode_map rec)); [|by tiny_marker|done..].
  unfold decode_map. rewrite zlength_nat. erewrite bind_step; [done|].
  apply times_flat_map. intros [k v] r Hin. cbn [fst snd]. rewrite <- app_assoc. unfold decode_entry.
  rewrite (bind_step _ _ _ _ _ (Hk k v _ Hin)), (bind_step _ _ _ _ _ (Hv k v r Hin)). done.
Qed.

Lemma decode_one_structure signature fields rest :
  zlength fields <= 15 →
  (∀ v rest, v ∈ fields → rec (encode v ++ rest) = inr (v, rest)) →
  decode_one (encode (VStructure signature fields) ++ rest) = inr (VStructure signature fields, rest).
Proof.
  intros Hl Hrec. pose proof (zlength_nonneg fields). cbn [encode app].
  erewrite bind_step; [|reflexivity].
  assert (∀ n, 0 <= n <= 15 →
    decode_marker rec (Z.lor TINY_STRUCT (Z.land n 15)) = decode_struct rec (Z.to_nat n)) as E
    by tiny_marker.
  rewrite E by lia. unfold decode_struct. erewrite bind_step; [|reflexivity].
  by rewrite zlength_nat, (bind_step _ _ _ _ _ (times_flat_map rec encode _ _ Hrec)).
Qed.
End decodes.

Lemma forallb_elem {A} (f : A → bool) l x : forallb f l = true → x ∈ l → f x = true.
Proof. intros Hf Hx. by apply (proj1 (forallb_forall f l) Hf), list_elem_of_In. Qed.

(** What was encoded decodes to itself, whatever follows it. *)
Lemma decode_encode levels v rest :
  fits levels v = true → decode_levels levels (encode v ++ rest) = inr (v, rest).
Proof.
  revert v rest. induction levels as [|levels IH]; intros v rest; [done|]. cbn [decode_levels].
  destruct v as [|[]|i|bits|b|s|items|entries|signature fields]; cbn [fits]; intros Hv;
    try done; unfold in_range in Hv; reflect_bools.
  - by apply decode_one_int.
  - apply decode_one_float. lia.
  - by apply decode_one_bytes.
  - by apply decode_one_str.
  - apply decode_one_list; [done|]. eauto using forallb_elem.
  - apply decode_one_map; [done|..]; intros k v r Hin; eapply forallb_elem in Hin; try done;
      cbn [fst snd] in Hin; reflect_bools; [|by apply IH].
    destruct levels; [done|]. by apply decode_one_str.
  - apply decode_one_structure; [done|]. eauto using forallb_elem.
Qed.
