(* ===== verification/BoltPackSound.v ===== *)
(** * What the PackStream decoder accepts

    [reads p Q]: whenever [p] succeeds on bytes it consumes a prefix of them,
    and [Q] relates its result to the number of bytes consumed.  With one rule
    per combinator, the decoder is proved to produce only values within the
    limits, and never a value whose canonical encoding is longer than what was
    read. *)

From S2P Require Import Prelude Text BoltPack.

Definition reads {A} (p : Decode A) (Q : A → nat → Prop) : Prop :=
  ∀ buf x rest, Forall is_byte buf → p buf = inr (x, rest) →
    ∃ used, buf = used ++ rest ∧ Forall is_byte used ∧ Q x (length used).

Section rules.
Context {A B : Type}.
Implicit Types (Q : A → nat → Prop) (R : B → nat → Prop).

Lemma reads_mono (p : Decode A) Q Q' : reads p Q → (∀ x n, Q x n → Q' x n) → reads p Q'.
Proof. intros Hp HQ buf x rest Hb Hr. destruct (Hp buf x rest Hb Hr) as (u & ? & ? & ?). eauto. Qed.

Lemma reads_ret (x : A) Q : Q x 0%nat → reads (mret x) Q.
Proof. intros HQ buf y rest Hb [= -> ->]. by exists []. Qed.

Lemma reads_fail e Q : reads (dec_fail e) Q.
Proof. by intros buf x rest Hb. Qed.

Lemma reads_bind (m : Decode A) (k : A → Decode B) Q R :
  reads m Q → (∀ x n, Q x n → reads (k x) (λ y n', R y (n + n')%nat)) → reads (m ≫= k) R.
Proof.
  intros Hm Hk buf y rest Hb (x & buf' & E & E')%bind_inr.
  destruct (Hm _ _ _ Hb E) as (u & -> & Hu & HQ). apply Forall_app in Hb as [_ Hb].
  destruct (Hk _ _ HQ _ _ _ Hb E') as (u' & -> & Hu' & HR).
  exists (u ++ u'). rewrite length_app, Forall_app. by rewrite app_assoc.
Qed.
End rules.

Lemma reads_u8 : reads take_u8 (λ b n, is_byte b ∧ n = 1%nat).
Proof. intros [|b buf] x rest Hb; intros [= -> ->]. inv Hb. exists [x]. split_and!; try done. by constructor. Qed.

Lemma reads_n k : reads (take_n k) (λ bs n, length bs = k ∧ n = k ∧ Forall is_byte bs).
Proof.
  intros buf x rest Hb. unfold take_n. destruct (Nat.ltb_spec (length buf) k); intros [= <- <-].
  assert (length (take k buf) = k) by (rewrite length_take; lia).
  exists (take k buf). rewrite take_drop. split_and!; eauto using Forall_take.
Qed.

(** What [take_len] can return after reading [n] bytes. *)
Definition len_ok (size_exp : Z) (len n : nat) : Prop :=
  Z.of_nat len <= MAX_DECODE_LEN
  ∧ if size_exp =? 0 then n = 1%nat ∧ Z.of_nat len <= 0xFF
    else if size_exp =? 1 then n = 2%nat ∧ Z.of_nat len <= 0xFFFF else n = 4%nat.

Lemma reads_from_be k :
  reads (b ← take_n k; mret (M:=Decode) (from_be b)) (λ x n, 0 <= x < 256 ^ Z.of_nat k ∧ n = k).
Proof.
  eapply reads_bind; [apply reads_n|]. intros bs n (Hl & -> & Hb). apply reads_ret.
  rewrite Nat.add_0_r. split; [|done]. subst k. by apply from_be_range.
Qed.

Lemma reads_len size_exp : reads (take_len size_exp) (len_ok size_exp).
Proof.
  unfold take_len. eapply (reads_bind _ _ (λ len n, 0 <= len ∧
    if size_exp =? 0 then n = 1%nat ∧ len <= 0xFF
    else if size_exp =? 1 then n = 2%nat ∧ len <= 0xFFFF else n = 4%nat)).
  - destruct (size_exp =? 0); [|destruct (size_exp =? 1)].
    + eapply reads_mono; [apply reads_u8|]. unfold is_byte. intros; cbn beta iota in *; lia.
    + eapply reads_mono; [apply reads_from_be|]. change (256 ^ Z.of_nat 2) with 65536. intros; cbn beta iota in *; lia.
    + eapply reads_mono; [apply reads_from_be|]. intros; cbn beta iota in *; lia.
  - intros len n [Hlen Hn]. destruct (Z.ltb_spec MAX_DECODE_LEN len); [apply reads_fail|].
    apply reads_ret. unfold len_ok. rewrite Z2Nat.id, Nat.add_0_r by done. done.
Qed.

Lemma reads_times {A} (p : Decode A) (enc : A → list Z) (ok : A → bool) k :
  reads p (λ x n, ok x = true ∧ (length (enc x) <= n)%nat) →
  reads (times k p) (λ xs n, length xs = k ∧ forallb ok xs = true ∧ (length (flat_map enc xs) <= n)%nat).
Proof.
  intros Hp. induction k as [|k IH]; [by apply reads_ret|]. cbn [times].
  eapply reads_bind; [exact Hp|]. intros x n [Hx Hn]. cbn beta.
  eapply reads_bind; [exact IH|]. intros xs n' (Hl & Hxs & Hn'). apply reads_ret.
  cbn [length forallb flat_map]. rewrite Hx, Hxs, length_app. repeat split; lia.
Qed.

(** ** Lengths of headers *)

Definition header_len (len : Z) : nat :=
  if len <=? 15 then 1 else if len <=? 0xFF then 2 else if len <=? 0xFFFF then 3 else 5.

Lemma length_collection_header tiny m8 m16 m32 len :
  length (encode_collection_header tiny m8 m16 m32 len) = header_len len.
Proof.
  unfold encode_collection_header, header_len.
  case_all; simpl; by rewrite ?length_be_bytes.
Qed.

Lemma low_nibble m : 0 <= Z.land m 0x0F <= 15.
Proof.
  change (Z.land m 15) with (Z.land m (Z.ones 4)). rewrite Z.land_ones by lia.
  pose proof (Z.mod_pos_bound m (2 ^ 4) ltac:(lia)). change (2 ^ 4) with 16 in *. lia.
Qed.

Lemma header_len_low m : (header_len (Z.of_nat (Z.to_nat (Z.land m 0x0F))) = 1)%nat.
Proof.
  pose proof (low_nibble m). unfold header_len. rewrite Z2Nat.id by lia.
  by rewrite (proj2 (Z.leb_le _ _)) by lia.
Qed.

Lemma header_len_ok size_exp len n : len_ok size_exp len n → (header_len (Z.of_nat len) <= S n)%nat.
Proof.
  unfold len_ok, header_len. intros [_ H].
  destruct (Z.leb_spec (Z.of_nat len) 15), (Z.leb_spec (Z.of_nat len) 0xFF),
    (Z.leb_spec (Z.of_nat len) 0xFFFF); destruct (size_exp =? 0); destruct (size_exp =? 1); lia.
Qed.

Lemma length_encode_int i : (length (encode_int i) <= 9)%nat
  ∧ (-128 <= i <= 127 → (length (encode_int i) <= 2)%nat)
  ∧ (-32768 <= i <= 32767 → (length (encode_int i) <= 3)%nat)
  ∧ (-2147483648 <= i <= 2147483647 → (length (encode_int i) <= 5)%nat)
  ∧ (-16 <= i <= 127 → (length (encode_int i) <= 1)%nat).
Proof.
  unfold encode_int, in_range.
  repeat match goal with |- context [if ?b then _ else _] => destruct b eqn:? end; cbn [length];
    rewrite ?length_be_bytes; repeat split; intros; reflect_bools; try lia;
    match goal with H : (_ && _) = false |- _ => apply andb_false_iff in H as [H|H]; reflect_bools; lia end.
Qed.

Lemma length_encode_bytes b :
  length (encode_bytes b) =
  ((if (zlength b <=? 0xFF)%Z then 2 else if (zlength b <=? 0xFFFF)%Z then 3 else 5) + length b)%nat.
Proof.
  unfold encode_bytes. rewrite length_app.
  destruct (zlength b <=? 0xFF); [|destruct (zlength b <=? 0xFFFF)]; cbn [length];
    by rewrite ?length_be_bytes.
Qed.

(** ** The decoder *)

Section sound.
Context (levels : nat) (rec : Decode Value).

(** The value is within the limits, and its encoding is no longer than [n]. *)
Definition sound_value (l : nat) (v : Value) (n : nat) : Prop :=
  fits l v = true ∧ (length (encode v) <= n)%nat.

Hypothesis Hrec : reads rec (sound_value levels).

Lemma forallb_bytes b : Forall is_byte b → forallb (in_range 0 255) b = true.
Proof.
  intros Hb. apply forallb_forall. intros x Hx. rewrite Forall_forall in Hb.
  specialize (Hb x (proj2 (list_elem_of_In _ _) Hx)). unfold is_byte, in_range in *.
  apply andb_true_intro. split; apply Z.leb_le; lia.
Qed.

Lemma reads_string len n :
  Z.of_nat len <= MAX_DECODE_LEN → (header_len (Z.of_nat len) <= S n)%nat →
  reads (decode_string len) (λ v n', sound_value (S levels) v (S (n + n'))).
Proof.
  intros Hmax Hh. unfold decode_string. eapply reads_bind; [apply reads_n|].
  intros bs n' (Hl & -> & Hb). unfold from_utf8. destruct (utf8_ok bs) eqn:Hu; [|apply reads_fail].
  apply reads_ret. assert (str_bytes (bytes_str bs) = bs) as E by by apply str_bytes_str.
  unfold sound_value. cbn [fits encode]. unfold str_fits, encode_str. rewrite E, Hu, length_app, length_collection_header.
  unfold zlength. rewrite Hl. split; [by apply Z.leb_le|lia].
Qed.

Lemma reads_bytes len n size_exp :
  len_ok size_exp len n → reads (decode_bytes len) (λ v n', sound_value (S levels) v (S (n + n'))).
Proof.
  intros [Hmax Hn]. unfold decode_bytes. eapply reads_bind; [apply reads_n|].
  intros bs n' (Hl & -> & Hb). apply reads_ret. unfold sound_value. cbn [fits encode].
  rewrite forallb_bytes, length_encode_bytes by done. unfold zlength. rewrite Hl.
  split; [by apply Z.leb_le|].
  destruct (Z.leb_spec (Z.of_nat len) 0xFF), (Z.leb_spec (Z.of_nat len) 0xFFFF);
    destruct (size_exp =? 0); destruct (size_exp =? 1); lia.
Qed.

Lemma reads_list len n :
  Z.of_nat len <= MAX_DECODE_LEN → (header_len (Z.of_nat len) <= S n)%nat →
  reads (decode_list rec len) (λ v n', sound_value (S levels) v (S (n + n'))).
Proof.
  intros Hmax Hh. unfold decode_list.
  eapply reads_bind; [apply (reads_times _ encode (fits levels)), Hrec|].
  intros items n' (Hl & Hf & Hn). apply reads_ret. unfold sound_value. cbn [fits encode].
  rewrite length_app, length_collection_header, Hf. unfold zlength. rewrite Hl, andb_true_r.
  split; [by apply Z.leb_le|lia].
Qed.

Lemma reads_entry :
  reads (decode_entry rec) (λ kv n, str_fits kv.1 && fits levels kv.2 = true
    ∧ (length (encode_str kv.1 ++ encode kv.2) <= n)%nat).
Proof.
  unfold decode_entry. eapply reads_bind; [apply Hrec|]. intros k n [Hk Hn].
  destruct k as [| | | | |s| | |]; try apply reads_fail.
  eapply reads_bind; [apply Hrec|]. intros v n' [Hv Hn']. apply reads_ret. cbn [fst snd].
  rewrite Hv, length_app. cbn [encode] in Hn. destruct levels; [done|]. cbn [fits] in Hk.
  rewrite Hk. split; [done|lia].
Qed.

Lemma reads_map len n :
  Z.of_nat len <= MAX_DECODE_LEN → (header_len (Z.of_nat len) <= S n)%nat →
  reads (decode_map rec len) (λ v n', sound_value (S levels) v (S (n + n'))).
Proof.
  intros Hmax Hh. unfold decode_map.
  eapply reads_bind; [apply (reads_times _ _ _ _ reads_entry)|].
  intros items n' (Hl & Hf & Hn). apply reads_ret. unfold sound_value. cbn [fits encode].
  rewrite length_app, length_collection_header, Hf. unfold zlength. rewrite Hl, andb_true_r.
  split; [by apply Z.leb_le|lia].
Qed.

Lemma reads_struct len :
  Z.of_nat len <= 15 → reads (decode_struct rec len) (λ v n, sound_value (S levels) v (S n)).
Proof.
  intros Hmax. unfold decode_struct. eapply reads_bind; [apply reads_u8|]. intros sig n [Hs ->].
  eapply reads_bind; [apply (reads_times _ encode (fits levels)), Hrec|].
  intros fs n' (Hl & Hf & Hn). apply reads_ret. unfold sound_value. cbn [fits encode length].
  rewrite Hf. unfold zlength, is_byte, in_range in *. rewrite Hl, andb_true_r.
  rewrite !andb_true_iff, !Z.leb_le. lia.
Qed.

Lemma sound_int x n :
  - 2 ^ 63 <= x < 2 ^ 63 → (length (encode_int x) <= n)%nat → sound_value (S levels) (VInteger x) n.
Proof.
  intros Hx Hn. unfold sound_value. cbn [fits encode]. unfold in_range.
  rewrite !andb_true_iff, !Z.leb_le. lia.
Qed.

(** A signed big-endian integer of [k] bytes. *)
Lemma reads_int w k :
  w = 8 * Z.of_nat k → (0 < k <= 8)%nat →
  (∀ x, - 2 ^ (w - 1) <= x < 2 ^ (w - 1) → (length (encode_int x) <= S k)%nat) →
  reads (b ← take_n k; mret (VInteger (to_signed w (from_be b))))
    (λ v n, sound_value (S levels) v (S n)).
Proof.
  intros Hw Hk Hlen. eapply reads_bind; [apply reads_n|]. intros bs n (Hl & -> & Hb). apply reads_ret.
  pose proof (from_be_range bs Hb) as Hr. rewrite Hl in Hr.
  assert (256 ^ Z.of_nat k = 2 ^ w) as E.
  { change 256 with (2 ^ 8). rewrite <- Z.pow_mul_r by lia. by f_equal. }
  pose proof (to_signed_range w (from_be bs) ltac:(lia) ltac:(lia)) as Hs.
  assert (2 ^ (w - 1) <= 2 ^ 63) by (apply Z.pow_le_mono_r; lia).
  apply sound_int; [lia|]. specialize (Hlen _ Hs). lia.
Qed.

(** A length followed by a body. *)
Lemma reads_sized size_exp body :
  (∀ len n, len_ok size_exp len n →
    reads (body len) (λ v n', sound_value (S levels) v (S (n + n')))) →
  reads (len ← take_len size_exp; body len) (λ v n, sound_value (S levels) v (S n)).
Proof. intros Hb. eapply reads_bind; [apply reads_len|]. intros len n Hn. by apply Hb. Qed.

Ltac sized := apply reads_sized; intros ? ? Hlen; pose proof (header_len_ok _ _ _ Hlen); destruct Hlen.

Lemma reads_marker m :
  is_byte m → reads (decode_marker rec m) (λ v n, sound_value (S levels) v (S n)).
Proof.
  intros Hm. pose proof (low_nibble m). unfold decode_marker. set (low := Z.to_nat (Z.land m 15)).
  assert (Z.of_nat low <= 15) by (unfold low; lia).
  assert (Z.of_nat low <= MAX_DECODE_LEN) by (unfold MAX_DECODE_LEN; lia).
  assert (header_len (Z.of_nat low) <= 1)%nat as Hlow by (unfold low; by rewrite header_len_low).
  repeat match goal with |- reads (if ?b then _ else _) _ => destruct b eqn:? end;
    try apply reads_fail; try by apply reads_ret.
  - unfold in_range in *; reflect_bools. apply reads_ret, sound_int; [lia|].
    apply length_encode_int. lia.
  - unfold in_range in *; reflect_bools. unfold is_byte in Hm. apply reads_ret.
    unfold to_signed. change (2 ^ (8 - 1)) with 128. change (2 ^ 8) with 256.
    rewrite (proj2 (Z.ltb_ge _ _)) by lia.
    apply sound_int; [lia|]. apply length_encode_int. lia.
  - eapply reads_bind; [apply reads_n|]. intros bs n (Hl & -> & Hb). apply reads_ret.
    pose proof (from_be_range bs Hb) as Hr. rewrite Hl in Hr. change (256 ^ Z.of_nat 8) with two64 in Hr.
    unfold sound_value. cbn [fits encode length]. rewrite length_be_bytes. unfold in_range, u64_max.
    rewrite !andb_true_iff, !Z.leb_le. lia.
  - eapply reads_bind; [apply reads_u8|]. intros b n [Hb ->]. apply reads_ret.
    pose proof (to_signed_range 8 b ltac:(lia) Hb) as Hs. change (2 ^ (8 - 1)) with 128 in Hs.
    apply sound_int; [lia|]. apply length_encode_int. lia.
  - apply reads_int; [done|lia|]. intros x Hx. apply length_encode_int. change (2 ^ (16 - 1)) with 32768 in Hx. lia.
  - apply reads_int; [done|lia|]. intros x Hx. apply length_encode_int. change (2 ^ (32 - 1)) with 2147483648 in Hx. lia.
  - apply reads_int; [done|lia|]. intros x Hx. apply length_encode_int.
  - apply reads_sized. intros len n Hlen. by eapply reads_bytes.
  - by apply (reads_string low 0).
  - sized. by apply reads_string.
  - by apply (reads_list low 0).
  - sized. by apply reads_list.
  - by apply (reads_map low 0).
  - sized. by apply reads_map.
  - by apply reads_struct.
Qed.
End sound.

(** Whatever the decoder accepts is within the limits, and its canonical
    encoding is no longer than the bytes it was read from. *)
Lemma decode_sound levels : reads (decode_levels levels) (sound_value levels).
Proof.
  induction levels as [|levels IH]; [apply reads_fail|]. cbn [decode_levels].
  eapply reads_bind; [apply reads_u8|]. intros m n [Hm ->]. by apply reads_marker.
Qed.
