(* ===== verification/BoltChunk.v ===== *)
(** * Chunked transport ([fluree-db-bolt/src/chunk.rs])

    [ChunkAssembler] with its three methods, and [write_message].  The loop of
    [push] is [assemble]: it works on [avail = pending[pos..]] and returns what
    is left of it.  Fuel: an iteration consumes at least two bytes, so the
    number of available bytes bounds them.

    The main result is that the assembler does not depend on how the transport
    cuts the stream, from which it follows that every message that was written
    is delivered once, in order. *)

From S2P Require Import Prelude BoltPack.

Definition MAX_MESSAGE_BYTES : Z := 64 * 1024 * 1024.
Definition MAX_CHUNK : nat := Z.to_nat 0xFFFF.
Lemma MAX_CHUNK_Z : Z.of_nat MAX_CHUNK = 0xFFFF.
Proof. by apply Z2Nat.id. Qed.
#[global] Opaque MAX_CHUNK.

Record ChunkAssembler := mkAssembler {
  pending : list Z;
  message : list Z;
  complete : list (list Z);
}.

Definition new_assembler : ChunkAssembler := mkAssembler [] [] [].

(** [u16::from_be_bytes([a, b])]. *)
Definition chunk_size (a b : Z) : nat := Z.to_nat (from_be [a; b]).

(** The loop of [push]: the result of the loop, what is left of [avail], and
    the two fields it changes. *)
Record LoopState := mkLoop { l_avail : list Z; l_message : list Z; l_complete : list (list Z) }.

Fixpoint assemble (fuel : nat) (s : LoopState) : option DecodeError * LoopState :=
  match fuel with
  | O => (None, s)
  | S fuel =>
      match l_avail s with
      | a :: b :: rest =>
          let size := chunk_size a b in
          if decide (size = 0%nat) then
            assemble fuel (mkLoop rest []
              (if decide (l_message s = []) then l_complete s else l_complete s ++ [l_message s]))
          else if (length rest <? size)%nat then (None, s)
          else if MAX_MESSAGE_BYTES <? Z.of_nat (length (l_message s) + size) then (Some MessageTooLarge, s)
          else assemble fuel (mkLoop (drop size rest) (l_message s ++ take size rest) (l_complete s))
      | _ => (None, s)
      end
  end.

(** An error returns before [pending] is drained. *)
Definition push (self : ChunkAssembler) (bytes : list Z) : option DecodeError * ChunkAssembler :=
  let pending := pending self ++ bytes in
  match assemble (length pending) (mkLoop pending (message self) (complete self)) with
  | (None, s) => (None, mkAssembler (l_avail s) (l_message s) (l_complete s))
  | (Some e, s) => (Some e, mkAssembler pending (l_message s) (l_complete s))
  end.

Definition next_message (self : ChunkAssembler) : option (list Z) * ChunkAssembler :=
  match complete self with
  | [] => (None, self)
  | m :: rest => (Some m, mkAssembler (pending self) (message self) rest)
  end.

Definition clear (_ : ChunkAssembler) : ChunkAssembler := mkAssembler [] [] [].

(** [slice::chunks(n)]: fuel is the length. *)
Fixpoint chunks (fuel n : nat) (l : list Z) : list (list Z) :=
  match fuel, l with
  | S fuel, _ :: _ => take n l :: chunks fuel n (drop n l)
  | _, _ => []
  end.

(** The bytes [write_message] appends. *)
Definition write_chunk (chunk : list Z) : list Z := be_bytes 2 (Z.of_nat (length chunk)) ++ chunk.
Definition write_message (payload : list Z) : list Z :=
  flat_map write_chunk (chunks (length payload) MAX_CHUNK payload) ++ [0; 0].

(** ** Segmentation *)

(** A push per piece, stopping at the first error. *)
Fixpoint push_all (self : ChunkAssembler) (pieces : list (list Z)) : option DecodeError * ChunkAssembler :=
  match pieces with
  | [] => (None, self)
  | p :: pieces =>
      match push self p with
      | (None, self) => push_all self pieces
      | err => err
      end
  end.

Lemma assemble_fuel n m s :
  (length (l_avail s) <= n)%nat → (length (l_avail s) <= m)%nat → assemble n s = assemble m s.
Proof.
  revert m s. induction n as [|n IH]; intros [|m] [avail msg comp]; cbn [l_avail]; intros Hn Hm; cbn [assemble l_avail l_message l_complete];
    try (destruct avail as [|? [|? ?]]; cbn [length] in *; (lia || done)).
  destruct avail as [|a [|b rest]]; [done..|]. cbn [length] in Hn, Hm.
  destruct (decide _); [apply IH; cbn; lia|].
  destruct (Nat.ltb_spec (length rest) (chunk_size a b)); [done|].
  destruct (_ <? _); [done|]. apply IH; cbn; rewrite length_drop; lia.
Qed.

(** With enough fuel for the bytes it is given. *)
Definition assemble_all (s : LoopState) : option DecodeError * LoopState := assemble (length (l_avail s)) s.

Definition extend (s : LoopState) (bytes : list Z) : LoopState :=
  mkLoop (l_avail s ++ bytes) (l_message s) (l_complete s).

(** What the loop leaves is never longer than what it got. *)
Lemma assemble_shrinks n s : (length (l_avail (assemble n s).2) <= length (l_avail s))%nat.
Proof.
  revert s. induction n as [|n IH]; intros [avail msg comp]; [done|]. cbn [assemble l_avail l_message l_complete].
  destruct avail as [|a [|b rest]]; [done..|]. cbn [length].
  destruct (decide _); [etrans; [apply IH|cbn; lia]|].
  destruct (_ <? _)%nat; [done|]. destruct (_ <? _); [done|].
  etrans; [apply IH|]. cbn [l_avail]. rewrite length_drop. lia.
Qed.

(** One iteration of the loop. *)
Lemma assemble_step n a b rest msg comp :
  (S (length rest) <= n)%nat →
  assemble (S n) (mkLoop (a :: b :: rest) msg comp) =
  let size := chunk_size a b in
  if decide (size = 0%nat) then
    assemble_all (mkLoop rest [] (if decide (msg = []) then comp else comp ++ [msg]))
  else if (length rest <? size)%nat then (None, mkLoop (a :: b :: rest) msg comp)
  else if MAX_MESSAGE_BYTES <? Z.of_nat (length msg + size) then
    (Some MessageTooLarge, mkLoop (a :: b :: rest) msg comp)
  else assemble_all (mkLoop (drop size rest) (msg ++ take size rest) comp).
Proof.
  intros Hn. cbn [assemble l_avail l_message l_complete]. unfold assemble_all.
  destruct (decide _); [apply assemble_fuel; cbn; lia|].
  destruct (_ <? _)%nat; [done|]. destruct (_ <? _); [done|].
  apply assemble_fuel; cbn; rewrite length_drop; lia.
Qed.

Lemma assemble_all_step a b rest msg comp :
  assemble_all (mkLoop (a :: b :: rest) msg comp) =
  let size := chunk_size a b in
  if decide (size = 0%nat) then
    assemble_all (mkLoop rest [] (if decide (msg = []) then comp else comp ++ [msg]))
  else if (length rest <? size)%nat then (None, mkLoop (a :: b :: rest) msg comp)
  else if MAX_MESSAGE_BYTES <? Z.of_nat (length msg + size) then
    (Some MessageTooLarge, mkLoop (a :: b :: rest) msg comp)
  else assemble_all (mkLoop (drop size rest) (msg ++ take size rest) comp).
Proof. unfold assemble_all at 1. cbn [l_avail length]. by apply assemble_step. Qed.

(** Bytes that arrive later do not change what was done with the earlier ones. *)
Lemma assemble_extend n s bytes :
  (length (l_avail s) <= n)%nat →
  assemble_all (extend s bytes) =
  match assemble_all s with
  | (None, s') => assemble_all (extend s' bytes)
  | (Some e, s') => (Some e, extend s' bytes)
  end.
Proof.
  revert s. induction n as [|n IH]; intros [avail msg comp] Hn; cbn [l_avail] in Hn;
    destruct avail as [|a [|b rest]]; try done; cbn [length] in Hn; [lia|].
  unfold extend at 1. cbn [l_avail l_message l_complete app]. rewrite !assemble_all_step. cbn zeta.
  destruct (decide (chunk_size a b = 0%nat)) as [E|E]; [rewrite <- IH by (cbn; lia); done|].
  destruct (Nat.ltb_spec (length rest) (chunk_size a b)) as [Hlt|Hge].
  - unfold extend. cbn [l_avail l_message l_complete app]. rewrite assemble_all_step. cbn zeta.
    by rewrite decide_False.
  - destruct (Nat.ltb_spec (length (rest ++ bytes)) (chunk_size a b)) as [Hlt|_];
      [rewrite length_app in Hlt; lia|].
    destruct (MAX_MESSAGE_BYTES <? _); [done|].
    rewrite <- IH by (cbn; rewrite length_drop; lia). unfold extend. cbn [l_avail l_message l_complete].
    by rewrite drop_app_le, take_app_le by lia.
Qed.

Definition of_assembler (self : ChunkAssembler) : LoopState :=
  mkLoop (pending self) (message self) (complete self).

(** [push] in terms of the loop. *)
Lemma push_spec self bytes :
  (push self bytes).1 = (assemble_all (extend (of_assembler self) bytes)).1
  ∧ complete (push self bytes).2 = l_complete (assemble_all (extend (of_assembler self) bytes)).2
  ∧ ((push self bytes).1 = None →
     assemble_all (extend (of_assembler self) bytes) = (None, of_assembler (push self bytes).2)).
Proof.
  unfold push. change (assemble _ _) with (assemble_all (extend (of_assembler self) bytes)).
  by destruct (assemble_all _) as [[e|] [av m c]].
Qed.

(** An assembler that waits for input: every state [push] returns is one. *)
Definition waiting (self : ChunkAssembler) : Prop :=
  assemble_all (of_assembler self) = (None, of_assembler self).

Lemma extend_nil s : extend s [] = s.
Proof. destruct s. unfold extend. cbn. by rewrite app_nil_r. Qed.

Lemma extend_app s a b : extend s (a ++ b) = extend (extend s a) b.
Proof. unfold extend. cbn. by rewrite app_assoc. Qed.

Lemma assemble_idem n s s' :
  (length (l_avail s) <= n)%nat → assemble_all s = (None, s') → assemble_all s' = (None, s').
Proof.
  revert s. induction n as [|n IH]; intros [avail msg comp] Hn; cbn [l_avail] in Hn;
    destruct avail as [|a [|b rest]]; cbn [length] in Hn; try lia; try (intros [= <-]; done).
  rewrite assemble_all_step. cbn zeta. destruct (decide _) as [E|E]; [apply IH; cbn; lia|].
  destruct (Nat.ltb_spec (length rest) (chunk_size a b)) as [Hlt|Hge].
  - intros [= <-]. rewrite assemble_all_step. cbn zeta. rewrite decide_False by done.
    by rewrite (proj2 (Nat.ltb_lt _ _)).
  - destruct (_ <? _); [done|]. apply IH. cbn. rewrite length_drop. lia.
Qed.

Lemma push_waiting self bytes : (push self bytes).1 = None → waiting (push self bytes).2.
Proof. intros H%push_spec. by eapply assemble_idem. Qed.

(** Cutting the input into pieces changes neither the verdict nor the messages
    delivered, nor the state when no piece is refused. *)
Lemma push_all_spec self pieces :
  waiting self →
  (push_all self pieces).1 = (assemble_all (extend (of_assembler self) (concat pieces))).1
  ∧ complete (push_all self pieces).2
    = l_complete (assemble_all (extend (of_assembler self) (concat pieces))).2
  ∧ ((push_all self pieces).1 = None →
     assemble_all (extend (of_assembler self) (concat pieces)) = (None, of_assembler (push_all self pieces).2)).
Proof.
  revert self. induction pieces as [|p pieces IH]; intros self Hw; cbn [push_all concat].
  - rewrite extend_nil. unfold waiting in Hw. by rewrite Hw.
  - rewrite extend_app, (assemble_extend _ _ _ (le_n _)).
    pose proof (push_spec self p) as (H1 & H2 & H3). pose proof (push_waiting self p) as H4.
    destruct (push self p) as [[e|] self']; cbn [fst snd] in *.
    + destruct (assemble_all _) as [[e'|] s']; cbn in *; naive_solver.
    + rewrite H3 by done. apply IH. by apply H4.
Qed.

(** ** Delivery *)

Lemma assemble_complete n s : l_complete s `prefix_of` l_complete (assemble n s).2.
Proof.
  revert s. induction n as [|n IH]; intros [avail msg comp]; [done|].
  cbn [assemble l_avail l_message l_complete]. destruct avail as [|a [|b rest]]; [done..|].
  destruct (decide _).
  - etrans; [|apply IH]. cbn [l_complete]. destruct (decide _); [done|]. by apply prefix_app_r.
  - destruct (_ <? _)%nat; [done|]. destruct (_ <? _); [done|]. apply (IH (mkLoop _ _ _)).
Qed.

Lemma assemble_chunk c rest msg comp :
  (0 < length c)%nat → Z.of_nat (length c) <= 0xFFFF →
  Z.of_nat (length msg + length c) <= MAX_MESSAGE_BYTES →
  assemble_all (mkLoop (write_chunk c ++ rest) msg comp) = assemble_all (mkLoop rest (msg ++ c) comp).
Proof.
  intros Hc Hmax Hm. unfold write_chunk. rewrite <- app_assoc.
  assert (from_be (be_bytes 2 (Z.of_nat (length c))) = Z.of_nat (length c)) as E.
  { apply from_be_bytes. change (256 ^ Z.of_nat 2) with 65536. lia. }
  pose proof (length_be_bytes 2 (Z.of_nat (length c))) as Hl.
  destruct (be_bytes 2 _) as [|a [|b [|? ?]]]; try done. cbn [app].
  rewrite assemble_all_step. cbn zeta. unfold chunk_size. rewrite E, Nat2Z.id.
  rewrite decide_False by lia. rewrite (proj2 (Nat.ltb_ge _ _)) by (rewrite length_app; lia).
  rewrite (proj2 (Z.ltb_ge _ _)) by lia. by rewrite drop_app_length, take_app_length.
Qed.

Lemma chunks_spec fuel n l :
  (0 < n)%nat → (length l <= fuel)%nat →
  concat (chunks fuel n l) = l ∧ Forall (λ c, 0 < length c <= n)%nat (chunks fuel n l).
Proof.
  intros Hn. revert l. induction fuel as [|fuel IH]; intros [|x l] Hl; cbn [length] in Hl; try lia; try done.
  cbn [chunks concat]. destruct (IH (drop n (x :: l))) as [E F]; [rewrite length_drop; cbn; lia|].
  rewrite E, take_drop. split; [done|]. constructor; [|done]. rewrite length_take. cbn [length]. lia.
Qed.

Lemma assemble_chunks cs rest msg comp :
  Forall (λ c, 0 < length c <= MAX_CHUNK)%nat cs →
  Z.of_nat (length msg + length (concat cs)) <= MAX_MESSAGE_BYTES →
  assemble_all (mkLoop (flat_map write_chunk cs ++ rest) msg comp)
  = assemble_all (mkLoop rest (msg ++ concat cs) comp).
Proof.
  intros Hcs. revert msg. induction Hcs as [|c cs Hc Hcs IH]; intros msg Hm.
  - cbn [flat_map concat app]. by rewrite app_nil_r.
  - cbn [flat_map concat] in *. rewrite length_app in Hm. rewrite <- app_assoc, assemble_chunk.
    + rewrite IH by (rewrite length_app; lia). by rewrite app_assoc.
    + lia.
    + pose proof MAX_CHUNK_Z. lia.
    + lia.
Qed.

Lemma assemble_message payload rest comp :
  Z.of_nat (length payload) <= MAX_MESSAGE_BYTES →
  assemble_all (mkLoop (write_message payload ++ rest) [] comp)
  = assemble_all (mkLoop rest [] (if decide (payload = []) then comp else comp ++ [payload])).
Proof.
  intros Hp. unfold write_message. rewrite <- app_assoc.
  destruct (chunks_spec (length payload) MAX_CHUNK payload) as [E F]; [|done|].
  { pose proof MAX_CHUNK_Z. lia. }
  rewrite assemble_chunks by (done || (rewrite E; cbn; lia)). rewrite E. cbn [app].
  rewrite assemble_all_step. reflexivity.
Qed.

Definition delivered (payloads : list (list Z)) : list (list Z) := filter (λ p, p ≠ []) payloads.

Lemma assemble_messages payloads comp :
  Forall (λ p, Z.of_nat (length p) <= MAX_MESSAGE_BYTES) payloads →
  assemble_all (mkLoop (flat_map write_message payloads) [] comp)
  = (None, mkLoop [] [] (comp ++ delivered payloads)).
Proof.
  intros Hp. revert comp. induction Hp as [|p ps Hp Hps IH]; intros comp; cbn [flat_map].
  - unfold delivered. cbn. by rewrite app_nil_r.
  - rewrite assemble_message, IH by done. unfold delivered. destruct (decide (p = [])) as [->|Hne].
    + by rewrite filter_cons_False by auto.
    + by rewrite filter_cons_True, <- app_assoc by done.
Qed.
