(* ===== verification/BoltMessage.v ===== *)
(** * Version negotiation ([fluree-db-bolt/src/handshake.rs])

    A handshake request is a list of [HANDSHAKE_LEN] bytes: the magic and four
    proposals [[reserved; range; minor; major]] in preference order. *)

From S2P Require Import Prelude Text BoltPack.
Definition HANDSHAKE_LEN : nat := 20.
Definition MAGIC : list Z := [0x60; 0x60; 0xB0; 0x17].
Definition REJECT : list Z := [0; 0; 0; 0].

Record BoltVersion := mkVersion { major : Z; minor : Z }.

#[export] Instance BoltVersion_eq_dec : EqDecision BoltVersion.
Proof. solve_decision. Defined.

Definition V4_4 : BoltVersion := mkVersion 4 4.
Definition V5_4 : BoltVersion := mkVersion 5 4.

Definition supported_minors (major : Z) : option (Z * Z) :=
  if major =? 5 then Some (0, 4) else if major =? 4 then Some (4, 4) else None.

Definition to_bytes (self : BoltVersion) : list Z := [0; 0; minor self; major self].

(** The derived order of the struct: major first. *)
Definition version_le (a b : BoltVersion) : bool :=
  (major a <? major b) || ((major a =? major b) && (minor a <=? minor b)).

Definition uses_logon (self : BoltVersion) : bool := version_le (mkVersion 5 1) self.
Definition has_element_ids (self : BoltVersion) : bool := 5 <=? major self.

Inductive HandshakeOutcome :=
| Accept (v : BoltVersion)
| NoVersionOverlap
| BadMagic.

(** [chunks_exact(4)]. *)
Fixpoint chunks_exact4 (bytes : list Z) : list (Z * Z * Z * Z) :=
  match bytes with
  | a :: b :: c :: d :: bytes => (a, b, c, d) :: chunks_exact4 bytes
  | _ => []
  end.

(** The loop over the proposals. *)
Fixpoint negotiate_slots (slots : list (Z * Z * Z * Z)) : HandshakeOutcome :=
  match slots with
  | [] => NoVersionOverlap
  | (_, range, minor, major) :: slots =>
      match supported_minors major with
      | None => negotiate_slots slots
      | Some (min_supported, max_supported) =>
          let low := Z.max (Z.max 0 (minor - range)) min_supported in
          let high := Z.min minor max_supported in
          if low <=? high then Accept (mkVersion major high) else negotiate_slots slots
      end
  end.

Definition negotiate (request : list Z) : HandshakeOutcome :=
  if decide (take 4 request = MAGIC) then negotiate_slots (chunks_exact4 (drop 4 request)) else BadMagic.

(** ** What a proposal offers and what the server implements *)

Definition supported (v : BoltVersion) : Prop :=
  match supported_minors (major v) with
  | Some (lo, hi) => lo <= minor v <= hi
  | None => False
  end.

(** A proposal offers its major with [minor] and the [range] minors below it. *)
Definition offers (slot : Z * Z * Z * Z) (v : BoltVersion) : Prop :=
  let '(_, range, mi, ma) := slot in major v = ma ∧ Z.max 0 (mi - range) <= minor v <= mi.

(** What the answer has to be: the best supported version of the first
    proposal that offers one. *)
Definition negotiated (slots : list (Z * Z * Z * Z)) (o : HandshakeOutcome) : Prop :=
  match o with
  | Accept v =>
      ∃ before slot after, slots = before ++ slot :: after
        ∧ offers slot v ∧ supported v
        ∧ (∀ w, offers slot w → supported w → minor w <= minor v)
        ∧ Forall (λ s, ∀ w, offers s w → ¬ supported w) before
  | NoVersionOverlap => Forall (λ s, ∀ w, offers s w → ¬ supported w) slots
  | BadMagic => False
  end.

Lemma negotiated_skip slot slots o :
  (∀ w, offers slot w → ¬ supported w) → negotiated slots o → negotiated (slot :: slots) o.
Proof.
  intros Hs. destruct o as [v| |]; [|by constructor|done].
  intros (bf & sl & af & -> & Ho & Hsup & Hbest & Hbf). exists (slot :: bf), sl, af. eauto 10.
Qed.

Lemma negotiate_slots_spec slots :
  Forall (λ s, let '(_, range, mi, _) := s in is_byte range ∧ is_byte mi) slots →
  negotiated slots (negotiate_slots slots).
Proof.
  unfold is_byte. induction 1 as [|[[[r range] mi] ma] slots [Hr Hm] _ IH]; [constructor|].
  cbn [negotiate_slots].
  destruct (supported_minors ma) as [[lo hi]|] eqn:Hsup.
  - destruct (Z.leb_spec (Z.max (Z.max 0 (mi - range)) lo) (Z.min mi hi)).
    + exists [], (r, range, mi, ma), slots. unfold supported, offers. cbn [major minor]. rewrite Hsup.
      repeat split; try lia; [|constructor]. intros w [-> ?]. rewrite Hsup. lia.
    + apply negotiated_skip; [|done]. intros w [E Hw]. unfold supported. rewrite E, Hsup. lia.
  - apply negotiated_skip; [|done]. intros w [E Hw]. unfold supported. rewrite E, Hsup. tauto.
Qed.

Lemma chunks_exact4_bytes n bytes :
  (length bytes <= n)%nat → Forall is_byte bytes →
  Forall (λ s, let '(_, range, mi, _) := s in is_byte range ∧ is_byte mi) (chunks_exact4 bytes).
Proof.
  revert bytes. induction n as [|n IH]; intros [|a [|b [|c [|d bytes]]]] Hn Hb;
    cbn [length chunks_exact4] in *; try constructor; try lia;
    repeat match goal with H : Forall _ (_ :: _) |- _ => inv H end; [done|].
  apply IH; [lia|done].
Qed.

(** * Typed messages ([fluree-db-bolt/src/message.rs])

    Requests decode from the structures clients send; responses encode to the
    structures they read. *)

Definition HELLO : Z := 0x01.
Definition GOODBYE : Z := 0x02.
Definition RESET : Z := 0x0F.
Definition RUN : Z := 0x10.
Definition BEGIN : Z := 0x11.
Definition COMMIT : Z := 0x12.
Definition ROLLBACK : Z := 0x13.
Definition DISCARD : Z := 0x2F.
Definition PULL : Z := 0x3F.
Definition ROUTE : Z := 0x66.
Definition LOGON : Z := 0x6A.
Definition LOGOFF : Z := 0x6B.
Definition TELEMETRY : Z := 0x54.
Definition SUCCESS : Z := 0x70.
Definition RECORD : Z := 0x71.
Definition IGNORED : Z := 0x7E.
Definition FAILURE : Z := 0x7F.

Inductive Request :=
| Hello (extra : MapValue)
| Logon (auth : MapValue)
| Logoff
| Goodbye
| Reset
| Run (query : string) (parameters extra : MapValue)
| Begin (extra : MapValue)
| Commit
| Rollback
| Discard (extra : MapValue)
| Pull (extra : MapValue)
| Route (routing : MapValue) (bookmarks : list Value) (extra : Value)
| Telemetry (api : Z).

(** [fields.into_iter()]: [next] gives the field and the rest. *)
Definition next_map (what : string) (fields : list Value) : DecodeError + (MapValue * list Value) :=
  match fields with
  | VMap m :: fields => inr (m, fields)
  | other => inl (Expected what "map" (head other))
  end.

(** A request that is one map. *)
Definition one_map (what : string) (k : MapValue → Request) (fields : list Value) : DecodeError + Request :=
  match next_map what fields with inl e => inl e | inr (m, _) => inr (k m) end.

Definition decode_run (fields : list Value) : DecodeError + Request :=
  match fields with
  | VString query :: fields =>
      match next_map "RUN parameters" fields with
      | inl e => inl e
      | inr (parameters, fields) =>
          match fields with
          | VMap m :: _ => inr (Run query parameters m)
          | [] => inr (Run query parameters [])
          | other :: _ => inl (Expected "RUN extra" "map" (Some other))
          end
      end
  | other => inl (Expected "RUN query" "string" (head other))
  end.

Definition decode_route (fields : list Value) : DecodeError + Request :=
  match next_map "ROUTE routing" fields with
  | inl e => inl e
  | inr (routing, fields) =>
      match fields with
      | VList l :: fields => inr (Route routing l (default VNull (head fields)))
      | other => inl (Expected "ROUTE bookmarks" "list" (head other))
      end
  end.

Definition decode_telemetry (fields : list Value) : DecodeError + Request :=
  match fields with
  | VInteger i :: _ => inr (Telemetry i)
  | other => inl (Expected "TELEMETRY api" "integer" (head other))
  end.

Definition decode_request (payload : list Z) : DecodeError + Request :=
  match decode_value payload with
  | inl e => inl e
  | inr (value, rest) =>
      if decide (rest = []) then
        match value with
        | VStructure signature fields =>
            if signature =? HELLO then one_map "HELLO extra" Hello fields
            else if signature =? LOGON then one_map "LOGON auth" Logon fields
            else if signature =? LOGOFF then inr Logoff
            else if signature =? GOODBYE then inr Goodbye
            else if signature =? RESET then inr Reset
            else if signature =? RUN then decode_run fields
            else if signature =? BEGIN then one_map "BEGIN extra" Begin fields
            else if signature =? COMMIT then inr Commit
            else if signature =? ROLLBACK then inr Rollback
            else if signature =? DISCARD then one_map "DISCARD extra" Discard fields
            else if signature =? PULL then one_map "PULL extra" Pull fields
            else if signature =? ROUTE then decode_route fields
            else if signature =? TELEMETRY then decode_telemetry fields
            else inl (UnknownSignature signature)
        | _ => inl NotAStructure
        end
      else inl TrailingAfterMessage
  end.

Inductive Response :=
| Success (metadata : MapValue)
| Record_ (values : list Value)
| Ignored
| Failure (code message : string).

Definition success_empty : Response := Success [].

(** The structure of a response, and its payload before chunking. *)
Definition response_structure (self : Response) : Value :=
  match self with
  | Success meta => VStructure SUCCESS [VMap meta]
  | Record_ values => VStructure RECORD [VList values]
  | Ignored => VStructure IGNORED []
  | Failure code message =>
      let meta := map_insert [] "code" (VString code) in
      let meta := map_insert meta "message" (VString message) in
      VStructure FAILURE [VMap meta]
  end.

Definition encode_response (self : Response) : list Z := encode (response_structure self).

(** ** What a client sends *)

Definition request_structure (r : Request) : Value :=
  match r with
  | Hello extra => VStructure HELLO [VMap extra]
  | Logon auth => VStructure LOGON [VMap auth]
  | Logoff => VStructure LOGOFF []
  | Goodbye => VStructure GOODBYE []
  | Reset => VStructure RESET []
  | Run query parameters extra => VStructure RUN [VString query; VMap parameters; VMap extra]
  | Begin extra => VStructure BEGIN [VMap extra]
  | Commit => VStructure COMMIT []
  | Rollback => VStructure ROLLBACK []
  | Discard extra => VStructure DISCARD [VMap extra]
  | Pull extra => VStructure PULL [VMap extra]
  | Route routing bookmarks extra => VStructure ROUTE [VMap routing; VList bookmarks; extra]
  | Telemetry api => VStructure TELEMETRY [VInteger api]
  end.

Definition value_fits (v : Value) : bool := fits (S MAX_DECODE_DEPTH) v.

Lemma decode_value_encode v : value_fits v = true → decode_value (encode v) = inr (v, []).
Proof. intros Hv. rewrite <- (app_nil_r (encode v)). by apply (decode_encode (S MAX_DECODE_DEPTH)). Qed.

Lemma decode_request_encode r :
  value_fits (request_structure r) = true → decode_request (encode (request_structure r)) = inr r.
Proof. intros Hr. unfold decode_request. rewrite (decode_value_encode _ Hr). by destruct r. Qed.
