(* ===== verification/BoltSession.v ===== *)
(** * The per-connection message state machine ([fluree-db-bolt/src/session.rs])

    [Session] with [on_request], the handler of every state and the completion
    callbacks.  A method returns what the source returns and the session it
    leaves.  [next_qid] is an [i64] and wraps as in a release build. *)

From S2P Require Import Prelude Text BoltPack BoltMessage.

Record SessionConfig := mkSessionConfig {
  version : BoltVersion;
  server_agent : string;
  connection_id : string;
  default_db : option string;
  advertised_address : option string;
}.

Record ResultStream := mkStream {
  rs_fields : list string;
  rs_rows : list (list Value);
  rs_summary : MapValue;
}.

Record RunRequest := mkRunRequest { run_query : string; run_parameters : MapValue; run_db : option string }.
Record BeginRequest := mkBeginRequest { begin_db : option string }.
Record AuthRequest := mkAuthRequest {
  scheme : option string; auth_principal : option string; credentials : option string }.

Inductive Turn :=
| TReply (replies : list Response)
| TClose (replies : list Response)
| TAuthenticate (auth : AuthRequest)
| TLogoff (replies : list Response)
| TExecute (run : RunRequest)
| TBegin (begin : BeginRequest)
| TCommit
| TRollback
| TReset (replies : list Response).

Definition auth_from_map (map : MapValue) : AuthRequest :=
  mkAuthRequest (get_str map "scheme") (get_str map "principal") (get_str map "credentials").

Inductive State :=
| AwaitingHello
| Authentication
| Authenticating (via_hello : bool)
| Ready
| Streaming
| TxReady
| TxStreaming
| Failed.

#[export] Instance State_eq_dec : EqDecision State.
Proof. solve_decision. Defined.

Record Session := mkSession {
  config : SessionConfig;
  state : State;
  authenticated : bool;
  streams : list (Z * ResultStream);
  next_qid : Z;
  hello_db : option string;
}.

Definition with_state (s : Session) (st : State) : Session :=
  mkSession (config s) st (authenticated s) (streams s) (next_qid s) (hello_db s).
Definition with_streams (s : Session) (ss : list (Z * ResultStream)) : Session :=
  mkSession (config s) (state s) (authenticated s) ss (next_qid s) (hello_db s).
Definition with_authenticated (s : Session) (a : bool) : Session :=
  mkSession (config s) (state s) a (streams s) (next_qid s) (hello_db s).
Definition with_hello_db (s : Session) (db : option string) : Session :=
  mkSession (config s) (state s) (authenticated s) (streams s) (next_qid s) db.
Definition with_next_qid (s : Session) (q : Z) : Session :=
  mkSession (config s) (state s) (authenticated s) (streams s) q (hello_db s).

Definition CODE_INVALID : string := "Neo.ClientError.Request.Invalid".

Definition new_session (config : SessionConfig) : Session :=
  mkSession config AwaitingHello false [] 0 None.

Definition is_ready (s : Session) : bool :=
  match state s with AwaitingHello | Authentication | Authenticating _ => false | _ => true end.

Definition in_transaction (s : Session) : bool :=
  match state s with TxReady | TxStreaming => true | _ => false end.

Definition request_name (r : Request) : string :=
  match r with
  | Hello _ => "HELLO" | Logon _ => "LOGON" | Logoff => "LOGOFF" | Goodbye => "GOODBYE"
  | Reset => "RESET" | Run _ _ _ => "RUN" | Begin _ => "BEGIN" | Commit => "COMMIT"
  | Rollback => "ROLLBACK" | Discard _ => "DISCARD" | Pull _ => "PULL" | Route _ _ _ => "ROUTE"
  | Telemetry _ => "TELEMETRY"
  end.

Definition fail (s : Session) (failure : Response) : Turn * Session :=
  (TReply [failure], with_streams (with_state s Failed) []).

Definition invalid (message : string) : Response := Failure CODE_INVALID message.

(** ** Resets, greeting and authentication *)

Definition on_reset (s : Session) : Turn * Session :=
  if decide (state s = AwaitingHello) then (TClose [invalid "RESET before HELLO"], s)
  else
    (TReset [success_empty],
     with_state (with_streams s []) (if authenticated s then Ready else Authentication)).

Definition hello_meta (s : Session) : MapValue :=
  let meta := map_insert [] "server" (VString (server_agent (config s))) in
  map_insert meta "connection_id" (VString (connection_id (config s))).

Definition on_awaiting_hello (s : Session) (request : Request) : Turn * Session :=
  match request with
  | Hello extra =>
      let s := with_hello_db s (get_str extra "db") in
      if uses_logon (version (config s)) then
        let s := with_state s Authentication in (TReply [Success (hello_meta s)], s)
      else (TAuthenticate (auth_from_map extra), with_state s (Authenticating true))
  | other => (TClose [invalid ("expected HELLO, got " +:+ request_name other)], s)
  end.

Definition on_authentication (s : Session) (request : Request) : Turn * Session :=
  match request with
  | Logon auth => (TAuthenticate (auth_from_map auth), with_state s (Authenticating false))
  | other => (TClose [invalid ("expected LOGON, got " +:+ request_name other)], s)
  end.

Definition auth_succeeded (s : Session) : Response * Session :=
  let via_hello := bool_decide (state s = Authenticating true) in
  let s := with_state (with_authenticated s true) Ready in
  (if via_hello then Success (hello_meta s) else success_empty, s).

Definition auth_failed (s : Session) (code message : string) : Turn * Session :=
  let failure := Failure code message in
  if decide (state s = Authenticating true) then (TClose [failure], s)
  else (TReply [failure], with_state s Failed).

(** ** Statements *)

Definition resolve_db (s : Session) (extra : MapValue) : option string :=
  match get_str extra "db" with
  | Some db => Some db
  | None => match hello_db s with Some db => Some db | None => default_db (config s) end
  end.

Definition route_table (s : Session) (extra : Value) : Response :=
  match advertised_address (config s) with
  | None => invalid "server-side routing is not configured; connect with the bolt:// scheme"
  | Some address =>
      let db := match as_map extra ≫= (λ m, get_str m "db") with
                | Some db => db
                | None => default EmptyString (default_db (config s))
                end in
      let server_entry (role : string) :=
        let entry := map_insert [] "addresses" (VList [VString address]) in
        VMap (map_insert entry "role" (VString role)) in
      let rt := map_insert [] "ttl" (VInteger 300) in
      let rt := map_insert rt "db" (VString db) in
      let rt := map_insert rt "servers"
        (VList [server_entry "WRITE"; server_entry "READ"; server_entry "ROUTE"]) in
      Success (map_insert [] "rt" (VMap rt))
  end.

Definition on_ready (s : Session) (request : Request) : Turn * Session :=
  match request with
  | Run query parameters extra => (TExecute (mkRunRequest query parameters (resolve_db s extra)), s)
  | Begin extra => (TBegin (mkBeginRequest (resolve_db s extra)), s)
  | Commit | Rollback => fail s (invalid "COMMIT/ROLLBACK outside a transaction")
  | Logoff =>
      if uses_logon (version (config s)) then
        (TLogoff [success_empty], with_state (with_authenticated s false) Authentication)
      else fail s (invalid ("unexpected " +:+ request_name Logoff +:+ " in READY state"))
  | Route _ _ extra => (TReply [route_table s extra], s)
  | Telemetry _ => (TReply [success_empty], s)
  | Pull _ | Discard _ => fail s (invalid "no result stream to consume")
  | other => fail s (invalid ("unexpected " +:+ request_name other +:+ " in READY state"))
  end.

(** ** Result streams *)

Definition stream_index (s : Session) (extra : MapValue) : option nat :=
  match get_int extra "qid" with
  | Some qid =>
      if 0 <=? qid then fst <$> list_find (λ p, p.1 = qid) (streams s)
      else match length (streams s) with O => None | S n => Some n end
  | None => match length (streams s) with O => None | S n => Some n end
  end.

Definition after_stream_close (s : Session) : Session :=
  match streams s with
  | [] => with_state s (if in_transaction s then TxReady else Ready)
  | _ => s
  end.

(** How many of [len] rows an [n] of PULL or DISCARD asks for. *)
Definition batch (extra : MapValue) (len : nat) : nat :=
  let n := default (-1) (get_int extra "n") in
  if n <? 0 then len else Z.to_nat (Z.min n (Z.of_nat len)).

(** What PULL and DISCARD do once the rows are taken from the front: the final
    or the intermediate metadata, and the stream closed when it is drained. *)
Definition settle (s : Session) (idx : nat) (qid : Z) (stream : ResultStream) (rows : list (list Value))
    : Response * Session :=
  match rows with
  | [] =>
      (Success (map_insert (rs_summary stream) "has_more" (VBoolean false)),
       after_stream_close (with_streams s (delete idx (streams s))))
  | _ =>
      (Success (map_insert [] "has_more" (VBoolean true)),
       with_streams s (<[idx := (qid, mkStream (rs_fields stream) rows (rs_summary stream))]> (streams s)))
  end.

Definition serve_pull (s : Session) (extra : MapValue) : list Response * Session :=
  match stream_index s extra ≫= (λ idx, pair idx <$> streams s !! idx) with
  | None => ([invalid "no such result stream"], s)
  | Some (idx, (qid, stream)) =>
      let n := batch extra (length (rs_rows stream)) in
      let '(reply, s') := settle s idx qid stream (drop n (rs_rows stream)) in
      ((Record_ <$> take n (rs_rows stream)) ++ [reply], s')
  end.

Definition serve_discard (s : Session) (extra : MapValue) : Response * Session :=
  match stream_index s extra ≫= (λ idx, pair idx <$> streams s !! idx) with
  | None => (invalid "no such result stream", s)
  | Some (idx, (qid, stream)) =>
      settle s idx qid stream (drop (batch extra (length (rs_rows stream))) (rs_rows stream))
  end.

Definition reply_pull (s : Session) (extra : MapValue) : Turn * Session :=
  let '(replies, s) := serve_pull s extra in (TReply replies, s).
Definition reply_discard (s : Session) (extra : MapValue) : Turn * Session :=
  let '(reply, s) := serve_discard s extra in (TReply [reply], s).

Definition on_streaming (s : Session) (request : Request) : Turn * Session :=
  match request with
  | Pull extra => reply_pull s extra
  | Discard extra => reply_discard s extra
  | other => fail s (invalid ("unexpected " +:+ request_name other +:+ " while streaming"))
  end.

(** ** Explicit transactions *)

Definition on_tx_ready (s : Session) (request : Request) : Turn * Session :=
  match request with
  | Run query parameters extra => (TExecute (mkRunRequest query parameters (resolve_db s extra)), s)
  | Commit => (TCommit, with_streams s [])
  | Rollback => (TRollback, with_streams s [])
  | Begin _ => fail s (invalid "a transaction is already open on this session")
  | Telemetry _ => (TReply [success_empty], s)
  | Pull _ | Discard _ => fail s (invalid "no result stream to consume")
  | other => fail s (invalid ("unexpected " +:+ request_name other +:+ " inside a transaction"))
  end.

Definition on_tx_streaming (s : Session) (request : Request) : Turn * Session :=
  match request with
  | Pull extra => reply_pull s extra
  | Discard extra => reply_discard s extra
  | Run query parameters extra => (TExecute (mkRunRequest query parameters (resolve_db s extra)), s)
  | Commit => (TCommit, with_streams s [])
  | Rollback => (TRollback, with_streams s [])
  | other => fail s (invalid ("unexpected " +:+ request_name other +:+ " while streaming"))
  end.

Definition on_request (s : Session) (request : Request) : Turn * Session :=
  match request with
  | Goodbye => (TClose [], s)
  | Reset => on_reset s
  | other =>
      match state s with
      | AwaitingHello => on_awaiting_hello s other
      | Authentication => on_authentication s other
      | Authenticating _ => (TClose [invalid "request while authentication is in flight"], s)
      | Ready => on_ready s other
      | Streaming => on_streaming s other
      | TxReady => on_tx_ready s other
      | TxStreaming => on_tx_streaming s other
      | Failed => (TReply [Ignored], s)
      end
  end.

(** ** Completion callbacks *)

Definition i64_wrap (x : Z) : Z := to_signed 64 (x mod two64).

Definition run_succeeded (s : Session) (stream : ResultStream) (t_first_ms : Z) : Response * Session :=
  let qid := next_qid s in
  let s := with_next_qid s (i64_wrap (next_qid s + 1)) in
  let meta := map_insert [] "fields" (VList (VString <$> rs_fields stream)) in
  let meta := map_insert meta "t_first" (VInteger t_first_ms) in
  let meta := map_insert meta "qid" (VInteger qid) in
  let s := with_streams s (streams s ++ [(qid, stream)]) in
  (Success meta, with_state s (if in_transaction s then TxStreaming else Streaming)).

Definition run_failed (s : Session) (code message : string) : Response * Session :=
  (Failure code message, with_streams (with_state s Failed) []).

Definition begin_succeeded (s : Session) : Response * Session := (success_empty, with_state s TxReady).
Definition begin_failed (s : Session) (code message : string) : Response * Session :=
  (Failure code message, with_state s Failed).

Definition commit_succeeded (s : Session) (bookmark : option string) : Response * Session :=
  (Success (match bookmark with Some b => map_insert [] "bookmark" (VString b) | None => [] end),
   with_state s Ready).
Definition commit_failed (s : Session) (code message : string) : Response * Session :=
  (Failure code message, with_state s Failed).

Definition rollback_done (s : Session) : Response * Session := (success_empty, with_state s Ready).
