(* ===== verification/BoltServer.v ===== *)
(** * The Bolt listener's connection loop ([fluree-db-server/src/bolt.rs])

    What the server does with the pure protocol crate: the loop of
    [handle_connection] over the bytes of a socket, authentication, the
    statement-time gate, and the explicit-transaction lifecycle.

    The database behind it is the class [BoltBackend]: a world that every call
    may change, with the two laws of [CypherTransaction] the listener relies on.
    The model also returns, for each message, the list of [Event]s: the calls it
    made to the database and the changes of identity, in order. *)

From S2P Require Import Prelude Text BoltPack BoltChunk BoltMessage BoltSession.
Definition CODE_SYNTAX : string := "Neo.ClientError.Statement.SyntaxError".
Definition CODE_DB_NOT_FOUND : string := "Neo.ClientError.Database.DatabaseNotFound".
Definition CODE_GENERAL : string := "Neo.DatabaseError.General.UnknownError".
Definition CODE_TX_CONFLICT : string := "Neo.TransientError.Transaction.OptimisticConflict".
Definition CODE_UNAUTHORIZED : string := "Neo.ClientError.Security.Unauthorized".
Definition CODE_TOKEN_EXPIRED : string := "Neo.ClientError.Security.TokenExpired".

Record RunFailure := mkRunFailure { rf_code : string; rf_message : string }.

(** ** Identities *)

(** What the listener reads of [DataPrincipal]. *)
Record DataPrincipal := mkPrincipal {
  dp_identity : option string;
  read_all : bool;
  read_ledgers : gset string;
  write_all : bool;
  write_ledgers : gset string;
  expires_unix : Z;
}.

Definition principal_can_read (p : DataPrincipal) (ledger_id : string) : bool :=
  read_all p || bool_decide (ledger_id ∈ read_ledgers p).
Definition principal_can_write (p : DataPrincipal) (ledger_id : string) : bool :=
  write_all p || bool_decide (ledger_id ∈ write_ledgers p).

(** [SessionAuth]: [None] is an anonymous session. *)
Record SessionAuth := mkSessionAuth { principal : option DataPrincipal }.

Definition anonymous : SessionAuth := mkSessionAuth None.

Definition can_read (auth : SessionAuth) (ledger_id : string) : bool :=
  match principal auth with Some p => principal_can_read p ledger_id | None => true end.
Definition can_write (auth : SessionAuth) (ledger_id : string) : bool :=
  match principal auth with Some p => principal_can_write p ledger_id | None => true end.

Inductive DataAuthMode := AuthNone | AuthOptional | AuthRequired.

(** What the listener reads of the application's configuration. *)
Record AppConfig := mkAppConfig {
  data_auth_mode : DataAuthMode;
  is_peer_mode : bool;
  raft_enabled : bool;
  bolt_default_db : option string;
}.

(** ** Statement parameters *)

#[local] Unset Elimination Schemes.
Inductive Json :=
| JNull
| JBool (b : bool)
| JInteger (i : Z)
| JFloat (bits : Z)
| JString (s : string)
| JArray (items : list Json)
| JObject (entries : list (string * Json)).
#[local] Set Elimination Schemes.

(** [f64::is_finite] of a bit pattern: the exponent is not all ones. *)
Definition is_finite (bits : Z) : bool := negb (Z.land (Z.shiftr bits 52) 0x7FF =? 0x7FF).

(** [collect::<Result<Vec<_>, _>>()]: the first error, or every value. *)
Fixpoint collect {E A} (l : list (E + A)) : E + list A :=
  match l with
  | [] => inr []
  | inl e :: _ => inl e
  | inr x :: l => match collect l with inl e => inl e | inr xs => inr (x :: xs) end
  end.

(** Building a [serde_json::Map] from pairs: insertion order, last value wins. *)
Definition json_object (pairs : list (string * Json)) : list (string * Json) :=
  fold_left (λ m kv, map_insert m kv.1 kv.2) pairs [].

Fixpoint bolt_to_json (value : Value) : RunFailure + Json :=
  match value with
  | VNull => inr JNull
  | VBoolean b => inr (JBool b)
  | VInteger i => inr (JInteger i)
  | VFloat bits => inr (if is_finite bits then JFloat bits else JNull)
  | VString s => inr (JString s)
  | VList items =>
      match collect (map bolt_to_json items) with inl e => inl e | inr xs => inr (JArray xs) end
  | VMap m =>
      match collect (map (λ kv, match bolt_to_json kv.2 with inl e => inl e | inr v => inr (kv.1, v) end) m)
      with inl e => inl e | inr kvs => inr (JObject (json_object kvs)) end
  | VBytes _ | VStructure _ _ =>
      inl (mkRunFailure CODE_INVALID "byte-array and structure parameters are not supported")
  end.

Definition params_to_json (params : MapValue) : RunFailure + option (list (string * Json)) :=
  match params with
  | [] => inr None
  | _ =>
      match collect (map (λ kv, match bolt_to_json kv.2 with inl e => inl e | inr v => inr (kv.1, v) end) params)
      with inl e => inl e | inr kvs => inr (Some (json_object kvs)) end
  end.

(** ** The database *)

Inductive CommitResult :=
| CommittedAt (t : Z)
| CommitConflict (expected_t head_t : Z)
| CommitError (message : string).

(** What the listener calls, with the world each call may change. *)
Class BoltBackend (W Txn : Type) := {
  now_unix : W → Z * W;
  elapsed_ms : W → Z * W;
  verify_data_principal : W → string → (string + DataPrincipal) * W;
  cypher_statement_is_write : string → string + bool;
  (** [execute_read] and [execute_write]. *)
  execute_statement : W → bool → string → string → option (list (string * Json)) → BoltVersion →
    option SessionAuth → (RunFailure + ResultStream) * W;
  begin_cypher_transaction : W → string → option SessionAuth → (string + Txn) * W;
  ledger_id : Txn → string;
  (** The rest of [try_execute_txn_run], once the statement may run. *)
  execute_txn_statement : W → Txn → bool → string → option (list (string * Json)) → BoltVersion →
    option SessionAuth → (RunFailure + ResultStream) * Txn * W;
  commit_cypher_transaction : W → Txn → CommitResult * W;
  (** A transaction stays on the ledger it was opened on. *)
  begin_ledger w l auth t w' : begin_cypher_transaction w l auth = (inr t, w') → ledger_id t = l;
  statement_ledger w t b q ps v auth r t' w' :
    execute_txn_statement w t b q ps v auth = (r, t', w') → ledger_id t' = ledger_id t;
}.

(** What a message did besides answering. *)
Inductive Event :=
| Authenticated (auth : SessionAuth)
| LoggedOff
| Executed (in_txn : bool) (auth : option SessionAuth) (ledger : string) (is_write : bool)
| Began (auth : option SessionAuth) (ledger : string)
| CommitCalled (ledger : string)
| Dropped.

Section server.
Context {W Txn : Type} `{!BoltBackend W Txn}.
(** [AppState], the display of a decoding error and the rendering of an [i64]. *)
Context (app : AppConfig) (display : DecodeError → string) (show_i64 : Z → string).

(** ** Authentication and the statement gate *)

Definition expired (auth : SessionAuth) (w : W) : bool * W :=
  match principal auth with
  | None => (false, w)
  | Some p => let '(now, w) := now_unix w in (expires_unix p <? now, w)
  end.

(** [auth.credentials.filter(|c| !c.is_empty())]. *)
Definition token_of (auth : AuthRequest) : RunFailure + option string :=
  let scheme := default "none" (scheme auth) in
  if decide (scheme = "none") then inr None
  else if decide (scheme = "bearer" ∨ scheme = "basic") then
    inr (match credentials auth with Some EmptyString | None => None | Some c => Some c end)
  else inl (mkRunFailure CODE_UNAUTHORIZED
    ("unsupported auth scheme `" +:+ scheme +:+ "`: use bearer (or basic with the token as the password)")).

Definition authenticate (w : W) (auth : AuthRequest) : (RunFailure + SessionAuth) * W :=
  match data_auth_mode app with
  | AuthNone => (inr anonymous, w)
  | mode =>
      match token_of auth with
      | inl f => (inl f, w)
      | inr None =>
          match mode with
          | AuthRequired => (inl (mkRunFailure CODE_UNAUTHORIZED
              "authentication required: connect with a bearer token (or basic auth with the token as the password)"), w)
          | _ => (inr anonymous, w)
          end
      | inr (Some token) =>
          match verify_data_principal w token with
          | (inl e, w) => (inl (mkRunFailure CODE_UNAUTHORIZED e), w)
          | (inr p, w) => (inr (mkSessionAuth (Some p)), w)
          end
      end
  end.

Definition check_statement_auth (w : W) (auth : option SessionAuth) (ledger : string) (is_write : bool)
    : (RunFailure + unit) * W :=
  match auth with
  | None => (inl (mkRunFailure CODE_UNAUTHORIZED "session is not authenticated"), w)
  | Some auth =>
      let '(ex, w) := expired auth w in
      if ex then
        (inl (mkRunFailure CODE_TOKEN_EXPIRED
          "the session's auth token has expired; re-authenticate with a fresh token"), w)
      else if (if is_write then can_write auth ledger else can_read auth ledger) then (inr tt, w)
      else (inl (mkRunFailure CODE_DB_NOT_FOUND ("database `" +:+ ledger +:+ "` not found")), w)
  end.

(** ** Statements *)

Definition no_database : string :=
  "no database selected: pass `database=` in the driver session (or set --bolt-default-db on the server)".

Definition try_execute_run (w : W) (run : RunRequest) (version : BoltVersion) (auth : option SessionAuth)
    : (RunFailure + ResultStream) * W * list Event :=
  match run_db run with
  | None => (inl (mkRunFailure CODE_DB_NOT_FOUND no_database), w, [])
  | Some ledger =>
      match params_to_json (run_parameters run) with
      | inl f => (inl f, w, [])
      | inr params =>
          match cypher_statement_is_write (run_query run) with
          | inl e => (inl (mkRunFailure CODE_SYNTAX e), w, [])
          | inr is_write =>
              match check_statement_auth w auth ledger is_write with
              | (inl f, w) => (inl f, w, [])
              | (inr _, w) =>
                  let '(r, w) := execute_statement w is_write ledger (run_query run) params version auth in
                  (r, w, [Executed false auth ledger is_write])
              end
          end
      end
  end.

Definition try_execute_txn_run (w : W) (txn : Txn) (run : RunRequest) (version : BoltVersion)
    (auth : option SessionAuth) : (RunFailure + ResultStream) * Txn * W * list Event :=
  match params_to_json (run_parameters run) with
  | inl f => (inl f, txn, w, [])
  | inr params =>
      match cypher_statement_is_write (run_query run) with
      | inl e => (inl (mkRunFailure CODE_SYNTAX e), txn, w, [])
      | inr is_write =>
          match check_statement_auth w auth (ledger_id txn) is_write with
          | (inl f, w) => (inl f, txn, w, [])
          | (inr _, w) =>
              let '(r, txn', w) := execute_txn_statement w txn is_write (run_query run) params version auth in
              (r, txn', w, [Executed true auth (ledger_id txn) is_write])
          end
      end
  end.

(** ** The connection *)

(** The local variables of [handle_connection] that a message changes. *)
Record Conn := mkConn {
  cn_session : Session;
  cn_txn : option Txn;
  cn_auth : option SessionAuth;
}.

Definition with_session (c : Conn) (s : Session) : Conn := mkConn s (cn_txn c) (cn_auth c).

(** Dropping an open transaction rolls it back. *)
Definition drop_txn (o : option Txn) : list Event := match o with Some _ => [Dropped] | None => [] end.

Definition execute_run (c : Conn) (w : W) (run : RunRequest) : Response * Conn * W * list Event :=
  let s := cn_session c in
  let version := version (config s) in
  let '(outcome, txn, w, evs) :=
    match cn_txn c with
    | Some txn =>
        let '(r, txn, w, evs) := try_execute_txn_run w txn run version (cn_auth c) in (r, Some txn, w, evs)
    | None => let '(r, w, evs) := try_execute_run w run version (cn_auth c) in (r, None, w, evs)
    end in
  match outcome with
  | inr stream =>
      let '(ms, w) := elapsed_ms w in
      let '(reply, s) := run_succeeded s stream ms in (reply, mkConn s txn (cn_auth c), w, evs)
  | inl f =>
      let '(reply, s) := run_failed s (rf_code f) (rf_message f) in
      (reply, mkConn s None (cn_auth c), w, evs ++ drop_txn txn)
  end.

Definition explicit_tx_supported : bool := negb (is_peer_mode app) && negb (raft_enabled app).

Definition handle_begin (c : Conn) (w : W) (begin : BeginRequest) : Response * Conn * W * list Event :=
  let s := cn_session c in
  let failed (w : W) (code message : string) :=
    let '(reply, s) := begin_failed s code message in (reply, with_session c s, w, []) in
  if explicit_tx_supported then
    match begin_db begin with
    | None => failed w CODE_DB_NOT_FOUND
        "no database selected: pass `database=` in the driver session              (or set --bolt-default-db on the server)"
    | Some ledger =>
        let '(checked, w) :=
          match check_statement_auth w (cn_auth c) ledger false with
          | (inl _, w) => check_statement_auth w (cn_auth c) ledger true
          | ok => ok
          end in
        match checked with
        | inl f => failed w (rf_code f) (rf_message f)
        | inr _ =>
            match begin_cypher_transaction w ledger (cn_auth c) with
            | (inl e, w) => failed w CODE_DB_NOT_FOUND e
            | (inr txn, w) =>
                let '(reply, s) := begin_succeeded s in
                (reply, mkConn s (Some txn) (cn_auth c), w, [Began (cn_auth c) ledger])
            end
        end
    end
  else failed w CODE_INVALID
    "explicit transactions require a single-node server (local commit path);              this deployment replicates writes — use autocommit queries".

(** [open_txn.take()] first: whatever happens, the transaction is gone. *)
Definition handle_commit (c : Conn) (w : W) : Response * Conn * W * list Event :=
  let s := cn_session c in
  let done (w : W) (r : Response * Session) (evs : list Event) :=
    (r.1, mkConn r.2 None (cn_auth c), w, evs) in
  match cn_txn c with
  | None => done w (commit_failed s CODE_INVALID "no open transaction") []
  | Some txn =>
      let '(ex, w) := match cn_auth c with Some a => expired a w | None => (false, w) end in
      if ex then
        done w (commit_failed s CODE_TOKEN_EXPIRED
          "the session's auth token has expired; re-authenticate and retry the transaction") [Dropped]
      else
        match commit_cypher_transaction w txn with
        | (CommittedAt t, w) =>
            done w (commit_succeeded s (Some ("fluree:t:" +:+ show_i64 t))) [CommitCalled (ledger_id txn)]
        | (CommitConflict expected_t head_t, w) =>
            done w (commit_failed s CODE_TX_CONFLICT
              ("the transaction's base state (t=" +:+ show_i64 expected_t
               +:+ ") was superseded by a                  concurrent commit (t=" +:+ show_i64 head_t
               +:+ "); retry the transaction")) [CommitCalled (ledger_id txn)]
        | (CommitError e, w) => done w (commit_failed s CODE_GENERAL e) [CommitCalled (ledger_id txn)]
        end
  end.

(** A RUN, BEGIN or ROUTE that asks to run as another user. *)
Definition impersonated (request : Request) : bool :=
  match match request with
        | Run _ _ extra | Begin extra => map_get extra "imp_user"
        | Route _ _ (VMap extra) => map_get extra "imp_user"
        | _ => None
        end with
  | Some VNull | None => false
  | Some _ => true
  end.

(** What one message leads to: replies in order, whether to close, the new
    state and the events. *)
Record Handled := mkHandled {
  h_replies : list Response;
  h_close : bool;
  h_conn : Conn;
  h_world : W;
  h_events : list Event;
}.

(** What the loop does with the [Turn] of the session; [c] holds the session
    [on_request] left. *)
Definition act (c : Conn) (w : W) (turn : Turn) : Handled :=
  let s := cn_session c in
  match turn with
  | TReply replies => mkHandled replies false c w []
  | TClose replies => mkHandled replies true c w []
  | TAuthenticate auth =>
      match authenticate w auth with
      | (inr verified, w) =>
          let '(reply, s) := auth_succeeded s in
          mkHandled [reply] false (mkConn s (cn_txn c) (Some verified)) w [Authenticated verified]
      | (inl f, w) =>
          match auth_failed s (rf_code f) (rf_message f) with
          | (TClose replies, s) => mkHandled replies true (with_session c s) w []
          | (TReply replies, s) => mkHandled replies false (with_session c s) w []
          | (_, s) => mkHandled [] true (with_session c s) w [] (* unreachable *)
          end
      end
  | TLogoff replies => mkHandled replies false (mkConn s (cn_txn c) None) w [LoggedOff]
  | TExecute run =>
      let '(reply, c, w, evs) := execute_run c w run in mkHandled [reply] false c w evs
  | TBegin begin =>
      let '(reply, c, w, evs) := handle_begin c w begin in mkHandled [reply] false c w evs
  | TCommit =>
      let '(reply, c, w, evs) := handle_commit c w in mkHandled [reply] false c w evs
  | TRollback =>
      let '(reply, s) := rollback_done s in
      mkHandled [reply] false (mkConn s None (cn_auth c)) w (drop_txn (cn_txn c))
  | TReset replies =>
      mkHandled replies false (mkConn s None (cn_auth c)) w (drop_txn (cn_txn c))
  end.

(** One iteration of the inner loop of [handle_connection]. *)
Definition handle_request (c : Conn) (w : W) (request : Request) : Handled :=
  if impersonated request then
    mkHandled [invalid "Bolt impersonation is not supported"] true c w []
  else let '(turn, s) := on_request (cn_session c) request in act (with_session c s) w turn.

Definition handle_message (c : Conn) (w : W) (payload : list Z) : Handled :=
  match decode_request payload with
  | inl e => mkHandled [invalid (display e)] true c w []
  | inr request => handle_request c w request
  end.

(** Messages in order, until one closes the connection. *)
Fixpoint handle_all (c : Conn) (w : W) (payloads : list (list Z)) : Handled :=
  match payloads with
  | [] => mkHandled [] false c w []
  | p :: payloads =>
      let h := handle_message c w p in
      if h_close h then h
      else
        let h' := handle_all (h_conn h) (h_world h) payloads in
        mkHandled (h_replies h ++ h_replies h') (h_close h') (h_conn h') (h_world h')
          (h_events h ++ h_events h')
  end.

(** [while let Some(payload) = assembler.next_message()]; fuel is the number of
    complete messages. *)
Fixpoint drain (fuel : nat) (a : ChunkAssembler) (c : Conn) (w : W) : ChunkAssembler * Handled :=
  match fuel with
  | O => (a, mkHandled [] false c w [])
  | S fuel =>
      match next_message a with
      | (None, a) => (a, mkHandled [] false c w [])
      | (Some payload, a) =>
          let h := handle_message c w payload in
          if h_close h then (a, h)
          else
            let '(a, h') := drain fuel a (h_conn h) (h_world h) in
            (a, mkHandled (h_replies h ++ h_replies h') (h_close h') (h_conn h') (h_world h')
                  (h_events h ++ h_events h'))
      end
  end.

(** One iteration of the outer loop: a piece of the stream as [read] returned
    it.  An empty read is the end of the stream. *)
Definition serve_piece (a : ChunkAssembler) (c : Conn) (w : W) (piece : list Z) : ChunkAssembler * Handled :=
  match piece with
  | [] => (a, mkHandled [] true c w [])
  | _ =>
      match push a piece with
      | (Some e, a) => (a, mkHandled [invalid (display e)] true c w [])
      | (None, a) => drain (length (complete a)) a c w
      end
  end.

(** The loop over the pieces the transport delivers. *)
Fixpoint serve (a : ChunkAssembler) (c : Conn) (w : W) (pieces : list (list Z)) : Handled :=
  match pieces with
  | [] => mkHandled [] false c w []
  | p :: pieces =>
      let '(a, h) := serve_piece a c w p in
      if h_close h then h
      else
        let h' := serve a (h_conn h) (h_world h) pieces in
        mkHandled (h_replies h ++ h_replies h') (h_close h') (h_conn h') (h_world h')
          (h_events h ++ h_events h')
  end.

(** The bytes the loop writes for its replies. *)
Definition wire (replies : list Response) : list Z :=
  flat_map (λ r, write_message (encode_response r)) replies.

(** [handle_connection] after the handshake was accepted at [v]; [agent] is
    [server_agent()]. *)
Definition new_connection (v : BoltVersion) (agent : string) (conn_id : string) : Conn :=
  mkConn (new_session (mkSessionConfig v agent ("bolt-" +:+ conn_id) (bolt_default_db app) None)) None None.

(** The whole connection: the handshake bytes, then the pieces of the stream.
    What is written to the socket, and the events. *)
Definition handle_connection (w : W) (agent conn_id : string) (handshake : list Z) (pieces : list (list Z))
    : list Z * list Event :=
  match negotiate handshake with
  | Accept v =>
      let h := serve new_assembler (new_connection v agent conn_id) w pieces in
      (to_bytes v ++ wire (h_replies h), h_events h)
  | NoVersionOverlap => (REJECT, [])
  | BadMagic => ([], [])
  end.
End server.

(** * The connection does not see how the stream was cut

    A client's messages, chunked and cut into arbitrary non-empty reads, are
    handled exactly as the sequence of their payloads. *)

Section segments.
Context {W Txn : Type} `{!BoltBackend W Txn}.
Context (app : AppConfig) (display : DecodeError → string) (show_i64 : Z → string).

#[local] Abbreviation handle_all := (handle_all app display show_i64).
#[local] Abbreviation serve := (serve app display show_i64).
#[local] Abbreviation drain := (drain app display show_i64).

(** Sequencing two results, as the loops do. *)
Definition seq (h : Handled) (k : Conn → W → Handled) : Handled (W:=W) (Txn:=Txn) :=
  if h_close h then h
  else
    let h' := k (h_conn h) (h_world h) in
    mkHandled (h_replies h ++ h_replies h') (h_close h') (h_conn h') (h_world h') (h_events h ++ h_events h').

Lemma handle_all_cons c w p ps :
  handle_all c w (p :: ps) = seq (handle_message app display show_i64 c w p) (λ c w, handle_all c w ps).
Proof. done. Qed.

Lemma seq_ext h k1 k2 : (∀ c w, k1 c w = k2 c w) → seq h k1 = seq h k2.
Proof. intros Hk. unfold seq. by rewrite Hk. Qed.

Lemma seq_assoc h k1 k2 : seq (seq h k1) k2 = seq h (λ c w, seq (k1 c w) k2).
Proof.
  unfold seq. destruct h as [r [] c w e]; cbn; [done|].
  destruct (k1 c w) as [r1 [] c1 w1 e1]; cbn; [done|]. by rewrite !app_assoc.
Qed.

Lemma seq_nil c w k : seq (mkHandled [] false c w []) k = k c w.
Proof. unfold seq. cbn. by destruct (k c w). Qed.

Lemma handle_all_app c w ps qs :
  handle_all c w (ps ++ qs) = seq (handle_all c w ps) (λ c w, handle_all c w qs).
Proof.
  revert c w. induction ps as [|p ps IH]; intros c w; [symmetry; apply seq_nil|].
  rewrite <- app_comm_cons, !handle_all_cons, seq_assoc. by apply seq_ext.
Qed.

Lemma drain_spec n a c w :
  (length (complete a) <= n)%nat →
  (drain n a c w).2 = handle_all c w (complete a)
  ∧ (h_close (drain n a c w).2 = false →
     (drain n a c w).1 = mkAssembler (pending a) (message a) []).
Proof.
  revert a c w. induction n as [|n IH]; intros [pe ms [|p ps]] c w; cbn [complete length]; intros Hn; try lia; try done.
  cbn [drain BoltServer.drain next_message complete pending message].
  rewrite handle_all_cons. unfold seq. destruct (h_close (handle_message _ _ _ c w p)) eqn:E; [cbn; by rewrite E|].
  destruct (IH (mkAssembler pe ms ps) (h_conn (handle_message app display show_i64 c w p))
    (h_world (handle_message app display show_i64 c w p))) as [H1 H2]; [cbn; lia|].
  destruct (BoltServer.drain _ _ _ n _ _ _) as [a' h']. cbn [fst snd complete] in *. rewrite <- H1. eauto.
Qed.

(** The loop only appends to the complete messages. *)
Lemma assemble_frame n av m comp :
  assemble n (mkLoop av m comp) =
  let '(r, s) := assemble n (mkLoop av m []) in
  (r, mkLoop (l_avail s) (l_message s) (comp ++ l_complete s)).
Proof.
  revert av m comp. induction n as [|n IH]; intros av m comp; cbn [assemble l_avail l_message l_complete];
    [by rewrite app_nil_r|].
  destruct av as [|x [|y rest]]; cbn [l_avail l_message l_complete]; try by rewrite app_nil_r.
  destruct (decide (chunk_size x y = 0%nat)).
  - rewrite IH. rewrite (IH rest [] (if decide (m = []) then [] else _)).
    destruct (assemble n (mkLoop rest [] [])) as [r s]. cbn [l_avail l_message l_complete].
    destruct (decide (m = [])); [done|]. by rewrite app_nil_l, app_assoc.
  - destruct (_ <? _)%nat; [by rewrite app_nil_r|]. destruct (_ <? _); [by rewrite app_nil_r|].
    apply IH.
Qed.

Lemma assemble_all_frame av m comp :
  assemble_all (mkLoop av m comp) =
  let '(r, s) := assemble_all (mkLoop av m []) in
  (r, mkLoop (l_avail s) (l_message s) (comp ++ l_complete s)).
Proof. unfold assemble_all. cbn [l_avail]. apply assemble_frame. Qed.

Lemma serve_spec a c w pieces av m ms :
  complete a = [] → Forall (λ p, p ≠ []) pieces →
  waiting a →
  assemble_all (extend (of_assembler a) (concat pieces)) = (None, mkLoop av m ms) →
  serve a c w pieces = handle_all c w ms.
Proof.
  intros Ha Hp. revert a c w ms Ha. induction Hp as [|p pieces Hp _ IH]; intros a c w ms Ha Hw Hasm.
  - rewrite extend_nil, Hw in Hasm. injection Hasm as <- <- <-. by rewrite Ha.
  - cbn [concat] in Hasm. rewrite extend_app, (assemble_extend _ _ _ (le_n _)) in Hasm.
    pose proof (push_spec a p) as (H1 & H2 & H3). pose proof (push_waiting a p) as H4.
    cbn [BoltServer.serve]. unfold serve_piece. destruct p as [|x p]; [done|]. set (piece := x :: p) in *.
    destruct (push a piece) as [[e|] a'] eqn:Hpush; cbn [fst snd] in *.
    + destruct (assemble_all (extend (of_assembler a) piece)) as [[e'|] s']; cbn in *; naive_solver.
    + specialize (H3 eq_refl). specialize (H4 eq_refl). rewrite H3 in Hasm.
      destruct (drain_spec (length (complete a')) a' c w (le_n _)) as [D1 D2].
      destruct (BoltServer.drain _ _ _ _ a' c w) as [a'' h]. cbn [fst snd] in *. subst h.
      unfold extend, of_assembler in Hasm. cbn [l_avail l_message l_complete] in Hasm.
      rewrite assemble_all_frame in Hasm.
      destruct (assemble_all (mkLoop (pending a' ++ concat pieces) (message a') [])) as [[e|] [av' m' ms']] eqn:E;
        cbn in Hasm; [done|]. injection Hasm as <- <- <-.
      rewrite handle_all_app. unfold seq. destruct (h_close (handle_all c w (complete a'))) eqn:Hc; [done|].
      rewrite (D2 eq_refl), (IH (mkAssembler (pending a') (message a') []) _ _ ms'); [done|done|..].
      * unfold waiting, of_assembler in *. cbn [pending message complete] in *.
        rewrite assemble_all_frame in H4. revert H4.
        destruct (assemble_all (mkLoop (pending a') _ [])) as [r [av2 m2 ms2]]. cbn. intros H4.
        injection H4 as -> -> -> Hms.
        assert (ms2 = []) as -> by (apply (app_inv_head (complete a')); by rewrite app_nil_r). done.
      * exact E.
Qed.
End segments.
