(* ===== verification/BoltMonitor.v ===== *)
(** * The connection refines an access protocol

    [protocol] is what a reader of the listener wants to know: who is logged in,
    on which ledger a transaction is open, and which events may follow.
    [conn_ok] is the invariant of an open connection, relating the session's
    state, the identity, the open transaction and the buffered results.  Every
    message takes protocol steps and keeps the invariant. *)

From S2P Require Import Prelude Text BoltPack BoltChunk BoltMessage BoltSession BoltServer.

Section monitor.
Context {W Txn : Type} `{!BoltBackend W Txn}.
Context (app : AppConfig) (display : DecodeError → string) (show_i64 : Z → string).

#[local] Abbreviation handle_request := (handle_request app show_i64).
#[local] Abbreviation handle_message := (handle_message app display show_i64).

(** ** The protocol *)

(** Identities a login can give, by the configured mode: anonymous unless
    credentials are required, or a principal some token verified as. *)
Definition admissible (a : SessionAuth) : Prop :=
  match principal a with
  | None => data_auth_mode app ≠ AuthRequired
  | Some p => data_auth_mode app ≠ AuthNone
      ∧ ∃ (w w' : W) token, token ≠ EmptyString ∧ verify_data_principal w token = (inr p, w')
  end.

(** The scopes of [a] cover a statement. *)
Definition in_scope (a : SessionAuth) (ledger : string) (is_write : bool) : Prop :=
  (if is_write then can_write a ledger else can_read a ledger) = true.

(** Who is logged in, and the ledger of the open transaction. *)
Definition Monitor : Type := option SessionAuth * option string.

Inductive protocol : Monitor → Event → Monitor → Prop :=
| p_login a : admissible a → protocol (None, None) (Authenticated a) (Some a, None)
| p_logoff a : protocol (Some a, None) LoggedOff (None, None)
| p_run a l b : in_scope a l b →
    protocol (Some a, None) (Executed false (Some a) l b) (Some a, None)
| p_begin a l : in_scope a l false ∨ in_scope a l true → explicit_tx_supported app = true →
    protocol (Some a, None) (Began (Some a) l) (Some a, Some l)
| p_run_txn a l b : in_scope a l b →
    protocol (Some a, Some l) (Executed true (Some a) l b) (Some a, Some l)
| p_commit a l : protocol (Some a, Some l) (CommitCalled l) (Some a, None)
| p_drop a l : protocol (Some a, Some l) Dropped (Some a, None).

Inductive protocols : Monitor → list Event → Monitor → Prop :=
| ps_nil m : protocols m [] m
| ps_cons m e m' es m'' : protocol m e m' → protocols m' es m'' → protocols m (e :: es) m''.

Lemma protocols_app m es m' es' m'' :
  protocols m es m' → protocols m' es' m'' → protocols m (es ++ es') m''.
Proof. induction 1; [done|]. intros. econstructor; eauto. Qed.

Lemma protocols_one m e m' : protocol m e m' → protocols m [e] m'.
Proof. intros. econstructor; [done|constructor]. Qed.

(** ** The invariant *)

Definition is_some {A} (o : option A) : bool := match o with Some _ => true | None => false end.

(** How the state determines identity and transaction. *)
Definition state_ok (st : State) (auth : bool) (txn : bool) : Prop :=
  match st with
  | AwaitingHello | Authentication => auth = false ∧ txn = false
  | Authenticating _ => False
  | Ready | Streaming => auth = true ∧ txn = false
  | TxReady | TxStreaming => auth = true ∧ txn = true
  | Failed => txn = true → auth = true
  end.

(** How the state determines the buffered results. *)
Definition streams_ok (s : Session) : Prop :=
  match state s with
  | Streaming => ∃ x, streams s = [x]
  | TxStreaming => streams s ≠ []
  | _ => streams s = []
  end.

Definition conn_ok (c : Conn (Txn:=Txn)) : Prop :=
  authenticated (cn_session c) = is_some (cn_auth c)
  ∧ state_ok (state (cn_session c)) (is_some (cn_auth c)) (is_some (cn_txn c))
  ∧ streams_ok (cn_session c).

Definition monitor_of (c : Conn) : Monitor := (cn_auth c, ledger_id <$> cn_txn c).

(** What a handled message has to satisfy. *)
Definition handled_ok (c : Conn) (h : Handled (W:=W)) : Prop :=
  protocols (monitor_of c) (h_events h) (monitor_of (h_conn h))
  ∧ (h_close h = false → conn_ok (h_conn h)).

(** ** The statement gate *)

Lemma check_statement_auth_ok w auth l b w' :
  check_statement_auth w auth l b = (inr tt, w') → ∃ a, auth = Some a ∧ in_scope a l b.
Proof.
  unfold check_statement_auth, in_scope. destruct auth as [a|]; [|done].
  destruct (expired a w) as [[] w1]; [done|]. intros H.
  destruct (if b then can_write a l else can_read a l) eqn:E; [eauto|done].
Qed.

Lemma authenticate_ok w auth a w' : authenticate app w auth = (inr a, w') → admissible a.
Proof.
  unfold authenticate, admissible. intros H.
  destruct (data_auth_mode app) eqn:Hm; [injection H as <- <-; done|..];
    destruct (token_of auth) as [f|[token|]] eqn:Ht; try done.
  1, 3: destruct (verify_data_principal w token) as [[e|p] w1] eqn:Hv; [done|];
    injection H as <- <-; cbn; split; [done|]; exists w, w1, token; split; [|done];
    intros ->; unfold token_of in Ht; case_all_in Ht; done.
  injection H as <- <-. done.
Qed.

Lemma drop_events (c : Conn) s : conn_ok c →
  protocols (monitor_of c) (drop_txn (cn_txn c)) (monitor_of (mkConn s None (cn_auth c))).
Proof.
  intros (Ha & Hs & _). unfold monitor_of, drop_txn. cbn. destruct (cn_txn c) as [t|]; [|constructor].
  apply protocols_one. cbn. destruct (cn_auth c); [constructor|].
  destruct (state (cn_session c)); cbn in Hs; naive_solver.
Qed.

(** ** Session steps that stay inside the session *)

Lemma fail_ok c m : conn_ok c → conn_ok (with_session c (fail (cn_session c) m).2).
Proof.
  intros (Ha & Hs & _). unfold conn_ok, streams_ok. cbn. split_and!; [done| |done].
  destruct (cn_txn c), (cn_auth c); cbn in *; try done.
  destruct (state (cn_session c)); cbn in *; naive_solver.
Qed.

Lemma settle_streams s idx qid st rows :
  streams_ok s → state s = Streaming ∨ state s = TxStreaming → streams s !! idx = Some (qid, st) →
  streams_ok (settle s idx qid st rows).2.
Proof.
  destruct s as [cfg st0 au ss nq hd]. unfold streams_ok, settle. cbn. intros Hst Hstate Hidx.
  destruct rows as [|row rows]; cbn.
  - unfold after_stream_close. cbn. destruct Hstate as [-> | ->]; cbn in *.
    + destruct Hst as [x ->]. by destruct idx.
    + destruct (delete idx ss) as [|y ss'] eqn:E; cbn; [done|congruence].
  - destruct Hstate as [-> | ->]; cbn in *.
    + destruct Hst as [x ->]. destruct idx; [|done]. cbn. eauto.
    + destruct ss, idx; cbn in *; done.
Qed.

Lemma settle_ok c idx qid st rows :
  conn_ok c → state (cn_session c) = Streaming ∨ state (cn_session c) = TxStreaming →
  streams (cn_session c) !! idx = Some (qid, st) →
  conn_ok (with_session c (settle (cn_session c) idx qid st rows).2).
Proof.
  intros (Ha & Hs & Hst) Hstate Hidx. split_and!; [|cbn|by apply settle_streams].
  all: unfold settle, after_stream_close; destruct rows; cbn; try done; case_match; cbn; try done.
  all: unfold in_transaction; cbn; destruct Hstate as [E|E]; rewrite E in *; done.
Qed.

Lemma pull_ok c extra : conn_ok c →
  state (cn_session c) = Streaming ∨ state (cn_session c) = TxStreaming →
  conn_ok (with_session c (serve_pull (cn_session c) extra).2)
  ∧ conn_ok (with_session c (serve_discard (cn_session c) extra).2).
Proof.
  intros Hc Hst. assert (conn_ok (with_session c (cn_session c))) as Hc' by by destruct c.
  unfold serve_pull, serve_discard.
  destruct (stream_index _ _) as [idx|]; cbn; [|done].
  destruct (streams (cn_session c) !! idx) as [[qid st]|] eqn:E; cbn; [|done].
  pose proof (λ rows, settle_ok c idx qid st rows Hc Hst E) as H.
  split; [|apply H]. specialize (H (drop (batch extra (length (rs_rows st))) (rs_rows st))).
  by destruct (settle _ _ _ _ _).
Qed.

(** ** The turns *)

(** An RUN the session lets through. *)
Definition may_run (s : Session) : Prop :=
  state s = Ready ∨ state s = TxReady ∨ state s = TxStreaming.

Lemma try_execute_run_ok w run v auth r w' evs :
  try_execute_run w run v auth = (r, w', evs) →
  evs = [] ∨ ∃ a l b, auth = Some a ∧ in_scope a l b ∧ evs = [Executed false (Some a) l b].
Proof.
  unfold try_execute_run. intros H.
  destruct (run_db run) as [l|]; [|naive_solver].
  destruct (params_to_json _) as [f|ps]; [naive_solver|].
  destruct (cypher_statement_is_write _) as [e|b]; [naive_solver|].
  destruct (check_statement_auth w auth l b) as [[f|[]] w1] eqn:Hc; [naive_solver|].
  apply check_statement_auth_ok in Hc as (a & -> & Ha).
  destruct (execute_statement _ _ _ _ _ _ _) as [r1 w2]. injection H as <- <- <-. right. eauto 10.
Qed.

Lemma try_execute_txn_run_ok w t run v auth r t' w' evs :
  try_execute_txn_run w t run v auth = (r, t', w', evs) →
  ledger_id t' = ledger_id t
  ∧ (evs = [] ∨ ∃ a b, auth = Some a ∧ in_scope a (ledger_id t) b
       ∧ evs = [Executed true (Some a) (ledger_id t) b]).
Proof.
  unfold try_execute_txn_run. intros H.
  destruct (params_to_json _) as [f|ps]; [naive_solver|].
  destruct (cypher_statement_is_write _) as [e|b]; [naive_solver|].
  destruct (check_statement_auth w auth (ledger_id t) b) as [[f|[]] w1] eqn:Hc; [naive_solver|].
  apply check_statement_auth_ok in Hc as (a & -> & Ha).
  destruct (execute_txn_statement _ _ _ _ _ _ _) as [[r1 t1] w2] eqn:He.
  injection H as <- <- <- <-. apply statement_ledger in He. split; [done|]. right. eauto 10.
Qed.

(** What running a statement does to the invariant. *)
Lemma run_succeeded_ok c txn st ms :
  conn_ok c → may_run (cn_session c) → is_some txn = is_some (cn_txn c) →
  conn_ok (mkConn (run_succeeded (cn_session c) st ms).2 txn (cn_auth c)).
Proof.
  destruct c as [[cfg st0 au ss nq hd] txn0 auth]. unfold conn_ok, streams_ok, may_run, run_succeeded. cbn.
  intros (Ha & Hs & Hst) Hr Ht. rewrite Ht.
  destruct Hr as [-> | [-> | ->]]; cbn in *; (split; [done|split; [done|]]).
  - rewrite Hst. eauto.
  - by destruct ss.
  - by destruct ss.
Qed.

Lemma run_failed_ok c code msg :
  conn_ok c → conn_ok (mkConn (run_failed (cn_session c) code msg).2 None (cn_auth c)).
Proof. intros (Ha & _). unfold conn_ok, streams_ok. by cbn. Qed.

Lemma execute_run_ok c w run :
  conn_ok c → may_run (cn_session c) →
  let '(reply, c', w', evs) := execute_run c w run in handled_ok c (mkHandled [reply] false c' w' evs).
Proof.
  intros Hc Hr. unfold execute_run, handled_ok.
  set (v := version (config (cn_session c))).
  assert (∃ txn r w1 evs,
    match cn_txn c with
    | Some txn => let '(r, txn, w, evs) := try_execute_txn_run w txn run v (cn_auth c) in (r, Some txn, w, evs)
    | None => let '(r, w, evs) := try_execute_run w run v (cn_auth c) in (r, None, w, evs)
    end = (r, txn, w1, evs)
    ∧ is_some txn = is_some (cn_txn c)
    ∧ protocols (monitor_of c) evs (cn_auth c, ledger_id <$> txn)
    ∧ (ledger_id <$> txn) = (ledger_id <$> cn_txn c)) as (txn & r & w1 & evs & -> & Ht & Hp & Hl).
  { unfold monitor_of. destruct (cn_txn c) as [t|].
    - destruct (try_execute_txn_run w t run v (cn_auth c)) as [[[r t'] w1] evs] eqn:E.
      apply try_execute_txn_run_ok in E as [El E]. exists (Some t'), r, w1, evs. cbn. rewrite El.
      split_and!; [done..| |done]. destruct E as [-> | (a & b & -> & Ha & ->)]; [constructor|].
      by apply protocols_one, p_run_txn.
    - destruct (try_execute_run w run v (cn_auth c)) as [[r w1] evs] eqn:E.
      apply try_execute_run_ok in E. exists None, r, w1, evs. cbn.
      split_and!; [done..| |done]. destruct E as [-> | (a & l & b & -> & Ha & ->)]; [constructor|].
      by apply protocols_one, p_run. }
  destruct r as [f|st].
  - cbn. split; [|intros _; exact (run_failed_ok c (rf_code f) (rf_message f) Hc)].
    eapply protocols_app; [exact Hp|].
    pose proof (drop_events c (run_failed (cn_session c) (rf_code f) (rf_message f)).2 Hc) as Hd.
    unfold monitor_of in *. rewrite Hl. cbn in *. destruct txn, (cn_txn c); done.
  - destruct (elapsed_ms w1) as [ms w2]. cbn. split; [done|]. intros _. exact (run_succeeded_ok c txn st ms Hc Hr Ht).
Qed.

Lemma handle_begin_ok c w b :
  conn_ok c → state (cn_session c) = Ready →
  let '(reply, c', w', evs) := handle_begin app c w b in handled_ok c (mkHandled [reply] false c' w' evs).
Proof.
  intros Hc Hr. unfold handle_begin.
  assert (∀ w code msg, handled_ok c (mkHandled [(begin_failed (cn_session c) code msg).1] false
    (with_session c (begin_failed (cn_session c) code msg).2) w [])) as Hfail.
  { intros. unfold handled_ok. cbn. split; [constructor|]. intros _. destruct Hc as (Ha & Hs & Hst).
    unfold conn_ok, streams_ok in *. rewrite Hr in Hs, Hst. cbn in *. split_and!; [done| |done].
    by destruct Hs as [-> ->]. }
  destruct (explicit_tx_supported app) eqn:Hx; [|apply Hfail].
  destruct (begin_db b) as [l|]; [|apply Hfail].
  assert (∃ checked w1,
    match check_statement_auth w (cn_auth c) l false with
    | (inl _, w) => check_statement_auth w (cn_auth c) l true
    | ok => ok end = (checked, w1)
    ∧ (checked = inr tt → ∃ a, cn_auth c = Some a ∧ (in_scope a l false ∨ in_scope a l true)))
    as (checked & w1 & -> & Hok).
  { destruct (check_statement_auth w (cn_auth c) l false) as [[f|[]] w1] eqn:E1.
    - destruct (check_statement_auth w1 (cn_auth c) l true) as [ch w2] eqn:E2. exists ch, w2.
      split; [done|]. intros ->. apply check_statement_auth_ok in E2 as (a & ? & ?). eauto.
    - exists (inr tt), w1. split; [done|]. intros _. apply check_statement_auth_ok in E1 as (a & ? & ?). eauto. }
  destruct checked as [f|[]]; [apply Hfail|].
  destruct (begin_cypher_transaction w1 l (cn_auth c)) as [[e|t] w2] eqn:Hb; [apply Hfail|].
  apply begin_ledger in Hb. destruct (Hok eq_refl) as (a & Ha & Hsc). destruct Hc as (Hau & Hs & Hst).
  unfold handled_ok, conn_ok, streams_ok in *. rewrite Hr in Hs, Hst. cbn in *. rewrite Ha in *. cbn in *.
  split.
  - apply protocols_one. unfold monitor_of. cbn. rewrite Ha, Hb. destruct Hs as [_ Ht].
    destruct (cn_txn c); [done|]. by constructor.
  - done.
Qed.

Lemma handle_commit_ok c w :
  conn_ok c → in_transaction (cn_session c) = true →
  let c := with_session c (with_streams (cn_session c) []) in
  let '(reply, c', w', evs) := handle_commit show_i64 c w in handled_ok c (mkHandled [reply] false c' w' evs).
Proof.
  destruct c as [s txn auth]. unfold conn_ok. cbn. intros (Hau & Hs & Hst) Hr. unfold handle_commit. cbn.
  assert (is_some auth = true ∧ is_some txn = true) as [Ha Ht].
  { unfold in_transaction in Hr. destruct (state s); done. }
  destruct txn as [t|]; [|done]. destruct auth as [a|]; [|done].
  destruct (expired a w) as [[] w1]; [|destruct (commit_cypher_transaction w1 t) as [[n|e h|m] w2]];
    unfold handled_ok, monitor_of, conn_ok, streams_ok; cbn; (split; [apply protocols_one; constructor|done]).
Qed.

(** ** Every request *)

(** Acting on what a session method returned. *)
Definition act_ok (c : Conn) (w : W) (r : Turn * Session) : Prop :=
  handled_ok c (act app show_i64 (with_session c r.2) w r.1).

Lemma reply_ok c w replies s : conn_ok (with_session c s) → act_ok c w (TReply replies, s).
Proof. intros Hc. split; [constructor|done]. Qed.

Lemma close_ok c w replies s : act_ok c w (TClose replies, s).
Proof. split; [constructor|done]. Qed.

Lemma fail_turn_ok c w m : conn_ok c → act_ok c w (fail (cn_session c) m).
Proof. intros Hc. exact (reply_ok c w _ _ (fail_ok c m Hc)). Qed.

Lemma serve_turn_ok c w extra :
  conn_ok c → state (cn_session c) = Streaming ∨ state (cn_session c) = TxStreaming →
  act_ok c w (reply_pull (cn_session c) extra) ∧ act_ok c w (reply_discard (cn_session c) extra).
Proof.
  intros Hc Hst. destruct (pull_ok c extra Hc Hst) as [H1 H2]. unfold reply_pull, reply_discard.
  destruct (serve_pull _ _), (serve_discard _ _). split; by apply reply_ok.
Qed.

Lemma run_turn_ok c w run : conn_ok c → may_run (cn_session c) → act_ok c w (TExecute run, cn_session c).
Proof.
  intros Hc Hr. unfold act_ok. cbn. replace (with_session c (cn_session c)) with c by by destruct c.
  pose proof (execute_run_ok c w run Hc Hr) as H. by destruct (execute_run c w run) as [[[? ?] ?] ?].
Qed.

(** Authentication is tried only where nobody is logged in. *)
Lemma authenticate_turn_ok c w s auth via :
  conn_ok c → state (cn_session c) = AwaitingHello ∨ state (cn_session c) = Authentication →
  state s = Authenticating via → streams s = streams (cn_session c) →
  authenticated s = authenticated (cn_session c) →
  act_ok c w (TAuthenticate auth, s).
Proof.
  destruct c as [[cfg st0 au ss nq hd] txn au0], s as [cfg' st' au' ss' nq' hd'].
  unfold conn_ok, streams_ok, act_ok. cbn.
  intros (Ha & Hs & Hst) Hst0 -> -> ->.
  assert (au0 = None ∧ txn = None ∧ ss = []) as (-> & -> & ->).
  { destruct Hst0 as [-> | ->], txn, au0; cbn in *; naive_solver. }
  destruct (authenticate app w auth) as [[f|a] w'] eqn:E.
  - unfold auth_failed. cbn. destruct via; cbn; (split; [constructor|]); [done|]. intros _.
    unfold conn_ok, streams_ok. by cbn.
  - unfold auth_succeeded, handled_ok, conn_ok, streams_ok. cbn. split; [|done].
    apply protocols_one. constructor. by eapply authenticate_ok.
Qed.

(** Leaving a transaction. *)
Lemma end_turn_ok c w t :
  conn_ok c → in_transaction (cn_session c) = true → t = TCommit ∨ t = TRollback →
  act_ok c w (t, with_streams (cn_session c) []).
Proof.
  intros Hc Ht [-> | ->]; unfold act_ok; cbn.
  - pose proof (handle_commit_ok c w Hc Ht) as H. cbn zeta in H.
    destruct (handle_commit _ _ _) as [[[? ?] ?] ?]. by destruct c.
  - split; cbn; [by apply drop_events|]. intros _. destruct Hc as (Ha & Hs & _).
    unfold in_transaction in Ht. unfold conn_ok, streams_ok. cbn.
    destruct (state (cn_session c)); try done; cbn in *; naive_solver.
Qed.

Lemma on_ready_ok c w r : conn_ok c → state (cn_session c) = Ready → act_ok c w (on_ready (cn_session c) r).
Proof.
  intros Hc Hst. destruct r; cbn [on_ready]; try by apply fail_turn_ok.
  - destruct (uses_logon _); [|by apply fail_turn_ok]. destruct Hc as (Ha & Hs & Hst').
    unfold streams_ok in Hst'. rewrite Hst in Hs, Hst'. cbn in Hs. destruct c as [s txn au]; cbn in *.
    destruct txn, au; cbn in *; try naive_solver.
    split; [apply protocols_one; constructor|]. intros _. unfold conn_ok, streams_ok. by cbn.
  - apply run_turn_ok; [done|by left].
  - unfold act_ok. cbn. replace (with_session c (cn_session c)) with c by by destruct c.
    pose proof (handle_begin_ok c w (mkBeginRequest (resolve_db (cn_session c) extra)) Hc Hst) as H.
    by destruct (handle_begin _ _ _ _) as [[[? ?] ?] ?].
  - apply reply_ok. by destruct c.
  - apply reply_ok. by destruct c.
Qed.

Lemma on_tx_ok c w r : conn_ok c → state (cn_session c) = TxReady ∨ state (cn_session c) = TxStreaming →
  act_ok c w (if decide (state (cn_session c) = TxReady) then on_tx_ready (cn_session c) r
              else on_tx_streaming (cn_session c) r).
Proof.
  intros Hc Hst. assert (in_transaction (cn_session c) = true) as Ht
    by (unfold in_transaction; by destruct Hst as [-> | ->]).
  destruct Hst as [Hst|Hst]; rewrite Hst; cbn; destruct r; cbn; try by apply fail_turn_ok.
  all: try (apply run_turn_ok; [done|unfold may_run; auto]).
  all: try (apply end_turn_ok; [done|done|auto]).
  all: try (apply serve_turn_ok; [done|auto]).
  apply reply_ok. by destruct c.
Qed.

Lemma on_request_ok c w r : conn_ok c → act_ok c w (on_request (cn_session c) r).
Proof.
  intros Hc.
  assert (act_ok c w (TReply [Ignored], cn_session c)) as Hign by (apply reply_ok; by destruct c).
  assert (r = Goodbye ∨ r = Reset ∨ on_request (cn_session c) r =
    match state (cn_session c) with
    | AwaitingHello => on_awaiting_hello (cn_session c) r
    | Authentication => on_authentication (cn_session c) r
    | Authenticating _ => (TClose [invalid "request while authentication is in flight"], cn_session c)
    | Ready => on_ready (cn_session c) r
    | Streaming => on_streaming (cn_session c) r
    | TxReady => on_tx_ready (cn_session c) r
    | TxStreaming => on_tx_streaming (cn_session c) r
    | Failed => (TReply [Ignored], cn_session c)
    end) as [-> | [-> | ->]] by (destruct r; auto).
  - apply close_ok.
  - unfold on_request, on_reset. destruct (decide _); [apply close_ok|].
    split; cbn; [by apply drop_events|]. intros _. destruct Hc as (Ha & _).
    unfold conn_ok, streams_ok. cbn. rewrite Ha. by destruct (cn_auth c).
  - destruct (state (cn_session c)) eqn:Hst; try done; try apply close_ok.
    + destruct r; cbn; try apply close_ok. destruct (uses_logon _).
      * apply reply_ok. destruct Hc as (Ha & Hs & Hst'). unfold streams_ok in *. rewrite Hst in *. by cbn.
      * eapply authenticate_turn_ok; eauto.
    + destruct r; cbn; try apply close_ok. eapply authenticate_turn_ok; eauto.
    + by apply on_ready_ok.
    + destruct r; cbn; try by apply fail_turn_ok. all: apply serve_turn_ok; auto.
    + pose proof (on_tx_ok c w r Hc (or_introl Hst)) as H. by rewrite decide_True in H.
    + pose proof (on_tx_ok c w r Hc (or_intror Hst)) as H. rewrite decide_False in H; [done|congruence].
Qed.

Lemma handle_message_ok c w payload : conn_ok c → handled_ok c (handle_message c w payload).
Proof.
  intros Hc. unfold BoltServer.handle_message. destruct (decode_request payload) as [e|r]; [split; [constructor|done]|].
  unfold handle_request. destruct (impersonated r); [split; [constructor|done]|].
  pose proof (on_request_ok c w r Hc) as H. unfold act_ok in H. by destruct (on_request _ r).
Qed.

Lemma handle_all_ok c w ps : conn_ok c → handled_ok c (handle_all app display show_i64 c w ps).
Proof.
  revert c w. induction ps as [|p ps IH]; intros c w Hc; [split; [constructor|done]|].
  destruct (handle_message_ok c w p Hc) as [H1 H2]. cbn [handle_all].
  destruct (h_close _) eqn:E; [split; [done|congruence]|].
  destruct (IH _ (h_world (handle_message c w p)) (H2 eq_refl)) as [H3 H4].
  split; cbn; [|done]. by eapply protocols_app.
Qed.

Lemma drain_ok n a c w : conn_ok c → handled_ok c (drain app display show_i64 n a c w).2.
Proof.
  revert a c w. induction n as [|n IH]; intros a c w Hc; cbn [drain]; [split; [constructor|done]|].
  destruct (next_message a) as [[p|] a']; [|split; [constructor|done]].
  destruct (handle_message_ok c w p Hc) as [H1 H2].
  destruct (h_close _) eqn:E; [split; [done|cbn; congruence]|].
  specialize (IH a' _ (h_world (handle_message c w p)) (H2 eq_refl)).
  destruct (drain _ _ _ _ _ _ _) as [a'' h]. destruct IH as [H3 H4].
  split; cbn in *; [|done]. by eapply protocols_app.
Qed.

(** Whatever bytes arrive, in whatever pieces. *)
Lemma serve_ok a c w pieces : conn_ok c → handled_ok c (serve app display show_i64 a c w pieces).
Proof.
  revert a c w. induction pieces as [|p pieces IH]; intros a c w Hc; cbn [serve]; [split; [constructor|done]|].
  assert (handled_ok c (serve_piece app display show_i64 a c w p).2) as [H1 H2].
  { unfold serve_piece. destruct p as [|x p]; [split; [constructor|done]|].
    destruct (push a (x :: p)) as [[e|] a']; [split; [constructor|done]|]. by apply drain_ok. }
  destruct (serve_piece _ _ _ _ _ _ _) as [a' h]. cbn in *.
  destruct (h_close h) eqn:E; [split; [done|congruence]|].
  destruct (IH a' (h_conn h) (h_world h) (H2 eq_refl)) as [H3 H4].
  split; cbn; [|done]. by eapply protocols_app.
Qed.

Lemma new_connection_ok v agent id : conn_ok (new_connection app v agent id).
Proof. by unfold conn_ok, streams_ok. Qed.
End monitor.
