(* ===== verification/BoltTheorems.v ===== *)
(** * Result streams: every row is served once

    [rows_of] is what is still buffered under a query id.  [qids_ok] says that
    ids are distinct and below the next one; it holds as long as fewer than
    [2 ^ 63] statements ran on the connection. *)

From S2P Require Import Prelude Text BoltPack BoltChunk BoltMessage BoltSession BoltServer.
From S2P Require Import BoltMonitor BoltPackSound.
Fixpoint rows_of (ss : list (Z * ResultStream)) (q : Z) : list (list Value) :=
  match ss with
  | [] => []
  | (q', st) :: ss => if decide (q' = q) then rs_rows st else rows_of ss q
  end.

Definition remaining (s : Session) (q : Z) : list (list Value) := rows_of (streams s) q.

(** The rows among replies. *)
Definition records (replies : list Response) : list (list Value) :=
  omap (λ r, match r with Record_ row => Some row | _ => None end) replies.

Definition turn_replies (t : Turn) : list Response :=
  match t with TReply r | TClose r | TLogoff r | TReset r => r | _ => [] end.

Definition qids_ok (n : Z) (s : Session) : Prop :=
  NoDup (streams s).*1 ∧ Forall (λ q, 0 <= q < next_qid s) (streams s).*1 ∧ 0 <= next_qid s <= n.

(** ** Lists of streams *)

Lemma rows_of_notin ss q : q ∉ ss.*1 → rows_of ss q = [].
Proof.
  induction ss as [|[q' st] ss IH]; [done|]. csimpl. rewrite elem_of_cons. intros Hq.
  rewrite decide_False by naive_solver. apply IH. naive_solver.
Qed.

Lemma rows_of_lookup ss i q st : NoDup ss.*1 → ss !! i = Some (q, st) → rows_of ss q = rs_rows st.
Proof.
  revert i. induction ss as [|[q' st'] ss IH]; intros i Hnd Hi; [done|]. csimpl in *. apply NoDup_cons in Hnd as [Hn Hnd].
  destruct i as [|i]; cbn in Hi; [injection Hi as <- <-; by rewrite decide_True|].
  rewrite decide_False; [by eapply IH|]. intros ->. apply Hn. apply list_elem_of_fmap.
  exists (q, st). split; [done|]. by eapply list_elem_of_lookup_2.
Qed.

Lemma rows_of_delete ss i q st q' :
  NoDup ss.*1 → ss !! i = Some (q, st) →
  rows_of (delete i ss) q' = if decide (q' = q) then [] else rows_of ss q'.
Proof.
  revert i. induction ss as [|[q0 st0] ss IH]; intros i Hnd Hi; [done|]. csimpl in *. apply NoDup_cons in Hnd as [Hn Hnd].
  destruct i as [|i]; cbn in Hi.
  - injection Hi as -> ->. cbn. destruct (decide (q' = q)) as [->|]; [by apply rows_of_notin|].
    by rewrite decide_False.
  - change (delete (S i) ((q0, st0) :: ss)) with ((q0, st0) :: delete i ss). cbn [rows_of].
    rewrite (IH i Hnd Hi). destruct (decide (q0 = q')) as [->|]; [|done].
    rewrite decide_False; [done|]. intros ->. apply Hn, list_elem_of_fmap.
    exists (q, st). split; [done|]. by eapply list_elem_of_lookup_2.
Qed.

Lemma rows_of_insert ss i q st st' q' :
  NoDup ss.*1 → ss !! i = Some (q, st) →
  rows_of (<[i := (q, st')]> ss) q' = if decide (q' = q) then rs_rows st' else rows_of ss q'.
Proof.
  revert i. induction ss as [|[q0 st0] ss IH]; intros i Hnd Hi; [done|]. csimpl in *. apply NoDup_cons in Hnd as [Hn Hnd].
  destruct i as [|i]; cbn in Hi.
  - injection Hi as -> ->. cbn. destruct (decide (q = q')) as [->|]; [by rewrite decide_True|].
    by rewrite decide_False by done.
  - change (<[S i := (q, st')]> ((q0, st0) :: ss)) with ((q0, st0) :: <[i := (q, st')]> ss). cbn [rows_of].
    rewrite (IH i Hnd Hi). destruct (decide (q0 = q')) as [->|]; [|done].
    rewrite decide_False; [done|]. intros ->. apply Hn, list_elem_of_fmap.
    exists (q, st). split; [done|]. by eapply list_elem_of_lookup_2.
Qed.

Lemma records_app a b : records (a ++ b) = records a ++ records b.
Proof. apply omap_app. Qed.

Lemma records_fmap rows : records (Record_ <$> rows) = rows.
Proof. induction rows as [|r rows IH]; [done|]. csimpl. by rewrite IH. Qed.

(** ** One PULL *)

Lemma settle_rows s idx q st rows q' :
  NoDup (streams s).*1 → streams s !! idx = Some (q, st) →
  remaining (settle s idx q st rows).2 q' = if decide (q' = q) then rows else remaining s q'.
Proof.
  intros Hnd Hi. unfold settle, remaining. destruct rows as [|row rows]; cbn.
  - unfold after_stream_close. rewrite <- (rows_of_delete _ idx q st) by done. cbn.
    by destruct (delete idx (streams s)) eqn:E; cbn; rewrite ?E.
  - by rewrite (rows_of_insert _ idx q st).
Qed.

Lemma settle_records s idx q st rows : records [(settle s idx q st rows).1] = [].
Proof. by destruct rows. Qed.

Lemma rows_of_find s q :
  match fst <$> list_find (λ p, p.1 = q) (streams s) with
  | Some idx => ∃ st, streams s !! idx = Some (q, st)
  | None => remaining s q = []
  end.
Proof.
  destruct (list_find _ _) as [[i [q' st]]|] eqn:E; cbn.
  - apply list_find_Some in E as (Hi & Hq & _). cbn in Hq. subst. eauto.
  - apply list_find_None in E. apply rows_of_notin. rewrite list_elem_of_fmap.
    intros ([q' st] & -> & Hin). rewrite Forall_forall in E. by apply (E _ Hin).
Qed.

(** A PULL that names its stream takes rows from its front and from nowhere
    else. *)
Lemma pull_step s extra q :
  streams_ok s → NoDup (streams s).*1 → get_int extra "qid" = Some q → 0 <= q →
  let r := on_request s (Pull extra) in
  records (turn_replies r.1) = take (batch extra (length (remaining s q))) (remaining s q)
  ∧ remaining r.2 q = drop (batch extra (length (remaining s q))) (remaining s q)
  ∧ ∀ q', q' ≠ q → remaining r.2 q' = remaining s q'.
Proof.
  intros Hok Hnd Hq Hq0. cbn zeta.
  assert (∀ s' m, streams s = [] → streams s' = [] → records (turn_replies m) = [] →
    records (turn_replies m) = take (batch extra (length (remaining s q))) (remaining s q)
    ∧ remaining s' q = drop (batch extra (length (remaining s q))) (remaining s q)
    ∧ ∀ q', q' ≠ q → remaining s' q' = remaining s q') as Hempty.
  { intros s' m Hs Hs' ->. unfold remaining. rewrite Hs, Hs'. cbn. by rewrite take_nil, drop_nil. }
  assert (let r := reply_pull s extra in
    records (turn_replies r.1) = take (batch extra (length (remaining s q))) (remaining s q)
    ∧ remaining r.2 q = drop (batch extra (length (remaining s q))) (remaining s q)
    ∧ ∀ q', q' ≠ q → remaining r.2 q' = remaining s q') as Hserve.
  { cbn zeta. unfold reply_pull, serve_pull, stream_index. rewrite Hq, (proj2 (Z.leb_le _ _)) by done.
    pose proof (rows_of_find s q) as Hf. destruct (fst <$> list_find _ _) as [idx|].
    - destruct Hf as [st Hst]. cbn. rewrite Hst. cbn.
      assert (remaining s q = rs_rows st) as -> by by eapply rows_of_lookup.
      set (k := batch extra (length (rs_rows st))).
      pose proof (settle_records s idx q st (drop k (rs_rows st))) as Hrec.
      pose proof (λ q', settle_rows s idx q st (drop k (rs_rows st)) q' Hnd Hst) as Hrem.
      destruct (settle s idx q st _) as [reply s']. cbn in *. rewrite records_app, records_fmap.
      change (records [reply] = []) in Hrec. rewrite Hrec, app_nil_r.
      split_and!; [done| |intros q' Hne]; rewrite Hrem; [by rewrite decide_True|by rewrite decide_False].
    - cbn. rewrite Hf. by rewrite take_nil, drop_nil. }
  unfold streams_ok in Hok. unfold on_request. destruct (state s); try exact Hserve; by apply Hempty.
Qed.

(** ** Query ids stay distinct *)

(** A session step that adds no stream. *)
Definition shrinks (s s' : Session) : Prop :=
  (streams s').*1 `sublist_of` (streams s).*1 ∧ next_qid s' = next_qid s.

Lemma shrinks_refl s : shrinks s s.
Proof. by split. Qed.

Lemma shrinks_clear s s' : streams s' = [] → next_qid s' = next_qid s → shrinks s s'.
Proof. intros H ?. split; [rewrite H; apply sublist_nil_l|done]. Qed.

Lemma shrinks_qids n s s' : shrinks s s' → qids_ok n s → qids_ok n s'.
Proof.
  intros [Hsub Hn] (Hnd & Hf & Hq). split_and!; [by eapply sublist_NoDup| |lia|lia].
  rewrite Hn. rewrite Forall_forall in *. intros q Hin. apply Hf. by eapply elem_of_submseteq, sublist_submseteq.
Qed.

Lemma settle_shrinks s idx q st rows : streams s !! idx = Some (q, st) → shrinks s (settle s idx q st rows).2.
Proof.
  intros Hi. unfold settle. destruct rows as [|row rows]; cbn.
  - split; [|unfold after_stream_close; by case_match].
    assert (streams (after_stream_close (with_streams s (delete idx (streams s)))) = delete idx (streams s)) as ->.
    { unfold after_stream_close. cbn. by destruct (delete idx (streams s)) eqn:E. }
    apply fmap_sublist, sublist_delete.
  - split; [|done]. cbn. rewrite list_fmap_insert. cbn.
    rewrite list_insert_id; [done|]. by rewrite list_lookup_fmap, Hi.
Qed.

Lemma serve_shrinks s extra :
  shrinks s (reply_pull s extra).2 ∧ shrinks s (reply_discard s extra).2.
Proof.
  unfold reply_pull, reply_discard, serve_pull, serve_discard.
  destruct (stream_index s extra) as [idx|]; cbn; [|by split; apply shrinks_refl].
  destruct (streams s !! idx) as [[q st]|] eqn:E; cbn; [|by split; apply shrinks_refl].
  pose proof (λ rows, settle_shrinks s idx q st rows E) as H.
  split; [specialize (H (drop (batch extra (length (rs_rows st))) (rs_rows st)))|specialize (H (drop (batch extra (length (rs_rows st))) (rs_rows st)))];
    by destruct (settle _ _ _ _ _).
Qed.

Lemma on_request_shrinks s r : shrinks s (on_request s r).2.
Proof.
  pose proof (shrinks_refl s). pose proof (λ e, proj1 (serve_shrinks s e)) as Hp.
  pose proof (λ e, proj2 (serve_shrinks s e)) as Hd.
  assert (∀ m, shrinks s (fail s m).2) as Hf by (intros; by apply shrinks_clear).
  assert (∀ st, shrinks s (with_state (with_streams s []) st)) as Hw by (intros; by apply shrinks_clear).
  destruct r; cbn; try done; try (unfold on_reset; destruct (decide _); [done|apply Hw]);
    destruct (state s); cbn; auto; try (by split); try (by apply shrinks_clear);
    destruct (uses_logon _); first [by split | by apply shrinks_clear].
Qed.

Section qids.
Context {W Txn : Type} `{!BoltBackend W Txn}.
Context (app : AppConfig) (display : DecodeError → string) (show_i64 : Z → string).

Lemma run_succeeded_qids n s st ms :
  qids_ok n s → n < 2 ^ 63 - 1 → qids_ok (n + 1) (run_succeeded s st ms).2.
Proof.
  intros (Hnd & Hf & Hq) Hn. unfold qids_ok, run_succeeded. cbn.
  assert (i64_wrap (next_qid s + 1) = next_qid s + 1) as ->.
  { unfold i64_wrap. change two64 with (2 ^ 64). apply to_signed_mod; [done|].
    change (2 ^ (64 - 1)) with (2 ^ 63). lia. }
  rewrite fmap_app. cbn. rewrite Forall_forall in Hf. split_and!; [| |lia|lia].
  - apply NoDup_app. split; [done|]. split; [|apply NoDup_singleton].
    intros q Hin ->%list_elem_of_singleton. specialize (Hf _ Hin). lia.
  - rewrite Forall_forall. intros q [Hin| ->%list_elem_of_singleton]%elem_of_app; [specialize (Hf _ Hin)|]; lia.
Qed.

Lemma qids_mono n m s : qids_ok n s → n <= m → qids_ok m s.
Proof. intros (H1 & H2 & H3) Hle. split_and!; [done|done|lia|lia]. Qed.

Lemma act_qids n c w t :
  qids_ok n (cn_session c) → n < 2 ^ 63 - 1 → qids_ok (n + 1) (cn_session (h_conn (act app show_i64 c w t))).
Proof.
  intros Hq Hn. assert (∀ s', shrinks (cn_session c) s' → qids_ok (n + 1) s') as Hs.
  { intros s' H. eapply qids_mono; [by eapply shrinks_qids|lia]. }
  pose proof (Hs _ (shrinks_refl _)) as Hrefl.
  assert (∀ s' st, s' = with_state (cn_session c) st → qids_ok (n + 1) s') as Hst by (intros s' st ->; by apply Hs).
  destruct t; cbn; try done.
  - destruct (authenticate app w auth) as [[f|a] w']; [|by apply Hs].
    unfold auth_failed. by destruct (decide _); cbn; apply Hs.
  - unfold execute_run.
    destruct (match cn_txn c with Some _ => _ | None => _ end) as [[[[f|st] txn] w1] evs].
    + cbn. apply Hs. by apply shrinks_clear.
    + destruct (elapsed_ms w1) as [ms w2]. cbn. by apply (run_succeeded_qids n _ st ms).
  - unfold handle_begin. destruct (explicit_tx_supported app); [|by apply Hs].
    destruct (begin_db begin) as [l|]; [|by apply Hs].
    destruct (check_statement_auth w (cn_auth c) l false) as [[f|u] w1];
      [destruct (check_statement_auth w1 (cn_auth c) l true) as [[f'|u'] w2]; [by apply Hs|]|];
      destruct (begin_cypher_transaction _ _ _) as [[e|t] w3]; by apply Hs.
  - unfold handle_commit. destruct (cn_txn c); [|by apply Hs].
    destruct (cn_auth c) as [a|]; [destruct (expired a w) as [[] w1]; [by apply Hs|]|];
      destruct (commit_cypher_transaction _ _) as [[] w2]; by apply Hs.
Qed.

Lemma handle_message_qids n c w p :
  qids_ok n (cn_session c) → n < 2 ^ 63 - 1 →
  qids_ok (n + 1) (cn_session (h_conn (handle_message app display show_i64 c w p))).
Proof.
  intros Hq Hn. pose proof (qids_mono n (n + 1) _ Hq ltac:(lia)). unfold handle_message, handle_request.
  destruct (decode_request p) as [e|r]; [done|]. destruct (impersonated r); [done|].
  pose proof (on_request_shrinks (cn_session c) r) as Hs. destruct (on_request _ r) as [t s].
  apply act_qids; [|done]. by eapply shrinks_qids.
Qed.

Lemma handle_all_qids n c w ps :
  qids_ok n (cn_session c) → n + Z.of_nat (length ps) < 2 ^ 63 →
  qids_ok (n + Z.of_nat (length ps)) (cn_session (h_conn (handle_all app display show_i64 c w ps))).
Proof.
  revert n c w. induction ps as [|p ps IH]; intros n c w Hq Hn; cbn [length handle_all] in *.
  { by rewrite Z.add_0_r. }
  pose proof (handle_message_qids n c w p Hq ltac:(lia)) as Hm.
  destruct (h_close _); [eapply qids_mono; [done|lia]|]. cbn.
  replace (n + Z.of_nat (S (length ps))) with (n + 1 + Z.of_nat (length ps)) by lia. apply IH; [done|lia].
Qed.
End qids.

(** ** Sequences of PULLs *)

Definition pull_request (q n : Z) : Request := Pull [("n", VInteger n); ("qid", VInteger q)].

(** The rows each of a sequence of PULLs delivers, with its query id. *)
Fixpoint pull_all (s : Session) (pulls : list (Z * Z)) : list (Z * list (list Value)) * Session :=
  match pulls with
  | [] => ([], s)
  | (q, n) :: pulls =>
      let '(t, s) := on_request s (pull_request q n) in
      let '(out, s) := pull_all s pulls in
      ((q, records (turn_replies t)) :: out, s)
  end.

(** Everything delivered for [q], in order. *)
Definition delivered_for (out : list (Z * list (list Value))) (q : Z) : list (list Value) :=
  concat ((filter (λ p, p.1 = q) out).*2).

Lemma pull_streams_ok s extra : streams_ok s → streams_ok (on_request s (Pull extra)).2.
Proof.
  intros Hok. assert (state s = Streaming ∨ state s = TxStreaming → streams_ok (reply_pull s extra).2) as Hserve.
  { intros Hst. unfold reply_pull, serve_pull. destruct (stream_index s extra) as [idx|]; cbn; [|done].
    destruct (streams s !! idx) as [[q st]|] eqn:E; cbn; [|done].
    pose proof (settle_streams s idx q st (drop (batch extra (length (rs_rows st))) (rs_rows st)) Hok Hst E).
    by destruct (settle _ _ _ _ _). }
  unfold on_request. destruct (state s) eqn:E; cbn; auto; done.
Qed.

Lemma pull_all_delivers s pulls q :
  streams_ok s → NoDup (streams s).*1 → Forall (λ p, 0 <= p.1) pulls →
  delivered_for (pull_all s pulls).1 q ++ remaining (pull_all s pulls).2 q = remaining s q.
Proof.
  intros Hok Hnd Hp. revert s Hok Hnd. induction Hp as [|[q0 n] pulls Hq0 _ IH]; intros s Hok Hnd; [done|].
  cbn [pull_all]. pose proof (pull_step s [("n", VInteger n); ("qid", VInteger q0)] q0 Hok Hnd eq_refl Hq0) as (H1 & H2 & H3).
  pose proof (pull_streams_ok s [("n", VInteger n); ("qid", VInteger q0)] Hok) as Hok'.
  pose proof (on_request_shrinks s (pull_request q0 n)) as [Hsub _]. unfold pull_request in *.
  destruct (on_request s _) as [t s']. cbn [fst snd] in *.
  specialize (IH s' Hok' (sublist_NoDup _ _ Hnd Hsub)).
  destruct (pull_all s' pulls) as [out s'']. cbn [fst snd] in *. unfold delivered_for.
  destruct (decide (q0 = q)) as [->|Hne].
  - rewrite filter_cons_True by done. csimpl. rewrite <- app_assoc.
    change (concat (filter _ out).*2) with (delivered_for out q). rewrite IH, H1, H2. apply take_drop.
  - rewrite filter_cons_False by done. change (concat (filter _ out).*2) with (delivered_for out q).
    rewrite IH. by apply H3.
Qed.

(** * Claims on the Bolt front end

    The codec, the transport, the access protocol and the result streams. *)

(** ** A database for the witnesses

    The world counts calls; the token "tok" is a principal that may read
    "db:main"; a transaction is the ledger it is open on; a statement answers
    two rows. *)

Definition demo_principal : DataPrincipal :=
  mkPrincipal (Some "alice") false {["db:main"]} false ∅ 2000000000.

Definition demo_stream : ResultStream :=
  mkStream ["n"] [[VInteger 1]; [VInteger 2]] [("type", VString "r")].

#[export, refine] Instance demo_backend : BoltBackend nat string := {|
  now_unix w := (1700000000, S w);
  elapsed_ms w := (3, S w);
  verify_data_principal w token :=
    (if decide (token = "tok") then inr demo_principal else inl "bad token", S w);
  cypher_statement_is_write q := inr (bool_decide (q = "CREATE (n)"));
  execute_statement w _ _ _ _ _ _ := (inr demo_stream, S w);
  begin_cypher_transaction w l _ := (inr l, S w);
  ledger_id t := t;
  execute_txn_statement w t _ _ _ _ _ := (inr demo_stream, t, S w);
  commit_cypher_transaction w _ := (CommittedAt 7, S w);
|}.
Proof. all: by intros; simplify_eq. Defined.

Definition demo_app : AppConfig := mkAppConfig AuthRequired false false (Some "db:main").
Definition demo_display (_ : DecodeError) : string := "decode error".
Definition demo_show (_ : Z) : string := "7".

(** A driver's session: HELLO, LOGON, a transaction with one read, COMMIT. *)
Definition demo_requests : list Request :=
  [Hello [("user_agent", VString "test/1.0")];
   Logon [("scheme", VString "bearer"); ("credentials", VString "tok")];
   Begin [];
   Run "MATCH (n) RETURN n" [] [];
   Pull [("n", VInteger (-1))];
   Commit].
Definition demo_payloads : list (list Z) := (λ r, encode (request_structure r)) <$> demo_requests.

(** 5.4 down to 5.0, then 4.4. *)
Definition demo_handshake : list Z := MAGIC ++ [0; 4; 4; 5; 0; 0; 4; 4; 0; 0; 0; 0; 0; 0; 0; 0].

(** ** The codec *)

(** What is encoded decodes to itself.  For every value whose parts are in
    their types' ranges and which stays within the decoder's limits (lengths up
    to 64 MiB, 15 fields, 129 levels), [decode_exact] of its encoding is the
    value. *)
Theorem packstream_roundtrip v :
  value_fits v = true → decode_exact (encode v) = inr v.
Proof. intros Hv. unfold decode_exact. by rewrite (decode_value_encode v Hv). Qed.

Lemma packstream_roundtrip_witness :
  let v := VMap [("k", VList [VInteger (-129); VInteger 9223372036854775807; VFloat 4607182418800017408;
                              VStructure 78 [VNull; VBoolean true; VBytes [0; 255]]])] in
  decode_exact (encode v) = inr v.
Proof. apply packstream_roundtrip. vm_compute. reflexivity. Defined.

(** The decoder is type safe and the encoder canonical.  Whatever bytes
    arrive, a value [decode_exact] accepts is in range and within the limits (so
    every later stage may rely on it), its own encoding is never longer than
    what was read, and that encoding decodes to the same value. *)
Theorem packstream_sound buf v :
  Forall is_byte buf → decode_exact buf = inr v →
  value_fits v = true ∧ (length (encode v) <= length buf)%nat ∧ decode_exact (encode v) = inr v.
Proof.
  unfold decode_exact, decode_value, decode_at_depth. intros Hb Hd.
  destruct (decode_levels _ buf) as [e|[v' rest]] eqn:E; [done|].
  destruct (decide (rest = [])) as [->|]; [|done]. injection Hd as ->.
  apply decode_sound in E as (used & -> & _ & Hv & Hl); [|done].
  rewrite app_nil_r. split; [done|]. split; [done|].
  change (decode_levels (S MAX_DECODE_DEPTH - 0)) with decode_value. by rewrite (decode_value_encode v Hv).
Qed.

Lemma packstream_sound_witness :
  value_fits (VInteger 1) = true
  ∧ (length (encode (VInteger 1)) <= length [0xCB; 0; 0; 0; 0; 0; 0; 0; 1]%Z)%nat
  ∧ decode_exact (encode (VInteger 1)) = inr (VInteger 1).
Proof.
  apply packstream_sound; [|vm_compute; reflexivity].
  repeat constructor; first [reflexivity | intros X; discriminate X].
Defined.

(** ** The transport *)

(** C10: a connection does not depend on how TCP cuts its stream.  A client that
    writes any messages within the size limit (empty ones are keep-alives) has
    them handled exactly as the sequence of its payloads, and the bytes it gets
    back and the effects on the database are those of that sequence, whatever
    non-empty pieces the reads return. *)
Theorem bolt_stream_cutting {W Txn} `{!BoltBackend W Txn} app display show (w : W) agent id handshake v
    payloads pieces :
  negotiate handshake = Accept v →
  Forall (λ p, Z.of_nat (length p) <= MAX_MESSAGE_BYTES) payloads →
  Forall (λ p, p ≠ []) pieces →
  concat pieces = flat_map write_message payloads →
  let h := handle_all app display show (new_connection app v agent id) w (delivered payloads) in
  handle_connection app display show w agent id handshake pieces
  = (to_bytes v ++ wire (h_replies h), h_events h).
Proof.
  intros Hv Hsize Hne Hcut. cbn zeta. unfold handle_connection. rewrite Hv.
  rewrite (serve_spec app display show new_assembler _ w pieces [] [] (delivered payloads)); [done..|].
  rewrite Hcut. by apply (assemble_messages payloads []).
Qed.

Lemma bolt_stream_cutting_witness :
  let pieces := (λ b, [b]) <$> flat_map write_message demo_payloads in
  handle_connection demo_app demo_display demo_show 0%nat "agent" "1" demo_handshake pieces
  = (to_bytes V5_4
       ++ wire (h_replies (handle_all demo_app demo_display demo_show
                             (new_connection demo_app V5_4 "agent" "1") 0%nat (delivered demo_payloads))),
     h_events (handle_all demo_app demo_display demo_show
                 (new_connection demo_app V5_4 "agent" "1") 0%nat (delivered demo_payloads))).
Proof.
  apply bolt_stream_cutting.
  - reflexivity.
  - unfold demo_payloads, demo_requests. repeat constructor; vm_compute; intros X; discriminate X.
  - apply Forall_fmap, Forall_true. intros b. discriminate.
  - vm_compute. reflexivity.
Defined.

(** Clients can read what the server writes.  Reassembling and decoding the
    bytes written for any replies within the limits gives the structures of
    exactly those replies, in order. *)
Theorem bolt_responses_readable replies :
  Forall (λ r, value_fits (response_structure r) = true
    ∧ Z.of_nat (length (encode_response r)) <= MAX_MESSAGE_BYTES) replies →
  (push new_assembler (wire replies)).1 = None
  ∧ decode_exact <$> complete (push new_assembler (wire replies)).2
    = (λ r, inr (response_structure r)) <$> replies.
Proof.
  intros Hr. pose proof (push_spec new_assembler (wire replies)) as (H1 & H2 & _). rewrite H1, H2.
  assert (wire replies = flat_map write_message (encode_response <$> replies)) as ->.
  { clear. unfold wire. induction replies as [|r rs IH]; [done|]. csimpl. by rewrite IH. }
  change (extend (of_assembler new_assembler) ?b) with (mkLoop b [] []).
  rewrite assemble_messages.
  2: { apply Forall_fmap. eapply Forall_impl; [exact Hr|]. by intros r [_ ?]. }
  split; [done|]. cbn [snd l_complete app]. unfold delivered.
  rewrite list_filter_id.
  2: { apply Forall_fmap, Forall_true. intros []; cbn; discriminate. }
  rewrite <- list_fmap_compose. apply Forall_fmap_ext. eapply Forall_impl; [exact Hr|].
  intros r [Hf _]. cbn. unfold decode_exact, encode_response. by rewrite (decode_value_encode _ Hf).
Qed.

Lemma bolt_responses_readable_witness :
  let replies := [Record_ [VInteger 1; VString "a"]; Success [("has_more", VBoolean false)]; Ignored;
                  Failure CODE_INVALID "boom"] in
  (push new_assembler (wire replies)).1 = None
  ∧ decode_exact <$> complete (push new_assembler (wire replies)).2
    = (λ r, inr (response_structure r)) <$> replies.
Proof.
  apply bolt_responses_readable. repeat constructor; first [vm_compute; reflexivity | vm_compute; intros X; discriminate X].
Defined.

(** ** Access *)

(** C9: the listener refines the access protocol.  Whatever handshake, bytes
    and pieces a peer sends and however the database answers, the calls a
    connection makes are a run of [protocol]: statements only after a login the
    configuration admits and under that identity, inside its ledger scopes; one
    transaction at a time, only where explicit transactions are supported, on
    the ledger it was opened on; no change of identity while it is open; commits
    only of an open transaction. *)
Theorem bolt_access_protocol {W Txn} `{!BoltBackend W Txn} app display show (w : W) agent id handshake pieces :
  ∃ m, protocols app (None, None)
         (handle_connection app display show w agent id handshake pieces).2 m.
Proof.
  unfold handle_connection. destruct (negotiate handshake) as [v| |]; cbn; [|eexists; constructor..].
  destruct (serve_ok app display show new_assembler (new_connection app v agent id) w pieces) as [H _];
    [apply new_connection_ok|]. eexists. exact H.
Qed.

(** The calls the driver's session above makes. *)
Example demo_events :
  (handle_connection demo_app demo_display demo_show 0%nat "agent" "1" demo_handshake
     [flat_map write_message demo_payloads]).2
  = let alice := mkSessionAuth (Some demo_principal) in
    [Authenticated alice; Began (Some alice) "db:main"; Executed true (Some alice) "db:main" false;
     CommitCalled "db:main"].
Proof. vm_compute. reflexivity. Qed.

(** ** Results *)

(** C35: Rows are served once and in order.  On any connection that has handled
    fewer than 2^63 messages and is still open, whatever sequence of PULLs
    follows, interleaved over query ids and with any batch sizes: the rows
    delivered for each id, followed by the rows still buffered for it, are the
    rows that were buffered for it. *)
Theorem bolt_pull_exactly_once {W Txn} `{!BoltBackend W Txn} app display show (w : W) v agent id payloads pulls q :
  let h := handle_all app display show (new_connection app v agent id) w payloads in
  let s := cn_session (h_conn h) in
  h_close h = false → Z.of_nat (length payloads) < 2 ^ 63 → Forall (λ p, 0 <= p.1) pulls →
  delivered_for (pull_all s pulls).1 q ++ remaining (pull_all s pulls).2 q = remaining s q.
Proof.
  intros h s Hopen Hn Hp.
  destruct (handle_all_ok app display show (new_connection app v agent id) w payloads) as [_ Hc];
    [apply new_connection_ok|]. destruct (Hc Hopen) as (_ & _ & Hst).
  destruct (handle_all_qids app display show 0 (new_connection app v agent id) w payloads) as [Hnd _].
  - split_and!; [apply NoDup_nil_2|done|cbn; lia|cbn; lia].
  - lia.
  - by apply pull_all_delivers.
Qed.

Lemma bolt_pull_exactly_once_witness :
  let h := handle_all demo_app demo_display demo_show (new_connection demo_app V5_4 "agent" "1") 0%nat
             (take 4 demo_payloads) in
  let s := cn_session (h_conn h) in
  remaining s 0 = [[VInteger 1]; [VInteger 2]]
  ∧ delivered_for (pull_all s [(0, 1); (0, 0); (5, -1); (0, 1000)]).1 0
    ++ remaining (pull_all s [(0, 1); (0, 0); (5, -1); (0, 1000)]).2 0 = remaining s 0.
Proof.
  split; [vm_compute; reflexivity|]. apply bolt_pull_exactly_once.
  - vm_compute. reflexivity.
  - vm_compute. reflexivity.
  - repeat constructor; intros X; discriminate X.
Defined.

(** The handshake answers the best supported version of the first proposal that
    offers one, and refuses only when none does. *)
Theorem bolt_negotiates request :
  Forall is_byte request →
  match negotiate request with
  | BadMagic => take 4 request ≠ MAGIC
  | o => take 4 request = MAGIC ∧ negotiated (chunks_exact4 (drop 4 request)) o
  end.
Proof.
  intros Hb. unfold negotiate. destruct (decide (take 4 request = MAGIC)) as [E|]; [|done].
  pose proof (negotiate_slots_spec (chunks_exact4 (drop 4 request))
    (chunks_exact4_bytes (length (drop 4 request)) _ (le_n _) (Forall_drop _ _ _ Hb))) as H.
  by destruct (negotiate_slots _).
Qed.
