(* ===== verification/Vocab.v ===== *)
(** * Built-in datatypes ([fluree-vocab/src/lib.rs], modules [namespaces] and [datatype])

    The datatypes the system recognizes by namespace and local name or by
    their full form. *)

From S2P Require Import Prelude Text LedgerId.
#[local] Open Scope string_scope.

(** Namespace codes. *)
Definition EMPTY : Z := 0.
Definition JSON_LD : Z := 1.
Definition XSD : Z := 2.
Definition RDF : Z := 3.
Definition RDFS : Z := 4.
Definition FLUREE_DB : Z := 7.

Definition XSD_NS : string := "http://www.w3.org/2001/XMLSchema#".
Definition RDF_NS : string := "http://www.w3.org/1999/02/22-rdf-syntax-ns#".
Definition EMBEDDING_VECTOR : string := "https://ns.flur.ee/db#embeddingVector".
Definition FULL_TEXT : string := "https://ns.flur.ee/db#fullText".

Inductive KnownDatatype :=
| XsdString | XsdAnyUri | XsdNormalizedString | XsdToken | XsdLanguage | XsdBase64Binary
| XsdHexBinary | XsdBoolean | XsdInteger | XsdLong | XsdInt | XsdShort | XsdByte | XsdUnsignedLong
| XsdUnsignedInt | XsdUnsignedShort | XsdUnsignedByte | XsdNonNegativeInteger | XsdPositiveInteger
| XsdNonPositiveInteger | XsdNegativeInteger | XsdDecimal | XsdFloat | XsdDouble | XsdDateTime
| XsdDate | XsdTime | XsdGYear | XsdGYearMonth | XsdGMonth | XsdGDay | XsdGMonthDay | XsdDuration
| XsdDayTimeDuration | XsdYearMonthDuration | RdfJson | RdfLangString | JsonLdId
| FlureeEmbeddingVector | FlureeFullText.

#[export] Instance KnownDatatype_eq_dec : EqDecision KnownDatatype.
Proof. solve_decision. Defined.

Definition local_name (self : KnownDatatype) : string :=
  match self with
  | XsdString => "string"
  | XsdAnyUri => "anyURI"
  | XsdNormalizedString => "normalizedString"
  | XsdToken => "token"
  | XsdLanguage => "language"
  | XsdBase64Binary => "base64Binary"
  | XsdHexBinary => "hexBinary"
  | XsdBoolean => "boolean"
  | XsdInteger => "integer"
  | XsdLong => "long"
  | XsdInt => "int"
  | XsdShort => "short"
  | XsdByte => "byte"
  | XsdUnsignedLong => "unsignedLong"
  | XsdUnsignedInt => "unsignedInt"
  | XsdUnsignedShort => "unsignedShort"
  | XsdUnsignedByte => "unsignedByte"
  | XsdNonNegativeInteger => "nonNegativeInteger"
  | XsdPositiveInteger => "positiveInteger"
  | XsdNonPositiveInteger => "nonPositiveInteger"
  | XsdNegativeInteger => "negativeInteger"
  | XsdDecimal => "decimal"
  | XsdFloat => "float"
  | XsdDouble => "double"
  | XsdDateTime => "dateTime"
  | XsdDate => "date"
  | XsdTime => "time"
  | XsdGYear => "gYear"
  | XsdGYearMonth => "gYearMonth"
  | XsdGMonth => "gMonth"
  | XsdGDay => "gDay"
  | XsdGMonthDay => "gMonthDay"
  | XsdDuration => "duration"
  | XsdDayTimeDuration => "dayTimeDuration"
  | XsdYearMonthDuration => "yearMonthDuration"
  | RdfJson => "JSON"
  | RdfLangString => "langString"
  | JsonLdId => "id"
  | FlureeEmbeddingVector => "embeddingVector"
  | FlureeFullText => "fullText"
  end.

(** The first arm whose pattern is the name. *)
Fixpoint match_name (arms : list (string * KnownDatatype)) (local : string) : option KnownDatatype :=
  match arms with
  | [] => None
  | (s, dt) :: arms => if decide (local = s) then Some dt else match_name arms local
  end.

Definition from_xsd_local : string → option KnownDatatype :=
  match_name
    [ ("string", XsdString); ("anyURI", XsdAnyUri); ("normalizedString", XsdNormalizedString);
      ("token", XsdToken); ("language", XsdLanguage); ("base64Binary", XsdBase64Binary);
      ("hexBinary", XsdHexBinary); ("boolean", XsdBoolean); ("integer", XsdInteger); ("long", XsdLong);
      ("int", XsdInt); ("short", XsdShort); ("byte", XsdByte); ("unsignedLong", XsdUnsignedLong);
      ("unsignedInt", XsdUnsignedInt); ("unsignedShort", XsdUnsignedShort);
      ("unsignedByte", XsdUnsignedByte); ("nonNegativeInteger", XsdNonNegativeInteger);
      ("positiveInteger", XsdPositiveInteger); ("nonPositiveInteger", XsdNonPositiveInteger);
      ("negativeInteger", XsdNegativeInteger); ("decimal", XsdDecimal); ("float", XsdFloat);
      ("double", XsdDouble); ("dateTime", XsdDateTime); ("date", XsdDate); ("time", XsdTime);
      ("gYear", XsdGYear); ("gYearMonth", XsdGYearMonth); ("gMonth", XsdGMonth); ("gDay", XsdGDay);
      ("gMonthDay", XsdGMonthDay); ("duration", XsdDuration); ("dayTimeDuration", XsdDayTimeDuration);
      ("yearMonthDuration", XsdYearMonthDuration) ].

Definition from_rdf_local : string → option KnownDatatype :=
  match_name [("JSON", RdfJson); ("langString", RdfLangString)].

Definition from_jsonld_local : string → option KnownDatatype := match_name [("id", JsonLdId)].

Definition from_fluree_db_local : string → option KnownDatatype :=
  match_name [("embeddingVector", FlureeEmbeddingVector); ("fullText", FlureeFullText)].

Definition from_ns_and_local (ns_code : Z) (local : string) : option KnownDatatype :=
  if (ns_code =? XSD)%Z then from_xsd_local local
  else if (ns_code =? RDF)%Z then from_rdf_local local
  else if (ns_code =? JSON_LD)%Z then from_jsonld_local local
  else if (ns_code =? FLUREE_DB)%Z then from_fluree_db_local local
  else None.

Definition from_canonical_form (iri : string) : option KnownDatatype :=
  match LedgerId.strip_prefix XSD_NS iri with
  | Some local => from_xsd_local local
  | None =>
      match LedgerId.strip_prefix RDF_NS iri with
      | Some local => from_rdf_local local
      | None =>
          match_name [("@id", JsonLdId); (EMBEDDING_VECTOR, FlureeEmbeddingVector); (FULL_TEXT, FlureeFullText)] iri
      end
  end.

Definition canonical_form (self : KnownDatatype) : string :=
  match self with
  | RdfJson | RdfLangString => RDF_NS +:+ local_name self
  | JsonLdId => "@id"
  | FlureeEmbeddingVector => EMBEDDING_VECTOR
  | FlureeFullText => FULL_TEXT
  | _ => XSD_NS +:+ local_name self
  end.

(** Recognition by name finds the datatype and nothing else. *)
Lemma match_name_local arms local dt :
  Forall (λ a, local_name a.2 = a.1) arms → match_name arms local = Some dt → local_name dt = local.
Proof.
  induction 1 as [|[s d] arms Ha _ IH]; [done|]. cbn. case_decide; [|done]. intros [= <-]. by subst.
Qed.

Lemma from_xsd_local_name local dt : from_xsd_local local = Some dt → local_name dt = local.
Proof. apply match_name_local. repeat constructor. Qed.

Lemma from_rdf_local_name local dt : from_rdf_local local = Some dt → local_name dt = local.
Proof. apply match_name_local. repeat constructor. Qed.

(** The guarantee of the module: a canonical form names its datatype. *)
Lemma from_canonical_form_roundtrip dt : from_canonical_form (canonical_form dt) = Some dt.
Proof. by destruct dt. Qed.
