(* ===== verification/CommitWire.v ===== *)
(** * Reading and writing commit bytes
    ([fluree-db-core/src/commit/codec/varint.rs], [string_dict.rs], [error.rs])

    The codec reads with a slice and a position; a [Reader] is a function of
    what lies at and after the position.  Besides the error of the source a
    read can panic: out-of-range slices and allocations whose size overflows
    do, and [Outcome] keeps the two apart.  Arithmetic is that of a release
    build.

    [reads_as p bs x]: wherever [bs] stands, [p] reads it as [x] and stops
    after it. *)

From S2P Require Import Prelude Text.

(** [CommitCodecError]; messages keep their constant part. *)
Inductive CommitCodecError :=
| InvalidMagic
| UnsupportedVersion (v : Z)
| TooSmall (got min : Z)
| InvalidDictionary (what : string)
| InvalidOp (what : string)
| InvalidOpTag (b : Z)
| DecompressionFailed
| CompressionFailed
| EnvelopeDecode (what : string)
| EnvelopeEncode (what : string)
| UnexpectedEof
| UnsupportedValue (desc : string)
| NonDefaultGraph (ns_code name_id : Z)
| LimitExceeded (what : string)
| TOutOfRange (t : Z)
| GIdOutOfRange (raw : Z)
| NegativeListIndex (i : Z)
| HashMismatch (expected actual : list Z).

(** A result, an error, or a panic. *)
Inductive Outcome (A : Type) :=
| Ok (a : A)
| Err (e : CommitCodecError)
| Panic.
#[global] Arguments Ok {A} a.
#[global] Arguments Err {A} e.
#[global] Arguments Panic {A}.

#[export] Instance outcome_ret : MRet Outcome := λ A x, Ok x.
#[export] Instance outcome_bind : MBind Outcome :=
  λ A B k m, match m with Ok x => k x | Err e => Err e | Panic => Panic end.

Definition Reader (A : Type) : Type := list Z → Outcome (A * list Z).

Definition rfail {A} (e : CommitCodecError) : Reader A := λ _, Err e.
Definition rpanic {A} : Reader A := λ _, Panic.
#[export] Instance reader_ret : MRet Reader := λ A x data, Ok (x, data).
#[export] Instance reader_bind : MBind Reader :=
  λ A B k m data, match m data with Ok (x, rest) => k x rest | Err e => Err e | Panic => Panic end.

(** ** Primitive reads *)

Definition read_exact (n : Z) : Reader (list Z) := λ data,
  if Z.of_nat (length data) <? n then Err UnexpectedEof
  else Ok (take (Z.to_nat n) data, drop (Z.to_nat n) data).

Definition read_u8 : Reader Z := λ data,
  match data with [] => Err UnexpectedEof | b :: rest => Ok (b, rest) end.

(** [Vec::with_capacity] of [count] elements of [size] bytes: a capacity above
    [isize::MAX] bytes panics.  Running out of memory is not modelled. *)
Definition with_capacity (size count : Z) : Reader unit :=
  if 2 ^ 63 - 1 <? count * size then rpanic else mret tt.

(** [for _ in 0..n]. *)
Fixpoint rtimes {A} (n : nat) (p : Reader A) : Reader (list A) :=
  match n with
  | O => mret []
  | S n => x ← p; xs ← rtimes n p; mret (x :: xs)
  end.

(** ** Varints *)

(** Ten groups of seven bits hold a [u64]. *)
Fixpoint encode_varint_loop (fuel : nat) (value : Z) : list Z :=
  match fuel with
  | O => []
  | S fuel =>
      let byte := Z.land value 0x7F in
      let value := Z.shiftr value 7 in
      if value =? 0 then [byte] else Z.lor byte 0x80 :: encode_varint_loop fuel value
  end.
Definition encode_varint (value : Z) : list Z := encode_varint_loop 10 value.

#[global] Arguments encode_varint : simpl never.

(** [payload << shift] of a release build masks the shift. *)
Definition shl64 (x shift : Z) : Z := wrap64 (Z.shiftl x (shift mod 64)).

Fixpoint decode_varint_loop (result shift : Z) (data : list Z) : Outcome (Z * list Z) :=
  match data with
  | [] => Err UnexpectedEof
  | byte :: rest =>
      let payload := Z.land byte 0x7F in
      if (63 <=? shift) && (1 <? payload) then Err (InvalidOp "varint overflow")
      else
        let result := Z.lor result (shl64 payload shift) in
        if Z.land byte 0x80 =? 0 then Ok (result, rest)
        else decode_varint_loop result ((shift + 7) mod 2 ^ 32) rest
  end.
Definition decode_varint : Reader Z := decode_varint_loop 0 0.

(** [((value << 1) ^ (value >> 63)) as u64] of an [i64]. *)
Definition zigzag_encode (value : Z) : Z := wrap64 (Z.lxor (Z.shiftl value 1) (Z.shiftr value 63)).
(** [((value >> 1) as i64) ^ (-((value & 1) as i64))]. *)
Definition zigzag_decode (value : Z) : Z :=
  to_signed 64 (wrap64 (Z.lxor (Z.shiftr value 1) (- Z.land value 1))).

(** ** Length-prefixed strings *)

Definition utf8_or (e : CommitCodecError) (bytes : list Z) : Reader string :=
  match from_utf8 bytes with Some s => mret s | None => rfail e end.

Definition encode_len_str (s : string) : list Z :=
  encode_varint (Z.of_nat (length (str_bytes s))) ++ str_bytes s.

(** ** Dictionaries *)

Record StringDictBuilder := mkDictBuilder { db_map : gmap string Z; db_entries : list string }.

Definition new_dict : StringDictBuilder := mkDictBuilder ∅ [].

Definition dict_insert (self : StringDictBuilder) (s : string) : Z * StringDictBuilder :=
  match db_map self !! s with
  | Some id => (id, self)
  | None =>
      let id := (Z.of_nat (length (db_entries self)) + 1) mod 2 ^ 32 in
      (id, mkDictBuilder (<[s := id]> (db_map self)) (db_entries self ++ [s]))
  end.

Definition serialize (self : StringDictBuilder) : list Z :=
  encode_varint (Z.of_nat (length (db_entries self))) ++ flat_map encode_len_str (db_entries self).

(** [StringDict]: the entries by id minus one. *)
Abbreviation StringDict := (list string).

(** An error of [read_exact] becomes a dictionary error. *)
Definition read_dict_bytes (len : Z) : Reader (list Z) := λ data,
  match read_exact len data with
  | Err _ => Err (InvalidDictionary "string bytes extend past dictionary end")
  | r => r
  end.

Definition read_dict_entry : Reader string :=
  len ← decode_varint;
  bytes ← read_dict_bytes len;
  utf8_or (InvalidDictionary "invalid UTF-8") bytes.

Definition read_dict : Reader StringDict :=
  count ← decode_varint;
  with_capacity 24 count;;
  rtimes (Z.to_nat count) read_dict_entry.

(** Bytes after the last entry are not looked at. *)
Definition deserialize (data : list Z) : Outcome StringDict :=
  match read_dict data with Ok (entries, _) => Ok entries | Err e => Err e | Panic => Panic end.

Definition dict_get (self : StringDict) (local_id : Z) : Outcome string :=
  if local_id =? 0 then Err (InvalidDictionary "local_id 0 is reserved")
  else match self !! Z.to_nat (local_id - 1) with
       | Some s => Ok s
       | None => Err (InvalidDictionary "local_id out of range")
       end.

(** A dictionary lookup as part of a read. *)
Definition get_name (d : StringDict) (local_id : Z) : Reader string := λ data,
  match dict_get d local_id with Ok s => Ok (s, data) | Err e => Err e | Panic => Panic end.

(** ** What is written is read *)

Definition reads_as {A} (p : Reader A) (bs : list Z) (x : A) : Prop :=
  ∀ rest, p (bs ++ rest) = Ok (x, rest).

Lemma reads_as_ret {A} (x : A) : reads_as (mret x) [] x.
Proof. done. Qed.

Lemma reads_as_bind {A B} (p : Reader A) (k : A → Reader B) bs bs' x y :
  reads_as p bs x → reads_as (k x) bs' y → reads_as (p ≫= k) (bs ++ bs') y.
Proof.
  intros Hp Hk rest. unfold mbind, reader_bind. rewrite <- app_assoc, Hp. apply Hk.
Qed.

(** Steps that read nothing. *)
Lemma reads_as_last {A B} (p : Reader A) (k : A → Reader B) bs x y :
  reads_as p bs x → reads_as (k x) [] y → reads_as (p ≫= k) bs y.
Proof. intros Hp Hk. rewrite <- (app_nil_r bs). by eapply reads_as_bind. Qed.

Lemma reads_as_first {A B} (p : Reader A) (k : A → Reader B) bs x y :
  reads_as p [] x → reads_as (k x) bs y → reads_as (p ≫= k) bs y.
Proof. intros Hp Hk. by apply (reads_as_bind p k [] bs x). Qed.

Lemma reads_as_map {A B} (p : Reader A) (f : A → B) bs x :
  reads_as p bs x → reads_as (y ← p; mret (f y)) bs (f x).
Proof. intros Hp rest. unfold mbind, reader_bind. by rewrite Hp. Qed.

Lemma reads_as_rtimes {A} (p : Reader A) (enc : A → list Z) xs :
  Forall (λ x, reads_as p (enc x) x) xs → reads_as (rtimes (length xs) p) (flat_map enc xs) xs.
Proof.
  induction 1 as [|x xs Hx _ IH]; [done|]. cbn [length rtimes flat_map].
  eapply reads_as_bind; [exact Hx|]. by apply (reads_as_map _ (cons x)).
Qed.

Lemma reads_as_exact bs n : Z.of_nat (length bs) = n → reads_as (read_exact n) bs bs.
Proof.
  intros <- rest. unfold read_exact. rewrite length_app, Nat2Z.id.
  rewrite (proj2 (Z.ltb_ge _ _)) by lia. by rewrite take_app_length, drop_app_length.
Qed.

Lemma reads_as_u8 b : reads_as read_u8 [b] b.
Proof. done. Qed.

Lemma reads_as_capacity size count : count * size <= 2 ^ 63 - 1 → reads_as (with_capacity size count) [] tt.
Proof. intros H rest. unfold with_capacity. by rewrite (proj2 (Z.ltb_ge _ _)). Qed.

(** ** Varints *)

Lemma low7_range v : 0 <= Z.land v 0x7F < 128.
Proof. change (Z.land v 127) with (Z.land v (Z.ones 7)). rewrite Z.land_ones by lia. by apply Z.mod_pos_bound. Qed.

Lemma decode_varint_byte v :
  let byte := Z.land v 0x7F in
  Z.land byte 0x7F = byte ∧ Z.land byte 0x80 = 0
  ∧ Z.land (Z.lor byte 0x80) 0x7F = byte ∧ Z.land (Z.lor byte 0x80) 0x80 = 0x80.
Proof.
  cbn zeta. assert (Z.land (Z.land v 127) 127 = Z.land v 127) as E1 by by rewrite <- Z.land_assoc.
  assert (Z.land (Z.land v 127) 128 = 0) as E2 by (rewrite <- Z.land_assoc; apply Z.land_0_r).
  split_and!; [done|done|..]; rewrite Z.land_lor_distr_l; [rewrite E1|rewrite E2]; cbn; [apply Z.lor_0_r|done].
Qed.

(** Appending seven more bits. *)
Lemma lor_shift_split result v shift :
  0 <= shift →
  Z.lor (Z.lor result (Z.shiftl (Z.land v 0x7F) shift)) (Z.shiftl (Z.shiftr v 7) (shift + 7))
  = Z.lor result (Z.shiftl v shift).
Proof.
  intros Hs. rewrite <- Z.lor_assoc. f_equal. rewrite <- Z.shiftl_shiftl by lia.
  rewrite Z.shiftl_shiftl, Z.add_comm, <- Z.shiftl_shiftl by lia. rewrite <- Z.shiftl_lor. f_equal.
  apply Z.bits_inj'. intros i Hi. rewrite Z.lor_spec, Z.land_spec, Z.shiftl_spec by lia.
  change 127 with (Z.ones 7). rewrite Z.testbit_ones_nonneg by lia.
  destruct (Z.ltb_spec i 7).
  - rewrite (Z.testbit_neg_r _ (i - 7)), andb_true_r, orb_false_r by lia. done.
  - rewrite andb_false_r, Z.shiftr_spec by lia. cbn. f_equal. lia.
Qed.

Lemma decode_encode_varint_loop fuel v result shift rest :
  0 <= shift <= 63 → 0 <= v < 2 ^ (64 - shift) → v < 2 ^ (7 * Z.of_nat fuel) → (0 < fuel)%nat →
  decode_varint_loop result shift (encode_varint_loop fuel v ++ rest)
  = Ok (Z.lor result (Z.shiftl v shift), rest).
Proof.
  revert v result shift. induction fuel as [|fuel IH]; intros v result shift Hs Hv Hf Hpos; [lia|].
  cbn [encode_varint_loop]. pose proof (low7_range v) as Hlow.
  destruct (decode_varint_byte v) as (E1 & E2 & E3 & E4).
  assert (Z.land v 127 <= v) as Hle.
  { change (Z.land v 127) with (Z.land v (Z.ones 7)). rewrite Z.land_ones by lia. apply Z.mod_le; lia. }
  assert (shl64 (Z.land v 127) shift = Z.shiftl (Z.land v 127) shift) as Eshl.
  { unfold shl64. rewrite Z.mod_small by lia. apply wrap64_small.
    rewrite Z.shiftl_mul_pow2 by lia. split; [nia|].
    change two64 with (2 ^ 64). replace 64 with (64 - shift + shift) at 1 by lia.
    rewrite Z.pow_add_r by lia. apply Z.mul_lt_mono_pos_r; [apply Z.pow_pos_nonneg|]; lia. }
  assert ((63 <=? shift) && (1 <? Z.land v 127) = false) as Eov.
  { destruct (Z.leb_spec 63 shift); [|done]. replace shift with 63 in Hv by lia.
    change (2 ^ (64 - 63)) with 2 in Hv. apply Z.ltb_ge. lia. }
  destruct (Z.eqb_spec (Z.shiftr v 7) 0) as [Ez|Ez].
  - cbn [app decode_varint_loop]. rewrite E1, Eov, E2, Eshl. cbn.
    do 3 f_equal. rewrite Z.shiftr_div_pow2 in Ez by lia.
    change (Z.land v 127) with (Z.land v (Z.ones 7)). rewrite Z.land_ones by lia.
    rewrite (Z.mod_small v); [done|]. apply Z.div_small_iff in Ez; lia.
  - cbn [app decode_varint_loop]. rewrite E3, Eov, E4, Eshl. cbn [Z.eqb Pos.eqb].
    assert (128 <= v) as Hbig.
    { destruct (Z.le_gt_cases 128 v) as [|Hlt]; [done|]. exfalso. apply Ez.
      rewrite Z.shiftr_div_pow2 by lia. apply Z.div_small. lia. }
    assert (shift + 7 <= 63).
    { destruct (Z.le_gt_cases (shift + 7) 63) as [|Hgt]; [done|]. exfalso.
      assert (2 ^ (64 - shift) <= 2 ^ 7) by (apply Z.pow_le_mono_r; lia). change (2 ^ 7) with 128 in *. lia. }
    rewrite Z.mod_small by lia. rewrite IH.
    + by rewrite lor_shift_split by lia.
    + lia.
    + rewrite Z.shiftr_div_pow2 by lia. split; [apply Z.div_pos; lia|].
      apply Z.div_lt_upper_bound; [lia|]. rewrite <- Z.pow_add_r by lia.
      replace (7 + (64 - (shift + 7))) with (64 - shift) by lia. lia.
    + rewrite Z.shiftr_div_pow2 by lia. apply Z.div_lt_upper_bound; [lia|]. rewrite <- Z.pow_add_r by lia.
      replace (7 + 7 * Z.of_nat fuel) with (7 * Z.of_nat (S fuel)) by lia. lia.
    + destruct fuel; [|lia]. change (2 ^ (7 * Z.of_nat 1)) with 128 in Hf. lia.
Qed.

Lemma reads_as_varint v : 0 <= v < two64 → reads_as decode_varint (encode_varint v) v.
Proof.
  intros Hv rest. unfold decode_varint, encode_varint.
  rewrite decode_encode_varint_loop; [by rewrite Z.shiftl_0_r, Z.lor_0_l|lia|..].
  - by change (2 ^ (64 - 0)) with two64.
  - change (2 ^ (7 * Z.of_nat 10)) with (two64 * 64). unfold two64 in *. lia.
  - lia.
Qed.

(** Zigzag is arithmetic: even codes for the non-negative, odd for the rest. *)
Lemma lxor_m1 x : Z.lxor x (-1) = - x - 1.
Proof. rewrite Z.lxor_m1_r. unfold Z.lnot, Z.pred. lia. Qed.

Lemma zigzag_encode_spec v :
  - 2 ^ 63 <= v < 2 ^ 63 → zigzag_encode v = if 0 <=? v then 2 * v else - 2 * v - 1.
Proof.
  intros Hv. unfold zigzag_encode. rewrite Z.shiftl_mul_pow2, Z.shiftr_div_pow2 by lia. change (2 ^ 1) with 2.
  destruct (Z.leb_spec 0 v).
  - rewrite (Z.div_small v) by lia. rewrite Z.lxor_0_r. rewrite wrap64_small; unfold two64; lia.
  - assert (v / 2 ^ 63 = -1) as ->.
    { symmetry. apply (Z.div_unique _ _ _ (v + 2 ^ 63)); lia. }
    rewrite lxor_m1, wrap64_small; unfold two64; lia.
Qed.

Lemma zigzag_roundtrip v : - 2 ^ 63 <= v < 2 ^ 63 → zigzag_decode (zigzag_encode v) = v.
Proof.
  intros Hv. rewrite zigzag_encode_spec by done. unfold zigzag_decode.
  change (Z.land ?x 1) with (Z.land x (Z.ones 1)). rewrite Z.land_ones, Z.shiftr_div_pow2 by lia.
  change (2 ^ 1) with 2. destruct (Z.leb_spec 0 v).
  - rewrite Z.mul_comm, Z.div_mul, Z.mod_mul by lia. cbn [Z.opp]. rewrite Z.lxor_0_r.
    unfold wrap64. apply to_signed_mod; [done|]. change (64 - 1) with 63. lia.
  - replace (-2 * v - 1) with (1 + (- v - 1) * 2) by lia.
    rewrite Z.div_add, Z.mod_add by lia. change (1 / 2) with 0. change (1 mod 2) with 1.
    change (- 1) with (-1). rewrite lxor_m1.
    replace (- (0 + (- v - 1)) - 1) with v by lia.
    unfold wrap64. apply to_signed_mod; [done|]. change (64 - 1) with 63. lia.
Qed.

Lemma zigzag_encode_range v : 0 <= zigzag_encode v < two64.
Proof. apply wrap64_range. Qed.

(** ** Strings and dictionaries *)

(** A [str]: UTF-8, and no longer than an allocation can be. *)
Definition str_ok (s : string) : Prop :=
  utf8_ok (str_bytes s) = true ∧ Z.of_nat (length (str_bytes s)) < 2 ^ 63.

Lemma str_ok_utf8 s : str_ok s → from_utf8 (str_bytes s) = Some s.
Proof. intros [H _]. unfold from_utf8. by rewrite H, bytes_str_bytes. Qed.

(** A length, that many bytes, and the check that they are UTF-8. *)
Lemma reads_as_str (p : Z → Reader (list Z)) e s :
  (∀ bs, reads_as (p (Z.of_nat (length bs))) bs bs) → str_ok s →
  reads_as (len ← decode_varint; bytes ← p len; utf8_or e bytes) (encode_len_str s) s.
Proof.
  intros Hp Hs. unfold encode_len_str. eapply reads_as_bind.
  { apply reads_as_varint. destruct Hs. unfold two64. lia. }
  eapply reads_as_last; [apply Hp|]. intros rest. unfold utf8_or. by rewrite str_ok_utf8.
Qed.

Lemma reads_as_dict_entry s : str_ok s → reads_as read_dict_entry (encode_len_str s) s.
Proof.
  intros Hs. apply (reads_as_str read_dict_bytes); [|done].
  intros bs rest. unfold read_dict_bytes. by rewrite (reads_as_exact bs).
Qed.

Lemma deserialize_serialize d :
  Forall str_ok (db_entries d) → Z.of_nat (length (db_entries d)) < 2 ^ 32 →
  deserialize (serialize d) = Ok (db_entries d).
Proof.
  intros Hok Hlen. unfold deserialize.
  assert (reads_as read_dict (serialize d) (db_entries d)) as H.
  { unfold read_dict, serialize. eapply reads_as_bind; [apply reads_as_varint; unfold two64; lia|].
    eapply reads_as_first; [apply reads_as_capacity; lia|]. rewrite Nat2Z.id.
    apply reads_as_rtimes. eapply Forall_impl; [done|]. apply reads_as_dict_entry. }
  specialize (H []). rewrite app_nil_r in H. by rewrite H.
Qed.

(** [db_map] finds the position of an entry. *)
Definition dict_ok (d : StringDictBuilder) : Prop :=
  Forall str_ok (db_entries d)
  ∧ ∀ s id, db_map d !! s = Some id → 1 <= id < 2 ^ 32 ∧ db_entries d !! Z.to_nat (id - 1) = Some s.

Lemma new_dict_ok : dict_ok new_dict.
Proof. split; [constructor|]. intros s id H. cbn in H. by rewrite lookup_empty in H. Qed.

Lemma dict_insert_prefix d s : db_entries d `prefix_of` db_entries (dict_insert d s).2.
Proof. unfold dict_insert. case_match; [done|]. by apply prefix_app_r. Qed.

Lemma dict_insert_ok d s :
  dict_ok d → str_ok s → Z.of_nat (length (db_entries (dict_insert d s).2)) < 2 ^ 32 →
  dict_ok (dict_insert d s).2 ∧ 1 <= (dict_insert d s).1 < 2 ^ 32
  ∧ db_entries (dict_insert d s).2 !! Z.to_nat ((dict_insert d s).1 - 1) = Some s.
Proof.
  intros [Hf Hm] Hs. unfold dict_insert. destruct (db_map d !! s) as [id|] eqn:E; cbn.
  { intros _. split; [by split|]. by apply Hm. }
  rewrite length_app. cbn. intros Hlen. rewrite Z.mod_small by lia.
  replace (Z.to_nat (Z.of_nat (length (db_entries d)) + 1 - 1)) with (length (db_entries d)) by lia.
  assert ((db_entries d ++ [s]) !! length (db_entries d) = Some s) as El by by apply list_lookup_middle.
  split_and!; [|lia|lia|done]. split; cbn; [by apply Forall_app_2; [|constructor]|].
  intros s' id'. rewrite lookup_insert_Some. intros [[<- <-]|[Hne H]].
  - replace (Z.to_nat (Z.of_nat (length (db_entries d)) + 1 - 1)) with (length (db_entries d)) by lia.
    by split; [lia|].
  - destruct (Hm _ _ H) as [? Hl]. split; [done|]. by apply lookup_app_l_Some.
Qed.

(** A name found in a dictionary that extends the writer's. *)
Lemma get_name_extends entries (rd : StringDict) id s :
  entries `prefix_of` rd → 1 <= id → entries !! Z.to_nat (id - 1) = Some s →
  reads_as (get_name rd id) [] s.
Proof.
  intros Hp Hid Hl rest. unfold get_name, dict_get.
  rewrite (proj2 (Z.eqb_neq _ _)) by lia. by rewrite (prefix_lookup_Some _ _ _ _ Hl Hp).
Qed.

(** ** Reads that succeed *)

Lemma bind_Ok {A B} (p : Reader A) (k : A → Reader B) data x mid :
  p data = Ok (x, mid) → (p ≫= k) data = k x mid.
Proof. intros H. unfold mbind, reader_bind. by rewrite H. Qed.

Lemma bind_Ok_inv {A B} (p : Reader A) (k : A → Reader B) data y rest :
  (p ≫= k) data = Ok (y, rest) → ∃ x mid, p data = Ok (x, mid) ∧ k x mid = Ok (y, rest).
Proof. unfold mbind, reader_bind. intros H. repeat case_match; simplify_eq. eauto. Qed.

Lemma decode_varint_loop_nonneg data result shift x rest :
  0 <= result → decode_varint_loop result shift data = Ok (x, rest) → 0 <= x.
Proof.
  revert result shift. induction data as [|b data IH]; intros result shift Hr H; [done|].
  cbn in H. case_match; [done|].
  assert (0 <= Z.lor result (shl64 (Z.land b 127) shift)) as Hr'.
  { apply Z.lor_nonneg. split; [done|]. apply wrap64_range. }
  case_match; [by simplify_eq|]. by eapply IH.
Qed.

Lemma decode_varint_nonneg data x rest : decode_varint data = Ok (x, rest) → 0 <= x.
Proof. by apply decode_varint_loop_nonneg. Qed.
