(* ===== verification/CommitOp.v ===== *)
(** * Ops of a commit
    ([fluree-db-core/src/commit/codec/op_codec.rs], [raw_reader.rs], and the
    object tags of [format.rs])

    A flake is written as an op whose names are ids into five dictionaries
    that the writer fills as it goes and the reader is given.  Ops are read in
    two ways: into flakes ([decode_op]), and into raw ops that keep lexical
    forms ([decode_raw_op]).

    The temporal and numeric types with a lexical form, and packed geographic
    points, are other modules of the crate; the codec uses them through
    [CoreValues].  A double is its 64-bit pattern: the codec does not compute
    with it. *)

From S2P Require Import Prelude Text CommitWire.

(** ** Data *)

Record Sid := mkSid { namespace_code : Z; sid_name : string }.

(** The types with a lexical form. *)
Inductive LexKind :=
| KDateTime | KDate | KTime | KBigInt | KDecimal
| KGYear | KGYearMonth | KGMonth | KGDay | KGMonthDay
| KYearMonthDuration | KDayTimeDuration | KDuration.

(** What the codec uses of those types: [Display] and [parse]; and
    [GeoPointBits::{lat, lng, new}] on packed points. *)
Class CoreValues := {
  lexical : LexKind → Type;
  display : ∀ k, lexical k → string;
  parse : ∀ k, string → option (lexical k);
  geo_lat : Z → Z;
  geo_lng : Z → Z;
  geo_new : Z → Z → option Z;
}.

(** [FlakeValue]; [VLexical] stands for the thirteen variants of [LexKind]. *)
Inductive FlakeValue `{CoreValues} :=
| VRef (sid : Sid)
| VBoolean (b : bool)
| VLong (n : Z)
| VDouble (bits : Z)
| VLexical (k : LexKind) (v : lexical k)
| VString (s : string)
| VVector (elements : list Z)
| VJson (s : string)
| VGeoPoint (bits : Z)
| VNull.

Record FlakeMeta := mkMeta { m_lang : option string; m_i : option Z }.

(** [normalize_lang_tag]: ASCII-lowercased. *)
Definition is_ascii_uppercase (b : Z) : bool := (65 <=? b) && (b <=? 90).
Definition to_ascii_lowercase (b : Z) : Z := if is_ascii_uppercase b then b + 32 else b.
Definition normalize_lang_tag (tag : string) : string :=
  if existsb is_ascii_uppercase (str_bytes tag)
  then bytes_str (to_ascii_lowercase <$> str_bytes tag) else tag.

Definition with_lang (lang : string) : FlakeMeta := mkMeta (Some (normalize_lang_tag lang)) None.
Definition with_index (i : Z) : FlakeMeta := mkMeta None (Some i).

Record Flake `{CoreValues} := mkFlake {
  f_g : option Sid;
  f_s : Sid;
  f_p : Sid;
  f_o : FlakeValue;
  f_dt : Sid;
  f_t : Z;
  f_op : bool;
  f_m : option FlakeMeta;
}.
#[global] Arguments mkFlake {_} _ _ _ _ _ _ _ _.

(** ** Constants *)

Definition OP_FLAG_ASSERT : Z := 0x01.
Definition OP_FLAG_HAS_LANG : Z := 0x02.
Definition OP_FLAG_HAS_I : Z := 0x04.

Inductive OTag :=
| TRef | TLong | TDouble | TString | TBoolean | TJson | TNull | TGeoPoint | TVector
| TLexical (k : LexKind).

Definition lex_tag (k : LexKind) : Z :=
  match k with
  | KDateTime => 5 | KDate => 6 | KTime => 7 | KBigInt => 8 | KDecimal => 9
  | KGYear => 12 | KGYearMonth => 13 | KGMonth => 14 | KGDay => 15 | KGMonthDay => 16
  | KYearMonthDuration => 17 | KDayTimeDuration => 18 | KDuration => 19
  end.

(** [tag as u8]. *)
Definition otag_u8 (t : OTag) : Z :=
  match t with
  | TRef => 0 | TLong => 1 | TDouble => 2 | TString => 3 | TBoolean => 4
  | TJson => 10 | TNull => 11 | TGeoPoint => 20 | TVector => 21
  | TLexical k => lex_tag k
  end.

Definition otag_from_u8 (b : Z) : Outcome OTag :=
  match b with
  | 0 => Ok TRef
  | 1 => Ok TLong
  | 2 => Ok TDouble
  | 3 => Ok TString
  | 4 => Ok TBoolean
  | 5 => Ok (TLexical KDateTime)
  | 6 => Ok (TLexical KDate)
  | 7 => Ok (TLexical KTime)
  | 8 => Ok (TLexical KBigInt)
  | 9 => Ok (TLexical KDecimal)
  | 10 => Ok TJson
  | 11 => Ok TNull
  | 12 => Ok (TLexical KGYear)
  | 13 => Ok (TLexical KGYearMonth)
  | 14 => Ok (TLexical KGMonth)
  | 15 => Ok (TLexical KGDay)
  | 16 => Ok (TLexical KGMonthDay)
  | 17 => Ok (TLexical KYearMonthDuration)
  | 18 => Ok (TLexical KDayTimeDuration)
  | 19 => Ok (TLexical KDuration)
  | 20 => Ok TGeoPoint
  | 21 => Ok TVector
  | _ => Err (InvalidOpTag b)
  end.

(** ** The five dictionaries *)

Record Dicts (A : Type) := mkDicts {
  graph : A;
  subject : A;
  predicate : A;
  datatype : A;
  object_ref : A;
}.
#[global] Arguments mkDicts {A} _ _ _ _ _.
#[global] Arguments graph {A} d : rename.
#[global] Arguments subject {A} d : rename.
#[global] Arguments predicate {A} d : rename.
#[global] Arguments datatype {A} d : rename.
#[global] Arguments object_ref {A} d : rename.

Definition CommitDicts : Type := Dicts StringDictBuilder.
Definition ReadDicts : Type := Dicts StringDict.
Definition new_dicts : CommitDicts := mkDicts new_dict new_dict new_dict new_dict new_dict.

(** Which dictionary an op field uses. *)
Inductive Field := FGraph | FSubject | FPredicate | FDatatype | FObjectRef.

Definition dict_of {A} (f : Field) (d : Dicts A) : A :=
  match f with
  | FGraph => graph d | FSubject => subject d | FPredicate => predicate d
  | FDatatype => datatype d | FObjectRef => object_ref d
  end.
Definition set_dict {A} (f : Field) (x : A) (d : Dicts A) : Dicts A :=
  match f with
  | FGraph => mkDicts x (subject d) (predicate d) (datatype d) (object_ref d)
  | FSubject => mkDicts (graph d) x (predicate d) (datatype d) (object_ref d)
  | FPredicate => mkDicts (graph d) (subject d) x (datatype d) (object_ref d)
  | FDatatype => mkDicts (graph d) (subject d) (predicate d) x (object_ref d)
  | FObjectRef => mkDicts (graph d) (subject d) (predicate d) (datatype d) x
  end.

(** ** Encoding *)

(** What an encoder appends to the buffer, and the dictionaries after it. *)
Definition Encoder : Type := CommitDicts → Outcome (list Z * CommitDicts).

Definition put (bytes : list Z) : Encoder := λ d, Ok (bytes, d).
Definition efail (e : CommitCodecError) : Encoder := λ _, Err e.
Definition and_then (e1 e2 : Encoder) : Encoder := λ d,
  match e1 d with
  | Ok (bs1, d1) =>
      match e2 d1 with
      | Ok (bs2, d2) => Ok (bs1 ++ bs2, d2)
      | Err e => Err e
      | Panic => Panic
      end
  | Err e => Err e
  | Panic => Panic
  end.
Notation "e1 +>+ e2" := (and_then e1 e2) (at level 60, right associativity) : fluree_scope.

(** The namespace code, then the id of the name. *)
Definition put_sid (f : Field) (sid : Sid) : Encoder := λ d,
  let '(id, dict) := dict_insert (dict_of f d) (sid_name sid) in
  Ok (encode_varint (namespace_code sid) ++ encode_varint id, set_dict f dict d).

(** [encode_len_prefixed_display]: one placeholder byte, the text, and the
    length filled in or spliced in. *)
Definition encode_len_prefixed_display (text : string) : list Z :=
  let data := str_bytes text in
  let data_len := Z.of_nat (length data) in
  if data_len <? 128 then data_len :: data else encode_varint data_len ++ data.

Section codec.
Context `{V : CoreValues}.

Definition put_tag (t : OTag) : Encoder := put [otag_u8 t].

Definition encode_object (value : FlakeValue) : Encoder :=
  match value with
  | VRef sid => put_tag TRef +>+ put_sid FObjectRef sid
  | VLong n => put_tag TLong +>+ put (encode_varint (zigzag_encode n))
  | VDouble d => put_tag TDouble +>+ put (le_bytes 8 d)
  | VString s => put_tag TString +>+ put (encode_len_str s)
  | VBoolean b => put_tag TBoolean +>+ put [if b then 1 else 0]
  | VLexical k v => put_tag (TLexical k) +>+ put (encode_len_prefixed_display (display k v))
  | VJson s => put_tag TJson +>+ put (encode_len_str s)
  | VNull => put_tag TNull
  | VGeoPoint bits =>
      put_tag TGeoPoint +>+ put (le_bytes 8 (geo_lat bits)) +>+ put (le_bytes 8 (geo_lng bits))
  | VVector v =>
      put_tag TVector +>+ put (encode_varint (Z.of_nat (length v))) +>+ put (flat_map (le_bytes 8) v)
  end.

Definition encode_op (flake : Flake) : Encoder :=
  let lang : option string := f_m flake ≫= m_lang in
  let i : option Z := f_m flake ≫= m_i in
  match f_g flake with
  | Some g => put_sid FGraph g
  | None => put (encode_varint 0) +>+ put (encode_varint 0)
  end
  +>+ put_sid FSubject (f_s flake)
  +>+ put_sid FPredicate (f_p flake)
  +>+ put_sid FDatatype (f_dt flake)
  +>+ encode_object (f_o flake)
  +>+ put [Z.lor (Z.lor (if f_op flake then OP_FLAG_ASSERT else 0)
                        (if lang is Some _ then OP_FLAG_HAS_LANG else 0))
                 (if i is Some _ then OP_FLAG_HAS_I else 0)]
  +>+ match lang with Some lang => put (encode_len_str lang) | None => put [] end
  +>+ match i with
      | Some i => if i <? 0 then efail (NegativeListIndex i) else put (encode_varint i)
      | None => put []
      end.

(** ** Raw ops *)

Inductive RawObject :=
| RRef (ns_code : Z) (name : string)
| RLong (n : Z)
| RDouble (bits : Z)
| RStr (s : string)
| RBoolean (b : bool)
| RLexical (k : LexKind) (s : string)
| RJsonStr (s : string)
| RNull
| RGeoPoint (lat lng : Z)
| RVector (elements : list Z).

Record RawOp := mkRawOp {
  g_ns_code : Z; g_name : string;
  s_ns_code : Z; s_name : string;
  p_ns_code : Z; p_name : string;
  dt_ns_code : Z; dt_name : string;
  r_o : RawObject;
  r_op : bool;
  r_lang : option string;
  r_i : option Z;
}.

(** [as u16] and [as u32] of a decoded varint. *)
Definition varint_u16 : Reader Z := n ← decode_varint; mret (n mod 2 ^ 16).
Definition varint_u32 : Reader Z := n ← decode_varint; mret (n mod 2 ^ 32).

(** [decode_inline_str], and [decode_len_prefixed_str] of [op_codec.rs]. *)
Definition decode_inline_str : Reader string :=
  len ← decode_varint;
  bytes ← read_exact len;
  utf8_or (InvalidOp "invalid UTF-8") bytes.

Definition read_f64 : Reader Z := bytes ← read_exact 8; mret (from_le bytes).

(** [element]s at [i * 8] of the bytes read. *)
Fixpoint f64s (len : nat) (bytes : list Z) : list Z :=
  match len with
  | O => []
  | S len => from_le (take 8 bytes) :: f64s len (drop 8 bytes)
  end.

Definition decode_raw_object (tag : OTag) (dicts : ReadDicts) : Reader RawObject :=
  match tag with
  | TRef =>
      ns_code ← varint_u16;
      name_id ← varint_u32;
      name ← get_name (object_ref dicts) name_id;
      mret (RRef ns_code name)
  | TLong => raw ← decode_varint; mret (RLong (zigzag_decode raw))
  | TDouble => bits ← read_f64; mret (RDouble bits)
  | TString => s ← decode_inline_str; mret (RStr s)
  | TBoolean => b ← read_u8; mret (RBoolean (negb (b =? 0)))
  | TLexical k => s ← decode_inline_str; mret (RLexical k s)
  | TJson => s ← decode_inline_str; mret (RJsonStr s)
  | TNull => mret RNull
  | TGeoPoint =>
      coord_bytes ← read_exact 16;
      mret (RGeoPoint (from_le (take 8 coord_bytes)) (from_le (drop 8 coord_bytes)))
  | TVector =>
      len ← decode_varint;
      if two64 <=? len * 8 then rfail UnexpectedEof
      else
        vec_bytes ← read_exact (len * 8);
        with_capacity 8 len;;
        mret (RVector (f64s (Z.to_nat len) vec_bytes))
  end.

Definition read_tag : Reader OTag := λ data,
  match read_u8 data with
  | Ok (b, rest) =>
      match otag_from_u8 b with Ok t => Ok (t, rest) | Err e => Err e | Panic => Panic end
  | Err e => Err e
  | Panic => Panic
  end.

Definition has_flag (flags bit : Z) : bool := negb (Z.land flags bit =? 0).

(** The optional language tag and list index after the flags. *)
Definition read_lang (flags : Z) : Reader (option string) :=
  if has_flag flags OP_FLAG_HAS_LANG then lang ← decode_inline_str; mret (Some lang) else mret None.
Definition read_index (flags : Z) : Reader (option Z) :=
  if has_flag flags OP_FLAG_HAS_I then
    raw ← decode_varint;
    if 2 ^ 31 - 1 <? raw then rfail (InvalidOp "list index exceeds i32::MAX") else mret (Some raw)
  else mret None.

Definition decode_raw_op (dicts : ReadDicts) : Reader RawOp :=
  g_ns_code ← varint_u16;
  g_name_id ← varint_u32;
  g_name ← (if g_name_id =? 0 then mret ""%string else get_name (graph dicts) g_name_id);
  s_ns_code ← varint_u16;
  s_name_id ← varint_u32;
  s_name ← get_name (subject dicts) s_name_id;
  p_ns_code ← varint_u16;
  p_name_id ← varint_u32;
  p_name ← get_name (predicate dicts) p_name_id;
  dt_ns_code ← varint_u16;
  dt_name_id ← varint_u32;
  dt_name ← get_name (datatype dicts) dt_name_id;
  o_tag ← read_tag;
  o ← decode_raw_object o_tag dicts;
  flags ← read_u8;
  lang ← read_lang flags;
  i ← read_index flags;
  mret (mkRawOp g_ns_code g_name s_ns_code s_name p_ns_code p_name dt_ns_code dt_name o
                (has_flag flags OP_FLAG_ASSERT) lang i).

(** ** Flakes *)

(** [FlakeValue::try_from(RawObject)]; [None] is its error. *)
Definition value_try_from (raw : RawObject) : option FlakeValue :=
  match raw with
  | RRef ns_code name => Some (VRef (mkSid ns_code name))
  | RLong n => Some (VLong n)
  | RDouble n => Some (VDouble n)
  | RStr s => Some (VString s)
  | RBoolean b => Some (VBoolean b)
  | RNull => Some VNull
  | RJsonStr s => Some (VJson s)
  | RLexical k s => v ← parse k s; Some (VLexical k v)
  | RGeoPoint lat lng => bits ← geo_new lat lng; Some (VGeoPoint bits)
  | RVector v => Some (VVector v)
  end.

(** A varint that must fit [u16]. *)
Definition decode_ns_code : Reader Z :=
  raw ← decode_varint;
  if 2 ^ 16 <=? raw then rfail (InvalidOp "namespace code exceeds u16::MAX") else mret raw.

Definition decode_object (tag : OTag) (dicts : ReadDicts) : Reader FlakeValue :=
  raw ← decode_raw_object tag dicts;
  match value_try_from raw with
  | Some v => mret v
  | None => rfail (InvalidOp "bad value")
  end.

Definition decode_sid (dict : StringDict) : Reader Sid :=
  ns_code ← decode_ns_code;
  name_id ← varint_u32;
  name ← get_name dict name_id;
  mret (mkSid ns_code name).

Definition decode_graph (dicts : ReadDicts) : Reader (option Sid) :=
  g_ns_code ← decode_ns_code;
  g_name_id ← varint_u32;
  if (g_ns_code =? 0) && (g_name_id =? 0) then mret None
  else if g_name_id =? 0 then rfail (InvalidOp "graph name_id 0 is reserved")
  else g_name ← get_name (graph dicts) g_name_id; mret (Some (mkSid g_ns_code g_name)).

Definition make_meta (lang : option string) (i : option Z) : option FlakeMeta :=
  match lang, i with
  | Some l, Some idx => Some (mkMeta (Some l) (Some idx))
  | Some l, None => Some (with_lang l)
  | None, Some idx => Some (with_index idx)
  | None, None => None
  end.

Definition decode_op (dicts : ReadDicts) (t : Z) : Reader Flake :=
  g ← decode_graph dicts;
  s ← decode_sid (subject dicts);
  p ← decode_sid (predicate dicts);
  dt ← decode_sid (datatype dicts);
  o_tag ← read_tag;
  o ← decode_object o_tag dicts;
  flags ← read_u8;
  lang ← read_lang flags;
  i ← read_index flags;
  mret (mkFlake g s p o dt t (has_flag flags OP_FLAG_ASSERT) (make_meta lang i)).
End codec.
