(* ===== verification/CommitOpSound.v ===== *)
(** * What the op codec guarantees

    [writes e p x]: whatever the dictionaries, what [e] writes is read by [p]
    as [x] with any dictionaries that extend the ones [e] leaves; so the
    dictionaries stored after the last op serve every op.

    [raw_matches raw flake]: the raw op carries the facts of the flake. *)

From S2P Require Import Prelude Text CommitWire CommitOp.

(** ** Dictionaries grow *)

Definition dicts_ok (d : CommitDicts) : Prop := ∀ f, dict_ok (dict_of f d).
Definition entries_of (f : Field) (d : CommitDicts) : list string := db_entries (dict_of f d).
Definition dicts_le (d d' : CommitDicts) : Prop := ∀ f, entries_of f d `prefix_of` entries_of f d'.
Definition dicts_small (d : CommitDicts) : Prop := ∀ f, Z.of_nat (length (entries_of f d)) < 2 ^ 32.
Definition extends (rd : ReadDicts) (d : CommitDicts) : Prop :=
  ∀ f, entries_of f d `prefix_of` dict_of f rd.

#[export] Instance dicts_le_preorder : PreOrder dicts_le.
Proof. split; [by intros d f|]. intros d1 d2 d3 H1 H2 f. etrans; [apply H1|apply H2]. Qed.

Lemma dicts_small_le d d' : dicts_le d d' → dicts_small d' → dicts_small d.
Proof. intros Hle Hs f. specialize (Hle f). specialize (Hs f). apply prefix_length in Hle. lia. Qed.

Lemma extends_le rd d d' : dicts_le d d' → extends rd d' → extends rd d.
Proof. intros Hle He f. etrans; [apply Hle|apply He]. Qed.

Lemma dict_of_set {A} f (x : A) d : dict_of f (set_dict f x d) = x.
Proof. by destruct f. Qed.

Lemma dict_of_set_ne {A} f f' (x : A) d : f ≠ f' → dict_of f' (set_dict f x d) = dict_of f' d.
Proof. by destruct f, f'. Qed.

#[export] Instance field_eq_dec : EqDecision Field.
Proof. solve_decision. Defined.

(** ** Encoders and readers *)

Definition writes {A} (e : Encoder) (p : ReadDicts → Reader A) (x : A) : Prop :=
  ∀ d bs d', e d = Ok (bs, d') →
    dicts_le d d'
    ∧ (dicts_ok d → dicts_small d' → dicts_ok d' ∧ ∀ rd, extends rd d' → reads_as (p rd) bs x).

Lemma writes_put {A} bs (p : ReadDicts → Reader A) x :
  (∀ rd, reads_as (p rd) bs x) → writes (put bs) p x.
Proof. intros H d bs' d' [= <- <-]. by split. Qed.

Lemma put_put bs bs' : put bs +>+ put bs' = put (bs ++ bs').
Proof. reflexivity. Qed.

Lemma writes_bind {A B} e1 e2 (p : ReadDicts → Reader A) (k : ReadDicts → A → Reader B) x y :
  writes e1 p x → writes e2 (λ rd, k rd x) y → writes (e1 +>+ e2) (λ rd, p rd ≫= k rd) y.
Proof.
  intros H1 H2 d bs d' H. unfold and_then in H.
  destruct (e1 d) as [[bs1 d1]| |] eqn:E1; [|done..].
  destruct (e2 d1) as [[bs2 d2]| |] eqn:E2; [|done..]. injection H as <- <-.
  destruct (H1 _ _ _ E1) as [Hle1 Hw1], (H2 _ _ _ E2) as [Hle2 Hw2].
  split; [by etrans|]. intros Hok Hs.
  destruct (Hw1 Hok) as [Hok1 Hr1]; [by eapply dicts_small_le|].
  destruct (Hw2 Hok1 Hs) as [Hok2 Hr2]. split; [done|].
  intros rd Hext. eapply reads_as_bind; [by apply Hr1, (extends_le _ _ _ Hle2)|by apply Hr2].
Qed.

(** A step of the reader that reads nothing. *)
Lemma writes_last {A B} e (p : ReadDicts → Reader A) (k : ReadDicts → A → Reader B) x y :
  writes e p x → (∀ rd, reads_as (k rd x) [] y) → writes e (λ rd, p rd ≫= k rd) y.
Proof.
  intros H Hk d bs d' E. destruct (H _ _ _ E) as [Hle Hw]. split; [done|].
  intros Hok Hs. destruct (Hw Hok Hs) as [Hok' Hr]. split; [done|].
  intros rd Hext. eapply reads_as_last; eauto.
Qed.

Lemma writes_ext {A} e (p q : ReadDicts → Reader A) x :
  (∀ rd data, p rd data = q rd data) → writes e p x → writes e q x.
Proof.
  intros Hpq H d bs d' E. destruct (H _ _ _ E) as [Hle Hw]. split; [done|].
  intros Hok Hs. destruct (Hw Hok Hs) as [Hok' Hr]. split; [done|].
  intros rd Hext rest. rewrite <- Hpq. by apply Hr.
Qed.

(** An error writes nothing. *)
Lemma writes_efail {A} e (p : ReadDicts → Reader A) x : writes (efail e) p x.
Proof. intros d bs d' H. done. Qed.

(** ** Names *)

Definition sid_ok (sid : Sid) : Prop := 0 <= namespace_code sid < 2 ^ 16 ∧ str_ok (sid_name sid).

Lemma reads_as_varint_u32 n : 0 <= n < 2 ^ 32 → reads_as varint_u32 (encode_varint n) n.
Proof.
  intros Hn. unfold varint_u32. rewrite <- (Z.mod_small n (2 ^ 32)) at 2 by lia.
  apply (reads_as_map _ (λ n, n mod 2 ^ 32)), reads_as_varint. unfold two64. lia.
Qed.

Lemma reads_as_varint_u16 n : 0 <= n < 2 ^ 16 → reads_as varint_u16 (encode_varint n) n.
Proof.
  intros Hn. unfold varint_u16. rewrite <- (Z.mod_small n (2 ^ 16)) at 2 by lia.
  apply (reads_as_map _ (λ n, n mod 2 ^ 16)), reads_as_varint. unfold two64. lia.
Qed.

Lemma reads_as_ns_code n : 0 <= n < 2 ^ 16 → reads_as decode_ns_code (encode_varint n) n.
Proof.
  intros Hn. unfold decode_ns_code. eapply reads_as_last.
  - apply reads_as_varint. unfold two64. lia.
  - by rewrite (proj2 (Z.leb_gt _ _)) by lia.
Qed.

(** The id [put_sid] writes names the Sid, whatever reader follows. *)
Lemma put_sid_writes {A} (f : Field) sid (ns : Reader Z) (k : ReadDicts → Z → Z → Reader A) y :
  sid_ok sid → reads_as ns (encode_varint (namespace_code sid)) (namespace_code sid) →
  (∀ rd id, 1 <= id < 2 ^ 32 → reads_as (get_name (dict_of f rd) id) [] (sid_name sid) →
     reads_as (k rd (namespace_code sid) id) [] y) →
  writes (put_sid f sid) (λ rd, ns_code ← ns; name_id ← varint_u32; k rd ns_code name_id) y.
Proof.
  intros [Hns Hname] Hread Hk d bs d' H. unfold put_sid in H.
  destruct (dict_insert (dict_of f d) (sid_name sid)) as [id dict] eqn:E. injection H as <- <-.
  pose proof (dict_insert_prefix (dict_of f d) (sid_name sid)) as Hpre. rewrite E in Hpre. cbn in Hpre.
  split.
  { intros f'. unfold entries_of. destruct (decide (f = f')) as [<-|Hne];
      [by rewrite dict_of_set|by rewrite dict_of_set_ne]. }
  intros Hok Hs. pose proof (Hs f) as Hsf. unfold entries_of in Hsf. rewrite dict_of_set in Hsf.
  pose proof (dict_insert_ok (dict_of f d) (sid_name sid)) as Hins. rewrite E in Hins.
  destruct Hins as (Hdict & Hid & Hl); [done..|]. cbn in *. split.
  - intros f'. destruct (decide (f = f')) as [<-|Hne]; [by rewrite dict_of_set|by rewrite dict_of_set_ne].
  - intros rd Hext. specialize (Hext f). unfold entries_of in Hext. rewrite dict_of_set in Hext.
    eapply reads_as_bind; [exact Hread|]. eapply reads_as_last; [by apply reads_as_varint_u32; lia|].
    apply Hk; [done|]. eapply get_name_extends; [done|lia|done].
Qed.

Lemma put_sid_decode f sid :
  sid_ok sid → writes (put_sid f sid) (λ rd, decode_sid (dict_of f rd)) sid.
Proof.
  intros Hs. unfold decode_sid. apply put_sid_writes; [done|apply reads_as_ns_code, Hs|].
  intros rd id Hid Hget. eapply reads_as_last; [exact Hget|]. by destruct sid.
Qed.

Lemma put_graph_decode g :
  from_option sid_ok True g →
  writes match g with Some g => put_sid FGraph g | None => put (encode_varint 0) +>+ put (encode_varint 0) end
         decode_graph g.
Proof.
  intros Hg. unfold decode_graph. destruct g as [sid|]; cbn in Hg.
  - apply put_sid_writes; [done|apply reads_as_ns_code, Hg|]. intros rd id Hid Hget.
    rewrite (proj2 (Z.eqb_neq id 0)), andb_false_r by lia.
    eapply reads_as_last; [exact Hget|]. by destruct sid.
  - rewrite put_put. apply writes_put. intros rd.
    eapply reads_as_bind; [by apply reads_as_ns_code|].
    eapply reads_as_last; [by apply reads_as_varint_u32|done].
Qed.

(** ** Objects *)

Lemma encode_display_len_str s : encode_len_prefixed_display s = encode_len_str s.
Proof.
  unfold encode_len_prefixed_display, encode_len_str. case_match eqn:E; [|done].
  apply Z.ltb_lt in E. set (n := Z.of_nat _) in *. assert (0 <= n) by lia. clearbody n.
  unfold encode_varint. cbn [encode_varint_loop].
  rewrite Z.shiftr_div_pow2, Z.div_small by lia. cbn [Z.eqb].
  change 127 with (Z.ones 7). by rewrite Z.land_ones, Z.mod_small by lia.
Qed.

Lemma reads_as_inline_str s : str_ok s → reads_as decode_inline_str (encode_len_str s) s.
Proof. apply (reads_as_str read_exact). intros bs. by apply reads_as_exact. Qed.

Lemma reads_as_f64 x : 0 <= x < two64 → reads_as read_f64 (le_bytes 8 x) x.
Proof.
  intros Hx. unfold read_f64. eapply reads_as_last; [apply reads_as_exact; by rewrite length_le_bytes|].
  by rewrite from_le_bytes.
Qed.

Lemma f64s_le_bytes v : Forall (λ x, 0 <= x < two64) v → f64s (length v) (flat_map (le_bytes 8) v) = v.
Proof.
  induction 1 as [|x v Hx _ IH]; [done|]. cbn [length f64s flat_map].
  rewrite take_app_length', drop_app_length' by by rewrite length_le_bytes.
  by rewrite from_le_bytes, IH.
Qed.

Lemma length_f64s_bytes v : length (flat_map (le_bytes 8) v) = (8 * length v)%nat.
Proof. induction v as [|x v IH]; [done|]. cbn [flat_map length]. rewrite length_app, length_le_bytes. lia. Qed.

Lemma otag_roundtrip t : otag_from_u8 (otag_u8 t) = Ok t.
Proof. by destruct t as [| | | | | | | | |[]]. Qed.

Lemma writes_tag t : writes (put_tag t) (λ _, read_tag) t.
Proof. apply writes_put. intros _ rest. unfold read_tag. cbn. by rewrite otag_roundtrip. Qed.

Section codec.
Context `{V : CoreValues}.

(** The values the format represents: those of their Rust types, with
    lexical forms that parse back. *)
Definition value_ok (v : FlakeValue) : Prop :=
  match v with
  | VRef sid => sid_ok sid
  | VBoolean _ | VNull => True
  | VLong n => - 2 ^ 63 <= n < 2 ^ 63
  | VDouble d => 0 <= d < two64
  | VLexical k v => str_ok (display k v) ∧ parse k (display k v) = Some v
  | VString s | VJson s => str_ok s
  | VVector v => Forall (λ x, 0 <= x < two64) v ∧ Z.of_nat (length v) * 8 < 2 ^ 63
  | VGeoPoint b =>
      0 <= geo_lat b < two64 ∧ 0 <= geo_lng b < two64 ∧ geo_new (geo_lat b) (geo_lng b) = Some b
  end.

(** The raw form of a value. *)
Definition raw_of (v : FlakeValue) : RawObject :=
  match v with
  | VRef sid => RRef (namespace_code sid) (sid_name sid)
  | VBoolean b => RBoolean b
  | VLong n => RLong n
  | VDouble d => RDouble d
  | VLexical k v => RLexical k (display k v)
  | VString s => RStr s
  | VVector v => RVector v
  | VJson s => RJsonStr s
  | VGeoPoint b => RGeoPoint (geo_lat b) (geo_lng b)
  | VNull => RNull
  end.

Lemma value_try_from_raw_of v : value_ok v → value_try_from (raw_of v) = Some v.
Proof.
  destruct v as [[]|b|n|dbl|k x|s|es|s|b|]; cbn; try done.
  - intros [_ ->]. done.
  - intros (_ & _ & ->). done.
Qed.

Definition read_raw (dicts : ReadDicts) : Reader RawObject :=
  tag ← read_tag; decode_raw_object tag dicts.

Lemma reads_as_vector v (dicts : ReadDicts) :
  Forall (λ x, 0 <= x < two64) v → Z.of_nat (length v) * 8 < 2 ^ 63 →
  reads_as (decode_raw_object TVector dicts)
           (encode_varint (Z.of_nat (length v)) ++ flat_map (le_bytes 8) v) (RVector v).
Proof.
  intros Hv Hlen. cbn [decode_raw_object].
  eapply reads_as_bind; [apply reads_as_varint; unfold two64; lia|].
  rewrite (proj2 (Z.leb_gt _ _)) by (unfold two64; lia).
  eapply reads_as_last; [apply reads_as_exact; rewrite length_f64s_bytes; lia|].
  eapply reads_as_first; [apply reads_as_capacity; lia|].
  rewrite Nat2Z.id, f64s_le_bytes by done. apply reads_as_ret.
Qed.

Lemma reads_as_geo lat lng (dicts : ReadDicts) :
  0 <= lat < two64 → 0 <= lng < two64 →
  reads_as (decode_raw_object TGeoPoint dicts) (le_bytes 8 lat ++ le_bytes 8 lng) (RGeoPoint lat lng).
Proof.
  intros Hlat Hlng. cbn [decode_raw_object].
  eapply reads_as_last; [apply reads_as_exact; by rewrite length_app, !length_le_bytes|].
  rewrite take_app_length', drop_app_length' by by rewrite length_le_bytes.
  rewrite !from_le_bytes by done. apply reads_as_ret.
Qed.

Lemma encode_object_raw v : value_ok v → writes (encode_object v) read_raw (raw_of v).
Proof.
  intros Hv. unfold read_raw. destruct v as [sid|b|n|dbl|k x|s|es|s|b|]; cbn in Hv; cbn [encode_object raw_of].
  all: try (eapply writes_bind; [apply writes_tag|]).
  - apply put_sid_writes; [done|apply reads_as_varint_u16, Hv|].
    intros rd id Hid Hget. eapply reads_as_last; [exact Hget|]. apply reads_as_ret.
  - apply writes_put. intros rd. eapply reads_as_last; [apply reads_as_u8|]. by destruct b.
  - apply writes_put. intros rd. eapply reads_as_last; [apply reads_as_varint, zigzag_encode_range|].
    rewrite zigzag_roundtrip by done. apply reads_as_ret.
  - apply writes_put. intros rd. eapply reads_as_last; [by apply reads_as_f64|]. apply reads_as_ret.
  - apply writes_put. intros rd. rewrite encode_display_len_str.
    eapply reads_as_last; [apply reads_as_inline_str, Hv|]. apply reads_as_ret.
  - apply writes_put. intros rd. eapply reads_as_last; [by apply reads_as_inline_str|]. apply reads_as_ret.
  - rewrite put_put. apply writes_put. intros rd. apply reads_as_vector; apply Hv.
  - apply writes_put. intros rd. eapply reads_as_last; [by apply reads_as_inline_str|]. apply reads_as_ret.
  - rewrite put_put. apply writes_put. intros rd. apply reads_as_geo; apply Hv.
  - eapply writes_last; [apply writes_tag|]. intros rd. apply reads_as_ret.
Qed.

Lemma encode_object_decode v :
  value_ok v → writes (encode_object v) (λ rd, tag ← read_tag; decode_object tag rd) v.
Proof.
  intros Hv. unfold decode_object.
  eapply (writes_ext _ (λ rd, raw ← read_raw rd;
            match value_try_from raw with Some v => mret v | None => rfail (InvalidOp "bad value") end)).
  { intros rd data. unfold read_raw, mbind, reader_bind. destruct (read_tag data) as [[]| |]; [|done..].
    by destruct (decode_raw_object _ _ _) as [[]| |]. }
  eapply writes_last; [by apply encode_object_raw|].
  intros rd. rewrite value_try_from_raw_of by done. apply reads_as_ret.
Qed.

(** ** Ops *)

Definition op_flags (op : bool) (lang : option string) (i : option Z) : Z :=
  Z.lor (Z.lor (if op then OP_FLAG_ASSERT else 0) (if lang is Some _ then OP_FLAG_HAS_LANG else 0))
        (if i is Some _ then OP_FLAG_HAS_I else 0).

Lemma op_flags_spec op lang i :
  has_flag (op_flags op lang i) OP_FLAG_ASSERT = op
  ∧ has_flag (op_flags op lang i) OP_FLAG_HAS_LANG = (if lang is Some _ then true else false)
  ∧ has_flag (op_flags op lang i) OP_FLAG_HAS_I = (if i is Some _ then true else false).
Proof. by destruct op, lang, i. Qed.

(** The metadata the format represents: present only with a language tag or
    an index, an index of its type, and a tag that is normalized unless an
    index stands beside it. *)
Definition meta_ok (m : option FlakeMeta) : Prop :=
  match m with
  | None => True
  | Some m =>
      (m_lang m ≠ None ∨ m_i m ≠ None)
      ∧ from_option str_ok True (m_lang m)
      ∧ (m_i m = None → normalize_lang_tag <$> m_lang m = m_lang m)
      ∧ from_option (λ i, i < 2 ^ 31) True (m_i m)
  end.

Lemma make_meta_ok m : meta_ok m → make_meta (m ≫= m_lang) (m ≫= m_i) = m.
Proof.
  destruct m as [[[l|] [i|]]|]; cbn; try done.
  - intros (_ & _ & Hn & _). unfold with_lang. specialize (Hn eq_refl). injection Hn as Hn. by rewrite Hn.
  - intros ([?|?] & _); done.
Qed.

Definition flake_ok (t : Z) (flake : Flake) : Prop :=
  from_option sid_ok True (f_g flake) ∧ sid_ok (f_s flake) ∧ sid_ok (f_p flake) ∧ sid_ok (f_dt flake)
  ∧ value_ok (f_o flake) ∧ f_t flake = t ∧ meta_ok (f_m flake).

Lemma lang_writes flags (lang : option string) :
  has_flag flags OP_FLAG_HAS_LANG = (if lang is Some _ then true else false) → from_option str_ok True lang →
  writes match lang with Some lang => put (encode_len_str lang) | None => put [] end (λ _, read_lang flags) lang.
Proof.
  intros Hf Hs. unfold read_lang. rewrite Hf. destruct lang as [l|]; apply writes_put; intros _.
  - apply (reads_as_map _ Some), reads_as_inline_str, Hs.
  - apply reads_as_ret.
Qed.

Lemma index_writes flags (i : option Z) :
  has_flag flags OP_FLAG_HAS_I = (if i is Some _ then true else false) →
  from_option (λ i, i < 2 ^ 31) True i →
  writes match i with
         | Some i => if i <? 0 then efail (NegativeListIndex i) else put (encode_varint i)
         | None => put []
         end (λ _, read_index flags) i.
Proof.
  intros Hf Hi. unfold read_index. rewrite Hf. destruct i as [i|]; cbn in Hi.
  - destruct (Z.ltb_spec i 0); [apply writes_efail|]. apply writes_put. intros _.
    eapply reads_as_last; [apply reads_as_varint; unfold two64; lia|].
    by rewrite (proj2 (Z.ltb_ge _ _)) by lia.
  - apply writes_put. intros _. apply reads_as_ret.
Qed.

(** Reading the object is one step of the op. *)
Lemma writes_object {A} v e (k : ReadDicts → FlakeValue → Reader A) y :
  value_ok v → writes e (λ rd, k rd v) y →
  writes (encode_object v +>+ e) (λ rd, tag ← read_tag; o ← decode_object tag rd; k rd o) y.
Proof.
  intros Hv He. eapply writes_ext; [|eapply writes_bind; [by apply encode_object_decode|exact He]].
  intros rd data. unfold mbind, reader_bind. by destruct (read_tag data) as [[]| |].
Qed.

Lemma encode_op_decode t flake :
  flake_ok t flake → writes (encode_op flake) (λ rd, decode_op rd t) flake.
Proof.
  intros (Hg & Hs & Hp & Hdt & Ho & Ht & Hm). unfold encode_op, decode_op.
  eapply writes_bind; [by apply put_graph_decode|].
  do 3 (eapply writes_bind; [by eapply put_sid_decode|]).
  apply writes_object; [done|].
  set (lang := f_m flake ≫= m_lang). set (i := f_m flake ≫= m_i).
  change (Z.lor _ _) with (op_flags (f_op flake) lang i).
  destruct (op_flags_spec (f_op flake) lang i) as (Ea & El & Ei).
  eapply writes_bind; [apply (writes_put _ (λ _, read_u8)); intros _; apply reads_as_u8|].
  assert (from_option str_ok True lang ∧ from_option (λ i, i < 2 ^ 31) True i) as [Hlang Hi].
  { subst lang i. destruct (f_m flake); [|done]. destruct Hm as (_ & ? & _ & ?). done. }
  eapply writes_bind; [by apply lang_writes|].
  eapply writes_last; [by apply index_writes|].
  intros rd. rewrite Ea. subst lang i. rewrite make_meta_ok by done. rewrite <- Ht.
  by destruct flake.
Qed.

(** Encoding fails only on a negative list index. *)
Definition index_negative (flake : Flake) : option Z :=
  m ← f_m flake; i ← m_i m; if i <? 0 then Some i else None.

Lemma put_sid_total f sid d : ∃ bs d', put_sid f sid d = Ok (bs, d').
Proof. unfold put_sid. destruct (dict_insert _ _). eauto. Qed.

Lemma and_then_total e1 e2 d :
  (∀ d, ∃ bs d', e1 d = Ok (bs, d')) → (∀ d, ∃ bs d', e2 d = Ok (bs, d')) →
  ∃ bs d', (e1 +>+ e2) d = Ok (bs, d').
Proof.
  intros H1 H2. unfold and_then. destruct (H1 d) as (bs1 & d1 & ->), (H2 d1) as (bs2 & d2 & ->). eauto.
Qed.

Lemma encode_object_total v d : ∃ bs d', encode_object v d = Ok (bs, d').
Proof.
  destruct v; cbn [encode_object]; unfold put_tag; rewrite ?put_put; unfold put; eauto.
  apply and_then_total; [by eauto|]. intros. apply put_sid_total.
Qed.

Lemma encode_op_total flake d : index_negative flake = None → ∃ bs d', encode_op flake d = Ok (bs, d').
Proof.
  intros Hi. unfold encode_op, index_negative in *. revert d.
  intros d. apply and_then_total; intros d1.
  { destruct (f_g flake); [apply put_sid_total|]. unfold put, and_then. eauto. }
  do 3 (apply and_then_total; [intros; apply put_sid_total|]; intros ?).
  apply and_then_total; [intros; apply encode_object_total|]. intros ?.
  apply and_then_total; [unfold put; eauto|]. intros ?.
  apply and_then_total; [destruct (_ ≫= m_lang); unfold put; eauto|]. intros ?.
  destruct (f_m flake) as [m|]; cbn in *; [|unfold put; eauto].
  destruct (m_i m) as [i|]; cbn in *; [|unfold put; eauto].
  destruct (i <? 0); [done|]. unfold put. eauto.
Qed.

(** ** The two readers *)

Definition raw_matches (raw : RawOp) (flake : Flake) : Prop :=
  match f_g flake with
  | None => g_ns_code raw = 0 ∧ g_name raw = ""%string
  | Some g => g = mkSid (g_ns_code raw) (g_name raw)
  end
  ∧ f_s flake = mkSid (s_ns_code raw) (s_name raw)
  ∧ f_p flake = mkSid (p_ns_code raw) (p_name raw)
  ∧ f_dt flake = mkSid (dt_ns_code raw) (dt_name raw)
  ∧ value_try_from (r_o raw) = Some (f_o flake)
  ∧ f_op flake = r_op raw
  ∧ f_m flake = make_meta (r_lang raw) (r_i raw).

Lemma decode_ns_code_raw data ns rest :
  decode_ns_code data = Ok (ns, rest) → varint_u16 data = Ok (ns, rest).
Proof.
  unfold decode_ns_code. intros (n & mid & Hn & H)%bind_Ok_inv.
  destruct (Z.leb_spec (2 ^ 16) n); [done|]. injection H as -> ->.
  unfold varint_u16. rewrite (bind_Ok _ _ _ _ _ Hn). unfold mret, reader_ret.
  rewrite Z.mod_small; [done|]. apply decode_varint_nonneg in Hn. lia.
Qed.

Lemma decode_sid_raw dict data sid rest :
  decode_sid dict data = Ok (sid, rest) →
  ∃ id d1 d2, varint_u16 data = Ok (namespace_code sid, d1) ∧ varint_u32 d1 = Ok (id, d2)
    ∧ get_name dict id d2 = Ok (sid_name sid, rest).
Proof.
  unfold decode_sid. intros (ns & d1 & Hns & H)%bind_Ok_inv. apply bind_Ok_inv in H as (id & d2 & Hid & H).
  apply bind_Ok_inv in H as (nm & d3 & Hnm & H). injection H as <- <-.
  exists id, d1, d2. by apply decode_ns_code_raw in Hns.
Qed.

Lemma decode_graph_raw dicts data g rest :
  decode_graph dicts data = Ok (g, rest) →
  ∃ ns nm id d1 d2, varint_u16 data = Ok (ns, d1) ∧ varint_u32 d1 = Ok (id, d2)
    ∧ (if id =? 0 then mret ""%string else get_name (graph dicts) id) d2 = Ok (nm, rest)
    ∧ match g with None => ns = 0 ∧ nm = ""%string | Some g => g = mkSid ns nm end.
Proof.
  unfold decode_graph. intros (ns & d1 & Hns & H)%bind_Ok_inv. apply bind_Ok_inv in H as (id & d2 & Hid & H).
  apply decode_ns_code_raw in Hns. destruct (Z.eqb_spec ns 0) as [->|Hne]; cbn [andb] in H.
  - destruct (id =? 0) eqn:E.
    + injection H as <- <-. exists 0, ""%string, id, d1, d2. by rewrite E.
    + apply bind_Ok_inv in H as (nm & d3 & Hnm & H). injection H as <- <-.
      exists 0, nm, id, d1, d2. by rewrite E.
  - destruct (id =? 0) eqn:E; [done|].
    apply bind_Ok_inv in H as (nm & d3 & Hnm & H). injection H as <- <-.
    exists ns, nm, id, d1, d2. by rewrite E.
Qed.

(** Whatever [decode_op] reads, [decode_raw_op] reads from the same bytes. *)
Lemma decode_raw_op_matches dicts t data flake rest :
  decode_op dicts t data = Ok (flake, rest) →
  ∃ raw, decode_raw_op dicts data = Ok (raw, rest) ∧ raw_matches raw flake ∧ f_t flake = t.
Proof.
  unfold decode_op. intros (g & d1 & Hg & H)%bind_Ok_inv.
  apply bind_Ok_inv in H as (s & d2 & Hs & H). apply bind_Ok_inv in H as (p & d3 & Hp & H).
  apply bind_Ok_inv in H as (dt & d4 & Hdt & H). apply bind_Ok_inv in H as (tag & d5 & Htag & H).
  apply bind_Ok_inv in H as (o & d6 & Ho & H). apply bind_Ok_inv in H as (flags & d7 & Hf & H).
  apply bind_Ok_inv in H as (lang & d8 & Hl & H). apply bind_Ok_inv in H as (i & d9 & Hi & H).
  injection H as <- <-. unfold decode_object in Ho. apply bind_Ok_inv in Ho as (raw & d6' & Hraw & Ho).
  destruct (value_try_from raw) as [v|] eqn:Ev; [|done]. injection Ho as -> ->.
  apply decode_graph_raw in Hg as (gns & gnm & gid & ? & ? & Hg1 & Hg2 & Hg3 & Hg).
  apply decode_sid_raw in Hs as (sid & ? & ? & Hs1 & Hs2 & Hs3).
  apply decode_sid_raw in Hp as (pid & ? & ? & Hp1 & Hp2 & Hp3).
  apply decode_sid_raw in Hdt as (did & ? & ? & Hd1 & Hd2 & Hd3).
  unfold decode_raw_op. eexists. split.
  { do 17 (erewrite bind_Ok by eassumption). reflexivity. }
  split; [|done]. unfold raw_matches. cbn. destruct s, p, dt. by destruct g.
Qed.
End codec.
