(* ===== verification/CommitEnvelope.v ===== *)
(** * The envelope of a commit
    ([fluree-db-core/src/commit/codec/envelope.rs], the data of
    [fluree-db-core/src/commit.rs], and [NsSplitMode] of [ns_encoding.rs])

    Everything of a commit that is not a flake: parents, namespace and graph
    tables, the transaction reference, time, signature and metadata.  A
    [HashMap] is a [gmap]; the encoder sorts its entries by key.

    Content identifiers and SHA-256 come from the [cid], [multihash] and
    [sha2] crates; [Cids] is what the codec uses of them, with the law that a
    binary CID parses back. *)

From S2P Require Import Prelude Text CommitWire CommitOp.

Class Cids := {
  ContentId : Type;
  (** [Cid::to_bytes] and [Cid::try_from]. *)
  cid_to_bytes : ContentId → list Z;
  cid_from_bytes : list Z → option ContentId;
  (** [Cid::new_v1(codec, mh)] for a SHA2-256 multihash of a digest. *)
  cid_v1 : Z → list Z → ContentId;
  (** [Sha256::digest]. *)
  sha256 : list Z → list Z;
  cid_parses : ∀ c, cid_from_bytes (cid_to_bytes c) = Some c;
}.

(** ** Data *)

Record TxnSignature := mkTxnSignature { signer : string; txn_id : option string }.

Inductive TxnMetaValue :=
| MString (s : string)
| MTypedLiteral (value : string) (dt_ns : Z) (dt_name : string)
| MLangString (value lang : string)
| MRef (ns : Z) (name : string)
| MLong (n : Z)
| MDouble (bits : Z)
| MBoolean (b : bool).

Record TxnMetaEntry := mkMetaEntry { predicate_ns : Z; predicate_name : string; me_value : TxnMetaValue }.

Definition MAX_TXN_META_ENTRIES : Z := 256.

Inductive NsSplitMode := MostGranular | HostPlusN (n : Z).

Definition HOST_PLUS_N_MAX : Z := 254.

Definition to_byte (self : NsSplitMode) : option Z :=
  match self with
  | MostGranular => Some 0
  | HostPlusN n => if HOST_PLUS_N_MAX <? n then None else Some (n + 1)
  end.

Definition from_byte (b : Z) : NsSplitMode := if b =? 0 then MostGranular else HostPlusN (b - 1).

Record CodecEnvelope `{Cids} := mkEnvelope {
  e_t : Z;
  parents : list ContentId;
  namespace_delta : gmap Z string;
  txn : option ContentId;
  time : option string;
  txn_signature : option TxnSignature;
  txn_meta : list TxnMetaEntry;
  graph_delta : gmap Z string;
  ns_split_mode : option NsSplitMode;
}.
#[global] Arguments mkEnvelope {_} _ _ _ _ _ _ _ _ _.

(** ** Constants *)

Definition FLAG_TXN_META : Z := 0x01.
Definition FLAG_PARENT : Z := 0x02.
Definition FLAG_NAMESPACE_DELTA : Z := 0x04.
Definition FLAG_TXN : Z := 0x08.
Definition FLAG_TIME : Z := 0x10.
Definition FLAG_TXN_SIGNATURE : Z := 0x80.
Definition KNOWN_FLAGS : Z :=
  Z.lor (Z.lor (Z.lor (Z.lor (Z.lor FLAG_TXN_META FLAG_PARENT) FLAG_NAMESPACE_DELTA) FLAG_TXN) FLAG_TIME)
        FLAG_TXN_SIGNATURE.
Definition MAX_GRAPH_DELTA_ENTRIES : Z := 256.
Definition MAX_GRAPH_IRI_LENGTH : Z := 8192.
Definition MAX_CID_BYTES : Z := 128.
Definition MAX_PARENTS : Z := 16.

Definition TXN_META_TAG_STRING : Z := 0.
Definition TXN_META_TAG_TYPED_LITERAL : Z := 1.
Definition TXN_META_TAG_LANG_STRING : Z := 2.
Definition TXN_META_TAG_REF : Z := 3.
Definition TXN_META_TAG_LONG : Z := 4.
Definition TXN_META_TAG_DOUBLE : Z := 5.
Definition TXN_META_TAG_BOOLEAN : Z := 6.

(** [f64::is_finite]: the exponent bits are not all ones. *)
Definition is_finite (bits : Z) : bool := negb (Z.land (Z.shiftr bits 52) 0x7FF =? 0x7FF).

Definition zlen {A} (l : list A) : Z := Z.of_nat (length l).

(** ** Encoding *)

(** [entries.sort_by_key] of a map. *)
Definition sorted_entries (m : gmap Z string) : list (Z * string) :=
  sort_by (by_key Z.le fst) (map_to_list m).

Definition encode_entry (e : Z * string) : list Z := encode_varint e.1 ++ encode_len_str e.2.

(** [encode_ns_delta] and [encode_graph_delta] have one body. *)
Definition encode_delta (delta : gmap Z string) : list Z :=
  encode_varint (Z.of_nat (size delta)) ++ flat_map encode_entry (sorted_entries delta).

Definition encode_len_bytes (bytes : list Z) : Outcome (list Z) :=
  if MAX_CID_BYTES <? zlen bytes then Err (EnvelopeDecode "CID byte length exceeds maximum")
  else Ok (encode_varint (zlen bytes) ++ bytes).

Definition encode_txn_meta_value (value : TxnMetaValue) : Outcome (list Z) :=
  match value with
  | MString s => Ok ([TXN_META_TAG_STRING] ++ encode_len_str s)
  | MTypedLiteral value dt_ns dt_name =>
      Ok ([TXN_META_TAG_TYPED_LITERAL] ++ encode_len_str value ++ encode_varint dt_ns ++ encode_len_str dt_name)
  | MLangString value lang => Ok ([TXN_META_TAG_LANG_STRING] ++ encode_len_str value ++ encode_len_str lang)
  | MRef ns name => Ok ([TXN_META_TAG_REF] ++ encode_varint ns ++ encode_len_str name)
  | MLong n => Ok ([TXN_META_TAG_LONG] ++ encode_varint (zigzag_encode n))
  | MDouble n =>
      if is_finite n then Ok ([TXN_META_TAG_DOUBLE] ++ le_bytes 8 n)
      else Err (EnvelopeEncode "txn_meta does not support non-finite double values")
  | MBoolean b => Ok ([TXN_META_TAG_BOOLEAN] ++ [if b then 1 else 0])
  end.

Definition encode_meta_entry (entry : TxnMetaEntry) : Outcome (list Z) :=
  bytes ← encode_txn_meta_value (me_value entry);
  Ok (encode_varint (predicate_ns entry) ++ encode_len_str (predicate_name entry) ++ bytes).

(** A loop that appends and stops at the first error. *)
Fixpoint emit_all {A} (f : A → Outcome (list Z)) (l : list A) : Outcome (list Z) :=
  match l with
  | [] => Ok []
  | x :: l => bs ← f x; bs' ← emit_all f l; Ok (bs ++ bs')
  end.

Definition encode_txn_meta (entries : list TxnMetaEntry) : Outcome (list Z) :=
  if MAX_TXN_META_ENTRIES <? zlen entries then Err (EnvelopeEncode "txn_meta entry count exceeds maximum")
  else bs ← emit_all encode_meta_entry entries; Ok (encode_varint (zlen entries) ++ bs).

Definition encode_signature (sig : TxnSignature) : list Z :=
  encode_len_str (signer sig)
  ++ match txn_id sig with Some id => [1] ++ encode_len_str id | None => [0] end.

(** A section of the envelope: its bytes when the field is present. *)
Definition emit_if (present : bool) (bytes : Outcome (list Z)) : Outcome (list Z) :=
  if present then bytes else Ok [].

Definition nonempty {A} (l : list A) : bool := match l with [] => false | _ => true end.
Definition map_nonempty (m : gmap Z string) : bool := negb (size m =? 0)%nat.
Definition present {A} (o : option A) : bool := match o with Some _ => true | None => false end.

Section envelope.
Context `{Cids}.

Definition encode_commit_id (id : ContentId) : Outcome (list Z) := encode_len_bytes (cid_to_bytes id).

Definition encode_parents (version : Z) (ps : list ContentId) : Outcome (list Z) :=
  if version =? 3 then bs ← emit_all encode_commit_id ps; Ok (encode_varint (zlen ps) ++ bs)
  else match ps with p :: _ => encode_commit_id p | [] => Panic end.

Definition encode_graph_ext (delta : gmap Z string) : Outcome (list Z) :=
  if map_nonempty delta then
    if MAX_GRAPH_DELTA_ENTRIES <? Z.of_nat (size delta) then Err (LimitExceeded "graph_delta entries")
    else if existsb (λ e, MAX_GRAPH_IRI_LENGTH <? zlen (str_bytes e.2)) (map_to_list delta)
    then Err (LimitExceeded "graph_delta IRI")
    else Ok ([1] ++ encode_delta delta)
  else Ok [0].

Definition encode_mode_ext (mode : option NsSplitMode) : Outcome (list Z) :=
  match mode with
  | Some mode =>
      match to_byte mode with
      | Some b => Ok [1; b]
      | None => Err (EnvelopeDecode "ns_split_mode encode")
      end
  | None => Ok [0]
  end.

Definition envelope_flags (env : CodecEnvelope) : Z :=
  Z.lor (Z.lor (Z.lor (Z.lor (Z.lor
    (if nonempty (txn_meta env) then FLAG_TXN_META else 0)
    (if nonempty (parents env) then FLAG_PARENT else 0))
    (if map_nonempty (namespace_delta env) then FLAG_NAMESPACE_DELTA else 0))
    (if present (txn env) then FLAG_TXN else 0))
    (if present (time env) then FLAG_TIME else 0))
    (if present (txn_signature env) then FLAG_TXN_SIGNATURE else 0).

Definition encode_envelope_fields (env : CodecEnvelope) : Outcome (list Z) :=
  let num_parents := zlen (parents env) in
  if MAX_PARENTS <? num_parents then Err (EnvelopeEncode "parents has too many entries")
  else
    let version := if num_parents <=? 1 then 2 else 3 in
    meta ← emit_if (nonempty (txn_meta env)) (encode_txn_meta (txn_meta env));
    ps ← emit_if (nonempty (parents env)) (encode_parents version (parents env));
    ns ← emit_if (map_nonempty (namespace_delta env)) (Ok (encode_delta (namespace_delta env)));
    tx ← match txn env with Some c => encode_len_bytes (cid_to_bytes c) | None => Ok [] end;
    tm ← match time env with Some s => Ok (encode_len_str s) | None => Ok [] end;
    sg ← match txn_signature env with Some s => Ok (encode_signature s) | None => Ok [] end;
    gd ← encode_graph_ext (graph_delta env);
    md ← encode_mode_ext (ns_split_mode env);
    Ok (encode_varint (zigzag_encode version) ++ [envelope_flags env]
        ++ meta ++ ps ++ ns ++ tx ++ tm ++ sg ++ gd ++ md).

(** ** Decoding *)

Definition decode_len_str : Reader string :=
  len ← decode_varint;
  bytes ← read_exact len;
  utf8_or (EnvelopeDecode "invalid UTF-8") bytes.

Definition decode_len_bytes : Reader (list Z) :=
  len ← decode_varint;
  if MAX_CID_BYTES <? len then rfail (EnvelopeDecode "CID byte length exceeds maximum")
  else read_exact len.

(** The CID of length-prefixed bytes: [decode_commit_id], and the [txn] field. *)
Definition decode_commit_id : Reader ContentId :=
  cid_bytes ← decode_len_bytes;
  match cid_from_bytes cid_bytes with
  | Some c => mret c
  | None => rfail (EnvelopeDecode "invalid CID")
  end.

(** [HashMap::with_capacity]: eight slots for seven entries rounded up to a
    power of two, each a 32-byte entry and a control byte, and a group of 16;
    a size above [isize::MAX] rounded to the alignment panics. *)
Definition map_with_capacity (count : Z) : Reader unit :=
  if (two64 <=? count * 8) || (2 ^ 63 - 16 <? 33 * 2 ^ Z.log2_up (count * 8 / 7) + 16)
  then rpanic else mret tt.

Definition read_map (p : Reader Z) : Reader (gmap Z string) :=
  count ← decode_varint;
  map_with_capacity count;;
  entries ← rtimes (Z.to_nat count) (k ← p; v ← decode_len_str; mret (k, v));
  mret (foldl (λ m e, <[e.1 := e.2]> m) ∅ entries).

Definition decode_ns_delta : Reader (gmap Z string) := read_map varint_u16.

Definition decode_g_id : Reader Z :=
  raw ← decode_varint;
  if 2 ^ 16 <=? raw then rfail (GIdOutOfRange raw) else mret raw.
Definition decode_graph_delta : Reader (gmap Z string) := read_map decode_g_id.

Definition decode_txn_meta_value : Reader TxnMetaValue :=
  tag ← read_u8;
  if tag =? TXN_META_TAG_STRING then s ← decode_len_str; mret (MString s)
  else if tag =? TXN_META_TAG_TYPED_LITERAL then
    value ← decode_len_str; dt_ns ← varint_u16; dt_name ← decode_len_str;
    mret (MTypedLiteral value dt_ns dt_name)
  else if tag =? TXN_META_TAG_LANG_STRING then
    value ← decode_len_str; lang ← decode_len_str; mret (MLangString value lang)
  else if tag =? TXN_META_TAG_REF then
    ns ← varint_u16; name ← decode_len_str; mret (MRef ns name)
  else if tag =? TXN_META_TAG_LONG then n ← decode_varint; mret (MLong (zigzag_decode n))
  else if tag =? TXN_META_TAG_DOUBLE then
    n ← read_f64;
    if is_finite n then mret (MDouble n)
    else rfail (EnvelopeDecode "txn_meta contains non-finite double value")
  else if tag =? TXN_META_TAG_BOOLEAN then b ← read_u8; mret (MBoolean (negb (b =? 0)))
  else rfail (EnvelopeDecode "unknown txn_meta value tag").

Definition decode_meta_entry : Reader TxnMetaEntry :=
  ns ← varint_u16; name ← decode_len_str; value ← decode_txn_meta_value;
  mret (mkMetaEntry ns name value).

(** The vectors hold at most 256 entries: no capacity overflow. *)
Definition decode_txn_meta : Reader (list TxnMetaEntry) :=
  count ← decode_varint;
  if MAX_TXN_META_ENTRIES <? count then rfail (EnvelopeDecode "txn_meta entry count exceeds maximum")
  else rtimes (Z.to_nat count) decode_meta_entry.

Definition decode_parents (v : Z) : Reader (list ContentId) :=
  if v =? 3 then
    count ← decode_varint;
    if MAX_PARENTS <? count then rfail (EnvelopeDecode "parents count exceeds maximum")
    else rtimes (Z.to_nat count) decode_commit_id
  else c ← decode_commit_id; mret [c].

Definition decode_signature : Reader TxnSignature :=
  signer ← decode_len_str;
  if 256 <? zlen (str_bytes signer) then rfail (EnvelopeDecode "txn_signature signer length exceeds maximum")
  else
    has_txn_id ← read_u8;
    if has_txn_id =? 0 then mret (mkTxnSignature signer None)
    else
      id ← decode_len_str;
      if 256 <? zlen (str_bytes id) then rfail (EnvelopeDecode "txn_signature txn_id length exceeds maximum")
      else mret (mkTxnSignature signer (Some id)).

Definition read_if {A} (flags bit : Z) (p : Reader A) (absent : A) : Reader A :=
  if has_flag flags bit then p else mret absent.
Definition read_some {A} (p : Reader A) : Reader (option A) := x ← p; mret (Some x).

(** An extension: a presence byte, if any byte is left. *)
Definition read_ext {A} (p : Reader A) (absent : A) : Reader A := λ data,
  match data with
  | [] => Ok (absent, [])
  | b :: rest => if b =? 0 then Ok (absent, rest) else p rest
  end.

Definition decode_fields : Reader CodecEnvelope :=
  raw ← decode_varint;
  let v := to_signed 32 (zigzag_decode raw mod 2 ^ 32) in
  if negb (v =? 2) && negb (v =? 3) then rfail (EnvelopeDecode "unsupported envelope version")
  else
    flags ← read_u8;
    if negb (Z.land flags (255 - KNOWN_FLAGS) =? 0) then rfail (EnvelopeDecode "unknown envelope flags")
    else
      txn_meta ← read_if flags FLAG_TXN_META decode_txn_meta [];
      parents ← read_if flags FLAG_PARENT (decode_parents v) [];
      namespace_delta ← read_if flags FLAG_NAMESPACE_DELTA decode_ns_delta ∅;
      txn ← read_if flags FLAG_TXN (read_some decode_commit_id) None;
      time ← read_if flags FLAG_TIME (read_some decode_len_str) None;
      txn_signature ← read_if flags FLAG_TXN_SIGNATURE (read_some decode_signature) None;
      graph_delta ← read_ext decode_graph_delta ∅;
      ns_split_mode ← read_ext (b ← read_u8; mret (Some (from_byte b))) None;
      mret (mkEnvelope 0 parents namespace_delta txn time txn_signature txn_meta graph_delta ns_split_mode).

Definition decode_envelope (data : list Z) : Outcome CodecEnvelope :=
  match decode_fields data with
  | Ok (env, []) => Ok env
  | Ok (_, _ :: _) => Err (EnvelopeDecode "trailing bytes")
  | Err e => Err e
  | Panic => Panic
  end.
End envelope.
