(* ===== verification/CommitEnvelopeSound.v ===== *)
(** * What the envelope codec guarantees

    An envelope of well-formed fields that the encoder accepts is decoded as
    itself; [t] is not part of it. *)

From S2P Require Import Prelude Text CommitWire CommitOp CommitOpSound CommitEnvelope.

#[export] Instance Ok_inj {A} : Inj (=) (=) (@Ok A).
Proof. by intros x y [= ->]. Qed.

Lemma outcome_bind_Ok {A B} (m : Outcome A) (k : A → Outcome B) y :
  m ≫= k = Ok y → ∃ x, m = Ok x ∧ k x = Ok y.
Proof. destruct m; [|done..]. eauto. Qed.

Lemma reads_as_emit_all {A} (f : A → Outcome (list Z)) (p : Reader A) xs bs :
  Forall (λ x, ∀ b, f x = Ok b → reads_as p b x) xs → emit_all f xs = Ok bs →
  reads_as (rtimes (length xs) p) bs xs.
Proof.
  intros Hf. revert bs. induction Hf as [|x xs Hx _ IH]; intros bs H; cbn in H.
  { injection H as <-. apply reads_as_ret. }
  apply outcome_bind_Ok in H as (b & Hb & H). apply outcome_bind_Ok in H as (b' & Hb' & H).
  injection H as <-. cbn [length rtimes].
  eapply reads_as_bind; [by apply Hx|]. by apply (reads_as_map _ (cons x)), IH.
Qed.

(** ** Maps *)

Definition delta_ok (m : gmap Z string) : Prop := map_Forall (λ k s, 0 <= k < 2 ^ 16 ∧ str_ok s) m.

Lemma sorted_entries_perm m : sorted_entries m ≡ₚ map_to_list m.
Proof. apply sort_by_Permutation. Qed.

Lemma foldl_insert_to_map (l : list (Z * string)) :
  foldl (λ m e, <[e.1 := e.2]> m) (∅ : gmap Z string) l = list_to_map (rev l).
Proof.
  induction l as [|x l IH] using rev_ind; [done|].
  rewrite foldl_app, rev_app_distr. cbn. by rewrite IH.
Qed.

Lemma foldl_insert_sorted m : foldl (λ m e, <[e.1 := e.2]> m) ∅ (sorted_entries m) = m.
Proof.
  rewrite foldl_insert_to_map. rewrite <- (list_to_map_to_list m) at 2.
  assert (rev (sorted_entries m) ≡ₚ map_to_list m) as Hp by (rewrite <- Permutation_rev; apply sorted_entries_perm).
  apply list_to_map_proper; [|done]. rewrite Hp. apply NoDup_fst_map_to_list.
Qed.

Lemma length_sorted_entries m : length (sorted_entries m) = size m.
Proof. rewrite <- length_map_to_list. apply Permutation_length, sorted_entries_perm. Qed.

(** Keys of sixteen bits bound the size. *)
Lemma delta_size m : delta_ok m → Z.of_nat (size m) <= 2 ^ 16.
Proof.
  intros Hm. rewrite <- length_map_to_list, <- (length_fmap fst).
  pose proof (NoDup_fst_map_to_list m) as Hnd.
  assert (incl (map_to_list m).*1 (seqZ 0 (2 ^ 16))) as Hincl.
  { intros k Hk. apply list_elem_of_In in Hk. apply list_elem_of_In, elem_of_seqZ.
    apply list_elem_of_fmap in Hk as ([k' s] & -> & Hin%elem_of_map_to_list).
    destruct (Hm _ _ Hin) as [? _]. cbn. lia. }
  apply NoDup_ListNoDup in Hnd. pose proof (NoDup_incl_length Hnd Hincl) as Hl.
  rewrite length_seqZ in Hl. lia.
Qed.

Lemma reads_as_len_str s : str_ok s → reads_as decode_len_str (encode_len_str s) s.
Proof. apply (reads_as_str read_exact). intros bs. by apply reads_as_exact. Qed.

Lemma reads_as_map_capacity count : 0 <= count <= 2 ^ 16 → reads_as (map_with_capacity count) [] tt.
Proof.
  intros Hc rest. unfold map_with_capacity.
  assert (2 ^ Z.log2_up (count * 8 / 7) <= 2 ^ 17) as Hb.
  { apply Z.pow_le_mono_r; [lia|]. change 17 with (Z.log2_up (2 ^ 17)). apply Z.log2_up_le_mono.
    transitivity (2 ^ 16 * 8 / 7); [apply Z.div_le_mono; lia|]. by vm_compute. }
  rewrite (proj2 (Z.leb_gt _ _)) by (unfold two64; lia).
  rewrite (proj2 (Z.ltb_ge _ _)); [done|]. change (2 ^ 17) with 131072 in Hb. lia.
Qed.

Lemma reads_as_delta p m :
  (∀ k, 0 <= k < 2 ^ 16 → reads_as p (encode_varint k) k) → delta_ok m →
  reads_as (read_map p) (encode_delta m) m.
Proof.
  intros Hp Hm. pose proof (delta_size m Hm). unfold read_map, encode_delta.
  eapply reads_as_bind; [apply reads_as_varint; unfold two64; lia|].
  eapply reads_as_first; [apply reads_as_map_capacity; lia|].
  rewrite Nat2Z.id, <- length_sorted_entries. rewrite <- (foldl_insert_sorted m) at 3.
  apply (reads_as_map _ (foldl (λ m e, <[e.1 := e.2]> m) ∅)), reads_as_rtimes.
  apply Forall_forall. intros [k s] Hin.
  rewrite sorted_entries_perm in Hin. apply elem_of_map_to_list, Hm in Hin as [??].
  eapply reads_as_bind; [by apply Hp|]. by apply (reads_as_map _ (pair k)), reads_as_len_str.
Qed.

Lemma reads_as_ns_delta m : delta_ok m → reads_as decode_ns_delta (encode_delta m) m.
Proof. apply reads_as_delta, reads_as_varint_u16. Qed.

Lemma reads_as_graph_delta m : delta_ok m → reads_as decode_graph_delta (encode_delta m) m.
Proof.
  apply reads_as_delta. intros k Hk. unfold decode_g_id.
  eapply reads_as_last; [apply reads_as_varint; unfold two64; lia|].
  by rewrite (proj2 (Z.leb_gt _ _)) by lia.
Qed.

(** ** Transaction metadata *)

Definition meta_value_ok (v : TxnMetaValue) : Prop :=
  match v with
  | MString s => str_ok s
  | MTypedLiteral value dt_ns dt_name => str_ok value ∧ 0 <= dt_ns < 2 ^ 16 ∧ str_ok dt_name
  | MLangString value lang => str_ok value ∧ str_ok lang
  | MRef ns name => 0 <= ns < 2 ^ 16 ∧ str_ok name
  | MLong n => - 2 ^ 63 <= n < 2 ^ 63
  | MDouble n => 0 <= n < two64
  | MBoolean _ => True
  end.

Definition meta_entry_ok (e : TxnMetaEntry) : Prop :=
  0 <= predicate_ns e < 2 ^ 16 ∧ str_ok (predicate_name e) ∧ meta_value_ok (me_value e).

Lemma reads_as_meta_value v bs :
  meta_value_ok v → encode_txn_meta_value v = Ok bs → reads_as decode_txn_meta_value bs v.
Proof.
  intros Hv H. unfold decode_txn_meta_value.
  destruct v as [s|value ns nm|value lang|ns nm|n|n|b]; cbn [encode_txn_meta_value meta_value_ok] in *.
  6: destruct (is_finite n) eqn:Efin; [|done].
  all: apply (inj Ok) in H as <-; eapply reads_as_bind; [apply reads_as_u8|].
  all: unfold TXN_META_TAG_STRING, TXN_META_TAG_TYPED_LITERAL, TXN_META_TAG_LANG_STRING, TXN_META_TAG_REF,
         TXN_META_TAG_LONG, TXN_META_TAG_DOUBLE, TXN_META_TAG_BOOLEAN; cbn [Z.eqb Pos.eqb].
  - by apply (reads_as_map _ MString), reads_as_len_str.
  - destruct Hv as (? & ? & ?). eapply reads_as_bind; [by apply reads_as_len_str|].
    eapply reads_as_bind; [by apply reads_as_varint_u16|].
    by apply (reads_as_map _ (MTypedLiteral value ns)), reads_as_len_str.
  - destruct Hv. eapply reads_as_bind; [by apply reads_as_len_str|].
    by apply (reads_as_map _ (MLangString value)), reads_as_len_str.
  - destruct Hv. eapply reads_as_bind; [by apply reads_as_varint_u16|].
    by apply (reads_as_map _ (MRef ns)), reads_as_len_str.
  - eapply reads_as_last; [apply reads_as_varint, zigzag_encode_range|].
    rewrite zigzag_roundtrip by done. apply reads_as_ret.
  - eapply reads_as_last; [by apply reads_as_f64|]. rewrite Efin. apply reads_as_ret.
  - eapply reads_as_last; [apply reads_as_u8|]. by destruct b.
Qed.

Lemma reads_as_meta_entry e bs :
  meta_entry_ok e → encode_meta_entry e = Ok bs → reads_as decode_meta_entry bs e.
Proof.
  intros (? & ? & Hv) (b & Hb & [= <-])%outcome_bind_Ok. unfold decode_meta_entry.
  eapply reads_as_bind; [by apply reads_as_varint_u16|].
  eapply reads_as_bind; [by apply reads_as_len_str|]. destruct e as [ns nm v].
  by apply (reads_as_map _ (mkMetaEntry ns nm)), reads_as_meta_value.
Qed.

Lemma reads_as_txn_meta es bs :
  Forall meta_entry_ok es → encode_txn_meta es = Ok bs → reads_as decode_txn_meta bs es.
Proof.
  intros Hes H. unfold encode_txn_meta in H. destruct (MAX_TXN_META_ENTRIES <? zlen es) eqn:E; [done|].
  apply outcome_bind_Ok in H as (b & Hb & [= <-]). unfold decode_txn_meta. pose proof E as Hlen.
  apply Z.ltb_ge in Hlen. unfold zlen, MAX_TXN_META_ENTRIES in Hlen.
  eapply reads_as_bind; [apply reads_as_varint; unfold zlen, two64; lia|]. rewrite E.
  unfold zlen. rewrite Nat2Z.id. eapply reads_as_emit_all; [|done].
  eapply Forall_impl; [done|]. intros e He b'. by apply reads_as_meta_entry.
Qed.

(** ** The other fields *)

Definition signature_ok (s : TxnSignature) : Prop :=
  str_ok (signer s) ∧ zlen (str_bytes (signer s)) <= 256
  ∧ from_option (λ id, str_ok id ∧ zlen (str_bytes id) <= 256) True (txn_id s).

Lemma reads_as_signature s : signature_ok s → reads_as decode_signature (encode_signature s) s.
Proof.
  intros (Hs & Hl & Hid). unfold decode_signature, encode_signature.
  eapply reads_as_bind; [by apply reads_as_len_str|].
  rewrite (proj2 (Z.ltb_ge 256 _)) by done. destruct s as [sg [id|]]; cbn [txn_id signer from_option] in *.
  - destruct Hid as [Hid Hl']. eapply reads_as_bind; [apply reads_as_u8|]. cbn [Z.eqb].
    eapply reads_as_last; [by apply reads_as_len_str|].
    by rewrite (proj2 (Z.ltb_ge 256 _)).
  - eapply reads_as_last; [apply reads_as_u8|]. done.
Qed.

Lemma reads_as_if {A} flags bit (b : bool) (p : Reader A) x absent bs :
  has_flag flags bit = b → (b = true → reads_as p bs x) → (b = false → bs = [] ∧ x = absent) →
  reads_as (read_if flags bit p absent) bs x.
Proof.
  intros Hf Hp Ha. unfold read_if. rewrite Hf. destruct b; [by apply Hp|].
  destruct Ha as [-> ->]; [done|]. apply reads_as_ret.
Qed.

Lemma reads_as_some {A} (p : Reader A) bs x : reads_as p bs x → reads_as (read_some p) bs (Some x).
Proof. apply (reads_as_map _ Some). Qed.

Lemma reads_as_ext_none {A} (p : Reader A) absent : reads_as (read_ext p absent) [0] absent.
Proof. done. Qed.

Lemma reads_as_ext_some {A} (p : Reader A) absent bs x :
  reads_as p bs x → reads_as (read_ext p absent) (1 :: bs) x.
Proof. intros Hp rest. apply Hp. Qed.

Definition mode_ok (m : NsSplitMode) : Prop := match m with MostGranular => True | HostPlusN n => 0 <= n end.

Lemma from_to_byte m b : mode_ok m → to_byte m = Some b → from_byte b = m.
Proof.
  destruct m as [|n]; cbn; intros Hn; [by intros [= <-]|]. case_match; [done|]. intros [= <-].
  unfold from_byte. rewrite (proj2 (Z.eqb_neq _ _)) by lia. f_equal. lia.
Qed.

Lemma reads_as_mode mode bs :
  from_option mode_ok True mode → encode_mode_ext mode = Ok bs →
  reads_as (read_ext (b ← read_u8; mret (Some (from_byte b))) None) bs mode.
Proof.
  intros Hm H. destruct mode as [m|]; cbn in H; [|injection H as <-; apply reads_as_ext_none].
  destruct (to_byte m) as [b|] eqn:E; [|done]. injection H as <-.
  apply reads_as_ext_some. eapply reads_as_last; [apply reads_as_u8|].
  rewrite (from_to_byte m) by done. apply reads_as_ret.
Qed.

Lemma reads_as_graph_ext delta bs :
  delta_ok delta → encode_graph_ext delta = Ok bs →
  reads_as (read_ext decode_graph_delta ∅) bs delta.
Proof.
  intros Hd H. unfold encode_graph_ext, map_nonempty in H.
  destruct (Nat.eqb_spec (size delta) 0) as [E|E]; cbn [negb] in H.
  - injection H as <-. apply map_size_empty_inv in E as ->. apply reads_as_ext_none.
  - destruct (MAX_GRAPH_DELTA_ENTRIES <? _); [done|]. destruct (existsb _ _); [done|].
    apply (inj Ok) in H as <-. by apply (reads_as_ext_some _ _ (encode_delta delta)), reads_as_graph_delta.
Qed.

(** ** The envelope *)

Section envelope.
Context `{Cids}.

Lemma reads_as_commit_id c bs : encode_commit_id c = Ok bs → reads_as decode_commit_id bs c.
Proof.
  unfold encode_commit_id, encode_len_bytes. case_match eqn:E; [done|]. intros [= <-].
  unfold decode_commit_id, decode_len_bytes. eapply reads_as_last.
  - eapply reads_as_bind.
    { apply reads_as_varint. apply Z.ltb_ge in E. unfold zlen, MAX_CID_BYTES, two64 in *. lia. }
    rewrite E. by apply reads_as_exact.
  - by rewrite cid_parses.
Qed.

Lemma reads_as_parents (ps : list ContentId) bs v :
  zlen ps <= MAX_PARENTS → v = (if zlen ps <=? 1 then 2 else 3) → ps ≠ [] → encode_parents v ps = Ok bs →
  reads_as (decode_parents v) bs ps.
Proof.
  intros Hmax Ev Hne Henc. unfold zlen, MAX_PARENTS in *. unfold encode_parents, decode_parents in *.
  destruct (Z.leb_spec (Z.of_nat (length ps)) 1) as [Hl|Hl]; subst v; cbn [Z.eqb Pos.eqb] in *.
  - destruct ps as [|c [|]]; [done| |cbn in Hl; lia].
    by apply (reads_as_map _ (λ c, [c])), reads_as_commit_id.
  - apply outcome_bind_Ok in Henc as (b & Hb & Henc). apply (inj Ok) in Henc as <-.
    eapply reads_as_bind; [apply reads_as_varint; unfold zlen, two64; lia|].
    rewrite (proj2 (Z.ltb_ge _ _)) by (unfold zlen, MAX_PARENTS; lia). unfold zlen. rewrite Nat2Z.id.
    eapply reads_as_emit_all; [|done]. apply Forall_true. intros c b'. apply reads_as_commit_id.
Qed.

Definition envelope_ok (env : CodecEnvelope) : Prop :=
  delta_ok (namespace_delta env) ∧ delta_ok (graph_delta env)
  ∧ from_option str_ok True (time env)
  ∧ from_option signature_ok True (txn_signature env)
  ∧ Forall meta_entry_ok (txn_meta env)
  ∧ from_option mode_ok True (ns_split_mode env).

Definition with_t (t : Z) (env : CodecEnvelope) : CodecEnvelope :=
  mkEnvelope t (parents env) (namespace_delta env) (txn env) (time env) (txn_signature env)
             (txn_meta env) (graph_delta env) (ns_split_mode env).

Lemma envelope_flags_spec env :
  let flags := envelope_flags env in
  has_flag flags FLAG_TXN_META = nonempty (txn_meta env)
  ∧ has_flag flags FLAG_PARENT = nonempty (parents env)
  ∧ has_flag flags FLAG_NAMESPACE_DELTA = map_nonempty (namespace_delta env)
  ∧ has_flag flags FLAG_TXN = present (txn env)
  ∧ has_flag flags FLAG_TIME = present (time env)
  ∧ has_flag flags FLAG_TXN_SIGNATURE = present (txn_signature env)
  ∧ Z.land flags (255 - KNOWN_FLAGS) = 0.
Proof.
  unfold envelope_flags.
  destruct (nonempty (txn_meta env)), (nonempty (parents env)), (map_nonempty (namespace_delta env)),
    (present (txn env)), (present (time env)), (present (txn_signature env)); by vm_compute.
Qed.

Lemma version_roundtrip (b : bool) :
  let v := if b then 2 else 3 in to_signed 32 (zigzag_decode (zigzag_encode v) mod 2 ^ 32) = v.
Proof. by destruct b. Qed.

Lemma option_field {A} flags bit (o : option A) (enc : A → Outcome (list Z)) (p : Reader A) bs :
  has_flag flags bit = present o → (∀ x b, o = Some x → enc x = Ok b → reads_as p b x) →
  match o with Some x => enc x | None => Ok [] end = Ok bs →
  reads_as (read_if flags bit (read_some p) None) bs o.
Proof.
  intros Hf Hp Hbs. eapply reads_as_if; [exact Hf|..]; destruct o as [x|]; cbn; try done; intros _.
  - apply reads_as_some. by eapply Hp.
  - apply (inj Ok) in Hbs as <-. done.
Qed.

Lemma decode_fields_encode env bs :
  envelope_ok env → encode_envelope_fields env = Ok bs → reads_as decode_fields bs (with_t 0 env).
Proof.
  intros (Hns & Hgd & Htime & Hsig & Hmeta & Hmode) Henc. unfold encode_envelope_fields in Henc.
  destruct (MAX_PARENTS <? zlen (parents env)) eqn:Emax; [done|]. apply Z.ltb_ge in Emax.
  set (v := if zlen (parents env) <=? 1 then 2 else 3) in Henc. cbn zeta in Henc.
  apply outcome_bind_Ok in Henc as (meta & Emeta & Henc). apply outcome_bind_Ok in Henc as (ps & Eps & Henc).
  apply outcome_bind_Ok in Henc as (ns & Ens & Henc). apply outcome_bind_Ok in Henc as (tx & Etx & Henc).
  apply outcome_bind_Ok in Henc as (tm & Etm & Henc). apply outcome_bind_Ok in Henc as (sg & Esg & Henc).
  apply outcome_bind_Ok in Henc as (gd & Egd & Henc). apply outcome_bind_Ok in Henc as (md & Emd & Henc).
  apply (inj Ok) in Henc as <-. destruct (envelope_flags_spec env) as (F1 & F2 & F3 & F4 & F5 & F6 & F7).
  unfold decode_fields. eapply reads_as_bind; [apply reads_as_varint, zigzag_encode_range|].
  assert (to_signed 32 (zigzag_decode (zigzag_encode v) mod 2 ^ 32) = v) as -> by apply version_roundtrip.
  assert (negb (v =? 2) && negb (v =? 3) = false) as -> by (unfold v; by destruct (zlen (parents env) <=? 1)).
  eapply reads_as_bind; [apply reads_as_u8|]. rewrite F7. cbn [Z.eqb negb].
  eapply reads_as_bind.
  { eapply reads_as_if; [exact F1|..]; intros E; rewrite E in Emeta; cbn [emit_if] in Emeta.
    - by apply reads_as_txn_meta.
    - apply (inj Ok) in Emeta as <-. by destruct (txn_meta env). }
  eapply reads_as_bind.
  { eapply reads_as_if; [exact F2|..]; intros E; rewrite E in Eps; cbn [emit_if] in Eps.
    - apply reads_as_parents; [done..| |done]. by destruct (parents env).
    - apply (inj Ok) in Eps as <-. by destruct (parents env). }
  eapply reads_as_bind.
  { eapply reads_as_if; [exact F3|..]; intros E; rewrite E in Ens; cbn [emit_if] in Ens;
      apply (inj Ok) in Ens as <-; [by apply reads_as_ns_delta|]. split; [done|].
    apply negb_false_iff, Nat.eqb_eq in E. by apply map_size_empty_inv. }
  eapply reads_as_bind; [eapply (option_field _ _ _ _ _ _ F4); [|exact Etx]; intros; by apply reads_as_commit_id|].
  eapply reads_as_bind.
  { eapply (option_field _ _ _ (λ s, Ok (encode_len_str s)) _ _ F5); [|exact Etm].
    intros s b Es Eb. apply (inj Ok) in Eb as <-. apply reads_as_len_str. by rewrite Es in Htime. }
  eapply reads_as_bind.
  { eapply (option_field _ _ _ (λ s, Ok (encode_signature s)) _ _ F6); [|exact Esg].
    intros s b Es Eb. apply (inj Ok) in Eb as <-. apply reads_as_signature. by rewrite Es in Hsig. }
  eapply reads_as_bind; [by apply reads_as_graph_ext|].
  eapply reads_as_last; [by apply reads_as_mode|]. apply reads_as_ret.
Qed.

Lemma decode_encode_envelope env bs :
  envelope_ok env → encode_envelope_fields env = Ok bs → decode_envelope bs = Ok (with_t 0 env).
Proof.
  intros Hok Henc. unfold decode_envelope.
  pose proof (decode_fields_encode env bs Hok Henc []) as Hd. rewrite app_nil_r in Hd. by rewrite Hd.
Qed.

(** ** What the encoder accepts *)

Definition cid_writable (c : ContentId) : Prop := zlen (cid_to_bytes c) <= MAX_CID_BYTES.

Definition meta_writable (e : TxnMetaEntry) : Prop :=
  match me_value e with MDouble n => is_finite n = true | _ => True end.

(** The limits of the encoder. *)
Definition envelope_writable (env : CodecEnvelope) : Prop :=
  zlen (parents env) <= MAX_PARENTS ∧ Forall cid_writable (parents env)
  ∧ from_option cid_writable True (txn env)
  ∧ zlen (txn_meta env) <= MAX_TXN_META_ENTRIES ∧ Forall meta_writable (txn_meta env)
  ∧ Z.of_nat (size (graph_delta env)) <= MAX_GRAPH_DELTA_ENTRIES
  ∧ map_Forall (λ _ iri, zlen (str_bytes iri) <= MAX_GRAPH_IRI_LENGTH) (graph_delta env)
  ∧ from_option (λ m, match m with HostPlusN n => n <= HOST_PLUS_N_MAX | MostGranular => True end) True
                (ns_split_mode env).

Lemma emit_all_total {A} (f : A → Outcome (list Z)) l :
  Forall (λ x, ∃ bs, f x = Ok bs) l → ∃ bs, emit_all f l = Ok bs.
Proof.
  induction 1 as [|x l [b Hb] _ [bs IH]]; [by eexists|]. cbn. rewrite Hb. cbn. rewrite IH. by eexists.
Qed.

Lemma outcome_bind_total {A B} (m : Outcome A) (k : A → Outcome B) :
  (∃ x, m = Ok x) → (∀ x, ∃ y, k x = Ok y) → ∃ y, m ≫= k = Ok y.
Proof. intros [x ->] Hk. apply Hk. Qed.

Lemma encode_len_bytes_total bytes : zlen bytes <= MAX_CID_BYTES → ∃ bs, encode_len_bytes bytes = Ok bs.
Proof. intros Hl. unfold encode_len_bytes. rewrite (proj2 (Z.ltb_ge _ _)) by done. eauto. Qed.

Lemma encode_txn_meta_total es :
  zlen es <= MAX_TXN_META_ENTRIES → Forall meta_writable es → ∃ bs, encode_txn_meta es = Ok bs.
Proof.
  intros Hl Hes. unfold encode_txn_meta. rewrite (proj2 (Z.ltb_ge _ _)) by done.
  apply outcome_bind_total; [|by eauto]. apply emit_all_total. eapply Forall_impl; [done|].
  intros [ns nm v] Hv. unfold encode_meta_entry, meta_writable in *. cbn [me_value] in *.
  apply outcome_bind_total; [|by eauto]. destruct v; cbn; eauto. rewrite Hv. eauto.
Qed.

Lemma encode_envelope_total env : envelope_writable env → ∃ bs, encode_envelope_fields env = Ok bs.
Proof.
  intros (Hpn & Hp & Htx & Hmn & Hm & Hgn & Hg & Hmode). unfold encode_envelope_fields.
  rewrite (proj2 (Z.ltb_ge _ _)) by done. cbn zeta.
  apply outcome_bind_total; [destruct (nonempty _); [by apply encode_txn_meta_total|cbn; eauto]|intros ?].
  apply outcome_bind_total; [|intros ?].
  { destruct (parents env) as [|c ps] eqn:E; [cbn; eauto|]. cbn [nonempty emit_if]. unfold encode_parents.
    destruct (_ =? 3).
    - apply outcome_bind_total; [|by eauto]. apply emit_all_total. eapply Forall_impl; [done|].
      intros c' Hc. by apply encode_len_bytes_total.
    - inversion Hp; subst. by apply encode_len_bytes_total. }
  apply outcome_bind_total; [destruct (map_nonempty _); cbn; eauto|intros ?].
  apply outcome_bind_total; [destruct (txn env); [by apply encode_len_bytes_total|eauto]|intros ?].
  apply outcome_bind_total; [destruct (time env); eauto|intros ?].
  apply outcome_bind_total; [destruct (txn_signature env); eauto|intros ?].
  apply outcome_bind_total; [|intros ?].
  { unfold encode_graph_ext. destruct (map_nonempty _); [|eauto].
    rewrite (proj2 (Z.ltb_ge _ _)) by done.
    destruct (existsb _ _) eqn:Ee; [|eauto]. exfalso. apply existsb_exists in Ee as ([k iri] & Hin & Hlt).
    apply list_elem_of_In, elem_of_map_to_list, Hg in Hin. apply Z.ltb_lt in Hlt. cbn [snd] in Hlt. lia. }
  apply outcome_bind_total; [|by eauto]. unfold encode_mode_ext.
  destruct (ns_split_mode env) as [[|n]|]; cbn in *; eauto.
  rewrite (proj2 (Z.ltb_ge _ _)) by done. eauto.
Qed.
End envelope.
