(* ===== verification/CommitFormat.v ===== *)
(** * The fixed parts of a commit blob
    ([fluree-db-core/src/commit/codec/format.rs], and the signature block of
    [legacy_v3.rs])

    The 32-byte header, the 64-byte footer with the five dictionary
    locations, and the signature block that may follow it. *)

From S2P Require Import Prelude Text CommitWire CommitOp CommitEnvelope.

(** ** Constants *)

(** [b"FCV2"]. *)
Definition MAGIC : list Z := [70; 67; 86; 50].
Definition VERSION : Z := 4.
Definition VERSION_V3 : Z := 3.
Definition HEADER_LEN : Z := 32.
Definition FOOTER_LEN : Z := 64.
Definition HASH_LEN_V3 : Z := 32.
Definition MIN_COMMIT_LEN : Z := HEADER_LEN + FOOTER_LEN.
Definition FLAG_ZSTD : Z := 0x01.
Definition FLAG_HAS_COMMIT_SIG : Z := 0x02.
Definition ALGO_ED25519 : Z := 0x01.
Definition MAX_SIG_COUNT : Z := 64.
Definition MAX_SIGNER_LEN : Z := 256.
Definition MAX_METADATA_LEN : Z := 4096.

(** [&bytes[a..b]]; out of range it panics. *)
Definition slice_at (a b : Z) (bytes : list Z) : Outcome (list Z) :=
  if (b <? a) || (zlen bytes <? b) then Panic
  else Ok (take (Z.to_nat (b - a)) (drop (Z.to_nat a) bytes)).

(** A constant range of a buffer that is long enough. *)
Definition field (a n : nat) (buf : list Z) : list Z := take n (drop a buf).
Definition byte_at (a : nat) (buf : list Z) : Z := nth a buf 0.

(** ** Header *)

Record CommitHeader := mkHeader {
  version : Z;
  flags : Z;
  h_t : Z;
  op_count : Z;
  envelope_len : Z;
  sig_block_len : Z;
}.

Definition write_header (self : CommitHeader) : list Z :=
  MAGIC ++ [version self] ++ [flags self] ++ le_bytes 4 (h_t self mod 2 ^ 32) ++ le_bytes 4 (op_count self)
  ++ le_bytes 4 (envelope_len self) ++ le_bytes 2 (sig_block_len self) ++ replicate 12 0.

Definition read_header (buf : list Z) : Outcome CommitHeader :=
  if zlen buf <? HEADER_LEN then Err (TooSmall (zlen buf) HEADER_LEN)
  else if negb (bool_decide (field 0 4 buf = MAGIC)) then Err InvalidMagic
  else
    let version := byte_at 4 buf in
    if negb (version =? VERSION) && negb (version =? VERSION_V3) then Err (UnsupportedVersion version)
    else
      Ok (mkHeader version (byte_at 5 buf) (from_le (field 6 4 buf)) (from_le (field 10 4 buf))
                   (from_le (field 14 4 buf)) (from_le (field 18 2 buf))).

(** ** Footer *)

Record DictLocation := mkLoc { offset : Z; loc_len : Z }.

Record CommitFooter := mkFooter { loc_dicts : Dicts DictLocation; ops_section_len : Z }.

Definition write_loc (d : DictLocation) : list Z := le_bytes 8 (offset d) ++ le_bytes 4 (loc_len d).

Definition write_footer (self : CommitFooter) : list Z :=
  let d := loc_dicts self in
  write_loc (graph d) ++ write_loc (subject d) ++ write_loc (predicate d) ++ write_loc (datatype d)
  ++ write_loc (object_ref d) ++ le_bytes 4 (ops_section_len self).

Definition read_loc (pos : nat) (buf : list Z) : DictLocation :=
  mkLoc (from_le (field pos 8 buf)) (from_le (field (pos + 8) 4 buf)).

Definition read_footer (buf : list Z) : Outcome CommitFooter :=
  if zlen buf <? FOOTER_LEN then Err (TooSmall (zlen buf) FOOTER_LEN)
  else
    Ok (mkFooter (mkDicts (read_loc 0 buf) (read_loc 12 buf) (read_loc 24 buf) (read_loc 36 buf) (read_loc 48 buf))
                 (from_le (field 60 4 buf))).

(** ** Signature block *)

Record CommitSignature := mkSignature {
  cs_signer : string;
  algo : Z;
  signature : list Z;
  metadata : option (list Z);
}.

Definition write_sig (sig : CommitSignature) : list Z :=
  le_bytes 2 (zlen (str_bytes (cs_signer sig)) mod 2 ^ 16) ++ str_bytes (cs_signer sig) ++ [algo sig]
  ++ signature sig
  ++ match metadata sig with
     | Some meta => le_bytes 2 (zlen meta mod 2 ^ 16) ++ meta
     | None => le_bytes 2 0
     end.

Definition encode_sig_block (sigs : list CommitSignature) : list Z :=
  le_bytes 2 (zlen sigs mod 2 ^ 16) ++ flat_map write_sig sigs.

Definition sig_size (sig : CommitSignature) : Z :=
  2 + zlen (str_bytes (cs_signer sig)) + 1 + 64 + 2
  + match metadata sig with Some meta => zlen meta | None => 0 end.
Definition sig_block_size (sigs : list CommitSignature) : Z := foldl (λ size sig, size + sig_size sig) 2 sigs.

Definition read_u16 : Reader Z := bytes ← read_exact 2; mret (from_le bytes).

(** One signature; version 3 has a timestamp, which is discarded. *)
Definition read_sig (v3 : bool) (max_signer max_metadata : Z) : Reader CommitSignature :=
  signer_len ← read_u16;
  if max_signer <? signer_len then rfail (EnvelopeDecode "signer length exceeds maximum")
  else
    signer_bytes ← read_exact signer_len;
    signer ← utf8_or (EnvelopeDecode "invalid signer UTF-8") signer_bytes;
    algo ← read_u8;
    if negb (algo =? ALGO_ED25519) then rfail (EnvelopeDecode "unknown signature algorithm")
    else
      signature ← read_exact 64;
      (if v3 then read_exact 8 else mret []);;
      meta_len ← read_u16;
      metadata ← (if 0 <? meta_len then
                    if max_metadata <? meta_len then rfail (EnvelopeDecode "metadata length exceeds maximum")
                    else meta ← read_exact meta_len; mret (Some meta)
                  else mret None);
      mret (mkSignature signer algo signature metadata).

Definition read_sigs (v3 : bool) (max_count max_signer max_metadata : Z) : Reader (list CommitSignature) :=
  sig_count ← read_u16;
  if max_count <? sig_count then rfail (EnvelopeDecode "signature count exceeds maximum")
  else rtimes (Z.to_nat sig_count) (read_sig v3 max_signer max_metadata).

(** The whole block must be consumed. *)
Definition run_all {A} (p : Reader A) (what : string) (data : list Z) : Outcome A :=
  match p data with
  | Ok (x, []) => Ok x
  | Ok (_, _ :: _) => Err (EnvelopeDecode what)
  | Err e => Err e
  | Panic => Panic
  end.

Definition decode_sig_block : list Z → Outcome (list CommitSignature) :=
  run_all (read_sigs false MAX_SIG_COUNT MAX_SIGNER_LEN MAX_METADATA_LEN) "signature block: bytes left".

(** Version 3 has other caps. *)
Definition MAX_SIG_COUNT_LOCAL : Z := 16.
Definition MAX_SIGNER_LEN_LOCAL : Z := 512.
Definition MAX_METADATA_LEN_LOCAL : Z := 4096.
Definition decode_sig_block_v3 : list Z → Outcome (list CommitSignature) :=
  run_all (read_sigs true MAX_SIG_COUNT_LOCAL MAX_SIGNER_LEN_LOCAL MAX_METADATA_LEN_LOCAL)
          "v3 signature block: bytes left".

(** ** Round trips *)

Lemma length_write_header h : zlen (write_header h) = HEADER_LEN.
Proof. unfold write_header, zlen. by rewrite !length_app, !length_le_bytes. Qed.

Lemma length_write_footer f : zlen (write_footer f) = FOOTER_LEN.
Proof. unfold write_footer, write_loc, zlen. by rewrite !length_app, !length_le_bytes. Qed.

(** Fields after known prefixes. *)
Lemma field_skip a n pre l : (length pre <= a)%nat → field a n (pre ++ l) = field (a - length pre) n l.
Proof. intros Hl. unfold field. by rewrite drop_app_ge. Qed.

Lemma field_here n mid post : length mid = n → field 0 n (mid ++ post) = mid.
Proof. intros <-. unfold field. by rewrite drop_0, take_app_length. Qed.

Ltac field_read :=
  rewrite <- ?app_assoc;
  repeat (rewrite field_skip by (rewrite ?length_le_bytes; cbn; lia);
          rewrite ?length_le_bytes; cbn [length Nat.sub MAGIC]);
  rewrite field_here by (by rewrite ?length_le_bytes).

Definition header_ok (h : CommitHeader) : Prop :=
  (version h = VERSION ∨ version h = VERSION_V3) ∧ 0 <= h_t h < 2 ^ 32
  ∧ 0 <= op_count h < 2 ^ 32 ∧ 0 <= envelope_len h < 2 ^ 32 ∧ 0 <= sig_block_len h < 2 ^ 16.

Lemma read_write_header h rest : header_ok h → read_header (write_header h ++ rest) = Ok h.
Proof.
  intros (Hv & Ht & Ho & He & Hs). unfold read_header.
  assert ((zlen (write_header h ++ rest) <? HEADER_LEN) = false) as ->.
  { apply Z.ltb_ge. rewrite <- (length_write_header h). unfold zlen. rewrite length_app. lia. }
  unfold write_header. rewrite Z.mod_small by lia.
  set (l := (_ ++ _) ++ rest). assert (byte_at 4 l = version h ∧ byte_at 5 l = flags h) as [-> ->] by done.
  assert (bool_decide (field 0 4 l = MAGIC) = true) as -> by (apply bool_decide_eq_true; done).
  assert (negb (version h =? VERSION) && negb (version h =? VERSION_V3) = false) as ->
    by by destruct Hv as [->| ->].
  cbn [negb]. subst l. destruct h; cbn [version flags h_t op_count envelope_len sig_block_len] in *. f_equal. f_equal; field_read; by apply from_le_bytes.
Qed.

Definition loc_ok (l : DictLocation) : Prop := 0 <= offset l < two64 ∧ 0 <= loc_len l < 2 ^ 32.

Definition footer_ok (f : CommitFooter) : Prop :=
  (∀ fl, loc_ok (dict_of fl (loc_dicts f))) ∧ 0 <= ops_section_len f < 2 ^ 32.

Lemma read_write_footer f : footer_ok f → read_footer (write_footer f) = Ok f.
Proof.
  intros [Hd Ho]. unfold read_footer. rewrite length_write_footer. cbn [Z.ltb Z.compare FOOTER_LEN Pos.compare].
  destruct f as [[g s p d o] n]. cbn in Ho.
  pose proof (Hd FGraph) as Hg. pose proof (Hd FSubject) as Hs. pose proof (Hd FPredicate) as Hp.
  pose proof (Hd FDatatype) as Hdt. pose proof (Hd FObjectRef) as Hr. cbn in Hg, Hs, Hp, Hdt, Hr. clear Hd.
  unfold write_footer, write_loc, read_loc. cbn [loc_dicts graph subject predicate datatype object_ref Nat.add ops_section_len].
  destruct g, s, p, d, o. unfold loc_ok in *. cbn [offset loc_len] in *.
  rewrite <- (app_nil_r (le_bytes 4 n)). repeat f_equal; field_read; rewrite from_le_bytes; naive_solver.
Qed.

Definition commit_signature_ok (s : CommitSignature) : Prop :=
  str_ok (cs_signer s) ∧ zlen (str_bytes (cs_signer s)) <= MAX_SIGNER_LEN ∧ algo s = ALGO_ED25519
  ∧ length (signature s) = 64%nat
  ∧ from_option (λ m, 0 < zlen m <= MAX_METADATA_LEN) True (metadata s).

Lemma reads_as_u16 n : 0 <= n < 2 ^ 16 → reads_as read_u16 (le_bytes 2 (n mod 2 ^ 16)) n.
Proof.
  intros Hn. rewrite Z.mod_small by lia. unfold read_u16.
  eapply reads_as_last; [apply reads_as_exact; by rewrite length_le_bytes|].
  by rewrite from_le_bytes.
Qed.

Lemma reads_as_sig s :
  commit_signature_ok s → reads_as (read_sig false MAX_SIGNER_LEN MAX_METADATA_LEN) (write_sig s) s.
Proof.
  intros (Hs & Hl & Ha & Hsig & Hm). unfold read_sig, write_sig, zlen, MAX_SIGNER_LEN, MAX_METADATA_LEN in *.
  eapply reads_as_bind; [apply reads_as_u16; lia|].
  rewrite (proj2 (Z.ltb_ge _ _)) by lia.
  eapply reads_as_bind; [by apply reads_as_exact|].
  eapply reads_as_first; [intros rest; unfold utf8_or; by rewrite str_ok_utf8|].
  eapply reads_as_bind; [apply reads_as_u8|]. rewrite Ha. cbn [Z.eqb Pos.eqb negb ALGO_ED25519].
  eapply reads_as_bind; [apply reads_as_exact; by rewrite Hsig|].
  eapply reads_as_first; [apply reads_as_ret|]. destruct s as [sg al sn [m|]]; cbn in *.
  - unfold zlen in *. eapply reads_as_bind; [apply reads_as_u16; lia|].
    rewrite (proj2 (Z.ltb_lt _ _)), (proj2 (Z.ltb_ge _ _)) by lia. subst al.
    apply (reads_as_map _ (mkSignature sg ALGO_ED25519 sn)), (reads_as_map _ Some). by apply reads_as_exact.
  - subst al. eapply reads_as_last; [by apply (reads_as_u16 0)|]. done.
Qed.

Lemma decode_encode_sig_block sigs :
  Forall commit_signature_ok sigs → zlen sigs <= MAX_SIG_COUNT →
  decode_sig_block (encode_sig_block sigs) = Ok sigs.
Proof.
  intros Hs Hl. unfold decode_sig_block, run_all.
  assert (reads_as (read_sigs false MAX_SIG_COUNT MAX_SIGNER_LEN MAX_METADATA_LEN) (encode_sig_block sigs) sigs) as H.
  { unfold read_sigs, encode_sig_block, zlen, MAX_SIG_COUNT in *.
    eapply reads_as_bind; [apply reads_as_u16; lia|]. rewrite (proj2 (Z.ltb_ge _ _)) by lia.
    rewrite Nat2Z.id. apply reads_as_rtimes. eapply Forall_impl; [done|]. apply reads_as_sig. }
  specialize (H []). rewrite app_nil_r in H. by rewrite H.
Qed.

(** The size reserved in the header is the size written. *)
Lemma sig_block_size_spec sig :
  length (signature sig) = 64%nat → zlen (encode_sig_block [sig]) = sig_block_size [sig].
Proof.
  intros Hs. unfold encode_sig_block, sig_block_size, sig_size, zlen. cbn [flat_map foldl].
  unfold write_sig. rewrite !length_app, !length_le_bytes, Hs. destruct (metadata sig); cbn; unfold zlen.
  - rewrite length_app, length_le_bytes. lia.
  - rewrite length_le_bytes. lia.
Qed.
