(* ===== verification/CommitBlob.v ===== *)
(** * Commit blobs
    ([fluree-db-core/src/commit/codec/{writer, reader, raw_reader, legacy_v3}.rs],
    and the dispatch of [fluree-db-core/src/commit/codec.rs])

    A commit is written as a version-4 blob:
    [header][envelope][ops][dictionaries][footer][signature block].  A
    version-3 blob has a 32-byte hash of the body after the footer and is only
    read.  Both are read in four ways: the whole commit, its envelope, its raw
    ops, and its identifier.

    Signing and compression come from outside ([fluree-db-credential] over
    Ed25519, and [zstd]); [Blobs] is what the writer and readers use of them,
    with the laws they rely on. *)

From Stdlib Require Import Ascii.
From S2P Require Import Prelude Text LedgerId Vocab CommitWire CommitOp CommitEnvelope CommitFormat.

Class Blobs := {
  SigningKey : Type;
  (** [did_from_pubkey(&key.verifying_key().to_bytes())]. *)
  did_of : SigningKey → string;
  (** [sign_commit_digest(key, hash, ledger_id)]. *)
  sign_commit_digest : SigningKey → list Z → string → list Z;
  (** [zstd::encode_all(_, 3)] and [zstd::decode_all]. *)
  zstd_encode : list Z → option (list Z);
  zstd_decode : list Z → option (list Z);
  (** A DID of a 32-byte key is short ASCII, a signature has 64 bytes. *)
  did_short : ∀ k, str_ok (did_of k) ∧ zlen (str_bytes (did_of k)) <= 64;
  signature_len : ∀ k h l, length (sign_commit_digest k h l) = 64%nat;
  zstd_law : ∀ x y, zstd_encode x = Some y → zstd_decode y = Some x;
}.

Section blob.
Context `{V : CoreValues} `{C : Cids} `{B : Blobs}.

Definition CODEC_FLUREE_COMMIT : Z := 0x00300001.

(** [ContentId::new(ContentKind::Commit, bytes)], and
    [ContentId::from_sha256_digest(CODEC_FLUREE_COMMIT, digest)]. *)
Definition from_sha256_digest (digest : list Z) : ContentId := cid_v1 CODEC_FLUREE_COMMIT digest.
Definition content_id_new (bytes : list Z) : ContentId := cid_v1 CODEC_FLUREE_COMMIT (sha256 bytes).

Record Commit := mkCommit {
  c_id : option ContentId;
  c_t : Z;
  c_time : option string;
  c_flakes : list Flake;
  c_parents : list ContentId;
  c_txn : option ContentId;
  c_namespace_delta : gmap Z string;
  c_txn_signature : option TxnSignature;
  c_commit_signatures : list CommitSignature;
  c_txn_meta : list TxnMetaEntry;
  c_graph_delta : gmap Z string;
  c_ns_split_mode : option NsSplitMode;
}.

(** The envelope-only view, [CommitEnvelope]. *)
Record CommitView := mkView {
  w_t : Z;
  w_parents : list ContentId;
  w_txn : option ContentId;
  w_namespace_delta : gmap Z string;
  w_txn_meta : list TxnMetaEntry;
  w_graph_delta : gmap Z string;
  w_ns_split_mode : option NsSplitMode;
}.

Definition from_commit (c : Commit) : CodecEnvelope :=
  mkEnvelope (c_t c) (c_parents c) (c_namespace_delta c) (c_txn c) (c_time c) (c_txn_signature c)
             (c_txn_meta c) (c_graph_delta c) (c_ns_split_mode c).

(** ** Writing *)

Fixpoint encode_ops (flakes : list Flake) : Encoder :=
  match flakes with
  | [] => put []
  | flake :: flakes => encode_op flake +>+ encode_ops flakes
  end.

(** Steps 4: the ops section, and whether it is compressed. *)
Definition compress_ops (compress : bool) (ops_raw : list Z) : Outcome (list Z * bool) :=
  if compress && nonempty ops_raw then
    match zstd_encode ops_raw with
    | None => Err CompressionFailed
    | Some compressed =>
        if zlen compressed <? zlen ops_raw then Ok (compressed, true) else Ok (ops_raw, false)
    end
  else Ok (ops_raw, false).

(** Step 10: where each dictionary lies. *)
Definition place (start : Z) (d : Dicts (list Z)) : Dicts DictLocation :=
  let loc o bytes := mkLoc o (zlen bytes mod 2 ^ 32) in
  let o1 := start + zlen (graph d) in
  let o2 := o1 + zlen (subject d) in
  let o3 := o2 + zlen (predicate d) in
  let o4 := o3 + zlen (datatype d) in
  mkDicts (loc start (graph d)) (loc o1 (subject d)) (loc o2 (predicate d)) (loc o3 (datatype d))
          (loc o4 (object_ref d)).

Definition serialize_dicts (d : CommitDicts) : Dicts (list Z) :=
  mkDicts (serialize (graph d)) (serialize (subject d)) (serialize (predicate d)) (serialize (datatype d))
          (serialize (object_ref d)).

Definition dict_bytes (d : Dicts (list Z)) : list Z :=
  graph d ++ subject d ++ predicate d ++ datatype d ++ object_ref d.

Definition tmp_signature (did : string) : CommitSignature :=
  mkSignature did ALGO_ED25519 (replicate 64 0) None.

(** Steps 2 to 11, up to the footer. *)
Definition write_body (commit : Commit) (compress : bool) (signed : bool) (pre_sig_block_len : Z)
    : Outcome (list Z) :=
  envelope_bytes ← encode_envelope_fields (from_commit commit);
  '(ops_raw, dicts) ← encode_ops (c_flakes commit) new_dicts;
  '(ops_section, is_compressed) ← compress_ops compress ops_raw;
  let dict_bs := serialize_dicts dicts in
  let flags := Z.lor (if is_compressed : bool then FLAG_ZSTD else 0) (if signed then FLAG_HAS_COMMIT_SIG else 0) in
  let header := mkHeader VERSION flags (c_t commit) (zlen (c_flakes commit) mod 2 ^ 32)
                         (zlen envelope_bytes mod 2 ^ 32) pre_sig_block_len in
  let head := write_header header ++ envelope_bytes ++ ops_section in
  let footer := mkFooter (place (zlen head) dict_bs) (zlen ops_section mod 2 ^ 32) in
  Ok (head ++ dict_bytes dict_bs ++ write_footer footer).

(** Step 12: the signature over the hash of the body. *)
Definition signatures (signing : option (SigningKey * string)) (body : list Z) : list CommitSignature :=
  match signing with
  | Some (key, ledger_id) =>
      [mkSignature (did_of key) ALGO_ED25519 (sign_commit_digest key (sha256 body) ledger_id) None]
  | None => []
  end.

Definition seal (signing : option (SigningKey * string)) (body : list Z) : list Z :=
  match signing with
  | Some _ => body ++ encode_sig_block (signatures signing body)
  | None => body
  end.

Definition pre_sig_block_len (signing : option (SigningKey * string)) : Z :=
  match signing with
  | Some (key, _) => sig_block_size [tmp_signature (did_of key)] mod 2 ^ 16
  | None => 0
  end.

Definition write_commit (commit : Commit) (compress : bool) (signing : option (SigningKey * string))
    : Outcome (list Z) :=
  if (c_t commit <? 0) || (2 ^ 32 - 1 <? c_t commit) then Err (TOutOfRange (c_t commit))
  else
    body ← write_body commit compress (present signing) (pre_sig_block_len signing);
    Ok (seal signing body).

(** ** Reading *)

(** [load_one]: [offset + len] wraps, and a range that wraps panics. *)
Definition load_one (bytes : list Z) (loc : DictLocation) (prev_end valid_end : Z)
    : Outcome (StringDict * Z) :=
  let start := offset loc in
  let stop := wrap64 (start + loc_len loc) in
  if start <? prev_end then Err (InvalidDictionary "dict overlaps previous region")
  else if valid_end <? stop then Err (InvalidDictionary "dict extends past dict region end")
  else data ← slice_at start stop bytes; d ← deserialize data; Ok (d, stop).

Definition load_dicts (bytes : list Z) (footer : CommitFooter) (valid_start valid_end : Z)
    : Outcome ReadDicts :=
  let d := loc_dicts footer in
  '(g, e) ← load_one bytes (graph d) valid_start valid_end;
  '(s, e) ← load_one bytes (subject d) e valid_end;
  '(p, e) ← load_one bytes (predicate d) e valid_end;
  '(dt, e) ← load_one bytes (datatype d) e valid_end;
  '(o, e) ← load_one bytes (object_ref d) e valid_end;
  Ok (mkDicts g s p dt o).

(** The envelope lies after the header. *)
Definition read_envelope (bytes : list Z) (header : CommitHeader) : Outcome CodecEnvelope :=
  let envelope_end := HEADER_LEN + envelope_len header in
  if zlen bytes <? envelope_end then Err (TooSmall (zlen bytes) envelope_end)
  else data ← slice_at HEADER_LEN envelope_end bytes; decode_envelope data.

Definition decompress (header : CommitHeader) (ops_bytes : list Z) : Outcome (list Z) :=
  if has_flag (flags header) FLAG_ZSTD then
    match zstd_decode ops_bytes with Some data => Ok data | None => Err DecompressionFailed end
  else Ok ops_bytes.

(** The envelope, the dictionaries and the ops of a body that ends at
    [body_end]: the same steps in the four readers of whole blobs.
    [body_end - FOOTER_LEN] wraps when the body is shorter, and the slice
    panics. *)
Definition read_body (bytes : list Z) (header : CommitHeader) (body_end : Z)
    : Outcome (CodecEnvelope * ReadDicts * list Z) :=
  envelope ← read_envelope bytes header;
  let footer_start := wrap64 (body_end - FOOTER_LEN) in
  footer_bytes ← slice_at footer_start body_end bytes;
  footer ← read_footer footer_bytes;
  let ops_start := HEADER_LEN + envelope_len header in
  let ops_end := ops_start + ops_section_len footer in
  if footer_start <? ops_end then Err (InvalidOp "ops section extends into footer")
  else
    dicts ← load_dicts bytes footer ops_end footer_start;
    ops_bytes ← slice_at ops_start ops_end bytes;
    ops_data ← decompress header ops_bytes;
    Ok (envelope, dicts, ops_data).

(** [for _ in 0..op_count { decode_op }]; bytes after the last op are not
    looked at. *)
Definition read_flakes (header : CommitHeader) (dicts : ReadDicts) (ops_data : list Z) : Outcome (list Flake) :=
  match rtimes (Z.to_nat (op_count header)) (decode_op dicts (h_t header)) ops_data with
  | Ok (flakes, _) => Ok flakes
  | Err e => Err e
  | Panic => Panic
  end.

Definition has_sig_block (header : CommitHeader) : bool :=
  has_flag (flags header) FLAG_HAS_COMMIT_SIG && (0 <? sig_block_len header).

Definition assemble (id : ContentId) (t : Z) (env : CodecEnvelope) (flakes : list Flake)
    (meta : list TxnMetaEntry) (sigs : list CommitSignature) : Commit :=
  mkCommit (Some id) t (time env) flakes (parents env) (txn env) (namespace_delta env) (txn_signature env)
           sigs meta (graph_delta env) (ns_split_mode env).

(** *** Version 4 *)

Definition v4_body_end (bytes : list Z) (header : CommitHeader) : Outcome Z :=
  if has_sig_block header then
    if zlen bytes <? sig_block_len header then Err (TooSmall (zlen bytes) (sig_block_len header))
    else Ok (zlen bytes - sig_block_len header)
  else Ok (zlen bytes).

Definition check_size (bytes : list Z) (min : Z) : Outcome unit :=
  if zlen bytes <? min then Err (TooSmall (zlen bytes) min) else Ok tt.

Definition read_commit_v4 (bytes : list Z) : Outcome Commit :=
  check_size bytes MIN_COMMIT_LEN;;
  header ← read_header bytes;
  body_end ← v4_body_end bytes header;
  sigs ← (if has_sig_block header
          then data ← slice_at body_end (body_end + sig_block_len header) bytes; decode_sig_block data
          else Ok []);
  '(env, dicts, ops_data) ← read_body bytes header body_end;
  flakes ← read_flakes header dicts ops_data;
  Ok (assemble (content_id_new bytes) (h_t header) env flakes (txn_meta env) sigs).

Definition view_of (t : Z) (env : CodecEnvelope) (meta : list TxnMetaEntry) (graphs : gmap Z string) : CommitView :=
  mkView t (parents env) (txn env) (namespace_delta env) meta graphs (ns_split_mode env).

Definition read_commit_envelope_v4 (bytes : list Z) : Outcome CommitView :=
  check_size bytes HEADER_LEN;;
  header ← read_header bytes;
  env ← read_envelope bytes header;
  Ok (view_of (h_t header) env (txn_meta env) (graph_delta env)).

Definition verify_commit_blob_v4 (bytes : list Z) : Outcome ContentId :=
  check_size bytes MIN_COMMIT_LEN;;
  read_header bytes;;
  Ok (content_id_new bytes).

Record CommitOps := mkOps {
  o_envelope : CodecEnvelope;
  o_t : Z;
  o_op_count : Z;
  o_dicts : ReadDicts;
  o_data : list Z;
  legacy_v3_canonicalize : bool;
}.

(** [envelope.t = header.t] and [CommitOps::new]. *)
Definition make_ops (header : CommitHeader) (env : CodecEnvelope) (dicts : ReadDicts) (data : list Z)
    (legacy : bool) : CommitOps :=
  mkOps (mkEnvelope (h_t header) (parents env) (namespace_delta env) (txn env) (time env) (txn_signature env)
                    (txn_meta env) (graph_delta env) (ns_split_mode env))
        (h_t header) (op_count header) dicts data legacy.

Definition load_commit_ops_v4 (bytes : list Z) : Outcome CommitOps :=
  check_size bytes MIN_COMMIT_LEN;;
  header ← read_header bytes;
  body_end ← v4_body_end bytes header;
  '(env, dicts, ops_data) ← read_body bytes header body_end;
  Ok (make_ops header env dicts ops_data false).

(** *** Datatypes of version 3 *)

Definition known_xsd_local (local : string) : option string := local_name <$> from_xsd_local local.
Definition known_rdf_local (local : string) : option string := local_name <$> from_rdf_local local.
Definition known_rdfs_local (local : string) : option string :=
  if decide (local = "Resource"%string) then Some "Resource"%string else None.

Definition canonicalize_empty_curie_name (name : string) : option (Z * string) :=
  '(prefix, local) ← LedgerId.split_once ":"%char name;
  if decide (prefix = "xsd"%string) then pair XSD <$> known_xsd_local local
  else if decide (prefix = "rdf"%string) then pair RDF <$> known_rdf_local local
  else if decide (prefix = "rdfs"%string) then pair RDFS <$> known_rdfs_local local
  else None.

Definition canonicalize_jsonld_shorthand (name : string) : option (Z * string) :=
  if decide (name = "@json"%string) then Some (RDF, "JSON"%string)
  else if decide (name = "@vector"%string) then Some (FLUREE_DB, "embeddingVector"%string)
  else if decide (name = "@fulltext"%string) then Some (FLUREE_DB, "fullText"%string)
  else None.

Definition canonicalize_dt_sid (dt : Sid) : option Sid :=
  if namespace_code dt =? EMPTY then
    match canonicalize_empty_curie_name (sid_name dt) with
    | Some (ns, local) => Some (mkSid ns local)
    | None =>
        match canonicalize_jsonld_shorthand (sid_name dt) with
        | Some (ns, local) => Some (mkSid ns local)
        | None => None
        end
    end
  else if namespace_code dt =? JSON_LD then
    if decide (sid_name dt = "json"%string) then Some (mkSid RDF "JSON") else None
  else None.

Definition canonicalize_dt_parts_static (dt_ns : Z) (dt_name : string) : option (Z * string) :=
  if dt_ns =? EMPTY then
    match canonicalize_empty_curie_name dt_name with
    | Some r => Some r
    | None => canonicalize_jsonld_shorthand dt_name
    end
  else if dt_ns =? JSON_LD then if decide (dt_name = "json"%string) then Some (RDF, "JSON"%string) else None
  else None.

(** The flakes with their datatypes replaced, and how many were. *)
Fixpoint canonicalize_flake_datatypes (flakes : list Flake) : list Flake * Z :=
  match flakes with
  | [] => ([], 0)
  | f :: flakes =>
      let '(flakes, count) := canonicalize_flake_datatypes flakes in
      match canonicalize_dt_sid (f_dt f) with
      | Some dt => (mkFlake (f_g f) (f_s f) (f_p f) (f_o f) dt (f_t f) (f_op f) (f_m f) :: flakes, count + 1)
      | None => (f :: flakes, count)
      end
  end.

Definition canonicalize_meta_entry (e : TxnMetaEntry) : TxnMetaEntry * Z :=
  match me_value e with
  | MTypedLiteral value dt_ns dt_name =>
      match canonicalize_dt_parts_static dt_ns dt_name with
      | Some (ns, name) => (mkMetaEntry (predicate_ns e) (predicate_name e) (MTypedLiteral value ns name), 1)
      | None => (e, 0)
      end
  | _ => (e, 0)
  end.

Fixpoint canonicalize_txn_meta_datatypes (entries : list TxnMetaEntry) : list TxnMetaEntry * Z :=
  match entries with
  | [] => ([], 0)
  | e :: entries =>
      let '(e, n) := canonicalize_meta_entry e in
      let '(entries, count) := canonicalize_txn_meta_datatypes entries in
      (e :: entries, n + count)
  end.

(** *** Version 3 *)

Definition v3_hash_offset (blob_len : Z) (header : CommitHeader) : Outcome Z :=
  if has_sig_block header then
    let min := HEADER_LEN + HASH_LEN_V3 + sig_block_len header in
    if blob_len <? min then Err (TooSmall blob_len min)
    else Ok (blob_len - sig_block_len header - HASH_LEN_V3)
  else Ok (blob_len - HASH_LEN_V3).

(** The embedded hash, if it is the hash of the body. *)
Definition check_hash (bytes : list Z) (hash_offset : Z) : Outcome (list Z) :=
  expected ← slice_at hash_offset (hash_offset + HASH_LEN_V3) bytes;
  body ← slice_at 0 hash_offset bytes;
  let actual := sha256 body in
  if bool_decide (expected = actual) then Ok actual else Err (HashMismatch expected actual).

Definition verify_commit_v3 (bytes : list Z) : Outcome ContentId :=
  check_size bytes (MIN_COMMIT_LEN + HASH_LEN_V3);;
  header ← read_header bytes;
  hash_offset ← v3_hash_offset (zlen bytes) header;
  hash ← check_hash bytes hash_offset;
  Ok (from_sha256_digest hash).

Definition read_commit_v3 (bytes : list Z) : Outcome Commit :=
  check_size bytes (MIN_COMMIT_LEN + HASH_LEN_V3);;
  header ← read_header bytes;
  hash_offset ← v3_hash_offset (zlen bytes) header;
  hash ← check_hash bytes hash_offset;
  sigs ← (if has_sig_block header then
            let sig_start := hash_offset + HASH_LEN_V3 in
            data ← slice_at sig_start (sig_start + sig_block_len header) bytes;
            decode_sig_block_v3 data
          else Ok []);
  '(env, dicts, ops_data) ← read_body bytes header hash_offset;
  flakes ← read_flakes header dicts ops_data;
  Ok (assemble (from_sha256_digest hash) (h_t header) env (canonicalize_flake_datatypes flakes).1
               (canonicalize_txn_meta_datatypes (txn_meta env)).1 sigs).

(** The envelope view of version 3 has no graphs. *)
Definition read_commit_envelope_v3 (bytes : list Z) : Outcome CommitView :=
  check_size bytes HEADER_LEN;;
  header ← read_header bytes;
  env ← read_envelope bytes header;
  Ok (view_of (h_t header) env (canonicalize_txn_meta_datatypes (txn_meta env)).1 ∅).

Definition load_commit_ops_v3 (bytes : list Z) : Outcome CommitOps :=
  check_size bytes (MIN_COMMIT_LEN + HASH_LEN_V3);;
  header ← read_header bytes;
  hash_offset ← v3_hash_offset (zlen bytes) header;
  '(env, dicts, ops_data) ← read_body bytes header hash_offset;
  Ok (make_ops header env dicts ops_data true).

(** *** Raw replay *)

Definition canonicalize_raw (legacy : bool) (raw : RawOp) : RawOp :=
  match (if legacy then canonicalize_dt_parts_static (dt_ns_code raw) (dt_name raw) else None) with
  | Some (ns, name) =>
      mkRawOp (g_ns_code raw) (g_name raw) (s_ns_code raw) (s_name raw) (p_ns_code raw) (p_name raw)
              ns name (r_o raw) (r_op raw) (r_lang raw) (r_i raw)
  | None => raw
  end.

(** [for_each_op]; the callback threads a state and may fail. *)
Fixpoint for_each_loop {S} (n : nat) (legacy : bool) (dicts : ReadDicts) (f : RawOp → S → Outcome S)
    (data : list Z) (s : S) : Outcome S :=
  match n with
  | O => Ok s
  | Datatypes.S n =>
      match decode_raw_op dicts data with
      | Ok (raw, rest) =>
          s ← f (canonicalize_raw legacy raw) s;
          for_each_loop n legacy dicts f rest s
      | Err e => Err e
      | Panic => Panic
      end
  end.

Definition for_each_op {S} (self : CommitOps) (f : RawOp → S → Outcome S) (s : S) : Outcome S :=
  for_each_loop (Z.to_nat (o_op_count self)) (legacy_v3_canonicalize self) (o_dicts self) f (o_data self) s.

(** ** Dispatch *)

Inductive CommitBlobVersion := V3 | V4.

Definition detect_version (bytes : list Z) : Outcome CommitBlobVersion :=
  if zlen bytes <? HEADER_LEN then Err (TooSmall (zlen bytes) HEADER_LEN)
  else if negb (bool_decide (field 0 4 bytes = MAGIC)) then Err InvalidMagic
  else
    let v := byte_at 4 bytes in
    if v =? VERSION_V3 then Ok V3 else if v =? VERSION then Ok V4 else Err (UnsupportedVersion v).

Definition read_commit (bytes : list Z) : Outcome Commit :=
  v ← detect_version bytes;
  match v with V3 => read_commit_v3 bytes | V4 => read_commit_v4 bytes end.

Definition read_commit_envelope (bytes : list Z) : Outcome CommitView :=
  v ← detect_version bytes;
  match v with V3 => read_commit_envelope_v3 bytes | V4 => read_commit_envelope_v4 bytes end.

Definition load_commit_ops (bytes : list Z) : Outcome CommitOps :=
  v ← detect_version bytes;
  match v with V3 => load_commit_ops_v3 bytes | V4 => load_commit_ops_v4 bytes end.

Definition verify_commit_blob (bytes : list Z) : Outcome ContentId :=
  v ← detect_version bytes;
  match v with V3 => verify_commit_v3 bytes | V4 => verify_commit_blob_v4 bytes end.
End blob.
