(* ===== verification/CommitBlobSound.v ===== *)
(** * What the blob codec guarantees: lemmas

    First, a written blob is read back; then, the four readers agree on every
    blob that reads as a commit. *)

From S2P Require Import Prelude Text LedgerId Vocab CommitWire CommitOp CommitOpSound.
From S2P Require Import CommitEnvelope CommitEnvelopeSound CommitFormat CommitBlob.
(** ** Slices *)

Lemma zlen_app {A} (l l' : list A) : zlen (l ++ l') = zlen l + zlen l'.
Proof. unfold zlen. rewrite length_app. lia. Qed.

Lemma zlen_nonneg {A} (l : list A) : 0 <= zlen l.
Proof. unfold zlen. lia. Qed.

Lemma slice_at_app a b pre mid post :
  a = zlen pre → b = zlen pre + zlen mid → slice_at a b (pre ++ mid ++ post) = Ok mid.
Proof.
  intros -> ->. unfold slice_at. rewrite !zlen_app.
  pose proof (zlen_nonneg pre). pose proof (zlen_nonneg mid). pose proof (zlen_nonneg post).
  rewrite (proj2 (Z.ltb_ge _ _)) by lia. rewrite (proj2 (Z.ltb_ge _ _)) by lia. cbn [orb].
  replace (zlen pre + zlen mid - zlen pre) with (zlen mid) by lia. unfold zlen. rewrite !Nat2Z.id.
  by rewrite drop_app_length, take_app_length.
Qed.

Lemma length_encode_varint_loop fuel v : (1 <= length (encode_varint_loop (S fuel) v))%nat.
Proof. cbn [encode_varint_loop]. case_match; cbn [length]; lia. Qed.

Lemma length_encode_varint v : (1 <= length (encode_varint v))%nat.
Proof. apply length_encode_varint_loop. Qed.

Lemma length_flat_map_str (l : list string) : (length l <= length (flat_map encode_len_str l))%nat.
Proof.
  induction l as [|s l IH]; [done|]. cbn [flat_map length]. rewrite length_app.
  unfold encode_len_str at 1. rewrite length_app. pose proof (length_encode_varint (Z.of_nat (length (str_bytes s)))). lia.
Qed.

Lemma serialize_entries d : zlen (db_entries d) <= zlen (serialize d).
Proof.
  unfold serialize, zlen. rewrite length_app. pose proof (length_flat_map_str (db_entries d)). lia.
Qed.

Section blob.
Context `{V : CoreValues} `{C : Cids} `{B : Blobs}.

(** ** Dictionaries *)

Lemma load_one_serialized bytes pre post d prev_end valid_end :
  bytes = pre ++ serialize d ++ post → zlen bytes < 2 ^ 32 → dict_ok d →
  prev_end <= zlen pre → zlen pre + zlen (serialize d) <= valid_end →
  load_one bytes (mkLoc (zlen pre) (zlen (serialize d) mod 2 ^ 32)) prev_end valid_end
  = Ok (db_entries d, zlen pre + zlen (serialize d)).
Proof.
  intros -> Hlen [Hok _] Hprev Hend. rewrite !zlen_app in Hlen. pose proof (zlen_nonneg pre).
  pose proof (zlen_nonneg post). pose proof (zlen_nonneg (serialize d)). pose proof (serialize_entries d).
  unfold load_one. cbn [offset loc_len]. rewrite Z.mod_small by lia.
  rewrite wrap64_small by (unfold two64; lia). rewrite (proj2 (Z.ltb_ge _ _)) by lia.
  rewrite (proj2 (Z.ltb_ge _ _)) by lia. rewrite slice_at_app by done. cbn.
  rewrite deserialize_serialize by (done || (unfold zlen in *; lia)). done.
Qed.

Definition dict_entries (d : CommitDicts) : ReadDicts :=
  mkDicts (db_entries (graph d)) (db_entries (subject d)) (db_entries (predicate d)) (db_entries (datatype d))
          (db_entries (object_ref d)).

Lemma extends_entries d : extends (dict_entries d) d.
Proof. by intros []. Qed.

Lemma load_dicts_placed bytes head d post n :
  bytes = head ++ dict_bytes (serialize_dicts d) ++ post → zlen bytes < 2 ^ 32 → dicts_ok d →
  load_dicts bytes (mkFooter (place (zlen head) (serialize_dicts d)) n) (zlen head)
             (zlen head + zlen (dict_bytes (serialize_dicts d)))
  = Ok (dict_entries d).
Proof.
  intros E Hlen Hok. pose proof (Hok FGraph) as Hg. pose proof (Hok FSubject) as Hs.
  pose proof (Hok FPredicate) as Hp. pose proof (Hok FDatatype) as Hd. pose proof (Hok FObjectRef) as Ho.
  destruct d as [g s p dt o]. unfold dict_bytes, place, load_dicts, serialize_dicts, dict_entries in *.
  cbn [dict_of graph subject predicate datatype object_ref loc_dicts] in *.
  rewrite <- ?app_assoc in E. rewrite !zlen_app.
  pose proof (zlen_nonneg (serialize g)). pose proof (zlen_nonneg (serialize s)).
  pose proof (zlen_nonneg (serialize p)). pose proof (zlen_nonneg (serialize dt)).
  pose proof (zlen_nonneg (serialize o)).
  rewrite (load_one_serialized bytes head _ g) by (done || lia). cbn [mbind outcome_bind].
  rewrite app_assoc in E. rewrite <- zlen_app.
  rewrite (load_one_serialized bytes _ _ s) by (done || rewrite ?zlen_app; lia). cbn [mbind outcome_bind].
  rewrite app_assoc in E. rewrite <- zlen_app.
  rewrite (load_one_serialized bytes _ _ p) by (done || rewrite ?zlen_app; lia). cbn [mbind outcome_bind].
  rewrite app_assoc in E. rewrite <- zlen_app.
  rewrite (load_one_serialized bytes _ _ dt) by (done || rewrite ?zlen_app; lia). cbn [mbind outcome_bind].
  rewrite app_assoc in E. rewrite <- zlen_app.
  by rewrite (load_one_serialized bytes _ _ o) by (done || rewrite ?zlen_app; lia).
Qed.

(** ** Ops *)

Lemma encode_ops_decode t flakes :
  Forall (flake_ok t) flakes → writes (encode_ops flakes) (λ rd, rtimes (length flakes) (decode_op rd t)) flakes.
Proof.
  induction 1 as [|f fs Hf _ IH]; cbn [encode_ops length rtimes].
  - apply writes_put. intros rd. apply reads_as_ret.
  - eapply writes_bind; [by apply encode_op_decode|].
    eapply writes_last; [exact IH|]. intros rd. apply reads_as_ret.
Qed.

Lemma new_dicts_ok : dicts_ok new_dicts.
Proof. intros []; apply new_dict_ok. Qed.

Lemma dict_bytes_small d :
  zlen (dict_bytes (serialize_dicts d)) < 2 ^ 32 → dicts_small d.
Proof.
  unfold dict_bytes, serialize_dicts. cbn. rewrite !zlen_app. intros Hl f. unfold entries_of.
  pose proof (serialize_entries (graph d)). pose proof (serialize_entries (subject d)).
  pose proof (serialize_entries (predicate d)). pose proof (serialize_entries (datatype d)).
  pose proof (serialize_entries (object_ref d)).
  pose proof (zlen_nonneg (serialize (graph d))). pose proof (zlen_nonneg (serialize (subject d))).
  pose proof (zlen_nonneg (serialize (predicate d))). pose proof (zlen_nonneg (serialize (datatype d))).
  pose proof (zlen_nonneg (serialize (object_ref d))).
  unfold zlen in *. destruct f; cbn; lia.
Qed.

Lemma decompress_compress compress ops_raw ops_section is_compressed h :
  compress_ops compress ops_raw = Ok (ops_section, is_compressed) →
  has_flag (flags h) FLAG_ZSTD = is_compressed → decompress h ops_section = Ok ops_raw.
Proof.
  unfold compress_ops, decompress. intros Hc ->.
  destruct (compress && nonempty ops_raw); [|by simplify_eq].
  destruct (zstd_encode ops_raw) as [c|] eqn:E; [|done]. destruct (_ <? _); simplify_eq; [|done].
  by rewrite (zstd_law _ _ E).
Qed.

(** ** A body *)

(** The parts of a written body. *)
Record parts := mkParts {
  pt_header : CommitHeader;
  pt_env : list Z;
  pt_ops : list Z;
  pt_dicts : CommitDicts;
}.

Definition pt_head (p : parts) : list Z := write_header (pt_header p) ++ pt_env p ++ pt_ops p.
Definition pt_footer (p : parts) : CommitFooter :=
  mkFooter (place (zlen (pt_head p)) (serialize_dicts (pt_dicts p))) (zlen (pt_ops p) mod 2 ^ 32).
Definition pt_body (p : parts) : list Z :=
  pt_head p ++ dict_bytes (serialize_dicts (pt_dicts p)) ++ write_footer (pt_footer p).

Lemma footer_placed p : zlen (pt_body p) < 2 ^ 32 → footer_ok (pt_footer p).
Proof.
  unfold pt_body, pt_footer, dict_bytes. rewrite !zlen_app, length_write_footer. intros Hl.
  set (d := serialize_dicts (pt_dicts p)) in *. clearbody d. pose proof (zlen_nonneg (pt_head p)).
  pose proof (zlen_nonneg (graph d)). pose proof (zlen_nonneg (subject d)). pose proof (zlen_nonneg (predicate d)).
  pose proof (zlen_nonneg (datatype d)). pose proof (zlen_nonneg (object_ref d)). unfold FOOTER_LEN in Hl.
  split; cbn [loc_dicts ops_section_len]; [|by apply Z.mod_pos_bound].
  intros []; unfold place; cbn [dict_of graph subject predicate datatype object_ref] in *;
    (split; cbn [offset loc_len]; [unfold two64; lia|by apply Z.mod_pos_bound]).
Qed.

Lemma read_body_parts p bytes post env ops_data :
  bytes = pt_body p ++ post → zlen bytes < 2 ^ 32 →
  envelope_len (pt_header p) = zlen (pt_env p) → decode_envelope (pt_env p) = Ok env →
  dicts_ok (pt_dicts p) → decompress (pt_header p) (pt_ops p) = Ok ops_data →
  read_body bytes (pt_header p) (zlen (pt_body p)) = Ok (env, dict_entries (pt_dicts p), ops_data).
Proof.
  intros E Hlen Henv Hdec Hok Hops. unfold read_body, read_envelope. rewrite Henv.
  set (D := dict_bytes (serialize_dicts (pt_dicts p))) in *. set (F := write_footer (pt_footer p)) in *.
  assert (bytes = pt_head p ++ D ++ F ++ post) as E1
    by (rewrite E; unfold pt_body; fold D F; by rewrite <- !app_assoc).
  assert (bytes = write_header (pt_header p) ++ pt_env p ++ pt_ops p ++ D ++ F ++ post) as E2
    by (rewrite E1; unfold pt_head; by rewrite <- !app_assoc).
  pose proof (zlen_nonneg (pt_env p)). pose proof (zlen_nonneg (pt_ops p)). pose proof (zlen_nonneg D).
  pose proof (zlen_nonneg post). pose proof (length_write_header (pt_header p)) as HH.
  assert (zlen F = FOOTER_LEN) as HF by apply length_write_footer.
  assert (zlen (pt_head p) = HEADER_LEN + zlen (pt_env p) + zlen (pt_ops p)) as Hhead
    by (unfold pt_head; rewrite !zlen_app, HH; lia).
  assert (zlen bytes = zlen (pt_head p) + zlen D + FOOTER_LEN + zlen post) as Hbytes
    by (rewrite E1, !zlen_app, HF; lia).
  assert (zlen (pt_body p) = zlen (pt_head p) + zlen D + FOOTER_LEN) as Hbody
    by (unfold pt_body; fold D F; rewrite !zlen_app, HF; lia).
  unfold HEADER_LEN, FOOTER_LEN in *.
  assert (slice_at 32 (32 + zlen (pt_env p)) bytes = Ok (pt_env p)) as S1
    by (rewrite E2; apply slice_at_app; lia).
  assert (slice_at (zlen (pt_head p) + zlen D) (zlen (pt_body p)) bytes = Ok F) as S2
    by (rewrite E1, app_assoc; apply slice_at_app; rewrite zlen_app; lia).
  assert (slice_at (32 + zlen (pt_env p)) (zlen (pt_head p)) bytes = Ok (pt_ops p)) as S3
    by (rewrite E2, app_assoc; apply slice_at_app; rewrite zlen_app; lia).
  rewrite (proj2 (Z.ltb_ge _ _)), S1 by lia. cbn [mbind outcome_bind]. rewrite Hdec. cbn [mbind outcome_bind].
  replace (zlen (pt_body p) - 64) with (zlen (pt_head p) + zlen D) by lia.
  rewrite wrap64_small, S2 by (unfold two64; lia). cbn [mbind outcome_bind].
  unfold F. rewrite read_write_footer by (apply footer_placed; lia). cbn [mbind outcome_bind].
  assert (32 + zlen (pt_env p) + ops_section_len (pt_footer p) = zlen (pt_head p)) as Ho
    by (unfold pt_footer; cbn [ops_section_len]; rewrite Z.mod_small; lia).
  rewrite Ho, (proj2 (Z.ltb_ge _ _)) by lia. unfold pt_footer, D.
  rewrite (load_dicts_placed _ _ _ (F ++ post)) by done. cbn [mbind outcome_bind]. rewrite S3.
  cbn [mbind outcome_bind]. by rewrite Hops.
Qed.

(** ** What is written is read *)

(** The commits the format represents. *)
Definition commit_ok (c : Commit) : Prop :=
  Forall (flake_ok (c_t c)) (c_flakes c) ∧ zlen (c_flakes c) < 2 ^ 32 ∧ envelope_ok (from_commit c).

(** A commit as it is read from storage. *)
Definition stored (c : Commit) (id : ContentId) (sigs : list CommitSignature) : Commit :=
  mkCommit (Some id) (c_t c) (c_time c) (c_flakes c) (c_parents c) (c_txn c) (c_namespace_delta c)
           (c_txn_signature c) sigs (c_txn_meta c) (c_graph_delta c) (c_ns_split_mode c).

Lemma write_body_parts c compress signed n body :
  write_body c compress signed n = Ok body →
  ∃ p ops_raw is_compressed,
    body = pt_body p ∧ encode_envelope_fields (from_commit c) = Ok (pt_env p)
    ∧ encode_ops (c_flakes c) new_dicts = Ok (ops_raw, pt_dicts p)
    ∧ compress_ops compress ops_raw = Ok (pt_ops p, is_compressed)
    ∧ pt_header p = mkHeader VERSION (Z.lor (if is_compressed then FLAG_ZSTD else 0)
                                            (if signed then FLAG_HAS_COMMIT_SIG else 0))
                             (c_t c) (zlen (c_flakes c) mod 2 ^ 32) (zlen (pt_env p) mod 2 ^ 32) n.
Proof.
  unfold write_body. intros (env & Henv & H)%outcome_bind_Ok.
  apply outcome_bind_Ok in H as ([ops_raw dicts] & Hops & H).
  apply outcome_bind_Ok in H as ([ops comp] & Hc & H). apply (inj Ok) in H as <-.
  exists (mkParts (mkHeader VERSION (Z.lor (if comp then FLAG_ZSTD else 0) (if signed then FLAG_HAS_COMMIT_SIG else 0))
                   (c_t c) (zlen (c_flakes c) mod 2 ^ 32) (zlen env mod 2 ^ 32) n) env ops dicts), ops_raw, comp.
  done.
Qed.

(** The signature block that follows the body. *)
Definition sig_part (signing : option (SigningKey * string)) (body : list Z) : list Z :=
  match signing with Some _ => encode_sig_block (signatures signing body) | None => [] end.

Lemma seal_app signing body : seal signing body = body ++ sig_part signing body.
Proof. unfold seal, sig_part. destruct signing; [done|]. by rewrite app_nil_r. Qed.

Lemma sig_part_len signing body :
  zlen (sig_part signing body) = pre_sig_block_len signing
  ∧ 0 <= pre_sig_block_len signing < 2 ^ 16
  ∧ (0 < pre_sig_block_len signing ↔ present signing = true).
Proof.
  destruct signing as [[key lid]|]; cbn [sig_part pre_sig_block_len present signatures];
    [|by split; [|split; [|split]]].
  rewrite sig_block_size_spec by apply signature_len.
  unfold sig_block_size, sig_size, tmp_signature. cbn [foldl cs_signer metadata].
  destruct (did_short key) as [_ Hl]. pose proof (zlen_nonneg (str_bytes (did_of key))).
  rewrite Z.mod_small by lia. split; [done|]. split; [lia|]. split; [done|lia].
Qed.

Lemma sig_part_decode signing body :
  present signing = true → decode_sig_block (sig_part signing body) = Ok (signatures signing body).
Proof.
  destruct signing as [[key lid]|]; [|done]. intros _. apply decode_encode_sig_block; [|done].
  constructor; [|done]. destruct (did_short key) as [Hs Hl].
  split; [done|]. split; [cbn [cs_signer]; unfold MAX_SIGNER_LEN; lia|]. split; [done|].
  split; [apply signature_len|done].
Qed.

Lemma flags_written (c s : bool) :
  let fl := Z.lor (if c then FLAG_ZSTD else 0) (if s then FLAG_HAS_COMMIT_SIG else 0) in
  has_flag fl FLAG_ZSTD = c ∧ has_flag fl FLAG_HAS_COMMIT_SIG = s.
Proof. by destruct c, s. Qed.

Lemma detect_version_header h rest :
  version h = VERSION → detect_version (write_header h ++ rest) = Ok V4.
Proof.
  intros Hv. unfold detect_version.
  assert ((zlen (write_header h ++ rest) <? HEADER_LEN) = false) as ->.
  { apply Z.ltb_ge. rewrite <- (length_write_header h), zlen_app. pose proof (zlen_nonneg rest). lia. }
  unfold write_header. set (l := (_ ++ _) ++ rest). assert (byte_at 4 l = version h) as -> by done.
  assert (bool_decide (field 0 4 l = MAGIC) = true) as -> by (apply bool_decide_eq_true; done).
  by rewrite Hv.
Qed.

Lemma pt_body_len p :
  zlen (pt_body p) = HEADER_LEN + zlen (pt_env p) + zlen (pt_ops p)
                     + zlen (dict_bytes (serialize_dicts (pt_dicts p))) + FOOTER_LEN.
Proof. unfold pt_body, pt_head. rewrite !zlen_app, length_write_header, length_write_footer. lia. Qed.

(** Framing: the header is found, and the body ends where the signature
    block begins. *)
Lemma frame_v4 p signing is_compressed bytes :
  let sg := sig_part signing (pt_body p) in
  bytes = pt_body p ++ sg → header_ok (pt_header p) → version (pt_header p) = VERSION →
  flags (pt_header p) = Z.lor (if is_compressed : bool then FLAG_ZSTD else 0)
                              (if present signing then FLAG_HAS_COMMIT_SIG else 0) →
  sig_block_len (pt_header p) = pre_sig_block_len signing →
  detect_version bytes = Ok V4 ∧ read_header bytes = Ok (pt_header p)
  ∧ v4_body_end bytes (pt_header p) = Ok (zlen (pt_body p))
  ∧ (if has_sig_block (pt_header p)
     then data ← slice_at (zlen (pt_body p)) (zlen (pt_body p) + sig_block_len (pt_header p)) bytes;
          decode_sig_block data
     else Ok []) = Ok (signatures signing (pt_body p)).
Proof.
  intros sg Hw Hh Hv Hfl Hsb. destruct (sig_part_len signing (pt_body p)) as (Hsl & Hsr & Hsp). fold sg in Hsl.
  assert (zlen bytes = zlen (pt_body p) + zlen sg) as Hb by (by rewrite Hw, zlen_app).
  pose proof (zlen_nonneg (pt_body p)). pose proof (zlen_nonneg sg).
  assert (∃ rest, bytes = write_header (pt_header p) ++ rest) as [rest E].
  { rewrite Hw. unfold pt_body, pt_head. rewrite <- !app_assoc. eauto. }
  assert (has_sig_block (pt_header p) = present signing) as Hhs.
  { unfold has_sig_block. rewrite Hfl, Hsb. rewrite (proj2 (flags_written _ _)).
    destruct signing; cbn [present andb] in *; [apply Z.ltb_lt; by apply Hsp|done]. }
  split; [rewrite E; by apply detect_version_header|]. split; [rewrite E; by apply read_write_header|].
  split.
  - unfold v4_body_end. rewrite Hhs, Hsb. destruct signing; cbn [present] in *.
    + rewrite (proj2 (Z.ltb_ge _ _)) by lia. f_equal. lia.
    + f_equal. assert (zlen sg = 0) by done. lia.
  - rewrite Hhs, Hsb. destruct (present signing) eqn:Ep.
    + rewrite Hw, <- (app_nil_r sg), slice_at_app by lia. cbn [mbind outcome_bind]. by apply sig_part_decode.
    + by destruct signing.
Qed.

Lemma read_written c compress signing bytes :
  commit_ok c → write_commit c compress signing = Ok bytes → zlen bytes < 2 ^ 32 →
  ∃ body, bytes = body ++ sig_part signing body
    ∧ read_commit bytes = Ok (stored c (content_id_new bytes) (signatures signing body)).
Proof.
  intros (Hf & Hn & He) Hw Hlen. unfold write_commit in Hw.
  destruct ((c_t c <? 0) || (2 ^ 32 - 1 <? c_t c)) eqn:Et; [done|]. apply orb_false_iff in Et as [Et1 Et2].
  apply Z.ltb_ge in Et1, Et2. apply outcome_bind_Ok in Hw as (body & Hbody & Hw). apply (inj Ok) in Hw.
  rewrite seal_app in Hw. exists body. split; [done|]. symmetry in Hw.
  apply write_body_parts in Hbody as (p & ops_raw & comp & -> & Henv & Hops & Hcomp & Hh).
  destruct (sig_part_len signing (pt_body p)) as (Hsl & Hsr & _).
  assert (zlen bytes = zlen (pt_body p) + zlen (sig_part signing (pt_body p))) as Hb by (by rewrite Hw, zlen_app).
  rewrite pt_body_len in Hb. unfold HEADER_LEN, FOOTER_LEN in Hb.
  pose proof (zlen_nonneg (pt_env p)). pose proof (zlen_nonneg (pt_ops p)). pose proof (zlen_nonneg (c_flakes c)).
  pose proof (zlen_nonneg (dict_bytes (serialize_dicts (pt_dicts p)))) as HD.
  rewrite !Z.mod_small in Hh by lia.
  destruct (frame_v4 p signing comp bytes Hw) as (Hdv & Hrh & Hbe & Hsig).
  1-4: rewrite Hh; try done. { unfold header_ok. cbn. split; [by left|]. lia. }
  destruct (encode_ops_decode (c_t c) _ Hf _ _ _ Hops) as [_ Hwr].
  destruct Hwr as [Hdok Hread]; [apply new_dicts_ok|by apply dict_bytes_small; lia|].
  specialize (Hread _ (extends_entries (pt_dicts p)) []). rewrite app_nil_r in Hread.
  unfold read_commit. rewrite Hdv. cbn [mbind outcome_bind].
  unfold read_commit_v4, check_size, MIN_COMMIT_LEN, HEADER_LEN, FOOTER_LEN.
  rewrite (proj2 (Z.ltb_ge _ _)) by lia. cbn [mbind outcome_bind]. rewrite Hrh. cbn [mbind outcome_bind].
  rewrite Hbe. cbn [mbind outcome_bind]. rewrite Hsig. cbn [mbind outcome_bind].
  rewrite (read_body_parts p bytes (sig_part signing (pt_body p)) (with_t 0 (from_commit c)) ops_raw);
    [|done|done|by rewrite Hh|by apply decode_encode_envelope|done|].
  2:{ eapply decompress_compress; [done|]. rewrite Hh. apply flags_written. }
  cbn [mbind outcome_bind]. unfold read_flakes. rewrite Hh. cbn [op_count h_t].
  unfold zlen. by rewrite Nat2Z.id, Hread.
Qed.

(** ** What the writer accepts *)

Definition writable (c : Commit) (compress : bool) : Prop :=
  0 <= c_t c <= 2 ^ 32 - 1 ∧ envelope_writable (from_commit c)
  ∧ Forall (λ f, index_negative f = None) (c_flakes c)
  ∧ (compress = true → ∀ ops, ∃ out, zstd_encode ops = Some out).

Lemma encode_ops_total flakes d :
  Forall (λ f, index_negative f = None) flakes → ∃ bs d', encode_ops flakes d = Ok (bs, d').
Proof.
  intros Hf. revert d. induction Hf as [|f fs Hf _ IH]; intros d; cbn [encode_ops]; [unfold put; eauto|].
  apply and_then_total; [|done]. intros. by apply encode_op_total.
Qed.

Lemma write_commit_total c compress signing : writable c compress → ∃ bytes, write_commit c compress signing = Ok bytes.
Proof.
  intros (Ht & He & Hf & Hz). unfold write_commit.
  rewrite (proj2 (Z.ltb_ge _ _)), (proj2 (Z.ltb_ge _ _)) by lia. cbn [orb].
  apply outcome_bind_total; [|by eauto]. unfold write_body.
  apply outcome_bind_total; [by apply encode_envelope_total|]. intros env.
  apply outcome_bind_total.
  { destruct (encode_ops_total (c_flakes c) new_dicts Hf) as (bs & d' & ->). eauto. }
  intros [ops dicts]. apply outcome_bind_total; [|intros [? ?]; eauto].
  unfold compress_ops. destruct compress; cbn [andb]; [|eauto]. destruct (nonempty ops); [|eauto].
  destruct (Hz eq_refl ops) as [out ->]. destruct (_ <? _); eauto.
Qed.
End blob.

(** * The readers of a commit blob agree: lemmas

    Whatever blob reads as a commit, the other readers accept it and tell the
    same: the identifier, the envelope, and the ops. *)

Section readers.
Context `{V : CoreValues} `{C : Cids} `{B : Blobs}.

(** ** Datatypes of version 3 *)

Definition canonical_flake (f : Flake) : Flake :=
  match canonicalize_dt_sid (f_dt f) with
  | Some dt => mkFlake (f_g f) (f_s f) (f_p f) (f_o f) dt (f_t f) (f_op f) (f_m f)
  | None => f
  end.

Lemma canonicalize_flake_datatypes_map flakes :
  (canonicalize_flake_datatypes flakes).1 = canonical_flake <$> flakes.
Proof.
  induction flakes as [|f fs IH]; [done|]. cbn [canonicalize_flake_datatypes].
  rewrite fmap_cons, <- IH. destruct (canonicalize_flake_datatypes fs) as [fs' n].
  unfold canonical_flake. by destruct (canonicalize_dt_sid (f_dt f)).
Qed.

(** The two canonicalizations are one. *)
Lemma canonicalize_dt_agree ns nm :
  canonicalize_dt_sid (mkSid ns nm) = (λ p, mkSid p.1 p.2) <$> canonicalize_dt_parts_static ns nm.
Proof.
  unfold canonicalize_dt_sid, canonicalize_dt_parts_static. cbn [namespace_code sid_name].
  destruct (ns =? EMPTY).
  - destruct (canonicalize_empty_curie_name nm) as [[]|]; [done|].
    by destruct (canonicalize_jsonld_shorthand nm) as [[]|].
  - destruct (ns =? JSON_LD); [|done]. by destruct (decide _).
Qed.

Lemma canonicalize_raw_matches (legacy : bool) raw flake :
  raw_matches raw flake →
  raw_matches (canonicalize_raw legacy raw) (if legacy then canonical_flake flake else flake).
Proof.
  destruct legacy; [|done]. intros (Hg & Hs & Hp & Hdt & Ho & Hop & Hm).
  unfold canonical_flake, canonicalize_raw. rewrite Hdt, canonicalize_dt_agree.
  destruct (canonicalize_dt_parts_static _ _) as [[ns nm]|]; cbn; unfold raw_matches; naive_solver.
Qed.

(** ** Raw replay *)

Fixpoint fold_ops {S} (f : RawOp → S → Outcome S) (raws : list RawOp) (s : S) : Outcome S :=
  match raws with
  | [] => Ok s
  | raw :: raws => s ← f raw s; fold_ops f raws s
  end.

Lemma for_each_loop_flakes (n : nat) (legacy : bool) dicts t data flakes rest :
  rtimes n (decode_op dicts t) data = Ok (flakes, rest) →
  ∃ raws, Forall2 raw_matches raws (if legacy then canonical_flake <$> flakes else flakes)
    ∧ Forall (λ f, f_t f = t) flakes
    ∧ ∀ S (f : RawOp → S → Outcome S) s, for_each_loop n legacy dicts f data s = fold_ops f raws s.
Proof.
  revert data flakes. induction n as [|n IH]; intros data flakes H; cbn [rtimes] in H.
  - injection H as <- <-. exists []. by destruct legacy.
  - apply bind_Ok_inv in H as (flake & mid & Hd & H). apply bind_Ok_inv in H as (fs & mid' & Hfs & H).
    injection H as <- <-. destruct (IH _ _ Hfs) as (raws & Hraws & Ht & Hfold).
    apply decode_raw_op_matches in Hd as (raw & Hraw & Hm & Htf).
    exists (canonicalize_raw legacy raw :: raws). split.
    { apply (canonicalize_raw_matches legacy) in Hm. destruct legacy; by constructor. }
    split; [by constructor|]. intros S f s. cbn [for_each_loop fold_ops]. rewrite Hraw.
    destruct (f _ s); [|done..]. apply Hfold.
Qed.

(** ** Blobs that read as commits *)

Lemma read_commit_v4_inv bytes c :
  read_commit_v4 bytes = Ok c →
  ∃ header body_end sigs env dicts ops_data flakes,
    check_size bytes MIN_COMMIT_LEN = Ok tt ∧ read_header bytes = Ok header
    ∧ v4_body_end bytes header = Ok body_end ∧ read_body bytes header body_end = Ok (env, dicts, ops_data)
    ∧ read_flakes header dicts ops_data = Ok flakes
    ∧ c = assemble (content_id_new bytes) (h_t header) env flakes (txn_meta env) sigs.
Proof.
  unfold read_commit_v4. intros ([] & Hs & H)%outcome_bind_Ok.
  apply outcome_bind_Ok in H as (header & Hh & H). apply outcome_bind_Ok in H as (body_end & Hb & H).
  apply outcome_bind_Ok in H as (sigs & Hsig & H). apply outcome_bind_Ok in H as ([[env dicts] ops] & Hbody & H).
  apply outcome_bind_Ok in H as (flakes & Hf & H). apply (inj Ok) in H as <-.
  by exists header, body_end, sigs, env, dicts, ops, flakes.
Qed.

Lemma read_commit_v3_inv bytes c :
  read_commit_v3 bytes = Ok c →
  ∃ header hash_offset hash sigs env dicts ops_data flakes,
    check_size bytes (MIN_COMMIT_LEN + HASH_LEN_V3) = Ok tt ∧ read_header bytes = Ok header
    ∧ v3_hash_offset (zlen bytes) header = Ok hash_offset ∧ check_hash bytes hash_offset = Ok hash
    ∧ read_body bytes header hash_offset = Ok (env, dicts, ops_data)
    ∧ read_flakes header dicts ops_data = Ok flakes
    ∧ c = assemble (from_sha256_digest hash) (h_t header) env (canonical_flake <$> flakes)
                   (canonicalize_txn_meta_datatypes (txn_meta env)).1 sigs.
Proof.
  unfold read_commit_v3. intros ([] & Hs & H)%outcome_bind_Ok.
  apply outcome_bind_Ok in H as (header & Hh & H). apply outcome_bind_Ok in H as (hash_offset & Ho & H).
  apply outcome_bind_Ok in H as (hash & Hc & H).
  apply outcome_bind_Ok in H as (sigs & Hsig & H). apply outcome_bind_Ok in H as ([[env dicts] ops] & Hbody & H).
  apply outcome_bind_Ok in H as (flakes & Hf & H). apply (inj Ok) in H as <-.
  exists header, hash_offset, hash, sigs, env, dicts, ops, flakes.
  by rewrite <- canonicalize_flake_datatypes_map.
Qed.

(** The envelope of a body is the one [read_envelope] finds. *)
Lemma read_body_envelope bytes header body_end env dicts ops :
  read_body bytes header body_end = Ok (env, dicts, ops) → read_envelope bytes header = Ok env.
Proof.
  unfold read_body. intros (env' & He & H)%outcome_bind_Ok.
  apply outcome_bind_Ok in H as (fb & _ & H). apply outcome_bind_Ok in H as (f & _ & H).
  destruct (_ <? _); [done|].
  apply outcome_bind_Ok in H as (d & _ & H). apply outcome_bind_Ok in H as (ob & _ & H).
  apply outcome_bind_Ok in H as (od & _ & H). by injection H as <- _ _.
Qed.

Lemma check_size_le bytes n m : n <= m → check_size bytes m = Ok tt → check_size bytes n = Ok tt.
Proof.
  unfold check_size. intros Hn. destruct (Z.ltb_spec (zlen bytes) m); [done|]. intros _.
  by rewrite (proj2 (Z.ltb_ge _ _)) by lia.
Qed.

Lemma read_flakes_inv header dicts ops flakes :
  read_flakes header dicts ops = Ok flakes →
  ∃ rest, rtimes (Z.to_nat (op_count header)) (decode_op dicts (h_t header)) ops = Ok (flakes, rest).
Proof. unfold read_flakes. destruct (rtimes _ _ _) as [[]| |]; [|done..]. intros [= ->]. eauto. Qed.

(** The view of a commit. *)
Definition commit_view (c : Commit) : CommitView :=
  mkView (c_t c) (c_parents c) (c_txn c) (c_namespace_delta c) (c_txn_meta c) (c_graph_delta c) (c_ns_split_mode c).

(** What the other readers tell of a blob that reads as [c]: its identifier,
    the view of its envelope, and its raw ops with the envelope kept beside
    them. *)
Definition readers_agree (view : CommitView) (envelope_ok : CodecEnvelope → Prop) (bytes : list Z) (c : Commit) : Prop :=
  (∃ id, verify_commit_blob bytes = Ok id ∧ c_id c = Some id)
  ∧ read_commit_envelope bytes = Ok view
  ∧ ∃ ops raws, load_commit_ops bytes = Ok ops ∧ o_t ops = c_t c ∧ envelope_ok (o_envelope ops)
      ∧ Forall2 raw_matches raws (c_flakes c) ∧ Forall (λ f, f_t f = c_t c) (c_flakes c)
      ∧ ∀ S (f : RawOp → S → Outcome S) s, for_each_op ops f s = fold_ops f raws s.

Lemma readers_agree_v4 bytes c :
  detect_version bytes = Ok V4 → read_commit_v4 bytes = Ok c →
  readers_agree (commit_view c) (λ env, env = from_commit c) bytes c.
Proof.
  intros Hv (header & body_end & sigs & env & dicts & ops & flakes & Hs & Hh & Hb & Hbody & Hf & ->)%read_commit_v4_inv.
  unfold readers_agree, verify_commit_blob, read_commit_envelope, load_commit_ops. rewrite Hv. cbn [mbind outcome_bind].
  split.
  { unfold verify_commit_blob_v4. rewrite Hs. cbn [mbind outcome_bind]. rewrite Hh. by eexists. }
  split.
  { unfold read_commit_envelope_v4. rewrite (check_size_le bytes HEADER_LEN MIN_COMMIT_LEN) by done.
    cbn [mbind outcome_bind]. rewrite Hh. cbn [mbind outcome_bind].
    rewrite (read_body_envelope _ _ _ _ _ _ Hbody). done. }
  apply read_flakes_inv in Hf as [rest Hf].
  destruct (for_each_loop_flakes _ false _ _ _ _ _ Hf) as (raws & Hraws & Ht & Hfold).
  exists (make_ops header env dicts ops false), raws. split.
  { unfold load_commit_ops_v4. rewrite Hs. cbn [mbind outcome_bind]. rewrite Hh. cbn [mbind outcome_bind].
    rewrite Hb. cbn [mbind outcome_bind]. by rewrite Hbody. }
  done.
Qed.

(** Version 3: the view has no graphs, and the envelope beside the raw ops
    leaves the datatypes of its metadata as they were stored. *)
Definition commit_view_v3 (c : Commit) : CommitView :=
  mkView (c_t c) (c_parents c) (c_txn c) (c_namespace_delta c) (c_txn_meta c) ∅ (c_ns_split_mode c).

Definition envelope_v3 (c : Commit) (env : CodecEnvelope) : Prop :=
  ∃ meta, c_txn_meta c = (canonicalize_txn_meta_datatypes meta).1
    ∧ env = mkEnvelope (c_t c) (c_parents c) (c_namespace_delta c) (c_txn c) (c_time c) (c_txn_signature c)
                       meta (c_graph_delta c) (c_ns_split_mode c).

Lemma readers_agree_v3 bytes c :
  detect_version bytes = Ok V3 → read_commit_v3 bytes = Ok c →
  readers_agree (commit_view_v3 c) (envelope_v3 c) bytes c.
Proof.
  intros Hv (header & ho & hash & sigs & env & dicts & ops & flakes & Hs & Hh & Ho & Hc & Hbody & Hf & ->)%read_commit_v3_inv.
  unfold readers_agree, verify_commit_blob, read_commit_envelope, load_commit_ops. rewrite Hv. cbn [mbind outcome_bind].
  split.
  { unfold verify_commit_v3. rewrite Hs. cbn [mbind outcome_bind]. rewrite Hh. cbn [mbind outcome_bind].
    rewrite Ho. cbn [mbind outcome_bind]. rewrite Hc. by eexists. }
  split.
  { unfold read_commit_envelope_v3. rewrite (check_size_le bytes HEADER_LEN (MIN_COMMIT_LEN + HASH_LEN_V3)) by done.
    cbn [mbind outcome_bind]. rewrite Hh. cbn [mbind outcome_bind].
    rewrite (read_body_envelope _ _ _ _ _ _ Hbody). done. }
  apply read_flakes_inv in Hf as [rest Hf].
  destruct (for_each_loop_flakes _ true _ _ _ _ _ Hf) as (raws & Hraws & Ht & Hfold).
  exists (make_ops header env dicts ops true), raws. split.
  { unfold load_commit_ops_v3. rewrite Hs. cbn [mbind outcome_bind]. rewrite Hh. cbn [mbind outcome_bind].
    rewrite Ho. cbn [mbind outcome_bind]. by rewrite Hbody. }
  split; [done|]. split; [by exists (txn_meta env)|]. split; [done|]. split; [|done].
  cbn [c_flakes assemble]. apply Forall_fmap. eapply Forall_impl; [done|]. intros f Hft. cbn.
  unfold canonical_flake. by destruct (canonicalize_dt_sid (f_dt f)).
Qed.
End readers.
