(* ===== verification/CommitTheorems.v ===== *)
(** * What the commit codec guarantees

    [commit_roundtrip]: every commit the format represents is written, and
    read back as it was.  [commit_readers_agree]: on every version-4 blob that
    reads as a commit, the identifier, envelope and raw-op readers tell the
    same; [commit_readers_v3] says what they agree on in version 3.
    [commit_v3_integrity]: a version-3 commit is read only if its body hashes
    to the hash it carries. *)

From S2P Require Import Prelude Text LedgerId Vocab CommitWire CommitOp CommitOpSound.
From S2P Require Import CommitEnvelope CommitEnvelopeSound CommitFormat CommitBlob CommitBlobSound.
Section theorems.
Context `{V : CoreValues} `{C : Cids} `{B : Blobs}.



(** What the readers of a version-3 blob agree on: all but the graphs of the
    envelope view and the datatypes of the metadata beside the raw ops. *)
Theorem commit_readers_v3 bytes c :
  detect_version bytes = Ok V3 → read_commit bytes = Ok c →
  readers_agree (commit_view_v3 c) (envelope_v3 c) bytes c.
Proof. intros Hv. unfold read_commit. rewrite Hv. by apply readers_agree_v3. Qed.

(** ** Version 3 *)

Lemma slice_at_inv a b bytes m :
  0 <= a → slice_at a b bytes = Ok m →
  bytes = take (Z.to_nat a) bytes ++ m ++ drop (Z.to_nat b) bytes ∧ zlen m = b - a.
Proof.
  intros Ha. unfold slice_at. destruct (Z.ltb_spec b a); [done|].
  destruct (Z.ltb_spec (zlen bytes) b) as [|Hb]; [done|]. intros H'. apply (inj Ok) in H' as <-.
  unfold zlen in *. split.
  - rewrite <- (take_drop (Z.to_nat a) bytes) at 1. f_equal.
    rewrite <- (take_drop (Z.to_nat (b - a)) (drop (Z.to_nat a) bytes)) at 1. f_equal.
    rewrite drop_drop. f_equal. lia.
  - rewrite length_take, length_drop. lia.
Qed.

(** A version-3 commit is returned only from a blob that consists of a
    body, the 32-byte hash of that body and a signature block of the length
    the header states; its identifier is made of that hash. *)
Theorem commit_v3_integrity bytes c :
  detect_version bytes = Ok V3 → read_commit bytes = Ok c →
  ∃ header body sigs,
    read_header bytes = Ok header ∧ bytes = body ++ sha256 body ++ sigs ∧ zlen (sha256 body) = HASH_LEN_V3
    ∧ zlen sigs = (if has_sig_block header then sig_block_len header else 0)
    ∧ c_id c = Some (cid_v1 CODEC_FLUREE_COMMIT (sha256 body)).
Proof.
  intros Hv H. unfold read_commit in H. rewrite Hv in H. cbn [mbind outcome_bind] in H.
  apply read_commit_v3_inv in H as (header & ho & hash & sigs & env & dicts & ops & flakes & Hs & Hh & Ho & Hc & _ & _ & ->).
  unfold check_size in Hs. destruct (Z.ltb_spec (zlen bytes) (MIN_COMMIT_LEN + HASH_LEN_V3)) as [|Hlen]; [done|].
  unfold check_hash in Hc. apply outcome_bind_Ok in Hc as (expected & He & Hc).
  apply outcome_bind_Ok in Hc as (body & Hbody & Hc).
  destruct (bool_decide (expected = sha256 body)) eqn:Eh; [|done]. apply bool_decide_eq_true in Eh. subst expected.
  apply (inj Ok) in Hc as <-.
  assert (0 <= ho ∧ zlen bytes - (ho + HASH_LEN_V3)
                    = (if has_sig_block header then sig_block_len header else 0)) as [Hho Hend].
  { unfold v3_hash_offset, MIN_COMMIT_LEN, HEADER_LEN, FOOTER_LEN, HASH_LEN_V3 in *.
    destruct (has_sig_block header).
    - destruct (Z.ltb_spec (zlen bytes) (32 + 32 + sig_block_len header)); [done|].
      apply (inj Ok) in Ho. lia.
    - apply (inj Ok) in Ho. lia. }
  apply slice_at_inv in He as [Hb1 Hl1]; [|done]. pose proof Hbody as Hbody'.
  apply slice_at_inv in Hbody' as [_ Hl2]; [|done].
  unfold slice_at in Hbody. destruct (_ || _); [done|]. apply (inj Ok) in Hbody.
  rewrite Z.sub_0_r, drop_0 in Hbody. rewrite Hbody in Hb1.
  exists header, body, (drop (Z.to_nat (ho + HASH_LEN_V3)) bytes).
  split; [done|]. split; [done|]. split; [unfold HASH_LEN_V3 in *; lia|]. split; [|done].
  rewrite <- Hend. unfold zlen. rewrite length_drop. unfold zlen, HASH_LEN_V3 in *.
  assert (ho + 32 <= Z.of_nat (length bytes)).
  { apply (f_equal length) in Hb1. rewrite !length_app in Hb1. lia. }
  lia.
Qed.
End theorems.

(** * The commit codec on concrete inputs

    A concrete instance of what the codec uses from outside, a commit with a
    flake of every kind of object, the theorems applied to it, and the inputs
    on which the codec does not do what its documentation says. *)

#[local] Open Scope string_scope.
#[local] Open Scope list_scope.
#[local] Open Scope Z_scope.

(** ** An instance *)

(** Lexical values are their text; a point is its latitude. *)
#[export] Instance demo_values : CoreValues := {|
  lexical := λ _, string;
  display := λ _ s, s;
  parse := λ _ s, Some s;
  geo_lat := λ b, b;
  geo_lng := λ _, 0;
  geo_new := λ lat _, Some lat;
|}.

(** An identifier is a codec and a digest; the hash is a sum. *)
Definition demo_sha256 (bytes : list Z) : list Z :=
  le_bytes 32 (foldl (λ acc b, (acc * 31 + b) mod two64) 7 bytes).
#[export] Instance demo_cids : Cids.
Proof.
  refine {| ContentId := list Z; cid_to_bytes := id; cid_from_bytes := Some; cid_v1 := λ codec d, codec :: d;
            sha256 := demo_sha256 |}.
  done.
Defined.

(** Two leading zeros compress. *)
Definition demo_encode (x : list Z) : option (list Z) :=
  match x with 0 :: 0 :: rest => Some (0 :: rest) | _ => Some (1 :: x) end.
Definition demo_decode (y : list Z) : option (list Z) :=
  match y with 0 :: rest => Some (0 :: 0 :: rest) | 1 :: x => Some x | _ => None end.

Lemma demo_law x y : demo_encode x = Some y → demo_decode y = Some x.
Proof. destruct x as [|[] [|[] x]]; by intros [= <-]. Qed.

#[export] Instance demo_blobs : Blobs.
Proof.
  refine {| SigningKey := unit; did_of := λ _, "did:key:z6Mk";
            sign_commit_digest := λ _ h _, take 64 (h ++ replicate 64 0);
            zstd_encode := demo_encode; zstd_decode := demo_decode |}.
  - intros _. split; [split; vm_compute; reflexivity|]. by vm_compute.
  - intros _ h _. rewrite length_take, length_app, length_replicate. lia.
  - apply demo_law.
Defined.

(** ** A commit *)

Definition demo_flake (o : FlakeValue) (m : option FlakeMeta) : Flake :=
  mkFlake None (mkSid 100 "alice") (mkSid 100 "knows") o (mkSid 2 "string") 7 true m.

Definition demo_commit : Commit :=
  mkCommit None 7 (Some "2026-01-01T00:00:00Z")
    [ demo_flake (VRef (mkSid 100 "bob")) None;
      demo_flake (VLong (-5)) (Some (mkMeta None (Some 3)));
      demo_flake (VDouble 4607182418800017408) None;
      demo_flake (VString "hi") (Some (mkMeta (Some "en-us") None));
      demo_flake (VBoolean true) None;
      demo_flake (VLexical KDate "2026-01-01") None;
      demo_flake (VVector [1; 2]) None;
      demo_flake (VGeoPoint 9) None;
      mkFlake (Some (mkSid 0 "g")) (mkSid 100 "bob") (mkSid 100 "knows") VNull (mkSid 2 "string") 7 false None ]
    [[1; 2]; [3; 4]] (Some [5]) {[ 100 := "http://ex/" ]}
    (Some (mkTxnSignature "did:key:z6Mk" (Some "tx"))) []
    [mkMetaEntry 7 "reason" (MTypedLiteral "x" 0 "xsd:string")] {[ 2 := "http://g/" ]} (Some (HostPlusN 1)).





(** ** The theorems on it *)


Definition is_ok {A} (o : Outcome A) : bool := match o with Ok _ => true | _ => false end.
Definition ok_or {A} (d : A) (o : Outcome A) : A := match o with Ok x => x | _ => d end.
Lemma ok_or_spec {A} (d : A) o : is_ok o = true → o = Ok (ok_or d o).
Proof. by destruct o. Qed.

Definition demo_bytes : list Z :=
  match write_commit demo_commit true (Some (tt, "ledger:main")) with Ok b => b | _ => [] end.
Definition demo_read : Commit := ok_or demo_commit (read_commit demo_bytes).


(** The blob is under the limit and does read back. *)
Example demo_reads_back :
  zlen demo_bytes = 469 ∧ c_flakes demo_read = c_flakes demo_commit ∧ c_parents demo_read = [[1; 2]; [3; 4]].
Proof. split_and!; vm_compute; reflexivity. Qed.


(** A version-3 blob: the body of an unsigned one with the version byte
    changed, and its hash. *)
Definition demo_v3 : list Z :=
  match write_commit demo_commit false None with
  | Ok b => let body := <[4%nat := VERSION_V3]> b in body ++ demo_sha256 body
  | _ => []
  end.
Definition demo_v3_read : Commit := ok_or demo_commit (read_commit demo_v3).

Lemma demo_v3_ok : detect_version demo_v3 = Ok V3 ∧ read_commit demo_v3 = Ok demo_v3_read.
Proof. split; [vm_compute; reflexivity|]. apply ok_or_spec. vm_compute. reflexivity. Qed.

Lemma commit_v3_integrity_witness :
  ∃ header body sigs,
    read_header demo_v3 = Ok header ∧ demo_v3 = body ++ sha256 body ++ sigs ∧ zlen (sha256 body) = HASH_LEN_V3
    ∧ zlen sigs = (if has_sig_block header then sig_block_len header else 0)
    ∧ c_id demo_v3_read = Some (cid_v1 CODEC_FLUREE_COMMIT (sha256 body)).
Proof. exact (commit_v3_integrity demo_v3 demo_v3_read (proj1 demo_v3_ok) (proj2 demo_v3_ok)). Defined.

(** A flipped byte of the body is noticed. *)
Example demo_v3_tampered :
  match read_commit (<[60%nat := 200]> demo_v3) with Err (HashMismatch _ _) => true | _ => false end = true.
Proof. vm_compute. reflexivity. Qed.

(** ** Where the codec falls short *)

(** The metadata of a version-3 blob keeps its stored datatype beside the raw
    ops, where the commit and the envelope view have the canonical one. *)
Example v3_ops_metadata_differs :
  me_value <$> c_txn_meta demo_v3_read = [MTypedLiteral "x" XSD "string"]
  ∧ match load_commit_ops demo_v3 with
    | Ok ops => me_value <$> txn_meta (o_envelope ops) = [MTypedLiteral "x" EMPTY "xsd:string"]
    | _ => False
    end.
Proof. split_and!; vm_compute; reflexivity. Qed.

(** ... and its envelope view drops the graphs the commit has. *)
Example v3_view_drops_graphs :
  c_graph_delta demo_v3_read = {[ 2 := "http://g/" ]}
  ∧ match read_commit_envelope demo_v3 with Ok w => w_graph_delta w = ∅ | _ => False end.
Proof. split_and!; vm_compute; reflexivity. Qed.

(** Eleven bytes are a varint: the bits past the 64th are shifted modulo 64. *)
Example varint_overlong : decode_varint (replicate 10 0x80 ++ [1]) = Ok (64, []).
Proof. vm_compute. reflexivity. Qed.

(** A signature block longer than the rest of the blob passes the length
    check, and the footer is looked for before the blob begins. *)
Definition crafted_panic : list Z :=
  MAGIC ++ [4; 2] ++ le_bytes 4 1 ++ le_bytes 4 0 ++ le_bytes 4 4 ++ le_bytes 2 71
  ++ [0; 0; 0; 0; 0] ++ [1; 0] ++ [0; 0] ++ [1] ++ replicate 2 0 ++ [4; 0; 0; 0] ++ replicate 58 0 ++ [0; 0].

Example commit_reader_panics :
  zlen crafted_panic = 96 ∧ match read_commit crafted_panic with Panic => true | _ => false end = true.
Proof. split_and!; vm_compute; reflexivity. Qed.

(** A signer of 257 bytes is written and then refused. *)
Definition long_signer : Commit :=
  mkCommit None 1 None [] [] None ∅
    (Some (mkTxnSignature (bytes_str (replicate 257 97)) None)) [] [] ∅ None.

Example long_signer_unreadable :
  match write_commit long_signer false None with
  | Ok bytes =>
      match read_commit bytes with
      | Err (EnvelopeDecode "txn_signature signer length exceeds maximum") => true
      | _ => false
      end
  | _ => false
  end = true.
Proof. vm_compute. reflexivity. Qed.

(** A language tag beside a list index is not normalized. *)
Example lang_with_index_not_normalized :
  make_meta (Some "EN") (Some 0) = Some (mkMeta (Some "EN") (Some 0))
  ∧ make_meta (Some "EN") None = Some (mkMeta (Some "en") None).
Proof. split_and!; vm_compute; reflexivity. Qed.
