(* ===== verification/Ordering.v ===== *)
(** * Comparison functions

    [Ordering], [then_with] and the orders the standard library derives, with
    what the clients of a comparison need of it: it reverses when its
    arguments are exchanged, and it is transitive, here on the elements that
    satisfy a predicate, since a comparison of floating-point numbers is not
    transitive on all of them.  [sort_unstable_by] and [partition_point] are
    the two algorithms that rely on it. *)

From S2P Require Import Prelude.

(** [Ordering::then_with]. *)
Definition then_with (c : comparison) (d : comparison) : comparison :=
  match c with Eq => d | _ => c end.

(** [!= Ordering::Greater]. *)
Definition is_le (c : comparison) : bool := match c with Gt => false | _ => true end.

Definition bool_cmp (a b : bool) : comparison :=
  match a, b with
  | false, true => Lt
  | true, false => Gt
  | _, _ => Eq
  end.

Definition option_cmp {A} (cmp : A → A → comparison) (a b : option A) : comparison :=
  match a, b with
  | None, None => Eq
  | None, Some _ => Lt
  | Some _, None => Gt
  | Some a, Some b => cmp a b
  end.

(** The order of slices: the first difference, then the length. *)
Fixpoint slice_cmp {A} (cmp : A → A → comparison) (a b : list A) : comparison :=
  match a, b with
  | [], [] => Eq
  | [], _ :: _ => Lt
  | _ :: _, [] => Gt
  | x :: a, y :: b => then_with (cmp x y) (slice_cmp cmp a b)
  end.

(** The order of [str]: bytewise. *)
Definition str_cmp (a b : string) : comparison :=
  slice_cmp Z.compare (str_bytes a) (str_bytes b).

(** ** Laws *)

Class CmpOrder {A} (P : A → Prop) (cmp : A → A → comparison) := {
  cmp_flip : ∀ x y, cmp y x = CompOpp (cmp x y);
  cmp_trans : ∀ x y z, P x → P y → P z →
    is_le (cmp x y) = true → is_le (cmp y z) = true → is_le (cmp x z) = true;
}.

Section laws.
Context {A : Type} {P : A → Prop} {cmp : A → A → comparison} `{!CmpOrder P cmp}.

Lemma cmp_refl x : cmp x x = Eq.
Proof. pose proof (cmp_flip (P:=P) x x) as H. by destruct (cmp x x). Qed.

Lemma cmp_eq_sym x y : cmp x y = Eq → cmp y x = Eq.
Proof. intros H. by rewrite (cmp_flip (P:=P)), H. Qed.

Lemma cmp_total x y : is_le (cmp x y) = true ∨ is_le (cmp y x) = true.
Proof. rewrite (cmp_flip (P:=P) x y). destruct (cmp x y); auto. Qed.

(** Elements that compare equal compare alike with all others. *)
Lemma cmp_eq_subst x y z : P x → P y → P z → cmp x y = Eq → cmp x z = cmp y z.
Proof.
  intros Px Py Pz Hxy. pose proof (cmp_eq_sym _ _ Hxy) as Hyx.
  pose proof (cmp_trans x y z Px Py Pz) as H1. pose proof (cmp_trans y x z Py Px Pz) as H2.
  pose proof (cmp_trans z x y Pz Px Py) as H3. pose proof (cmp_trans z y x Pz Py Px) as H4.
  rewrite (cmp_flip (P:=P) y z) in H3, H4. rewrite (cmp_flip (P:=P) x z) in H3, H4.
  rewrite Hxy, Hyx in *. destruct (cmp x z), (cmp y z); simpl in *; auto;
    exfalso; naive_solver.
Qed.

Lemma cmp_eq_subst_r x y z : P x → P y → P z → cmp y z = Eq → cmp x y = cmp x z.
Proof.
  intros Px Py Pz Hyz. rewrite (cmp_flip (P:=P) y x), (cmp_flip (P:=P) z x).
  by rewrite (cmp_eq_subst y z x).
Qed.

Lemma cmp_eq_trans x y z : P x → P y → P z → cmp x y = Eq → cmp y z = Eq → cmp x z = Eq.
Proof. intros ??? Hxy. by rewrite (cmp_eq_subst x y z). Qed.
End laws.

Section combinators.
Context {A B : Type}.

#[export] Instance cmp_then_order (P : A → Prop) c d
  `{!CmpOrder P c, !CmpOrder P d} : CmpOrder P (λ x y, then_with (c x y) (d x y)).
Proof.
  constructor.
  - intros x y. rewrite (cmp_flip (P:=P) (cmp:=c) x y), (cmp_flip (P:=P) (cmp:=d) x y).
    by destruct (c x y).
  - intros x y z Px Py Pz Hxy Hyz.
    assert (is_le (c x y) = true) as H1 by (by destruct (c x y)).
    assert (is_le (c y z) = true) as H2 by (by destruct (c y z)).
    pose proof (cmp_trans x y z Px Py Pz H1 H2) as H3.
    destruct (c x z) eqn:E; [|done|done]. simpl.
    assert (c x y = Eq) as Exy.
    { pose proof (cmp_trans y z x Py Pz Px H2) as H.
      rewrite (cmp_flip (P:=P) x z), (cmp_flip (P:=P) x y), E in H.
      destruct (c x y); simpl in *; naive_solver. }
    assert (c y z = Eq) as Eyz.
    { rewrite <- (cmp_eq_subst (P:=P) x y z); done. }
    rewrite Exy in Hxy. rewrite Eyz in Hyz. by apply (cmp_trans x y z).
Qed.

Lemma cmp_on_order (Q : B → Prop) (P : A → Prop) (f : A → B) c :
  CmpOrder Q c → (∀ x, P x → Q (f x)) → CmpOrder P (λ x y, c (f x) (f y)).
Proof.
  intros Hc Hf. constructor.
  - intros x y. apply cmp_flip.
  - intros x y z Px Py Pz. apply cmp_trans; auto.
Qed.

#[export] Instance option_cmp_order (P : A → Prop) c `{!CmpOrder P c} :
  CmpOrder (λ o, ∀ x, o = Some x → P x) (option_cmp c).
Proof.
  constructor.
  - intros [x|] [y|]; simpl; [apply cmp_flip|done..].
  - intros [x|] [y|] [z|]; simpl; try done. intros Px Py Pz. apply cmp_trans; auto.
Qed.

#[export] Instance slice_cmp_order (P : A → Prop) c `{!CmpOrder P c} :
  CmpOrder (Forall P) (slice_cmp c).
Proof.
  constructor.
  - intros x. induction x as [|a x IH]; intros [|b y]; simpl; try done.
    rewrite (cmp_flip (P:=P) a b), IH. by destruct (c a b).
  - intros x. induction x as [|a x IH]; intros [|b y] [|e z]; simpl; try done.
    intros [Pa Px]%Forall_cons [Pb Py]%Forall_cons [Pe Pz]%Forall_cons Hxy Hyz.
    assert (is_le (c a b) = true) as H1 by (by destruct (c a b)).
    assert (is_le (c b e) = true) as H2 by (by destruct (c b e)).
    pose proof (cmp_trans a b e Pa Pb Pe H1 H2) as H3.
    destruct (c a e) eqn:E; [|done|done]. simpl.
    assert (c a b = Eq) as Eab.
    { pose proof (cmp_trans b e a Pb Pe Pa H2) as H.
      rewrite (cmp_flip (P:=P) a e), (cmp_flip (P:=P) a b), E in H.
      destruct (c a b); simpl in *; naive_solver. }
    assert (c b e = Eq) as Ebe.
    { rewrite <- (cmp_eq_subst (P:=P) a b e); done. }
    rewrite Eab in Hxy. rewrite Ebe in Hyz. by apply (IH y z).
Qed.
End combinators.

(** An order by a class and then within it. *)
Lemma class_order {A} (P : A → Prop) (c : A → Z) (cmp : A → A → comparison) :
  (∀ x y, cmp y x = CompOpp (cmp x y)) →
  (∀ x y, P x → P y → c x ≠ c y → cmp x y = Z.compare (c x) (c y)) →
  (∀ x y z, P x → P y → P z → c x = c y → c y = c z →
    is_le (cmp x y) = true → is_le (cmp y z) = true → is_le (cmp x z) = true) →
  CmpOrder P cmp.
Proof.
  intros Hflip Hclass Hin. constructor; [done|]. intros x y z Px Py Pz Hxy Hyz.
  destruct (decide (c x = c y)) as [Exy|Exy], (decide (c y = c z)) as [Eyz|Eyz];
    [by apply (Hin x y z)| | |].
  - rewrite Hclass in Hyz |- * by congruence. by rewrite Exy.
  - rewrite Hclass in Hxy |- * by congruence. by rewrite <- Eyz.
  - rewrite Hclass in Hxy, Hyz by done.
    destruct (Z.compare_spec (c x) (c y)), (Z.compare_spec (c y) (c z)); try done.
    rewrite Hclass by (done || lia). by destruct (Z.compare_spec (c x) (c z)); [|done|lia].
Qed.

#[export] Instance Z_compare_order P : CmpOrder P Z.compare.
Proof.
  constructor.
  - intros x y. apply Z.compare_antisym.
  - intros x y z _ _ _. destruct (Z.compare_spec x y), (Z.compare_spec y z), (Z.compare_spec x z);
      simpl; try done; lia.
Qed.

#[export] Instance bool_cmp_order P : CmpOrder P bool_cmp.
Proof. constructor; [by intros [] []|by intros [] [] []]. Qed.

#[export] Instance str_cmp_order P : CmpOrder P str_cmp.
Proof.
  unfold str_cmp. eapply (cmp_on_order (Forall (λ _, True)) P str_bytes); [apply _|].
  intros x _. by apply Forall_true.
Qed.

Lemma slice_cmp_eq {A} (c : A → A → comparison) a b :
  (∀ x y, c x y = Eq → x = y) → slice_cmp c a b = Eq → a = b.
Proof.
  intros Hc. revert b. induction a as [|x a IH]; intros [|y b]; simpl; try done.
  destruct (c x y) eqn:E; simpl; try done. intros ?. f_equal; auto.
Qed.

(** ** Sorting

    [sort_unstable_by] and its parallel version ([parallel]) permute a slice
    into the order of a comparison; where elements lie that compare equal is
    not specified, nor is the result when the comparison is not an order. *)
Definition cmp_le {A} (cmp : A → A → comparison) : relation A := λ x y, is_le (cmp x y) = true.
#[export] Instance cmp_le_dec {A} (cmp : A → A → comparison) : RelDecision (cmp_le cmp).
Proof. intros x y. unfold cmp_le. apply _. Defined.

Definition sorted_by {A} (cmp : A → A → comparison) : list A → Prop :=
  StronglySorted (cmp_le cmp).

Class Sorting := {
  sort_unstable_by : ∀ {A}, bool → (A → A → comparison) → list A → list A;
  sort_perm : ∀ {A} parallel cmp (l : list A), sort_unstable_by parallel cmp l ≡ₚ l;
  sort_sorted : ∀ {A} parallel P cmp (l : list A),
    CmpOrder P cmp → Forall P l → sorted_by cmp (sort_unstable_by parallel cmp l);
}.

(** Insertion sort is such a sort. *)
Section insertion.
Context {A : Type} (P : A → Prop) (cmp : A → A → comparison) `{!CmpOrder P cmp}.

Lemma insert_by_sorted x l :
  P x → Forall P l → sorted_by cmp l → sorted_by cmp (insert_by (cmp_le cmp) x l).
Proof.
  intros Px HP. unfold sorted_by. induction 1 as [|y l Hl IH Hy]; simpl; [repeat constructor|].
  apply Forall_cons in HP as [Py HP]. case_decide as Hxy.
  - constructor; [by constructor|]. constructor; [done|].
    rewrite Forall_forall in Hy, HP |- *. intros z Hz.
    apply (cmp_trans x y z); [done|done|by apply HP|done|by apply Hy].
  - constructor; [auto|]. rewrite insert_by_Permutation. constructor; [|done].
    destruct (cmp_total (P:=P) (cmp:=cmp) x y); [done|]. done.
Qed.

Lemma sort_by_sorted l : Forall P l → sorted_by cmp (sort_by (cmp_le cmp) l).
Proof.
  induction 1 as [|x l Px HP IH]; simpl; [constructor|]. apply insert_by_sorted; [done| |done].
  by rewrite sort_by_Permutation.
Qed.
End insertion.

#[export] Instance insertion_sorting : Sorting := {
  sort_unstable_by A _ cmp := sort_by (cmp_le cmp);
  sort_perm A _ cmp := sort_by_Permutation _;
  sort_sorted A _ P cmp l H := sort_by_sorted P cmp l;
}.

(** ** Binary search

    [slice::partition_point], by the loop of [binary_search_by]: [base] and
    [size] delimit where the first element that fails [pred] may be. *)
Section partition_point.
Context {A : Type} (pred : A → bool) (l : list A).

Definition pred_at (i : nat) : bool := match l !! i with Some x => pred x | None => false end.

Fixpoint search_loop (fuel base size : nat) : nat :=
  match fuel with
  | O => base
  | S fuel =>
      if (size <=? 1)%nat then base
      else
        let half := (size / 2)%nat in
        let mid := (base + half)%nat in
        search_loop fuel (if pred_at mid then mid else base) (size - half)
  end.

Definition partition_point : nat :=
  match l with
  | [] => 0%nat
  | _ => let base := search_loop (length l) 0 (length l) in
         if pred_at base then S base else base
  end.

Lemma search_loop_spec n fuel base size :
  (∀ i, pred_at i = true ↔ (i < n)%nat) →
  (1 <= size <= fuel)%nat → (base = 0 ∨ base < n)%nat → (n <= base + size)%nat →
  let r := search_loop fuel base size in (r = 0 ∨ r < n)%nat ∧ (n <= r + 1)%nat.
Proof.
  intros Hn. revert base size. induction fuel as [|fuel IH]; intros base size Hs Hb Hr;
    cbn [search_loop]; [lia|].
  destruct (Nat.leb_spec size 1); [lia|].
  pose proof (Nat.div_lt size 2 ltac:(lia) ltac:(lia)).
  pose proof (Nat.div_str_pos size 2 ltac:(lia)).
  pose proof (Nat.Div0.mul_div_le size 2).
  cbn zeta. generalize dependent (size / 2)%nat. intros half **.
  apply IH; [lia|..]; specialize (Hn (base + half)%nat); destruct (pred_at (base + half)%nat).
  - right. by apply Hn.
  - done.
  - lia.
  - assert (¬ (base + half < n)%nat) by (intros ?%Hn; done). lia.
Qed.

(** On a slice whose elements that satisfy [pred] come first, it counts them. *)
Lemma partition_point_spec l1 l2 :
  l = l1 ++ l2 → Forall (λ x, pred x = true) l1 → Forall (λ x, pred x = false) l2 →
  partition_point = length l1.
Proof.
  intros Hl H1 H2.
  assert (∀ i, pred_at i = true ↔ (i < length l1)%nat) as Hn.
  { intros i. unfold pred_at. rewrite Hl. destruct (decide (i < length l1)%nat) as [Hi|Hi].
    - rewrite lookup_app_l by done. destruct (lookup_lt_is_Some_2 _ _ Hi) as [x Hx]. rewrite Hx.
      split; [done|]. intros _. by eapply Forall_lookup_1 in H1.
    - rewrite lookup_app_r by lia. destruct (l2 !! _) as [x|] eqn:Hx; [|split; [done|lia]].
      eapply Forall_lookup_1 in H2; [|done]. rewrite H2. split; [done|lia]. }
  unfold partition_point. destruct l as [|x l'] eqn:El.
  { symmetry in Hl. apply app_nil in Hl as [-> _]. done. }
  pose proof (search_loop_spec (length l1) (length (x :: l')) 0 (length (x :: l')) Hn) as H.
  cbn zeta in H. destruct H as [Hr1 Hr2];
    [simpl; lia|lia|rewrite Hl, length_app; lia|].
  set (r := search_loop _ _ _) in *. pose proof (Hn r) as Hr.
  destruct (pred_at r); [pose proof (proj1 Hr eq_refl)|
    assert (¬ (r < length l1)%nat) by (intros ?%Hr; done)]; lia.
Qed.
End partition_point.
