(* ===== verification/FlakeOrder.v ===== *)
(** * The orders of values and flakes
    ([fluree-db-core/src/value.rs], [sid.rs], [flake.rs], [comparator.rs])

    [FlakeValue::cmp] compares numbers by their mathematical value, whatever
    their type, and values of other types by a discriminant and then within
    the type.  The four comparators of the index order flakes
    lexicographically by their components.

    A double is its 64-bit pattern, and [f64_value] the number it stands for.
    Arbitrary-precision numbers and the temporal types are used through
    [ValueOrd]: what a [BigInt] and a [BigDecimal] denote, the documented
    conversion of a double to a [BigDecimal], and the orders of the temporal
    types with their laws. *)

From Stdlib Require Import QArith_base.
From S2P Require Import Prelude Text CommitWire CommitOp Ordering.
#[local] Open Scope Z_scope.

#[export] Instance Sid_eq_dec : EqDecision Sid.
Proof. solve_decision. Defined.
#[export] Instance FlakeMeta_eq_dec : EqDecision FlakeMeta.
Proof. solve_decision. Defined.
#[export] Instance LexKind_eq_dec : EqDecision LexKind.
Proof. solve_decision. Defined.

(** ** Doubles *)

Inductive F64 := Finite (q : Q) | Infinite (negative : bool) | NaN.

(** IEEE 754 binary64: sign, eleven bits of exponent, 52 of fraction. *)
Definition f64_scaled (m e : Z) : Q :=
  if 0 <=? e then inject_Z (m * 2 ^ e) else Qmake m (Z.to_pos (2 ^ (- e))).
Definition f64_value (bits : Z) : F64 :=
  let negative := Z.testbit bits 63 in
  let exponent := Z.land (Z.shiftr bits 52) 2047 in
  let fraction := Z.land bits (Z.ones 52) in
  let sign := if negative then -1 else 1 in
  if exponent =? 2047 then (if fraction =? 0 then Infinite negative else NaN)
  else if exponent =? 0 then Finite (f64_scaled (sign * fraction) (-1074))
  else Finite (f64_scaled (sign * (2 ^ 52 + fraction)) (exponent - 1075)).

#[global] Arguments f64_value : simpl never.

(** [f64::partial_cmp]. *)
Definition f64_values_cmp (a b : F64) : option comparison :=
  match a, b with
  | NaN, _ | _, NaN => None
  | Finite p, Finite q => Some (Qcompare p q)
  | Infinite n, Infinite m => Some (bool_cmp m n)
  | Infinite n, Finite _ => Some (if n then Lt else Gt)
  | Finite _, Infinite n => Some (if n then Gt else Lt)
  end.
Definition f64_partial_cmp (a b : Z) : option comparison :=
  f64_values_cmp (f64_value a) (f64_value b).

(** [a.partial_cmp(b)], or the order of the bits when it has no answer. *)
Definition f64_cmp (a b : Z) : comparison :=
  match f64_partial_cmp a b with Some c => c | None => Z.compare a b end.

Lemma is_le_Qcompare p q : is_le (Qcompare p q) = true ↔ Qle p q.
Proof. rewrite Qle_alt. by destruct (Qcompare p q). Qed.

(** ** Values *)

Class ValueOrd `{CoreValues} := {
  big_int : lexical KBigInt → Z;
  big_decimal : lexical KDecimal → Q;
  (** [BigDecimal::try_from(f64)]: the exact value, or an error when there is none. *)
  decimal_of_f64 : Z → option Q;
  decimal_of_f64_spec : ∀ bits,
    match f64_value bits with
    | Finite q => ∃ p, decimal_of_f64 bits = Some p ∧ Qeq p q
    | _ => decimal_of_f64 bits = None
    end;
  (** [Ord] of the temporal, calendar and duration types. *)
  lex_cmp : ∀ k, lexical k → lexical k → comparison;
  lex_cmp_order : ∀ k, CmpOrder (λ _, True) (lex_cmp k);
  (** What [Flake::size_bytes] counts for them. *)
  lex_size : ∀ k, lexical k → Z;
}.
#[export] Existing Instance lex_cmp_order.

Section values.
Context `{VO : ValueOrd}.

Definition type_discriminant (v : FlakeValue) : Z :=
  match v with
  | VNull => 0
  | VRef _ => 1
  | VBoolean _ => 2
  | VLong _ => 3
  | VDouble _ => 5
  | VLexical k _ =>
      match k with
      | KBigInt => 4
      | KDecimal => 6
      | KDate => 7
      | KTime => 8
      | KDateTime => 9
      | KGYear => 10
      | KGYearMonth => 11
      | KGMonth => 12
      | KGDay => 13
      | KGMonthDay => 14
      | KYearMonthDuration => 15
      | KDayTimeDuration => 16
      | KDuration => 17
      end
  | VString _ => 18
  | VJson _ => 19
  | VGeoPoint _ => 20
  | VVector _ => 21
  end.

(** The four numeric variants; [as_num] is [is_numeric] with the payload. *)
Inductive Num := NLong (z : Z) | NBigInt (z : Z) | NDouble (bits : Z) | NDecimal (q : Q).

Definition as_num (v : FlakeValue) : option Num :=
  match v with
  | VLong z => Some (NLong z)
  | VDouble bits => Some (NDouble bits)
  | VLexical k x =>
      match k return lexical k → option Num with
      | KBigInt => λ x, Some (NBigInt (big_int x))
      | KDecimal => λ x, Some (NDecimal (big_decimal x))
      | _ => λ _, None
      end x
  | _ => None
  end.

(** [i64::abs] of a release build: the least [i64] is its own. *)
Definition i64_abs (v : Z) : Z := if v =? - 2 ^ 63 then v else Z.abs v.
Definition i64_fits_f64 (v : Z) : bool := i64_abs v <=? 2 ^ 53.

Definition long_double_cmp (a b : Z) : option comparison :=
  if i64_fits_f64 a then f64_values_cmp (Finite (inject_Z a)) (f64_value b)
  else b_dec ← decimal_of_f64 b; Some (Qcompare (inject_Z a) b_dec).

(** [FlakeValue::numeric_cmp] on two numeric values; an [i64] of at most 53
    bits, and the least [i64], converts to the double of the same value. *)
Definition numeric_cmp (a b : Num) : option comparison :=
  match a, b with
  | NLong a, NLong b => Some (Z.compare a b)
  | NDouble a, NDouble b => Some (f64_cmp a b)
  | NBigInt a, NBigInt b => Some (Z.compare a b)
  | NDecimal a, NDecimal b => Some (Qcompare a b)
  | NLong a, NDouble b => long_double_cmp a b
  | NDouble a, NLong b => CompOpp <$> long_double_cmp b a
  | NLong a, NBigInt b => Some (Z.compare a b)
  | NBigInt a, NLong b => Some (Z.compare a b)
  | NLong a, NDecimal b => Some (Qcompare (inject_Z a) b)
  | NDecimal a, NLong b => Some (Qcompare a (inject_Z b))
  | NDouble a, NBigInt b => a_dec ← decimal_of_f64 a; Some (Qcompare a_dec (inject_Z b))
  | NBigInt a, NDouble b =>
      CompOpp <$> (b_dec ← decimal_of_f64 b; Some (Qcompare b_dec (inject_Z a)))
  | NDouble a, NDecimal b => a_dec ← decimal_of_f64 a; Some (Qcompare a_dec b)
  | NDecimal a, NDouble b => CompOpp <$> (b_dec ← decimal_of_f64 b; Some (Qcompare b_dec a))
  | NBigInt a, NDecimal b => Some (Qcompare (inject_Z a) b)
  | NDecimal a, NBigInt b => Some (Qcompare a (inject_Z b))
  end.

(** Vectors: the empty one is the greatest. *)
Definition vector_cmp (a b : list Z) : comparison :=
  match a, b with
  | [], [] => Eq
  | [], _ => Gt
  | _, [] => Lt
  | _, _ => slice_cmp f64_cmp a b
  end.

Definition sid_cmp (a b : Sid) : comparison :=
  then_with (Z.compare (namespace_code a) (namespace_code b)) (str_cmp (sid_name a) (sid_name b)).

(** Values of one temporal kind. *)
Definition lexical_cmp k (x : lexical k) k' (y : lexical k') : comparison :=
  match decide (k = k') with
  | left e => lex_cmp k' (eq_rect k lexical x k' e) y
  | right _ => Eq
  end.

Definition same_type_cmp (a b : FlakeValue) : comparison :=
  match as_num a, as_num b with
  | Some m, Some n => default Eq (numeric_cmp m n)
  | _, _ =>
      match a, b with
      | VNull, VNull => Eq
      | VRef a, VRef b => sid_cmp a b
      | VBoolean a, VBoolean b => bool_cmp a b
      | VLexical k x, VLexical k' y => lexical_cmp k x k' y
      | VString a, VString b => str_cmp a b
      | VJson a, VJson b => str_cmp a b
      | VVector a, VVector b => vector_cmp a b
      | VGeoPoint a, VGeoPoint b => Z.compare a b
      | _, _ => Eq
      end
  end.

(** [FlakeValue::cmp].  Temporal values of different types, and durations,
    have no common instant ([temporal_cmp] answers [None]) and are ordered by
    discriminant like any other two types. *)
Definition value_cmp (a b : FlakeValue) : comparison :=
  let by_type := Z.compare (type_discriminant a) (type_discriminant b) in
  if type_discriminant a =? type_discriminant b then same_type_cmp a b
  else
    match as_num a, as_num b with
    | Some m, Some n => match numeric_cmp m n with Some c => c | None => by_type end
    | _, _ => by_type
    end.

(** ** The order of values *)

Definition num_value (n : Num) : option Q :=
  match n with
  | NLong z | NBigInt z => Some (inject_Z z)
  | NDecimal q => Some q
  | NDouble bits => match f64_value bits with Finite q => Some q | _ => None end
  end.

(** Values that the order orders: doubles are finite, vectors hold no NaN. *)
Definition value_ordered (v : FlakeValue) : Prop :=
  match v with
  | VVector l => Forall (λ bits, f64_value bits ≠ NaN) l
  | _ => ∀ n, as_num v = Some n → is_Some (num_value n)
  end.

Lemma inject_Z_compare a b : Qcompare (inject_Z a) (inject_Z b) = Z.compare a b.
Proof. unfold Qcompare; simpl. by rewrite !Z.mul_1_r. Qed.

Lemma f64_values_cmp_flip a b : f64_values_cmp b a = CompOpp <$> f64_values_cmp a b.
Proof.
  destruct a as [p|n|], b as [q|m|]; simpl; try done; [by rewrite Qcompare_antisym| | |];
    by repeat match goal with b : bool |- _ => destruct b end.
Qed.

Lemma f64_cmp_flip a b : f64_cmp b a = CompOpp (f64_cmp a b).
Proof.
  unfold f64_cmp, f64_partial_cmp. rewrite f64_values_cmp_flip.
  destruct (f64_values_cmp _ _); simpl; [done|]. apply Z.compare_antisym.
Qed.

#[export] Instance f64_cmp_order : CmpOrder (λ bits, f64_value bits ≠ NaN) f64_cmp.
Proof.
  constructor; [intros x y; apply f64_cmp_flip|].
  intros x y z. unfold f64_cmp, f64_partial_cmp.
  destruct (f64_value x) as [p|[]|], (f64_value y) as [q|[]|], (f64_value z) as [r|[]|];
    simpl; try done.
  intros _ _ _. rewrite !is_le_Qcompare. eauto using Qle_trans.
Qed.

Lemma decimal_of_f64_finite bits q :
  num_value (NDouble bits) = Some q → ∃ p, decimal_of_f64 bits = Some p ∧ Qeq p q.
Proof.
  cbn [num_value]. pose proof (decimal_of_f64_spec bits) as Hd.
  destruct (f64_value bits); try discriminate. intros Hq. apply (inj Some) in Hq as ->. exact Hd.
Qed.

Lemma long_double_cmp_value a b q :
  num_value (NDouble b) = Some q → long_double_cmp a b = Some (Qcompare (inject_Z a) q).
Proof.
  intros Hq. unfold long_double_cmp. destruct (i64_fits_f64 a).
  - cbn [num_value] in Hq. destruct (f64_value b); try discriminate. by apply (inj Some) in Hq as ->.
  - apply decimal_of_f64_finite in Hq as (p & -> & Hp). cbn. by rewrite Hp.
Qed.

(** The conversion to [BigDecimal] followed by a comparison. *)
Lemma decimal_cmp_value bits q r :
  num_value (NDouble bits) = Some q →
  (d ← decimal_of_f64 bits; Some (Qcompare d r)) = Some (Qcompare q r).
Proof. intros (p & -> & Hp)%decimal_of_f64_finite. cbn. by rewrite Hp. Qed.

Lemma f64_cmp_value a b p q :
  num_value (NDouble a) = Some p → num_value (NDouble b) = Some q → f64_cmp a b = Qcompare p q.
Proof.
  cbn [num_value]. unfold f64_cmp, f64_partial_cmp.
  destruct (f64_value a), (f64_value b); try discriminate. by intros [= ->] [= ->].
Qed.

(** Numbers are compared by value, across types. *)
Lemma numeric_cmp_value a b p q :
  num_value a = Some p → num_value b = Some q → numeric_cmp a b = Some (Qcompare p q).
Proof.
  intros Hp Hq. destruct a as [a|a|a|a], b as [b|b|b|b]; cbn [numeric_cmp];
    rewrite ?(long_double_cmp_value _ _ _ Hp), ?(long_double_cmp_value _ _ _ Hq),
      ?(decimal_cmp_value _ _ _ Hp), ?(decimal_cmp_value _ _ _ Hq), ?(f64_cmp_value _ _ _ _ Hp Hq);
    cbn [num_value] in Hp, Hq; simplify_eq; cbn;
    rewrite ?inject_Z_compare, ?Qcompare_antisym; reflexivity.
Qed.

Lemma CompOpp_fmap_invol (o : option comparison) : CompOpp <$> (CompOpp <$> o) = o.
Proof. by destruct o as [[]|]. Qed.

Lemma numeric_cmp_flip a b : numeric_cmp b a = CompOpp <$> numeric_cmp a b.
Proof.
  assert (∀ x y, Some (Z.compare y x) = CompOpp <$> Some (Z.compare x y)) as HZ
    by (intros; cbn; f_equal; apply Z.compare_antisym).
  assert (∀ x y, Some (Qcompare y x) = CompOpp <$> Some (Qcompare x y)) as HQ
    by (intros; cbn; f_equal; symmetry; apply Qcompare_antisym).
  destruct a as [a|a|a|a], b as [b|b|b|b]; cbn [numeric_cmp];
    first [exact (HZ _ _) | exact (HQ _ _) | reflexivity
          | symmetry; apply CompOpp_fmap_invol | cbn; f_equal; apply f64_cmp_flip].
Qed.

#[export] Instance sid_cmp_order P : CmpOrder P sid_cmp.
Proof.
  assert (CmpOrder P (λ a b, Z.compare (namespace_code a) (namespace_code b)))
    by (by apply (cmp_on_order (λ _, True)); [apply _|]).
  assert (CmpOrder P (λ a b, str_cmp (sid_name a) (sid_name b)))
    by (by apply (cmp_on_order (λ _, True)); [apply _|]).
  unfold sid_cmp. apply cmp_then_order; apply _.
Qed.

#[export] Instance vector_cmp_order :
  CmpOrder (Forall (λ bits, f64_value bits ≠ NaN)) vector_cmp.
Proof.
  constructor.
  - intros [|x a] [|y b]; try done.
    apply (@cmp_flip _ _ _ (slice_cmp_order _ f64_cmp) (x :: a) (y :: b)).
  - intros [|x a] [|y b] [|z c]; try done.
    apply (@cmp_trans _ _ _ (slice_cmp_order _ f64_cmp) (x :: a) (y :: b) (z :: c)).
Qed.

Lemma lexical_cmp_same k x y : lexical_cmp k x k y = lex_cmp k x y.
Proof.
  unfold lexical_cmp. destruct (decide (k = k)) as [e|]; [|done].
  by rewrite (proof_irrel e eq_refl).
Qed.

(** The class of a value: numbers are one class. *)
Definition value_class (v : FlakeValue) : Z :=
  match as_num v with Some _ => 3 | None => type_discriminant v end.

Lemma discriminant_range v :
  match as_num v with
  | Some _ => 3 <= type_discriminant v <= 6
  | None => type_discriminant v < 3 ∨ 6 < type_discriminant v
  end.
Proof. destruct v as [| | | |[]| | | | |]; simpl; lia. Qed.

Lemma discriminant_lexical k x v :
  as_num (VLexical k x) = None → type_discriminant (VLexical k x) = type_discriminant v →
  ∃ y, v = VLexical k y.
Proof. destruct v as [| | | |k' y| | | | |]; destruct k; try done; destruct k'; try done; eauto. Qed.

Lemma same_type_cmp_flip a b :
  type_discriminant a = type_discriminant b → same_type_cmp b a = CompOpp (same_type_cmp a b).
Proof.
  intros Hd. pose proof (discriminant_range a) as Ha. pose proof (discriminant_range b) as Hb.
  unfold same_type_cmp. destruct (as_num a) as [m|] eqn:Em, (as_num b) as [n|] eqn:En; try lia.
  { rewrite numeric_cmp_flip. by destruct (numeric_cmp m n). }
  destruct a as [| | | |k x| | | | |];
    [| | | |destruct (discriminant_lexical k x b Em Hd) as [y ->]; rewrite !lexical_cmp_same| | | | |];
    try (destruct b; try done); try apply (@cmp_flip _ _ _ vector_cmp_order);
    apply (cmp_flip (P := λ _, True)).
Qed.

Lemma value_cmp_flip a b : value_cmp b a = CompOpp (value_cmp a b).
Proof.
  unfold value_cmp. rewrite (Z.eqb_sym (type_discriminant b)).
  destruct (Z.eqb_spec (type_discriminant a) (type_discriminant b)) as [E|E];
    [by apply same_type_cmp_flip|].
  pose proof (Z.compare_antisym (type_discriminant a) (type_discriminant b)) as Hz.
  destruct (as_num a) as [m|], (as_num b) as [n|]; try done.
  rewrite numeric_cmp_flip. by destruct (numeric_cmp m n).
Qed.

(** Two numbers compare as their values, whatever their types. *)
Lemma value_cmp_numbers a b m n p q :
  as_num a = Some m → as_num b = Some n → num_value m = Some p → num_value n = Some q →
  value_cmp a b = Qcompare p q.
Proof.
  intros Ha Hb Hp Hq. unfold value_cmp, same_type_cmp. rewrite Ha, Hb, (numeric_cmp_value _ _ _ _ Hp Hq).
  by destruct (_ =? _).
Qed.

Lemma value_ordered_num v n : value_ordered v → as_num v = Some n → is_Some (num_value n).
Proof. destruct v; first [intros Hv; exact (Hv n) | intros _ [=]]. Qed.

Lemma value_cmp_class a b : value_class a ≠ value_class b →
  value_cmp a b = Z.compare (value_class a) (value_class b).
Proof.
  unfold value_class, value_cmp. pose proof (discriminant_range a) as Ha.
  pose proof (discriminant_range b) as Hb. intros Hc.
  destruct (Z.eqb_spec (type_discriminant a) (type_discriminant b)) as [E|E].
  { destruct (as_num a), (as_num b); lia || congruence. }
  destruct (as_num a), (as_num b); try done;
    destruct (Z.compare_spec (type_discriminant a) (type_discriminant b)); symmetry;
    first [apply Z.compare_lt_iff | apply Z.compare_gt_iff | idtac]; lia.
Qed.

Lemma value_cmp_within a b c :
  value_ordered a → value_ordered b → value_ordered c →
  value_class a = value_class b → value_class b = value_class c →
  is_le (value_cmp a b) = true → is_le (value_cmp b c) = true → is_le (value_cmp a c) = true.
Proof.
  intros Pa Pb Pc. unfold value_class. pose proof (discriminant_range a) as Ha.
  pose proof (discriminant_range b) as Hb. pose proof (discriminant_range c) as Hc.
  destruct (as_num a) as [l|] eqn:El, (as_num b) as [m|] eqn:Em, (as_num c) as [n|] eqn:En;
    try (intros; lia).
  - intros _ _. destruct (value_ordered_num _ _ Pa El) as [p Hp].
    destruct (value_ordered_num _ _ Pb Em) as [q Hq], (value_ordered_num _ _ Pc En) as [r Hr].
    erewrite !value_cmp_numbers by done. rewrite !is_le_Qcompare. apply Qle_trans.
  - intros Eab Ebc. unfold value_cmp, same_type_cmp. rewrite Eab, Ebc, !Z.eqb_refl, ?El, ?Em, ?En.
    destruct a as [| | | |k x| | | | |];
      [| | | |destruct (discriminant_lexical k x b El Eab) as [y ->];
              destruct (discriminant_lexical k y c Em Ebc) as [z ->];
              rewrite !lexical_cmp_same; by apply (cmp_trans (P := λ _, True))| | | | |];
      destruct b as [| | | |k v| | | | |]; try done; try (by destruct k); destruct c; try done;
      first [by apply (cmp_trans (P := λ _, True)) | by apply (@cmp_trans _ _ _ vector_cmp_order)].
Qed.

#[export] Instance value_cmp_order : CmpOrder value_ordered value_cmp.
Proof.
  apply (class_order _ value_class); [apply value_cmp_flip| |apply value_cmp_within].
  intros a b _ _. apply value_cmp_class.
Qed.
End values.
