(* ===== verification/FlakeTheorems.v ===== *)
(** * Index comparators and bounds
    ([fluree-db-core/src/comparator.rs], [flake.rs], [sid.rs], [namespaces.rs])

    The four orders of the index, the identity of a fact, the sentinel flakes
    that bound a scan, and the tests on predicates the novelty overlay uses. *)

From Stdlib Require Import QArith_base.
From S2P Require Import Prelude Text Vocab CommitWire CommitOp Ordering FlakeOrder.
#[local] Open Scope Z_scope.

Infix ">>then" := then_with (at level 60, right associativity) : fluree_scope.

Inductive IndexType := Spot | Psot | Post | Opst.

(** [IndexType::for_query]. *)
Definition for_query (s_bound p_bound o_bound o_is_ref : bool) : IndexType :=
  if s_bound then Spot
  else if p_bound && negb o_bound then Psot
  else if p_bound && o_bound then Post
  else if o_bound && o_is_ref then Opst
  else Spot.

(** [FlakeMeta::cmp]: the list index, then the language. *)
Definition flake_meta_cmp (a b : FlakeMeta) : comparison :=
  option_cmp Z.compare (m_i a) (m_i b) >>then option_cmp str_cmp (m_lang a) (m_lang b).

Section comparators.
Context `{VO : ValueOrd}.

Definition cmp_object (f1 f2 : Flake) : comparison :=
  value_cmp (f_o f1) (f_o f2) >>then sid_cmp (f_dt f1) (f_dt f2).

Definition cmp_meta (f1 f2 : Flake) : comparison := option_cmp flake_meta_cmp (f_m f1) (f_m f2).

Definition cmp_s (f1 f2 : Flake) : comparison := sid_cmp (f_s f1) (f_s f2).
Definition cmp_p (f1 f2 : Flake) : comparison := sid_cmp (f_p f1) (f_p f2).
Definition cmp_t (f1 f2 : Flake) : comparison := Z.compare (f_t f1) (f_t f2).
Definition cmp_op (f1 f2 : Flake) : comparison := bool_cmp (f_op f1) (f_op f2).

Definition cmp_spot (f1 f2 : Flake) : comparison :=
  cmp_s f1 f2 >>then cmp_p f1 f2 >>then cmp_object f1 f2 >>then
  cmp_t f1 f2 >>then cmp_op f1 f2 >>then cmp_meta f1 f2.
Definition cmp_psot (f1 f2 : Flake) : comparison :=
  cmp_p f1 f2 >>then cmp_s f1 f2 >>then cmp_object f1 f2 >>then
  cmp_t f1 f2 >>then cmp_op f1 f2 >>then cmp_meta f1 f2.
Definition cmp_post (f1 f2 : Flake) : comparison :=
  cmp_p f1 f2 >>then cmp_object f1 f2 >>then cmp_s f1 f2 >>then
  cmp_t f1 f2 >>then cmp_op f1 f2 >>then cmp_meta f1 f2.
Definition cmp_opst (f1 f2 : Flake) : comparison :=
  cmp_object f1 f2 >>then cmp_p f1 f2 >>then cmp_s f1 f2 >>then
  cmp_t f1 f2 >>then cmp_op f1 f2 >>then cmp_meta f1 f2.

(** [IndexType::compare]. *)
Definition compare (index : IndexType) : Flake → Flake → comparison :=
  match index with
  | Spot => cmp_spot
  | Psot => cmp_psot
  | Post => cmp_post
  | Opst => cmp_opst
  end.

(** ** The identity of a fact: subject, predicate, object, datatype, metadata *)

Definition key_cmp (f1 f2 : Flake) : comparison :=
  cmp_s f1 f2 >>then cmp_p f1 f2 >>then cmp_object f1 f2 >>then cmp_meta f1 f2.

Definition same_identity (a b : Flake) : bool :=
  bool_decide (f_s a = f_s b) && bool_decide (f_p a = f_p b)
  && match cmp_object a b with Eq => true | _ => false end
  && match cmp_meta a b with Eq => true | _ => false end.

(** The order of the bulk load: identity, then time, then operation. *)
Definition identity_cmp (a b : Flake) : comparison :=
  cmp_s a b >>then cmp_p a b >>then cmp_object a b >>then cmp_meta a b >>then
  cmp_t a b >>then cmp_op a b.

(** ** Sizes *)

(** [Flake::size_bytes]. *)
Definition str_len (s : string) : Z := Z.of_nat (String.length s).
Definition object_size (o : FlakeValue) : Z :=
  match o with
  | VNull => 1
  | VBoolean _ => 1
  | VLong _ => 8
  | VDouble _ => 8
  | VLexical k x =>
      match k return lexical k → Z with
      | KBigInt => λ x, 16 + str_len (display KBigInt x)
      | KDecimal => λ x, 16 + str_len (display KDecimal x)
      | k => λ x, lex_size k x
      end x
  | VString s => 8 + str_len s
  | VJson s => 8 + str_len s
  | VRef sid => 8 + str_len (sid_name sid)
  | VVector v => 8 + Z.of_nat (length v) * 8
  | VGeoPoint _ => 8
  end.
Definition size_bytes (f : Flake) : Z :=
  let base := 16 + (8 + str_len (sid_name (f_s f))) + (8 + str_len (sid_name (f_p f)))
              + (8 + str_len (sid_name (f_dt f))) in
  let m_size := match f_m f with
                | None => 0
                | Some m => 8 + match m_lang m with None => 0 | Some l => str_len l end + 4
                end in
  base + object_size (f_o f) + m_size + 9.

(** ** Sentinels *)

Definition u16_max : Z := 65535.
Definition i64_min : Z := - 2 ^ 63.
Definition i64_max : Z := 2 ^ 63 - 1.
Definition i32_min : Z := - 2 ^ 31.
Definition i32_max : Z := 2 ^ 31 - 1.

Definition sid_min : Sid := mkSid 0 "".
Definition sid_max : Sid := mkSid u16_max "".
Definition value_min : FlakeValue := VNull.
Definition value_max : FlakeValue := VVector [].
Definition meta_min : FlakeMeta := mkMeta None (Some i32_min).
Definition meta_max : FlakeMeta := mkMeta None (Some i32_max).

Definition min_flake (s p : Sid) (o : FlakeValue) : Flake :=
  mkFlake None s p o sid_min i64_min false (Some meta_min).
Definition max_flake (s p : Sid) (o : FlakeValue) : Flake :=
  mkFlake None s p o sid_max i64_max true (Some meta_max).

Definition min_for_subject (s : Sid) : Flake := min_flake s sid_min value_min.
Definition max_for_subject (s : Sid) : Flake := max_flake s sid_max value_max.
Definition min_for_subject_predicate (s p : Sid) : Flake := min_flake s p value_min.
Definition max_for_subject_predicate (s p : Sid) : Flake := max_flake s p value_max.
Definition min_for_predicate (p : Sid) : Flake := min_flake sid_min p value_min.
Definition max_for_predicate (p : Sid) : Flake := max_flake sid_max p value_max.
Definition min_for_predicate_object (p : Sid) (o : FlakeValue) : Flake := min_flake sid_min p o.
Definition max_for_predicate_object (p : Sid) (o : FlakeValue) : Flake := max_flake sid_max p o.
Definition min_for_object (o : FlakeValue) : Flake := min_flake sid_min sid_min o.
Definition max_for_object (o : FlakeValue) : Flake := max_flake sid_max sid_max o.

(** ** Tests on flakes *)

Definition SHACL : Z := 5.
Definition OWL : Z := 6.

Definition is_rdfs_hierarchy_predicate (sid : Sid) : bool :=
  (namespace_code sid =? RDFS)
  && bool_decide (sid_name sid ∈ ["subClassOf"; "subPropertyOf"]%string).

Definition is_shacl_affecting_flake (f : Flake) : bool :=
  if namespace_code (f_p f) =? SHACL then true
  else if (namespace_code (f_p f) =? RDF) && bool_decide (sid_name (f_p f) = "type"%string) then
    match f_o f with
    | VRef o =>
        (namespace_code o =? SHACL)
        || ((namespace_code o =? RDFS) && bool_decide (sid_name o = "Class"%string))
        || ((namespace_code o =? OWL) && bool_decide (sid_name o = "Class"%string))
    | _ => false
    end
  else false.

Definition is_reserved_reifies_predicate (sid : Sid) : bool :=
  if negb (namespace_code sid =? FLUREE_DB) then false
  else bool_decide (sid_name sid ∈
    ["reifiesGraph"; "reifiesSubject"; "reifiesPredicate"; "reifiesObject";
     "reifiesDatatype"; "reifiesLang"; "reifiesListIndex"]%string).

Definition flake_has_list_meta (f : Flake) : bool :=
  match f_m f with Some m => bool_decide (is_Some (m_i m)) | None => false end.
End comparators.

(** ** Laws *)

Section laws.
Context `{VO : ValueOrd}.

Definition flake_ordered (f : Flake) : Prop := value_ordered (f_o f).

Lemma str_cmp_eq a b : str_cmp a b = Eq ↔ a = b.
Proof.
  split; [|intros ->; apply (cmp_refl (P := λ _, True))].
  intros H0%(slice_cmp_eq _ _ _ Z.compare_eq). by rewrite <- (bytes_str_bytes a), H0, bytes_str_bytes.
Qed.

Lemma sid_cmp_eq a b : sid_cmp a b = Eq ↔ a = b.
Proof.
  split; [|intros ->; apply (cmp_refl (P := λ _, True))].
  destruct a as [n x], b as [m y]. unfold sid_cmp; simpl.
  destruct (Z.compare_spec n m) as [->| |]; try done. by intros ->%str_cmp_eq.
Qed.

Lemma option_cmp_eq {A} (c : A → A → comparison) a b :
  (∀ x y, c x y = Eq → x = y) → option_cmp c a b = Eq → a = b.
Proof. destruct a, b; naive_solver. Qed.

Lemma then_with_Eq c d : then_with c d = Eq ↔ c = Eq ∧ d = Eq.
Proof. destruct c; naive_solver. Qed.

Lemma cmp_meta_eq a b : cmp_meta a b = Eq ↔ f_m a = f_m b.
Proof.
  unfold cmp_meta. split.
  - apply option_cmp_eq. intros [l i] [l' i']. unfold flake_meta_cmp.
    intros [Hi%option_cmp_eq Hl%option_cmp_eq]%then_with_Eq; simpl in *; [by subst|..].
    + by intros ?? ?%str_cmp_eq.
    + apply Z.compare_eq.
  - intros ->. destruct (f_m b) as [[[l|] [i|]]|]; simpl; try done; unfold flake_meta_cmp; simpl;
      rewrite ?Z.compare_refl; simpl; by try apply str_cmp_eq.
Qed.

#[export] Instance flake_meta_cmp_order P : CmpOrder P flake_meta_cmp.
Proof.
  assert (CmpOrder P (λ a b, option_cmp Z.compare (m_i a) (m_i b))).
  { by apply (cmp_on_order (λ o, ∀ x, o = Some x → True)); [apply _|]. }
  assert (CmpOrder P (λ a b, option_cmp str_cmp (m_lang a) (m_lang b))).
  { by apply (cmp_on_order (λ o, ∀ x, o = Some x → True)); [apply _|]. }
  unfold flake_meta_cmp. apply cmp_then_order; apply _.
Qed.

#[export] Instance cmp_s_order P : CmpOrder P cmp_s.
Proof. by apply (cmp_on_order (λ _, True) P f_s sid_cmp); [apply _|]. Qed.
#[export] Instance cmp_p_order P : CmpOrder P cmp_p.
Proof. by apply (cmp_on_order (λ _, True) P f_p sid_cmp); [apply _|]. Qed.
#[export] Instance cmp_t_order P : CmpOrder P cmp_t.
Proof. by apply (cmp_on_order (λ _, True) P f_t Z.compare); [apply _|]. Qed.
#[export] Instance cmp_op_order P : CmpOrder P cmp_op.
Proof. by apply (cmp_on_order (λ _, True) P f_op bool_cmp); [apply _|]. Qed.
#[export] Instance cmp_meta_order P : CmpOrder P cmp_meta.
Proof. by apply (cmp_on_order (λ o, ∀ x, o = Some x → True) P f_m (option_cmp flake_meta_cmp)); [apply _|]. Qed.
#[export] Instance cmp_object_order : CmpOrder flake_ordered cmp_object.
Proof.
  assert (CmpOrder flake_ordered (λ a b, value_cmp (f_o a) (f_o b))).
  { by apply (cmp_on_order value_ordered); [apply _|]. }
  assert (CmpOrder flake_ordered (λ a b, sid_cmp (f_dt a) (f_dt b))).
  { by apply (cmp_on_order (λ _, True)); [apply _|]. }
  unfold cmp_object. apply cmp_then_order; apply _.
Qed.

#[export] Instance compare_order index : CmpOrder flake_ordered (compare index).
Proof. destruct index; repeat (apply cmp_then_order; [apply _|]); apply _. Qed.
#[export] Instance key_cmp_order : CmpOrder flake_ordered key_cmp.
Proof. repeat (apply cmp_then_order; [apply _|]); apply _. Qed.
#[export] Instance identity_cmp_order : CmpOrder flake_ordered identity_cmp.
Proof. repeat (apply cmp_then_order; [apply _|]); apply _. Qed.

Lemma cmp_s_eq a b : cmp_s a b = Eq ↔ f_s a = f_s b.
Proof. apply sid_cmp_eq. Qed.
Lemma cmp_p_eq a b : cmp_p a b = Eq ↔ f_p a = f_p b.
Proof. apply sid_cmp_eq. Qed.

(** The dedup of the bulk load and the keys of the fact state agree on what a fact is. *)
Lemma same_identity_key a b : same_identity a b = true ↔ key_cmp a b = Eq.
Proof.
  unfold same_identity, key_cmp. rewrite !andb_true_iff, !bool_decide_eq_true.
  rewrite !then_with_Eq, cmp_s_eq, cmp_p_eq.
  destruct (cmp_object a b), (cmp_meta a b); naive_solver.
Qed.
End laws.

(** * Claims on the orders of values and flakes *)

(** ** Bounds of a scan *)

Section bounds.
Context `{VO : ValueOrd}.

(** The flakes of the range [(first, rhs]] of an index. *)
Definition in_bounds (index : IndexType) (first rhs f : Flake) : Prop :=
  is_le (compare index f first) = false ∧ is_le (compare index f rhs) = true.

(** A flake a ledger stores: namespace codes below the sentinel's, a time
    strictly inside [i64]. *)
Definition sid_valid (s : Sid) : Prop := 0 <= namespace_code s < u16_max.
Definition flake_storable (f : Flake) : Prop :=
  sid_valid (f_s f) ∧ sid_valid (f_p f) ∧ sid_valid (f_dt f) ∧ i64_min < f_t f < i64_max.

Lemma then_with_Gt c d : c ≠ Lt → d = Gt → then_with c d = Gt.
Proof. by destruct c. Qed.
Lemma then_with_Lt c d : c ≠ Gt → d = Lt → then_with c d = Lt.
Proof. by destruct c. Qed.

Lemma then_with_assoc a b c : (a >>then b) >>then c = a >>then b >>then c.
Proof. by destruct a. Qed.

Lemma sid_cmp_min s : sid_valid s → sid_cmp s sid_min ≠ Lt.
Proof.
  intros Hs. unfold sid_cmp. simpl. unfold sid_valid in Hs.
  destruct (Z.compare_spec (namespace_code s) 0); [|lia|done]. simpl.
  unfold str_cmp. by destruct (str_bytes (sid_name s)).
Qed.
Lemma sid_cmp_max s : sid_valid s → sid_cmp s sid_max ≠ Gt.
Proof.
  intros Hs. unfold sid_cmp. simpl. unfold sid_valid, u16_max in *.
  by destruct (Z.compare_spec (namespace_code s) 65535); [lia| |lia].
Qed.

Lemma value_cmp_min v : value_cmp v value_min ≠ Lt.
Proof. destruct v as [| | | |[]| | | | |]; done. Qed.
Lemma value_cmp_max v : value_cmp v value_max ≠ Gt.
Proof. destruct v as [| | | |[]| |[]| | |]; done. Qed.

Lemma value_cmp_refl v : value_cmp v v = Eq.
Proof. apply (@cmp_refl _ _ _ value_cmp_order). Qed.

Lemma object_above_min o dt f :
  value_cmp (f_o f) o ≠ Lt → sid_valid (f_dt f) → f_dt dt = sid_min → f_o dt = o →
  cmp_object f dt ≠ Lt.
Proof.
  intros Ho Hd Edt Eo. unfold cmp_object. rewrite Edt, Eo. pose proof (sid_cmp_min _ Hd).
  by destruct (value_cmp (f_o f) o).
Qed.
Lemma object_below_max o dt f :
  value_cmp (f_o f) o ≠ Gt → sid_valid (f_dt f) → f_dt dt = sid_max → f_o dt = o →
  cmp_object f dt ≠ Gt.
Proof.
  intros Ho Hd Edt Eo. unfold cmp_object. rewrite Edt, Eo. pose proof (sid_cmp_max _ Hd).
  by destruct (value_cmp (f_o f) o).
Qed.

(** Between two sentinels that agree with a flake on the components they pin
    lies the flake, by its time at the latest. *)
Lemma in_bounds_intro index f s p o s' p' o' :
  flake_storable f →
  sid_cmp (f_s f) s ≠ Lt → sid_cmp (f_p f) p ≠ Lt → value_cmp (f_o f) o ≠ Lt →
  sid_cmp (f_s f) s' ≠ Gt → sid_cmp (f_p f) p' ≠ Gt → value_cmp (f_o f) o' ≠ Gt →
  in_bounds index (min_flake s p o) (max_flake s' p' o') f.
Proof.
  intros (_ & _ & Hdt & Ht) Hs Hp Ho Hs' Hp' Ho'.
  assert (cmp_object f (min_flake s p o) ≠ Lt) by (by apply (object_above_min o)).
  assert (cmp_object f (max_flake s' p' o') ≠ Gt) by (by apply (object_below_max o')).
  assert (cmp_t f (min_flake s p o) = Gt) as Hgt by (apply Z.compare_gt_iff; simpl; lia).
  assert (cmp_t f (max_flake s' p' o') = Lt) as Hlt by (apply Z.compare_lt_iff; simpl; lia).
  assert (compare index f (min_flake s p o) = Gt) as E1.
  { destruct index; do 3 (apply then_with_Gt; [done|]); by rewrite Hgt. }
  assert (compare index f (max_flake s' p' o') = Lt) as E2.
  { destruct index; do 3 (apply then_with_Lt; [done|]); by rewrite Hlt. }
  unfold in_bounds. by rewrite E1, E2.
Qed.

(** A component that both bounds pin is that of the flake. *)
Lemma between_eq c d e :
  is_le (then_with c d) = false → is_le (then_with c e) = true → c = Eq ∧ is_le d = false ∧ is_le e = true.
Proof. by destruct c. Qed.

#[local] Hint Resolve sid_cmp_min sid_cmp_max value_cmp_min value_cmp_max : core.

Lemma sid_cmp_self s : sid_cmp s s = Eq.
Proof. by apply sid_cmp_eq. Qed.

Lemma subject_bounds s f : flake_storable f →
  in_bounds Spot (min_for_subject s) (max_for_subject s) f ↔ f_s f = s.
Proof.
  intros Hf. split.
  - intros [H1 H2]. destruct (between_eq _ _ _ H1 H2) as (E & _). by apply sid_cmp_eq in E.
  - intros <-. pose proof Hf as (? & ? & _). apply in_bounds_intro; auto;
      by rewrite sid_cmp_self.
Qed.

Lemma predicate_bounds index p f : flake_storable f → index = Psot ∨ index = Post →
  in_bounds index (min_for_predicate p) (max_for_predicate p) f ↔ f_p f = p.
Proof.
  intros Hf Hi. split.
  - intros [H1 H2]. destruct Hi as [-> | ->];
      destruct (between_eq _ _ _ H1 H2) as (E & _); by apply sid_cmp_eq in E.
  - intros <-. pose proof Hf as (? & ? & _). apply in_bounds_intro; auto;
      by rewrite sid_cmp_self.
Qed.

Lemma subject_predicate_bounds s p f : flake_storable f →
  in_bounds Spot (min_for_subject_predicate s p) (max_for_subject_predicate s p) f
  ↔ f_s f = s ∧ f_p f = p.
Proof.
  intros Hf. split.
  - intros [H1 H2]. destruct (between_eq _ _ _ H1 H2) as (Es & H1' & H2').
    destruct (between_eq _ _ _ H1' H2') as (Ep & _). by apply sid_cmp_eq in Es, Ep.
  - intros [<- <-]. pose proof Hf as (? & ? & _). apply in_bounds_intro; auto;
      by rewrite sid_cmp_self.
Qed.

Lemma object_bounds o f : flake_storable f →
  in_bounds Opst (min_for_object o) (max_for_object o) f ↔ value_cmp (f_o f) o = Eq.
Proof.
  intros Hf. split.
  - intros [H1 H2]. unfold compare, cmp_opst in H1, H2.
    unfold cmp_object in H1, H2. rewrite !then_with_assoc in H1, H2.
    by destruct (between_eq _ _ _ H1 H2).
  - intros Eo. pose proof Hf as (? & ? & _). apply in_bounds_intro; auto;
      by rewrite Eo.
Qed.

Lemma predicate_object_bounds p o f : flake_storable f →
  in_bounds Post (min_for_predicate_object p o) (max_for_predicate_object p o) f
  ↔ f_p f = p ∧ value_cmp (f_o f) o = Eq.
Proof.
  intros Hf. split.
  - intros [H1 H2]. destruct (between_eq _ _ _ H1 H2) as (Ep & H1' & H2').
    unfold cmp_object in H1', H2'. rewrite !then_with_assoc in H1', H2'.
    destruct (between_eq _ _ _ H1' H2') as (Eo & _). by apply sid_cmp_eq in Ep.
  - intros [<- Eo]. pose proof Hf as (? & ? & _). apply in_bounds_intro; auto;
      by rewrite ?sid_cmp_self, ?Eo.
Qed.
End bounds.

(** ** Claims *)

(** C32: The comparators are orders.  On flakes whose doubles are finite and
    whose vectors hold no NaN, each of the four index orders reverses with its
    arguments, is transitive, and calls equal exactly the same fact with the
    same time and operation; two numbers in object position compare by their
    mathematical value, whatever their types. *)
Theorem flake_order `{VO : ValueOrd} index (f g h : Flake)
    (Hf : flake_ordered f) (Hg : flake_ordered g) (Hh : flake_ordered h) :
  compare index g f = CompOpp (compare index f g) ∧
  (is_le (compare index f g) = true → is_le (compare index g h) = true →
   is_le (compare index f h) = true) ∧
  (compare index f g = Eq ↔ same_identity f g = true ∧ f_t f = f_t g ∧ f_op f = f_op g) ∧
  (∀ m n p q, as_num (f_o f) = Some m → as_num (f_o g) = Some n →
    num_value m = Some p → num_value n = Some q → value_cmp (f_o f) (f_o g) = Qcompare p q).
Proof.
  split; [apply (@cmp_flip _ _ _ (compare_order index))|].
  split; [by apply (@cmp_trans _ _ _ (compare_order index))|]. split; [|by eauto using value_cmp_numbers].
  rewrite same_identity_key. unfold key_cmp.
  assert (cmp_t f g = Eq ↔ f_t f = f_t g) as Ht by (apply Z.compare_eq_iff).
  assert (cmp_op f g = Eq ↔ f_op f = f_op g) as Hop.
  { unfold cmp_op. by destruct (f_op f), (f_op g). }
  destruct index; unfold compare, cmp_spot, cmp_psot, cmp_post, cmp_opst;
    rewrite !then_with_Eq, Ht, Hop; tauto.
Qed.

(** The order of values is not one on all of them.  A positive NaN is below
    -1, which is below 1, which is below the NaN; and [2^53 + 1] is below
    minus infinity, which is below 0.  Sorting such values has no sorted result. *)
Theorem value_order_cycles `{VO : ValueOrd} :
  let nan := VDouble 0x7FF8000000000000 in
  let minus_one := VDouble 0xBFF0000000000000 in
  let one := VDouble 0x3FF0000000000000 in
  let minus_infinity := VDouble 0xFFF0000000000000 in
  value_cmp nan minus_one = Lt ∧ value_cmp minus_one one = Lt ∧ value_cmp one nan = Lt ∧
  value_cmp (VLong (2 ^ 53 + 1)) minus_infinity = Lt ∧
  value_cmp minus_infinity (VLong 0) = Lt ∧ value_cmp (VLong 0) (VLong (2 ^ 53 + 1)) = Lt.
Proof.
  do 3 (split; [reflexivity|]). split; [|by split].
  unfold value_cmp; simpl. unfold long_double_cmp. simpl.
  by rewrite (decimal_of_f64_spec 0xFFF0000000000000 : decimal_of_f64 _ = None).
Qed.

(** C34: The sentinel bounds of a scan are exact: of the flakes a ledger stores,
    the range between [min_for_*] and [max_for_*] of an index holds those with
    the pinned subject, predicate or object value and no others. *)
Theorem scan_bounds_exact `{VO : ValueOrd} (f : Flake) s p o (Hf : flake_storable f) :
  (in_bounds Spot (min_for_subject s) (max_for_subject s) f ↔ f_s f = s) ∧
  (in_bounds Spot (min_for_subject_predicate s p) (max_for_subject_predicate s p) f
   ↔ f_s f = s ∧ f_p f = p) ∧
  (in_bounds Psot (min_for_predicate p) (max_for_predicate p) f ↔ f_p f = p) ∧
  (in_bounds Post (min_for_predicate p) (max_for_predicate p) f ↔ f_p f = p) ∧
  (in_bounds Post (min_for_predicate_object p o) (max_for_predicate_object p o) f
   ↔ f_p f = p ∧ value_cmp (f_o f) o = Eq) ∧
  (in_bounds Opst (min_for_object o) (max_for_object o) f ↔ value_cmp (f_o f) o = Eq).
Proof.
  split; [by apply subject_bounds|]. split; [by apply subject_predicate_bounds|].
  split; [apply predicate_bounds; auto|]. split; [apply predicate_bounds; auto|].
  split; [by apply predicate_object_bounds|by apply object_bounds].
Qed.

(** * A concrete value order

    Numbers of arbitrary precision as integers and rationals, the other types
    with a lexical form as integers; witnesses of the claims on flakes. *)

Definition plain_lexical (k : LexKind) : Type := match k with KDecimal => Q | _ => Z end.

#[export] Instance plain_values : CoreValues := {|
  lexical := plain_lexical;
  display := λ _ _, "0"%string;
  parse := λ _ _, None;
  geo_lat := λ bits, bits;
  geo_lng := λ _, 0;
  geo_new := λ _ _, None;
|}.

Definition plain_cmp (k : LexKind) : plain_lexical k → plain_lexical k → comparison :=
  match k with KDecimal => λ _ _, Eq | _ => Z.compare end.

#[export] Instance plain_order : ValueOrd (H := plain_values).
Proof.
  refine (@Build_ValueOrd plain_values (λ x, x) (λ x, x)
    (λ bits, match f64_value bits with Finite q => Some q | _ => None end) _ plain_cmp _ (λ _ _, 16)).
  - intros bits. destruct (f64_value bits) as [q| |]; [|done..]. by exists q.
  - intros []; simpl; apply _ || by constructor.
Defined.

(** Numbers of four types, and a flake per value. *)
Definition long_3 : FlakeValue := VLong 3.
Definition double_3_5 : FlakeValue := VDouble 0x400C000000000000.
Definition big_4 : FlakeValue := VLexical KBigInt (4 : plain_lexical KBigInt).
Definition fact (subject : string) (o : FlakeValue) (t : Z) (op : bool) : Flake :=
  mkFlake None (mkSid 100 subject) (mkSid 100 "age") o (mkSid 2 "integer") t op None.

Lemma flake_order_witness :
  let f := fact "a" long_3 1 true in
  let g := fact "a" double_3_5 2 true in
  let h := fact "a" big_4 3 false in
  is_le (compare Spot f h) = true ∧ value_cmp (f_o f) (f_o g) = Lt.
Proof.
  cbn zeta.
  pose proof (flake_order Spot (fact "a" long_3 1 true) (fact "a" double_3_5 2 true)
    (fact "a" big_4 3 false)) as (_ & Ht & _ & Hn).
  - intros n [= <-]. by eexists.
  - intros n [= <-]. vm_compute. by eexists.
  - intros n [= <-]. by eexists.
  - split; [apply Ht; by vm_compute|].
    rewrite (Hn (NLong 3) (NDouble 0x400C000000000000) (inject_Z 3)
      (f64_scaled (2 ^ 52 + 0xC000000000000) (-51))); by vm_compute.
Defined.

Lemma scan_bounds_exact_witness :
  let f := fact "a" long_3 1 true in
  in_bounds Spot (min_for_subject (mkSid 100 "a")) (max_for_subject (mkSid 100 "a")) f ∧
  in_bounds Opst (min_for_object double_3_5) (max_for_object double_3_5) (fact "b" double_3_5 2 true).
Proof.
  split.
  - apply (scan_bounds_exact (fact "a" long_3 1 true) (mkSid 100 "a") sid_min value_min);
      [|reflexivity]. by vm_compute.
  - apply (scan_bounds_exact (fact "b" double_3_5 2 true) sid_min sid_min double_3_5);
      [|by vm_compute]. by vm_compute.
Defined.
