(* ===== verification/FlakeEq.v ===== *)
(** * Equality and hashing of flakes ([fluree-db-core/src/value.rs], [flake.rs])

    [PartialEq] of values and flakes, and what [Hash] feeds to a hasher.  A
    flake's equality is the identity of its fact; it agrees with the index
    order except on vectors that differ in the sign of a zero, and the hash
    agrees with it except for one double. *)

From Stdlib Require Import QArith_base Qreduction.
From S2P Require Import Prelude Text CommitWire CommitOp Ordering FlakeOrder FlakeTheorems.
#[local] Open Scope Z_scope.

Definition option_list {A} (o : option A) : list A := match o with Some x => [x] | None => [] end.

(** ** Bit patterns of doubles *)

Definition f64_sign (bits : Z) : Z := if Z.testbit bits 63 then -1 else 1.
Definition f64_exponent (bits : Z) : Z := Z.land (Z.shiftr bits 52) 2047.
Definition f64_fraction (bits : Z) : Z := Z.land bits (Z.ones 52).

(** The significand, and the exponent above that of the subnormals. *)
Definition f64_significand (bits : Z) : Z :=
  if f64_exponent bits =? 0 then f64_fraction bits else 2 ^ 52 + f64_fraction bits.
Definition f64_power (bits : Z) : Z :=
  if f64_exponent bits =? 0 then 0 else f64_exponent bits - 1.

Lemma f64_parts bits : 0 <= bits < 2 ^ 64 →
  bits = (if Z.testbit bits 63 then 2 ^ 63 else 0) + f64_exponent bits * 2 ^ 52 + f64_fraction bits
  ∧ 0 <= f64_exponent bits < 2 ^ 11 ∧ 0 <= f64_fraction bits < 2 ^ 52.
Proof.
  intros Hb. unfold f64_exponent, f64_fraction.
  change 2047 with (Z.ones 11). rewrite !Z.land_ones, Z.shiftr_div_pow2 by lia.
  pose proof (Z.testbit_spec' bits 63 ltac:(lia)) as Ht.
  assert (bits / 2 ^ 63 = bits / 2 ^ 52 / 2 ^ 11) as E by (by rewrite Z.div_div).
  pose proof (Z.div_mod bits (2 ^ 52) ltac:(lia)). pose proof (Z.div_mod (bits / 2 ^ 52) (2 ^ 11) ltac:(lia)).
  pose proof (Z.mod_pos_bound bits (2 ^ 52) ltac:(lia)).
  pose proof (Z.mod_pos_bound (bits / 2 ^ 52) (2 ^ 11) ltac:(lia)).
  assert (0 <= bits / 2 ^ 63 < 2) by (split; [apply Z.div_pos; lia|apply Z.div_lt_upper_bound; lia]).
  rewrite (Z.mod_small (bits / 2 ^ 63)) in Ht by lia. rewrite E in Ht.
  split_and!; try lia. destruct (Z.testbit bits 63); simpl in Ht; lia.
Qed.

(** A pattern is its sign, power and significand. *)
Lemma f64_parts_unique a b : 0 <= a < 2 ^ 64 → 0 <= b < 2 ^ 64 →
  f64_sign a = f64_sign b → f64_power a = f64_power b → f64_significand a = f64_significand b → a = b.
Proof.
  intros Ha Hb. destruct (f64_parts a Ha) as (Ea & ? & ?), (f64_parts b Hb) as (Eb & ? & ?).
  unfold f64_sign, f64_power, f64_significand.
  destruct (Z.eqb_spec (f64_exponent a) 0), (Z.eqb_spec (f64_exponent b) 0);
    destruct (Z.testbit a 63), (Z.testbit b 63); lia.
Qed.

Lemma f64_scaled_value m e K : 0 <= K → 0 <= e + K →
  Qeq (f64_scaled m e) (Qmake (m * 2 ^ (e + K)) (Z.to_pos (2 ^ K))).
Proof.
  intros HK He. unfold f64_scaled, Qeq. destruct (Z.leb_spec 0 e); simpl.
  - rewrite Z2Pos.id by lia. rewrite Z.pow_add_r by lia. ring.
  - rewrite !Z2Pos.id by lia. replace K with ((e + K) + - e) at 1 by lia. rewrite Z.pow_add_r by lia. ring.
Qed.

Lemma f64_value_parts bits q : f64_value bits = Finite q →
  Qeq q (Qmake (f64_sign bits * f64_significand bits * 2 ^ f64_power bits) (Z.to_pos (2 ^ 1074)))
  ∧ f64_exponent bits ≠ 2047.
Proof.
  unfold f64_value. fold (f64_sign bits) (f64_exponent bits) (f64_fraction bits).
  unfold f64_significand, f64_power.
  destruct (Z.eqb_spec (f64_exponent bits) 2047); [by destruct (_ =? 0)|].
  assert (0 <= f64_exponent bits) by (apply Z.land_nonneg; right; lia).
  pose proof (λ m e, f64_scaled_value m e 1074) as Hs. destruct (Z.eqb_spec (f64_exponent bits) 0); intros [= <-].
  - split; [|done]. by rewrite Hs by lia.
  - split; [|done]. rewrite Hs by lia. by replace (f64_exponent bits - 1075 + 1074) with (f64_exponent bits - 1) by lia.
Qed.

(** Significand and power are determined by the number. *)
Lemma scaled_unique m1 k1 m2 k2 :
  0 <= k1 → 0 <= k2 → 0 < m1 < 2 ^ 53 → 0 < m2 < 2 ^ 53 →
  (k1 = 0 ∨ 2 ^ 52 <= m1) → (k2 = 0 ∨ 2 ^ 52 <= m2) →
  m1 * 2 ^ k1 = m2 * 2 ^ k2 → m1 = m2 ∧ k1 = k2.
Proof.
  assert (∀ m1 k1 m2 k2, 0 <= k1 < k2 → 0 < m1 < 2 ^ 53 → (k2 = 0 ∨ 2 ^ 52 <= m2) →
    m1 * 2 ^ k1 = m2 * 2 ^ k2 → False) as Hlt.
  { intros n1 j1 n2 j2 Hj Hn [->|Hn2] E; [lia|].
    replace j2 with (j1 + (j2 - j1)) in E by lia. rewrite Z.pow_add_r in E by lia.
    assert (n1 = n2 * 2 ^ (j2 - j1)) as En by (apply (Z.mul_reg_r _ _ (2 ^ j1)); [|lia]; pose proof (Z.pow_pos_nonneg 2 j1); lia).
    replace (j2 - j1) with (1 + (j2 - j1 - 1)) in En by lia. rewrite Z.pow_add_r in En by lia.
    pose proof (Z.pow_pos_nonneg 2 (j2 - j1 - 1) ltac:(lia) ltac:(lia)). nia. }
  intros Hk1 Hk2 Hm1 Hm2 H1 H2 E. destruct (Z.lt_trichotomy k1 k2) as [Hk|[->|Hk]].
  - exfalso. by apply (Hlt m1 k1 m2 k2).
  - split; [|done]. apply (Z.mul_reg_r _ _ (2 ^ k2)); [|done]. pose proof (Z.pow_pos_nonneg 2 k2). lia.
  - exfalso. by apply (Hlt m2 k2 m1 k1).
Qed.

Definition is_zero_bits (bits : Z) : bool := (bits =? 0) || (bits =? 2 ^ 63).

Lemma f64_significand_bound bits : 0 <= bits < 2 ^ 64 →
  0 <= f64_power bits ∧ 0 <= f64_significand bits < 2 ^ 53
  ∧ (f64_power bits = 0 ∨ 2 ^ 52 <= f64_significand bits)
  ∧ (f64_significand bits = 0 → is_zero_bits bits = true).
Proof.
  intros Hb. destruct (f64_parts bits Hb) as (E & ? & ?). unfold f64_power, f64_significand, is_zero_bits.
  destruct (Z.eqb_spec (f64_exponent bits) 0) as [E0|E0]; (split_and!; [lia..|]); [|lia].
  intros Ef. rewrite E0, Ef in E. rewrite E. by destruct (Z.testbit bits 63).
Qed.

(** Doubles of the same value have the same bits, zeros apart. *)
Lemma f64_value_inj a b p q : 0 <= a < 2 ^ 64 → 0 <= b < 2 ^ 64 →
  f64_value a = Finite p → f64_value b = Finite q → Qeq p q → is_zero_bits a = false → a = b.
Proof.
  intros Ha Hb [Ep _]%f64_value_parts [Eq _]%f64_value_parts Hpq Hz. rewrite Ep, Eq in Hpq. clear Ep Eq.
  unfold Qeq in Hpq. cbn [Qnum Qden] in Hpq. apply Z.mul_reg_r in Hpq; [|discriminate].
  destruct (f64_significand_bound a Ha) as (Pa & Sa & Na & Za), (f64_significand_bound b Hb) as (Pb & Sb & Nb & _).
  assert (0 < f64_significand a) as Hpos.
  { destruct (Z.eq_dec (f64_significand a) 0) as [E|]; [|lia]. rewrite Za in Hz; done. }
  pose proof (Z.pow_pos_nonneg 2 (f64_power a) ltac:(lia) Pa) as Wa.
  pose proof (Z.pow_pos_nonneg 2 (f64_power b) ltac:(lia) Pb) as Wb.
  assert (f64_sign a = f64_sign b ∧ 0 < f64_significand b) as [Es Hposb].
  { revert Hpq. unfold f64_sign. destruct (Z.testbit a 63), (Z.testbit b 63); intros Hpq; split; try done; nia. }
  destruct (scaled_unique (f64_significand a) (f64_power a) (f64_significand b) (f64_power b)); try (done || lia).
  { rewrite Es in Hpq. unfold f64_sign in Hpq. destruct (Z.testbit b 63); lia. }
  by apply f64_parts_unique.
Qed.

Lemma f64_value_infinite bits n : f64_value bits = Infinite n →
  f64_exponent bits = 2047 ∧ f64_fraction bits = 0 ∧ Z.testbit bits 63 = n.
Proof.
  unfold f64_value. fold (f64_exponent bits) (f64_fraction bits).
  destruct (Z.eqb_spec (f64_exponent bits) 2047); [|by destruct (_ =? 0)].
  destruct (Z.eqb_spec (f64_fraction bits) 0); [|done]. by intros [= <-].
Qed.

(** Doubles that compare equal have the same bits, when neither is a NaN or a
    negative zero. *)
Lemma f64_cmp_bits a b : 0 <= a < 2 ^ 64 → 0 <= b < 2 ^ 64 → f64_value a ≠ NaN → f64_value b ≠ NaN →
  a ≠ 2 ^ 63 → b ≠ 2 ^ 63 → f64_cmp a b = Eq → a = b.
Proof.
  intros Ha Hb Na Nb Za Zb. unfold f64_cmp, f64_partial_cmp.
  destruct (f64_value a) as [p|m|] eqn:Ea, (f64_value b) as [q|n|] eqn:Eb; try done; cbn [f64_values_cmp].
  - intros Hpq%Qeq_alt. destruct (is_zero_bits a) eqn:Hz; [|by apply (f64_value_inj a b p q)].
    destruct (is_zero_bits b) eqn:Hzb.
    + unfold is_zero_bits in Hz, Hzb. lia.
    + symmetry. by apply (f64_value_inj b a q p).
  - by destruct n.
  - by destruct m.
  - intros Hmn. apply f64_value_infinite in Ea as (? & ? & Ta), Eb as (? & ? & Tb).
    destruct (f64_parts a Ha) as (Ea & _), (f64_parts b Hb) as (Eb & _).
    rewrite Ta in Ea. rewrite Tb in Eb. destruct m, n; try done; lia.
Qed.

(** ** Values *)

Section equality.
Context `{VO : ValueOrd}.

(** [FlakeValue::eq]: numbers by value, temporal values and durations of one
    type by their instant, vectors by their bits. *)
Definition value_eq (a b : FlakeValue) : bool :=
  match as_num a, as_num b with
  | Some m, Some n => bool_decide (numeric_cmp m n = Some Eq)
  | _, _ =>
      match a, b with
      | VNull, VNull => true
      | VRef a, VRef b => bool_decide (a = b)
      | VBoolean a, VBoolean b => Bool.eqb a b
      | VLexical k x, VLexical k' y => bool_decide (k = k') && bool_decide (lexical_cmp k x k' y = Eq)
      | VString a, VString b => bool_decide (a = b)
      | VJson a, VJson b => bool_decide (a = b)
      | VVector a, VVector b => bool_decide (a = b)
      | VGeoPoint a, VGeoPoint b => a =? b
      | _, _ => false
      end
  end.

(** [Flake::eq]: the fact, whatever its graph, time and operation. *)
Definition flake_eq (f g : Flake) : bool :=
  bool_decide (f_s f = f_s g) && bool_decide (f_p f = f_p g) && value_eq (f_o f) (f_o g)
  && bool_decide (f_dt f = f_dt g) && bool_decide (f_m f = f_m g).

Lemma as_num_kind k (x y : lexical k) m : as_num (VLexical k x) = Some m → as_num (VLexical k y) ≠ None.
Proof. by destruct k. Qed.

(** Equal values compare equal. *)
Lemma value_eq_cmp a b : value_ordered a → value_eq a b = true → value_cmp a b = Eq.
Proof.
  intros Pa. unfold value_eq, value_cmp, same_type_cmp.
  destruct (as_num a) as [m|] eqn:Em, (as_num b) as [n|] eqn:En.
  - rewrite bool_decide_eq_true. intros ->. by destruct (_ =? _).
  - destruct a, b; try done. intros [Hk _]%andb_true_iff. apply bool_decide_eq_true in Hk. subst.
    by apply as_num_kind with (y := v0) in Em.
  - destruct a, b; try done. intros [Hk _]%andb_true_iff. apply bool_decide_eq_true in Hk. subst.
    by apply as_num_kind with (y := v) in En.
  - destruct a, b; try done; simpl.
    + intros ->%bool_decide_eq_true. by apply sid_cmp_eq.
    + intros ->%Bool.eqb_true_iff. by destruct b.
    + intros [Hk Hc]%andb_true_iff. apply bool_decide_eq_true in Hk, Hc. subst. by rewrite Z.eqb_refl.
    + intros ->%bool_decide_eq_true. by apply str_cmp_eq.
    + intros ->%bool_decide_eq_true. by apply (@cmp_refl _ _ _ vector_cmp_order).
    + intros ->%bool_decide_eq_true. by apply str_cmp_eq.
    + intros ->%Z.eqb_eq. apply Z.compare_refl.
Qed.

(** No NaN, infinity or negative zero among the numbers of a value; vectors may
    hold infinities. *)
Definition value_plain (v : FlakeValue) : Prop :=
  value_ordered v ∧
  match v with VVector l => Forall (λ bits, 0 <= bits < 2 ^ 64 ∧ bits ≠ 2 ^ 63) l | _ => True end.
Definition flake_plain (f : Flake) : Prop := value_plain (f_o f).

Lemma vector_cmp_bits a b : value_plain (VVector a) → value_plain (VVector b) → vector_cmp a b = Eq → a = b.
Proof.
  intros [Oa Pa] [Ob Pb]. simpl in *. destruct a as [|x a], b as [|y b]; try done. cbn [vector_cmp].
  revert Oa Pa Ob Pb. generalize (x :: a), (y :: b). clear x y a b. intros l.
  induction l as [|x l IH]; intros [|y k]; try done. intros [Nx Nl]%Forall_cons [[Rx Zx] Pl]%Forall_cons.
  intros [Ny Nk]%Forall_cons [[Ry Zy] Pk]%Forall_cons. cbn [slice_cmp]. intros [Hxy Hlk]%then_with_Eq.
  f_equal; [by apply f64_cmp_bits|by apply IH].
Qed.

Lemma value_cmp_eq a b : value_plain a → value_plain b → value_cmp a b = Eq → value_eq a b = true.
Proof.
  intros Pa Pb. pose proof (discriminant_range a) as Ra. pose proof (discriminant_range b) as Rb.
  unfold value_eq, value_cmp, same_type_cmp.
  destruct (as_num a) as [m|] eqn:Em, (as_num b) as [n|] eqn:En.
  - destruct (value_ordered_num _ _ (proj1 Pa) Em) as [p Hp], (value_ordered_num _ _ (proj1 Pb) En) as [q Hq].
    rewrite (numeric_cmp_value _ _ _ _ Hp Hq), bool_decide_eq_true. simpl.
    destruct (_ =? _); by intros ->.
  - destruct (Z.eqb_spec (type_discriminant a) (type_discriminant b)); [lia|]. by intros ?%Z.compare_eq.
  - destruct (Z.eqb_spec (type_discriminant a) (type_discriminant b)); [lia|]. by intros ?%Z.compare_eq.
  - destruct (Z.eqb_spec (type_discriminant a) (type_discriminant b)) as [Hd|]; [|by intros ?%Z.compare_eq].
    destruct a as [| | | |k x| | | | |];
      [| | | |destruct (discriminant_lexical k x b Em Hd) as [y ->]| | | | |].
    5: { rewrite !bool_decide_eq_true_2 by done. intros Hc. by rewrite Hc. }
    all: destruct b as [| | | |k y| | | | |]; try done; try (by destruct k).
    + intros ->%sid_cmp_eq. by rewrite bool_decide_eq_true_2.
    + destruct b, b0; done.
    + intros ->%str_cmp_eq. by rewrite bool_decide_eq_true_2.
    + intros ->%vector_cmp_bits; [|done..]. by rewrite bool_decide_eq_true_2.
    + intros ->%str_cmp_eq. by rewrite bool_decide_eq_true_2.
    + intros ->%Z.compare_eq. apply Z.eqb_refl.
Qed.

(** Equality of flakes is the identity of their facts. *)
Lemma flake_eq_key f g : flake_plain f → flake_plain g → flake_eq f g = true ↔ key_cmp f g = Eq.
Proof.
  intros Pf Pg. unfold flake_eq, key_cmp, cmp_object.
  rewrite !andb_true_iff, !bool_decide_eq_true, !then_with_Eq, cmp_s_eq, cmp_p_eq, cmp_meta_eq, sid_cmp_eq.
  assert (value_eq (f_o f) (f_o g) = true ↔ value_cmp (f_o f) (f_o g) = Eq); [|tauto].
  split; [apply value_eq_cmp, Pf|by apply value_cmp_eq].
Qed.
End equality.

(** ** Hashing *)

(** What is fed to the hasher.  [HInt] is the little-endian two's complement of
    an integer, [HDec] the digits and scale of a normalized decimal: both are
    given by the number. *)
Inductive HashItem :=
  | HNum (n : Z) | HBool (b : bool) | HStr (s : string) | HInt (z : Z) | HDec (q : Q) | HBits (bits : Z).

Class ValueHash `{ValueOrd} := {
  lex_hash : ∀ k, lexical k → list HashItem;
  lex_hash_eq : ∀ k x y, lex_cmp k x y = Eq → lex_hash k x = lex_hash k y;
}.

(** [hash_decimal_canonical]. *)
Definition decimal_hash (q : Q) : list HashItem :=
  let n := Qred q in
  if (Zpos (Qden n) =? 1) then [HNum 0; HInt (Qnum n)] else [HNum 1; HDec n].

(** [*d as i64], which saturates. *)
Definition as_i64 (z : Z) : Z := Z.max (- 2 ^ 63) (Z.min (2 ^ 63 - 1) z).

Definition sid_hash (s : Sid) : list HashItem := [HNum (namespace_code s); HStr (sid_name s)].
Definition option_hash {A} (h : A → list HashItem) (o : option A) : list HashItem :=
  match o with None => [HNum 0] | Some x => HNum 1 :: h x end.
Definition meta_hash (m : FlakeMeta) : list HashItem :=
  option_hash (λ s, [HStr s]) (m_lang m) ++ option_hash (λ i, [HNum i]) (m_i m).

Section hashing.
Context `{VH : ValueHash}.

(** The double arm: [i64::MAX as f64] is [2^63]. *)
Definition double_hash (bits : Z) : list HashItem :=
  match f64_value bits with
  | NaN => [HNum 2]
  | Infinite negative => [HNum 3; HBool (negb negative)]
  | Finite q =>
      let n := Qred q in
      if (Zpos (Qden n) =? 1) && (- 2 ^ 63 <=? Qnum n) && (Qnum n <=? 2 ^ 63)
      then [HNum 0; HInt (as_i64 (Qnum n))]
      else match decimal_of_f64 bits with
           | Some dec => decimal_hash dec
           | None => [HNum 1; HBits bits]
           end
  end.

Definition value_hash (v : FlakeValue) : list HashItem :=
  let tag := HNum (type_discriminant v) in
  match v with
  | VLong l => [HNum 0; HInt l]
  | VDouble bits => double_hash bits
  | VLexical k x =>
      match as_num v with
      | Some (NBigInt z) => [HNum 0; HInt z]
      | Some (NDecimal q) => decimal_hash q
      | _ => tag :: lex_hash k x
      end
  | VNull => [tag]
  | VRef sid => tag :: sid_hash sid
  | VBoolean b => [tag; HBool b]
  | VString s | VJson s => [tag; HStr s]
  | VVector l => tag :: HNum (Z.of_nat (length l)) :: (HBits <$> l)
  | VGeoPoint bits => [tag; HBits bits]
  end.

Definition flake_hash (f : Flake) : list HashItem :=
  sid_hash (f_s f) ++ sid_hash (f_p f) ++ value_hash (f_o f) ++ sid_hash (f_dt f)
  ++ option_hash meta_hash (f_m f).

(** The double [2^63]. *)
Definition is_two63 (v : FlakeValue) : bool :=
  match v with
  | VDouble bits => match f64_value bits with Finite q => Qeq_bool q (inject_Z (2 ^ 63)) | _ => false end
  | _ => false
  end.

Lemma decimal_hash_proper p q : Qeq p q → decimal_hash p = decimal_hash q.
Proof. intros E%Qred_complete. unfold decimal_hash. by rewrite E. Qed.

Lemma Qred_inject z : Qred (inject_Z z) = Qmake z 1.
Proof. unfold Qred, inject_Z. pose proof (Z.ggcd_gcd z 1) as Hg. pose proof (Z.ggcd_correct_divisors z 1) as Hc.
  destruct (Z.ggcd z 1) as [g [a b]]. simpl in Hg. rewrite Z.gcd_1_r in Hg. subst g.
  destruct Hc as [Ha Hb]. rewrite Z.mul_1_l in Ha, Hb. by subst. Qed.

Lemma decimal_hash_int z : decimal_hash (inject_Z z) = [HNum 0; HInt z].
Proof. unfold decimal_hash. by rewrite Qred_inject. Qed.

Lemma double_hash_value bits q : f64_value bits = Finite q → Qeq_bool q (inject_Z (2 ^ 63)) = false →
  double_hash bits = decimal_hash q.
Proof.
  intros Hv Hne. unfold double_hash. rewrite Hv. pose proof (decimal_of_f64_spec bits) as Hd. rewrite Hv in Hd.
  destruct Hd as (p & -> & Hp).
  destruct ((_ =? 1) && _ && _) eqn:Hin; [|by apply decimal_hash_proper].
  apply andb_true_iff in Hin as [[Hden Hlo]%andb_true_iff Hhi].
  unfold decimal_hash. rewrite Hden. f_equal. f_equal. f_equal. unfold as_i64.
  assert (Qnum (Qred q) ≠ 2 ^ 63) as Hn; [|lia]. intros Hn.
  apply not_true_iff_false in Hne. apply Hne, Qeq_bool_iff. rewrite <- (Qred_correct q).
  destruct (Qred q) as [n d]. cbn [Qnum Qden] in *. apply Z.eqb_eq in Hden. injection Hden as ->. by subst.
Qed.

Lemma value_hash_num v m p : as_num v = Some m → num_value m = Some p → is_two63 v = false →
  value_hash v = decimal_hash p.
Proof.
  destruct v as [| |l|bits|k x| | | | |]; try done.
  - intros [= <-] [= <-] _. by rewrite decimal_hash_int.
  - intros [= <-]. cbn [num_value is_two63 value_hash]. destruct (f64_value bits) as [q| |] eqn:E; try discriminate.
    intros Hq Hne. apply (inj Some) in Hq as ->. by apply double_hash_value.
  - destruct k; try done; intros Hm; apply (inj Some) in Hm as <-; cbn [num_value value_hash as_num];
      intros Hp; apply (inj Some) in Hp as <-; intros _; [by rewrite decimal_hash_int|done].
Qed.

(** A double that is not finite equals doubles only. *)
Lemma numeric_eq_special bits n : num_value (NDouble bits) = None → numeric_cmp (NDouble bits) n = Some Eq →
  ∃ bits', n = NDouble bits' ∧ num_value n = None ∧ double_hash bits = double_hash bits'.
Proof.
  cbn [num_value]. intros Hv. pose proof (decimal_of_f64_spec bits) as Hd.
  assert (decimal_of_f64 bits = None) as Hnone by (by destruct (f64_value bits)).
  destruct n as [z|z|b|q]; cbn [numeric_cmp]; rewrite ?Hnone; [|discriminate| |discriminate].
  - unfold long_double_cmp. rewrite Hnone. destruct (i64_fits_f64 z); [|discriminate].
    destruct (f64_value bits) as [|[]|]; discriminate.
  - intros Hc. apply (inj Some) in Hc. exists b. split; [done|]. unfold f64_cmp, f64_partial_cmp in Hc. unfold double_hash. cbn [num_value].
    destruct (f64_value bits) as [|i|] eqn:Ei; [discriminate|..]; destruct (f64_value b) as [q|j|] eqn:Ej;
      cbn [f64_values_cmp] in Hc; try (apply Z.compare_eq in Hc; subst b; rewrite Ei in Ej); try discriminate.
    + destruct i; discriminate.
    + destruct i, j; (discriminate || by split).
    + by split.
Qed.

Lemma value_hash_eq a b : value_eq a b = true → is_two63 a = false → is_two63 b = false →
  value_hash a = value_hash b.
Proof.
  unfold value_eq. destruct (as_num a) as [m|] eqn:Em, (as_num b) as [n|] eqn:En.
  - intros Hc%bool_decide_eq_true Ta Tb.
    destruct (num_value m) as [p|] eqn:Hp.
    + destruct (num_value n) as [q|] eqn:Hq.
      * rewrite (value_hash_num a m p), (value_hash_num b n q) by done. apply decimal_hash_proper.
        rewrite (numeric_cmp_value _ _ _ _ Hp Hq) in Hc. apply Qeq_alt. congruence.
      * destruct n as [| |b'|]; try done. rewrite numeric_cmp_flip in Hc.
        destruct (numeric_cmp (NDouble b') m) as [[]|] eqn:E; try done.
        destruct (numeric_eq_special b' m Hq E) as (? & ? & ? & ?). congruence.
    + destruct m as [| |b'|]; try done. destruct (numeric_eq_special b' n Hp Hc) as (c & -> & _ & Hh).
      assert (∀ v x, as_num v = Some (NDouble x) → v = VDouble x) as Hd.
      { intros [| | | |[]| | | | |] x; try done. by intros [= ->]. }
      apply Hd in Em as ->. by apply Hd in En as ->.
  - destruct a, b; try done. intros [Hk _]%andb_true_iff. apply bool_decide_eq_true in Hk. subst.
    by apply as_num_kind with (y := v0) in Em.
  - destruct a, b; try done. intros [Hk _]%andb_true_iff. apply bool_decide_eq_true in Hk. subst.
    by apply as_num_kind with (y := v) in En.
  - destruct a as [| | | |k x| | | | |], b as [| | | |k' y| | | | |]; try done; simpl.
    + by intros ->%bool_decide_eq_true.
    + by intros ->%Bool.eqb_true_iff.
    + intros [Hk Hc]%andb_true_iff _ _. apply bool_decide_eq_true in Hk. subst k'.
      apply bool_decide_eq_true in Hc. rewrite lexical_cmp_same in Hc. apply lex_hash_eq in Hc.
      cbn [as_num] in Em, En. rewrite Em, En. by rewrite Hc.
    + by intros ->%bool_decide_eq_true.
    + by intros ->%bool_decide_eq_true.
    + by intros ->%bool_decide_eq_true.
    + by intros ->%Z.eqb_eq.
Qed.

Lemma flake_hash_eq f g : flake_eq f g = true → is_two63 (f_o f) = false → is_two63 (f_o g) = false →
  flake_hash f = flake_hash g.
Proof.
  unfold flake_eq. rewrite !andb_true_iff, !bool_decide_eq_true. intros ((((Es & Ep) & Ho) & Ed) & Em) Tf Tg.
  unfold flake_hash. by rewrite Es, Ep, Ed, Em, (value_hash_eq (f_o f) (f_o g)).
Qed.

(** C33: Equality of flakes is the identity of a fact.  For flakes whose object is
    not an infinite or NaN double, nor a vector with a NaN or a negative zero
    in it, it is reflexive, symmetric and transitive and holds exactly when the
    index orders call the facts equal; and equal flakes feed the hasher alike,
    so that hash maps keyed by flakes are keyed by facts, unless the double
    [2^63] is one of the objects.  [value_eq_breaks] shows two of the values
    left out. *)
Theorem flake_equality (f g h : Flake) :
  flake_plain f → flake_plain g → flake_plain h →
  flake_eq f f = true
  ∧ flake_eq f g = flake_eq g f
  ∧ (flake_eq f g = true → flake_eq g h = true → flake_eq f h = true)
  ∧ (flake_eq f g = true ↔ same_identity f g = true)
  ∧ (flake_eq f g = true → is_two63 (f_o f) = false → is_two63 (f_o g) = false → flake_hash f = flake_hash g).
Proof.
  intros Pf Pg Ph. assert (∀ x, flake_plain x → flake_ordered x) as Ho by (by intros x [? _]).
  split_and!.
  - apply flake_eq_key; [done..|]. apply (@cmp_refl _ _ _ key_cmp_order).
  - apply eq_true_iff_eq. rewrite !flake_eq_key by done. split; apply (@cmp_eq_sym _ _ _ key_cmp_order).
  - rewrite !flake_eq_key by done. apply (@cmp_eq_trans _ _ _ key_cmp_order); auto.
  - by rewrite flake_eq_key, same_identity_key.
  - by apply flake_hash_eq.
Qed.
End hashing.

(** ** Where equality, order and hash part *)

#[export] Instance plain_hash : ValueHash (H0 := plain_order) := {|
  lex_hash k _ := [];
  lex_hash_eq k x y _ := eq_refl;
|}.

(** Two breaks of the contracts between [Eq], [Ord] and [Hash].  The double
    [2^63] equals the big integer [2^63] but is hashed as [2^63 - 1]; and
    vectors that differ in the sign of a zero compare equal without being
    equal. *)
Theorem value_eq_breaks :
  value_eq (VDouble 0x43E0000000000000) (VLexical KBigInt (2 ^ 63 : plain_lexical KBigInt)) = true
  ∧ value_hash (VDouble 0x43E0000000000000) = [HNum 0; HInt (2 ^ 63 - 1)]
  ∧ value_hash (VLexical KBigInt (2 ^ 63 : plain_lexical KBigInt)) = [HNum 0; HInt (2 ^ 63)]
  ∧ value_cmp (VVector [0]) (VVector [2 ^ 63]) = Eq
  ∧ value_eq (VVector [0]) (VVector [2 ^ 63]) = false.
Proof. split_and!; by vm_compute. Qed.

Lemma flake_equality_witness :
  let f := fact "a" long_3 1 true in
  let g := fact "a" (VDouble 0x4008000000000000) 2 false in
  flake_eq f g = flake_eq g f ∧ flake_hash f = flake_hash g.
Proof.
  cbn zeta.
  pose proof (flake_equality (fact "a" long_3 1 true) (fact "a" (VDouble 0x4008000000000000) 2 false)
    (fact "a" long_3 1 true)) as (_ & Hs & _ & _ & Hh).
  - split; [|done]. intros n [= <-]. by eexists.
  - split; [|done]. intros n [= <-]. vm_compute. by eexists.
  - split; [|done]. intros n [= <-]. by eexists.
  - split; [exact Hs|]. apply Hh; by vm_compute.
Defined.
