(* ===== verification/Edge.v ===== *)
(** * Edges and their reifying bundles ([fluree-db-core/src/edge.rs])

    An annotation is attached to an edge by a bundle of [f:reifies*] flakes.
    [to_reifies_facts] writes the bundle of an edge, [from_reifies_facts] reads
    one back or names what is wrong with it. *)

From S2P Require Import Prelude Text Vocab CommitWire CommitOp Ordering FlakeOrder FlakeTheorems.
From S2P Require Import FlakeTheorems FlakeEq.
#[local] Open Scope Z_scope.

Definition id_datatype_sid : Sid := mkSid JSON_LD "id".
Definition xsd_string_datatype_sid : Sid := mkSid XSD "string".

Definition reifies_sid (name : string) : Sid := mkSid FLUREE_DB name.
Definition REIFIES_GRAPH : string := "reifiesGraph".
Definition REIFIES_SUBJECT : string := "reifiesSubject".
Definition REIFIES_PREDICATE : string := "reifiesPredicate".
Definition REIFIES_OBJECT : string := "reifiesObject".
Definition REIFIES_DATATYPE : string := "reifiesDatatype".
Definition REIFIES_LANG : string := "reifiesLang".
Definition REIFIES_LIST_INDEX : string := "reifiesListIndex".

Definition is_reifies (name : string) (sid : Sid) : bool :=
  (namespace_code sid =? FLUREE_DB) && bool_decide (sid_name sid = name).

Inductive EdgeKeyDecodeError :=
  | Missing (predicate : string)
  | Duplicate (predicate : string)
  | WrongType (predicate : string)
  | DatatypeMismatch
  | MixedFlakeGraphs
  | GraphMismatch
  | DeferredFeature (predicate : string).

Section edges.
Context `{VO : ValueOrd}.

Record EdgeKey := mkEdge {
  ek_g : option Sid;
  ek_s : Sid;
  ek_p : Sid;
  ek_o : FlakeValue;
  ek_dt : Sid;
  ek_lang : option string;
  ek_list_i : option Z;
}.

Definition meta_parts (m : option FlakeMeta) : option string * option Z :=
  match m with Some m => (m_lang m, m_i m) | None => (None, None) end.

Definition from_flake (f : Flake) : EdgeKey :=
  let '(lang, list_i) := meta_parts (f_m f) in
  mkEdge (f_g f) (f_s f) (f_p f) (f_o f) (f_dt f) lang list_i.

Definition matches (e : EdgeKey) (f : Flake) : bool :=
  if negb (bool_decide (ek_g e = f_g f)) || negb (bool_decide (ek_s e = f_s f))
     || negb (bool_decide (ek_p e = f_p f)) || negb (bool_decide (ek_dt e = f_dt f))
     || negb (value_eq (ek_o e) (f_o f))
  then false
  else let '(lang, list_i) := meta_parts (f_m f) in
       bool_decide (ek_lang e = lang) && bool_decide (ek_list_i e = list_i).

Definition edge_key_to_flake_meta (lang : option string) (list_i : option Z) : option FlakeMeta :=
  match lang, list_i with None, None => None | _, _ => Some (mkMeta lang list_i) end.

Definition to_base_flake (e : EdgeKey) (t : Z) (op : bool) : Flake :=
  mkFlake (ek_g e) (ek_s e) (ek_p e) (ek_o e) (ek_dt e) t op (edge_key_to_flake_meta (ek_lang e) (ek_list_i e)).

(** Every flake of a bundle is in the graph of the edge. *)
Definition to_reifies_facts (e : EdgeKey) (ann : Sid) (t : Z) (op : bool) : list Flake :=
  let make name o dt m := mkFlake (ek_g e) ann (reifies_sid name) o dt t op m in
  match ek_g e with
  | Some g => [make REIFIES_GRAPH (VRef g) id_datatype_sid None]
  | None => []
  end
  ++ [make REIFIES_SUBJECT (VRef (ek_s e)) id_datatype_sid None;
      make REIFIES_PREDICATE (VRef (ek_p e)) id_datatype_sid None;
      make REIFIES_OBJECT (ek_o e) (ek_dt e) (edge_key_to_flake_meta (ek_lang e) (ek_list_i e));
      make REIFIES_DATATYPE (VRef (ek_dt e)) id_datatype_sid None]
  ++ match ek_lang e with
     | Some lang => [make REIFIES_LANG (VString lang) xsd_string_datatype_sid None]
     | None => []
     end.

Definition to_reifies_facts_jsonld_compatible (e : EdgeKey) (ann : Sid) (t : Z) (op : bool) : list Flake :=
  filter (λ f, is_reifies REIFIES_DATATYPE (f_p f) = false) (to_reifies_facts e ann t op).

(** ** Reading a bundle *)

(** What has been read so far. *)
Record Slots := mkSlots {
  sl_g : option Sid;
  sl_s : option Sid;
  sl_p : option Sid;
  sl_o : option (FlakeValue * Sid);
  sl_dt : option Sid;
  sl_lang : option string;
  sl_bundle_g : option (option Sid);
}.
Definition no_slots : Slots := mkSlots None None None None None None None.

(** A reference in a slot that must be empty. *)
Definition read_ref (name : string) (slot : option Sid) (o : FlakeValue) (set : Sid → Slots)
  : EdgeKeyDecodeError + Slots :=
  match slot with
  | Some _ => inl (Duplicate name)
  | None => match o with VRef sid => inr (set sid) | _ => inl (WrongType name) end
  end.

Definition read_slot (st : Slots) (f : Flake) : EdgeKeyDecodeError + Slots :=
  let '(mkSlots g s p o dt lang bg) := st in
  if is_reifies REIFIES_GRAPH (f_p f) then
    read_ref "f:reifiesGraph" g (f_o f) (λ sid, mkSlots (Some sid) s p o dt lang bg)
  else if is_reifies REIFIES_SUBJECT (f_p f) then
    read_ref "f:reifiesSubject" s (f_o f) (λ sid, mkSlots g (Some sid) p o dt lang bg)
  else if is_reifies REIFIES_PREDICATE (f_p f) then
    read_ref "f:reifiesPredicate" p (f_o f) (λ sid, mkSlots g s (Some sid) o dt lang bg)
  else if is_reifies REIFIES_OBJECT (f_p f) then
    match o with
    | Some _ => inl (Duplicate "f:reifiesObject")
    | None => inr (mkSlots g s p (Some (f_o f, f_dt f)) dt lang bg)
    end
  else if is_reifies REIFIES_DATATYPE (f_p f) then
    read_ref "f:reifiesDatatype" dt (f_o f) (λ sid, mkSlots g s p o (Some sid) lang bg)
  else if is_reifies REIFIES_LANG (f_p f) then
    match lang with
    | Some _ => inl (Duplicate "f:reifiesLang")
    | None => match f_o f with
              | VString l => inr (mkSlots g s p o dt (Some l) bg)
              | _ => inl (WrongType "f:reifiesLang")
              end
    end
  else if is_reifies REIFIES_LIST_INDEX (f_p f) then inl (DeferredFeature "f:reifiesListIndex")
  else inr st.

(** The graph that all flakes of the bundle are in. *)
Definition read_graph (st : Slots) (f : Flake) : EdgeKeyDecodeError + Slots :=
  match sl_bundle_g st with
  | None => inr (mkSlots (sl_g st) (sl_s st) (sl_p st) (sl_o st) (sl_dt st) (sl_lang st) (Some (f_g f)))
  | Some seen => if bool_decide (seen = f_g f) then inr st else inl MixedFlakeGraphs
  end.

Definition read_fact (st : Slots) (f : Flake) : EdgeKeyDecodeError + Slots :=
  if negb (is_reserved_reifies_predicate (f_p f)) then inr st
  else match read_graph st f with
       | inl e => inl e
       | inr st => read_slot st f
       end.

Fixpoint read_facts (st : Slots) (facts : list Flake) : EdgeKeyDecodeError + Slots :=
  match facts with
  | [] => inr st
  | f :: facts => match read_fact st f with inl e => inl e | inr st => read_facts st facts end
  end.

(** The edge of the slots that were read. *)
Definition slots_edge (st : Slots) : EdgeKeyDecodeError + EdgeKey :=
  match sl_s st, sl_p st, sl_o st with
  | None, _, _ => inl (Missing "f:reifiesSubject")
  | _, None, _ => inl (Missing "f:reifiesPredicate")
  | _, _, None => inl (Missing "f:reifiesObject")
  | Some s, Some p, Some (o, o_dt) =>
      let checked := match sl_dt st with
                     | Some dt => if bool_decide (dt = o_dt) then inr dt else inl DatatypeMismatch
                     | None => inr o_dt
                     end in
      match checked with
      | inl e => inl e
      | inr dt =>
          if bool_decide (sl_g st = default None (sl_bundle_g st))
          then inr (mkEdge (sl_g st) s p o dt (sl_lang st) None)
          else inl GraphMismatch
      end
  end.

Definition from_reifies_facts (facts : list Flake) : EdgeKeyDecodeError + EdgeKey :=
  match read_facts no_slots facts with inl e => inl e | inr st => slots_edge st end.

(** ** Edges and flakes *)

Lemma meta_parts_of lang list_i : meta_parts (edge_key_to_flake_meta lang list_i) = (lang, list_i).
Proof. by destruct lang, list_i. Qed.

Lemma from_to_base_flake e t op : from_flake (to_base_flake e t op) = e.
Proof. unfold from_flake. simpl. rewrite meta_parts_of. by destruct e. Qed.

(** The key of a flake matches the flakes of its graph and fact, and no others;
    metadata is either absent or not empty. *)
Lemma matches_from_flake f g : f_m f ≠ Some (mkMeta None None) → f_m g ≠ Some (mkMeta None None) →
  matches (from_flake f) g = true ↔ f_g f = f_g g ∧ flake_eq f g = true.
Proof.
  intros Hf Hg. unfold matches, from_flake, flake_eq. destruct (meta_parts (f_m f)) as [lang i] eqn:Ef. simpl.
  destruct (meta_parts (f_m g)) as [lang' i'] eqn:Eg.
  assert (lang = lang' ∧ i = i' ↔ f_m f = f_m g) as Hm.
  { destruct (f_m f) as [[l1 j1]|], (f_m g) as [[l2 j2]|]; simpl in *; simplify_eq; naive_solver. }
  assert (∀ b1 b2 b3 b4 b5 c : bool, (if negb b1 || negb b2 || negb b3 || negb b4 || negb b5 then false else c) = true
    ↔ b1 = true ∧ b2 = true ∧ b3 = true ∧ b4 = true ∧ b5 = true ∧ c = true) as -> by (by intros [] [] [] [] [] []; simpl; naive_solver).
  rewrite !andb_true_iff, !bool_decide_eq_true. tauto.
Qed.

(** ** Bundles in any order *)

Inductive SlotKind := SGraph | SSubject | SPredicate | SObject | SDatatype | SLang | SListIndex | SOther.

Definition slot_kind (p : Sid) : SlotKind :=
  if is_reifies REIFIES_GRAPH p then SGraph
  else if is_reifies REIFIES_SUBJECT p then SSubject
  else if is_reifies REIFIES_PREDICATE p then SPredicate
  else if is_reifies REIFIES_OBJECT p then SObject
  else if is_reifies REIFIES_DATATYPE p then SDatatype
  else if is_reifies REIFIES_LANG p then SLang
  else if is_reifies REIFIES_LIST_INDEX p then SListIndex
  else SOther.

Definition read_kind (k : SlotKind) (st : Slots) (f : Flake) : EdgeKeyDecodeError + Slots :=
  let '(mkSlots g s p o dt lang bg) := st in
  match k with
  | SGraph => read_ref "f:reifiesGraph" g (f_o f) (λ sid, mkSlots (Some sid) s p o dt lang bg)
  | SSubject => read_ref "f:reifiesSubject" s (f_o f) (λ sid, mkSlots g (Some sid) p o dt lang bg)
  | SPredicate => read_ref "f:reifiesPredicate" p (f_o f) (λ sid, mkSlots g s (Some sid) o dt lang bg)
  | SObject => match o with
               | Some _ => inl (Duplicate "f:reifiesObject")
               | None => inr (mkSlots g s p (Some (f_o f, f_dt f)) dt lang bg)
               end
  | SDatatype => read_ref "f:reifiesDatatype" dt (f_o f) (λ sid, mkSlots g s p o (Some sid) lang bg)
  | SLang => match lang with
             | Some _ => inl (Duplicate "f:reifiesLang")
             | None => match f_o f with
                       | VString l => inr (mkSlots g s p o dt (Some l) bg)
                       | _ => inl (WrongType "f:reifiesLang")
                       end
             end
  | SListIndex => inl (DeferredFeature "f:reifiesListIndex")
  | SOther => inr st
  end.

Lemma read_slot_kind st f : read_slot st f = read_kind (slot_kind (f_p f)) st f.
Proof.
  unfold read_slot, slot_kind. destruct st. do 7 (destruct (is_reifies _ (f_p f)); [reflexivity|]). reflexivity.
Qed.

Lemma slot_kind_sid p : match slot_kind p with
  | SGraph => p = reifies_sid REIFIES_GRAPH
  | SSubject => p = reifies_sid REIFIES_SUBJECT
  | SPredicate => p = reifies_sid REIFIES_PREDICATE
  | SObject => p = reifies_sid REIFIES_OBJECT
  | SDatatype => p = reifies_sid REIFIES_DATATYPE
  | SLang => p = reifies_sid REIFIES_LANG
  | SListIndex => p = reifies_sid REIFIES_LIST_INDEX
  | SOther => is_reserved_reifies_predicate p = false
  end.
Proof.
  assert (∀ name, is_reifies name p = true → p = reifies_sid name) as Hsid.
  { intros name. unfold is_reifies. destruct p as [ns n]. simpl.
    intros [->%Z.eqb_eq ->%bool_decide_eq_true]%andb_true_iff. done. }
  unfold slot_kind.
  destruct (is_reifies REIFIES_GRAPH p) eqn:E0; [by apply Hsid|].
  destruct (is_reifies REIFIES_SUBJECT p) eqn:E1; [by apply Hsid|].
  destruct (is_reifies REIFIES_PREDICATE p) eqn:E2; [by apply Hsid|].
  destruct (is_reifies REIFIES_OBJECT p) eqn:E3; [by apply Hsid|].
  destruct (is_reifies REIFIES_DATATYPE p) eqn:E4; [by apply Hsid|].
  destruct (is_reifies REIFIES_LANG p) eqn:E5; [by apply Hsid|].
  destruct (is_reifies REIFIES_LIST_INDEX p) eqn:E6; [by apply Hsid|].
  unfold is_reserved_reifies_predicate, is_reifies in *. destruct (namespace_code p =? FLUREE_DB); [|done]. simpl in *.
  apply bool_decide_eq_false. rewrite !elem_of_cons, elem_of_nil.
  repeat match goal with H : bool_decide _ = false |- _ => apply bool_decide_eq_false in H end.
  unfold REIFIES_GRAPH, REIFIES_SUBJECT, REIFIES_PREDICATE, REIFIES_OBJECT, REIFIES_DATATYPE, REIFIES_LANG,
    REIFIES_LIST_INDEX in *. naive_solver.
Qed.

(** A flake that is read fills an empty slot. *)
Lemma read_kind_inv k g s p o dt lang bg f st1 : read_kind k (mkSlots g s p o dt lang bg) f = inr st1 →
  match k with
  | SGraph => g = None ∧ ∃ sid, f_o f = VRef sid ∧ st1 = mkSlots (Some sid) s p o dt lang bg
  | SSubject => s = None ∧ ∃ sid, f_o f = VRef sid ∧ st1 = mkSlots g (Some sid) p o dt lang bg
  | SPredicate => p = None ∧ ∃ sid, f_o f = VRef sid ∧ st1 = mkSlots g s (Some sid) o dt lang bg
  | SObject => o = None ∧ st1 = mkSlots g s p (Some (f_o f, f_dt f)) dt lang bg
  | SDatatype => dt = None ∧ ∃ sid, f_o f = VRef sid ∧ st1 = mkSlots g s p o (Some sid) lang bg
  | SLang => lang = None ∧ ∃ l, f_o f = VString l ∧ st1 = mkSlots g s p o dt (Some l) bg
  | SListIndex => False
  | SOther => st1 = mkSlots g s p o dt lang bg
  end.
Proof.
  assert (∀ name slot set, read_ref name slot (f_o f) set = inr st1 →
    slot = None ∧ ∃ sid, f_o f = VRef sid ∧ st1 = set sid) as Href.
  { intros name slot set. unfold read_ref. destruct slot; [discriminate|].
    destruct (f_o f); try discriminate. intros [= <-]. eauto. }
  unfold read_kind. destruct k; try apply Href; try discriminate.
  - destruct o; [discriminate|]. by intros [= <-].
  - destruct lang; [discriminate|]. destruct (f_o f); try discriminate. intros [= <-]. eauto.
  - by intros [= <-].
Qed.

(** Two flakes that are both read can be read in either order. *)
Lemma read_kind_comm k j st f g st1 st2 : read_kind k st f = inr st1 → read_kind j st1 g = inr st2 →
  ∃ st1', read_kind j st g = inr st1' ∧ read_kind k st1' f = inr st2.
Proof.
  destruct st as [xg xs xp xo xdt xl bg]. intros H1%read_kind_inv.
  assert (∃ yg ys yp yo ydt yl ybg, st1 = mkSlots yg ys yp yo ydt yl ybg) as (yg & ys & yp & yo & ydt & yl & ybg & ->)
    by (destruct st1; eauto 10).
  intros H2%read_kind_inv. unfold read_kind, read_ref.
  destruct k; destruct j; try contradiction;
    repeat match goal with H : _ ∧ _ |- _ => destruct H | H : ∃ _, _ |- _ => destruct H
      | H : mkSlots _ _ _ _ _ _ _ = mkSlots _ _ _ _ _ _ _ |- _ => injection H; clear H; intros; subst end;
    try discriminate; subst;
    repeat match goal with H : f_o _ = _ |- _ => rewrite H end;
    (eexists; split; [reflexivity|]); reflexivity.
Qed.

Lemma read_kind_bg k st f st1 : read_kind k st f = inr st1 → sl_bundle_g st1 = sl_bundle_g st.
Proof.
  destruct st. intros Hr%read_kind_inv. destruct k; try contradiction;
    repeat match goal with H : _ ∧ _ |- _ => destruct H | H : ∃ _, _ |- _ => destruct H end; by subst.
Qed.

Definition with_bundle_g (bg : option Sid) (st : Slots) : Slots :=
  mkSlots (sl_g st) (sl_s st) (sl_p st) (sl_o st) (sl_dt st) (sl_lang st) (Some bg).

(** Reading a bundle flake: its graph is that of the others. *)
Lemma read_fact_bundle st f st1 : is_reserved_reifies_predicate (f_p f) = true →
  read_fact st f = inr st1 ↔
  (∀ bg, sl_bundle_g st = Some bg → bg = f_g f)
  ∧ read_kind (slot_kind (f_p f)) (with_bundle_g (f_g f) st) f = inr st1.
Proof.
  intros Hres. unfold read_fact. rewrite Hres. cbn [negb]. unfold read_graph.
  destruct (sl_bundle_g st) as [bg|] eqn:Ebg.
  - destruct (bool_decide_reflect (bg = f_g f)) as [->|Hne].
    + assert (with_bundle_g (f_g f) st = st) as -> by (destruct st; simpl in *; by subst).
      rewrite read_slot_kind. split; [intros E; split; [by intros ? [= <-]|done]|by intros [_ ?]].
    + split; [discriminate|]. intros [Hbg _]. by specialize (Hbg bg eq_refl).
  - rewrite read_slot_kind. split; [by intros ?; split|by intros [_ ?]].
Qed.

Lemma read_fact_skip st f : is_reserved_reifies_predicate (f_p f) = false → read_fact st f = inr st.
Proof. intros Hres. unfold read_fact. by rewrite Hres. Qed.

Lemma read_fact_comm st f g st1 st2 : read_fact st f = inr st1 → read_fact st1 g = inr st2 →
  ∃ st1', read_fact st g = inr st1' ∧ read_fact st1' f = inr st2.
Proof.
  destruct (is_reserved_reifies_predicate (f_p f)) eqn:Rf.
  2:{ rewrite (read_fact_skip st f) by done. intros [= <-] Hg. exists st2. by rewrite (read_fact_skip st2 f). }
  destruct (is_reserved_reifies_predicate (f_p g)) eqn:Rg.
  2:{ intros Hf. rewrite (read_fact_skip st1 g) by done. intros [= <-]. exists st. by rewrite (read_fact_skip st g). }
  rewrite !read_fact_bundle by done. intros [Bf Kf] [Bg Kg].
  pose proof (read_kind_bg _ _ _ _ Kf) as E1. simpl in E1.
  assert (f_g f = f_g g) as Eg by (by apply Bg).
  assert (with_bundle_g (f_g g) st1 = st1) as E1' by (destruct st1; simpl in *; by rewrite E1, Eg).
  rewrite E1' in Kg. destruct (read_kind_comm _ _ _ _ _ _ _ Kf Kg) as (st1' & Kg' & Kf').
  exists st1'. rewrite read_fact_bundle by done. rewrite <- Eg.
  pose proof (read_kind_bg _ _ _ _ Kg') as E2. simpl in E2.
  split_and!; [exact Bf|exact Kg'|]. apply read_fact_bundle; [done|]. split; [by intros bg [= ->]%(eq_trans (eq_sym E2))|].
  assert (with_bundle_g (f_g f) st1' = st1') as -> by (destruct st1'; simpl in *; by rewrite E2). done.
Qed.

(** A bundle that is read can be read in any order. *)
Lemma read_facts_perm l k : l ≡ₚ k → ∀ st st', read_facts st l = inr st' → read_facts st k = inr st'.
Proof.
  induction 1 as [|f l k _ IH|f g l|l k m _ IH1 _ IH2]; intros st st'; simpl; [done|..].
  - destruct (read_fact st f); [done|]. apply IH.
  - destruct (read_fact st g) as [|st1] eqn:Eg; [done|]. destruct (read_fact st1 f) as [|st2] eqn:Ef; [done|].
    destruct (read_fact_comm _ _ _ _ _ Eg Ef) as (st1' & -> & ->). done.
  - intros Hl. by apply IH2, IH1.
Qed.

Lemma from_reifies_facts_perm l k e : l ≡ₚ k → from_reifies_facts l = inr e → from_reifies_facts k = inr e.
Proof.
  intros Hp. unfold from_reifies_facts. destruct (read_facts no_slots l) as [|st] eqn:El; [done|].
  by rewrite (read_facts_perm _ _ Hp _ _ El).
Qed.

(** ** Round trip *)

Lemma read_next st f l st' : is_reserved_reifies_predicate (f_p f) = true →
  (∀ bg, sl_bundle_g st = Some bg → bg = f_g f) →
  read_kind (slot_kind (f_p f)) (with_bundle_g (f_g f) st) f = inr st' → read_facts st (f :: l) = read_facts st' l.
Proof. intros Hr Hb Hk. cbn [read_facts]. by rewrite (proj2 (read_fact_bundle st f st' Hr) (conj Hb Hk)). Qed.

Ltac read_bundle :=
  repeat (erewrite read_next; [|by vm_compute|by intros ? [= <-]|reflexivity]);
  cbn [read_facts]; unfold slots_edge; cbn; rewrite ?bool_decide_eq_true_2 by done; reflexivity.

Lemma read_own e ann t op : ek_list_i e = None → from_reifies_facts (to_reifies_facts e ann t op) = inr e.
Proof.
  destruct e as [g s p o dt lang i]. simpl. intros ->. unfold from_reifies_facts, to_reifies_facts.
  destruct g as [g|], lang as [lang|]; cbn [ek_g ek_lang app]; read_bundle.
Qed.

Lemma jsonld_facts e ann t op : to_reifies_facts_jsonld_compatible e ann t op
  = filter (λ f, bool_decide (f_p f = reifies_sid REIFIES_DATATYPE) = false) (to_reifies_facts e ann t op).
Proof.
  apply list_filter_iff. intros f. unfold is_reifies. destruct (f_p f) as [ns n]. simpl.
  rewrite andb_false_iff, !bool_decide_eq_false, Z.eqb_neq. unfold reifies_sid.
  split; [intros Hor [= -> ->]; naive_solver|]. intros Hne. destruct (decide (ns = FLUREE_DB)); [right|by left]. naive_solver.
Qed.

Lemma read_own_jsonld e ann t op :
  ek_list_i e = None → from_reifies_facts (to_reifies_facts_jsonld_compatible e ann t op) = inr e.
Proof.
  destruct e as [g s p o dt lang i]. simpl. intros ->. rewrite jsonld_facts. unfold from_reifies_facts, to_reifies_facts.
  destruct g as [g|], lang as [lang|]; cbn [ek_g ek_lang app];
    repeat first [rewrite filter_cons_True by (by vm_compute) | rewrite filter_cons_False by (by vm_compute)];
    rewrite filter_nil; read_bundle.
Qed.

(** ** What a bundle that is read holds *)

Definition bundle (facts : list Flake) : list Flake :=
  filter (λ f, is_reserved_reifies_predicate (f_p f) = true) facts.

(** What the decoder looks at: predicate, object, and the datatype of the
    reified object. *)
Definition statement (f : Flake) : Sid * FlakeValue * option Sid :=
  (f_p f, f_o f, if decide (f_p f = reifies_sid REIFIES_OBJECT) then Some (f_dt f) else None).

Definition slot_statements (st : Slots) : list (Sid * FlakeValue * option Sid) :=
  let ref name slot := (λ sid, (reifies_sid name, VRef sid, None)) <$> option_list slot in
  ref REIFIES_GRAPH (sl_g st) ++ ref REIFIES_SUBJECT (sl_s st) ++ ref REIFIES_PREDICATE (sl_p st)
  ++ ((λ '(o, dt), (reifies_sid REIFIES_OBJECT, o, Some dt)) <$> option_list (sl_o st))
  ++ ref REIFIES_DATATYPE (sl_dt st)
  ++ ((λ l, (reifies_sid REIFIES_LANG, VString l, None)) <$> option_list (sl_lang st)).

Lemma read_kind_statement st f st1 : is_reserved_reifies_predicate (f_p f) = true →
  read_kind (slot_kind (f_p f)) st f = inr st1 → slot_statements st1 ≡ₚ statement f :: slot_statements st.
Proof.
  intros Hres. pose proof (slot_kind_sid (f_p f)) as Hk. destruct st as [g s p o dt lang bg].
  intros Hr%read_kind_inv. unfold statement. destruct (slot_kind (f_p f)); try contradiction; try congruence;
    repeat match goal with H : _ ∧ _ |- _ => destruct H | H : ∃ _, _ |- _ => destruct H end; subst;
    rewrite Hk; (destruct (decide (_ = reifies_sid REIFIES_OBJECT)) as [Hd|Hd]; [try discriminate Hd|try done]);
    unfold slot_statements; cbn [sl_g sl_s sl_p sl_o sl_dt sl_lang option_list]; csimpl;
    repeat match goal with H : f_o _ = _ |- _ => rewrite H end; solve_Permutation.
Qed.

Lemma read_facts_statements facts st st' : read_facts st facts = inr st' →
  slot_statements st' ≡ₚ (statement <$> bundle facts) ++ slot_statements st
  ∧ (∀ bg, sl_bundle_g st = Some bg → sl_bundle_g st' = Some bg)
  ∧ Forall (λ f, sl_bundle_g st' = Some (f_g f)) (bundle facts).
Proof.
  revert st. induction facts as [|f facts IH]; intros st; cbn [read_facts].
  { intros [= <-]. split_and!; [done|done|constructor]. }
  unfold bundle. rewrite filter_cons. destruct (decide (is_reserved_reifies_predicate (f_p f) = true)) as [Hres|Hres].
  - destruct (read_fact st f) as [|st1] eqn:E; [done|]. apply read_fact_bundle in E as [Hb Hk]; [|done].
    intros (I1 & I2 & I3)%IH. fold (bundle facts). pose proof (read_kind_bg _ _ _ _ Hk) as Ebg. simpl in Ebg.
    apply read_kind_statement in Hk; [|done]. specialize (I2 _ Ebg).
    change (slot_statements (with_bundle_g (f_g f) st)) with (slot_statements st) in Hk.
    split_and!.
    + rewrite I1, Hk. csimpl. solve_Permutation.
    + intros bg Hbg. by rewrite (Hb bg Hbg).
    + by constructor.
  - apply not_true_is_false in Hres. rewrite read_fact_skip by done. apply IH.
Qed.

Lemma from_reifies_facts_sound facts e : from_reifies_facts facts = inr e →
  ek_list_i e = None ∧ Forall (λ f, f_g f = ek_g e) (bundle facts)
  ∧ ∀ ann t op, statement <$> bundle facts ≡ₚ statement <$> to_reifies_facts e ann t op
    ∨ statement <$> bundle facts ≡ₚ statement <$> to_reifies_facts_jsonld_compatible e ann t op.
Proof.
  unfold from_reifies_facts. destruct (read_facts no_slots facts) as [|st] eqn:Er; [done|].
  apply read_facts_statements in Er as (Hst & _ & Hg). rewrite app_nil_r in Hst.
  unfold slots_edge. destruct st as [g [s|] [p|] [[o o_dt]|] dt lang bg]; try done. cbn [sl_g sl_s sl_p sl_o sl_dt sl_lang sl_bundle_g].
  assert (∃ d, (match dt with Some dt => if bool_decide (dt = o_dt) then inr dt else inl DatatypeMismatch | None => inr o_dt end
    = (inr d : EdgeKeyDecodeError + Sid)) ∧ d = o_dt ∧ (dt = None ∨ dt = Some o_dt)
    ∨ ∃ err, match dt with Some dt => if bool_decide (dt = o_dt) then inr dt else inl DatatypeMismatch | None => inr o_dt end
    = (inl err : EdgeKeyDecodeError + Sid)) as (d & [(-> & -> & Hdt)|[err ->]]); [| |done].
  { exists o_dt. destruct dt as [dt|]; [|by left; split_and!; [..|left]].
    destruct (bool_decide_reflect (dt = o_dt)) as [->|]; [left; split_and!; [done|done|by right]|right; by eexists]. }
  destruct (bool_decide_reflect (g = default None bg)) as [Ebg|]; [|done]. intros [= <-]. split_and!; [done| |].
  - eapply Forall_impl; [exact Hg|]. intros f Hf. simpl in *. rewrite Ebg, Hf. done.
  - intros ann t op. rewrite <- Hst. rewrite jsonld_facts. unfold to_reifies_facts, slot_statements.
    cbn [ek_g ek_s ek_p ek_o ek_dt ek_lang ek_list_i sl_g sl_s sl_p sl_o sl_dt sl_lang].
    destruct Hdt as [-> | ->]; [right|left]; destruct g as [g|], lang as [lang|]; cbn [app option_list];
      repeat first [rewrite filter_cons_True by (by vm_compute) | rewrite filter_cons_False by (by vm_compute)];
      rewrite ?filter_nil; csimpl; unfold statement; cbn [f_p f_o f_dt];
      repeat first [rewrite decide_True by done | rewrite decide_False by (by vm_compute)]; done.
Qed.

(** The facts of a slice that name the datatype of the reified object. *)
Definition datatype_facts (facts : list Flake) : list Flake :=
  filter (λ f, f_p f = reifies_sid REIFIES_DATATYPE) facts.

(** A slice with a datatype fact that reads is not the shorter bundle. *)
Lemma datatype_fact_not_jsonld facts e ann t op f :
  f ∈ datatype_facts facts →
  ¬ statement <$> bundle facts ≡ₚ statement <$> to_reifies_facts_jsonld_compatible e ann t op.
Proof.
  intros [Hp Hin]%list_elem_of_filter Hperm.
  assert (statement f ∈ statement <$> bundle facts) as Hst.
  { apply list_elem_of_fmap_2, list_elem_of_filter. split; [|done]. rewrite Hp. by vm_compute. }
  rewrite Hperm, jsonld_facts in Hst.
  apply list_elem_of_fmap in Hst as (f' & Ef & [Hn _]%list_elem_of_filter).
  apply bool_decide_eq_false in Hn. apply Hn. injection Ef as Ef _ _. congruence.
Qed.

(** C24: Complete bundles of reifying flakes and edges correspond.  The bundle of
    an edge without list index reads back as the edge in whatever order its
    flakes come; and whatever has exactly one datatype fact and reads as an
    edge consists, up to order, of the statements of the bundle of that edge,
    all in its graph, beside flakes that are not part of a bundle. *)
Theorem edge_bundle_roundtrip e ann t op facts :
  (ek_list_i e = None → facts ≡ₚ to_reifies_facts e ann t op → from_reifies_facts facts = inr e)
  ∧ (length (datatype_facts facts) = 1%nat → from_reifies_facts facts = inr e →
       ek_list_i e = None ∧ Forall (λ f, f_g f = ek_g e) (bundle facts)
       ∧ statement <$> bundle facts ≡ₚ statement <$> to_reifies_facts e ann t op).
Proof.
  split.
  - intros Hi Hp. symmetry in Hp. eapply from_reifies_facts_perm; [exact Hp|]. by apply read_own.
  - intros Hd (Hi & Hg & Hst)%from_reifies_facts_sound. split_and!; [done..|].
    destruct (Hst ann t op) as [?|Hj]; [done|]. destruct (datatype_facts facts) as [|f l] eqn:E; [done|].
    destruct (datatype_fact_not_jsonld facts e ann t op f); [rewrite E; by left|done].
Qed.

(** The bundle the JSON-LD lowering writes, without its datatype fact, reads
    back too. *)
Lemma jsonld_bundle_reads e ann t op facts :
  ek_list_i e = None → facts ≡ₚ to_reifies_facts_jsonld_compatible e ann t op → from_reifies_facts facts = inr e.
Proof. intros Hi Hp. symmetry in Hp. eapply from_reifies_facts_perm; [exact Hp|]. by apply read_own_jsonld. Qed.
End edges.

(** ** A concrete edge *)

Definition demo_edge : EdgeKey :=
  mkEdge (Some (mkSid 100 "g")) (mkSid 100 "alice") (mkSid 100 "knows") (VRef (mkSid 100 "bob")) id_datatype_sid None None.

Lemma edge_bundle_roundtrip_witness :
  let facts := reverse (to_reifies_facts demo_edge (mkSid 100 "a") 3 true) in
  from_reifies_facts facts = inr demo_edge
  ∧ statement <$> bundle facts ≡ₚ statement <$> to_reifies_facts demo_edge (mkSid 100 "b") 9 false
  ∧ from_reifies_facts (tail (to_reifies_facts demo_edge (mkSid 100 "a") 3 true)) = inl GraphMismatch.
Proof.
  intros facts.
  assert (from_reifies_facts facts = inr demo_edge) as Hr.
  { apply (proj1 (edge_bundle_roundtrip demo_edge (mkSid 100 "a") 3 true facts)); [reflexivity|].
    apply reverse_Permutation. }
  split; [exact Hr|]. split; [|by vm_compute].
  apply (proj2 (edge_bundle_roundtrip demo_edge (mkSid 100 "b") 9 false facts)); [by vm_compute|exact Hr].
Defined.
