(* ===== verification/Attachments.v ===== *)
(** * The attachment overlay ([fluree-db-novelty/src/attachments.rs])

    Which annotations are attached to which edges, derived from the bundles of
    reifying flakes that pass through the novelty overlay.  A [BTreeMap] is a
    list of entries in key order. *)

From S2P Require Import Prelude Text Vocab CommitWire CommitOp Ordering FlakeOrder FlakeTheorems.
From S2P Require Import FlakeTheorems FlakeEq Edge.
#[local] Open Scope Z_scope.

(** ** Maps in key order *)

Section btree.
Context {K V : Type} (cmp : K → K → comparison).

Fixpoint bt_get (k : K) (m : list (K * V)) : option V :=
  match m with
  | [] => None
  | (k', v) :: m => match cmp k k' with Eq => Some v | Lt => None | Gt => bt_get k m end
  end.

(** [entry(k).or_insert(empty)], then an update of the value. *)
Fixpoint bt_update (k : K) (empty : V) (upd : V → V) (m : list (K * V)) : list (K * V) :=
  match m with
  | [] => [(k, upd empty)]
  | (k', v) :: m =>
      match cmp k k' with
      | Eq => (k', upd v) :: m
      | Lt => (k, upd empty) :: (k', v) :: m
      | Gt => (k', v) :: bt_update k empty upd m
      end
  end.

Definition bt_sorted (m : list (K * V)) : Prop := StronglySorted (λ a b, cmp a.1 b.1 = Lt) m.

Context {P : K → Prop} `{!CmpOrder P cmp}.

Lemma cmp_lt_trans x y z : P x → P y → P z → cmp x y = Lt → cmp y z = Lt → cmp x z = Lt.
Proof.
  intros Px Py Pz Hxy Hyz. pose proof (cmp_trans x y z Px Py Pz) as Ht. rewrite Hxy, Hyz in Ht. specialize (Ht eq_refl eq_refl).
  destruct (cmp x z) eqn:E; [|done|done].
  rewrite (cmp_eq_subst (P := P) x z y Px Pz Py E) in Hxy. rewrite (cmp_flip (P := P) y z), Hyz in Hxy. done.
Qed.

Lemma bt_get_update k k' empty upd m : P k → P k' → Forall (λ e, P e.1) m →
  bt_get k (bt_update k' empty upd m)
  = if decide (cmp k k' = Eq) then Some (upd (default empty (bt_get k m))) else bt_get k m.
Proof.
  intros Pk Pk'. induction 1 as [|[x v] m Px Pm IH]; cbn [bt_update bt_get].
  { destruct (cmp k k'); [by rewrite decide_True|by rewrite decide_False..]. }
  simpl in Px. destruct (cmp k' x) eqn:Ex; cbn [bt_get].
  - rewrite (cmp_eq_subst_r (P := P) k k' x) by done. destruct (cmp k x); [by rewrite decide_True|by rewrite decide_False..].
  - destruct (cmp k k') eqn:E.
    + rewrite decide_True by done. rewrite (cmp_eq_subst (P := P) k k' x), Ex by done. done.
    + rewrite decide_False by done. by rewrite (cmp_lt_trans k k' x).
    + by rewrite decide_False.
  - destruct (cmp k x) eqn:Ekx.
    + rewrite decide_False; [done|]. rewrite (cmp_eq_subst (P := P) k x k') by done.
      by rewrite (cmp_flip (P := P) k' x), Ex.
    + rewrite decide_False; [done|]. rewrite (cmp_lt_trans k x k'); [done..|].
      by rewrite (cmp_flip (P := P) k' x), Ex.
    + apply IH.
Qed.

Lemma bt_update_keys k empty upd m e : e ∈ bt_update k empty upd m → e.1 = k ∨ ∃ e', e' ∈ m ∧ e'.1 = e.1.
Proof.
  induction m as [|[x v] m IH]; simpl; [intros He%list_elem_of_singleton; subst; by left|].
  assert (∃ e', e' ∈ (x, v) :: m ∧ e'.1 = x) as Hhead by (exists (x, v); split; [by left|done]).
  assert (∀ e, e ∈ m → ∃ e', e' ∈ (x, v) :: m ∧ e'.1 = e.1) as Htail by (intros e'' ?; exists e''; split; [by right|done]).
  destruct (cmp k x); rewrite !elem_of_cons.
  - intros [->|He]; right; auto.
  - intros [->|[->|He]]; auto.
  - intros [->|He]; auto. destruct (IH He) as [?|(e' & ? & <-)]; auto.
Qed.

Lemma bt_update_P k empty upd m : P k → Forall (λ e, P e.1) m → Forall (λ e, P e.1) (bt_update k empty upd m).
Proof.
  intros Pk Pm. rewrite Forall_forall in Pm |- *. intros e He.
  destruct (bt_update_keys _ _ _ _ _ He) as [->|(e' & ? & <-)]; auto.
Qed.

Lemma bt_update_sorted k empty upd m : P k → Forall (λ e, P e.1) m → bt_sorted m → bt_sorted (bt_update k empty upd m).
Proof.
  intros Pk Pm0 Hs0. revert Pm0. induction Hs0 as [|[x v] m Hs IH Hx]; intros Pm0; simpl; [repeat constructor|].
  apply Forall_cons in Pm0 as [Px Pm]. simpl in Px. destruct (cmp k x) eqn:E.
  - constructor; [done|]. eapply Forall_impl; [exact Hx|]. done.
  - constructor; [by constructor|]. constructor; [done|]. rewrite Forall_forall in Hx, Pm |- *.
    intros e He. simpl. apply (cmp_lt_trans k x e.1); auto.
  - constructor; [by apply IH|]. rewrite Forall_forall in Hx |- *. intros e He. simpl.
    destruct (bt_update_keys _ _ _ _ _ He) as [->|(e' & He' & <-)]; [by rewrite (cmp_flip (P := P) k x), E|by apply (Hx e')].
Qed.

Lemma bt_get_in k v m : bt_sorted m → (k, v) ∈ m → bt_get k m = Some v.
Proof.
  induction 1 as [|[x u] m Hs IH Hx]; [by intros ?%elem_of_nil|].
  intros [[= -> ->]|Hin]%elem_of_cons; cbn [bt_get]; [by rewrite (cmp_refl (P := P))|].
  rewrite Forall_forall in Hx. specialize (Hx _ Hin). simpl in Hx.
  rewrite (cmp_flip (P := P) x k), Hx. simpl. by apply IH.
Qed.

Lemma bt_get_Some k v m : bt_get k m = Some v → ∃ k', (k', v) ∈ m ∧ cmp k k' = Eq.
Proof.
  induction m as [|[x u] m IH]; cbn [bt_get]; [done|]. destruct (cmp k x) eqn:E; [|done|].
  - intros [= ->]. exists x. split; [by left|done].
  - intros (k' & ? & ?)%IH. exists k'. split; [by right|done].
Qed.

Lemma bt_get_eq k k' m : P k → P k' → Forall (λ e, P e.1) m → cmp k k' = Eq → bt_get k m = bt_get k' m.
Proof.
  intros Pk Pk' Hm Heq. induction Hm as [|[x v] m Px Hm IH]; cbn [bt_get]; [done|].
  rewrite (cmp_eq_subst (P := P) k k' x) by done. by rewrite IH.
Qed.
End btree.

(** ** The overlay *)

Definition u64_saturating_incr (n : Z) : Z := Z.min u64_max (n + 1).

(** [(t, op) >= (cur_t, cur_op)], with [false] before [true]. *)
Definition event_ge (t : Z) (op : bool) (cur : Z * bool) : bool :=
  (cur.1 <? t) || ((t =? cur.1) && (op || negb cur.2)).

Definition latest_event (cur : option (Z * bool)) (e : Z * bool) : option (Z * bool) :=
  match cur with
  | None => Some e
  | Some c => if event_ge e.1 e.2 c then Some e else Some c
  end.

(** [latest_assertions_at]: the keys whose latest event up to [as_of_t] asserts. *)
Definition latest_assertions_at {T} (cmp : T → T → comparison) (rows : list (T * Z * bool)) (as_of_t : Z) : list T :=
  let latest := foldl (λ m '(other, t, op),
                         if as_of_t <? t then m
                         else bt_update cmp other None (λ cur, latest_event cur (t, op)) m) [] rows in
  omap (λ '(other, cur), match cur with Some (_, true) => Some other | _ => None end) latest.

(** The keys whose latest event asserts. *)
Lemma latest_event_max evs c : foldl latest_event None evs = Some c →
  c ∈ evs ∧ ∀ t op, (t, op) ∈ evs → t < c.1 ∨ t = c.1 ∧ (op = true → c.2 = true).
Proof.
  revert c. induction evs as [|[t op] evs IH] using rev_ind; intros c; [done|].
  rewrite foldl_app. simpl. destruct (foldl latest_event None evs) as [[t0 op0]|] eqn:E; simpl.
  - destruct (IH _ eq_refl) as [Hin Hmax]. unfold event_ge. simpl.
    destruct (Z.ltb_spec t0 t), (Z.eqb_spec t t0); simpl; try lia;
      try (destruct op, op0; simpl); intros [= <-]; simpl;
      (split; [by (apply elem_of_app; auto || (right; apply list_elem_of_singleton))|]);
      intros t' op' [H'|[= -> ->]%list_elem_of_singleton]%elem_of_app;
      try (destruct (Hmax _ _ H') as [?|[? ?]]); simpl in *; try lia; right; split; auto; lia.
  - intros [= <-]. destruct evs as [|e evs _] using rev_ind.
    + split; [apply elem_of_app; right; by apply list_elem_of_singleton|].
      intros t' op' [= -> ->]%list_elem_of_singleton. by right.
    + rewrite foldl_app in E. simpl in E. destruct (foldl latest_event None evs); simpl in E; by repeat case_match.
Qed.

Lemma latest_event_some evs e : e ∈ evs → is_Some (foldl latest_event None evs).
Proof.
  destruct evs as [|e' evs _] using rev_ind; [by intros ?%elem_of_nil|]. intros _. rewrite foldl_app. simpl.
  destruct (foldl latest_event None evs) as [c|]; simpl; [|by eexists]. case_match; by eexists.
Qed.

Lemma latest_event_asserts evs :
  (∃ t, foldl latest_event None evs = Some (t, true)) ↔ ∃ t, (t, true) ∈ evs ∧ ∀ t' op, (t', op) ∈ evs → t' ≤ t.
Proof.
  split.
  - intros [t E]. destruct (latest_event_max _ _ E) as [Hin Hmax]. exists t. split; [done|].
    intros t' op H'. destruct (Hmax _ _ H') as [?|[? _]]; simpl in *; lia.
  - intros (t & Hin & Hmax). destruct (latest_event_some _ _ Hin) as [[t0 op0] E].
    destruct (latest_event_max _ _ E) as [Hin0 Hmax0]. destruct (Hmax0 _ _ Hin) as [Hlt|[Heq Hop]]; simpl in *.
    + specialize (Hmax _ _ Hin0). lia.
    + rewrite E, (Hop eq_refl). by eexists.
Qed.

Section latest.
Context {T : Type} (cmp : T → T → comparison) {P : T → Prop} `{!CmpOrder P cmp}.

Definition latest_map (rows : list (T * Z * bool)) (as_of_t : Z) : list (T * option (Z * bool)) :=
  foldl (λ m '(other, t, op),
           if as_of_t <? t then m
           else bt_update cmp other None (λ cur, latest_event cur (t, op)) m) [] rows.

(** The events of a key up to a time. *)
Definition key_events (k : T) (as_of_t : Z) (rows : list (T * Z * bool)) : list (Z * bool) :=
  (λ r, (r.1.2, r.2)) <$> filter (λ r, cmp k r.1.1 = Eq ∧ r.1.2 ≤ as_of_t) rows.

Lemma key_events_snoc k as_of_t rows r :
  key_events k as_of_t (rows ++ [r])
  = key_events k as_of_t rows ++ (if decide (cmp k r.1.1 = Eq ∧ r.1.2 ≤ as_of_t) then [(r.1.2, r.2)] else []).
Proof. unfold key_events. rewrite filter_app, fmap_app, filter_cons, filter_nil. by case_decide. Qed.

Lemma latest_map_ok rows as_of_t : Forall (λ r, P r.1.1) rows →
  Forall (λ e, P e.1) (latest_map rows as_of_t) ∧ bt_sorted cmp (latest_map rows as_of_t)
  ∧ ∀ k, P k → default None (bt_get cmp k (latest_map rows as_of_t))
                = foldl latest_event None (key_events k as_of_t rows).
Proof.
  induction rows as [|[[x t] op] rows IH] using rev_ind; intros HP.
  { split_and!; [constructor|constructor|done]. }
  apply Forall_app in HP as [HP [Px _]%Forall_cons]. simpl in Px. destruct (IH HP) as (I1 & I2 & I3).
  unfold latest_map in *. rewrite foldl_app. cbn [foldl]. destruct (Z.ltb_spec as_of_t t) as [Ht|Ht].
  - split_and!; [done..|]. intros k Pk. rewrite key_events_snoc, decide_False by (simpl; lia).
    by rewrite app_nil_r, I3.
  - split_and!; [by apply (bt_update_P cmp)|by apply (bt_update_sorted cmp (P := P))|].
    intros k Pk. rewrite (bt_get_update cmp (P := P)), key_events_snoc by done.
    cbn [fst snd]. destruct (decide (cmp k x = Eq)) as [E|E].
    + rewrite decide_True by done. rewrite foldl_app, <- I3 by done. done.
    + rewrite decide_False by (by intros [? _]). by rewrite app_nil_r, I3.
Qed.

Lemma latest_assertions_spec rows as_of_t k : Forall (λ r, P r.1.1) rows → P k →
  (∃ x, x ∈ latest_assertions_at cmp rows as_of_t ∧ cmp k x = Eq)
  ↔ ∃ t, (t, true) ∈ key_events k as_of_t rows ∧ ∀ t' op, (t', op) ∈ key_events k as_of_t rows → t' ≤ t.
Proof.
  intros HP Pk. rewrite <- latest_event_asserts. destruct (latest_map_ok rows as_of_t HP) as (I1 & I2 & I3).
  rewrite <- I3 by done. change (latest_assertions_at cmp rows as_of_t) with
    (omap (λ '(other, cur), match cur with Some (_, true) => Some other | _ => None end) (latest_map rows as_of_t)).
  split.
  - intros (x & ([y cur] & Hin & Hx)%list_elem_of_omap & Heq).
    destruct cur as [[t []]|]; [|done..]. injection Hx as ->. exists t.
    rewrite (bt_get_eq cmp (P := P) k x) by (done || by apply (proj1 (Forall_forall _ _) I1 _ Hin)).
    by rewrite (bt_get_in cmp (P := P) _ _ _ I2 Hin).
  - intros [t E]. destruct (bt_get cmp k (latest_map rows as_of_t)) as [cur|] eqn:Eg; [|done]. simpl in E. subst cur.
    apply bt_get_Some in Eg as (x & Hin & Heq). exists x. split; [|done]. apply list_elem_of_omap. by exists (x, Some (t, true)).
Qed.

Lemma latest_assertions_sorted rows as_of_t : Forall (λ r, P r.1.1) rows →
  StronglySorted (λ x y, cmp x y = Lt) (latest_assertions_at cmp rows as_of_t).
Proof.
  intros HP. destruct (latest_map_ok rows as_of_t HP) as (_ & Hs & _).
  change (latest_assertions_at cmp rows as_of_t) with
    (omap (λ '(other, cur), match cur with Some (_, true) => Some other | _ => None end) (latest_map rows as_of_t)).
  induction Hs as [|[x cur] m Hs IH Hx]; csimpl; [constructor|]. destruct cur as [[t []]|]; [|done..].
  constructor; [done|]. rewrite Forall_forall in Hx. apply Forall_forall.
  intros y ([z cur] & Hin & Hy)%list_elem_of_omap. specialize (Hx _ Hin). by destruct cur as [[? []]|]; simplify_eq.
Qed.
End latest.

Section attachments.
Context `{VO : ValueOrd}.

Definition edge_cmp (a b : EdgeKey) : comparison :=
  option_cmp sid_cmp (ek_g a) (ek_g b) >>then sid_cmp (ek_s a) (ek_s b) >>then sid_cmp (ek_p a) (ek_p b)
  >>then value_cmp (ek_o a) (ek_o b) >>then sid_cmp (ek_dt a) (ek_dt b)
  >>then option_cmp str_cmp (ek_lang a) (ek_lang b) >>then option_cmp Z.compare (ek_list_i a) (ek_list_i b).

Record ForwardRow := mkFwd { fr_ann : Sid; fr_t : Z; fr_op : bool }.
Record ReverseRow := mkRev { rr_edge : EdgeKey; rr_t : Z; rr_op : bool }.

Record AttachmentNovelty := mkAttachments {
  forward : list (EdgeKey * list ForwardRow);
  rev_index : list (Sid * list ReverseRow);
  has_annotations : bool;
  observed_malformed_bundles : Z;
}.
Definition new_attachments : AttachmentNovelty := mkAttachments [] [] false 0.

(** ** Observing *)

Definition BundleKey : Type := option Sid * Sid * Z * bool.
Definition bundle_key (f : Flake) : BundleKey := (f_g f, f_s f, f_t f, f_op f).
Definition bundle_key_cmp (a b : BundleKey) : comparison :=
  let '(g, s, t, op) := a in let '(g', s', t', op') := b in
  option_cmp sid_cmp g g' >>then sid_cmp s s' >>then Z.compare t t' >>then bool_cmp op op'.

Definition group_bundles (flakes : list Flake) : list (BundleKey * list Flake) :=
  foldl (λ bundles f,
           if is_reserved_reifies_predicate (f_p f)
           then bt_update bundle_key_cmp (bundle_key f) [] (λ l, l ++ [f]) bundles else bundles) [] flakes.

Definition malformed (a : AttachmentNovelty) : AttachmentNovelty :=
  mkAttachments (forward a) (rev_index a) (has_annotations a) (u64_saturating_incr (observed_malformed_bundles a)).

Definition attach (edge : EdgeKey) (ann : Sid) (t : Z) (op : bool) (a : AttachmentNovelty) : AttachmentNovelty :=
  mkAttachments (bt_update edge_cmp edge [] (λ rows, rows ++ [mkFwd ann t op]) (forward a))
    (bt_update sid_cmp ann [] (λ rows, rows ++ [mkRev edge t op]) (rev_index a))
    true (observed_malformed_bundles a).

Definition observe_bundle (a : AttachmentNovelty) (b : BundleKey * list Flake) : AttachmentNovelty :=
  let '((bundle_g, ann, t, op), facts) := b in
  match from_reifies_facts facts with
  | inl _ => malformed a
  | inr edge => if bool_decide (ek_g edge = bundle_g) then attach edge ann t op a else malformed a
  end.

Definition observe_flakes (a : AttachmentNovelty) (flakes : list Flake) : AttachmentNovelty :=
  foldl observe_bundle a (group_bundles flakes).

(** ** Reads *)

Definition forward_history (a : AttachmentNovelty) (edge : EdgeKey) : list ForwardRow :=
  default [] (bt_get edge_cmp edge (forward a)).
Definition target_history (a : AttachmentNovelty) (ann : Sid) : list ReverseRow :=
  default [] (bt_get sid_cmp ann (rev_index a)).

Definition collect_forward_events (a : AttachmentNovelty) (edge : EdgeKey) : list (Sid * Z * bool) :=
  (λ r, (fr_ann r, fr_t r, fr_op r)) <$> forward_history a edge.
Definition collect_reverse_events (a : AttachmentNovelty) (ann : Sid) : list (EdgeKey * Z * bool) :=
  (λ r, (rr_edge r, rr_t r, rr_op r)) <$> target_history a ann.

Definition current_annotations_for_at (a : AttachmentNovelty) (edge : EdgeKey) (as_of_t : Z) : list Sid :=
  latest_assertions_at sid_cmp (collect_forward_events a edge) as_of_t.
Definition current_targets_for_at (a : AttachmentNovelty) (ann : Sid) (as_of_t : Z) : list EdgeKey :=
  latest_assertions_at edge_cmp (collect_reverse_events a ann) as_of_t.
Definition current_annotations_for (a : AttachmentNovelty) (edge : EdgeKey) : list Sid :=
  current_annotations_for_at a edge i64_max.
Definition current_targets_for (a : AttachmentNovelty) (ann : Sid) : list EdgeKey :=
  current_targets_for_at a ann i64_max.

Definition iter_event_pairs (a : AttachmentNovelty) : list (EdgeKey * Sid * Z * bool) :=
  '(edge, rows) ← forward a; (λ r, (edge, fr_ann r, fr_t r, fr_op r)) <$> rows.
Definition forward_row_count (a : AttachmentNovelty) : nat := sum_list (length ∘ snd <$> forward a).
Definition reverse_row_count (a : AttachmentNovelty) : nat := sum_list (length ∘ snd <$> rev_index a).

(** ** The events observed *)

Definition Event : Type := EdgeKey * Sid * Z * bool.
Definition ev_edge (ev : Event) : EdgeKey := ev.1.1.1.
Definition ev_ann (ev : Event) : Sid := ev.1.1.2.
Definition ev_t (ev : Event) : Z := ev.1.2.
Definition ev_op (ev : Event) : bool := ev.2.

(** The attachment a bundle states, if it is well formed. *)
Definition bundle_event (b : BundleKey * list Flake) : option Event :=
  let '((bundle_g, ann, t, op), facts) := b in
  match from_reifies_facts facts with
  | inr edge => if bool_decide (ek_g edge = bundle_g) then Some (edge, ann, t, op) else None
  | inl _ => None
  end.
Definition flake_events (flakes : list Flake) : list Event := omap bundle_event (group_bundles flakes).

Definition edge_ordered (e : EdgeKey) : Prop := value_ordered (ek_o e).

Lemma option_cmp_order_all {T} (c : T → T → comparison) : CmpOrder (λ _, True) c → CmpOrder (λ _, True) (option_cmp c).
Proof.
  intros Hc. constructor; [intros x y; apply (@cmp_flip _ _ _ (option_cmp_order (λ _, True) c))|].
  intros x y z _ _ _. by apply (@cmp_trans _ _ _ (option_cmp_order (λ _, True) c)).
Qed.

#[export] Instance edge_cmp_order : CmpOrder edge_ordered edge_cmp.
Proof.
  assert (∀ (T : Type) (c : T → T → comparison) (proj : EdgeKey → T), CmpOrder (λ _, True) c →
    CmpOrder edge_ordered (λ a b, c (proj a) (proj b))) as Hon
    by (intros T c proj Hc; by apply (cmp_on_order (λ _, True))).
  unfold edge_cmp. repeat (apply cmp_then_order); try (apply Hon; try apply option_cmp_order_all; apply _).
  by apply (cmp_on_order value_ordered); [apply _|].
Qed.

#[export] Instance bundle_key_order : CmpOrder (λ _, True) bundle_key_cmp.
Proof.
  assert (∀ (T : Type) (c : T → T → comparison) (proj : BundleKey → T), CmpOrder (λ _, True) c →
    CmpOrder (λ _, True) (λ a b, c (proj a) (proj b))) as Hon
    by (intros T c proj Hc; by apply (cmp_on_order (λ _, True))).
  assert (CmpOrder (λ _ : BundleKey, True) (λ a b, option_cmp sid_cmp a.1.1.1 b.1.1.1 >>then sid_cmp a.1.1.2 b.1.1.2
    >>then Z.compare a.1.2 b.1.2 >>then bool_cmp a.2 b.2)) as [H1 H2].
  { apply cmp_then_order; [|apply cmp_then_order; [|apply cmp_then_order]].
    - apply (Hon _ (option_cmp sid_cmp) (λ k, k.1.1.1)), option_cmp_order_all, _.
    - apply (Hon _ sid_cmp (λ k, k.1.1.2)), _.
    - apply (Hon _ Z.compare (λ k, k.1.2)), _.
    - apply (Hon _ bool_cmp snd), _. }
  constructor; [intros [[[g s] t] op] [[[g' s'] t'] op']; apply (H1 (g, s, t, op) (g', s', t', op'))|].
  intros [[[g s] t] op] [[[g' s'] t'] op'] [[[g'' s''] t''] op''].
  apply (H2 (g, s, t, op) (g', s', t', op') (g'', s'', t'', op'')).
Qed.

Lemma bundle_key_cmp_eq a b : bundle_key_cmp a b = Eq ↔ a = b.
Proof.
  split; [|intros ->; apply (cmp_refl (P := λ _, True))].
  destruct a as [[[g s] t] op], b as [[[g' s'] t'] op']. simpl.
  rewrite !then_with_Eq. intros [Hg%option_cmp_eq [Hs%sid_cmp_eq [Ht%Z.compare_eq Hop]]].
  - subst. by destruct op, op'.
  - by intros ?? ?%sid_cmp_eq.
Qed.

(** ** The bundles of a batch *)

Definition in_bundle (k : BundleKey) (f : Flake) : Prop :=
  is_reserved_reifies_predicate (f_p f) = true ∧ bundle_key f = k.
#[export] Instance in_bundle_dec k f : Decision (in_bundle k f) := _.

Lemma group_bundles_ok l :
  bt_sorted bundle_key_cmp (group_bundles l)
  ∧ (∀ k, default [] (bt_get bundle_key_cmp k (group_bundles l)) = filter (in_bundle k) l)
  ∧ Forall (λ b, b.2 ≠ []) (group_bundles l).
Proof.
  induction l as [|f l (I1 & I2 & I3)] using rev_ind; [split_and!; [constructor|done|constructor]|].
  unfold group_bundles in *. rewrite foldl_app. cbn [foldl].
  destruct (is_reserved_reifies_predicate (f_p f)) eqn:Er.
  - split_and!.
    + apply (bt_update_sorted _ (P := λ _, True)); [done|by apply Forall_true|done].
    + intros k. rewrite (bt_get_update _ (P := λ _, True)) by (done || by apply Forall_true).
      rewrite filter_app, filter_cons, filter_nil, <- I2. destruct (decide (bundle_key_cmp k (bundle_key f) = Eq)) as [E|E].
      * apply bundle_key_cmp_eq in E. by rewrite decide_True by done.
      * rewrite decide_False; [by rewrite app_nil_r|]. intros [_ E']. by rewrite bundle_key_cmp_eq in E.
    + clear I1 I2. set (m := foldl _ _ _) in *. clearbody m. induction I3 as [|[k v] m Hv I3 IH]; simpl.
      * repeat constructor; by destruct l.
      * case_match; repeat constructor; try done; simpl; by destruct v.
  - split_and!; [done| |done]. intros k. rewrite filter_app, filter_cons, filter_nil, I2, decide_False, app_nil_r; [done|].
    intros [E _]. congruence.
Qed.

Lemma group_bundles_elem l k fs : (k, fs) ∈ group_bundles l ↔ fs = filter (in_bundle k) l ∧ fs ≠ [].
Proof.
  destruct (group_bundles_ok l) as (I1 & I2 & I3). split.
  - intros Hin. split; [|by apply (proj1 (Forall_forall _ _) I3 _ Hin)].
    rewrite <- I2. by rewrite (bt_get_in _ (P := λ _, True) _ _ _ I1 Hin).
  - intros [-> Hne]. rewrite <- I2 in Hne |- *.
    destruct (bt_get bundle_key_cmp k (group_bundles l)) as [fs|] eqn:E; [|done].
    apply bt_get_Some in E as (k' & Hin & ->%bundle_key_cmp_eq). done.
Qed.

(** A bundle that reads as an edge is in the graph of the edge: the observer's
    second look at the graph never fails. *)
Lemma bundle_graph l g ann t op e :
  from_reifies_facts (filter (in_bundle (g, ann, t, op)) l) = inr e → ek_g e = g.
Proof.
  intros Hr. destruct (from_reifies_facts_sound _ _ Hr) as (_ & Hg & _).
  assert (Forall (λ f, f_g f = g) (filter (in_bundle (g, ann, t, op)) l)) as Hall.
  { apply Forall_forall. intros f [[_ Hk] _]%list_elem_of_filter. by injection Hk. }
  assert (bundle (filter (in_bundle (g, ann, t, op)) l) = filter (in_bundle (g, ann, t, op)) l) as Eb.
  { apply list_filter_id, Forall_forall. intros f [[? _] _]%list_elem_of_filter. done. }
  rewrite Eb in Hg. destruct (filter (in_bundle (g, ann, t, op)) l) as [|f fs]; [done|].
  apply Forall_cons in Hg as [<- _], Hall as [<- _]. done.
Qed.

(** The attachments a batch states: one for every bundle that reads as an edge. *)
Lemma flake_events_spec l e ann t op :
  (e, ann, t, op) ∈ flake_events l
  ↔ ∃ g, from_reifies_facts (filter (in_bundle (g, ann, t, op)) l) = inr e.
Proof.
  unfold flake_events. rewrite list_elem_of_omap. split.
  - intros ([[[[g ann'] t'] op'] fs] & [-> _]%group_bundles_elem & Hb). unfold bundle_event in Hb.
    destruct (from_reifies_facts _) as [|e'] eqn:Er; [done|]. case_bool_decide; [|done]. injection Hb as -> -> -> ->. by exists g.
  - intros [g Hr]. exists ((g, ann, t, op), filter (in_bundle (g, ann, t, op)) l). split.
    + apply group_bundles_elem. split; [done|]. intros E. by rewrite E in Hr.
    + unfold bundle_event. rewrite Hr, bool_decide_eq_true_2 by (by apply bundle_graph in Hr). done.
Qed.

Lemma from_reifies_facts_ordered facts e : Forall flake_ordered facts → from_reifies_facts facts = inr e → edge_ordered e.
Proof.
  intros Hf Hr. destruct (from_reifies_facts_sound _ _ Hr) as (_ & _ & Hst).
  set (ann := mkSid 0 ""). assert ((reifies_sid REIFIES_OBJECT, ek_o e, Some (ek_dt e)) ∈ statement <$> bundle facts) as Hin.
  { assert (∀ fs : list Flake, mkFlake (ek_g e) ann (reifies_sid REIFIES_OBJECT) (ek_o e) (ek_dt e) 0 true
      (edge_key_to_flake_meta (ek_lang e) (ek_list_i e)) ∈ fs →
      (reifies_sid REIFIES_OBJECT, ek_o e, Some (ek_dt e)) ∈ statement <$> fs) as Hs
      by (intros fs H'; apply list_elem_of_fmap; eexists; split; [|exact H']; done).
    destruct (Hst ann 0 true) as [-> | ->]; apply Hs; unfold to_reifies_facts_jsonld_compatible;
      rewrite ?list_elem_of_filter; try (split; [done|]); unfold to_reifies_facts;
      rewrite !elem_of_app, !elem_of_cons; tauto. }
  apply list_elem_of_fmap in Hin as (f & Ef & [_ Hin]%list_elem_of_filter).
  rewrite Forall_forall in Hf. specialize (Hf _ Hin). injection Ef as _ Eo _.
  unfold edge_ordered. by rewrite Eo.
Qed.

(** The rows of the overlay are the events observed, under both keys. *)
Record rows_exact (a : AttachmentNovelty) (evs : list Event) : Prop := {
  rx_keys : Forall (λ e, edge_ordered e.1) (forward a);
  rx_sorted : bt_sorted edge_cmp (forward a);
  rx_forward : ∀ e, edge_ordered e → forward_history a e
    = (λ ev, mkFwd (ev_ann ev) (ev_t ev) (ev_op ev)) <$> filter (λ ev, edge_cmp e (ev_edge ev) = Eq) evs;
  rx_reverse : ∀ ann, target_history a ann
    = (λ ev, mkRev (ev_edge ev) (ev_t ev) (ev_op ev)) <$> filter (λ ev, ann = ev_ann ev) evs;
  rx_any : has_annotations a = match evs with [] => false | _ => true end;
}.

Lemma fmap_filter_snoc {A B} (f : A → B) (p : A → Prop) `{!∀ x, Decision (p x)} (l : list A) (x : A) :
  f <$> filter p (l ++ [x]) = (f <$> filter p l) ++ (if decide (p x) then [f x] else []).
Proof. rewrite filter_app, fmap_app, filter_cons, filter_nil. by destruct (decide (p x)). Qed.

Lemma attach_exact a evs edge ann t op : edge_ordered edge → rows_exact a evs →
  rows_exact (attach edge ann t op a) (evs ++ [(edge, ann, t, op)]).
Proof.
  intros Ho [Hk Hs Hf Hr Ha]. split.
  - by apply (bt_update_P edge_cmp (P := edge_ordered)).
  - by apply (bt_update_sorted edge_cmp (P := edge_ordered)).
  - intros e He. unfold forward_history. simpl. rewrite (bt_get_update edge_cmp (P := edge_ordered)) by done.
    rewrite fmap_filter_snoc, <- (Hf e He). unfold ev_edge, forward_history. simpl.
    destruct (decide (edge_cmp e edge = Eq)); [done|by rewrite app_nil_r].
  - intros x. unfold target_history. simpl.
    rewrite (bt_get_update sid_cmp (P := λ _, True)) by (done || by apply Forall_true).
    rewrite fmap_filter_snoc, <- (Hr x). unfold ev_ann, target_history. simpl.
    destruct (decide (sid_cmp x ann = Eq)) as [E|E]; rewrite sid_cmp_eq in E.
    + by rewrite decide_True.
    + by rewrite decide_False, app_nil_r.
  - simpl. by destruct evs.
Qed.

Lemma observe_bundle_exact a evs b : Forall flake_ordered b.2 → rows_exact a evs →
  rows_exact (observe_bundle a b) (evs ++ option_list (bundle_event b)).
Proof.
  destruct b as [[[[g ann] t] op] facts]. intros Hf Ha. unfold observe_bundle, bundle_event.
  assert (rows_exact (malformed a) (evs ++ [])) as Hm by (rewrite app_nil_r; destruct Ha; by split).
  destruct (from_reifies_facts facts) as [|e] eqn:Er; [done|]. case_bool_decide; [|done].
  apply attach_exact; [|done]. by apply (from_reifies_facts_ordered facts).
Qed.

Lemma observe_flakes_exact a evs l : Forall flake_ordered l → rows_exact a evs →
  rows_exact (observe_flakes a l) (evs ++ flake_events l).
Proof.
  intros Hl. unfold observe_flakes, flake_events.
  assert (Forall (λ b : BundleKey * list Flake, Forall flake_ordered b.2) (group_bundles l)) as Hb.
  { rewrite Forall_forall in Hl. apply Forall_forall. intros [k fs] [-> _]%group_bundles_elem. apply Forall_forall.
    intros f [_ Hin]%list_elem_of_filter. by apply Hl. }
  revert a evs. induction Hb as [|b bs Hb _ IH]; intros a evs Ha; csimpl; [by rewrite app_nil_r|].
  apply (observe_bundle_exact _ _ _ Hb), IH in Ha. rewrite <- app_assoc in Ha. by destruct (bundle_event b).
Qed.

(** Bundles that state no attachment. *)
Definition malformed_bundles (l : list Flake) : nat := length (filter (λ b, bundle_event b = None) (group_bundles l)).

Lemma observe_flakes_malformed a l : observed_malformed_bundles a ≤ u64_max →
  observed_malformed_bundles (observe_flakes a l)
  = Z.min u64_max (observed_malformed_bundles a + Z.of_nat (malformed_bundles l)).
Proof.
  unfold observe_flakes, malformed_bundles. generalize (group_bundles l) as bs. intros bs. revert a.
  induction bs as [|b bs IH]; intros a Ha; simpl; [rewrite Z.min_r; lia|].
  assert (observed_malformed_bundles (observe_bundle a b)
    = if decide (bundle_event b = None) then Z.min u64_max (observed_malformed_bundles a + 1) else observed_malformed_bundles a) as Eb.
  { destruct b as [[[[g ann] t] op] facts]. unfold observe_bundle, bundle_event.
    destruct (from_reifies_facts facts) as [|e]; [done|]. by case_bool_decide. }
  rewrite IH, Eb by (rewrite Eb; case_decide; lia). rewrite filter_cons. case_decide; simpl; lia.
Qed.

Lemma new_attachments_exact : rows_exact new_attachments [].
Proof. split; [constructor|constructor|done..]. Qed.

(** An event of a history. *)
Lemma key_events_elem {T B} (cmp : T → T → comparison) (k : T) as_of_t (row : B → T * Z * bool) (rows : list B) t op :
  (t, op) ∈ key_events cmp k as_of_t (row <$> rows)
  ↔ ∃ x b, b ∈ rows ∧ row b = (x, t, op) ∧ cmp k x = Eq ∧ t ≤ as_of_t.
Proof.
  unfold key_events. rewrite list_elem_of_fmap. split.
  - intros ([[x t'] op'] & [= -> ->] & ([Hc Ht] & (b & Hb & Hin)%list_elem_of_fmap)%list_elem_of_filter).
    exists x, b. simpl in *. done.
  - intros (x & b & Hin & Hb & Hc & Ht). exists (x, t, op). split; [done|]. apply list_elem_of_filter.
    split; [done|]. apply list_elem_of_fmap. by exists b.
Qed.

Lemma flake_events_ordered l : Forall flake_ordered l → Forall (λ ev, edge_ordered (ev_edge ev)) (flake_events l).
Proof.
  intros Hl. apply Forall_forall. intros [[[e ann] t] op] [g Hr]%flake_events_spec.
  eapply from_reifies_facts_ordered; [|exact Hr]. rewrite Forall_forall in Hl |- *.
  intros f [_ Hin]%list_elem_of_filter. by apply Hl.
Qed.

Definition batch_events (batches : list (list Flake)) : list Event := mjoin (flake_events <$> batches).

Lemma observe_batches batches : Forall (Forall flake_ordered) batches →
  rows_exact (foldl observe_flakes new_attachments batches) (batch_events batches)
  ∧ Forall (λ ev, edge_ordered (ev_edge ev)) (batch_events batches)
  ∧ observed_malformed_bundles (foldl observe_flakes new_attachments batches)
    = Z.min u64_max (Z.of_nat (sum_list (malformed_bundles <$> batches))).
Proof.
  induction batches as [|l batches IH] using rev_ind; intros Hb.
  { split_and!; [apply new_attachments_exact|constructor|done]. }
  apply Forall_app in Hb as [Hb [Hl _]%Forall_cons]. destruct (IH Hb) as (I1 & I2 & I3).
  unfold batch_events in *. rewrite foldl_app, fmap_app, join_app. csimpl. rewrite app_nil_r. split_and!.
  - by apply observe_flakes_exact.
  - apply Forall_app. split; [done|by apply flake_events_ordered].
  - rewrite observe_flakes_malformed, I3, fmap_app, sum_list_with_app by (rewrite I3; lia). csimpl. lia.
Qed.

(** The annotation is attached to the edge as of a time: the latest event of
    the two up to then asserts; within a transaction an assertion prevails. *)
Definition attached (evs : list Event) (e : EdgeKey) (ann : Sid) (as_of_t : Z) : Prop :=
  ∃ t, t ≤ as_of_t ∧ (∃ e', (e', ann, t, true) ∈ evs ∧ edge_cmp e e' = Eq)
    ∧ ∀ e' t' op, (e', ann, t', op) ∈ evs → edge_cmp e e' = Eq → t' ≤ as_of_t → t' ≤ t.

(** Both histories list the events of an edge and an annotation. *)
Lemma attached_of (rows : list (Z * bool)) evs e ann as_of_t :
  (∀ t op, (t, op) ∈ rows ↔ ∃ e', (e', ann, t, op) ∈ evs ∧ edge_cmp e e' = Eq ∧ t ≤ as_of_t) →
  (∃ t, (t, true) ∈ rows ∧ ∀ t' op, (t', op) ∈ rows → t' ≤ t) ↔ attached evs e ann as_of_t.
Proof.
  intros Hrows. split.
  - intros (t & (e' & H1 & H2 & H3)%Hrows & Hmax). exists t. split_and!; [done|by exists e'|].
    intros e'' t' op Hin Hc Ht. apply (Hmax t' op), Hrows. by exists e''.
  - intros (t & Ht & (e' & Hin & Hc) & Hmax). exists t. split; [apply Hrows; by exists e'|].
    intros t' op (e'' & H1 & H2 & H3)%Hrows. by apply (Hmax e'' t' op).
Qed.

Lemma current_annotations_exact a evs e ann as_of_t : edge_ordered e → rows_exact a evs →
  ann ∈ current_annotations_for_at a e as_of_t ↔ attached evs e ann as_of_t.
Proof.
  intros He Ha. unfold current_annotations_for_at, collect_forward_events.
  trans (∃ x, x ∈ latest_assertions_at sid_cmp ((λ r, (fr_ann r, fr_t r, fr_op r)) <$> forward_history a e) as_of_t
            ∧ sid_cmp ann x = Eq).
  { split; [intros ?; exists ann; by rewrite sid_cmp_eq|by intros (x & ? & ->%sid_cmp_eq)]. }
  rewrite (latest_assertions_spec sid_cmp (P := λ _, True)) by (done || by apply Forall_true).
  apply attached_of. intros t op. rewrite key_events_elem, (rx_forward _ _ Ha) by done. split.
  - intros (x & b & ([[[e' ann'] t'] op'] & -> & [Hc Hin]%list_elem_of_filter)%list_elem_of_fmap & [= <- <- <-] & ->%sid_cmp_eq & Ht).
    by exists e'.
  - intros (e' & Hin & Hc & Ht). exists ann, (mkFwd ann t op). split_and!; [|done|by apply sid_cmp_eq|done].
    apply list_elem_of_fmap. exists (e', ann, t, op). split; [done|]. by apply list_elem_of_filter.
Qed.

Lemma current_targets_exact a evs e ann as_of_t :
  edge_ordered e → Forall (λ ev, edge_ordered (ev_edge ev)) evs → rows_exact a evs →
  (∃ e', e' ∈ current_targets_for_at a ann as_of_t ∧ edge_cmp e e' = Eq) ↔ attached evs e ann as_of_t.
Proof.
  intros He Hevs Ha. unfold current_targets_for_at, collect_reverse_events. rewrite (rx_reverse _ _ Ha).
  rewrite (latest_assertions_spec edge_cmp (P := edge_ordered)); [|..|done].
  - apply attached_of. intros t op. rewrite key_events_elem. split.
    + intros (x & b & ([[[e' ann'] t'] op'] & -> & [-> Hin]%list_elem_of_filter)%list_elem_of_fmap & [= <- <- <-] & Hc & Ht).
      by exists e'.
    + intros (e' & Hin & Hc & Ht). exists e', (mkRev e' t op). split_and!; [|done..].
      apply list_elem_of_fmap. exists (e', ann, t, op). split; [done|]. by apply list_elem_of_filter.
  - rewrite Forall_forall in Hevs. apply Forall_forall.
    intros [[x t] op] (b & [= -> -> ->] & (ev & -> & [_ Hin]%list_elem_of_filter)%list_elem_of_fmap)%list_elem_of_fmap.
    by apply (Hevs ev).
Qed.

(** The events the overlay lists are those observed, under equal edges. *)
Lemma iter_event_pairs_exact a evs e ann t op : edge_ordered e → rows_exact a evs →
  (∃ e', (e', ann, t, op) ∈ iter_event_pairs a ∧ edge_cmp e e' = Eq) ↔ ∃ e', (e', ann, t, op) ∈ evs ∧ edge_cmp e e' = Eq.
Proof.
  intros He Ha. trans (mkFwd ann t op ∈ forward_history a e).
  - split.
    + intros (e' & ([x rows] & ([y t' op'] & [= -> -> -> ->] & Hr)%list_elem_of_fmap & Hin)%list_elem_of_bind & Hc).
      unfold forward_history.
      rewrite (bt_get_eq edge_cmp (P := edge_ordered) e x); [|done|by apply (proj1 (Forall_forall _ _) (rx_keys _ _ Ha) _ Hin)|apply Ha|done].
      by rewrite (bt_get_in edge_cmp (P := edge_ordered) _ _ _ (rx_sorted _ _ Ha) Hin).
    + unfold forward_history. destruct (bt_get edge_cmp e (forward a)) as [rows|] eqn:Eg; [|by intros ?%elem_of_nil].
      apply bt_get_Some in Eg as (x & Hin & Hc). intros Hr. exists x. split; [|done]. apply list_elem_of_bind.
      exists (x, rows). split; [|done]. apply list_elem_of_fmap. by exists (mkFwd ann t op).
  - rewrite (rx_forward _ _ Ha e He), list_elem_of_fmap. split.
    + intros ([[[e' ann'] t'] op'] & [= -> -> ->] & [Hc Hin]%list_elem_of_filter). by exists e'.
    + intros (e' & Hin & Hc). exists (e', ann, t, op). split; [done|]. by apply list_elem_of_filter.
Qed.

(** What the overlay answers, ties included: within one time an assertion
    prevails. *)
Lemma attachments_attached batches e ann as_of_t :
  Forall (Forall flake_ordered) batches → edge_ordered e →
  let a := foldl observe_flakes new_attachments batches in
  let evs := batch_events batches in
  (ann ∈ current_annotations_for_at a e as_of_t ↔ attached evs e ann as_of_t)
  ∧ ((∃ e', e' ∈ current_targets_for_at a ann as_of_t ∧ edge_cmp e e' = Eq) ↔ attached evs e ann as_of_t).
Proof.
  intros Hb He. destruct (observe_batches batches Hb) as (I1 & I2 & _).
  split; [by apply current_annotations_exact|by apply current_targets_exact].
Qed.

(** No edge and annotation are both attached and detached at one time. *)
Definition events_settled (evs : list Event) : Prop :=
  ∀ e e' ann t, (e, ann, t, true) ∈ evs → (e', ann, t, false) ∈ evs → edge_cmp e e' ≠ Eq.

(** The latest event of an edge and an annotation up to a time attaches. *)
Definition latest_attaches (evs : list Event) (e : EdgeKey) (ann : Sid) (as_of_t : Z) : Prop :=
  ∃ e' t, (e', ann, t, true) ∈ evs ∧ edge_cmp e e' = Eq ∧ t ≤ as_of_t
    ∧ ∀ e'' t' op, (e'', ann, t', op) ∈ evs → edge_cmp e e'' = Eq → t' ≤ as_of_t →
        t' < t ∨ t' = t ∧ op = true.

Lemma attached_latest evs e ann as_of_t :
  Forall (λ ev, edge_ordered (ev_edge ev)) evs → edge_ordered e → events_settled evs →
  attached evs e ann as_of_t ↔ latest_attaches evs e ann as_of_t.
Proof.
  intros Ho He Hs. rewrite Forall_forall in Ho. split.
  - intros (t & Ht & (e' & Hin & Hc) & Hmax). exists e', t. split_and!; [done..|]. intros e'' t' op Hin' Hc' Ht'.
    destruct (Z.lt_trichotomy t' t) as [?|[-> |?]]; [by left| |specialize (Hmax _ _ _ Hin' Hc' Ht'); lia].
    right. split; [done|]. destruct op; [done|]. destruct (Hs _ _ _ _ Hin Hin').
    pose proof (Ho _ Hin) as Pe'. pose proof (Ho _ Hin') as Pe''. cbn in Pe', Pe''.
    by rewrite <- (cmp_eq_subst (P := edge_ordered) e e' e'').
  - intros (e' & t & Hin & Hc & Ht & Hmax). exists t. split_and!; [done|by exists e'|].
    intros e'' t' op Hin' Hc' Ht'. destruct (Hmax _ _ _ Hin' Hc' Ht') as [?|[-> _]]; lia.
Qed.

(** C23: The attachment overlay answers from the events of all batches observed.
    The events of a batch are its bundles that read as an edge, each under the
    annotation, time and operation of its flakes.  If no transaction both
    attaches an annotation to an edge and detaches it, then at every time an
    annotation is among those of an edge, and the edge among the targets of the
    annotation, exactly when the latest of their events up to then attaches;
    and the bundles that do not read are counted. *)
Theorem attachments_exact batches e ann as_of_t :
  Forall (Forall flake_ordered) batches → edge_ordered e → events_settled (batch_events batches) →
  let a := foldl observe_flakes new_attachments batches in
  let evs := batch_events batches in
  (∀ e' ann' t op, (e', ann', t, op) ∈ evs ↔
     ∃ l g, l ∈ batches ∧ from_reifies_facts (filter (in_bundle (g, ann', t, op)) l) = inr e')
  ∧ (ann ∈ current_annotations_for_at a e as_of_t ↔ latest_attaches evs e ann as_of_t)
  ∧ ((∃ e', e' ∈ current_targets_for_at a ann as_of_t ∧ edge_cmp e e' = Eq) ↔ latest_attaches evs e ann as_of_t)
  ∧ observed_malformed_bundles a = Z.min u64_max (Z.of_nat (sum_list (malformed_bundles <$> batches))).
Proof.
  intros Hb He Hs. destruct (observe_batches batches Hb) as (_ & I2 & I3).
  destruct (attachments_attached batches e ann as_of_t Hb He) as [J1 J2]. cbn zeta.
  rewrite <- (attached_latest _ e ann as_of_t I2 He Hs). split_and!; [|done..].
  intros e' ann' t op. unfold batch_events. rewrite list_elem_of_join. split.
  - intros (l' & Hin & (l & -> & Hl)%list_elem_of_fmap). apply flake_events_spec in Hin as [g Hr]. by exists l, g.
  - intros (l & g & Hl & Hr). exists (flake_events l). split; [apply flake_events_spec; by exists g|]. by apply list_elem_of_fmap_2.
Qed.
End attachments.
