(* ===== verification/ArenaFormat.v ===== *)
(** * The blobs of the annotation arenas
    ([fluree-db-binary-index/src/annotation_arena/format.rs])

    Leaves and branches are written as CBOR behind a header of twelve bytes.
    What serde makes of a value is a tree of [Content]: a record is a map of
    its fields, a [Sid] a pair, and [FlakeValue], which is untagged, the content
    of its variant alone, so that reading takes the first variant that fits.
    CBOR itself (the crate [ciborium]) turns contents into bytes and back. *)

From S2P Require Import Prelude Text Vocab CommitWire CommitOp Ordering FlakeOrder FlakeTheorems.
From S2P Require Import FlakeTheorems.
From S2P Require Import FlakeEq Edge Attachments.
#[local] Open Scope Z_scope.

(** ** Contents *)

Inductive Content :=
| CNull
| CBool (b : bool)
| CInt (n : Z)
| CFloat (bits : Z)
| CText (s : string)
| CSeq (l : list Content)
| CMap (l : list (string * Content)).

(** Integers of at most 64 bits, no NaN, nested at most [n] deep. *)
Fixpoint content_ok (n : nat) (c : Content) : bool :=
  match n with
  | O => false
  | S n =>
      match c with
      | CInt z => (- 2 ^ 63 <=? z) && (z <? 2 ^ 64)
      | CFloat bits => match f64_value bits with NaN => false | _ => true end
      | CSeq l => forallb (content_ok n) l
      | CMap l => forallb (λ kv, content_ok n kv.2) l
      | _ => true
      end
  end.

(** [ciborium] reads back what it wrote; its decoder gives up below 256 levels. *)
Class Cbor := {
  to_cbor : Content → list Z;
  from_cbor : list Z → option Content;
  cbor_roundtrip : ∀ c, content_ok 64 c = true → from_cbor (to_cbor c) = Some c;
}.

(** The serde forms of the types of other crates, and of [ContentId]; the cast
    of an integer beyond [i64] to [f64]. *)
Class Serde `{CoreValues} := {
  u64_as_f64 : Z → Z;
  lex_content : ∀ k, lexical k → Content;
  lex_of_content : Content → option {k & lexical k};
  lex_content_ok : ∀ k v, content_ok 8 (lex_content k v) = true;
  Cid : Type;
  cid_eq_dec : EqDecision Cid;
  cid_content : Cid → Content;
  cid_of_content : Content → option Cid;
  cid_content_ok : ∀ cid, content_ok 8 (cid_content cid) = true;
  cid_roundtrip : ∀ cid, cid_of_content (cid_content cid) = Some cid;
}.
#[export] Existing Instance cid_eq_dec.

Lemma content_ok_mono n m c : (n <= m)%nat → content_ok n c = true → content_ok m c = true.
Proof.
  revert m c. induction n as [|n IH]; intros [|m] c Hnm; [discriminate|discriminate|lia|]. cbn [content_ok].
  destruct c as [| | | | |l|l]; [exact id..| |]; rewrite !forallb_forall; intros Hl x Hx; (apply IH; [lia|exact (Hl x Hx)]).
Qed.

(** The equations of [content_ok], which must not be unfolded at a large depth. *)
Lemma content_ok_map n l : content_ok (S n) (CMap l) = forallb (content_ok n) (snd <$> l).
Proof. cbn [content_ok]. induction l as [|kv l IH]; csimpl; [done|]. by rewrite <- IH. Qed.
Lemma content_ok_seq n l : content_ok (S n) (CSeq l) = forallb (content_ok n) l.
Proof. done. Qed.
Lemma content_ok_int n z : - 2 ^ 63 <= z < 2 ^ 64 → content_ok (S n) (CInt z) = true.
Proof. intros Hz. cbn [content_ok]. rewrite (proj2 (Z.leb_le _ _)), (proj2 (Z.ltb_lt _ _)) by lia. done. Qed.
Lemma content_ok_text n s : content_ok (S n) (CText s) = true.
Proof. done. Qed.
Lemma content_ok_bool n b : content_ok (S n) (CBool b) = true.
Proof. done. Qed.
Lemma content_ok_null n : content_ok (S n) CNull = true.
Proof. done. Qed.
#[global] Opaque content_ok.

Section serde.
Context `{SE : Serde}.

(** ** Reading scalars and records *)

Definition int_in (lo hi : Z) (c : Content) : option Z :=
  match c with CInt n => if (lo <=? n) && (n <=? hi) then Some n else None | _ => None end.
Definition text_of (c : Content) : option string := match c with CText s => Some s | _ => None end.
Definition bool_of (c : Content) : option bool := match c with CBool b => Some b | _ => None end.
Definition option_content {A} (enc : A → Content) (o : option A) : Content :=
  match o with Some x => enc x | None => CNull end.
Definition option_of {A} (dec : Content → option A) (c : Content) : option (option A) :=
  match c with CNull => Some None | _ => Some <$> dec c end.

Fixpoint field (name : string) (l : list (string * Content)) : option Content :=
  match l with
  | [] => None
  | (k, c) :: l => if bool_decide (k = name) then Some c else field name l
  end.
Definition fields_of (c : Content) : option (list (string * Content)) := match c with CMap l => Some l | _ => None end.
(** A field, and a field of type [Option], which may be absent. *)
Definition get_field {A} (dec : Content → option A) (name : string) (l : list (string * Content)) : option A :=
  c ← field name l; dec c.
Definition get_option {A} (dec : Content → option A) (name : string) (l : list (string * Content)) : option (option A) :=
  match field name l with Some c => option_of dec c | None => Some None end.
Definition seq_of {A} (dec : Content → option A) (c : Content) : option (list A) :=
  match c with CSeq l => mapM dec l | _ => None end.

(** ** [Sid] and [FlakeValue] *)

Definition sid_content (s : Sid) : Content := CSeq [CInt (namespace_code s); CText (sid_name s)].
Definition sid_of_content (c : Content) : option Sid :=
  match c with
  | CSeq [n; name] => n ← int_in 0 (2 ^ 16 - 1) n; name ← text_of name; Some (mkSid n name)
  | _ => None
  end.

Definition value_content (v : FlakeValue) : Content :=
  match v with
  | VRef sid => sid_content sid
  | VBoolean b => CBool b
  | VLong n => CInt n
  | VDouble bits => CFloat bits
  | VLexical k x => lex_content k x
  | VString s => CText s
  | VVector l => CSeq (CFloat <$> l)
  | VJson s => CText s
  | VGeoPoint bits => CInt bits
  | VNull => CNull
  end.

(** An [f64] is also read from an integer. *)
Definition f64_of_content (c : Content) : option Z :=
  match c with CFloat bits => Some bits | CInt n => Some (u64_as_f64 n) | _ => None end.

(** [#[serde(untagged)]]: the variants in the order of their declaration. *)
Definition value_of_content (c : Content) : option FlakeValue :=
  match sid_of_content c with
  | Some sid => Some (VRef sid)
  | None =>
  match bool_of c with
  | Some b => Some (VBoolean b)
  | None =>
  match int_in (- 2 ^ 63) i64_max c with
  | Some n => Some (VLong n)
  | None =>
  match f64_of_content c with
  | Some bits => Some (VDouble bits)
  | None =>
  match lex_of_content c with
  | Some (existT k x) => Some (VLexical k x)
  | None =>
  match text_of c with
  | Some s => Some (VString s)
  | None =>
  match seq_of (f64_of_content) c with
  | Some l => Some (VVector l)
  | None =>
  match int_in 0 (2 ^ 64 - 1) c with
  | Some bits => Some (VGeoPoint bits)
  | None => match c with CNull => Some VNull | _ => None end
  end end end end end end end end.

(** ** Rows, leaves and branches

    A row of the forward arena is keyed by its edge, one of the reverse arena
    by its annotation; [r_other] is the other of the two. *)

Record Row (K J : Type) := mkRow { r_key : K; r_other : J; r_t : Z; r_op : bool }.
Record Summary (K J : Type) := mkSummary {
  first_key : K; first_other : J; last_key : K; last_other : J; row_count : Z;
}.
Record Entry (K J : Type) := mkEntry { en_summary : Summary K J; leaf_cid : Cid }.
#[global] Arguments mkRow {K J}.
#[global] Arguments r_key {K J}.
#[global] Arguments r_other {K J}.
#[global] Arguments r_t {K J}.
#[global] Arguments r_op {K J}.
#[global] Arguments mkSummary {K J}.
#[global] Arguments first_key {K J}.
#[global] Arguments first_other {K J}.
#[global] Arguments last_key {K J}.
#[global] Arguments last_other {K J}.
#[global] Arguments row_count {K J}.
#[global] Arguments mkEntry {K J}.
#[global] Arguments en_summary {K J}.
#[global] Arguments leaf_cid {K J}.

Definition AnnotationForwardRow : Type := Row EdgeKey Sid.
Definition AnnotationReverseRow : Type := Row Sid EdgeKey.

Definition i64_of : Content → option Z := int_in (- 2 ^ 63) i64_max.
Definition u64_of : Content → option Z := int_in 0 (2 ^ 64 - 1).
Definition i32_of : Content → option Z := int_in (- 2 ^ 31) (2 ^ 31 - 1).

Definition edge_content (e : EdgeKey) : Content :=
  CMap [("g", option_content sid_content (ek_g e)); ("s", sid_content (ek_s e)); ("p", sid_content (ek_p e));
        ("o", value_content (ek_o e)); ("dt", sid_content (ek_dt e)); ("lang", option_content CText (ek_lang e));
        ("list_i", option_content CInt (ek_list_i e))].
Definition edge_of_content (c : Content) : option EdgeKey :=
  l ← fields_of c; g ← get_option sid_of_content "g" l; s ← get_field sid_of_content "s" l;
  p ← get_field sid_of_content "p" l; o ← get_field value_of_content "o" l; dt ← get_field sid_of_content "dt" l;
  lang ← get_option text_of "lang" l; list_i ← get_option i32_of "list_i" l;
  Some (mkEdge g s p o dt lang list_i).

Section rows.
Context {K J : Type} (kname jname : string) (kc : K → Content) (jc : J → Content)
  (k_of : Content → option K) (j_of : Content → option J).

Definition row_content (r : Row K J) : Content :=
  CMap [(kname, kc (r_key r)); (jname, jc (r_other r)); ("t", CInt (r_t r)); ("op", CBool (r_op r))].
Definition row_of_content (c : Content) : option (Row K J) :=
  l ← fields_of c; k ← get_field k_of kname l; j ← get_field j_of jname l; t ← get_field i64_of "t" l;
  op ← get_field bool_of "op" l; Some (mkRow k j t op).

Definition entry_content (e : Entry K J) : Content :=
  let s := en_summary e in
  CMap [("first_" +:+ kname, kc (first_key s)); ("first_" +:+ jname, jc (first_other s));
        ("last_" +:+ kname, kc (last_key s)); ("last_" +:+ jname, jc (last_other s));
        ("row_count", CInt (row_count s)); ("leaf_cid", cid_content (leaf_cid e))].
Definition entry_of_content (c : Content) : option (Entry K J) :=
  l ← fields_of c; fk ← get_field k_of ("first_" +:+ kname) l; fj ← get_field j_of ("first_" +:+ jname) l;
  lk ← get_field k_of ("last_" +:+ kname) l; lj ← get_field j_of ("last_" +:+ jname) l;
  n ← get_field u64_of "row_count" l; cid ← get_field cid_of_content "leaf_cid" l;
  Some (mkEntry (mkSummary fk fj lk lj n) cid).

Definition leaf_content (rows : list (Row K J)) : Content := CMap [("rows", CSeq (row_content <$> rows))].
Definition leaf_of_content (c : Content) : option (list (Row K J)) :=
  l ← fields_of c; get_field (seq_of row_of_content) "rows" l.
Definition branch_content (leaves : list (Entry K J)) : Content := CMap [("leaves", CSeq (entry_content <$> leaves))].
Definition branch_of_content (c : Content) : option (list (Entry K J)) :=
  l ← fields_of c; get_field (seq_of entry_of_content) "leaves" l.
End rows.

(** ** Blobs *)

Definition FORWARD_BRANCH_MAGIC : list Z := str_bytes "EAFB".
Definition FORWARD_LEAF_MAGIC : list Z := str_bytes "EAFL".
Definition REVERSE_BRANCH_MAGIC : list Z := str_bytes "EARB".
Definition REVERSE_LEAF_MAGIC : list Z := str_bytes "EARL".
Definition ARENA_VERSION : Z := 1.
Definition ARENA_HEADER_LEN : nat := 12.

Inductive DecodeError :=
| TruncatedHeader (len : Z)
| BadMagic (expected got : list Z)
| UnsupportedVersion (version : Z)
| TruncatedBody (declared available : Z)
| CborError
| NonZeroReserved (reserved : Z).

Context `{CB : Cbor}.

(** The length of the body is cut to 32 bits. *)
Definition encode_blob (magic : list Z) (payload : Content) : list Z :=
  let body := to_cbor payload in
  magic ++ [ARENA_VERSION; 0] ++ le_bytes 2 0 ++ le_bytes 4 (Z.of_nat (length body)) ++ body.

Definition decode_blob {A} (of_content : Content → option A) (bytes : list Z) (expected_magic : list Z) : DecodeError + A :=
  let len := Z.of_nat (length bytes) in
  if len <? Z.of_nat ARENA_HEADER_LEN then inl (TruncatedHeader len)
  else
    let magic := take 4 bytes in
    if negb (bool_decide (magic = expected_magic)) then inl (BadMagic expected_magic magic)
    else
      let version := default 0 (bytes !! 4%nat) in
      if negb (version =? ARENA_VERSION) then inl (UnsupportedVersion version)
      else
        let reserved := from_le (take 2 (drop 6 bytes)) in
        if negb (reserved =? 0) then inl (NonZeroReserved reserved)
        else
          let body_len := from_le (take 4 (drop 8 bytes)) in
          if len <? Z.of_nat ARENA_HEADER_LEN + body_len
          then inl (TruncatedBody body_len (len - Z.of_nat ARENA_HEADER_LEN))
          else
            match (c ← from_cbor (take (Z.to_nat body_len) (drop ARENA_HEADER_LEN bytes)); of_content c) with
            | Some x => inr x
            | None => inl CborError
            end.

(** ** What is read back *)

Lemma encode_blob_roundtrip {A} (of_content : Content → option A) magic payload x :
  length magic = 4%nat → content_ok 64 payload = true → Z.of_nat (length (to_cbor payload)) < 2 ^ 32 →
  of_content payload = Some x → decode_blob of_content (encode_blob magic payload) magic = inr x.
Proof.
  intros Hm Hok Hlen Hx. unfold decode_blob, encode_blob. set (body := to_cbor payload) in *.
  set (n := le_bytes 4 (Z.of_nat (length body))). set (z := le_bytes 2 0).
  assert (length n = 4%nat ∧ length z = 2%nat) as [Hn Hz] by (unfold n, z; by rewrite !length_le_bytes).
  assert (length (magic ++ [ARENA_VERSION; 0] ++ z ++ n ++ body) = (12 + length body)%nat) as Hl
    by (rewrite !length_app, Hm, Hn, Hz; simpl; lia).
  rewrite Hl. unfold ARENA_HEADER_LEN. rewrite (proj2 (Z.ltb_ge _ _)) by lia.
  destruct magic as [|m1 [|m2 [|m3 [|m4 [|]]]]]; try discriminate Hm.
  destruct z as [|z1 [|z2 [|]]] eqn:Ez; try discriminate Hz. destruct n as [|n1 [|n2 [|n3 [|n4 [|]]]]] eqn:En; try discriminate Hn.
  cbn [app take drop lookup list_lookup default ARENA_VERSION]. rewrite bool_decide_eq_true_2 by done.
  cbn [negb]. rewrite Z.eqb_refl. cbn [negb]. rewrite <- Ez. unfold z. rewrite from_le_bytes by lia. rewrite Z.eqb_refl.
  cbn [negb]. rewrite take_0, drop_0, <- En. unfold n. rewrite from_le_bytes by (simpl; lia).
  rewrite (proj2 (Z.ltb_ge _ _)) by lia. rewrite Nat2Z.id, take_ge by lia.
  unfold body. rewrite cbor_roundtrip by done. simpl. by rewrite Hx.
Qed.

(** A value that untagged reading takes for itself.  References, booleans,
    64-bit integers and strings that parse as nothing else do
    ([stable_values]); JSON objects, geo points and strings that parse as a
    number or a time do not. *)
Definition value_stable (v : FlakeValue) : Prop :=
  value_of_content (value_content v) = Some v ∧ content_ok 12 (value_content v) = true.
Definition sid_ok (s : Sid) : Prop := 0 <= namespace_code s < 2 ^ 16.
Record edge_ok (e : EdgeKey) : Prop := {
  eo_g : ∀ g, ek_g e = Some g → sid_ok g;
  eo_s : sid_ok (ek_s e);
  eo_p : sid_ok (ek_p e);
  eo_o : value_stable (ek_o e);
  eo_dt : sid_ok (ek_dt e);
  eo_list_i : ∀ i, ek_list_i e = Some i → - 2 ^ 31 <= i < 2 ^ 31;
}.

Lemma int_in_ok lo hi n : lo <= n <= hi → int_in lo hi (CInt n) = Some n.
Proof. intros [Hlo Hhi]. unfold int_in. by rewrite (proj2 (Z.leb_le _ _) Hlo), (proj2 (Z.leb_le _ _) Hhi). Qed.

Lemma sid_content_of s : sid_ok s → sid_of_content (sid_content s) = Some s.
Proof.
  intros Hs. unfold sid_of_content, sid_content. rewrite int_in_ok by (unfold sid_ok in Hs; lia). by destruct s.
Qed.

Lemma option_content_of {A} (enc : A → Content) dec o :
  (∀ x, o = Some x → dec (enc x) = Some x ∧ enc x ≠ CNull) → option_of dec (option_content enc o) = Some o.
Proof.
  intros Ho. destruct o as [x|]; [|done]. simpl. destruct (Ho x eq_refl) as [Hx Hn].
  unfold option_of. rewrite Hx. by destruct (enc x).
Qed.

Lemma field_first name c l : field name ((name, c) :: l) = Some c.
Proof. simpl. by rewrite bool_decide_eq_true_2. Qed.
Lemma field_there name k c l : k ≠ name → field name ((k, c) :: l) = field name l.
Proof. intros Hk. simpl. by rewrite bool_decide_eq_false_2. Qed.

Lemma seq_content_of {A} (enc : A → Content) dec l :
  Forall (λ x, dec (enc x) = Some x) l → seq_of dec (CSeq (enc <$> l)) = Some l.
Proof. intros Hl. apply mapM_Some_2, Forall2_fmap_l. by apply Forall_Forall2_diag. Qed.
End serde.

(** Looks up the fields of a literal map. *)
Ltac read_fields :=
  unfold get_field, get_option; cbn [fields_of mbind option_bind];
  repeat first [rewrite field_first | rewrite field_there by discriminate]; cbn [mbind option_bind].

Section roundtrip.
Context `{SE : Serde}.

Lemma edge_content_of e : edge_ok e → edge_of_content (edge_content e) = Some e.
Proof.
  intros [Hg Hs Hp [Ho _] Hdt Hi]. unfold edge_of_content, edge_content. read_fields.
  rewrite (option_content_of sid_content sid_of_content) by (intros x Hx; split; [by apply sid_content_of, Hg|done]).
  rewrite !sid_content_of, Ho by done. cbn [mbind option_bind].
  rewrite (option_content_of CText text_of) by (by intros x _). cbn [mbind option_bind].
  rewrite (option_content_of CInt i32_of) by (intros x Hx; split; [apply int_in_ok; specialize (Hi x Hx); lia|done]).
  by destruct e.
Qed.

(** The same for rows and branch entries, in the two directions. *)
Section rows.
Context {K J : Type} (kname jname : string) (kc : K → Content) (jc : J → Content)
  (k_of : Content → option K) (j_of : Content → option J) (k_ok : K → Prop) (j_ok : J → Prop).
Hypothesis k_content_of : ∀ k, k_ok k → k_of (kc k) = Some k ∧ content_ok 16 (kc k) = true.
Hypothesis j_content_of : ∀ j, j_ok j → j_of (jc j) = Some j ∧ content_ok 16 (jc j) = true.
Hypothesis names : (kname, jname) = ("edge", "ann") ∨ (kname, jname) = ("ann", "edge").

Definition row_ok (r : Row K J) : Prop := k_ok (r_key r) ∧ j_ok (r_other r) ∧ - 2 ^ 63 <= r_t r < 2 ^ 63.
Definition summary_ok (s : Summary K J) : Prop :=
  k_ok (first_key s) ∧ j_ok (first_other s) ∧ k_ok (last_key s) ∧ j_ok (last_other s) ∧ 0 <= row_count s < 2 ^ 64.

Lemma row_content_of r : row_ok r → row_of_content kname jname k_of j_of (row_content kname jname kc jc r) = Some r.
Proof.
  intros (Hk & Hj & Ht). destruct (k_content_of _ Hk) as [Ek _], (j_content_of _ Hj) as [Ej _].
  unfold row_of_content, row_content. destruct names as [[= -> ->]|[= -> ->]]; read_fields; rewrite Ek; cbn [mbind option_bind];
    rewrite Ej; cbn [mbind option_bind]; unfold i64_of; rewrite int_in_ok by (unfold i64_max; lia); by destruct r.
Qed.

Lemma entry_content_of e : summary_ok (en_summary e) →
  entry_of_content kname jname k_of j_of (entry_content kname jname kc jc e) = Some e.
Proof.
  destruct e as [[fk fj lk lj n] cid]. intros (H1 & H2 & H3 & H4 & Hn). cbn [en_summary first_key first_other last_key last_other row_count] in *.
  destruct (k_content_of _ H1) as [E1 _], (j_content_of _ H2) as [E2 _], (k_content_of _ H3) as [E3 _], (j_content_of _ H4) as [E4 _].
  unfold entry_of_content, entry_content. destruct names as [[= -> ->]|[= -> ->]]; read_fields;
    cbn [en_summary first_key first_other last_key last_other row_count leaf_cid];
    rewrite E1; cbn [mbind option_bind]; rewrite E2; cbn [mbind option_bind]; rewrite E3; cbn [mbind option_bind];
    rewrite E4; cbn [mbind option_bind]; unfold u64_of; rewrite int_in_ok by lia; by rewrite cid_roundtrip.
Qed.

Lemma leaf_content_of rows : Forall row_ok rows →
  leaf_of_content kname jname k_of j_of (leaf_content kname jname kc jc rows) = Some rows.
Proof.
  intros Hr. unfold leaf_of_content, leaf_content. read_fields. apply seq_content_of.
  eapply Forall_impl; [exact Hr|]. apply row_content_of.
Qed.

Lemma branch_content_of leaves : Forall (λ e, summary_ok (en_summary e)) leaves →
  branch_of_content kname jname k_of j_of (branch_content kname jname kc jc leaves) = Some leaves.
Proof.
  intros Hr. unfold branch_of_content, branch_content. read_fields. apply seq_content_of.
  eapply Forall_impl; [exact Hr|]. apply entry_content_of.
Qed.

Lemma forallb_content {A} n (enc : A → Content) l :
  Forall (λ x, content_ok n (enc x) = true) l → forallb (content_ok n) (enc <$> l) = true.
Proof. induction 1 as [|x l Hx _ IH]; csimpl; [done|]. by rewrite Hx. Qed.

Lemma leaf_content_ok rows : Forall row_ok rows → content_ok 64 (leaf_content kname jname kc jc rows) = true.
Proof.
  intros Hr. unfold leaf_content. rewrite content_ok_map. csimpl. rewrite content_ok_seq, andb_true_r. apply forallb_content.
  eapply Forall_impl; [exact Hr|]. intros r (Hk & Hj & Ht).
  destruct (k_content_of _ Hk) as [_ Ek], (j_content_of _ Hj) as [_ Ej].
  unfold row_content. rewrite content_ok_map. csimpl.
  rewrite (content_ok_mono 16 61 _ ltac:(lia) Ek), (content_ok_mono 16 61 _ ltac:(lia) Ej).
  by rewrite content_ok_int, content_ok_bool by lia.
Qed.

Lemma branch_content_ok leaves : Forall (λ e, summary_ok (en_summary e)) leaves →
  content_ok 64 (branch_content kname jname kc jc leaves) = true.
Proof.
  intros Hr. unfold branch_content. rewrite content_ok_map. csimpl. rewrite content_ok_seq, andb_true_r. apply forallb_content.
  eapply Forall_impl; [exact Hr|]. intros [s cid] (H1 & H2 & H3 & H4 & Hn). cbn [en_summary] in *.
  destruct (k_content_of _ H1) as [_ E1], (j_content_of _ H2) as [_ E2], (k_content_of _ H3) as [_ E3], (j_content_of _ H4) as [_ E4].
  unfold entry_content. rewrite content_ok_map. csimpl.
  rewrite !(content_ok_mono 16 61 _ ltac:(lia)) by done.
  rewrite (content_ok_mono 8 61 _ ltac:(lia) (cid_content_ok cid)).
  by rewrite content_ok_int by lia.
Qed.
End rows.

Lemma sid_content_ok s : sid_ok s → content_ok 2 (sid_content s) = true.
Proof.
  intros Hs. unfold sid_ok in Hs. unfold sid_content. rewrite content_ok_seq. csimpl.
  by rewrite content_ok_int, content_ok_text by lia.
Qed.

Lemma sid_codec s : sid_ok s → sid_of_content (sid_content s) = Some s ∧ content_ok 16 (sid_content s) = true.
Proof. intros Hs. split; [by apply sid_content_of|]. by apply (content_ok_mono 2); [lia|apply sid_content_ok]. Qed.

Lemma option_content_ok {A} (enc : A → Content) n o :
  (∀ x, o = Some x → content_ok (S n) (enc x) = true) → content_ok (S n) (option_content enc o) = true.
Proof. intros Ho. destruct o as [x|]; [by apply Ho|apply content_ok_null]. Qed.

Lemma edge_codec e : edge_ok e → edge_of_content (edge_content e) = Some e ∧ content_ok 16 (edge_content e) = true.
Proof.
  intros He. split; [by apply edge_content_of|]. destruct He as [Hg Hs Hp [_ Ho] Hdt Hi].
  assert (∀ s, sid_ok s → content_ok 15 (sid_content s) = true) as Hsid
    by (intros s ?; by apply (content_ok_mono 2); [lia|apply sid_content_ok]).
  unfold edge_content. rewrite content_ok_map. csimpl. rewrite !Hsid by done.
  rewrite (content_ok_mono 12 15 _ ltac:(lia) Ho).
  rewrite (option_content_ok sid_content) by eauto. rewrite (option_content_ok CText) by (intros; apply content_ok_text).
  rewrite (option_content_ok CInt); [done|]. intros i Hx. apply content_ok_int. specialize (Hi i Hx). lia.
Qed.

(** ** Which values survive *)

Lemma stable_values :
  (∀ sid, sid_ok sid → value_stable (VRef sid))
  ∧ (∀ b, value_stable (VBoolean b))
  ∧ (∀ n, - 2 ^ 63 <= n < 2 ^ 63 → value_stable (VLong n))
  ∧ (∀ s, lex_of_content (CText s) = None → value_stable (VString s)).
Proof.
  split_and!.
  - intros sid Hs. split; [unfold value_of_content; cbn [value_content]; by rewrite sid_content_of|].
    apply (content_ok_mono 2); [lia|by apply sid_content_ok].
  - intros b. split; [done|apply content_ok_bool].
  - intros n Hn. split; [|apply content_ok_int; lia]. unfold value_of_content. cbn [value_content sid_of_content bool_of].
    by rewrite int_in_ok by (unfold i64_max; lia).
  - intros s Hs. split; [|apply content_ok_text]. unfold value_of_content.
    cbn [value_content sid_of_content bool_of int_in f64_of_content text_of]. by rewrite Hs.
Qed.

(** A JSON literal is read as a string, or as whatever its text spells; a
    packed point as an integer. *)
Lemma json_reads_as_text s : ∃ v, value_of_content (value_content (VJson s)) = Some v ∧ ∀ s', v ≠ VJson s'.
Proof.
  unfold value_of_content. cbn [value_content sid_of_content bool_of int_in f64_of_content text_of].
  destruct (lex_of_content (CText s)) as [[k x]|]; eexists; split; [done|done|done|done].
Qed.

Lemma point_reads_as_long bits : 0 <= bits < 2 ^ 63 → value_of_content (value_content (VGeoPoint bits)) = Some (VLong bits).
Proof.
  intros Hb. unfold value_of_content. cbn [value_content sid_of_content bool_of].
  by rewrite int_in_ok by (unfold i64_max; lia).
Qed.
End roundtrip.
