(* ===== verification/Arena.v ===== *)
(** * The annotation arenas
    ([fluree-db-binary-index/src/annotation_arena/builder.rs], [reader.rs])

    Sorted rows cut into leaves under a branch of bounds, and the reader that
    loads what a lookup needs, caches it, and merges it with the events of the
    novelty overlay.  The code is written twice, for the forward and for the
    reverse direction; here it is written once over a [Direction]. *)

From S2P Require Import Prelude Text Vocab CommitWire CommitOp Ordering FlakeOrder FlakeTheorems.
From S2P Require Import FlakeTheorems.
From S2P Require Import FlakeEq Edge Attachments ArenaFormat.
#[local] Open Scope Z_scope.

Section transitivity.
Context {A : Type} (cmp : A → A → comparison) {P : A → Prop} `{!CmpOrder P cmp}.

Lemma cmp_le_lt_trans x y z : P x → P y → P z → is_le (cmp x y) = true → cmp y z = Lt → cmp x z = Lt.
Proof.
  intros Px Py Pz. destruct (cmp x y) eqn:E; [| |done]; intros _ Hyz.
  - by rewrite (cmp_eq_subst (P := P) x y z).
  - by apply (cmp_lt_trans cmp (P := P) x y z).
Qed.

Lemma cmp_lt_le_trans x y z : P x → P y → P z → cmp x y = Lt → is_le (cmp y z) = true → cmp x z = Lt.
Proof.
  intros Px Py Pz Hxy. destruct (cmp y z) eqn:E; [| |done]; intros _.
  - by rewrite <- (cmp_eq_subst_r (P := P) x y z).
  - by apply (cmp_lt_trans cmp (P := P) x y z).
Qed.
End transitivity.

Lemma omap_concat {A B} (f : A → option B) (l : list (list A)) :
  concat ((λ x : list A, omap (M := list) f x) <$> l) = omap f (concat l).
Proof. induction l as [|x l IH]; csimpl; [done|]. by rewrite IH, omap_app. Qed.

Section arena.
Context `{SE : Serde} `{CB : Cbor}.

(** How a direction compares, names and encodes. *)
Record Direction (K J : Type) := mkDirection {
  kcmp : K → K → comparison;
  jcmp : J → J → comparison;
  keq : K → K → bool;
  jeq : J → J → bool;
  d_leaf : list (Row K J) → Content;
  d_leaf_of : Content → option (list (Row K J));
  d_branch : list (Entry K J) → Content;
  d_branch_of : Content → option (list (Entry K J));
  leaf_magic : list Z;
  branch_magic : list Z;
}.
#[global] Arguments kcmp {K J}.
#[global] Arguments jcmp {K J}.
#[global] Arguments keq {K J}.
#[global] Arguments jeq {K J}.
#[global] Arguments d_leaf {K J}.
#[global] Arguments d_leaf_of {K J}.
#[global] Arguments d_branch {K J}.
#[global] Arguments d_branch_of {K J}.
#[global] Arguments leaf_magic {K J}.
#[global] Arguments branch_magic {K J}.

(** What the code relies on: comparisons that are orders where they have to be,
    equalities that agree with them, and encodings that keep what they must. *)
Class DirectionLaws {K J} (D : Direction K J) (P : K → Prop) (Q : J → Prop) (k_ok : K → Prop) (j_ok : J → Prop) := {
  kcmp_order : CmpOrder P (kcmp D);
  jcmp_order : CmpOrder Q (jcmp D);
  keq_cmp : ∀ a b, P a → P b → keq D a b = true ↔ kcmp D a b = Eq;
  jeq_cmp : ∀ a b, Q a → Q b → jeq D a b = true ↔ jcmp D a b = Eq;
  leaf_magic_len : length (leaf_magic D) = 4%nat;
  branch_magic_len : length (branch_magic D) = 4%nat;
  leaf_codec : ∀ rows, Forall (row_ok k_ok j_ok) rows →
    d_leaf_of D (d_leaf D rows) = Some rows ∧ content_ok 64 (d_leaf D rows) = true;
  branch_codec : ∀ leaves, Forall (λ e, summary_ok k_ok j_ok (en_summary e)) leaves →
    d_branch_of D (d_branch D leaves) = Some leaves ∧ content_ok 64 (d_branch D leaves) = true;
}.

Section direction.
Context {K J : Type} (D : Direction K J).
Abbreviation row := (Row K J).
Abbreviation entry := (Entry K J).

(** ** Building *)

(** The order callers must keep. *)
Definition row_cmp (a b : row) : comparison :=
  kcmp D (r_key a) (r_key b) >>then jcmp D (r_other a) (r_other b)
  >>then Z.compare (r_t a) (r_t b) >>then bool_cmp (r_op a) (r_op b).

Definition same_group (a b : row) : bool := keq D (r_key a) (r_key b) && jeq D (r_other a) (r_other b).

(** Extend a chunk by the rows of the group it ends in. *)
Fixpoint extend (prev : row) (rows : list row) : list row * list row :=
  match rows with
  | [] => ([], [])
  | next :: rows' =>
      if same_group prev next then let '(more, rest) := extend next rows' in (next :: more, rest)
      else ([], rows)
  end.

Fixpoint cut_chunks (fuel : nat) (target : nat) (rows : list row) : list (list row) :=
  match fuel, rows with
  | S fuel, r :: _ =>
      let chunk := take target rows in
      let '(more, rest) := extend (default r (last chunk)) (drop target rows) in
      (chunk ++ more) :: cut_chunks fuel target rest
  | _, _ => []
  end.
Definition leaf_rows (target_rows_per_leaf : nat) (rows : list row) : list (list row) :=
  cut_chunks (length rows) (Nat.max 1 target_rows_per_leaf) rows.

(** [None] is the panic of an empty chunk. *)
Definition summarize (chunk : list row) : option (Summary K J) :=
  match chunk with
  | [] => None
  | first :: _ =>
      let final := default first (last chunk) in
      Some (mkSummary (r_key first) (r_other first) (r_key final) (r_other final) (Z.of_nat (length chunk)))
  end.

Definition build_leaves (rows : list row) (target_rows_per_leaf : nat) : option (list (Summary K J * list Z)) :=
  mapM (λ chunk, s ← summarize chunk; Some (s, encode_blob (leaf_magic D) (d_leaf D chunk)))
    (leaf_rows target_rows_per_leaf rows).

Definition build_branch (leaves : list (Summary K J * Cid)) : list Z :=
  encode_blob (branch_magic D) (d_branch D ((λ '(s, cid), mkEntry s cid) <$> leaves)).

(** ** Loading *)

Inductive ArenaError := StoreFailed (message : string) | InvalidIndex (e : DecodeError).

Context (store_get : Cid → string + list Z) (branch_cid : Cid).

(** What the reader has loaded so far. *)
Record ReaderCache := mkCache { c_branch : option (list entry); c_leaves : list (Cid * list row) }.
Definition new_cache : ReaderCache := mkCache None [].

Definition fetch {A} (of_content : Content → option A) (magic : list Z) (cid : Cid) : ArenaError + A :=
  match store_get cid with
  | inl e => inl (StoreFailed e)
  | inr bytes => match decode_blob of_content bytes magic with inl e => inl (InvalidIndex e) | inr x => inr x end
  end.

Definition load_branch (c : ReaderCache) : (ArenaError + list entry) * ReaderCache :=
  match c_branch c with
  | Some b => (inr b, c)
  | None =>
      match fetch (d_branch_of D) (branch_magic D) branch_cid with
      | inl e => (inl e, c)
      | inr b => (inr b, mkCache (Some b) (c_leaves c))
      end
  end.

Fixpoint cached (cid : Cid) (l : list (Cid * list row)) : option (list row) :=
  match l with
  | [] => None
  | (k, leaf) :: l => if decide (k = cid) then Some leaf else cached cid l
  end.

Definition load_leaf (c : ReaderCache) (cid : Cid) : (ArenaError + list row) * ReaderCache :=
  match cached cid (c_leaves c) with
  | Some leaf => (inr leaf, c)
  | None =>
      match fetch (d_leaf_of D) (leaf_magic D) cid with
      | inl e => (inl e, c)
      | inr leaf => (inr leaf, mkCache (c_branch c) ((cid, leaf) :: c_leaves c))
      end
  end.

(** ** Lookups *)

Definition is_lt (c : comparison) : bool := match c with Lt => true | _ => false end.
Definition is_gt (c : comparison) : bool := match c with Gt => true | _ => false end.

(** The leaves whose bounds cover a key, and what [visit] takes of each. *)
Fixpoint scan_entries {B} (visit : list row → list B) (key : K) (entries : list entry) (c : ReaderCache)
  : (ArenaError + list B) * ReaderCache :=
  match entries with
  | [] => (inr [], c)
  | e :: entries =>
      if is_lt (kcmp D (last_key (en_summary e)) key) then scan_entries visit key entries c
      else if is_gt (kcmp D (first_key (en_summary e)) key) then (inr [], c)
      else match load_leaf c (leaf_cid e) with
           | (inl err, c) => (inl err, c)
           | (inr leaf, c) =>
               match scan_entries visit key entries c with
               | (inl err, c) => (inl err, c)
               | (inr out, c) => (inr (visit leaf ++ out), c)
               end
           end
  end.

Definition scan {B} (visit : list row → list B) (key : K) (c : ReaderCache) : (ArenaError + list B) * ReaderCache :=
  match load_branch c with
  | (inl err, c) => (inl err, c)
  | (inr entries, c) => scan_entries visit key entries c
  end.

(** One group of a leaf: the operation of its last row up to a time. *)
Fixpoint walk_group (key : K) (other : J) (as_of_t : Z) (latest : option bool) (rows : list row)
  : option bool * list row :=
  match rows with
  | [] => (latest, [])
  | r :: rows' =>
      if keq D (r_key r) key && jeq D (r_other r) other
      then walk_group key other as_of_t (if r_t r <=? as_of_t then Some (r_op r) else latest) rows'
      else (latest, rows)
  end.

Fixpoint live_loop (fuel : nat) (key : K) (as_of_t : Z) (rows : list row) : list J :=
  match fuel, rows with
  | S fuel, r :: _ =>
      if keq D (r_key r) key then
        let '(latest, rest) := walk_group key (r_other r) as_of_t None rows in
        (if bool_decide (latest = Some true) then [r_other r] else []) ++ live_loop fuel key as_of_t rest
      else []
  | _, _ => []
  end.

Definition collect_live (key : K) (as_of_t : Z) (rows : list row) : list J :=
  live_loop (length rows) key as_of_t (drop (partition_point (λ r, is_lt (kcmp D (r_key r) key)) rows) rows).

Definition current_for (key : K) (as_of_t : Z) : ReaderCache → (ArenaError + list J) * ReaderCache :=
  scan (collect_live key as_of_t) key.

Definition events_of (key : K) (as_of_t : Z) (rows : list row) : list (J * Z * bool) :=
  omap (λ r, if keq D (r_key r) key && (r_t r <=? as_of_t) then Some (r_other r, r_t r, r_op r) else None) rows.
Definition collect_events (key : K) (as_of_t : Z) : ReaderCache → (ArenaError + list (J * Z * bool)) * ReaderCache :=
  scan (events_of key as_of_t) key.

Definition history_of (key : K) (rows : list row) : list (J * Z * bool) :=
  omap (λ r, if keq D (r_key r) key then Some (r_other r, r_t r, r_op r) else None) rows.
Definition history_for (key : K) : ReaderCache → (ArenaError + list (J * Z * bool)) * ReaderCache :=
  scan (history_of key) key.

(** The indexed and the novelty events under one pass. *)
Definition consider (as_of_t : Z) (latest : list (J * option (Z * bool))) (ev : J * Z * bool) : list (J * option (Z * bool)) :=
  let '(other, t, op) := ev in
  if as_of_t <? t then latest else bt_update (jcmp D) other None (λ cur, latest_event cur (t, op)) latest.
Definition merge_live (arena novelty : list (J * Z * bool)) (as_of_t : Z) : list J :=
  omap (λ '(other, cur), match cur with Some (_, true) => Some other | _ => None end)
    (foldl (consider as_of_t) (foldl (consider as_of_t) [] arena) novelty).

Definition current_merged (key : K) (novelty : list (J * Z * bool)) (as_of_t : Z) (c : ReaderCache)
  : (ArenaError + list J) * ReaderCache :=
  match collect_events key as_of_t c with
  | (inl err, c) => (inl err, c)
  | (inr arena, c) => (inr (merge_live arena novelty as_of_t), c)
  end.

(** ** Walks and batches *)

Definition leaf_entries (c : ReaderCache) : (ArenaError + list entry) * ReaderCache := load_branch c.
Definition leaf_cids (c : ReaderCache) : (ArenaError + list Cid) * ReaderCache :=
  match load_branch c with
  | (inl err, c) => (inl err, c)
  | (inr entries, c) => (inr (leaf_cid <$> entries), c)
  end.

(** The live pairs of one leaf, which is not cached. *)
Fixpoint pairs_loop (fuel : nat) (as_of_t : Z) (rows : list row) : list (K * J) :=
  match fuel, rows with
  | S fuel, r :: _ =>
      let '(latest, rest) := walk_group (r_key r) (r_other r) as_of_t None rows in
      (if bool_decide (latest = Some true) then [(r_key r, r_other r)] else []) ++ pairs_loop fuel as_of_t rest
  | _, _ => []
  end.
Definition live_pairs (rows : list row) (as_of_t : Z) : list (K * J) := pairs_loop (length rows) as_of_t rows.
Definition live_pairs_in_leaf (cid : Cid) (as_of_t : Z) : ArenaError + list (K * J) :=
  match fetch (d_leaf_of D) (leaf_magic D) cid with inl e => inl e | inr rows => inr (live_pairs rows as_of_t) end.

Fixpoint collect_all_loop (entries : list entry) (c : ReaderCache) : (ArenaError + list row) * ReaderCache :=
  match entries with
  | [] => (inr [], c)
  | e :: entries =>
      match load_leaf c (leaf_cid e) with
      | (inl err, c) => (inl err, c)
      | (inr leaf, c) =>
          match collect_all_loop entries c with
          | (inl err, c) => (inl err, c)
          | (inr out, c) => (inr (leaf ++ out), c)
          end
      end
  end.
Definition collect_all_events (c : ReaderCache) : (ArenaError + list row) * ReaderCache :=
  match load_branch c with
  | (inl err, c) => (inl err, c)
  | (inr entries, c) => collect_all_loop entries c
  end.

(** Many keys in one pass: a cursor that only moves forward. *)
Fixpoint advance (key : K) (entries : list entry) : list entry :=
  match entries with
  | [] => []
  | e :: entries' => if is_lt (kcmp D (last_key (en_summary e)) key) then advance key entries' else entries
  end.

Fixpoint batch_visit (key : K) (as_of_t : Z) (entries : list entry) (c : ReaderCache)
  : (ArenaError + list J) * ReaderCache :=
  match entries with
  | [] => (inr [], c)
  | e :: entries =>
      if is_gt (kcmp D (first_key (en_summary e)) key) then (inr [], c)
      else if is_lt (kcmp D (last_key (en_summary e)) key) then batch_visit key as_of_t entries c
      else match load_leaf c (leaf_cid e) with
           | (inl err, c) => (inl err, c)
           | (inr leaf, c) =>
               match batch_visit key as_of_t entries c with
               | (inl err, c) => (inl err, c)
               | (inr out, c) => (inr (collect_live key as_of_t leaf ++ out), c)
               end
           end
  end.

Fixpoint batch_loop (as_of_t : Z) (order : list (nat * K)) (cursor : list entry) (out : list (list J)) (c : ReaderCache)
  : (ArenaError + list (list J)) * ReaderCache :=
  match order with
  | [] => (inr out, c)
  | (idx, key) :: order =>
      let cursor := advance key cursor in
      match batch_visit key as_of_t cursor c with
      | (inl err, c) => (inl err, c)
      | (inr live, c) => batch_loop as_of_t order cursor (alter (λ found, found ++ live) idx out) c
      end
  end.

Definition probe_order (keys : list K) : list (nat * K) :=
  sort_by (cmp_le (λ a b, kcmp D a.2 b.2)) (imap pair keys).

Definition current_batch (keys : list K) (as_of_t : Z) (c : ReaderCache)
  : (ArenaError + list (list J)) * ReaderCache :=
  let out := replicate (length keys) [] in
  match keys with
  | [] => (inr out, c)
  | _ =>
      match load_branch c with
      | (inl err, c) => (inl err, c)
      | (inr entries, c) => batch_loop as_of_t (probe_order keys) entries out c
      end
  end.

(** ** Chunks *)

Lemma extend_split prev rows more rest : extend prev rows = (more, rest) →
  rows = more ++ rest
  ∧ ∀ a b, last (prev :: more) = Some a → head rest = Some b → same_group a b = false.
Proof.
  revert prev more rest. induction rows as [|next rows IH]; intros prev more rest; simpl; [by intros [= <- <-]|].
  destruct (same_group prev next) eqn:E.
  - destruct (extend next rows) as [more' rest'] eqn:En. intros [= <- <-].
    destruct (IH _ _ _ En) as [-> Hb]. split; [done|]. intros a b Ha. by apply Hb.
  - intros [= <- <-]. split; [done|]. by intros a b [= ->] [= ->].
Qed.

(** No group lies on both sides of a cut. *)
Fixpoint apart (chunks : list (list row)) : Prop :=
  match chunks with
  | [] => True
  | chunk :: chunks =>
      (∀ a b, last chunk = Some a → head (concat chunks) = Some b → same_group a b = false) ∧ apart chunks
  end.

Lemma cut_chunks_ok fuel target rows : (1 <= target)%nat → (length rows <= fuel)%nat →
  concat (cut_chunks fuel target rows) = rows ∧ Forall (λ chunk, chunk ≠ []) (cut_chunks fuel target rows)
  ∧ apart (cut_chunks fuel target rows).
Proof.
  intros Ht. revert rows. induction fuel as [|fuel IH]; intros [|r rows] Hf; try (by split_and!; [|constructor|]).
  { simpl in Hf. lia. }
  cbn [cut_chunks]. destruct (extend _ _) as [more rest] eqn:E. apply extend_split in E as [Hd Hb].
  assert (∃ chunk, take target (r :: rows) = r :: chunk) as [chunk Hc]
    by (destruct target; [lia|]; by eexists).
  assert (r :: rows = (r :: chunk ++ more) ++ rest) as Hrows.
  { rewrite <- (take_drop target (r :: rows)), Hc, Hd. simpl. by rewrite app_assoc. }
  assert (length rest < length (r :: rows))%nat as Hlen by (rewrite Hrows, length_app; simpl; lia).
  destruct (IH rest) as (I1 & I2 & I3); [simpl in *; lia|]. rewrite Hc in *. cbn [app concat apart]. split_and!.
  - rewrite I1. by rewrite Hrows.
  - by constructor.
  - rewrite I1. intros a b Ha. apply Hb. rewrite <- Ha. cbn [default].
    destruct more as [|m more]; [rewrite app_nil_r|].
    + by destruct (last (r :: chunk)) as [x|] eqn:El; [|by apply last_None in El].
    + change (r :: chunk ++ m :: more) with ((r :: chunk) ++ m :: more). by rewrite last_app_cons, last_cons_cons.
  - done.
Qed.

Lemma leaf_rows_ok target rows :
  concat (leaf_rows target rows) = rows ∧ Forall (λ chunk, chunk ≠ []) (leaf_rows target rows) ∧ apart (leaf_rows target rows).
Proof. apply cut_chunks_ok; lia. Qed.

(** ** The rows of a sorted arena *)

Context {P : K → Prop} {Q : J → Prop} {k_ok : K → Prop} {j_ok : J → Prop} `{DL : !DirectionLaws D P Q k_ok j_ok}.
#[local] Instance kcmp_order_D : CmpOrder P (kcmp D) := kcmp_order.
#[local] Instance jcmp_order_D : CmpOrder Q (jcmp D) := jcmp_order.

Definition row_P (r : row) : Prop := P (r_key r) ∧ Q (r_other r).

#[local] Instance row_cmp_order : CmpOrder row_P row_cmp.
Proof.
  apply cmp_then_order; [|apply cmp_then_order; [|apply cmp_then_order]].
  - by apply (cmp_on_order P); [apply _|intros r []].
  - by apply (cmp_on_order Q); [apply _|intros r []].
  - apply (cmp_on_order (λ _, True) row_P r_t Z.compare); [apply _|done].
  - apply (cmp_on_order (λ _, True) row_P r_op bool_cmp); [apply _|done].
Qed.

Lemma row_cmp_le a b : is_le (row_cmp a b) = true →
  kcmp D (r_key a) (r_key b) = Lt
  ∨ kcmp D (r_key a) (r_key b) = Eq ∧ jcmp D (r_other a) (r_other b) = Lt
  ∨ kcmp D (r_key a) (r_key b) = Eq ∧ jcmp D (r_other a) (r_other b) = Eq
    ∧ (r_t a < r_t b ∨ r_t a = r_t b ∧ (r_op a = true → r_op b = true)).
Proof.
  unfold row_cmp. destruct (kcmp D (r_key a) (r_key b)); [|by left|done].
  simpl. destruct (jcmp D (r_other a) (r_other b)); [|by right; left|done]. simpl. intros Hle. right; right.
  destruct (Z.compare_spec (r_t a) (r_t b)); simpl in Hle; [|by split_and!; auto|done].
  split_and!; [done..|]. right. split; [done|]. by destruct (r_op a), (r_op b).
Qed.

Lemma row_key_le a b : is_le (row_cmp a b) = true → is_le (kcmp D (r_key a) (r_key b)) = true.
Proof. intros [H0|[[H0 _]|[H0 _]]]%row_cmp_le; by rewrite H0. Qed.

Lemma sorted_app (l k : list row) : sorted_by row_cmp (l ++ k) →
  sorted_by row_cmp l ∧ sorted_by row_cmp k ∧ ∀ a b, a ∈ l → b ∈ k → is_le (row_cmp a b) = true.
Proof.
  unfold sorted_by. induction l as [|x l IH]; simpl; [intros H0; split_and!; [constructor|done|by intros a b ?%elem_of_nil]|].
  intros [Hs Hx]%StronglySorted_inv. destruct (IH Hs) as (I1 & I2 & I3). rewrite Forall_forall in Hx. split_and!.
  - constructor; [done|]. apply Forall_forall. intros y Hy. apply Hx, elem_of_app. by left.
  - done.
  - intros a b [->|Ha]%elem_of_cons Hb; [|by apply I3]. apply Hx, elem_of_app. by right.
Qed.

Lemma sorted_bounds chunk sm r : sorted_by row_cmp chunk → summarize chunk = Some sm → r ∈ chunk →
  is_le (kcmp D (first_key sm) (r_key r)) = true ∧ is_le (kcmp D (r_key r) (last_key sm)) = true.
Proof.
  destruct chunk as [|x chunk]; [done|]. intros Hs [= <-] Hr. cbn [first_key last_key].
  assert (is_le (kcmp D (r_key r) (r_key r)) = true) as Hrefl by (by rewrite (cmp_refl (P := P))).
  split.
  - apply StronglySorted_inv in Hs as [_ Hx]. rewrite Forall_forall in Hx.
    apply elem_of_cons in Hr as [->|Hr]; [done|]. by apply row_key_le, Hx.
  - destruct (last (x :: chunk)) as [y|] eqn:El; [|by apply last_None in El]. simpl.
    apply last_Some in El as [l El]. rewrite El in *. apply sorted_app in Hs as (_ & _ & Hle).
    apply elem_of_app in Hr as [Hr| ->%list_elem_of_singleton]; [|done].
    apply row_key_le, Hle; [done|]. by left.
Qed.

Lemma gt_le_trans x y z : P x → P y → P z → kcmp D x z = Gt → is_le (kcmp D x y) = true → kcmp D y z = Gt.
Proof.
  intros Px Py Pz Hxz Hxy. destruct (kcmp D y z) eqn:E; [| |done].
  - rewrite (cmp_eq_subst_r (P := P) x y z) in Hxy by done. by rewrite Hxz in Hxy.
  - by rewrite (cmp_le_lt_trans (kcmp D) (P := P) x y z) in Hxz.
Qed.

(** ** Loading what was stored *)

Definition fetch_leaf : Cid → ArenaError + list row := fetch (d_leaf_of D) (leaf_magic D).
Definition fetch_branch : ArenaError + list entry := fetch (d_branch_of D) (branch_magic D) branch_cid.

(** The leaves of the entries are in the store. *)
Definition stored (chunks : list (list row)) (entries : list entry) : Prop :=
  Forall2 (λ chunk e, summarize chunk = Some (en_summary e) ∧ fetch_leaf (leaf_cid e) = inr chunk) chunks entries.

(** The cache holds what the store holds. *)
Definition cache_ok (c : ReaderCache) : Prop :=
  (∀ b, c_branch c = Some b → fetch_branch = inr b)
  ∧ ∀ cid leaf, cached cid (c_leaves c) = Some leaf → fetch_leaf cid = inr leaf.

Lemma new_cache_ok : cache_ok new_cache.
Proof. by split. Qed.

Lemma load_branch_ok c b : cache_ok c → fetch_branch = inr b → ∃ c', load_branch c = (inr b, c') ∧ cache_ok c'.
Proof.
  intros [Hb Hl] Hf. unfold load_branch. destruct (c_branch c) as [b'|] eqn:E.
  - specialize (Hb _ eq_refl). rewrite Hf in Hb. injection Hb as <-. exists c. split; [done|]. split; [by rewrite E; intros ? [= <-]|done].
  - pose proof Hf as Hf'. unfold fetch_branch in Hf'. rewrite Hf'. eexists. split; [done|].
    split; [by intros ? [= <-]|done].
Qed.

Lemma load_leaf_ok c cid leaf : cache_ok c → fetch_leaf cid = inr leaf → ∃ c', load_leaf c cid = (inr leaf, c') ∧ cache_ok c'.
Proof.
  intros [Hb Hl] Hf. unfold load_leaf. destruct (cached cid (c_leaves c)) as [leaf'|] eqn:E.
  - pose proof (Hl _ _ E) as Hl'. rewrite Hf in Hl'. injection Hl' as <-. exists c. by split.
  - pose proof Hf as Hf'. unfold fetch_leaf in Hf'. rewrite Hf'. eexists. split; [done|]. split; [done|]. simpl. intros cid' leaf'.
    destruct (decide (cid = cid')) as [<-|]; [intros [= <-]; done|apply Hl].
Qed.

(** ** A scan visits every leaf that matters *)

Definition arena_rows (rows : list row) : Prop := Forall row_P rows ∧ sorted_by row_cmp rows.

Lemma arena_rows_app l k : arena_rows (l ++ k) →
  arena_rows l ∧ arena_rows k ∧ ∀ a b, a ∈ l → b ∈ k → is_le (row_cmp a b) = true.
Proof. intros [[Hl Hk]%Forall_app (Sl & Sk & Hle)%sorted_app]. by split_and!. Qed.

(** [visit] takes nothing of rows of other keys. *)
Definition blind {B} (visit : list row → list B) (key : K) : Prop :=
  ∀ rows, Forall (λ r, row_P r ∧ kcmp D (r_key r) key ≠ Eq) rows → visit rows = [].

Lemma visit_concat {B} (visit : list row → list B) key chunks : blind visit key → Forall row_P (concat chunks) →
  (∀ r, r ∈ concat chunks → kcmp D (r_key r) key ≠ Eq) → concat (visit <$> chunks) = [].
Proof.
  intros Hv. induction chunks as [|chunk chunks IH]; csimpl; [done|]. intros [Hc Hcs]%Forall_app Hne.
  rewrite Hv, IH; [done|done|..]; [intros r Hr; apply Hne, elem_of_app; by right|].
  rewrite Forall_forall in Hc |- *. intros r Hr. split; [by apply Hc|]. apply Hne, elem_of_app. by left.
Qed.

Lemma scan_skip chunk sm key r : P key → arena_rows chunk → summarize chunk = Some sm →
  is_lt (kcmp D (last_key sm) key) = true → r ∈ chunk → kcmp D (r_key r) key ≠ Eq.
Proof.
  intros Pk [Hp Hs] Hsm Hlt Hr. destruct (sorted_bounds _ _ _ Hs Hsm Hr) as [_ Hle].
  rewrite Forall_forall in Hp. destruct (kcmp D (last_key sm) key) eqn:E; [done| |done].
  rewrite (cmp_le_lt_trans (kcmp D) (P := P) (r_key r) (last_key sm) key); [done|by apply Hp|..|done|done|done].
  destruct chunk as [|x chunk]; [done|]. injection Hsm as <-. simpl.
  destruct (last (x :: chunk)) as [y|] eqn:El; simpl; [|by apply last_None in El].
  apply Hp. by apply last_Some_elem_of.
Qed.

Lemma scan_break chunk chunks sm key r : P key → arena_rows (chunk ++ concat chunks) → summarize chunk = Some sm →
  is_gt (kcmp D (first_key sm) key) = true → r ∈ chunk ++ concat chunks → kcmp D (r_key r) key ≠ Eq.
Proof.
  intros Pk [Hp Hs] Hsm Hgt Hr. destruct chunk as [|x chunk]; [done|]. injection Hsm as <-. simpl in Hgt.
  destruct (kcmp D (r_key x) key) eqn:E; [done|done|]. rewrite Forall_forall in Hp.
  simpl in Hr. apply elem_of_cons in Hr as [->|Hr]; [by rewrite E|].
  apply StronglySorted_inv in Hs as [_ Hx]. rewrite Forall_forall in Hx.
  rewrite (gt_le_trans (r_key x) (r_key r) key); [done|apply Hp; by left|apply Hp; by right|done|done|].
  by apply row_key_le, Hx.
Qed.

Lemma scan_entries_exact {B} (visit : list row → list B) key chunks entries c :
  P key → blind visit key → arena_rows (concat chunks) → stored chunks entries → cache_ok c →
  ∃ c', scan_entries visit key entries c = (inr (concat (visit <$> chunks)), c') ∧ cache_ok c'.
Proof.
  intros Pk Hv Ha Hst. revert c. induction Hst as [|chunk e chunks entries [Hsm Hf] Hst IH]; intros c Hc; [by exists c|].
  csimpl. simpl in Ha. pose proof (arena_rows_app _ _ Ha) as (A1 & A2 & _).
  destruct (is_lt _) eqn:Hlt.
  - destruct (IH A2 c Hc) as (c' & -> & Hc'). exists c'. rewrite Hv; [done|].
    destruct A1 as [Hp Hs]. apply Forall_forall. intros r Hr. split; [by apply (proj1 (Forall_forall _ _) Hp)|].
    by apply (scan_skip chunk (en_summary e)).
  - destruct (is_gt _) eqn:Hgt.
    + exists c. split; [|done]. pose proof (visit_concat visit key (chunk :: chunks) Hv) as Hnil. csimpl in Hnil.
      rewrite Hnil; [done|apply Ha|]. intros r. by apply (scan_break chunk chunks (en_summary e)).
    + destruct (load_leaf_ok c _ _ Hc Hf) as (c1 & -> & Hc1). destruct (IH A2 c1 Hc1) as (c2 & -> & Hc2). by exists c2.
Qed.

Lemma scan_exact {B} (visit : list row → list B) key chunks entries c :
  P key → blind visit key → arena_rows (concat chunks) → stored chunks entries → fetch_branch = inr entries → cache_ok c →
  ∃ c', scan visit key c = (inr (concat (visit <$> chunks)), c') ∧ cache_ok c'.
Proof.
  intros Pk Hv Ha Hst Hb Hc. unfold scan. destruct (load_branch_ok c _ Hc Hb) as (c1 & -> & Hc1).
  by apply scan_entries_exact.
Qed.

(** ** Latest events *)

(** The latest event of [o] up to a time asserts. *)
Definition live_in (l : list row) (o : J) (as_of_t : Z) : Prop :=
  ∃ t, (∃ r, r ∈ l ∧ jcmp D o (r_other r) = Eq ∧ r_t r = t ∧ r_op r = true ∧ t <= as_of_t)
    ∧ ∀ r, r ∈ l → jcmp D o (r_other r) = Eq → r_t r <= as_of_t → r_t r <= t.

Record live_spec (l : list row) (as_of_t : Z) (out : list J) : Prop := {
  ls_sorted : StronglySorted (λ x y, jcmp D x y = Lt) out;
  ls_in : ∀ x, x ∈ out → ∃ r, r ∈ l ∧ r_other r = x;
  ls_live : ∀ o, Q o → (∃ x, x ∈ out ∧ jcmp D o x = Eq) ↔ live_in l o as_of_t;
}.

Lemma live_spec_nil as_of_t : live_spec [] as_of_t [].
Proof.
  split; [constructor|by intros x ?%elem_of_nil|]. intros o _. split; [by intros (x & ?%elem_of_nil & _)|].
  by intros (t & (r & ?%elem_of_nil & _) & _).
Qed.

Lemma live_in_app l k o as_of_t : (∀ a b, a ∈ l → b ∈ k → jcmp D o (r_other a) = Eq → jcmp D o (r_other b) ≠ Eq) →
  live_in (l ++ k) o as_of_t ↔ live_in l o as_of_t ∨ live_in k o as_of_t.
Proof.
  intros Hsep. split.
  - intros (t & (r & [Hr|Hr]%elem_of_app & He & Hrest) & Hmax); [left|right]; exists t;
      (split; [by exists r|]); intros r' Hr'; apply Hmax, elem_of_app; auto.
  - intros [(t & (r & Hr & He & Hrest) & Hmax)|(t & (r & Hr & He & Hrest) & Hmax)]; exists t;
      (split; [exists r; rewrite elem_of_app; auto|]); intros r' [Hr'|Hr']%elem_of_app He'; auto;
      [by destruct (Hsep r r')|by destruct (Hsep r' r)].
Qed.

Lemma live_spec_app l k as_of_t out out' : Forall row_P (l ++ k) →
  (∀ a b, a ∈ l → b ∈ k → jcmp D (r_other a) (r_other b) = Lt) →
  live_spec l as_of_t out → live_spec k as_of_t out' → live_spec (l ++ k) as_of_t (out ++ out').
Proof.
  intros Hp Hlt [S1 I1 L1] [S2 I2 L2]. rewrite Forall_forall in Hp. split.
  - clear L1 L2. induction S1 as [|x out S1 IH Hx]; simpl; [done|]. constructor; [apply IH; intros; apply I1; by right|].
    apply Forall_app. split; [done|]. apply Forall_forall. intros y (b & Hb & <-)%I2.
    destruct (I1 x) as (a & Ha & <-); [by left|]. by apply Hlt.
  - intros x [(r & ? & ?)%I1|(r & ? & ?)%I2]%elem_of_app; exists r; rewrite elem_of_app; auto.
  - intros o Ho. rewrite live_in_app, <- (L1 o Ho), <- (L2 o Ho).
    + split.
      * intros (x & [Hx|Hx]%elem_of_app & He); eauto.
      * intros [(x & Hx & He)|(x & Hx & He)]; exists x; rewrite elem_of_app; auto.
    + intros a b Ha Hb Ea Eb. pose proof (Hlt _ _ Ha Hb) as Hab.
      rewrite <- (cmp_eq_subst (P := Q) o (r_other a)) in Hab; [by rewrite Eb in Hab|done| |..|done];
        apply Hp, elem_of_app; auto.
Qed.

Definition visible (as_of_t : Z) (cur : option bool) (r : row) : option bool :=
  if r_t r <=? as_of_t then Some (r_op r) else cur.

Lemma walk_group_spec key other as_of_t latest rows latest' rest :
  walk_group key other as_of_t latest rows = (latest', rest) →
  ∃ g, rows = g ++ rest ∧ Forall (λ r, keq D (r_key r) key && jeq D (r_other r) other = true) g
    ∧ (∀ h, head rest = Some h → keq D (r_key h) key && jeq D (r_other h) other = false)
    ∧ latest' = foldl (visible as_of_t) latest g.
Proof.
  revert latest. induction rows as [|r rows IH]; intros latest; simpl; [intros [= <- <-]; by exists []|].
  destruct (keq D (r_key r) key && jeq D (r_other r) other) eqn:E.
  - intros (g & -> & Hg & Hh & ->)%IH. exists (r :: g). split_and!; [done|by constructor|done|done].
  - intros [= <- <-]. exists []. split_and!; [done|constructor|by intros h [= <-]|done].
Qed.

(** Within a group the last visible row tells. *)
Lemma group_live g o as_of_t : sorted_by row_cmp g → Forall (λ r, jcmp D o (r_other r) = Eq) g →
  (∀ a b, a ∈ g → b ∈ g → kcmp D (r_key a) (r_key b) = Eq ∧ jcmp D (r_other a) (r_other b) = Eq) →
  foldl (visible as_of_t) None g = Some true ↔ live_in g o as_of_t.
Proof.
  induction g as [|x g IH] using rev_ind; intros Hs Ho Hsame.
  { split; [done|]. by intros (t & (r & ?%elem_of_nil & _) & _). }
  pose proof (sorted_app _ _ Hs) as (Sg & _ & Hle). apply Forall_app in Ho as [Ho [Hox _]%Forall_cons].
  rewrite foldl_app. simpl. unfold visible at 1.
  assert (∀ r, r ∈ g → r_t r < r_t x ∨ r_t r = r_t x ∧ (r_op r = true → r_op x = true)) as Hbelow.
  { intros r Hr. destruct (Hsame r x) as [E1 E2]; [apply elem_of_app; by left|apply elem_of_app; right; by left|].
    destruct (row_cmp_le r x) as [H0|[[_ H0]|(_ & _ & H0)]]; [apply Hle; [done|by left]|congruence|congruence|done]. }
  destruct (Z.leb_spec (r_t x) as_of_t) as [Hx|Hx].
  - split.
    + intros [= Hop]. exists (r_t x). split; [exists x; split_and!; [apply elem_of_app; right; by left|done..]|].
      intros r [Hr| ->%list_elem_of_singleton]%elem_of_app _ _; [|done]. destruct (Hbelow r Hr) as [?|[-> _]]; lia.
    + intros (t & (r & Hr & _ & Ht & Hop & _) & Hmax). f_equal.
      apply elem_of_app in Hr as [Hr| ->%list_elem_of_singleton]; [|done].
      specialize (Hmax x). destruct (Hbelow r Hr) as [?|[_ H0]]; [|by apply H0].
      assert (r_t x <= t); [|lia]. apply Hmax; [apply elem_of_app; right; by left|done|done].
  - rewrite IH; [|done|done|intros a b Ha Hb; apply Hsame; apply elem_of_app; by left].
    split; intros (t & (r & Hr & He & Ht & Hop & Hv) & Hmax); exists t; split.
    + exists r. split_and!; [apply elem_of_app; by left|done..].
    + intros r' [Hr'| ->%list_elem_of_singleton]%elem_of_app; [by apply Hmax|lia].
    + apply elem_of_app in Hr as [Hr| ->%list_elem_of_singleton]; [|lia]. by exists r.
    + intros r' Hr'. apply Hmax, elem_of_app. by left.
Qed.

Definition key_rows (key : K) (l : list row) : list row := filter (λ r, kcmp D (r_key r) key = Eq) l.

Lemma row_group r key other : row_P r → P key → Q other →
  keq D (r_key r) key && jeq D (r_other r) other = true ↔ kcmp D (r_key r) key = Eq ∧ jcmp D (r_other r) other = Eq.
Proof. intros [Pr Qr] Pk Qo. by rewrite andb_true_iff, keq_cmp, jeq_cmp. Qed.

Lemma other_le key a b : P key → row_P a → row_P b → kcmp D (r_key a) key = Eq → kcmp D (r_key b) key = Eq →
  is_le (row_cmp a b) = true → is_le (jcmp D (r_other a) (r_other b)) = true.
Proof.
  intros Pk [Pa Qa] [Pb Qb] Ea Eb [H0|[[_ H0]|(_ & H0 & _)]]%row_cmp_le; [|by rewrite H0|by rewrite H0].
  rewrite (cmp_eq_subst (P := P) _ key), (cmp_flip (P := P) (r_key b)), Eb in H0; done.
Qed.

(** Across a cut between groups, the rows of a key go on with a greater other. *)
Lemma cut_lt key l k x y a b : P key → arena_rows (l ++ k) → last l = Some x → head k = Some y → same_group x y = false →
  a ∈ key_rows key l → b ∈ key_rows key k → jcmp D (r_other a) (r_other b) = Lt.
Proof.
  intros Pk Ha Hx Hy Hxy [Ea Hal]%list_elem_of_filter [Eb Hbk]%list_elem_of_filter.
  destruct (arena_rows_app _ _ Ha) as ([Hl Sl] & [Hk Sk] & Hle). rewrite Forall_forall in Hl, Hk.
  assert (x ∈ l) as Hxl by (by apply last_Some_elem_of). assert (y ∈ k) as Hyk by (by apply head_Some_elem_of).
  assert (is_le (row_cmp a x) = true) as Hax.
  { apply last_Some in Hx as [l' ->]. apply sorted_app in Sl as (_ & _ & Hle').
    apply elem_of_app in Hal as [Hal| ->%list_elem_of_singleton]; [apply Hle'; [done|by left]|by rewrite (cmp_refl (P := row_P))]. }
  assert (is_le (row_cmp y b) = true) as Hyb.
  { destruct k as [|y' k]; [done|]. injection Hy as ->. apply StronglySorted_inv in Sk as [_ Sk]. rewrite Forall_forall in Sk.
    apply elem_of_cons in Hbk as [->|Hbk]; [by rewrite (cmp_refl (P := row_P))|by apply Sk]. }
  assert (∀ r, row_P r → is_le (kcmp D (r_key a) (r_key r)) = true → is_le (kcmp D (r_key r) (r_key b)) = true →
    kcmp D (r_key r) key = Eq) as Hmid.
  { intros r [Pr _] H1 H2. destruct (kcmp D (r_key r) key) eqn:E; [done| |].
    - rewrite (cmp_le_lt_trans (kcmp D) (P := P) (r_key a) (r_key r) key) in Ea; [done|by apply Hl|done..].
    - rewrite (gt_le_trans (r_key r) (r_key b) key) in Eb; [done|done|by apply Hk|done..]. }
  assert (kcmp D (r_key x) key = Eq) as Ekx by (apply Hmid; [by apply Hl|by apply row_key_le|by apply row_key_le, Hle]).
  assert (kcmp D (r_key y) key = Eq) as Eky by (apply Hmid; [by apply Hk|by apply row_key_le, Hle|by apply row_key_le]).
  destruct (Hl x Hxl) as [Px Qx], (Hk y Hyk) as [Py Qy], (Hl a Hal) as [Pa Qa], (Hk b Hbk) as [Pb Qb].
  assert (jcmp D (r_other x) (r_other y) = Lt) as Hlt.
  { assert (is_le (jcmp D (r_other x) (r_other y)) = true) as Hj by (by apply (other_le key); auto).
    destruct (jcmp D (r_other x) (r_other y)) eqn:E; [|done|done]. unfold same_group in Hxy.
    rewrite (proj2 (jeq_cmp _ _ Qx Qy) E), (proj2 (keq_cmp _ _ Px Py)) in Hxy; [done|].
    rewrite (cmp_eq_subst (P := P) _ key) by done. by apply (cmp_eq_sym (P := P)). }
  apply (cmp_le_lt_trans (jcmp D) (P := Q) _ (r_other x)); [done..|by apply (other_le key); auto|].
  apply (cmp_lt_le_trans (jcmp D) (P := Q) _ (r_other y)); [done..|by apply (other_le key); auto].
Qed.

(** A group and what follows it. *)
Lemma group_split key r g rest : P key → arena_rows ((r :: g) ++ rest) →
  Forall (λ x, keq D (r_key x) key && jeq D (r_other x) (r_other r) = true) (r :: g) →
  (∀ h, head rest = Some h → keq D (r_key h) key && jeq D (r_other h) (r_other r) = false) →
  key_rows key ((r :: g) ++ rest) = (r :: g) ++ key_rows key rest
  ∧ ∀ a b, a ∈ r :: g → b ∈ key_rows key rest → jcmp D (r_other a) (r_other b) = Lt.
Proof.
  intros Pk Ha Hg Hh. pose proof Ha as [Hp _]. rewrite Forall_forall in Hp, Hg.
  assert (row_P r) as [Pr Qr] by (apply Hp; by left).
  assert (∀ x, x ∈ r :: g → kcmp D (r_key x) key = Eq ∧ jcmp D (r_other x) (r_other r) = Eq) as Hin.
  { intros x Hx. apply (row_group x key); [apply Hp, elem_of_app; by left|done|done|by apply Hg]. }
  assert (key_rows key (r :: g) = r :: g) as Ekr by (apply list_filter_id, Forall_forall; intros x Hx; by apply Hin).
  split; [unfold key_rows in *; by rewrite filter_app, Ekr|].
  intros a b Hal Hb. destruct (last (r :: g)) as [x|] eqn:Hx; [|by apply last_None in Hx].
  destruct (head rest) as [y|] eqn:Hy; [|by destruct rest; [apply elem_of_nil in Hb|]].
  eapply (cut_lt key (r :: g) rest); [done|done|done|done| |by rewrite Ekr|done].
  apply last_Some_elem_of in Hx. apply head_Some_elem_of in Hy as Hyr. apply not_true_is_false. intros Hsg.
  destruct (Hin x Hx) as [Kx Jx]. assert (row_P x ∧ row_P y) as [Rx Ry] by (split; apply Hp, elem_of_app; auto).
  unfold same_group in Hsg. destruct Rx as [Px Qx], Ry as [Py Qy].
  rewrite andb_true_iff, keq_cmp, jeq_cmp in Hsg by done. destruct Hsg as [K1 J1].
  specialize (Hh y eq_refl). rewrite (proj2 (row_group y key (r_other r) (conj Py Qy) Pk Qr)) in Hh; [done|]. split.
  - by rewrite <- (cmp_eq_subst (P := P) (r_key x)).
  - by rewrite <- (cmp_eq_subst (P := Q) (r_other x)).
Qed.

Lemma group_spec key r g as_of_t : P key → arena_rows (r :: g) →
  Forall (λ x, keq D (r_key x) key && jeq D (r_other x) (r_other r) = true) (r :: g) →
  live_spec (r :: g) as_of_t
    (if bool_decide (foldl (visible as_of_t) None (r :: g) = Some true) then [r_other r] else []).
Proof.
  intros Pk [Hp Hs] Hg. rewrite Forall_forall in Hp, Hg. assert (row_P r) as [Pr Qr] by (apply Hp; by left).
  assert (∀ x, x ∈ r :: g → row_P x ∧ kcmp D (r_key x) key = Eq ∧ jcmp D (r_other x) (r_other r) = Eq) as Hin.
  { intros x Hx. split; [by apply Hp|]. apply (row_group x key); [by apply Hp|done|done|by apply Hg]. }
  assert (∀ o, Q o → jcmp D o (r_other r) = Eq → foldl (visible as_of_t) None (r :: g) = Some true ↔ live_in (r :: g) o as_of_t) as Hlive.
  { intros o Qo Eo. apply group_live; [done|..].
    - apply Forall_forall. intros x Hx. destruct (Hin x Hx) as ([_ Qx] & _ & Ex).
      apply (cmp_eq_trans (P := Q) o (r_other r)); [done..|]. by apply (cmp_eq_sym (P := Q)).
    - intros a b Ha Hb. destruct (Hin a Ha) as ([Pa Qa] & Ka & Ja), (Hin b Hb) as ([Pb Qb] & Kb & Jb). split.
      + apply (cmp_eq_trans (P := P) _ key); [done..|]. by apply (cmp_eq_sym (P := P)).
      + apply (cmp_eq_trans (P := Q) _ (r_other r)); [done..|]. by apply (cmp_eq_sym (P := Q)). }
  split.
  - case_bool_decide; repeat constructor.
  - case_bool_decide; [|by intros x ?%elem_of_nil]. intros x ->%list_elem_of_singleton. exists r. split; [by left|done].
  - intros o Qo. destruct (decide (jcmp D o (r_other r) = Eq)) as [Eo|Eo].
    + rewrite <- (Hlive o Qo Eo). case_bool_decide as Hb.
      * split; [done|]. intros _. exists (r_other r). by rewrite list_elem_of_singleton.
      * split; [by intros (x & ?%elem_of_nil & _)|]. done.
    + split.
      * intros (x & Hx & Ex). case_bool_decide; [|by apply elem_of_nil in Hx].
        apply list_elem_of_singleton in Hx. by subst.
      * intros (t & (x & Hx & Ex & _) & _). destruct (Hin x Hx) as ([_ Qx] & _ & Jx).
        destruct Eo. by apply (cmp_eq_trans (P := Q) o (r_other x)).
Qed.

Lemma key_rows_gt key rows : P key → arena_rows rows → (∀ h, head rows = Some h → kcmp D (r_key h) key = Gt) →
  key_rows key rows = [].
Proof.
  intros Pk [Hp Hs] Hh. apply list_filter_none. destruct rows as [|h rows]; [constructor|].
  specialize (Hh h eq_refl). rewrite Forall_forall in Hp. apply StronglySorted_inv in Hs as [_ Hs].
  constructor; [by rewrite Hh|]. rewrite Forall_forall in Hs |- *. intros x Hx.
  rewrite (gt_le_trans (r_key h) (r_key x) key); [done|apply Hp; by left|apply Hp; by right|done|done|].
  by apply row_key_le, Hs.
Qed.

Lemma live_loop_spec fuel key as_of_t rows : P key → arena_rows rows →
  (∀ r, r ∈ rows → kcmp D (r_key r) key ≠ Lt) → (length rows <= fuel)%nat →
  live_spec (key_rows key rows) as_of_t (live_loop fuel key as_of_t rows).
Proof.
  intros Pk. revert rows. induction fuel as [|fuel IH]; intros [|r rows] Ha Hge Hf; try apply live_spec_nil.
  { simpl in Hf. lia. }
  cbn [live_loop]. assert (row_P r) as [Pr Qr] by (destruct Ha as [Hp _]; by apply Forall_cons in Hp as [? _]).
  destruct (keq D (r_key r) key) eqn:Ek.
  - destruct (walk_group key (r_other r) as_of_t None (r :: rows)) as [latest rest] eqn:Ew.
    apply walk_group_spec in Ew as (g & Er & Hg & Hh & ->).
    destruct g as [|x g].
    { simpl in Er. subst rest. specialize (Hh r eq_refl). rewrite Ek, (proj2 (jeq_cmp _ _ Qr Qr)) in Hh; [done|].
      apply (cmp_refl (P := Q)). }
    injection Er as <- ->. change (r :: g ++ rest) with ((r :: g) ++ rest) in *.
    destruct (group_split key r g rest Pk Ha Hg Hh) as [-> Hlt].
    destruct (arena_rows_app _ _ Ha) as (A1 & A2 & _).
    apply live_spec_app; [|done|by apply (group_spec key)|].
    + destruct Ha as [Hp _]. rewrite Forall_forall in Hp. apply Forall_forall.
      intros y [Hy|[_ Hy]%list_elem_of_filter]%elem_of_app; apply Hp, elem_of_app; auto.
    + apply IH; [done|intros y Hy; apply Hge, elem_of_app; by right|]. rewrite length_app in Hf. simpl in Hf. lia.
  - rewrite key_rows_gt; [apply live_spec_nil|done..|]. intros h [= <-].
    assert (kcmp D (r_key r) key ≠ Lt) as Hlt by (apply Hge; by left).
    destruct (kcmp D (r_key r) key) eqn:E; [|done|done]. by rewrite (proj2 (keq_cmp _ _ Pr Pk) E) in Ek.
Qed.

(** The rows below a key come first. *)
Lemma below_split key rows : P key → arena_rows rows →
  ∃ l1 l2, rows = l1 ++ l2 ∧ Forall (λ r, is_lt (kcmp D (r_key r) key) = true) l1
    ∧ Forall (λ r, is_lt (kcmp D (r_key r) key) = false) l2.
Proof.
  intros Pk [Hp Hs]. induction Hs as [|r rows Hs IH Hr]; [by exists [], []|].
  apply Forall_cons in Hp as [[Pr Qr] Hp]. destruct (is_lt (kcmp D (r_key r) key)) eqn:E.
  - destruct (IH Hp) as (l1 & l2 & -> & H1 & H2). exists (r :: l1), l2. by split_and!; [|constructor|].
  - exists [], (r :: rows). split_and!; [done|constructor|]. constructor; [done|].
    rewrite Forall_forall in Hr, Hp |- *. intros x Hx. destruct (kcmp D (r_key x) key) eqn:Ex; [done| |done].
    by rewrite (cmp_le_lt_trans (kcmp D) (r_key r) (r_key x) key Pr (proj1 (Hp x Hx)) Pk (row_key_le _ _ (Hr x Hx)) Ex) in E.
Qed.

Lemma collect_live_spec key as_of_t rows : P key → arena_rows rows →
  live_spec (key_rows key rows) as_of_t (collect_live key as_of_t rows).
Proof.
  intros Pk Ha. destruct (below_split key rows Pk Ha) as (l1 & l2 & -> & H1 & H2). unfold collect_live.
  rewrite (partition_point_spec _ (l1 ++ l2) l1 l2) by done. rewrite drop_app_length.
  unfold key_rows. rewrite filter_app, list_filter_none.
  - apply live_loop_spec; [done|by apply (arena_rows_app l1)|..].
    + intros r Hr. rewrite Forall_forall in H2. specialize (H2 r Hr). by destruct (kcmp D (r_key r) key).
    + rewrite length_app. lia.
  - eapply Forall_impl; [exact H1|]. intros r Hr. simpl in *. by destruct (kcmp D (r_key r) key).
Qed.

Lemma collect_live_chunks key as_of_t chunks : P key → arena_rows (concat chunks) → Forall (λ c, c ≠ []) chunks → apart chunks →
  live_spec (key_rows key (concat chunks)) as_of_t (concat (collect_live key as_of_t <$> chunks)).
Proof.
  intros Pk Ha Hne Hap. induction Hne as [|chunk chunks Hc Hne IH]; [apply live_spec_nil|]. csimpl. simpl in Ha.
  destruct (arena_rows_app _ _ Ha) as (A1 & A2 & _), Hap as [Hb Hap].
  unfold key_rows. rewrite filter_app. apply live_spec_app; [|..|by apply collect_live_spec|by apply IH].
  - rewrite <- filter_app. destruct Ha as [Hp _]. rewrite Forall_forall in Hp. apply Forall_forall.
    intros r [_ Hr]%list_elem_of_filter. by apply Hp.
  - intros a b Hal Hbk. destruct (last chunk) as [x|] eqn:Hx; [|by apply last_None in Hx].
    destruct (head (concat chunks)) as [y|] eqn:Hy.
    + by apply (cut_lt key chunk (concat chunks) x y); auto.
    + apply list_elem_of_filter in Hbk as [_ Hbk]. by destruct (concat chunks); [apply elem_of_nil in Hbk|].
Qed.

Lemma collect_live_blind key as_of_t : P key → blind (collect_live key as_of_t) key.
Proof.
  intros Pk rows Hr. unfold collect_live. set (k := partition_point _ _).
  assert (∀ fuel l, Forall (λ r, row_P r ∧ kcmp D (r_key r) key ≠ Eq) l → live_loop fuel key as_of_t l = []) as Hnil.
  { intros [|fuel] [|r l]; [done..|]. intros [[[Pr _] Hne] _]%Forall_cons. cbn [live_loop].
    destruct (keq D (r_key r) key) eqn:E; [|done]. by apply keq_cmp in E. }
  by apply Hnil, Forall_drop.
Qed.

Lemma events_blind {B} (f : row → option B) key : P key → blind (omap (λ r, if keq D (r_key r) key then f r else None)) key.
Proof.
  intros Pk rows. induction 1 as [|r rows [[Pr _] Hne] _ IH]; csimpl; [done|].
  destruct (keq D (r_key r) key) eqn:E; [|done]. by apply keq_cmp in E.
Qed.

(** ** The arena in the store *)

(** The leaves and the branch of some rows, under the ids the store gave them. *)
Definition arena_stored (target : nat) (rows : list row) (cids : list Cid) : Prop :=
  ∃ leaves, build_leaves rows target = Some leaves
    ∧ Forall2 (λ leaf cid, store_get cid = inr leaf.2) leaves cids
    ∧ store_get branch_cid = inr (build_branch (zip leaves.*1 cids)).

(** Lengths fit the 32 bits of a blob's header, and counts a [u64]. *)
Definition blobs_fit (target : nat) (rows : list row) (cids : list Cid) : Prop :=
  Forall (λ chunk, Z.of_nat (length (to_cbor (d_leaf D chunk))) < 2 ^ 32) (leaf_rows target rows)
  ∧ Z.of_nat (length rows) < 2 ^ 64
  ∧ ∀ leaves, build_leaves rows target = Some leaves →
      Z.of_nat (length (to_cbor (d_branch D ((λ '(s, cid), mkEntry s cid) <$> zip leaves.*1 cids)))) < 2 ^ 32.

Lemma summarize_ok chunk sm : Forall (row_ok k_ok j_ok) chunk → Z.of_nat (length chunk) < 2 ^ 64 →
  summarize chunk = Some sm → summary_ok k_ok j_ok sm.
Proof.
  destruct chunk as [|x chunk]; [done|]. intros Hr Hlen [= <-]. rewrite Forall_forall in Hr.
  destruct (Hr x) as (H1 & H2 & _); [by left|].
  assert (row_ok k_ok j_ok (default x (last (x :: chunk)))) as (H3 & H4 & _).
  { destruct (last (x :: chunk)) as [y|] eqn:El; [|by apply last_None in El]. by apply Hr, last_Some_elem_of. }
  by split_and!.
Qed.

Lemma build_leaves_ok target rows : ∃ leaves, build_leaves rows target = Some leaves
  ∧ Forall2 (λ chunk leaf, summarize chunk = Some leaf.1 ∧ leaf.2 = encode_blob (leaf_magic D) (d_leaf D chunk))
      (leaf_rows target rows) leaves.
Proof.
  unfold build_leaves. destruct (leaf_rows_ok target rows) as (_ & Hne & _).
  induction Hne as [|chunk chunks Hc Hne (leaves & E & Hl)]; [by exists []|].
  destruct chunk as [|x chunk]; [done|]. eexists. cbn [mapM summarize mbind option_bind]. rewrite E. split; [done|].
  by constructor.
Qed.

Lemma stored_arena target rows cids : Forall (row_ok k_ok j_ok) rows → blobs_fit target rows cids →
  arena_stored target rows cids →
  ∃ entries, fetch_branch = inr entries ∧ stored (leaf_rows target rows) entries ∧ leaf_cid <$> entries = cids.
Proof.
  intros Hr (Hf1 & Hlen & Hf2) (leaves & El & Hcids & Hbr). specialize (Hf2 _ El).
  destruct (build_leaves_ok target rows) as (leaves' & El' & Hl). rewrite El in El'. injection El' as <-.
  destruct (leaf_rows_ok target rows) as (Hcat & _ & _).
  set (entries := (λ '(s, cid), mkEntry s cid) <$> zip leaves.*1 cids) in *. exists entries.
  assert (Forall (λ c, Forall (row_ok k_ok j_ok) c ∧ Z.of_nat (length c) < 2 ^ 64) (leaf_rows target rows)) as Hchunks.
  { apply Forall_forall. intros c Hc. apply list_elem_of_split in Hc as (l1 & l2 & Hsp).
    rewrite Hsp, concat_app in Hcat. simpl in Hcat. rewrite <- Hcat in Hr, Hlen.
    apply Forall_app in Hr as [_ [Hr _]%Forall_app]. rewrite !length_app in Hlen. split; [done|lia]. }
  assert (stored (leaf_rows target rows) entries ∧ Forall (λ e, summary_ok k_ok j_ok (en_summary e)) entries) as [Hst Hsum].
  { clear Hbr Hf2 El Hcat. unfold entries. clear entries. unfold stored. revert cids Hcids.
    induction Hl as [|chunk [sm blob] chunks leaves [Hsm Hblob] Hl IH]; intros cids Hcids; csimpl; [by split; constructor|].
    apply Forall_cons in Hchunks as [[Hc Hcl] Hchunks], Hf1 as [Hf Hf1].
    inversion Hcids as [|? cid ? cids' Hget Hcids']; subst. destruct (IH Hf1 Hchunks _ Hcids') as [I1 I2].
    csimpl. split; constructor; [|done| |done].
    - split; [done|]. cbn [leaf_cid]. unfold fetch_leaf, fetch. rewrite Hget. cbn [snd] in *. subst blob.
      destruct (leaf_codec chunk Hc) as [E1 E2]. by rewrite (encode_blob_roundtrip (d_leaf_of D) _ _ chunk leaf_magic_len).
    - by apply (summarize_ok chunk). }
  split; [|split; [done|]].
  2: { unfold entries. clear -Hcids. induction Hcids as [|? cid leaves cids _ _ IH]; csimpl; [done|]. by rewrite IH. }
  unfold fetch_branch, fetch. rewrite Hbr. unfold build_branch. fold entries.
  destruct (branch_codec entries Hsum) as [E1 E2]. by rewrite (encode_blob_roundtrip (d_branch_of D) _ _ entries branch_magic_len).
Qed.

(** ** Reads *)

Section reads.
Context (target : nat) (rows : list row) (cids : list Cid).
Hypothesis Hok : Forall (row_ok k_ok j_ok) rows.
Hypothesis Hfit : blobs_fit target rows cids.
Hypothesis Hstored : arena_stored target rows cids.
Hypothesis Hrows : arena_rows rows.

Lemma scan_stored {B} (visit : list row → list B) key c : P key → blind visit key → cache_ok c →
  ∃ c', scan visit key c = (inr (concat (visit <$> leaf_rows target rows)), c') ∧ cache_ok c'.
Proof.
  intros Pk Hv Hc. destruct (stored_arena target rows cids Hok Hfit Hstored) as (entries & Hb & Hst & _).
  apply (scan_exact visit key _ entries); try done. by rewrite (proj1 (leaf_rows_ok target rows)).
Qed.

Lemma leaf_cids_exact c : cache_ok c → ∃ c', leaf_cids c = (inr cids, c') ∧ cache_ok c'.
Proof.
  intros Hc. destruct (stored_arena target rows cids Hok Hfit Hstored) as (entries & Hb & _ & Hids).
  destruct (load_branch_ok c entries Hc Hb) as (c' & E & Hc'). exists c'. unfold leaf_cids. by rewrite E, Hids.
Qed.

(** The leaves of a key, whatever the reader has cached. *)
Definition live_out (key : K) (as_of_t : Z) : list J := concat (collect_live key as_of_t <$> leaf_rows target rows).

Lemma live_out_spec key as_of_t : P key → live_spec (key_rows key rows) as_of_t (live_out key as_of_t).
Proof.
  intros Pk. destruct (leaf_rows_ok target rows) as (Hcat & Hne & Hap). rewrite <- Hcat at 1.
  apply collect_live_chunks; [done|by rewrite Hcat|done|done].
Qed.

Lemma current_for_exact key as_of_t c : P key → cache_ok c →
  ∃ c', current_for key as_of_t c = (inr (live_out key as_of_t), c') ∧ cache_ok c'.
Proof. intros Pk Hc. apply scan_stored; [done|by apply collect_live_blind|done]. Qed.

Lemma collect_events_exact key as_of_t c : P key → cache_ok c →
  ∃ c', collect_events key as_of_t c = (inr (events_of key as_of_t rows), c') ∧ cache_ok c'.
Proof.
  intros Pk Hc. destruct (leaf_rows_ok target rows) as (Hcat & _ & _).
  destruct (scan_stored (events_of key as_of_t) key c Pk) as (c' & E & Hc'); [|done|].
  - intros l Hl. rewrite <- (events_blind (λ r, if r_t r <=? as_of_t then Some (r_other r, r_t r, r_op r) else None) key Pk l Hl).
    apply list_omap_ext, Forall2_same_length_lookup. split; [done|]. intros i x y Hx Hy. rewrite Hx in Hy. injection Hy as <-.
    by destruct (keq D (r_key x) key).
  - exists c'. split; [|done]. rewrite <- Hcat at 1. unfold events_of. rewrite <- omap_concat. exact E.
Qed.

Lemma history_exact key c : P key → cache_ok c →
  ∃ c', history_for key c = (inr (history_of key rows), c') ∧ cache_ok c'.
Proof.
  intros Pk Hc. destruct (leaf_rows_ok target rows) as (Hcat & _ & _).
  destruct (scan_stored (history_of key) key c Pk) as (c' & E & Hc'); [by apply events_blind|done|].
  exists c'. split; [|done]. rewrite <- Hcat at 1. unfold history_of. rewrite <- omap_concat. exact E.
Qed.

Lemma merge_live_latest arena novelty as_of_t :
  merge_live arena novelty as_of_t = latest_assertions_at (jcmp D) (arena ++ novelty) as_of_t.
Proof. unfold merge_live, latest_assertions_at. by rewrite foldl_app. Qed.

Lemma current_merged_exact key novelty as_of_t c : P key → cache_ok c →
  ∃ c', current_merged key novelty as_of_t c
        = (inr (latest_assertions_at (jcmp D) (events_of key as_of_t rows ++ novelty) as_of_t), c') ∧ cache_ok c'.
Proof.
  intros Pk Hc. unfold current_merged. destruct (collect_events_exact key as_of_t c Pk Hc) as (c' & -> & Hc').
  rewrite merge_live_latest. by exists c'.
Qed.

Lemma collect_all_exact c : cache_ok c → ∃ c', collect_all_events c = (inr rows, c') ∧ cache_ok c'.
Proof.
  intros Hc. destruct (stored_arena target rows cids Hok Hfit Hstored) as (entries & Hb & Hst & _).
  unfold collect_all_events. destruct (load_branch_ok c _ Hc Hb) as (c1 & -> & Hc1).
  cut (∃ c', collect_all_loop entries c1 = (inr (concat (leaf_rows target rows)), c') ∧ cache_ok c');
    [by rewrite (proj1 (leaf_rows_ok target rows))|].
  revert c1 Hc1. clear Hb.
  induction Hst as [|chunk e chunks entries [_ Hf] Hst IH]; intros c1 Hc1; [by exists c1|].
  cbn [collect_all_loop concat]. destruct (load_leaf_ok c1 _ _ Hc1 Hf) as (c2 & -> & Hc2).
  destruct (IH c2 Hc2) as (c3 & -> & Hc3). by exists c3.
Qed.

(** ** Batches *)

Lemma batch_visit_exact key as_of_t chunks entries c :
  P key → arena_rows (concat chunks) → stored chunks entries → cache_ok c →
  ∃ c', batch_visit key as_of_t entries c = (inr (concat (collect_live key as_of_t <$> chunks)), c') ∧ cache_ok c'.
Proof.
  intros Pk Ha Hst. pose proof (collect_live_blind key as_of_t Pk) as Hv. revert c.
  induction Hst as [|chunk e chunks entries [Hsm Hf] Hst IH]; intros c Hc; [by exists c|].
  csimpl. simpl in Ha. pose proof (arena_rows_app _ _ Ha) as (A1 & A2 & _). destruct (is_gt _) eqn:Hgt.
  - exists c. split; [|done]. pose proof (visit_concat _ key (chunk :: chunks) Hv) as Hnil. csimpl in Hnil.
    rewrite Hnil; [done|apply Ha|]. intros r. by apply (scan_break chunk chunks (en_summary e)).
  - destruct (is_lt _) eqn:Hlt.
    + destruct (IH A2 c Hc) as (c' & -> & Hc'). exists c'. rewrite Hv; [done|]. destruct A1 as [Hp Hs]. apply Forall_forall.
      intros r Hr. split; [by apply (proj1 (Forall_forall _ _) Hp)|]. by apply (scan_skip chunk (en_summary e)).
    + destruct (load_leaf_ok c _ _ Hc Hf) as (c1 & -> & Hc1). destruct (IH A2 c1 Hc1) as (c2 & -> & Hc2). by exists c2.
Qed.

(** Advancing leaves behind only leaves below the key. *)
Lemma advance_exact key chunks entries : P key → arena_rows (concat chunks) → stored chunks entries →
  ∃ past rest, chunks = past ++ rest ∧ stored rest (advance key entries)
    ∧ ∀ r, r ∈ concat past → kcmp D (r_key r) key = Lt.
Proof.
  intros Pk Ha Hst. induction Hst as [|chunk e chunks entries [Hsm Hf] Hst IH].
  { exists [], []. split_and!; [done|constructor|by intros r ?%elem_of_nil]. }
  simpl in Ha. destruct (arena_rows_app _ _ Ha) as (A1 & A2 & _). cbn [advance]. destruct (is_lt _) eqn:Hlt.
  - destruct (IH A2) as (past & rest & -> & Hst' & Hlow). exists (chunk :: past), rest. split_and!; [done|done|].
    intros r [Hr|Hr]%elem_of_app; [|by apply Hlow]. destruct A1 as [Hp Hs].
    destruct (sorted_bounds _ _ _ Hs Hsm Hr) as [_ Hle]. rewrite Forall_forall in Hp.
    destruct (kcmp D (last_key (en_summary e)) key) eqn:E; [done| |done].
    apply (cmp_le_lt_trans (kcmp D) (P := P) _ (last_key (en_summary e))); [by apply Hp|..|done|done|done].
    destruct chunk as [|x chunk]; [done|]. injection Hsm as <-. cbn [last_key].
    destruct (last (x :: chunk)) as [y|] eqn:El; simpl; [|by apply last_None in El]. by apply Hp, last_Some_elem_of.
  - exists [], (chunk :: chunks). split_and!; [done|by constructor|by intros r ?%elem_of_nil].
Qed.

Definition place (as_of_t : Z) (chunks : list (list row)) (out : list (list J)) (probe : nat * K) : list (list J) :=
  alter (λ found, found ++ concat (collect_live probe.2 as_of_t <$> chunks)) probe.1 out.

Lemma batch_loop_exact as_of_t order past rest cursor out c :
  Forall (λ probe : nat * K, P probe.2) order → sorted_by (λ a b, kcmp D a.2 b.2) order →
  arena_rows (concat (past ++ rest)) → stored rest cursor → cache_ok c →
  (∀ r probe, r ∈ concat past → probe ∈ order → kcmp D (r_key r) probe.2 = Lt) →
  ∃ c', batch_loop as_of_t order cursor out c = (inr (foldl (place as_of_t (past ++ rest)) out order), c') ∧ cache_ok c'.
Proof.
  intros HP Hs. revert past rest cursor out c. induction Hs as [|[idx key] order Hs IH Hle]; intros past rest cursor out c Ha Hst Hc Hlow;
    [by exists c|].
  apply Forall_cons in HP as [Pk HP]. simpl in Pk. cbn [batch_loop]. rewrite concat_app in Ha.
  destruct (arena_rows_app _ _ Ha) as (_ & A2 & _).
  destruct (advance_exact key rest cursor Pk A2 Hst) as (past' & rest' & -> & Hst' & Hlow').
  rewrite concat_app in A2. destruct (arena_rows_app _ _ A2) as (_ & A3 & _).
  destruct (batch_visit_exact key as_of_t rest' _ c Pk A3 Hst' Hc) as (c1 & -> & Hc1).
  assert (∀ r, r ∈ concat (past ++ past') → kcmp D (r_key r) key = Lt) as Hbelow.
  { rewrite concat_app. intros r [Hr|Hr]%elem_of_app; [|by apply Hlow']. apply (Hlow r (idx, key) Hr). by left. }
  destruct (IH HP (past ++ past') rest' (advance key cursor)
    (alter (λ found, found ++ concat (collect_live key as_of_t <$> rest')) idx out) c1) as (c2 & E & Hc2); [|done|done|..].
  - by rewrite <- app_assoc, concat_app.
  - intros r probe Hr Hin. specialize (Hbelow r Hr). rewrite Forall_forall in Hle. specialize (Hle _ Hin). simpl in Hle.
    rewrite Forall_forall in HP. apply (cmp_lt_le_trans (kcmp D) (P := P) _ key); [|done|by apply HP|done|done].
    destruct Ha as [Hp _]. rewrite Forall_forall in Hp. apply Hp. rewrite concat_app in Hr |- *. set_solver.
  - exists c2. split; [|done]. rewrite E, <- app_assoc. cbn [foldl]. do 3 f_equal. unfold place. cbn [fst snd].
    rewrite app_assoc, fmap_app, concat_app, (visit_concat (collect_live key as_of_t) key (past ++ past')); [done|by apply collect_live_blind|..].
    + destruct Ha as [Hp _]. rewrite concat_app, app_assoc, <- concat_app in Hp. by apply Forall_app in Hp as [? _].
    + intros r Hr. by rewrite (Hbelow r Hr).
Qed.

Lemma place_length as_of_t chunks out order : length (foldl (place as_of_t chunks) out order) = length out.
Proof. revert out. induction order as [|p order IH]; intros out; simpl; [done|]. by rewrite IH; apply length_alter. Qed.

Lemma place_other as_of_t chunks out order i : i ∉ order.*1 → foldl (place as_of_t chunks) out order !! i = out !! i.
Proof.
  revert out. induction order as [|[idx key] order IH]; intros out; csimpl; [done|].
  rewrite not_elem_of_cons. intros [Hi Ho]. rewrite IH by done. unfold place. simpl. by apply list_lookup_alter_ne.
Qed.

Lemma place_at as_of_t chunks out order i key : NoDup order.*1 → (i, key) ∈ order →
  foldl (place as_of_t chunks) out order !! i
  = (λ found, found ++ concat (collect_live key as_of_t <$> chunks)) <$> out !! i.
Proof.
  revert out. induction order as [|[idx key'] order IH]; intros out; csimpl; [by intros _ ?%elem_of_nil|].
  intros [Hidx Hnd]%NoDup_cons [[= <- <-]|Hin]%elem_of_cons.
  - rewrite place_other by done. unfold place. simpl. apply list_lookup_alter_eq.
  - rewrite IH by done. unfold place. simpl. rewrite list_lookup_alter_ne; [done|]. intros <-. apply Hidx, list_elem_of_fmap.
    by exists (idx, key).
Qed.

(** The batch finds for every key what a lookup of the key alone finds. *)
Lemma current_batch_exact keys as_of_t c : Forall P keys → cache_ok c →
  ∃ c', current_batch keys as_of_t c = (inr ((λ key, live_out key as_of_t) <$> keys), c') ∧ cache_ok c'.
Proof.
  intros HP Hc. unfold current_batch. destruct keys as [|key0 keys0] eqn:Ek; [by exists c|]. rewrite <- Ek in *. clear key0 keys0 Ek.
  destruct (stored_arena target rows cids Hok Hfit Hstored) as (entries & Hb & Hst & _).
  destruct (load_branch_ok c _ Hc Hb) as (c1 & -> & Hc1).
  assert (probe_order keys ≡ₚ imap pair keys) as Hperm by apply sort_by_Permutation.
  assert ((imap pair keys).*1 = seq 0 (length keys)) as Hidx.
  { clear. rewrite fmap_imap. apply list_eq. intros i. rewrite list_lookup_imap. destruct (keys !! i) as [x|] eqn:E; simpl.
    - symmetry. apply lookup_seq. split; [done|]. by apply lookup_lt_Some in E.
    - symmetry. apply lookup_seq_ge. by apply lookup_ge_None in E. }
  assert (∀ i key, (i, key) ∈ probe_order keys ↔ keys !! i = Some key) as Helem.
  { intros i key. rewrite Hperm, elem_of_lookup_imap. split.
    - by intros (j & x & [= -> ->] & Hx).
    - intros Hx. by exists i, key. }
  destruct (batch_loop_exact as_of_t (probe_order keys) [] (leaf_rows target rows) entries (replicate (length keys) []) c1)
    as (c2 & E & Hc2).
  - apply Forall_forall. intros [i key] Hin%Helem. rewrite Forall_forall in HP. by eapply HP, list_elem_of_lookup_2.
  - assert (CmpOrder (λ probe : nat * K, P probe.2) (λ a b, kcmp D a.2 b.2)) as Hord by (by apply (cmp_on_order P); [apply _|]).
    apply (sort_by_sorted (λ probe : nat * K, P probe.2) (λ a b, kcmp D a.2 b.2)). apply Forall_forall. intros [i key] (j & x & [= -> ->] & Hx)%elem_of_lookup_imap. rewrite Forall_forall in HP.
      by eapply HP, list_elem_of_lookup_2.
  - cbn [app]. by rewrite (proj1 (leaf_rows_ok target rows)).
  - done.
  - done.
  - by intros r probe ?%elem_of_nil.
  - exists c2. split; [|done]. rewrite E. do 2 f_equal. cbn [app]. apply list_eq. intros i. rewrite list_lookup_fmap.
    destruct (keys !! i) as [key|] eqn:Ei; simpl.
    + rewrite (place_at as_of_t _ _ _ i key); [|by rewrite Hperm, Hidx; apply NoDup_seq|by apply Helem].
      rewrite lookup_replicate_2 by (by apply lookup_lt_Some in Ei). done.
    + apply lookup_ge_None in Ei. apply lookup_ge_None. by rewrite place_length, length_replicate.
Qed.
End reads.
End direction.
End arena.
