(* ===== verification/NoveltySegment.v ===== *)
(** * Segments of the novelty overlay
    ([fluree-db-novelty/src/lib.rs]: [FlakeId], [Segment])

    A segment owns a batch of flakes and four permutations of their indexes,
    one per index order.  A [u32] index is a [Z].  [flakes[i]] panics out of
    range; [flake_at] has no answer there, and [seg_ok] shows that the orders
    hold exactly the indexes in range. *)

From S2P Require Import Prelude Text CommitWire CommitOp Ordering FlakeOrder FlakeTheorems.
#[local] Open Scope Z_scope.

(** ** Packed ids *)

Definition LOCAL_BITS : Z := 24.
Definition SEG_BITS : Z := 24.
Definition LOCAL_MASK : Z := Z.shiftl 1 LOCAL_BITS - 1.
Definition SEG_MASK : Z := Z.shiftl 1 SEG_BITS - 1.

Definition flake_id_pack (g_id seg local : Z) : Z :=
  Z.lor (Z.lor (Z.shiftl g_id (SEG_BITS + LOCAL_BITS)) (Z.shiftl seg LOCAL_BITS)) local.
Definition id_graph (id : Z) : Z := Z.shiftr id (SEG_BITS + LOCAL_BITS).
Definition id_seg (id : Z) : Z := Z.land (Z.shiftr id LOCAL_BITS) SEG_MASK.
Definition id_local (id : Z) : Z := Z.land id LOCAL_MASK.

Definition MAX_SEGMENT_FLAKES : Z := LOCAL_MASK + 1.
Definition MAX_SEGMENTS : Z := SEG_MASK + 1.

(** Ids unpack to what was packed, within the widths of the fields. *)
Lemma flake_id_unpack g seg local :
  0 <= g → 0 <= seg < MAX_SEGMENTS → 0 <= local < MAX_SEGMENT_FLAKES →
  let id := flake_id_pack g seg local in
  id_graph id = g ∧ id_seg id = seg ∧ id_local id = local.
Proof.
  unfold MAX_SEGMENTS, MAX_SEGMENT_FLAKES, SEG_MASK, LOCAL_MASK, SEG_BITS, LOCAL_BITS.
  intros Hg Hs Hl. change (Z.shiftl 1 24 - 1 + 1) with (2 ^ 24) in *.
  assert (∀ x i, 0 <= x < 2 ^ 24 → 24 <= i → Z.testbit x i = false) as Hhigh.
  { intros x i Hx Hi. destruct (decide (x = 0)) as [->|]; [apply Z.bits_0|].
    apply Z.bits_above_log2; [lia|]. apply Z.log2_lt_pow2; [lia|].
    pose proof (Z.pow_le_mono_r 2 24 i). lia. }
  assert (∀ i, 0 <= i → Z.testbit (flake_id_pack g seg local) i =
    if i <? 24 then Z.testbit local i
    else if i <? 48 then Z.testbit seg (i - 24) else Z.testbit g (i - 48)) as Hbits.
  { intros i Hi. unfold flake_id_pack, SEG_BITS, LOCAL_BITS.
    rewrite !Z.lor_spec, !Z.shiftl_spec by lia. change (24 + 24) with 48.
    destruct (Z.ltb_spec i 24); [|destruct (Z.ltb_spec i 48)].
    - rewrite (Z.testbit_neg_r g), (Z.testbit_neg_r seg) by lia. done.
    - rewrite (Z.testbit_neg_r g), (Hhigh local) by lia. by rewrite orb_false_r.
    - rewrite (Hhigh seg), (Hhigh local) by lia. by rewrite !orb_false_r. }
  cbn zeta. unfold id_graph, id_seg, id_local, SEG_MASK, LOCAL_MASK, SEG_BITS, LOCAL_BITS.
  change (Z.shiftl 1 24 - 1) with (Z.ones 24). change (24 + 24) with 48.
  split; [|split]; apply Z.bits_inj'; intros i Hi.
  - rewrite Z.shiftr_spec, Hbits by lia.
    rewrite !(proj2 (Z.ltb_ge _ _)) by lia. f_equal; lia.
  - rewrite Z.land_spec, Z.testbit_ones_nonneg, Z.shiftr_spec, Hbits by lia.
    rewrite (proj2 (Z.ltb_ge (i + 24) 24)) by lia. destruct (Z.ltb_spec i 24).
    + rewrite (proj2 (Z.ltb_lt (i + 24) 48)) by lia. rewrite andb_true_r. f_equal; lia.
    + rewrite andb_false_r. symmetry. by apply Hhigh.
  - rewrite Z.land_spec, Z.testbit_ones_nonneg, Hbits by lia. destruct (Z.ltb_spec i 24).
    + by rewrite andb_true_r.
    + rewrite andb_false_r. symmetry. by apply Hhigh.
Qed.

(** ** Segments *)

Section segments.
Context `{VO : ValueOrd} `{SO : Sorting}.

Record Segment := mkSegment {
  seg_id : Z;
  seg_flakes : list Flake;
  seg_spot : list Z;
  seg_psot : list Z;
  seg_post : list Z;
  seg_opst : list Z;
  seg_min_t : Z;
  seg_max_t : Z;
  seg_size : Z;
}.

(** [flakes[i as usize]]. *)
Definition flake_at (flakes : list Flake) (i : Z) : option Flake := flakes !! Z.to_nat i.

Definition local_cmp (index : IndexType) (flakes : list Flake) (a b : Z) : comparison :=
  match flake_at flakes a, flake_at flakes b with
  | Some f, Some g => compare index f g
  | _, _ => Eq
  end.

Definition order_by (flakes : list Flake) (parallel : bool) (index : IndexType) : list Z :=
  sort_unstable_by parallel (local_cmp index flakes) (seqZ 0 (Z.of_nat (length flakes))).

(** The pass over the flakes for the bounds of [t] and the size. *)
Definition measure (flakes : list Flake) : Z * Z * Z :=
  foldl (λ '(min_t, max_t, size) f,
           (Z.min min_t (f_t f), Z.max max_t (f_t f), size + size_bytes f))
        (i64_max, i64_min, 0) flakes.

(** [Segment::build] with the id it draws. *)
Definition build (id : Z) (flakes : list Flake) (parallel : bool) : Segment :=
  let '(min_t, max_t, size) := measure flakes in
  mkSegment id flakes
    (order_by flakes parallel Spot) (order_by flakes parallel Psot)
    (order_by flakes parallel Post) (order_by flakes parallel Opst)
    min_t max_t size.

(** [Segment::after]: [remap] gives the new index of a survivor, [u32::MAX] of
    the others. *)
Fixpoint remap (cutoff_t next : Z) (flakes : list Flake) : list Z :=
  match flakes with
  | [] => []
  | f :: fs =>
      if cutoff_t <? f_t f then next :: remap cutoff_t (next + 1) fs
      else u32_max :: remap cutoff_t next fs
  end.

Definition survivors (cutoff_t : Z) (flakes : list Flake) : list Flake :=
  filter (λ f, cutoff_t < f_t f) flakes.

Definition filter_order (mapping order : list Z) : list Z :=
  omap (λ i, mapped ← mapping !! Z.to_nat i;
             if mapped =? u32_max then None else Some mapped) order.

Definition after (id : Z) (seg : Segment) (cutoff_t : Z) : option Segment :=
  let mapping := remap cutoff_t 0 (seg_flakes seg) in
  let flakes := survivors cutoff_t (seg_flakes seg) in
  let '(min_t, max_t, size) := measure flakes in
  match flakes with
  | [] => None
  | _ => Some (mkSegment id flakes
           (filter_order mapping (seg_spot seg)) (filter_order mapping (seg_psot seg))
           (filter_order mapping (seg_post seg)) (filter_order mapping (seg_opst seg))
           min_t max_t size)
  end.

Definition order (seg : Segment) (index : IndexType) : list Z :=
  match index with
  | Spot => seg_spot seg
  | Psot => seg_psot seg
  | Post => seg_post seg
  | Opst => seg_opst seg
  end.

(** [index.compare(&self.flakes[id], bound) != Greater]. *)
Definition at_most (seg : Segment) (index : IndexType) (bound : Flake) (id : Z) : bool :=
  match flake_at (seg_flakes seg) id with
  | Some f => is_le (compare index f bound)
  | None => false
  end.

(** [Segment::range]: the part of an order in [(first, rhs]]. *)
Definition range (seg : Segment) (index : IndexType) (first rhs : option Flake) (leftmost : bool)
  : list Z :=
  let ids := order seg index in
  let start :=
    if leftmost then 0%nat
    else match first with
         | Some f => partition_point (at_most seg index f) ids
         | None => 0%nat
         end in
  let stop :=
    match rhs with
    | Some r => partition_point (at_most seg index r) ids
    | None => length ids
    end in
  if (stop <=? start)%nat then [] else take (stop - start) (drop start ids).

(** [Segment::may_overlap]: the zone map. *)
Definition may_overlap (seg : Segment) (index : IndexType) (first rhs : option Flake)
    (leftmost : bool) : bool :=
  let ids := order seg index in
  match head ids, last ids with
  | Some lo, Some hi =>
      let above := match rhs with
                   | Some r => negb (at_most seg index r lo)
                   | None => false
                   end in
      let below := if leftmost then false
                   else match first with
                        | Some f => at_most seg index f hi
                        | None => false
                        end in
      negb above && negb below
  | _, _ => false
  end.
End segments.

(** * The invariant of a segment, and what its reads return *)

(** ** Lists in order *)

(** What lies between two cuts of a list. *)
Lemma between_cuts {A} (p q : A → bool) (l a1 a2 b1 b2 : list A) :
  l = a1 ++ a2 → Forall (λ x, p x = true) a1 → Forall (λ x, p x = false) a2 →
  l = b1 ++ b2 → Forall (λ x, q x = true) b1 → Forall (λ x, q x = false) b2 →
  (if (length b1 <=? length a1)%nat then [] else take (length b1 - length a1) (drop (length a1) l))
  = filter (λ x, p x = false ∧ q x = true) l.
Proof.
  intros Ha Hp1 Hp2 Hb Hq1 Hq2.
  assert (∀ m, Forall (λ x, p x = true) m → filter (λ x, p x = false ∧ q x = true) m = []) as Ep.
  { intros m Hm. apply list_filter_none. eapply Forall_impl; [exact Hm|]. naive_solver congruence. }
  assert (∀ m, Forall (λ x, q x = false) m → filter (λ x, p x = false ∧ q x = true) m = []) as Eq.
  { intros m Hm. apply list_filter_none. eapply Forall_impl; [exact Hm|]. naive_solver congruence. }
  subst l. apply app_eq_app in Hb as (r & [[-> ->]|[-> ->]]).
  - rewrite (proj2 (Nat.leb_le _ _)) by (rewrite length_app; lia).
    apply Forall_app in Hp1 as [Hp1 _]. apply Forall_app in Hq2 as [Hr Hq2].
    rewrite !filter_app, (Eq a2), app_nil_r by done.
    by rewrite (Ep b1), (Eq r).
  - rewrite drop_app_length, length_app.
    replace (length a1 + length r - length a1)%nat with (length r) by lia.
    rewrite take_app_length, !filter_app, (Ep a1), (Eq b2), app_nil_r by done. simpl.
    apply Forall_app in Hq1 as [_ Hq1], Hp2 as [Hp2 _]. rewrite list_filter_id by (by apply Forall_and).
    destruct (Nat.leb_spec (length a1 + length r) (length a1)); [|done].
    by assert (r = []) as -> by (apply nil_length_inv; lia).
Qed.

Section cuts.
Context {A : Type} (P : A → Prop) (cmp : A → A → comparison) `{!CmpOrder P cmp}.

(** An ordered list is cut by any bound. *)
Lemma sorted_cut (l : list A) b : P b → Forall P l → sorted_by cmp l →
  ∃ l1 l2, l = l1 ++ l2 ∧ Forall (λ x, is_le (cmp x b) = true) l1
           ∧ Forall (λ x, is_le (cmp x b) = false) l2.
Proof.
  intros Pb HP Hs. induction Hs as [|x l Hs IH Hx]; [by exists [], []|].
  apply Forall_cons in HP as [Px HP]. destruct (is_le (cmp x b)) eqn:E.
  - destruct IH as (l1 & l2 & -> & H1 & H2); [done|]. exists (x :: l1), l2. auto.
  - exists [], (x :: l). split; [done|]. split; [done|]. constructor; [done|].
    rewrite Forall_forall in HP, Hx |- *. intros y Hy.
    destruct (is_le (cmp y b)) eqn:E'; [|done]. rewrite <- E. symmetry.
    apply (cmp_trans x y b); [done|by apply HP|done|by apply Hx|done].
Qed.

Lemma sorted_last (l : list A) x y : sorted_by cmp l → last l = Some y → x ∈ l → is_le (cmp x y) = true.
Proof.
  induction 1 as [|z l Hs IH Hz]; [done|]. intros Hlast Hx.
  destruct l as [|w l]; [|apply elem_of_cons in Hx as [->|Hx]].
  - simplify_eq/=. apply list_elem_of_singleton in Hx as ->. by rewrite (cmp_refl (P:=P)).
  - rewrite Forall_forall in Hz. apply Hz. rewrite last_cons_cons in Hlast.
    by apply last_Some_elem_of in Hlast.
  - apply IH; [by rewrite last_cons_cons in Hlast|done].
Qed.
End cuts.

Lemma sorted_by_filter {A} (cmp : A → A → comparison) (Q : A → Prop) `{!∀ x, Decision (Q x)} l :
  sorted_by cmp l → sorted_by cmp (filter Q l).
Proof.
  unfold sorted_by. induction 1 as [|x l Hs IH Hx]; [constructor|].
  rewrite filter_cons. case_decide; [|done]. constructor; [done|].
  apply Forall_forall. intros y [_ Hy]%list_elem_of_filter. by rewrite Forall_forall in Hx; apply Hx.
Qed.

(** ** The invariant *)

Section segment_ok.
Context `{VO : ValueOrd} `{SO : Sorting}.
Implicit Types seg : Segment.

(** The flakes of a segment in an index order. *)
Definition seg_list seg (index : IndexType) : list Flake :=
  omap (flake_at (seg_flakes seg)) (order seg index).

Record seg_ok seg : Prop := {
  so_nonempty : seg_flakes seg ≠ [];
  so_width : Z.of_nat (length (seg_flakes seg)) <= MAX_SEGMENT_FLAKES;
  so_ordered : Forall flake_ordered (seg_flakes seg);
  so_perm : ∀ index, order seg index ≡ₚ seqZ 0 (Z.of_nat (length (seg_flakes seg)));
  so_sorted : ∀ index, sorted_by (compare index) (seg_list seg index);
  so_measure : (seg_min_t seg, seg_max_t seg, seg_size seg) = measure (seg_flakes seg);
}.

Lemma flake_at_seqZ (l : list Flake) : flake_at l <$> seqZ 0 (Z.of_nat (length l)) = Some <$> l.
Proof.
  apply list_eq. intros i. rewrite !list_lookup_fmap.
  destruct (decide (i < length l)%nat) as [Hi|Hi].
  - rewrite lookup_seqZ_lt by lia. simpl. unfold flake_at. rewrite Z.add_0_l, Nat2Z.id.
    destruct (lookup_lt_is_Some_2 _ _ Hi) as [x ->]. done.
  - rewrite lookup_seqZ_ge, (lookup_ge_None_2 l) by lia. done.
Qed.

Lemma omap_fmap_Some {A B} (f : A → option B) (l : list A) (k : list B) : f <$> l = Some <$> k → omap f l = k.
Proof.
  revert k. induction l as [|x l IH]; intros [|y k]; try done. intros [= E1 E2]. simpl.
  rewrite E1. f_equal. by apply IH.
Qed.

Lemma seg_list_perm seg index : seg_ok seg → seg_list seg index ≡ₚ seg_flakes seg.
Proof.
  intros Hs. unfold seg_list. rewrite (so_perm seg Hs).
  by rewrite (omap_fmap_Some _ _ _ (flake_at_seqZ (seg_flakes seg))).
Qed.

(** Every index of an order is in range. *)
Lemma order_in_range seg index : seg_ok seg →
  Forall2 (λ i f, flake_at (seg_flakes seg) i = Some f) (order seg index) (seg_list seg index).
Proof.
  intros Hs.
  assert (Forall (λ i, is_Some (flake_at (seg_flakes seg) i)) (order seg index)) as Hall.
  { rewrite (so_perm seg Hs). apply Forall_forall. intros i Hi%elem_of_seqZ.
    apply lookup_lt_is_Some_2. lia. }
  unfold seg_list. induction Hall as [|i ids [f Hf] Hall IH]; simpl; [constructor|].
  rewrite Hf. by constructor.
Qed.

Lemma seg_list_ordered seg index : seg_ok seg → Forall flake_ordered (seg_list seg index).
Proof. intros Hs. rewrite seg_list_perm by done. apply Hs. Qed.

(** ** Building *)

Definition local_ordered (flakes : list Flake) (i : Z) : Prop :=
  ∃ f, flake_at flakes i = Some f ∧ flake_ordered f.

#[local] Instance local_cmp_order index flakes :
  CmpOrder (local_ordered flakes) (local_cmp index flakes).
Proof.
  constructor.
  - intros x y. unfold local_cmp.
    destruct (flake_at flakes x), (flake_at flakes y); try done. apply (@cmp_flip _ _ _ (compare_order index)).
  - intros x y z (f & Hf & Of) (g & Hg & Og) (h & Hh & Oh). unfold local_cmp. rewrite Hf, Hg, Hh.
    by apply (@cmp_trans _ _ _ (compare_order index)).
Qed.

Lemma sorted_by_flakes index flakes ids :
  Forall (λ i, is_Some (flake_at flakes i)) ids →
  sorted_by (local_cmp index flakes) ids → sorted_by (compare index) (omap (flake_at flakes) ids).
Proof.
  intros Hr. unfold sorted_by. induction 1 as [|i ids Hs IH Hi]; [constructor|].
  apply Forall_cons in Hr as [[f Hf] Hr]. simpl. rewrite Hf. constructor; [by apply IH|].
  apply Forall_forall. intros g (j & Hj & Hg)%list_elem_of_omap. rewrite Forall_forall in Hi.
  specialize (Hi j Hj). unfold cmp_le, local_cmp in *. by rewrite Hf, Hg in Hi.
Qed.

Lemma order_build id flakes parallel index :
  order (build id flakes parallel) index = order_by flakes parallel index.
Proof. unfold build. destruct (measure flakes) as [[??]?]. by destruct index. Qed.

Lemma build_flakes id flakes parallel : seg_flakes (build id flakes parallel) = flakes.
Proof. unfold build. by destruct (measure flakes) as [[??]?]. Qed.

Lemma build_ok id flakes parallel :
  flakes ≠ [] → Z.of_nat (length flakes) <= MAX_SEGMENT_FLAKES → Forall flake_ordered flakes →
  seg_ok (build id flakes parallel).
Proof.
  intros Hne Hw Ho.
  assert (Forall (local_ordered flakes) (seqZ 0 (Z.of_nat (length flakes)))) as Hl.
  { apply Forall_forall. intros i Hi%elem_of_seqZ.
    destruct (lookup_lt_is_Some_2 flakes (Z.to_nat i)) as [f Hf]; [lia|]. exists f.
    split; [done|]. by eapply Forall_lookup_1 in Ho. }
  assert (∀ index, order_by flakes parallel index ≡ₚ seqZ 0 (Z.of_nat (length flakes))) as Hp.
  { intros index. apply sort_perm. }
  constructor; rewrite ?build_flakes; try done.
  - intros index. rewrite order_build. apply Hp.
  - intros index. unfold seg_list. rewrite order_build, build_flakes. apply sorted_by_flakes.
    + rewrite Hp. eapply Forall_impl; [exact Hl|]. intros i (f & Hf & _). by exists f.
    + by apply (sort_sorted _ (local_ordered flakes)); [apply _|].
  - unfold build. by destruct (measure flakes) as [[??]?].
Qed.

(** ** Trimming *)

Definition unmapped (mapped : Z) : option Z := if mapped =? u32_max then None else Some mapped.

Lemma remap_seqZ cutoff next flakes :
  0 <= next → next + Z.of_nat (length flakes) <= u32_max →
  omap unmapped (remap cutoff next flakes)
  = seqZ next (Z.of_nat (length (survivors cutoff flakes))).
Proof.
  revert next. induction flakes as [|f flakes IH]; intros next Hn Hl; [done|].
  cbn [remap length] in *. unfold survivors. rewrite filter_cons.
  destruct (Z.ltb_spec cutoff (f_t f)).
  - rewrite decide_True by done. simpl. unfold unmapped at 1.
    rewrite (proj2 (Z.eqb_neq _ _)) by lia. rewrite IH by lia.
    rewrite (seqZ_cons next) by lia. f_equal. unfold survivors. f_equal; lia.
  - rewrite decide_False by lia. simpl. by rewrite IH by lia.
Qed.

(** A survivor is found under its new index, and nothing else is. *)
Lemma remap_lookup cutoff next flakes i :
  0 <= next → next + Z.of_nat (length flakes) <= u32_max →
  ((remap cutoff next flakes !! i ≫= unmapped) ≫= λ m, survivors cutoff flakes !! Z.to_nat (m - next))
  = (flakes !! i ≫= λ f, if decide (cutoff < f_t f) then Some f else None).
Proof.
  revert next i. induction flakes as [|f flakes IH]; intros next i Hn Hl; [done|].
  cbn [remap length] in *. unfold survivors in *. rewrite filter_cons.
  destruct (Z.ltb_spec cutoff (f_t f)) as [Hlt|Hge].
  - rewrite decide_True by done. destruct i as [|i]; simpl.
    + rewrite decide_True by done. unfold unmapped. rewrite (proj2 (Z.eqb_neq _ _)) by lia.
      simpl. by rewrite Z.sub_diag.
    + rewrite <- (IH (next + 1) i) by lia. destruct (_ !! i) as [m|] eqn:Em; simpl; [|done].
      unfold unmapped. destruct (Z.eqb_spec m u32_max); simpl; [done|].
      assert (next + 1 <= m) as Hm.
      { assert (m ∈ omap unmapped (remap cutoff (next + 1) flakes)) as Hin.
        { apply list_elem_of_omap. exists m. split; [by eapply list_elem_of_lookup_2|].
          unfold unmapped. by rewrite (proj2 (Z.eqb_neq _ _)). }
        rewrite remap_seqZ in Hin by lia. by apply elem_of_seqZ in Hin as [? _]. }
      replace (Z.to_nat (m - next)) with (S (Z.to_nat (m - (next + 1)))) by lia. done.
  - rewrite decide_False by lia. destruct i as [|i]; simpl.
    + by rewrite decide_False by lia.
    + apply (IH next i); lia.
Qed.

Lemma omap_bind {A B C} (f : A → option B) (g : B → option C) (l : list A) :
  omap g (omap f l) = omap (λ x, f x ≫= g) l.
Proof.
  induction l as [|x l IH]; [done|]. csimpl. destruct (f x) as [y|]; csimpl; [|done].
  destruct (g y); by rewrite IH.
Qed.

Lemma filter_omap {A B} (P : B → Prop) `{!∀ x, Decision (P x)} (f : A → option B) (l : list A) :
  filter P (omap f l) = omap (λ x, f x ≫= λ y, if decide (P y) then Some y else None) l.
Proof.
  induction l as [|x l IH]; [done|]. csimpl. destruct (f x) as [y|]; csimpl; [|done].
  rewrite filter_cons. case_decide; by rewrite IH.
Qed.

Lemma omap_ext_eq {A B} (f g : A → option B) (l : list A) :
  (∀ x, f x = g x) → omap f l = omap g l.
Proof. intros Hfg. induction l as [|x l IH]; [done|]. csimpl. by rewrite Hfg, IH. Qed.

Lemma MAX_SEGMENT_FLAKES_u32 : MAX_SEGMENT_FLAKES < u32_max.
Proof. done. Qed.

Lemma survivors_length cutoff flakes : (length (survivors cutoff flakes) <= length flakes)%nat.
Proof. apply length_filter. Qed.

Lemma survivors_ordered cutoff flakes :
  Forall flake_ordered flakes → Forall flake_ordered (survivors cutoff flakes).
Proof. rewrite !Forall_forall. intros Ho f [_ Hf]%list_elem_of_filter. auto. Qed.

(** [after] keeps the flakes above the cutoff, in the orders they had. *)
Lemma after_spec id seg cutoff : seg_ok seg →
  match after id seg cutoff with
  | Some seg' => seg_ok seg' ∧ seg_flakes seg' = survivors cutoff (seg_flakes seg)
  | None => survivors cutoff (seg_flakes seg) = []
  end.
Proof.
  intros Hs. pose proof (so_width seg Hs) as Hw. pose proof MAX_SEGMENT_FLAKES_u32.
  pose proof (survivors_length cutoff (seg_flakes seg)) as Hlen.
  set (mapping := remap cutoff 0 (seg_flakes seg)).
  assert (∀ index, filter_order mapping (order seg index)
    ≡ₚ seqZ 0 (Z.of_nat (length (survivors cutoff (seg_flakes seg))))) as Hperm.
  { intros index. unfold filter_order. rewrite (so_perm seg Hs).
    rewrite <- (remap_seqZ cutoff 0) by lia. fold mapping.
    assert (length mapping = length (seg_flakes seg)) as <-.
    { unfold mapping. clear. generalize 0. induction (seg_flakes seg); intros; simpl; [done|].
      case_match; simpl; by rewrite IHl. }
    rewrite (omap_ext_eq _ (λ i, mapping !! Z.to_nat i ≫= unmapped)) by done.
    rewrite <- (omap_bind (λ i, mapping !! Z.to_nat i) unmapped). f_equiv.
    apply reflexive_eq, omap_fmap_Some, list_eq. intros i. rewrite !list_lookup_fmap.
    destruct (decide (i < length mapping)%nat) as [Hi|Hi].
    - rewrite lookup_seqZ_lt by lia. simpl. rewrite Z.add_0_l, Nat2Z.id.
      by destruct (lookup_lt_is_Some_2 _ _ Hi) as [x ->].
    - by rewrite lookup_seqZ_ge, (lookup_ge_None_2 mapping) by lia. }
  assert (∀ index, omap (flake_at (survivors cutoff (seg_flakes seg))) (filter_order mapping (order seg index))
    = filter (λ f, cutoff < f_t f) (seg_list seg index)) as Hlist.
  { intros index. unfold filter_order, seg_list. rewrite omap_bind, filter_omap. apply omap_ext_eq.
    intros i. unfold flake_at. rewrite <- (remap_lookup cutoff 0) by lia. fold mapping.
    destruct (mapping !! Z.to_nat i) as [m|]; simpl; [|done]. unfold unmapped.
    destruct (m =? u32_max); simpl; [done|]. by rewrite Z.sub_0_r. }
  unfold after. fold mapping. destruct (measure _) as [[min_t max_t] size] eqn:Em.
  destruct (survivors cutoff (seg_flakes seg)) as [|f fs] eqn:Es; [done|].
  split; [|done]. constructor; cbn [seg_flakes]; try done.
  - lia.
  - rewrite <- Es. apply survivors_ordered, (so_ordered seg Hs).
  - intros index. destruct index; apply (Hperm Spot) || apply (Hperm Psot) || apply (Hperm Post) || apply (Hperm Opst).
  - intros index. pose proof (sorted_by_filter _ (λ f, cutoff < f_t f) _ (so_sorted seg Hs index)) as Hsort.
    rewrite <- Hlist in Hsort. by destruct index.
Qed.

(** ** Range reads *)

(** The flakes of [(first, rhs]], left-unbounded if [leftmost]. *)
Definition in_range (index : IndexType) (first rhs : option Flake) (leftmost : bool) (f : Flake) : bool :=
  (if leftmost then true
   else match first with Some b => negb (is_le (compare index f b)) | None => true end)
  && match rhs with Some b => is_le (compare index f b) | None => true end.

Definition id_in_range seg (index : IndexType) (first rhs : option Flake) (leftmost : bool) (i : Z) : bool :=
  match flake_at (seg_flakes seg) i with
  | Some f => in_range index first rhs leftmost f
  | None => false
  end.

Definition bound_ok (b : option Flake) : Prop := ∀ f, b = Some f → flake_ordered f.

Lemma at_most_at seg index b i f :
  flake_at (seg_flakes seg) i = Some f → at_most seg index b i = is_le (compare index f b).
Proof. intros Hf. unfold at_most. by rewrite Hf. Qed.

(** A bound cuts the ids of an order where [partition_point] says. *)
Lemma order_cut seg index b : seg_ok seg → flake_ordered b →
  ∃ ids1 ids2, order seg index = ids1 ++ ids2
    ∧ Forall (λ i, at_most seg index b i = true) ids1
    ∧ Forall (λ i, at_most seg index b i = false) ids2
    ∧ partition_point (at_most seg index b) (order seg index) = length ids1.
Proof.
  intros Hs Hb.
  destruct (sorted_cut flake_ordered (compare index) (seg_list seg index) b)
    as (l1 & l2 & El & H1 & H2); [done|by apply seg_list_ordered|apply Hs|].
  pose proof (order_in_range seg index Hs) as Hr. rewrite El in Hr.
  apply Forall2_app_inv_r in Hr as (ids1 & ids2 & Hr1 & Hr2 & Eids).
  assert (Forall (λ i, at_most seg index b i = true) ids1) as Ha1.
  { clear -Hr1 H1. induction Hr1 as [|i f ids fs Hi _ IH]; [constructor|].
    apply Forall_cons in H1 as [Hf H1]. constructor; [by rewrite (at_most_at _ _ _ _ _ Hi)|by apply IH]. }
  assert (Forall (λ i, at_most seg index b i = false) ids2) as Ha2.
  { clear -Hr2 H2. induction Hr2 as [|i f ids fs Hi _ IH]; [constructor|].
    apply Forall_cons in H2 as [Hf H2]. constructor; [by rewrite (at_most_at _ _ _ _ _ Hi)|by apply IH]. }
  exists ids1, ids2. split_and!; [done..|]. by apply (partition_point_spec _ _ ids1 ids2).
Qed.

(** A range read returns the ids of the order whose flakes are in the range. *)
Lemma range_ids seg index first rhs leftmost :
  seg_ok seg → bound_ok first → bound_ok rhs →
  range seg index first rhs leftmost
  = filter (λ i, id_in_range seg index first rhs leftmost i = true) (order seg index).
Proof.
  intros Hs Hfirst Hrhs. unfold range. set (ids := order seg index).
  assert (∃ p a1 a2, ids = a1 ++ a2 ∧ Forall (λ i, p i = true) a1 ∧ Forall (λ i, p i = false) a2
    ∧ (if leftmost then 0%nat
       else match first with Some f => partition_point (at_most seg index f) ids | None => 0%nat end) = length a1
    ∧ ∀ i f, flake_at (seg_flakes seg) i = Some f →
        p i = negb (if leftmost then true
              else match first with Some b => negb (is_le (compare index f b)) | None => true end))
    as (p & a1 & a2 & Ea & Hp1 & Hp2 & -> & Hp).
  { destruct leftmost;
      [exists (λ _, false), [], ids; split_and!; [done|done|by apply Forall_forall|done|done]|].
    destruct first as [b|];
      [|exists (λ _, false), [], ids; split_and!; [done|done|by apply Forall_forall|done|done]].
    destruct (order_cut seg index b Hs (Hfirst _ eq_refl)) as (i1 & i2 & E & H1 & H2 & Hlen).
    exists (at_most seg index b), i1, i2. split_and!; [done..|]. intros i f Hf.
    by rewrite (at_most_at _ _ _ _ _ Hf), negb_involutive. }
  assert (∃ q b1 b2, ids = b1 ++ b2 ∧ Forall (λ i, q i = true) b1 ∧ Forall (λ i, q i = false) b2
    ∧ match rhs with Some r => partition_point (at_most seg index r) ids | None => length ids end = length b1
    ∧ ∀ i f, flake_at (seg_flakes seg) i = Some f →
        q i = match rhs with Some b => is_le (compare index f b) | None => true end)
    as (q & b1 & b2 & Eb & Hq1 & Hq2 & -> & Hq).
  { destruct rhs as [b|]; 
      [|exists (λ _, true), ids, []; split_and!; [by rewrite app_nil_r|by apply Forall_forall|done|done|done]].
    destruct (order_cut seg index b Hs (Hrhs _ eq_refl)) as (i1 & i2 & E & H1 & H2 & Hlen).
    exists (at_most seg index b), i1, i2. split_and!; [done..|]. intros i f Hf.
    by rewrite (at_most_at _ _ _ _ _ Hf). }
  rewrite (between_cuts p q ids a1 a2 b1 b2) by done.
  pose proof (order_in_range seg index Hs) as Hr. fold ids in Hr. clear -Hr Hp Hq.
  induction Hr as [|i f ids fs Hi _ IH]; [done|]. rewrite !filter_cons, IH.
  assert (p i = false ∧ q i = true ↔ in_range index first rhs leftmost f = true) as Hpq.
  { unfold in_range. rewrite (Hp _ _ Hi), (Hq _ _ Hi), andb_true_iff, negb_false_iff. done. }
  destruct (decide (p i = false ∧ q i = true)) as [Hin|Hout].
  - rewrite decide_True; [done|]. unfold id_in_range. rewrite Hi. by apply Hpq.
  - rewrite decide_False; [done|]. unfold id_in_range. rewrite Hi. by rewrite <- Hpq.
Qed.

Lemma range_flakes_spec seg index first rhs leftmost :
  seg_ok seg → bound_ok first → bound_ok rhs →
  omap (flake_at (seg_flakes seg)) (range seg index first rhs leftmost)
  = filter (λ f, in_range index first rhs leftmost f = true) (seg_list seg index).
Proof.
  intros Hs Hfirst Hrhs. rewrite range_ids by done.
  pose proof (order_in_range seg index Hs) as Hr. unfold seg_list in *.
  induction Hr as [|i f ids fs Hi _ IH]; [done|]. rewrite filter_cons.
  case_decide as Hin; unfold id_in_range in Hin; rewrite Hi in Hin.
  - csimpl. rewrite Hi, filter_cons_True by done. by f_equal.
  - by rewrite filter_cons_False.
Qed.

(** What the zone map prunes holds nothing of the range. *)
Lemma may_overlap_sound seg index first rhs leftmost :
  seg_ok seg → bound_ok first → bound_ok rhs →
  may_overlap seg index first rhs leftmost = false →
  filter (λ f, in_range index first rhs leftmost f = true) (seg_list seg index) = [].
Proof.
  intros Hs Hfirst Hrhs Hover. apply list_filter_none, Forall_forall. intros f Hf Hin.
  pose proof (so_sorted seg Hs index) as Hsort. pose proof (seg_list_ordered seg index Hs) as Hord.
  pose proof (order_in_range seg index Hs) as Hr. unfold may_overlap in Hover.
  assert (flake_ordered f) as Of by (rewrite Forall_forall in Hord; by apply Hord).
  unfold in_range in Hin. apply andb_true_iff in Hin as [Hin1 Hin2].
  assert (∃ lo hi flo fhi, head (order seg index) = Some lo ∧ last (order seg index) = Some hi
    ∧ flake_at (seg_flakes seg) lo = Some flo ∧ flake_at (seg_flakes seg) hi = Some fhi
    ∧ head (seg_list seg index) = Some flo ∧ last (seg_list seg index) = Some fhi)
    as (lo & hi & flo & fhi & Elo & Ehi & Flo & Fhi & Hlo & Hhi).
  { clear -Hr Hf. destruct Hr as [|lo flo ids fs Hi Hr]; [by apply not_elem_of_nil in Hf|].
    assert (∃ hi fhi, last (lo :: ids) = Some hi ∧ flake_at (seg_flakes seg) hi = Some fhi
      ∧ last (flo :: fs) = Some fhi) as (hi & fhi & ? & ? & ?).
    { clear Hf. revert lo flo Hi. induction Hr as [|i g ids fs Hg _ IH]; intros lo flo Hi;
        [by exists lo, flo|]. rewrite !last_cons_cons. by apply IH. }
    by exists lo, hi, flo, fhi. }
  rewrite Elo, Ehi in Hover. apply andb_false_iff in Hover as [Hover|Hover]; apply negb_false_iff in Hover.
  - destruct rhs as [r|]; [|done]. rewrite (at_most_at _ _ _ _ _ Flo) in Hover.
    apply negb_true_iff in Hover. destruct (seg_list seg index) as [|g l] eqn:El; [done|].
    simplify_eq/=. assert (is_le (compare index flo r) = true); [|congruence].
    apply elem_of_cons in Hf as [->|Hf]; [done|].
    assert (is_le (compare index flo f) = true) as Hle.
    { inversion Hsort as [|?? _ Hall]; subst. rewrite Forall_forall in Hall. by apply Hall. }
    apply Forall_cons in Hord as [Og _].
    by apply (@cmp_trans _ _ _ (compare_order index) flo f r); auto.
  - destruct leftmost; [done|]. destruct first as [b|]; [|done].
    rewrite (at_most_at _ _ _ _ _ Fhi) in Hover. apply negb_true_iff in Hin1.
    pose proof (sorted_last _ _ _ f _ Hsort Hhi Hf) as Hle.
    assert (flake_ordered fhi) as Oh.
    { rewrite Forall_forall in Hord. apply Hord. by apply last_Some_elem_of in Hhi. }
    assert (is_le (compare index f b) = true); [|congruence].
    apply (@cmp_trans _ _ _ (compare_order index) f fhi b); auto.
Qed.
End segment_ok.
