(* ===== verification/NoveltyMerge.v ===== *)
(** * The k-way merge of segments
    ([fluree-db-novelty/src/lib.rs]: [MergeStream], [MergeHead], [GraphMergeIter])

    A stream is the part of a segment's order it has not yielded,
    [order[pos..]].  The [BinaryHeap] of front flakes is the list of its
    elements; [pop] takes the greatest, which [MergeHead]'s reversed order
    makes the smallest flake, of the oldest segment on a tie. *)

From S2P Require Import Prelude Text CommitWire CommitOp Ordering FlakeOrder FlakeTheorems.
From S2P Require Import NoveltySegment.
#[local] Open Scope Z_scope.

Section merge.
Context `{VO : ValueOrd}.

Record MergeStream := mkStream {
  st_seg_idx : Z;
  st_order : list Z;
  st_flakes : list Flake;
}.

Record MergeHead := mkHead {
  h_flake : Flake;
  h_stream : nat;
  h_seg_idx : Z;
}.

(** [MergeHead::cmp]. *)
Definition head_cmp (index : IndexType) (a b : MergeHead) : comparison :=
  CompOpp (compare index (h_flake a) (h_flake b) >>then Z.compare (h_seg_idx a) (h_seg_idx b)).

(** [BinaryHeap::pop]. *)
Fixpoint heap_pop (index : IndexType) (heap : list MergeHead) : option (MergeHead * list MergeHead) :=
  match heap with
  | [] => None
  | h :: heap =>
      match heap_pop index heap with
      | None => Some (h, [])
      | Some (best, rest) =>
          match head_cmp index h best with
          | Lt => Some (best, h :: rest)
          | _ => Some (h, best :: rest)
          end
      end
  end.

Record GraphMergeIter := mkIter {
  it_g_id : Z;
  it_index : IndexType;
  it_streams : list MergeStream;
  it_heap : list MergeHead;
}.

(** The front of stream [i]. *)
Definition front (i : nat) (stream : MergeStream) : option MergeHead :=
  match st_order stream with
  | [] => None
  | local :: _ => f ← flake_at (st_flakes stream) local; Some (mkHead f i (st_seg_idx stream))
  end.

(** [GraphMergeIter::next]. *)
Definition merge_next (it : GraphMergeIter) : option ((Z * Flake) * GraphMergeIter) :=
  '(head, rest) ← heap_pop (it_index it) (it_heap it);
  let s := h_stream head in
  stream ← it_streams it !! s;
  match st_order stream with
  | [] => None
  | local :: later =>
      let stream' := mkStream (st_seg_idx stream) later (st_flakes stream) in
      let id := flake_id_pack (it_g_id it) (st_seg_idx stream) local in
      let heap := match front s stream' with Some h => h :: rest | None => rest end in
      Some ((id, h_flake head),
            mkIter (it_g_id it) (it_index it) (<[s := stream']> (it_streams it)) heap)
  end.

(** Running the iterator to its end; [fuel] bounds the number of items. *)
Fixpoint merge_collect (fuel : nat) (it : GraphMergeIter) : list (Z * Flake) :=
  match fuel with
  | O => []
  | S fuel =>
      match merge_next it with
      | Some (item, it) => item :: merge_collect fuel it
      | None => []
      end
  end.

(** The items that are left in the streams. *)
Definition remaining (it : GraphMergeIter) : nat :=
  sum_list_with (length ∘ st_order) (it_streams it).
Definition merge_all (it : GraphMergeIter) : list (Z * Flake) := merge_collect (remaining it) it.

(** A merge starts with the front of every stream in the heap. *)
Definition fronts (streams : list MergeStream) : list MergeHead := omap id (imap front streams).
Definition merge_start (g_id : Z) (index : IndexType) (streams : list MergeStream) : GraphMergeIter :=
  mkIter g_id index streams (fronts streams).

(** ** Correctness *)

Definition item_of (g : Z) (stream : MergeStream) (local : Z) : option (Z * Flake) :=
  f ← flake_at (st_flakes stream) local; Some (flake_id_pack g (st_seg_idx stream) local, f).
Definition items (g : Z) (stream : MergeStream) : list (Z * Flake) :=
  omap (item_of g stream) (st_order stream).
Definition stream_flakes (stream : MergeStream) : list Flake :=
  omap (flake_at (st_flakes stream)) (st_order stream).
Definition pending (it : GraphMergeIter) : list (Z * Flake) :=
  concat (items (it_g_id it) <$> it_streams it).

Definition stream_ok (index : IndexType) (stream : MergeStream) : Prop :=
  Forall (λ i, ∃ f, flake_at (st_flakes stream) i = Some f ∧ flake_ordered f) (st_order stream)
  ∧ sorted_by (compare index) (stream_flakes stream).

Definition iter_ok (it : GraphMergeIter) : Prop :=
  Forall (stream_ok (it_index it)) (it_streams it) ∧ it_heap it ≡ₚ fronts (it_streams it).

Definition head_before (index : IndexType) (a b : MergeHead) : comparison :=
  compare index (h_flake a) (h_flake b) >>then Z.compare (h_seg_idx a) (h_seg_idx b).

#[local] Instance head_before_order index :
  CmpOrder (λ h, flake_ordered (h_flake h)) (head_before index).
Proof.
  apply cmp_then_order.
  - by apply (cmp_on_order flake_ordered _ h_flake (compare index)); [apply _|].
  - by apply (cmp_on_order (λ _, True) _ h_seg_idx Z.compare); [apply _|].
Qed.

Lemma head_before_flakes index a b :
  is_le (head_before index a b) = true → is_le (compare index (h_flake a) (h_flake b)) = true.
Proof. unfold head_before. by destruct (compare _ _ _). Qed.

Lemma heap_pop_spec index heap : Forall (λ h, flake_ordered (h_flake h)) heap →
  match heap_pop index heap with
  | None => heap = []
  | Some (best, rest) =>
      heap ≡ₚ best :: rest ∧ Forall (λ h, is_le (head_before index best h) = true) rest
  end.
Proof.
  induction 1 as [|h heap Oh Hheap IH]; [done|]. simpl.
  destruct (heap_pop index heap) as [[best rest]|]; [|by subst]. destruct IH as [Hp Hbest].
  assert (Forall (λ h, flake_ordered (h_flake h)) (best :: rest)) as Hord by (by rewrite <- Hp).
  apply Forall_cons in Hord as [Ob Hord]. unfold head_cmp. fold (head_before index h best).
  destruct (head_before index h best) eqn:E; simpl.
  1,2: split; [by rewrite Hp|]; constructor; [by rewrite E|];
    rewrite Forall_forall in Hbest, Hord |- *; intros x Hx;
    eapply (@cmp_trans _ _ _ (head_before_order index) h best x); [done|done|by apply Hord|by rewrite E|by apply Hbest].
  split; [rewrite Hp; apply perm_swap|]. constructor; [|done].
  by rewrite (@cmp_flip _ _ _ (head_before_order index) h best), E.
Qed.

(** Replacing one stream changes one front and one block of pending items. *)
Definition list_of {A} (o : option A) : list A := match o with Some x => [x] | None => [] end.

Lemma fronts_split streams s stream : streams !! s = Some stream →
  ∃ others, ∀ stream', fronts (<[s := stream']> streams) ≡ₚ list_of (front s stream') ++ others.
Proof.
  intros Hs. apply list_elem_of_split_length in Hs as (l1 & l2 & -> & ->).
  exists (omap id (imap front l1) ++ omap id (imap (front ∘ (Nat.add (S (length l1)))) l2)). intros stream'.
  rewrite insert_app_r_alt, Nat.sub_diag by lia. simpl. unfold fronts.
  rewrite imap_app, omap_app. csimpl. rewrite Nat.add_0_r.
  rewrite (imap_ext _ (front ∘ (Nat.add (S (length l1)))) l2) by (intros; simpl; f_equal; lia).
  destruct (front (length l1) stream') as [h|]; csimpl; [|done]. by rewrite Permutation_middle.
Qed.

Lemma pending_split g streams s stream : streams !! s = Some stream →
  ∃ others, ∀ stream', concat (items g <$> <[s := stream']> streams) ≡ₚ items g stream' ++ others.
Proof.
  intros Hs. apply list_elem_of_split_length in Hs as (l1 & l2 & -> & ->).
  exists (concat (items g <$> l1) ++ concat (items g <$> l2)). intros stream'.
  rewrite insert_app_r_alt, Nat.sub_diag by lia. simpl. rewrite fmap_app, concat_app. csimpl.
  rewrite !app_assoc. f_equiv. apply Permutation_app_comm.
Qed.

Lemma remaining_split streams s stream : streams !! s = Some stream →
  ∃ n, ∀ stream', sum_list_with (length ∘ st_order) (<[s := stream']> streams)
    = (length (st_order stream') + n)%nat.
Proof.
  intros Hs. apply list_elem_of_split_length in Hs as (l1 & l2 & -> & ->).
  exists (sum_list_with (length ∘ st_order) l1 + sum_list_with (length ∘ st_order) l2)%nat. intros stream'.
  rewrite insert_app_r_alt, Nat.sub_diag, sum_list_with_app by lia. simpl. lia.
Qed.

Lemma elem_of_fronts streams h :
  h ∈ fronts streams ↔ ∃ s stream, streams !! s = Some stream ∧ front s stream = Some h.
Proof.
  unfold fronts. rewrite list_elem_of_omap. split.
  - intros (o & (s & Hs)%list_elem_of_lookup & Ho). rewrite list_lookup_imap in Hs.
    destruct (streams !! s) as [stream|] eqn:E; simpl in Hs; [|done]. injection Hs as <-.
    by exists s, stream.
  - intros (s & stream & Hs & Hf). exists (Some h). split; [|done]. apply list_elem_of_lookup.
    exists s. rewrite list_lookup_imap, Hs. simpl. by rewrite Hf.
Qed.

Lemma front_Some s stream h : front s stream = Some h →
  h_stream h = s ∧ ∃ local later, st_order stream = local :: later
    ∧ flake_at (st_flakes stream) local = Some (h_flake h).
Proof.
  unfold front. destruct (st_order stream) as [|local later]; [done|].
  destruct (flake_at _ local) as [f|] eqn:E; simpl; [|done]. intros [= <-]. simpl. eauto.
Qed.

Lemma front_ordered index s stream h : stream_ok index stream → front s stream = Some h →
  flake_ordered (h_flake h).
Proof.
  intros [Hr _] (_ & local & later & Ho & Hf)%front_Some. rewrite Ho in Hr.
  apply Forall_cons in Hr as [(f & Hf' & Of) _]. by simplify_eq.
Qed.

(** A stream with items has a front, below every item. *)
Lemma items_front index g s stream x : stream_ok index stream → x ∈ items g stream →
  ∃ h, front s stream = Some h ∧ is_le (compare index (h_flake h) x.2) = true.
Proof.
  intros [Hr Hs] Hx. unfold items in Hx. unfold front, stream_flakes in *.
  destruct (st_order stream) as [|local later]; [by apply elem_of_nil in Hx|].
  apply Forall_cons in Hr as [(f & Hf & Of) Hr]. csimpl in *. rewrite Hf in *. csimpl in *.
  exists (mkHead f s (st_seg_idx stream)). split; [done|]. simpl.
  unfold item_of at 1 in Hx. rewrite Hf in Hx. simpl in Hx.
  apply elem_of_cons in Hx as [->|Hx]; [simpl; by rewrite (@cmp_refl _ _ _ (compare_order index))|].
  inversion Hs as [|?? _ Hall]; subst. rewrite Forall_forall in Hall. apply Hall.
  apply list_elem_of_omap in Hx as (i & Hi & Hx). unfold item_of in Hx.
  destruct (flake_at _ i) as [f'|] eqn:Ef; simplify_eq/=. apply list_elem_of_omap. eauto.
Qed.

Lemma stream_ok_tail index seg local later flakes :
  stream_ok index (mkStream seg (local :: later) flakes) → stream_ok index (mkStream seg later flakes).
Proof.
  intros [Hr Hs]. simpl in Hr. apply Forall_cons in Hr as [(f & Hf & _) Hr]. split; [done|].
  unfold stream_flakes in *. csimpl in *. rewrite Hf in Hs. by inversion Hs.
Qed.

Lemma merge_next_spec it : iter_ok it →
  match merge_next it with
  | None => pending it = [] ∧ remaining it = 0%nat
  | Some (item, it') =>
      iter_ok it' ∧ pending it ≡ₚ item :: pending it' ∧ remaining it = S (remaining it')
      ∧ Forall (λ x, is_le (compare (it_index it) item.2 x.2) = true) (pending it')
      ∧ it_index it' = it_index it
  end.
Proof.
  destruct it as [g index streams heap]. intros [Hst Hheap]; simpl in *.
  assert (Forall (λ h, flake_ordered (h_flake h)) heap) as Hord.
  { rewrite Hheap. apply Forall_forall. intros h (s & stream & Hs & Hf)%elem_of_fronts.
    eapply front_ordered; [|done]. by eapply Forall_lookup_1 in Hst. }
  unfold merge_next; simpl. pose proof (heap_pop_spec index heap Hord) as Hpop.
  destruct (heap_pop index heap) as [[h rest]|]; simpl.
  - destruct Hpop as [Hp Hbest].
    assert (h ∈ fronts streams) as Hh by (rewrite <- Hheap, Hp; by left).
    apply elem_of_fronts in Hh as (s & stream & Hs & Hf).
    pose proof (front_Some _ _ _ Hf) as (<- & local & later & Ho & Hfl). rewrite Hs. simpl. rewrite Ho.
    assert (stream = mkStream (st_seg_idx stream) (local :: later) (st_flakes stream)) as Est
      by (rewrite <- Ho; by destruct stream).
    set (stream' := mkStream _ _ _).
    destruct (fronts_split _ _ _ Hs) as [fs Hfs], (pending_split g _ _ _ Hs) as [ps Hps],
      (remaining_split _ _ _ Hs) as [n Hn].
    assert (streams = <[h_stream h := stream]> streams) as Eself by (symmetry; by apply list_insert_id).
    assert (stream_ok index stream) as Hok by (by eapply Forall_lookup_1 in Hst).
    assert (iter_ok (mkIter g index (<[h_stream h := stream']> streams)
      match front (h_stream h) stream' with Some h' => h' :: rest | None => rest end)) as Hok'.
    { split; simpl.
      - apply Forall_insert; [done|]. apply (stream_ok_tail index (st_seg_idx stream) local).
        by rewrite <- Est.
      - rewrite Hfs. rewrite Hheap, Eself, Hfs, Hf in Hp. simpl in Hp. apply (inj (h ::.)) in Hp.
        destruct (front (h_stream h) stream'); simpl; by rewrite Hp. }
    assert (items g stream = (flake_id_pack g (st_seg_idx stream) local, h_flake h) :: items g stream') as Ei.
    { unfold items. rewrite Ho. csimpl. unfold item_of at 1. rewrite Hfl. done. }
    split; [done|]. split; [|split; [|split; [|done]]].
    + unfold pending; simpl. rewrite Eself at 1. by rewrite !Hps, Ei.
    + unfold remaining; simpl. rewrite Eself at 1. rewrite !Hn, Ho. done.
    + unfold pending; simpl. apply Forall_forall. intros x Hx.
      assert (x ∈ concat (items g <$> streams)) as Hx'.
      { rewrite Eself, Hps, Ei. right. by rewrite Hps in Hx. }
      apply elem_of_concat in Hx' as (l & (st & -> & (k & Hk)%list_elem_of_lookup)%list_elem_of_fmap & Hx').
      destruct (items_front index g k st x) as (hk & Hhk & Hle); [by eapply Forall_lookup_1 in Hst|done|].
      assert (hk ∈ h :: rest) as Hin by (rewrite <- Hp, Hheap; apply elem_of_fronts; eauto).
      apply elem_of_cons in Hin as [->|Hin]; [done|]. rewrite Forall_forall in Hbest.
      pose proof (head_before_flakes _ _ _ (Hbest hk Hin)) as Hle'.
      rewrite Hp in Hord. apply Forall_cons in Hord as [Oh Hord]. rewrite Forall_forall in Hord.
      eapply (@cmp_trans _ _ _ (compare_order index)); [..|exact Hle'|exact Hle]; [done|by apply Hord|].
      apply list_elem_of_omap in Hx' as (i & Hi & Hitem). unfold item_of in Hitem.
      destruct (flake_at (st_flakes st) i) as [f|] eqn:Ef; simplify_eq/=.
      eapply Forall_lookup_1 in Hst as [Hr _]; [|done]. rewrite Forall_forall in Hr.
      destruct (Hr i Hi) as (f' & Hf' & Of). by simplify_eq.
  - subst heap. assert (∀ s stream, streams !! s = Some stream → st_order stream = []) as Hempty.
    { intros s stream Hs. destruct (st_order stream) as [|local later] eqn:Ho; [done|].
      destruct (Forall_lookup_1 _ _ _ _ Hst Hs) as [Hr _]. rewrite Ho in Hr.
      apply Forall_cons in Hr as [(f & Hf & _) _]. apply Permutation_nil in Hheap.
      assert (mkHead f s (st_seg_idx stream) ∈ fronts streams) as Hin.
      { apply elem_of_fronts. exists s, stream. split; [done|]. unfold front. rewrite Ho, Hf. done. }
      rewrite Hheap in Hin. by apply elem_of_nil in Hin. }
    unfold pending, remaining; simpl. clear -Hempty.
    induction streams as [|st streams IH]; [done|]. csimpl.
    unfold items. rewrite (Hempty 0%nat st eq_refl). csimpl. apply IH.
    intros s stream Hs. by apply (Hempty (S s)).
Qed.

Lemma merge_collect_spec fuel it : iter_ok it → remaining it = fuel →
  merge_collect fuel it ≡ₚ pending it
  ∧ StronglySorted (λ a b, is_le (compare (it_index it) a.2 b.2) = true) (merge_collect fuel it).
Proof.
  revert it. induction fuel as [|fuel IH]; intros it Hok Hrem; simpl.
  all: pose proof (merge_next_spec it Hok) as Hnext.
  all: destruct (merge_next it) as [[item it']|].
  - destruct Hnext as (_ & _ & ? & _). lia.
  - destruct Hnext as [-> _]. split; [done|constructor].
  - destruct Hnext as (Hok' & Hp & Hr & Hle & Hidx).
    destruct (IH it' Hok' ltac:(lia)) as [IHp IHs]. rewrite Hidx in IHs. split.
    + by rewrite Hp, IHp.
    + constructor; [done|]. by rewrite IHp.
  - destruct Hnext as [_ ?]. lia.
Qed.

(** A merge yields every item of its streams, in index order. *)
Lemma merge_all_spec g index streams : Forall (stream_ok index) streams →
  merge_all (merge_start g index streams) ≡ₚ concat (items g <$> streams)
  ∧ sorted_by (compare index) (snd <$> merge_all (merge_start g index streams)).
Proof.
  intros Hs. destruct (merge_collect_spec (remaining (merge_start g index streams))
    (merge_start g index streams)) as [Hp Hsort]; [by split|done|].
  split; [exact Hp|]. unfold merge_all, sorted_by. clear -Hsort. simpl in Hsort.
  induction Hsort as [|x l Hl IH Hx]; csimpl; [constructor|]. constructor; [done|].
  by apply Forall_fmap.
Qed.
End merge.
