(* ===== verification/NoveltyFacts.v ===== *)
(** * The current-state fact index ([fluree-db-novelty/src/fact_state.rs])

    Per graph, a map from the identity of a fact to its latest time and
    operation within the novelty window.  A [Vec<Option<_>>] indexed by graph id
    is a list of slots; an [OrdMap] is an association list looked up by the
    comparison of its keys. *)

From S2P Require Import Prelude Text CommitWire CommitOp Ordering FlakeOrder FlakeTheorems.
#[local] Open Scope Z_scope.

(** ** Slots *)

Section slots.
Context {A : Type}.
Implicit Types l : list (option A).

(** [l.get(g as usize).and_then(Option::as_ref)]. *)
Definition slot_get l (g : Z) : option A := mjoin (l !! Z.to_nat g).
(** [if idx >= l.len() { l.resize_with(idx + 1, || None) }]. *)
Definition slot_grow l (g : Z) : list (option A) :=
  l ++ replicate (S (Z.to_nat g) - length l) None.
Definition slot_set l (g : Z) (v : option A) : list (option A) :=
  <[Z.to_nat g := v]> (slot_grow l g).

Lemma slot_get_grow l g h : slot_get (slot_grow l g) h = slot_get l h.
Proof.
  unfold slot_get, slot_grow. rewrite lookup_app. destruct (l !! Z.to_nat h) as [x|] eqn:E; [done|].
  destruct (_ !! (Z.to_nat h - length l)%nat) as [x|] eqn:E'; [|done].
  by apply lookup_replicate in E' as [-> _].
Qed.

Lemma slot_get_set l g h v : 0 <= g → 0 <= h →
  slot_get (slot_set l g v) h = if decide (g = h) then v else slot_get l h.
Proof.
  intros Hg Hh. rewrite <- (slot_get_grow l g h). unfold slot_set, slot_get at 1. case_decide as E.
  - subst h. rewrite list_lookup_insert_eq; [done|]. unfold slot_grow. rewrite length_app, length_replicate. lia.
  - rewrite list_lookup_insert_ne by lia. done.
Qed.

Lemma slot_get_nil g : slot_get [] g = None.
Proof. done. Qed.
End slots.

(** ** The fact index *)

Section fact_state.
Context `{VO : ValueOrd}.

Definition FactKey : Type := Sid * Sid * FlakeValue * Sid * option FlakeMeta.

Definition key_of (f : Flake) : FactKey := (f_s f, f_p f, f_o f, f_dt f, f_m f).

(** The derived order of the tuple. *)
Definition fact_key_cmp (a b : FactKey) : comparison :=
  let '(s1, p1, o1, dt1, m1) := a in
  let '(s2, p2, o2, dt2, m2) := b in
  sid_cmp s1 s2 >>then sid_cmp p1 p2 >>then value_cmp o1 o2 >>then sid_cmp dt1 dt2
    >>then option_cmp flake_meta_cmp m1 m2.

Definition OrdMap : Type := list (FactKey * (Z * bool)).

Fixpoint ord_get (key : FactKey) (m : OrdMap) : option (Z * bool) :=
  match m with
  | [] => None
  | (k, v) :: m => match fact_key_cmp key k with Eq => Some v | _ => ord_get key m end
  end.

Fixpoint ord_insert (key : FactKey) (v : Z * bool) (m : OrdMap) : OrdMap :=
  match m with
  | [] => [(key, v)]
  | (k, w) :: m =>
      match fact_key_cmp key k with Eq => (key, v) :: m | _ => (k, w) :: ord_insert key v m end
  end.

(** [NoveltyFactState]. *)
Definition FactState : Type := list (option OrdMap).

Definition fact_get (fs : FactState) (g : Z) (f : Flake) : option (Z * bool) :=
  m ← slot_get fs g; ord_get (key_of f) m.

Definition is_asserted (fs : FactState) (g : Z) (f : Flake) : bool :=
  match fact_get fs g f with Some (_, op) => op | None => false end.

(** Whether [flake] replaces what is recorded for its identity. *)
Definition wins (cur : option (Z * bool)) (f : Flake) : bool :=
  match cur with
  | Some (cur_t, cur_op) => (cur_t <? f_t f) || ((f_t f =? cur_t) && cur_op && negb (f_op f))
  | None => true
  end.

Definition record (fs : FactState) (g : Z) (f : Flake) : FactState :=
  let m := default [] (slot_get fs g) in
  if wins (ord_get (key_of f) m) f
  then slot_set fs g (Some (ord_insert (key_of f) (f_t f, f_op f) m))
  else slot_set fs g (Some m).

(** ** What it computes *)

(** The latest operation of a list of flakes of one identity: the highest
    time, and a retraction before an assertion of that time. *)
Definition latest_step (cur : option (Z * bool)) (f : Flake) : option (Z * bool) :=
  if wins cur f then Some (f_t f, f_op f) else cur.
Definition latest (l : list Flake) : option (Z * bool) := foldl latest_step None l.

(** The flakes of the identity of [f]. *)
Definition same_fact (f : Flake) (l : list Flake) : list Flake := filter (λ x, key_cmp f x = Eq) l.

Lemma fact_key_cmp_key f g : fact_key_cmp (key_of f) (key_of g) = key_cmp f g.
Proof.
  unfold key_cmp, cmp_object, cmp_s, cmp_p, cmp_meta. simpl.
  by destruct (sid_cmp (f_s f) _), (sid_cmp (f_p f) _), (value_cmp _ _).
Qed.

Definition key_ordered (k : FactKey) : Prop := let '(_, _, o, _, _) := k in value_ordered o.

#[export] Instance fact_key_cmp_order : CmpOrder key_ordered fact_key_cmp.
Proof.
  set (flake_of := λ k : FactKey, let '(s, p, o, dt, m) := k in mkFlake None s p o dt 0 true m).
  assert (∀ k, key_of (flake_of k) = k) as Hk by (by intros [[[[??]?]?]?]).
  assert (∀ a b, fact_key_cmp a b = key_cmp (flake_of a) (flake_of b)) as E
    by (intros a b; by rewrite <- fact_key_cmp_key, !Hk).
  assert (∀ k, key_ordered k → flake_ordered (flake_of k)) as Hord by (by intros [[[[??]?]?]?]).
  constructor; intros *; rewrite !E; [apply (@cmp_flip _ _ _ key_cmp_order)|].
  intros ???. apply (@cmp_trans _ _ _ key_cmp_order); auto.
Qed.

Definition keys_ordered (m : OrdMap) : Prop := Forall (λ e, key_ordered e.1) m.

Lemma ord_insert_ordered k v m : key_ordered k → keys_ordered m → keys_ordered (ord_insert k v m).
Proof.
  intros Hk. induction 1 as [|[k' w] m Hk' Hm IH]; simpl; [by repeat constructor|].
  destruct (fact_key_cmp k k'); by constructor.
Qed.

Lemma ord_get_insert k v j m : key_ordered k → key_ordered j → keys_ordered m →
  ord_get j (ord_insert k v m) = match fact_key_cmp j k with Eq => Some v | _ => ord_get j m end.
Proof.
  intros Hk Hj. induction 1 as [|[k' w] m Hk' Hm IH]; simpl; [done|]. simpl in Hk'.
  destruct (fact_key_cmp j k) eqn:Ejk.
  - pose proof (@cmp_eq_subst _ _ _ fact_key_cmp_order j k k' Hj Hk Hk' Ejk) as E.
    destruct (fact_key_cmp k k') eqn:E'; simpl; rewrite ?Ejk, ?E; done.
  - destruct (fact_key_cmp k k') eqn:E'; simpl; rewrite ?Ejk, ?IH; try done.
    by rewrite (@cmp_eq_subst_r _ _ _ fact_key_cmp_order j k k') in Ejk by done; rewrite Ejk.
  - destruct (fact_key_cmp k k') eqn:E'; simpl; rewrite ?Ejk, ?IH; try done.
    by rewrite (@cmp_eq_subst_r _ _ _ fact_key_cmp_order j k k') in Ejk by done; rewrite Ejk.
Qed.

Lemma ord_get_cong j k m : key_ordered j → key_ordered k → keys_ordered m →
  fact_key_cmp j k = Eq → ord_get j m = ord_get k m.
Proof.
  intros Hj Hk Hm E. induction Hm as [|[k' w] m Hk' Hm IH]; simpl; [done|].
  rewrite (@cmp_eq_subst _ _ _ fact_key_cmp_order j k k') by done.
  by rewrite IH.
Qed.

Definition facts_ordered (fs : FactState) : Prop := ∀ g m, slot_get fs g = Some m → keys_ordered m.

Lemma facts_ordered_default fs g : facts_ordered fs → keys_ordered (default [] (slot_get fs g)).
Proof. intros Hfs. destruct (slot_get fs g) as [m|] eqn:E; simpl; [by eapply Hfs|constructor]. Qed.

Lemma record_ordered fs g f : 0 <= g → flake_ordered f → facts_ordered fs → facts_ordered (record fs g f).
Proof.
  intros Hg Hf Hfs h m. unfold record.
  pose proof (facts_ordered_default fs g Hfs) as Hm.
  assert (∀ v, keys_ordered v → slot_get (slot_set fs g (Some v)) h = Some m → keys_ordered m) as Hset.
  { intros v Hv. unfold slot_get. destruct (decide (Z.to_nat h = Z.to_nat g)) as [E|E].
    - change (slot_get (slot_set fs g (Some v)) h = Some m → keys_ordered m). unfold slot_get.
      rewrite E. change (slot_get (slot_set fs g (Some v)) g = Some m → keys_ordered m).
      rewrite slot_get_set, decide_True by done. by intros [= <-].
    - unfold slot_set. rewrite list_lookup_insert_ne by done.
      change (slot_get (slot_grow fs g) h = Some m → keys_ordered m). rewrite slot_get_grow. apply Hfs. }
  case_match; apply Hset; [|done]. by apply ord_insert_ordered.
Qed.

(** [record] updates the entry of the flake's identity, and no other. *)
Lemma record_get fs g f h x :
  0 <= g → 0 <= h → flake_ordered f → flake_ordered x → facts_ordered fs →
  fact_get (record fs g f) h x
  = if decide (g = h ∧ key_cmp x f = Eq) then latest_step (fact_get fs h x) f else fact_get fs h x.
Proof.
  intros Hg Hh Hf Hx Hfs. unfold fact_get, record.
  pose proof (facts_ordered_default fs g Hfs) as Hm.
  destruct (decide (g = h)) as [->|Hne].
  2:{ rewrite (decide_False (P := _ ∧ _)) by naive_solver.
      case_match; by rewrite slot_get_set, decide_False. }
  assert ((m ← slot_get fs h; ord_get (key_of x) m) = ord_get (key_of x) (default [] (slot_get fs h))) as E.
  { by destruct (slot_get fs h). }
  rewrite E. set (m := default [] (slot_get fs h)) in *. unfold latest_step.
  destruct (decide (key_cmp x f = Eq)) as [Hk|Hk].
  - rewrite (decide_True (P := _ ∧ _)) by done. rewrite <- fact_key_cmp_key in Hk.
    rewrite (ord_get_cong (key_of x) (key_of f) m Hx Hf Hm Hk). destruct (wins _ f).
    + rewrite slot_get_set, decide_True by done. simpl. by rewrite ord_get_insert, Hk.
    + rewrite slot_get_set, decide_True by done. simpl. by apply ord_get_cong.
  - rewrite (decide_False (P := _ ∧ _)) by naive_solver.
    assert (match fact_key_cmp (key_of x) (key_of f) with Eq => false | _ => true end = true) as Hne.
    { rewrite fact_key_cmp_key. by destruct (key_cmp x f). }
    destruct (wins _ f); rewrite slot_get_set, decide_True by done; simpl; [|done].
    rewrite ord_get_insert by done. by destruct (fact_key_cmp _ _).
Qed.

(** Recording a batch. *)
Definition record_all (fs : FactState) (g : Z) (batch : list Flake) : FactState :=
  foldl (λ fs f, record fs g f) fs batch.

Lemma record_all_ordered fs g batch :
  0 <= g → Forall flake_ordered batch → facts_ordered fs → facts_ordered (record_all fs g batch).
Proof.
  intros Hg Hb. revert fs. induction Hb as [|f batch Hf Hb IH]; intros fs Hfs; [done|].
  apply IH. by apply record_ordered.
Qed.

Lemma record_all_get fs g batch h x :
  0 <= g → 0 <= h → Forall flake_ordered batch → flake_ordered x → facts_ordered fs →
  fact_get (record_all fs g batch) h x
  = if decide (g = h) then foldl latest_step (fact_get fs h x) (same_fact x batch) else fact_get fs h x.
Proof.
  intros Hg Hh Hb Hx. revert fs. induction Hb as [|f batch Hf Hb IH]; intros fs Hfs.
  { simpl. by case_decide. }
  cbn [record_all foldl]. fold (record_all (record fs g f) g batch).
  rewrite IH by (by apply record_ordered). rewrite record_get by done.
  unfold same_fact. rewrite filter_cons. destruct (decide (g = h)); [|by rewrite decide_False by naive_solver].
  destruct (decide (key_cmp x f = Eq)); [rewrite decide_True by done|rewrite decide_False by naive_solver]; done.
Qed.

(** The order in which flakes are recorded does not matter. *)
Lemma latest_step_comm c f g : latest_step (latest_step c f) g = latest_step (latest_step c g) f.
Proof.
  unfold latest_step, wins. destruct c as [[t op]|]; simpl;
    destruct f as [????? tf of_ mf], g as [????? tg og mg]; simpl;
    repeat match goal with
    | |- context [?x <? ?y] => destruct (Z.ltb_spec x y); simpl
    | |- context [?x =? ?y] => destruct (Z.eqb_spec x y); simpl
    | b : bool |- _ => destruct b; simpl
    end; try (exfalso; lia); try done; repeat f_equal; lia.
Qed.

Lemma foldl_latest_perm l k c : l ≡ₚ k → foldl latest_step c l = foldl latest_step c k.
Proof.
  intros Hp. revert c. induction Hp as [|x l k _ IH|x y l|l k m _ IH1 _ IH2]; intros c; simpl; [done|..].
  - apply IH.
  - by rewrite latest_step_comm.
  - by rewrite IH1.
Qed.

#[export] Instance latest_proper : Proper ((≡ₚ) ==> (=)) latest.
Proof. intros l k Hp. by apply foldl_latest_perm. Qed.
End fact_state.
