(* ===== verification/Novelty.v ===== *)
(** * The novelty overlay ([fluree-db-novelty/src/lib.rs])

    [Novelty] with its mutations and reads.  A mutation takes the overlay and
    the two process-wide counters it draws identities from ([Counters]) and
    returns them with the result, also on an error.  Sizes and counts are
    [usize] sums of memory held and do not overflow; epochs are [u64].

    A [HashMap] keyed by graph is a [gmap]; the order in which it is iterated
    is a parameter ([HashIteration]).  The attachment overlay is another module
    of the crate, used through [AttachmentOverlay]: its [observe_flakes] always
    answers [Ok]. *)

From S2P Require Import Prelude Text CommitWire CommitOp Ordering FlakeOrder FlakeTheorems.
From S2P Require Import NoveltySegment NoveltyMerge NoveltyFacts.
#[local] Open Scope Z_scope.

Class HashIteration := {
  hash_iter : ∀ {V}, gmap Z V → list (Z * V);
  hash_iter_perm : ∀ {V} (m : gmap Z V), hash_iter m ≡ₚ map_to_list m;
}.

Class AttachmentOverlay `{CoreValues} := {
  AttachmentNovelty : Type;
  attachments_new : AttachmentNovelty;
  observe_flakes : AttachmentNovelty → list Flake → AttachmentNovelty;
}.

Inductive NoveltyError := Overflow (message : string) | InvalidGraph (g_sid : Sid).

(** [NEXT_SEG_ID] and [NEXT_CONTENT_VERSION]. *)
Record Counters := mkCounters { next_seg_id : Z; next_version : Z }.

Definition CONFIG_GRAPH_ID : Z := 2.

Section novelty.
Context `{VO : ValueOrd} {AO : AttachmentOverlay} `{SO : Sorting} `{HI : HashIteration}.

Record Novelty := mkNovelty {
  nv_graphs : list (option (list Segment));
  nv_size : Z;
  nv_flake_count : Z;
  nv_t : Z;
  nv_epoch : Z;
  nv_content_version : Z;
  nv_schema_epoch : Z;
  nv_shacl_epoch : Z;
  nv_has_list_meta : bool;
  nv_config_write_t : Z;
  nv_attachments : AttachmentNovelty;
  nv_fact_state : FactState;
}.

(** [Novelty::new]. *)
Definition novelty_new (t : Z) : Novelty :=
  mkNovelty [] 0 0 t 0 0 0 0 false 0 attachments_new [].

Definition set_graphs (graphs : list (option (list Segment))) (nv : Novelty) : Novelty :=
  mkNovelty graphs (nv_size nv) (nv_flake_count nv) (nv_t nv) (nv_epoch nv) (nv_content_version nv)
    (nv_schema_epoch nv) (nv_shacl_epoch nv) (nv_has_list_meta nv) (nv_config_write_t nv)
    (nv_attachments nv) (nv_fact_state nv).
Definition set_totals (size count : Z) (nv : Novelty) : Novelty :=
  mkNovelty (nv_graphs nv) size count (nv_t nv) (nv_epoch nv) (nv_content_version nv)
    (nv_schema_epoch nv) (nv_shacl_epoch nv) (nv_has_list_meta nv) (nv_config_write_t nv)
    (nv_attachments nv) (nv_fact_state nv).
Definition set_t (t : Z) (nv : Novelty) : Novelty :=
  mkNovelty (nv_graphs nv) (nv_size nv) (nv_flake_count nv) t (nv_epoch nv) (nv_content_version nv)
    (nv_schema_epoch nv) (nv_shacl_epoch nv) (nv_has_list_meta nv) (nv_config_write_t nv)
    (nv_attachments nv) (nv_fact_state nv).
Definition set_marks (schema shacl : Z) (list_meta : bool) (nv : Novelty) : Novelty :=
  mkNovelty (nv_graphs nv) (nv_size nv) (nv_flake_count nv) (nv_t nv) (nv_epoch nv)
    (nv_content_version nv) schema shacl list_meta (nv_config_write_t nv)
    (nv_attachments nv) (nv_fact_state nv).
Definition set_config_write_t (t : Z) (nv : Novelty) : Novelty :=
  mkNovelty (nv_graphs nv) (nv_size nv) (nv_flake_count nv) (nv_t nv) (nv_epoch nv)
    (nv_content_version nv) (nv_schema_epoch nv) (nv_shacl_epoch nv) (nv_has_list_meta nv) t
    (nv_attachments nv) (nv_fact_state nv).
Definition set_attachments (a : AttachmentNovelty) (nv : Novelty) : Novelty :=
  mkNovelty (nv_graphs nv) (nv_size nv) (nv_flake_count nv) (nv_t nv) (nv_epoch nv)
    (nv_content_version nv) (nv_schema_epoch nv) (nv_shacl_epoch nv) (nv_has_list_meta nv)
    (nv_config_write_t nv) a (nv_fact_state nv).
Definition set_fact_state (fs : FactState) (nv : Novelty) : Novelty :=
  mkNovelty (nv_graphs nv) (nv_size nv) (nv_flake_count nv) (nv_t nv) (nv_epoch nv)
    (nv_content_version nv) (nv_schema_epoch nv) (nv_shacl_epoch nv) (nv_has_list_meta nv)
    (nv_config_write_t nv) (nv_attachments nv) fs.

(** [self.epoch += 1; self.refresh_content_version()]. *)
Definition bump_epoch (c : Counters) (nv : Novelty) : Novelty * Counters :=
  (mkNovelty (nv_graphs nv) (nv_size nv) (nv_flake_count nv) (nv_t nv) (nv_epoch nv +u64 1)
     (next_version c) (nv_schema_epoch nv) (nv_shacl_epoch nv) (nv_has_list_meta nv)
     (nv_config_write_t nv) (nv_attachments nv) (nv_fact_state nv),
   mkCounters (next_seg_id c) (next_version c +u64 1)).

(** [Segment::build] with the next id. *)
Definition new_segment (c : Counters) (flakes : list Flake) (parallel : bool) : Segment * Counters :=
  (build (next_seg_id c) flakes parallel, mkCounters (next_seg_id c +u64 1) (next_version c)).

(** ** Graphs *)

Definition resolve_flake_g_id (reverse_graph : Sid → option Z) (f : Flake) : NoveltyError + Z :=
  match f_g f with
  | None => inr 0
  | Some g_sid =>
      match reverse_graph g_sid with Some g => inr g | None => inl (InvalidGraph g_sid) end
  end.

Definition segments (nv : Novelty) (g : Z) : list Segment := default [] (slot_get (nv_graphs nv) g).

Definition segment_count (nv : Novelty) (g : Z) : Z := Z.of_nat (length (segments nv g)).

Definition seg_len (seg : Segment) : Z := Z.of_nat (length (seg_flakes seg)).

(** [push_segment]. *)
Definition push_segment (g : Z) (seg : Segment) (nv : Novelty) : Novelty :=
  set_totals (nv_size nv + seg_size seg) (nv_flake_count nv + seg_len seg)
    (set_graphs (slot_set (nv_graphs nv) g (Some (segments nv g ++ [seg]))) nv).

Definition check_segment_capacity (nv : Novelty) (g : Z) : option NoveltyError :=
  if MAX_SEGMENTS <? segment_count nv g + 1
  then Some (Overflow "novelty segment count exceeds capacity, trigger reindex") else None.

(** The segments of a batch, chunked at the local-index width. *)
Fixpoint build_chunks (fuel : nat) (c : Counters) (flakes : list Flake) (parallel : bool)
  : list Segment * Counters :=
  match fuel with
  | S fuel =>
      if MAX_SEGMENT_FLAKES <? Z.of_nat (length flakes) then
        let n := Z.to_nat MAX_SEGMENT_FLAKES in
        let '(seg, c) := new_segment c (take n flakes) parallel in
        let '(segs, c) := build_chunks fuel c (drop n flakes) parallel in
        (seg :: segs, c)
      else let '(seg, c) := new_segment c flakes parallel in ([seg], c)
  | O => let '(seg, c) := new_segment c flakes parallel in ([seg], c)
  end.
Definition chunked (c : Counters) (flakes : list Flake) (parallel : bool) : list Segment * Counters :=
  build_chunks (length flakes) c flakes parallel.

Definition set_graph_segments (c : Counters) (g : Z) (flakes : list Flake) (parallel : bool)
    (nv : Novelty) : Novelty * Counters :=
  match flakes with
  | [] => (set_graphs (slot_set (nv_graphs nv) g None) nv, c)
  | _ =>
      let '(segs, c) := chunked c flakes parallel in
      (set_graphs (slot_set (nv_graphs nv) g (Some segs)) nv, c)
  end.

Definition all_segments (graphs : list (option (list Segment))) : list Segment :=
  concat (omap id graphs).

Definition recompute_totals (nv : Novelty) : Novelty :=
  let segs := all_segments (nv_graphs nv) in
  set_totals (foldl (λ acc s, acc + seg_size s) 0 segs) (foldl (λ acc s, acc + seg_len s) 0 segs) nv.

(** ** Reads *)

Definition bounds : Type := option Flake * option Flake * bool.

(** The streams of [graph_merge]: segments that the zone map does not prune
    and whose range is not empty. *)
Definition streams_of (index : IndexType) (b : bounds) (segs : list Segment) : list MergeStream :=
  let '(first, rhs, leftmost) := b in
  omap (λ '(seg_idx, seg),
          if negb (may_overlap seg index first rhs leftmost) then None
          else match range seg index first rhs leftmost with
               | [] => None
               | order => Some (mkStream seg_idx order (seg_flakes seg))
               end)
       (imap (λ i seg, (Z.of_nat i, seg)) segs).

Definition graph_merge (nv : Novelty) (g : Z) (index : IndexType) (b : bounds) : GraphMergeIter :=
  merge_start g index (streams_of index b (segments nv g)).

Definition present_graphs (nv : Novelty) : list Z :=
  filter (λ g, segments nv g ≠ []) (seqZ 0 (Z.of_nat (length (nv_graphs nv)))).

(** [read_flakes] and [range_flakes]: one segment is read directly. *)
Definition range_flakes (nv : Novelty) (g : Z) (index : IndexType) (b : bounds) : list Flake :=
  let '(first, rhs, leftmost) := b in
  match segments nv g with
  | [] => []
  | [seg] =>
      if may_overlap seg index first rhs leftmost
      then omap (flake_at (seg_flakes seg)) (range seg index first rhs leftmost) else []
  | _ => snd <$> merge_all (graph_merge nv g index b)
  end.

(** [read_ids] and [slice_for_range]. *)
Definition slice_for_range (nv : Novelty) (g : Z) (index : IndexType) (b : bounds) : list Z :=
  let '(first, rhs, leftmost) := b in
  match segments nv g with
  | [] => []
  | [seg] =>
      if may_overlap seg index first rhs leftmost
      then (λ local, flake_id_pack g 0 local) <$> range seg index first rhs leftmost else []
  | _ => fst <$> merge_all (graph_merge nv g index b)
  end.

(** [get_flake] panics where this has no answer. *)
Definition get_flake (nv : Novelty) (id : Z) : option Flake :=
  segs ← slot_get (nv_graphs nv) (id_graph id);
  seg ← segs !! Z.to_nat (id_seg id);
  flake_at (seg_flakes seg) (id_local id).

Definition all_bounds : bounds := (None, None, true).
Definition iter_index (nv : Novelty) (index : IndexType) : list Z :=
  g ← present_graphs nv; slice_for_range nv g index all_bounds.
Definition iter_flakes (nv : Novelty) (index : IndexType) : list Flake :=
  g ← present_graphs nv; range_flakes nv g index all_bounds.

(** The calls of [for_each_overlay_flake]. *)
Definition for_each_overlay_flake (nv : Novelty) (g : Z) (index : IndexType) (b : bounds) (to_t : Z)
  : list Flake :=
  filter (λ f, f_t f <= to_t) (range_flakes nv g index b).

Definition overlay_flake_count (nv : Novelty) (g : Z) : Z :=
  foldl (λ acc s, acc + seg_len s) 0 (segments nv g).
Definition overlay_segments (nv : Novelty) (g : Z) : list (Z * Z * Z) :=
  (λ s, (seg_id s, seg_min_t s, seg_max_t s)) <$> segments nv g.
Definition for_each_overlay_segment_flake (nv : Novelty) (g : Z) (seg_idx : nat) (index : IndexType)
  : list Flake :=
  match segments nv g !! seg_idx with
  | Some seg => omap (flake_at (seg_flakes seg)) (order seg index)
  | None => []
  end.
End novelty.

(** * The mutations of the novelty overlay ([fluree-db-novelty/src/lib.rs])

    Applying a commit, bulk-loading commits, clearing what an index covers, and
    tiered compaction.  An operation that can fail returns the error it
    returned, if any, with the state it leaves. *)

Section operations.
Context `{VO : ValueOrd} {AO : AttachmentOverlay} `{SO : Sorting} `{HI : HashIteration}.

(** ** Applying one commit *)

(** Routing, which stops at the first unknown graph. *)
Fixpoint route (reverse_graph : Sid → option Z) (flakes : list Flake)
  : NoveltyError + list (Flake * Z) :=
  match flakes with
  | [] => inr []
  | f :: flakes =>
      match resolve_flake_g_id reverse_graph f with
      | inl e => inl e
      | inr g => match route reverse_graph flakes with
                 | inl e => inl e
                 | inr routed => inr ((f, g) :: routed)
                 end
      end
  end.

(** The capacity of every touched graph, each checked once. *)
Fixpoint check_capacities (nv : Novelty) (checked : gset Z) (gs : list Z) : NoveltyError + gset Z :=
  match gs with
  | [] => inr checked
  | g :: gs =>
      if decide (g ∈ checked) then check_capacities nv checked gs
      else match check_segment_capacity nv g with
           | Some e => inl e
           | None => check_capacities nv ({[g]} ∪ checked) gs
           end
  end.

Definition batch_too_large (flakes : list Flake) : bool :=
  MAX_SEGMENT_FLAKES <? Z.of_nat (length flakes).
Definition batch_overflow : NoveltyError :=
  Overflow "commit batch exceeds max segment flakes, trigger reindex".

(** [can_apply]: routing and capacity, flake by flake. *)
Fixpoint can_apply_loop (nv : Novelty) (reverse_graph : Sid → option Z) (checked : gset Z)
    (flakes : list Flake) : option NoveltyError :=
  match flakes with
  | [] => None
  | f :: flakes =>
      match resolve_flake_g_id reverse_graph f with
      | inl e => Some e
      | inr g =>
          if decide (g ∈ checked) then can_apply_loop nv reverse_graph checked flakes
          else match check_segment_capacity nv g with
               | Some e => Some e
               | None => can_apply_loop nv reverse_graph ({[g]} ∪ checked) flakes
               end
      end
  end.
Definition can_apply (nv : Novelty) (flakes : list Flake) (reverse_graph : Sid → option Z)
  : option NoveltyError :=
  if batch_too_large flakes then Some batch_overflow
  else can_apply_loop nv reverse_graph ∅ flakes.

(** What the pass over the routed flakes accumulates. *)
Record Kept := mkKept {
  per_graph : gmap Z (list Flake);
  accepted_reifies : list Flake;
  schema_touched : bool;
  shacl_touched : bool;
  list_meta : bool;
}.

Definition keep_flake (k : Kept) (f : Flake) (g : Z) : Kept :=
  mkKept (<[g := default [] (per_graph k !! g) ++ [f]]> (per_graph k))
    (if is_reserved_reifies_predicate (f_p f) then accepted_reifies k ++ [f] else accepted_reifies k)
    (schema_touched k || is_rdfs_hierarchy_predicate (f_p f))
    (shacl_touched k || is_shacl_affecting_flake f)
    (list_meta k || flake_has_list_meta f).

(** Set semantics: an assertion of a fact that is asserted already is skipped. *)
Definition keep_step (fs : FactState) (k : Kept) (fg : Flake * Z) : Kept :=
  if f_op fg.1 && is_asserted fs fg.2 fg.1 then k else keep_flake k fg.1 fg.2.
Definition keep_loop (fs : FactState) (list_meta : bool) (routed : list (Flake * Z)) : Kept :=
  foldl (keep_step fs) (mkKept ∅ [] false false list_meta) routed.

Definition record_graphs (fs : FactState) (batches : list (Z * list Flake)) : FactState :=
  foldl (λ fs '(g, batch), record_all fs g batch) fs batches.

Definition push_batches (c : Counters) (batches : list (Z * list Flake)) (nv : Novelty)
  : Novelty * Counters :=
  foldl (λ '(nv, c) '(g, batch),
           match batch with
           | [] => (nv, c)
           | _ => let '(seg, c) := new_segment c batch false in (push_segment g seg nv, c)
           end) (nv, c) batches.

Definition apply_commit (c : Counters) (nv : Novelty) (flakes : list Flake) (commit_t : Z)
    (reverse_graph : Sid → option Z) : option NoveltyError * (Novelty * Counters) :=
  match flakes with
  | [] => (None, (nv, c))
  | _ =>
      if batch_too_large flakes then (Some batch_overflow, (nv, c))
      else
        match route reverse_graph flakes with
        | inl e => (Some e, (nv, c))
        | inr routed =>
            match check_capacities nv ∅ (snd <$> routed) with
            | inl e => (Some e, (nv, c))
            | inr checked =>
                let '(nv, c) := bump_epoch c (set_t (Z.max (nv_t nv) commit_t) nv) in
                let nv := if decide (CONFIG_GRAPH_ID ∈ checked)
                          then set_config_write_t (Z.max (nv_config_write_t nv) commit_t) nv else nv in
                let k := keep_loop (nv_fact_state nv) (nv_has_list_meta nv) routed in
                let nv := set_marks
                            (if schema_touched k then nv_schema_epoch nv +u64 1 else nv_schema_epoch nv)
                            (if shacl_touched k then nv_shacl_epoch nv +u64 1 else nv_shacl_epoch nv)
                            (list_meta k) nv in
                let nv := set_fact_state
                            (record_graphs (nv_fact_state nv) (hash_iter (per_graph k))) nv in
                let nv := match accepted_reifies k with
                          | [] => nv
                          | reifies => set_attachments (observe_flakes (nv_attachments nv) reifies) nv
                          end in
                (None, push_batches c (hash_iter (per_graph k)) nv)
            end
        end
  end.

(** ** Bulk-loading commits *)

(** Phase 1: partition by graph; the marks are set as flakes are met. *)
Definition bulk_mark (f : Flake) (nv : Novelty) : Novelty :=
  set_marks
    (if is_rdfs_hierarchy_predicate (f_p f) then nv_schema_epoch nv +u64 1 else nv_schema_epoch nv)
    (if is_shacl_affecting_flake f then nv_shacl_epoch nv +u64 1 else nv_shacl_epoch nv)
    (nv_has_list_meta nv || flake_has_list_meta f) nv.

Fixpoint bulk_partition (reverse_graph : Sid → option Z) (flakes : list Flake)
    (groups : gmap Z (list Flake)) (nv : Novelty)
  : option NoveltyError * gmap Z (list Flake) * Novelty :=
  match flakes with
  | [] => (None, groups, nv)
  | f :: flakes =>
      match resolve_flake_g_id reverse_graph f with
      | inl e => (Some e, groups, nv)
      | inr g => bulk_partition reverse_graph flakes
                   (<[g := default [] (groups !! g) ++ [f]]> groups) (bulk_mark f nv)
      end
  end.

(** The walk over the identity-sorted flakes: [last] is the last flake kept. *)
Fixpoint dedup_loop (last : Flake) (asserted : bool) (l : list Flake) : list Flake :=
  match l with
  | [] => []
  | f :: l =>
      if same_identity last f then
        if negb (f_op f) then f :: dedup_loop f false l
        else if negb asserted then f :: dedup_loop f true l
        else dedup_loop last asserted l
      else f :: dedup_loop f (f_op f) l
  end.
Definition dedup (combined : list Flake) : list Flake :=
  match combined with
  | [] => []
  | head :: l => head :: dedup_loop head (f_op head) l
  end.

(** Phase 2 for one graph. *)
Definition bulk_graph (max_t : Z) (c : Counters) (g : Z) (new_flakes : list Flake) (nv : Novelty)
  : Novelty * Counters :=
  let combined := concat (seg_flakes <$> segments nv g) ++ new_flakes in
  let kept := dedup (sort_unstable_by true identity_cmp combined) in
  let reifies := filter (λ f, is_reserved_reifies_predicate (f_p f) = true) kept in
  let nv := set_fact_state (record_all (nv_fact_state nv) g kept) nv in
  let '(nv, c) := set_graph_segments c g kept true nv in
  let nv := if g =? CONFIG_GRAPH_ID
            then set_config_write_t (Z.max (nv_config_write_t nv) max_t) nv else nv in
  let nv := match reifies with
            | [] => nv
            | _ => set_attachments (observe_flakes (nv_attachments nv) reifies) nv
            end in
  (nv, c).

Definition bulk_graphs (max_t : Z) (c : Counters) (groups : list (Z * list Flake)) (nv : Novelty)
  : Novelty * Counters :=
  foldl (λ '(nv, c) '(g, new_flakes), bulk_graph max_t c g new_flakes nv) (nv, c) groups.

Definition bulk_apply_commits (c : Counters) (nv : Novelty) (commits : list (list Flake * Z))
    (reverse_graph : Sid → option Z) : option NoveltyError * (Novelty * Counters) :=
  let max_t := foldl (λ acc '(_, commit_t), Z.max acc commit_t) (nv_t nv) commits in
  match bulk_partition reverse_graph (concat (fst <$> commits)) ∅ nv with
  | (Some e, _, nv) => (Some e, (nv, c))
  | (None, groups, nv) =>
      if decide (groups = ∅) then (None, bump_epoch c (set_t max_t nv))
      else
        let '(nv, c) := bulk_graphs max_t c (hash_iter groups) nv in
        let '(nv, c) := bump_epoch c (set_t max_t nv) in
        (None, (recompute_totals nv, c))
  end.

(** ** Clearing what an index covers *)

Fixpoint clear_segments (cutoff_t : Z) (c : Counters) (segs : list Segment) : list Segment * Counters :=
  match segs with
  | [] => ([], c)
  | seg :: segs =>
      if seg_max_t seg <=? cutoff_t then clear_segments cutoff_t c segs
      else if cutoff_t <? seg_min_t seg then
        let '(kept, c) := clear_segments cutoff_t c segs in (seg :: kept, c)
      else
        match after (next_seg_id c) seg cutoff_t with
        | Some seg' =>
            let c := mkCounters (next_seg_id c +u64 1) (next_version c) in
            let '(kept, c) := clear_segments cutoff_t c segs in (seg' :: kept, c)
        | None => clear_segments cutoff_t c segs
        end
  end.

Fixpoint clear_slots (cutoff_t : Z) (c : Counters) (slots : list (option (list Segment)))
  : list (option (list Segment)) * Counters :=
  match slots with
  | [] => ([], c)
  | None :: slots => let '(kept, c) := clear_slots cutoff_t c slots in (None :: kept, c)
  | Some segs :: slots =>
      let '(kept, c) := clear_segments cutoff_t c segs in
      let slot := match kept with [] => None | _ => Some kept end in
      let '(slots, c) := clear_slots cutoff_t c slots in (slot :: slots, c)
  end.

(** The current-state index rebuilt from the survivors, in SPOT order. *)
Definition rebuild_facts (nv : Novelty) : FactState :=
  foldl (λ fs g,
           foldl (λ fs id, match get_flake nv id with Some f => record fs g f | None => fs end)
                 fs (slice_for_range nv g Spot all_bounds))
        [] (present_graphs nv).

Definition clear_up_to (c : Counters) (nv : Novelty) (cutoff_t : Z) : Novelty * Counters :=
  if nv_flake_count nv =? 0 then (nv, c)
  else
    let '(slots, c) := clear_slots cutoff_t c (nv_graphs nv) in
    let nv := recompute_totals (set_graphs slots nv) in
    bump_epoch c (set_fact_state (rebuild_facts nv) nv).

(** ** Tiered compaction *)

Fixpoint class_loop (fuel : nat) (count tier_width bound class : Z) : Z :=
  match fuel with
  | O => class
  | S fuel =>
      if bound <=? count then
        if u64_max <? bound * tier_width then class + 1
        else class_loop fuel count tier_width (bound * tier_width) (class + 1)
      else class
  end.
Definition size_class (count tier_width : Z) : Z :=
  if (count <=? 1) || (tier_width <? 2) then 0 else class_loop 64 count tier_width tier_width 0.

Definition seg_class (tier_width : Z) (seg : Segment) : Z := size_class (seg_len seg) tier_width.

Definition class_count (tier_width class : Z) (segs : list Segment) : Z :=
  Z.of_nat (length (filter (λ s, seg_class tier_width s = class) segs)).

(** The lowest class from [min_class] on that holds [tier_width] segments. *)
Definition target_class (tier_width min_class : Z) (segs : list Segment) : option Z :=
  let full := filter (λ class, min_class <= class ∧ tier_width <= class_count tier_width class segs)
                (seg_class tier_width <$> segs) in
  match full with
  | [] => None
  | class :: rest => Some (foldl Z.min class rest)
  end.

(** The first [tier_width] segments of the class, and the others. *)
Fixpoint take_class (tier_width class merged : Z) (segs : list Segment) : list Segment * list Flake :=
  match segs with
  | [] => ([], [])
  | seg :: segs =>
      if (merged <? tier_width) && (seg_class tier_width seg =? class) then
        let '(keep, flakes) := take_class tier_width class (merged + 1) segs in
        (keep, seg_flakes seg ++ flakes)
      else
        let '(keep, flakes) := take_class tier_width class merged segs in (seg :: keep, flakes)
  end.

Fixpoint compact_loop (fuel : nat) (tier_width min_class : Z) (c : Counters) (segs : list Segment)
  : Z * list Segment * Counters :=
  match fuel with
  | O => (0, segs, c)
  | S fuel =>
      if Z.of_nat (length segs) <? tier_width then (0, segs, c)
      else
        match target_class tier_width min_class segs with
        | None => (0, segs, c)
        | Some class =>
            let '(keep, flakes) := take_class tier_width class 0 segs in
            let '(merged, c) := chunked c flakes true in
            let '(merges, segs, c) := compact_loop fuel tier_width (class + 1) c (keep ++ merged) in
            (merges + 1, segs, c)
        end
  end.

(** Classes are at most 64, so at most 65 passes. *)
Definition MAX_PASSES : nat := 66.
Definition tier_compact_graph (tier_width : Z) (c : Counters) (segs : list Segment)
  : Z * list Segment * Counters :=
  compact_loop MAX_PASSES tier_width 0 c segs.

Fixpoint compact_slots (tier_width : Z) (c : Counters) (slots : list (option (list Segment)))
  : Z * list (option (list Segment)) * Counters :=
  match slots with
  | [] => (0, [], c)
  | None :: slots =>
      let '(merges, slots, c) := compact_slots tier_width c slots in (merges, None :: slots, c)
  | Some segs :: slots =>
      let '(n, segs, c) := tier_compact_graph tier_width c segs in
      let '(merges, slots, c) := compact_slots tier_width c slots in
      (n + merges, Some segs :: slots, c)
  end.

Definition tier_compact (c : Counters) (nv : Novelty) (tier_width : Z) : Z * (Novelty * Counters) :=
  if tier_width <? 2 then (0, (nv, c))
  else
    let '(merges, slots, c) := compact_slots tier_width c (nv_graphs nv) in
    let nv := set_graphs slots nv in
    if 0 <? merges then (merges, bump_epoch c (recompute_totals nv)) else (merges, (nv, c)).

Definition needs_tier_compaction (nv : Novelty) (tier_width : Z) : bool :=
  if tier_width <? 2 then false
  else existsb (λ segs, (tier_width <=? Z.of_nat (length segs))
                 && existsb (λ class, tier_width <=? class_count tier_width class segs)
                      (seg_class tier_width <$> segs)) (omap id (nv_graphs nv)).
End operations.
