(* ===== verification/NoveltyReads.v ===== *)
(** * The invariant of the overlay, and its reads *)

From S2P Require Import Prelude Text CommitWire CommitOp Ordering FlakeOrder FlakeTheorems.
From S2P Require Import NoveltySegment NoveltyMerge NoveltyFacts Novelty.
#[local] Open Scope Z_scope.

Section reads.
Context `{VO : ValueOrd} {AO : AttachmentOverlay} `{SO : Sorting} `{HI : HashIteration}.
Implicit Types nv : Novelty.

(** The flakes a graph holds. *)
Definition seg_union (segs : list Segment) : list Flake := concat (seg_flakes <$> segs).
Definition graph_flakes nv (g : Z) : list Flake := seg_union (segments nv g).

(** ** The invariant *)

Definition segs_ok (segs : list Segment) : Prop :=
  segs ≠ [] ∧ Forall seg_ok segs ∧ Z.of_nat (length segs) <= MAX_SEGMENTS.
Definition slot_ok (slot : option (list Segment)) : Prop :=
  match slot with Some segs => segs_ok segs | None => True end.

Record novelty_ok nv : Prop := {
  no_slots : Forall slot_ok (nv_graphs nv);
  no_size : nv_size nv = foldl (λ acc s, acc + seg_size s) 0 (all_segments (nv_graphs nv));
  no_count : nv_flake_count nv = foldl (λ acc s, acc + seg_len s) 0 (all_segments (nv_graphs nv));
}.

Lemma slot_get_ok graphs g segs : Forall slot_ok graphs → slot_get graphs g = Some segs → segs_ok segs.
Proof.
  intros Hs. unfold slot_get. destruct (graphs !! Z.to_nat g) as [[segs'|]|] eqn:E; try done.
  intros [= ->]. exact (Forall_lookup_1 _ _ _ _ Hs E).
Qed.

Lemma segments_ok nv g : novelty_ok nv →
  Forall seg_ok (segments nv g) ∧ Z.of_nat (length (segments nv g)) <= MAX_SEGMENTS.
Proof.
  intros Hn. unfold segments. destruct (slot_get (nv_graphs nv) g) as [segs|] eqn:E; simpl.
  - by eapply slot_get_ok in E as (_ & ? & ?); [|apply Hn].
  - split; [done|]. by vm_compute.
Qed.

(** ** Streams *)

Definition range_of (index : IndexType) (b : bounds) (f : Flake) : bool :=
  let '(first, rhs, leftmost) := b in in_range index first rhs leftmost f.
Definition bounds_ok (b : bounds) : Prop := bound_ok b.1.1 ∧ bound_ok b.1.2.

Lemma items_flakes g st : snd <$> items g st = stream_flakes st.
Proof.
  unfold items, stream_flakes. induction (st_order st) as [|i ids IH]; [done|]. csimpl.
  unfold item_of at 1. destruct (flake_at (st_flakes st) i) as [f|]; csimpl; by rewrite IH.
Qed.

Lemma range_sublist seg index first rhs leftmost i :
  i ∈ range seg index first rhs leftmost → i ∈ order seg index.
Proof.
  unfold range. case_match; [by intros ?%elem_of_nil|].
  intros (j & Hj)%list_elem_of_lookup. apply list_elem_of_lookup. rewrite lookup_take_Some, lookup_drop in Hj.
  destruct Hj as [Hj _]. eauto.
Qed.

Lemma range_in_range seg index first rhs leftmost i : seg_ok seg →
  i ∈ range seg index first rhs leftmost →
  0 <= i < seg_len seg ∧ ∃ f, flake_at (seg_flakes seg) i = Some f ∧ flake_ordered f.
Proof.
  intros Hs Hi%range_sublist. rewrite (so_perm seg Hs) in Hi. apply elem_of_seqZ in Hi.
  split; [unfold seg_len; lia|]. destruct (lookup_lt_is_Some_2 (seg_flakes seg) (Z.to_nat i)) as [f Hf]; [lia|].
  exists f. split; [done|]. by eapply Forall_lookup_1 in Hf; [|apply (so_ordered seg Hs)].
Qed.

Definition stream_for (index : IndexType) (b : bounds) (seg_idx : Z) (seg : Segment) : option MergeStream :=
  let '(first, rhs, leftmost) := b in
  if negb (may_overlap seg index first rhs leftmost) then None
  else match range seg index first rhs leftmost with
       | [] => None
       | order => Some (mkStream seg_idx order (seg_flakes seg))
       end.

Lemma streams_of_alt index b segs :
  streams_of index b segs = omap (λ '(i, seg), stream_for index b i seg) (imap (λ i seg, (Z.of_nat i, seg)) segs).
Proof. destruct b as [[first rhs] leftmost]. apply omap_ext_eq. by intros [i seg]. Qed.

(** A stream carries what its segment has in the range; a segment without one
    has nothing there. *)
Lemma stream_for_spec index b i seg : seg_ok seg → bounds_ok b →
  match stream_for index b i seg with
  | Some st => stream_ok index st ∧ st_seg_idx st = i ∧ st_flakes st = seg_flakes seg
      ∧ Forall (λ local, 0 <= local < seg_len seg) (st_order st)
      ∧ stream_flakes st ≡ₚ filter (λ f, range_of index b f = true) (seg_flakes seg)
  | None => filter (λ f, range_of index b f = true) (seg_flakes seg) = []
  end.
Proof.
  destruct b as [[first rhs] leftmost]. intros Hs [Hf Hr]; simpl in *.
  pose proof (range_flakes_spec seg index first rhs leftmost Hs Hf Hr) as Hspec.
  assert (filter (λ f, in_range index first rhs leftmost f = true) (seg_list seg index) ≡ₚ
          filter (λ f, in_range index first rhs leftmost f = true) (seg_flakes seg)) as Hp
    by (by rewrite seg_list_perm).
  destruct (may_overlap seg index first rhs leftmost) eqn:Hover; simpl.
  - destruct (range seg index first rhs leftmost) as [|i0 ids] eqn:Er.
    + simpl in Hspec. rewrite <- Hspec in Hp. by apply Permutation_nil in Hp.
    + assert (∀ j, j ∈ i0 :: ids → 0 <= j < seg_len seg
        ∧ ∃ f, flake_at (seg_flakes seg) j = Some f ∧ flake_ordered f) as Hin.
      { intros j Hj. rewrite <- Er in Hj. by eapply range_in_range. }
      unfold stream_ok, stream_flakes. cbn [st_order st_flakes st_seg_idx]. rewrite Hspec.
      split_and!; try done.
      * apply Forall_forall. intros j Hj. by apply Hin.
      * apply sorted_by_filter, (so_sorted seg Hs).
      * apply Forall_forall. intros j Hj. by apply Hin.
  - apply may_overlap_sound in Hover; [|done..]. rewrite Hover in Hp. by apply Permutation_nil in Hp.
Qed.

Lemma streams_of_spec index b segs (off : nat) : Forall seg_ok segs → bounds_ok b →
  let streams := omap (λ '(i, seg), stream_for index b i seg)
                   (imap (λ i seg, (Z.of_nat (off + i), seg)) segs) in
  Forall (stream_ok index) streams ∧
  concat (stream_flakes <$> streams) ≡ₚ filter (λ f, range_of index b f = true) (seg_union segs) ∧
  Forall (λ st, ∃ i seg, segs !! i = Some seg ∧ st_seg_idx st = Z.of_nat (off + i)
    ∧ st_flakes st = seg_flakes seg ∧ Forall (λ local, 0 <= local < seg_len seg) (st_order st)) streams.
Proof.
  intros Hs Hb. revert off. induction Hs as [|seg segs Hseg Hs IH]; intros off; [done|].
  csimpl. specialize (IH (S off)). cbn zeta in IH.
  rewrite (imap_ext _ (λ i seg, (Z.of_nat (S off + i), seg)) segs)
    by (intros; simpl; do 2 f_equal; lia).
  destruct IH as (IH1 & IH2 & IH3). set (rest := omap _ _) in *.
  assert (seg_union (seg :: segs) = seg_flakes seg ++ seg_union segs) as -> by done.
  assert (Forall (λ st, ∃ i seg', (seg :: segs) !! i = Some seg' ∧ st_seg_idx st = Z.of_nat (off + i)
    ∧ st_flakes st = seg_flakes seg' ∧ Forall (λ local, 0 <= local < seg_len seg') (st_order st)) rest) as IH3'.
  { eapply Forall_impl; [exact IH3|]. intros st (i & seg' & Hi & Hidx & ?). exists (S i), seg'.
    split_and!; [done|rewrite Hidx; f_equal; lia|naive_solver..]. }
  rewrite filter_app. pose proof (stream_for_spec index b (Z.of_nat (off + 0)) seg Hseg Hb) as Hst.
  destruct (stream_for index b (Z.of_nat (off + 0)) seg) as [st|].
  - destruct Hst as (H1 & H2 & H3 & H4 & H5). csimpl. rewrite H5, IH2.
    split_and!; [by constructor|done|]. constructor; [|done]. exists 0%nat, seg. done.
  - rewrite Hst. done.
Qed.

(** ** Reads *)

Lemma concat_fmap_snd {A B} (l : list (list (A * B))) : concat ((λ x : list (A * B), snd <$> x) <$> l) = snd <$> concat l.
Proof. induction l as [|x l IH]; [done|]. csimpl. by rewrite fmap_app, IH. Qed.

Lemma graph_merge_spec nv g index b : novelty_ok nv → bounds_ok b →
  let items := merge_all (graph_merge nv g index b) in
  snd <$> items ≡ₚ filter (λ f, range_of index b f = true) (graph_flakes nv g) ∧
  sorted_by (compare index) (snd <$> items) ∧
  (0 <= g → Forall (λ x, get_flake nv x.1 = Some x.2) items).
Proof.
  intros Hn Hb. destruct (segments_ok nv g Hn) as [Hs Hlen]. cbn zeta. unfold graph_merge.
  rewrite streams_of_alt. destruct (streams_of_spec index b (segments nv g) 0 Hs Hb) as (Hst & Hp & Hsrc).
  simpl in Hst, Hp, Hsrc. set (streams := omap _ _) in *.
  destruct (merge_all_spec g index streams Hst) as [Hperm Hsort]. split; [|split; [done|]].
  - rewrite Hperm, <- concat_fmap_snd, <- list_fmap_compose.
    rewrite (list_fmap_ext ((λ x : list (Z * Flake), snd <$> x) ∘ items g) stream_flakes streams)
      by (intros; simpl; apply items_flakes). done.
  - intros Hg. rewrite Hperm. apply Forall_forall.
    intros x (l & (st & -> & Hin)%list_elem_of_fmap & Hx)%elem_of_concat.
    rewrite Forall_forall in Hsrc. destruct (Hsrc st Hin) as (i & seg & Hi & Hidx & Hfl & Hrng).
    apply list_elem_of_omap in Hx as (local & Hloc & Hx). unfold item_of in Hx.
    destruct (flake_at (st_flakes st) local) as [f|] eqn:Ef; simplify_eq/=.
    rewrite Forall_forall in Hrng. specialize (Hrng local Hloc).
    assert (seg_ok seg) as Hseg by (by eapply Forall_lookup_1 in Hs).
    pose proof (so_width seg Hseg). pose proof (lookup_lt_Some _ _ _ Hi).
    destruct (flake_id_unpack g (st_seg_idx st) local) as (Eg & Es & El);
      [done|rewrite Hidx; lia|unfold seg_len in Hrng; lia|].
    unfold get_flake. rewrite Eg, Es, El. unfold segments in Hi.
    destruct (slot_get (nv_graphs nv) g) as [segs|]; [|by destruct i]. simpl in *.
    rewrite Hidx, Nat2Z.id, Hi. simpl. by rewrite <- Hfl.
Qed.

(** Every range read returns the flakes of the graph that are in the range, in
    the order of the index; the ids of the id-based reads resolve to them. *)
Lemma range_flakes_ok nv g index b : novelty_ok nv → bounds_ok b →
  range_flakes nv g index b ≡ₚ filter (λ f, range_of index b f = true) (graph_flakes nv g) ∧
  sorted_by (compare index) (range_flakes nv g index b).
Proof.
  intros Hn Hb. pose proof (graph_merge_spec nv g index b Hn Hb) as (Hp & Hs & _). cbn zeta in *.
  destruct (segments_ok nv g Hn) as [Hok _]. unfold range_flakes, graph_flakes in *.
  destruct b as [[first rhs] leftmost]. destruct Hb as [Hf Hr]; simpl in Hf, Hr.
  destruct (segments nv g) as [|seg [|seg' segs]]; [split; [done|constructor]| |done].
  apply Forall_cons in Hok as [Hseg _]. unfold seg_union. csimpl. rewrite app_nil_r.
  destruct (may_overlap seg index first rhs leftmost) eqn:Hover.
  - rewrite range_flakes_spec by done. split; [by rewrite seg_list_perm|].
    apply sorted_by_filter, (so_sorted seg Hseg).
  - split; [|constructor]. apply may_overlap_sound in Hover; [|done..].
    by rewrite <- (seg_list_perm seg index Hseg), Hover.
Qed.

Lemma slice_for_range_ok nv g index b : novelty_ok nv → bounds_ok b → 0 <= g →
  get_flake nv <$> slice_for_range nv g index b = Some <$> range_flakes nv g index b.
Proof.
  intros Hn Hb Hg. pose proof (graph_merge_spec nv g index b Hn Hb) as (_ & _ & Hids). cbn zeta in *.
  specialize (Hids Hg). destruct (segments_ok nv g Hn) as [Hok _].
  unfold slice_for_range, range_flakes. destruct b as [[first rhs] leftmost].
  assert (∀ l : list (Z * Flake), Forall (λ x, get_flake nv x.1 = Some x.2) l →
    get_flake nv <$> (fst <$> l) = Some <$> (snd <$> l)) as Hmap.
  { induction 1 as [|x l Hx Hl IH]; [done|]. csimpl. by rewrite Hx, IH. }
  destruct (segments nv g) as [|seg [|seg' segs]] eqn:Esegs; [done| |by apply Hmap].
  apply Forall_cons in Hok as [Hseg _]. destruct (may_overlap _ _ _ _ _); [|done].
  assert (∀ i, i ∈ range seg index first rhs leftmost →
    ∃ f, flake_at (seg_flakes seg) i = Some f ∧ get_flake nv (flake_id_pack g 0 i) = Some f) as Hin.
  { intros i Hi. destruct (range_in_range _ _ _ _ _ _ Hseg Hi) as (Hrng & f & Hf & _). exists f.
    split; [done|]. pose proof (so_width seg Hseg). unfold seg_len in Hrng.
    destruct (flake_id_unpack g 0 i) as (Eg & Es & El); [done|done|lia|].
    unfold get_flake. rewrite Eg, Es, El. unfold segments in Esegs.
    destruct (slot_get (nv_graphs nv) g) as [l|]; [|done]. simpl in Esegs. by rewrite Esegs. }
  induction (range seg index first rhs leftmost) as [|i ids IH]; [done|]. csimpl.
  destruct (Hin i) as (f & Hf & Hget); [by left|]. rewrite Hf, Hget. csimpl. f_equal.
  apply IH. intros j Hj. apply Hin. by right.
Qed.

(** A whole scan of a graph. *)
Lemma all_bounds_ok : bounds_ok all_bounds.
Proof. by split. Qed.

Lemma filter_all_bounds index (l : list Flake) : filter (λ f, range_of index all_bounds f = true) l = l.
Proof. apply list_filter_id, Forall_forall. done. Qed.
End reads.
