(* ===== verification/NoveltyApply.v ===== *)
(** * Applying a commit: what it keeps and what it preserves *)

From S2P Require Import Prelude Text CommitWire CommitOp Ordering FlakeOrder FlakeTheorems.
From S2P Require Import NoveltySegment NoveltyMerge NoveltyFacts Novelty.
From S2P Require Import Novelty NoveltyReads.
#[local] Open Scope Z_scope.

(** ** Sums and slots *)

Definition zsum {A} (f : A → Z) (l : list A) : Z := foldl (λ acc x, acc + f x) 0 l.

Lemma zsum_acc {A} (f : A → Z) l a : foldl (λ acc x, acc + f x) a l = a + zsum f l.
Proof.
  unfold zsum. revert a. induction l as [|x l IH]; intros a; cbn [foldl]; [lia|].
  rewrite (IH (a + f x)), (IH (0 + f x)). lia.
Qed.
Lemma zsum_cons {A} (f : A → Z) x l : zsum f (x :: l) = f x + zsum f l.
Proof. unfold zsum at 1. simpl. by rewrite zsum_acc. Qed.
#[export] Instance zsum_proper {A} (f : A → Z) : Proper ((≡ₚ) ==> (=)) (zsum f).
Proof. intros l k Hp. induction Hp; rewrite ?zsum_cons in *; lia || done. Qed.

Section slots.
Context {A : Type}.
Implicit Types l : list (option (list A)).

Lemma concat_grow l g : concat (omap id (slot_grow l g)) = concat (omap id l).
Proof.
  unfold slot_grow. rewrite omap_app, concat_app.
  assert (∀ n, concat (omap id (replicate n (@None (list A)))) = []) as -> by (by induction n).
  by rewrite app_nil_r.
Qed.

(** Replacing a slot replaces its part of the concatenation. *)
Lemma concat_slot_set l g v : 0 <= g →
  concat (omap id (slot_set l g v)) ++ default [] (slot_get l g) ≡ₚ concat (omap id l) ++ default [] v.
Proof.
  intros Hg. rewrite <- (concat_grow l g), <- (slot_get_grow l g g). unfold slot_set, slot_get.
  destruct (lookup_lt_is_Some_2 (slot_grow l g) (Z.to_nat g)) as [o Ho].
  { unfold slot_grow. rewrite length_app, length_replicate. lia. }
  rewrite Ho. simpl. apply list_elem_of_split_length in Ho as (l1 & l2 & E & Hi). rewrite E, Hi.
  rewrite insert_app_r_alt, Nat.sub_diag by lia. simpl. rewrite !omap_app, !concat_app. csimpl.
  assert (∀ o : option (list A), concat (match o with Some b => b :: omap id l2 | None => omap id l2 end)
    = default [] o ++ concat (omap id l2)) as Ec by (by intros []).
  change (id v) with v. change (id o) with o. rewrite !Ec.
  destruct v as [v|], o as [o|]; simpl; solve_Permutation.
Qed.

Lemma Forall_slot_set (P : option (list A) → Prop) l g v :
  P None → P v → Forall P l → Forall P (slot_set l g v).
Proof.
  intros Hn Hv Hl. unfold slot_set, slot_grow. apply Forall_insert; [|done].
  apply Forall_app. split; [done|]. by apply Forall_replicate.
Qed.
End slots.

Section hash.
Context `{HI : HashIteration}.

(** The entry of one key among the iterated ones. *)
Lemma hash_iter_key {V} (m : gmap Z V) g :
  filter (λ e, e.1 = g) (hash_iter m) = match m !! g with Some v => [(g, v)] | None => [] end.
Proof.
  assert (filter (λ e, e.1 = g) (hash_iter m)
    ≡ₚ match m !! g with Some v => [(g, v)] | None => [] end) as Hp.
  { rewrite hash_iter_perm. destruct (m !! g) as [v|] eqn:E.
    - rewrite <- (insert_delete_id m g v E) at 1. rewrite map_to_list_insert by apply lookup_delete_eq.
      rewrite filter_cons_True by done. f_equiv. apply reflexive_eq, list_filter_none, Forall_forall.
      intros [k w] Hk%elem_of_map_to_list; simpl. intros ->. by rewrite lookup_delete_eq in Hk.
    - apply reflexive_eq, list_filter_none, Forall_forall. intros [k w] Hk%elem_of_map_to_list; simpl.
      intros ->. congruence. }
  destruct (m !! g) as [v|].
  - by apply Permutation_singleton_r in Hp.
  - by apply Permutation_nil_r in Hp.
Qed.

Lemma elem_of_hash_iter {V} (m : gmap Z V) g v : (g, v) ∈ hash_iter m ↔ m !! g = Some v.
Proof. rewrite hash_iter_perm. apply elem_of_map_to_list. Qed.

Lemma NoDup_hash_iter {V} (m : gmap Z V) : NoDup (hash_iter m).*1.
Proof. rewrite hash_iter_perm. apply NoDup_fst_map_to_list. Qed.
End hash.

(** The flakes of one graph in a list of batches. *)
Definition batch_of `{CoreValues} (g : Z) (batches : list (Z * list Flake)) : list Flake :=
  concat (snd <$> filter (λ e, e.1 = g) batches).

Lemma batch_of_cons `{CoreValues} g h batch batches :
  batch_of g ((h, batch) :: batches) = (if decide (h = g) then batch else []) ++ batch_of g batches.
Proof. unfold batch_of. rewrite filter_cons. simpl. by case_decide. Qed.

Section apply.
Context `{VO : ValueOrd} {AO : AttachmentOverlay} `{SO : Sorting} `{HI : HashIteration}.
Implicit Types nv : Novelty.

Lemma batch_of_hash (m : gmap Z (list Flake)) g : batch_of g (hash_iter m) = default [] (m !! g).
Proof.
  unfold batch_of. rewrite hash_iter_key. destruct (m !! g); csimpl; [|done]. by rewrite app_nil_r.
Qed.

(** ** Facts *)

(** The fact index says of every fact what the flakes of its graph say. *)
Definition facts_exact nv : Prop :=
  facts_ordered (nv_fact_state nv) ∧
  ∀ g x, 0 <= g → flake_ordered x →
    fact_get (nv_fact_state nv) g x = latest (same_fact x (graph_flakes nv g)).

Definition batches_ok (batches : list (Z * list Flake)) : Prop :=
  Forall (λ e, 0 <= e.1 ∧ Forall flake_ordered e.2) batches.

Lemma record_graphs_ordered fs batches :
  batches_ok batches → facts_ordered fs → facts_ordered (record_graphs fs batches).
Proof.
  intros Hb. revert fs. induction Hb as [|[g batch] batches [Hg Ho] Hb IH]; intros fs Hfs; [done|].
  apply IH. by apply record_all_ordered.
Qed.

Lemma record_graphs_get fs batches h x :
  batches_ok batches → 0 <= h → flake_ordered x → facts_ordered fs →
  fact_get (record_graphs fs batches) h x
  = foldl latest_step (fact_get fs h x) (same_fact x (batch_of h batches)).
Proof.
  intros Hb Hh Hx. revert fs. induction Hb as [|[g batch] batches [Hg Ho] Hb IH]; intros fs Hfs; [done|].
  simpl in Hg, Ho. cbn [record_graphs foldl]. fold (record_graphs (record_all fs g batch) batches).
  rewrite IH by (by apply record_all_ordered). rewrite record_all_get by done.
  rewrite batch_of_cons. unfold same_fact. rewrite filter_app, foldl_app. by case_decide.
Qed.

(** Recording what a graph gains keeps the index exact. *)
Lemma latest_app x old new :
  foldl latest_step (latest (same_fact x old)) (same_fact x new) = latest (same_fact x (old ++ new)).
Proof. unfold latest, same_fact. by rewrite filter_app, foldl_app. Qed.

(** ** Pushing segments *)

Lemma segments_push g seg nv h : 0 <= g → 0 <= h →
  segments (push_segment g seg nv) h = if decide (g = h) then segments nv h ++ [seg] else segments nv h.
Proof.
  intros Hg Hh. unfold segments. simpl. rewrite slot_get_set by done. by case_decide as E; [subst|].
Qed.

Lemma push_segment_ok g seg nv : 0 <= g → seg_ok seg → segment_count nv g + 1 <= MAX_SEGMENTS →
  novelty_ok nv → novelty_ok (push_segment g seg nv).
Proof.
  intros Hg Hseg Hcap Hn. destruct (segments_ok nv g Hn) as [Hs _]. destruct Hn as [Hslots Hsize Hcount].
  assert (all_segments (slot_set (nv_graphs nv) g (Some (segments nv g ++ [seg])))
    ≡ₚ seg :: all_segments (nv_graphs nv)) as Hp.
  { pose proof (concat_slot_set (nv_graphs nv) g (Some (segments nv g ++ [seg])) Hg) as Hp. simpl in Hp.
    fold (segments nv g) in Hp. apply (Permutation_app_inv_r (segments nv g)).
    unfold all_segments. rewrite Hp. solve_Permutation. }
  constructor; simpl.
  - apply Forall_slot_set; [done| |done]. split; [by destruct (segments nv g)|].
    split; [by apply Forall_app; split; [|constructor]|]. rewrite length_app; simpl. unfold segment_count in Hcap. lia.
  - fold (zsum seg_size (all_segments (slot_set (nv_graphs nv) g (Some (segments nv g ++ [seg]))))).
    rewrite Hp, zsum_cons. rewrite Hsize. unfold zsum. lia.
  - fold (zsum seg_len (all_segments (slot_set (nv_graphs nv) g (Some (segments nv g ++ [seg]))))).
    rewrite Hp, zsum_cons. rewrite Hcount. unfold zsum. lia.
Qed.

Lemma push_batches_cons c g f batch batches nv :
  push_batches c ((g, f :: batch) :: batches) nv
  = push_batches (snd (new_segment c (f :: batch) false)) batches
      (push_segment g (fst (new_segment c (f :: batch) false)) nv).
Proof. done. Qed.

Definition pushable nv (batches : list (Z * list Flake)) : Prop :=
  Forall (λ e, 0 <= e.1 ∧ e.2 ≠ [] ∧ Z.of_nat (length e.2) <= MAX_SEGMENT_FLAKES
               ∧ Forall flake_ordered e.2 ∧ segment_count nv e.1 + 1 <= MAX_SEGMENTS) batches.

Lemma push_batches_ok c batches nv :
  novelty_ok nv → NoDup batches.*1 → pushable nv batches →
  let nv' := fst (push_batches c batches nv) in
  novelty_ok nv' ∧ nv_fact_state nv' = nv_fact_state nv ∧ nv_t nv' = nv_t nv
  ∧ ∀ h, 0 <= h → graph_flakes nv' h = graph_flakes nv h ++ batch_of h batches.
Proof.
  cbn zeta. revert c nv. induction batches as [|[g batch] batches IH]; intros c nv Hn Hnd Hpush.
  { split_and!; [done..|]. intros h _. by rewrite app_nil_r. }
  apply Forall_cons in Hpush as [(Hg & Hne & Hw & Ho & Hcap) Hpush]. simpl in *.
  destruct batch as [|f batch]; [done|]. apply NoDup_cons in Hnd as [Hg' Hnd].
  fold (push_batches c ((g, f :: batch) :: batches) nv). rewrite push_batches_cons.
  set (seg := fst (new_segment c (f :: batch) false)). set (c' := snd _).
  assert (seg_ok seg) as Hseg by (by apply build_ok).
  assert (∀ h, 0 <= h → h ≠ g → segments (push_segment g seg nv) h = segments nv h) as Hother.
  { intros h Hh Hne'. rewrite segments_push by done. by rewrite decide_False. }
  destruct (IH c' (push_segment g seg nv)) as (H1 & H2 & H3 & H4); [by apply push_segment_ok|done| |].
  { unfold pushable. rewrite Forall_forall in Hpush |- *. intros [h b] Hin. destruct (Hpush _ Hin) as (? & ? & ? & ? & ?).
    split_and!; try done. unfold segment_count in *. simpl in *. rewrite Hother; [done|done|].
    intros ->. apply Hg'. apply list_elem_of_fmap. by exists (g, b). }
  split_and!; [done|by rewrite H2|by rewrite H3|]. intros h Hh. rewrite H4, batch_of_cons by done.
  rewrite app_assoc. f_equal. unfold graph_flakes. rewrite segments_push by done.
  case_decide; [|by rewrite app_nil_r]. unfold seg_union. rewrite fmap_app, concat_app. csimpl.
  subst seg. simpl. by rewrite build_flakes, app_nil_r.
Qed.

(** ** What a commit keeps *)

(** The flakes of a commit that belong to a graph. *)
Definition goes_to (reverse_graph : Sid → option Z) (g : Z) (f : Flake) : bool :=
  match resolve_flake_g_id reverse_graph f with inr h => h =? g | inl _ => false end.
Definition routed_to (reverse_graph : Sid → option Z) (g : Z) (flakes : list Flake) : list Flake :=
  filter (λ f, goes_to reverse_graph g f = true) flakes.

(** Whether a fact holds after the flakes of its graph. *)
Definition asserted_in (flakes : list Flake) (f : Flake) : bool :=
  match latest (same_fact f flakes) with Some (_, op) => op | None => false end.

(** Set semantics: what a graph that holds [old] gains from [new]. *)
Definition set_keep (old new : list Flake) : list Flake :=
  filter (λ f, (f_op f && asserted_in old f) = false) new.

Lemma route_spec reverse_graph flakes routed :
  route reverse_graph flakes = inr routed →
  routed.*1 = flakes ∧ Forall (λ e, resolve_flake_g_id reverse_graph e.1 = inr e.2) routed.
Proof.
  revert routed. induction flakes as [|f flakes IH]; simpl; intros routed; [by intros [= <-]|].
  destruct (resolve_flake_g_id reverse_graph f) as [|g] eqn:E; [done|].
  destruct (route reverse_graph flakes) as [|l]; [done|]. intros [= <-].
  destruct (IH l eq_refl) as [<- ?]. csimpl. by split; [|constructor].
Qed.

Definition kept_for (fs : FactState) (g : Z) (routed : list (Flake * Z)) : list Flake :=
  (filter (λ e, e.2 = g ∧ (f_op e.1 && is_asserted fs e.2 e.1) = false) routed).*1.

Lemma keep_loop_spec fs b routed g :
  per_graph (keep_loop fs b routed) !! g
  = match kept_for fs g routed with [] => None | l => Some l end.
Proof.
  unfold keep_loop. induction routed as [|[f h] routed IH] using rev_ind; [done|].
  rewrite foldl_app; cbn [foldl]. set (k := foldl _ _ routed) in *.
  unfold kept_for. rewrite filter_app, fmap_app. fold (kept_for fs g routed).
  rewrite filter_cons, filter_nil. unfold keep_step. simpl.
  destruct (f_op f && is_asserted fs h f) eqn:E.
  - rewrite decide_False by naive_solver. csimpl. by rewrite app_nil_r.
  - destruct (decide (h = g)) as [->|Hne].
    + rewrite decide_True by done. csimpl. rewrite lookup_insert_eq, IH.
      destruct (kept_for fs g routed); done.
    + rewrite decide_False by naive_solver. csimpl. by rewrite lookup_insert_ne, app_nil_r.
Qed.

Lemma is_asserted_exact nv g f : facts_exact nv → 0 <= g → flake_ordered f →
  is_asserted (nv_fact_state nv) g f = asserted_in (graph_flakes nv g) f.
Proof. intros [_ Hf] Hg Ho. unfold is_asserted, asserted_in. by rewrite Hf. Qed.

Definition routes_ok (reverse_graph : Sid → option Z) : Prop :=
  ∀ s g, reverse_graph s = Some g → 0 <= g.

Lemma resolve_nonneg reverse_graph f g :
  routes_ok reverse_graph → resolve_flake_g_id reverse_graph f = inr g → 0 <= g.
Proof.
  intros Hr. unfold resolve_flake_g_id. destruct (f_g f) as [s|]; [|by intros [= <-]].
  destruct (reverse_graph s) eqn:E; [|done]. intros [= <-]. by eapply Hr.
Qed.

Lemma kept_for_exact nv reverse_graph flakes routed g :
  facts_exact nv → routes_ok reverse_graph → 0 <= g → Forall flake_ordered flakes →
  route reverse_graph flakes = inr routed →
  kept_for (nv_fact_state nv) g routed
  = set_keep (graph_flakes nv g) (routed_to reverse_graph g flakes).
Proof.
  intros Hf Hr Hg Ho [<- Hroute]%route_spec. unfold kept_for, set_keep, routed_to.
  induction Hroute as [|[f h] routed Hres Hroute IH]; [done|]. csimpl in Ho.
  apply Forall_cons in Ho as [Of Ho]. simpl in Hres. csimpl. rewrite !filter_cons. simpl.
  assert (goes_to reverse_graph g f = (h =? g)) as Eg by (unfold goes_to; by rewrite Hres).
  destruct (Z.eqb_spec h g) as [->|Hne].
  - rewrite (decide_True (P := goes_to _ _ _ = true)) by done. rewrite filter_cons.
    rewrite is_asserted_exact by done. destruct (f_op f && _) eqn:E.
    + rewrite (decide_False (P := _ ∧ _)) by naive_solver. by rewrite decide_False, IH.
    + rewrite (decide_True (P := _ ∧ _)) by done. rewrite decide_True by done. csimpl. by rewrite IH.
  - rewrite (decide_False (P := _ ∧ _)) by naive_solver.
    rewrite (decide_False (P := goes_to _ _ _ = true)) by (by rewrite Eg). by rewrite IH.
Qed.

Lemma check_capacities_spec nv checked gs checked' :
  check_capacities nv checked gs = inr checked' →
  Forall (λ g, g ∈ checked ∨ check_segment_capacity nv g = None) gs.
Proof.
  revert checked. induction gs as [|g gs IH]; intros checked; simpl; [constructor|].
  case_decide as Hg; [intros H'%IH; by constructor; [left|]|].
  destruct (check_segment_capacity nv g) eqn:E; [done|]. intros H'%IH. constructor; [by right|].
  eapply Forall_impl; [exact H'|]. intros h [[->%elem_of_singleton|?]%elem_of_union|?]; auto.
Qed.

(** [can_apply] and [apply_commit] check the same. *)
Lemma can_apply_loop_spec nv reverse_graph checked flakes :
  can_apply_loop nv reverse_graph checked flakes = None ↔
  ∃ routed checked', route reverse_graph flakes = inr routed
    ∧ check_capacities nv checked (snd <$> routed) = inr checked'.
Proof.
  revert checked. induction flakes as [|f flakes IH]; intros checked; simpl; [naive_solver|].
  destruct (resolve_flake_g_id reverse_graph f) as [e|g]; [naive_solver|].
  assert ((∃ routed checked', match route reverse_graph flakes with
                        | inl e => inl e
                        | inr routed => inr ((f, g) :: routed)
                        end = inr routed ∧
                        check_capacities nv checked (snd <$> routed) = inr checked') ↔
    (∃ routed checked', route reverse_graph flakes = inr routed ∧
       check_capacities nv checked (g :: (snd <$> routed)) = inr checked')) as ->.
  { destruct (route reverse_graph flakes) as [e|l]; [naive_solver|].
    split; intros (? & ? & [= <-] & ?); eauto. }
  simpl. case_decide; [apply IH|]. destruct (check_segment_capacity nv g); [naive_solver|]. apply IH.
Qed.

(** ** Applying a commit *)

(** The invariant is about segments and totals alone. *)
Definition same_segments nv nv' : Prop :=
  nv_graphs nv' = nv_graphs nv ∧ nv_size nv' = nv_size nv ∧ nv_flake_count nv' = nv_flake_count nv.

Lemma same_segments_ok nv nv' : same_segments nv nv' → novelty_ok nv → novelty_ok nv'.
Proof. intros (Eg & Es & Ec) [H1 H2 H3]. constructor; by rewrite ?Eg, ?Es, ?Ec. Qed.

Lemma graph_flakes_ext nv nv' g : nv_graphs nv' = nv_graphs nv → graph_flakes nv' g = graph_flakes nv g.
Proof. intros E. unfold graph_flakes, segments. by rewrite E. Qed.

Lemma kept_for_in fs g routed f : f ∈ kept_for fs g routed → (f, g) ∈ routed.
Proof.
  unfold kept_for. intros ([f' h] & -> & [[Hg _] Hin]%list_elem_of_filter)%list_elem_of_fmap.
  simpl in *. by subst.
Qed.

Lemma kept_for_length fs g routed : (length (kept_for fs g routed) <= length routed)%nat.
Proof. unfold kept_for. rewrite length_fmap. apply length_filter. Qed.

Lemma kept_pushable nv reverse_graph flakes routed checked b :
  routes_ok reverse_graph → Forall flake_ordered flakes → batch_too_large flakes = false →
  route reverse_graph flakes = inr routed → check_capacities nv ∅ (snd <$> routed) = inr checked →
  pushable nv (hash_iter (per_graph (keep_loop (nv_fact_state nv) b routed))).
Proof.
  intros Hr Ho Hlarge [<- Hres]%route_spec Hcap%check_capacities_spec.
  apply Z.ltb_ge in Hlarge. apply Forall_forall. intros [g batch] Hin%elem_of_hash_iter; simpl.
  rewrite keep_loop_spec in Hin.
  pose proof (kept_for_length (nv_fact_state nv) g routed) as Hlen.
  pose proof (λ f, kept_for_in (nv_fact_state nv) g routed f) as Hfrom.
  destruct (kept_for _ g routed) as [|f l]; [done|]. injection Hin as <-.
  assert ((f, g) ∈ routed) as Hfg by (apply Hfrom; by left).
  split_and!; try done.
  - rewrite Forall_forall in Hres. eapply resolve_nonneg; [done|]. apply (Hres _ Hfg).
  - rewrite length_fmap in Hlarge. lia.
  - rewrite Forall_forall in Ho |- *. intros x Hx. apply Ho. apply list_elem_of_fmap.
    exists (x, g). split; [done|]. by apply Hfrom.
  - rewrite Forall_forall in Hcap. destruct (Hcap g) as [?|Hc]; [|set_solver|].
    + apply list_elem_of_fmap. by exists (f, g).
    + unfold check_segment_capacity in Hc. destruct (Z.ltb_spec MAX_SEGMENTS (segment_count nv g + 1)); [done|lia].
Qed.

Lemma apply_commit_spec c nv flakes commit_t reverse_graph :
  novelty_ok nv → facts_exact nv → routes_ok reverse_graph → Forall flake_ordered flakes →
  match apply_commit c nv flakes commit_t reverse_graph with
  | (Some _, (nv', c')) => nv' = nv ∧ c' = c
  | (None, (nv', _)) =>
      novelty_ok nv' ∧ facts_exact nv'
      ∧ (∀ g, 0 <= g → graph_flakes nv' g
           = graph_flakes nv g ++ set_keep (graph_flakes nv g) (routed_to reverse_graph g flakes))
      ∧ nv_t nv' = match flakes with [] => nv_t nv | _ => Z.max (nv_t nv) commit_t end
  end.
Proof.
  intros Hn Hf Hr Ho. unfold apply_commit. destruct flakes as [|f0 fs] eqn:Efl.
  { split_and!; [done..| |done]. intros g _. by rewrite app_nil_r. }
  rewrite <- Efl in *. clear f0 fs Efl.
  destruct (batch_too_large flakes) eqn:Hlarge; [done|].
  destruct (route reverse_graph flakes) as [e|routed] eqn:Hroute; [done|].
  destruct (check_capacities nv ∅ (snd <$> routed)) as [e|checked] eqn:Hcap; [done|].
  cbn beta iota zeta delta [bump_epoch].
  set (nv0 := if decide (CONFIG_GRAPH_ID ∈ checked) then _ else _).
  assert (same_segments nv nv0 ∧ nv_fact_state nv0 = nv_fact_state nv ∧ nv_t nv0 = Z.max (nv_t nv) commit_t)
    as ((Eg & Es & Ec) & Efs & Et) by (unfold nv0; by case_decide).
  clearbody nv0. rewrite Efs. set (k := keep_loop (nv_fact_state nv) (nv_has_list_meta nv0) routed).
  set (batches := hash_iter (per_graph k)).
  set (nv1 := match accepted_reifies k with [] => _ | _ => _ end).
  assert (same_segments nv nv1 ∧ nv_fact_state nv1 = record_graphs (nv_fact_state nv) batches
    ∧ nv_t nv1 = Z.max (nv_t nv) commit_t) as (Hsame & Efs1 & Et1).
  { unfold nv1, same_segments. destruct (accepted_reifies k); simpl; by rewrite ?Efs. }
  clearbody nv1.
  assert (∀ g, segment_count nv1 g = segment_count nv g) as Ecount.
  { intros g. unfold segment_count, segments. by rewrite (proj1 Hsame). }
  assert (pushable nv batches) as Hpush by (by eapply kept_pushable).
  assert (pushable nv1 batches) as Hpush1.
  { eapply Forall_impl; [exact Hpush|]. intros e. by rewrite Ecount. }
  destruct (push_batches_ok (mkCounters (next_seg_id c) (next_version c +u64 1)) batches nv1)
    as (H1 & H2 & H3 & H4); [by apply (same_segments_ok nv)|apply NoDup_hash_iter|done|].
  destruct (push_batches _ batches nv1) as [nv' c'] eqn:Epush. simpl in *.
  assert (∀ g, 0 <= g → batch_of g batches
    = set_keep (graph_flakes nv g) (routed_to reverse_graph g flakes)) as Hbatch.
  { intros g Hg. unfold batches. rewrite batch_of_hash. unfold k. rewrite keep_loop_spec.
    rewrite <- (kept_for_exact nv reverse_graph flakes routed g) by done.
    by destruct (kept_for _ _ _). }
  assert (∀ g, 0 <= g → graph_flakes nv' g = graph_flakes nv g ++ batch_of g batches) as Hgf.
  { intros g Hg. rewrite H4 by done. by rewrite (graph_flakes_ext nv nv1 g (proj1 Hsame)). }
  assert (batches_ok batches) as Hbok.
  { eapply Forall_impl; [exact Hpush|]. by intros e (? & _ & _ & ? & _). }
  destruct Hf as [Hford Hfex]. split; [done|]. split; [split|split].
  - rewrite H2, Efs1. by apply record_graphs_ordered.
  - intros g x Hg Hx. rewrite H2, Efs1, record_graphs_get, Hfex, latest_app by done. by rewrite Hgf.
  - intros g Hg. by rewrite Hgf, Hbatch.
  - rewrite H3, Et1. destruct flakes; [|done]. done.
Qed.

(** The check a caller makes first decides whether the commit applies. *)
Lemma can_apply_iff c nv flakes commit_t reverse_graph :
  flakes ≠ [] →
  can_apply nv flakes reverse_graph = None ↔ fst (apply_commit c nv flakes commit_t reverse_graph) = None.
Proof.
  intros Hne. unfold can_apply, apply_commit. destruct flakes as [|f fs] eqn:E; [done|]. rewrite <- E.
  destruct (batch_too_large flakes); [done|]. rewrite can_apply_loop_spec.
  destruct (route reverse_graph flakes) as [e|routed]; [naive_solver|].
  destruct (check_capacities nv ∅ (snd <$> routed)) as [e|checked] eqn:Ec.
  - split; [|done]. intros (? & ? & [= <-] & ?). congruence.
  - cbn beta iota zeta delta [bump_epoch fst]. split; [done|]. intros _. eauto.
Qed.
End apply.
