(* ===== verification/NoveltyCompact.v ===== *)
(** * Clearing and compacting: what they preserve *)

From S2P Require Import Prelude Text CommitWire CommitOp Ordering FlakeOrder FlakeTheorems.
From S2P Require Import NoveltySegment NoveltyMerge NoveltyFacts Novelty.
From S2P Require Import Novelty NoveltyReads NoveltyApply.
#[local] Open Scope Z_scope.

Section clear.
Context `{VO : ValueOrd} {AO : AttachmentOverlay} `{SO : Sorting} `{HI : HashIteration}.
Implicit Types nv : Novelty.

Lemma recompute_totals_ok nv : Forall slot_ok (nv_graphs nv) → novelty_ok (recompute_totals nv).
Proof. by constructor. Qed.

(** ** Clearing *)

(** [min_t] and [max_t] bound the times of a segment. *)
Lemma measure_bounds flakes a b n :
  let '(min_t, max_t, _) :=
    foldl (λ '(min_t, max_t, size) f, (Z.min min_t (f_t f), Z.max max_t (f_t f), size + size_bytes f))
          (a, b, n) flakes in
  min_t <= a ∧ b <= max_t ∧ Forall (λ f, min_t <= f_t f <= max_t) flakes.
Proof.
  revert a b n. induction flakes as [|f flakes IH]; intros a b n; simpl; [split_and!; [lia|lia|constructor]|].
  specialize (IH (Z.min a (f_t f)) (Z.max b (f_t f)) (n + size_bytes f)).
  destruct (foldl _ _ flakes) as [[min_t max_t] size]. destruct IH as (H1 & H2 & H3).
  split_and!; [lia|lia|]. constructor; [lia|done].
Qed.

Lemma seg_times seg : seg_ok seg → Forall (λ f, seg_min_t seg <= f_t f <= seg_max_t seg) (seg_flakes seg).
Proof.
  intros Hs. pose proof (measure_bounds (seg_flakes seg) i64_max i64_min 0) as Hm.
  fold (measure (seg_flakes seg)) in Hm. rewrite <- (so_measure seg Hs) in Hm. by destruct Hm as (_ & _ & ?).
Qed.

Lemma survivors_app cutoff l k : survivors cutoff (l ++ k) = survivors cutoff l ++ survivors cutoff k.
Proof. apply filter_app. Qed.

Lemma clear_segments_spec cutoff c segs : Forall seg_ok segs →
  let kept := fst (clear_segments cutoff c segs) in
  Forall seg_ok kept ∧ (length kept <= length segs)%nat
  ∧ seg_union kept = survivors cutoff (seg_union segs).
Proof.
  intros Hs. cbn zeta. revert c. induction Hs as [|seg segs Hseg Hs IH]; intros c; [done|].
  assert (seg_union (seg :: segs) = seg_flakes seg ++ seg_union segs) as -> by done.
  rewrite survivors_app. simpl. pose proof (seg_times seg Hseg) as Ht.
  destruct (Z.leb_spec (seg_max_t seg) cutoff) as [Hmax|Hmax].
  { destruct (IH c) as (? & ? & ->). split_and!; [done|simpl; lia|].
    assert (survivors cutoff (seg_flakes seg) = []) as ->; [|done].
    apply list_filter_none. eapply Forall_impl; [exact Ht|]. simpl. lia. }
  destruct (Z.ltb_spec cutoff (seg_min_t seg)) as [Hmin|Hmin].
  { specialize (IH c). destruct (clear_segments cutoff c segs) as [kept c']. destruct IH as (? & ? & E).
    simpl in *. split_and!; [by constructor|lia|].
    assert (survivors cutoff (seg_flakes seg) = seg_flakes seg) as ->.
    { apply list_filter_id. eapply Forall_impl; [exact Ht|]. simpl. lia. }
    rewrite <- E. done. }
  pose proof (after_spec (next_seg_id c) seg cutoff Hseg) as Hafter.
  destruct (after (next_seg_id c) seg cutoff) as [seg'|].
  - destruct Hafter as [Hseg' <-]. specialize (IH (mkCounters (next_seg_id c +u64 1) (next_version c))).
    destruct (clear_segments cutoff _ segs) as [kept c']. destruct IH as (? & ? & E).
    simpl in *. split_and!; [by constructor|lia|]. rewrite <- E. done.
  - rewrite Hafter. destruct (IH c) as (? & ? & ->). split_and!; [done|simpl; lia|done].
Qed.

Lemma clear_slots_spec cutoff c slots : Forall slot_ok slots →
  let slots' := fst (clear_slots cutoff c slots) in
  Forall slot_ok slots' ∧
  Forall2 (λ o o', seg_union (default [] o') = survivors cutoff (seg_union (default [] o))) slots slots'.
Proof.
  intros Hs. cbn zeta. revert c. induction Hs as [|[segs|] slots Hslot Hs IH]; intros c; simpl; [done|..].
  - destruct Hslot as (_ & Hok & Hlen).
    pose proof (clear_segments_spec cutoff c segs Hok) as Hc. cbn zeta in Hc.
    destruct (clear_segments cutoff c segs) as [kept c'] eqn:Ec. specialize (IH c').
    destruct (clear_slots cutoff c' slots) as [slots' c'']. cbn [fst] in *.
    destruct Hc as (H1 & H2 & H3), IH as [IH1 IH2].
    split; (constructor; [|done]); destruct kept as [|s kept]; try done.
    unfold slot_ok, segs_ok. split_and!; [done|done|]. lia.
  - specialize (IH c). destruct (clear_slots cutoff c slots) as [slots' c']. destruct IH.
    by split; constructor.
Qed.

Lemma slot_union_get nv g : graph_flakes nv g = seg_union (default [] (slot_get (nv_graphs nv) g)).
Proof. done. Qed.

Lemma Forall2_slot_get {A B} (R : option A → option B → Prop) l k g :
  R None None → Forall2 R l k → R (slot_get l g) (slot_get k g).
Proof.
  intros Hn Hlk. unfold slot_get. destruct (l !! Z.to_nat g) as [o|] eqn:E.
  - eapply Forall2_lookup_l in Hlk as (o' & E' & HR); [|done]. by rewrite E'.
  - rewrite Forall2_lookup in Hlk. specialize (Hlk (Z.to_nat g)). rewrite E in Hlk. by inversion Hlk.
Qed.

(** ** Rebuilding the fact index *)

Lemma record_ids_all nv fs g ids flakes :
  get_flake nv <$> ids = Some <$> flakes →
  foldl (λ fs id, match get_flake nv id with Some f => record fs g f | None => fs end) fs ids
  = record_all fs g flakes.
Proof.
  revert fs flakes. induction ids as [|id ids IH]; intros fs [|f flakes] E; try done. csimpl in E.
  injection E as E1 E2. simpl. rewrite E1. by apply IH.
Qed.

Lemma present_graphs_spec nv g : 0 <= g → segments nv g ≠ [] ↔ g ∈ present_graphs nv.
Proof.
  intros Hg. unfold present_graphs. rewrite list_elem_of_filter, elem_of_seqZ. split; [|naive_solver].
  intros Hs. split; [done|]. split; [done|]. unfold segments, slot_get in Hs.
  destruct (nv_graphs nv !! Z.to_nat g) eqn:E; [|done]. apply lookup_lt_Some in E. lia.
Qed.

Lemma present_graphs_NoDup nv : NoDup (present_graphs nv).
Proof. apply NoDup_filter, NoDup_seqZ. Qed.

Lemma range_flakes_ordered nv g : novelty_ok nv →
  Forall flake_ordered (range_flakes nv g Spot all_bounds).
Proof.
  intros Hn. destruct (range_flakes_ok nv g Spot all_bounds Hn all_bounds_ok) as [Hp _].
  rewrite Hp, filter_all_bounds. destruct (segments_ok nv g Hn) as [Hs _]. unfold graph_flakes, seg_union.
  induction Hs as [|seg segs Hseg Hs IH]; [constructor|]. csimpl. apply Forall_app.
  split; [apply Hseg|done].
Qed.

Lemma batch_of_unique g l (f : Z → list Flake) : NoDup l →
  batch_of g ((λ h, (h, f h)) <$> l) = if decide (g ∈ l) then f g else [].
Proof.
  induction 1 as [|h l Hh Hnd IH]; [done|]. csimpl. rewrite batch_of_cons, IH.
  destruct (decide (h = g)) as [->|Hne].
  - rewrite decide_False by done. rewrite decide_True by (by left). by rewrite app_nil_r.
  - simpl. destruct (decide (g ∈ l)); [by rewrite decide_True by (by right)|].
    rewrite decide_False; [done|]. intros [->|?]%elem_of_cons; done.
Qed.

Lemma rebuild_facts_alt nv : novelty_ok nv →
  rebuild_facts nv = record_graphs [] ((λ g, (g, range_flakes nv g Spot all_bounds)) <$> present_graphs nv).
Proof.
  intros Hn. unfold rebuild_facts, record_graphs.
  assert (Forall (λ g, 0 <= g) (present_graphs nv)) as Hpos.
  { apply Forall_forall. intros g [_ Hg%elem_of_seqZ]%list_elem_of_filter. lia. }
  generalize (@nil (option OrdMap)). induction Hpos as [|g gs Hg Hgs IH]; intros fs; [done|].
  rewrite fmap_cons. cbn [foldl].
  rewrite (record_ids_all nv fs g _ (range_flakes nv g Spot all_bounds)); [apply IH|].
  by apply slice_for_range_ok; [|apply all_bounds_ok|].
Qed.

Lemma rebuild_facts_exact nv : novelty_ok nv → facts_exact (set_fact_state (rebuild_facts nv) nv).
Proof.
  intros Hn. rewrite rebuild_facts_alt by done. set (batches := _ <$> _).
  assert (batches_ok batches) as Hb.
  { apply Forall_forall. intros e (g & -> & [_ Hg%elem_of_seqZ]%list_elem_of_filter)%list_elem_of_fmap.
    split; simpl; [lia|by apply range_flakes_ordered]. }
  assert (facts_ordered []) as Hnil by done.
  split; [by apply record_graphs_ordered|]. intros g x Hg Hx. simpl.
  rewrite record_graphs_get by done. change (fact_get [] g x) with (@None (Z * bool)).
  fold (latest (same_fact x (batch_of g batches))).
  change (graph_flakes (set_fact_state (record_graphs [] batches) nv) g) with (graph_flakes nv g).
  unfold batches. rewrite batch_of_unique by apply present_graphs_NoDup. case_decide as Hp.
  - destruct (range_flakes_ok nv g Spot all_bounds Hn all_bounds_ok) as [Hperm _].
    rewrite filter_all_bounds in Hperm. unfold same_fact. by rewrite Hperm.
  - unfold graph_flakes. destruct (segments nv g) eqn:E; [done|]. exfalso. apply Hp.
    apply present_graphs_spec; [done|]. by rewrite E.
Qed.

Lemma zsum_zero_segments nv : novelty_ok nv → nv_flake_count nv = 0 → ∀ g, graph_flakes nv g = [].
Proof.
  intros Hn Hc g. rewrite (no_count nv Hn) in Hc. unfold graph_flakes.
  destruct (segments nv g) as [|seg segs] eqn:E; [done|]. exfalso.
  assert (∀ l, 0 <= zsum seg_len l) as Hpos.
  { induction l as [|s l IH]; [done|]. rewrite zsum_cons.
    assert (0 <= seg_len s) by (unfold seg_len; lia). lia. }
  assert (seg ∈ all_segments (nv_graphs nv)) as Hin.
  { unfold segments, slot_get in E. destruct (nv_graphs nv !! Z.to_nat g) as [[l|]|] eqn:El; try done.
    simpl in E. subst l. apply elem_of_concat. exists (seg :: segs). split; [|by left].
    apply list_elem_of_omap. exists (Some (seg :: segs)). split; [by eapply list_elem_of_lookup_2|done]. }
  assert (seg_ok seg) as Hseg.
  { destruct (segments_ok nv g Hn) as [Hs _]. rewrite E in Hs. by apply Forall_cons in Hs as [? _]. }
  fold (zsum seg_len (all_segments (nv_graphs nv))) in Hc.
  apply list_elem_of_split in Hin as (l1 & l2 & El). rewrite El in Hc.
  rewrite <- (Permutation_middle l1 l2 seg), zsum_cons in Hc.
  specialize (Hpos (l1 ++ l2)). pose proof (so_nonempty seg Hseg).
  assert (0 < seg_len seg) by (unfold seg_len; destruct (seg_flakes seg); [done|simpl; lia]). lia.
Qed.

(** [clear_up_to] keeps what the index does not cover, in the order it had. *)
Lemma clear_up_to_spec c nv cutoff : novelty_ok nv → facts_exact nv →
  let nv' := fst (clear_up_to c nv cutoff) in
  novelty_ok nv' ∧ facts_exact nv' ∧ nv_t nv' = nv_t nv
  ∧ ∀ g, graph_flakes nv' g = survivors cutoff (graph_flakes nv g).
Proof.
  intros Hn Hf. cbn zeta. unfold clear_up_to. destruct (Z.eqb_spec (nv_flake_count nv) 0) as [Hz|Hz].
  { split_and!; [done..|]. intros g. cbn [fst]. by rewrite (zsum_zero_segments nv Hn Hz g). }
  pose proof (clear_slots_spec cutoff c (nv_graphs nv) (no_slots nv Hn)) as Hc. cbn zeta in Hc.
  destruct (clear_slots cutoff c (nv_graphs nv)) as [slots c']. destruct Hc as [Hok H2].
  set (nv1 := recompute_totals (set_graphs slots nv)).
  assert (novelty_ok nv1) as Hn1 by (by apply recompute_totals_ok).
  simpl. split_and!.
  - by apply (same_segments_ok nv1).
  - destruct (rebuild_facts_exact nv1 Hn1) as [H1 H3]. split; [exact H1|]. intros g x Hg Hx. by apply H3.
  - done.
  - intros g. change (graph_flakes nv1 g = survivors cutoff (graph_flakes nv g)).
    rewrite !slot_union_get. by apply (Forall2_slot_get (λ o o', seg_union (default [] o') = survivors cutoff (seg_union (default [] o)))).
Qed.
End clear.

(** * Tiered compaction: what it preserves, and that it ends *)

Section compact.
Context `{VO : ValueOrd} {AO : AttachmentOverlay} `{SO : Sorting} `{HI : HashIteration}.
Implicit Types nv : Novelty.

(** ** Chunks *)

Lemma MAX_SEGMENT_FLAKES_pos : 0 < MAX_SEGMENT_FLAKES.
Proof. done. Qed.
#[local] Opaque MAX_SEGMENT_FLAKES.

Lemma build_chunks_spec fuel c flakes parallel :
  (length flakes <= fuel)%nat → flakes ≠ [] → Forall flake_ordered flakes →
  let segs := fst (build_chunks fuel c flakes parallel) in
  segs ≠ [] ∧ Forall seg_ok segs ∧ seg_union segs = flakes
  ∧ (Z.of_nat (length segs) - 1) * MAX_SEGMENT_FLAKES < Z.of_nat (length flakes).
Proof.
  pose proof MAX_SEGMENT_FLAKES_pos as Hpos. cbn zeta. revert c flakes.
  induction fuel as [|fuel IH]; intros c flakes Hlen Hne Ho; cbn [build_chunks].
  { destruct flakes; simpl in *; [done|lia]. }
  destruct (Z.ltb_spec MAX_SEGMENT_FLAKES (Z.of_nat (length flakes))) as [Hlt|Hge].
  - set (n := Z.to_nat MAX_SEGMENT_FLAKES). assert (Z.of_nat n = MAX_SEGMENT_FLAKES) as Hn by lia.
    clearbody n. assert (length (take n flakes) = n) as Ht by (rewrite length_take; lia).
    assert (length (drop n flakes) = (length flakes - n)%nat) as Hd by apply length_drop.
    rewrite <- (take_drop n flakes), Forall_app in Ho. destruct Ho as [Ho1 Ho2].
    cbn [new_segment]. set (c' := mkCounters _ _).
    destruct (IH c' (drop n flakes)) as (H1 & H2 & H3 & H4); [lia| |done|].
    { intros E. rewrite E in Hd. simpl in Hd. lia. }
    destruct (build_chunks fuel c' (drop n flakes) parallel) as [segs c'']. cbn [fst] in *.
    split_and!; [done| | |].
    + constructor; [|done]. apply build_ok; [|lia|done]. intros E. rewrite E in Ht. simpl in Ht. lia.
    + assert (∀ s l, seg_union (s :: l) = seg_flakes s ++ seg_union l) as -> by done.
      by rewrite H3, build_flakes, take_drop.
    + cbn [length]. nia.
  - cbn [new_segment fst]. split_and!; [done| | |simpl; lia || (destruct flakes; simpl in *; [done|lia])].
    + constructor; [|constructor]. by apply build_ok.
    + unfold seg_union. csimpl. by rewrite app_nil_r, build_flakes.
Qed.

Lemma chunked_spec c flakes parallel : flakes ≠ [] → Forall flake_ordered flakes →
  let segs := fst (chunked c flakes parallel) in
  segs ≠ [] ∧ Forall seg_ok segs ∧ seg_union segs = flakes
  ∧ (Z.of_nat (length segs) - 1) * MAX_SEGMENT_FLAKES < Z.of_nat (length flakes).
Proof. intros Hne Ho. by apply build_chunks_spec. Qed.

(** ** One merge *)

Lemma seg_union_app l k : seg_union (l ++ k) = seg_union l ++ seg_union k.
Proof. unfold seg_union. by rewrite fmap_app, concat_app. Qed.

Lemma take_class_spec tw class merged segs : Forall seg_ok segs →
  let '(keep, flakes) := take_class tw class merged segs in
  Forall seg_ok keep ∧ Forall flake_ordered flakes ∧ seg_union keep ++ flakes ≡ₚ seg_union segs
  ∧ ∃ n, length segs = (length keep + n)%nat
      ∧ Z.of_nat n <= Z.of_nat (length flakes) <= Z.of_nat n * MAX_SEGMENT_FLAKES
      ∧ (merged <= tw → Z.min (tw - merged) (class_count tw class segs) = Z.of_nat n).
Proof.
  intros Hs. revert merged. induction Hs as [|seg segs Hseg Hs IH]; intros merged; cbn [take_class].
  { split_and!; [done..|]. exists 0%nat. split_and!; simpl; try done; try lia.
    intros. unfold class_count. simpl. lia. }
  assert (seg_union (seg :: segs) = seg_flakes seg ++ seg_union segs) as -> by done.
  pose proof (so_width seg Hseg) as Hw. pose proof (so_nonempty seg Hseg) as Hne.
  pose proof (so_ordered seg Hseg) as Hord.
  assert (1 <= Z.of_nat (length (seg_flakes seg))) as Hone by (destruct (seg_flakes seg); [done|simpl; lia]).
  assert (class_count tw class (seg :: segs)
    = (if seg_class tw seg =? class then 1 else 0) + class_count tw class segs) as Hcount.
  { unfold class_count. rewrite filter_cons. destruct (Z.eqb_spec (seg_class tw seg) class).
    - rewrite decide_True by done. cbn [length]. lia.
    - rewrite decide_False by done. lia. }
  assert (0 <= class_count tw class segs) as Hcpos by (unfold class_count; lia).
  destruct ((merged <? tw) && (seg_class tw seg =? class)) eqn:E.
  - apply andb_true_iff in E as [E1%Z.ltb_lt E2]. rewrite E2 in Hcount. specialize (IH (merged + 1)).
    destruct (take_class tw class (merged + 1) segs) as [keep flakes].
    destruct IH as (H1 & H2 & H3 & n & H4 & H5 & H6). split_and!; [done|by apply Forall_app|..].
    + rewrite <- H3. solve_Permutation.
    + exists (S n). cbn [length]. rewrite length_app. split_and!; [lia|nia|nia|]. intros _.
      rewrite Hcount. specialize (H6 ltac:(lia)). lia.
  - specialize (IH merged). destruct (take_class tw class merged segs) as [keep flakes].
    destruct IH as (H1 & H2 & H3 & n & H4 & H5 & H6). split_and!; [by constructor|done|..].
    + assert (seg_union (seg :: keep) = seg_flakes seg ++ seg_union keep) as -> by done.
      by rewrite <- app_assoc, H3.
    + exists n. cbn [length]. split_and!; [lia|lia|lia|]. intros Hle. rewrite Hcount.
      apply andb_false_iff in E as [E%Z.ltb_ge|E]; [|rewrite E; specialize (H6 Hle); lia].
      specialize (H6 Hle). destruct (_ =? _); lia.
Qed.

Lemma foldl_min_in x l : foldl Z.min x l ∈ x :: l.
Proof.
  revert x. induction l as [|y l IH]; intros x; simpl; [by left|].
  pose proof (IH (Z.min x y)) as E. apply elem_of_cons in E as [E|E]; [|by right; right].
  rewrite E. destruct (Z.min_spec x y) as [[_ ->]|[_ ->]]; [by left|by right; left].
Qed.

Lemma target_class_Some tw min_class segs class :
  target_class tw min_class segs = Some class →
  min_class <= class ∧ tw <= class_count tw class segs ∧ class ∈ seg_class tw <$> segs.
Proof.
  unfold target_class. destruct (filter _ _) as [|x l] eqn:E; [done|]. intros [= <-].
  pose proof (foldl_min_in x l) as Hin. rewrite <- E in Hin.
  apply list_elem_of_filter in Hin as [[? ?] ?]. done.
Qed.

Lemma target_class_None tw min_class segs :
  target_class tw min_class segs = None →
  Forall (λ class, min_class <= class → class_count tw class segs < tw) (seg_class tw <$> segs).
Proof.
  unfold target_class. destruct (filter _ _) as [|x l] eqn:E; [|done]. intros _.
  apply Forall_forall. intros class Hin Hle. destruct (decide (tw <= class_count tw class segs)); [|lia].
  assert (class ∈ filter (λ class, min_class <= class ∧ tw <= class_count tw class segs) (seg_class tw <$> segs))
    as Hf by (by apply list_elem_of_filter). rewrite E in Hf. by apply elem_of_nil in Hf.
Qed.

(** One pass: [tier_width] segments become at most as many. *)
Lemma merge_step_ok tw class c segs : 2 <= tw → segs_ok segs → tw <= class_count tw class segs →
  let '(keep, flakes) := take_class tw class 0 segs in
  let segs' := keep ++ fst (chunked c flakes true) in
  segs_ok segs' ∧ seg_union segs' ≡ₚ seg_union segs ∧ (length segs' <= length segs)%nat
  ∧ (Z.of_nat (length (seg_union segs)) <= MAX_SEGMENT_FLAKES →
     Z.of_nat (length segs') + (tw - 1) = Z.of_nat (length segs)).
Proof.
  intros Htw (Hne & Hs & Hlen) Hcount. pose proof MAX_SEGMENT_FLAKES_pos as Hpos.
  pose proof (take_class_spec tw class 0 segs Hs) as Ht.
  destruct (take_class tw class 0 segs) as [keep flakes]. destruct Ht as (H1 & H2 & H3 & n & H4 & H5 & H6).
  specialize (H6 ltac:(lia)). cbn zeta.
  destruct (chunked_spec c flakes true) as (C1 & C2 & C3 & C4); [|done|].
  { intros ->. simpl in H5. lia. }
  set (chunks := fst (chunked c flakes true)) in *. clearbody chunks.
  assert (Z.of_nat (length chunks) <= Z.of_nat n) as Hcn by nia.
  assert (seg_union (keep ++ chunks) ≡ₚ seg_union segs) as Hp by (by rewrite seg_union_app, C3).
  assert (1 <= length chunks)%nat as Hc1 by (destruct chunks; [done|simpl; lia]).
  split_and!; [|done|rewrite length_app; lia|].
  - unfold segs_ok. split_and!; [by destruct keep, chunks|by apply Forall_app|rewrite length_app; lia].
  - intros Hsmall. rewrite <- Hp, seg_union_app, length_app, C3 in Hsmall. rewrite length_app.
    assert (length chunks = 1)%nat by nia. lia.
Qed.

(** ** A cascade *)

Definition small (segs : list Segment) : Prop :=
  Z.of_nat (length (seg_union segs)) <= MAX_SEGMENT_FLAKES.

Lemma compact_loop_ok fuel tw min_class c segs : 2 <= tw → segs_ok segs →
  let '(merges, segs', _) := compact_loop fuel tw min_class c segs in
  segs_ok segs' ∧ seg_union segs' ≡ₚ seg_union segs ∧ 0 <= merges
  ∧ (merges = 0 → segs' = segs)
  ∧ (small segs → Z.of_nat (length segs') + merges * (tw - 1) = Z.of_nat (length segs)).
Proof.
  intros Htw. revert min_class c segs. induction fuel as [|fuel IH]; intros min_class c segs Hs;
    cbn [compact_loop]; [split_and!; try done; lia|].
  destruct (Z.ltb_spec (Z.of_nat (length segs)) tw); [split_and!; try done; lia|].
  destruct (target_class tw min_class segs) as [class|] eqn:Et; [|split_and!; try done; lia].
  apply target_class_Some in Et as (_ & Hcount & _).
  pose proof (merge_step_ok tw class c segs Htw Hs Hcount) as Hm.
  destruct (take_class tw class 0 segs) as [keep flakes]. cbn zeta in Hm.
  destruct (chunked c flakes true) as [chunks c']. cbn [fst] in Hm. destruct Hm as (M1 & M2 & M3 & M4).
  specialize (IH (class + 1) c' (keep ++ chunks) M1).
  destruct (compact_loop fuel tw (class + 1) c' (keep ++ chunks)) as [[merges segs'] c''].
  destruct IH as (I1 & I2 & I3 & I4 & I5). split_and!; [done|by rewrite I2|lia|lia|].
  intros Hsmall. specialize (M4 Hsmall). unfold small in *. rewrite M2 in I5. specialize (I5 Hsmall). lia.
Qed.

Lemma class_loop_bound fuel count tw bound class :
  class_loop fuel count tw bound class <= class + Z.of_nat fuel.
Proof.
  revert bound class. induction fuel as [|fuel IH]; intros bound class; cbn [class_loop]; [lia|].
  destruct (bound <=? count); [|lia]. destruct (u64_max <? _); [lia|].
  specialize (IH (bound * tw) (class + 1)). lia.
Qed.

Lemma size_class_bound count tw : size_class count tw <= 64.
Proof.
  unfold size_class. destruct (_ || _); [lia|]. apply (class_loop_bound 64 count tw tw 0).
Qed.

(** The passes end by themselves: more fuel than classes changes nothing. *)
Lemma compact_loop_fuel fuel fuel' tw min_class c segs :
  65 <= min_class + Z.of_nat fuel → (fuel <= fuel')%nat →
  compact_loop fuel' tw min_class c segs = compact_loop fuel tw min_class c segs.
Proof.
  revert fuel' min_class c segs. induction fuel as [|fuel IH]; intros fuel' min_class c segs Hf Hle.
  - destruct fuel' as [|fuel']; [done|]. cbn [compact_loop]. destruct (_ <? _); [done|].
    destruct (target_class tw min_class segs) as [class|] eqn:Et; [|done].
    apply target_class_Some in Et as (Hmin & _ & (s & -> & _)%list_elem_of_fmap).
    pose proof (size_class_bound (seg_len s) tw). unfold seg_class in Hmin. lia.
  - destruct fuel' as [|fuel']; [lia|]. cbn [compact_loop]. destruct (_ <? _); [done|].
    destruct (target_class tw min_class segs) as [class|] eqn:Et; [|done].
    destruct (take_class tw class 0 segs) as [keep flakes], (chunked c flakes true) as [chunks c'].
    apply target_class_Some in Et as (Hmin & _). by rewrite IH by lia.
Qed.

(** ** All graphs *)

Lemma tier_compact_graph_ok tw c segs : 2 <= tw → segs_ok segs →
  let '(merges, segs', _) := tier_compact_graph tw c segs in
  segs_ok segs' ∧ seg_union segs' ≡ₚ seg_union segs ∧ 0 <= merges ∧ (merges = 0 → segs' = segs)
  ∧ (small segs → Z.of_nat (length segs') + merges * (tw - 1) = Z.of_nat (length segs)).
Proof. apply compact_loop_ok. Qed.

Definition slot_len (o : option (list Segment)) : Z := Z.of_nat (length (default [] o)).

Lemma compact_slots_ok tw c slots : 2 <= tw → Forall slot_ok slots →
  let '(merges, slots', _) := compact_slots tw c slots in
  Forall slot_ok slots' ∧ 0 <= merges ∧ (merges = 0 → slots' = slots)
  ∧ Forall2 (λ o o', seg_union (default [] o') ≡ₚ seg_union (default [] o)) slots slots'
  ∧ (Forall (λ o, small (default [] o)) slots → zsum slot_len slots' + merges * (tw - 1) = zsum slot_len slots).
Proof.
  intros Htw Hs. revert c. induction Hs as [|[segs|] slots Hslot Hs IH]; intros c; cbn [compact_slots].
  - split_and!; try done; lia.
  - pose proof (tier_compact_graph_ok tw c segs Htw Hslot) as Hg.
    destruct (tier_compact_graph tw c segs) as [[n segs'] c'] eqn:Eg. destruct Hg as (G1 & G2 & G3 & G4 & G5).
    specialize (IH c'). destruct (compact_slots tw c' slots) as [[merges slots'] c''].
    destruct IH as (I1 & I2 & I3 & I4 & I5). split_and!; [by constructor|lia| |by constructor|].
    + intros Hz. rewrite G4, I3 by lia. done.
    + intros [Hsm Hsmall]%Forall_cons. rewrite !zsum_cons. specialize (G5 Hsm). specialize (I5 Hsmall).
      unfold slot_len at 1 3. cbn [default]. simpl. lia.
  - specialize (IH c). destruct (compact_slots tw c slots) as [[merges slots'] c'].
    destruct IH as (I1 & I2 & I3 & I4 & I5). split_and!; [by constructor|lia| |by constructor|].
    + intros Hz. by rewrite I3.
    + intros [_ Hsmall]%Forall_cons. rewrite !zsum_cons. specialize (I5 Hsmall). lia.
Qed.

(** Compaction changes neither the flakes of a graph nor what they say. *)
Lemma tier_compact_spec c nv tw : novelty_ok nv → facts_exact nv →
  let '(merges, (nv', _)) := tier_compact c nv tw in
  novelty_ok nv' ∧ facts_exact nv' ∧ 0 <= merges ∧ nv_t nv' = nv_t nv
  ∧ (∀ g, graph_flakes nv' g ≡ₚ graph_flakes nv g)
  ∧ (2 <= tw → Forall (λ o, small (default [] o)) (nv_graphs nv) →
     zsum slot_len (nv_graphs nv') + merges * (tw - 1) = zsum slot_len (nv_graphs nv)).
Proof.
  intros Hn Hf. unfold tier_compact. destruct (Z.ltb_spec tw 2); [by split_and!; try done; lia|].
  pose proof (compact_slots_ok tw c (nv_graphs nv) ltac:(done) (no_slots nv Hn)) as Hc.
  destruct (compact_slots tw c (nv_graphs nv)) as [[merges slots] c'].
  destruct Hc as (C1 & C2 & C3 & C4 & C5).
  assert (∀ g, seg_union (default [] (slot_get slots g)) ≡ₚ graph_flakes nv g) as Hg.
  { intros g. by apply (Forall2_slot_get (λ o o', seg_union (default [] o') ≡ₚ seg_union (default [] o))). }
  assert (∀ nv', nv_graphs nv' = slots → nv_fact_state nv' = nv_fact_state nv → facts_exact nv') as Hex.
  { intros nv' Eg Ef. destruct Hf as [H1 H2]. split; [by rewrite Ef|]. intros g x Hgpos Hx.
    rewrite Ef, H2 by done. unfold graph_flakes, segments. rewrite Eg. unfold same_fact. by rewrite Hg. }
  destruct (Z.ltb_spec 0 merges) as [Hpos|Hzero].
  - simpl. split_and!; [by apply (same_segments_ok (recompute_totals (set_graphs slots nv)));
      [|apply recompute_totals_ok]|by apply Hex|done|done|exact Hg|]. auto.
  - rewrite C3 by lia. split_and!; [by destruct nv|..]; try done.
    intros _ Hsmall. specialize (C5 Hsmall). rewrite C3 in C5 by lia. exact C5.
Qed.

(** ** Convergence *)

Lemma size_class_nonneg count tw : 0 <= size_class count tw.
Proof.
  unfold size_class. destruct (_ || _); [lia|].
  assert (∀ fuel bound class, 0 <= class → 0 <= class_loop fuel count tw bound class) as H0; [|by apply H0].
  induction fuel as [|fuel IH]; intros bound class Hc; cbn [class_loop]; [lia|].
  destruct (bound <=? count); [|lia]. destruct (u64_max <? _); [lia|]. apply IH. lia.
Qed.

Definition needs_graph (tw : Z) (segs : list Segment) : bool :=
  (tw <=? Z.of_nat (length segs))
  && existsb (λ class, tw <=? class_count tw class segs) (seg_class tw <$> segs).

Lemma needs_graph_progress tw c segs : 2 <= tw → segs_ok segs → needs_graph tw segs = true →
  0 < (tier_compact_graph tw c segs).1.1.
Proof.
  intros Htw Hs [Hlen%Z.leb_le (class & Hin & Hcount%Z.leb_le)%existsb_exists]%andb_true_iff.
  assert (∃ n, MAX_PASSES = S n) as [n En] by (by exists 65%nat).
  unfold tier_compact_graph. rewrite En. cbn [compact_loop].
  rewrite (proj2 (Z.ltb_ge _ _)) by lia.
  destruct (target_class tw 0 segs) as [class'|] eqn:Et.
  - apply target_class_Some in Et as (_ & Hc & _).
    pose proof (merge_step_ok tw class' c segs Htw Hs Hc) as Hm.
    destruct (take_class tw class' 0 segs) as [keep flakes]. destruct (chunked c flakes true) as [chunks c'].
    destruct Hm as (M1 & _). pose proof (compact_loop_ok n tw (class' + 1) c' _ Htw M1) as Hl.
    cbn [fst] in Hl. destruct (compact_loop n tw (class' + 1) c' (keep ++ chunks)) as [[merges segs'] c''].
    destruct Hl as (_ & _ & Hm & _). cbn [fst]. lia.
  - apply target_class_None in Et. rewrite Forall_forall in Et.
    rewrite <- list_elem_of_In in Hin. specialize (Et class Hin).
    apply list_elem_of_fmap in Hin as (s & -> & _).
    pose proof (size_class_nonneg (seg_len s) tw). unfold seg_class in *. lia.
Qed.

Lemma compact_slots_progress tw c slots : 2 <= tw → Forall slot_ok slots →
  existsb (needs_graph tw) (omap id slots) = true → 0 < (compact_slots tw c slots).1.1.
Proof.
  intros Htw Hs. revert c. induction Hs as [|[segs|] slots Hslot Hs IH]; intros c Hex; [done|..];
    cbn [compact_slots].
  - pose proof (tier_compact_graph_ok tw c segs Htw Hslot) as Hg.
    pose proof (needs_graph_progress tw c segs Htw Hslot) as Hprog.
    destruct (tier_compact_graph tw c segs) as [[n segs'] c'] eqn:Eg. destruct Hg as (_ & _ & G3 & _).
    pose proof (compact_slots_ok tw c' slots Htw Hs) as Hrest. specialize (IH c').
    destruct (compact_slots tw c' slots) as [[merges slots'] c'']. destruct Hrest as (_ & ? & _).
    csimpl in Hex. apply orb_true_iff in Hex as [Hex|Hex]; simpl in *; [specialize (Hprog Hex)|specialize (IH Hex)]; lia.
  - specialize (IH c Hex). by destruct (compact_slots tw c slots) as [[merges slots'] c'].
Qed.

Lemma needs_tier_compaction_progress c nv tw : novelty_ok nv →
  needs_tier_compaction nv tw = true → 2 <= tw ∧ 0 < fst (tier_compact c nv tw).
Proof.
  intros Hn. unfold needs_tier_compaction, tier_compact. destruct (Z.ltb_spec tw 2); [done|]. intros Hex.
  split; [done|]. pose proof (compact_slots_progress tw c (nv_graphs nv) ltac:(done) (no_slots nv Hn) Hex) as Hp.
  destruct (compact_slots tw c (nv_graphs nv)) as [[merges slots] c']. simpl in *.
  by destruct (Z.ltb_spec 0 merges); [|lia].
Qed.

(** Calling it again and again. *)
Fixpoint compact_times (n : nat) (tw : Z) (c : Counters) nv : Novelty * Counters :=
  match n with
  | O => (nv, c)
  | S n => let '(_, (nv, c)) := tier_compact c nv tw in compact_times n tw c nv
  end.

Definition graphs_small nv : Prop := Forall (λ o, small (default [] o)) (nv_graphs nv).

Lemma graphs_small_get nv : graphs_small nv ↔ ∀ g, 0 <= g → small (segments nv g).
Proof.
  unfold graphs_small, segments, slot_get. rewrite Forall_lookup. split.
  - intros Hs g Hg. destruct (nv_graphs nv !! Z.to_nat g) as [o|] eqn:E; [by apply (Hs _ _ E)|]. by vm_compute.
  - intros Hs i o Hi. specialize (Hs (Z.of_nat i) ltac:(lia)). by rewrite Nat2Z.id, Hi in Hs.
Qed.

Lemma compact_converges nv c tw : novelty_ok nv → facts_exact nv → graphs_small nv → 2 <= tw →
  ∃ n, Z.of_nat n <= zsum slot_len (nv_graphs nv)
       ∧ needs_tier_compaction (fst (compact_times n tw c nv)) tw = false.
Proof.
  intros Hn Hf Hsm Htw.
  assert (∀ l, 0 <= zsum slot_len l) as Hpos.
  { induction l as [|o l IH]; [done|]. rewrite zsum_cons. unfold slot_len at 1. lia. }
  remember (Z.to_nat (zsum slot_len (nv_graphs nv))) as k eqn:Ek.
  revert nv c Ek Hn Hf Hsm. induction k as [k IH] using lt_wf_ind. intros nv c -> Hn Hf Hsm.
  destruct (needs_tier_compaction nv tw) eqn:Eneed; [|by exists 0%nat].
  destruct (needs_tier_compaction_progress c nv tw Hn Eneed) as [_ Hp].
  pose proof (tier_compact_spec c nv tw Hn Hf) as Ht.
  destruct (tier_compact c nv tw) as [merges [nv' c']] eqn:Etc. destruct Ht as (T1 & T2 & T3 & _ & T4 & T5).
  simpl in Hp. specialize (T5 Htw Hsm). pose proof (Hpos (nv_graphs nv)). pose proof (Hpos (nv_graphs nv')).
  assert (graphs_small nv') as Hsm'.
  { apply graphs_small_get. intros g Hg. apply (graphs_small_get nv) with g in Hsm; [|done].
    unfold small in *. by rewrite (T4 g : seg_union (segments nv' g) ≡ₚ seg_union (segments nv g)). }
  destruct (IH (Z.to_nat (zsum slot_len (nv_graphs nv'))) ltac:(nia) nv' c' eq_refl T1 T2 Hsm')
    as (n & Hle & Hdone).
  exists (S n). split; [nia|]. cbn [compact_times]. by rewrite Etc.
Qed.
End compact.
