(* ===== verification/NoveltyBulk.v ===== *)
(** * Bulk loading against sequential application *)

From S2P Require Import Prelude Text CommitWire CommitOp Ordering FlakeOrder FlakeTheorems.
From S2P Require Import NoveltySegment NoveltyMerge NoveltyFacts Novelty.
From S2P Require Import Novelty NoveltyReads NoveltyApply NoveltyCompact.
#[local] Open Scope Z_scope.

Section bulk.
Context `{VO : ValueOrd} {AO : AttachmentOverlay} `{SO : Sorting} `{HI : HashIteration}.
Implicit Types nv : Novelty.

(** ** The walk over one identity *)

Fixpoint walk (asserted : bool) (l : list Flake) : list Flake :=
  match l with
  | [] => []
  | f :: l =>
      if negb (f_op f) then f :: walk false l
      else if negb asserted then f :: walk true l
      else walk asserted l
  end.

Lemma key_cmp_eq_iff k a b : flake_ordered k → flake_ordered a → flake_ordered b →
  key_cmp a b = Eq → (key_cmp k a = Eq ↔ key_cmp k b = Eq).
Proof. intros. by rewrite (@cmp_eq_subst_r _ _ _ key_cmp_order k a b). Qed.

Lemma identity_cmp_key a b : identity_cmp a b = key_cmp a b >>then cmp_t a b >>then cmp_op a b.
Proof.
  unfold identity_cmp, key_cmp. by destruct (cmp_s a b), (cmp_p a b), (cmp_object a b).
Qed.

Lemma identity_le_key a b : is_le (identity_cmp a b) = true → is_le (key_cmp a b) = true.
Proof. rewrite identity_cmp_key. by destruct (key_cmp a b). Qed.

(** In identity order the flakes after the end of a group are of other facts. *)
Lemma group_ends last f l :
  Forall flake_ordered (last :: f :: l) → sorted_by identity_cmp (last :: f :: l) →
  key_cmp last f ≠ Eq → same_fact last (f :: l) = [].
Proof.
  intros Ho Hs Hne. apply Forall_cons in Ho as [Ol [Of Ho]%Forall_cons].
  inversion Hs as [|?? Hs' Hall]; subst. inversion Hs' as [|?? _ Hall']; subst.
  apply Forall_cons in Hall as [Hlf Hall]. apply identity_le_key in Hlf.
  assert (key_cmp last f = Lt) as Hlt by (by destruct (key_cmp last f)).
  apply list_filter_none. constructor; [done|]. rewrite Forall_forall in Hall', Ho |- *.
  intros y Hy Heq. specialize (Hall' y Hy). apply identity_le_key in Hall'.
  pose proof (@cmp_eq_sym _ _ _ key_cmp_order _ _ Heq) as Heq'.
  rewrite (@cmp_eq_subst_r _ _ _ key_cmp_order f y last) in Hall' by auto.
  by rewrite (@cmp_flip _ _ _ key_cmp_order last f), Hlt in Hall'.
Qed.

Lemma same_fact_cong k a l : flake_ordered k → flake_ordered a → Forall flake_ordered l →
  key_cmp k a = Eq → same_fact k l = same_fact a l.
Proof.
  intros Hk Ha Hl E. unfold same_fact. induction Hl as [|f l Hf Hl IH]; [done|]. rewrite !filter_cons, IH.
  rewrite (@cmp_eq_subst _ _ _ key_cmp_order k a f) by done. done.
Qed.

Lemma dedup_loop_walk k last asserted l :
  flake_ordered k → Forall flake_ordered (last :: l) → sorted_by identity_cmp (last :: l) →
  same_fact k (dedup_loop last asserted l)
  = walk (if decide (key_cmp k last = Eq) then asserted else false) (same_fact k l).
Proof.
  intros Hk. revert last asserted. induction l as [|f l IH]; intros last asserted Ho Hs; [done|].
  pose proof (group_ends last f l Ho Hs) as Hend.
  apply Forall_cons in Ho as [Ol Hfl]. pose proof Hfl as [Of Hl]%Forall_cons.
  inversion Hs as [|?? Hsf Hall]; subst. inversion Hsf as [|?? Hsl _]; subst.
  assert (Forall flake_ordered (last :: l)) as Hol by (by constructor).
  assert (sorted_by identity_cmp (last :: l)) as Hskip.
  { constructor; [done|]. by apply Forall_cons in Hall as [_ ?]. }
  cbn [dedup_loop]. destruct (same_identity last f) eqn:Esame.
  - apply same_identity_key in Esame.
    assert (key_cmp k last = Eq ↔ key_cmp k f = Eq) as Hkf by (by apply key_cmp_eq_iff).
    unfold same_fact in *. rewrite (filter_cons _ f l).
    destruct (decide (key_cmp k f = Eq)) as [Ef|Ef].
    + rewrite decide_True by (by apply Hkf). cbn [walk]. destruct (f_op f) eqn:Eop; cbn [negb].
      * destruct asserted; cbn [negb]; [rewrite IH by done; by rewrite decide_True by (by apply Hkf)|].
        rewrite filter_cons_True, IH by done. by rewrite decide_True.
      * rewrite filter_cons_True, IH by done. by rewrite decide_True.
    + rewrite (decide_False (P := key_cmp k last = Eq)) by (by rewrite Hkf).
      destruct (f_op f); cbn [negb]; [destruct asserted; cbn [negb]|];
        rewrite ?filter_cons_False, IH by done; rewrite decide_False; try done; by rewrite Hkf.
  - assert (key_cmp last f ≠ Eq) as Hne.
    { intros E%same_identity_key. congruence. }
    specialize (Hend Hne). unfold same_fact in *. rewrite !filter_cons.
    destruct (decide (key_cmp k last = Eq)) as [El|El].
    + assert (filter (λ x, key_cmp k x = Eq) (f :: l) = []) as Hnil.
      { change (same_fact k (f :: l) = []). by rewrite (same_fact_cong k last). }
      rewrite filter_cons in Hnil. destruct (decide (key_cmp k f = Eq)); [done|].
      rewrite IH, Hnil by done. done.
    + destruct (decide (key_cmp k f = Eq)) as [Ef|Ef].
      * rewrite IH by done. rewrite decide_True by done. cbn [walk]. by destruct (f_op f).
      * rewrite IH by done. by rewrite decide_False.
Qed.

(** The dedup walk is the walk over each identity. *)
Lemma dedup_walk k l : flake_ordered k → Forall flake_ordered l → sorted_by identity_cmp l →
  same_fact k (dedup l) = walk false (same_fact k l).
Proof.
  intros Hk Ho Hs. destruct l as [|f l]; [done|]. cbn [dedup]. unfold same_fact. rewrite !filter_cons.
  pose proof (dedup_loop_walk k f (f_op f) l Hk Ho Hs) as Hw. unfold same_fact in Hw.
  case_decide; rewrite Hw; [|done]. cbn [walk]. by destruct (f_op f).
Qed.

Lemma dedup_loop_sub last asserted l f : f ∈ dedup_loop last asserted l → f ∈ l.
Proof.
  revert last asserted. induction l as [|x l IH]; intros last asserted; cbn [dedup_loop]; [done|].
  repeat case_match; rewrite ?elem_of_cons; naive_solver.
Qed.
Lemma dedup_sub l f : f ∈ dedup l → f ∈ l.
Proof.
  destruct l as [|x l]; [done|]. cbn [dedup]. rewrite !elem_of_cons. naive_solver eauto using dedup_loop_sub.
Qed.
Lemma dedup_loop_length last asserted l : (length (dedup_loop last asserted l) <= length l)%nat.
Proof.
  revert last asserted. induction l as [|x l IH]; intros last asserted; cbn [dedup_loop]; [done|].
  pose proof (λ a, IH x a) as IHx. pose proof (IH last asserted) as IHl.
  repeat case_match; cbn [length]; auto using le_n_S.
Qed.
Lemma dedup_length l : (length (dedup l) <= length l)%nat.
Proof. destruct l as [|x l]; [done|]. cbn [dedup length]. apply le_n_S, dedup_loop_length. Qed.
Lemma dedup_nonempty l : l ≠ [] → dedup l ≠ [].
Proof. by destruct l. Qed.

(** ** Histories of one fact *)

Definition ascending : list Flake → Prop := StronglySorted (λ a b, f_t a < f_t b).

Fixpoint walk_end (asserted : bool) (l : list Flake) : bool :=
  match l with [] => asserted | f :: l => walk_end (f_op f) l end.

Lemma walk_app asserted l k : walk asserted (l ++ k) = walk asserted l ++ walk (walk_end asserted l) k.
Proof.
  revert asserted. induction l as [|f l IH]; intros asserted; [done|]. cbn [walk walk_end app].
  destruct (f_op f) eqn:E, asserted; cbn [negb]; rewrite IH; done.
Qed.

Lemma walk_end_last asserted l :
  walk_end asserted l = match last (walk asserted l) with
                        | Some f => f_op f
                        | None => asserted
                        end.
Proof.
  revert asserted. induction l as [|f l IH]; intros asserted; [done|]. cbn [walk walk_end].
  destruct (f_op f) eqn:E, asserted; cbn [negb]; rewrite IH, ?last_cons; try done;
    by destruct (last (walk _ l)).
Qed.

Lemma walk_sub asserted l f : f ∈ walk asserted l → f ∈ l.
Proof.
  revert asserted. induction l as [|x l IH]; intros asserted; [done|]. cbn [walk].
  repeat case_match; rewrite ?elem_of_cons; naive_solver.
Qed.

Lemma walk_ascending asserted l : ascending l → ascending (walk asserted l).
Proof.
  intros Hl. revert asserted. induction Hl as [|x l Hs IH Hx]; intros asserted; cbn [walk]; [constructor|].
  assert (∀ a, Forall (λ b, f_t x < f_t b) (walk a l)) as Hw.
  { intros a. rewrite Forall_forall in Hx |- *. intros y Hy%walk_sub. by apply Hx. }
  repeat case_match; try apply IH; (constructor; [apply IH|apply Hw]).
Qed.

Lemma ascending_snoc l f : ascending l → Forall (λ x, f_t x < f_t f) l → ascending (l ++ [f]).
Proof.
  induction 1 as [|x l Hs IH Hx]; intros Hf; [repeat constructor|]. apply Forall_cons in Hf as [Hxf Hf].
  constructor; [by apply IH|]. apply Forall_app. split; [done|by constructor].
Qed.

(** In an ascending history the last flake is the latest. *)
Lemma latest_ascending l : ascending l → latest l = (λ f, (f_t f, f_op f)) <$> last l.
Proof.
  induction l as [|f l IH] using rev_ind; [done|]. intros Hs.
  assert (ascending l ∧ Forall (λ x, f_t x < f_t f) l) as [Hl Hf].
  { clear IH. induction l as [|x l IH]; [by split; constructor|]. inversion Hs as [|?? Hs' Hx]; subst.
    apply Forall_app in Hx as [Hx [Hxf _]%Forall_cons]. destruct (IH Hs') as [? ?].
    by split; constructor. }
  rewrite last_snoc. unfold latest in *. rewrite foldl_app, IH by done. cbn [foldl]. unfold latest_step.
  destruct (last l) as [g|] eqn:El; simpl; [|done]. apply last_Some_elem_of in El.
  rewrite Forall_forall in Hf. by rewrite (proj2 (Z.ltb_lt _ _)) by (by apply Hf).
Qed.

(** Two ascending lists of the same flakes are equal. *)
Lemma ascending_unique l k : ascending l → ascending k → l ≡ₚ k → l = k.
Proof.
  intros Hl Hk. apply (StronglySorted_unique_strong (λ a b, f_t a < f_t b)); [|done|done].
  intros x y _ _. lia.
Qed.

(** The history of a fact in a graph: time-ascending, and stable under the walk. *)
Definition history_ok (l : list Flake) : Prop :=
  ∃ s, s ≡ₚ l ∧ ascending s ∧ walk false s = s.

Lemma asserted_ascending s l : ascending s → s ≡ₚ l →
  match latest l with Some (_, op) => op | None => false end
  = match last s with Some f => f_op f | None => false end.
Proof.
  intros Hs Hp. rewrite <- Hp, latest_ascending by done. by destruct (last s).
Qed.

(** Keeping one more flake of a fact by set semantics is the walk's rule. *)
Lemma walk_keep s l f : s ≡ₚ l → ascending s → walk false s = s →
  Forall (λ x, f_t x < f_t f) s →
  let l' := l ++ filter (λ x, (f_op x && match latest l with Some (_, op) => op | None => false end) = false) [f] in
  walk false (s ++ [f]) ≡ₚ l' ∧ ascending (walk false (s ++ [f]))
  ∧ walk false (walk false (s ++ [f])) = walk false (s ++ [f]).
Proof.
  intros Hp Hs Hw Hf. cbn zeta. rewrite (asserted_ascending s l Hs Hp).
  assert (walk false (s ++ [f]) = s ++ (if f_op f && walk_end false s then [] else [f])) as E.
  { rewrite walk_app, Hw. cbn [walk]. by destruct (f_op f), (walk_end false s). }
  rewrite (walk_end_last false s), Hw in E. set (b := match last s with Some f => f_op f | None => false end) in *.
  split_and!.
  - rewrite E, filter_cons, filter_nil. rewrite Hp. destruct (f_op f && b); [by rewrite decide_False|by rewrite decide_True].
  - apply walk_ascending, ascending_snoc; done.
  - rewrite E. destruct (f_op f && b) eqn:Eb; [by rewrite app_nil_r|]. rewrite walk_app, Hw. f_equal.
    rewrite walk_end_last, Hw. fold b. cbn [walk]. by destruct (f_op f), b.
Qed.

Lemma walk_idem asserted l : walk asserted (walk asserted l) = walk asserted l.
Proof.
  revert asserted. induction l as [|f l IH]; intros asserted; [done|]. cbn [walk].
  destruct (f_op f) eqn:E, asserted; cbn [negb walk]; rewrite ?E; cbn [negb]; by rewrite IH.
Qed.

Lemma walk_snoc_walk l f : walk false (l ++ [f]) = walk false (walk false l ++ [f]).
Proof.
  rewrite !walk_app, walk_idem. f_equal. by rewrite (walk_end_last false (walk false l)), walk_idem, walk_end_last.
Qed.

(** ** Clean commits *)

(** No fact occurs twice. *)
Fixpoint distinct_facts (l : list Flake) : bool :=
  match l with
  | [] => true
  | f :: l => forallb (λ x, negb (same_identity f x)) l && distinct_facts l
  end.

(** A commit as a ledger makes them: later than what came before, all flakes at
    its time, and no fact twice in a graph, asserted or retracted. *)
Definition commit_clean (reverse_graph : Sid → option Z) (t0 : Z) (commit : list Flake * Z) : Prop :=
  t0 < commit.2 ∧ Forall (λ f, f_t f = commit.2 ∧ flake_ordered f) commit.1
  ∧ ∀ g, distinct_facts (routed_to reverse_graph g commit.1) = true.

Fixpoint commits_clean (reverse_graph : Sid → option Z) (t0 : Z) (commits : list (list Flake * Z)) : Prop :=
  match commits with
  | [] => True
  | commit :: commits =>
      commit_clean reverse_graph t0 commit ∧ commits_clean reverse_graph commit.2 commits
  end.

(** An overlay that such commits lead to. *)
Definition novelty_clean nv : Prop :=
  (∀ g x, 0 <= g → flake_ordered x → history_ok (same_fact x (graph_flakes nv g)))
  ∧ ∀ g f, 0 <= g → f ∈ graph_flakes nv g → f_t f <= nv_t nv.

(** Applying commits one after the other. *)
Fixpoint apply_commits (c : Counters) nv (commits : list (list Flake * Z)) (reverse_graph : Sid → option Z)
  : option NoveltyError * (Novelty * Counters) :=
  match commits with
  | [] => (None, (nv, c))
  | (flakes, commit_t) :: commits =>
      match apply_commit c nv flakes commit_t reverse_graph with
      | (None, (nv, c)) => apply_commits c nv commits reverse_graph
      | error => error
      end
  end.

Lemma distinct_facts_same x l : flake_ordered x → Forall flake_ordered l → distinct_facts l = true →
  same_fact x l = [] ∨ ∃ f, same_fact x l = [f].
Proof.
  intros Hx. induction 1 as [|f l Hf Hl IH]; [by left|]. cbn [distinct_facts].
  intros [Hne Hd]%andb_true_iff. unfold same_fact. rewrite filter_cons. case_decide as E; [|by apply IH].
  right. exists f. f_equal. apply list_filter_none, Forall_forall. intros y Hy Hxy.
  rewrite forallb_forall in Hne. specialize (Hne y). rewrite <- list_elem_of_In in Hne. specialize (Hne Hy).
  rewrite Forall_forall in Hl. apply negb_true_iff in Hne.
  assert (same_identity f y = true); [|congruence]. apply same_identity_key.
  apply (@cmp_eq_trans _ _ _ key_cmp_order f x y); auto. by apply (@cmp_eq_sym _ _ _ key_cmp_order).
Qed.

Lemma same_fact_app x l k : same_fact x (l ++ k) = same_fact x l ++ same_fact x k.
Proof. apply filter_app. Qed.

Lemma filter_comm {A} (P Q : A → Prop) `{!∀ x, Decision (P x)} `{!∀ x, Decision (Q x)} (l : list A) :
  filter P (filter Q l) = filter Q (filter P l).
Proof.
  induction l as [|x l IH]; [done|]. rewrite (filter_cons Q), (filter_cons P).
  destruct (decide (P x)), (decide (Q x)); rewrite ?filter_cons_True, ?filter_cons_False, IH by done; done.
Qed.

Lemma routed_to_app reverse_graph g l k :
  routed_to reverse_graph g (l ++ k) = routed_to reverse_graph g l ++ routed_to reverse_graph g k.
Proof. apply filter_app. Qed.
Lemma routed_to_in reverse_graph g l f : f ∈ routed_to reverse_graph g l → f ∈ l.
Proof. by intros [_ ?]%list_elem_of_filter. Qed.
Lemma same_fact_in x l f : f ∈ same_fact x l → f ∈ l ∧ key_cmp x f = Eq.
Proof. by intros [? ?]%list_elem_of_filter. Qed.

(** What applying [done] to [nv0] has made of each fact. *)
Definition tracked (reverse_graph : Sid → option Z) nv0 (done : list Flake) nv : Prop :=
  (∀ g x, 0 <= g → flake_ordered x →
     ∃ s, s ≡ₚ same_fact x (graph_flakes nv0 g)
       ∧ ascending (s ++ same_fact x (routed_to reverse_graph g done))
       ∧ walk false (s ++ same_fact x (routed_to reverse_graph g done)) ≡ₚ same_fact x (graph_flakes nv g))
  ∧ (∀ g f, 0 <= g → f ∈ graph_flakes nv0 g → f_t f <= nv_t nv) ∧ Forall (λ f, f_t f <= nv_t nv) done.

Lemma tracked_start reverse_graph nv : novelty_clean nv → tracked reverse_graph nv [] nv.
Proof.
  intros [Hh Ht]. split_and!; [|done|constructor]. intros g x Hg Hx.
  destruct (Hh g x Hg Hx) as (s & Hp & Hs & Hw). exists s.
  change (same_fact x (routed_to reverse_graph g [])) with (@nil Flake). by rewrite app_nil_r, Hw.
Qed.

Lemma novelty_ordered nv g : novelty_ok nv → Forall flake_ordered (graph_flakes nv g).
Proof.
  intros Hn. destruct (segments_ok nv g Hn) as [Hs _]. unfold graph_flakes, seg_union.
  induction Hs as [|seg segs Hseg Hs IH]; [constructor|]. csimpl. apply Forall_app. split; [apply Hseg|done].
Qed.

(** One clean commit extends the track. *)
Lemma tracked_step reverse_graph nv0 done nv flakes t nv' :
  novelty_ok nv → tracked reverse_graph nv0 done nv → commit_clean reverse_graph (nv_t nv) (flakes, t) →
  (∀ g, 0 <= g → graph_flakes nv' g
     = graph_flakes nv g ++ set_keep (graph_flakes nv g) (routed_to reverse_graph g flakes)) →
  nv_t nv' = match flakes with [] => nv_t nv | _ => Z.max (nv_t nv) t end →
  tracked reverse_graph nv0 (done ++ flakes) nv'.
Proof.
  intros Hn (Htr & Ht0 & Htd) (Hlt & Hfl & Hdist) Hgf Ht'. simpl in Hlt, Hfl, Hdist.
  assert (nv_t nv <= nv_t nv') as Hmono by (rewrite Ht'; destruct flakes; lia).
  assert (Forall flake_ordered flakes) as Hord by (eapply Forall_impl; [exact Hfl|]; naive_solver).
  split_and!; [|intros g f Hg Hin; specialize (Ht0 g f Hg Hin); lia|].
  2:{ apply Forall_app. split; [eapply Forall_impl; [exact Htd|]; simpl; lia|].
      destruct flakes as [|f0 flakes]; [constructor|]. rewrite Ht'. eapply Forall_impl; [exact Hfl|].
      intros f [-> _]. cbn beta. lia. }
  intros g x Hg Hx. destruct (Htr g x Hg Hx) as (s & Hp & Hasc & Hw). exists s. split; [done|].
  rewrite routed_to_app, same_fact_app, Hgf by done. rewrite same_fact_app.
  set (news := same_fact x (routed_to reverse_graph g done)) in *.
  assert (Forall flake_ordered (routed_to reverse_graph g flakes)) as Hro.
  { rewrite Forall_forall in Hord |- *. intros f Hf%routed_to_in. auto. }
  destruct (distinct_facts_same x _ Hx Hro (Hdist g)) as [E|[f E]].
  - assert (same_fact x (set_keep (graph_flakes nv g) (routed_to reverse_graph g flakes)) = []) as ->.
    { unfold same_fact, set_keep in *. by rewrite filter_comm, E. }
    rewrite E, !app_nil_r. done.
  - assert (f ∈ same_fact x (routed_to reverse_graph g flakes)) as Hin by (rewrite E; by left).
    apply same_fact_in in Hin as [Hin Hxf]. apply routed_to_in in Hin.
    rewrite Forall_forall in Hfl. destruct (Hfl f Hin) as [Eft Of].
    assert (same_fact x (set_keep (graph_flakes nv g) (routed_to reverse_graph g flakes))
      = filter (λ y, (f_op y && match latest (same_fact x (graph_flakes nv g)) with
                                | Some (_, op) => op | None => false end) = false) [f]) as ->.
    { unfold set_keep. unfold same_fact at 1. rewrite filter_comm. fold (same_fact x (routed_to reverse_graph g flakes)).
      rewrite E, !filter_cons, !filter_nil. unfold asserted_in.
      rewrite <- (same_fact_cong x f (graph_flakes nv g)) by (done || by apply novelty_ordered). done. }
    assert (Forall (λ y, f_t y < f_t f) (s ++ news)) as Hbelow.
    { rewrite Eft. apply Forall_app. split; apply Forall_forall; intros y Hy.
      - rewrite Hp in Hy. apply same_fact_in in Hy as [Hy _]. specialize (Ht0 g y Hg Hy). lia.
      - apply same_fact_in in Hy as [Hy%routed_to_in _]. rewrite Forall_forall in Htd.
        specialize (Htd y Hy). simpl in Htd. lia. }
    rewrite E, app_assoc. split; [by apply ascending_snoc|].
    rewrite walk_snoc_walk. apply walk_keep; [done|by apply walk_ascending|apply walk_idem|].
    rewrite Forall_forall in Hbelow |- *. intros y Hy%walk_sub. by apply Hbelow.
Qed.

Lemma apply_commits_tracked reverse_graph nv0 done c nv commits nv' c' :
  routes_ok reverse_graph → novelty_ok nv → facts_exact nv → tracked reverse_graph nv0 done nv →
  commits_clean reverse_graph (nv_t nv) commits →
  apply_commits c nv commits reverse_graph = (None, (nv', c')) →
  novelty_ok nv' ∧ facts_exact nv' ∧ tracked reverse_graph nv0 (done ++ concat (fst <$> commits)) nv'
  ∧ (Forall (λ commit, commit.1 ≠ []) commits →
     nv_t nv' = foldl (λ acc '(_, commit_t), Z.max acc commit_t) (nv_t nv) commits).
Proof.
  intros Hr. revert done c nv. induction commits as [|[flakes t] commits IH]; intros done c nv Hn Hf Htr Hc;
    cbn [apply_commits].
  { intros [= <- <-]. csimpl. by rewrite app_nil_r. }
  destruct Hc as [Hclean Hrest]. pose proof Hclean as (Hlt & Hfl & _). simpl in Hlt, Hfl, Hrest.
  assert (Forall flake_ordered flakes) as Hord by (eapply Forall_impl; [exact Hfl|]; naive_solver).
  pose proof (apply_commit_spec c nv flakes t reverse_graph Hn Hf Hr Hord) as Hspec.
  destruct (apply_commit c nv flakes t reverse_graph) as [[e|] [nv1 c1]]; [done|].
  destruct Hspec as (H1 & H2 & H3 & H4). intros Hrun. csimpl. rewrite app_assoc.
  destruct (IH _ c1 nv1 H1 H2 (tracked_step _ _ _ _ _ _ _ Hn Htr Hclean H3 H4)) as (? & ? & ? & It); [|done|].
  2:{ split_and!; [done..|]. intros [Hne Hnes]%Forall_cons. rewrite It by done. cbn [foldl]. f_equal.
      rewrite H4. by destruct flakes. }
  clear -Hrest H4 Hlt. destruct commits as [|commit commits]; [done|]. destruct Hrest as [(? & ? & ?) ?].
  split; [|done]. split_and!; [|done|done]. rewrite H4. destruct flakes; lia.
Qed.
End bulk.

(** * Bulk loading builds what the commits build one by one

    The two phases of [bulk_apply_commits], and the agreement with applying the
    commits in turn, for commits as a ledger makes them ([commits_clean]). *)

Section bulk_ok.
Context `{VO : ValueOrd} {AO : AttachmentOverlay} `{SO : Sorting} `{HI : HashIteration}.
Implicit Types nv : Novelty.

(** ** Phase 1 *)

Definition routable (reverse_graph : Sid → option Z) (f : Flake) : Prop :=
  ∃ g, resolve_flake_g_id reverse_graph f = inr g.

Lemma bulk_partition_spec reverse_graph flakes groups nv :
  Forall (routable reverse_graph) flakes →
  ∃ groups' nv', bulk_partition reverse_graph flakes groups nv = (None, groups', nv')
    ∧ same_segments nv nv' ∧ nv_fact_state nv' = nv_fact_state nv
    ∧ ∀ g, groups' !! g = match routed_to reverse_graph g flakes with
                          | [] => groups !! g
                          | l => Some (default [] (groups !! g) ++ l)
                          end.
Proof.
  intros Hr. revert groups nv. induction Hr as [|f flakes [g Hg] Hr IH]; intros groups nv; cbn [bulk_partition].
  { exists groups, nv. by split_and!. }
  rewrite Hg. destruct (IH (<[g := default [] (groups !! g) ++ [f]]> groups) (bulk_mark f nv))
    as (groups' & nv' & -> & H1 & H2 & H3).
  exists groups', nv'. split_and!; [done..|]. intros h. rewrite H3. unfold routed_to. rewrite (filter_cons _ f).
  assert (goes_to reverse_graph h f = (g =? h)) as -> by (unfold goes_to; by rewrite Hg). destruct (decide (g = h)) as [->|Hne].
  - rewrite decide_True by (by rewrite Z.eqb_refl). rewrite lookup_insert_eq. simpl.
    destruct (filter _ flakes); [done|]. by rewrite <- app_assoc.
  - rewrite decide_False by (by rewrite Z.eqb_eq). by rewrite lookup_insert_ne.
Qed.

(** ** Phase 2 *)

(** What a graph that holds [old] becomes. *)
Definition bulk_of (old new : list Flake) : list Flake :=
  match new with
  | [] => old
  | _ => dedup (sort_unstable_by true identity_cmp (old ++ new))
  end.

Lemma bulk_of_ordered old new :
  Forall flake_ordered old → Forall flake_ordered new → Forall flake_ordered (bulk_of old new).
Proof.
  intros Ho Hn. destruct new as [|f new]; [done|]. unfold bulk_of. rewrite Forall_forall.
  intros x Hx%dedup_sub. rewrite sort_perm in Hx. rewrite Forall_forall in Ho, Hn.
  apply elem_of_app in Hx as [?|?]; auto.
Qed.

Lemma bulk_of_nonempty old new : new ≠ [] → bulk_of old new ≠ [].
Proof.
  destruct new as [|f new]; [done|]. intros _. apply dedup_nonempty. intros E.
  pose proof (sort_perm true identity_cmp (old ++ f :: new)) as Hp. rewrite E in Hp.
  apply Permutation_nil in Hp. by destruct old.
Qed.

Lemma bulk_of_length old new : (length (bulk_of old new) <= length (old ++ new))%nat.
Proof.
  destruct new as [|f new]; [by rewrite app_nil_r|]. unfold bulk_of.
  etrans; [apply dedup_length|]. by rewrite sort_perm.
Qed.

Definition fits (old new : list Flake) : Prop :=
  Z.of_nat (length (old ++ new)) <= MAX_SEGMENTS * MAX_SEGMENT_FLAKES.

Lemma set_graph_segments_spec c g flakes nv :
  0 <= g → flakes ≠ [] → Forall flake_ordered flakes →
  Z.of_nat (length flakes) <= MAX_SEGMENTS * MAX_SEGMENT_FLAKES → Forall slot_ok (nv_graphs nv) →
  ∃ slots c', set_graph_segments c g flakes true nv = (set_graphs slots nv, c')
    ∧ Forall slot_ok slots
    ∧ ∀ h, 0 <= h → graph_flakes (set_graphs slots nv) h = if decide (g = h) then flakes else graph_flakes nv h.
Proof.
  intros Hg Hne Ho Hlen Hs. unfold set_graph_segments.
  pose proof (chunked_spec c flakes true Hne Ho) as Hc. destruct (chunked c flakes true) as [segs c'].
  destruct Hc as (Hsne & Hsok & Hun & Hcount). simpl in *.
  exists (slot_set (nv_graphs nv) g (Some segs)), c'. split_and!.
  - by destruct flakes.
  - apply Forall_slot_set; [done| |done]. split_and!; [done..|].
    assert (Z.of_nat (length segs) - 1 < MAX_SEGMENTS); [|lia].
    apply (Z.mul_lt_mono_pos_r MAX_SEGMENT_FLAKES); [done|]. lia.
  - intros h Hh. unfold graph_flakes, segments. simpl. rewrite slot_get_set by done. by case_decide.
Qed.

Lemma bulk_graph_spec max_t c g new nv :
  0 <= g → new ≠ [] → Forall flake_ordered new → Forall flake_ordered (graph_flakes nv g) →
  fits (graph_flakes nv g) new → Forall slot_ok (nv_graphs nv) →
  let nv' := fst (bulk_graph max_t c g new nv) in
  Forall slot_ok (nv_graphs nv')
  ∧ nv_fact_state nv' = record_all (nv_fact_state nv) g (bulk_of (graph_flakes nv g) new)
  ∧ ∀ h, 0 <= h → graph_flakes nv' h
     = if decide (g = h) then bulk_of (graph_flakes nv g) new else graph_flakes nv h.
Proof.
  intros Hg Hne Hn Ho Hfit Hs. unfold bulk_graph.
  change (concat (seg_flakes <$> segments nv g)) with (graph_flakes nv g).
  assert (dedup (sort_unstable_by true identity_cmp (graph_flakes nv g ++ new)) = bulk_of (graph_flakes nv g) new)
    as -> by (by destruct new).
  set (kept := bulk_of (graph_flakes nv g) new). cbn zeta.
  set (nv1 := set_fact_state (record_all (nv_fact_state nv) g kept) nv).
  destruct (set_graph_segments_spec c g kept nv1) as (slots & c' & E & H1 & H2); [done| | |..|done|].
  { by apply bulk_of_nonempty. }
  { by apply bulk_of_ordered. }
  { pose proof (bulk_of_length (graph_flakes nv g) new). unfold fits in Hfit. subst kept. lia. }
  rewrite E. cbn [fst snd].
  destruct (filter _ kept), (g =? CONFIG_GRAPH_ID); simpl; (split_and!; [exact H1|done|exact H2]).
Qed.

Definition group_ok nv (e : Z * list Flake) : Prop :=
  0 <= e.1 ∧ e.2 ≠ [] ∧ Forall flake_ordered e.2 ∧ Forall flake_ordered (graph_flakes nv e.1)
  ∧ fits (graph_flakes nv e.1) e.2.

Lemma bulk_graphs_spec max_t c groups nv :
  NoDup groups.*1 → Forall (group_ok nv) groups → Forall slot_ok (nv_graphs nv) → facts_ordered (nv_fact_state nv) →
  let nv' := fst (bulk_graphs max_t c groups nv) in
  Forall slot_ok (nv_graphs nv') ∧ facts_ordered (nv_fact_state nv')
  ∧ (∀ h, 0 <= h → graph_flakes nv' h = bulk_of (graph_flakes nv h) (batch_of h groups))
  ∧ ∀ h x, 0 <= h → flake_ordered x →
      fact_get (nv_fact_state nv') h x
      = match batch_of h groups with
        | [] => fact_get (nv_fact_state nv) h x
        | new => foldl latest_step (fact_get (nv_fact_state nv) h x) (same_fact x (bulk_of (graph_flakes nv h) new))
        end.
Proof.
  revert c nv. induction groups as [|[g new] groups IH]; intros c nv Hd Hg Hs Hf; [done|].
  apply Forall_cons in Hg as [(Hg0 & Hne & Hnew & Hold & Hfit) Hg]. simpl in Hg0, Hne, Hnew, Hold, Hfit.
  rewrite fmap_cons in Hd. apply NoDup_cons in Hd as [Hnot Hd]. simpl in Hnot.
  pose proof (bulk_graph_spec max_t c g new nv Hg0 Hne Hnew Hold Hfit Hs) as Hb.
  unfold bulk_graphs. cbn [foldl]. destruct (bulk_graph max_t c g new nv) as [nv1 c1]. simpl in Hb.
  destruct Hb as (B1 & B2 & B3).
  assert (batch_of g groups = []) as Eg.
  { unfold batch_of. rewrite list_filter_none; [done|]. rewrite Forall_forall. intros [h l] Hin. simpl. intros ->.
    apply Hnot. by apply (list_elem_of_fmap_2 fst _ (g, l)). }
  assert (Forall (group_ok nv1) groups) as Hg1.
  { rewrite Forall_forall in Hg |- *. intros [h l] Hin. destruct (Hg _ Hin) as (? & ? & ? & ? & ?). simpl in *.
    unfold group_ok. simpl. rewrite B3 by done. rewrite decide_False; [done|]. intros <-.
    apply Hnot. by apply (list_elem_of_fmap_2 fst _ (g, l)). }
  assert (Forall flake_ordered (bulk_of (graph_flakes nv g) new)) as Hbo by (by apply bulk_of_ordered).
  destruct (IH c1 nv1 Hd Hg1 B1) as (I1 & I2 & I3 & I4).
  { rewrite B2. by apply record_all_ordered. }
  fold (bulk_graphs max_t c1 groups nv1). split_and!; [done..| |].
  - intros h Hh. rewrite I3, B3, batch_of_cons by done. case_decide as E; [|done]. subst h. by rewrite Eg, app_nil_r.
  - intros h x Hh Hx. rewrite I4, B3, batch_of_cons, B2, record_all_get by done.
    case_decide as E; [|done]. subst h. rewrite Eg, app_nil_r. by destruct new.
Qed.

(** ** One fact *)

Lemma ascending_inj l x y : ascending l → x ∈ l → y ∈ l → f_t x = f_t y → x = y.
Proof.
  induction 1 as [|z l Hs IH Hz]; [by rewrite elem_of_nil|]. rewrite Forall_forall in Hz.
  intros [->|Hx]%elem_of_cons [->|Hy]%elem_of_cons Ht; [done|specialize (Hz y Hy)|specialize (Hz x Hx)|by apply IH]; lia.
Qed.

Lemma same_fact_perm x l k : l ≡ₚ k → same_fact x l ≡ₚ same_fact x k.
Proof. intros Hp. unfold same_fact. by rewrite Hp. Qed.

Lemma sort_identity l : Forall flake_ordered l → sorted_by identity_cmp (sort_unstable_by true identity_cmp l).
Proof. apply sort_sorted, identity_cmp_order. Qed.

(** The sorted flakes of one fact, when their times are distinct, are its history. *)
Lemma sorted_history x l s : flake_ordered x → Forall flake_ordered l → ascending s → same_fact x l ≡ₚ s →
  same_fact x (sort_unstable_by true identity_cmp l) = s.
Proof.
  intros Hx Ho Hs Hp. set (k := sort_unstable_by true identity_cmp l).
  assert (same_fact x k ≡ₚ s) as Hk.
  { etrans; [|exact Hp]. apply same_fact_perm, sort_perm. }
  assert (Forall flake_ordered k) as Hok by (unfold k; by rewrite sort_perm).
  assert (sorted_by identity_cmp k) as Hsk by (by apply sort_identity).
  apply (StronglySorted_unique_strong (λ a b, f_t a <= f_t b)); [| |..|done].
  - intros a b Ha Hb Hab Hba. rewrite Hk in Ha. eapply ascending_inj; [done..|]. lia.
  - clear Hp Hk. induction Hsk as [|a k' Hsk IH Ha]; [constructor|]. apply Forall_cons in Hok as [Oa Hok].
    unfold same_fact. rewrite filter_cons. case_decide as E; [|by apply IH]. constructor; [by apply IH|].
    rewrite Forall_forall in Ha, Hok |- *. intros b [Hb Eb]%same_fact_in. specialize (Ha b Hb). unfold cmp_le in Ha.
    rewrite identity_cmp_key in Ha.
    rewrite (@cmp_eq_trans _ _ _ key_cmp_order a x b) in Ha;
      [|auto..|by apply (@cmp_eq_sym _ _ _ key_cmp_order)|done].
    unfold then_with, cmp_t in Ha. destruct (Z.compare_spec (f_t a) (f_t b)); [lia|lia|done].
  - clear -Hs. induction Hs as [|a l Hs IH Ha]; constructor; [done|]. eapply Forall_impl; [exact Ha|]. simpl. lia.
Qed.

Lemma bulk_of_fact x old new s :
  flake_ordered x → Forall flake_ordered old → Forall flake_ordered new →
  s ≡ₚ same_fact x old → walk false s = s → ascending (s ++ same_fact x new) →
  same_fact x (bulk_of old new) ≡ₚ walk false (s ++ same_fact x new).
Proof.
  intros Hx Ho Hn Hp Hw Ha. destruct new as [|f new].
  { change (same_fact x []) with (@nil Flake). by rewrite app_nil_r, Hw, Hp. }
  set (new' := f :: new) in *.
  change (bulk_of old new') with (dedup (sort_unstable_by true identity_cmp (old ++ new'))).
  assert (Forall flake_ordered (old ++ new')) as Hon by (by apply Forall_app).
  rewrite dedup_walk; [|done|by rewrite sort_perm|by apply sort_identity].
  rewrite (sorted_history x (old ++ new') (s ++ same_fact x new')); [done..|].
  by rewrite same_fact_app, Hp.
Qed.

(** Lists of flakes with the same flakes of each fact are permutations. *)
Lemma perm_by_facts l k : Forall flake_ordered l → Forall flake_ordered k →
  (∀ x, flake_ordered x → same_fact x l ≡ₚ same_fact x k) → l ≡ₚ k.
Proof.
  assert (∀ x, flake_ordered x → key_cmp x x = Eq) as Hrefl.
  { intros x Hx. by apply (@cmp_refl _ _ _ key_cmp_order). }
  intros Hl. revert k. induction Hl as [|x l Hx Hl IH]; intros k Hk Heq.
  - destruct k as [|y k]; [done|]. apply Forall_cons in Hk as [Hy _]. specialize (Heq y Hy).
    unfold same_fact in Heq. rewrite filter_cons_True in Heq by auto. by apply Permutation_nil_cons in Heq.
  - assert (x ∈ k) as Hin.
    { apply (same_fact_in x). rewrite <- (Heq x Hx). unfold same_fact. rewrite filter_cons_True by auto. by left. }
    apply elem_of_Permutation in Hin as [k' Hk']. rewrite Hk'. constructor. apply IH.
    { rewrite Hk' in Hk. by apply Forall_cons in Hk as [_ ?]. }
    intros y Hy. specialize (Heq y Hy). rewrite (same_fact_perm y k (x :: k') Hk') in Heq.
    unfold same_fact in *. rewrite !filter_cons in Heq. case_decide; [|done]. by apply Permutation_cons_inv in Heq.
Qed.

(** What is recorded already does not change what is latest. *)
Lemma latest_again s k : ascending s → foldl latest_step (latest s) (s ++ k) = foldl latest_step (latest s) k.
Proof.
  intros Hs. rewrite foldl_app. f_equal. rewrite latest_ascending by done.
  destruct (last s) as [g|] eqn:El; simpl; [|by apply last_None in El as ->].
  assert (∀ f, f ∈ s → f_t f < f_t g ∨ f = g) as Hle.
  { intros f Hf. apply last_Some in El as [l' ->]. apply elem_of_app in Hf as [Hf|Hf%list_elem_of_singleton]; [|by right].
    left. induction l' as [|a l' IH]; [by apply elem_of_nil in Hf|]. inversion Hs as [|?? Hs' Ha]; subst.
    apply elem_of_cons in Hf as [->|Hf]; [|by apply IH]. rewrite Forall_forall in Ha. apply Ha.
    apply elem_of_app. right. by left. }
  clear Hs El. induction s as [|f s IH]; [done|]. cbn [foldl]. rewrite <- IH at 2 by (intros; apply Hle; by right).
  f_equal. unfold latest_step, wins. destruct (Hle f) as [Hlt| ->]; [by left|..].
  - rewrite (proj2 (Z.ltb_ge _ _)) by lia. rewrite (proj2 (Z.eqb_neq _ _)) by lia. done.
  - rewrite Z.ltb_irrefl, Z.eqb_refl. by destruct (f_op g).
Qed.

(** ** The two together *)

Lemma route_routable reverse_graph flakes routed :
  route reverse_graph flakes = inr routed → Forall (routable reverse_graph) flakes.
Proof.
  intros [<- Hr]%route_spec. induction Hr as [|[f g] routed Hf Hr IH]; [constructor|]. constructor; [by exists g|done].
Qed.

Lemma apply_commits_routable c nv commits reverse_graph out :
  apply_commits c nv commits reverse_graph = (None, out) →
  Forall (routable reverse_graph) (concat (fst <$> commits)).
Proof.
  revert c nv. induction commits as [|[flakes t] commits IH]; intros c nv; cbn [apply_commits]; [constructor|].
  destruct (apply_commit c nv flakes t reverse_graph) as [[e|] [nv1 c1]] eqn:E; [done|]. intros Hrun.
  csimpl. apply Forall_app. split; [|by eapply IH].
  unfold apply_commit in E. destruct flakes as [|f fs]; [constructor|].
  destruct (batch_too_large _); [done|]. destruct (route _ _) as [e|routed] eqn:Er; [done|].
  by apply route_routable in Er.
Qed.

Lemma commits_clean_ordered reverse_graph t commits :
  commits_clean reverse_graph t commits → Forall flake_ordered (concat (fst <$> commits)).
Proof.
  revert t. induction commits as [|[flakes u] commits IH]; intros t; [constructor|]. cbn [commits_clean].
  intros [(_ & Hfl & _) Hc]. csimpl. apply Forall_app. split; [|by eapply IH].
  eapply Forall_impl; [exact Hfl|]. by intros f [_ ?].
Qed.

Lemma routed_groups reverse_graph flakes g f :
  routes_ok reverse_graph → f ∈ routed_to reverse_graph g flakes → 0 <= g.
Proof.
  intros Hr [Hg _]%list_elem_of_filter. unfold goes_to in Hg.
  destruct (resolve_flake_g_id reverse_graph f) as [|h] eqn:E; [done|]. apply Z.eqb_eq in Hg as ->.
  by eapply resolve_nonneg.
Qed.

(** A graph built in bulk, and the facts recorded for it, agree with what
    applying [flakes] has left. *)
Lemma bulk_agrees reverse_graph nv flakes nv' nvb :
  novelty_ok nv → facts_exact nv → novelty_clean nv → Forall flake_ordered flakes →
  novelty_ok nv' → facts_exact nv' → tracked reverse_graph nv flakes nv' →
  novelty_ok nvb → facts_ordered (nv_fact_state nvb) →
  (∀ h, 0 <= h → graph_flakes nvb h = bulk_of (graph_flakes nv h) (routed_to reverse_graph h flakes)) →
  (∀ h x, 0 <= h → flake_ordered x →
     fact_get (nv_fact_state nvb) h x
     = match routed_to reverse_graph h flakes with
       | [] => fact_get (nv_fact_state nv) h x
       | new => foldl latest_step (fact_get (nv_fact_state nv) h x) (same_fact x (bulk_of (graph_flakes nv h) new))
       end) →
  facts_exact nvb
  ∧ (∀ g, 0 <= g → graph_flakes nvb g ≡ₚ graph_flakes nv' g)
  ∧ ∀ g x, 0 <= g → flake_ordered x → fact_get (nv_fact_state nvb) g x = fact_get (nv_fact_state nv') g x.
Proof.
  intros Hn [_ Hf] [Hh _] Hord Hn' [_ Hf'] (Htr & _ & _) Hnb Hfo Hgf Hfg.
  assert (∀ g x, 0 <= g → flake_ordered x → ∃ s k, s ≡ₚ same_fact x (graph_flakes nv g) ∧ ascending s
    ∧ same_fact x (graph_flakes nvb g) ≡ₚ s ++ k ∧ same_fact x (graph_flakes nv' g) ≡ₚ s ++ k) as Hfact.
  { intros g x Hg Hx. destruct (Htr g x Hg Hx) as (s & Hp & Ha & Hw). destruct (Hh g x Hg Hx) as (s' & Hp' & Ha' & Hw').
    pose proof (StronglySorted_app_1_l _ _ _ Ha) as Has.
    assert (s = s') as <- by (apply ascending_unique; [done|done|by rewrite Hp, Hp']).
    assert (Forall flake_ordered (routed_to reverse_graph g flakes)) as Hro.
    { rewrite Forall_forall in Hord |- *. intros f Hin%routed_to_in. auto. }
    exists s, (walk (walk_end false s) (same_fact x (routed_to reverse_graph g flakes))).
    assert (s ++ walk (walk_end false s) (same_fact x (routed_to reverse_graph g flakes))
      = walk false (s ++ same_fact x (routed_to reverse_graph g flakes))) as -> by (by rewrite walk_app, Hw').
    split_and!; [done..| |by rewrite Hw].
    rewrite Hgf by done. apply bulk_of_fact; try done. by apply novelty_ordered. }
  assert (∀ g x, 0 <= g → flake_ordered x →
    fact_get (nv_fact_state nvb) g x = latest (same_fact x (graph_flakes nvb g))) as Hex.
  { intros g x Hg Hx. rewrite Hfg, Hf by done. rewrite (Hgf g Hg).
    destruct (Hfact g x Hg Hx) as (s & k & Hs & Ha & Hb & _). rewrite (Hgf g Hg) in Hb.
    destruct (routed_to reverse_graph g flakes) as [|f new] eqn:E; [done|]. rewrite <- E in *. clear E.
    rewrite (foldl_latest_perm _ _ _ Hb), Hb, <- Hs, latest_again by done. unfold latest. by rewrite foldl_app. }
  split_and!; [by split| |].
  - intros g Hg. apply perm_by_facts; [by apply novelty_ordered..|]. intros x Hx.
    by destruct (Hfact g x Hg Hx) as (s & k & _ & _ & -> & ->).
  - intros g x Hg Hx. rewrite Hex, Hf' by done. by destruct (Hfact g x Hg Hx) as (s & k & _ & _ & -> & ->).
Qed.

(** The groups of phase 1 are fit for phase 2. *)
Lemma groups_ok reverse_graph flakes groups nv :
  routes_ok reverse_graph →
  (∀ g, groups !! g = match routed_to reverse_graph g flakes with
                      | [] => (∅ : gmap Z (list Flake)) !! g
                      | l => Some (default [] ((∅ : gmap Z (list Flake)) !! g) ++ l)
                      end) →
  (∀ g, Forall flake_ordered (routed_to reverse_graph g flakes)) →
  (∀ g, Forall flake_ordered (graph_flakes nv g)) →
  (∀ g, 0 <= g → fits (graph_flakes nv g) (routed_to reverse_graph g flakes)) →
  Forall (group_ok nv) (hash_iter groups).
Proof.
  intros Hr Egr Hro Hord Hfit. rewrite Forall_forall. intros [g new] Hin%elem_of_hash_iter.
  rewrite Egr, lookup_empty in Hin. destruct (routed_to reverse_graph g flakes) as [|f l] eqn:E; [done|].
  apply (inj Some) in Hin. simpl in Hin. subst new.
  assert (0 <= g) as Hg. { apply (routed_groups reverse_graph flakes g f Hr). rewrite E. by left. }
  unfold group_ok. simpl. rewrite <- E. by split_and!; [|rewrite E|..]; auto.
Qed.

Lemma bulk_sequential c cb nv commits reverse_graph nv' c' :
  routes_ok reverse_graph → novelty_ok nv → facts_exact nv → novelty_clean nv →
  commits_clean reverse_graph (nv_t nv) commits →
  (∀ g, 0 <= g → fits (graph_flakes nv g) (routed_to reverse_graph g (concat (fst <$> commits)))) →
  apply_commits c nv commits reverse_graph = (None, (nv', c')) →
  ∃ nvb cb', bulk_apply_commits cb nv commits reverse_graph = (None, (nvb, cb'))
    ∧ novelty_ok nvb ∧ facts_exact nvb
    ∧ (∀ g, 0 <= g → graph_flakes nvb g ≡ₚ graph_flakes nv' g)
    ∧ (∀ g x, 0 <= g → flake_ordered x → fact_get (nv_fact_state nvb) g x = fact_get (nv_fact_state nv') g x)
    ∧ (Forall (λ commit, commit.1 ≠ []) commits → nv_t nvb = nv_t nv').
Proof.
  intros Hr Hn Hf Hc Hcs Hfit Hrun. set (flakes := concat (fst <$> commits)) in *.
  pose proof (apply_commits_routable _ _ _ _ _ Hrun) as Hroutable. fold flakes in Hroutable.
  pose proof (commits_clean_ordered _ _ _ Hcs) as Hord. fold flakes in Hord.
  destruct (apply_commits_tracked reverse_graph nv [] c nv commits nv' c' Hr Hn Hf) as (Hn' & Hf' & Htr & Ht);
    [by apply tracked_start|done|done|]. rewrite app_nil_l in Htr. fold flakes in Htr.
  unfold bulk_apply_commits. fold flakes.
  destruct (bulk_partition_spec reverse_graph flakes ∅ nv Hroutable) as (groups & nv1 & -> & E1 & E2 & Egr).
  assert (∀ g, default [] (groups !! g) = routed_to reverse_graph g flakes) as Ebatch.
  { intros g. rewrite Egr, lookup_empty. by destruct (routed_to reverse_graph g flakes). }
  assert (∀ g, graph_flakes nv1 g = graph_flakes nv g) as Egf by (intros g; apply graph_flakes_ext, E1).
  assert (∀ g, Forall flake_ordered (routed_to reverse_graph g flakes)) as Hro.
  { intros g. rewrite Forall_forall in Hord |- *. intros f Hin%routed_to_in. auto. }
  destruct (decide (groups = ∅)) as [->|Hgne].
  - assert (∀ g, routed_to reverse_graph g flakes = []) as Hnil by (intros g; by rewrite <- Ebatch, lookup_empty).
    cbn beta iota zeta delta [bump_epoch].
    eexists _, _. split; [reflexivity|].
    match goal with |- novelty_ok ?b ∧ _ => set (nvb := b) end.
    assert (novelty_ok nvb) as Hnb.
    { apply (same_segments_ok nv); [exact E1|done]. }
    destruct (bulk_agrees reverse_graph nv flakes nv' nvb) as (? & ? & ?); try done.
    { simpl. rewrite E2. apply Hf. }
    { intros h _. rewrite Hnil. apply Egf. }
    { intros h x _ _. rewrite Hnil. simpl. by rewrite E2. }
    split_and!; try done. intros Hne. by rewrite Ht.
  - assert (Forall (group_ok nv1) (hash_iter groups)) as Hgo.
    { apply (groups_ok reverse_graph flakes); [done|done|done|intros g; rewrite Egf; by apply novelty_ordered|].
      intros g Hg. rewrite Egf. by apply Hfit. }
    set (max_t := foldl _ _ commits).
    pose proof (bulk_graphs_spec max_t cb (hash_iter groups) nv1 (NoDup_hash_iter _) Hgo) as Hspec.
    destruct (bulk_graphs max_t cb (hash_iter groups) nv1) as [nv2 cb2]. destruct Hspec as (S1 & S2 & S3 & S4).
    { rewrite (proj1 E1). apply Hn. }
    { rewrite E2. apply Hf. }
    simpl in S1, S2, S3, S4. cbn beta iota zeta delta [bump_epoch].
    eexists _, _. split; [reflexivity|].
    match goal with |- novelty_ok ?b ∧ _ => set (nvb := b) end.
    assert (novelty_ok nvb) as Hnb by (by apply recompute_totals_ok).
    destruct (bulk_agrees reverse_graph nv flakes nv' nvb) as (? & ? & ?); try done.
    { intros h Hh. rewrite <- (Ebatch h), <- batch_of_hash, <- Egf. by apply S3. }
    { intros h x Hh Hx. rewrite <- (Ebatch h), <- batch_of_hash, <- Egf, <- E2. by apply S4. }
    split_and!; try done. intros Hne. by rewrite Ht.
Qed.

(** Clean commits leave a clean overlay. *)
Lemma tracked_clean reverse_graph nv0 flakes nv :
  novelty_ok nv → tracked reverse_graph nv0 flakes nv → novelty_clean nv.
Proof.
  intros Hn (Htr & Hold & Hnew). split.
  - intros g x Hg Hx. destruct (Htr g x Hg Hx) as (s & _ & Ha & Hw).
    exists (walk false (s ++ same_fact x (routed_to reverse_graph g flakes))).
    split_and!; [done|by apply walk_ascending|apply walk_idem].
  - intros g f Hg Hin. pose proof (novelty_ordered nv g Hn) as Ho. rewrite Forall_forall in Ho.
    specialize (Ho f Hin). destruct (Htr g f Hg Ho) as (s & Hs & _ & Hw).
    assert (f ∈ walk false (s ++ same_fact f (routed_to reverse_graph g flakes))) as Hf.
    { rewrite Hw. apply list_elem_of_filter. split; [|done]. by apply (@cmp_refl _ _ _ key_cmp_order). }
    apply walk_sub, elem_of_app in Hf as [Hf|Hf].
    + rewrite Hs in Hf. apply same_fact_in in Hf as [Hf _]. by eapply Hold.
    + apply same_fact_in in Hf as [Hf%routed_to_in _]. rewrite Forall_forall in Hnew. by apply Hnew.
Qed.

Lemma novelty_new_clean t : novelty_clean (novelty_new t).
Proof.
  split; [intros g x _ _; exists []; split_and!; [done|constructor|done]|].
  intros g f _ Hin. by apply elem_of_nil in Hin.
Qed.
End bulk_ok.
