(* ===== verification/NoveltyTheorems.v ===== *)
(** * What the novelty overlay promises

    The overlay is a bag of flakes per graph ([graph_flakes]).  Every operation
    is specified on the bags, and the index of current facts is what the bags
    say. *)

From S2P Require Import Prelude Text CommitWire CommitOp Ordering FlakeOrder FlakeTheorems.
From S2P Require Import NoveltySegment NoveltyMerge NoveltyFacts Novelty.
From S2P Require Import Novelty NoveltyReads NoveltyApply NoveltyCompact NoveltyBulk.
From S2P Require Import FlakeTheorems.
#[local] Open Scope Z_scope.

Section theorems.
Context `{VO : ValueOrd} {AO : AttachmentOverlay} `{SO : Sorting} `{HI : HashIteration}.
Implicit Types nv : Novelty.

(** ** Histories of an overlay *)

Inductive nv_op :=
  | OApply (flakes : list Flake) (commit_t : Z) (reverse_graph : Sid → option Z)
  | OClear (cutoff_t : Z)
  | OCompact (tier_width : Z).

Definition run_op (o : nv_op) (nvc : Novelty * Counters) : Novelty * Counters :=
  match o with
  | OApply flakes commit_t reverse_graph => snd (apply_commit nvc.2 nvc.1 flakes commit_t reverse_graph)
  | OClear cutoff_t => clear_up_to nvc.2 nvc.1 cutoff_t
  | OCompact tier_width => snd (tier_compact nvc.2 nvc.1 tier_width)
  end.

Definition op_admissible (o : nv_op) : Prop :=
  match o with
  | OApply flakes _ reverse_graph => routes_ok reverse_graph ∧ Forall flake_ordered flakes
  | _ => True
  end.

Lemma novelty_new_ok t : novelty_ok (novelty_new t) ∧ facts_exact (novelty_new t).
Proof.
  split; [by constructor|]. split; [by intros g m Hm|]. by intros g x _ _.
Qed.

Lemma run_op_ok o nvc : op_admissible o → novelty_ok nvc.1 → facts_exact nvc.1 →
  novelty_ok (run_op o nvc).1 ∧ facts_exact (run_op o nvc).1.
Proof.
  destruct nvc as [nv c], o as [flakes t rg|cutoff|tw]; simpl; intros Ha Hn Hf.
  - destruct Ha as [Hr Ho]. pose proof (apply_commit_spec c nv flakes t rg Hn Hf Hr Ho) as Hs.
    destruct (apply_commit c nv flakes t rg) as [[e|] [nv' c']]; simpl; [by destruct Hs as [-> _]|].
    by destruct Hs as (? & ? & _).
  - by destruct (clear_up_to_spec c nv cutoff Hn Hf) as (? & ? & _).
  - pose proof (tier_compact_spec c nv tw Hn Hf) as Hs.
    destruct (tier_compact c nv tw) as [merges [nv' c']]. by destruct Hs as (? & ? & _).
Qed.

Lemma run_ops_ok ops nvc : Forall op_admissible ops → novelty_ok nvc.1 → facts_exact nvc.1 →
  let out := foldl (λ nvc o, run_op o nvc) nvc ops in novelty_ok out.1 ∧ facts_exact out.1.
Proof.
  intros Ha. revert nvc. induction Ha as [|o ops Ho Ha IH]; intros nvc Hn Hf; [done|].
  destruct (run_op_ok o nvc Ho Hn Hf). by apply IH.
Qed.

(** C13: The index of current facts is never out of step.  After any history of
    commits (refused ones included), clears and compactions of a new overlay,
    the totals are the sums over the segments, every segment is well formed,
    and a fact counts as asserted exactly when the latest of its flakes in the
    graph, a retraction first among those of one time, asserts it. *)
Theorem novelty_facts_exact t c ops g f :
  Forall op_admissible ops → 0 <= g → flake_ordered f →
  let nv := (foldl (λ nvc o, run_op o nvc) (novelty_new t, c) ops).1 in
  novelty_ok nv ∧ is_asserted (nv_fact_state nv) g f = asserted_in (graph_flakes nv g) f.
Proof.
  intros Ha Hg Hf nv. destruct (novelty_new_ok t) as [Hn He].
  destruct (run_ops_ok ops (novelty_new t, c) Ha Hn He) as [Hn' He']. split; [done|]. by apply is_asserted_exact.
Qed.

(** C14: Reading a range of an index gives every flake of the graph that lies in
    the range, at or before the time asked for, each as often as it is there
    and in index order: the zone maps prune nothing that belongs to the answer
    and the merge of the segments loses nothing.  The ids of a slice resolve
    to those flakes, in that order. *)
Theorem novelty_reads_exact nv g index b to_t :
  novelty_ok nv → bounds_ok b → 0 <= g →
  for_each_overlay_flake nv g index b to_t
    ≡ₚ filter (λ f, range_of index b f = true ∧ f_t f <= to_t) (graph_flakes nv g)
  ∧ sorted_by (compare index) (for_each_overlay_flake nv g index b to_t)
  ∧ get_flake nv <$> slice_for_range nv g index b = Some <$> range_flakes nv g index b.
Proof.
  intros Hn Hb Hg. destruct (range_flakes_ok nv g index b Hn Hb) as [Hp Hs]. unfold for_each_overlay_flake.
  split_and!; [|by apply sorted_by_filter|by apply slice_for_range_ok].
  rewrite Hp, list_filter_filter. apply reflexive_eq, list_filter_iff. intros f. tauto.
Qed.

(** C30: Applying a commit is all or nothing and keeps to set semantics: an
    error leaves the overlay and the counters as they were; otherwise each
    graph gains the flakes of the commit routed to it, in order, less the
    assertions of facts that held before.  [can_apply] tells beforehand which
    of the two it will be. *)
Theorem novelty_apply_commit c nv flakes commit_t reverse_graph :
  novelty_ok nv → facts_exact nv → routes_ok reverse_graph → Forall flake_ordered flakes → flakes ≠ [] →
  let out := apply_commit c nv flakes commit_t reverse_graph in
  (can_apply nv flakes reverse_graph = None ↔ out.1 = None)
  ∧ match out with
    | (Some _, unchanged) => unchanged = (nv, c)
    | (None, (nv', _)) =>
        nv_t nv' = Z.max (nv_t nv) commit_t
        ∧ ∀ g, 0 <= g → graph_flakes nv' g
            = graph_flakes nv g ++ set_keep (graph_flakes nv g) (routed_to reverse_graph g flakes)
    end.
Proof.
  intros Hn Hf Hr Ho Hne. cbn zeta. split; [by apply can_apply_iff|].
  pose proof (apply_commit_spec c nv flakes commit_t reverse_graph Hn Hf Hr Ho) as Hs.
  destruct (apply_commit c nv flakes commit_t reverse_graph) as [[e|] [nv' c']]; [by destruct Hs as [-> ->]|].
  destruct Hs as (_ & _ & Hg & Ht). split; [by destruct flakes|done].
Qed.

(** Clearing what an index covers keeps exactly the flakes after the cutoff,
    in their order, whether a segment is dropped, kept or cut; the index of
    current facts is then that of the survivors. *)
Theorem novelty_clear_exact c nv cutoff_t :
  novelty_ok nv → facts_exact nv →
  let nv' := fst (clear_up_to c nv cutoff_t) in
  (∀ g, graph_flakes nv' g = filter (λ f, cutoff_t < f_t f) (graph_flakes nv g))
  ∧ (∀ g f, 0 <= g → flake_ordered f →
       is_asserted (nv_fact_state nv') g f = asserted_in (filter (λ f, cutoff_t < f_t f) (graph_flakes nv g)) f)
  ∧ nv_t nv' = nv_t nv.
Proof.
  intros Hn Hf nv'. destruct (clear_up_to_spec c nv cutoff_t Hn Hf) as (_ & Hex & Ht & Hg).
  split_and!; [exact Hg| |done]. intros g f Hg0 Hfo.
  pose proof (is_asserted_exact nv' g f Hex Hg0 Hfo) as E. unfold nv' in E at 2. rewrite Hg in E. exact E.
Qed.

(** C31: Compaction is invisible to readers, and settles on small graphs.  A call
    changes neither what a read of any range gives, up to the order of flakes
    that compare equal, nor which facts are asserted; while one is needed a call
    makes at least one merge; and if the flakes of each graph fit one segment
    ([MAX_SEGMENT_FLAKES]) and the tier width is at least 2, then at most as
    many calls as there are segments reach a state where none is needed.
    Without the first condition they need not: a tier of full segments is
    rewritten by every call. *)
Theorem novelty_compaction c nv tier_width :
  novelty_ok nv → facts_exact nv →
  let out := tier_compact c nv tier_width in
  (∀ g index b to_t, 0 <= g → bounds_ok b →
     for_each_overlay_flake out.2.1 g index b to_t ≡ₚ for_each_overlay_flake nv g index b to_t
     ∧ sorted_by (compare index) (for_each_overlay_flake out.2.1 g index b to_t))
  ∧ (∀ g f, 0 <= g → flake_ordered f →
       is_asserted (nv_fact_state out.2.1) g f = is_asserted (nv_fact_state nv) g f)
  ∧ (needs_tier_compaction nv tier_width = true → 0 < out.1)
  ∧ (graphs_small nv → 2 <= tier_width →
     ∃ n, Z.of_nat n <= zsum slot_len (nv_graphs nv)
       ∧ needs_tier_compaction (fst (compact_times n tier_width c nv)) tier_width = false).
Proof.
  intros Hn Hf. cbn zeta. pose proof (tier_compact_spec c nv tier_width Hn Hf) as Hs.
  pose proof (needs_tier_compaction_progress c nv tier_width Hn) as Hp.
  destruct (tier_compact c nv tier_width) as [merges [nv' c']]. destruct Hs as (Hn' & Hf' & _ & _ & Hg & _).
  simpl in *. split_and!; [| |naive_solver|intros; by apply compact_converges].
  - intros g index b to_t Hg0 Hb. unfold for_each_overlay_flake.
    destruct (range_flakes_ok nv g index b Hn Hb) as [Hold _].
    destruct (range_flakes_ok nv' g index b Hn' Hb) as [Hperm Hsort].
    split; [by rewrite Hold, Hperm, Hg|by apply sorted_by_filter].
  - intros g f Hg0 Hfo. rewrite !is_asserted_exact by done. unfold asserted_in.
    by rewrite (same_fact_perm f _ _ (Hg g)).
Qed.

(** C15: Loading commits in bulk gives what applying them one by one gives: the
    same flakes in every graph, the same current facts, the same time; for
    commits as a ledger makes them, each later than the last and with no fact
    twice in a graph, on an overlay that such commits led to. *)
Theorem bulk_matches_sequential c c_bulk nv commits reverse_graph nv' c' :
  routes_ok reverse_graph → novelty_ok nv → facts_exact nv → novelty_clean nv →
  commits_clean reverse_graph (nv_t nv) commits → Forall (λ commit, commit.1 ≠ []) commits →
  (∀ g, 0 <= g → fits (graph_flakes nv g) (routed_to reverse_graph g (concat (fst <$> commits)))) →
  apply_commits c nv commits reverse_graph = (None, (nv', c')) →
  ∃ nv_bulk c_bulk', bulk_apply_commits c_bulk nv commits reverse_graph = (None, (nv_bulk, c_bulk'))
    ∧ nv_t nv_bulk = nv_t nv'
    ∧ ∀ g, 0 <= g →
        graph_flakes nv_bulk g ≡ₚ graph_flakes nv' g
        ∧ ∀ f, flake_ordered f →
            is_asserted (nv_fact_state nv_bulk) g f = is_asserted (nv_fact_state nv') g f.
Proof.
  intros Hr Hn Hf Hc Hcs Hne Hfit Hrun.
  destruct (bulk_sequential c c_bulk nv commits reverse_graph nv' c') as (nvb & cb & ? & _ & _ & Hg & Hfg & Ht); [done..|].
  exists nvb, cb. split_and!; [done|by apply Ht|]. intros g Hg0. split; [by apply Hg|].
  intros f Hfo. specialize (Hfg g f Hg0 Hfo). unfold is_asserted. by rewrite Hfg.
Qed.
End theorems.

(** * A concrete novelty overlay

    Maps iterated in key order, attachments as the flakes observed; witnesses
    of the claims on the overlay, and where bulk loading and sequential
    application part. *)

#[export] Instance plain_iteration : HashIteration := {|
  hash_iter V m := map_to_list m;
  hash_iter_perm V m := Permutation_refl _;
|}.

#[export] Instance plain_attachments : AttachmentOverlay (H := plain_values) := {|
  AttachmentNovelty := list Flake;
  attachments_new := [];
  observe_flakes := app;
|}.

#[local] Existing Instance insertion_sorting.

Definition c0 : Counters := mkCounters 1 1.
Definition no_graphs : Sid → option Z := λ _, None.
Definition three (subject : string) (t : Z) (op : bool) : Flake := fact subject long_3 t op.

Lemma no_graphs_ok : routes_ok no_graphs.
Proof. done. Qed.
Lemma three_ordered subject t op : flake_ordered (three subject t op).
Proof. intros n [= <-]. by eexists. Qed.
#[local] Hint Resolve no_graphs_ok three_ordered : core.

Definition demo_ops : list nv_op :=
  [OApply [three "a" 1 true; three "b" 1 true] 1 no_graphs; OApply [three "a" 2 false] 2 no_graphs; OCompact 2;
   OApply [three "c" 3 true] 3 no_graphs; OApply [three "a" 4 true; three "c" 4 true] 4 no_graphs].
Definition demo_nv : Novelty := (foldl (λ nvc o, run_op o nvc) (novelty_new 0, c0) demo_ops).1.

Lemma demo_admissible : Forall op_admissible demo_ops.
Proof. repeat constructor; auto; apply three_ordered. Qed.
Lemma demo_ok : novelty_ok demo_nv ∧ facts_exact demo_nv.
Proof.
  destruct (novelty_new_ok 0) as [Hn Hf]. pose proof (run_ops_ok demo_ops (novelty_new 0, c0) demo_admissible Hn Hf) as Hrun.
  cbn zeta in Hrun. unfold demo_nv. exact Hrun.
Qed.

Lemma novelty_facts_exact_witness :
  is_asserted (nv_fact_state demo_nv) 0 (three "a" 0 true) = true
  ∧ asserted_in (graph_flakes demo_nv 0) (three "b" 0 true) = true.
Proof.
  split.
  - destruct (novelty_facts_exact 0 c0 demo_ops 0 (three "a" 0 true) demo_admissible ltac:(done) (three_ordered _ _ _))
      as [_ Ha]. etrans; [exact Ha|]. by vm_compute.
  - by vm_compute.
Defined.

Definition subject_a : bounds :=
  (Some (min_for_subject (mkSid 100 "a")), Some (max_for_subject (mkSid 100 "a")), true).
Lemma subject_a_ok : bounds_ok subject_a.
Proof. split; intros f [= <-]; [intros n Hn; vm_compute in Hn; discriminate|constructor]. Qed.

Lemma novelty_reads_exact_witness :
  for_each_overlay_flake demo_nv 0 Spot subject_a 3 ≡ₚ [three "a" 1 true; three "a" 2 false].
Proof.
  destruct (novelty_reads_exact demo_nv 0 Spot subject_a 3 (proj1 demo_ok) subject_a_ok ltac:(done)) as [Hp _].
  etrans; [exact Hp|]. by vm_compute.
Defined.

Lemma novelty_apply_commit_witness :
  let flakes := [three "b" 5 true; three "c" 5 false] in
  graph_flakes (apply_commit c0 demo_nv flakes 5 no_graphs).2.1 0
  = graph_flakes demo_nv 0 ++ [three "c" 5 false].
Proof.
  destruct (novelty_apply_commit c0 demo_nv [three "b" 5 true; three "c" 5 false] 5 no_graphs
    (proj1 demo_ok) (proj2 demo_ok) no_graphs_ok) as [_ Hm]; [repeat (constructor; [apply three_ordered|]); constructor|done|].
  assert (fst (apply_commit c0 demo_nv [three "b" 5 true; three "c" 5 false] 5 no_graphs) = None) as E
    by (by vm_compute).
  cbn zeta. destruct (apply_commit _ _ _ _ _) as [[e|] [nv' c']]; [discriminate E|].
  destruct Hm as [_ Hg]. cbn [snd fst]. etrans; [exact (Hg 0 ltac:(done))|]. by vm_compute.
Defined.

Lemma novelty_clear_exact_witness :
  graph_flakes (fst (clear_up_to c0 demo_nv 2)) 0 = [three "c" 3 true; three "a" 4 true].
Proof.
  destruct (novelty_clear_exact c0 demo_nv 2 (proj1 demo_ok) (proj2 demo_ok)) as [Hg _].
  etrans; [exact (Hg 0)|]. by vm_compute.
Defined.

Lemma novelty_compaction_witness :
  let out := tier_compact c0 demo_nv 2 in
  0 < out.1 ∧ is_asserted (nv_fact_state out.2.1) 0 (three "a" 0 true) = true.
Proof.
  destruct (novelty_compaction c0 demo_nv 2 (proj1 demo_ok) (proj2 demo_ok)) as (_ & Ha & Hneeds & _).
  split; [apply Hneeds; by vm_compute|].
  etrans; [exact (Ha 0 (three "a" 0 true) ltac:(done) (three_ordered _ _ _))|]. by vm_compute.
Defined.

(** ** Bulk loading *)

Definition demo_commits : list (list Flake * Z) :=
  [([three "a" 1 true; three "b" 1 true], 1); ([three "a" 2 false; three "b" 2 true], 2); ([three "a" 3 true], 3)].

Lemma distinct_facts_filter (P : Flake → Prop) `{!∀ f, Decision (P f)} l :
  distinct_facts l = true → distinct_facts (filter P l) = true.
Proof.
  induction l as [|f l IH]; [done|]. cbn [distinct_facts]. intros [Hf Hl]%andb_true_iff.
  rewrite filter_cons. case_decide; [|by apply IH]. cbn [distinct_facts]. rewrite IH by done.
  rewrite andb_true_r. rewrite forallb_forall in Hf |- *. intros y Hy. apply Hf.
  rewrite <- list_elem_of_In in Hy |- *. by apply list_elem_of_filter in Hy as [_ ?].
Qed.

Lemma demo_commits_clean : commits_clean no_graphs 0 demo_commits.
Proof.
  repeat split; try (repeat constructor; apply three_ordered);
    intros g; apply distinct_facts_filter; by vm_compute.
Qed.

Lemma bulk_matches_sequential_witness :
  let '(_, (nv', _)) := apply_commits c0 (novelty_new 0) demo_commits no_graphs in
  let '(_, (nv_bulk, _)) := bulk_apply_commits c0 (novelty_new 0) demo_commits no_graphs in
  graph_flakes nv_bulk 0 ≡ₚ graph_flakes nv' 0 ∧ is_asserted (nv_fact_state nv_bulk) 0 (three "a" 0 true) = true.
Proof.
  assert (fst (apply_commits c0 (novelty_new 0) demo_commits no_graphs) = None
    ∧ is_asserted (nv_fact_state (apply_commits c0 (novelty_new 0) demo_commits no_graphs).2.1) 0 (three "a" 0 true)
      = true) as [E0 E1] by (split; by vm_compute).
  destruct (apply_commits c0 (novelty_new 0) demo_commits no_graphs) as [[e|] [nv' c']] eqn:E; [discriminate E0|].
  destruct (novelty_new_ok 0) as [Hn Hf].
  destruct (bulk_matches_sequential c0 c0 (novelty_new 0) demo_commits no_graphs nv' c') as (nvb & cb & Hb & _ & Hg).
  - done.
  - exact Hn.
  - exact Hf.
  - apply novelty_new_clean.
  - exact demo_commits_clean.
  - by repeat constructor.
  - intros g _. unfold fits.
    pose proof (length_filter (λ f, goes_to no_graphs g f = true) (concat (fst <$> demo_commits))) as Hl.
    change (graph_flakes (novelty_new 0) g) with (@nil Flake). rewrite app_nil_l.
    change (length (concat (fst <$> demo_commits))) with 5%nat in Hl. unfold routed_to.
    assert (5 <= MAX_SEGMENTS * MAX_SEGMENT_FLAKES) by done. etrans; [apply Nat2Z.inj_le; exact Hl|done].
  - exact E.
  - rewrite Hb. destruct (Hg 0) as [Hp Ha]; [done|]. split; [exact Hp|].
    etrans; [exact (Ha _ (three_ordered _ _ _))|exact E1].
Defined.

(** A commit that retracts a fact and asserts it again. *)
Definition reasserting : list (list Flake * Z) :=
  [([three "a" 5 false; three "a" 5 true], 5); ([three "a" 7 true], 7)].

(** Bulk loading and sequential application part on a commit that retracts
    a fact and asserts it at the same time.  Both keep the two flakes, of which
    the retraction counts; but the bulk walk takes the fact for asserted and
    drops its assertion by the next commit, so that the fact is lost. *)
Theorem bulk_loses_reassertion :
  let seq := apply_commits c0 (novelty_new 0) reasserting no_graphs in
  let bulk := bulk_apply_commits c0 (novelty_new 0) reasserting no_graphs in
  seq.1 = None ∧ bulk.1 = None
  ∧ graph_flakes seq.2.1 0 = [three "a" 5 false; three "a" 5 true; three "a" 7 true]
  ∧ is_asserted (nv_fact_state seq.2.1) 0 (three "a" 0 true) = true
  ∧ graph_flakes bulk.2.1 0 = [three "a" 5 false; three "a" 5 true]
  ∧ is_asserted (nv_fact_state bulk.2.1) 0 (three "a" 0 true) = false.
Proof. split_and!; by vm_compute. Qed.
