(* ===== verification/Accumulator.v ===== *)
(** * Staging: cancellation of assertions and retractions
    ([fluree-db-transact/src/generate/accumulator.rs], [cancellation.rs],
    [stage.rs])

    The accumulator that a transaction pushes its flakes into, in batches and
    waves, and the survivor set it leaves.  A hash map keyed by flakes is a list of entries searched by
    [flake_eq]; the order in which it is drained is a parameter. *)

From S2P Require Import Prelude Text CommitWire CommitOp Ordering FlakeOrder FlakeTheorems.
From S2P Require Import FlakeEq NoveltyMerge NoveltyFacts Novelty NoveltyApply NoveltyBulk.
#[local] Open Scope Z_scope.

(** The order in which a hash map is drained. *)
Class HashDrain := {
  drain : ∀ {A}, list A → list A;
  drain_perm : ∀ {A} (l : list A), drain l ≡ₚ l;
}.

Definition u32_max : Z := 2 ^ 32 - 1.
Definition saturating_incr (n : Z) : Z := Z.min u32_max (n + 1).

Section accumulator.
Context `{VO : ValueOrd} `{SO : Sorting} `{HD : HashDrain}.

Record FlakeBucket := mkBucket {
  assert_count : Z;
  retract_count : Z;
  assertion : option Flake;
  retraction : option Flake;
}.

Inductive AccInner :=
  | PureRetract (graphs : list (option Sid * list Flake))
  | Mixed (graphs : list (option Sid * list (Flake * FlakeBucket))).

Record FlakeAccumulator := mkAcc {
  inner : AccInner;
  input_count : Z;
  capacity_hint : Z;
  set_assertions : bool;
}.

Definition pure_delete (hint : Z) : FlakeAccumulator := mkAcc (PureRetract []) 0 hint false.
Definition mixed (hint : Z) : FlakeAccumulator := mkAcc (Mixed []) 0 hint false.

Definition supports_assertions (acc : FlakeAccumulator) : bool :=
  match inner acc with Mixed _ => true | PureRetract _ => false end.

(** [graphs.entry(g).or_insert_with(..)], then an update of the entry. *)
Fixpoint graph_update {A} (g : option Sid) (empty : A) (upd : A → A) (graphs : list (option Sid * A))
  : list (option Sid * A) :=
  match graphs with
  | [] => [(g, upd empty)]
  | (h, x) :: graphs =>
      if decide (g = h) then (h, upd x) :: graphs else (h, x) :: graph_update g empty upd graphs
  end.

(** [HashSet::insert], which keeps the flake that is there. *)
Definition set_insert (f : Flake) (set : list Flake) : list Flake :=
  if existsb (λ k, flake_eq k f) set then set else set ++ [f].

(** The bucket of a fact when one more flake of it is pushed. *)
Definition bucket_step (set_assertions : bool) (b : FlakeBucket) (f : Flake) : FlakeBucket :=
  if f_op f then
    mkBucket (if negb (set_assertions && (0 <? assert_count b)) then saturating_incr (assert_count b)
              else assert_count b)
      (retract_count b) (Some f) (retraction b)
  else mkBucket (assert_count b) (saturating_incr (retract_count b)) (assertion b) (Some f).

Definition new_bucket (f : Flake) : FlakeBucket :=
  if f_op f then mkBucket 1 0 (Some f) None else mkBucket 0 1 None (Some f).

Fixpoint push_into_mixed (set_assertions : bool) (map : list (Flake * FlakeBucket)) (f : Flake)
  : list (Flake * FlakeBucket) :=
  match map with
  | [] => [(f, new_bucket f)]
  | (k, b) :: map =>
      if flake_eq k f then (k, bucket_step set_assertions b f) :: map
      else (k, b) :: push_into_mixed set_assertions map f
  end.

Definition push_mixed (set_assertions : bool) (graphs : list (option Sid * list (Flake * FlakeBucket)))
    (f : Flake) : list (option Sid * list (Flake * FlakeBucket)) :=
  graph_update (f_g f) [] (λ map, push_into_mixed set_assertions map f) graphs.

Definition push_retractions (acc : FlakeAccumulator) (flakes : list Flake) : FlakeAccumulator :=
  let graphs := match inner acc with
                | PureRetract graphs =>
                    PureRetract (foldl (λ graphs f, graph_update (f_g f) [] (set_insert f) graphs) graphs flakes)
                | Mixed graphs => Mixed (foldl (push_mixed (set_assertions acc)) graphs flakes)
                end in
  mkAcc graphs (input_count acc + Z.of_nat (length flakes)) (capacity_hint acc) (set_assertions acc).

(** [None] is the panic of an assertion pushed into a pure-delete accumulator. *)
Definition push_assertions (acc : FlakeAccumulator) (flakes : list Flake) : option FlakeAccumulator :=
  match inner acc with
  | PureRetract _ => match flakes with [] => Some acc | _ => None end
  | Mixed graphs =>
      Some (mkAcc (Mixed (foldl (push_mixed (set_assertions acc)) graphs flakes))
              (input_count acc + Z.of_nat (length flakes)) (capacity_hint acc) (set_assertions acc))
  end.

(** What a bucket leaves. *)
Definition bucket_survivors (b : FlakeBucket) : list Flake :=
  let cancel := Z.min (assert_count b) (retract_count b) in
  (if cancel <? assert_count b then option_list (assertion b) else [])
  ++ (if cancel <? retract_count b then option_list (retraction b) else []).

Definition finalize (acc : FlakeAccumulator) : list Flake :=
  let out := match inner acc with
             | PureRetract graphs => concat ((λ e, drain e.2) <$> drain graphs)
             | Mixed graphs =>
                 concat ((λ e, concat ((λ kb, bucket_survivors kb.2) <$> drain e.2)) <$> drain graphs)
             end in
  sort_unstable_by false (compare Spot) out.

Definition push_one (acc : option FlakeAccumulator) (f : Flake) : option FlakeAccumulator :=
  acc ← acc; if f_op f then push_assertions acc [f] else Some (push_retractions acc [f]).

Definition apply_cancellation (flakes : list Flake) : option (list Flake) :=
  match flakes with
  | [] => Some []
  | _ => finalize <$> foldl push_one (Some (mixed (Z.of_nat (length flakes)))) flakes
  end.

Definition dedup_retractions (retractions : list Flake) : list Flake :=
  finalize (push_retractions (pure_delete (Z.of_nat (length retractions))) retractions).

(** ** Staging ([stage.rs]: [stage_with_graph_delta], its waves and scan)

    The generators are left out: a batch of the WHERE stream is what they make
    of it, retractions first. *)








(** ** The flakes of one fact *)

Definition of_graph (g : option Sid) (l : list Flake) : list Flake := filter (λ f, f_g f = g) l.
Definition of_fact (x : Flake) (l : list Flake) : list Flake := filter (λ f, flake_eq x f = true) l.

Lemma new_bucket_step set f : new_bucket f = bucket_step set (mkBucket 0 0 None None) f.
Proof. unfold new_bucket, bucket_step. simpl. by rewrite andb_false_r. Qed.

(** The bucket of a fact is the fold of its flakes. *)
Definition bucket_of (set : bool) (x : Flake) (l : list Flake) : FlakeBucket :=
  foldl (bucket_step set) (mkBucket 0 0 None None) (of_fact x l).

Lemma flake_eq_cong k x f : flake_plain k → flake_plain x → flake_plain f → flake_eq k x = true →
  flake_eq k f = flake_eq x f.
Proof.
  intros Pk Px Pf. rewrite flake_eq_key by done. intros E. apply eq_true_iff_eq. rewrite !flake_eq_key by done.
  by rewrite (@cmp_eq_subst _ _ _ key_cmp_order k x f) by (done || apply Pk || apply Px || apply Pf).
Qed.

Lemma of_fact_cong k x l : flake_plain k → flake_plain x → Forall flake_plain l → flake_eq k x = true →
  of_fact k l = of_fact x l.
Proof.
  intros Pk Px Hl E. unfold of_fact. induction Hl as [|f l Pf Hl IH]; [done|]. rewrite !filter_cons, IH.
  by rewrite (flake_eq_cong k x f).
Qed.

Lemma of_fact_app x l k : of_fact x (l ++ k) = of_fact x l ++ of_fact x k.
Proof. apply filter_app. Qed.

Lemma bucket_of_snoc set x l f : bucket_of set x (l ++ [f])
  = if flake_eq x f then bucket_step set (bucket_of set x l) f else bucket_of set x l.
Proof.
  unfold bucket_of. rewrite of_fact_app, foldl_app. unfold of_fact at 2. rewrite filter_cons, filter_nil.
  by destruct (flake_eq x f).
Qed.

Lemma flake_eq_refl f : flake_plain f → flake_eq f f = true.
Proof. intros Pf. apply flake_eq_key; [done..|]. apply (@cmp_refl _ _ _ key_cmp_order). Qed.
Lemma flake_eq_sym f g : flake_plain f → flake_plain g → flake_eq f g = flake_eq g f.
Proof.
  intros Pf Pg. apply eq_true_iff_eq. rewrite !flake_eq_key by done. split; apply (@cmp_eq_sym _ _ _ key_cmp_order).
Qed.

(** ** The map of one graph *)

Definition keys_apart (m : list (Flake * FlakeBucket)) : Prop :=
  StronglySorted (λ a b, flake_eq a.1 b.1 = false) m.
Definition entries_ok (set : bool) (m : list (Flake * FlakeBucket)) (l : list Flake) : Prop :=
  Forall (λ e, flake_plain e.1 ∧ e.2 = bucket_of set e.1 l) m.
Definition covers (m : list (Flake * FlakeBucket)) (l : list Flake) : Prop :=
  ∀ f, f ∈ l → ∃ e, e ∈ m ∧ flake_eq e.1 f = true.

Record map_inv (set : bool) (m : list (Flake * FlakeBucket)) (l : list Flake) : Prop := {
  mi_apart : keys_apart m;
  mi_entries : entries_ok set m l;
  mi_covers : covers m l;
}.

Lemma push_keys set m f e : e ∈ push_into_mixed set m f → e.1 = f ∨ ∃ e', e' ∈ m ∧ e'.1 = e.1.
Proof.
  induction m as [|[k b] m IH]; simpl; [intros He%list_elem_of_singleton; subst e; by left|].
  destruct (flake_eq k f); rewrite !elem_of_cons.
  - intros [->|He]; right; [by exists (k, b); split; [left|]|exists e; split; [by right|done]].
  - intros [->|He]; [right; exists (k, b); split; [by left|done]|].
    destruct (IH He) as [->|(e' & ? & ?)]; [by left|right; exists e'; split; [by right|done]].
Qed.

Lemma push_keeps set m f e : e ∈ m → ∃ e', e' ∈ push_into_mixed set m f ∧ e'.1 = e.1.
Proof.
  induction m as [|[k b] m IH]; [by intros ?%elem_of_nil|]. simpl.
  intros [->|He]%elem_of_cons; destruct (flake_eq k f).
  - eexists. split; [by left|done].
  - eexists. split; [by left|done].
  - exists e. split; [by right|done].
  - destruct (IH He) as (e' & ? & ?). exists e'. split; [by right|done].
Qed.

Lemma push_found set m f : flake_plain f → ∃ e, e ∈ push_into_mixed set m f ∧ flake_eq e.1 f = true.
Proof.
  intros Pf. induction m as [|[k b] m IH]; simpl.
  - exists (f, new_bucket f). split; [by left|by apply flake_eq_refl].
  - destruct (flake_eq k f) eqn:E; [eexists; split; [by left|done]|].
    destruct IH as (e & ? & ?). exists e. split; [by right|done].
Qed.

Lemma push_apart set m f : flake_plain f → Forall (λ e, flake_plain e.1) m →
  keys_apart m → keys_apart (push_into_mixed set m f).
Proof.
  intros Pf Pm. induction 1 as [|[k b] m Hs IH Hk]; simpl; [repeat constructor|].
  apply Forall_cons in Pm as [Pk Pm]. simpl in Pk, Hk. rewrite Forall_forall in Hk.
  destruct (flake_eq k f) eqn:E; constructor; try done; [by rewrite Forall_forall|by apply IH|].
  rewrite Forall_forall. intros e He. simpl.
  destruct (push_keys _ _ _ _ He) as [->|(e' & He' & <-)]; [done|by apply Hk].
Qed.

Lemma push_entries set m f l :
  flake_plain f → Forall flake_plain l → keys_apart m → entries_ok set m l →
  (Forall (λ e, flake_eq e.1 f = false) m → of_fact f l = []) →
  entries_ok set (push_into_mixed set m f) (l ++ [f]).
Proof.
  intros Pf Pl. induction 1 as [|[k b] m Hs IH Hk]; intros He Hnew; simpl.
  - constructor; [|constructor]. split; [done|]. simpl.
    rewrite bucket_of_snoc, flake_eq_refl by done. unfold bucket_of. rewrite Hnew by constructor. simpl.
    apply new_bucket_step.
  - apply Forall_cons in He as [[Pk Eb0] He]. simpl in *. subst b. destruct (flake_eq k f) eqn:E.
    + constructor; [split; [done|]; simpl; by rewrite bucket_of_snoc, E|].
      unfold entries_ok in He |- *. rewrite Forall_forall in He, Hk |- *. intros [k' b'] Hin.
      destruct (He _ Hin) as [Pk' Eb]. specialize (Hk _ Hin). simpl in *. split; [done|].
      rewrite bucket_of_snoc. assert (flake_eq k' f = false) as ->; [|done].
      rewrite (flake_eq_sym k' f) by done. rewrite <- (flake_eq_cong k f k') by done. done.
    + constructor; [split; [done|]; simpl; by rewrite bucket_of_snoc, E|].
      apply IH; [done|]. intros Hm. apply Hnew. by constructor.
Qed.

Lemma push_into_mixed_inv set m f l : flake_plain f → Forall flake_plain l →
  map_inv set m l → map_inv set (push_into_mixed set m f) (l ++ [f]).
Proof.
  intros Pf Pl [Ha He Hc].
  assert (Forall (λ e, flake_plain e.1) m) as Pm by (eapply Forall_impl; [exact He|]; by intros e [? _]).
  split; [by apply push_apart| |].
  - apply push_entries; [done..|]. intros Hm. apply list_filter_none. rewrite Forall_forall in Pl |- *.
    rewrite Forall_forall in Hm, Pm.
    intros y Hy Hfy. destruct (Hc y Hy) as (e & Hin & Hey). specialize (Hm e Hin).
    rewrite (flake_eq_cong e.1 y f), (flake_eq_sym y f) in Hm by auto. congruence.
  - intros y [Hy|Hy%list_elem_of_singleton]%elem_of_app; [|subst y; by apply push_found].
    destruct (Hc y Hy) as (e & Hin & Hey). destruct (push_keeps set m f e Hin) as (e' & ? & E').
    exists e'. by rewrite E'.
Qed.

(** ** What is left of one fact *)

(** A bucket holds flakes of its fact. *)
Lemma bucket_of_last set x l :
  let b := bucket_of set x l in
  assertion b = last (filter (λ f, f_op f = true) (of_fact x l))
  ∧ retraction b = last (filter (λ f, f_op f = false) (of_fact x l)).
Proof.
  unfold bucket_of. induction (of_fact x l) as [|f k IH] using rev_ind; [done|]. cbn zeta in *.
  rewrite foldl_app, !filter_app. simpl. rewrite !filter_cons, !filter_nil. unfold bucket_step.
  destruct IH as [IHa IHr]. destruct (f_op f); simpl; rewrite ?last_snoc, ?app_nil_r; done.
Qed.

Lemma bucket_survivors_in set x l f : f ∈ bucket_survivors (bucket_of set x l) → f ∈ of_fact x l.
Proof.
  destruct (bucket_of_last set x l) as [Ea Er]. unfold bucket_survivors. rewrite Ea, Er.
  assert (∀ (P : Flake → Prop) `{!∀ f, Decision (P f)}, f ∈ option_list (last (filter P (of_fact x l))) →
    f ∈ of_fact x l) as Hlast.
  { intros P ? Hin. destruct (last (filter P (of_fact x l))) as [y|] eqn:E; [|by apply elem_of_nil in Hin].
    apply list_elem_of_singleton in Hin as Hy. subst y. apply last_Some_elem_of in E. by apply list_elem_of_filter in E as [_ ?]. }
  intros [Hf|Hf]%elem_of_app; (destruct (_ <? _); [by eapply Hlast|by apply elem_of_nil in Hf]).
Qed.

Definition map_survivors (m : list (Flake * FlakeBucket)) : list Flake :=
  concat ((λ kb, bucket_survivors kb.2) <$> m).

Lemma survivors_of_entry set k x l : flake_plain k → flake_plain x → Forall flake_plain l →
  of_fact x (bucket_survivors (bucket_of set k l))
  = if flake_eq k x then bucket_survivors (bucket_of set x l) else [].
Proof.
  intros Pk Px Pl.
  assert (∀ f, f ∈ bucket_survivors (bucket_of set k l) → flake_eq x f = flake_eq k x) as Hall.
  { intros f [Hkf Hf]%bucket_survivors_in%list_elem_of_filter. rewrite Forall_forall in Pl.
    rewrite (flake_eq_cong k f x Pk (Pl f Hf) Px Hkf). by rewrite flake_eq_sym by auto. }
  destruct (flake_eq k x) eqn:E.
  - assert (bucket_of set k l = bucket_of set x l) as <-.
    { unfold bucket_of. by rewrite (of_fact_cong k x). }
    apply list_filter_id, Forall_forall. auto.
  - apply list_filter_none, Forall_forall. intros f Hf. by rewrite (Hall f Hf).
Qed.

Lemma map_survivors_fact set m l x : flake_plain x → Forall flake_plain l → map_inv set m l →
  of_fact x (map_survivors m) = bucket_survivors (bucket_of set x l).
Proof.
  intros Px Pl [Ha He Hc].
  assert (of_fact x (map_survivors m)
    = if existsb (λ e, flake_eq e.1 x) m then bucket_survivors (bucket_of set x l) else []) as ->.
  { clear Hc. induction Ha as [|[k b] m Hs IH Hk]; [done|]. apply Forall_cons in He as [[Pk Eb] He]. simpl in Pk, Eb, Hk.
    subst b. unfold map_survivors. csimpl. rewrite of_fact_app, survivors_of_entry by done.
    fold (map_survivors m). rewrite IH by done. destruct (flake_eq k x) eqn:E; [|done]. simpl.
    destruct (existsb _ m) eqn:Ex; [|by rewrite app_nil_r]. apply existsb_exists in Ex as (e & Hin & Hex).
    rewrite <- list_elem_of_In in Hin. rewrite Forall_forall in Hk. specialize (Hk e Hin).
    unfold entries_ok in He. rewrite Forall_forall in He. destruct (He e Hin) as [Pe _].
    rewrite (flake_eq_cong k x e.1), (flake_eq_sym x e.1) in Hk by done. congruence. }
  destruct (existsb _ m) eqn:Ex; [done|].
  assert (of_fact x l = []) as Hnil.
  { apply list_filter_none, Forall_forall. intros f Hf Hxf. destruct (Hc f Hf) as (e & Hin & Hef).
    apply not_true_iff_false in Ex. apply Ex, existsb_exists. exists e. rewrite <- list_elem_of_In. split; [done|].
    unfold entries_ok in He. rewrite Forall_forall in He. rewrite Forall_forall in Pl. destruct (He e Hin) as [Pe _].
    rewrite (flake_eq_cong e.1 f x) by auto. rewrite (flake_eq_sym f x); auto. }
  unfold bucket_of. by rewrite Hnil.
Qed.

(** ** All graphs *)

Section graphs.
Context {A : Type} (empty : A).

Fixpoint graph_get (g : option Sid) (graphs : list (option Sid * A)) : A :=
  match graphs with
  | [] => empty
  | (h, x) :: graphs => if decide (g = h) then x else graph_get g graphs
  end.

Lemma graph_get_update g h upd graphs :
  graph_get g (graph_update h empty upd graphs)
  = if decide (g = h) then upd (graph_get g graphs) else graph_get g graphs.
Proof.
  induction graphs as [|[k x] graphs IH]; simpl; [by destruct (decide (g = h))|].
  destruct (decide (h = k)) as [->|Hhk]; simpl.
  - by destruct (decide (g = k)).
  - destruct (decide (g = k)) as [->|]; [by rewrite decide_False|done].
Qed.

Lemma graph_update_keys h upd graphs g :
  g ∈ (graph_update h empty upd graphs).*1 → g = h ∨ g ∈ graphs.*1.
Proof.
  induction graphs as [|[k x] graphs IH]; csimpl; [intros Hg%list_elem_of_singleton; by left|].
  destruct (decide (h = k)); csimpl; rewrite !elem_of_cons; naive_solver.
Qed.

Lemma graph_update_NoDup h upd graphs :
  NoDup graphs.*1 → NoDup (graph_update h empty upd graphs).*1.
Proof.
  induction graphs as [|[k x] graphs IH]; csimpl; intros Hd; [apply NoDup_singleton|].
  apply NoDup_cons in Hd as [Hk Hd]. destruct (decide (h = k)) as [->|Hhk]; csimpl; [by constructor|].
  constructor; [|by apply IH]. by intros [->|?]%graph_update_keys.
Qed.

Lemma graph_get_in g x graphs : NoDup graphs.*1 → (g, x) ∈ graphs → graph_get g graphs = x.
Proof.
  induction graphs as [|[k y] graphs IH]; csimpl; [by intros _ ?%elem_of_nil|].
  intros [Hk Hd]%NoDup_cons [[= -> ->]|Hin]%elem_of_cons; [by rewrite decide_True|].
  rewrite decide_False; [by apply IH|]. intros ->. apply Hk. by apply (list_elem_of_fmap_2 fst _ (k, x)).
Qed.

(** Draining gives, of one graph, what its entry gives. *)
Lemma drained_graph (out : A → list Flake) g graphs :
  NoDup graphs.*1 → (∀ h x, (h, x) ∈ graphs → Forall (λ f, f_g f = h) (out x)) → out empty = [] →
  of_graph g (concat ((λ e, out e.2) <$> drain graphs)) ≡ₚ out (graph_get g graphs).
Proof.
  intros Hd Hout He.
  assert (concat ((λ e, out e.2) <$> drain graphs) ≡ₚ concat ((λ e, out e.2) <$> graphs)) as Hp.
  { rewrite drain_perm. done. }
  unfold of_graph. rewrite Hp. clear Hp. apply reflexive_eq.
  induction graphs as [|[h x] graphs IH]; csimpl; [by rewrite He|].
  apply NoDup_cons in Hd as [Hh Hd]. rewrite filter_app.
  assert (Forall (λ f, f_g f = h) (out x)) as Hx by (apply Hout; by left).
  rewrite IH; [|done|intros; apply Hout; by right]. destruct (decide (g = h)) as [->|Hne].
  - rewrite list_filter_id by done.
    assert (graph_get h graphs = empty) as ->; [|by rewrite He, app_nil_r].
    clear -Hh. induction graphs as [|[k y] graphs IH]; csimpl; [done|].
    rewrite decide_False; [apply IH|]; set_solver.
  - rewrite list_filter_none; [done|]. eapply Forall_impl; [exact Hx|]. by intros f ->.
Qed.
End graphs.

Record mixed_inv (set : bool) (graphs : list (option Sid * list (Flake * FlakeBucket))) (l : list Flake) : Prop := {
  xi_graphs : NoDup graphs.*1;
  xi_maps : ∀ g, map_inv set (graph_get [] g graphs) (of_graph g l);
}.

Lemma of_graph_snoc g l f : of_graph g (l ++ [f]) = of_graph g l ++ (if decide (f_g f = g) then [f] else []).
Proof. unfold of_graph. by rewrite filter_app, filter_cons, filter_nil. Qed.

Lemma of_graph_plain g l : Forall flake_plain l → Forall flake_plain (of_graph g l).
Proof. intros Hl. rewrite Forall_forall in Hl |- *. intros f [_ ?]%list_elem_of_filter. auto. Qed.

Lemma push_mixed_inv set graphs l f : flake_plain f → Forall flake_plain l →
  mixed_inv set graphs l → mixed_inv set (push_mixed set graphs f) (l ++ [f]).
Proof.
  intros Pf Pl [Hd Hm]. unfold push_mixed. split; [by apply graph_update_NoDup|].
  intros g. rewrite graph_get_update, of_graph_snoc. destruct (decide (g = f_g f)) as [->|Hne].
  - rewrite decide_True by done. apply push_into_mixed_inv; auto using of_graph_plain.
  - by rewrite decide_False, app_nil_r.
Qed.

Lemma push_all_inv set l : Forall flake_plain l → mixed_inv set (foldl (push_mixed set) [] l) l.
Proof.
  induction l as [|f l IH] using rev_ind; intros Pl.
  - split; [constructor|]. intros g. split; [constructor|constructor|by intros f ?%elem_of_nil].
  - apply Forall_app in Pl as [Pl [Pf _]%Forall_cons]. rewrite foldl_app. apply push_mixed_inv; auto.
Qed.

Definition mixed_out (graphs : list (option Sid * list (Flake * FlakeBucket))) : list Flake :=
  concat ((λ e, concat ((λ kb, bucket_survivors kb.2) <$> drain e.2)) <$> drain graphs).

Lemma map_survivors_drain m : concat ((λ kb, bucket_survivors kb.2) <$> drain m) ≡ₚ map_survivors m.
Proof. unfold map_survivors. by rewrite drain_perm. Qed.

Lemma map_survivors_in set m l f : map_inv set m l → f ∈ map_survivors m → f ∈ l.
Proof.
  intros [_ He _]. unfold map_survivors. rewrite elem_of_concat.
  intros (fs & ([k b] & -> & Hin)%list_elem_of_fmap & Hf). unfold entries_ok in He. rewrite Forall_forall in He.
  destruct (He _ Hin) as [_ Eb]. simpl in *. subst b.
  apply bucket_survivors_in in Hf. by apply list_elem_of_filter in Hf as [_ ?].
Qed.

(** What is left of a fact in a graph is what its bucket leaves. *)
Lemma mixed_out_fact set graphs l g x : flake_plain x → Forall flake_plain l → mixed_inv set graphs l →
  of_fact x (of_graph g (mixed_out graphs)) ≡ₚ bucket_survivors (bucket_of set x (of_graph g l)).
Proof.
  intros Px Pl [Hd Hm]. unfold mixed_out.
  rewrite <- (map_survivors_fact set (graph_get [] g graphs) (of_graph g l) x) by auto using of_graph_plain.
  apply filter_Permutation. rewrite <- map_survivors_drain.
  apply (drained_graph [] (λ m, concat ((λ kb, bucket_survivors kb.2) <$> drain m))); [done| |].
  - intros h m Hin. rewrite Forall_forall. intros f Hf. rewrite map_survivors_drain in Hf.
    specialize (Hm h). rewrite (graph_get_in [] h m) in Hm by done.
    apply (map_survivors_in _ _ _ _ Hm) in Hf. by apply list_elem_of_filter in Hf as [? _].
  - apply Permutation_nil_r. by rewrite map_survivors_drain.
Qed.

(** ** The net effect *)

Definition with_op (op : bool) (l : list Flake) : list Flake := filter (λ f, f_op f = op) l.
Definition count (op : bool) (l : list Flake) : Z := Z.of_nat (length (with_op op l)).

(** What a list of flakes of one fact comes to: the side that is stated more
    often, once, as it was stated last. *)
Definition net (set : bool) (l : list Flake) : list Flake :=
  let a := if set then Z.min 1 (count true l) else count true l in
  let r := count false l in
  if r <? a then option_list (last (with_op true l))
  else if a <? r then option_list (last (with_op false l))
  else [].

Lemma count_snoc op l f : count op (l ++ [f]) = count op l + (if Bool.eqb (f_op f) op then 1 else 0).
Proof.
  unfold count, with_op. rewrite filter_app, filter_cons, filter_nil, length_app.
  destruct (decide _) as [->|Hne]; [rewrite Bool.eqb_reflx; simpl; lia|].
  rewrite (proj2 (Bool.eqb_false_iff _ _)) by done. simpl. lia.
Qed.

Lemma bucket_counts set k : Z.of_nat (length k) <= u32_max →
  let b := foldl (bucket_step set) (mkBucket 0 0 None None) k in
  assert_count b = (if set then Z.min 1 (count true k) else count true k) ∧ retract_count b = count false k.
Proof.
  assert (∀ op l, 0 <= count op l) as Hpos by (intros; unfold count; lia).
  assert (∀ op l, count op l <= Z.of_nat (length l)) as Hle.
  { intros op l. unfold count, with_op. pose proof (length_filter (λ f, f_op f = op) l). lia. }
  induction k as [|f k IH] using rev_ind; [by destruct set|]. rewrite length_app. cbn [length]. intros Hlen.
  rewrite foldl_app. cbn zeta in *. cbn [foldl]. destruct IH as [IHa IHr]; [lia|].
  rewrite !count_snoc. generalize dependent (foldl (bucket_step set) (mkBucket 0 0 None None) k).
  intros b IHa IHr. unfold bucket_step, saturating_incr.
  specialize (Hle true k) as Ht. specialize (Hle false k) as Hf. specialize (Hpos true k) as Hp.
  destruct (f_op f); cbn [assert_count retract_count Bool.eqb]; rewrite IHa, IHr.
  - split; [|lia]. destruct set; cbn [andb]; [|cbn [negb]; lia].
    destruct (Z.ltb_spec 0 (Z.min 1 (count true k))); cbn [negb]; lia.
  - split; [destruct set; lia|lia].
Qed.

Lemma survivors_net set x l : Z.of_nat (length l) <= u32_max →
  bucket_survivors (bucket_of set x l) = net set (of_fact x l).
Proof.
  intros Hlen. destruct (bucket_of_last set x l) as [Ea Er]. unfold bucket_survivors. rewrite Ea, Er.
  destruct (bucket_counts set (of_fact x l)) as [Ca Cr].
  { pose proof (length_filter (λ f, flake_eq x f = true) l). unfold of_fact. lia. }
  fold (bucket_of set x l) in Ca, Cr. rewrite Ca, Cr. unfold net, with_op.
  set (a := if set then _ else _). set (r := count false (of_fact x l)).
  destruct (Z.ltb_spec r a), (Z.ltb_spec (Z.min a r) a), (Z.ltb_spec (Z.min a r) r), (Z.ltb_spec a r); try lia;
    by rewrite ?app_nil_r.
Qed.

Lemma net_short set l : (length (net set l) <= 1)%nat.
Proof. unfold net. repeat case_match; unfold option_list; repeat case_match; simpl; lia. Qed.

Lemma perm_short {A} (l k : list A) : l ≡ₚ k → (length k <= 1)%nat → l = k.
Proof.
  intros Hp Hk. destruct k as [|x [|y k]]; simpl in Hk; [by apply Permutation_nil_r|by apply Permutation_singleton_r|lia].
Qed.

(** Pushing one by one into a mixed accumulator. *)
Lemma push_one_all graphs n hint set l :
  ∃ n', foldl push_one (Some (mkAcc (Mixed graphs) n hint set)) l
    = Some (mkAcc (Mixed (foldl (push_mixed set) graphs l)) n' hint set).
Proof.
  revert graphs n. induction l as [|f l IH]; intros graphs n; [by eexists|]. cbn [foldl].
  unfold push_one at 2. cbn [mbind option_bind push_assertions push_retractions inner].
  destruct (f_op f); apply IH.
Qed.

Lemma mixed_out_in set graphs l f : mixed_inv set graphs l → f ∈ mixed_out graphs → f ∈ l.
Proof.
  intros [Hd Hm]. unfold mixed_out. rewrite elem_of_concat.
  intros (fs & ([h m] & -> & Hin)%list_elem_of_fmap & Hf). rewrite drain_perm in Hin. simpl in Hf.
  rewrite map_survivors_drain in Hf. specialize (Hm h). rewrite (graph_get_in [] h m) in Hm by done.
  apply (map_survivors_in _ _ _ _ Hm) in Hf. by apply list_elem_of_filter in Hf as [_ ?].
Qed.

Lemma mixed_spec set n hint flakes :
  Forall flake_plain flakes → Z.of_nat (length flakes) <= u32_max →
  let out := finalize (mkAcc (Mixed (foldl (push_mixed set) [] flakes)) n hint set) in
  sorted_by (compare Spot) out ∧ (∀ f, f ∈ out → f ∈ flakes)
  ∧ ∀ g x, flake_plain x → of_fact x (of_graph g out) = net set (of_fact x (of_graph g flakes)).
Proof.
  intros Pl Hlen. set (graphs := foldl (push_mixed set) [] flakes).
  pose proof (push_all_inv set flakes Pl : mixed_inv set graphs flakes) as Hinv.
  cbv zeta. unfold finalize. cbn [inner]. fold (mixed_out graphs).
  assert (Forall flake_ordered (mixed_out graphs)) as Ho.
  { rewrite Forall_forall in Pl |- *. intros f Hf%(mixed_out_in _ _ _ _ Hinv). by destruct (Pl f Hf). }
  split_and!; [apply (sort_sorted _ flake_ordered); [apply _|done]| |].
  - intros f Hf. rewrite sort_perm in Hf. by eapply mixed_out_in.
  - intros g x Px. apply perm_short; [|apply net_short].
    assert (Z.of_nat (length (of_graph g flakes)) <= u32_max) as Hg.
    { pose proof (length_filter (λ f, f_g f = g) flakes). unfold of_graph. lia. }
    rewrite <- (survivors_net set x (of_graph g flakes) Hg), <- (mixed_out_fact set graphs flakes g x) by done.
    unfold of_fact, of_graph. by rewrite sort_perm.
Qed.

Lemma apply_cancellation_spec flakes : Forall flake_plain flakes → Z.of_nat (length flakes) <= u32_max →
  ∃ out, apply_cancellation flakes = Some out ∧ sorted_by (compare Spot) out
    ∧ (∀ f, f ∈ out → f ∈ flakes)
    ∧ ∀ g x, flake_plain x → of_fact x (of_graph g out) = net false (of_fact x (of_graph g flakes)).
Proof.
  intros Pl Hlen. unfold apply_cancellation. destruct flakes as [|f0 fs] eqn:Efl.
  { exists []. split_and!; [done|constructor|done|done]. }
  rewrite <- Efl in *. clear Efl f0 fs. unfold mixed.
  destruct (push_one_all [] 0 (Z.of_nat (length flakes)) false flakes) as [n ->].
  eexists. split; [reflexivity|]. by apply mixed_spec.
Qed.

(** ** Deleting only *)

Definition set_ok (set l : list Flake) : Prop :=
  Forall flake_plain set ∧ (∀ f, f ∈ set → f ∈ l)
  ∧ ∀ x, flake_plain x → of_fact x set = option_list (head (of_fact x l)).

Lemma set_insert_ok set l f : flake_plain f → Forall flake_plain l → set_ok set l → set_ok (set_insert f set) (l ++ [f]).
Proof.
  intros Pf Pl (Ps & Hin & Hs).
  assert (existsb (λ k, flake_eq k f) set = true ↔ of_fact f l ≠ []) as Hex.
  { rewrite existsb_exists. specialize (Hs f Pf). split.
    - intros (k & Hk & E) Hnil. rewrite Hnil in Hs. simpl in Hs. rewrite <- list_elem_of_In in Hk.
      rewrite Forall_forall in Ps. assert (k ∈ of_fact f set) as Hkf.
      { apply list_elem_of_filter. by rewrite flake_eq_sym by auto. }
      rewrite Hs in Hkf. by apply elem_of_nil in Hkf.
    - intros Hne. destruct (of_fact f l) as [|k rest] eqn:E; [done|]. simpl in Hs.
      assert (k ∈ of_fact f set) as [Hfk Hk]%list_elem_of_filter by (rewrite Hs; by left).
      exists k. rewrite <- list_elem_of_In. split; [done|]. rewrite Forall_forall in Ps. by rewrite flake_eq_sym by auto. }
  unfold set_insert. destruct (existsb _ set) eqn:Ef.
  - pose proof (proj1 Hex eq_refl) as Hne. split_and!; [done|intros y Hy; apply elem_of_app; auto|].
    intros x Px. rewrite Hs by done. unfold of_fact at 2. rewrite filter_app, filter_cons, filter_nil.
    fold (of_fact x l). destruct (decide (flake_eq x f = true)) as [E|]; [|by rewrite app_nil_r].
    rewrite (of_fact_cong x f) by done. by destruct (of_fact f l).
  - assert (of_fact f l = []) as Hnil.
    { destruct (of_fact f l); [done|]. assert (false = true) by (by apply Hex). done. }
    split_and!; [apply Forall_app; auto|intros y [?|?]%elem_of_app; apply elem_of_app; auto|].
    intros x Px. rewrite !of_fact_app, Hs by done. unfold of_fact at 2 4. rewrite filter_cons, filter_nil.
    destruct (decide (flake_eq x f = true)) as [E|]; [|by rewrite !app_nil_r].
    by rewrite (of_fact_cong x f), Hnil.
Qed.

Lemma push_set_all l : Forall flake_plain l →
  let graphs := foldl (λ graphs f, graph_update (f_g f) [] (set_insert f) graphs) [] l in
  NoDup graphs.*1 ∧ ∀ g, set_ok (graph_get [] g graphs) (of_graph g l).
Proof.
  cbn zeta. induction l as [|f l IH] using rev_ind; intros Pl.
  { split; [apply NoDup_nil_2|]. intros g. by split_and!. }
  apply Forall_app in Pl as [Pl [Pf _]%Forall_cons]. destruct (IH Pl) as [Hd Hs]. rewrite foldl_app. cbn [foldl].
  split; [by apply graph_update_NoDup|]. intros g. rewrite graph_get_update, of_graph_snoc.
  destruct (decide (g = f_g f)) as [->|Hne].
  - rewrite decide_True by done. apply set_insert_ok; auto using of_graph_plain.
  - by rewrite decide_False, app_nil_r.
Qed.

(** Of each fact of a graph, the first retraction is left. *)
Lemma pure_spec n hint set flakes : Forall flake_plain flakes →
  let out := finalize (mkAcc (PureRetract (foldl (λ graphs f, graph_update (f_g f) [] (set_insert f) graphs) [] flakes)) n hint set) in
  sorted_by (compare Spot) out ∧ (∀ f, f ∈ out → f ∈ flakes)
  ∧ ∀ g x, flake_plain x → of_fact x (of_graph g out) = option_list (head (of_fact x (of_graph g flakes))).
Proof.
  intros Pl. destruct (push_set_all flakes Pl) as [Hd Hs]. cbv zeta. unfold finalize. cbn [inner].
  set (graphs := foldl _ [] flakes) in *.
  assert (∀ f, f ∈ concat ((λ e, drain e.2) <$> drain graphs) → f ∈ flakes) as Hin.
  { intros f (fs & ([h set'] & -> & Hin)%list_elem_of_fmap & Hf)%elem_of_concat. rewrite drain_perm in Hin. simpl in Hf.
    rewrite drain_perm in Hf. destruct (Hs h) as (_ & Hsub & _). rewrite (graph_get_in [] h set') in Hsub by done.
    by apply Hsub, list_elem_of_filter in Hf as [_ ?]. }
  split_and!.
  - apply (sort_sorted _ flake_ordered); [apply _|]. rewrite Forall_forall in Pl |- *. intros f Hf%Hin. by destruct (Pl f Hf).
  - intros f Hf. rewrite sort_perm in Hf. by apply Hin.
  - intros g x Px. apply perm_short; [|unfold option_list; destruct (head _); simpl; lia].
    destruct (Hs g) as (_ & _ & Hx). rewrite <- (Hx x Px). unfold of_fact, of_graph. rewrite sort_perm. apply filter_Permutation.
    fold (of_graph g (concat ((λ e, drain e.2) <$> drain graphs))).
    rewrite (drained_graph [] (λ s, drain s) g graphs); [by rewrite drain_perm|done| |by apply Permutation_nil_r, drain_perm].
    intros h set' Hin'. rewrite drain_perm, Forall_forall. intros f Hf. destruct (Hs h) as (_ & Hsub & _).
    rewrite (graph_get_in [] h set') in Hsub by done. by apply Hsub, list_elem_of_filter in Hf as [? _].
Qed.

Lemma dedup_retractions_spec flakes g x : Forall flake_plain flakes → flake_plain x →
  of_fact x (of_graph g (dedup_retractions flakes)) = option_list (head (of_fact x (of_graph g flakes))).
Proof. intros Pl Px. by apply (pure_spec (0 + Z.of_nat (length flakes)) (Z.of_nat (length flakes)) false flakes Pl). Qed.

(** ** Staging *)







(** ** Synchronizing a graph *)









(** ** Claims *)


End accumulator.

(** ** Witnesses *)

#[export] Instance plain_drain : HashDrain := {|
  drain A l := l;
  drain_perm A l := Permutation_refl _;
|}.
#[local] Existing Instance insertion_sorting.

Definition item (subject : string) (t : Z) (op : bool) : Flake := fact subject long_3 t op.



(** Four assertions of a fact and one retraction leave one assertion. *)
Example surplus_collapses :
  apply_cancellation [item "a" 1 true; item "a" 2 true; item "a" 3 true; item "a" 4 true; item "a" 5 false]
  = Some [item "a" 4 true].
Proof. by vm_compute. Qed.
