(* ===== verification/ArenaTheorems.v ===== *)
(** * Attachments through a transaction

    Concrete runs of the attachment overlay, alone and behind the accumulator
    and the novelty overlay. *)

From S2P Require Import Prelude Text Vocab CommitWire CommitOp Ordering FlakeOrder FlakeTheorems.
From S2P Require Import FlakeTheorems FlakeEq Edge Attachments NoveltyMerge NoveltyFacts Novelty.
From S2P Require Import NoveltyApply NoveltyBulk NoveltyTheorems Accumulator ArenaFormat Arena.
#[local] Open Scope Z_scope.
#[local] Existing Instance insertion_sorting.

(** The overlay that [Novelty] keeps. *)
Definition overlay : AttachmentOverlay (H := plain_values) := {|
  Novelty.AttachmentNovelty := Attachments.AttachmentNovelty;
  Novelty.attachments_new := new_attachments;
  Novelty.observe_flakes := Attachments.observe_flakes;
|}.
#[local] Existing Instance overlay.

Definition knows (who whom : string) : EdgeKey :=
  mkEdge None (mkSid 100 who) (mkSid 100 "knows") (VRef (mkSid 100 whom)) id_datatype_sid None None.
Definition ann : Sid := mkSid 100 "ann".
Definition attachment (e : EdgeKey) (t : Z) (op : bool) : list Flake := to_reifies_facts e ann t op.

(** ** Observing *)

Lemma attachments_exact_witness :
  let a := foldl Attachments.observe_flakes new_attachments
             [attachment (knows "alice" "bob") 1 true; attachment (knows "alice" "bob") 3 false] in
  ann ∈ current_annotations_for_at a (knows "alice" "bob") 2
  ∧ ann ∉ current_annotations_for_at a (knows "alice" "bob") 3.
Proof.
  set (batches := [attachment (knows "alice" "bob") 1 true; attachment (knows "alice" "bob") 3 false]).
  assert (Forall (Forall flake_ordered) batches) as Hb by (repeat constructor; by intros n [=]).
  assert (edge_ordered (knows "alice" "bob")) as He by (by intros n [=]).
  assert (batch_events batches = [(knows "alice" "bob", ann, 1, true); (knows "alice" "bob", ann, 3, false)]) as Ev
    by (by vm_compute).
  assert (events_settled (batch_events batches)) as Hs.
  { rewrite Ev. intros e e' x t [[= -> -> ->]|[[=]|[]%elem_of_nil]%elem_of_cons]%elem_of_cons
      [[=]|[[=]|[]%elem_of_nil]%elem_of_cons]%elem_of_cons. }
  split.
  - apply (proj1 (proj2 (attachments_exact batches (knows "alice" "bob") ann 2 Hb He Hs))). cbn zeta. rewrite Ev.
    exists (knows "alice" "bob"), 1. split_and!; [by left|done|lia|].
    intros e' t' op [[= -> -> ->]|[[= -> -> ->]|[]%elem_of_nil]%elem_of_cons]%elem_of_cons; [by right|lia].
  - assert (current_annotations_for_at (foldl Attachments.observe_flakes new_attachments batches) (knows "alice" "bob") 3 = [])
      as -> by (by vm_compute). apply not_elem_of_nil.
Defined.

(** ** Moving an annotation *)

Definition object_fact (e : EdgeKey) : Flake :=
  mkFlake None ann (reifies_sid REIFIES_OBJECT) (ek_o e) (ek_dt e) 0 true None.

(** The annotation of an edge, and a transaction that moves it to another edge
    with the same subject and predicate. *)
Definition attached_nv : Novelty * Counters :=
  (apply_commit c0 (novelty_new 0) (attachment (knows "alice" "bob") 1 true) 1 no_graphs).2.
Definition move : list Flake :=
  attachment (knows "alice" "bob") 2 false ++ attachment (knows "alice" "carol") 2 true.
Definition moved_nv : Novelty :=
  (apply_commit attached_nv.2 attached_nv.1 (default [] (apply_cancellation move)) 2 no_graphs).2.1.

(** A transaction that moves an annotation to another edge leaves the
    attachment overlay behind.  Cancellation removes the slots that the two
    edges share, so what remains of the two bundles does not read as an edge:
    the overlay counts two malformed bundles and still answers with the old
    edge, while the facts themselves have moved. *)
Theorem repoint_leaves_overlay_stale :
  length (default [] (apply_cancellation move)) = 2%nat
  ∧ is_asserted (nv_fact_state moved_nv) 0 (object_fact (knows "alice" "bob")) = false
  ∧ is_asserted (nv_fact_state moved_nv) 0 (object_fact (knows "alice" "carol")) = true
  ∧ current_targets_for (nv_attachments moved_nv) ann = [knows "alice" "bob"]
  ∧ current_annotations_for (nv_attachments moved_nv) (knows "alice" "carol") = []
  ∧ observed_malformed_bundles (nv_attachments moved_nv) = 2.
Proof. split_and!; by vm_compute. Qed.

(** ** Loading over existing segments *)

(** Bulk loading observes again the bundles of the segments it rebuilds. *)
Example bulk_observes_again :
  let nv := attached_nv.1 in
  let bulk := (bulk_apply_commits attached_nv.2 nv [([three "x" 2 true], 2)] no_graphs).2.1 in
  forward_history (nv_attachments nv) (knows "alice" "bob") = [mkFwd ann 1 true]
  ∧ forward_history (nv_attachments bulk) (knows "alice" "bob") = [mkFwd ann 1 true; mkFwd ann 1 true].
Proof. split; by vm_compute. Qed.

(** * Indexing annotations
    ([fluree-db-binary-index/src/annotation_arena/bundle.rs])

    The two arenas built from flakes or from events, and what indexing does to
    the answers of the attachment overlay. *)

Section arenas.
Context `{VO : ValueOrd} `{SE : !Serde} `{CB : Cbor} `{SO : Sorting} `{HD : HashDrain}.

(** ** The two directions *)

(** [EdgeKey], derived [PartialEq]. *)
Definition edge_eq (a b : EdgeKey) : bool :=
  bool_decide (ek_g a = ek_g b) && bool_decide (ek_s a = ek_s b) && bool_decide (ek_p a = ek_p b)
  && value_eq (ek_o a) (ek_o b) && bool_decide (ek_dt a = ek_dt b) && bool_decide (ek_lang a = ek_lang b)
  && bool_decide (ek_list_i a = ek_list_i b).
Definition sid_eq (a b : Sid) : bool := bool_decide (a = b).

Definition forward_dir : Direction EdgeKey Sid :=
  mkDirection _ _ edge_cmp sid_cmp edge_eq sid_eq
    (leaf_content "edge" "ann" edge_content sid_content) (leaf_of_content "edge" "ann" edge_of_content sid_of_content)
    (branch_content "edge" "ann" edge_content sid_content) (branch_of_content "edge" "ann" edge_of_content sid_of_content)
    FORWARD_LEAF_MAGIC FORWARD_BRANCH_MAGIC.
Definition reverse_dir : Direction Sid EdgeKey :=
  mkDirection _ _ sid_cmp edge_cmp sid_eq edge_eq
    (leaf_content "ann" "edge" sid_content edge_content) (leaf_of_content "ann" "edge" sid_of_content edge_of_content)
    (branch_content "ann" "edge" sid_content edge_content) (branch_of_content "ann" "edge" sid_of_content edge_of_content)
    REVERSE_LEAF_MAGIC REVERSE_BRANCH_MAGIC.

Definition build_forward_leaves := build_leaves forward_dir.
Definition build_reverse_leaves := build_leaves reverse_dir.
Definition build_forward_branch := build_branch forward_dir.
Definition build_reverse_branch := build_branch reverse_dir.

(** ** Building from events *)

Definition forward_row (ev : Event) : AnnotationForwardRow := mkRow (ev_edge ev) (ev_ann ev) (ev_t ev) (ev_op ev).
Definition reverse_row (ev : Event) : AnnotationReverseRow := mkRow (ev_ann ev) (ev_edge ev) (ev_t ev) (ev_op ev).

Definition forward_rows (evs : list Event) : list AnnotationForwardRow :=
  sort_unstable_by false (row_cmp forward_dir) (forward_row <$> evs).
Definition reverse_rows (evs : list Event) : list AnnotationReverseRow :=
  sort_unstable_by false (row_cmp reverse_dir) (reverse_row <$> evs).

(** Without the statistics and the count of annotations with several targets,
    which no reader uses. *)
Record ArenaBuildOutput := mkOutput {
  forward_leaves : option (list (Summary EdgeKey Sid * list Z));
  reverse_leaves : option (list (Summary Sid EdgeKey * list Z));
  max_t : Z;
  skipped_bundles : Z;
}.

Definition raise_max_t (m : Z) (ev : Event) : Z := if m <? ev_t ev then ev_t ev else m.
Definition output_of (evs : list Event) (skipped : Z) (target_rows_per_leaf : nat) : ArenaBuildOutput :=
  mkOutput (build_forward_leaves (forward_rows evs) target_rows_per_leaf)
    (build_reverse_leaves (reverse_rows evs) target_rows_per_leaf) (foldl raise_max_t 0 evs) skipped.

Definition build_arenas_from_event_pairs (evs : list Event) (target_rows_per_leaf : nat) : ArenaBuildOutput :=
  output_of evs 0 target_rows_per_leaf.

(** ** Building from flakes *)

Definition group_flakes (flakes : list Flake) : list (BundleKey * list Flake) :=
  foldl (λ groups f, bt_update bundle_key_cmp (bundle_key f) [] (λ l, l ++ [f]) groups) [] flakes.

Definition build_arenas_from_flakes (flakes : list Flake) (target_rows_per_leaf : nat) : ArenaBuildOutput :=
  let groups := drain (group_flakes flakes) in
  let evs := omap bundle_event groups in
  output_of evs (Z.of_nat (length groups) - Z.of_nat (length evs)) target_rows_per_leaf.

(** ** Reading *)

Definition current_annotations_for := current_for forward_dir.
Definition current_targets_for := current_for reverse_dir.
Definition current_annotations_batch := current_batch forward_dir.
Definition current_annotations_merged := current_merged forward_dir.
Definition current_targets_merged := current_merged reverse_dir.
Definition target_history_for := history_for reverse_dir.
Definition collect_all_forward_events := collect_all_events forward_dir.

(** ** The laws of the directions *)

Definition edge_plain (e : EdgeKey) : Prop := value_plain (ek_o e).

#[export] Instance edge_plain_order : CmpOrder edge_plain edge_cmp.
Proof. constructor; [apply (cmp_flip (P := edge_ordered))|]. intros x y z [Hx _] [Hy _] [Hz _]. by apply (cmp_trans (P := edge_ordered)). Qed.

Lemma edge_eq_cmp a b : edge_plain a → edge_plain b → edge_eq a b = true ↔ edge_cmp a b = Eq.
Proof.
  intros Pa Pb. unfold edge_eq, edge_cmp.
  assert (value_eq (ek_o a) (ek_o b) = true ↔ value_cmp (ek_o a) (ek_o b) = Eq) as Ho
    by (split; [apply value_eq_cmp, Pa|by apply value_cmp_eq]).
  assert (∀ T (c : T → T → comparison) x y, (∀ u v, c u v = Eq ↔ u = v) → option_cmp c x y = Eq ↔ x = y) as Hopt.
  { intros T c x y Hc. split; [apply option_cmp_eq; intros ??; apply Hc|]. intros ->. destruct y; [by apply Hc|done]. }
  rewrite !andb_true_iff, !bool_decide_eq_true, !then_with_Eq, Ho, !sid_cmp_eq.
  rewrite (Hopt _ sid_cmp) by apply sid_cmp_eq. rewrite (Hopt _ str_cmp) by apply str_cmp_eq.
  rewrite (Hopt _ Z.compare) by apply Z.compare_eq_iff. tauto.
Qed.

Lemma sid_eq_cmp a b : sid_eq a b = true ↔ sid_cmp a b = Eq.
Proof. unfold sid_eq. by rewrite bool_decide_eq_true, sid_cmp_eq. Qed.

#[export] Instance forward_laws : DirectionLaws forward_dir edge_plain (λ _, True) edge_ok sid_ok.
Proof.
  constructor; simpl; [apply _|apply _|apply edge_eq_cmp|intros a b _ _; apply sid_eq_cmp|done|done|..].
  - intros rows Hr. split; [apply (leaf_content_of "edge" "ann" _ _ _ _ edge_ok sid_ok edge_codec sid_codec (or_introl eq_refl) rows Hr)|].
    apply (leaf_content_ok "edge" "ann" _ _ _ _ edge_ok sid_ok edge_codec sid_codec rows Hr).
  - intros leaves Hl. split; [apply (branch_content_of "edge" "ann" _ _ _ _ edge_ok sid_ok edge_codec sid_codec (or_introl eq_refl) leaves Hl)|].
    apply (branch_content_ok "edge" "ann" _ _ _ _ edge_ok sid_ok edge_codec sid_codec leaves Hl).
Qed.

#[export] Instance reverse_laws : DirectionLaws reverse_dir (λ _, True) edge_plain sid_ok edge_ok.
Proof.
  constructor; simpl; [apply _|apply _|intros a b _ _; apply sid_eq_cmp|apply edge_eq_cmp|done|done|..].
  - intros rows Hr. split; [apply (leaf_content_of "ann" "edge" _ _ _ _ sid_ok edge_ok sid_codec edge_codec (or_intror eq_refl) rows Hr)|].
    apply (leaf_content_ok "ann" "edge" _ _ _ _ sid_ok edge_ok sid_codec edge_codec rows Hr).
  - intros leaves Hl. split; [apply (branch_content_of "ann" "edge" _ _ _ _ sid_ok edge_ok sid_codec edge_codec (or_intror eq_refl) leaves Hl)|].
    apply (branch_content_ok "ann" "edge" _ _ _ _ sid_ok edge_ok sid_codec edge_codec leaves Hl).
Qed.

(** ** The rows of some events *)

Definition event_ok (ev : Event) : Prop :=
  edge_plain (ev_edge ev) ∧ edge_ok (ev_edge ev) ∧ sid_ok (ev_ann ev) ∧ - 2 ^ 63 <= ev_t ev < 2 ^ 63.

Lemma sorted_rows {K J} (D : Direction K J) (P : K → Prop) (Q : J → Prop) k_ok j_ok `{!DirectionLaws D P Q k_ok j_ok} (l : list (Row K J)) :
  Forall (λ r, P (r_key r) ∧ Q (r_other r)) l → Forall (row_ok k_ok j_ok) l →
  arena_rows D (P := P) (Q := Q) (sort_unstable_by false (row_cmp D) l)
  ∧ Forall (row_ok k_ok j_ok) (sort_unstable_by false (row_cmp D) l).
Proof.
  intros HP Hok. pose proof (sort_perm false (row_cmp D) l) as Hperm. split; [split|].
  - by rewrite Hperm.
  - apply (sort_sorted false (λ r, P (r_key r) ∧ Q (r_other r))); [|done].
    apply (row_cmp_order D (P := P) (Q := Q) (k_ok := k_ok) (j_ok := j_ok)).
  - by rewrite Hperm.
Qed.

Lemma forward_rows_ok evs : Forall event_ok evs →
  arena_rows forward_dir (P := edge_plain) (Q := λ _, True) (forward_rows evs) ∧ Forall (row_ok edge_ok sid_ok) (forward_rows evs).
Proof.
  intros He. apply (sorted_rows forward_dir edge_plain (λ _, True) edge_ok sid_ok); apply Forall_fmap; (eapply Forall_impl; [exact He|]);
    intros ev (H1 & H2 & H3 & H4); [exact (conj H1 I)|exact (conj H2 (conj H3 H4))].
Qed.

Lemma reverse_rows_ok evs : Forall event_ok evs →
  arena_rows reverse_dir (P := λ _, True) (Q := edge_plain) (reverse_rows evs) ∧ Forall (row_ok sid_ok edge_ok) (reverse_rows evs).
Proof.
  intros He. apply (sorted_rows reverse_dir (λ _, True) edge_plain sid_ok edge_ok); apply Forall_fmap; (eapply Forall_impl; [exact He|]);
    intros ev (H1 & H2 & H3 & H4); [exact (conj I H1)|exact (conj H3 (conj H2 H4))].
Qed.

Lemma forward_row_elem evs r :
  r ∈ forward_rows evs ↔ (r_key r, r_other r, r_t r, r_op r) ∈ evs.
Proof.
  unfold forward_rows. rewrite sort_perm, list_elem_of_fmap. split.
  - by intros ([[[e a] t] op] & -> & Hin).
  - intros Hin. eexists. split; [|exact Hin]. by destruct r.
Qed.

Lemma reverse_row_elem evs r :
  r ∈ reverse_rows evs ↔ (r_other r, r_key r, r_t r, r_op r) ∈ evs.
Proof.
  unfold reverse_rows. rewrite sort_perm, list_elem_of_fmap. split.
  - by intros ([[[e a] t] op] & -> & Hin).
  - intros Hin. eexists. split; [|exact Hin]. by destruct r.
Qed.

Lemma forward_live evs e ann as_of_t :
  live_in forward_dir (key_rows forward_dir e (forward_rows evs)) ann as_of_t ↔ attached evs e ann as_of_t.
Proof.
  assert (∀ r, r ∈ key_rows forward_dir e (forward_rows evs) ∧ sid_cmp ann (r_other r) = Eq
    ↔ (r_key r, ann, r_t r, r_op r) ∈ evs ∧ edge_cmp e (r_key r) = Eq ∧ r_other r = ann) as Hr.
  { intros r. unfold key_rows. rewrite list_elem_of_filter, forward_row_elem, sid_cmp_eq. simpl.
    rewrite (cmp_flip (P := edge_plain) e (r_key r)). destruct (edge_cmp e (r_key r)); simpl; naive_solver. }
  unfold live_in, attached. split.
  - intros (t & (r & Hin & Ha & <- & Hop & Hle) & Hmax). destruct (proj1 (Hr r) (conj Hin Ha)) as (H1 & H2 & _).
    exists (r_t r). split_and!; [done|exists (r_key r); by rewrite <- Hop|].
    intros e' t' op Hin' Hc Ht. destruct (proj2 (Hr (mkRow e' ann t' op)) (conj Hin' (conj Hc eq_refl))) as [G1 G2].
    by apply (Hmax (mkRow e' ann t' op)).
  - intros (t & Hle & (e' & Hin & Hc) & Hmax).
    destruct (proj2 (Hr (mkRow e' ann t true)) (conj Hin (conj Hc eq_refl))) as [G1 G2].
    exists t. split; [by exists (mkRow e' ann t true)|]. intros r Hin' Ha Ht.
    destruct (proj1 (Hr r) (conj Hin' Ha)) as (H1 & H2 & _). by eapply Hmax.
Qed.

Lemma reverse_live evs e ann as_of_t :
  live_in reverse_dir (key_rows reverse_dir ann (reverse_rows evs)) e as_of_t ↔ attached evs e ann as_of_t.
Proof.
  assert (∀ r, r ∈ key_rows reverse_dir ann (reverse_rows evs) ∧ edge_cmp e (r_other r) = Eq
    ↔ (r_other r, ann, r_t r, r_op r) ∈ evs ∧ edge_cmp e (r_other r) = Eq ∧ r_key r = ann) as Hr.
  { intros r. unfold key_rows. rewrite list_elem_of_filter, reverse_row_elem. simpl. rewrite sid_cmp_eq. naive_solver. }
  unfold live_in, attached. split.
  - intros (t & (r & Hin & Ha & <- & Hop & Hle) & Hmax). destruct (proj1 (Hr r) (conj Hin Ha)) as (H1 & H2 & _).
    exists (r_t r). split_and!; [done|exists (r_other r); by rewrite <- Hop|].
    intros e' t' op Hin' Hc Ht. destruct (proj2 (Hr (mkRow ann e' t' op)) (conj Hin' (conj Hc eq_refl))) as [G1 G2].
    by apply (Hmax (mkRow ann e' t' op)).
  - intros (t & Hle & (e' & Hin & Hc) & Hmax).
    destruct (proj2 (Hr (mkRow ann e' t true)) (conj Hin (conj Hc eq_refl))) as [G1 G2].
    exists t. split; [by exists (mkRow ann e' t true)|]. intros r Hin' Ha Ht.
    destruct (proj1 (Hr r) (conj Hin' Ha)) as (H1 & H2 & _). by eapply Hmax.
Qed.

(** ** What the arenas answer *)

Section stored.
Context (store_get : Cid → string + list Z) (forward_branch_cid reverse_branch_cid : Cid) (target : nat).

(** The store holds the arenas of some events. *)
Definition arena_holds (evs : list Event) : Prop :=
  Forall event_ok evs
  ∧ (∃ cids, blobs_fit forward_dir target (forward_rows evs) cids
             ∧ arena_stored forward_dir store_get forward_branch_cid target (forward_rows evs) cids)
  ∧ (∃ cids, blobs_fit reverse_dir target (reverse_rows evs) cids
             ∧ arena_stored reverse_dir store_get reverse_branch_cid target (reverse_rows evs) cids).

Abbreviation fcache_ok := (cache_ok forward_dir store_get forward_branch_cid).
Abbreviation rcache_ok := (cache_ok reverse_dir store_get reverse_branch_cid).

Lemma annotations_exact evs e as_of_t c : arena_holds evs → edge_plain e → fcache_ok c →
  ∃ out c', current_annotations_for store_get forward_branch_cid e as_of_t c = (inr out, c') ∧ fcache_ok c'
    ∧ StronglySorted (λ x y, sid_cmp x y = Lt) out ∧ ∀ ann, ann ∈ out ↔ attached evs e ann as_of_t.
Proof.
  intros (He & (cids & Hfit & Hst) & _) Pe Hc. destruct (forward_rows_ok evs He) as [Ha Hok].
  destruct (current_for_exact forward_dir store_get forward_branch_cid (P := edge_plain) target _ cids Hok Hfit Hst Ha e as_of_t c Pe Hc)
    as (c' & E & Hc').
  eexists _, c'. split; [exact E|]. split; [done|].
  destruct (live_out_spec forward_dir (P := edge_plain) (Q := λ _, True) target _ Ha e as_of_t Pe) as [Hs _ Hl]. split; [done|].
  intros ann. rewrite <- forward_live, <- (Hl ann I). split.
  - intros Hin. exists ann. simpl. by rewrite sid_cmp_eq.
  - intros (x & Hin & Hx). simpl in Hx. by apply sid_cmp_eq in Hx as ->.
Qed.

Lemma targets_exact evs ann as_of_t c : arena_holds evs → rcache_ok c →
  ∃ out c', current_targets_for store_get reverse_branch_cid ann as_of_t c = (inr out, c') ∧ rcache_ok c'
    ∧ StronglySorted (λ x y, edge_cmp x y = Lt) out
    ∧ ∀ e, edge_plain e → (∃ e', e' ∈ out ∧ edge_cmp e e' = Eq) ↔ attached evs e ann as_of_t.
Proof.
  intros (He & _ & (cids & Hfit & Hst)) Hc. destruct (reverse_rows_ok evs He) as [Ha Hok].
  destruct (current_for_exact reverse_dir store_get reverse_branch_cid (P := λ _, True) target _ cids Hok Hfit Hst Ha ann as_of_t c I Hc)
    as (c' & E & Hc').
  eexists _, c'. split; [exact E|]. split; [done|].
  destruct (live_out_spec reverse_dir (P := λ _, True) (Q := edge_plain) target _ Ha ann as_of_t I) as [Hs _ Hl]. split; [done|].
  intros e Pe. by rewrite <- reverse_live, <- (Hl e Pe).
Qed.

(** C26: The arenas answer from all events they were built of, if every object
    of an annotated edge is a value that its serialized form reads back as
    ([value_stable], so no JSON objects, geo points or number-like strings: the
    code loses those, see [arena_loses_json]).  At every time a lookup succeeds,
    gives its answers in order and without repetition, and finds an annotation
    on an edge, or an edge under an annotation, exactly when the latest of
    their events up to then asserts; what the reader has cached does not
    matter. *)
Theorem arena_reads_exact evs e ann as_of_t c c' :
  arena_holds evs → edge_plain e → fcache_ok c → rcache_ok c' →
  ∃ anns c1 edges c2,
    current_annotations_for store_get forward_branch_cid e as_of_t c = (inr anns, c1)
    ∧ current_targets_for store_get reverse_branch_cid ann as_of_t c' = (inr edges, c2)
    ∧ fcache_ok c1 ∧ rcache_ok c2
    ∧ StronglySorted (λ x y, sid_cmp x y = Lt) anns ∧ StronglySorted (λ x y, edge_cmp x y = Lt) edges
    ∧ (ann ∈ anns ↔ attached evs e ann as_of_t)
    ∧ ((∃ e', e' ∈ edges ∧ edge_cmp e e' = Eq) ↔ attached evs e ann as_of_t).
Proof.
  intros Hh Pe Hc Hc'. destruct (annotations_exact evs e as_of_t c Hh Pe Hc) as (anns & c1 & E1 & O1 & S1 & A1).
  destruct (targets_exact evs ann as_of_t c' Hh Hc') as (edges & c2 & E2 & O2 & S2 & A2).
  exists anns, c1, edges, c2. split_and!; auto.
Qed.

(** Looking up many edges in one pass gives for each edge what looking it
    up alone gives, in the order the edges were asked for. *)
Theorem arena_batch_exact evs edges as_of_t c :
  arena_holds evs → Forall edge_plain edges → fcache_ok c →
  ∃ outs c1, current_annotations_batch store_get forward_branch_cid edges as_of_t c = (inr outs, c1)
    ∧ Forall2 (λ e out, fst (current_annotations_for store_get forward_branch_cid e as_of_t (new_cache)) = inr out) edges outs.
Proof.
  intros (He & (cids & Hfit & Hst) & _) Pe Hc. destruct (forward_rows_ok evs He) as [Ha Hok].
  destruct (current_batch_exact forward_dir store_get forward_branch_cid (P := edge_plain) (Q := λ _, True) target _ cids Hok Hfit Hst Ha
    edges as_of_t c Pe Hc) as (c' & E & Hc').
  eexists _, c'. split; [exact E|]. apply Forall2_fmap_r, Forall_Forall2_diag. eapply Forall_impl; [exact Pe|]. intros e He'.
  destruct (current_for_exact forward_dir store_get forward_branch_cid (P := edge_plain) target _ cids Hok Hfit Hst Ha e as_of_t
    new_cache He' (new_cache_ok _ _ _)) as (c1 & E1 & _).
  unfold current_annotations_for. by rewrite E1.
Qed.

Lemma events_of_elem evs e as_of_t x t op : Forall event_ok evs → edge_plain e →
  (x, t, op) ∈ events_of forward_dir e as_of_t (forward_rows evs)
  ↔ ∃ e', (e', x, t, op) ∈ evs ∧ edge_cmp e e' = Eq ∧ t <= as_of_t.
Proof.
  intros He Pe. unfold events_of. rewrite list_elem_of_omap. rewrite Forall_forall in He.
  assert (∀ e', edge_plain e' → edge_eq e' e = true ↔ edge_cmp e e' = Eq) as Heq.
  { intros e' Pe'. rewrite edge_eq_cmp, (cmp_flip (P := edge_plain) e e') by done. by destruct (edge_cmp e e'). }
  split.
  - intros (r & Hin%forward_row_elem & Hr). simpl in Hr. destruct (He _ Hin) as [Pr _]. simpl in Pr.
    destruct (edge_eq (r_key r) e) eqn:Ee; [|done]. destruct (Z.leb_spec (r_t r) as_of_t); [|done]. injection Hr as <- <- <-.
    exists (r_key r). split_and!; [done|by apply Heq|done].
  - intros (e' & Hin & Hc & Ht). exists (mkRow e' x t op). rewrite forward_row_elem. split; [done|]. simpl.
    destruct (He _ Hin) as [Pe' _]. rewrite (proj2 (Heq e' Pe') Hc), (proj2 (Z.leb_le _ _) Ht). done.
Qed.

Lemma annotations_merged_exact evs nevs a e as_of_t c : arena_holds evs → rows_exact a nevs → edge_plain e → fcache_ok c →
  ∃ out c', current_annotations_merged store_get forward_branch_cid e (collect_forward_events a e) as_of_t c = (inr out, c')
    ∧ fcache_ok c' ∧ StronglySorted (λ x y, sid_cmp x y = Lt) out
    ∧ ∀ ann, ann ∈ out ↔ attached (evs ++ nevs) e ann as_of_t.
Proof.
  intros (He & (cids & Hfit & Hst) & _) Hx Pe Hc. destruct (forward_rows_ok evs He) as [Ha Hok].
  destruct (current_merged_exact forward_dir store_get forward_branch_cid (P := edge_plain) target _ cids Hok Hfit Hst Ha e
    (collect_forward_events a e) as_of_t c Pe Hc) as (c' & E & Hc').
  eexists _, c'. split; [exact E|]. split; [done|]. simpl.
  split; [apply (latest_assertions_sorted sid_cmp (P := λ _, True)); by apply Forall_true|].
  intros ann. trans (∃ x, x ∈ latest_assertions_at sid_cmp (events_of forward_dir e as_of_t (forward_rows evs) ++ collect_forward_events a e) as_of_t
            ∧ sid_cmp ann x = Eq).
  { split; [intros ?; exists ann; by rewrite sid_cmp_eq|by intros (x & ? & ->%sid_cmp_eq)]. }
  rewrite (latest_assertions_spec sid_cmp (P := λ _, True)) by (done || by apply Forall_true).
  apply attached_of. intros t op. unfold key_events. rewrite list_elem_of_fmap.
  assert (∀ x, (x, t, op) ∈ collect_forward_events a e ↔ ∃ e', (e', x, t, op) ∈ nevs ∧ edge_cmp e e' = Eq) as Hnov.
  { intros x. unfold collect_forward_events. rewrite (rx_forward _ _ Hx e (proj1 Pe)), list_elem_of_fmap. split.
    - intros (b & [= -> -> ->] & ([[[e' ?] ?] ?] & -> & [Hc0 Hin]%list_elem_of_filter)%list_elem_of_fmap). by exists e'.
    - intros (e' & Hin & Hc0). exists (mkFwd x t op). split; [done|]. apply list_elem_of_fmap.
      exists (e', x, t, op). split; [done|]. by apply list_elem_of_filter. }
  split.
  - intros ([[x t'] op'] & [= -> ->] & ([->%sid_cmp_eq Ht] & Hin)%list_elem_of_filter). simpl in *.
    apply elem_of_app in Hin as [(e' & H1 & H2 & _)%events_of_elem|(e' & H1 & H2)%Hnov]; [exists e'|done|done|exists e'];
      rewrite elem_of_app; auto.
  - intros (e' & Hin & Hc0 & Ht). exists (ann, t, op). split; [done|]. apply list_elem_of_filter. simpl.
    split; [by rewrite sid_cmp_eq|]. rewrite elem_of_app, events_of_elem, Hnov by done.
    apply elem_of_app in Hin as [Hin|Hin]; [left|right]; by exists e'.
Qed.
End stored.

(** ** Builder and observer *)

(** Builder and observer agree on bundles.  Of the reifying flakes of a
    batch the arena builder keeps exactly the events the attachment overlay
    observes, in whatever order its hash map yields them, and skips exactly
    the bundles the overlay counts as malformed. *)
Theorem arena_builder_agrees flakes target :
  Forall (λ f, is_reserved_reifies_predicate (f_p f) = true) flakes →
  ∃ evs, evs ≡ₚ flake_events flakes
    ∧ build_arenas_from_flakes flakes target
      = output_of evs (Z.of_nat (malformed_bundles flakes)) target.
Proof.
  intros Hr. assert (group_flakes flakes = group_bundles flakes) as Hg.
  { unfold group_flakes, group_bundles. generalize (@nil (BundleKey * list Flake)) as groups.
    induction Hr as [|f l Hf Hr IH]; intros groups; simpl; [done|]. by rewrite Hf, IH. }
  exists (omap bundle_event (drain (group_bundles flakes))). assert (omap bundle_event (drain (group_bundles flakes)) ≡ₚ flake_events flakes) as Hp
    by (unfold flake_events; by rewrite drain_perm).
  split; [done|]. unfold build_arenas_from_flakes. rewrite Hg. f_equal. rewrite Hp, drain_perm. unfold flake_events, malformed_bundles.
  generalize (group_bundles flakes) as bs. intros bs.
  induction bs as [|b bs IH]; [done|]. rewrite filter_cons. cbn [omap list_omap].
  destruct (bundle_event b) eqn:E; [rewrite decide_False by congruence|rewrite decide_True by done]; cbn [length]; lia.
Qed.
End arenas.

(** ** A concrete arena *)

(** A self-delimiting code of contents, in the place of CBOR. *)
Definition flat_text (s : string) : list Z := Z.of_nat (length (str_bytes s)) :: str_bytes s.
Fixpoint flat (c : Content) : list Z :=
  match c with
  | CNull => [0]
  | CBool b => [1; if b then 1 else 0]
  | CInt n => [2; n]
  | CFloat bits => [3; bits]
  | CText s => 4 :: flat_text s
  | CSeq l => 5 :: Z.of_nat (length l) :: flat_map flat l
  | CMap l => 6 :: Z.of_nat (length l) :: flat_map (λ kv, flat_text kv.1 ++ flat kv.2) l
  end.

Fixpoint many {A} (read : list Z → option (A * list Z)) (n : nat) (bytes : list Z) : option (list A * list Z) :=
  match n with
  | O => Some ([], bytes)
  | S n => '(x, bytes) ← read bytes; '(l, bytes) ← many read n bytes; Some (x :: l, bytes)
  end.
Definition unflat_text (bytes : list Z) : option (string * list Z) :=
  match bytes with
  | n :: bytes => Some (bytes_str (take (Z.to_nat n) bytes), drop (Z.to_nat n) bytes)
  | [] => None
  end.
Fixpoint unflat (fuel : nat) (bytes : list Z) : option (Content * list Z) :=
  match fuel with
  | O => None
  | S fuel =>
      match bytes with
      | 0 :: bytes => Some (CNull, bytes)
      | 1 :: b :: bytes => Some (CBool (b =? 1), bytes)
      | 2 :: n :: bytes => Some (CInt n, bytes)
      | 3 :: bits :: bytes => Some (CFloat bits, bytes)
      | 4 :: bytes => '(s, bytes) ← unflat_text bytes; Some (CText s, bytes)
      | 5 :: n :: bytes => '(l, bytes) ← many (unflat fuel) (Z.to_nat n) bytes; Some (CSeq l, bytes)
      | 6 :: n :: bytes =>
          '(l, bytes) ← many (λ bytes, '(k, bytes) ← unflat_text bytes; '(c, bytes) ← unflat fuel bytes; Some ((k, c), bytes))
                          (Z.to_nat n) bytes; Some (CMap l, bytes)
      | _ => None
      end
  end.

Lemma unflat_flat_text s rest : unflat_text (flat_text s ++ rest) = Some (s, rest).
Proof. unfold flat_text. simpl. by rewrite Nat2Z.id, take_app_length, drop_app_length, bytes_str_bytes. Qed.

Lemma many_flat {A} (read : list Z → option (A * list Z)) (write : A → list Z) l rest :
  Forall (λ x, ∀ rest, read (write x ++ rest) = Some (x, rest)) l →
  many read (length l) (flat_map write l ++ rest) = Some (l, rest).
Proof. induction 1 as [|x l Hx _ IH]; simpl; [done|]. rewrite <- app_assoc, Hx. simpl. by rewrite IH. Qed.

Lemma unflat_flat n c rest : content_ok n c = true → unflat n (flat c ++ rest) = Some (c, rest).
Proof.
  revert c rest. induction n as [|n IH]; intros c rest Hc; [by destruct c|].
  destruct c as [|b| | |s|l|l]; try done.
  - by destruct b.
  - cbn [flat unflat app]. by rewrite unflat_flat_text.
  - rewrite content_ok_seq, forallb_forall in Hc. cbn [flat unflat app]. rewrite Nat2Z.id, (many_flat _ flat); [done|].
    apply Forall_forall. intros x Hx%list_elem_of_In rest'. by apply IH, Hc.
  - rewrite content_ok_map, forallb_forall in Hc. cbn [flat unflat app]. rewrite Nat2Z.id.
    rewrite (many_flat _ (λ kv, flat_text kv.1 ++ flat kv.2)); [done|].
    apply Forall_forall. intros [k x] Hx rest'. rewrite <- app_assoc, unflat_flat_text. simpl.
    rewrite IH; [done|]. apply Hc, list_elem_of_In, list_elem_of_fmap. by exists (k, x).
Qed.

#[export] Instance flat_cbor : Cbor.
Proof.
  refine {| to_cbor := flat; from_cbor := λ bytes, fst <$> unflat 64 bytes |}.
  intros c Hc. rewrite <- (app_nil_r (flat c)). by rewrite unflat_flat.
Defined.

#[export] Instance plain_serde : Serde (H := plain_values).
Proof.
  refine (@Build_Serde plain_values (λ n, n) (λ k _, CMap [("kind", CNull)]) (λ _, None) _
    string _ CText (λ c, match c with CText s => Some s | _ => None end) _ _).
  - done.
  - intros s. apply content_ok_text.
  - done.
Defined.

#[local] Existing Instance insertion_sorting.

(** A store for the arenas of some events, one leaf each way. *)
Definition demo_store (evs : list Event) (cid : string) : string + list Z :=
  let leaf {A} (leaves : option (list (A * list Z))) := default [] (snd <$> (leaves ≫= head)) in
  if bool_decide (cid = "fleaf"%string) then inr (leaf (build_forward_leaves (forward_rows evs) 4))
  else if bool_decide (cid = "rleaf"%string) then inr (leaf (build_reverse_leaves (reverse_rows evs) 4))
  else if bool_decide (cid = "fbranch"%string) then
    inr (build_forward_branch (zip (default [] (build_forward_leaves (forward_rows evs) 4)).*1 ["fleaf"%string]))
  else if bool_decide (cid = "rbranch"%string) then
    inr (build_reverse_branch (zip (default [] (build_reverse_leaves (reverse_rows evs) 4)).*1 ["rleaf"%string]))
  else inl "not found"%string.

Definition bob : EdgeKey := knows "alice" "bob".
Definition bob_events : list Event := [(bob, ann, 1, true)].

Lemma bob_plain : edge_plain bob.
Proof. split; [by intros n [=]|done]. Qed.
Lemma demo_sid_ok name : sid_ok (mkSid 100 name).
Proof. unfold sid_ok. simpl. lia. Qed.
Lemma bob_ok : edge_ok bob.
Proof.
  split; try apply demo_sid_ok; [done|by apply stable_values, demo_sid_ok| |done]. unfold sid_ok. vm_compute. done.
Qed.

(** The blobs of a concrete arena fit: by computation. *)
Ltac compute_fits :=
  split; [refine (bool_decide_unpack _ _); by vm_compute|split; [refine (bool_decide_unpack _ _); by vm_compute|]];
  let El := fresh "El" in let leaves := fresh "leaves" in
  intros leaves El; vm_compute in El; injection El as <-; refine (bool_decide_unpack _ _); by vm_compute.

(** The store holds one direction of an arena: by computation. *)
Ltac compute_stored D rows cid :=
  let El := fresh "El" in let leaves := fresh "leaves" in
  exists [cid]; split; [compute_fits|];
  destruct (build_leaves D rows 4) as [leaves|] eqn:El; [|by vm_compute in El];
  exists leaves; split; [done|]; vm_compute in El; injection El as <-; split; [constructor; [|constructor]|]; by vm_compute.

Lemma bob_event_ok t op : - 2 ^ 63 <= t < 2 ^ 63 → event_ok (bob, ann, t, op).
Proof. intros Ht. split; [apply bob_plain|]. split; [apply bob_ok|]. split; [apply demo_sid_ok|done]. Qed.

Definition retracted_events : list Event := [(bob, ann, 1, true); (bob, ann, 3, false)].

Lemma bob_events_ok : Forall event_ok bob_events.
Proof. constructor; [|constructor]. apply bob_event_ok. by vm_compute. Qed.

Lemma bob_held : arena_holds (demo_store bob_events) "fbranch" "rbranch" 4 bob_events.
Proof.
  split; [apply bob_events_ok|split].
  - compute_stored forward_dir (forward_rows bob_events) "fleaf"%string.
  - compute_stored reverse_dir (reverse_rows bob_events) "rleaf"%string.
Qed.
Lemma bob_attached : attached bob_events bob ann 5.
Proof.
  exists 1. split_and!; [lia|exists bob; split; [by left|done]|].
  intros e' t' op [[= -> -> ->]|[]%elem_of_nil]%elem_of_cons; lia.
Qed.

Lemma arena_reads_exact_witness :
  ∃ anns c1, current_annotations_for (demo_store bob_events) "fbranch" bob 5 new_cache = (inr anns, c1) ∧ ann ∈ anns.
Proof.
  destruct (arena_reads_exact (SE := plain_serde) (demo_store bob_events) "fbranch" "rbranch" 4 bob_events bob ann 5 new_cache new_cache
    bob_held bob_plain (new_cache_ok _ _ _) (new_cache_ok _ _ _)) as (anns & c1 & edges & c2 & E & _ & _ & _ & _ & _ & Ha & _).
  exists anns, c1. split; [exact E|]. apply Ha, bob_attached.
Defined.

Lemma arena_batch_exact_witness :
  ∃ outs c1, current_annotations_batch (demo_store bob_events) "fbranch" [knows "alice" "zed"; bob] 5 new_cache = (inr outs, c1)
    ∧ outs = [[]; [ann]].
Proof.
  destruct (arena_batch_exact (SE := plain_serde) (demo_store bob_events) "fbranch" "rbranch" 4 bob_events [knows "alice" "zed"; bob] 5 new_cache
    bob_held) as (outs & c1 & E & Hf).
  - repeat (constructor; [split; [by intros n [=]|done]|]). constructor.
  - apply new_cache_ok.
  - exists outs, c1. split; [exact E|]. inversion Hf as [|? x ? l H1 H2]; subst. inversion H2 as [|? y ? l' H3 H4]; subst.
    inversion H4; subst. vm_compute in H1, H3. injection H1 as <-. injection H3 as <-. done.
Defined.

Lemma arena_builder_agrees_witness :
  ∃ evs, evs ≡ₚ bob_events ∧ build_arenas_from_flakes (attachment bob 1 true) 4 = output_of evs 0 4.
Proof. apply (arena_builder_agrees (attachment bob 1 true) 4). by repeat constructor. Defined.

(** ** JSON objects *)

Definition json_edge : EdgeKey :=
  mkEdge None (mkSid 100 "alice") (mkSid 100 "profile") (VJson "{}") (mkSid 3 "JSON") None None.
Definition json_events : list Event := [(json_edge, ann, 1, true)].

(** Indexing loses the annotations of an edge whose object is a JSON
    literal.  The overlay answers with the annotation; the leaf that holds its
    row reads back with a string in the place of the literal, so that the
    arena no longer finds the edge. *)
Theorem arena_loses_json :
  let store := demo_store json_events in
  let a := attach json_edge ann 1 true new_attachments in
  current_annotations_for_at a json_edge 5 = [ann]
  ∧ fst (current_annotations_for store "fbranch" json_edge 5 new_cache) = inr []
  ∧ ∃ row, fst (collect_all_forward_events store "fbranch" new_cache) = inr [row] ∧ ek_o (r_key row) = VString "{}".
Proof. split_and!; [by vm_compute|by vm_compute|]. eexists. split; by vm_compute. Qed.
