(* ===== verification/ArenaSeal.v ===== *)
(** * Sealing the attachment overlay
    ([fluree-db-indexer/src/build/annotation_arena.rs],
    [fluree-db-indexer/src/build/incremental.rs] and
    [fluree-db-indexer/src/run_index/build/incremental_root.rs])

    An incremental index writes the arenas of the annotation events it is
    handed, points the new root at them and records the blobs of the last
    arena as garbage. *)

From S2P Require Import Prelude Text Vocab CommitWire CommitOp Ordering FlakeOrder FlakeTheorems.
From S2P Require Import FlakeTheorems.
From S2P Require Import FlakeEq Edge Attachments ArenaFormat Arena Accumulator ArenaTheorems.
From S2P Require Import ArenaTheorems.
#[local] Open Scope Z_scope.

Section seal.
Context `{VO : ValueOrd} `{SE : !Serde} `{CB : Cbor} `{SO : Sorting}.

(** ** Persisting an arena
    ([fluree-db-indexer/src/build/annotation_arena.rs], [incremental.rs]) *)

Inductive ContentKind := AnnotationForwardLeaf | AnnotationForwardBranch | AnnotationReverseLeaf | AnnotationReverseBranch.

(** A content-addressed store: the id of a blob is computed from it, and blobs
    with one id are one blob. *)
Section store.
Context (cid_of : ContentKind → list Z → Cid) (cid_text : Cid → string).
Hypothesis cid_of_inj : ∀ k b k' b', cid_of k b = cid_of k' b' → b = b'.

Definition Store : Type := list (Cid * list Z).
Fixpoint blob_at (cid : Cid) (st : Store) : option (list Z) :=
  match st with
  | [] => None
  | (k, b) :: st => if decide (k = cid) then Some b else blob_at cid st
  end.
Definition get (st : Store) (cid : Cid) : string + list Z :=
  match blob_at cid st with Some b => inr b | None => inl "not found"%string end.
Definition put (kind : ContentKind) (st : Store) (blob : list Z) : Cid * Store :=
  let cid := cid_of kind blob in (cid, (cid, blob) :: st).

Fixpoint put_leaves {A} (kind : ContentKind) (leaves : list (A * list Z)) (st : Store) : list (A * Cid) * Store :=
  match leaves with
  | [] => ([], st)
  | (summary, blob) :: leaves =>
      let '(cid, st) := put kind st blob in
      let '(pairs, st) := put_leaves kind leaves st in ((summary, cid) :: pairs, st)
  end.

(** Without the format version and the statistics, which no reader uses. *)
Record AnnotationIndexRoot := mkRoot { root_max_t : Z; forward_branch_cid : Cid; reverse_branch_cid : Cid }.
Record PersistedArenaResult := mkPersisted {
  new_index : option AnnotationIndexRoot;
  replaced_leaf_cids : list Cid;
  new_leaf_cids : list Cid;
}.

Definition DEFAULT_TARGET_ROWS_PER_LEAF : nat := 4096.

Definition all_leaf_cids (st : Store) (root : AnnotationIndexRoot) : ArenaError + list Cid :=
  match fst (leaf_cids forward_dir (get st) (forward_branch_cid root) new_cache) with
  | inl err => inl err
  | inr fwd =>
      match fst (leaf_cids reverse_dir (get st) (reverse_branch_cid root) new_cache) with
      | inl err => inl err
      | inr rev => inr (fwd ++ rev)
      end
  end.

(** The blobs of an arena; [None] is the panic of an empty chunk. *)
Definition persist_arena (events : list Event) (st : Store) : option (AnnotationIndexRoot * list Cid * Store) :=
  let out := build_arenas_from_event_pairs events DEFAULT_TARGET_ROWS_PER_LEAF in
  fwd ← forward_leaves out; rev ← reverse_leaves out;
  let '(fwd_pairs, st) := put_leaves AnnotationForwardLeaf fwd st in
  let '(fwd_cid, st) := put AnnotationForwardBranch st (build_forward_branch fwd_pairs) in
  let '(rev_pairs, st) := put_leaves AnnotationReverseLeaf rev st in
  let '(rev_cid, st) := put AnnotationReverseBranch st (build_reverse_branch rev_pairs) in
  Some (mkRoot (max_t out) fwd_cid rev_cid, fwd_pairs.*2 ++ rev_pairs.*2, st).

Definition build_and_persist_annotation_arena (st : Store) (previous_index : option AnnotationIndexRoot) (events : list Event)
  : ArenaError + option (PersistedArenaResult * Store) :=
  match previous_index, events with
  | None, [] => inr (Some (mkPersisted None [] [], st))
  | _, _ =>
      match (match previous_index with Some prev => all_leaf_cids st prev | None => inr [] end) with
      | inl err => inl err
      | inr replaced =>
          inr ('(root, leaves, st) ← persist_arena events st; Some (mkPersisted (Some root) replaced leaves, st))
      end
  end.

(** ** The root builder
    ([fluree-db-indexer/src/run_index/build/incremental_root.rs]) *)

Record IncrementalRootBuilder := mkBuilder {
  annotation_index : option AnnotationIndexRoot;
  has_annotations : bool;
  had_annotation_arena : bool;
  replaced_cids : list Cid;
}.

Definition branch_cids (index : option AnnotationIndexRoot) : list Cid :=
  match index with Some root => [forward_branch_cid root; reverse_branch_cid root] | None => [] end.

Definition set_annotation_index (b : IncrementalRootBuilder) (index : option AnnotationIndexRoot)
    (previous_leaf_cids index_leaf_cids : list Cid) : IncrementalRootBuilder :=
  let new_cids := branch_cids index ++ index_leaf_cids in
  let old_cids := branch_cids (annotation_index b) ++ previous_leaf_cids in
  let replaced := sort_by (cmp_le (λ x y, str_cmp (cid_text x) (cid_text y))) (filter (λ c, c ∉ new_cids) (remove_dups old_cids)) in
  mkBuilder index (has_annotations b)
    (match index with Some _ => true | None => had_annotation_arena b end) (replaced_cids b ++ replaced).

Definition build (b : IncrementalRootBuilder) : IncrementalRootBuilder * list Cid :=
  (mkBuilder (annotation_index b) (has_annotations b) (if has_annotations b then true else had_annotation_arena b) (replaced_cids b),
   replaced_cids b).

(** ** Sealing
    ([incremental.rs], the annotation phase of an incremental index) *)

Inductive AttachmentEventCoverage :=
  | Authoritative (events : list Event)
  | Augment (events : list Event)
  | Unknown.

(** [sort] and [Vec::dedup]. *)
Definition event_cmp (a b : Event) : comparison := row_cmp forward_dir (forward_row a) (forward_row b).
Definition event_eq (a b : Event) : bool :=
  edge_eq (ev_edge a) (ev_edge b) && sid_eq (ev_ann a) (ev_ann b) && (ev_t a =? ev_t b) && Bool.eqb (ev_op a) (ev_op b).
Fixpoint dedup_after (kept : Event) (evs : list Event) : list Event :=
  match evs with
  | [] => []
  | ev :: evs => if event_eq ev kept then dedup_after kept evs else ev :: dedup_after ev evs
  end.
Definition dedup_events (evs : list Event) : list Event := match evs with [] => [] | ev :: evs => ev :: dedup_after ev evs end.

Definition row_event (r : AnnotationForwardRow) : Event := (r_key r, r_other r, r_t r, r_op r).
Definition combined_events (prev novelty : list Event) : list Event :=
  dedup_events (sort_by (cmp_le event_cmp) (prev ++ novelty)).
Definition clip (job_t : Z) (evs : list Event) : list Event := filter (λ ev, ev_t ev <= job_t) evs.

Definition previous_events (st : Store) (prev : option AnnotationIndexRoot) : ArenaError + list Event :=
  match prev with
  | None => inr []
  | Some root =>
      match fst (collect_all_forward_events (get st) (forward_branch_cid root) new_cache) with
      | inl err => inl err
      | inr rows => inr (row_event <$> rows)
      end
  end.

(** Persist an arena and point the root at it. *)
Definition rebuild (b : IncrementalRootBuilder) (st : Store) (prev : option AnnotationIndexRoot) (events : list Event)
  : ArenaError + option (IncrementalRootBuilder * Store) :=
  match build_and_persist_annotation_arena st prev events with
  | inl err => inl err
  | inr None => inr None
  | inr (Some (result, st)) =>
      inr (Some (set_annotation_index b (new_index result) (replaced_leaf_cids result) (new_leaf_cids result), st))
  end.

(** [b] is still what it was cloned from as far as annotations go. *)
Definition seal_annotations (coverage : option AttachmentEventCoverage) (job_t : Z) (b : IncrementalRootBuilder) (st : Store)
  : ArenaError + option (IncrementalRootBuilder * Store) :=
  let prev_arena := annotation_index b in
  match coverage with
  | Some (Authoritative events) => rebuild b st prev_arena (clip job_t events)
  | Some (Augment events) =>
      match prev_arena, has_annotations b with
      | None, true => inr (Some (set_annotation_index b None [] [], st))
      | _, _ =>
          match previous_events st prev_arena with
          | inl err => inl err
          | inr prev => rebuild b st prev_arena (combined_events prev (clip job_t events))
          end
      end
  | Some Unknown | None =>
      match prev_arena with
      | None => inr (Some (b, st))
      | Some prev =>
          match all_leaf_cids st prev with
          | inl err => inl err
          | inr leaves => inr (Some (set_annotation_index b None leaves [], st))
          end
      end
  end.

(** Garbage collection: the store drops what a root no longer references. *)
Definition release (garbage : list Cid) (st : Store) : Store := filter (λ kb, kb.1 ∉ garbage) st.

(** ** What a persisted arena holds *)

Definition store_ok (st : Store) : Prop := ∀ cid b, blob_at cid st = Some b → ∃ kind, cid = cid_of kind b.
Definition extends (st st' : Store) : Prop := ∀ cid b, blob_at cid st = Some b → blob_at cid st' = Some b.

Lemma put_ok kind st blob cid st' : store_ok st → put kind st blob = (cid, st') →
  store_ok st' ∧ extends st st' ∧ blob_at cid st' = Some blob ∧ cid = cid_of kind blob.
Proof.
  intros Hst [= <- <-]. split_and!; [| |simpl; by rewrite decide_True|done].
  - intros cid b. simpl. destruct (decide _) as [<-|]; [intros [= <-]; by exists kind|apply Hst].
  - intros cid b Hb. simpl. destruct (decide (cid_of kind blob = cid)) as [<-|]; [|done].
    destruct (Hst _ _ Hb) as [k Hk]. by apply cid_of_inj in Hk as ->.
Qed.

Lemma put_leaves_ok {A} kind (leaves : list (A * list Z)) st pairs st' : store_ok st → put_leaves kind leaves st = (pairs, st') →
  store_ok st' ∧ extends st st' ∧ pairs = zip leaves.*1 (cid_of kind <$> leaves.*2)
  ∧ Forall (λ leaf, blob_at (cid_of kind leaf.2) st' = Some leaf.2) leaves.
Proof.
  revert st pairs st'. induction leaves as [|[sm blob] leaves IH]; intros st pairs st' Hst; cbn [put_leaves].
  { intros [= <- <-]. split_and!; [done|by intros ???|done|constructor]. }
  destruct (put kind st blob) as [cid st1] eqn:Ep. destruct (put_leaves kind leaves st1) as [pairs' st2] eqn:El. intros [= <- <-].
  destruct (put_ok _ _ _ _ _ Hst Ep) as (O1 & X1 & B1 & ->). destruct (IH _ _ _ O1 El) as (O2 & X2 & -> & F2).
  split_and!; [done|by intros cid b ?%X1%X2|done|]. constructor; [by apply X2|done].
Qed.

(** The ids under which the leaves of an arena are stored. *)
Definition leaf_ids {A} (kind : ContentKind) (leaves : option (list (A * list Z))) : list Cid :=
  cid_of kind <$> (default [] leaves).*2.
Definition persist_fits (evs : list Event) : Prop :=
  blobs_fit forward_dir DEFAULT_TARGET_ROWS_PER_LEAF (forward_rows evs)
    (leaf_ids AnnotationForwardLeaf (build_forward_leaves (forward_rows evs) DEFAULT_TARGET_ROWS_PER_LEAF))
  ∧ blobs_fit reverse_dir DEFAULT_TARGET_ROWS_PER_LEAF (reverse_rows evs)
    (leaf_ids AnnotationReverseLeaf (build_reverse_leaves (reverse_rows evs) DEFAULT_TARGET_ROWS_PER_LEAF)).

(** A store with the blobs of a root: whatever else happens to it, the arena
    can be read. *)
Definition reads_as (st : Store) (root : AnnotationIndexRoot) (leaves : list Cid) (evs : list Event) : Prop :=
  ∀ st', (∀ c, c ∈ branch_cids (Some root) ++ leaves → blob_at c st' = blob_at c st) →
  all_leaf_cids st' root = inr leaves
  ∧ arena_holds (get st') (forward_branch_cid root) (reverse_branch_cid root) DEFAULT_TARGET_ROWS_PER_LEAF evs.

Lemma all_leaf_cids_exact st root target fcids rcids evs : Forall event_ok evs →
  blobs_fit forward_dir target (forward_rows evs) fcids →
  arena_stored forward_dir (get st) (forward_branch_cid root) target (forward_rows evs) fcids →
  blobs_fit reverse_dir target (reverse_rows evs) rcids →
  arena_stored reverse_dir (get st) (reverse_branch_cid root) target (reverse_rows evs) rcids →
  all_leaf_cids st root = inr (fcids ++ rcids).
Proof.
  intros He Ff Sf Fr Sr. destruct (forward_rows_ok evs He) as [_ Hf], (reverse_rows_ok evs He) as [_ Hr]. unfold all_leaf_cids.
  destruct (leaf_cids_exact forward_dir (get st) _ (P := edge_plain) (Q := λ _, True) target _ fcids Hf Ff Sf new_cache (new_cache_ok _ _ _))
    as (c1 & -> & _).
  destruct (leaf_cids_exact reverse_dir (get st) _ (P := λ _, True) (Q := edge_plain) target _ rcids Hr Fr Sr new_cache (new_cache_ok _ _ _))
    as (c2 & -> & _). done.
Qed.

Lemma zip_snd {A} (leaves : list (A * list Z)) kind : (zip leaves.*1 (cid_of kind <$> leaves.*2)).*2 = cid_of kind <$> leaves.*2.
Proof. induction leaves as [|x leaves IH]; csimpl; [done|]. by rewrite IH. Qed.

Lemma persist_holds evs st : store_ok st → Forall event_ok evs → persist_fits evs →
  ∃ root leaves st', persist_arena evs st = Some (root, leaves, st') ∧ store_ok st' ∧ extends st st'
    ∧ root_max_t root = foldl raise_max_t 0 evs ∧ reads_as st' root leaves evs.
Proof.
  intros Hst He [Hf1 Hf2]. unfold persist_arena. cbn [build_arenas_from_event_pairs output_of forward_leaves reverse_leaves max_t].
  set (n := DEFAULT_TARGET_ROWS_PER_LEAF) in *.
  destruct (build_leaves_ok forward_dir n (forward_rows evs)) as (fwd & Ef & _).
  destruct (build_leaves_ok reverse_dir n (reverse_rows evs)) as (rev & Er & _).
  unfold build_forward_leaves, build_reverse_leaves in *. rewrite Ef in Hf1 |- *. rewrite Er in Hf2 |- *.
  cbn [mbind option_bind leaf_ids default] in *.
  destruct (put_leaves AnnotationForwardLeaf fwd st) as [fp st1] eqn:E1.
  destruct (put_leaves_ok _ _ _ _ _ Hst E1) as (O1 & X1 & -> & F1).
  destruct (put AnnotationForwardBranch st1 _) as [fcid st2] eqn:E2. destruct (put_ok _ _ _ _ _ O1 E2) as (O2 & X2 & B2 & _).
  destruct (put_leaves AnnotationReverseLeaf rev st2) as [rp st3] eqn:E3.
  destruct (put_leaves_ok _ _ _ _ _ O2 E3) as (O3 & X3 & -> & F3).
  destruct (put AnnotationReverseBranch st3 _) as [rcid st4] eqn:E4. destruct (put_ok _ _ _ _ _ O3 E4) as (O4 & X4 & B4 & _).
  rewrite !zip_snd. eexists _, _, st4. split; [done|]. split; [done|]. split; [by intros cid b ?%X1%X2%X3%X4|]. split; [done|].
  set (fids := cid_of AnnotationForwardLeaf <$> fwd.*2) in *. set (rids := cid_of AnnotationReverseLeaf <$> rev.*2) in *.
  intros st5 Hkeep. cbn [branch_cids forward_branch_cid reverse_branch_cid] in *.
  assert (∀ c b, c ∈ [fcid; rcid] ++ fids ++ rids → blob_at c st4 = Some b → get st5 c = inr b) as Hget
    by (intros c b Hin Hb; unfold get; by rewrite Hkeep, Hb).
  assert (arena_stored forward_dir (get st5) fcid n (forward_rows evs) fids) as Sf.
  { exists fwd. split; [exact Ef|]. split; [|apply Hget; [by left|by apply X4, X3]].
    unfold fids. rewrite <- list_fmap_compose. apply Forall2_fmap_r, Forall_Forall2_diag, Forall_forall. intros leaf Hl.
    rewrite Forall_forall in F1. apply Hget; [|by apply X4, X3, X2, F1].
    rewrite !elem_of_app. right. left. unfold fids. rewrite <- list_fmap_compose. by apply (list_elem_of_fmap_2 (cid_of AnnotationForwardLeaf ∘ snd)). }
  assert (arena_stored reverse_dir (get st5) rcid n (reverse_rows evs) rids) as Sr.
  { exists rev. split; [exact Er|]. split; [|apply Hget; [right; by left|done]].
    unfold rids. rewrite <- list_fmap_compose. apply Forall2_fmap_r, Forall_Forall2_diag, Forall_forall. intros leaf Hl.
    rewrite Forall_forall in F3. apply Hget; [|by apply X4, F3].
    rewrite !elem_of_app. right. right. unfold rids. rewrite <- list_fmap_compose. by apply (list_elem_of_fmap_2 (cid_of AnnotationReverseLeaf ∘ snd)). }
  split; [by apply (all_leaf_cids_exact _ _ n _ _ evs)|]. split; [done|]. split; [by exists fids|by exists rids].
Qed.

Lemma blob_at_release garbage st c : c ∉ garbage → blob_at c (release garbage st) = blob_at c st.
Proof.
  intros Hc. unfold release, Store in *. induction st as [|[k b] st IH]; [done|]. rewrite filter_cons. cbn [fst blob_at].
  destruct (decide (k ∉ garbage)) as [Hk|Hk]; cbn [blob_at]; rewrite IH; [done|]. destruct (decide (k = c)) as [->|]; [|done]. by destruct Hk.
Qed.

(** ** Sealing changes no answer *)

Lemma attached_ext evs evs' e ann as_of_t :
  (∀ t op, t <= as_of_t → (∃ e', (e', ann, t, op) ∈ evs ∧ edge_cmp e e' = Eq) ↔ (∃ e', (e', ann, t, op) ∈ evs' ∧ edge_cmp e e' = Eq)) →
  attached evs e ann as_of_t ↔ attached evs' e ann as_of_t.
Proof.
  intros Hext. unfold attached. split; intros (t & Ht & Hin & Hmax); exists t;
    (split; [done|split; [by apply Hext|]]); intros e' t' op Hin' Hc Ht';
    [destruct (proj2 (Hext t' op Ht')) as (x & Hx & Hcx)|destruct (proj1 (Hext t' op Ht')) as (x & Hx & Hcx)]; eauto.
Qed.

Lemma strictly_sorted_ext (l k : list Sid) : StronglySorted (λ x y, sid_cmp x y = Lt) l →
  StronglySorted (λ x y, sid_cmp x y = Lt) k → (∀ x, x ∈ l ↔ x ∈ k) → l = k.
Proof.
  intros Hl Hk Hext. assert (∀ m, StronglySorted (λ x y, sid_cmp x y = Lt) m → NoDup m) as Hnd.
  { intros m. induction 1 as [|x m Hm IH Hx]; constructor; [|done]. intros Hin. rewrite Forall_forall in Hx.
    specialize (Hx x Hin). by rewrite (proj2 (sid_cmp_eq x x) eq_refl) in Hx. }
  assert (AntiSymm (=) (λ x y, sid_cmp x y = Lt)) as Has.
  { intros x y H1 H2. by rewrite (cmp_flip (P := λ _, True) x y), H1 in H2. }
  apply (StronglySorted_unique (λ x y, sid_cmp x y = Lt)); [done..|]. apply NoDup_Permutation; auto.
Qed.

Lemma dedup_after_elem kept evs ev : ev ∈ dedup_after kept evs → ev ∈ evs.
Proof.
  revert kept. induction evs as [|x evs IH]; intros kept; simpl; [done|].
  destruct (event_eq x kept); rewrite !elem_of_cons; [intros ?%IH; auto|]. intros [->|?%IH]; auto.
Qed.

Lemma dedup_after_keeps kept evs ev : ev ∈ evs →
  ∃ ev', ev' ∈ kept :: dedup_after kept evs ∧ (ev = ev' ∨ event_eq ev ev' = true).
Proof.
  revert kept. induction evs as [|x evs IH]; intros kept; [by intros ?%elem_of_nil|]. simpl.
  intros [->|Hin]%elem_of_cons; destruct (event_eq _ kept) eqn:E.
  - exists kept. split; [by left|by right].
  - exists x. split; [right; by left|by left].
  - by apply IH.
  - destruct (IH x Hin) as (ev' & Hev' & Heq). exists ev'. split; [by right|done].
Qed.

Lemma combined_elem prev novelty ev :
  (ev ∈ combined_events prev novelty → ev ∈ prev ++ novelty)
  ∧ (ev ∈ prev ++ novelty → ∃ ev', ev' ∈ combined_events prev novelty ∧ (ev = ev' ∨ event_eq ev ev' = true)).
Proof.
  unfold combined_events. rewrite <- (elem_of_sort_by (cmp_le event_cmp) ev (prev ++ novelty)).
  destruct (sort_by (cmp_le event_cmp) (prev ++ novelty)) as [|x evs]; simpl.
  - split; by intros ?%elem_of_nil.
  - split.
    + intros [->|?%dedup_after_elem]%elem_of_cons; [by left|by right].
    + intros [->|Hin]%elem_of_cons; [exists x; split; [by left|by left]|by apply dedup_after_keeps].
Qed.

Lemma event_eq_spec a b : event_ok a → event_ok b → event_eq a b = true →
  edge_cmp (ev_edge a) (ev_edge b) = Eq ∧ ev_ann a = ev_ann b ∧ ev_t a = ev_t b ∧ ev_op a = ev_op b.
Proof.
  intros [Pa _] [Pb _]. unfold event_eq, sid_eq. rewrite !andb_true_iff, bool_decide_eq_true, Z.eqb_eq, Bool.eqb_true_iff.
  intros (((He & ->) & ->) & ->). split; [by apply edge_eq_cmp|done].
Qed.

(** An event of an annotation on an edge, up to the order of edges. *)
Definition event_at (evs : list Event) (e : EdgeKey) (ann : Sid) (t : Z) (op : bool) : Prop :=
  ∃ e', (e', ann, t, op) ∈ evs ∧ edge_cmp e e' = Eq.

Lemma event_at_app evs evs' e ann t op : event_at (evs ++ evs') e ann t op ↔ event_at evs e ann t op ∨ event_at evs' e ann t op.
Proof. unfold event_at. setoid_rewrite elem_of_app. naive_solver. Qed.

Lemma combined_event_at prev novelty e ann t op : Forall event_ok (prev ++ novelty) → edge_plain e →
  event_at (combined_events prev novelty) e ann t op ↔ event_at (prev ++ novelty) e ann t op.
Proof.
  intros Hok Pe. rewrite Forall_forall in Hok. split.
  - intros (e' & Hin & Hc). exists e'. split; [|done]. by apply combined_elem.
  - intros (e' & Hin & Hc). destruct (proj2 (combined_elem prev novelty _) Hin) as (ev' & Hin' & Heq).
    pose proof (proj1 (combined_elem prev novelty ev') Hin') as Hin2.
    destruct Heq as [<-|Heq]; [by exists e'|]. destruct ev' as [[[e2 a2] t2] op2].
    destruct (event_eq_spec _ _ (Hok _ Hin) (Hok _ Hin2) Heq) as (Ec & Ea & Et & Eo). unfold ev_edge, ev_ann, ev_t, ev_op in *.
    simpl in *. subst. exists e2. split; [done|].
    apply (cmp_eq_trans (P := edge_plain) e e'); [done|by apply (Hok _ Hin)|by apply (Hok _ Hin2)|done|done].
Qed.

Lemma row_event_elem evs ev : ev ∈ row_event <$> forward_rows evs ↔ ev ∈ evs.
Proof.
  rewrite list_elem_of_fmap. split; [by intros (r & -> & ?%forward_row_elem)|].
  destruct ev as [[[e ann] t] op]. intros Hin. exists (mkRow e ann t op). split; [done|]. by apply forward_row_elem.
Qed.

(** What an arena is sealed from: the last arena and the overlay up to [job_t]. *)
Definition sealed_events (evs : list Event) (a : AttachmentNovelty) (job_t : Z) : list Event :=
  combined_events (row_event <$> forward_rows evs) (clip job_t (iter_event_pairs a)).

Lemma sealed_events_elem evs a job_t ev : ev ∈ sealed_events evs a job_t → ev ∈ evs ∨ (ev ∈ iter_event_pairs a ∧ ev_t ev <= job_t).
Proof.
  intros Hin%combined_elem. apply elem_of_app in Hin as [Hin|Hin]; [left; by rewrite row_event_elem in Hin|right].
  apply list_elem_of_filter in Hin as [? ?]. done.
Qed.

Lemma sealed_events_ok evs a job_t : Forall event_ok evs → Forall event_ok (iter_event_pairs a) →
  Forall event_ok (sealed_events evs a job_t).
Proof.
  intros He Hi. apply Forall_forall. rewrite Forall_forall in He, Hi. intros ev [Hin|[Hin _]]%sealed_events_elem; auto.
Qed.

Lemma sealed_event_at evs nevs a job_t e ann t op : Forall event_ok evs → Forall event_ok (iter_event_pairs a) →
  edge_plain e → rows_exact a nevs →
  event_at (sealed_events evs a job_t) e ann t op ↔ event_at evs e ann t op ∨ (t <= job_t ∧ event_at nevs e ann t op).
Proof.
  intros Hev Hit Pe Hx. pose proof (iter_event_pairs_exact a nevs e ann t op (proj1 Pe) Hx) as Hiter.
  unfold sealed_events. rewrite combined_event_at, event_at_app; [| |done].
  2: { apply Forall_app. split; apply Forall_forall; intros ev Hin.
       - rewrite row_event_elem in Hin. exact (proj1 (Forall_forall _ _) Hev _ Hin).
       - apply list_elem_of_filter in Hin as [_ Hin]. exact (proj1 (Forall_forall _ _) Hit _ Hin). }
  unfold event_at at 1. setoid_rewrite row_event_elem. fold (event_at evs e ann t op).
  assert (event_at (clip job_t (iter_event_pairs a)) e ann t op ↔ t <= job_t ∧ event_at nevs e ann t op) as ->; [|done].
  unfold event_at, clip. rewrite <- Hiter. setoid_rewrite list_elem_of_filter. cbn [ev_t]. split.
  - intros (e' & [Ht Hin] & Hc). split; [exact Ht|by exists e'].
  - intros (Ht & e' & Hin & Hc). exists e'. split; [split; [exact Ht|done]|done].
Qed.

Lemma raise_max_t_bound evs job_t m : m <= job_t → Forall (λ ev, ev_t ev <= job_t) evs → foldl raise_max_t m evs <= job_t.
Proof.
  intros Hm Hev. revert m Hm. induction Hev as [|ev evs Ht _ IH]; intros m Hm; simpl; [done|]. apply IH. unfold raise_max_t.
  by destruct (m <? ev_t ev).
Qed.

Lemma set_index_garbage b index old new :
  let b' := set_annotation_index b index old new in
  ∃ garbage, replaced_cids b' = replaced_cids b ++ garbage ∧ NoDup garbage
    ∧ ∀ c, c ∈ garbage ↔ c ∈ branch_cids (annotation_index b) ++ old ∧ c ∉ branch_cids index ++ new.
Proof.
  eexists. split; [done|]. split.
  - rewrite sort_by_Permutation. apply NoDup_filter, NoDup_remove_dups.
  - intros c. rewrite elem_of_sort_by, list_elem_of_filter, elem_of_remove_dups. tauto.
Qed.

(** A root with an arena, and the overlay of what came since. *)
Record seal_ready (st : Store) (b : IncrementalRootBuilder) (root : AnnotationIndexRoot) (a : AttachmentNovelty)
    (evs nevs : list Event) (target : nat) (job_t : Z) : Prop := {
  sr_store : store_ok st;
  sr_base : annotation_index b = Some root;
  sr_holds : arena_holds (get st) (forward_branch_cid root) (reverse_branch_cid root) target evs;
  sr_overlay : rows_exact a nevs;
  sr_ok : Forall event_ok (iter_event_pairs a);
  sr_fits : persist_fits (sealed_events evs a job_t);
}.

Lemma seal_spec st b root a evs nevs target job_t : seal_ready st b root a evs nevs target job_t →
  ∃ b' root' st' old new garbage,
    seal_annotations (Some (Augment (iter_event_pairs a))) job_t b st = inr (Some (b', st'))
    ∧ annotation_index b' = Some root' ∧ had_annotation_arena b' = true ∧ root_max_t root' = foldl raise_max_t 0 (sealed_events evs a job_t)
    ∧ all_leaf_cids st root = inr old ∧ replaced_cids b' = replaced_cids b ++ garbage ∧ NoDup garbage
    ∧ (∀ c, c ∈ garbage ↔ c ∈ branch_cids (Some root) ++ old ∧ c ∉ branch_cids (Some root') ++ new)
    ∧ reads_as st' root' new (sealed_events evs a job_t).
Proof.
  intros [Hst Hb (He & (fids & Ff & Sf) & (rids & Fr & Sr)) Hx Hit Hfit]. destruct (forward_rows_ok evs He) as [_ Hok].
  destruct (collect_all_exact forward_dir (get st) _ (P := edge_plain) (Q := λ _, True) target _ fids Hok Ff Sf new_cache
    (new_cache_ok _ _ _)) as (c1 & E1 & _).
  pose proof (all_leaf_cids_exact st root target fids rids evs He Ff Sf Fr Sr) as Eold.
  destruct (persist_holds _ st Hst (sealed_events_ok evs a job_t He Hit) Hfit) as (root' & new & st' & Ep & _ & _ & Hmax & Hreads).
  destruct (set_index_garbage b (Some root') (fids ++ rids) new) as (garbage & Eg & Hnd & Hg). rewrite Hb in Hg.
  exists (set_annotation_index b (Some root') (fids ++ rids) new), root', st', (fids ++ rids), new, garbage. split; [|split_and!; [done|done|done|done|exact Eg|done|done|done]].
  unfold seal_annotations, previous_events, collect_all_forward_events. rewrite Hb, E1. cbn [fst]. fold (sealed_events evs a job_t).
  unfold rebuild, build_and_persist_annotation_arena. rewrite Eold, Ep. done.
Qed.

(** C25: Sealing the attachment overlay into the arena of the next index changes
    no answer, if every object of an annotated edge, in the arena and in the
    overlay, is a value that its serialized form reads back as
    ([value_stable], so no JSON objects, geo points or number-like strings: the
    code loses those, see [arena_loses_json]).  The last arena reads back whole; the new one is built of it
    and the overlay's events up to the time of the index, sorted and without
    duplicates.  Read together with the overlay it answers every lookup as the
    last arena with the overlay did, up to the time of the index it does so
    alone, and both as an overlay does that has observed all the events
    itself; and it still does when the blobs recorded as garbage are gone. *)
Theorem sealing_keeps_answers st b root a evs nevs all target job_t e as_of_t c :
  seal_ready st b root a evs nevs target job_t → rows_exact all (evs ++ nevs) → edge_plain e →
  cache_ok forward_dir (get st) (forward_branch_cid root) c →
  ∃ b' root' st' garbage out,
    seal_annotations (Some (Augment (iter_event_pairs a))) job_t b st = inr (Some (b', st'))
    ∧ annotation_index b' = Some root' ∧ replaced_cids b' = replaced_cids b ++ garbage
    ∧ fst (current_annotations_merged (get st) (forward_branch_cid root) e (collect_forward_events a e) as_of_t c) = inr out
    ∧ current_annotations_for_at all e as_of_t = out
    ∧ let st'' := release garbage st' in
      fst (current_annotations_merged (get st'') (forward_branch_cid root') e (collect_forward_events a e) as_of_t new_cache) = inr out
      ∧ (as_of_t <= job_t → fst (current_annotations_for (get st'') (forward_branch_cid root') e as_of_t new_cache) = inr out).
Proof.
  intros Hready Hall Pe Hc. destruct (seal_spec _ _ _ _ _ _ _ _ Hready) as (b' & root' & st' & old & new & garbage & E & Ei & _ & _ & _ & Eg & _ & Hg & Hr).
  destruct Hready as [_ _ Hh Hx Hit _]. pose proof (proj1 Hh) as He.
  destruct (Hr (release garbage st')) as [_ Hh'].
  { intros x Hin. apply blob_at_release. rewrite Hg. tauto. }
  destruct (annotations_merged_exact _ _ _ _ _ _ a e as_of_t c Hh Hx Pe Hc) as (out & c1 & E1 & _ & S1 & A1).
  destruct (annotations_merged_exact _ _ _ _ _ _ a e as_of_t new_cache Hh' Hx Pe (new_cache_ok _ _ _)) as (out2 & c2 & E2 & _ & S2 & A2).
  destruct (annotations_exact _ _ _ _ _ e as_of_t new_cache Hh' Pe (new_cache_ok _ _ _)) as (out3 & c3 & E3 & _ & S3 & A3).
  pose proof (λ x t op, sealed_event_at evs nevs a job_t e x t op He Hit Pe Hx) as Hs.
  exists b', root', st', garbage, out. cbv zeta. rewrite E1, E2, E3. cbn [fst].
  split; [exact E|]. split; [exact Ei|]. split; [exact Eg|]. split; [done|]. split; [|split; [|intros Ht]].
  - apply strictly_sorted_ext; [|done|].
    + apply (latest_assertions_sorted sid_cmp (P := λ _, True)). by apply Forall_true.
    + intros x. rewrite A1. apply current_annotations_exact; [apply Pe|done].
  - f_equal. apply strictly_sorted_ext; [done|done|]. intros x. rewrite A1, A2. apply attached_ext. intros t op _.
    fold (event_at (sealed_events evs a job_t ++ nevs) e x t op) (event_at (evs ++ nevs) e x t op). rewrite !event_at_app, Hs. tauto.
  - f_equal. apply strictly_sorted_ext; [done|done|]. intros x. rewrite A1, A3. apply attached_ext. intros t op Hle.
    fold (event_at (sealed_events evs a job_t) e x t op) (event_at (evs ++ nevs) e x t op). rewrite event_at_app, Hs.
    assert (t <= job_t) by lia. tauto.
Qed.

(** C27: A sealed root references its arena and retires the rest.  Garbage are
    exactly the blobs of the last arena, branches and leaves, that the new one
    does not use, each once; the new root is marked as one that had an arena,
    and no event of the arena is later than the index. *)
Theorem sealing_garbage_exact st b root a evs nevs target job_t :
  seal_ready st b root a evs nevs target job_t → 0 <= job_t → Forall (λ ev, ev_t ev <= job_t) evs →
  ∃ b' root' st' old new garbage,
    seal_annotations (Some (Augment (iter_event_pairs a))) job_t b st = inr (Some (b', st'))
    ∧ annotation_index b' = Some root' ∧ had_annotation_arena b' = true ∧ root_max_t root' <= job_t
    ∧ all_leaf_cids st root = inr old ∧ all_leaf_cids st' root' = inr new
    ∧ replaced_cids b' = replaced_cids b ++ garbage ∧ NoDup garbage
    ∧ ∀ c, c ∈ garbage ↔ c ∈ branch_cids (Some root) ++ old ∧ c ∉ branch_cids (Some root') ++ new.
Proof.
  intros Hready H0 Hle. destruct (seal_spec _ _ _ _ _ _ _ _ Hready) as (b' & root' & st' & old & new & garbage & E & Ei & Eh & Em & Eo & Eg & Hnd & Hg & Hr).
  exists b', root', st', old, new, garbage. rewrite Em. split_and!; try done.
  - apply raise_max_t_bound; [done|]. apply Forall_forall. rewrite Forall_forall in Hle.
    intros ev [Hin|[_ Ht]]%sealed_events_elem; [by apply Hle|done].
  - by apply Hr.
Qed.
End store.
End seal.

(** ** A concrete index *)

#[local] Existing Instance insertion_sorting.

(** A content id in the place of a hash: the blob itself, as a text of bits. *)
Fixpoint bit_text (p : positive) : string :=
  match p with
  | xH => ""
  | xO p => String (Ascii.ascii_of_nat 48) (bit_text p)
  | xI p => String (Ascii.ascii_of_nat 49) (bit_text p)
  end.
Definition bit_cid (kind : ContentKind) (blob : list Z) : string := bit_text (encode blob).

Lemma bit_text_inj p q : bit_text p = bit_text q → p = q.
Proof. revert q. induction p as [p IH|p IH|]; intros [q|q|]; simpl; try done; intros [= ->%IH]; done. Qed.
Lemma bit_cid_inj k b k' b' : bit_cid k b = bit_cid k' b' → b = b'.
Proof. by intros ?%bit_text_inj%(inj encode). Qed.

Lemma bob_fits : persist_fits bit_cid bob_events.
Proof. split; compute_fits. Qed.
Lemma retracted_fits : persist_fits bit_cid retracted_events.
Proof. split; compute_fits. Qed.

(** An index at time 3 of a root with the arena of [bob_events], by which the
    annotation has been retracted. *)
Definition retraction : list (list Flake) := [attachment bob 3 false].
Definition bob_overlay : AttachmentNovelty := foldl Attachments.observe_flakes new_attachments retraction.
Definition base_builder (root : AnnotationIndexRoot) : IncrementalRootBuilder := mkBuilder (Some root) true true [].

Lemma retraction_ordered : Forall (Forall flake_ordered) (attachment bob 1 true :: retraction).
Proof. repeat constructor; by intros n [=]. Qed.

Lemma bob_ready : ∃ root leaves st, persist_arena bit_cid bob_events [] = Some (root, leaves, st)
  ∧ seal_ready bit_cid st (base_builder root) root bob_overlay bob_events (batch_events retraction) DEFAULT_TARGET_ROWS_PER_LEAF 3.
Proof.
  destruct (persist_holds (SE := plain_serde) bit_cid bit_cid_inj bob_events [] ltac:(by intros ??) bob_events_ok bob_fits)
    as (root & leaves & st & Ep & Hst & _ & _ & Hr).
  exists root, leaves, st. split; [done|]. constructor; [done|done|by apply (Hr st)|..].
  - apply (observe_batches retraction). exact (Forall_inv_tail retraction_ordered).
  - assert (iter_event_pairs bob_overlay = [(bob, ann, 3, false)]) as -> by (by vm_compute).
    constructor; [|constructor]. apply bob_event_ok. by vm_compute.
  - assert (sealed_events bob_events bob_overlay 3 = retracted_events) as -> by (by vm_compute). exact retracted_fits.
Qed.

Lemma sealing_keeps_answers_witness :
  ∃ root leaves st b' root' st', persist_arena bit_cid bob_events [] = Some (root, leaves, st)
    ∧ seal_annotations bit_cid id (Some (Augment (iter_event_pairs bob_overlay))) 3 (base_builder root) st = inr (Some (b', st'))
    ∧ annotation_index b' = Some root'
    ∧ fst (current_annotations_for (get (release (replaced_cids b') st')) (forward_branch_cid root') bob 2 new_cache) = inr [ann].
Proof.
  destruct bob_ready as (root & leaves & st & Ep & Hready).
  set (all := foldl Attachments.observe_flakes new_attachments (attachment bob 1 true :: retraction)).
  assert (rows_exact all (bob_events ++ batch_events retraction)) as Hall.
  { assert (bob_events ++ batch_events retraction = batch_events (attachment bob 1 true :: retraction)) as -> by (by vm_compute).
    apply (observe_batches _ retraction_ordered). }
  destruct (sealing_keeps_answers (SE := plain_serde) bit_cid id bit_cid_inj st (base_builder root) root bob_overlay bob_events
    (batch_events retraction) all _ 3 bob 2 new_cache Hready Hall bob_plain (new_cache_ok _ _ _))
    as (b' & root' & st' & garbage & out & E & Ei & Eg & _ & Ea & _ & Ht).
  assert (out = [ann]) as -> by (rewrite <- Ea; by vm_compute). exists root, leaves, st, b', root', st'.
  split; [exact Ep|]. split; [exact E|]. split; [exact Ei|]. rewrite Eg. apply Ht. lia.
Defined.

Lemma sealing_garbage_exact_witness :
  ∃ root leaves st b' st' old, persist_arena bit_cid bob_events [] = Some (root, leaves, st)
    ∧ seal_annotations bit_cid id (Some (Augment (iter_event_pairs bob_overlay))) 3 (base_builder root) st = inr (Some (b', st'))
    ∧ all_leaf_cids st root = inr old ∧ had_annotation_arena b' = true.
Proof.
  destruct bob_ready as (root & leaves & st & Ep & Hready).
  destruct (sealing_garbage_exact (SE := plain_serde) bit_cid id bit_cid_inj st (base_builder root) root bob_overlay bob_events
    (batch_events retraction) _ 3 Hready ltac:(lia) ltac:(by constructor)) as (b' & root' & st' & old & new & garbage & E & _ & Eh & _ & Eo & _).
  exists root, leaves, st, b', st', old. split; [exact Ep|]. split; [exact E|]. split; [exact Eo|exact Eh].
Defined.
