(* ===== verification/IndexFormat.v ===== *)
(** * Index records, columns and history sidecars
    ([fluree-db-binary-index/src/format/run_record_v2.rs], [run_record.rs],
    [fluree-db-binary-index/src/read/column_types.rs],
    [fluree-db-binary-index/src/format/history_sidecar.rs])

    The records of the binary index, the four orders it keeps them in, their
    wire formats and the routing keys of leaves and branches; the columns a
    leaflet is read as, and the history of what was removed from it as a
    segment of its leaf's sidecar.  A value of [option] that is [None] where
    the code indexes a column is its panic. *)

From S2P Require Import Prelude Ordering.
#[local] Open Scope Z_scope.

(** ** Sort orders *)

Inductive RunSortOrder := Spot | Psot | Post | Opst.

#[export] Instance RunSortOrder_eq_dec : EqDecision RunSortOrder.
Proof. solve_decision. Defined.

Definition RunSortOrder_from_u8 (v : Z) : option RunSortOrder :=
  if v =? 0 then Some Spot
  else if v =? 1 then Some Psot
  else if v =? 2 then Some Post
  else if v =? 3 then Some Opst
  else None.

Definition to_wire_id (self : RunSortOrder) : Z :=
  match self with Spot => 0 | Psot => 1 | Post => 2 | Opst => 3 end.

Definition RunSortOrder_cmp (self other : RunSortOrder) : comparison :=
  Z.compare (to_wire_id self) (to_wire_id other).

Definition all_build_orders : list RunSortOrder := [Spot; Psot; Post; Opst].

(** [u32::MAX]: no list index. *)
Definition LIST_INDEX_NONE : Z := 2 ^ 32 - 1.

(** ** Records *)

Record RunRecordV2 := {
  v2_s_id : Z;
  v2_o_key : Z;
  v2_p_id : Z;
  v2_t : Z;
  v2_o_i : Z;
  v2_o_type : Z;
  v2_g_id : Z;
}.

#[export] Instance RunRecordV2_eq_dec : EqDecision RunRecordV2.
Proof. solve_decision. Defined.

(** The widths of the fields. *)
Definition v2_ok (r : RunRecordV2) : Prop :=
  0 <= v2_s_id r < 256 ^ 8 ∧ 0 <= v2_o_key r < 256 ^ 8 ∧ 0 <= v2_p_id r < 256 ^ 4
  ∧ 0 <= v2_t r < 256 ^ 4 ∧ 0 <= v2_o_i r < 256 ^ 4 ∧ 0 <= v2_o_type r < 256 ^ 2
  ∧ 0 <= v2_g_id r < 256 ^ 2.

Definition has_list_index (self : RunRecordV2) : bool := negb (v2_o_i self =? LIST_INDEX_NONE).

(** ** Comparators: the key columns, never [t] *)

Definition cmp_v2_spot (a b : RunRecordV2) : comparison :=
  then_with (Z.compare (v2_s_id a) (v2_s_id b))
  (then_with (Z.compare (v2_p_id a) (v2_p_id b))
  (then_with (Z.compare (v2_o_type a) (v2_o_type b))
  (then_with (Z.compare (v2_o_key a) (v2_o_key b))
    (Z.compare (v2_o_i a) (v2_o_i b))))).

Definition cmp_v2_psot (a b : RunRecordV2) : comparison :=
  then_with (Z.compare (v2_p_id a) (v2_p_id b))
  (then_with (Z.compare (v2_s_id a) (v2_s_id b))
  (then_with (Z.compare (v2_o_type a) (v2_o_type b))
  (then_with (Z.compare (v2_o_key a) (v2_o_key b))
    (Z.compare (v2_o_i a) (v2_o_i b))))).

Definition cmp_v2_post (a b : RunRecordV2) : comparison :=
  then_with (Z.compare (v2_p_id a) (v2_p_id b))
  (then_with (Z.compare (v2_o_type a) (v2_o_type b))
  (then_with (Z.compare (v2_o_key a) (v2_o_key b))
  (then_with (Z.compare (v2_o_i a) (v2_o_i b))
    (Z.compare (v2_s_id a) (v2_s_id b))))).

Definition cmp_v2_opst (a b : RunRecordV2) : comparison :=
  then_with (Z.compare (v2_o_type a) (v2_o_type b))
  (then_with (Z.compare (v2_o_key a) (v2_o_key b))
  (then_with (Z.compare (v2_o_i a) (v2_o_i b))
  (then_with (Z.compare (v2_p_id a) (v2_p_id b))
    (Z.compare (v2_s_id a) (v2_s_id b))))).

Definition cmp_v2_g_spot (a b : RunRecordV2) : comparison :=
  then_with (Z.compare (v2_g_id a) (v2_g_id b)) (cmp_v2_spot a b).

Definition cmp_v2_for_order (order : RunSortOrder) : RunRecordV2 → RunRecordV2 → comparison :=
  match order with
  | Spot => cmp_v2_spot
  | Psot => cmp_v2_psot
  | Post => cmp_v2_post
  | Opst => cmp_v2_opst
  end.

Definition same_identity_v2 (a b : RunRecordV2) : bool :=
  (v2_s_id a =? v2_s_id b) && (v2_p_id a =? v2_p_id b) && (v2_o_type a =? v2_o_type b)
  && (v2_o_key a =? v2_o_key b) && (v2_o_i a =? v2_o_i b).

(** ** Wire formats

    The bytes [a..b] of a buffer. *)
Definition field (a b : nat) (buf : list Z) : list Z := take (b - a) (drop a buf).

Definition write_run_le (self : RunRecordV2) : list Z :=
  le_bytes 8 (v2_s_id self) ++ le_bytes 8 (v2_o_key self) ++ le_bytes 4 (v2_p_id self)
  ++ le_bytes 4 (v2_t self) ++ le_bytes 4 (v2_o_i self) ++ le_bytes 2 (v2_o_type self).

Definition read_run_le (buf : list Z) : RunRecordV2 :=
  {| v2_s_id := from_le (field 0 8 buf);
     v2_o_key := from_le (field 8 16 buf);
     v2_p_id := from_le (field 16 20 buf);
     v2_t := from_le (field 20 24 buf);
     v2_o_i := from_le (field 24 28 buf);
     v2_o_type := from_le (field 28 30 buf);
     v2_g_id := 0 |}.

Definition write_run_le_with_op (self : RunRecordV2) (op : Z) : list Z := write_run_le self ++ [op].

Definition read_run_le_with_op (buf : list Z) : option (RunRecordV2 * Z) :=
  op ← buf !! 30%nat; Some (read_run_le buf, op).

Definition write_spool_le (self : RunRecordV2) : list Z :=
  le_bytes 2 (v2_g_id self) ++ le_bytes 8 (v2_s_id self) ++ le_bytes 8 (v2_o_key self)
  ++ le_bytes 4 (v2_p_id self) ++ le_bytes 4 (v2_t self) ++ le_bytes 4 (v2_o_i self)
  ++ le_bytes 2 (v2_o_type self).

Definition read_spool_le (buf : list Z) : RunRecordV2 :=
  {| v2_g_id := from_le (field 0 2 buf);
     v2_s_id := from_le (field 2 10 buf);
     v2_o_key := from_le (field 10 18 buf);
     v2_p_id := from_le (field 18 22 buf);
     v2_t := from_le (field 22 26 buf);
     v2_o_i := from_le (field 26 30 buf);
     v2_o_type := from_le (field 30 32 buf) |}.

(** ** Routing keys: big-endian, compared as bytes *)

Definition write_ordered_key_v2 (order : RunSortOrder) (rec : RunRecordV2) : list Z :=
  match order with
  | Spot => be_bytes 8 (v2_s_id rec) ++ be_bytes 4 (v2_p_id rec) ++ be_bytes 2 (v2_o_type rec)
            ++ be_bytes 8 (v2_o_key rec) ++ be_bytes 4 (v2_o_i rec)
  | Psot => be_bytes 4 (v2_p_id rec) ++ be_bytes 8 (v2_s_id rec) ++ be_bytes 2 (v2_o_type rec)
            ++ be_bytes 8 (v2_o_key rec) ++ be_bytes 4 (v2_o_i rec)
  | Post => be_bytes 4 (v2_p_id rec) ++ be_bytes 2 (v2_o_type rec) ++ be_bytes 8 (v2_o_key rec)
            ++ be_bytes 4 (v2_o_i rec) ++ be_bytes 8 (v2_s_id rec)
  | Opst => be_bytes 2 (v2_o_type rec) ++ be_bytes 8 (v2_o_key rec) ++ be_bytes 4 (v2_o_i rec)
            ++ be_bytes 4 (v2_p_id rec) ++ be_bytes 8 (v2_s_id rec)
  end.

Definition read_ordered_key_v2 (order : RunSortOrder) (buf : list Z) : RunRecordV2 :=
  let at_ a b := from_be (field a b buf) in
  match order with
  | Spot => {| v2_s_id := at_ 0 8; v2_p_id := at_ 8 12; v2_o_type := at_ 12 14;
               v2_o_key := at_ 14 22; v2_o_i := at_ 22 26; v2_t := 0; v2_g_id := 0 |}
  | Psot => {| v2_p_id := at_ 0 4; v2_s_id := at_ 4 12; v2_o_type := at_ 12 14;
               v2_o_key := at_ 14 22; v2_o_i := at_ 22 26; v2_t := 0; v2_g_id := 0 |}
  | Post => {| v2_p_id := at_ 0 4; v2_o_type := at_ 4 6; v2_o_key := at_ 6 14;
               v2_o_i := at_ 14 18; v2_s_id := at_ 18 26; v2_t := 0; v2_g_id := 0 |}
  | Opst => {| v2_o_type := at_ 0 2; v2_o_key := at_ 2 10; v2_o_i := at_ 10 14;
               v2_p_id := at_ 14 18; v2_s_id := at_ 18 26; v2_t := 0; v2_g_id := 0 |}
  end%nat.

Definition cmp_ordered_key_v2 (a b : list Z) : comparison := slice_cmp Z.compare a b.

(** ** Identities

    The five columns that make a fact, which every order compares in its own
    priority. *)
Record FactKeyV3 := {
  fk_s_id : Z;
  fk_p_id : Z;
  fk_o_type : Z;
  fk_o_key : Z;
  fk_o_i : Z;
}.

#[export] Instance FactKeyV3_eq_dec : EqDecision FactKeyV3.
Proof. solve_decision. Defined.

#[export] Instance FactKeyV3_countable : Countable FactKeyV3.
Proof.
  apply (inj_countable' (λ k, (fk_s_id k, fk_p_id k, fk_o_type k, fk_o_key k, fk_o_i k))
    (λ '(s, p, ot, ok, oi), {| fk_s_id := s; fk_p_id := p; fk_o_type := ot; fk_o_key := ok;
                               fk_o_i := oi |})).
  by intros [].
Defined.

Definition rec_key (r : RunRecordV2) : FactKeyV3 :=
  {| fk_s_id := v2_s_id r; fk_p_id := v2_p_id r; fk_o_type := v2_o_type r;
     fk_o_key := v2_o_key r; fk_o_i := v2_o_i r |}.

(** The comparator of an order on identities. *)
Definition key_rec (k : FactKeyV3) : RunRecordV2 :=
  {| v2_s_id := fk_s_id k; v2_o_key := fk_o_key k; v2_p_id := fk_p_id k; v2_t := 0;
     v2_o_i := fk_o_i k; v2_o_type := fk_o_type k; v2_g_id := 0 |}.

Definition key_cmp (order : RunSortOrder) (a b : FactKeyV3) : comparison :=
  cmp_v2_for_order order (key_rec a) (key_rec b).

Lemma cmp_v2_key order a b : cmp_v2_for_order order a b = key_cmp order (rec_key a) (rec_key b).
Proof. by destruct order. Qed.

Lemma then_with_eq c d : then_with c d = Eq ↔ c = Eq ∧ d = Eq.
Proof. destruct c; simpl; naive_solver. Qed.

Lemma key_cmp_eq order a b : key_cmp order a b = Eq ↔ a = b.
Proof.
  destruct a, b, order; unfold key_cmp, key_rec; simpl;
    unfold cmp_v2_spot, cmp_v2_psot, cmp_v2_post, cmp_v2_opst; simpl;
    rewrite !then_with_eq, !Z.compare_eq_iff;
    (split; [by intros (-> & -> & -> & -> & ->)|by intros [= -> -> -> -> ->]]).
Qed.

Lemma cmp_v2_eq order a b : cmp_v2_for_order order a b = Eq ↔ rec_key a = rec_key b.
Proof. rewrite cmp_v2_key. apply key_cmp_eq. Qed.

Lemma same_identity_iff a b : same_identity_v2 a b = true ↔ rec_key a = rec_key b.
Proof.
  unfold same_identity_v2, rec_key. rewrite !andb_true_iff, !Z.eqb_eq.
  split; [by intros ((((-> & ->) & ->) & ->) & ->)|by intros [= -> -> -> -> ->]].
Qed.

#[export] Instance cmp_v2_order order P : CmpOrder P (cmp_v2_for_order order).
Proof.
  assert (∀ f : RunRecordV2 → Z, CmpOrder P (λ a b, Z.compare (f a) (f b))) as Hz.
  { intros f. apply (cmp_on_order (λ _, True)); [apply _|done]. }
  destruct order; simpl; repeat (apply cmp_then_order); apply Hz.
Qed.

#[export] Instance key_cmp_order order P : CmpOrder P (key_cmp order).
Proof. apply (cmp_on_order (λ _, True) P key_rec (cmp_v2_for_order order)); [apply _|done]. Qed.

(** Strict order of identities. *)
Definition key_lt (order : RunSortOrder) (a b : FactKeyV3) : Prop := key_cmp order a b = Lt.

Lemma key_lt_irrefl order a : ¬ key_lt order a a.
Proof. unfold key_lt. by rewrite (proj2 (key_cmp_eq order a a)). Qed.

Lemma key_lt_ne order a b : key_lt order a b → a ≠ b.
Proof. intros H ->. by apply key_lt_irrefl in H. Qed.

Lemma key_le_lt order a b : is_le (key_cmp order a b) = true → a ≠ b → key_lt order a b.
Proof.
  unfold key_lt. pose proof (key_cmp_eq order a b) as He. destruct (key_cmp order a b); naive_solver.
Qed.

Lemma key_lt_trans order a b c : key_lt order a b → key_lt order b c → key_lt order a c.
Proof.
  intros Hab Hbc. apply key_le_lt.
  - apply (cmp_trans (P := λ _, True) a b c); [done..| |]; by rewrite ?Hab, ?Hbc.
  - intros ->. unfold key_lt in *. pose proof (cmp_flip (P := λ _, True) (cmp := key_cmp order) b c) as Hf.
    by rewrite Hab, Hbc in Hf.
Qed.

Lemma key_cmp_gt order a b : key_cmp order a b = Gt → key_lt order b a.
Proof. intros H. unfold key_lt. by rewrite (cmp_flip (P := λ _, True) (cmp := key_cmp order) a b), H. Qed.

(** ** Fields of a concatenation *)

Lemma field_hit n a l : length a = n → field 0 n (a ++ l) = a.
Proof. intros <-. unfold field. rewrite drop_0, Nat.sub_0_r. apply take_app_length. Qed.

Lemma field_all n a : length a = n → field 0 n a = a.
Proof. intros Hn. rewrite <- (app_nil_r a) at 1. by apply field_hit. Qed.

Lemma record_field_skip n a b x l :
  length x = n → (n <= a <= b)%nat → field a b (x ++ l) = field (a - n) (b - n) l.
Proof.
  intros Hx Hab. unfold field. rewrite drop_app, drop_ge by lia.
  rewrite Hx. simpl. f_equal. lia.
Qed.

Ltac skip_field n :=
  rewrite (record_field_skip n) by (rewrite ?length_le_bytes, ?length_be_bytes; lia); simpl Nat.sub.

Ltac read_fields :=
  repeat (skip_field 8%nat || skip_field 4%nat || skip_field 2%nat);
  rewrite ?field_hit, ?field_all by (rewrite ?length_le_bytes, ?length_be_bytes; lia);
  rewrite ?from_le_bytes, ?from_be_bytes by (simpl Z.of_nat; lia).

(** A record without its graph. *)
Definition without_graph (r : RunRecordV2) : RunRecordV2 :=
  {| v2_s_id := v2_s_id r; v2_o_key := v2_o_key r; v2_p_id := v2_p_id r; v2_t := v2_t r;
     v2_o_i := v2_o_i r; v2_o_type := v2_o_type r; v2_g_id := 0 |}.

Lemma read_write_run r rest :
  v2_ok r → read_run_le (write_run_le r ++ rest) = without_graph r.
Proof.
  intros (? & ? & ? & ? & ? & ? & ?). unfold read_run_le, write_run_le, without_graph.
  rewrite <- !app_assoc. f_equal; read_fields; done.
Qed.

Lemma length_write_run r : length (write_run_le r) = 30%nat.
Proof. unfold write_run_le. by rewrite !length_app, !length_le_bytes. Qed.

Lemma read_write_spool r rest : v2_ok r → read_spool_le (write_spool_le r ++ rest) = r.
Proof.
  intros (? & ? & ? & ? & ? & ? & ?). unfold read_spool_le, write_spool_le.
  rewrite <- !app_assoc.
  transitivity {| v2_s_id := v2_s_id r; v2_o_key := v2_o_key r; v2_p_id := v2_p_id r;
                  v2_t := v2_t r; v2_o_i := v2_o_i r; v2_o_type := v2_o_type r;
                  v2_g_id := v2_g_id r |}; [f_equal; read_fields; done|by destruct r].
Qed.

Lemma read_write_key order r rest :
  v2_ok r → read_ordered_key_v2 order (write_ordered_key_v2 order r ++ rest) = key_rec (rec_key r).
Proof.
  intros (? & ? & ? & ? & ? & ? & ?).
  destruct order; unfold read_ordered_key_v2, write_ordered_key_v2, key_rec, rec_key;
    cbv zeta; rewrite <- !app_assoc; f_equal; read_fields; done.
Qed.

(** ** Bytes compare as the numbers they encode *)

Lemma slice_cmp_app (a b c d : list Z) :
  length a = length b →
  slice_cmp Z.compare (a ++ c) (b ++ d)
  = then_with (slice_cmp Z.compare a b) (slice_cmp Z.compare c d).
Proof.
  revert b. induction a as [|x a IH]; intros [|y b]; simpl; try done.
  intros [= Hl]. rewrite IH by done. by destruct (Z.compare x y).
Qed.

Lemma be_bytes_S n x : be_bytes (S n) x = be_bytes n (Z.shiftr x 8) ++ [Z.land x 255].
Proof. done. Qed.

Lemma slice_cmp_be n x y :
  0 <= x < 256 ^ Z.of_nat n → 0 <= y < 256 ^ Z.of_nat n →
  slice_cmp Z.compare (be_bytes n x) (be_bytes n y) = Z.compare x y.
Proof.
  revert x y. induction n as [|n IH]; intros x y Hx Hy.
  { simpl in *. assert (x = 0) as -> by lia. by assert (y = 0) as -> by lia. }
  rewrite !be_bytes_S, slice_cmp_app by (by rewrite !length_be_bytes).
  rewrite Nat2Z.inj_succ, Z.pow_succ_r in Hx, Hy by lia.
  rewrite !Z.shiftr_div_pow2 by lia. change (2 ^ 8) with 256.
  rewrite IH by (split; [apply Z.div_pos; lia|apply Z.div_lt_upper_bound; lia]).
  change 255 with (Z.ones 8). rewrite !Z.land_ones by lia. change (2 ^ 8) with 256. simpl.
  pose proof (Z.div_mod x 256 ltac:(lia)). pose proof (Z.div_mod y 256 ltac:(lia)).
  pose proof (Z.mod_pos_bound x 256 ltac:(lia)). pose proof (Z.mod_pos_bound y 256 ltac:(lia)).
  destruct (Z.compare_spec (x / 256) (y / 256)) as [E|E|E]; simpl.
  - destruct (Z.compare_spec (x mod 256) (y mod 256)); simpl; symmetry;
      [apply Z.compare_eq_iff|apply Z.compare_lt_iff|apply Z.compare_gt_iff]; lia.
  - symmetry. apply Z.compare_lt_iff. lia.
  - symmetry. apply Z.compare_gt_iff. lia.
Qed.

Lemma ordered_key_cmp order a b :
  v2_ok a → v2_ok b →
  cmp_ordered_key_v2 (write_ordered_key_v2 order a) (write_ordered_key_v2 order b)
  = cmp_v2_for_order order a b.
Proof.
  intros (? & ? & ? & ? & ? & ? & ?) (? & ? & ? & ? & ? & ? & ?).
  destruct order; unfold cmp_ordered_key_v2, write_ordered_key_v2; simpl cmp_v2_for_order;
    rewrite !slice_cmp_app by (by rewrite !length_be_bytes);
    rewrite !slice_cmp_be by (simpl Z.of_nat; lia); done.
Qed.

(** ** Columns ([column_types.rs]) *)

Inductive ColumnData := Block (arr : list Z) | Const (v : Z) | AbsentDefault.

Definition column_get (self : ColumnData) (idx : nat) : option Z :=
  match self with
  | Block arr => arr !! idx
  | Const v => Some v
  | AbsentDefault => None
  end.

Definition column_get_or (self : ColumnData) (idx : nat) (default : Z) : option Z :=
  match self with
  | Block arr => arr !! idx
  | Const v => Some v
  | AbsentDefault => Some default
  end.

Record ColumnBatch := {
  row_count : nat;
  cb_s_id : ColumnData;
  cb_o_key : ColumnData;
  cb_p_id : ColumnData;
  cb_o_type : ColumnData;
  cb_o_i : ColumnData;
  cb_t : ColumnData;
}.

Definition empty_batch : ColumnBatch :=
  {| row_count := 0; cb_s_id := AbsentDefault; cb_o_key := AbsentDefault;
     cb_p_id := AbsentDefault; cb_o_type := AbsentDefault; cb_o_i := AbsentDefault;
     cb_t := AbsentDefault |}.

(** [novelty_merge.rs]: a row as a record of graph 0. *)
Definition batch_row_to_record (batch : ColumnBatch) (row : nat) : option RunRecordV2 :=
  s_id ← column_get (cb_s_id batch) row;
  o_key ← column_get (cb_o_key batch) row;
  p_id ← column_get (cb_p_id batch) row;
  t ← column_get_or (cb_t batch) row 0;
  o_i ← column_get_or (cb_o_i batch) row LIST_INDEX_NONE;
  o_type ← column_get (cb_o_type batch) row;
  Some {| v2_s_id := s_id; v2_o_key := o_key; v2_p_id := p_id; v2_t := t; v2_o_i := o_i;
          v2_o_type := o_type; v2_g_id := 0 |}.

Definition column_batch_to_records (batch : ColumnBatch) : option (list RunRecordV2) :=
  mapM (batch_row_to_record batch) (seq 0 (row_count batch)).

(** The columns a list of rows is written to ([replay.rs]): the list index
    only if a row has one. *)
Definition records_to_batch (out : list RunRecordV2) : ColumnBatch :=
  {| row_count := length out;
     cb_s_id := Block (v2_s_id <$> out);
     cb_o_key := Block (v2_o_key <$> out);
     cb_p_id := Block (v2_p_id <$> out);
     cb_o_type := Block (v2_o_type <$> out);
     cb_o_i := if existsb (λ r, negb (v2_o_i r =? LIST_INDEX_NONE)) out
               then Block (v2_o_i <$> out) else AbsentDefault;
     cb_t := Block (v2_t <$> out) |}.

(** ** History entries ([history_sidecar.rs]) *)

Record HistEntryV2 := {
  he_s_id : Z;
  he_p_id : Z;
  he_o_type : Z;
  he_o_key : Z;
  he_o_i : Z;
  he_t : Z;
  he_op : Z;
}.

#[export] Instance HistEntryV2_eq_dec : EqDecision HistEntryV2.
Proof. solve_decision. Defined.

Definition HIST_ENTRY_V2_SIZE : nat := 31.

Definition write_le (self : HistEntryV2) : list Z :=
  le_bytes 8 (he_s_id self) ++ le_bytes 4 (he_p_id self) ++ le_bytes 2 (he_o_type self)
  ++ le_bytes 8 (he_o_key self) ++ le_bytes 4 (he_o_i self) ++ le_bytes 4 (he_t self)
  ++ [he_op self].

#[global] Arguments write_le : simpl never.

Definition read_le (buf : list Z) : option HistEntryV2 :=
  if (length buf <? HIST_ENTRY_V2_SIZE)%nat then None
  else
    op ← buf !! 30%nat;
    Some {| he_s_id := from_le (field 0 8 buf);
            he_p_id := from_le (field 8 12 buf);
            he_o_type := from_le (field 12 14 buf);
            he_o_key := from_le (field 14 22 buf);
            he_o_i := from_le (field 22 26 buf);
            he_t := from_le (field 26 30 buf);
            he_op := op |}.

Record HistorySegmentRef := {
  sr_offset : Z;
  sr_len : Z;
  sr_min_t : Z;
  sr_max_t : Z;
}.

(** ** The builder: a list of entries per leaflet *)

Definition HistSidecarBuilder : Type := list (list HistEntryV2).

Definition sidecar_new : HistSidecarBuilder := [].

Definition start_leaflet (self : HistSidecarBuilder) : HistSidecarBuilder := self ++ [[]].

Definition push_entry (self : HistSidecarBuilder) (entry : HistEntryV2) : HistSidecarBuilder :=
  alter (λ last, last ++ [entry]) (length self - 1)%nat self.

Definition has_history (self : HistSidecarBuilder) : bool :=
  existsb (λ v : list HistEntryV2, match v with [] => false | _ => true end) self.

Definition SIDECAR_MAGIC : list Z := [70; 72; 83; 49].
Definition SIDECAR_VERSION : Z := 1.
Definition sidecar_header : list Z := SIDECAR_MAGIC ++ [SIDECAR_VERSION] ++ [0; 0; 0].

(** [as u32]. *)
Definition as_u32 (n : Z) : Z := n mod 2 ^ 32.

Definition newest_first (a b : HistEntryV2) : comparison := Z.compare (he_t b) (he_t a).

Section build.
Context `{SO : Sorting}.

(** One leaflet's segment, written at the end of [out]. *)
Definition build_segment (out : list Z) (entries : list HistEntryV2) :
    list Z * HistorySegmentRef :=
  let offset := Z.of_nat (length out) in
  match entries with
  | [] => (out ++ le_bytes 4 0, {| sr_offset := offset; sr_len := 4; sr_min_t := 0; sr_max_t := 0 |})
  | _ =>
      let entries := sort_unstable_by false newest_first entries in
      let out' := out ++ le_bytes 4 (as_u32 (Z.of_nat (length entries)))
                  ++ concat (write_le <$> entries) in
      (out', {| sr_offset := offset;
                sr_len := as_u32 (Z.of_nat (length out') - offset);
                sr_min_t := from_option he_t 0 (last entries);
                sr_max_t := from_option he_t 0 (head entries) |})
  end.

Fixpoint build_segments (out : list Z) (leaflets : HistSidecarBuilder) :
    list Z * list HistorySegmentRef :=
  match leaflets with
  | [] => (out, [])
  | entries :: leaflets =>
      let '(out, seg) := build_segment out entries in
      let '(out, segs) := build_segments out leaflets in
      (out, seg :: segs)
  end.

Definition build (self : HistSidecarBuilder) : list Z * list HistorySegmentRef :=
  build_segments sidecar_header self.
End build.

Fixpoint read_entries (n : nat) (data : list Z) (pos : nat) : option (list HistEntryV2) :=
  match n with
  | O => Some []
  | S n =>
      entry ← read_le (drop pos data);
      entries ← read_entries n data (pos + HIST_ENTRY_V2_SIZE);
      Some (entry :: entries)
  end.

(** [None] is the error [UnexpectedEof]. *)
Definition decode_history_segment (data : list Z) (seg : HistorySegmentRef) :
    option (list HistEntryV2) :=
  let offset := Z.to_nat (sr_offset seg) in
  if (length data <? offset + 4)%nat then None
  else
    let entry_count := Z.to_nat (from_le (field offset (offset + 4) data)) in
    if (length data <? offset + 4 + entry_count * HIST_ENTRY_V2_SIZE)%nat then None
    else read_entries entry_count data (offset + 4).

(** ** Rows and batches *)

Lemma column_get_fmap {A} (f : A → Z) (out : list A) i r :
  out !! i = Some r → column_get (Block (f <$> out)) i = Some (f r).
Proof. intros H. simpl. by rewrite list_lookup_fmap, H. Qed.

Lemma records_to_batch_row out i r :
  out !! i = Some r → batch_row_to_record (records_to_batch out) i = Some (without_graph r).
Proof.
  intros H. unfold batch_row_to_record, records_to_batch; cbn [cb_s_id cb_o_key cb_p_id cb_o_type cb_o_i cb_t].
  rewrite !(column_get_fmap _ out i r) by done. cbn [mbind option_bind].
  unfold column_get_or. rewrite list_lookup_fmap, H. cbn [mbind option_bind].
  destruct (existsb _ out) eqn:He; simpl.
  - by rewrite list_lookup_fmap, H.
  - assert (v2_o_i r = LIST_INDEX_NONE) as <-; [|done].
    destruct (decide (v2_o_i r = LIST_INDEX_NONE)) as [|Hne]; [done|].
    enough (existsb (λ r, negb (v2_o_i r =? LIST_INDEX_NONE)) out = true) by congruence.
    apply existsb_exists. exists r. split; [by eapply list_elem_of_In, list_elem_of_lookup_2|].
    by rewrite (proj2 (Z.eqb_neq _ _) Hne).
Qed.

(** What is written to columns is read back, but for the graph. *)
Lemma records_batch_records out :
  column_batch_to_records (records_to_batch out) = Some (without_graph <$> out).
Proof.
  unfold column_batch_to_records. apply mapM_Some_2. simpl row_count.
  apply Forall2_same_length_lookup_2; [by rewrite length_fmap, length_seq|].
  intros i j r Hj Hr. apply lookup_seq in Hj as [-> _].
  apply list_lookup_fmap_Some in Hr as (r' & -> & Hr'). by apply records_to_batch_row.
Qed.

Lemma without_graph_id r : v2_g_id r = 0 → without_graph r = r.
Proof. destruct r; simpl. by intros ->. Qed.

Lemma batch_records_graph batch rows :
  column_batch_to_records batch = Some rows → Forall (λ r, v2_g_id r = 0) rows.
Proof.
  unfold column_batch_to_records. intros H%mapM_Some_1. apply Forall2_flip in H.
  eapply Forall2_Forall_l in H; [exact H|]. apply Forall_forall. intros i _ r Hr.
  unfold batch_row_to_record in Hr.
  repeat (apply bind_Some in Hr as (? & ? & Hr)). by injection Hr as <-.
Qed.

(** ** The sidecar is read back *)

Definition hist_ok (e : HistEntryV2) : Prop :=
  0 <= he_s_id e < 256 ^ 8 ∧ 0 <= he_p_id e < 256 ^ 4 ∧ 0 <= he_o_type e < 256 ^ 2
  ∧ 0 <= he_o_key e < 256 ^ 8 ∧ 0 <= he_o_i e < 256 ^ 4 ∧ 0 <= he_t e < 256 ^ 4.

Lemma length_write_le e : length (write_le e) = HIST_ENTRY_V2_SIZE.
Proof. unfold write_le. by rewrite !length_app, !length_le_bytes. Qed.

Lemma write_entries_cons e es :
  concat (write_le <$> e :: es) = write_le e ++ concat (write_le <$> es).
Proof. done. Qed.

Lemma length_write_entries es : length (concat (write_le <$> es)) = (length es * HIST_ENTRY_V2_SIZE)%nat.
Proof.
  induction es as [|e es IH]; [done|].
  rewrite write_entries_cons, length_app, length_write_le, IH. simpl. lia.
Qed.

Lemma read_write_hist e rest : hist_ok e → read_le (write_le e ++ rest) = Some e.
Proof.
  intros (? & ? & ? & ? & ? & ?). unfold read_le.
  destruct (Nat.ltb_spec (length (write_le e ++ rest)) HIST_ENTRY_V2_SIZE) as [Hl|_];
    [rewrite length_app, length_write_le in Hl; lia|].
  assert ((write_le e ++ rest) !! 30%nat = Some (he_op e)) as ->.
  { unfold write_le. rewrite <- !app_assoc.
    rewrite !lookup_app_r by (rewrite !length_le_bytes; lia). by rewrite !length_le_bytes. }
  cbn [mbind option_bind]. unfold write_le. rewrite <- !app_assoc. f_equal.
  transitivity {| he_s_id := he_s_id e; he_p_id := he_p_id e; he_o_type := he_o_type e;
                  he_o_key := he_o_key e; he_o_i := he_o_i e; he_t := he_t e;
                  he_op := he_op e |}; [f_equal; read_fields; done|by destruct e].
Qed.

Lemma read_entries_written es pre rest :
  Forall hist_ok es →
  read_entries (length es) (pre ++ concat (write_le <$> es) ++ rest) (length pre) = Some es.
Proof.
  intros Hes. revert pre. induction Hes as [|e es He Hes IH]; intros pre; [done|].
  cbn [read_entries length]. rewrite write_entries_cons, drop_app_length, <- app_assoc, read_write_hist by done.
  cbn [mbind option_bind]. specialize (IH (pre ++ write_le e)).
  rewrite length_app, length_write_le, <- app_assoc in IH. by rewrite IH.
Qed.

Lemma decode_written es pre rest seg :
  Forall hist_ok es → Z.of_nat (length es) < 2 ^ 32 → sr_offset seg = Z.of_nat (length pre) →
  decode_history_segment
    (pre ++ le_bytes 4 (Z.of_nat (length es)) ++ concat (write_le <$> es) ++ rest) seg = Some es.
Proof.
  intros Hes Hn Hseg. unfold decode_history_segment. rewrite Hseg, Nat2Z.id.
  set (data := pre ++ _).
  assert (length data = length pre + 4 + length es * HIST_ENTRY_V2_SIZE + length rest)%nat as Hl.
  { unfold data. rewrite !length_app, length_le_bytes, length_write_entries. lia. }
  rewrite (proj2 (Nat.ltb_ge _ _)) by lia.
  assert (from_le (field (length pre) (length pre + 4) data) = Z.of_nat (length es)) as ->.
  { unfold data. rewrite (record_field_skip (length pre)) by (done || lia).
    replace (length pre - length pre)%nat with 0%nat by lia.
    replace (length pre + 4 - length pre)%nat with 4%nat by lia.
    rewrite field_hit by (by rewrite length_le_bytes). apply from_le_bytes. simpl Z.of_nat. lia. }
  rewrite Nat2Z.id, (proj2 (Nat.ltb_ge _ _)) by lia. unfold data.
  rewrite (app_assoc pre). replace (length pre + 4)%nat with (length (pre ++ le_bytes 4 (Z.of_nat (length es)))).
  - by apply read_entries_written.
  - by rewrite length_app, length_le_bytes.
Qed.

Section build_facts.
Context `{SO : Sorting}.

(** The entries of a leaflet as a segment holds them. *)
Definition segment_entries (entries : list HistEntryV2) : list HistEntryV2 :=
  sort_unstable_by false newest_first entries.

#[export] Instance newest_first_order P : CmpOrder P newest_first.
Proof.
  constructor.
  - intros x y. unfold newest_first. apply Z.compare_antisym.
  - intros x y z _ _ _. unfold newest_first.
    destruct (Z.compare_spec (he_t y) (he_t x)), (Z.compare_spec (he_t z) (he_t y)),
      (Z.compare_spec (he_t z) (he_t x)); simpl; try done; lia.
Qed.

Lemma segment_entries_perm entries : segment_entries entries ≡ₚ entries.
Proof. apply sort_perm. Qed.

Lemma segment_entries_sorted entries : sorted_by newest_first (segment_entries entries).
Proof. apply (sort_sorted false (λ _, True)); [apply _|by apply Forall_true]. Qed.

Lemma build_segment_decodes out entries rest out' seg :
  Forall hist_ok entries → Z.of_nat (length entries) < 2 ^ 32 →
  build_segment out entries = (out', seg) →
  (∃ new, out' = out ++ new) ∧ decode_history_segment (out' ++ rest) seg = Some (segment_entries entries).
Proof.
  intros Hok Hn Hb.
  assert (∀ n, 0 <= n < 2 ^ 32 → as_u32 n = n) as Hu by (intros n ?; by apply Z.mod_small).
  destruct entries as [|e es]; unfold build_segment in Hb.
  - injection Hb as <- <-. split; [by eexists|].
    assert (segment_entries [] = []) as ->.
    { apply Permutation_nil_r. apply segment_entries_perm. }
    rewrite <- app_assoc. apply (decode_written [] out rest); [constructor|done|done].
  - injection Hb as <- <-. split; [by eexists|]. fold (segment_entries (e :: es)).
    assert (length (segment_entries (e :: es)) = length (e :: es)) as Hlen
      by (apply Permutation_length, segment_entries_perm).
    rewrite Hu by (rewrite Hlen; lia). rewrite <- !app_assoc. apply decode_written; [|by rewrite Hlen|done].
    by rewrite segment_entries_perm.
Qed.

Lemma build_segments_decodes leaflets out data segs :
  Forall (λ es, Forall hist_ok es ∧ Z.of_nat (length es) < 2 ^ 32) leaflets →
  build_segments out leaflets = (data, segs) →
  (∃ new, data = out ++ new)
  ∧ Forall2 (λ es seg, ∀ rest, decode_history_segment (data ++ rest) seg = Some (segment_entries es)) leaflets segs.
Proof.
  intros Hok. revert out segs. induction Hok as [|es leaflets [Hes Hn] Hok IH]; intros out segs Hb; cbn [build_segments] in Hb.
  - injection Hb as <- <-. split; [exists []; by rewrite app_nil_r|constructor].
  - destruct (build_segment out es) as [out1 seg] eqn:H1.
    destruct (build_segments out1 leaflets) as [out2 segs2] eqn:H2. injection Hb as <- <-.
    specialize (IH _ _ H2) as [[new ->] IH].
    split.
    + destruct (build_segment_decodes _ _ [] _ _ Hes Hn H1) as [[new1 ->] _].
      exists (new1 ++ new). by rewrite app_assoc.
    + constructor; [|done]. intros rest. rewrite <- app_assoc.
      by apply (build_segment_decodes out es).
Qed.
End build_facts.
