(* ===== verification/IndexDedup.v ===== *)
(** * Events of an indexing window
    ([fluree-db-binary-index/src/format/run_record.rs],
    [fluree-db-core/src/o_type_registry.rs], [fluree-db-core/src/o_type.rs],
    [fluree-db-indexer/src/run_index/build/incremental_resolve.rs])

    An incremental index turns the commits of a window into records, one per
    event, sorts them, resolves the events of each fact to one operation and
    the operations it superseded, and converts both to records of the
    index. *)

From S2P Require Import Prelude Vocab Ordering IndexFormat.
#[local] Open Scope Z_scope.

(** ** Object types ([o_type.rs], [o_type_registry.rs]) *)

Definition lang_string (lang_id : Z) : Z := Z.lor 0xC000 lang_id.
Definition customer_datatype (payload : Z) : Z := Z.lor 0x4000 payload.

Definition known_datatype_to_otype (dt : KnownDatatype) : Z :=
  match dt with
  | XsdString => 0x8000 | XsdAnyUri => 0x8001 | XsdNormalizedString => 0x8002
  | XsdToken => 0x8003 | XsdLanguage => 0x8004 | XsdBase64Binary => 0x8005
  | XsdHexBinary => 0x8006
  | XsdBoolean => 0x0002
  | XsdInteger => 0x0003 | XsdLong => 0x0004 | XsdInt => 0x0005 | XsdShort => 0x0006
  | XsdByte => 0x0007 | XsdUnsignedLong => 0x0008 | XsdUnsignedInt => 0x0009
  | XsdUnsignedShort => 0x000A | XsdUnsignedByte => 0x000B | XsdNonNegativeInteger => 0x000C
  | XsdPositiveInteger => 0x000D | XsdNonPositiveInteger => 0x000E | XsdNegativeInteger => 0x000F
  | XsdDecimal => 0x0012 | XsdFloat => 0x0011 | XsdDouble => 0x0010
  | XsdDateTime => 0x0015 | XsdDate => 0x0013 | XsdTime => 0x0014
  | XsdGYear => 0x0016 | XsdGYearMonth => 0x0017 | XsdGMonth => 0x0018 | XsdGDay => 0x0019
  | XsdGMonthDay => 0x001A
  | XsdDuration => 0x001D | XsdDayTimeDuration => 0x001C | XsdYearMonthDuration => 0x001B
  | RdfJson => 0x8008
  | RdfLangString => 0x0000
  | JsonLdId => 0x0000
  | FlureeEmbeddingVector => 0x8009
  | FlureeFullText => 0x800A
  end.

Definition resolve_known_iri_to_otype (iri : string) : option Z :=
  known_datatype_to_otype <$> from_canonical_form iri.

Definition resolve_iri_to_otype (iri : string) (dt_id : Z) : Z :=
  from_option id (customer_datatype dt_id) (resolve_known_iri_to_otype iri).

Definition resolve_iri_to_otype_option (iri : string) : option Z :=
  match resolve_known_iri_to_otype iri with
  | Some o => if o =? 0 then None else Some o
  | None => None
  end.

Definition RESERVED_COUNT : Z := 15.

(** The types of the dictionary's datatypes, the reserved ones first. *)
Definition OTypeRegistry : Type := list Z.

Definition registry_new (custom_datatype_iris : list string) : OTypeRegistry :=
  [0x8007; 0x8000; 0x0002; 0x0003; 0x0004; 0x0012; 0x0010; 0x0011; 0x0015; 0x0013; 0x0014; 0x0000;
   0x8008; 0x8009; 0x800A]
  ++ imap (λ i iri, resolve_iri_to_otype iri ((RESERVED_COUNT + Z.of_nat i) mod 2 ^ 16))
       custom_datatype_iris.

Definition builtin_only : OTypeRegistry := registry_new [].

Definition resolve_by_dt (self : OTypeRegistry) (dt : Z) : Z :=
  match self !! Z.to_nat dt with Some o => o | None => customer_datatype dt end.

(** [OTypeRegistry::resolve], by the numbers of [ObjKind]. *)
Definition registry_resolve (self : OTypeRegistry) (o_kind dt lang_id : Z) : Z :=
  if o_kind =? 0x01 then 0x0001
  else if o_kind =? 0x02 then 0x0002
  else if o_kind =? 0x07 then 0x0013
  else if o_kind =? 0x08 then 0x0014
  else if o_kind =? 0x09 then 0x0015
  else if o_kind =? 0x0A then 0x8009
  else if o_kind =? 0x0B then 0x8008
  else if o_kind =? 0x0C then 0x800B
  else if o_kind =? 0x0D then 0x0016
  else if o_kind =? 0x0E then 0x0017
  else if o_kind =? 0x0F then 0x0018
  else if o_kind =? 0x10 then 0x0019
  else if o_kind =? 0x11 then 0x001A
  else if o_kind =? 0x12 then 0x001B
  else if o_kind =? 0x13 then 0x001C
  else if o_kind =? 0x14 then 0x001E
  else if o_kind =? 0x05 then 0x8007
  else if o_kind =? 0x03 then resolve_by_dt self dt
  else if o_kind =? 0x04 then resolve_by_dt self dt
  else if o_kind =? 0x06 then (if dt =? 11 then lang_string lang_id else resolve_by_dt self dt)
  else 0x0000.

(** ** Events ([run_record.rs]) *)

Record RunRecord := {
  rr_s_id : Z;
  rr_o_key : Z;
  rr_p_id : Z;
  rr_t : Z;
  rr_i : Z;
  rr_g_id : Z;
  rr_dt : Z;
  rr_lang_id : Z;
  rr_o_kind : Z;
  rr_op : Z;
}.

#[export] Instance RunRecord_eq_dec : EqDecision RunRecord.
Proof. solve_decision. Defined.

Definition cmp_spot (a b : RunRecord) : comparison :=
  then_with (Z.compare (rr_s_id a) (rr_s_id b))
  (then_with (Z.compare (rr_p_id a) (rr_p_id b))
  (then_with (Z.compare (rr_o_kind a) (rr_o_kind b))
  (then_with (Z.compare (rr_o_key a) (rr_o_key b))
  (then_with (Z.compare (rr_dt a) (rr_dt b))
  (then_with (Z.compare (rr_t a) (rr_t b))
    (Z.compare (rr_op a) (rr_op b))))))).

Definition cmp_g_spot (a b : RunRecord) : comparison :=
  then_with (Z.compare (rr_g_id a) (rr_g_id b)) (cmp_spot a b).

(** [RunRecordV2::from_v1]. *)
Definition from_v1 (registry : OTypeRegistry) (v1 : RunRecord) : RunRecordV2 :=
  {| v2_s_id := rr_s_id v1; v2_o_key := rr_o_key v1; v2_p_id := rr_p_id v1; v2_t := rr_t v1;
     v2_o_i := rr_i v1;
     v2_o_type := registry_resolve registry (rr_o_kind v1) (rr_dt v1) (rr_lang_id v1);
     v2_g_id := rr_g_id v1 |}.

(** ** Lifecycles ([incremental_resolve.rs]) *)

Definition same_sort_prefix (a b : RunRecord) : bool :=
  (rr_g_id a =? rr_g_id b) && (rr_s_id a =? rr_s_id b) && (rr_p_id a =? rr_p_id b)
  && (rr_o_kind a =? rr_o_kind b) && (rr_o_key a =? rr_o_key b).

Definition ResolvedIdentity : Type := Z * Z.

Definition resolved_identity (o_types : OTypeRegistry) (rec : RunRecord) : ResolvedIdentity :=
  (registry_resolve o_types (rr_o_kind rec) (rr_dt rec) (rr_lang_id rec), rr_i rec).

Definition identity_cmp (a b : ResolvedIdentity) : comparison :=
  then_with (Z.compare a.1 b.1) (Z.compare a.2 b.2).

Definition keyed_cmp (a b : ResolvedIdentity * RunRecord) : comparison :=
  then_with (identity_cmp a.1 b.1)
  (then_with (Z.compare (rr_t a.2) (rr_t b.2)) (Z.compare (rr_op a.2) (rr_op b.2))).

Definition winner_cmp (a b : ResolvedIdentity * RunRecord) : comparison :=
  then_with (Z.compare (rr_dt a.2) (rr_dt b.2))
  (then_with (Z.compare (rr_t a.2) (rr_t b.2)) (Z.compare (rr_op a.2) (rr_op b.2))).

(** Whether [rec] changes nothing after [winner]. *)
Definition superfluous (winner rec : RunRecord) : bool :=
  let noop_reassert := (rr_op rec =? 1) && (rr_op winner =? 1) in
  let same_t_retract_wins :=
    (rr_op rec =? 1) && (rr_op winner =? 0) && (rr_t rec =? rr_t winner) in
  noop_reassert || same_t_retract_wins.

(** The compaction of the sorted group, from the slot [w] of the last
    winner: the winners and what they superseded. *)
Fixpoint compact_identities (w : ResolvedIdentity * RunRecord)
    (keyed : list (ResolvedIdentity * RunRecord)) :
    list (ResolvedIdentity * RunRecord) * list RunRecord :=
  match keyed with
  | [] => ([w], [])
  | r :: keyed =>
      if bool_decide (r.1 = w.1) then
        if superfluous w.2 r.2 then compact_identities w keyed
        else let '(winners, superseded) := compact_identities r keyed in
             (winners, w.2 :: superseded)
      else let '(winners, superseded) := compact_identities r keyed in
           (w :: winners, superseded)
  end.

Section dedup.
Context `{SO : Sorting} (o_types : OTypeRegistry).

Definition dedup_group (group : list RunRecord) :
    list (ResolvedIdentity * RunRecord) * list RunRecord :=
  let keyed := (λ rec, (resolved_identity o_types rec, rec)) <$> group in
  match sort_unstable_by false keyed_cmp keyed with
  | [] => ([], [])
  | w :: keyed =>
      let '(winners, superseded) := compact_identities w keyed in
      (sort_unstable_by false winner_cmp winners, superseded)
  end.

(** The records of one prefix from the start of a list, and the rest. *)
Fixpoint prefix_group (start : RunRecord) (records : list RunRecord) : list RunRecord * list RunRecord :=
  match records with
  | [] => ([], [])
  | r :: rest =>
      if same_sort_prefix start r
      then let '(group, rest) := prefix_group start rest in (r :: group, rest)
      else ([], records)
  end.

(** Fuel is the number of records. *)
Fixpoint dedup_loop (fuel : nat) (records : list RunRecord) : list RunRecord * list RunRecord :=
  match fuel, records with
  | S fuel, r :: records =>
      let '(group, rest) := prefix_group r records in
      let '(winners, superseded) :=
        match group with
        | [] => ([r], [])
        | _ => let '(keyed, superseded) := dedup_group (r :: group) in (keyed.*2, superseded)
        end in
      let '(winners', superseded') := dedup_loop fuel rest in
      (winners ++ winners', superseded ++ superseded')
  | _, _ => ([], [])
  end.

Definition dedup_fact_lifecycles (records : list RunRecord) : list RunRecord * list RunRecord :=
  dedup_loop (length records) records.

(** Steps 10 to 11 of the resolution of a window: sorted, deduplicated,
    converted, with the operation of each record. *)
Definition resolve_window (v1_records : list RunRecord) :
    list (RunRecordV2 * Z) * list (RunRecordV2 * Z) :=
  let v1_records := sort_unstable_by false cmp_g_spot v1_records in
  let '(winners, superseded) := dedup_fact_lifecycles v1_records in
  let convert := fmap (λ v1, (from_v1 o_types v1, rr_op v1)) in
  (convert winners, convert superseded).

(** The streams of a graph in an order
    ([fluree-db-indexer/src/build/incremental.rs]). *)
Definition graph_stream (g_id : Z) (order : RunSortOrder) (records : list (RunRecordV2 * Z)) :
    list (RunRecordV2 * Z) :=
  sort_unstable_by false (λ a b, cmp_v2_for_order order a.1 b.1)
    (filter (λ r, v2_g_id r.1 = g_id) records).
End dedup.

(** ** One identity's events

    The operations of one identity that its sorted events come to: a winner
    after the operations it superseded. *)
Fixpoint chain_from (w : RunRecord) (events : list RunRecord) : list RunRecord :=
  match events with
  | [] => [w]
  | r :: events => if superfluous w r then chain_from w events else w :: chain_from r events
  end.

Definition chain (events : list RunRecord) : list RunRecord :=
  match events with [] => [] | w :: events => chain_from w events end.

(** Time and operation, 1 for an assertion and 0 for a retraction. *)
Definition Ev : Type := Z * Z.
Definition ev (r : RunRecord) : Ev := (rr_t r, rr_op r).

Definition ev_le (a b : Ev) : Prop := a.1 < b.1 ∨ (a.1 = b.1 ∧ a.2 <= b.2).
Definition is_op (e : Ev) : Prop := e.2 = 0 ∨ e.2 = 1.

(** [D] resolves the events [W]: in order of time, an assertion only after
    everything before it and never twice in a row; it keeps every retraction,
    and an assertion it leaves out is retracted at its own time or repeats an
    assertion it keeps. *)
Record resolves (D W : list Ev) : Prop := {
  res_sorted : StronglySorted (λ a b, ev_le a b ∧ (b.2 = 1 → a.1 < b.1)) D;
  res_alternate : Sorted (λ a b, ¬ (a.2 = 1 ∧ b.2 = 1)) D;
  res_incl : D ⊆ W;
  res_retract : ∀ t, (t, 0) ∈ W → (t, 0) ∈ D;
  res_assert : ∀ t, (t, 1) ∈ W →
    (t, 1) ∈ D ∨ (t, 0) ∈ W
    ∨ ∃ t', (t', 1) ∈ D ∧ t' <= t ∧ ∀ u, (u, 0) ∈ W → ¬ (t' <= u <= t);
  res_op : Forall is_op D;
}.

Lemma superfluous_true w r :
  superfluous w r = true ↔ rr_op r = 1 ∧ (rr_op w = 1 ∨ (rr_op w = 0 ∧ rr_t r = rr_t w)).
Proof.
  unfold superfluous. rewrite orb_true_iff, !andb_true_iff, !Z.eqb_eq. tauto.
Qed.

Lemma chain_from_head w events : ∃ rest, chain_from w events = w :: rest.
Proof.
  revert w. induction events as [|r events IH]; intros w; simpl; [by eexists|].
  destruct (superfluous w r); [apply IH|by eexists].
Qed.

Lemma chain_from_incl w events : chain_from w events ⊆ w :: events.
Proof.
  revert w. induction events as [|r events IH]; intros w; simpl; [done|].
  destruct (superfluous w r).
  - intros x Hx%IH. set_solver.
  - intros x Hx. apply elem_of_cons in Hx as [->|Hx%IH]; set_solver.
Qed.

(** A superfluous assertion is covered by the operation it follows. *)
Lemma superfluous_covered w r (events : list Ev) :
  superfluous w r = true → is_op (ev w) → ev_le (ev w) (ev r) →
  Forall (ev_le (ev r)) events → Forall is_op events →
  (rr_t r, 0) ∈ ev w :: ev r :: events
  ∨ (ev w = (rr_t w, 1) ∧ rr_t w <= rr_t r
     ∧ ∀ u, (u, 0) ∈ ev w :: ev r :: events → ¬ (rr_t w <= u <= rr_t r)).
Proof.
  intros [Hr Hw]%superfluous_true Hop Hle Hall Hops. unfold ev, ev_le in *; simpl in *.
  destruct Hw as [Hw|[Hw Ht]]; [right|left; rewrite Ht, Hw; left].
  split; [by rewrite Hw|]. split; [lia|]. intros u Hu.
  apply elem_of_cons in Hu as [[= -> Hx]|Hu]; [congruence|].
  apply elem_of_cons in Hu as [[= -> Hx]|Hu]; [congruence|].
  pose proof (proj1 (Forall_forall _ _) Hall _ Hu) as H. simpl in H. lia.
Qed.

Lemma chain_resolves w events :
  StronglySorted ev_le (ev <$> w :: events) → Forall is_op (ev <$> w :: events) →
  resolves (ev <$> chain_from w events) (ev <$> w :: events).
Proof.
  revert w. induction events as [|r events IH]; intros w Hs Hop.
  { csimpl in *. apply Forall_cons in Hop as [Hop _]. split; try (repeat constructor; done); set_solver. }
  csimpl in Hs. csimpl in Hop.
  apply StronglySorted_inv in Hs as [Hs Hw]. apply Forall_cons in Hop as [Hopw Hop].
  apply Forall_cons in Hw as [Hwr Hw].
  pose proof (StronglySorted_inv Hs) as [Hs' Hr]. pose proof (Forall_cons_1 _ _ _ Hop) as [Hopr Hops].
  cbn [chain_from]. destruct (superfluous w r) eqn:E.
  - assert (StronglySorted ev_le (ev <$> w :: events)) as Hsw by (csimpl; by constructor).
    destruct (IH w Hsw ltac:(csimpl; by constructor)) as [R1 R2 R3 R4 R5 R6].
    split; [done|done| | | |done].
    + intros x Hx%R3. csimpl in *. set_solver.
    + intros t Ht. apply R4. csimpl in *. apply superfluous_true in E as [E _].
      apply elem_of_cons in Ht as [->|Ht]; [left|].
      apply elem_of_cons in Ht as [[= _ Ht]|Ht]; [congruence|by right].
    + intros t Ht. csimpl in Ht.
      assert ((t, 1) ∈ ev <$> w :: events ∨ (t, 1) = ev r) as [Hin|Heq] by (csimpl; set_solver).
      * destruct (R5 t Hin) as [H|[H|(t' & H1 & H2 & H3)]]; [by left| |].
        -- right; left. csimpl in *. set_solver.
        -- right; right. exists t'. split; [done|]. split; [done|]. intros u Hu. apply H3.
           csimpl in *. apply superfluous_true in E as [E _].
           apply elem_of_cons in Hu as [->|Hu]; [left|].
           apply elem_of_cons in Hu as [[= _ Hu]|Hu]; [congruence|by right].
      * right. destruct (superfluous_covered w r (ev <$> events) E Hopw Hwr Hr Hops) as [H|(H1 & H2 & H3)].
        -- left. injection Heq as -> _. by csimpl.
        -- right. exists (rr_t w). injection Heq as -> _. split; [|split; [done|by csimpl]].
           destruct (chain_from_head w events) as [rest ->]. csimpl. rewrite H1. left.
  - destruct (IH r ltac:(csimpl; by constructor) ltac:(csimpl; by constructor)) as [R1 R2 R3 R4 R5 R6].
    assert (∀ y, y ∈ ev <$> chain_from r events → ev_le (ev w) y ∧ (y.2 = 1 → (ev w).1 < y.1)) as Hwy.
    { assert (∀ y, y ∈ ev <$> chain_from r events → ev_le (ev w) y) as Hwle.
      { intros y Hy%R3. csimpl in Hy. apply elem_of_cons in Hy as [->|Hy]; [done|].
        by apply (proj1 (Forall_forall _ _) Hw). }
      assert ((ev r).2 = 1 → (ev w).1 < (ev r).1) as Hwr1.
      { intros H1. unfold ev_le, is_op, ev in *; simpl in *.
        destruct (decide (rr_t w = rr_t r)) as [Ht|Ht]; [|lia].
        assert (superfluous w r = true) by (apply superfluous_true; lia). congruence. }
      assert ((ev w).1 <= (ev r).1) as Hle by (destruct Hwr; lia).
      intros y Hy. split; [by apply Hwle|]. revert Hy.
      destruct (chain_from_head r events) as [rest Hrest]. rewrite Hrest in R1 |- *. csimpl in *.
      apply StronglySorted_inv in R1 as [_ R1]. intros Hy. apply elem_of_cons in Hy as [->|Hy]; [done|].
      pose proof (proj1 (Forall_forall _ _) R1 _ Hy) as [? Hlt]. simpl in *.
      intros Hy1. specialize (Hlt Hy1). lia. }
    csimpl. split.
    + constructor; [done|]. by apply Forall_forall.
    + constructor; [done|]. destruct (chain_from_head r events) as [rest ->]. csimpl. constructor.
      intros [H1 H2]. simpl in *. assert (superfluous w r = true) by (apply superfluous_true; lia).
      congruence.
    + intros x Hx. apply elem_of_cons in Hx as [->|Hx%R3]; csimpl in *; set_solver.
    + intros t Ht. apply elem_of_cons in Ht as [->|Ht]; [left|right]. apply R4. by csimpl.
    + intros t Ht. apply elem_of_cons in Ht as [->|Ht]; [left; left|].
      destruct (R5 t ltac:(by csimpl)) as [H|[H|(t' & H1 & H2 & H3)]];
        [left; by right|right; left; by right|].
      right; right. exists t'. split; [by right|]. split; [done|]. intros u Hu Hr'.
      apply elem_of_cons in Hu as [Hu|Hu]; [|by apply (H3 u)].
      destruct (Hwy _ H1) as [_ Hlt]. rewrite <- Hu in Hlt. simpl in Hlt. specialize (Hlt eq_refl). lia.
    + by constructor.
Qed.

(** ** Identities within a group *)

(** Elements that compare equal by a leading key lie together. *)
Lemma sorted_block {A K} (key : A → K) (c : K → K → comparison) (cmp : A → A → comparison) x y l :
  CmpOrder (λ _, True) c → (∀ a b, c a b = Eq → a = b) →
  (∀ a b, is_le (cmp a b) = true → is_le (c (key a) (key b)) = true) →
  sorted_by cmp (x :: y :: l) → key y ≠ key x → Forall (λ z, key z ≠ key x) (y :: l).
Proof.
  intros Hc Heq Hle Hs Hne. unfold sorted_by in Hs.
  apply StronglySorted_inv in Hs as [Hs Hx]. apply Forall_cons in Hx as [Hxy _].
  apply StronglySorted_inv in Hs as [_ Hy]. constructor; [done|].
  apply Forall_forall. intros z Hz Hzx. apply Hne, Heq.
  pose proof (proj1 (Forall_forall _ _) Hy _ Hz) as Hyz. unfold cmp_le in *.
  apply Hle in Hxy, Hyz. rewrite Hzx in Hyz.
  rewrite (cmp_flip (P := λ _, True) (cmp := c)) in Hyz.
  rewrite (cmp_flip (P := λ _, True) (cmp := c)).
  by destruct (c (key x) (key y)).
Qed.

Section facts.
Context `{SO : Sorting} (o_types : OTypeRegistry).
#[local] Abbreviation rid := (resolved_identity o_types).
#[local] Abbreviation pair_id := (λ rec, (rid rec, rec)).

(** The last element as a list. *)
Definition last_list {A} (l : list A) : list A := match last l with Some x => [x] | None => [] end.

#[export] Instance identity_cmp_order P : CmpOrder P identity_cmp.
Proof.
  apply cmp_then_order; apply (cmp_on_order (λ _, True)); [apply _|done|apply _|done].
Qed.

Lemma identity_cmp_eq a b : identity_cmp a b = Eq → a = b.
Proof. destruct a, b. unfold identity_cmp. rewrite then_with_eq, !Z.compare_eq_iff. simpl. by intros [-> ->]. Qed.

#[export] Instance keyed_cmp_order P : CmpOrder P keyed_cmp.
Proof.
  apply cmp_then_order; [apply (cmp_on_order (λ _, True)); [apply _|done]|].
  apply cmp_then_order; apply (cmp_on_order (λ _, True) _ (λ x : ResolvedIdentity * RunRecord, _ x.2));
    by try apply _.
Qed.

Lemma then_with_le c d : is_le (then_with c d) = true → is_le c = true.
Proof. by destruct c. Qed.

#[local] Abbreviation of_id i := (filter (λ r, rid r = i)).

(** Each identity has one winner, after the operations it superseded. *)
Lemma compact_identities_spec w recs ws ss :
  sorted_by keyed_cmp (pair_id <$> w :: recs) →
  compact_identities (pair_id w) (pair_id <$> recs) = (ws, ss) →
  ws = pair_id <$> ws.*2
  ∧ (∀ i, of_id i ss ++ of_id i ws.*2 = chain (of_id i (w :: recs))
          ∧ of_id i ws.*2 = last_list (chain (of_id i (w :: recs))))
  ∧ ws.*2 ⊆ w :: recs ∧ ss ⊆ w :: recs.
Proof.
  revert w ws ss. induction recs as [|r recs IH]; intros w ws ss Hs Hc; csimpl in Hc.
  { injection Hc as <- <-. split; [done|]. split; [|set_solver]. intros i. csimpl.
    destruct (decide (rid w = i)) as [Hi|Hi];
      [rewrite (filter_cons_True _ w) by done|rewrite (filter_cons_False _ w) by done]; done. }
  pose proof Hs as Hs0. csimpl in Hs. unfold sorted_by in Hs.
  apply StronglySorted_inv in Hs as [Hs Hw]. apply Forall_cons in Hw as [Hwr Hw].
  case_bool_decide as Heq; [simpl in Heq; destruct (superfluous w r) eqn:E|simpl in Heq].
  - destruct (IH w ws ss) as (H1 & H2 & H3 & H4); [|done|].
    { apply StronglySorted_inv in Hs as [Hs _]. csimpl. by constructor. }
    split; [done|]. split; [|set_solver]. intros i. destruct (H2 i) as [H2a H2b].
    destruct (decide (rid w = i)) as [Hi|Hi].
    + rewrite !filter_cons_True in * by congruence. cbn [chain chain_from] in *. by rewrite E.
    + rewrite !filter_cons_False in * by congruence. done.
  - destruct (compact_identities (pair_id r) (pair_id <$> recs)) as [ws' ss'] eqn:Hc'.
    injection Hc as <- <-. destruct (IH r ws' ss' Hs Hc') as (H1 & H2 & H3 & H4).
    split; [done|]. split; [|set_solver]. intros i. destruct (H2 i) as [H2a H2b].
    destruct (decide (rid w = i)) as [Hi|Hi].
    + rewrite (filter_cons_True _ r) in * by congruence. rewrite !filter_cons_True by congruence.
      cbn [chain chain_from] in *. rewrite E. simpl. split; [by rewrite H2a|].
      rewrite H2b. destruct (chain_from_head r (of_id i recs)) as [rest ->]. done.
    + rewrite (filter_cons_False _ r) in * by congruence. rewrite !filter_cons_False by congruence. done.
  - destruct (compact_identities (pair_id r) (pair_id <$> recs)) as [ws' ss'] eqn:Hc'.
    injection Hc as <- <-. destruct (IH r ws' ss' Hs Hc') as (H1 & H2 & H3 & H4).
    assert (Forall (λ z, rid z ≠ rid w) (r :: recs)) as Hne.
    { pose proof (sorted_block (λ x : ResolvedIdentity * RunRecord, x.1) identity_cmp keyed_cmp
        (pair_id w) (pair_id r) (fmap (M := list) pair_id recs) _ identity_cmp_eq
        (λ a b, then_with_le _ _) Hs0 Heq) as Hf.
      apply Forall_forall. intros z Hz.
      apply (proj1 (Forall_forall _ _) Hf (pair_id z)).
      apply elem_of_cons in Hz as [->|Hz]; [left|right]. apply list_elem_of_fmap. by exists z. }
    split; [csimpl; by rewrite <- H1|]. split; [|csimpl; set_solver]. intros i. csimpl.
    destruct (H2 i) as [H2a H2b]. destruct (decide (rid w = i)) as [<-|Hi].
    + rewrite (list_filter_none _ (r :: recs)) in H2a, H2b by done. simpl in *.
      apply app_nil in H2a as [E1 E2]. rewrite E1. rewrite !(filter_cons_True _ w), E2 by done.
      rewrite (list_filter_none _ (r :: recs)) by done. done.
    + rewrite !(filter_cons_False _ w) by done. done.
Qed.

(** ** Groups *)

Definition prefix_of (r : RunRecord) : Z * Z * Z * Z * Z :=
  (rr_g_id r, rr_s_id r, rr_p_id r, rr_o_kind r, rr_o_key r).

Lemma same_sort_prefix_iff a b : same_sort_prefix a b = true ↔ prefix_of b = prefix_of a.
Proof.
  unfold same_sort_prefix, prefix_of. rewrite !andb_true_iff, !Z.eqb_eq.
  split; [by intros ((((-> & ->) & ->) & ->) & ->)|by intros [= -> -> -> -> ->]].
Qed.

Definition prefix_cmp (a b : Z * Z * Z * Z * Z) : comparison :=
  then_with (Z.compare a.1.1.1.1 b.1.1.1.1) (then_with (Z.compare a.1.1.1.2 b.1.1.1.2)
  (then_with (Z.compare a.1.1.2 b.1.1.2) (then_with (Z.compare a.1.2 b.1.2) (Z.compare a.2 b.2)))).

#[export] Instance prefix_cmp_order P : CmpOrder P prefix_cmp.
Proof.
  assert (∀ f : Z * Z * Z * Z * Z → Z, CmpOrder P (λ a b, Z.compare (f a) (f b))) as Hz.
  { intros f. apply (cmp_on_order (λ _, True)); [apply _|done]. }
  repeat (apply cmp_then_order); apply Hz.
Qed.

Lemma prefix_cmp_eq a b : prefix_cmp a b = Eq → a = b.
Proof.
  destruct a as [[[[]]]], b as [[[[]]]]. unfold prefix_cmp.
  rewrite !then_with_eq, !Z.compare_eq_iff. simpl. by intros (-> & -> & -> & -> & ->).
Qed.

Lemma cmp_g_spot_prefix a b :
  is_le (cmp_g_spot a b) = true → is_le (prefix_cmp (prefix_of a) (prefix_of b)) = true.
Proof.
  unfold cmp_g_spot, cmp_spot, prefix_cmp, prefix_of; simpl. intros H.
  repeat match goal with |- is_le (then_with ?c _) = true => destruct c; simpl in *; try done end.
  by apply then_with_le in H.
Qed.

#[export] Instance cmp_g_spot_order P : CmpOrder P cmp_g_spot.
Proof.
  assert (∀ f : RunRecord → Z, CmpOrder P (λ a b, Z.compare (f a) (f b))) as Hz.
  { intros f. apply (cmp_on_order (λ _, True)); [apply _|done]. }
  repeat (apply cmp_then_order); apply Hz.
Qed.

Lemma prefix_group_spec start records group rest :
  sorted_by cmp_g_spot (start :: records) → prefix_group start records = (group, rest) →
  records = group ++ rest ∧ Forall (λ r, prefix_of r = prefix_of start) group
  ∧ Forall (λ r, prefix_of r ≠ prefix_of start) rest ∧ sorted_by cmp_g_spot rest.
Proof.
  revert group rest. induction records as [|r records IH]; intros group rest Hs Hg; simpl in Hg.
  { injection Hg as <- <-. repeat split; constructor. }
  destruct (same_sort_prefix start r) eqn:E.
  - destruct (prefix_group start records) as [group' rest'] eqn:Hg'. injection Hg as <- <-.
    destruct (IH group' rest') as (-> & H1 & H2 & H3); [|done|].
    { unfold sorted_by in *. apply StronglySorted_inv in Hs as [Hs Hx].
      apply StronglySorted_inv in Hs as [Hs _]. apply Forall_cons in Hx as [_ Hx]. by constructor. }
    split; [done|]. split; [|done]. constructor; [|done]. by apply same_sort_prefix_iff.
  - injection Hg as <- <-. split; [done|]. split; [constructor|].
    assert (prefix_of r ≠ prefix_of start) as Hne.
    { intros Hp%same_sort_prefix_iff. congruence. }
    split; [|by apply StronglySorted_inv in Hs as [Hs _]].
    by apply (sorted_block prefix_of prefix_cmp cmp_g_spot start r records _ prefix_cmp_eq cmp_g_spot_prefix).
Qed.

(** The records of an identity come out as its winner after what it
    superseded. *)
Definition resolved_as (records winners superseded : list RunRecord) : Prop :=
  ∃ events, events ≡ₚ records ∧ StronglySorted ev_le (ev <$> events)
    ∧ superseded ++ winners = chain events ∧ winners = last_list (chain events).

Lemma keyed_cmp_ev a b :
  rid a = rid b → is_le (keyed_cmp (pair_id a) (pair_id b)) = true → ev_le (ev a) (ev b).
Proof.
  intros Heq. unfold keyed_cmp; simpl. rewrite Heq, (cmp_refl (P := λ _, True) (cmp := identity_cmp)).
  simpl. unfold ev_le, ev; simpl.
  destruct (Z.compare_spec (rr_t a) (rr_t b)); simpl; [|intros; lia|done].
  destruct (Z.compare_spec (rr_op a) (rr_op b)); simpl; [intros; lia..|done].
Qed.

Lemma sorted_keyed_ev i l :
  sorted_by keyed_cmp (pair_id <$> l) → StronglySorted ev_le (ev <$> of_id i l).
Proof.
  induction l as [|x l IH]; [constructor|]. csimpl. intros Hs.
  apply StronglySorted_inv in Hs as [Hs Hx]. destruct (decide (rid x = i)) as [Hi|Hi].
  - rewrite (filter_cons_True _ x) by done. csimpl. constructor; [auto|]. apply Forall_fmap, Forall_forall.
    intros y [Hy Hin]%list_elem_of_filter. simpl. apply keyed_cmp_ev; [congruence|].
    apply (proj1 (Forall_forall _ _) Hx (pair_id y)). apply list_elem_of_fmap. by exists y.
  - rewrite (filter_cons_False _ x) by done. auto.
Qed.

Lemma last_list_perm {A} (l l' : list A) (x : list A) : l ≡ₚ l' → l' = last_list x → l = l'.
Proof.
  intros Hp ->. unfold last_list in *. destruct (last x); [by apply Permutation_singleton_r|].
  by apply Permutation_nil_r.
Qed.

Lemma dedup_group_spec group ws ss :
  dedup_group o_types group = (ws, ss) →
  (∀ i, resolved_as (of_id i group) (of_id i ws.*2) (of_id i ss)) ∧ ws.*2 ⊆ group ∧ ss ⊆ group.
Proof.
  unfold dedup_group. set (keyed := fmap (M := list) _ group). intros Hd.
  assert (∃ l, l ≡ₚ group ∧ sort_unstable_by false keyed_cmp keyed = pair_id <$> l) as (l & Hl & Hsort).
  { destruct (Permutation_map_inv pair_id group (l1 := sort_unstable_by false keyed_cmp keyed))
      as (l & Heq & Hp); [apply sort_perm|]. exists l. by split. }
  assert (sorted_by keyed_cmp (pair_id <$> l)) as Hs.
  { rewrite <- Hsort. apply (sort_sorted false (λ _, True)); [apply _|by apply Forall_true]. }
  rewrite Hsort in Hd. destruct l as [|w l]; csimpl in Hd.
  { injection Hd as <- <-. apply Permutation_nil_l in Hl as <-. split; [|set_solver]. intros i.
    exists []. split; [done|]. split; [constructor|done]. }
  destruct (compact_identities (pair_id w) (pair_id <$> l)) as [ws' ss'] eqn:Hc.
  injection Hd as <- <-. destruct (compact_identities_spec w l ws' ss' Hs Hc) as (H1 & H2 & H3 & H4).
  assert ((sort_unstable_by false winner_cmp ws').*2 ≡ₚ ws'.*2) as Hp by (by rewrite sort_perm).
  split.
  - intros i. destruct (H2 i) as [H2a H2b].
    assert (of_id i (sort_unstable_by false winner_cmp ws').*2 = of_id i ws'.*2) as ->.
    { eapply last_list_perm; [|exact H2b]. by rewrite Hp. }
    exists (of_id i (w :: l)). split; [by rewrite Hl|]. split; [by apply sorted_keyed_ev|by split].
  - split; intros x Hx; [rewrite Hp in Hx|]; rewrite <- Hl; auto.
Qed.

(** ** The whole window *)

Lemma filter_iff_in {A} (P Q : A → Prop) `{∀ x, Decision (P x)} `{∀ x, Decision (Q x)} (l : list A) :
  (∀ x, x ∈ l → (P x ↔ Q x)) → filter P l = filter Q l.
Proof.
  induction l as [|x l IH]; intros HPQ; [done|].
  assert (filter P l = filter Q l) as Hl by (apply IH; intros y Hy; apply HPQ; by right).
  assert (P x ↔ Q x) as Hx by (apply HPQ; left).
  destruct (decide (P x)) as [Hp|Hp].
  - rewrite !filter_cons_True by tauto. by rewrite Hl.
  - rewrite !filter_cons_False by tauto. done.
Qed.

Lemma resolved_as_nil ws ss : resolved_as [] ws ss → ws = [] ∧ ss = [].
Proof. intros (events & ->%Permutation_nil_r & _ & H & ->). simpl in *. by apply app_nil in H as [-> _]. Qed.

Lemma resolved_as_one r : resolved_as [r] [r] [].
Proof. exists [r]. split; [done|]. split; [repeat constructor|done]. Qed.

#[local] Abbreviation of_fact p i := (filter (λ r, prefix_of r = p ∧ rid r = i)).

Lemma of_fact_id p i l : Forall (λ r, prefix_of r = p) l → of_fact p i l = of_id i l.
Proof. intros Hl. apply filter_iff_in. intros x Hx. apply (proj1 (Forall_forall _ _) Hl) in Hx. tauto. Qed.

Lemma of_fact_other p q i l : p ≠ q → Forall (λ r, prefix_of r = q) l → of_fact p i l = [].
Proof.
  intros Hpq Hl. apply list_filter_none. eapply Forall_impl; [exact Hl|]. simpl. intros x ? [? _]. congruence.
Qed.

(** One group of a prefix. *)
Lemma identity_group_spec r group ws ss :
  Forall (λ x, prefix_of x = prefix_of r) group →
  (match group with
   | [] => ([r], [])
   | _ => let '(keyed, superseded) := dedup_group o_types (r :: group) in (keyed.*2, superseded)
   end) = (ws, ss) →
  (∀ p i, resolved_as (of_fact p i (r :: group)) (of_fact p i ws) (of_fact p i ss))
  ∧ ws ⊆ r :: group ∧ ss ⊆ r :: group.
Proof.
  intros Hg Hd.
  assert (Forall (λ x, prefix_of x = prefix_of r) (r :: group)) as Hg' by (by constructor).
  assert ((∀ i, resolved_as (of_id i (r :: group)) (of_id i ws) (of_id i ss))
    ∧ ws ⊆ r :: group ∧ ss ⊆ r :: group) as (H1 & H2 & H3).
  { destruct group as [|x group].
    - injection Hd as <- <-. split; [|set_solver]. intros i. destruct (decide (rid r = i)).
      + rewrite (filter_cons_True _ r) by done. apply resolved_as_one.
      + rewrite (filter_cons_False _ r) by done. exists []. split; [done|]. split; [constructor|done].
    - destruct (dedup_group o_types (r :: x :: group)) as [keyed superseded] eqn:E.
      injection Hd as <- <-. by apply dedup_group_spec. }
  split; [|done]. intros p i.
  assert (∀ l, l ⊆ r :: group → Forall (λ x, prefix_of x = prefix_of r) l) as Hsub.
  { intros l Hl. apply Forall_forall. intros x Hx%Hl. by apply (proj1 (Forall_forall _ _) Hg'). }
  destruct (decide (p = prefix_of r)) as [->|Hp].
  - rewrite !of_fact_id by auto. apply H1.
  - rewrite !(of_fact_other p (prefix_of r)) by auto. exists []. split; [done|]. split; [constructor|done].
Qed.

Lemma dedup_loop_spec fuel records ws ss :
  (length records <= fuel)%nat → sorted_by cmp_g_spot records →
  dedup_loop o_types fuel records = (ws, ss) →
  (∀ p i, resolved_as (of_fact p i records) (of_fact p i ws) (of_fact p i ss))
  ∧ ws ⊆ records ∧ ss ⊆ records.
Proof.
  revert records ws ss. induction fuel as [|fuel IH]; intros [|r records] ws ss Hl Hs Hd; simpl in Hl; try lia.
  1,2: injection Hd as <- <-; split; [|set_solver]; intros p i; exists [];
    (split; [done|]); (split; [constructor|done]).
  cbn [dedup_loop] in Hd. destruct (prefix_group r records) as [group rest] eqn:Hg.
  destruct (prefix_group_spec r records group rest Hs Hg) as (-> & Hgr & Hrest & Hs').
  match type of Hd with (let '(_, _) := ?m in _) = _ => destruct m as [ws1 ss1] eqn:H1 end.
  destruct (dedup_loop o_types fuel rest) as [ws2 ss2] eqn:H2. injection Hd as <- <-.
  destruct (identity_group_spec r group ws1 ss1 Hgr H1) as (R1 & W1 & S1).
  destruct (IH rest ws2 ss2) as (R2 & W2 & S2); [rewrite length_app in Hl; lia|done|done|].
  split.
  2:{ split; intros x [Hx|Hx]%elem_of_app.
      - apply W1 in Hx. set_solver.
      - apply W2 in Hx. set_solver.
      - apply S1 in Hx. set_solver.
      - apply S2 in Hx. set_solver. }
  intros p i. rewrite app_comm_cons, !filter_app.
  specialize (R1 p i). specialize (R2 p i). destruct (decide (p = prefix_of r)) as [->|Hp].
  - rewrite (list_filter_none _ rest) in R2 |- *.
    2,3: eapply Forall_impl; [exact Hrest|]; simpl; intros x Hx [Hx' _]; congruence.
    apply resolved_as_nil in R2 as [-> ->]. by rewrite !app_nil_r.
  - rewrite (of_fact_other p (prefix_of r) i (r :: group)) in R1 |- * by (try constructor; done).
    apply resolved_as_nil in R1 as [-> ->]. done.
Qed.

(** Records of one graph and fact agree on the kind of their object. *)
Definition kinds_agree (records : list RunRecord) : Prop :=
  ∀ a b, a ∈ records → b ∈ records → rr_g_id a = rr_g_id b →
    rec_key (from_v1 o_types a) = rec_key (from_v1 o_types b) → rr_o_kind a = rr_o_kind b.

Definition at_fact (g : Z) (k : FactKeyV3) (r : RunRecord) : Prop :=
  rr_g_id r = g ∧ rec_key (from_v1 o_types r) = k.
#[export] Instance at_fact_dec g k r : Decision (at_fact g k r).
Proof. unfold at_fact. apply _. Defined.

Lemma at_fact_prefix records a r :
  kinds_agree records → a ∈ records → r ∈ records →
  at_fact (rr_g_id a) (rec_key (from_v1 o_types a)) r ↔ prefix_of r = prefix_of a ∧ rid r = rid a.
Proof.
  intros Hk Ha Hr. unfold at_fact, prefix_of, resolved_identity, rec_key, from_v1; simpl. split.
  - intros [Hg Heq]. pose proof (Hk r a Hr Ha Hg Heq) as Hkind.
    injection Heq as H1 H2 H3 H4 H5. rewrite Hg, H1, H2, H3, H4, H5, Hkind. done.
  - intros [[= H1 H2 H3 H4 H5] [= H6 H7]]. rewrite H1, H2, H3, H5, H6, H7. done.
Qed.

Lemma dedup_window_spec records ws ss g k :
  kinds_agree records → sorted_by cmp_g_spot records →
  dedup_fact_lifecycles o_types records = (ws, ss) →
  resolved_as (filter (at_fact g k) records) (filter (at_fact g k) ws) (filter (at_fact g k) ss)
  ∧ ws ⊆ records ∧ ss ⊆ records.
Proof.
  intros Hk Hs Hd. destruct (dedup_loop_spec _ _ _ _ (Nat.le_refl _) Hs Hd) as (R & W & S).
  split; [|done]. destruct (decide (Exists (at_fact g k) records)) as [He|He].
  - apply Exists_exists in He as (a & Ha & [<- <-]).
    assert (∀ l, l ⊆ records → filter (at_fact (rr_g_id a) (rec_key (from_v1 o_types a))) l
              = of_fact (prefix_of a) (rid a) l) as Hf.
    { intros l Hl. apply filter_iff_in. intros x Hx. apply (at_fact_prefix records); auto. }
    rewrite !Hf by done. apply R.
  - assert (∀ l, l ⊆ records → filter (at_fact g k) l = []) as Hf.
    { intros l Hl. apply list_filter_none. apply Forall_forall. intros x Hx Hat. apply He.
      apply Exists_exists. exists x. auto. }
    rewrite !Hf by done. exists []. split; [done|]. split; [constructor|done].
Qed.
End facts.

(** ** Streams

    What a window gives to the update of one graph in one order. *)
Definition ev2 (r : RunRecordV2 * Z) : Ev := (v2_t r.1, r.2).
Definition okey (r : RunRecordV2 * Z) : FactKeyV3 := rec_key r.1.
Definition at_key (k : FactKeyV3) (l : list (RunRecordV2 * Z)) : list (RunRecordV2 * Z) :=
  filter (λ r, okey r = k) l.

(** The events of a fact in a window. *)
Definition window_events (o_types : OTypeRegistry) (g : Z) (k : FactKeyV3) (W : list RunRecord) : list Ev :=
  ev <$> filter (at_fact o_types g k) W.

(** The operation of an identity and those it superseded resolve [W]. *)
Definition ops_resolve (nov sup : list (RunRecordV2 * Z)) (W : list Ev) : Prop :=
  (nov = [] ∧ sup = [] ∧ W = [])
  ∨ ∃ x D, nov = [x] ∧ ev2 <$> sup ++ [x] ≡ₚ D ∧ last D = Some (ev2 x) ∧ resolves D W.

Lemma resolves_perm D W W' : W ≡ₚ W' → resolves D W → resolves D W'.
Proof.
  intros Hp [R1 R2 R3 R4 R5 R6]. split; [done|done|..].
  - intros x Hx%R3. by rewrite <- Hp.
  - intros t Ht. apply R4. by rewrite Hp.
  - intros t Ht. rewrite <- Hp in Ht. destruct (R5 t Ht) as [H|[H|(t' & H1 & H2 & H3)]]; [by left| |].
    + right; left. by rewrite <- Hp.
    + right; right. exists t'. split; [done|]. split; [done|]. intros u Hu. apply H3. by rewrite Hp.
  - done.
Qed.

Lemma chain_nil events : chain events = [] → events = [].
Proof.
  destruct events as [|w events]; [done|]. simpl. by destruct (chain_from_head w events) as [? ->].
Qed.

Lemma last_list_nil {A} (l : list A) : last_list l = [] → l = [].
Proof. unfold last_list. destruct (last l) eqn:E; [done|]. by apply last_None in E. Qed.

Lemma resolved_as_ops o_types records ws ss nov sup :
  resolved_as records ws ss → Forall is_op (ev <$> records) →
  nov ≡ₚ (λ v1, (from_v1 o_types v1, rr_op v1)) <$> ws →
  sup ≡ₚ (λ v1, (from_v1 o_types v1, rr_op v1)) <$> ss →
  ops_resolve nov sup (ev <$> records).
Proof.
  intros (events & Hp & Hs & Hc & Hw) Hop Hnov Hsup.
  assert (∀ l : list RunRecord, ev2 <$> ((λ v1, (from_v1 o_types v1, rr_op v1)) <$> l) = ev <$> l) as Hev.
  { intros l. rewrite <- list_fmap_compose. done. }
  destruct (chain events) as [|c D] eqn:Ec.
  - apply chain_nil in Ec as ->. apply Permutation_nil_l in Hp as <-. left.
    apply app_nil in Hc as [-> ->]. split; [by apply Permutation_nil_r|].
    split; [by apply Permutation_nil_r|done].
  - right. unfold last_list in Hw. destruct (last (c :: D)) as [x|] eqn:El; [|by apply last_None in El].
    subst ws. csimpl in Hnov. apply Permutation_singleton_r in Hnov as ->.
    exists (from_v1 o_types x, rr_op x), (ev <$> c :: D).
    split; [done|]. split; [rewrite <- Hc, !fmap_app, Hsup, Hev; done|].
    split; [by rewrite fmap_last, El|]. apply (resolves_perm _ (ev <$> events)); [by rewrite Hp|].
    rewrite <- Ec. destruct events as [|w events]; [done|]. apply chain_resolves; [done|]. by rewrite Hp.
Qed.

(** Sorted by a key no two elements share: strictly sorted. *)
Lemma sorted_strict order (l : list (RunRecordV2 * Z)) :
  sorted_by (λ a b, cmp_v2_for_order order a.1 b.1) l → (∀ k, (length (at_key k l) <= 1)%nat) →
  StronglySorted (key_lt order) (okey <$> l).
Proof.
  induction l as [|x l IH]; intros Hs Hu; [constructor|]. csimpl.
  apply StronglySorted_inv in Hs as [Hs Hx]. constructor.
  - apply IH; [done|]. intros k. specialize (Hu k). unfold at_key in *. rewrite filter_cons in Hu.
    case_decide; simpl in *; lia.
  - apply Forall_fmap, Forall_forall. intros y Hy. simpl.
    apply key_le_lt; [unfold okey; rewrite <- cmp_v2_key; by apply (proj1 (Forall_forall _ _) Hx)|].
    intros Heq. specialize (Hu (okey x)). unfold at_key in Hu.
    rewrite filter_cons_True in Hu by done. simpl in Hu.
    assert (y ∈ filter (λ r, okey r = okey x) l) as Hin by (apply list_elem_of_filter; done).
    apply list_elem_of_lookup_1 in Hin as [i Hi]. apply lookup_lt_Some in Hi. lia.
Qed.

Section streams.
Context `{SO : Sorting} (o_types : OTypeRegistry).

#[export] Instance stream_cmp_order order P :
  CmpOrder P (λ a b : RunRecordV2 * Z, cmp_v2_for_order order a.1 b.1).
Proof. apply (cmp_on_order (λ _, True) P fst (cmp_v2_for_order order)); [apply _|done]. Qed.

(** The streams of an order: the operations strictly in order, what they
    superseded in order beside them, and per fact a resolution of its
    events. *)
Record streams_ok (order : RunSortOrder) (nov sup : list (RunRecordV2 * Z)) (W : FactKeyV3 → list Ev) : Prop := {
  so_nov : StronglySorted (key_lt order) (okey <$> nov);
  so_sup : sorted_by (λ a b, cmp_v2_for_order order a.1 b.1) sup;
  so_ops : ∀ k, ops_resolve (at_key k nov) (at_key k sup) (W k);
}.

Lemma graph_stream_at g order l k :
  at_key k (graph_stream g order ((λ v1, (from_v1 o_types v1, rr_op v1)) <$> l))
  ≡ₚ (λ v1, (from_v1 o_types v1, rr_op v1)) <$> filter (at_fact o_types g k) l.
Proof.
  unfold at_key, graph_stream. rewrite sort_perm.
  induction l as [|x l IH]; [done|]. rewrite fmap_cons, !filter_cons.
  repeat case_decide; csimpl; try (rewrite filter_cons; case_decide);
    unfold at_fact, okey in *; simpl in *; try (exfalso; tauto).
  - by constructor.
  - done.
  - done.
Qed.

Lemma graph_stream_sorted g order l : sorted_by (λ a b, cmp_v2_for_order order a.1 b.1) (graph_stream g order l).
Proof. apply (sort_sorted false (λ _, True)); [apply _|by apply Forall_true]. Qed.

Lemma resolve_window_ok W recs sups g order :
  kinds_agree o_types W → Forall is_op (ev <$> W) → resolve_window o_types W = (recs, sups) →
  streams_ok order (graph_stream g order recs) (graph_stream g order sups)
    (λ k, window_events o_types g k W).
Proof.
  intros Hk Hop Hw. unfold resolve_window in Hw.
  set (S := sort_unstable_by false cmp_g_spot W) in *.
  assert (S ≡ₚ W) as Hp by apply sort_perm.
  destruct (dedup_fact_lifecycles o_types S) as [ws ss] eqn:Hd. injection Hw as <- <-.
  assert (kinds_agree o_types S) as HkS.
  { intros a b Ha Hb. rewrite Hp in Ha, Hb. by apply Hk. }
  assert (sorted_by cmp_g_spot S) as Hs.
  { apply (sort_sorted false (λ _, True)); [apply _|by apply Forall_true]. }
  assert (∀ k, ops_resolve
    (at_key k (graph_stream g order ((λ v1, (from_v1 o_types v1, rr_op v1)) <$> ws)))
    (at_key k (graph_stream g order ((λ v1, (from_v1 o_types v1, rr_op v1)) <$> ss)))
    (ev <$> filter (at_fact o_types g k) S)) as Hres.
  { intros k. destruct (dedup_window_spec o_types S ws ss g k HkS Hs Hd) as (R & _).
    eapply resolved_as_ops; [exact R| |apply graph_stream_at|apply graph_stream_at].
    apply Forall_forall. intros e (r & -> & [_ Hr]%list_elem_of_filter)%list_elem_of_fmap.
    rewrite Hp in Hr. apply (proj1 (Forall_forall _ _) Hop). apply list_elem_of_fmap. by exists r. }
  split.
  - apply sorted_strict; [apply graph_stream_sorted|]. intros k.
    destruct (Hres k) as [(-> & _)|(x & D & -> & _)]; simpl; lia.
  - apply graph_stream_sorted.
  - intros k. unfold window_events.
    assert (ev <$> filter (at_fact o_types g k) S ≡ₚ ev <$> filter (at_fact o_types g k) W) as Hpk by (by rewrite Hp).
    destruct (Hres k) as [(H1 & H2 & H3)|(x & D & H1 & H2 & H3 & H4)].
    + left. rewrite H3 in Hpk. apply Permutation_nil_l in Hpk. done.
    + right. exists x, D. split; [done|]. split; [done|]. split; [done|]. by eapply resolves_perm.
Qed.
End streams.
