(* ===== verification/IndexMerge.v ===== *)
(** * Merging a window into a leaflet
    ([fluree-db-binary-index/src/format/transitions.rs],
    [fluree-db-indexer/src/run_index/build/novelty_merge.rs])

    The merge of a window's operations into the rows of a leaflet writes the
    rows that hold after it and, to the leaflet's history, the transitions
    each fact went through. *)

From S2P Require Import Prelude Vocab Ordering IndexFormat IndexDedup.
#[local] Open Scope Z_scope.

(** ** Transitions ([transitions.rs]) *)

Definition event_cmp (a b : RunRecordV2 * Z) : comparison :=
  then_with (Z.compare (v2_t a.1) (v2_t b.1)) (Z.compare a.2 b.2).

(** The operations that change presence. *)
Fixpoint transitions (present : bool) (events : list (RunRecordV2 * Z)) : list (RunRecordV2 * Z) :=
  match events with
  | [] => []
  | (rec, op) :: events =>
      let asserts := op =? 1 in
      if Bool.eqb asserts present then transitions present events
      else (rec, op) :: transitions asserts events
  end.

(** ** Entries of the history ([novelty_merge.rs]) *)

Definition record_to_hist_entry (rec : RunRecordV2) (op : Z) : HistEntryV2 :=
  {| he_s_id := v2_s_id rec; he_p_id := v2_p_id rec; he_o_type := v2_o_type rec;
     he_o_key := v2_o_key rec; he_o_i := v2_o_i rec; he_t := v2_t rec; he_op := op |}.

(** The entry with another time. *)
Definition at_time (e : HistEntryV2) (t : Z) : HistEntryV2 :=
  {| he_s_id := he_s_id e; he_p_id := he_p_id e; he_o_type := he_o_type e;
     he_o_key := he_o_key e; he_o_i := he_o_i e; he_t := t; he_op := he_op e |}.

(** A row against a record, by the columns of the order. *)
Definition cmp_batch_row_vs_record (row rec : RunRecordV2) (order : RunSortOrder) : comparison :=
  let s_id := Z.compare (v2_s_id row) (v2_s_id rec) in
  let p_id := Z.compare (v2_p_id row) (v2_p_id rec) in
  let o_type := Z.compare (v2_o_type row) (v2_o_type rec) in
  let o_key := Z.compare (v2_o_key row) (v2_o_key rec) in
  let o_i := Z.compare (v2_o_i row) (v2_o_i rec) in
  match order with
  | Spot => then_with s_id (then_with p_id (then_with o_type (then_with o_key o_i)))
  | Psot => then_with p_id (then_with s_id (then_with o_type (then_with o_key o_i)))
  | Post => then_with p_id (then_with o_type (then_with o_key (then_with o_i s_id)))
  | Opst => then_with o_type (then_with o_key (then_with o_i (then_with p_id s_id)))
  end.

Definition history_cmp (a b : HistEntryV2) : comparison :=
  then_with (Z.compare (he_t b) (he_t a)) (Z.compare (he_op a) (he_op b)).

(** The superseded operations of [nov]'s identity from the cursor, and those
    after them. *)
Fixpoint gather_superseded (superseded : list (RunRecordV2 * Z)) (nov : RunRecordV2) :
    list (RunRecordV2 * Z) * list (RunRecordV2 * Z) :=
  match superseded with
  | [] => ([], [])
  | x :: rest =>
      if same_identity_v2 x.1 nov
      then let '(events, rest) := gather_superseded rest nov in (x :: events, rest)
      else ([], superseded)
  end.

Record MergeInput := {
  mi_batch : ColumnBatch;
  mi_existing_history : list HistEntryV2;
  mi_novelty : list (RunRecordV2 * Z);
  mi_superseded : list (RunRecordV2 * Z);
  mi_order : RunSortOrder;
}.

Record MergeOutput := {
  mo_records : list RunRecordV2;
  mo_history : list HistEntryV2;
  mo_matched : list RunRecordV2;
}.

Section merge.
Context `{SO : Sorting}.

(** What stays in the sidecar, and the row. *)
Definition resolve_transitions (events : list (RunRecordV2 * Z)) (base_present : bool) :
    list (RunRecordV2 * Z) * option RunRecordV2 :=
  let events := transitions base_present (sort_unstable_by false event_cmp events) in
  match last events with
  | Some (row, op) => if op =? 1 then (removelast events, Some row) else (events, None)
  | None => (events, None)
  end.

Definition gather_identity_events (superseded : list (RunRecordV2 * Z)) (nov : RunRecordV2) (op : Z) :
    list (RunRecordV2 * Z) * list (RunRecordV2 * Z) :=
  let '(events, rest) := gather_superseded superseded nov in (events ++ [(nov, op)], rest).

(** The entries of the transitions, and whether there was one. *)
Definition push_transition_entries (events : list (RunRecordV2 * Z)) (base_present : bool) :
    list HistEntryV2 * bool :=
  let '(events, row) := resolve_transitions events base_present in
  ((λ e, record_to_hist_entry e.1 e.2) <$> events,
   match row with Some _ => true | None => match events with [] => false | _ => true end end).

(** An operation on a fact that has no row. *)
Definition merge_absent (nov : RunRecordV2) (op : Z) (events : list (RunRecordV2 * Z)) :
    list RunRecordV2 * list HistEntryV2 :=
  (if op =? 1 then [nov] else [], (push_transition_entries events false).1).

(** An operation on a fact that has one: its assertion moves to the
    history. *)
Definition merge_present (row nov : RunRecordV2) (op : Z) (events : list (RunRecordV2 * Z)) :
    list RunRecordV2 * list HistEntryV2 :=
  let '(entries, changed) := push_transition_entries events true in
  let migrated := record_to_hist_entry row 1 in
  if op =? 1 then
    ([nov], migrated :: entries
            ++ (if changed then [] else [at_time (record_to_hist_entry row 0) (v2_t nov)]))
  else ([], migrated :: entries).

(** The rows, the new history, the matched operations and the superseded
    operations that are left. *)
Definition MergeAcc : Type :=
  list RunRecordV2 * list HistEntryV2 * list RunRecordV2 * list (RunRecordV2 * Z).

Fixpoint drain_novelty (novelty superseded : list (RunRecordV2 * Z)) : MergeAcc :=
  match novelty with
  | [] => ([], [], [], superseded)
  | (nov, op) :: novelty =>
      let '(events, superseded) := gather_identity_events superseded nov op in
      let '(row, entries) := merge_absent nov op events in
      let '(out, history, matched, superseded) := drain_novelty novelty superseded in
      (row ++ out, entries ++ history, matched, superseded)
  end.

Fixpoint merge_loop (order : RunSortOrder) (rows : list RunRecordV2) :
    list (RunRecordV2 * Z) → list (RunRecordV2 * Z) → MergeAcc :=
  match rows with
  | [] => drain_novelty
  | existing :: rows' =>
      fix merge_row novelty superseded :=
        match novelty with
        | [] => (existing :: rows', [], [], superseded)
        | (nov, op) :: novelty' =>
            match cmp_batch_row_vs_record existing nov order with
            | Lt =>
                let '(out, history, matched, superseded) :=
                  merge_loop order rows' novelty superseded in
                (existing :: out, history, matched, superseded)
            | Gt =>
                let '(events, superseded) := gather_identity_events superseded nov op in
                let '(row, entries) := merge_absent nov op events in
                let '(out, history, matched, superseded) := merge_row novelty' superseded in
                (row ++ out, entries ++ history, matched, superseded)
            | Eq =>
                let '(events, superseded) := gather_identity_events superseded nov op in
                let '(row, entries) := merge_present existing nov op events in
                let '(out, history, matched, superseded) :=
                  merge_loop order rows' novelty' superseded in
                (row ++ out, entries ++ history, nov :: matched, superseded)
            end
        end
  end.

Definition assemble_history (new_history existing : list HistEntryV2) : list HistEntryV2 :=
  sort_unstable_by false history_cmp new_history ++ existing.

(** Every row of the batch is decoded, by the arm that reaches it; the code
    panics when a row cannot be, and when superseded operations are left. *)
Definition merge_novelty (input : MergeInput) : option MergeOutput :=
  rows ← column_batch_to_records (mi_batch input);
  let '(out, new_history, matched, superseded) :=
    merge_loop (mi_order input) rows (mi_novelty input) (mi_superseded input) in
  match superseded with
  | [] => Some {| mo_records := out;
                  mo_history := assemble_history new_history (mi_existing_history input);
                  mo_matched := matched |}
  | _ => None
  end.
End merge.

(** ** The merge, fact by fact *)

Definition hist_key (e : HistEntryV2) : FactKeyV3 :=
  {| fk_s_id := he_s_id e; fk_p_id := he_p_id e; fk_o_type := he_o_type e;
     fk_o_key := he_o_key e; fk_o_i := he_o_i e |}.

Definition rows_at (k : FactKeyV3) (l : list RunRecordV2) : list RunRecordV2 :=
  filter (λ r, rec_key r = k) l.
Definition hist_at (k : FactKeyV3) (l : list HistEntryV2) : list HistEntryV2 :=
  filter (λ e, hist_key e = k) l.

#[export] Instance rows_at_Proper k : Proper ((≡ₚ) ==> (≡ₚ)) (rows_at k).
Proof. intros l l' Hl. unfold rows_at. by rewrite Hl. Qed.
#[export] Instance hist_at_Proper k : Proper ((≡ₚ) ==> (≡ₚ)) (hist_at k).
Proof. intros l l' Hl. unfold hist_at. by rewrite Hl. Qed.

Lemma rows_at_app k l l' : rows_at k (l ++ l') = rows_at k l ++ rows_at k l'.
Proof. apply filter_app. Qed.
Lemma hist_at_app k l l' : hist_at k (l ++ l') = hist_at k l ++ hist_at k l'.
Proof. apply filter_app. Qed.
Lemma at_key_app k l l' : at_key k (l ++ l') = at_key k l ++ at_key k l'.
Proof. apply filter_app. Qed.

Lemma hist_key_record r op : hist_key (record_to_hist_entry r op) = rec_key r.
Proof. done. Qed.

Lemma cmp_batch_row order row rec :
  cmp_batch_row_vs_record row rec order = key_cmp order (rec_key row) (rec_key rec).
Proof. by destruct order. Qed.

(** Keys strictly above one do not meet it. *)
Lemma filter_above {A} (key : A → FactKeyV3) order k (l : list A) :
  Forall (key_lt order k) (key <$> l) → filter (λ x, key x = k) l = [].
Proof.
  intros Hl. apply list_filter_none. rewrite Forall_fmap in Hl. eapply Forall_impl; [exact Hl|].
  simpl. intros x Hx Heq. rewrite Heq in Hx. by apply key_lt_irrefl in Hx.
Qed.

Section merge_facts.
Context `{SO : Sorting} (order : RunSortOrder).

(** The row and the new history of one fact. *)
Definition fact_rows (rows : list RunRecordV2) (nov : list (RunRecordV2 * Z)) : list RunRecordV2 :=
  match nov with
  | (x, op) :: _ => if op =? 1 then [x] else []
  | [] => rows
  end.
Definition fact_history (rows : list RunRecordV2) (nov sup : list (RunRecordV2 * Z)) : list HistEntryV2 :=
  match nov with
  | (x, op) :: _ =>
      match rows with
      | row :: _ => (merge_present row x op (sup ++ [(x, op)])).2
      | [] => (merge_absent x op (sup ++ [(x, op)])).2
      end
  | [] => []
  end.

(** Superseded operations lie beside the operations of their facts. *)
Definition beside (nov sup : list (RunRecordV2 * Z)) : Prop := Forall (λ x, okey x ∈ okey <$> nov) sup.

Lemma gather_spec nov op novelty sup :
  StronglySorted (key_lt order) (okey <$> (nov, op) :: novelty) →
  sorted_by (λ a b, cmp_v2_for_order order a.1 b.1) sup → beside ((nov, op) :: novelty) sup →
  ∃ rest, gather_identity_events sup nov op = (at_key (rec_key nov) sup ++ [(nov, op)], rest)
    ∧ sorted_by (λ a b, cmp_v2_for_order order a.1 b.1) rest ∧ beside novelty rest
    ∧ (∀ k, k ≠ rec_key nov → at_key k rest = at_key k sup).
Proof.
  intros Hnov Hs Hb. unfold gather_identity_events.
  enough (∃ rest, gather_superseded sup nov = (at_key (rec_key nov) sup, rest)
    ∧ sorted_by (λ a b, cmp_v2_for_order order a.1 b.1) rest ∧ beside novelty rest
    ∧ (∀ k, k ≠ rec_key nov → at_key k rest = at_key k sup)) as (rest & -> & H) by (by exists rest).
  induction sup as [|x sup IH]; simpl.
  { exists []. repeat split; try done; constructor. }
  apply Forall_cons in Hb as [Hx Hb]. pose proof Hs as Hs0.
  apply StronglySorted_inv in Hs as [Hs Hxs].
  destruct (same_identity_v2 x.1 nov) eqn:E.
  - apply same_identity_iff in E. destruct (IH Hs Hb) as (rest & -> & H1 & H2 & H3).
    exists rest. split; [unfold at_key; by rewrite filter_cons_True|]. split; [done|]. split; [done|].
    intros k Hk. rewrite H3 by done. unfold at_key. rewrite filter_cons_False; [done|].
    unfold okey. by rewrite E.
  - assert (okey x ≠ rec_key nov) as Hne.
    { intros Heq. assert (same_identity_v2 x.1 nov = true) by (by apply same_identity_iff). congruence. }
    csimpl in Hnov. apply StronglySorted_inv in Hnov as [Hnov' Hnov].
    assert (Forall (λ y, key_lt order (rec_key nov) (okey y)) (x :: sup)) as Habove.
    { assert (key_lt order (rec_key nov) (okey x)) as Hlt.
      { csimpl in Hx. apply elem_of_cons in Hx as [Hx|Hx]; [done|].
        by apply (proj1 (Forall_forall _ _) Hnov). }
      constructor; [done|]. apply Forall_forall. intros y Hy.
      pose proof (proj1 (Forall_forall _ _) Hxs y Hy) as Hxy. unfold cmp_le in Hxy.
      rewrite cmp_v2_key in Hxy. fold (okey x) (okey y) in Hxy.
      destruct (decide (okey x = okey y)) as [<-|Hxy']; [done|].
      eapply key_lt_trans; [exact Hlt|]. by apply key_le_lt. }
    assert (∀ y, y ∈ x :: sup → okey y ≠ rec_key nov) as Hne'.
    { intros y Hy Heq. apply (proj1 (Forall_forall _ _) Habove) in Hy. rewrite Heq in Hy.
      by apply key_lt_irrefl in Hy. }
    exists (x :: sup). split.
    { f_equal. unfold at_key. symmetry. apply list_filter_none. by apply Forall_forall. }
    split; [done|]. split; [|done]. apply Forall_forall. intros y Hy.
    assert (okey y ∈ okey <$> (nov, op) :: novelty) as Hin.
    { apply elem_of_cons in Hy as [->|Hy]; [done|]. by apply (proj1 (Forall_forall _ _) Hb). }
    csimpl in Hin. apply elem_of_cons in Hin as [Heq|Hin]; [|done].
    exfalso. by apply (Hne' y).
Qed.

Lemma hist_at_push k events b :
  Forall (λ e, okey e = k) events → Forall (λ e, hist_key e = k) (push_transition_entries events b).1.
Proof.
  intros He. unfold push_transition_entries, resolve_transitions.
  assert (Forall (λ e, okey e = k) (transitions b (sort_unstable_by false event_cmp events))) as Ht.
  { assert (Forall (λ e, okey e = k) (sort_unstable_by false event_cmp events)) as Hs
      by (by rewrite sort_perm).
    revert Hs. generalize (sort_unstable_by false event_cmp events). intros l. revert b.
    induction l as [|[r op] l IH]; intros b Hl; simpl; [constructor|].
    apply Forall_cons in Hl as [Hr Hl]. destruct (Bool.eqb _ _); [auto|]. constructor; auto. }
  destruct (last (transitions _ _)) as [[row op]|]; [destruct (op =? 1)|]; simpl;
    apply Forall_fmap; [|by eapply Forall_impl..].
  apply Forall_forall. intros e He'. apply (proj1 (Forall_forall _ _) Ht).
  rewrite removelast_firstn_len in He'. apply elem_of_take in He' as (i & Hi & _).
  by eapply list_elem_of_lookup_2.
Qed.

Lemma merge_absent_key k nov op events :
  rec_key nov = k → Forall (λ e, okey e = k) events →
  Forall (λ e, hist_key e = k) (merge_absent nov op events).2
  ∧ Forall (λ r, rec_key r = k) (merge_absent nov op events).1.
Proof.
  intros Hk He. unfold merge_absent; simpl. split; [by apply hist_at_push|].
  destruct (op =? 1); repeat constructor. done.
Qed.

Lemma merge_present_key k row nov op events :
  rec_key row = k → rec_key nov = k → Forall (λ e, okey e = k) events →
  Forall (λ e, hist_key e = k) (merge_present row nov op events).2
  ∧ Forall (λ r, rec_key r = k) (merge_present row nov op events).1.
Proof.
  intros Hr Hk He. unfold merge_present. pose proof (hist_at_push k events true He) as Hp.
  destruct (push_transition_entries events true) as [entries changed]. simpl in Hp.
  destruct (op =? 1); [destruct changed|]; simpl; (split; [|repeat constructor; done]);
    constructor; [done| |done| |done|done]; rewrite ?app_nil_r; [done|].
  apply Forall_app. split; [done|]. repeat constructor. done.
Qed.

(** What a run of the merge gives, fact by fact. *)
Record merged (rows : list RunRecordV2) (nov sup : list (RunRecordV2 * Z)) (acc : MergeAcc) : Prop := {
  mg_done : acc.2 = [];
  mg_sorted : StronglySorted (key_lt order) (rec_key <$> acc.1.1.1);
  mg_rows : ∀ k, rows_at k acc.1.1.1 = fact_rows (rows_at k rows) (at_key k nov);
  mg_history : ∀ k, hist_at k acc.1.1.2 = fact_history (rows_at k rows) (at_key k nov) (at_key k sup);
}.

Definition keys_above (k : FactKeyV3) (rows : list RunRecordV2) (nov : list (RunRecordV2 * Z)) : Prop :=
  Forall (key_lt order k) (rec_key <$> rows) ∧ Forall (key_lt order k) (okey <$> nov).

(** The facts of the result are those of the inputs. *)
Lemma merged_above k rows nov sup acc :
  merged rows nov sup acc → keys_above k rows nov → Forall (key_lt order k) (rec_key <$> acc.1.1.1).
Proof.
  intros Hm [Hr Hn]. apply Forall_forall. intros k' (r & -> & Hin)%list_elem_of_fmap.
  assert (r ∈ rows_at (rec_key r) acc.1.1.1) as Hat by (by apply list_elem_of_filter).
  rewrite (mg_rows _ _ _ _ Hm) in Hat. unfold fact_rows in Hat.
  destruct (at_key (rec_key r) nov) as [|[x op] l] eqn:E.
  - apply list_elem_of_filter in Hat as [_ Hat]. apply (proj1 (Forall_forall _ _) Hr).
    apply list_elem_of_fmap. by exists r.
  - destruct (op =? 1); [|by apply not_elem_of_nil in Hat]. apply list_elem_of_singleton in Hat as ->.
    apply (proj1 (Forall_forall _ _) Hn). apply list_elem_of_fmap. exists (x, op). split; [done|].
    assert ((x, op) ∈ at_key (rec_key x) nov) as H by (rewrite E; left).
    by apply list_elem_of_filter in H as [_ H].
Qed.

(** One more fact at the front. *)
Lemma merged_cons k rows0 rows nov0 nov sup sup' rs hs out h m s :
  merged rows nov sup' (out, h, m, s) → keys_above k rows nov →
  Forall (λ r, rec_key r = k) rs → (length rs <= 1)%nat → Forall (λ e, hist_key e = k) hs →
  Forall (λ r, rec_key r = k) rows0 → Forall (λ x, okey x = k) nov0 →
  (∀ k', k' ≠ k → at_key k' sup' = at_key k' sup) →
  rs = fact_rows rows0 nov0 → hs = fact_history rows0 nov0 (at_key k sup) →
  ∀ m', merged (rows0 ++ rows) (nov0 ++ nov) sup (rs ++ out, hs ++ h, m', s).
Proof.
  intros Hm Hab Hrs Hlen Hhs Hr0 Hn0 Hsup -> -> m'.
  pose proof (merged_above _ _ _ _ _ Hm Hab) as Habo. destruct Hab as [Hr Hn].
  assert (∀ k', k' ≠ k → rows_at k' rows0 = []) as Er.
  { intros k' Hk. apply list_filter_none. eapply Forall_impl; [exact Hr0|]. simpl. congruence. }
  assert (∀ k', k' ≠ k → at_key k' nov0 = []) as En.
  { intros k' Hk. apply list_filter_none. eapply Forall_impl; [exact Hn0|]. simpl. congruence. }
  assert (rows_at k rows0 = rows0 ∧ at_key k nov0 = nov0) as [Er' En'].
  { split; by apply list_filter_id. }
  assert (rows_at k rows = [] ∧ at_key k nov = []) as [Ek1 Ek2] by (split; by eapply filter_above).
  destruct Hm as [H1 H2 H3 H4]; simpl in *. split; simpl; [done|..].
  - rewrite fmap_app. destruct (fact_rows rows0 nov0) as [|r [|? ?]]; simpl in *; [done| |lia].
    constructor; [done|]. apply Forall_cons in Hrs as [-> _]. done.
  - intros k'. rewrite !rows_at_app, at_key_app, H3. destruct (decide (k' = k)) as [->|Hk].
    + rewrite Er', En', Ek1, Ek2, !app_nil_r. simpl. rewrite ?app_nil_r. by apply list_filter_id.
    + rewrite Er, En by done. simpl. unfold rows_at at 1. rewrite list_filter_none; [done|].
      eapply Forall_impl; [exact Hrs|]. simpl. congruence.
  - intros k'. rewrite hist_at_app, rows_at_app, at_key_app, H4. destruct (decide (k' = k)) as [->|Hk].
    + rewrite Er', En', Ek1, Ek2, !app_nil_r. simpl. rewrite ?app_nil_r. by apply list_filter_id.
    + rewrite Er, En, Hsup by done. simpl. unfold hist_at at 1. rewrite list_filter_none; [done|].
      eapply Forall_impl; [exact Hhs|]. simpl. congruence.
Qed.

Lemma beside_nil sup : beside [] sup → sup = [].
Proof. destruct sup; [done|]. intros [H _]%Forall_cons. by apply not_elem_of_nil in H. Qed.

Lemma merged_rows rows sup :
  StronglySorted (key_lt order) (rec_key <$> rows) → beside [] sup → merged rows [] sup (rows, [], [], sup).
Proof. intros Hr ->%beside_nil. by split. Qed.

Lemma at_key_all k l : Forall (λ e, okey e = k) (at_key k l).
Proof. apply Forall_forall. by intros e [He _]%list_elem_of_filter. Qed.

Lemma gathered_all nov op sup :
  Forall (λ e, okey e = rec_key nov) (at_key (rec_key nov) sup ++ [(nov, op)]).
Proof. apply Forall_app. split; [apply at_key_all|]. by repeat constructor. Qed.

(** A fact of the window without a row. *)
Lemma merged_absent nov op rows novelty sup sup' out h m s :
  merged rows novelty sup' (out, h, m, s) → keys_above (rec_key nov) rows novelty →
  (∀ k', k' ≠ rec_key nov → at_key k' sup' = at_key k' sup) →
  let e := merge_absent nov op (at_key (rec_key nov) sup ++ [(nov, op)]) in
  merged rows ((nov, op) :: novelty) sup (e.1 ++ out, e.2 ++ h, m, s).
Proof.
  intros Hm Hab Hsup e.
  destruct (merge_absent_key (rec_key nov) nov op _ eq_refl (gathered_all nov op sup)) as [H1 H2].
  apply (merged_cons (rec_key nov) [] rows [(nov, op)] novelty sup sup' e.1 e.2 out h m s); try done.
  - unfold e, merge_absent; simpl. destruct (op =? 1); simpl; lia.
  - by repeat constructor.
Qed.

(** A fact of the window that has a row. *)
Lemma merged_present row nov op rows novelty sup sup' out h m s m' :
  rec_key row = rec_key nov →
  merged rows novelty sup' (out, h, m, s) → keys_above (rec_key nov) rows novelty →
  (∀ k', k' ≠ rec_key nov → at_key k' sup' = at_key k' sup) →
  let e := merge_present row nov op (at_key (rec_key nov) sup ++ [(nov, op)]) in
  merged (row :: rows) ((nov, op) :: novelty) sup (e.1 ++ out, e.2 ++ h, m', s).
Proof.
  intros Hrow Hm Hab Hsup e.
  destruct (merge_present_key (rec_key nov) row nov op _ Hrow eq_refl (gathered_all nov op sup)) as [H1 H2].
  assert (e.1 = fact_rows [row] [(nov, op)]) as E.
  { unfold e, merge_present. destruct (push_transition_entries _ true). simpl. by destruct (op =? 1). }
  apply (merged_cons (rec_key nov) [row] rows [(nov, op)] novelty sup sup' e.1 e.2 out h m s); try done.
  - rewrite E. simpl. destruct (op =? 1); simpl; lia.
  - by repeat constructor.
  - by repeat constructor.
Qed.

Lemma drain_novelty_spec novelty sup :
  StronglySorted (key_lt order) (okey <$> novelty) →
  sorted_by (λ a b, cmp_v2_for_order order a.1 b.1) sup → beside novelty sup →
  merged [] novelty sup (drain_novelty novelty sup).
Proof.
  revert sup. induction novelty as [|[nov op] novelty IH]; intros sup Hn Hs Hb; cbn [drain_novelty].
  { apply merged_rows; [constructor|done]. }
  destruct (gather_spec nov op novelty sup Hn Hs Hb) as (rest & -> & Hs' & Hb' & Hrest).
  csimpl in Hn. apply StronglySorted_inv in Hn as [Hn Hx].
  specialize (IH rest Hn Hs' Hb').
  destruct (drain_novelty novelty rest) as [[[out h] m] s].
  apply (merged_absent nov op [] novelty sup rest out h m s IH); [|done].
  split; [constructor|done].
Qed.

Lemma merge_loop_spec rows novelty sup :
  StronglySorted (key_lt order) (rec_key <$> rows) →
  StronglySorted (key_lt order) (okey <$> novelty) →
  sorted_by (λ a b, cmp_v2_for_order order a.1 b.1) sup → beside novelty sup →
  merged rows novelty sup (merge_loop order rows novelty sup).
Proof.
  revert novelty sup. induction rows as [|row rows IH]; intros novelty sup Hr;
    [intros; by apply drain_novelty_spec|].
  revert sup. induction novelty as [|[nov op] novelty IHn]; intros sup Hn Hs Hb; cbn [merge_loop].
  { by apply merged_rows. }
  pose proof Hr as Hr0. csimpl in Hr. apply StronglySorted_inv in Hr as [Hr Hrow].
  pose proof Hn as Hn0. csimpl in Hn. apply StronglySorted_inv in Hn as [Hn Hnov].
  rewrite cmp_batch_row. destruct (key_cmp order (rec_key row) (rec_key nov)) eqn:Hc.
  - apply key_cmp_eq in Hc. destruct (gather_spec nov op novelty sup Hn0 Hs Hb) as (rest & -> & Hs' & Hb' & Hrest).
    specialize (IH novelty rest Hr Hn Hs' Hb').
    pose proof (merged_present row nov op rows novelty sup rest) as Hm.
    destruct (merge_present row nov op _) as [rs hs]. destruct (merge_loop order rows novelty rest) as [[[out h] m] s].
    apply (Hm out h m s (nov :: m) Hc IH); [|done]. split; [by rewrite <- Hc|done].
  - assert (Forall (key_lt order (rec_key row)) (okey <$> (nov, op) :: novelty)) as Habove.
    { csimpl. constructor; [done|]. eapply Forall_impl; [exact Hnov|]. simpl. intros k Hk.
      by eapply key_lt_trans. }
    specialize (IH ((nov, op) :: novelty) sup Hr Hn0 Hs Hb).
    destruct (merge_loop order rows ((nov, op) :: novelty) sup) as [[[out h] m] s].
    apply (merged_cons (rec_key row) [row] rows [] ((nov, op) :: novelty) sup sup [row] [] out h m s);
      try done; repeat constructor.
  - apply key_cmp_gt in Hc. destruct (gather_spec nov op novelty sup Hn0 Hs Hb) as (rest & -> & Hs' & Hb' & Hrest).
    specialize (IHn rest Hn Hs' Hb'). cbn [merge_loop] in IHn.
    pose proof (merged_absent nov op (row :: rows) novelty sup rest) as Hm.
    destruct (merge_absent nov op _) as [rs hs].
    match type of IHn with merged _ _ _ ?acc => destruct acc as [[[out h] m] s] end.
    apply (Hm out h m s IHn); [|done]. split; [|done]. csimpl. constructor; [done|].
    eapply Forall_impl; [exact Hrow|]. simpl. intros k Hk. by eapply key_lt_trans.
Qed.
End merge_facts.

(** ** Logs

    The operations that change presence, on times and operations alone. *)
Fixpoint tr (present : bool) (D : list Ev) : list Ev :=
  match D with
  | [] => []
  | e :: D => if Bool.eqb (e.2 =? 1) present then tr present D else e :: tr (e.2 =? 1) D
  end.

Lemma transitions_tr b l : ev2 <$> transitions b l = tr b (ev2 <$> l).
Proof.
  revert b. induction l as [|[r op] l IH]; intros b; [done|]. csimpl.
  destruct (Bool.eqb (op =? 1) b); [apply IH|]. csimpl. by rewrite IH.
Qed.

(** Presence after some events. *)
Definition state (b : bool) (D : list Ev) : bool :=
  match last D with Some e => e.2 =? 1 | None => b end.

Lemma state_snoc b D e : state b (D ++ [e]) = (e.2 =? 1).
Proof. unfold state. by rewrite last_snoc. Qed.

Lemma state_cons b e D : state b (e :: D) = state (e.2 =? 1) D.
Proof.
  unfold state. destruct D as [|x D]; [done|]. rewrite last_cons_cons.
  destruct (last (x :: D)) eqn:E; [done|]. by apply last_None in E.
Qed.

Lemma tr_app b D1 D2 : tr b (D1 ++ D2) = tr b D1 ++ tr (state b D1) D2.
Proof.
  revert b. induction D1 as [|e D1 IH]; intros b; [done|]. simpl. rewrite state_cons.
  destruct (Bool.eqb (e.2 =? 1) b) eqn:E.
  - apply Bool.eqb_prop in E as ->. apply IH.
  - simpl. by rewrite IH.
Qed.

Lemma tr_incl b D : tr b D ⊆ D.
Proof.
  revert b. induction D as [|e D IH]; intros b; [done|]. simpl. destruct (Bool.eqb _ _).
  - intros x Hx%IH. by right.
  - intros x [->|Hx%IH]%elem_of_cons; [left|by right].
Qed.

Lemma tr_state b D : state b (tr b D) = state b D.
Proof.
  revert b. induction D as [|e D IH]; intros b; [done|]. rewrite state_cons. simpl.
  destruct (Bool.eqb (e.2 =? 1) b) eqn:E.
  - apply Bool.eqb_prop in E as ->. apply IH.
  - rewrite state_cons. apply IH.
Qed.

(** Assertions and retractions by turns, from a presence. *)
Fixpoint alternates (present : bool) (L : list Ev) : Prop :=
  match L with
  | [] => True
  | e :: L => e.2 = (if present then 0 else 1) ∧ alternates (negb present) L
  end.

Lemma tr_alternates b D : Forall is_op D → alternates b (tr b D).
Proof.
  intros HD. revert b. induction HD as [|e D He HD IH]; intros b; simpl; [done|].
  destruct (Bool.eqb (e.2 =? 1) b) eqn:E; [apply IH|]. simpl.
  unfold is_op in He. revert E. destruct (Z.eqb_spec e.2 1), b; simpl; try done;
    intros _; (split; [lia|apply IH]).
Qed.

Lemma alternates_app b L1 L2 : alternates b (L1 ++ L2) ↔ alternates b L1 ∧ alternates (state b L1) L2.
Proof.
  revert b. induction L1 as [|e L1 IH]; intros b; simpl; [tauto|]. rewrite state_cons, IH.
  assert (e.2 = (if b then 0 else 1) → negb b = (e.2 =? 1)) as Hb by (by destruct b; intros ->).
  split.
  - intros [He [H1 H2]]. rewrite Hb in H1, H2 |- * by done. done.
  - intros [[He H1] H2]. rewrite Hb in H1 |- * by done. done.
Qed.

(** Strictly in order of time, a retraction before an assertion. *)
Definition ev_lt (a b : Ev) : Prop := a.1 < b.1 ∨ (a.1 = b.1 ∧ a.2 < b.2).

(** The assertion a log ends in, if it does. *)
Definition live (L : list Ev) : list Ev :=
  match last L with Some e => if e.2 =? 1 then [e] else [] | None => [] end.

Definition row_ev (r : RunRecordV2) : Ev := (v2_t r, 1).
Definition hist_ev (e : HistEntryV2) : Ev := (he_t e, he_op e).

(** The rows and the history of a fact record the log [L]: its last assertion
    is the row, the rest is the history. *)
Record fact_log (rows : list RunRecordV2) (hist : list HistEntryV2) (L : list Ev) : Prop := {
  fl_rows : row_ev <$> rows = live L;
  fl_hist : (hist_ev <$> hist) ++ (row_ev <$> rows) ≡ₚ L;
  fl_alternates : alternates false L;
  fl_sorted : StronglySorted ev_lt L;
}.

(** An assertion of [E] that no retraction follows, at time [T]. *)
Definition survives (E : list Ev) (t T : Z) : Prop :=
  (t, 1) ∈ E ∧ t <= T ∧ ∀ u, (u, 0) ∈ E → u <= T → u < t.

Definition until (T : Z) (L : list Ev) : list Ev := filter (λ e, e.1 <= T) L.

(** The log [L] shows, at every time, what the events [E] make of the fact. *)
Definition shows (L E : list Ev) : Prop :=
  ∀ T, match live (until T L) with
       | e :: _ => survives E e.1 T
       | [] => ∀ t, ¬ survives E t T
       end.

Lemma live_cases (L : list Ev) : (∃ e L', L = L' ++ [e] ∧ e.2 = 1 ∧ live L = [e]) ∨ (state false L = false ∧ live L = []).
Proof.
  unfold live, state. destruct (last L) as [e|] eqn:E; [|by right].
  destruct (Z.eqb_spec e.2 1) as [He|He]; [left|by right].
  exists e. apply last_Some in E as [L' ->]. by exists L'.
Qed.

Lemma live_snoc (L : list Ev) e : live (L ++ [e]) = if e.2 =? 1 then [e] else [].
Proof. unfold live. by rewrite last_snoc. Qed.

Lemma until_app T L1 L2 : until T (L1 ++ L2) = until T L1 ++ until T L2.
Proof. apply filter_app. Qed.

Lemma until_all T L : Forall (λ e, e.1 <= T) L → until T L = L.
Proof. apply list_filter_id. Qed.

Lemma until_none T L : Forall (λ e, T < e.1) L → until T L = [].
Proof. intros HL. apply list_filter_none. eapply Forall_impl; [exact HL|]. simpl. lia. Qed.

(** Of a list in order of time, a prefix. *)
Lemma until_prefix T D :
  StronglySorted (λ a b, a.1 <= b.1) D →
  ∃ D2, D = until T D ++ D2 ∧ Forall (λ e, T < e.1) D2.
Proof.
  induction 1 as [|e D Hs [D2 [IH1 IH2]] He]; [exists []; by split|].
  unfold until. destruct (decide (e.1 <= T)) as [Hle|Hle].
  - rewrite filter_cons_True by done. exists D2. split; [|done]. simpl. f_equal. exact IH1.
  - rewrite filter_cons_False by done. exists (e :: D).
    assert (Forall (λ e, T < e.1) (e :: D)) as Hall.
    { constructor; [lia|]. eapply Forall_impl; [exact He|]. simpl. lia. }
    split; [|done]. change (e :: D = until T D ++ e :: D). rewrite until_none; [done|]. by apply Forall_cons in Hall as [_ ?].
Qed.

Lemma until_tr T b D :
  StronglySorted (λ a b, a.1 <= b.1) D → until T (tr b D) = tr b (until T D).
Proof.
  intros Hs. destruct (until_prefix T D Hs) as (D2 & HD & H2). rewrite HD at 1.
  rewrite tr_app, until_app.
  rewrite (until_all T (tr b (until T D))), (until_none T (tr _ D2)), app_nil_r; [done|..].
  - apply Forall_forall. intros e He%tr_incl. by apply (proj1 (Forall_forall _ _) H2).
  - apply Forall_forall. intros e He%tr_incl. by apply list_elem_of_filter in He as [? _].
Qed.

(** ** What a window appends to the log of a fact *)

Lemma Sorted_adjacent {A} (R : relation A) l1 a b l2 : Sorted R (l1 ++ a :: b :: l2) → R a b.
Proof.
  induction l1 as [|x l1 IH]; simpl; intros Hs; apply Sorted_inv in Hs as [Hs Hx]; [|auto].
  by inversion Hx.
Qed.

Section append.
Context (D W : list Ev) (HD : resolves D W).

Lemma resolves_until_assert b D1 e :
  (∃ D2, D = D1 ++ D2) → last D1 = Some e → e.2 = 1 →
  (tr b D1 = [] ∧ b = true ∧ D1 = [e]) ∨ last (tr b D1) = Some e.
Proof.
  intros [D2 HD2] [D0 ->]%last_Some He. rewrite tr_app. simpl. rewrite He. simpl.
  destruct (state b D0) eqn:Hb; simpl; [|right; by rewrite last_snoc].
  unfold state in Hb. destruct (last D0) as [a|] eqn:Ha.
  - exfalso. apply last_Some in Ha as [D00 ->]. apply Z.eqb_eq in Hb.
    pose proof (res_alternate _ _ HD) as Halt. rewrite HD2, <- !app_assoc in Halt.
    by apply (Sorted_adjacent _ D00 a e D2 Halt).
  - apply last_None in Ha as ->. subst b. left. done.
Qed.

Lemma resolves_times : StronglySorted (λ a b, a.1 <= b.1) D.
Proof.
  pose proof (res_sorted _ _ HD) as Hs. clear HD. induction Hs as [|a D' Hs IH Ha]; [constructor|].
  constructor; [done|]. eapply Forall_impl; [exact Ha|]. simpl. unfold ev_le. lia.
Qed.

Lemma tr_strict b : StronglySorted ev_lt (tr b D).
Proof.
  pose proof (res_sorted _ _ HD) as Hs. pose proof (res_op _ _ HD) as Hop. clear HD. revert b.
  induction Hs as [|e D' Hs IH He]; intros b; simpl; [constructor|].
  apply Forall_cons in Hop as [Hope Hop]. specialize (IH Hop).
  destruct (Bool.eqb _ _); [apply IH|]. constructor; [apply IH|]. apply Forall_forall. intros y Hy.
  pose proof (tr_incl _ _ _ Hy) as Hy'. pose proof (proj1 (Forall_forall _ _) Hop _ Hy') as Hopy.
  pose proof (proj1 (Forall_forall _ _) He _ Hy') as [Hle Hlt]. unfold ev_le, ev_lt, is_op in *.
  destruct Hopy as [Hy0|Hy1]; [|left; by apply Hlt]. destruct Hope as [He0|He1]; [|lia].
  rewrite He0 in Hy. simpl in Hy. pose proof (tr_alternates false D' Hop) as Halt.
  pose proof (IH false) as Hs'. destruct (tr false D') as [|f rest] eqn:Hf; [by apply not_elem_of_nil in Hy|].
  destruct Halt as [Hf1 _]. apply elem_of_cons in Hy as [->|Hy]; [congruence|].
  apply StronglySorted_inv in Hs' as [_ Hfr]. pose proof (proj1 (Forall_forall _ _) Hfr _ Hy) as Hfy.
  assert (f ∈ D') as HfD by (apply (tr_incl false); rewrite Hf; left).
  pose proof (proj1 (Forall_forall _ _) He _ HfD) as [_ Hef]. specialize (Hef Hf1). unfold ev_lt in Hfy. lia.
Qed.

(** The transitions; for an assertion of a fact that is present and nothing
    else, a retraction and the assertion at its time. *)
Definition appended (b : bool) : list Ev :=
  match tr b D, last D with
  | [], Some e => if e.2 =? 1 then [(e.1, 0); e] else []
  | N, _ => N
  end.

Lemma appended_cases b :
  appended b = tr b D ∨ (b = true ∧ ∃ t, D = [(t, 1)] ∧ tr b D = [] ∧ appended b = [(t, 0); (t, 1)]).
Proof.
  unfold appended. destruct (tr b D) as [|n N] eqn:Htr; [|by left].
  destruct (last D) as [[t op]|] eqn:Hl; [|by left]. simpl. destruct (Z.eqb_spec op 1) as [->|]; [|by left].
  destruct (resolves_until_assert b D (t, 1)) as [(_ & -> & HDt)|H]; [exists []; by rewrite app_nil_r|done|done| |].
  - right. split; [done|]. by exists t.
  - by rewrite Htr in H.
Qed.

Lemma appended_alternates b : alternates b (appended b).
Proof.
  destruct (appended_cases b) as [->|(-> & t & _ & _ & ->)]; [|done].
  apply tr_alternates, (res_op _ _ HD).
Qed.

Lemma appended_strict b : StronglySorted ev_lt (appended b).
Proof.
  destruct (appended_cases b) as [->|(-> & t & _ & _ & ->)]; [apply tr_strict|].
  constructor; [repeat constructor|]. constructor; [right; simpl; lia|constructor].
Qed.

Lemma appended_times b e : e ∈ appended b → ∃ w, w ∈ W ∧ e.1 = w.1.
Proof.
  destruct (appended_cases b) as [->|(-> & t & HDt & _ & ->)].
  - intros He%tr_incl%(res_incl _ _ HD). by exists e.
  - intros He. exists (t, 1). split; [apply (res_incl _ _ HD); rewrite HDt; left|].
    apply elem_of_cons in He as [->|He]; [done|]. by apply list_elem_of_singleton in He as ->.
Qed.

Lemma until_cut T : ∃ D2, D = until T D ++ D2 ∧ Forall (λ e, T < e.1) D2.
Proof. apply until_prefix, resolves_times. Qed.

(** Before the first operation the window has no event. *)
Lemma until_nil T : until T D = [] → ∀ u op, is_op (u, op) → (u, op) ∈ W → T < u.
Proof.
  intros Hnil.
  assert (∀ u op, (u, op) ∈ D → T < u) as HD'.
  { intros u op Hu. destruct (decide (u <= T)) as [Hle|]; [|lia].
    assert ((u, op) ∈ until T D) as H by (by apply list_elem_of_filter).
    rewrite Hnil in H. by apply not_elem_of_nil in H. }
  intros u op [Hop|Hop] Hu; simpl in Hop; subst op; [by eapply HD', (res_retract _ _ HD)|].
  destruct (res_assert _ _ HD u Hu) as [H|[H|(t' & H & Hle & _)]].
  - by eapply HD'.
  - by eapply HD', (res_retract _ _ HD).
  - apply HD' in H. lia.
Qed.

Lemma until_last_retract T u e :
  (u, 0) ∈ W → u <= T → last (until T D) = Some e → u <= e.1 ∧ (e.2 = 1 → u < e.1).
Proof.
  intros Hu Hle Hl. apply (res_retract _ _ HD) in Hu.
  assert ((u, 0) ∈ until T D) as Hin by (by apply list_elem_of_filter).
  apply last_Some in Hl as [D0 HD0]. destruct (until_cut T) as (D2 & HD2 & _).
  pose proof (res_sorted _ _ HD) as Hs. rewrite HD2 in Hs. apply StronglySorted_app_1_l in Hs.
  rewrite HD0 in Hs, Hin. apply elem_of_app in Hin as [Hin|Hin].
  - destruct (StronglySorted_app_1_elem_of _ _ _ _ e Hs Hin) as [H1 H2]; [left|].
    unfold ev_le in H1; simpl in *. split; [lia|done].
  - apply list_elem_of_singleton in Hin as <-. simpl. split; [lia|lia].
Qed.

Lemma until_last_in T e : last (until T D) = Some e → e ∈ D ∧ e.1 <= T.
Proof.
  intros [D0 HD0]%last_Some. assert (e ∈ until T D) as He by (rewrite HD0; apply elem_of_app; right; left).
  by apply list_elem_of_filter in He as [? ?].
Qed.

(** An assertion of the window that survives comes after the last retraction. *)
Lemma no_survivor T t e :
  last (until T D) = Some e → e.2 = 0 → (t, 1) ∈ W → t <= T →
  ¬ (∀ u, (u, 0) ∈ W → u <= T → u < t).
Proof.
  intros Hl He Ht Hle Hall. destruct (until_last_in T e Hl) as [HeD HeT].
  assert ((e.1, 0) ∈ W) as HeW by (apply (res_incl _ _ HD); destruct e; simpl in *; by subst).
  pose proof (Hall _ HeW HeT) as Het.
  assert (∀ u, (u, 1) ∈ D → u <= T → u <= e.1) as Hmax.
  { intros u Hu HuT. assert ((u, 1) ∈ until T D) as Hin by (by apply list_elem_of_filter).
    apply last_Some in Hl as [D0 HD0]. destruct (until_cut T) as (D2 & HD2 & _).
    pose proof resolves_times as Hs. rewrite HD2 in Hs. apply StronglySorted_app_1_l in Hs.
    rewrite HD0 in Hs, Hin. apply elem_of_app in Hin as [Hin|Hin].
    - apply (StronglySorted_app_1_elem_of _ _ _ _ e Hs Hin). left.
    - apply list_elem_of_singleton in Hin as <-. simpl. lia. }
  destruct (res_assert _ _ HD t Ht) as [H|[H|(t' & H & Hle' & Hno)]].
  - pose proof (Hmax t H Hle). lia.
  - pose proof (Hall t H Hle). lia.
  - pose proof (Hmax t' H ltac:(lia)). apply (Hno _ HeW). lia.
Qed.
End append.

Section shown.
Context (D W L E : list Ev) (HD : resolves D W).
Context (HLW : ∀ e w, e ∈ L → w ∈ W → e.1 < w.1) (HEW : ∀ e w, e ∈ E → w ∈ W → e.1 < w.1).

Lemma survives_old t T :
  (∀ u op, is_op (u, op) → (u, op) ∈ W → T < u) → survives (E ++ W) t T ↔ survives E t T.
Proof.
  intros HT. unfold survives. split.
  - intros (Ht & Hle & Hu). apply elem_of_app in Ht as [Ht|Ht]; [|apply HT in Ht; [lia|by right]].
    split; [done|]. split; [done|]. intros u Hin. apply Hu, elem_of_app. by left.
  - intros (Ht & Hle & Hu). split; [apply elem_of_app; by left|]. split; [done|].
    intros u [Hin|Hin]%elem_of_app HuT; [by apply Hu|]. apply HT in Hin; [lia|by left].
Qed.

(** The events before the window are all in sight of one of its own. *)
Lemma old_until T e : e ∈ D → e.1 <= T → until T L = L.
Proof.
  intros He HeT. apply until_all, Forall_forall. intros x Hx.
  pose proof (HLW x e Hx (res_incl _ _ HD _ He)). lia.
Qed.

Lemma assert_survives T e :
  last (until T D) = Some e → e.2 = 1 → survives (E ++ W) e.1 T.
Proof.
  intros Hl He. destruct (until_last_in D T e Hl) as [HeD HeT].
  pose proof (res_incl _ _ HD _ HeD) as HeW. split.
  - apply elem_of_app. right. destruct e; simpl in *; by subst.
  - split; [done|]. intros u [Hu|Hu]%elem_of_app HuT; [by apply (HEW (u, 0) e)|].
    by apply (until_last_retract D W HD T u e).
Qed.

(** What the window adds to the log before [T]. *)
Lemma until_appended b T :
  until T (appended D b) = tr b (until T D)
  ∨ ∃ t, t <= T ∧ until T D = [(t, 1)] ∧ until T (appended D b) = [(t, 0); (t, 1)].
Proof.
  destruct (appended_cases D W HD b) as [->|(_ & t & HDt & Htr & ->)].
  - left. by apply until_tr, (resolves_times D W).
  - destruct (decide (t <= T)) as [Hle|Hle].
    + right. exists t. split; [done|]. split; [|by apply until_all; repeat constructor].
      rewrite HDt. by apply until_all; repeat constructor.
    + left. rewrite HDt. rewrite !until_none by (repeat constructor; simpl; lia). done.
Qed.

(** When the last event in sight is a retraction. *)
Lemma retract_shown T e :
  last (until T D) = Some e → e.2 = 0 →
  live (L ++ until T (appended D (state false L))) = [] ∧ ∀ t, ¬ survives (E ++ W) t T.
Proof.
  intros Hl He. destruct (until_last_in D T e Hl) as [HeD HeT]. set (b := state false L). split.
  - destruct (until_appended b T) as [->|(t & _ & H & _)]; [|by rewrite H in Hl; injection Hl as <-].
    pose proof (tr_state b (until T D)) as Hst. unfold state at 2 in Hst. rewrite Hl, He in Hst. simpl in Hst.
    unfold live. destruct (tr b (until T D)) as [|n N] eqn:Htr.
    + rewrite app_nil_r. unfold state in Hst at 1. simpl in Hst. unfold b, state in Hst.
      destruct (last L); [by rewrite Hst|done].
    + destruct (last (n :: N)) as [l|] eqn:Hln; [|by apply last_None in Hln].
      rewrite last_app, Hln. unfold state in Hst. rewrite Hln in Hst. by rewrite Hst.
  - intros t (Ht & Hle & Hall). apply elem_of_app in Ht as [Ht|Ht].
    + assert ((e.1, 0) ∈ W) as HeW by (apply (res_incl _ _ HD); destruct e; simpl in *; by subst).
      pose proof (HEW _ _ Ht HeW). simpl in *. pose proof (Hall e.1 ltac:(apply elem_of_app; by right) HeT). lia.
    + apply (no_survivor D W HD T t e); try done. intros u Hu. apply Hall, elem_of_app. by right.
Qed.

(** When it is an assertion. *)
Lemma assert_shown T e :
  shows L E → last (until T D) = Some e → e.2 = 1 →
  ∃ l, live (L ++ until T (appended D (state false L))) = [l] ∧ survives (E ++ W) l.1 T.
Proof.
  intros HL Hl He. destruct (until_last_in D T e Hl) as [HeD HeT]. set (b := state false L).
  destruct (until_cut D W HD T) as (D2 & HD2 & _).
  destruct (until_appended b T) as [->|(t & _ & H & ->)].
  2:{ rewrite H in Hl. injection Hl as <-. change [(t, 0); (t, 1)] with ([(t, 0)] ++ [(t, 1)]).
      rewrite app_assoc, live_snoc. simpl. exists (t, 1). split; [done|].
      apply (assert_survives T (t, 1)); [by rewrite H|done]. }
  destruct (resolves_until_assert D W HD b (until T D) e) as [(-> & Hb & H1)|H]; [by exists D2|done|done|..].
  - rewrite app_nil_r. unfold b in Hb. specialize (HL T). rewrite (old_until T e HeD HeT) in HL.
    destruct (live_cases L) as [(e0 & L' & _ & _ & Hlive)|[Hst _]]; [|congruence].
    rewrite Hlive in HL |- *. exists e0. split; [done|].
    destruct HL as (H2 & H3 & H4). split; [apply elem_of_app; by left|]. split; [done|].
    intros u [Hu|Hu]%elem_of_app HuT; [by apply H4|].
    apply (res_retract _ _ HD) in Hu. assert ((u, 0) ∈ until T D) as Hin by (by apply list_elem_of_filter).
    rewrite H1 in Hin. apply list_elem_of_singleton in Hin as <-. done.
  - exists e. split; [|by apply assert_survives]. unfold live. by rewrite last_app, H, He.
Qed.

Lemma shows_append : shows L E → shows (L ++ appended D (state false L)) (E ++ W).
Proof.
  intros HL T. rewrite until_app. destruct (last (until T D)) as [e|] eqn:Hl.
  - destruct (until_last_in D T e Hl) as [HeD HeT]. rewrite (old_until T e HeD HeT).
    pose proof (proj1 (Forall_forall _ _) (res_op _ _ HD) _ HeD) as [He|He].
    + by destruct (retract_shown T e Hl He) as [-> H].
    + by destruct (assert_shown T e HL Hl He) as (l & -> & H).
  - apply last_None in Hl. pose proof (until_nil D W HD T Hl) as HT.
    destruct (until_appended (state false L) T) as [->|(t & _ & H & _)]; [|by rewrite Hl in H].
    rewrite Hl. simpl. rewrite app_nil_r. specialize (HL T).
    destruct (live (until T L)); [intros t; by rewrite survives_old|by apply survives_old].
Qed.
End shown.

(** ** One fact through a merge *)

Section fact_merge.
Context `{SO : Sorting}.

#[export] Instance event_cmp_order P : CmpOrder P event_cmp.
Proof.
  assert (∀ f : RunRecordV2 * Z → Z, CmpOrder P (λ a b, Z.compare (f a) (f b))) as Hz.
  { intros f. apply (cmp_on_order (λ _, True)); [apply _|done]. }
  apply cmp_then_order; apply Hz.
Qed.

#[export] Instance ev_le_antisymm : AntiSymm (=) ev_le.
Proof. intros [t op] [t' op'] H H'. unfold ev_le in *; simpl in *. f_equal; lia. Qed.

Lemma sorted_events events D W :
  resolves D W → ev2 <$> events ≡ₚ D → ev2 <$> sort_unstable_by false event_cmp events = D.
Proof.
  intros HD Hp. apply (StronglySorted_unique ev_le).
  - apply (StronglySorted_fmap ev2 (cmp_le event_cmp)).
    + intros x y. unfold cmp_le, event_cmp, ev_le, ev2; simpl.
      destruct (Z.compare_spec (v2_t x.1) (v2_t y.1)); simpl; [|intros; lia|done].
      destruct (Z.compare_spec x.2 y.2); simpl; [intros; lia..|done].
    + apply (sort_sorted false (λ _, True)); [apply _|by apply Forall_true].
  - pose proof (res_sorted _ _ HD) as Hs. clear -Hs. induction Hs as [|x l Hs IH Hx]; [constructor|].
    constructor; [done|]. eapply Forall_impl; [exact Hx|]. by intros y [? _].
  - by rewrite sort_perm.
Qed.

(** The entries that are written: all transitions but the one into a row. *)
Lemma transition_push_spec events b D W :
  resolves D W → ev2 <$> events ≡ₚ D →
  hist_ev <$> (push_transition_entries events b).1
    = match live (tr b D) with [] => tr b D | _ => removelast (tr b D) end
  ∧ (push_transition_entries events b).2 = match tr b D with [] => false | _ => true end.
Proof.
  intros HD Hp. pose proof (sorted_events events D W HD Hp) as Hs.
  pose proof (transitions_tr b (sort_unstable_by false event_cmp events)) as Htr. rewrite Hs in Htr.
  unfold push_transition_entries, resolve_transitions. rewrite <- Htr.
  set (T := transitions b _). clearbody T. clear.
  assert (∀ l : list (RunRecordV2 * Z), hist_ev <$> ((λ e : RunRecordV2 * Z, record_to_hist_entry e.1 e.2) <$> l) = ev2 <$> l) as Hev.
  { intros l. by rewrite <- list_fmap_compose. }
  unfold live. rewrite fmap_last. destruct (last T) as [[row op]|] eqn:Hl; simpl.
  - destruct (op =? 1) eqn:Ho; simpl.
    + rewrite Hev. split; [|by destruct T].
      rewrite !removelast_firstn_len, length_fmap. apply fmap_take.
    + rewrite Hev. split; [done|]. by destruct T.
  - apply last_None in Hl as ->. done.
Qed.

Lemma removelast_live (L : list Ev) e : live L = [e] → removelast L ++ [e] = L.
Proof.
  destruct (live_cases L) as [(e' & L' & -> & _ & ->)|[_ ->]]; [|done]. intros [= ->].
  by rewrite removelast_last.
Qed.

(** The entries of a fact: its row's assertion, its transitions, and the
    retraction that stands for a plain re-assertion. *)
Lemma fact_history_spec rows x op sup D W L :
  resolves D W → ev2 <$> sup ++ [(x, op)] ≡ₚ D → row_ev <$> rows = live L →
  let b := state false L in
  hist_ev <$> fact_history rows [(x, op)] sup
  = (row_ev <$> rows) ++ (match live (tr b D) with [] => tr b D | _ => removelast (tr b D) end)
    ++ (if op =? 1 then if b then match tr b D with [] => [(v2_t x, 0)] | _ => [] end else [] else []).
Proof.
  intros HD Hp Hrows b. destruct (transition_push_spec (sup ++ [(x, op)]) b D W HD Hp) as [Hpush Hchanged].
  destruct (live_cases L) as [(e & L' & HL & He & HliveL)|[Hst HliveL]]; rewrite HliveL in Hrows.
  - destruct rows as [|row [|? ?]]; try done. injection Hrows as <-.
    assert (b = true) as Hb by (unfold b; rewrite HL, state_snoc, He; done). clearbody b. subst b.
    simpl. unfold merge_present. destruct (push_transition_entries _ true) as [entries changed].
    csimpl in *. destruct (op =? 1); csimpl; [|by rewrite Hpush, app_nil_r].
    rewrite Hchanged, fmap_app, Hpush. by destruct (tr true D).
  - destruct rows; [|done]. assert (b = false) as Hb by done. clearbody b. subst b.
    simpl. rewrite Hpush. destruct (op =? 1); by rewrite app_nil_r.
Qed.

(** The row of a fact after a merge. *)
Lemma fact_rows_live rows x op D W L :
  resolves D W → last D = Some (v2_t x, op) → row_ev <$> rows = live L →
  row_ev <$> fact_rows rows [(x, op)] = live (L ++ appended D (state false L)).
Proof.
  intros HD Hl Hrows. set (b := state false L).
  assert (is_op (v2_t x, op)) as Hop.
  { apply (proj1 (Forall_forall _ _) (res_op _ _ HD)). by apply last_Some_elem_of in Hl. }
  pose proof (tr_state b D) as Hst. unfold state in Hst at 2. rewrite Hl in Hst. simpl in Hst.
  simpl. destruct Hop as [Hop|Hop]; simpl in Hop; subst op; simpl.
  - assert (appended D b = tr b D) as -> by (unfold appended; rewrite Hl; by destruct (tr b D)).
    unfold live. destruct (last (tr b D)) as [e|] eqn:Hlt; rewrite last_app, Hlt.
    + unfold state in Hst. rewrite Hlt in Hst. by rewrite Hst.
    + apply last_None in Hlt. rewrite Hlt in Hst. unfold state in Hst at 1. simpl in Hst.
      unfold b, state in Hst. destruct (last L); [by rewrite Hst|done].
  - destruct (resolves_until_assert D W HD b D (v2_t x, 1)) as [(Htr & Hb & HDe)|Hlast];
      [exists []; by rewrite app_nil_r|done|done|..].
    + unfold appended. rewrite Htr, Hl. simpl.
      change [(v2_t x, 0); (v2_t x, 1)] with ([(v2_t x, 0)] ++ [(v2_t x, 1)]).
      by rewrite app_assoc, live_snoc.
    + assert (appended D b = tr b D) as -> by (unfold appended; by destruct (tr b D)).
      unfold live. by rewrite last_app, Hlast.
Qed.

(** The rows and entries of a fact are the assertion of its old row and what
    the window appends to its log. *)
Lemma fact_merge_perm rows x op sup D W L :
  resolves D W → ev2 <$> sup ++ [(x, op)] ≡ₚ D → last D = Some (v2_t x, op) → row_ev <$> rows = live L →
  (hist_ev <$> fact_history rows [(x, op)] sup) ++ (row_ev <$> fact_rows rows [(x, op)])
  ≡ₚ (row_ev <$> rows) ++ appended D (state false L).
Proof.
  intros HD Hp Hl Hrows. rewrite (fact_history_spec rows x op sup D W L HD Hp Hrows).
  set (b := state false L). rewrite <- !app_assoc. apply Permutation_app_head.
  assert (is_op (v2_t x, op)) as Hop.
  { apply (proj1 (Forall_forall _ _) (res_op _ _ HD)). by apply last_Some_elem_of in Hl. }
  simpl. destruct Hop as [Hop|Hop]; simpl in Hop; subst op; simpl.
  - rewrite !app_nil_r. unfold appended. rewrite Hl. simpl.
    pose proof (tr_state b D) as Hst. unfold state in Hst at 2. rewrite Hl in Hst. simpl in Hst.
    destruct (live_cases (tr b D)) as [(e & L' & HL' & He & _)|[_ ->]].
    { rewrite HL', state_snoc, He in Hst. done. }
    by destruct (tr b D).
  - destruct (resolves_until_assert D W HD b D (v2_t x, 1)) as [(Htr & Hb & HDe)|Hlast];
      [exists []; by rewrite app_nil_r|done|done|..].
    + unfold appended. rewrite Htr, Hl, Hb. done.
    + assert (live (tr b D) = [(v2_t x, 1)]) as Hlive by (unfold live; by rewrite Hlast).
      rewrite Hlive. unfold appended. destruct (tr b D) as [|n N] eqn:Htr; [done|].
      assert (removelast (n :: N) ++ [(v2_t x, 1)] = n :: N) as Hrm by (by apply removelast_live).
      rewrite <- Hrm at 2. by destruct b.
Qed.

(** A fact's log after a merge. *)
Lemma fact_log_merge rows hist nov sup W L :
  fact_log rows hist L → ops_resolve nov sup W → (∀ e w, e ∈ L → w ∈ W → e.1 < w.1) →
  ∃ N, fact_log (fact_rows rows nov) (fact_history rows nov sup ++ hist) (L ++ N)
    ∧ (∀ n, n ∈ N → ∃ w, w ∈ W ∧ n.1 = w.1)
    ∧ (∀ E, (∀ e w, e ∈ E → w ∈ W → e.1 < w.1) → shows L E → shows (L ++ N) (E ++ W)).
Proof.
  intros [F1 F2 F3 F4] [(-> & -> & ->)|([x op] & D & -> & Hp & Hl & HD)] Hnew.
  - exists []. simpl. rewrite app_nil_r. split; [done|]. split; [set_solver|]. intros E _. by rewrite app_nil_r.
  - exists (appended D (state false L)). split; [split|split].
    + by eapply fact_rows_live.
    + pose proof (fact_merge_perm rows x op sup D W L HD Hp Hl F1) as Hm.
      revert Hm. generalize (appended D (state false L)). intros N Hm.
      rewrite fmap_app, <- F2, <- !app_assoc, Permutation_app_swap_app. by rewrite Hm.
    + apply alternates_app. split; [done|]. by eapply appended_alternates.
    + apply StronglySorted_app_2; [|done|by eapply appended_strict].
      intros e n He Hn. destruct (appended_times D W HD _ _ Hn) as (w & Hw & Ht).
      left. pose proof (Hnew e w He Hw). lia.
    + intros n Hn. by apply (appended_times D W HD _ _ Hn).
    + intros E HE HL. by apply shows_append.
Qed.
End fact_merge.

(** ** Leaflets *)

(** The rows, in order, and the history of a leaflet record what the events
    of each fact make of it. *)
Record leaflet_log (order : RunSortOrder) (rows : list RunRecordV2) (hist : list HistEntryV2)
    (E : FactKeyV3 → list Ev) : Prop := {
  ll_rows : StronglySorted (key_lt order) (rec_key <$> rows);
  ll_facts : ∀ k, ∃ L, fact_log (rows_at k rows) (hist_at k hist) L ∧ shows L (E k)
    ∧ ∀ e, e ∈ L → ∃ e', e' ∈ E k ∧ e.1 = e'.1;
}.

Lemma fact_log_perm rows hist hist' L : hist ≡ₚ hist' → fact_log rows hist L → fact_log rows hist' L.
Proof. intros Hp [F1 F2 F3 F4]. split; [done| |done|done]. by rewrite <- Hp. Qed.

Lemma leaflet_log_perm order rows hist hist' E :
  hist ≡ₚ hist' → leaflet_log order rows hist E → leaflet_log order rows hist' E.
Proof.
  intros Hp [H1 H2]. split; [done|]. intros k. destruct (H2 k) as (L & HL & Hrest). exists L.
  split; [|done]. eapply fact_log_perm; [|exact HL]. by rewrite Hp.
Qed.

Lemma rows_at_without_graph k rows : rows_at k (without_graph <$> rows) = without_graph <$> rows_at k rows.
Proof.
  induction rows as [|r rows IH]; [done|]. unfold rows_at in *. csimpl. rewrite !filter_cons.
  repeat case_decide; try done; csimpl; by rewrite IH.
Qed.

Lemma leaflet_log_graph order rows hist E :
  leaflet_log order rows hist E → leaflet_log order (without_graph <$> rows) hist E.
Proof.
  intros [H1 H2]. split; [by rewrite <- list_fmap_compose|]. intros k.
  destruct (H2 k) as (L & [F1 F2 F3 F4] & Hrest). exists L. split; [|done].
  rewrite rows_at_without_graph. split; [by rewrite <- list_fmap_compose| |done|done].
  by rewrite <- list_fmap_compose.
Qed.

Definition newer (E W : FactKeyV3 → list Ev) : Prop := ∀ k e w, e ∈ E k → w ∈ W k → e.1 < w.1.

Section leaflet_merge.
Context `{SO : Sorting}.

Lemma streams_beside order nov sup W : streams_ok order nov sup W → beside nov sup.
Proof.
  intros [_ _ Hops]. apply Forall_forall. intros x Hx.
  assert (x ∈ at_key (okey x) sup) as Hat by (by apply list_elem_of_filter).
  destruct (Hops (okey x)) as [(_ & Hs & _)|(y & D & Hn & _)].
  - rewrite Hs in Hat. by apply not_elem_of_nil in Hat.
  - assert (y ∈ at_key (okey x) nov) as Hy by (rewrite Hn; left).
    apply list_elem_of_filter in Hy as [Hk Hy]. apply list_elem_of_fmap. by exists y.
Qed.

(** A merge of newer events succeeds and records them. *)
Lemma merge_novelty_log order batch rows hist nov sup E W :
  column_batch_to_records batch = Some rows → leaflet_log order rows hist E →
  streams_ok order nov sup W → newer E W →
  ∃ out, merge_novelty {| mi_batch := batch; mi_existing_history := hist; mi_novelty := nov;
                          mi_superseded := sup; mi_order := order |} = Some out
    ∧ leaflet_log order (mo_records out) (mo_history out) (λ k, E k ++ W k).
Proof.
  intros Hb [Hrows Hfacts] Hok Hnew. pose proof (streams_beside _ _ _ _ Hok) as Hbeside.
  destruct Hok as [Hn Hs Hops]. unfold merge_novelty; simpl. rewrite Hb. simpl.
  pose proof (merge_loop_spec order rows nov sup Hrows Hn Hs Hbeside) as Hm.
  destruct (merge_loop order rows nov sup) as [[[out h] m] s]. destruct Hm as [H1 H2 H3 H4]; simpl in *.
  subst s. eexists. split; [done|]. split; [done|]. intros k. simpl.
  destruct (Hfacts k) as (L & HL & Hshow & Htimes).
  destruct (fact_log_merge (rows_at k rows) (hist_at k hist) (at_key k nov) (at_key k sup) (W k) L HL (Hops k))
    as (N & HN & HNt & HNs).
  { intros e w He Hw. destruct (Htimes e He) as (e' & He' & ->). by apply (Hnew k). }
  exists (L ++ N). split; [|split].
  - rewrite H3. eapply fact_log_perm; [|exact HN]. unfold assemble_history.
    by rewrite sort_perm, hist_at_app, H4.
  - apply HNs; [|done]. apply Hnew.
  - intros e [He|He]%elem_of_app.
    + destruct (Htimes e He) as (e' & He' & ?). exists e'. split; [apply elem_of_app; by left|done].
    + destruct (HNt e He) as (w & Hw & ?). exists w. split; [apply elem_of_app; by right|done].
Qed.
End leaflet_merge.
