(* ===== verification/IndexReplay.v ===== *)
(** * Time travel ([fluree-db-binary-index/src/read/replay.rs])

    A leaflet holds the rows of the last indexed transaction; the rows of an
    earlier one are reconstructed by undoing its history. *)

From S2P Require Import Prelude Vocab Ordering IndexFormat IndexDedup IndexMerge.
From S2P Require Import Accumulator.
#[local] Open Scope Z_scope.

Record UndoEvent := {
  ue_abs_t : Z;
  ue_is_assert : bool;
  ue_key : FactKeyV3;
  ue_source : option HistEntryV2;
}.

Record FactState := {
  fs_present : bool;
  fs_include_src : option HistEntryV2;
}.

(** A row above the target is an assertion to undo. *)
Definition batch_has_rows_above_t (batch : ColumnBatch) (t_target : Z) : bool :=
  match cb_t batch with
  | Block ts => existsb (λ t, t_target <? t) ts
  | Const t => t_target <? t
  | AbsentDefault => false
  end.

(** Step 0: the rows by fact, with their place. *)
Fixpoint build_membership (i : nat) (rows : list RunRecordV2) (m : gmap FactKeyV3 (Z * nat)) :
    gmap FactKeyV3 (Z * nat) :=
  match rows with
  | [] => m
  | r :: rows => build_membership (S i) rows (<[rec_key r := (v2_t r, i)]> m)
  end.

(** Step 1: the events above the target, from the history until it reaches
    the target, and from the rows. *)
Fixpoint history_events (t_target : Z) (history : list HistEntryV2) : list UndoEvent :=
  match history with
  | [] => []
  | entry :: history =>
      if he_t entry <=? t_target then []
      else {| ue_abs_t := he_t entry; ue_is_assert := he_op entry =? 1;
              ue_key := hist_key entry; ue_source := Some entry |}
           :: history_events t_target history
  end.

Definition row_events (t_target : Z) (rows : list RunRecordV2) : list UndoEvent :=
  omap (λ r, if t_target <? v2_t r
             then Some {| ue_abs_t := v2_t r; ue_is_assert := true; ue_key := rec_key r;
                          ue_source := None |}
             else None) rows.

(** Step 2: latest first, assertions before retractions. *)
Definition undo_cmp (a b : UndoEvent) : comparison :=
  then_with (Z.compare (ue_abs_t b) (ue_abs_t a)) (bool_cmp (ue_is_assert b) (ue_is_assert a)).

Definition apply_undo (membership : gmap FactKeyV3 (Z * nat)) (fact_states : gmap FactKeyV3 FactState)
    (event : UndoEvent) : gmap FactKeyV3 FactState :=
  let state :=
    default {| fs_present := bool_decide (is_Some (membership !! ue_key event)); fs_include_src := None |}
      (fact_states !! ue_key event) in
  <[ue_key event :=
     if ue_is_assert event
     then {| fs_present := false; fs_include_src := fs_include_src state |}
     else {| fs_present := true;
             fs_include_src := match fs_include_src state with
                               | None => ue_source event
                               | src => src
                               end |}]> fact_states.

Definition hist_entry_to_record (entry : HistEntryV2) : RunRecordV2 :=
  {| v2_s_id := he_s_id entry; v2_o_key := he_o_key entry; v2_p_id := he_p_id entry;
     v2_t := he_t entry; v2_o_i := he_o_i entry; v2_o_type := he_o_type entry; v2_g_id := 0 |}.

Definition find_base_assert_at_target (key : FactKeyV3) (history : list HistEntryV2) (t_target : Z) :
    option HistEntryV2 :=
  List.find (λ entry, (he_t entry <=? t_target) && (he_op entry =? 1)
                      && bool_decide (hist_key entry = key)) history.

(** The record that restores a fact. *)
Definition include_of (key : FactKeyV3) (state : FactState) (history : list HistEntryV2) (t_target : Z) :
    list RunRecordV2 :=
  match find_base_assert_at_target key history t_target with
  | Some src => [hist_entry_to_record src]
  | None => match fs_include_src state with Some src => [hist_entry_to_record src] | None => [] end
  end.

(** Step 3: the rows to leave out and the records to put in, for one fact. *)
Definition derive (membership : gmap FactKeyV3 (Z * nat)) (history : list HistEntryV2) (t_target : Z)
    (ks : FactKeyV3 * FactState) : list nat * list RunRecordV2 :=
  let '(key, state) := ks in
  match membership !! key, fs_present state with
  | Some (_, row_idx), false => ([row_idx], [])
  | None, true => ([], include_of key state history t_target)
  | Some (base_t, row_idx), true =>
      if t_target <? base_t then ([row_idx], include_of key state history t_target) else ([], [])
  | None, false => ([], [])
  end.

(** [Vec::dedup]. *)
Fixpoint dedup_indices (l : list nat) : list nat :=
  match l with
  | x :: ((y :: _) as l') => if (x =? y)%nat then dedup_indices l' else x :: dedup_indices l'
  | l => l
  end.

(** Step 4: the rows that stay, merged with the records. *)
Fixpoint drain_base (exclude_set : gset nat) (bi : nat) (rows : list RunRecordV2) : list RunRecordV2 :=
  match rows with
  | [] => []
  | row :: rows =>
      if bool_decide (bi ∈ exclude_set) then drain_base exclude_set (S bi) rows
      else row :: drain_base exclude_set (S bi) rows
  end.

Fixpoint merge_includes (order : RunSortOrder) (exclude_set : gset nat) (bi : nat)
    (rows : list RunRecordV2) : list RunRecordV2 → list RunRecordV2 :=
  match rows with
  | [] => λ includes, includes
  | row :: rows' =>
      fix merge_row includes :=
        match includes with
        | [] => drain_base exclude_set bi (row :: rows')
        | inc :: includes' =>
            if bool_decide (bi ∈ exclude_set)
            then merge_includes order exclude_set (S bi) rows' includes
            else match cmp_v2_for_order order row inc with
                 | Lt => row :: merge_includes order exclude_set (S bi) rows' includes
                 | Gt => inc :: merge_row includes'
                 | Eq => inc :: merge_includes order exclude_set (S bi) rows' includes'
                 end
        end
  end.

Section replay.
Context `{SO : Sorting} `{HD : HashDrain}.

(** [None]: a column that cannot be read; [Some None]: no replay needed. *)
Definition replay_leaflet (batch : ColumnBatch) (history : list HistEntryV2) (t_target : Z)
    (order : RunSortOrder) : option (option ColumnBatch) :=
  if u32_max <? t_target then Some None
  else if t_target <? 0 then Some (Some empty_batch)
  else
    rows ← column_batch_to_records batch;
    let membership := build_membership 0 rows ∅ in
    let events := history_events t_target history ++ row_events t_target rows in
    match events with
    | [] => Some None
    | _ =>
        let events := sort_unstable_by false undo_cmp events in
        let fact_states := foldl (apply_undo membership) ∅ events in
        let derived := derive membership history t_target <$> drain (map_to_list fact_states) in
        let exclude_indices := dedup_indices (sort_unstable_by false Nat.compare (concat derived.*1)) in
        let includes := sort_unstable_by false (cmp_v2_for_order order) (concat derived.*2) in
        let exclude_set : gset nat := list_to_set exclude_indices in
        Some (Some (records_to_batch (merge_includes order exclude_set 0 rows includes)))
    end.
End replay.

(** ** Undoing one fact *)

Definition undo_ev (e : UndoEvent) : Ev := (ue_abs_t e, if ue_is_assert e then 1 else 0).
Definition undo_at (k : FactKeyV3) (l : list UndoEvent) : list UndoEvent := filter (λ e, ue_key e = k) l.

(** The log after a time. *)
Definition after (T : Z) (L : list Ev) : list Ev := filter (λ e, T < e.1) L.

Lemma log_split T L : StronglySorted ev_lt L → L = until T L ++ after T L.
Proof.
  intros Hs. destruct (until_prefix T L) as (L2 & HL & H2).
  { eapply StronglySorted_weaken; [|exact Hs]. unfold ev_lt. intros x y. lia. }
  rewrite HL at 1. f_equal. unfold after. rewrite HL, filter_app.
  rewrite list_filter_none; [by rewrite list_filter_id|].
  apply Forall_forall. intros e [He _]%list_elem_of_filter. lia.
Qed.

(** The next event is a retraction of what is present, or an assertion of what
    is not. *)
Lemma alternates_next T L e rest :
  StronglySorted ev_lt L → alternates false L → after T L = e :: rest →
  e.2 = if state false (until T L) then 0 else 1.
Proof.
  intros Hs Ha Haft. rewrite (log_split T L Hs), alternates_app, Haft in Ha. by destruct Ha as [_ [-> _]].
Qed.

(** What the undoing makes of a fact is decided by the last event undone. *)
Lemma undo_present membership events k :
  match last (undo_at k events) with
  | None => (foldl (apply_undo membership) ∅ events : gmap FactKeyV3 FactState) !! k = None
  | Some e => ∃ st, (foldl (apply_undo membership) ∅ events : gmap FactKeyV3 FactState) !! k = Some st
                    ∧ fs_present st = negb (ue_is_assert e)
  end.
Proof.
  induction events as [|e events IH] using rev_ind; [done|].
  rewrite foldl_snoc. unfold undo_at in *. rewrite filter_app.
  destruct (decide (ue_key e = k)) as [<-|Hne].
  - rewrite (filter_cons_True _ e []), filter_nil, last_snoc by done. unfold apply_undo at 1.
    rewrite lookup_insert_eq. eexists. split; [done|]. by destruct (ue_is_assert e).
  - rewrite (filter_cons_False _ e []), filter_nil, app_nil_r by done. unfold apply_undo at 1 3.
    by rewrite lookup_insert_ne by done.
Qed.

Lemma history_events_filter T hist :
  sorted_by newest_first hist →
  history_events T hist
  = (λ e, {| ue_abs_t := he_t e; ue_is_assert := he_op e =? 1; ue_key := hist_key e; ue_source := Some e |})
    <$> filter (λ e, T < he_t e) hist.
Proof.
  induction 1 as [|e hist Hs IH He]; [done|]. cbn [history_events].
  destruct (Z.leb_spec (he_t e) T) as [Hle|Hlt].
  - rewrite (filter_cons_False _ e) by lia. rewrite list_filter_none; [done|].
    eapply Forall_impl; [exact He|]. simpl. intros x. unfold cmp_le, newest_first.
    destruct (Z.compare_spec (he_t x) (he_t e)); simpl; [intros; lia..|done].
  - rewrite filter_cons_True by done. csimpl. by rewrite IH.
Qed.

Lemma after_app T L1 L2 : after T (L1 ++ L2) = after T L1 ++ after T L2.
Proof. apply filter_app. Qed.

Lemma undo_at_history T k hist :
  Forall is_op (hist_ev <$> hist_at k hist) →
  undo_ev <$> undo_at k ((λ e, {| ue_abs_t := he_t e; ue_is_assert := he_op e =? 1; ue_key := hist_key e;
                                  ue_source := Some e |}) <$> filter (λ e, T < he_t e) hist)
  = after T (hist_ev <$> hist_at k hist).
Proof.
  induction hist as [|e hist IH]; [done|]. unfold hist_at, undo_at, after in *.
  rewrite (filter_cons (λ e, T < he_t e) e). destruct (decide (hist_key e = k)) as [Hk|Hk].
  - rewrite (filter_cons_True (λ e, hist_key e = k)) by done. rewrite fmap_cons. intros [Hop Hops]%Forall_cons.
    rewrite (filter_cons _ (hist_ev e)). simpl. case_decide as Ht; [|by apply IH].
    csimpl. rewrite filter_cons_True by done. csimpl. rewrite IH by done. f_equal.
    unfold undo_ev, hist_ev; simpl. by destruct Hop as [Hop|Hop]; simpl in Hop; rewrite Hop.
  - rewrite (filter_cons_False (λ e, hist_key e = k)) by done. intros Hops.
    case_decide as Ht; [|by apply IH]. csimpl. rewrite filter_cons_False by done. by apply IH.
Qed.

Lemma undo_at_rows T k rows :
  undo_ev <$> undo_at k (row_events T rows) = after T (row_ev <$> rows_at k rows).
Proof.
  induction rows as [|r rows IH]; [done|]. unfold rows_at, undo_at, after, row_events in *. cbn [omap list_omap].
  destruct (decide (rec_key r = k)) as [Hk|Hk].
  - rewrite (filter_cons_True (λ e, rec_key e = k)) by done. rewrite fmap_cons, (filter_cons _ (row_ev r)). simpl.
    destruct (Z.ltb_spec T (v2_t r)) as [Ht|Ht].
    + rewrite decide_True by done. rewrite filter_cons_True by done. csimpl. by f_equal.
    + rewrite decide_False by lia. apply IH.
  - rewrite (filter_cons_False (λ e, rec_key e = k)) by done.
    destruct (Z.ltb_spec T (v2_t r)) as [Ht|Ht]; [|apply IH]. by rewrite filter_cons_False.
Qed.

Lemma alternates_ops b L : alternates b L → Forall is_op L.
Proof.
  revert b. induction L as [|e L IH]; intros b; [constructor|]. intros [He HL].
  constructor; [unfold is_op; destruct b; lia|by eapply IH].
Qed.

(** Latest first. *)
Definition ev_ge (a b : Ev) : Prop := ev_le b a.
#[export] Instance ev_ge_antisymm : AntiSymm (=) ev_ge.
Proof. intros x y H H'. by apply (anti_symm ev_le). Qed.

Section replay_facts.
Context `{SO : Sorting}.

#[export] Instance undo_cmp_order P : CmpOrder P undo_cmp.
Proof.
  constructor.
  - intros x y. unfold undo_cmp. rewrite (Z.compare_antisym (ue_abs_t y) (ue_abs_t x)).
    destruct (Z.compare (ue_abs_t y) (ue_abs_t x)); simpl; [|done|done].
    by destruct (ue_is_assert x), (ue_is_assert y).
  - intros x y z _ _ _. unfold undo_cmp.
    destruct (Z.compare_spec (ue_abs_t y) (ue_abs_t x)), (Z.compare_spec (ue_abs_t z) (ue_abs_t y)),
      (Z.compare_spec (ue_abs_t z) (ue_abs_t x)), (ue_is_assert x), (ue_is_assert y), (ue_is_assert z);
      simpl; try done; lia.
Qed.

Lemma undo_cmp_ev x y : is_le (undo_cmp x y) = true → ev_le (undo_ev y) (undo_ev x).
Proof.
  unfold undo_cmp, ev_le, undo_ev; simpl.
  destruct (Z.compare_spec (ue_abs_t y) (ue_abs_t x)); simpl; [|intros; lia|done].
  destruct (ue_is_assert x), (ue_is_assert y); simpl; try done; intros; lia.
Qed.

(** The events of a fact above the target, latest first. *)
Lemma undo_events_at T k rows hist L :
  sorted_by newest_first hist → fact_log (rows_at k rows) (hist_at k hist) L →
  undo_ev <$> undo_at k (sort_unstable_by false undo_cmp (history_events T hist ++ row_events T rows))
  = reverse (after T L).
Proof.
  intros Hs [F1 F2 F3 F4]. apply (StronglySorted_unique ev_ge).
  - apply (StronglySorted_fmap undo_ev (cmp_le undo_cmp)); [intros x y; apply undo_cmp_ev|].
    apply StronglySorted_filter. apply (sort_sorted false (λ _, True)); [apply _|by apply Forall_true].
  - apply (StronglySorted_reverse ev_le). eapply StronglySorted_weaken; [|apply StronglySorted_filter, F4].
    unfold ev_le, ev_lt. intros x y. lia.
  - rewrite reverse_Permutation. unfold undo_at. rewrite sort_perm, filter_app, fmap_app.
    rewrite history_events_filter by done.
    assert (Forall is_op (hist_ev <$> hist_at k hist)) as Hop.
    { apply alternates_ops in F3. rewrite <- F2 in F3. by apply Forall_app in F3 as [? _]. }
    pose proof (undo_at_history T k hist Hop) as H1. pose proof (undo_at_rows T k rows) as H2.
    unfold undo_at in H1, H2. rewrite H1, H2, <- after_app. unfold after. by rewrite F2.
Qed.

(** After undoing, a fact with an event above the target is present if the
    events up to the target leave it so. *)
Lemma undone_state T k rows hist L membership :
  sorted_by newest_first hist → fact_log (rows_at k rows) (hist_at k hist) L →
  let events := sort_unstable_by false undo_cmp (history_events T hist ++ row_events T rows) in
  match after T L with
  | [] => (foldl (apply_undo membership) ∅ events : gmap FactKeyV3 FactState) !! k = None
  | _ => ∃ st, (foldl (apply_undo membership) ∅ events : gmap FactKeyV3 FactState) !! k = Some st
               ∧ fs_present st = state false (until T L)
  end.
Proof.
  intros Hs Hf events. pose proof (undo_events_at T k rows hist L Hs Hf) as He. fold events in He.
  pose proof (undo_present membership events k) as Hp.
  destruct (after T L) as [|e rest] eqn:Haft.
  - apply fmap_nil_inv in He. by rewrite He in Hp.
  - rewrite reverse_cons in He.
    destruct (last (undo_at k events)) as [x|] eqn:Hl.
    2:{ apply last_None in Hl. rewrite Hl in He. symmetry in He. by apply app_nil in He as [_ ?]. }
    destruct Hp as (st & Hst & Hpres). exists st. split; [done|]. rewrite Hpres.
    assert (undo_ev x = e) as Hx.
    { pose proof (fmap_last undo_ev (undo_at k events)) as H. rewrite He, last_snoc, Hl in H. by injection H. }
    destruct Hf as [F1 F2 F3 F4]. pose proof (alternates_next T L e rest F4 F3 Haft) as Hn.
    rewrite <- Hx in Hn. unfold undo_ev in Hn; simpl in Hn.
    by destruct (ue_is_assert x), (state false (until T L)).
Qed.
End replay_facts.

(** ** The rows that stay and the records put in *)

Lemma build_membership_spec i rows m :
  NoDup (rec_key <$> rows) →
  (∀ j r, rows !! j = Some r → build_membership i rows m !! rec_key r = Some (v2_t r, (i + j)%nat))
  ∧ (∀ k, k ∉ rec_key <$> rows → build_membership i rows m !! k = m !! k).
Proof.
  revert i m. induction rows as [|r rows IH]; intros i m Hn; [done|]. csimpl in Hn.
  apply NoDup_cons in Hn as [Hr Hn]. cbn [build_membership].
  destruct (IH (S i) (<[rec_key r := (v2_t r, i)]> m) Hn) as [H1 H2]. split.
  - intros [|j] r' Hj; simpl in Hj.
    + injection Hj as <-. rewrite H2 by done. by rewrite lookup_insert_eq, Nat.add_0_r.
    + rewrite (H1 j r' Hj). do 2 f_equal. lia.
  - intros k Hk. csimpl in Hk. apply not_elem_of_cons in Hk as [Hne Hk].
    rewrite H2 by done. by rewrite lookup_insert_ne.
Qed.

Lemma sorted_NoDup order (l : list FactKeyV3) : StronglySorted (key_lt order) l → NoDup l.
Proof.
  induction 1 as [|k l Hs IH Hk]; constructor; [|done]. intros Hin.
  apply (proj1 (Forall_forall _ _) Hk) in Hin. by apply key_lt_irrefl in Hin.
Qed.

Lemma rows_at_lookup k rows j r :
  NoDup (rec_key <$> rows) → rows !! j = Some r → rec_key r = k → rows_at k rows = [r].
Proof.
  revert j. induction rows as [|x rows IH]; intros j Hn Hj Hk; [done|]. csimpl in Hn.
  apply NoDup_cons in Hn as [Hx Hn]. unfold rows_at. destruct j as [|j]; simpl in Hj.
  - injection Hj as ->. rewrite filter_cons_True by done. f_equal. apply list_filter_none, Forall_forall.
    intros y Hy Heq. apply Hx. apply list_elem_of_fmap. exists y. split; [congruence|done].
  - rewrite filter_cons_False; [by apply (IH j)|]. intros Heq. apply Hx. apply list_elem_of_fmap.
    exists r. split; [congruence|]. by eapply list_elem_of_lookup_2.
Qed.

Lemma rows_at_nil k rows : rows_at k rows = [] ↔ k ∉ rec_key <$> rows.
Proof.
  split.
  - intros Hnil (r & -> & Hr)%list_elem_of_fmap.
    assert (r ∈ rows_at (rec_key r) rows) as H by (by apply list_elem_of_filter).
    rewrite Hnil in H. by apply not_elem_of_nil in H.
  - intros Hk. apply list_filter_none, Forall_forall. intros r Hr Heq. apply Hk. apply list_elem_of_fmap.
    by exists r.
Qed.

(** The row of a fact with an event above the target is above it. *)
Lemma row_above k rows hist T L x :
  fact_log (rows_at k rows) (hist_at k hist) L → after T L ≠ [] →
  x ∈ row_ev <$> rows_at k rows → T < x.1.
Proof.
  intros [F1 _ _ F4] Haft Hx. rewrite F1 in Hx. unfold live in Hx.
  destruct (last L) as [l|] eqn:Hlast; [|by apply not_elem_of_nil in Hx].
  destruct (l.2 =? 1); [|by apply not_elem_of_nil in Hx].
  apply list_elem_of_singleton in Hx as ->. rewrite (log_split T L F4), last_app in Hlast.
  destruct (last (after T L)) as [l'|] eqn:Hl'; [|by apply last_None in Hl'].
  injection Hlast as ->. apply last_Some_elem_of in Hl'. by apply list_elem_of_filter in Hl' as [? _].
Qed.

(** The first entry found is the newest. *)
Lemma find_newest (P : HistEntryV2 → bool) hist src h :
  sorted_by newest_first hist → List.find P hist = Some src → h ∈ hist → P h = true →
  he_t h <= he_t src.
Proof.
  intros Hs Hf Hh HPh. induction Hs as [|x hist Hs IH Hx]; [by apply not_elem_of_nil in Hh|].
  simpl in Hf. destruct (P x) eqn:HPx.
  - injection Hf as ->. apply elem_of_cons in Hh as [->|Hh]; [lia|].
    pose proof (proj1 (Forall_forall _ _) Hx _ Hh) as Hc. unfold cmp_le, newest_first in Hc.
    destruct (Z.compare_spec (he_t h) (he_t src)); simpl in *; [lia|lia|done].
  - apply elem_of_cons in Hh as [->|Hh]; [congruence|]. by apply IH.
Qed.

(** The latest assertion of a fact up to the target is found. *)
Lemma find_base_assert_spec k rows hist T L e :
  sorted_by newest_first hist → fact_log (rows_at k rows) (hist_at k hist) L →
  after T L ≠ [] → live (until T L) = [e] →
  ∃ src, find_base_assert_at_target k hist T = Some src ∧ hist_key src = k ∧ hist_ev src = e.
Proof.
  intros Hs Hf Haft Hlive. pose proof Hf as [F1 F2 F3 F4].
  destruct (live_cases (until T L)) as [(e' & L' & HL' & He & Hl')|[_ Hl']]; [|congruence].
  rewrite Hlive in Hl'. injection Hl' as <-.
  assert (e ∈ until T L) as HeU by (rewrite HL'; apply elem_of_app; right; left).
  pose proof (proj1 (list_elem_of_filter _ _ _) HeU) as [HeT HeL].
  assert (∃ h, h ∈ hist_at k hist ∧ hist_ev h = e) as (h & Hh & Hhe).
  { rewrite <- F2 in HeL. apply elem_of_app in HeL as [H|H].
    - apply list_elem_of_fmap in H as (h & -> & Hh). by exists h.
    - apply (row_above k rows hist T L) in H; [lia|done|done]. }
  apply list_elem_of_filter in Hh as [Hhk Hh]. unfold find_base_assert_at_target.
  set (P := λ entry, (he_t entry <=? T) && (he_op entry =? 1) && bool_decide (hist_key entry = k)).
  assert (∀ x, P x = true ↔ he_t x <= T ∧ he_op x = 1 ∧ hist_key x = k) as HP.
  { intros x. unfold P. rewrite !andb_true_iff, Z.leb_le, Z.eqb_eq, bool_decide_eq_true. tauto. }
  assert (P h = true) as HPh by (apply HP; subst e; done).
  destruct (List.find P hist) as [src|] eqn:Hfind.
  2:{ pose proof (find_none _ _ Hfind h ltac:(by apply list_elem_of_In)). congruence. }
  exists src. split; [done|]. pose proof (find_some _ _ Hfind) as [Hin [HsT [Hsop Hsk]]%HP].
  apply list_elem_of_In in Hin. split; [done|].
  pose proof (find_newest P hist src h Hs Hfind Hh HPh) as Hge.
  assert (hist_ev src ∈ until T L) as HsU.
  { apply list_elem_of_filter. split; [done|]. rewrite <- F2. apply elem_of_app. left.
    apply list_elem_of_fmap. exists src. split; [done|]. by apply list_elem_of_filter. }
  assert (he_t src <= e.1) as Hle.
  { rewrite HL' in HsU. apply elem_of_app in HsU as [HsU|HsU].
    - assert (StronglySorted ev_lt (until T L)) as HsL by (by apply StronglySorted_filter).
      rewrite HL' in HsL. pose proof (StronglySorted_app_1_elem_of _ _ _ _ e HsL HsU ltac:(left)) as H.
      unfold ev_lt in H; simpl in H. lia.
    - apply list_elem_of_singleton in HsU. rewrite <- HsU. simpl. lia. }
  rewrite <- Hhe in Hle, He |- *. unfold hist_ev in *; simpl in *. f_equal; [lia|]. congruence.
Qed.

Lemma drain_base_filter excl ex bi rows :
  (∀ j r, rows !! j = Some r → bool_decide ((bi + j)%nat ∈ excl) = ex (rec_key r)) →
  drain_base excl bi rows = filter (λ r, ex (rec_key r) = false) rows.
Proof.
  revert bi. induction rows as [|r rows IH]; intros bi Hex; [done|]. cbn [drain_base].
  pose proof (Hex 0%nat r eq_refl) as H0. rewrite Nat.add_0_r in H0. rewrite H0.
  rewrite (IH (S bi)).
  2:{ intros j r' Hj. replace (S bi + j)%nat with (bi + S j)%nat by lia. by apply Hex. }
  destruct (ex (rec_key r)) eqn:E; [by rewrite filter_cons_False by congruence|by rewrite filter_cons_True].
Qed.

Lemma drain_base_above order excl bi rows k :
  Forall (key_lt order k) (rec_key <$> rows) → Forall (λ r, key_lt order k (rec_key r)) (drain_base excl bi rows).
Proof.
  rewrite Forall_fmap. intros Hr. revert bi. induction Hr as [|r rows Hr _ IH]; intros bi; simpl; [done|].
  case_bool_decide; [apply IH|]. constructor; [done|apply IH].
Qed.

Lemma drain_base_sorted order excl bi rows :
  StronglySorted (key_lt order) (rec_key <$> rows) →
  StronglySorted (key_lt order) (rec_key <$> drain_base excl bi rows).
Proof.
  revert bi. induction rows as [|r rows IH]; intros bi; [done|]. csimpl.
  intros [Hs Hr]%StronglySorted_inv. case_bool_decide; [by apply IH|]. csimpl.
  constructor; [by apply IH|]. apply Forall_fmap. by apply drain_base_above.
Qed.

Lemma drain_base_cons excl bi row rows :
  drain_base excl bi (row :: rows)
  = if bool_decide (bi ∈ excl) then drain_base excl (S bi) rows else row :: drain_base excl (S bi) rows.
Proof. done. Qed.

Lemma merge_includes_cons order excl bi row rows inc includes :
  merge_includes order excl bi (row :: rows) (inc :: includes)
  = if bool_decide (bi ∈ excl) then merge_includes order excl (S bi) rows (inc :: includes)
    else match key_cmp order (rec_key row) (rec_key inc) with
         | Lt => row :: merge_includes order excl (S bi) rows (inc :: includes)
         | Gt => inc :: merge_includes order excl bi (row :: rows) includes
         | Eq => inc :: merge_includes order excl (S bi) rows includes
         end.
Proof. rewrite <- cmp_v2_key. done. Qed.

(** The merge interleaves the rows that stay with the records, in order. *)
Lemma merge_includes_spec order excl bi rows includes :
  StronglySorted (key_lt order) (rec_key <$> rows) →
  StronglySorted (key_lt order) (rec_key <$> includes) →
  (∀ r i, r ∈ drain_base excl bi rows → i ∈ includes → rec_key r ≠ rec_key i) →
  merge_includes order excl bi rows includes ≡ₚ drain_base excl bi rows ++ includes
  ∧ StronglySorted (key_lt order) (rec_key <$> merge_includes order excl bi rows includes).
Proof.
  revert bi includes. induction rows as [|row rows IH]; intros bi includes Hr Hi Hdis; [done|].
  pose proof Hr as Hr0. csimpl in Hr. apply StronglySorted_inv in Hr as [Hr Hrow].
  induction includes as [|inc includes IHi].
  { rewrite app_nil_r. split; [done|]. by apply drain_base_sorted. }
  pose proof Hi as Hi0. csimpl in Hi. apply StronglySorted_inv in Hi as [Hi Hinc].
  rewrite merge_includes_cons. rewrite drain_base_cons in Hdis, IHi |- *.
  case_bool_decide as Hex; [by apply IH|]. destruct (key_cmp order (rec_key row) (rec_key inc)) eqn:Hc.
  - apply key_cmp_eq in Hc. exfalso. apply (Hdis row inc); [left|left|done].
  - destruct (IH (S bi) (inc :: includes) Hr Hi0) as [H1 H2].
    { intros r i Hr' Hi'. apply Hdis; [by right|done]. }
    split; [by rewrite H1|]. csimpl. constructor; [done|].
    apply Forall_fmap. rewrite H1. apply Forall_app. split.
    + by apply drain_base_above.
    + constructor; [done|]. rewrite Forall_fmap in Hinc. eapply Forall_impl; [exact Hinc|]. simpl.
      intros x Hx. by eapply key_lt_trans.
  - apply key_cmp_gt in Hc. destruct IHi as [H1 H2]; [done| |].
    { intros r i Hr' Hi'. apply Hdis; [done|by right]. }
    split; [rewrite H1; by rewrite Permutation_middle|]. csimpl. constructor; [done|].
    apply Forall_fmap. rewrite H1. simpl. constructor; [done|]. apply Forall_app. split; [|by rewrite Forall_fmap in Hinc].
    eapply Forall_impl; [by apply (drain_base_above order _ _ _ (rec_key row))|]. simpl. intros x Hx. by eapply key_lt_trans.
Qed.

(** What one fact contributes: its row is left out, and its assertion at the
    target put in. *)
Lemma derive_spec k st rows hist T L :
  NoDup (rec_key <$> rows) → sorted_by newest_first hist →
  fact_log (rows_at k rows) (hist_at k hist) L → after T L ≠ [] →
  fs_present st = state false (until T L) →
  let d := derive (build_membership 0 rows ∅) hist T (k, st) in
  (∀ j, j ∈ d.1 ↔ ∃ r, rows !! j = Some r ∧ rec_key r = k)
  ∧ row_ev <$> d.2 = live (until T L) ∧ Forall (λ r, rec_key r = k) d.2.
Proof.
  intros Hn Hs Hf Haft Hst. destruct (build_membership_spec 0 rows ∅ Hn) as [M1 M2].
  assert (Hinc : fs_present st = true →
    row_ev <$> include_of k st hist T = live (until T L) ∧ Forall (λ r, rec_key r = k) (include_of k st hist T)).
  { intros Hp. rewrite Hp in Hst.
    destruct (live_cases (until T L)) as [(e & L' & _ & He & Hlive)|[Hfalse _]]; [|congruence].
    destruct (find_base_assert_spec k rows hist T L e Hs Hf Haft Hlive) as (src & Hsrc & Hk & Hev).
    unfold include_of. rewrite Hsrc, Hlive. split; [|by repeat constructor].
    csimpl. f_equal. rewrite <- Hev in He |- *. unfold row_ev, hist_ev in *; simpl in *. by rewrite He. }
  assert (fs_present st = false → live (until T L) = []) as Hno.
  { intros Hp. rewrite Hp in Hst.
    destruct (live_cases (until T L)) as [(e & L' & HL' & He & _)|[_ Hlive]]; [|done].
    rewrite HL', state_snoc, He in Hst. done. }
  unfold derive. destruct (rows_at k rows) as [|r rest] eqn:Hrows.
  - rewrite (M2 k), lookup_empty by (by apply rows_at_nil).
    assert (∀ j, ¬ ∃ r, rows !! j = Some r ∧ rec_key r = k) as Hnone.
    { intros j (r & Hj & Hk). by rewrite (rows_at_lookup k rows j r) in Hrows. }
    destruct (fs_present st); simpl; (split; [intros j; split; [by intros ?%not_elem_of_nil|by intros ?%Hnone]|]).
    + by apply Hinc.
    + rewrite Hno by done. by split.
  - assert (r ∈ rows_at k rows) as [Hk Hin]%list_elem_of_filter by (rewrite Hrows; left).
    apply list_elem_of_lookup_1 in Hin as [j Hj]. subst k. rewrite (M1 j r Hj). simpl.
    assert (∀ j', j' ∈ [j] ↔ ∃ r', rows !! j' = Some r' ∧ rec_key r' = rec_key r) as Hex.
    { intros j'. rewrite list_elem_of_singleton. split; [by intros ->; exists r|].
      intros (r' & Hj' & Hk'). apply (NoDup_lookup (rec_key <$> rows) j' j (rec_key r) Hn);
        rewrite list_lookup_fmap; [rewrite Hj'; simpl; by f_equal|by rewrite Hj]. }
    assert (T < v2_t r) as Habove.
    { apply (row_above (rec_key r) rows hist T L (row_ev r)); [by rewrite Hrows|done|].
      rewrite Hrows. csimpl. left. }
    destruct (fs_present st); simpl.
    + rewrite (proj2 (Z.ltb_lt _ _) Habove). simpl. split; [done|]. by apply Hinc.
    + rewrite Hno by done. by split.
Qed.

Lemma concat_at {A} (f : FactKeyV3 * A → list RunRecordV2) (l : list (FactKeyV3 * A)) k :
  NoDup l.*1 → Forall (λ x, Forall (λ r, rec_key r = x.1) (f x)) l →
  (∀ x, x ∈ l → x.1 = k → rows_at k (concat (f <$> l)) = f x)
  ∧ (k ∉ l.*1 → rows_at k (concat (f <$> l)) = []).
Proof.
  intros Hn Hf. induction Hf as [|y l Hy Hf IH]; [split; [by intros x ?%not_elem_of_nil|done]|].
  csimpl in *. apply NoDup_cons in Hn as [Hny Hn]. destruct (IH Hn) as [IH1 IH2]. rewrite rows_at_app.
  assert (y.1 ≠ k → rows_at k (f y) = []) as Hne.
  { intros Hk. apply list_filter_none. eapply Forall_impl; [exact Hy|]. simpl. congruence. }
  split.
  - intros x [->|Hx]%elem_of_cons Hk.
    + rewrite IH2 by (by rewrite <- Hk). rewrite app_nil_r. apply list_filter_id. by rewrite <- Hk.
    + rewrite Hne, (IH1 x Hx Hk); [done|]. intros Hyk. apply Hny. rewrite Hyk, <- Hk.
      apply list_elem_of_fmap. by exists x.
  - intros Hk. apply not_elem_of_cons in Hk as [Hk1 Hk2]. by rewrite Hne, IH2.
Qed.

Lemma elem_of_dedup_indices l x : x ∈ dedup_indices l ↔ x ∈ l.
Proof.
  induction l as [|a l IH]; [done|]. destruct l as [|b l]; [done|]. cbn [dedup_indices].
  destruct (Nat.eqb_spec a b) as [->|Hne].
  - rewrite IH, !elem_of_cons. tauto.
  - rewrite elem_of_cons, IH, !elem_of_cons. tauto.
Qed.

Lemma rows_sorted_strict order (l : list RunRecordV2) :
  sorted_by (cmp_v2_for_order order) l → (∀ k, (length (rows_at k l) <= 1)%nat) →
  StronglySorted (key_lt order) (rec_key <$> l).
Proof.
  intros Hs Hu.
  assert (okey <$> ((λ r, (r, 0)) <$> l) = rec_key <$> l) as <- by (by rewrite <- list_fmap_compose).
  apply sorted_strict.
  - apply (StronglySorted_fmap (λ r : RunRecordV2, (r, 0)) (cmp_le (cmp_v2_for_order order))); [|done].
    by intros x y.
  - intros k. specialize (Hu k).
    assert (at_key k ((λ r, (r, 0)) <$> l) = (λ r, (r, 0)) <$> rows_at k l) as ->.
    { clear. induction l as [|r l IH]; [done|]. unfold at_key, rows_at in *. csimpl. rewrite !filter_cons.
      change (okey (r, 0)) with (rec_key r). case_decide; [|done]. csimpl. by rewrite IH. }
    by rewrite length_fmap.
Qed.

Section replay_exact.
Context `{SO : Sorting} `{HDr : HashDrain}.

(** The records put in, and the places left out, of all facts undone. *)
Lemma derived_spec order rows hist E T :
  leaflet_log order rows hist E → sorted_by newest_first hist →
  let events := sort_unstable_by false undo_cmp (history_events T hist ++ row_events T rows) in
  let membership := build_membership 0 rows ∅ in
  let fact_states : gmap FactKeyV3 FactState := foldl (apply_undo membership) ∅ events in
  let derived := derive membership hist T <$> drain (map_to_list fact_states) in
  (∀ j r, rows !! j = Some r → j ∈ concat derived.*1 ↔ is_Some (fact_states !! rec_key r))
  ∧ ∀ k L, fact_log (rows_at k rows) (hist_at k hist) L →
      Forall (λ r, rec_key r = k) (rows_at k (concat derived.*2))
      ∧ match after T L with
        | [] => fact_states !! k = None ∧ rows_at k (concat derived.*2) = []
        | _ => is_Some (fact_states !! k) ∧ row_ev <$> rows_at k (concat derived.*2) = live (until T L)
        end.
Proof.
  intros [Hrows Hfacts] Hs events membership fact_states derived.
  assert (NoDup (rec_key <$> rows)) as Hn by (by eapply sorted_NoDup).
  set (l := drain (map_to_list fact_states)).
  assert (∀ k st, (k, st) ∈ l ↔ fact_states !! k = Some st) as Hl.
  { intros k st. unfold l. rewrite drain_perm. apply elem_of_map_to_list. }
  assert (NoDup l.*1) as Hnl.
  { unfold l. rewrite drain_perm. apply NoDup_fst_map_to_list. }
  assert (∀ k st, fact_states !! k = Some st →
    (∀ j, j ∈ (derive membership hist T (k, st)).1 ↔ ∃ r, rows !! j = Some r ∧ rec_key r = k)
    ∧ Forall (λ r, rec_key r = k) (derive membership hist T (k, st)).2
    ∧ ∀ L, fact_log (rows_at k rows) (hist_at k hist) L →
        after T L ≠ [] ∧ row_ev <$> (derive membership hist T (k, st)).2 = live (until T L)) as Hd.
  { intros k st Hst.
    assert (∀ L, fact_log (rows_at k rows) (hist_at k hist) L →
      after T L ≠ [] ∧ fs_present st = state false (until T L)) as HL.
    { intros L HL. pose proof (undone_state T k rows hist L membership Hs HL) as Hu. simpl in Hu.
      fold events in Hu. fold fact_states in Hu. rewrite Hst in Hu. destruct (after T L); [done|].
      destruct Hu as (st' & [= <-] & Hp). by split. }
    split; [|split].
    - destruct (Hfacts k) as (L & HLk & _). destruct (HL L HLk) as [Ha Hp].
      by apply (derive_spec k st rows hist T L).
    - destruct (Hfacts k) as (L & HLk & _). destruct (HL L HLk) as [Ha Hp].
      by apply (derive_spec k st rows hist T L).
    - intros L HLk. destruct (HL L HLk) as [Ha Hp]. split; [done|].
      by apply (derive_spec k st rows hist T L). }
  assert (Forall (λ x, Forall (λ r, rec_key r = x.1) (derive membership hist T x).2) l) as Hkeys.
  { apply Forall_forall. intros [k st] Hin%Hl. by apply Hd. }
  assert (derived.*2 = (λ x, (derive membership hist T x).2) <$> l) as E2
    by (unfold derived; by rewrite <- list_fmap_compose).
  assert (derived.*1 = (λ x, (derive membership hist T x).1) <$> l) as E1
    by (unfold derived; by rewrite <- list_fmap_compose).
  split.
  - intros j r Hj. rewrite E1, list_elem_of_In, in_concat. setoid_rewrite <- list_elem_of_In.
    setoid_rewrite list_elem_of_fmap. split.
    + intros (js & ([k st] & -> & Hin%Hl) & Hjs). apply (Hd k st Hin) in Hjs as (r' & Hj' & <-).
      rewrite Hj in Hj'. injection Hj' as <-. by exists st.
    + intros [st Hst]. eexists. split; [exists (rec_key r, st); split; [done|by apply Hl]|].
      apply (Hd _ _ Hst). by exists r.
  - intros k L HLk. rewrite E2.
    destruct (concat_at (λ x, (derive membership hist T x).2) l k Hnl Hkeys) as [C1 C2].
    split; [apply Forall_forall; by intros r [? _]%list_elem_of_filter|].
    pose proof (undone_state T k rows hist L membership Hs HLk) as Hu. simpl in Hu.
    fold events in Hu. fold fact_states in Hu. destruct (after T L) eqn:Ha.
    + split; [done|]. apply C2. intros ([k' st] & -> & Hin%Hl)%list_elem_of_fmap. simpl in *. congruence.
    + destruct Hu as (st & Hst & _). split; [by exists st|].
      rewrite (C1 (k, st)); [|by apply Hl|done]. by apply (Hd k st Hst).
Qed.

(** No event above the target: the leaflet stands. *)
Lemma nothing_after T rows hist k L :
  sorted_by newest_first hist → fact_log (rows_at k rows) (hist_at k hist) L →
  history_events T hist ++ row_events T rows = [] → until T L = L.
Proof.
  intros Hs Hf Hnil. pose proof (undo_events_at T k rows hist L Hs Hf) as He. rewrite Hnil in He.
  assert (sort_unstable_by false undo_cmp [] = []) as Hsort by (apply Permutation_nil_r, sort_perm).
  rewrite Hsort in He. simpl in He. symmetry in He. apply (f_equal reverse) in He.
  rewrite reverse_involutive in He. destruct Hf as [_ _ _ F4].
  rewrite (log_split T L F4) at 2. change (reverse (@nil Ev)) with (@nil Ev) in He. by rewrite He, app_nil_r.
Qed.

(** The merged rows, fact by fact. *)
Lemma merged_includes_rows order rows hist E T :
  leaflet_log order rows hist E → sorted_by newest_first hist →
  let events := sort_unstable_by false undo_cmp (history_events T hist ++ row_events T rows) in
  let membership := build_membership 0 rows ∅ in
  let fact_states : gmap FactKeyV3 FactState := foldl (apply_undo membership) ∅ events in
  let derived := derive membership hist T <$> drain (map_to_list fact_states) in
  let out := merge_includes order
    (list_to_set (dedup_indices (sort_unstable_by false Nat.compare (concat derived.*1)))) 0 rows
    (sort_unstable_by false (cmp_v2_for_order order) (concat derived.*2)) in
  StronglySorted (key_lt order) (rec_key <$> out)
  ∧ ∀ k L, fact_log (rows_at k rows) (hist_at k hist) L → row_ev <$> rows_at k out = live (until T L).
Proof.
  intros Hlog Hs events membership fact_states derived.
  destruct (derived_spec order rows hist E T Hlog Hs) as [Hex Hinc].
  fold events membership fact_states derived in Hex, Hinc. destruct Hlog as [Hrows Hfacts].
  set (excl := list_to_set _). set (includes := sort_unstable_by false (cmp_v2_for_order order) _).
  assert (includes ≡ₚ concat derived.*2) as Hip by apply sort_perm.
  set (ex := λ k : FactKeyV3, bool_decide (is_Some (fact_states !! k))).
  assert (drain_base excl 0 rows = filter (λ r, ex (rec_key r) = false) rows) as Hdrain.
  { apply drain_base_filter. intros j r Hj. unfold ex. apply bool_decide_ext. rewrite <- (Hex j r Hj).
    unfold excl. rewrite elem_of_list_to_set, elem_of_dedup_indices, sort_perm. done. }
  assert (∀ k, (length (rows_at k includes) <= 1)%nat ∧ (rows_at k includes ≠ [] → ex k = true)) as Hincl.
  { intros k. destruct (Hfacts k) as (L & HL & _). destruct (Hinc k L HL) as [_ Hk].
    assert (rows_at k includes ≡ₚ rows_at k (concat derived.*2)) as Hpk by (by rewrite Hip).
    rewrite (Permutation_length Hpk).
    destruct (after T L); destruct Hk as [Hst Hk].
    - rewrite Hk in Hpk |- *. apply Permutation_nil_r in Hpk. rewrite Hpk. split; [simpl; lia|done].
    - split; [|intros _; unfold ex; by apply bool_decide_eq_true].
      rewrite <- (length_fmap row_ev), Hk. destruct (live_cases (until T L)) as [(x & _ & _ & _ & ->)|[_ ->]]; simpl; lia. }
  destruct (merge_includes_spec order excl 0 rows includes) as [Hperm Hsorted]; [done|..].
  { apply rows_sorted_strict; [|apply Hincl]. apply (sort_sorted false (λ _, True)); [apply _|by apply Forall_true]. }
  { intros r i Hr Hi Heq. rewrite Hdrain in Hr. apply list_elem_of_filter in Hr as [Hr _].
    assert (rows_at (rec_key i) includes ≠ []) as Hne.
    { intros Hnil. assert (i ∈ rows_at (rec_key i) includes) as H by (by apply list_elem_of_filter).
      rewrite Hnil in H. by apply not_elem_of_nil in H. }
    apply Hincl in Hne. congruence. }
  split; [done|]. intros k L HL. destruct (Hinc k L HL) as [_ Hk].
  assert (rows_at k (merge_includes order excl 0 rows includes)
    ≡ₚ rows_at k (filter (λ r, ex (rec_key r) = false) rows) ++ rows_at k (concat derived.*2)) as Hpk.
  { by rewrite Hperm, Hdrain, rows_at_app, Hip. }
  assert (rows_at k (filter (λ r, ex (rec_key r) = false) rows) = if ex k then [] else rows_at k rows) as Hkept.
  { unfold rows_at. rewrite list_filter_filter. destruct (ex k) eqn:Ek.
    - apply list_filter_none, Forall_forall. intros r _ [H1 H2]. subst k. congruence.
    - apply filter_iff_in. intros r _. split; [by intros [? _]|]. intros <-. done. }
  rewrite Hkept in Hpk. destruct HL as [F1 F2 F3 F4].
  assert (row_ev <$> rows_at k (merge_includes order excl 0 rows includes) ≡ₚ live (until T L)) as Hfin.
  { rewrite Hpk. destruct (after T L) eqn:Ha; destruct Hk as [Hst Hk].
    - assert (ex k = false) as -> by (unfold ex; rewrite Hst; by apply bool_decide_eq_false; intros [? ?]).
      rewrite Hk, app_nil_r, F1. rewrite (log_split T L F4) at 1. by rewrite Ha, app_nil_r.
    - assert (ex k = true) as -> by (unfold ex; by apply bool_decide_eq_true). simpl. by rewrite Hk. }
  destruct (live_cases (until T L)) as [(e & _ & _ & _ & Hlive)|[_ Hlive]]; rewrite Hlive in Hfin |- *.
  - by apply Permutation_singleton_r in Hfin.
  - by apply Permutation_nil_r in Hfin.
Qed.

(** The replayed rows are in order, and those of a fact are its assertion at
    the target. *)
Lemma replay_leaflet_log order batch rows hist E T :
  column_batch_to_records batch = Some rows → leaflet_log order rows hist E →
  sorted_by newest_first hist →
  ∃ res out, replay_leaflet batch hist T order = Some res
    ∧ column_batch_to_records (default batch res) = Some out
    ∧ StronglySorted (key_lt order) (rec_key <$> out)
    ∧ ∀ k L, fact_log (rows_at k rows) (hist_at k hist) L → Forall (λ e, 0 <= e.1 <= u32_max) L →
        row_ev <$> rows_at k out = live (until T L).
Proof.
  intros Hb Hlog Hs. unfold replay_leaflet.
  destruct (Z.ltb_spec u32_max T) as [Hmax|Hmax].
  { exists None, rows. split; [done|]. split; [done|]. split; [apply Hlog|]. intros k L [F1 _ _ _] Ht.
    rewrite F1, until_all; [done|]. eapply Forall_impl; [exact Ht|]. simpl. lia. }
  destruct (Z.ltb_spec T 0) as [Hneg|Hneg].
  { exists (Some empty_batch), []. split; [done|]. split; [done|]. split; [constructor|].
    intros k L _ Ht. rewrite until_none; [done|]. eapply Forall_impl; [exact Ht|]. simpl. lia. }
  rewrite Hb. cbn [mbind option_bind]. cbv zeta.
  destruct (history_events T hist ++ row_events T rows) as [|e events] eqn:He.
  - exists None, rows. split; [done|]. split; [done|]. split; [apply Hlog|]. intros k L HL _.
    rewrite (nothing_after T rows hist k L Hs HL He). apply HL.
  - rewrite <- He. eexists (Some _), _. split; [done|]. split; [apply records_batch_records|].
    destruct (merged_includes_rows order rows hist E T Hlog Hs) as [H1 H2].
    split; [by rewrite <- list_fmap_compose|]. intros k L HL _.
    rewrite rows_at_without_graph, <- list_fmap_compose. by apply H2.
Qed.
End replay_exact.
