(* ===== verification/IndexLeaf.v ===== *)
(** * Leaves
    ([fluree-db-binary-index/src/format/leaflet.rs], [leaf.rs],
    [fluree-db-binary-index/src/read/column_loader.rs], [binary_cursor.rs],
    [fluree-db-indexer/src/run_index/build/incremental_leaf.rs],
    [fluree-db-indexer/src/build/incremental.rs])

    A leaf is a sequence of leaflets with the sidecar of their histories.  An
    update routes a window's streams to the leaflets, merges them, and splits
    and groups what comes out; a scan reads the leaflets one by one.  The
    column blocks of a leaflet are kept as the vectors they compress, and a
    leaf as its decoded directory. *)

From S2P Require Import Prelude Vocab Ordering IndexFormat IndexDedup IndexMerge.
From S2P Require Import Accumulator IndexReplay.
#[local] Open Scope Z_scope.

(** ** Encoding a leaflet ([leaflet.rs]) *)

Inductive ColumnId := SId | PId | OType | OKey | OI | T.

#[export] Instance ColumnId_eq_dec : EqDecision ColumnId.
Proof. solve_decision. Defined.

Definition HAS_O_I : Z := 1.
Definition HAS_O_TYPE_COL : Z := 2.

Record EncodedLeaflet := {
  el_row_count : nat;
  el_lead_group_count : nat;
  el_first_key : list Z;
  el_last_key : list Z;
  el_p_const : option Z;
  el_o_type_const : option Z;
  el_flags : Z;
  el_columns : list (ColumnId * list Z);
}.

(** Whether two records differ in the columns an order counts groups by. *)
Definition new_group (order : RunSortOrder) (prev rec : RunRecordV2) : bool :=
  match order with
  | Post | Opst => negb (v2_o_type rec =? v2_o_type prev) || negb (v2_o_key rec =? v2_o_key prev)
  | Psot | Spot => negb (v2_s_id rec =? v2_s_id prev)
  end.

Fixpoint count_groups (order : RunSortOrder) (prev : RunRecordV2) (records : list RunRecordV2) : nat :=
  match records with
  | [] => 0
  | rec :: records => (if new_group order prev rec then 1 else 0) + count_groups order rec records
  end.

Definition compute_lead_group_count (records : list RunRecordV2) (order : RunSortOrder) : nat :=
  match records with [] => 0 | first :: records => 1 + count_groups order first records end.

(** [None] is the error on an empty leaflet. *)
Definition encode_leaflet (records : list RunRecordV2) (order : RunSortOrder) : option EncodedLeaflet :=
  match records with
  | [] => None
  | first :: _ =>
      let p_const := match order with Post | Psot => Some (v2_p_id first) | _ => None end in
      let o_type_const :=
        match order with
        | Opst => Some (v2_o_type first)
        | Post | Psot =>
            if forallb (λ r, v2_o_type r =? v2_o_type first) records then Some (v2_o_type first) else None
        | Spot => None
        end in
      let has_o_i := existsb (λ r, negb (v2_o_i r =? LIST_INDEX_NONE)) records in
      let fl := Z.lor (if has_o_i then HAS_O_I else 0)
                      (match o_type_const with None => HAS_O_TYPE_COL | Some _ => 0 end) in
      let s_ids := (SId, v2_s_id <$> records) in
      let o_keys := (OKey, v2_o_key <$> records) in
      let t_vals := (T, v2_t <$> records) in
      let p_ids := (PId, v2_p_id <$> records) in
      let o_types := match o_type_const with None => [(OType, v2_o_type <$> records)] | Some _ => [] end in
      let columns :=
        match order with
        | Post => o_types ++ [o_keys; s_ids; t_vals]
        | Psot => [s_ids] ++ o_types ++ [o_keys; t_vals]
        | Spot => [s_ids; p_ids] ++ o_types ++ [o_keys; t_vals]
        | Opst => [o_keys; p_ids; s_ids; t_vals]
        end ++ (if has_o_i then [(OI, v2_o_i <$> records)] else []) in
      Some {| el_row_count := length records;
              el_lead_group_count := compute_lead_group_count records order;
              el_first_key := write_ordered_key_v2 order first;
              el_last_key := write_ordered_key_v2 order (List.last records first);
              el_p_const := p_const;
              el_o_type_const := o_type_const;
              el_flags := fl;
              el_columns := columns |}
  end.

(** ** Reading its columns back ([column_loader.rs], every column) *)

(** [None] is the error of a missing block or of one with another number of
    rows. *)
Definition decode_column (entry : EncodedLeaflet) (col_id : ColumnId) : option (list Z) :=
  block ← List.find (λ c, bool_decide (c.1 = col_id)) (el_columns entry);
  if (length block.2 =? el_row_count entry)%nat then Some block.2 else None.

Definition load_leaflet_columns (entry : EncodedLeaflet) : option ColumnBatch :=
  s_id ← decode_column entry SId;
  o_key ← decode_column entry OKey;
  p_id ← match el_p_const entry with
         | Some p => Some (Const p)
         | None => Block <$> decode_column entry PId
         end;
  o_type ← match el_o_type_const entry with
           | Some ot => Some (Const ot)
           | None => if Z.testbit (el_flags entry) 1 then Block <$> decode_column entry OType else None
           end;
  o_i ← (if Z.testbit (el_flags entry) 0 then Block <$> decode_column entry OI
         else Some (Const LIST_INDEX_NONE));
  t ← decode_column entry T;
  Some {| row_count := el_row_count entry; cb_s_id := Block s_id; cb_o_key := Block o_key;
          cb_p_id := p_id; cb_o_type := o_type; cb_o_i := o_i; cb_t := Block t |}.

(** ** Leaves ([leaf.rs])

    A directory entry: the leaflet and the segment of its history, all zero
    when the leaf has no sidecar. *)
Record LeafletDirEntryV3 := {
  de_leaflet : EncodedLeaflet;
  de_history : HistorySegmentRef;
}.

Record Leaf := {
  lf_first_key : list Z;
  lf_last_key : list Z;
  lf_entries : list LeafletDirEntryV3;
  lf_sidecar : option (list Z);
}.

Definition no_history : HistorySegmentRef := {| sr_offset := 0; sr_len := 0; sr_min_t := 0; sr_max_t := 0 |}.

Definition total_rows (leaf : Leaf) : nat := sum_list (el_row_count ∘ de_leaflet <$> lf_entries leaf).

(** The rows of a leaflet, one emptied by retractions having no blocks. *)
Definition leaflet_columns (leaflet : EncodedLeaflet) : option ColumnBatch :=
  if (el_row_count leaflet =? 0)%nat then Some empty_batch else load_leaflet_columns leaflet.

Definition leaflet_batch (entry : LeafletDirEntryV3) : option ColumnBatch :=
  leaflet_columns (de_leaflet entry).

(** ** Updating a leaf ([incremental_leaf.rs]) *)

Record ProcessedLeafletV3 := {
  pl_encoded : EncodedLeaflet;
  pl_history : list HistEntryV2;
}.

(** [None] is the error when there is history and no sidecar, or none that can
    be decoded. *)
Definition load_existing_history (entry : LeafletDirEntryV3) (sidecar_bytes : option (list Z)) :
    option (list HistEntryV2) :=
  if sr_len (de_history entry) =? 0 then Some []
  else sb ← sidecar_bytes; decode_history_segment sb (de_history entry).

(** A stream cut at the leaflets' first keys, but for the first leaflet's. *)
Fixpoint slice_at (order : RunSortOrder) (boundaries : list (list Z)) (stream : list (RunRecordV2 * Z)) :
    list (list (RunRecordV2 * Z)) :=
  match boundaries with
  | [] => [stream]
  | next_boundary :: boundaries =>
      let split_pos :=
        partition_point (λ r, match cmp_ordered_key_v2 (write_ordered_key_v2 order r.1) next_boundary with
                              | Lt => true | _ => false end) stream in
      take split_pos stream :: slice_at order boundaries (drop split_pos stream)
  end.

Definition slice_novelty_to_leaflets (order : RunSortOrder) (entries : list LeafletDirEntryV3)
    (stream : list (RunRecordV2 * Z)) : list (list (RunRecordV2 * Z)) :=
  match entries with
  | [] => []
  | _ :: rest => slice_at order (el_first_key ∘ de_leaflet <$> rest) stream
  end.

(** The key of a history entry in an order. *)
Definition history_record (entry : HistEntryV2) : RunRecordV2 := hist_entry_to_record entry.

Fixpoint widen_leaflet_keys_over_history (encoded : EncodedLeaflet) (history : list HistEntryV2)
    (order : RunSortOrder) : EncodedLeaflet :=
  match history with
  | [] => encoded
  | entry :: history =>
      let key := write_ordered_key_v2 order (history_record entry) in
      widen_leaflet_keys_over_history
        {| el_row_count := el_row_count encoded;
           el_lead_group_count := el_lead_group_count encoded;
           el_first_key := match cmp_ordered_key_v2 key (el_first_key encoded) with
                           | Lt => key | _ => el_first_key encoded end;
           el_last_key := match cmp_ordered_key_v2 key (el_last_key encoded) with
                          | Gt => key | _ => el_last_key encoded end;
           el_p_const := el_p_const encoded;
           el_o_type_const := el_o_type_const encoded;
           el_flags := el_flags encoded;
           el_columns := el_columns encoded |} history order
  end.

(** Whether a record is in the segment of another. *)
Definition same_segment (order : RunSortOrder) (first rec : RunRecordV2) : bool :=
  match order with
  | Post | Psot => v2_p_id rec =? v2_p_id first
  | Opst => v2_o_type rec =? v2_o_type first
  | Spot => true
  end.

Fixpoint find_segment_end (order : RunSortOrder) (first : RunRecordV2) (records : list RunRecordV2) : nat :=
  match records with
  | [] => 0
  | rec :: records => if same_segment order first rec then S (find_segment_end order first records) else 0
  end.

(** Fuel is the number of records. *)
Fixpoint split_segments (fuel : nat) (records : list RunRecordV2) (order : RunSortOrder) (target_rows : nat) :
    list (list RunRecordV2) :=
  match fuel, records with
  | S fuel, first :: _ =>
      let seg_end := find_segment_end order first records in
      chunks target_rows (take seg_end records)
      ++ split_segments fuel (drop seg_end records) order target_rows
  | _, _ => []
  end.

Definition split_by_segmentation_and_size (records : list RunRecordV2) (order : RunSortOrder)
    (target_rows : nat) : list (list RunRecordV2) :=
  split_segments (length records) records order target_rows.

(** The chunk of a history entry: the number of boundaries not above it. *)
Definition chunk_of (order : RunSortOrder) (boundaries : list RunRecordV2) (entry : HistEntryV2) : nat :=
  partition_point (λ boundary, match cmp_v2_for_order order (history_record entry) boundary with
                               | Lt => false | _ => true end) boundaries.

Definition partition_history_to_chunks (chunks : list (list RunRecordV2)) (history : list HistEntryV2)
    (order : RunSortOrder) : list (list HistEntryV2) :=
  let boundaries := omap head (tail chunks) in
  (λ i, filter (λ entry, chunk_of order boundaries entry = i) history) <$> seq 0 (length chunks).

Definition empty_encoded_leaflet_with_keys (entry : LeafletDirEntryV3) : EncodedLeaflet :=
  {| el_row_count := 0; el_lead_group_count := 0;
     el_first_key := el_first_key (de_leaflet entry);
     el_last_key := el_last_key (de_leaflet entry);
     el_p_const := el_p_const (de_leaflet entry);
     el_o_type_const := el_o_type_const (de_leaflet entry);
     el_flags := 0; el_columns := [] |}.

(** An encoded chunk with its history. *)
Definition encode_chunk (order : RunSortOrder) (chunk : list RunRecordV2) (history : list HistEntryV2) :
    option ProcessedLeafletV3 :=
  encoded ← encode_leaflet chunk order;
  Some {| pl_encoded := widen_leaflet_keys_over_history encoded history order; pl_history := history |}.

Record LeafUpdateInput := {
  lu_leaf : Leaf;
  lu_novelty : list (RunRecordV2 * Z);
  lu_superseded : list (RunRecordV2 * Z);
  lu_order : RunSortOrder;
  lu_leaflet_target_rows : nat;
  lu_leaf_target_rows : nat;
}.

Record LeafUpdateOutput := {
  lo_leaves : list Leaf;
  lo_matched : list RunRecordV2;
}.

(** Leaves of at least the target number of rows, in order. *)
Fixpoint group_leaflets (target : nat) (group : list ProcessedLeafletV3) (rows : nat)
    (leaflets : list ProcessedLeafletV3) : list (list ProcessedLeafletV3) :=
  match leaflets with
  | [] => match group with [] => [] | _ => [group] end
  | item :: leaflets =>
      let rows := (rows + el_row_count (pl_encoded item))%nat in
      if (target <=? rows)%nat then (group ++ [item]) :: group_leaflets target [] 0 leaflets
      else group_leaflets target (group ++ [item]) rows leaflets
  end.

Section update.
Context `{SO : Sorting}.

Definition passthrough_leaflet (entry : LeafletDirEntryV3) (sidecar_bytes : option (list Z)) :
    option ProcessedLeafletV3 :=
  history ← load_existing_history entry sidecar_bytes;
  Some {| pl_encoded := de_leaflet entry; pl_history := history |}.

Definition merge_and_encode_leaflet (input : LeafUpdateInput) (entry : LeafletDirEntryV3)
    (novelty superseded : list (RunRecordV2 * Z)) : option (list ProcessedLeafletV3 * list RunRecordV2) :=
  batch ← leaflet_batch entry;
  existing_history ← load_existing_history entry (lf_sidecar (lu_leaf input));
  let order := lu_order input in
  merged ← merge_novelty {| mi_batch := batch; mi_existing_history := existing_history;
                            mi_novelty := novelty; mi_superseded := superseded; mi_order := order |};
  let history := mo_history merged in
  match mo_records merged with
  | [] => Some ([{| pl_encoded := empty_encoded_leaflet_with_keys entry; pl_history := history |}],
                mo_matched merged)
  | records =>
      let chunks := split_by_segmentation_and_size records order (lu_leaflet_target_rows input) in
      let histories :=
        match chunks with [_] => [history] | _ => partition_history_to_chunks chunks history order end in
      result ← mapM (λ ch, encode_chunk order ch.1 ch.2) (zip chunks histories);
      Some (result, mo_matched merged)
  end.

(** One leaflet with its slices. *)
Definition process_leaflet (input : LeafUpdateInput)
    (x : LeafletDirEntryV3 * (list (RunRecordV2 * Z) * list (RunRecordV2 * Z))) :
    option (list ProcessedLeafletV3 * list RunRecordV2) :=
  let '(entry, (novelty, superseded)) := x in
  match novelty with
  | [] => p ← passthrough_leaflet entry (lf_sidecar (lu_leaf input)); Some ([p], [])
  | _ => merge_and_encode_leaflet input entry novelty superseded
  end.

(** A leaf of some leaflets, with a sidecar when one of them has history. *)
Definition build_leaf_from_group (group : list ProcessedLeafletV3) : Leaf :=
  let sidecar_builder : HistSidecarBuilder :=
    foldl (λ b p, foldl push_entry (start_leaflet b) (pl_history p)) sidecar_new group in
  let '(sidecar_bytes, seg_refs) :=
    if has_history sidecar_builder
    then let '(bytes, refs) := build sidecar_builder in (Some bytes, refs)
    else (None, []) in
  {| lf_first_key := from_option (el_first_key ∘ pl_encoded) (replicate 26 0) (head group);
     lf_last_key := from_option (el_last_key ∘ pl_encoded) (replicate 26 0) (last group);
     lf_entries := imap (λ i p, {| de_leaflet := pl_encoded p;
                                   de_history := default no_history (seg_refs !! i) |}) group;
     lf_sidecar := sidecar_bytes |}.

Definition assemble_output_leaves (processed : list ProcessedLeafletV3) (input : LeafUpdateInput) : list Leaf :=
  build_leaf_from_group <$> group_leaflets (lu_leaf_target_rows input) [] 0 processed.

Definition update_leaf (input : LeafUpdateInput) : option LeafUpdateOutput :=
  match lu_novelty input with
  | [] => Some {| lo_leaves := [lu_leaf input]; lo_matched := [] |}
  | _ =>
      let entries := lf_entries (lu_leaf input) in
      let novelty := slice_novelty_to_leaflets (lu_order input) entries (lu_novelty input) in
      let superseded := slice_novelty_to_leaflets (lu_order input) entries (lu_superseded input) in
      results ← mapM (process_leaflet input) (zip entries (zip novelty superseded));
      Some {| lo_leaves := assemble_output_leaves (concat results.*1) input;
              lo_matched := concat results.*2 |}
  end.
End update.

(** ** What is written is read *)

Definition homogeneous (order : RunSortOrder) (records : list RunRecordV2) : Prop :=
  ∀ a b, a ∈ records → b ∈ records → same_segment order a b = true.

(** Columns that hold the fields of some records are read as those records. *)
Lemma batch_reads records batch :
  row_count batch = length records →
  (∀ i r, records !! i = Some r →
     column_get (cb_s_id batch) i = Some (v2_s_id r) ∧ column_get (cb_o_key batch) i = Some (v2_o_key r)
     ∧ column_get (cb_p_id batch) i = Some (v2_p_id r) ∧ column_get_or (cb_t batch) i 0 = Some (v2_t r)
     ∧ column_get_or (cb_o_i batch) i LIST_INDEX_NONE = Some (v2_o_i r)
     ∧ column_get (cb_o_type batch) i = Some (v2_o_type r)) →
  column_batch_to_records batch = Some (without_graph <$> records).
Proof.
  intros Hn Hc. unfold column_batch_to_records. apply mapM_Some_2. rewrite Hn.
  apply Forall2_same_length_lookup_2; [by rewrite length_fmap, length_seq|].
  intros i j r Hj Hr. apply lookup_seq in Hj as [-> _].
  apply list_lookup_fmap_Some in Hr as (r' & -> & Hr'). rewrite Nat.add_0_l. unfold batch_row_to_record.
  destruct (Hc _ _ Hr') as (H1 & H2 & H3 & H4 & H5 & H6). by rewrite H1, H2, H3, H4, H5, H6.
Qed.

Lemma decode_column_hit entry col_id (block : list Z) :
  List.find (λ c, bool_decide (c.1 = col_id)) (el_columns entry) = Some (col_id, block) →
  length block = el_row_count entry → decode_column entry col_id = Some block.
Proof. intros H Hl. unfold decode_column. rewrite H. cbn [mbind option_bind snd]. by rewrite Hl, Nat.eqb_refl. Qed.

(** A leaflet of one segment is read back, but for the graph. *)
Lemma encode_load order records el :
  homogeneous order records → encode_leaflet records order = Some el →
  ∃ batch, load_leaflet_columns el = Some batch
    ∧ column_batch_to_records batch = Some (without_graph <$> records).
Proof.
  destruct records as [|first rest]; [done|]. intros Hh He. unfold encode_leaflet in He.
  assert (first ∈ first :: rest) as Hf by left.
  set (records := first :: rest) in *.
  set (has := existsb _ records) in He.
  set (oc := match order with
             | Opst => Some (v2_o_type first)
             | Post | Psot => if forallb (λ r, v2_o_type r =? v2_o_type first) records
                              then Some (v2_o_type first) else None
             | Spot => None
             end) in He.
  assert (∀ i r, records !! i = Some r → match oc with Some ot => v2_o_type r = ot | None => True end) as Hoc.
  { intros i r Hr%list_elem_of_lookup_2. pose proof (Hh _ _ Hf Hr) as Hs. unfold oc.
    destruct order; simpl in Hs; [done| | |by apply Z.eqb_eq];
      (destruct (forallb _ records) eqn:E; [|done]; apply Z.eqb_eq;
       rewrite forallb_forall in E; by apply E, list_elem_of_In). }
  assert (∀ i r, records !! i = Some r → has = false → v2_o_i r = LIST_INDEX_NONE) as Hoi.
  { intros i r Hr%list_elem_of_lookup_2 Hx. apply Z.eqb_eq, negb_false_iff.
    destruct (negb (v2_o_i r =? LIST_INDEX_NONE)) eqn:E; [|done].
    assert (has = true) as Ht; [|congruence]. apply existsb_exists. exists r.
    split; [by apply list_elem_of_In|done]. }
  assert (∀ i r, records !! i = Some r → match order with Post | Psot => v2_p_id r = v2_p_id first | _ => True end) as Hp.
  { intros i r Hr%list_elem_of_lookup_2. pose proof (Hh _ _ Hf Hr) as Hs.
    destruct order; simpl in Hs; try done; by apply Z.eqb_eq. }
  assert (order = Opst → oc ≠ None) as Hop by (by intros ->).
  clearbody records oc has. injection He as <-. clear Hh Hf.
  destruct order, oc as [ot|], has; try (by destruct Hop); clear Hop; unfold load_leaflet_columns; cbn [el_p_const el_o_type_const el_flags];
    repeat match goal with
           | |- context [Z.testbit ?a ?b] =>
               let v := eval vm_compute in (Z.testbit a b) in change (Z.testbit a b) with v; cbv iota
           end;
    repeat (erewrite decode_column_hit; [|reflexivity|apply length_fmap]);
    cbn [mbind option_bind fmap option_fmap option_map];
    (eexists; split; [reflexivity|]; apply batch_reads; [done|]); intros i r Hr;
    cbn [cb_s_id cb_o_key cb_p_id cb_o_type cb_o_i cb_t];
    rewrite ?(column_get_fmap _ records i r Hr);
    unfold column_get_or; rewrite ?list_lookup_fmap, ?Hr; simpl; specialize (Hoc i r Hr); specialize (Hoi i r Hr);
    specialize (Hp i r Hr); rewrite ?Hoc, ?Hp, ?Hoi by done; done.
Qed.

(** ** Splitting *)

Lemma chunks_fuel_spec {A} fuel n (l : list A) :
  (0 < n)%nat → (length l <= fuel)%nat →
  concat (chunks_fuel fuel n l) = l ∧ Forall (λ c, c ≠ [] ∧ c ⊆ l) (chunks_fuel fuel n l).
Proof.
  intros Hn. revert l. induction fuel as [|fuel IH]; intros l Hf.
  { destruct l; [|simpl in Hf; lia]. by split; [|constructor]. }
  destruct l as [|x l]; [by split; [|constructor]|]. cbn [chunks_fuel concat].
  destruct (IH (drop n (x :: l))) as [H1 H2]; [rewrite length_drop; simpl in *; lia|].
  split; [rewrite H1; apply take_drop|]. constructor.
  - split; [by destruct n; [lia|]|]. apply subseteq_take.
  - eapply Forall_impl; [exact H2|]. intros c [Hc Hs]. split; [done|]. intros y Hy%Hs.
    by eapply subseteq_drop.
Qed.

Lemma same_segment_refl order r : same_segment order r r = true.
Proof. destruct order; simpl; by rewrite ?Z.eqb_refl. Qed.

Lemma same_segment_join order a b c :
  same_segment order a b = true → same_segment order a c = true → same_segment order b c = true.
Proof. destruct order; simpl; rewrite ?Z.eqb_eq; congruence. Qed.

Lemma find_segment_end_take order first records r :
  r ∈ take (find_segment_end order first records) records → same_segment order first r = true.
Proof.
  induction records as [|x records IH]; simpl; [by intros ?%not_elem_of_nil|].
  destruct (same_segment order first x) eqn:E; simpl; [|by intros ?%not_elem_of_nil].
  intros [->|Hr]%elem_of_cons; [done|by apply IH].
Qed.

Lemma split_segments_spec fuel records order n :
  (0 < n)%nat → (length records <= fuel)%nat →
  concat (split_segments fuel records order n) = records
  ∧ Forall (λ c, c ≠ [] ∧ homogeneous order c) (split_segments fuel records order n).
Proof.
  intros Hn. revert records. induction fuel as [|fuel IH]; intros records Hf.
  { destruct records; [|simpl in Hf; lia]. by split; [|constructor]. }
  destruct records as [|x records]; [by split; [|constructor]|]. cbn [split_segments]. cbv zeta.
  set (seg := find_segment_end order x (x :: records)).
  assert (0 < seg)%nat as Hseg by (unfold seg; simpl; rewrite same_segment_refl; lia).
  destruct (IH (drop seg (x :: records))) as [H1 H2]; [rewrite length_drop; simpl in *; lia|].
  destruct (chunks_fuel_spec (length (take seg (x :: records))) n (take seg (x :: records)) Hn (Nat.le_refl _)) as [C1 C2].
  unfold chunks. rewrite concat_app, C1, H1, take_drop. split; [done|]. apply Forall_app. split; [|done].
  eapply Forall_impl; [exact C2|]. intros c [Hc Hs]. split; [done|]. intros a b Ha%Hs Hb%Hs.
  eapply same_segment_join; by eapply find_segment_end_take.
Qed.

(** ** A leaflet as it is read

    Its first and last keys, its rows and its history. *)
Record View := {
  vw_first : FactKeyV3;
  vw_last : FactKeyV3;
  vw_rows : list RunRecordV2;
  vw_hist : list HistEntryV2;
}.

Definition view_keys (v : View) : list FactKeyV3 := (rec_key <$> vw_rows v) ++ (hist_key <$> vw_hist v).
Definition view_ok (v : View) : Prop := Forall v2_ok (vw_rows v) ∧ Forall hist_ok (vw_hist v).

Definition all_rows (vs : list View) : list RunRecordV2 := concat (vw_rows <$> vs).
Definition all_hist (vs : list View) : list HistEntryV2 := concat (vw_hist <$> vs).

(** The keys and the constants of a leaflet hold for a row. *)
Definition row_in (order : RunSortOrder) (leaflet : EncodedLeaflet) (v : View) (r : RunRecordV2) : Prop :=
  ¬ key_lt order (rec_key r) (vw_first v) ∧ ¬ key_lt order (vw_last v) (rec_key r)
  ∧ (∀ p, el_p_const leaflet = Some p → v2_p_id r = p) ∧ (∀ ot, el_o_type_const leaflet = Some ot → v2_o_type r = ot).

Record reads (order : RunSortOrder) (leaflet : EncodedLeaflet) (v : View) : Prop := {
  rd_first : el_first_key leaflet = write_ordered_key_v2 order (key_rec (vw_first v));
  rd_last : el_last_key leaflet = write_ordered_key_v2 order (key_rec (vw_last v));
  rd_first_ok : v2_ok (key_rec (vw_first v));
  rd_last_ok : v2_ok (key_rec (vw_last v));
  rd_in : Forall (row_in order leaflet v) (vw_rows v);
  rd_rows : ∃ batch, leaflet_columns leaflet = Some batch ∧ column_batch_to_records batch = Some (vw_rows v);
}.

(** ** Routing keys

    Bounds on keys: [None] is none. *)
Section chains.
Context (order : RunSortOrder).

Definition below (hi : option FactKeyV3) (k : FactKeyV3) : Prop :=
  match hi with None => True | Some h => key_lt order k h end.
Definition at_least (b k : FactKeyV3) : Prop := ¬ key_lt order k b.

Definition next_key (hi : option FactKeyV3) (vs : list View) : option FactKeyV3 :=
  match vs with [] => hi | v :: _ => Some (vw_first v) end.

(** The leaflets hold the keys from their own routing key to that of the next
    one; the leftmost one also holds what is below its routing key. *)
Fixpoint chain (leftmost : bool) (hi : option FactKeyV3) (vs : list View) : Prop :=
  match vs with
  | [] => True
  | v :: vs =>
      (at_least (vw_first v) (vw_last v) ∧ below (next_key hi vs) (vw_last v)) ∧ Forall (below (next_key hi vs)) (view_keys v)
      ∧ (leftmost = false → Forall (at_least (vw_first v)) (view_keys v))
      ∧ chain false hi vs
  end.

Lemma at_least_refl b : at_least b b.
Proof. apply key_lt_irrefl. Qed.

Lemma at_least_trans a b c : at_least a b → at_least b c → at_least a c.
Proof.
  unfold at_least. intros H1 H2 H3. destruct (key_cmp order c b) eqn:E; [|done|].
  - apply key_cmp_eq in E as ->. done.
  - apply H1. eapply key_lt_trans; [|exact H3]. by apply key_cmp_gt.
Qed.

Lemma lt_at_least a b c : key_lt order a b → at_least b c → key_lt order a c.
Proof.
  intros H1 H2. destruct (key_cmp order c b) eqn:E; [|done|].
  - by apply key_cmp_eq in E as ->.
  - eapply key_lt_trans; [exact H1|]. by apply key_cmp_gt.
Qed.

Lemma lt_not_least a b : key_lt order a b → at_least a b.
Proof. intros H1 H2. eapply key_lt_irrefl, key_lt_trans; eassumption. Qed.

Lemma at_least_cases a b : key_lt order b a ∨ at_least a b.
Proof. unfold at_least, key_lt. destruct (key_cmp order b a); auto. Qed.

(** A bound that is no lower. *)
Definition hi_le (hi hi' : option FactKeyV3) : Prop :=
  match hi, hi' with
  | _, None => True
  | None, Some _ => False
  | Some a, Some b => at_least a b
  end.

Lemma below_weaken hi hi' k : hi_le hi hi' → below hi k → below hi' k.
Proof. destruct hi, hi'; simpl; try done. intros H1 H2. by eapply lt_at_least. Qed.

Lemma next_key_weaken hi hi' vs : hi_le hi hi' → hi_le (next_key hi vs) (next_key hi' vs).
Proof. destruct vs; simpl; [done|]. intros _. apply at_least_refl. Qed.

Lemma chain_weaken lm hi hi' vs : hi_le hi hi' → chain lm hi vs → chain lm hi' vs.
Proof.
  intros Hhi. revert lm. induction vs as [|v vs IH]; intros lm; simpl; [done|].
  intros (H1 & H2 & H3 & H4). pose proof (next_key_weaken hi hi' vs Hhi) as Hn.
  split; [split; [apply H1|eapply below_weaken; [exact Hn|apply H1]]|]. split; [|split; [done|by apply IH]].
  eapply Forall_impl; [exact H2|]. intros k. by apply below_weaken.
Qed.

Lemma chain_leftmost lm hi vs : chain false hi vs → chain lm hi vs.
Proof. destruct lm; [|done]. destruct vs as [|v vs]; [done|]. intros (H1 & H2 & H3 & H4). done. Qed.

Lemma leaflet_chain_app lm hi vs1 vs2 :
  chain lm (next_key hi vs2) vs1 → chain (lm && match vs1 with [] => true | _ => false end) hi vs2 →
  chain lm hi (vs1 ++ vs2).
Proof.
  revert lm. induction vs1 as [|v vs1 IH]; intros lm; [by rewrite andb_true_r|].
  rewrite andb_false_r. intros (H1 & H2 & H3 & H4) H5. simpl.
  assert (next_key hi (vs1 ++ vs2) = next_key (next_key hi vs2) vs1) as -> by (by destruct vs1).
  split; [done|]. split; [done|]. split; [done|]. apply IH; [done|by rewrite andb_false_l].
Qed.

Lemma chain_app_inv lm hi vs1 vs2 :
  chain lm hi (vs1 ++ vs2) →
  chain lm (next_key hi vs2) vs1 ∧ chain (lm && match vs1 with [] => true | _ => false end) hi vs2.
Proof.
  revert lm. induction vs1 as [|v vs1 IH]; intros lm; [by rewrite andb_true_r|].
  rewrite andb_false_r. simpl.
  assert (next_key hi (vs1 ++ vs2) = next_key (next_key hi vs2) vs1) as -> by (by destruct vs1).
  intros (H1 & H2 & H3 & H4). apply IH in H4. rewrite andb_false_l in H4. destruct H4. done.
Qed.

Lemma below_trans hi a b : key_lt order a b → below hi b → below hi a.
Proof. destruct hi; simpl; [by apply key_lt_trans|done]. Qed.

Lemma below_least hi a b : at_least a b → below hi b → below hi a.
Proof.
  destruct hi as [h|]; [|done]. simpl. intros H1 H2. destruct (at_least_cases b a) as [H|H]; [by eapply key_lt_trans|].
  destruct (key_cmp order a b) eqn:E.
  - by apply key_cmp_eq in E as ->.
  - by eapply key_lt_trans.
  - exfalso. apply H1. by apply key_cmp_gt.
Qed.

(** A leaflet's first key is below that of the next one. *)
Lemma chain_first_next lm hi v vs : chain lm hi (v :: vs) → below (next_key hi vs) (vw_first v).
Proof. intros ([H1 H2] & _). by eapply below_least. Qed.

Lemma chain_first_below lm hi v vs : chain lm hi (v :: vs) → below hi (vw_first v).
Proof.
  revert lm v. induction vs as [|w vs IH]; intros lm v Hc; [by apply (chain_first_next lm hi v [])|].
  eapply below_trans; [by apply (chain_first_next lm hi v (w :: vs))|]. destruct Hc as (_ & _ & _ & Hc). by eapply IH.
Qed.

(** The keys of leaflets are below their upper bound and, but for the
    leftmost's, at or above the first routing key. *)
Lemma chain_below lm hi vs k : chain lm hi vs → k ∈ concat (view_keys <$> vs) → below hi k.
Proof.
  revert lm. induction vs as [|v vs IH]; intros lm; [by intros _ ?%not_elem_of_nil|].
  intros (H1 & H2 & H3 & H4). csimpl. intros [Hk|Hk]%elem_of_app; [|by eapply IH].
  apply (proj1 (Forall_forall _ _) H2) in Hk. destruct vs as [|w vs]; [done|].
  eapply below_trans; [exact Hk|]. by eapply chain_first_below.
Qed.

Lemma chain_above hi v vs k : chain false hi (v :: vs) → k ∈ concat (view_keys <$> v :: vs) → at_least (vw_first v) k.
Proof.
  revert v. induction vs as [|w vs IH]; intros v (H1 & H2 & H3 & H4); csimpl.
  - rewrite app_nil_r. by apply (proj1 (Forall_forall _ _) (H3 eq_refl)).
  - intros [Hk|Hk]%elem_of_app; [by apply (proj1 (Forall_forall _ _) (H3 eq_refl))|].
    eapply at_least_trans; [apply lt_not_least, (chain_first_next false hi v (w :: vs)); done|]. by apply IH.
Qed.
End chains.

Lemma elem_of_view_keys vs k :
  k ∈ concat (view_keys <$> vs) ↔ k ∈ rec_key <$> all_rows vs ∨ k ∈ hist_key <$> all_hist vs.
Proof.
  unfold all_rows, all_hist. induction vs as [|v vs IH]; csimpl; [by rewrite !elem_of_nil; tauto|].
  rewrite !fmap_app, !elem_of_app, IH. unfold view_keys. rewrite elem_of_app. tauto.
Qed.

Lemma all_rows_app vs1 vs2 : all_rows (vs1 ++ vs2) = all_rows vs1 ++ all_rows vs2.
Proof. unfold all_rows. by rewrite fmap_app, concat_app. Qed.
Lemma all_hist_app vs1 vs2 : all_hist (vs1 ++ vs2) = all_hist vs1 ++ all_hist vs2.
Proof. unfold all_hist. by rewrite fmap_app, concat_app. Qed.

(** ** Logs of a part of the keys *)

Definition cut_below {A} (order : RunSortOrder) (b : FactKeyV3) (E : FactKeyV3 → list A) (k : FactKeyV3) : list A :=
  match key_cmp order k b with Lt => E k | _ => [] end.
Definition cut_above {A} (order : RunSortOrder) (b : FactKeyV3) (E : FactKeyV3 → list A) (k : FactKeyV3) : list A :=
  match key_cmp order k b with Lt => [] | _ => E k end.

Lemma cut_below_key {A} order b (E : FactKeyV3 → list A) k :
  key_lt order k b → cut_below order b E k = E k ∧ cut_above order b E k = [].
Proof. intros H. unfold cut_below, cut_above. by rewrite H. Qed.

Lemma cut_ge {A} order b (E : FactKeyV3 → list A) k :
  at_least order b k → cut_below order b E k = [] ∧ cut_above order b E k = E k.
Proof. unfold at_least, key_lt, cut_below, cut_above. by destruct (key_cmp order k b). Qed.

Lemma fact_log_nil : fact_log [] [] [].
Proof. by split; [| | |constructor]. Qed.

Lemma shows_nil : shows [] [].
Proof. intros T. simpl. intros t [Ht _]. by apply not_elem_of_nil in Ht. Qed.

Lemma leaflet_log_ext order rows hist E E' :
  (∀ k, E k = E' k) → leaflet_log order rows hist E → leaflet_log order rows hist E'.
Proof. intros He [H1 H2]. split; [done|]. intros k. rewrite <- He. apply H2. Qed.

Lemma rows_at_none k rows : k ∉ rec_key <$> rows → rows_at k rows = [].
Proof. apply rows_at_nil. Qed.

Lemma hist_at_none k hist : k ∉ hist_key <$> hist → hist_at k hist = [].
Proof.
  intros H. apply list_filter_none, Forall_forall. intros e He <-. apply H, list_elem_of_fmap. by exists e.
Qed.

Section log_parts.
Context (order : RunSortOrder) (b : FactKeyV3).
Context (rows1 rows2 : list RunRecordV2) (hist1 hist2 : list HistEntryV2).
Hypothesis low_rows : Forall (λ k, key_lt order k b) (rec_key <$> rows1).
Hypothesis low_hist : Forall (λ k, key_lt order k b) (hist_key <$> hist1).
Hypothesis high_rows : Forall (at_least order b) (rec_key <$> rows2).
Hypothesis high_hist : Forall (at_least order b) (hist_key <$> hist2).

Lemma low_none k : at_least order b k → rows_at k rows1 = [] ∧ hist_at k hist1 = [].
Proof.
  intros Hk. split; [apply rows_at_none|apply hist_at_none]; intros Hin;
    apply Hk; [by apply (proj1 (Forall_forall _ _) low_rows)|by apply (proj1 (Forall_forall _ _) low_hist)].
Qed.

Lemma high_none k : key_lt order k b → rows_at k rows2 = [] ∧ hist_at k hist2 = [].
Proof.
  intros Hk. split; [apply rows_at_none|apply hist_at_none]; intros Hin;
    [by apply (proj1 (Forall_forall _ _) high_rows) in Hin|by apply (proj1 (Forall_forall _ _) high_hist) in Hin].
Qed.

Lemma leaflet_log_split E :
  leaflet_log order (rows1 ++ rows2) (hist1 ++ hist2) E →
  leaflet_log order rows1 hist1 (cut_below order b E) ∧ leaflet_log order rows2 hist2 (cut_above order b E).
Proof.
  intros [Hs Hf]. rewrite fmap_app in Hs. split; split.
  - by eapply StronglySorted_app_1_l.
  - intros k. destruct (at_least_cases order b k) as [Hk|Hk].
    + destruct (Hf k) as (L & HL). rewrite rows_at_app, hist_at_app in HL.
      destruct (high_none k Hk) as [Hn1 Hn2]. rewrite Hn1, Hn2, !app_nil_r in HL.
      destruct (cut_below_key order b E k Hk) as [-> _]. by exists L.
    + exists []. destruct (low_none k Hk) as [-> ->]. destruct (cut_ge order b E k Hk) as [-> _].
      split; [apply fact_log_nil|]. split; [apply shows_nil|by intros e ?%not_elem_of_nil].
  - by eapply StronglySorted_app_1_r.
  - intros k. destruct (at_least_cases order b k) as [Hk|Hk].
    + exists []. destruct (high_none k Hk) as [-> ->]. destruct (cut_below_key order b E k Hk) as [_ ->].
      split; [apply fact_log_nil|]. split; [apply shows_nil|by intros e ?%not_elem_of_nil].
    + destruct (Hf k) as (L & HL). rewrite rows_at_app, hist_at_app in HL.
      destruct (low_none k Hk) as [Hn1 Hn2]. rewrite Hn1, Hn2 in HL.
      destruct (cut_ge order b E k Hk) as [_ ->]. by exists L.
Qed.

Lemma leaflet_log_join E1 E2 E :
  leaflet_log order rows1 hist1 E1 → leaflet_log order rows2 hist2 E2 →
  (∀ k, key_lt order k b → E1 k = E k) → (∀ k, at_least order b k → E2 k = E k) →
  leaflet_log order (rows1 ++ rows2) (hist1 ++ hist2) E.
Proof.
  intros [S1 F1] [S2 F2] H1 H2. split.
  - rewrite fmap_app. apply StronglySorted_app_2; [|done|done]. intros x y Hx Hy.
    eapply lt_at_least; [by apply (proj1 (Forall_forall _ _) low_rows)|by apply (proj1 (Forall_forall _ _) high_rows)].
  - intros k. rewrite rows_at_app, hist_at_app. destruct (at_least_cases order b k) as [Hk|Hk].
    + destruct (high_none k Hk) as [-> ->]. rewrite !app_nil_r, <- H1 by done. apply F1.
    + destruct (low_none k Hk) as [-> ->]. rewrite <- H2 by done. apply F2.
Qed.
End log_parts.

(** ** Widened keys *)

Definition wider (order : RunSortOrder) (b : FactKeyV3) (e : HistEntryV2) : FactKeyV3 :=
  match key_cmp order (hist_key e) b with Lt => hist_key e | _ => b end.

Lemma hist_record_key e : rec_key (history_record e) = hist_key e.
Proof. by destruct e. Qed.

Lemma ordered_key_rec order r : write_ordered_key_v2 order r = write_ordered_key_v2 order (key_rec (rec_key r)).
Proof. by destruct order, r. Qed.

Lemma hist_record_ok e : hist_ok e → v2_ok (history_record e).
Proof. intros (? & ? & ? & ? & ? & ?). unfold v2_ok, history_record, hist_entry_to_record; simpl. lia. Qed.

Lemma key_ok r : v2_ok r → v2_ok (key_rec (rec_key r)).
Proof. intros (? & ? & ? & ? & ? & ? & ?). unfold v2_ok; simpl. lia. Qed.

Lemma rec_key_rec k : rec_key (key_rec k) = k.
Proof. by destruct k. Qed.

#[export] Instance key_lt_dec order a b : Decision (key_lt order a b).
Proof. unfold key_lt. apply _. Defined.

Definition wider_last (order : RunSortOrder) (b : FactKeyV3) (e : HistEntryV2) : FactKeyV3 :=
  match key_cmp order (hist_key e) b with Gt => hist_key e | _ => b end.

Lemma widen_spec order (history : list HistEntryV2) encoded b c :
  Forall hist_ok history → v2_ok (key_rec b) → v2_ok (key_rec c) →
  el_first_key encoded = write_ordered_key_v2 order (key_rec b) →
  el_last_key encoded = write_ordered_key_v2 order (key_rec c) →
  let encoded' := widen_leaflet_keys_over_history encoded history order in
  let b' := foldl (wider order) b history in
  let c' := foldl (wider_last order) c history in
  (el_first_key encoded' = write_ordered_key_v2 order (key_rec b') ∧ v2_ok (key_rec b'))
  ∧ (el_last_key encoded' = write_ordered_key_v2 order (key_rec c') ∧ v2_ok (key_rec c'))
  ∧ leaflet_columns encoded' = leaflet_columns encoded ∧ el_row_count encoded' = el_row_count encoded
  ∧ el_p_const encoded' = el_p_const encoded ∧ el_o_type_const encoded' = el_o_type_const encoded.
Proof.
  revert encoded b c. induction history as [|e history IH]; intros encoded b c Hh Hb Hc He Hl; [done|].
  apply Forall_cons in Hh as [Hok Hh]. cbn [widen_leaflet_keys_over_history foldl]. cbv zeta.
  set (el := {| el_row_count := _ |}).
  assert (v2_ok (history_record e)) as Hr by (by apply hist_record_ok).
  assert (v2_ok (key_rec (hist_key e)) ∧ write_ordered_key_v2 order (history_record e) = write_ordered_key_v2 order (key_rec (hist_key e)))
    as [Hk Hw] by (rewrite ordered_key_rec, hist_record_key; split; [rewrite <- hist_record_key; by apply key_ok|done]).
  specialize (IH el (wider order b e) (wider_last order c e) Hh). cbv zeta in IH.
  assert (v2_ok (key_rec (wider order b e)) ∧ el_first_key el = write_ordered_key_v2 order (key_rec (wider order b e))) as [H1 H2].
  { unfold el, wider; cbn [el_first_key]. rewrite He, ordered_key_cmp, cmp_v2_key, hist_record_key, rec_key_rec by done.
    by destruct (key_cmp order (hist_key e) b). }
  assert (v2_ok (key_rec (wider_last order c e)) ∧ el_last_key el = write_ordered_key_v2 order (key_rec (wider_last order c e))) as [H3 H4].
  { unfold el, wider_last; cbn [el_last_key]. rewrite Hl, ordered_key_cmp, cmp_v2_key, hist_record_key, rec_key_rec by done.
    by destruct (key_cmp order (hist_key e) c). }
  exact (IH H1 H3 H2 H4).
Qed.

Lemma wider_spec order (history : list HistEntryV2) b :
  let b' := foldl (wider order) b history in
  at_least order b' b ∧ Forall (at_least order b') (hist_key <$> history)
  ∧ (b' = b ∨ b' ∈ hist_key <$> history).
Proof.
  revert b. induction history as [|e history IH]; intros b; cbn [foldl]; cbv zeta.
  { split; [apply at_least_refl|]. split; [constructor|by left]. }
  destruct (IH (wider order b e)) as (H1 & H2 & H3). set (b' := foldl _ _ history) in *.
  assert (at_least order (wider order b e) b ∧ at_least order (wider order b e) (hist_key e)
          ∧ (wider order b e = b ∨ wider order b e = hist_key e)) as (W1 & W2 & W3).
  { unfold wider, at_least. destruct (key_cmp order (hist_key e) b) eqn:E.
    - apply key_cmp_eq in E as ->. split; [apply key_lt_irrefl|]. split; [apply key_lt_irrefl|by left].
    - split; [by apply lt_not_least|]. split; [apply key_lt_irrefl|by right].
    - split; [apply key_lt_irrefl|]. split; [|by left]. unfold key_lt. by rewrite E. }
  split; [by eapply at_least_trans|]. csimpl. split.
  - constructor; [by eapply at_least_trans|done].
  - destruct H3 as [->|H3]; [|right; by right]. destruct W3 as [->| ->]; [by left|right; left].
Qed.

Lemma wider_last_spec order (history : list HistEntryV2) b :
  let b' := foldl (wider_last order) b history in
  at_least order b b' ∧ (b' = b ∨ b' ∈ hist_key <$> history).
Proof.
  revert b. induction history as [|e history IH]; intros b; cbn [foldl]; cbv zeta; [split; [apply at_least_refl|by left]|].
  destruct (IH (wider_last order b e)) as [H1 H2]. set (b' := foldl _ _ history) in *.
  assert (at_least order b (wider_last order b e) ∧ (wider_last order b e = b ∨ wider_last order b e = hist_key e)) as [W1 W2].
  { unfold wider_last. destruct (key_cmp order (hist_key e) b) eqn:E; (split; [|auto]); try apply at_least_refl.
    by apply lt_not_least, key_cmp_gt. }
  split; [by eapply at_least_trans|]. csimpl. destruct H2 as [->|H2]; [|right; by right].
  destruct W2 as [->| ->]; [by left|right; left].
Qed.

(** ** History by chunk *)

Section partition_facts.
Context (order : RunSortOrder).

Lemma chunk_of_low (boundaries : list RunRecordV2) b e :
  StronglySorted (key_lt order) (rec_key <$> b :: boundaries) → key_lt order (hist_key e) (rec_key b) →
  chunk_of order (b :: boundaries) e = 0%nat.
Proof.
  intros Hs Hlt. unfold chunk_of. apply (partition_point_spec _ _ [] (b :: boundaries)); [done|constructor|].
  apply Forall_forall. intros x Hx. rewrite cmp_v2_key, hist_record_key.
  assert (key_lt order (hist_key e) (rec_key x)) as Hl; [|by rewrite Hl].
  apply elem_of_cons in Hx as [->|Hx]; [done|]. eapply key_lt_trans; [exact Hlt|].
  apply StronglySorted_inv in Hs as [_ Hs]. apply (proj1 (Forall_forall _ _) Hs), list_elem_of_fmap. by exists x.
Qed.

(** Boundaries in order are those not above an entry, then those above. *)
Lemma boundaries_split (boundaries : list RunRecordV2) k :
  StronglySorted (key_lt order) (rec_key <$> boundaries) →
  ∃ l1 l2, boundaries = l1 ++ l2 ∧ Forall (λ b, at_least order (rec_key b) k) l1
    ∧ Forall (λ b, key_lt order k (rec_key b)) l2.
Proof.
  induction boundaries as [|b boundaries IH]; intros Hs; [by exists [], []|].
  destruct (at_least_cases order (rec_key b) k) as [Hk|Hk].
  - exists [], (b :: boundaries). split; [done|]. split; [constructor|]. constructor; [done|].
    csimpl in Hs. apply StronglySorted_inv in Hs as [_ Hs]. rewrite Forall_fmap in Hs. eapply Forall_impl; [exact Hs|].
    intros x Hx. simpl in Hx. by eapply key_lt_trans.
  - apply StronglySorted_inv in Hs as [Hs _]. destruct (IH Hs) as (l1 & l2 & -> & H1 & H2).
    exists (b :: l1), l2. split; [done|]. split; [by constructor|done].
Qed.

Lemma chunk_of_split (boundaries l1 l2 : list RunRecordV2) e :
  boundaries = l1 ++ l2 → Forall (λ b, at_least order (rec_key b) (hist_key e)) l1 →
  Forall (λ b, key_lt order (hist_key e) (rec_key b)) l2 → chunk_of order boundaries e = length l1.
Proof.
  intros Hl H1 H2. unfold chunk_of. apply (partition_point_spec _ _ l1 l2); [done|..];
    (eapply Forall_impl; [first [exact H1|exact H2]|]); intros b Hb; simpl in Hb;
    rewrite cmp_v2_key, hist_record_key.
  - unfold at_least, key_lt in Hb. by destruct (key_cmp _ _ _).
  - by rewrite Hb.
Qed.

Lemma chunk_of_high (boundaries : list RunRecordV2) b e :
  StronglySorted (key_lt order) (rec_key <$> b :: boundaries) → at_least order (rec_key b) (hist_key e) →
  chunk_of order (b :: boundaries) e = S (chunk_of order boundaries e).
Proof.
  intros Hs Hge. apply StronglySorted_inv in Hs as [Hs _].
  destruct (boundaries_split boundaries (hist_key e) Hs) as (l1 & l2 & Hl & H1 & H2).
  rewrite (chunk_of_split boundaries l1 l2 e Hl H1 H2). apply (chunk_of_split _ (b :: l1) l2); [by rewrite Hl|by constructor|done].
Qed.

Definition low (b : RunRecordV2) (history : list HistEntryV2) : list HistEntryV2 :=
  filter (λ e, key_lt order (hist_key e) (rec_key b)) history.
Definition high (b : RunRecordV2) (history : list HistEntryV2) : list HistEntryV2 :=
  filter (λ e, ¬ key_lt order (hist_key e) (rec_key b)) history.

Lemma partition_one c history : partition_history_to_chunks [c] history order = [history].
Proof.
  unfold partition_history_to_chunks. simpl. f_equal. apply list_filter_id, Forall_forall. intros e _. done.
Qed.

Lemma partition_cons c b c' chunks (history : list HistEntryV2) :
  StronglySorted (key_lt order) (rec_key <$> omap head ((b :: c') :: chunks)) →
  partition_history_to_chunks (c :: (b :: c') :: chunks) history order
  = low b history :: partition_history_to_chunks ((b :: c') :: chunks) (high b history) order.
Proof.
  intros Hs. unfold partition_history_to_chunks.
  set (n := length ((b :: c') :: chunks)). change (length (c :: (b :: c') :: chunks)) with (S n).
  change (omap head (tail (c :: (b :: c') :: chunks))) with (b :: omap head chunks).
  change (omap head (tail ((b :: c') :: chunks))) with (omap head chunks).
  change (omap head ((b :: c') :: chunks)) with (b :: omap head chunks) in Hs.
  assert (∀ e, chunk_of order (b :: omap head chunks) e
    = if decide (key_lt order (hist_key e) (rec_key b)) then 0%nat else S (chunk_of order (omap head chunks) e)) as Hc.
  { intros e. case_decide as Hd; [by apply chunk_of_low|by apply chunk_of_high]. }
  cbn [seq]. rewrite fmap_cons, <- fmap_S_seq, <- list_fmap_compose. f_equal.
  - apply filter_iff_in. intros e _.
    change (chunk_of order (b :: omap head chunks) e = 0%nat ↔ key_lt order (hist_key e) (rec_key b)).
    rewrite Hc. by case_decide.
  - apply list_fmap_ext. intros i j Hj. simpl. unfold high. rewrite list_filter_filter.
    apply filter_iff_in. intros e _.
    change (chunk_of order (b :: omap head chunks) e = S j ↔
            chunk_of order (omap head chunks) e = j ∧ ¬ key_lt order (hist_key e) (rec_key b)).
    rewrite Hc. case_decide; [naive_solver|].
    split; [by intros [= ->]|by intros [-> _]].
Qed.

Lemma low_high b history : low b history ++ high b history ≡ₚ history.
Proof. unfold low, high. apply filter_app_complement. Qed.
End partition_facts.

(** ** Encoded chunks *)

Definition pl_reads (order : RunSortOrder) (p : ProcessedLeafletV3) (v : View) : Prop :=
  reads order (pl_encoded p) v ∧ pl_history p = vw_hist v.

Definition chunk_view (order : RunSortOrder) (ch : list RunRecordV2 * list HistEntryV2) (v : View) : Prop :=
  match ch.1 with
  | [] => False
  | r :: _ => v = {| vw_first := foldl (wider order) (rec_key r) ch.2;
                     vw_last := foldl (wider_last order) (rec_key (List.last ch.1 r)) ch.2;
                     vw_rows := without_graph <$> ch.1; vw_hist := ch.2 |}
  end.

Lemma last_in {A} (r d : A) c : List.last (r :: c) d ∈ r :: c.
Proof.
  revert r. induction c as [|y c IH]; intros r; [left|].
  change (List.last (r :: y :: c) d) with (List.last (y :: c) d). right. apply IH.
Qed.

(** The rows of a chunk are between its first and its last. *)
Lemma rows_sorted_last order r c d x :
  StronglySorted (key_lt order) (rec_key <$> r :: c) → x ∈ r :: c →
  at_least order (rec_key x) (rec_key (List.last (r :: c) d)).
Proof.
  revert r x. induction c as [|y c IH]; intros r x Hs Hx.
  - apply list_elem_of_singleton in Hx as ->. apply at_least_refl.
  - change (List.last (r :: y :: c) d) with (List.last (y :: c) d). csimpl in Hs. apply StronglySorted_inv in Hs as [Hs Hr].
    apply elem_of_cons in Hx as [->|Hx]; [|by apply IH].
    eapply at_least_trans; [apply lt_not_least; by apply Forall_cons in Hr as [Hr _]|]. apply (IH y y Hs). left.
Qed.

Lemma sorted_ends order r c x :
  StronglySorted (key_lt order) (rec_key <$> r :: c) → x ∈ r :: c →
  at_least order (rec_key r) (rec_key x) ∧ at_least order (rec_key x) (rec_key (List.last (r :: c) r)).
Proof.
  intros Hs Hx. split; [|by apply rows_sorted_last].
  apply elem_of_cons in Hx as [->|Hx]; [apply at_least_refl|]. csimpl in Hs. apply StronglySorted_inv in Hs as [_ Hs].
  apply lt_not_least, (proj1 (Forall_forall _ _) Hs), list_elem_of_fmap. by exists x.
Qed.

Lemma encode_leaflet_keys order r c el :
  encode_leaflet (r :: c) order = Some el →
  el_first_key el = write_ordered_key_v2 order (key_rec (rec_key r))
  ∧ el_last_key el = write_ordered_key_v2 order (key_rec (rec_key (List.last (r :: c) r)))
  ∧ el_row_count el = S (length c).
Proof. intros He. rewrite <- !ordered_key_rec. unfold encode_leaflet in He. by injection He as <-. Qed.

Lemma encode_leaflet_consts order r c el x :
  homogeneous order (r :: c) → encode_leaflet (r :: c) order = Some el → x ∈ r :: c →
  (∀ p, el_p_const el = Some p → v2_p_id x = p) ∧ (∀ ot, el_o_type_const el = Some ot → v2_o_type x = ot).
Proof.
  intros Hh He Hx. pose proof (Hh r x ltac:(left) Hx) as Hs. unfold encode_leaflet in He. injection He as <-.
  cbn [el_p_const el_o_type_const]. destruct order; simpl in Hs; (split; intros y Hy; try done).
  - injection Hy as <-. by apply Z.eqb_eq.
  - destruct (_ && _) eqn:Hb in Hy; [|done]. injection Hy as <-.
    change (forallb (λ r0, v2_o_type r0 =? v2_o_type r) (r :: c) = true) in Hb. rewrite forallb_forall in Hb.
    by apply Z.eqb_eq, Hb, list_elem_of_In.
  - injection Hy as <-. by apply Z.eqb_eq.
  - destruct (_ && _) eqn:Hb in Hy; [|done]. injection Hy as <-.
    change (forallb (λ r0, v2_o_type r0 =? v2_o_type r) (r :: c) = true) in Hb. rewrite forallb_forall in Hb.
    by apply Z.eqb_eq, Hb, list_elem_of_In.
  - injection Hy as <-. by apply Z.eqb_eq.
Qed.

Definition chunk_sorted (order : RunSortOrder) (c : list RunRecordV2) : Prop :=
  StronglySorted (key_lt order) (rec_key <$> c).

Lemma encode_chunk_reads order ch v :
  chunk_view order ch v → homogeneous order ch.1 → chunk_sorted order ch.1 → Forall v2_ok ch.1 → Forall hist_ok ch.2 →
  ∃ p, encode_chunk order ch.1 ch.2 = Some p ∧ pl_reads order p v.
Proof.
  destruct ch as [[|r c] h]; [done|]. intros -> Hh Hs Hok Hhok. cbn [fst snd] in *. unfold encode_chunk.
  destruct (encode_leaflet (r :: c) order) as [el|] eqn:He; [|done]. cbn [mbind option_bind].
  eexists. split; [done|]. split; [|done]. destruct (encode_load order _ _ Hh He) as (batch & Hb & Hrec).
  destruct (encode_leaflet_keys order r c el He) as (Hf & Hl & Hn).
  assert (v2_ok r ∧ v2_ok (List.last (r :: c) r)) as [Hr Hlast].
  { split; [by apply Forall_cons in Hok as [? _]|]. apply (proj1 (Forall_forall _ _) Hok).
    apply last_in. }
  destruct (widen_spec order h el _ _ Hhok (key_ok _ Hr) (key_ok _ Hlast) Hf Hl) as ([W1 W2] & [W3 W4] & W5 & W6 & W7 & W8).
  split; cbn [pl_encoded vw_first vw_last vw_rows]; [done..| |].
  - apply Forall_forall. intros x Hx. apply list_elem_of_fmap in Hx as (y & -> & Hy).
    destruct (sorted_ends order r c y Hs Hy) as [S1 S2]. destruct (encode_leaflet_consts order r c el y Hh He Hy) as [C1 C2].
    split; [|split; [|split]]; cbn [vw_first vw_last].
    + eapply at_least_trans; [apply wider_spec|exact S1].
    + eapply at_least_trans; [exact S2|apply wider_last_spec].
    + rewrite W7. exact C1.
    + rewrite W8. exact C2.
  - exists batch. rewrite W5. unfold leaflet_columns. by rewrite Hn.
Qed.

Lemma encode_chunks_read order chs vs :
  Forall2 (chunk_view order) chs vs → Forall (λ ch, homogeneous order ch.1 ∧ chunk_sorted order ch.1) chs →
  Forall (λ ch, Forall v2_ok ch.1 ∧ Forall hist_ok ch.2) chs →
  ∃ ps, mapM (λ ch, encode_chunk order ch.1 ch.2) chs = Some ps ∧ Forall2 (pl_reads order) ps vs.
Proof.
  induction 1 as [|ch v chs vs Hv Hvs IH]; intros Hh Hok; [by exists []|].
  apply Forall_cons in Hh as [[Hh Hs] Hhs]. apply Forall_cons in Hok as [[Ho1 Ho2] Hoks].
  destruct (encode_chunk_reads order ch v Hv Hh Hs Ho1 Ho2) as (p & Hp & Hr).
  destruct (IH Hhs Hoks) as (ps & Hps & Hrs). exists (p :: ps). cbn [mapM]. rewrite Hp. cbn [mbind option_bind].
  rewrite Hps. split; [done|by constructor].
Qed.

Lemma chunks_sorted order (chunks : list (list RunRecordV2)) c :
  chunk_sorted order (concat chunks) → c ∈ chunks → chunk_sorted order c.
Proof.
  unfold chunk_sorted. induction chunks as [|x chunks IH]; [by intros _ ?%not_elem_of_nil|]. csimpl. rewrite fmap_app.
  intros Hs [->|Hc]%elem_of_cons; [by eapply StronglySorted_app_1_l|]. apply IH; [by eapply StronglySorted_app_1_r|done].
Qed.

Lemma without_graph_keys (rows : list RunRecordV2) : rec_key <$> (without_graph <$> rows) = rec_key <$> rows.
Proof. by rewrite <- list_fmap_compose. Qed.

Section chunk_views.
Context (order : RunSortOrder).

Lemma low_keys b history : Forall (λ k, key_lt order k (rec_key b)) (hist_key <$> low order b history).
Proof. apply Forall_forall. intros k (e & -> & He)%list_elem_of_fmap. by apply list_elem_of_filter in He as [He _]. Qed.

Lemma high_keys b history : Forall (at_least order (rec_key b)) (hist_key <$> high order b history).
Proof. apply Forall_forall. intros k (e & -> & He)%list_elem_of_fmap. by apply list_elem_of_filter in He as [He _]. Qed.

Lemma wider_none b history : Forall (at_least order b) (hist_key <$> history) → foldl (wider order) b history = b.
Proof.
  induction history as [|e history IH]; [done|]. csimpl. intros [He Hh]%Forall_cons.
  assert (wider order b e = b) as ->; [|by apply IH].
  unfold wider. unfold at_least, key_lt in He. by destruct (key_cmp order (hist_key e) b).
Qed.

(** The leaflet of a first chunk [r :: c] whose history is [h], all of it
    below [hi]. *)
Lemma chunk_in_range lm hi r c h :
  StronglySorted (key_lt order) (rec_key <$> r :: c) → Forall (below order hi) (rec_key <$> r :: c) →
  Forall (below order hi) (hist_key <$> h) →
  chain order lm hi [{| vw_first := foldl (wider order) (rec_key r) h;
                        vw_last := foldl (wider_last order) (rec_key (List.last (r :: c) r)) h;
                        vw_rows := without_graph <$> r :: c; vw_hist := h |}].
Proof.
  intros Hs Hr Hh. destruct (wider_spec order h (rec_key r)) as (W1 & W2 & W3).
  destruct (wider_last_spec order h (rec_key (List.last (r :: c) r))) as [L1 L2].
  set (b' := foldl (wider order) _ h) in *. set (c' := foldl (wider_last order) _ h) in *.
  apply (chain_leftmost _ lm). unfold chain, next_key, view_keys; cbn [vw_first vw_last vw_rows vw_hist].
  rewrite without_graph_keys. split; [split|split; [by apply Forall_app|split; [|done]]].
  - eapply at_least_trans; [exact W1|]. eapply at_least_trans; [|exact L1]. by apply (sorted_ends order r c r Hs); left.
  - destruct L2 as [->|Hin]; [|by apply (proj1 (Forall_forall _ _) Hh)]. apply (proj1 (Forall_forall _ _) Hr), list_elem_of_fmap.
    eexists. split; [done|]. apply last_in.
  - intros _. apply Forall_app. split; [|done]. csimpl in *. apply StronglySorted_inv in Hs as [_ Hs].
    constructor; [done|]. eapply Forall_impl; [exact Hs|]. intros k Hk.
    eapply at_least_trans; [exact W1|]. by apply lt_not_least.
Qed.

Lemma heads_in (chunks : list (list RunRecordV2)) r : r ∈ omap head chunks → r ∈ concat chunks.
Proof.
  intros (c & Hc & Hr)%list_elem_of_omap. apply elem_of_concat. exists c. split; [done|].
  destruct c as [|x c]; [done|]. injection Hr as ->. left.
Qed.

Lemma heads_sorted (chunks : list (list RunRecordV2)) :
  StronglySorted (key_lt order) (rec_key <$> concat chunks) →
  StronglySorted (key_lt order) (rec_key <$> omap head chunks).
Proof.
  induction chunks as [|[|r c] chunks IH]; [constructor|done|]. csimpl. rewrite fmap_app. intros Hs.
  apply StronglySorted_inv in Hs as [Hs Hr]. constructor; [apply IH; by eapply StronglySorted_app_1_r|].
  apply Forall_forall. intros k (x & -> & Hx)%list_elem_of_fmap. apply (proj1 (Forall_forall _ _) Hr).
  apply elem_of_app. right. apply list_elem_of_fmap. exists x. split; [done|by apply heads_in].
Qed.

Lemma chunk_views chunks (history : list HistEntryV2) hi :
  chunks ≠ [] → Forall (λ c, c ≠ []) chunks →
  StronglySorted (key_lt order) (rec_key <$> concat chunks) →
  Forall (below order hi) (rec_key <$> concat chunks) → Forall (below order hi) (hist_key <$> history) →
  ∃ v vs, Forall2 (chunk_view order) (zip chunks (partition_history_to_chunks chunks history order)) (v :: vs)
    ∧ chain order false hi (v :: vs) ∧ all_rows (v :: vs) = without_graph <$> concat chunks
    ∧ all_hist (v :: vs) ≡ₚ history
    ∧ (∀ b, Forall (at_least order b) (rec_key <$> concat chunks) → Forall (at_least order b) (hist_key <$> history) →
         at_least order b (vw_first v))
    ∧ (∀ r c cs, chunks = (r :: c) :: cs → Forall (at_least order (rec_key r)) (hist_key <$> history) →
         vw_first v = rec_key r).
Proof.
  revert history. induction chunks as [|c chunks IH]; intros history Hne; [done|]. clear Hne.
  destruct c as [|r c]; [by intros [? _]%Forall_cons|]. intros [_ Hcs]%Forall_cons Hs Hr Hh.
  csimpl in Hs. csimpl in Hr. rewrite fmap_app in Hs, Hr.
  destruct chunks as [|[|b c'] chunks]; [|by apply Forall_cons in Hcs as [? _]|].
  - clear IH. rewrite partition_one. csimpl in Hs. csimpl in Hr. rewrite app_nil_r in Hs, Hr.
    eexists _, []. split; [by constructor|]. split; [by apply chunk_in_range|].
    unfold all_rows, all_hist. csimpl. rewrite !app_nil_r. split; [done|]. split; [done|].
    destruct (wider_spec order history (rec_key r)) as (W1 & W2 & W3). split.
    + intros b0 [Hb _]%Forall_cons Hb2. destruct W3 as [->|Hin]; [done|by apply (proj1 (Forall_forall _ _) Hb2)].
    + intros ? ? ? [= <- <- <-] Hge. by apply wider_none.
  - set (rest := (b :: c') :: chunks) in *.
    assert (StronglySorted (key_lt order) (rec_key <$> concat rest)) as Hs2 by (by eapply (StronglySorted_app_1_r _ (_ :: _))).
    assert (Forall (λ k, key_lt order k (rec_key b)) (rec_key <$> r :: c)) as Hlow.
    { apply Forall_forall. intros k Hk.
      eapply (StronglySorted_app_1_elem_of _ (rec_key <$> r :: c) (rec_key <$> concat rest)); [exact Hs|done|].
      unfold rest. csimpl. left. }
    apply (Forall_app _ (_ :: _)) in Hr as [_ Hr2].
    assert (below order hi (rec_key b)) as Hb.
    { apply (proj1 (Forall_forall _ _) Hr2). unfold rest. csimpl. left. }
    assert (Forall (below order hi) (hist_key <$> high order b history)) as Hh2.
    { apply Forall_forall. intros k (e & -> & He)%list_elem_of_fmap. apply list_elem_of_filter in He as [_ He].
      apply (proj1 (Forall_forall _ _) Hh), list_elem_of_fmap. by exists e. }
    destruct (IH (high order b history)) as (v & vs & V1 & V2 & V3 & V4 & _ & V6); [done|done|done|done|done|].
    assert (vw_first v = rec_key b) as Hv by (eapply V6; [reflexivity|apply high_keys]).
    eexists _, (v :: vs). split; [|split; [|split; [|split; [|split]]]].
    + unfold rest. rewrite partition_cons by (by apply heads_sorted).
      cbn [zip zip_with]. constructor; [done|exact V1].
    + apply (leaflet_chain_app _ false hi [_] (v :: vs)); [|exact V2]. cbn [next_key]. rewrite Hv.
      apply (chunk_in_range false (Some (rec_key b))); [|done|apply low_keys].
      by eapply (StronglySorted_app_1_l _ (_ :: _)).
    + unfold all_rows in *. csimpl in *. rewrite V3, !fmap_app. csimpl. by rewrite fmap_app.
    + unfold all_hist in *. csimpl in *. rewrite V4. apply low_high.
    + intros b0 [Hb0 _]%Forall_cons Hb2. cbn [vw_first fst snd].
      destruct (wider_spec order (low order b history) (rec_key r)) as (_ & _ & [->|Hin]); [done|].
      apply list_elem_of_fmap in Hin as (e & -> & He). apply list_elem_of_filter in He as [_ He].
      apply (proj1 (Forall_forall _ _) Hb2), list_elem_of_fmap. by exists e.
    + intros ? ? ? [= <- <- <-] Hge. cbn [vw_first fst snd]. apply wider_none, Forall_forall.
      intros k (e & -> & He)%list_elem_of_fmap. apply list_elem_of_filter in He as [_ He].
      apply (proj1 (Forall_forall _ _) Hge), list_elem_of_fmap. by exists e.
Qed.
End chunk_views.
