(* ===== verification/IndexUpdate.v ===== *)
(** * Updating leaves

    What the update of a leaf keeps: where the rows and entries of a merge come
    from, that its leaflets hold the keys from one routing key to the next, and
    that they record the events of each fact.  [process_parts] is the argument
    by which leaflets of a leaf and leaves of a branch are updated alike. *)

From S2P Require Import Prelude Vocab Ordering IndexFormat IndexDedup IndexMerge.
From S2P Require Import Accumulator IndexReplay IndexLeaf.
#[local] Open Scope Z_scope.

(** ** Where a merge's records come from *)

Section merge_values.
Context `{SO : Sorting}.
Context (P : RunRecordV2 → Prop) (Q : HistEntryV2 → Prop).
Hypothesis PQ : ∀ r op, P r → Q (record_to_hist_entry r op).
Hypothesis PQt : ∀ row nov, P row → P nov → Q (at_time (record_to_hist_entry row 0) (v2_t nov)).

#[local] Abbreviation Ps := (Forall (λ x : RunRecordV2 * Z, P x.1)).

Lemma gather_superseded_split sup nov :
  (gather_superseded sup nov).1 ++ (gather_superseded sup nov).2 = sup.
Proof.
  induction sup as [|x sup IH]; [done|]. simpl. destruct (same_identity_v2 x.1 nov); [|done].
  destruct (gather_superseded sup nov) as [g rest]; simpl in *. by rewrite IH.
Qed.

Lemma transitions_values b events : Ps events → Ps (transitions b events) ∧ (length (transitions b events) <= length events)%nat.
Proof.
  revert b. induction events as [|[r op] events IH]; intros b; [done|]. intros [Hr He]%Forall_cons. simpl.
  destruct (Bool.eqb (op =? 1) b).
  - destruct (IH b He). split; [done|lia].
  - destruct (IH (op =? 1) He). split; [by constructor|simpl; lia].
Qed.

Lemma push_values events b :
  Ps events → Forall Q (push_transition_entries events b).1
    ∧ (length (push_transition_entries events b).1 <= length events)%nat.
Proof.
  intros He. unfold push_transition_entries, resolve_transitions.
  set (evs := transitions b _).
  assert (Ps evs ∧ (length evs <= length events)%nat) as [H1 H2].
  { rewrite <- (Permutation_length (sort_perm false event_cmp events)). apply transitions_values. by rewrite sort_perm. }
  assert (∀ l : list (RunRecordV2 * Z), Ps l → Forall Q ((λ e, record_to_hist_entry e.1 e.2) <$> l)) as Hq.
  { intros l Hl. rewrite Forall_fmap. eapply Forall_impl; [exact Hl|]. intros x Hx. by apply PQ. }
  clearbody evs. destruct (last evs) as [[row op]|] eqn:El.
  - apply last_Some in El as [l' ->]. rewrite removelast_last. apply Forall_app in H1 as [H1 H3].
    rewrite length_app in H2. simpl in H2.
    destruct (op =? 1); simpl; rewrite length_fmap, ?length_app; simpl; (split; [apply Hq; try apply Forall_app; auto|lia]).
  - simpl. rewrite length_fmap. auto.
Qed.

Lemma push_unchanged events b :
  (push_transition_entries events b).2 = false → (push_transition_entries events b).1 = [].
Proof. unfold push_transition_entries. by destruct (resolve_transitions events b) as [[|] [|]]. Qed.

(** A step's rows and entries, no more than two per operation. *)
Definition step_values (events : list (RunRecordV2 * Z)) (base : nat) (x : list RunRecordV2 * list HistEntryV2) : Prop :=
  Forall P x.1 ∧ Forall Q x.2 ∧ (length x.1 + length x.2 <= base + 1 + length events)%nat.

Lemma absent_values nov op events : P nov → Ps events → step_values events 0 (merge_absent nov op events).
Proof.
  intros Hn He. destruct (push_values events false He) as [H1 H2]. unfold merge_absent, step_values; simpl.
  destruct (op =? 1); simpl; (split; [by repeat constructor|split; [done|lia]]).
Qed.

Lemma present_values row nov op events :
  P row → P nov → Ps events → (0 < length events)%nat → step_values events 1 (merge_present row nov op events).
Proof.
  intros Hr Hn He Hl. pose proof (push_values events true He) as [H1 H2].
  pose proof (push_unchanged events true) as H3. unfold merge_present, step_values.
  destruct (push_transition_entries events true) as [entries changed]; simpl in *.
  destruct (op =? 1); [destruct changed|].
  - simpl. rewrite app_nil_r. split; [by repeat constructor|]. split; [|lia]. constructor; [by apply PQ|done].
  - rewrite H3 by done. simpl. split; [by repeat constructor|]. split; [|lia].
    constructor; [by apply PQ|]. constructor; [by apply PQt|constructor].
  - simpl. split; [constructor|]. split; [|lia]. constructor; [by apply PQ|done].
Qed.

Definition acc_values (rows : list RunRecordV2) (nov sup : list (RunRecordV2 * Z)) (acc : MergeAcc) : Prop :=
  Forall P acc.1.1.1 ∧ Forall Q acc.1.1.2
  ∧ (length acc.1.1.1 + length acc.1.1.2 + length acc.2 <= length rows + 2 * length nov + length sup)%nat.

Lemma gather_values sup nov op :
  Ps sup → P nov →
  let x := gather_identity_events sup nov op in
  Ps x.1 ∧ Ps x.2 ∧ length x.1 = S (length sup - length x.2) ∧ (length x.2 <= length sup)%nat.
Proof.
  intros Hs Hn. unfold gather_identity_events. pose proof (gather_superseded_split sup nov) as Hsp.
  destruct (gather_superseded sup nov) as [g rest]; simpl in *. subst sup. apply Forall_app in Hs as [Hg Hr].
  rewrite !length_app. simpl. split; [apply Forall_app; split; [done|by repeat constructor]|]. split; [done|lia].
Qed.

Lemma step_join events base x rows0 rows nov0 nov sup sup' acc n :
  step_values events base x → acc_values rows nov sup' acc →
  length events = S (length sup - length sup') → (length sup' <= length sup)%nat →
  length rows0 = (base + length rows)%nat → length nov0 = S (length nov) →
  acc_values rows0 nov0 sup (x.1 ++ acc.1.1.1, x.2 ++ acc.1.1.2, n, acc.2).
Proof.
  intros (S1 & S2 & S3) (A1 & A2 & A3) He Hs Hr Hn. unfold acc_values; simpl.
  rewrite !length_app. split; [by apply Forall_app|]. split; [by apply Forall_app|lia].
Qed.

Lemma drain_values nov sup : Ps nov → Ps sup → acc_values [] nov sup (drain_novelty nov sup).
Proof.
  intros Hn. revert sup. induction Hn as [|[r op] nov Hr Hn IH]; intros sup Hs.
  { unfold acc_values; simpl. split; [constructor|]. split; [constructor|lia]. }
  cbn [drain_novelty]. destruct (gather_values sup r op Hs Hr) as (G1 & G2 & G3 & G4).
  destruct (gather_identity_events sup r op) as [events sup']; cbn [fst snd] in *.
  pose proof (absent_values r op events Hr G1) as Ha. destruct (merge_absent r op events) as [row entries].
  specialize (IH sup' G2). destruct (drain_novelty nov sup') as [[[out h] m] s].
  by apply (step_join events 0 (row, entries) [] [] ((r, op) :: nov) nov sup sup' (out, h, m, s)).
Qed.

Lemma merge_loop_values order rows nov sup :
  Forall P rows → Ps nov → Ps sup → acc_values rows nov sup (merge_loop order rows nov sup).
Proof.
  intros Hrs. revert nov sup. induction Hrs as [|row rows Hrow Hrs IHr]; intros nov sup Hn; [by apply drain_values|].
  revert sup. induction Hn as [|[r op] nov Hr Hn IHn]; intros sup Hs.
  { unfold acc_values; simpl. split; [by constructor|]. split; [constructor|lia]. }
  cbn [merge_loop]. destruct (cmp_batch_row_vs_record row r order).
  - destruct (gather_values sup r op Hs Hr) as (G1 & G2 & G3 & G4).
    destruct (gather_identity_events sup r op) as [events sup']; cbn [fst snd] in *.
    assert (0 < length events)%nat as Hl by lia.
    pose proof (present_values row r op events Hrow Hr G1 Hl) as Ha.
    destruct (merge_present row r op events) as [row' entries].
    specialize (IHr nov sup' Hn G2). destruct (merge_loop order rows nov sup') as [[[out h] m] s].
    by apply (step_join events 1 (row', entries) (row :: rows) rows ((r, op) :: nov) nov sup sup' (out, h, m, s)).
  - assert (Ps ((r, op) :: nov)) as Hn' by (by constructor). specialize (IHr _ sup Hn' Hs).
    destruct (merge_loop order rows ((r, op) :: nov) sup) as [[[out h] m] s].
    destruct IHr as (A1 & A2 & A3). unfold acc_values in *; simpl in *. split; [by constructor|]. split; [done|lia].
  - destruct (gather_values sup r op Hs Hr) as (G1 & G2 & G3 & G4).
    destruct (gather_identity_events sup r op) as [events sup']; cbn [fst snd] in *.
    pose proof (absent_values r op events Hr G1) as Ha. destruct (merge_absent r op events) as [row' entries].
    specialize (IHn sup' G2). change (acc_values (row :: rows) nov sup' (merge_loop order (row :: rows) nov sup')) in IHn.
    cbn [merge_loop] in IHn. destruct (_ nov sup') as [[[out h] m] s].
    by apply (step_join events 0 (row', entries) (row :: rows) (row :: rows) ((r, op) :: nov) nov sup sup' (out, h, m, s)).
Qed.

Lemma merge_novelty_values order batch rows hist nov sup out :
  column_batch_to_records batch = Some rows → Forall P rows → Forall Q hist → Ps nov → Ps sup →
  merge_novelty {| mi_batch := batch; mi_existing_history := hist; mi_novelty := nov;
                   mi_superseded := sup; mi_order := order |} = Some out →
  Forall P (mo_records out) ∧ Forall Q (mo_history out)
  ∧ (length (mo_records out) + length (mo_history out)
     <= length rows + length hist + 2 * length nov + length sup)%nat.
Proof.
  intros Hb Hr Hh Hn Hs. unfold merge_novelty; cbn [mi_batch mi_order mi_novelty mi_superseded mi_existing_history].
  rewrite Hb. cbn [mbind option_bind]. pose proof (merge_loop_values order rows nov sup Hr Hn Hs) as (A1 & A2 & A3).
  destruct (merge_loop order rows nov sup) as [[[o h] m] [|]]; [|done]. intros [= <-]. simpl in *.
  unfold assemble_history. split; [done|]. split; [apply Forall_app; split; [by rewrite sort_perm|done]|].
  rewrite length_app, (Permutation_length (sort_perm false history_cmp h)). lia.
Qed.
End merge_values.

(** ** Cutting a stream at a routing key *)

Section streams.
Context (order : RunSortOrder) (b : FactKeyV3).

Definition low_stream (s : list (RunRecordV2 * Z)) : Prop := Forall (λ x, key_lt order (okey x) b) s.
Definition high_stream (s : list (RunRecordV2 * Z)) : Prop := Forall (λ x, at_least order b (okey x)) s.

Lemma stream_split s :
  sorted_by (λ x y : RunRecordV2 * Z, cmp_v2_for_order order x.1 y.1) s →
  ∃ s1 s2, s = s1 ++ s2 ∧ low_stream s1 ∧ high_stream s2.
Proof.
  induction s as [|x s IH]; intros Hs; [exists [], []; split; [done|]; split; constructor|].
  apply StronglySorted_inv in Hs as [Hs Hx]. destruct (at_least_cases order b (okey x)) as [Hl|Hl].
  - destruct (IH Hs) as (s1 & s2 & -> & H1 & H2). exists (x :: s1), s2. split; [done|]. split; [by constructor|done].
  - exists [], (x :: s). split; [done|]. split; [constructor|]. constructor; [done|].
    eapply Forall_impl; [exact Hx|]. intros y Hy. eapply at_least_trans; [exact Hl|]. intros Hlt.
    unfold cmp_le in Hy. rewrite cmp_v2_key in Hy. unfold key_lt, okey in Hlt.
    rewrite (cmp_flip (P := λ _, True) (cmp := key_cmp order) (rec_key y.1) (rec_key x.1)), Hlt in Hy. done.
Qed.

Lemma stream_cut s s1 s2 bytes :
  Forall (λ x, v2_ok x.1) s → v2_ok (key_rec b) → bytes = write_ordered_key_v2 order (key_rec b) →
  s = s1 ++ s2 → low_stream s1 → high_stream s2 →
  let n := partition_point (λ r, match cmp_ordered_key_v2 (write_ordered_key_v2 order r.1) bytes with
                                 | Lt => true | _ => false end) s in
  take n s = s1 ∧ drop n s = s2.
Proof.
  intros Hok Hb -> -> H1 H2 n. apply Forall_app in Hok as [Ho1 Ho2].
  assert (n = length s1) as ->; [|by rewrite take_app_length, drop_app_length].
  apply (partition_point_spec _ _ s1 s2); [done|..]; apply Forall_forall; intros x Hx.
  - pose proof (proj1 (Forall_forall _ _) H1 x Hx) as Hl. simpl in Hl.
    rewrite ordered_key_cmp by (try done; by apply (proj1 (Forall_forall _ _) Ho1)).
    rewrite cmp_v2_key, rec_key_rec. unfold okey in Hl. by rewrite Hl.
  - pose proof (proj1 (Forall_forall _ _) H2 x Hx) as Hl. simpl in Hl.
    rewrite ordered_key_cmp by (try done; by apply (proj1 (Forall_forall _ _) Ho2)).
    rewrite cmp_v2_key, rec_key_rec. unfold at_least, key_lt, okey in Hl. by destruct (key_cmp _ _ _).
Qed.

Lemma at_key_low k s : low_stream s → at_least order b k → at_key k s = [].
Proof. intros Hs Hk. apply list_filter_none. eapply Forall_impl; [exact Hs|]. intros x Hx <-. by apply Hk. Qed.

Lemma at_key_high k s : high_stream s → key_lt order k b → at_key k s = [].
Proof. intros Hs Hk. apply list_filter_none. eapply Forall_impl; [exact Hs|]. intros x Hx <-. by apply Hx. Qed.

Lemma streams_cut nov1 nov2 sup1 sup2 W :
  low_stream nov1 → high_stream nov2 → low_stream sup1 → high_stream sup2 →
  streams_ok order (nov1 ++ nov2) (sup1 ++ sup2) W →
  streams_ok order nov1 sup1 (cut_below order b W) ∧ streams_ok order nov2 sup2 (cut_above order b W).
Proof.
  intros Hn1 Hn2 Hs1 Hs2 [H1 H2 H3]. rewrite fmap_app in H1. split; split.
  - by eapply StronglySorted_app_1_l.
  - by eapply StronglySorted_app_1_l.
  - intros k. specialize (H3 k). rewrite !at_key_app in H3. destruct (at_least_cases order b k) as [Hk|Hk].
    + rewrite (at_key_high k nov2), (at_key_high k sup2), !app_nil_r in H3 by done.
      by destruct (cut_below_key order b W k Hk) as [-> _].
    + rewrite (at_key_low k nov1), (at_key_low k sup1) by done.
      destruct (cut_ge order b W k Hk) as [-> _]. by left.
  - by eapply StronglySorted_app_1_r.
  - by eapply StronglySorted_app_1_r.
  - intros k. specialize (H3 k). rewrite !at_key_app in H3. destruct (at_least_cases order b k) as [Hk|Hk].
    + rewrite (at_key_high k nov2), (at_key_high k sup2) by done.
      destruct (cut_below_key order b W k Hk) as [_ ->]. by left.
    + rewrite (at_key_low k nov1), (at_key_low k sup1) in H3 by done.
      by destruct (cut_ge order b W k Hk) as [_ ->].
Qed.
End streams.

Lemma strict_stream_sorted order (s : list (RunRecordV2 * Z)) :
  StronglySorted (key_lt order) (okey <$> s) → sorted_by (λ x y, cmp_v2_for_order order x.1 y.1) s.
Proof.
  induction s as [|x s IH]; [constructor|]. csimpl. intros [Hs Hx]%StronglySorted_inv.
  constructor; [by apply IH|]. rewrite Forall_fmap in Hx. eapply Forall_impl; [exact Hx|]. intros y Hy.
  unfold cmp_le. rewrite cmp_v2_key. simpl in Hy. unfold okey, key_lt in Hy. by rewrite Hy.
Qed.

(** ** Updating a leaflet *)

(** An entry of a leaf's directory, with the leaf's sidecar. *)
Definition entry_reads (order : RunSortOrder) (sidecar : option (list Z)) (entry : LeafletDirEntryV3) (v : View) : Prop :=
  reads order (de_leaflet entry) v ∧ load_existing_history entry sidecar = Some (vw_hist v)
  ∧ sorted_by newest_first (vw_hist v) ∧ 0 <= sr_len (de_history entry)
  ∧ Forall (λ e, he_t e <= sr_max_t (de_history entry)) (vw_hist v).

(** The rows and entries of some leaflets. *)
Definition view_size (vs : list View) : nat := length (all_rows vs) + length (all_hist vs).

Lemma view_size_app vs1 vs2 : view_size (vs1 ++ vs2) = (view_size vs1 + view_size vs2)%nat.
Proof. unfold view_size. rewrite all_rows_app, all_hist_app, !length_app. lia. Qed.

(** Leaflets that replace one or more of routing key [b] on. *)
Record updated (order : RunSortOrder) (lm : bool) (hi : option FactKeyV3) (b : FactKeyV3)
    (E : FactKeyV3 → list Ev) (n : nat) (vs : list View) : Prop := {
  up_first : ∃ v vs', vs = v :: vs' ∧ (lm = false → at_least order b (vw_first v));
  up_chain : chain order lm hi vs;
  up_log : leaflet_log order (all_rows vs) (all_hist vs) E;
  up_ok : Forall view_ok vs;
  up_size : (view_size vs <= n)%nat;
}.

Lemma all_one v : all_rows [v] = vw_rows v ∧ all_hist [v] = vw_hist v.
Proof. unfold all_rows, all_hist. csimpl. by rewrite !app_nil_r. Qed.

Lemma without_graph_ok r : v2_ok r → v2_ok (without_graph r).
Proof. intros (? & ? & ? & ? & ? & ? & ?). unfold v2_ok; simpl. lia. Qed.

Lemma record_hist_ok r op : v2_ok r → hist_ok (record_to_hist_entry r op).
Proof. by intros (? & ? & ? & ? & ? & ? & ?). Qed.

Lemma streams_empty order sup W : streams_ok order [] sup W → sup = [] ∧ ∀ k, W k = [].
Proof.
  intros Hok. split; [by eapply beside_nil, streams_beside|]. intros k.
  destruct (so_ops _ _ _ _ Hok k) as [(_ & _ & ?)|(x & D & Hx & _)]; done.
Qed.

Lemma views_ok vs : Forall v2_ok (all_rows vs) → Forall hist_ok (all_hist vs) → Forall view_ok vs.
Proof.
  unfold all_rows, all_hist. induction vs as [|v vs IH]; [constructor|]. csimpl.
  intros [H1 H2]%Forall_app [H3 H4]%Forall_app. constructor; [done|by apply IH].
Qed.

Lemma all_keys (P : FactKeyV3 → Prop) vs :
  Forall P (concat (view_keys <$> vs)) → Forall P (rec_key <$> all_rows vs) ∧ Forall P (hist_key <$> all_hist vs).
Proof.
  intros H. split; apply Forall_forall; intros k Hk; apply (proj1 (Forall_forall _ _) H), elem_of_view_keys; auto.
Qed.

Lemma zip_cons {A B} (x : A) (y : B) l k : zip (x :: l) (y :: k) = (x, y) :: zip l k.
Proof. done. Qed.

Lemma mapM_cons_Some {A B} (f : A → option B) x l y ys :
  f x = Some y → mapM f l = Some ys → mapM f (x :: l) = Some (y :: ys).
Proof. intros H1 H2. cbn [mapM]. rewrite H1. cbn [mbind option_bind]. by rewrite H2. Qed.

Section update_leaflet.
Context `{SO : Sorting} (order : RunSortOrder) (input : LeafUpdateInput).
Hypothesis Horder : lu_order input = order.
Hypothesis Htarget : (0 < lu_leaflet_target_rows input)%nat.

Section one.
Context (entry : LeafletDirEntryV3) (v : View) (nov sup : list (RunRecordV2 * Z)).
Context (lm : bool) (hi : option FactKeyV3) (E W : FactKeyV3 → list Ev).
Hypothesis Hreads : entry_reads order (lf_sidecar (lu_leaf input)) entry v.
Hypothesis Hvok : view_ok v.
Hypothesis Hchain : chain order lm hi [v].
Hypothesis Hlog : leaflet_log order (vw_rows v) (vw_hist v) E.
Hypothesis Hstreams : streams_ok order nov sup W.
Hypothesis Hnewer : newer E W.
Hypothesis Hnov : Forall (λ x, v2_ok x.1) nov.
Hypothesis Hsup : Forall (λ x, v2_ok x.1) sup.
Hypothesis Hlow : Forall (λ x, below order hi (okey x)) nov.
Hypothesis Hhigh : lm = false → Forall (λ x, at_least order (vw_first v) (okey x)) nov.

Definition in_range (k : FactKeyV3) : Prop := below order hi k ∧ (lm = false → at_least order (vw_first v) k).

Lemma view_in_range : Forall (λ r, v2_ok r ∧ in_range (rec_key r)) (vw_rows v)
  ∧ Forall (λ e, hist_ok e ∧ in_range (hist_key e)) (vw_hist v).
Proof.
  destruct Hvok as [Ho1 Ho2]. destruct Hchain as (_ & H2 & H3 & _). unfold view_keys in *.
  apply Forall_app in H2 as [H2 H2']. rewrite Forall_fmap in H2. rewrite Forall_fmap in H2'.
  split; apply Forall_forall; intros x Hx; (split; [by eapply Forall_forall; eauto|]); split;
    [by apply (proj1 (Forall_forall _ _) H2)| |by apply (proj1 (Forall_forall _ _) H2')|];
    intros Hlm; apply H3, Forall_app in Hlm as [Hl1 Hl2]; rewrite Forall_fmap in Hl1; rewrite Forall_fmap in Hl2;
    [by apply (proj1 (Forall_forall _ _) Hl1)|by apply (proj1 (Forall_forall _ _) Hl2)].
Qed.

Lemma novelty_in_range : Forall (λ x, v2_ok x.1 ∧ in_range (okey x)) nov.
Proof.
  apply Forall_forall. intros x Hx. split; [by apply (proj1 (Forall_forall _ _) Hnov)|].
  split; [by apply (proj1 (Forall_forall _ _) Hlow)|]. intros Hlm. by apply (proj1 (Forall_forall _ _) (Hhigh Hlm)).
Qed.

Lemma superseded_in_range : Forall (λ x, v2_ok x.1 ∧ in_range (okey x)) sup.
Proof.
  apply Forall_forall. intros x Hx. split; [by apply (proj1 (Forall_forall _ _) Hsup)|].
  pose proof (streams_beside _ _ _ _ Hstreams) as Hb. apply (proj1 (Forall_forall _ _) Hb) in Hx.
  apply list_elem_of_fmap in Hx as (y & -> & Hy). by apply (proj1 (Forall_forall _ _) novelty_in_range).
Qed.

Lemma merge_in_range batch out :
  column_batch_to_records batch = Some (vw_rows v) →
  merge_novelty {| mi_batch := batch; mi_existing_history := vw_hist v; mi_novelty := nov;
                   mi_superseded := sup; mi_order := order |} = Some out →
  Forall (λ r, v2_ok r ∧ in_range (rec_key r)) (mo_records out)
  ∧ Forall (λ e, hist_ok e ∧ in_range (hist_key e)) (mo_history out)
  ∧ (length (mo_records out) + length (mo_history out) <= view_size [v] + 2 * length nov + length sup)%nat.
Proof.
  intros Hb Hm. destruct view_in_range as [H1 H2]. unfold view_size. destruct (all_one v) as [-> ->].
  eapply merge_novelty_values; [| |exact Hb|exact H1|exact H2|exact novelty_in_range|exact superseded_in_range|exact Hm].
  - intros r op [Hr Hk]. split; [by apply record_hist_ok|by rewrite hist_key_record].
  - intros row x [Hr Hk] [Hx _]. split; [|done].
    destruct Hr as (? & ? & ? & ? & ? & ? & ?), Hx as (? & ? & ? & ? & ? & ? & ?). done.
Qed.

#[local] Abbreviation after_update := (updated order lm hi (vw_first v) (λ k, E k ++ W k) (view_size [v] + 2 * length nov + length sup)%nat).

Lemma merged_empty hist' :
  Forall (λ e, hist_ok e ∧ in_range (hist_key e)) hist' →
  (length hist' <= view_size [v] + 2 * length nov + length sup)%nat →
  leaflet_log order [] hist' (λ k, E k ++ W k) →
  pl_reads order {| pl_encoded := empty_encoded_leaflet_with_keys entry; pl_history := hist' |}
    {| vw_first := vw_first v; vw_last := vw_last v; vw_rows := []; vw_hist := hist' |}
  ∧ after_update [{| vw_first := vw_first v; vw_last := vw_last v; vw_rows := []; vw_hist := hist' |}].
Proof.
  intros Hh Hn Hl. destruct Hreads as ([R1 R2 R3 R4 _ _] & _). split.
  - split; [|done]. split; [done..|constructor|]. by exists empty_batch.
  - destruct (all_one {| vw_first := vw_first v; vw_last := vw_last v; vw_rows := []; vw_hist := hist' |}) as [A1 A2].
    split.
    + eexists _, []. split; [done|]. intros _. apply at_least_refl.
    + destruct Hchain as (C1 & _). split; [done|]. unfold view_keys; simpl. rewrite !Forall_fmap.
      split; [|split; [|done]]; [|intros Hlm]; (eapply Forall_impl; [exact Hh|]); intros e (_ & K1 & K2); [done|by apply K2].
    + by rewrite A1, A2.
    + constructor; [|constructor]. split; [constructor|]. eapply Forall_impl; [exact Hh|]. by intros e [? _].
    + unfold view_size in *. rewrite A1, A2. cbn [vw_rows vw_hist length]. lia.
Qed.

Lemma Forall_split {A} (P Q : A → Prop) l : Forall (λ x, P x ∧ Q x) l → Forall P l ∧ Forall Q l.
Proof. rewrite Forall_and. done. Qed.

Lemma merged_chunks records hist' :
  records ≠ [] → Forall (λ r, v2_ok r ∧ in_range (rec_key r)) records →
  Forall (λ e, hist_ok e ∧ in_range (hist_key e)) hist' →
  (length records + length hist' <= view_size [v] + 2 * length nov + length sup)%nat →
  leaflet_log order records hist' (λ k, E k ++ W k) →
  let chunks := split_by_segmentation_and_size records order (lu_leaflet_target_rows input) in
  let histories := match chunks with [_] => [hist'] | _ => partition_history_to_chunks chunks hist' order end in
  ∃ ps vs, mapM (λ ch, encode_chunk order ch.1 ch.2) (zip chunks histories) = Some ps
    ∧ Forall2 (pl_reads order) ps vs ∧ after_update vs.
Proof.
  intros Hne Hr Hh Hn Hl chunks histories.
  destruct (split_segments_spec (length records) records order _ Htarget (Nat.le_refl _)) as [S1 S2].
  fold (split_by_segmentation_and_size records order (lu_leaflet_target_rows input)) in S1, S2. fold chunks in S1, S2.
  assert (histories = partition_history_to_chunks chunks hist' order) as ->.
  { unfold histories. destruct chunks as [|c [|]]; [done| |done]. by rewrite partition_one. }
  apply Forall_split in S2 as [S2 S3].
  destruct (Forall_split _ _ _ Hr) as [Hrok Hrk]. destruct (Forall_split _ _ _ Hh) as [Hhok Hhk].
  assert (chunks ≠ []) as Hc by (intros Hc; rewrite Hc in S1; by destruct records).
  destruct (chunk_views order chunks hist' hi) as (v' & vs & V1 & V2 & V3 & V4 & V5 & _); [done|done|..].
  { rewrite S1. apply Hl. }
  { rewrite S1, Forall_fmap. eapply Forall_impl; [exact Hrk|]. by intros r [? _]. }
  { rewrite Forall_fmap. eapply Forall_impl; [exact Hhk|]. by intros e [? _]. }
  rewrite S1 in V3, V5.
  destruct (encode_chunks_read order _ _ V1) as (ps & P1 & P2).
  { apply Forall_forall. intros ch Hch.
    assert (ch.1 ∈ chunks) as Hin by (by eapply elem_of_zip_l; rewrite <- surjective_pairing).
    split; [by apply (proj1 (Forall_forall _ _) S3)|]. apply (chunks_sorted order chunks); [|done].
    unfold chunk_sorted. rewrite S1. apply Hl. }
  { apply Forall_forall. intros ch Hch. split.
    - assert (ch.1 ∈ chunks) as Hin by (by eapply elem_of_zip_l; rewrite <- surjective_pairing).
      apply Forall_forall. intros r Hr'. apply (proj1 (Forall_forall _ _) Hrok). rewrite <- S1.
      apply elem_of_concat. by exists ch.1.
    - assert (ch.2 ∈ partition_history_to_chunks chunks hist' order) as Hin by (by eapply elem_of_zip_r; rewrite <- surjective_pairing).
      apply list_elem_of_fmap in Hin as (i & -> & _). apply Forall_forall. intros e [_ He]%list_elem_of_filter.
      by apply (proj1 (Forall_forall _ _) Hhok). }
  exists ps, (v' :: vs). split; [done|]. split; [done|]. split.
  - exists v', vs. split; [done|]. intros Hlm. apply V5; rewrite Forall_fmap;
      (eapply Forall_impl; [first [exact Hrk|exact Hhk]|]); intros x [_ K]; by apply K.
  - by apply chain_leftmost.
  - rewrite V3. eapply leaflet_log_perm; [symmetry; exact V4|]. by apply leaflet_log_graph.
  - apply views_ok; [rewrite V3, Forall_fmap|by rewrite V4].
    eapply Forall_impl; [exact Hrok|]. intros r. apply without_graph_ok.
  - unfold view_size in *. rewrite V3, length_fmap, (Permutation_length V4). lia.
Qed.

Lemma process_leaflet_spec :
  ∃ ps matched vs, process_leaflet input (entry, (nov, sup)) = Some (ps, matched)
    ∧ Forall2 (pl_reads order) ps vs ∧ after_update vs.
Proof.
  destruct Hreads as (HR & Hload & _). destruct (decide (nov = [])) as [Hnil|Hnil].
  - subst nov. destruct (streams_empty _ _ _ Hstreams) as [-> HW]. cbn [process_leaflet].
    unfold passthrough_leaflet. rewrite Hload. cbn [mbind option_bind]. eexists _, _, [v]. split; [done|].
    split; [by constructor|]. split; [|done| |by constructor|lia].
    + exists v, []. split; [done|]. intros _. apply at_least_refl.
    + destruct (all_one v) as [-> ->]. eapply leaflet_log_ext; [|exact Hlog]. intros k. by rewrite HW, app_nil_r.
  - destruct HR as [_ _ _ _ _ (batch & Hb & Hrec)].
    destruct (merge_novelty_log order batch (vw_rows v) (vw_hist v) nov sup E W Hrec Hlog Hstreams Hnewer)
      as (out & Hout & Hl).
    destruct (merge_in_range batch out Hrec Hout) as (M1 & M2 & M3).
    assert (process_leaflet input (entry, (nov, sup)) = merge_and_encode_leaflet input entry nov sup) as ->
      by (by destruct nov).
    unfold merge_and_encode_leaflet, leaflet_batch. rewrite Hb. cbn [mbind option_bind]. rewrite Hload.
    cbn [mbind option_bind]. rewrite Horder, Hout. cbn [mbind option_bind]. cbv zeta.
    destruct (mo_records out) as [|r rs] eqn:Erec.
    + destruct (merged_empty (mo_history out)) as [H1 H2]; [done|simpl in M3; lia|done|].
      eexists _, _, _. split; [done|]. split; [by constructor|done].
    + destruct (merged_chunks (r :: rs) (mo_history out)) as (ps & vs & H1 & H2 & H3); [done..|].
      cbv zeta in H1. rewrite H1. cbn [mbind option_bind]. by eexists _, _, vs.
Qed.
End one.

End update_leaflet.

(** ** Updating a sequence

    Leaflets of a leaf and leaves of a branch are updated alike: the streams
    are cut at the routing keys and each part is processed by itself. *)

Lemma newer_cut order b E W :
  newer E W → newer (cut_below order b E) (cut_below order b W) ∧ newer (cut_above order b E) (cut_above order b W).
Proof.
  intros Hn. split; intros k e w; unfold cut_below, cut_above; destruct (key_cmp order k b);
    solve [by apply Hn|by intros ?%not_elem_of_nil].
Qed.

Lemma updated_app order lm hi b b2 E E1 E2 n1 n2 vs1 vs2 :
  updated order lm (Some b2) b E1 n1 vs1 → updated order false hi b2 E2 n2 vs2 →
  (∀ k, key_lt order k b2 → E1 k = E k) → (∀ k, at_least order b2 k → E2 k = E k) →
  updated order lm hi b E (n1 + n2) (vs1 ++ vs2).
Proof.
  intros [(v1 & vs1' & -> & F1) C1 L1 O1 S1] [(v2 & vs2' & -> & F2) C2 L2 O2 S2] H1 H2.
  specialize (F2 eq_refl).
  assert (Forall (λ k, key_lt order k b2) (concat (view_keys <$> v1 :: vs1'))) as Hlow.
  { apply Forall_forall. intros k Hk. by eapply chain_below in C1; [|exact Hk]. }
  assert (Forall (at_least order b2) (concat (view_keys <$> v2 :: vs2'))) as Hhigh.
  { apply Forall_forall. intros k Hk. eapply at_least_trans; [exact F2|]. by eapply chain_above. }
  split.
  - by exists v1, (vs1' ++ v2 :: vs2').
  - apply leaflet_chain_app; [apply (chain_weaken _ _ (Some b2)); [exact F2|exact C1]|]. by rewrite andb_false_r.
  - rewrite all_rows_app, all_hist_app.
    apply all_keys in Hlow as [Hl1 Hl2], Hhigh as [Hh1 Hh2]. by apply (leaflet_log_join order b2) with E1 E2.
  - by apply Forall_app.
  - rewrite view_size_app. lia.
Qed.

(** What one part is given: its leaflets, and newer operations in its range. *)
Record update_of (order : RunSortOrder) (lm : bool) (hi : option FactKeyV3) (b : FactKeyV3)
    (E W : FactKeyV3 → list Ev) (vs : list View) (nov sup : list (RunRecordV2 * Z)) : Prop := {
  uo_first : head (vw_first <$> vs) = Some b;
  uo_ok : Forall view_ok vs;
  uo_chain : chain order lm hi vs;
  uo_log : leaflet_log order (all_rows vs) (all_hist vs) E;
  uo_streams : streams_ok order nov sup W;
  uo_newer : newer E W;
  uo_nov : Forall (λ x, v2_ok x.1) nov;
  uo_sup : Forall (λ x, v2_ok x.1) sup;
  uo_low : Forall (λ x, below order hi (okey x)) nov;
  uo_high : lm = false → Forall (λ x, at_least order b (okey x)) nov;
}.

(** Cut at the routing key of the second of two parts. *)
Lemma update_cut order lm hi b b2 E W vs1 vs2 n1 n2 s1 s2 :
  vs1 ≠ [] → head (vw_first <$> vs2) = Some b2 →
  low_stream order b2 n1 → high_stream order b2 n2 → low_stream order b2 s1 → high_stream order b2 s2 →
  update_of order lm hi b E W (vs1 ++ vs2) (n1 ++ n2) (s1 ++ s2) →
  update_of order lm (Some b2) b (cut_below order b2 E) (cut_below order b2 W) vs1 n1 s1
  ∧ update_of order false hi b2 (cut_above order b2 E) (cut_above order b2 W) vs2 n2 s2.
Proof.
  intros Hne Hb2 N1 N2 S1 S2 [Hf Hok Hc Hl Hs Hnew Hn1 Hn2 Hlow Hhigh].
  destruct (streams_cut order b2 n1 n2 s1 s2 W N1 N2 S1 S2 Hs) as [Hs1 Hs2].
  destruct (newer_cut order b2 E W Hnew) as [Hnew1 Hnew2].
  apply chain_app_inv in Hc as [C1 C2].
  assert (match vs1 with [] => true | _ => false end = false) as Hm by (by destruct vs1). rewrite Hm, andb_false_r in C2.
  destruct vs2 as [|v2 vs2]; [done|]. injection Hb2 as Hb2. cbn [next_key] in C1. rewrite Hb2 in C1.
  assert (Forall (λ k, key_lt order k b2) (concat (view_keys <$> vs1))) as Hlow'.
  { apply Forall_forall. intros k Hk. by apply (chain_below order lm (Some b2) vs1). }
  assert (Forall (at_least order b2) (concat (view_keys <$> v2 :: vs2))) as Hhigh'.
  { apply Forall_forall. intros k Hk. rewrite <- Hb2. by eapply chain_above. }
  apply all_keys in Hlow' as [Hl1 Hl2], Hhigh' as [Hh1 Hh2]. rewrite all_rows_app, all_hist_app in Hl.
  destruct (leaflet_log_split order b2 _ _ _ _ Hl1 Hl2 Hh1 Hh2 E Hl) as [L1 L2].
  apply Forall_app in Hok as [Ho1 Ho2], Hn1 as [Hn11 Hn12], Hn2 as [Hn21 Hn22], Hlow as [_ Hlow2].
  split; split; try done.
  - by destruct vs1.
  - intros Hlm. by specialize (Hhigh Hlm); apply Forall_app in Hhigh as [? _].
  - simpl. by rewrite Hb2.
Qed.

Section parts.
Context {A B : Type} (order : RunSortOrder) (N : nat).
Context (item_views : A → list View → Prop) (out_views : B → list View → Prop).
Context (slices : list A → list (RunRecordV2 * Z) → list (list (RunRecordV2 * Z))).
Context (process : A * (list (RunRecordV2 * Z) * list (RunRecordV2 * Z)) → option B).
Hypothesis slices_one : ∀ a s, slices [a] s = [s].
Hypothesis slices_cut : ∀ a a2 l vs2 b2 s1 s2,
  item_views a2 vs2 → head (vw_first <$> vs2) = Some b2 → Forall (λ x, v2_ok x.1) (s1 ++ s2) →
  low_stream order b2 s1 → high_stream order b2 s2 → slices (a :: a2 :: l) (s1 ++ s2) = s1 :: slices (a2 :: l) s2.
Hypothesis item_nonempty : ∀ a vs, item_views a vs → vs ≠ [].
Hypothesis process_one : ∀ a vs lm hi b E W nov sup,
  item_views a vs → update_of order lm hi b E W vs nov sup →
  (view_size vs + 2 * length nov + length sup <= N)%nat →
  ∃ out vs', process (a, (nov, sup)) = Some out ∧ out_views out vs'
    ∧ updated order lm hi b (λ k, E k ++ W k) (view_size vs + 2 * length nov + length sup) vs'.

Lemma process_parts items vss lm hi b E W nov sup :
  Forall2 item_views items vss → items ≠ [] → update_of order lm hi b E W (concat vss) nov sup →
  (view_size (concat vss) + 2 * length nov + length sup <= N)%nat →
  ∃ outs vss', mapM process (zip items (zip (slices items nov) (slices items sup))) = Some outs
    ∧ Forall2 out_views outs vss'
    ∧ updated order lm hi b (λ k, E k ++ W k) (view_size (concat vss) + 2 * length nov + length sup) (concat vss').
Proof.
  intros Hr. revert lm b E W nov sup. induction Hr as [|a vs items vss Ha Has IH]; [done|].
  intros lm b E W nov sup _ Hu HN. destruct Has as [|a2 vs2 items vss Ha2 Has].
  { csimpl in Hu. csimpl in HN. rewrite app_nil_r in Hu, HN.
    destruct (process_one a vs lm hi b E W nov sup Ha Hu HN) as (out & vs' & H1 & H2 & H3).
    exists [out], [vs']. rewrite !slices_one. split; [rewrite !zip_cons; by apply mapM_cons_Some|].
    split; [by constructor|]. csimpl. by rewrite !app_nil_r. }
  destruct (head (vw_first <$> vs2)) as [b2|] eqn:Hb2; [|by destruct vs2; [apply item_nonempty in Ha2|]].
  destruct (stream_split order b2 nov) as (n1 & n2 & -> & N1 & N2); [by apply strict_stream_sorted; destruct Hu as [_ _ _ _ [? ? ?]]|].
  destruct (stream_split order b2 sup) as (s1 & s2 & -> & S1 & S2); [by destruct Hu as [_ _ _ _ [? ? ?]]|].
  destruct (update_cut order lm hi b b2 E W vs (concat (vs2 :: vss)) n1 n2 s1 s2) as [U1 U2]; [by eapply item_nonempty| |done..|].
  { csimpl. by destruct vs2. }
  rewrite !length_app in HN. change (concat (vs :: vs2 :: vss)) with (vs ++ concat (vs2 :: vss)) in HN.
  rewrite view_size_app in HN.
  destruct (process_one a vs lm (Some b2) b _ _ n1 s1 Ha U1 ltac:(lia)) as (out & vs1' & P1 & P2 & P3).
  destruct (IH false b2 _ _ n2 s2 ltac:(done) U2 ltac:(lia)) as (outs & vss' & Q1 & Q2 & Q3).
  exists (out :: outs), (vs1' :: vss'). split; [|split; [by constructor|]].
  - rewrite (slices_cut a a2 items vs2 b2 n1 n2), (slices_cut a a2 items vs2 b2 s1 s2)
      by first [done|by apply Hu]. rewrite !zip_cons. by apply mapM_cons_Some.
  - pose proof (updated_app order lm hi b b2 (λ k, E k ++ W k) _ _ _ _ vs1' (concat vss') P3 Q3) as H.
    destruct H as [V1 V2 V3 V4 V5].
    { intros k Hk. by destruct (cut_below_key order b2 E k Hk) as [-> _], (cut_below_key order b2 W k Hk) as [-> _]. }
    { intros k Hk. by destruct (cut_ge order b2 E k Hk) as [_ ->], (cut_ge order b2 W k Hk) as [_ ->]. }
    split; [done..|]. change (concat (vs :: vs2 :: vss)) with (vs ++ concat (vs2 :: vss)).
    rewrite view_size_app, !length_app. change (concat (vs1' :: vss')) with (vs1' ++ concat vss'). lia.
Qed.
End parts.

(** ** Leaves written and read *)

(** The same view, its history in another order. *)
Definition view_eqv (v v' : View) : Prop :=
  (vw_first v = vw_first v' ∧ vw_last v = vw_last v') ∧ vw_rows v = vw_rows v' ∧ vw_hist v ≡ₚ vw_hist v'.

Lemma views_eqv_all vs vs' :
  Forall2 view_eqv vs vs' → all_rows vs = all_rows vs' ∧ all_hist vs ≡ₚ all_hist vs' ∧ view_size vs = view_size vs'.
Proof.
  intros H. assert (all_rows vs = all_rows vs' ∧ all_hist vs ≡ₚ all_hist vs') as [H1 H2].
  { unfold all_rows, all_hist. induction H as [|v v' vs vs' (_ & H2 & H3) _ [IH1 IH2]]; [done|]. csimpl.
    by rewrite H2, H3, IH1, IH2. }
  unfold view_size. by rewrite H1, (Permutation_length H2).
Qed.

Lemma views_eqv_chain order lm hi vs vs' : Forall2 view_eqv vs vs' → chain order lm hi vs → chain order lm hi vs'.
Proof.
  intros H. revert lm. induction H as [|v v' vs vs' ([E1 E1'] & E2 & E3) Hvs IH]; intros lm; [done|].
  intros (C1 & C2 & C3 & C4). simpl.
  assert (next_key hi vs' = next_key hi vs) as -> by (destruct Hvs as [|? ? ? ? ([? _] & _)]; simpl; congruence).
  unfold view_keys in *. rewrite <- E1, <- E1', <- E2. split; [done|]. split; [by rewrite <- E3|].
  split; [intros Hlm; rewrite <- E3; by apply C3|by apply IH].
Qed.

Lemma views_eqv_ok vs vs' : Forall2 view_eqv vs vs' → Forall view_ok vs → Forall view_ok vs'.
Proof.
  induction 1 as [|v v' vs vs' (_ & E2 & E3) _ IH]; [done|]. intros [[H1 H2] H3]%Forall_cons. constructor; [|by apply IH].
  split; [by rewrite <- E2|by rewrite <- E3].
Qed.

Lemma updated_eqv order lm hi b E n vs vs' :
  Forall2 view_eqv vs vs' → updated order lm hi b E n vs → updated order lm hi b E n vs'.
Proof.
  intros He [(v & vs1 & -> & U1) U2 U3 U4 U5]. destruct (views_eqv_all _ _ He) as (A1 & A2 & A3). split.
  - inversion He as [|? v' ? vs2 ([Ev _] & _)]; subst. exists v', vs2. by rewrite <- Ev.
  - by eapply views_eqv_chain.
  - rewrite <- A1. by eapply leaflet_log_perm.
  - by eapply views_eqv_ok.
  - by rewrite <- A3.
Qed.

Lemma sidecar_push_entries (b : HistSidecarBuilder) l es : foldl push_entry (b ++ [l]) es = b ++ [l ++ es].
Proof.
  revert l. induction es as [|e es IH]; intros l; [by rewrite app_nil_r|]. cbn [foldl].
  assert (push_entry (b ++ [l]) e = b ++ [l ++ [e]]) as ->; [|by rewrite IH, <- app_assoc].
  unfold push_entry. rewrite length_app. simpl length. replace (length b + 1 - 1)%nat with (length b + 0)%nat by lia.
  exact (alter_app_r (λ last : list HistEntryV2, last ++ [e]) b [l] 0).
Qed.

Lemma builder_entries (group : list ProcessedLeafletV3) (b : HistSidecarBuilder) :
  foldl (λ b p, foldl push_entry (start_leaflet b) (pl_history p)) b group = b ++ (pl_history <$> group).
Proof.
  revert b. induction group as [|p group IH]; intros b; [by rewrite app_nil_r|]. cbn [foldl].
  unfold start_leaflet at 2. rewrite sidecar_push_entries, IH, <- app_assoc. done.
Qed.

(** Few enough entries for the 32-bit length of a segment. *)
Definition fits (n : nat) : Prop := 4 + Z.of_nat n * 31 < 2 ^ 32.

Section leaves.
Context `{SO : Sorting}.

(** What a directory entry records of a segment. *)
Definition seg_of (es : list HistEntryV2) (seg : HistorySegmentRef) : Prop :=
  0 < sr_len seg ∧ Forall (λ e, he_t e <= sr_max_t seg) es.

Lemma build_segment_ref out es out' seg :
  fits (length es) → build_segment out es = (out', seg) → seg_of es seg.
Proof.
  intros Hf Hb. unfold build_segment in Hb. destruct es as [|e es]; [by injection Hb as <- <-; split; [|constructor]|].
  fold (segment_entries (e :: es)) in Hb. set (l := segment_entries (e :: es)) in *.
  assert (l ≡ₚ e :: es) as Hp by apply segment_entries_perm.
  assert (length l = length (e :: es)) as Hl by (by apply Permutation_length).
  assert (sorted_by newest_first l) as Hs by apply segment_entries_sorted. clearbody l.
  cbv zeta in Hb. apply pair_equal_spec in Hb as [<- <-]. split; cbn [sr_len sr_max_t].
  - unfold as_u32. rewrite !length_app, length_le_bytes, length_write_entries, Hl. unfold fits in Hf.
    unfold HIST_ENTRY_V2_SIZE. rewrite Z.mod_small; simpl length in *; lia.
  - rewrite <- Hp. destruct l as [|x l]; [constructor|]. apply StronglySorted_inv in Hs as [_ Hs]. simpl.
    constructor; [lia|]. eapply Forall_impl; [exact Hs|]. intros y Hy. unfold cmp_le, newest_first in Hy.
    destruct (Z.compare_spec (he_t y) (he_t x)); [lia|lia|done].
Qed.

Lemma build_segments_refs leaflets out data segs :
  Forall (λ es, fits (length es)) leaflets → build_segments out leaflets = (data, segs) → Forall2 seg_of leaflets segs.
Proof.
  intros Hf. revert out segs. induction Hf as [|es leaflets He Hf IH]; intros out segs Hb; cbn [build_segments] in Hb.
  - by injection Hb as <- <-.
  - destruct (build_segment out es) as [out1 seg] eqn:H1.
    destruct (build_segments out1 leaflets) as [out2 segs2] eqn:H2. injection Hb as <- <-.
    constructor; [by eapply build_segment_ref|by eapply IH].
Qed.

Lemma no_history_all (ls : HistSidecarBuilder) : has_history ls = false → Forall (λ es, es = []) ls.
Proof.
  unfold has_history. intros H. apply Forall_forall. intros es Hes. destruct es as [|e es]; [done|].
  assert (existsb (λ v : list HistEntryV2, match v with [] => false | _ => true end) ls = true) as Ht; [|congruence].
  apply existsb_exists. exists (e :: es). split; [by apply list_elem_of_In|done].
Qed.

(** A leaf: its leaflets, and the keys of the first and of the last one. *)
Record leaf_reads (order : RunSortOrder) (leaf : Leaf) (vs : list View) : Prop := {
  lr_entries : Forall2 (entry_reads order (lf_sidecar leaf)) (lf_entries leaf) vs;
  lr_first : ∃ v vs', vs = v :: vs' ∧ v2_ok (key_rec (vw_first v))
    ∧ lf_first_key leaf = write_ordered_key_v2 order (key_rec (vw_first v));
  lr_last : ∃ v, last vs = Some v ∧ v2_ok (key_rec (vw_last v))
    ∧ lf_last_key leaf = write_ordered_key_v2 order (key_rec (vw_last v));
}.

(** The entries of a leaf's directory and sidecar, from its leaflets and their
    histories. *)
Lemma directory_reads order (leaflets : list EncodedLeaflet) (vs : list View) sidecar seg_refs :
  Forall2 (reads order) leaflets vs → Forall view_ok vs → Forall (λ v, fits (length (vw_hist v))) vs →
  (if has_history (vw_hist <$> vs) then let '(bytes, refs) := build (vw_hist <$> vs) in (Some bytes, refs)
   else (None, [])) = (sidecar, seg_refs) →
  ∃ vs', Forall2 view_eqv vs vs'
    ∧ Forall2 (entry_reads order sidecar)
        (imap (λ i l, {| de_leaflet := l; de_history := default no_history (seg_refs !! i) |}) leaflets) vs'.
Proof.
  intros Hr Hok Hf Hb. destruct (has_history (vw_hist <$> vs)) eqn:Hh.
  - destruct (build (vw_hist <$> vs)) as [bytes refs] eqn:Hbuild. injection Hb as <- <-. unfold build in Hbuild.
    assert (Forall (λ es, fits (length es)) (vw_hist <$> vs)) as Hf' by (by rewrite Forall_fmap).
    pose proof (build_segments_refs _ _ _ _ Hf' Hbuild) as Hrefs.
    destruct (build_segments_decodes (vw_hist <$> vs) sidecar_header bytes refs) as [_ Hdec]; [|done|].
    { rewrite Forall_fmap. apply Forall_forall. intros v Hv.
      split; [by apply (proj1 (Forall_forall _ _) Hok)|]. apply (proj1 (Forall_forall _ _) Hf) in Hv. unfold fits in Hv. simpl. lia. }
    exists ((λ v, {| vw_first := vw_first v; vw_last := vw_last v; vw_rows := vw_rows v; vw_hist := segment_entries (vw_hist v) |}) <$> vs).
    split.
    { rewrite Forall2_fmap_r. apply Forall_Forall2_diag, Forall_forall. intros v _. split; [done|]. split; [done|].
      simpl. by rewrite segment_entries_perm. }
    apply Forall2_same_length_lookup_2.
    { rewrite length_imap, length_fmap. by eapply Forall2_length. }
    intros i entry v' He Hv. rewrite list_lookup_imap in He. apply fmap_Some in He as (l & Hl & ->).
    apply list_lookup_fmap_Some in Hv as (v & -> & Hv).
    assert ((vw_hist <$> vs) !! i = Some (vw_hist v)) as Hi by (by rewrite list_lookup_fmap, Hv).
    destruct (Forall2_lookup_l _ _ _ _ _ Hrefs Hi) as (seg & Hseg & [S1 S2]). rewrite Hseg. simpl default.
    destruct (Forall2_lookup_l _ _ _ _ _ Hdec Hi) as (seg' & Hseg' & Hd). rewrite Hseg in Hseg'. injection Hseg' as <-.
    specialize (Hd []). rewrite app_nil_r in Hd.
    assert (reads order l v) as HR by (by eapply Forall2_lookup_lr).
    split; [destruct HR; by split|]. unfold load_existing_history; cbn [de_history vw_hist].
    destruct (Z.eqb_spec (sr_len seg) 0) as [|_]; [lia|]. split; [exact Hd|].
    split; [apply segment_entries_sorted|]. split; [lia|]. by rewrite segment_entries_perm.
  - injection Hb as <- <-. apply no_history_all in Hh. rewrite Forall_fmap in Hh. exists vs.
    split. { apply Forall_Forall2_diag, Forall_forall. by intros v _. }
    apply Forall2_same_length_lookup_2.
    { rewrite length_imap. by eapply Forall2_length. }
    intros i entry v He Hv. rewrite list_lookup_imap in He. apply fmap_Some in He as (l & Hl & ->).
    assert (vw_hist v = []) as Hnil by (by eapply (Forall_lookup_1 _ _ _ _ Hh)).
    split; [by eapply Forall2_lookup_lr|]. rewrite Hnil. simpl. split; [done|]. split; [constructor|]. split; [lia|constructor].
Qed.

Lemma last_views {A B C} (P : A → B → Prop) (Q : B → C → Prop) l1 l2 l3 :
  Forall2 P l1 l2 → l2 ≠ [] → Forall2 Q l2 l3 →
  ∃ a b c, last l1 = Some a ∧ last l2 = Some b ∧ last l3 = Some c ∧ P a b ∧ Q b c.
Proof.
  intros HP Hne. destruct (exists_last Hne) as (l2' & b & ->).
  apply Forall2_app_inv_r in HP as (l1' & la & _ & HP & ->). intros HQ.
  apply Forall2_app_inv_l in HQ as (l3' & lc & _ & HQ & ->).
  apply Forall2_cons_inv_r in HP as (a & ? & HP & ?%Forall2_nil_inv_r & ->). subst.
  apply Forall2_cons_inv_l in HQ as (c & ? & HQ & ?%Forall2_nil_inv_l & ->). subst.
  exists a, b, c. by rewrite !last_snoc.
Qed.

Lemma build_leaf_reads order ps vs :
  Forall2 (pl_reads order) ps vs → vs ≠ [] → Forall view_ok vs → Forall (λ v, fits (length (vw_hist v))) vs →
  ∃ vs', Forall2 view_eqv vs vs' ∧ leaf_reads order (build_leaf_from_group ps) vs'.
Proof.
  intros Hr Hne Hok Hf. unfold build_leaf_from_group. rewrite builder_entries. simpl app.
  assert (pl_history <$> ps = vw_hist <$> vs) as ->.
  { clear -Hr. induction Hr as [|p v ps vs [_ H] _ IH]; [done|]. csimpl. by rewrite H, IH. }
  destruct (if has_history _ then _ else _) as [sidecar seg_refs] eqn:Hb.
  destruct (directory_reads order (pl_encoded <$> ps) vs sidecar seg_refs) as (vs' & H1 & H2); [|done|done|done|].
  { rewrite Forall2_fmap_l. eapply Forall2_impl; [exact Hr|]. by intros p v [? _]. }
  exists vs'. split; [done|]. split; cbn [lf_sidecar lf_entries lf_first_key lf_last_key].
  - assert (imap (λ i p, {| de_leaflet := pl_encoded p; de_history := default no_history (seg_refs !! i) |}) ps
      = imap (λ i l, {| de_leaflet := l; de_history := default no_history (seg_refs !! i) |}) (pl_encoded <$> ps)) as ->; [|done].
    apply list_eq. intros i. rewrite !list_lookup_imap, list_lookup_fmap. by destruct (ps !! i).
  - destruct Hr as [|p v ps vs [[K1 _ K2 _ _ _] _] _]; [done|]. inversion H1 as [|? v' ? vs2 ([Ev _] & _)]; subst.
    exists v', vs2. simpl. by rewrite <- Ev.
  - destruct (last_views (pl_reads order) view_eqv ps vs vs') as (p & v & v' & L1 & L2 & L3 & [[_ K1 _ K2 _ _] _] & ([_ Ev] & _)); [done..|].
    exists v'. rewrite L1. simpl. by rewrite <- Ev.
Qed.
End leaves.

(** ** Updating a leaf *)

Lemma group_leaflets_spec target group rows ls :
  (group = [] → rows = 0%nat) →
  concat (group_leaflets target group rows ls) = group ++ ls
  ∧ Forall (λ g, g ≠ []) (group_leaflets target group rows ls).
Proof.
  revert group rows. induction ls as [|p ls IH]; intros group rows Hg; simpl.
  - destruct group; simpl; rewrite ?app_nil_r; split; try done; by repeat constructor.
  - destruct (_ <=? _)%nat.
    + destruct (IH [] 0%nat) as [H1 H2]; [done|]. simpl. rewrite H1, <- app_assoc. split; [done|].
      constructor; [|done]. intros ?%app_nil. naive_solver.
    + destruct (IH (group ++ [p]) (rows + el_row_count (pl_encoded p))%nat) as [H1 H2].
      { intros ?%app_nil. naive_solver. }
      rewrite H1, <- app_assoc. done.
Qed.

Lemma Forall2_concat_split {A B} (R : A → B → Prop) gs l :
  Forall2 R (concat gs) l → ∃ ls, concat ls = l ∧ Forall2 (Forall2 R) gs ls.
Proof.
  revert l. induction gs as [|g gs IH]; intros l H; csimpl in H.
  - apply Forall2_nil_inv_l in H as ->. by exists [].
  - apply Forall2_app_inv_l in H as (l1 & l2 & H1 & H2 & ->). destruct (IH _ H2) as (ls & <- & H3).
    exists (l1 :: ls). split; [done|by constructor].
Qed.

Lemma Forall2_concat_join {A B} (R : A → B → Prop) gs ls : Forall2 (Forall2 R) gs ls → Forall2 R (concat gs) (concat ls).
Proof. induction 1; csimpl; [constructor|by apply Forall2_app]. Qed.

Lemma concat_singletons {A} (l : list A) : concat ((λ x, [x]) <$> l) = l.
Proof. induction l as [|x l IH]; [done|]. csimpl. by rewrite IH. Qed.

Lemma fits_mono m n : (m <= n)%nat → fits n → fits m.
Proof. unfold fits. lia. Qed.

Lemma hist_fits vs n : fits n → (view_size vs <= n)%nat → Forall (λ v, fits (length (vw_hist v))) vs.
Proof.
  intros Hf Hn. apply Forall_forall. intros v Hv. eapply fits_mono; [|exact Hf]. etrans; [|exact Hn].
  unfold view_size, all_hist. apply list_elem_of_split in Hv as (l1 & l2 & ->).
  rewrite fmap_app, concat_app. csimpl. rewrite !length_app. lia.
Qed.

Section update_leaf_facts.
Context `{SO : Sorting}.

Lemma assemble_reads order input ps lm hi b E n vs :
  Forall2 (pl_reads order) ps vs → updated order lm hi b E n vs → fits n →
  ∃ vss, Forall2 (leaf_reads order) (assemble_output_leaves ps input) vss ∧ updated order lm hi b E n (concat vss).
Proof.
  intros Hr Hu Hf. unfold assemble_output_leaves.
  destruct (group_leaflets_spec (lu_leaf_target_rows input) [] 0 ps) as [G1 G2]; [done|]. simpl in G1.
  set (gs := group_leaflets _ _ _ _) in *. clearbody gs. subst ps.
  apply Forall2_concat_split in Hr as (vss & <- & Hr).
  assert (Forall view_ok (concat vss)) as Hok by apply Hu.
  assert (Forall (λ v, fits (length (vw_hist v))) (concat vss)) as Hfit by (eapply hist_fits; [exact Hf|apply Hu]).
  enough (∃ vss', Forall2 (leaf_reads order) (build_leaf_from_group <$> gs) vss' ∧ Forall2 (Forall2 view_eqv) vss vss')
    as (vss' & H1 & H2).
  { exists vss'. split; [done|]. eapply updated_eqv; [by apply Forall2_concat_join|done]. }
  clear Hu. induction Hr as [|g vs gs vss Hg Hr IH]; [by exists []|]. csimpl in *.
  apply Forall_cons in G2 as [Hne G2]. apply Forall_app in Hok as [Ho1 Ho2], Hfit as [Hf1 Hf2].
  destruct (IH G2 Ho2 Hf2) as (vss' & H1 & H2).
  destruct (build_leaf_reads order g vs) as (vs' & H3 & H4); [done|by destruct Hg|done|done|].
  exists (vs' :: vss'). split; by constructor.
Qed.

Lemma update_leaf_spec order input vs lm hi b E W :
  lu_order input = order → (0 < lu_leaflet_target_rows input)%nat → leaf_reads order (lu_leaf input) vs →
  update_of order lm hi b E W vs (lu_novelty input) (lu_superseded input) →
  let n := (view_size vs + 2 * length (lu_novelty input) + length (lu_superseded input))%nat in
  fits n →
  ∃ out vss, update_leaf input = Some out ∧ Forall2 (leaf_reads order) (lo_leaves out) vss
    ∧ updated order lm hi b (λ k, E k ++ W k) n (concat vss).
Proof.
  intros Horder Htarget Hr Hu n Hf. unfold update_leaf.
  destruct (decide (lu_novelty input = [])) as [Hnil|Hnil].
  - rewrite Hnil. eexists _, [vs]. split; [done|]. split; [by constructor|]. csimpl. rewrite app_nil_r.
    assert (uo := Hu). destruct uo as [U1 U2 U3 U4 U5 _ _ _ _ _]. rewrite Hnil in U5.
    destruct (streams_empty _ _ _ U5) as [_ HW]. split; [|done| |done|unfold n; lia].
    + destruct vs as [|v vs]; [done|]. injection U1 as <-. exists v, vs. split; [done|]. intros _. apply at_least_refl.
    + eapply leaflet_log_ext; [|exact U4]. intros k. by rewrite HW, app_nil_r.
  - destruct Hr as [Hr (v & vs' & -> & Hk & _) _]. rewrite Horder.
    destruct (process_parts order n
      (λ (e : LeafletDirEntryV3) ws, ∃ w, ws = [w] ∧ entry_reads order (lf_sidecar (lu_leaf input)) e w)
      (λ (out : list ProcessedLeafletV3 * list RunRecordV2) ws, Forall2 (pl_reads order) out.1 ws)
      (slice_novelty_to_leaflets order) (process_leaflet input)) with
      (items := lf_entries (lu_leaf input)) (vss := (λ w, [w]) <$> v :: vs') (lm := lm) (hi := hi) (b := b)
      (E := E) (W := W) (nov := lu_novelty input) (sup := lu_superseded input)
      as (results & vss & R1 & R2 & R3).
    + done.
    + intros a a2 l vs2 b2 s1 s2 (w & -> & [K1 _ K2 _ _ _] & _) [= <-] Hok H1 H2.
      destruct (stream_cut order (vw_first w) (s1 ++ s2) s1 s2 _ Hok K2 K1 eq_refl H1 H2) as [T1 T2].
      cbv zeta in T1, T2. cbn [slice_novelty_to_leaflets fmap list_fmap slice_at]. cbv zeta.
      unfold compose. rewrite T1, T2. done.
    + intros a ws (w & -> & _). done.
    + intros a ws lm' hi' b' E' W' nov sup (w & -> & Hw) [U1 U2 U3 U4 U5 U6 U7 U8 U9 U10] _.
      injection U1 as <-. apply Forall_cons in U2 as [U2 _]. destruct (all_one w) as [A1 A2]. rewrite A1, A2 in U4.
      destruct (process_leaflet_spec order input Horder Htarget a w nov sup lm' hi' E' W')
        as (ps & m & vs1 & P1 & P2 & P3); [done..|]. by exists (ps, m), vs1.
    + rewrite Forall2_fmap_r. eapply Forall2_impl; [exact Hr|]. intros e w Hw. by exists w.
    + intros He. rewrite He in Hr. by apply Forall2_nil_inv_l in Hr.
    + by rewrite concat_singletons.
    + by rewrite concat_singletons.
    + rewrite concat_singletons in R3. fold n in R3. rewrite R1. cbn [mbind option_bind].
      assert (Forall2 (pl_reads order) (concat results.*1) (concat vss)) as Hp.
      { apply Forall2_concat_join. by rewrite Forall2_fmap_l. }
      destruct (assemble_reads order input _ lm hi b _ n _ Hp R3 Hf) as (vss' & A1 & A2).
      exists {| lo_leaves := assemble_output_leaves (concat results.*1) input; lo_matched := concat results.*2 |}, vss'.
      split; [by destruct (lu_novelty input)|done].
Qed.
End update_leaf_facts.
