(* ===== verification/IndexBranch.v ===== *)
(** * Branches
    ([fluree-db-indexer/src/run_index/build/incremental_branch.rs],
    [fluree-db-binary-index/src/format/branch.rs], [leaf.rs],
    [fluree-db-indexer/src/build/incremental.rs],
    [fluree-db-binary-index/src/read/replay.rs])

    A branch is the leaves of a graph in one order.  A window is routed to the
    leaves by their first keys and each touched leaf is updated, one after the
    other or a number of them at a time; a graph with no branch gets a fresh
    one from the writer of leaves.  An entry of the branch
    carries the leaf its identifiers name; how stored leaves are fetched and
    decoded, and the sink new leaves are handed to, are the fields of
    [DrainEnv]. *)

From S2P Require Import Prelude Vocab Ordering IndexFormat IndexDedup IndexMerge.
From S2P Require Import Accumulator IndexReplay IndexLeaf IndexUpdate.
#[local] Open Scope Z_scope.

(** ** Updating a branch ([incremental_branch.rs]) *)

Record LeafEntry := {
  le_first_key : RunRecordV2;
  le_last_key : RunRecordV2;
  le_row_count : nat;
  le_leaf : Leaf;
}.

Record BranchUpdateConfig := {
  bu_order : RunSortOrder;
  bu_leaflet_target_rows : nat;
  bu_leaf_target_rows : nat;
  bu_collect_matched : bool;
}.

Definition LEAF_SPLIT_CEILING_FACTOR : nat := 2.

(** A stream cut at the leaves' first keys, but for the first leaf's. *)
Fixpoint slice_at_records (order : RunSortOrder) (boundaries : list RunRecordV2) (stream : list (RunRecordV2 * Z)) :
    list (list (RunRecordV2 * Z)) :=
  match boundaries with
  | [] => [stream]
  | next_first :: boundaries =>
      let split_pos :=
        partition_point (λ r, match cmp_v2_for_order order r.1 next_first with Lt => true | _ => false end) stream in
      take split_pos stream :: slice_at_records order boundaries (drop split_pos stream)
  end.

Definition slice_novelty_to_leaves (order : RunSortOrder) (leaves : list LeafEntry)
    (stream : list (RunRecordV2 * Z)) : list (list (RunRecordV2 * Z)) :=
  match leaves with
  | [] => []
  | _ :: rest => slice_at_records order (le_first_key <$> rest) stream
  end.

Definition slice_streams_to_leaves (order : RunSortOrder) (leaves : list LeafEntry)
    (novelty superseded : list (RunRecordV2 * Z)) : list (list (RunRecordV2 * Z) * list (RunRecordV2 * Z)) :=
  zip (slice_novelty_to_leaves order leaves novelty) (slice_novelty_to_leaves order leaves superseded).

Definition make_leaf_update_input (leaf : Leaf) (novelty superseded : list (RunRecordV2 * Z))
    (config : BranchUpdateConfig) : LeafUpdateInput :=
  let estimated_rows := (total_rows leaf + length novelty)%nat in
  let ceiling := (bu_leaf_target_rows config * LEAF_SPLIT_CEILING_FACTOR)%nat in
  {| lu_leaf := leaf; lu_novelty := novelty; lu_superseded := superseded;
     lu_order := bu_order config; lu_leaflet_target_rows := bu_leaflet_target_rows config;
     lu_leaf_target_rows :=
       if (ceiling <? estimated_rows)%nat then Nat.max (bu_leaf_target_rows config) 1
       else Nat.max (bu_leaf_target_rows config) (estimated_rows + 1) |}.

(** The entry of a leaf. *)
Definition leaf_entry (order : RunSortOrder) (leaf : Leaf) : LeafEntry :=
  {| le_first_key := read_ordered_key_v2 order (lf_first_key leaf);
     le_last_key := read_ordered_key_v2 order (lf_last_key leaf);
     le_row_count := total_rows leaf; le_leaf := leaf |}.

(** The in-order accumulator; an entry stands for its identifiers. *)
Record BranchAcc := {
  ba_leaf_entries : list LeafEntry;
  ba_replaced_leaf_cids : list Leaf;
  ba_replaced_sidecar_cids : list (list Z);
  ba_new_leaf_count : nat;
  ba_collect_matched : bool;
  ba_matched : list RunRecordV2;
}.

Definition with_capacity (collect_matched : bool) : BranchAcc :=
  {| ba_leaf_entries := []; ba_replaced_leaf_cids := []; ba_replaced_sidecar_cids := []; ba_new_leaf_count := 0;
     ba_collect_matched := collect_matched; ba_matched := [] |}.

(** [leaf_entries.push(existing.clone())] *)
Definition carry_forward (acc : BranchAcc) (existing : LeafEntry) : BranchAcc :=
  {| ba_leaf_entries := ba_leaf_entries acc ++ [existing]; ba_replaced_leaf_cids := ba_replaced_leaf_cids acc;
     ba_replaced_sidecar_cids := ba_replaced_sidecar_cids acc; ba_new_leaf_count := ba_new_leaf_count acc;
     ba_collect_matched := ba_collect_matched acc; ba_matched := ba_matched acc |}.

Definition push_new_leaf (order : RunSortOrder) (acc : BranchAcc) (new_leaf : Leaf) : BranchAcc :=
  {| ba_leaf_entries := ba_leaf_entries acc ++ [leaf_entry order new_leaf];
     ba_replaced_leaf_cids := ba_replaced_leaf_cids acc; ba_replaced_sidecar_cids := ba_replaced_sidecar_cids acc;
     ba_new_leaf_count := S (ba_new_leaf_count acc);
     ba_collect_matched := ba_collect_matched acc; ba_matched := ba_matched acc |}.

Definition replace_leaf (acc : BranchAcc) (existing : LeafEntry) (matched : list RunRecordV2) : BranchAcc :=
  {| ba_leaf_entries := ba_leaf_entries acc;
     ba_replaced_leaf_cids := ba_replaced_leaf_cids acc ++ [le_leaf existing];
     ba_replaced_sidecar_cids := ba_replaced_sidecar_cids acc ++ option_list (lf_sidecar (le_leaf existing));
     ba_new_leaf_count := ba_new_leaf_count acc; ba_collect_matched := ba_collect_matched acc;
     ba_matched := ba_matched acc ++ (if ba_collect_matched acc then matched else []) |}.

Definition BranchUnit : Type := LeafEntry * (list (RunRecordV2 * Z) * list (RunRecordV2 * Z)).

(** What a drain works with: how stored leaves and sidecars are fetched and
    decoded, the error of an update that fails, and the sink, which accepts a
    leaf or fails, depending on what it was handed before.  [D_panic] is the
    outcome of an index out of bounds. *)
Record DrainEnv := {
  D_error : Type;
  D_bytes : Type;
  D_sidecar : Type;
  D_fetch_leaf : Leaf → D_error + D_bytes;
  D_fetch_sidecar : list Z → D_error + option D_sidecar;
  D_decode : D_bytes → option D_sidecar → D_error + Leaf;
  D_update_error : LeafUpdateInput → D_error;
  D_sink : list Leaf → Leaf → option D_error;
  D_panic : D_error;
}.

Section update_branch.
Context `{SO : Sorting} (D : DrainEnv).

(** The outcome of a drain, with the leaves the sink has accepted. *)
Definition Drained : Type := (D_error D + BranchAcc) * list Leaf.

(** The [?] after a step of a drain. *)
Definition and_then (r : Drained) (k : BranchAcc → list Leaf → Drained) : Drained :=
  match r with
  | (inl e, log) => (inl e, log)
  | (inr acc, log) => k acc log
  end.

Definition drain_leaf (order : RunSortOrder) (r : Drained) (new_leaf : Leaf) : Drained :=
  and_then r (λ acc log,
    match D_sink D log new_leaf with
    | Some e => (inl e, log)
    | None => (inr (push_new_leaf order acc new_leaf), log ++ [new_leaf])
    end).

Definition drain_touched_output (order : RunSortOrder) (existing : LeafEntry) (output : LeafUpdateOutput)
    (acc : BranchAcc) (log : list Leaf) : Drained :=
  foldl (drain_leaf order) (inr (replace_leaf acc existing (lo_matched output)), log) (lo_leaves output).

(** Both fetches of a touched leaf. *)
Definition fetch (existing : LeafEntry) : D_error D + (D_bytes D * option (D_sidecar D)) :=
  match D_fetch_leaf D (le_leaf existing) with
  | inl e => inl e
  | inr leaf_bytes =>
      match lf_sidecar (le_leaf existing) with
      | None => inr (leaf_bytes, None)
      | Some cid =>
          match D_fetch_sidecar D cid with
          | inl e => inl e
          | inr sidecar_bytes => inr (leaf_bytes, sidecar_bytes)
          end
      end
  end.

(** [make_leaf_update_input] over the fetched bytes, then [update_leaf]. *)
Definition update_fetched (config : BranchUpdateConfig) (bytes : D_bytes D * option (D_sidecar D))
    (slices : list (RunRecordV2 * Z) * list (RunRecordV2 * Z)) : D_error D + LeafUpdateOutput :=
  match D_decode D bytes.1 bytes.2 with
  | inl e => inl e
  | inr leaf =>
      let input := make_leaf_update_input leaf slices.1 slices.2 config in
      match update_leaf input with
      | None => inl (D_update_error D input)
      | Some output => inr output
      end
  end.

Definition serial_step (config : BranchUpdateConfig) (r : Drained) (unit : BranchUnit) : Drained :=
  let '(existing, slices) := unit in
  and_then r (λ acc log,
    match slices.1 with
    | [] => (inr (carry_forward acc existing), log)
    | _ =>
        match fetch existing with
        | inl e => (inl e, log)
        | inr bytes =>
            match update_fetched config bytes slices with
            | inl e => (inl e, log)
            | inr output => drain_touched_output (bu_order config) existing output acc log
            end
        end
    end).

Definition update_branch_serial (config : BranchUpdateConfig) (units : list BranchUnit) (acc : BranchAcc)
    (log : list Leaf) : Drained :=
  foldl (serial_step config) (inr acc, log) units.

Record LeafWorkUnit := {
  wu_manifest_index : nat;
  wu_bytes : D_bytes D * option (D_sidecar D);
  wu_slices : list (RunRecordV2 * Z) * list (RunRecordV2 * Z);
}.

(** (1) The pre-pass over a window that begins at [i]. *)
Fixpoint window_units (i offset : nat) (units : list BranchUnit) : D_error D + list LeafWorkUnit :=
  match units with
  | [] => inr []
  | (existing, slices) :: units =>
      match slices.1 with
      | [] => window_units i (S offset) units
      | _ =>
          match fetch existing with
          | inl e => inl e
          | inr bytes =>
              match window_units i (S offset) units with
              | inl e => inl e
              | inr work => inr ({| wu_manifest_index := (i + offset)%nat; wu_bytes := bytes; wu_slices := slices |} :: work)
              end
          end
      end
  end.

(** (2) What a worker returns. *)
Definition run_unit (config : BranchUpdateConfig) (unit : LeafWorkUnit) : D_error D + (nat * LeafUpdateOutput) :=
  match update_fetched config (wu_bytes unit) (wu_slices unit) with
  | inl e => inl e
  | inr output => inr (wu_manifest_index unit, output)
  end.

(** [outputs_by_offset[idx - i] = Some(output)], for each output in turn. *)
Fixpoint index_outputs (i : nat) (outputs : list (D_error D + (nat * LeafUpdateOutput)))
    (outputs_by_offset : list (option LeafUpdateOutput)) : D_error D + list (option LeafUpdateOutput) :=
  match outputs with
  | [] => inr outputs_by_offset
  | inl e :: _ => inl e
  | inr (idx, output) :: outputs =>
      if (i <=? idx)%nat && (idx - i <? length outputs_by_offset)%nat
      then index_outputs i outputs (<[(idx - i)%nat := Some output]> outputs_by_offset)
      else inl (D_panic D)
  end.

(** (3) The post-pass. *)
Fixpoint drain_window (config : BranchUpdateConfig) (units : list BranchUnit) (i offset : nat)
    (outputs_by_offset : list (option LeafUpdateOutput)) (acc : BranchAcc) (log : list Leaf) : Drained :=
  match outputs_by_offset with
  | [] => (inr acc, log)
  | output_slot :: outputs_by_offset =>
      match units !! (i + offset)%nat with
      | None => (inl (D_panic D), log)
      | Some (existing, _) =>
          and_then
            match output_slot with
            | None => (inr (carry_forward acc existing), log)
            | Some output => drain_touched_output (bu_order config) existing output acc log
            end
            (drain_window config units i (S offset) outputs_by_offset)
      end
  end.

Definition update_window (config : BranchUpdateConfig) (units : list BranchUnit) (i window_end : nat)
    (acc : BranchAcc) (log : list Leaf) : Drained :=
  let now := take (window_end - i) (drop i units) in
  match window_units i 0 now with
  | inl e => (inl e, log)
  | inr work =>
      match index_outputs i (run_unit config <$> work) (replicate (window_end - i) None) with
      | inl e => (inl e, log)
      | inr outputs_by_offset => drain_window config units i 0 outputs_by_offset acc log
      end
  end.

(** The loop over windows; fuel is the number of leaves. *)
Fixpoint update_windows (fuel : nat) (config : BranchUpdateConfig) (window : nat) (units : list BranchUnit) (i : nat)
    (acc : BranchAcc) (log : list Leaf) : Drained :=
  match fuel with
  | O => (inr acc, log)
  | S fuel =>
      if (i <? length units)%nat then
        let window_end := Nat.min (i + window) (length units) in
        and_then (update_window config units i window_end acc log)
          (update_windows fuel config window units window_end)
      else (inr acc, log)
  end.

Definition update_branch_parallel (config : BranchUpdateConfig) (window : nat) (units : list BranchUnit)
    (acc : BranchAcc) (log : list Leaf) : Drained :=
  update_windows (length units) config (Nat.max window 1) units 0 acc log.

Definition PARALLEL_BRANCH_MIN_TOUCHED_LEAVES : nat := 4.

(** [ncpu] is the number of processors; a branch has as many slices as
    leaves. *)
Definition update_branch_streaming (ncpu : nat) (config : BranchUpdateConfig) (leaves : list LeafEntry)
    (novelty superseded : list (RunRecordV2 * Z)) : Drained :=
  let leaf_slices := slice_streams_to_leaves (bu_order config) leaves novelty superseded in
  let touched_count :=
    length (filter (λ s : list (RunRecordV2 * Z) * list (RunRecordV2 * Z), s.1 ≠ []) leaf_slices) in
  let units := zip leaves leaf_slices in
  let acc := with_capacity (bu_collect_matched config) in
  if (ncpu <? 2)%nat || (touched_count <? PARALLEL_BRANCH_MIN_TOUCHED_LEAVES)%nat
  then update_branch_serial config units acc []
  else update_branch_parallel config ncpu units acc [].
End update_branch.

(** Storage from which every leaf is fetched as it was stored, and a sink that
    collects. *)
Definition sound_store : DrainEnv :=
  {| D_error := unit; D_bytes := Leaf; D_sidecar := list Z;
     D_fetch_leaf := inr; D_fetch_sidecar := λ sidecar, inr (Some sidecar);
     D_decode := λ leaf _, inr leaf; D_update_error := λ _, tt;
     D_sink := λ _ _, None; D_panic := tt |}.

Definition update_branch `{SO : Sorting} (ncpu : nat) (config : BranchUpdateConfig) (leaves : list LeafEntry)
    (novelty superseded : list (RunRecordV2 * Z)) : option (list LeafEntry * list RunRecordV2) :=
  match (update_branch_streaming sound_store ncpu config leaves novelty superseded).1 with
  | inl _ => None
  | inr acc => Some (ba_leaf_entries acc, ba_matched acc)
  end.

(** ** The writer of leaves ([leaf.rs])

    What it holds of the leaflet it accumulates, of the leaf, and the rest. *)
Inductive SegmentKey := Predicate (p_id : Z) | OTypeSegment (o_type : Z) | Unsegmented.

#[export] Instance SegmentKey_eq_dec : EqDecision SegmentKey.
Proof. solve_decision. Defined.

Definition segment_of (order : RunSortOrder) (p_id o_type : Z) : SegmentKey :=
  match order with
  | Post | Psot => Predicate p_id
  | Opst => OTypeSegment o_type
  | Spot => Unsegmented
  end.

Definition hist_segment (order : RunSortOrder) (entry : HistEntryV2) : SegmentKey :=
  segment_of order (he_p_id entry) (he_o_type entry).

Record LeafletBuf := {
  lb_records : list RunRecordV2;
  lb_segment_started : bool;
  lb_hist_min : option (list Z);
  lb_hist_max : option (list Z);
  lb_seg_p_id : option Z;
  lb_seg_o_type : option Z;
}.

Record LeafBuf := {
  fb_encoded_leaflets : list EncodedLeaflet;
  fb_sidecar_builder : HistSidecarBuilder;
  fb_accumulated_rows : nat;
  fb_first_record : option RunRecordV2;
  fb_last_record : option RunRecordV2;
}.

Record LeafWriter := {
  w_order : RunSortOrder;
  w_leaflet_target_rows : nat;
  w_leaf_target_rows : nat;
  w_skip_history : bool;
  w_leaflet : LeafletBuf;
  w_leaf : LeafBuf;
  w_pending_history : list HistEntryV2;
  w_completed_leaves : list Leaf;
}.

Definition empty_leaflet_buf : LeafletBuf :=
  {| lb_records := []; lb_segment_started := false; lb_hist_min := None; lb_hist_max := None;
     lb_seg_p_id := None; lb_seg_o_type := None |}.

Definition empty_leaf_buf : LeafBuf :=
  {| fb_encoded_leaflets := []; fb_sidecar_builder := sidecar_new; fb_accumulated_rows := 0;
     fb_first_record := None; fb_last_record := None |}.

Definition LeafWriter_new (order : RunSortOrder) (leaflet_target_rows leaf_target_rows : nat) : LeafWriter :=
  {| w_order := order; w_leaflet_target_rows := leaflet_target_rows; w_leaf_target_rows := leaf_target_rows;
     w_skip_history := false; w_leaflet := empty_leaflet_buf; w_leaf := empty_leaf_buf;
     w_pending_history := []; w_completed_leaves := [] |}.

(** The writer with other buffers, pending entries and completed leaves. *)
Definition with_state (self : LeafWriter) (leaflet : LeafletBuf) (leaf : LeafBuf) (pending : list HistEntryV2)
    (completed : list Leaf) : LeafWriter :=
  {| w_order := w_order self; w_leaflet_target_rows := w_leaflet_target_rows self;
     w_leaf_target_rows := w_leaf_target_rows self; w_skip_history := w_skip_history self;
     w_leaflet := leaflet; w_leaf := leaf; w_pending_history := pending; w_completed_leaves := completed |}.

Definition set_skip_history (self : LeafWriter) (skip : bool) : LeafWriter :=
  {| w_order := w_order self; w_leaflet_target_rows := w_leaflet_target_rows self;
     w_leaf_target_rows := w_leaf_target_rows self; w_skip_history := skip;
     w_leaflet := w_leaflet self; w_leaf := w_leaf self; w_pending_history := w_pending_history self;
     w_completed_leaves := w_completed_leaves self |}.

Definition push_history_entry (self : LeafWriter) (entry : HistEntryV2) : LeafWriter :=
  if w_skip_history self then self
  else with_state self (w_leaflet self) (w_leaf self) (w_pending_history self ++ [entry]) (w_completed_leaves self).

(** The leaf's bounds, grown to cover a record. *)
Definition widen_leaf_bounds (order : RunSortOrder) (leaf : LeafBuf) (rec : RunRecordV2) : LeafBuf :=
  {| fb_encoded_leaflets := fb_encoded_leaflets leaf;
     fb_sidecar_builder := fb_sidecar_builder leaf;
     fb_accumulated_rows := fb_accumulated_rows leaf;
     fb_first_record := match fb_first_record leaf with
                        | Some first => match cmp_v2_for_order order rec first with Lt => Some rec | _ => Some first end
                        | None => Some rec
                        end;
     fb_last_record := match fb_last_record leaf with
                       | Some last => match cmp_v2_for_order order rec last with Gt => Some rec | _ => Some last end
                       | None => Some rec
                       end |}.

Definition with_builder (leaf : LeafBuf) (builder : HistSidecarBuilder) : LeafBuf :=
  {| fb_encoded_leaflets := fb_encoded_leaflets leaf; fb_sidecar_builder := builder;
     fb_accumulated_rows := fb_accumulated_rows leaf; fb_first_record := fb_first_record leaf;
     fb_last_record := fb_last_record leaf |}.

(** An entry filed with the leaflet that is accumulated. *)
Definition commit_history_entry (order : RunSortOrder) (bufs : LeafletBuf * LeafBuf) (entry : HistEntryV2) :
    LeafletBuf * LeafBuf :=
  let '(leaflet, leaf) := bufs in
  let builder := fb_sidecar_builder leaf in
  let builder := if lb_segment_started leaflet then builder else start_leaflet builder in
  let rec := history_record entry in
  let leaf := widen_leaf_bounds order (with_builder leaf builder) rec in
  let key := write_ordered_key_v2 order rec in
  ({| lb_records := lb_records leaflet; lb_segment_started := true;
      lb_hist_min := match lb_hist_min leaflet with
                     | Some min => match cmp_ordered_key_v2 key min with Lt => Some key | _ => Some min end
                     | None => Some key
                     end;
      lb_hist_max := match lb_hist_max leaflet with
                     | Some max => match cmp_ordered_key_v2 key max with Gt => Some key | _ => Some max end
                     | None => Some key
                     end;
      lb_seg_p_id := lb_seg_p_id leaflet; lb_seg_o_type := lb_seg_o_type leaflet |},
   with_builder leaf (push_entry (fb_sidecar_builder leaf) entry)).

Definition commit_all_pending (self : LeafWriter) : LeafWriter :=
  let '(leaflet, leaf) :=
    foldl (commit_history_entry (w_order self)) (w_leaflet self, w_leaf self) (w_pending_history self) in
  with_state self leaflet leaf [] (w_completed_leaves self).

Definition belongs (order : RunSortOrder) (leaflet : LeafletBuf) (entry : HistEntryV2) : bool :=
  match order with
  | Post | Psot => bool_decide (lb_seg_p_id leaflet = Some (he_p_id entry))
  | Opst => bool_decide (lb_seg_o_type leaflet = Some (he_o_type entry))
  | Spot => true
  end.

Definition commit_pending_for_current_segment (self : LeafWriter) : LeafWriter :=
  let pending := w_pending_history self in
  let mine := filter (λ entry, belongs (w_order self) (w_leaflet self) entry = true) pending in
  let retained := filter (λ entry, belongs (w_order self) (w_leaflet self) entry = false) pending in
  let '(leaflet, leaf) := foldl (commit_history_entry (w_order self)) (w_leaflet self, w_leaf self) mine in
  with_state self leaflet leaf retained (w_completed_leaves self).

Definition should_flush_for_segmentation (self : LeafWriter) (next : RunRecordV2) : bool :=
  match w_order self with
  | Post | Psot => match lb_seg_p_id (w_leaflet self) with Some p => negb (p =? v2_p_id next) | None => false end
  | Opst => match lb_seg_o_type (w_leaflet self) with Some ot => negb (ot =? v2_o_type next) | None => false end
  | Spot => false
  end.

(** A leaflet's keys, grown over the keys of its history. *)
Definition widen_over (encoded : EncodedLeaflet) (hist_min hist_max : option (list Z)) : EncodedLeaflet :=
  {| el_row_count := el_row_count encoded;
     el_lead_group_count := el_lead_group_count encoded;
     el_first_key := match hist_min with
                     | Some min => match cmp_ordered_key_v2 min (el_first_key encoded) with
                                   | Lt => min | _ => el_first_key encoded end
                     | None => el_first_key encoded
                     end;
     el_last_key := match hist_max with
                    | Some max => match cmp_ordered_key_v2 max (el_last_key encoded) with
                                  | Gt => max | _ => el_last_key encoded end
                    | None => el_last_key encoded
                    end;
     el_p_const := el_p_const encoded; el_o_type_const := el_o_type_const encoded;
     el_flags := el_flags encoded; el_columns := el_columns encoded |}.

(** [None] is the error of encoding. *)
Definition flush_leaflet (self : LeafWriter) : option LeafWriter :=
  let leaflet := w_leaflet self in
  match lb_records leaflet with
  | [] => Some self
  | records =>
      encoded ← encode_leaflet records (w_order self);
      let encoded := widen_over encoded (lb_hist_min leaflet) (lb_hist_max leaflet) in
      let leaf := w_leaf self in
      let builder :=
        if negb (w_skip_history self) && negb (lb_segment_started leaflet)
        then start_leaflet (fb_sidecar_builder leaf) else fb_sidecar_builder leaf in
      Some (with_state self empty_leaflet_buf
        {| fb_encoded_leaflets := fb_encoded_leaflets leaf ++ [encoded];
           fb_sidecar_builder := builder;
           fb_accumulated_rows := (fb_accumulated_rows leaf + el_row_count encoded)%nat;
           fb_first_record := fb_first_record leaf; fb_last_record := fb_last_record leaf |}
        (w_pending_history self) (w_completed_leaves self))
  end.

(** A zero-row leaflet of some entries; [None] is the assertion that no
    leaflet is being accumulated. *)
Definition emit_history_only_leaflet (self : LeafWriter) (entries : list HistEntryV2) : option LeafWriter :=
  let leaflet := w_leaflet self in
  match lb_records leaflet, lb_segment_started leaflet, lb_hist_min leaflet with
  | [], false, None =>
      match entries, last entries with
      | first :: _, Some last =>
          let order := w_order self in
          let first := history_record first in
          let last := history_record last in
          let encoded :=
            {| el_row_count := 0; el_lead_group_count := 0;
               el_first_key := write_ordered_key_v2 order first;
               el_last_key := write_ordered_key_v2 order last;
               el_p_const := match order with Post | Psot => Some (v2_p_id first) | _ => None end;
               el_o_type_const :=
                 match order with
                 | Opst => Some (v2_o_type first)
                 | _ => if forallb (λ e, he_o_type e =? v2_o_type first) entries
                        then Some (v2_o_type first) else None
                 end;
               el_flags := 0; el_columns := [] |} in
          let leaf := w_leaf self in
          let leaf :=
            {| fb_encoded_leaflets := fb_encoded_leaflets leaf ++ [encoded];
               fb_sidecar_builder := foldl push_entry (start_leaflet (fb_sidecar_builder leaf)) entries;
               fb_accumulated_rows := fb_accumulated_rows leaf;
               fb_first_record := fb_first_record leaf; fb_last_record := fb_last_record leaf |} in
          Some (with_state self leaflet (widen_leaf_bounds order (widen_leaf_bounds order leaf first) last)
                  (w_pending_history self) (w_completed_leaves self))
      | _, _ => Some self
      end
  | _, _, _ => None
  end.

(** The pending entries outside the segment of [next_seg], a leaflet for each
    run of one segment, and those in it. *)
Fixpoint flush_groups (self : LeafWriter) (next_seg : option SegmentKey) (group : list HistEntryV2)
    (group_seg : option SegmentKey) (retained pending : list HistEntryV2) : option LeafWriter :=
  match pending with
  | [] =>
      self ← match group with [] => Some self | _ => emit_history_only_leaflet self group end;
      Some (with_state self (w_leaflet self) (w_leaf self) retained (w_completed_leaves self))
  | entry :: pending =>
      let seg := hist_segment (w_order self) entry in
      if bool_decide (next_seg = Some seg) then flush_groups self next_seg group group_seg (retained ++ [entry]) pending
      else if bool_decide (group_seg ≠ Some seg) && match group with [] => false | _ => true end
      then
        self ← emit_history_only_leaflet self group;
        flush_groups self next_seg [entry] (Some seg) retained pending
      else flush_groups self next_seg (group ++ [entry]) (Some seg) retained pending
  end.

Definition flush_history_only_segments (self : LeafWriter) (next : option RunRecordV2) : option LeafWriter :=
  match w_pending_history self with
  | [] => Some self
  | first :: _ =>
      let next_seg := (λ r, segment_of (w_order self) (v2_p_id r) (v2_o_type r)) <$> next in
      if bool_decide (next_seg = Some (hist_segment (w_order self) first)) then Some self
      else
        let pending := w_pending_history self in
        flush_groups (with_state self (w_leaflet self) (w_leaf self) [] (w_completed_leaves self))
          next_seg [] None [] pending
  end.

Section writer.
Context `{SO : Sorting}.

(** [None] is the [unwrap] of a leaf with no bounds. *)
Definition flush_leaf (self : LeafWriter) : option LeafWriter :=
  let leaf := w_leaf self in
  match fb_encoded_leaflets leaf with
  | [] => Some self
  | leaflets =>
      first_record ← fb_first_record leaf;
      last_record ← fb_last_record leaf;
      let '(sidecar_bytes, seg_refs) :=
        if negb (w_skip_history self) && has_history (fb_sidecar_builder leaf)
        then let '(bytes, refs) := build (fb_sidecar_builder leaf) in (Some bytes, refs)
        else (None, []) in
      let info :=
        {| lf_first_key := write_ordered_key_v2 (w_order self) first_record;
           lf_last_key := write_ordered_key_v2 (w_order self) last_record;
           lf_entries := imap (λ i l, {| de_leaflet := l; de_history := default no_history (seg_refs !! i) |}) leaflets;
           lf_sidecar := sidecar_bytes |} in
      let leaflet := w_leaflet self in
      Some (with_state self
        {| lb_records := lb_records leaflet; lb_segment_started := false;
           lb_hist_min := lb_hist_min leaflet; lb_hist_max := lb_hist_max leaflet;
           lb_seg_p_id := lb_seg_p_id leaflet; lb_seg_o_type := lb_seg_o_type leaflet |}
        empty_leaf_buf (w_pending_history self) (w_completed_leaves self ++ [info]))
  end.

Definition flush_leaf_if_target_reached (self : LeafWriter) : option LeafWriter :=
  if (w_leaf_target_rows self <=? fb_accumulated_rows (w_leaf self))%nat then flush_leaf self else Some self.

Definition push_record (self : LeafWriter) (record : RunRecordV2) : option LeafWriter :=
  self ← (if match lb_records (w_leaflet self) with [] => false | _ => should_flush_for_segmentation self record end
          then self ← flush_leaflet (commit_pending_for_current_segment self); flush_leaf_if_target_reached self
          else Some self);
  self ← flush_history_only_segments self (Some record);
  let leaf := w_leaf self in
  let leaf :=
    {| fb_encoded_leaflets := fb_encoded_leaflets leaf; fb_sidecar_builder := fb_sidecar_builder leaf;
       fb_accumulated_rows := fb_accumulated_rows leaf;
       fb_first_record := match fb_first_record leaf with None => Some record | first => first end;
       fb_last_record := fb_last_record leaf |} in
  let leaflet := w_leaflet self in
  let leaflet :=
    {| lb_records := lb_records leaflet; lb_segment_started := lb_segment_started leaflet;
       lb_hist_min := lb_hist_min leaflet; lb_hist_max := lb_hist_max leaflet;
       lb_seg_p_id := match w_order self with Post | Psot => Some (v2_p_id record) | _ => lb_seg_p_id leaflet end;
       lb_seg_o_type := match w_order self with Opst => Some (v2_o_type record) | _ => lb_seg_o_type leaflet end |} in
  let self := commit_all_pending (with_state self leaflet leaf (w_pending_history self) (w_completed_leaves self)) in
  let leaflet := w_leaflet self in
  let leaf := w_leaf self in
  let self :=
    with_state self
      {| lb_records := lb_records leaflet ++ [record]; lb_segment_started := lb_segment_started leaflet;
         lb_hist_min := lb_hist_min leaflet; lb_hist_max := lb_hist_max leaflet;
         lb_seg_p_id := lb_seg_p_id leaflet; lb_seg_o_type := lb_seg_o_type leaflet |}
      {| fb_encoded_leaflets := fb_encoded_leaflets leaf; fb_sidecar_builder := fb_sidecar_builder leaf;
         fb_accumulated_rows := fb_accumulated_rows leaf; fb_first_record := fb_first_record leaf;
         fb_last_record := Some record |}
      (w_pending_history self) (w_completed_leaves self) in
  self ← (if (w_leaflet_target_rows self <=? length (lb_records (w_leaflet self)))%nat
          then flush_leaflet self else Some self);
  flush_leaf_if_target_reached self.

Definition finish (self : LeafWriter) : option (list Leaf) :=
  self ← match lb_records (w_leaflet self) with
         | [] => Some self
         | _ => flush_leaflet (commit_pending_for_current_segment self)
         end;
  self ← flush_history_only_segments self None;
  self ← match fb_encoded_leaflets (w_leaf self) with [] => Some self | _ => flush_leaf self end;
  Some (w_completed_leaves self).

(** ** A fresh branch ([incremental.rs]): the operations are not consulted *)

Definition push_records (self : LeafWriter) (records : list RunRecordV2) : option LeafWriter :=
  foldl (λ self rec, self ← self; push_record self rec) (Some self) records.

Definition build_fresh_default_graph_v3 (sorted_records : list (RunRecordV2 * Z)) (order : RunSortOrder)
    (leaflet_rows leaflets_per_leaf : nat) : option (list LeafEntry) :=
  let leaflet_target := Nat.max leaflet_rows 1 in
  let leaf_target := (leaflet_target * Nat.max leaflets_per_leaf 1)%nat in
  writer ← push_records (LeafWriter_new order leaflet_target leaf_target) sorted_records.*1;
  leaf_infos ← finish writer;
  Some (leaf_entry order <$> (leaf_infos : list Leaf)).
End writer.

(** ** Reading a leaflet at a time ([replay.rs]) *)

(** [u32::try_from(to_t).unwrap_or(u32::MAX)]. *)
Definition to_u32 (to_t : Z) : Z := if (0 <=? to_t) && (to_t <=? u32_max) then to_t else u32_max.

Section read.
Context `{SO : Sorting} `{HD : HashDrain}.

(** [None] is an error; [Some None], no replay needed. *)
Definition replay_leaflet_at_t (batch : ColumnBatch) (entry : LeafletDirEntryV3) (sidecar_bytes : option (list Z))
    (to_t : Z) (order : RunSortOrder) : option (option ColumnBatch) :=
  let to_t_u32 := to_u32 to_t in
  if negb ((to_t_u32 <? sr_max_t (de_history entry)) || batch_has_rows_above_t batch to_t_u32) then Some None
  else if 0 <? sr_len (de_history entry)
  then sc_bytes ← sidecar_bytes; history ← decode_history_segment sc_bytes (de_history entry);
       replay_leaflet batch history to_t order
  else replay_leaflet batch [] to_t order.

(** The rows of a leaflet at [to_t]. *)
Definition leaflet_rows_at (order : RunSortOrder) (sidecar : option (list Z)) (to_t : Z) (entry : LeafletDirEntryV3) :
    option (list RunRecordV2) :=
  batch ← leaflet_batch entry;
  replayed ← replay_leaflet_at_t batch entry sidecar to_t order;
  column_batch_to_records (default batch replayed).

(** The rows of a branch at [to_t]. *)
Definition branch_rows_at (order : RunSortOrder) (to_t : Z) (leaves : list LeafEntry) : option (list RunRecordV2) :=
  rows ← mapM (λ le, rows ← mapM (leaflet_rows_at order (lf_sidecar (le_leaf le)) to_t) (lf_entries (le_leaf le));
                     Some (concat rows)) leaves;
  Some (concat rows).
End read.

(** ** Updating a branch *)

Section drains.
Context `{SO : Sorting} (D : DrainEnv) (config : BranchUpdateConfig).
#[local] Abbreviation step := (serial_step D config).

(** What a unit of the branch comes to: nothing to do, an output, or the error
    of fetching or updating its leaf. *)
Definition unit_output (unit : BranchUnit) : D_error D + option LeafUpdateOutput :=
  match unit.2.1 with
  | [] => inr None
  | _ => match fetch D unit.1 with
         | inl e => inl e
         | inr bytes => match update_fetched D config bytes unit.2 with
                        | inl e => inl e
                        | inr output => inr (Some output)
                        end
         end
  end.

Definition unit_fails (unit : BranchUnit) : Prop := ∃ e, unit_output unit = inl e.

Lemma unit_output_fails existing slices e : unit_output (existing, slices) = inl e →
  slices.1 ≠ [] ∧ (fetch D existing = inl e ∨ ∃ bytes, fetch D existing = inr bytes ∧ update_fetched D config bytes slices = inl e).
Proof.
  unfold unit_output. cbn [fst snd]. destruct slices as [[|r novelty] superseded]; [done|]. cbn [fst snd].
  destruct (fetch D existing) as [e1|bytes]; [intros [= ->]; auto|].
  destruct (update_fetched D config bytes _) eqn:E; [intros [= ->]|done]. split; [done|]. right. by exists bytes.
Qed.

(** Draining what a unit came to. *)
Definition drain_slot (existing : LeafEntry) (slot : option LeafUpdateOutput) (acc : BranchAcc) (log : list Leaf) : Drained D :=
  match slot with
  | None => (inr (carry_forward acc existing), log)
  | Some output => drain_touched_output D (bu_order config) existing output acc log
  end.

Lemma step_output unit acc log :
  step (inr acc, log) unit
  = match unit_output unit with inl e => (inl e, log) | inr slot => drain_slot unit.1 slot acc log end.
Proof.
  destruct unit as [existing [[|r novelty] superseded]]; [done|]. unfold unit_output, serial_step. cbn.
  by destruct (fetch D existing) as [|bytes]; [|destruct (update_fetched _ _ _ _)].
Qed.

Lemma step_failed e log units : foldl step (inl e, log) units = (inl e, log).
Proof. by induction units as [|[? ?] units IH]. Qed.

Lemma drain_leaf_log order r leaves : r.2 `prefix_of` (foldl (drain_leaf D order) r leaves).2.
Proof.
  revert r. induction leaves as [|leaf leaves IH]; intros [[e|acc] log]; cbn [foldl]; [done|done|apply IH|].
  etrans; [|apply IH]. cbn. destruct (D_sink D log leaf); [done|by apply prefix_app_r].
Qed.

Lemma step_log unit r : r.2 `prefix_of` (step r unit).2.
Proof.
  destruct r as [[e|acc] log]; [by destruct unit|]. rewrite step_output.
  destruct (unit_output unit) as [e|[output|]]; [done| |done]. apply (drain_leaf_log _ (inr (replace_leaf acc unit.1 (lo_matched output)), log)).
Qed.

Lemma serial_log units r : r.2 `prefix_of` (foldl step r units).2.
Proof.
  revert r. induction units as [|unit units IH]; intros r; [done|]. cbn [foldl].
  etrans; [apply (step_log unit)|apply IH].
Qed.

(** A unit that fails is not passed. *)
Lemma serial_fails units r unit : unit ∈ units → unit_fails unit → ∃ e log, foldl step r units = (inl e, log).
Proof.
  intros (us1 & us2 & ->)%list_elem_of_split [e He]. rewrite foldl_app. cbn [foldl].
  destruct (foldl step r us1) as [[e'|acc] log].
  - exists e', log. destruct unit. apply step_failed.
  - exists e, log. rewrite step_output, He. apply step_failed.
Qed.

Lemma outputs_or_fail units :
  (∃ slots, Forall2 (λ unit slot, unit_output unit = inr slot) units slots) ∨ ∃ unit, unit ∈ units ∧ unit_fails unit.
Proof.
  induction units as [|unit units [[slots IH]|(u & ? & ?)]]; [left; by exists []| |right; exists u; set_solver].
  destruct (unit_output unit) as [e|slot] eqn:E; [right; exists unit; split; [by left|by exists e]|].
  left. exists (slot :: slots). by constructor.
Qed.

(** The passes of a window put every output in its place. *)
Lemma window_slots i units slots pre :
  Forall2 (λ unit slot, unit_output unit = inr slot) units slots →
  ∃ work, window_units D i (length pre) units = inr work
    ∧ index_outputs D i (run_unit D config <$> work) (pre ++ replicate (length units) None) = inr (pre ++ slots).
Proof.
  intros Hs. revert pre. induction Hs as [|[existing slices] slot units slots Hu Hs IH]; intros pre; [by exists []|].
  specialize (IH (pre ++ [slot])). rewrite length_app, Nat.add_1_r in IH. destruct IH as (work & E1 & E2).
  rewrite <- !app_assoc in E2. unfold unit_output in Hu. cbn [fst snd] in Hu. cbn [window_units].
  destruct slices as [[|r novelty] superseded]; cbn [fst snd] in *; [injection Hu as <-; by exists work|].
  destruct (fetch D existing) as [e|bytes]; [done|]. rewrite E1.
  destruct (update_fetched D config bytes (r :: novelty, superseded)) as [e|output] eqn:Eu; [done|]. injection Hu as <-.
  eexists. split; [done|]. cbn [fmap list_fmap index_outputs]. unfold run_unit at 1. cbn [wu_bytes wu_slices wu_manifest_index].
  rewrite Eu, (proj2 (Nat.leb_le i _)) by lia. replace (i + length pre - i)%nat with (length pre) by lia.
  rewrite (proj2 (Nat.ltb_lt _ _)) by (rewrite length_app; simpl; lia). cbn [andb length replicate].
  by rewrite insert_app_r_alt, Nat.sub_diag by lia.
Qed.

(** A unit that fails stops its window before anything is drained. *)
Lemma window_stops i offset units work slots slots' :
  window_units D i offset units = inr work → index_outputs D i (run_unit D config <$> work) slots = inr slots' →
  Forall (λ unit, ¬ unit_fails unit) units.
Proof.
  revert offset work slots. induction units as [|[existing [[|r novelty] superseded]] units IH]; intros offset work slots;
    [by constructor| |]; cbn [window_units fst snd].
  - intros E1 E2. constructor; [by intros [e He]|]. by eapply IH.
  - destruct (fetch D existing) as [e|bytes] eqn:Ef; [done|]. destruct (window_units D i (S offset) units) as [e|rest] eqn:Er; [done|].
    intros [= <-]. cbn [fmap list_fmap]. unfold run_unit at 1. cbn [wu_bytes wu_slices wu_manifest_index].
    destruct (update_fetched D config bytes (r :: novelty, superseded)) as [e|output] eqn:Eu; [done|]. cbn [index_outputs].
    destruct (_ && _); [|done]. intros E2. constructor; [|by eapply IH].
    intros [e He]. unfold unit_output in He. cbn [fst snd] in He. by rewrite Ef, Eu in He.
Qed.

Lemma drain_window_serial units i slots now acc log pre :
  drop i units = pre ++ now ++ drop (i + length pre + length now) units →
  Forall2 (λ unit slot, unit_output unit = inr slot) now slots →
  drain_window D config units i (length pre) slots acc log = foldl step (inr acc, log) now.
Proof.
  intros Hd Hs. revert acc log pre Hd. induction Hs as [|[existing slices] slot now slots Hu Hs IH]; intros acc log pre Hd; [done|].
  cbn [drain_window foldl].
  assert (units !! (i + length pre)%nat = Some (existing, slices)) as ->.
  { etrans; [symmetry; apply (lookup_drop units)|]. rewrite Hd. by rewrite lookup_app_r, Nat.sub_diag by lia. }
  rewrite step_output, Hu. cbn [fst]. change (match slot with None => _ | Some output => _ end) with (drain_slot existing slot acc log).
  destruct (drain_slot existing slot acc log) as [[e|acc'] log']; cbn [and_then]; [by rewrite step_failed|].
  specialize (IH acc' log' (pre ++ [(existing, slices)])). rewrite length_app, Nat.add_1_r in IH. apply IH.
  rewrite <- app_assoc. rewrite Hd at 1. cbn [app length]. do 4 f_equal. lia.
Qed.

(** What the two drains have in common: the same run, or a leaf that cannot be
    fetched or updated and both fail, the windows having handed over no more. *)
Definition drains_agree (units : list BranchUnit) (parallel serial : Drained D) : Prop :=
  parallel = serial
  ∨ (∃ unit, unit ∈ units ∧ unit_fails unit)
    ∧ ∃ e e' log log', parallel = (inl e, log) ∧ serial = (inl e', log') ∧ log `prefix_of` log'.

Lemma update_window_agrees units i window_end acc log : (i <= window_end <= length units)%nat →
  drains_agree units (update_window D config units i window_end acc log)
    (foldl step (inr acc, log) (take (window_end - i) (drop i units))).
Proof.
  intros Hi. unfold update_window. set (now := take (window_end - i) (drop i units)).
  assert (length now = (window_end - i)%nat) as Hnow by (unfold now; rewrite length_take, length_drop; lia).
  rewrite <- Hnow. destruct (outputs_or_fail now) as [[slots Hs]|(unit & Hin & Hf)].
  - left. destruct (window_slots i now slots [] Hs) as (work & E1 & E2). cbn [length app] in E1, E2. rewrite E1, E2.
    apply (drain_window_serial units i slots now acc log []); [|done]. unfold now. cbn [app length].
    rewrite Nat.add_0_r, length_take, <- drop_drop. rewrite <- (take_drop (window_end - i) (drop i units)) at 1. f_equal.
    f_equal. rewrite length_drop. lia.
  - right. assert (∃ e, (match window_units D i 0 now with
      | inl e => (inl e, log)
      | inr work => match index_outputs D i (run_unit D config <$> work) (replicate (length now) None) with
                    | inl e => (inl e, log)
                    | inr slots => drain_window D config units i 0 slots acc log end end : Drained D) = (inl e, log)) as [e ->].
    { destruct (window_units D i 0 now) as [e|work] eqn:E1; [by exists e|].
      destruct (index_outputs D i _ _) as [e|slots] eqn:E2; [by exists e|].
      pose proof (window_stops _ _ _ _ _ _ E1 E2) as Hall. rewrite Forall_forall in Hall. by destruct (Hall unit Hin). }
    split.
    + exists unit. split; [|done]. unfold now in Hin. apply elem_of_take in Hin as (j & Hj & _).
      rewrite lookup_drop in Hj. by eapply list_elem_of_lookup_2.
    + destruct (serial_fails now (inr acc, log) unit Hin Hf) as (e' & log' & E). exists e, e', log, log'. split; [done|].
      split; [done|]. pose proof (serial_log now (inr acc, log)) as Hp. by rewrite E in Hp.
Qed.

Lemma update_windows_agree fuel window units i acc log : (0 < window)%nat → (length units - i <= fuel)%nat →
  drains_agree units (update_windows D fuel config window units i acc log) (foldl step (inr acc, log) (drop i units)).
Proof.
  intros Hw. revert i acc log. induction fuel as [|fuel IH]; intros i acc log Hf; cbn [update_windows].
  { left. by rewrite drop_ge by lia. }
  destruct (Nat.ltb_spec i (length units)) as [Hi|Hi]; [|left; by rewrite drop_ge by lia].
  cbv zeta. set (window_end := Nat.min (i + window) (length units)).
  assert (drop i units = take (window_end - i) (drop i units) ++ drop window_end units) as ->.
  { rewrite <- (take_drop (window_end - i) (drop i units)) at 1. rewrite drop_drop. do 2 f_equal. lia. }
  rewrite foldl_app. destruct (update_window_agrees units i window_end acc log ltac:(lia)) as [->|(Hu & e & e' & l & l' & -> & -> & Hp)].
  - destruct (foldl step (inr acc, log) _) as [[e|acc'] log']; cbn [and_then]; [left; by rewrite step_failed|].
    apply IH. lia.
  - right. split; [done|]. exists e, e', l, l'. by rewrite step_failed.
Qed.

Lemma parallel_agrees window units acc log :
  drains_agree units (update_branch_parallel D config window units acc log) (update_branch_serial D config units acc log).
Proof. unfold update_branch_parallel. apply (update_windows_agree _ _ _ 0); lia. Qed.
End drains.

(** The entries of a leaf's update, and what it matched if that is asked
    for. *)
Definition touched_output (config : BranchUpdateConfig) (output : LeafUpdateOutput) :
    list LeafEntry * list RunRecordV2 :=
  (leaf_entry (bu_order config) <$> lo_leaves output, if bu_collect_matched config then lo_matched output else []).

(** One leaf with its slices, from sound storage. *)
Definition update_entry `{SO : Sorting} (config : BranchUpdateConfig) (x : BranchUnit) :
    option (list LeafEntry * list RunRecordV2) :=
  let '(existing, (novelty, superseded)) := x in
  match novelty with
  | [] => Some ([existing], [])
  | _ =>
      output ← update_leaf (make_leaf_update_input (le_leaf existing) novelty superseded config);
      Some (touched_output config output)
  end.

Lemma drain_leaves_sound `{SO : Sorting} order acc log leaves :
  ∃ acc' log', foldl (drain_leaf sound_store order) (inr acc, log) leaves = (inr acc', log')
    ∧ ba_leaf_entries acc' = ba_leaf_entries acc ++ (leaf_entry order <$> leaves)
    ∧ ba_matched acc' = ba_matched acc ∧ ba_collect_matched acc' = ba_collect_matched acc.
Proof.
  revert acc log. induction leaves as [|leaf leaves IH]; intros acc log.
  { exists acc, log. by rewrite app_nil_r. }
  cbn [foldl]. destruct (IH (push_new_leaf order acc leaf) (log ++ [leaf])) as (acc' & log' & E & E1 & E2 & E3).
  exists acc', log'. split; [exact E|]. rewrite E1, E2, E3. cbn. by rewrite <- app_assoc.
Qed.

Lemma sound_fetched existing : ∃ sidecar, fetch sound_store existing = inr (le_leaf existing, sidecar).
Proof. unfold fetch. cbn. destruct (lf_sidecar (le_leaf existing)); by eexists. Qed.

Lemma step_sound `{SO : Sorting} config unit x acc log : update_entry config unit = Some x →
  ba_collect_matched acc = bu_collect_matched config →
  ∃ acc' log', serial_step sound_store config (inr acc, log) unit = (inr acc', log')
    ∧ ba_leaf_entries acc' = ba_leaf_entries acc ++ x.1 ∧ ba_matched acc' = ba_matched acc ++ x.2
    ∧ ba_collect_matched acc' = bu_collect_matched config.
Proof.
  destruct unit as [existing [[|r novelty] superseded]]; cbn [update_entry].
  { intros [= <-] Hc. eexists _, log. split; [done|]. cbn. by rewrite app_nil_r. }
  destruct (update_leaf _) as [output|] eqn:Eu; [|done]. intros [= <-] Hc. unfold serial_step. cbn [and_then fst snd].
  destruct (sound_fetched existing) as [sidecar ->]. unfold update_fetched. cbn [D_decode sound_store fst snd]. rewrite Eu.
  unfold drain_touched_output. destruct (drain_leaves_sound (bu_order config) (replace_leaf acc existing (lo_matched output)) log
    (lo_leaves output)) as (acc' & log' & E & E1 & E2 & E3).
  exists acc', log'. split; [exact E|]. rewrite E1, E2, E3. cbn. by rewrite Hc.
Qed.

Lemma serial_mapM `{SO : Sorting} config units outs acc log :
  mapM (update_entry config) units = Some outs → ba_collect_matched acc = bu_collect_matched config →
  ∃ acc' log', update_branch_serial sound_store config units acc log = (inr acc', log')
    ∧ ba_leaf_entries acc' = ba_leaf_entries acc ++ concat outs.*1 ∧ ba_matched acc' = ba_matched acc ++ concat outs.*2.
Proof.
  unfold update_branch_serial. revert outs acc log. induction units as [|u units IH]; intros outs acc log H Hc; cbn [mapM foldl] in *.
  { injection H as <-. exists acc, log. by rewrite !app_nil_r. }
  destruct (update_entry config u) as [x|] eqn:Ex; [|done]. cbn [mbind option_bind] in *.
  destruct (mapM (update_entry config) units) as [xs|]; [|done]. injection H as <-.
  destruct (step_sound config u x acc log Ex Hc) as (acc1 & log1 & -> & E1 & E2 & E3).
  destruct (IH xs acc1 log1 eq_refl E3) as (acc2 & log2 & -> & E4 & E5). exists acc2, log2. split; [done|].
  rewrite E4, E5, E1, E2. csimpl. by rewrite !app_assoc.
Qed.

(** Whatever drain is chosen, sound storage gives what the entries give. *)
Lemma update_branch_mapM `{SO : Sorting} ncpu config leaves novelty superseded outs :
  mapM (update_entry config) (zip leaves (slice_streams_to_leaves (bu_order config) leaves novelty superseded)) = Some outs →
  update_branch ncpu config leaves novelty superseded = Some (concat outs.*1, concat outs.*2).
Proof.
  intros Hm. destruct (serial_mapM config _ outs (with_capacity (bu_collect_matched config)) [] Hm eq_refl) as (acc & log & E & E1 & E2).
  unfold update_branch, update_branch_streaming. cbv zeta. destruct (_ || _); [rewrite E; cbn; by rewrite E1, E2|].
  destruct (parallel_agrees sound_store config ncpu
    (zip leaves (slice_streams_to_leaves (bu_order config) leaves novelty superseded)) (with_capacity (bu_collect_matched config)) []) as [->|(_ & ? & ? & ? & ? & _ & E' & _)].
  - rewrite E. cbn. by rewrite E1, E2.
  - by rewrite E in E'.
Qed.

(** An entry of a branch, with the routing key of its leaf. *)
Definition entry_views (order : RunSortOrder) (le : LeafEntry) (vs : list View) : Prop :=
  leaf_reads order (le_leaf le) vs ∧ (∃ b, head (vw_first <$> vs) = Some b ∧ le_first_key le = key_rec b)
  ∧ ∃ v, last vs = Some v ∧ le_last_key le = key_rec (vw_last v).

(** The leaves record, for each fact, what the events [E] make of it; they
    hold no more than [n] rows and entries. *)
Definition branch_log (order : RunSortOrder) (n : nat) (leaves : list LeafEntry) (E : FactKeyV3 → list Ev) : Prop :=
  leaves ≠ [] ∧ ∃ vss, Forall2 (entry_views order) leaves vss ∧ Forall view_ok (concat vss)
    ∧ chain order true None (concat vss) ∧ leaflet_log order (all_rows (concat vss)) (all_hist (concat vss)) E
    ∧ (view_size (concat vss) <= n)%nat.

Lemma leaf_entry_views order leaf vs : leaf_reads order leaf vs → entry_views order (leaf_entry order leaf) vs.
Proof.
  intros Hr. split; [done|]. destruct Hr as [_ (v & vs' & -> & Hok & Hk) (w & Hw & Hok' & Hk')]. split.
  - exists (vw_first v). split; [done|]. unfold leaf_entry; cbn [le_first_key].
    rewrite Hk, <- (app_nil_r (write_ordered_key_v2 _ _)), read_write_key by done. by rewrite rec_key_rec.
  - exists w. split; [done|]. unfold leaf_entry; cbn [le_last_key].
    rewrite Hk', <- (app_nil_r (write_ordered_key_v2 _ _)), read_write_key by done. by rewrite rec_key_rec.
Qed.

Lemma record_cut order b s s1 s2 :
  s = s1 ++ s2 → low_stream order b s1 → high_stream order b s2 →
  let n := partition_point (λ r, match cmp_v2_for_order order r.1 (key_rec b) with Lt => true | _ => false end) s in
  take n s = s1 ∧ drop n s = s2.
Proof.
  intros -> H1 H2 n. assert (n = length s1) as ->; [|by rewrite take_app_length, drop_app_length].
  apply (partition_point_spec _ _ s1 s2); [done|..]; apply Forall_forall; intros x Hx; rewrite cmp_v2_key, rec_key_rec.
  - apply (proj1 (Forall_forall _ _) H1) in Hx. unfold okey, key_lt in Hx. by rewrite Hx.
  - apply (proj1 (Forall_forall _ _) H2) in Hx. unfold at_least, key_lt, okey in Hx. by destruct (key_cmp _ _ _).
Qed.

Section update_branch_facts.
Context `{SO : Sorting} (config : BranchUpdateConfig).
#[local] Abbreviation order := (bu_order config).
Hypothesis Htarget : (0 < bu_leaflet_target_rows config)%nat.

Lemma update_entry_spec le vs lm hi b E W nov sup :
  entry_views order le vs → update_of order lm hi b E W vs nov sup →
  fits (view_size vs + 2 * length nov + length sup) →
  ∃ out vs', update_entry config (le, (nov, sup)) = Some out
    ∧ (∃ vss, vs' = concat vss ∧ Forall2 (entry_views order) out.1 vss)
    ∧ updated order lm hi b (λ k, E k ++ W k) (view_size vs + 2 * length nov + length sup) vs'.
Proof.
  intros Hv Hu Hf. set (input := make_leaf_update_input (le_leaf le) nov sup config).
  destruct (update_leaf_spec order input vs lm hi b E W) as (out & vss & U1 & U2 & U3); [done|done|apply Hv|done|done|].
  destruct nov as [|x nov].
  - unfold update_entry. exists ([le], []), vs. split; [done|]. split.
    + exists [vs]. csimpl. rewrite app_nil_r. split; [done|by constructor].
    + clear U1 U2 U3. destruct Hu as [V1 V2 V3 V4 V5 _ _ _ _ _]. destruct (streams_empty _ _ _ V5) as [_ HW].
      split; [|done| |done|lia].
      * destruct vs as [|v vs]; [done|]. injection V1 as <-. exists v, vs. split; [done|]. intros _. apply at_least_refl.
      * eapply leaflet_log_ext; [|exact V4]. intros k. by rewrite HW, app_nil_r.
  - unfold update_entry. fold input. rewrite U1. cbn [mbind option_bind]. eexists _, (concat vss). split; [done|].
    split; [|done]. exists vss. split; [done|]. unfold touched_output; cbn [fst]. rewrite Forall2_fmap_l.
    eapply Forall2_impl; [exact U2|]. intros leaf vs'. apply leaf_entry_views.
Qed.

Lemma update_branch_log ncpu n leaves E W nov sup :
  branch_log order n leaves E → streams_ok order nov sup W → newer E W →
  Forall (λ x, v2_ok x.1) nov → Forall (λ x, v2_ok x.1) sup →
  fits (n + 2 * length nov + length sup) →
  ∃ leaves' matched, update_branch ncpu config leaves nov sup = Some (leaves', matched)
    ∧ branch_log order (n + 2 * length nov + length sup) leaves' (λ k, E k ++ W k).
Proof.
  intros (Hne & vss & Hv & Hok & Hc & Hl & Hn) Hs Hnew Hn1 Hn2 Hf.
  assert (∃ b, head (vw_first <$> concat vss) = Some b) as [b Hb].
  { destruct Hv as [|le vs leaves vss (_ & (b & Hb & _) & _) _]; [done|]. exists b. csimpl. by destruct vs. }
  assert (update_of order true None b E W (concat vss) nov sup) as Hu.
  { split; try done. apply Forall_forall. by intros x _. }
  destruct (process_parts order (n + 2 * length nov + length sup) (entry_views order)
    (λ (out : list LeafEntry * list RunRecordV2) vs', ∃ vss, vs' = concat vss ∧ Forall2 (entry_views order) out.1 vss)
    (slice_novelty_to_leaves order) (update_entry config)) with (items := leaves) (vss := vss) (lm := true)
    (hi := @None FactKeyV3) (b := b) (E := E) (W := W) (nov := nov) (sup := sup) as (outs & vss' & R1 & R2 & R3).
  - done.
  - intros a a2 l vs2 b2 s1 s2 (_ & (b2' & Hb2 & Hk) & _) Hb2' _ H1 H2. rewrite Hb2' in Hb2. injection Hb2 as <-.
    destruct (record_cut order b2 (s1 ++ s2) s1 s2 eq_refl H1 H2) as [T1 T2]. cbv zeta in T1, T2.
    cbn [slice_novelty_to_leaves fmap list_fmap slice_at_records]. cbv zeta. by rewrite Hk, T1, T2.
  - intros a vs [[_ (v & vs' & -> & _) _] _]. done.
  - intros a vs lm hi b' E' W' nov' sup' Ha Hu' HN. apply update_entry_spec; [done|done|]. by eapply fits_mono.
  - done.
  - done.
  - done.
  - lia.
  - assert (∃ vss2, concat vss2 = concat vss' ∧ Forall2 (entry_views order) (concat outs.*1) vss2)
      as (vss2 & Hcat & Hviews).
    { clear -R2. induction R2 as [|out vs outs vss' (ws & -> & Hws) _ (vss2 & IH1 & IH2)]; [by exists []|].
      exists (ws ++ vss2). csimpl. rewrite concat_app, IH1. split; [done|by apply Forall2_app]. }
    exists (concat outs.*1), (concat outs.*2). split.
    + by apply update_branch_mapM.
    + destruct R3 as [(v & vs1 & E1 & _) V2 V3 V4 V5]. split.
      * intros Hnil. rewrite Hnil in Hviews. apply Forall2_nil_inv_l in Hviews as ->. simpl in Hcat. by rewrite <- Hcat in E1.
      * exists vss2. rewrite Hcat. split; [done|]. split; [done|]. split; [done|]. split; [done|lia].
Qed.
End update_branch_facts.

(** ** Reading a branch at a time *)

(** [out] is what the rows and the history of a view are at [T]. *)
Definition rows_then (order : RunSortOrder) (T : Z) (rows : list RunRecordV2) (hist : list HistEntryV2)
    (out : list RunRecordV2) : Prop :=
  StronglySorted (key_lt order) (rec_key <$> out)
  ∧ ∀ k L, fact_log (rows_at k rows) (hist_at k hist) L → row_ev <$> rows_at k out = live (until T L).

Lemma fact_log_empty L : fact_log [] [] L → L = [].
Proof. intros [_ H _ _]. by apply Permutation_nil_l in H. Qed.

Lemma rows_then_keys order T rows hist out k :
  rows_then order T rows hist out → k ∈ rec_key <$> out → k ∈ (rec_key <$> rows) ++ (hist_key <$> hist).
Proof.
  intros [_ H] Hk. destruct (decide (k ∈ (rec_key <$> rows) ++ (hist_key <$> hist))) as [|Hn]; [done|]. exfalso.
  apply not_elem_of_app in Hn as [H1 H2]. specialize (H k []). rewrite (rows_at_none k rows), (hist_at_none k hist) in H by done.
  specialize (H fact_log_nil). apply fmap_nil_inv in H. apply rows_at_nil in H. done.
Qed.

Lemma log_times rows hist L :
  Forall v2_ok rows → Forall hist_ok hist → fact_log rows hist L → Forall (λ e, 0 <= e.1 <= u32_max) L.
Proof.
  intros Hr Hh [_ Hp _ _]. rewrite <- Hp. apply Forall_app. rewrite !Forall_fmap. split.
  - eapply Forall_impl; [exact Hh|]. intros e (_ & _ & _ & _ & _ & ?). unfold u32_max. simpl. lia.
  - eapply Forall_impl; [exact Hr|]. intros r (_ & _ & _ & ? & _). unfold u32_max. simpl. lia.
Qed.

Lemma rows_above batch rows T :
  column_batch_to_records batch = Some rows → 0 <= T → batch_has_rows_above_t batch T = false →
  Forall (λ r, v2_t r <= T) rows.
Proof.
  unfold column_batch_to_records. intros H%mapM_Some_1 HT Hb. apply Forall2_flip in H.
  eapply Forall2_Forall_l in H; [exact H|]. apply Forall_forall. intros i _ r Hr.
  unfold batch_row_to_record in Hr. repeat (apply bind_Some in Hr as (? & ? & Hr)). injection Hr as <-. simpl.
  unfold batch_has_rows_above_t in Hb. unfold column_get_or in *. destruct (cb_t batch) as [ts|t|].
  - destruct (Z.le_gt_cases x2 T) as [|Hgt]; [done|]. exfalso.
    assert (existsb (λ t, T <? t) ts = true) as Ht; [|congruence]. apply existsb_exists. exists x2.
    split; [by eapply list_elem_of_In, list_elem_of_lookup_2|lia].
  - simplify_eq. lia.
  - simplify_eq. lia.
Qed.

Section reading.
Context `{SO : Sorting} `{HD : HashDrain} (order : RunSortOrder) (T : Z).
Hypothesis HT : 0 <= T.

Lemma fact_until k rows hist L :
  Forall (λ r, v2_t r <= T) rows → Forall (λ e, he_t e <= T) hist →
  fact_log (rows_at k rows) (hist_at k hist) L → until T L = L.
Proof.
  intros Hr Hh [_ Hp _ _]. apply until_all. rewrite <- Hp. apply Forall_app. rewrite !Forall_fmap.
  split; apply Forall_forall; intros x [_ Hx]%list_elem_of_filter; simpl;
    [by apply (proj1 (Forall_forall _ _) Hh)|by apply (proj1 (Forall_forall _ _) Hr)].
Qed.

Lemma leaflet_rows_at_log sidecar entry v E :
  entry_reads order sidecar entry v → view_ok v → leaflet_log order (vw_rows v) (vw_hist v) E →
  ∃ out, leaflet_rows_at order sidecar T entry = Some out ∧ rows_then order T (vw_rows v) (vw_hist v) out.
Proof.
  intros ([_ _ _ _ _ (batch & Hb & Hrec)] & Hload & Hsort & Hlen & Hmax) [Ho1 Ho2] Hl.
  assert (∀ k L, fact_log (rows_at k (vw_rows v)) (hist_at k (vw_hist v)) L → Forall (λ e, 0 <= e.1 <= u32_max) L) as Htimes.
  { intros k L HL. eapply log_times; [| |exact HL]; apply Forall_forall; intros x [_ Hx]%list_elem_of_filter;
      [by apply (proj1 (Forall_forall _ _) Ho1)|by apply (proj1 (Forall_forall _ _) Ho2)]. }
  unfold leaflet_rows_at, leaflet_batch. rewrite Hb. cbn [mbind option_bind]. unfold replay_leaflet_at_t.
  destruct ((to_u32 T <? sr_max_t (de_history entry)) || batch_has_rows_above_t batch (to_u32 T)) eqn:Hneed; cbn [negb].
  - destruct (replay_leaflet_log order batch (vw_rows v) (vw_hist v) E T Hrec Hl Hsort) as (res & out & R1 & R2 & R3 & R4).
    exists out. split; [|split; [done|]].
    + unfold load_existing_history in Hload. destruct (Z.eqb_spec (sr_len (de_history entry)) 0) as [Hz|Hz].
      * injection Hload as Hnil. rewrite Hz. simpl. rewrite Hnil, R1. done.
      * destruct sidecar as [sb|]; [|done]. cbn [mbind option_bind] in Hload.
        rewrite (proj2 (Z.ltb_lt 0 _)) by lia. cbn [mbind option_bind]. rewrite Hload. cbn [mbind option_bind]. by rewrite R1.
    + intros k L HL. apply R4; [done|]. by eapply Htimes.
  - cbn [mbind option_bind default]. exists (vw_rows v). split; [done|]. split; [apply Hl|]. intros k L HL.
    apply orb_false_iff in Hneed as [H1 H2]. apply Z.ltb_ge in H1.
    assert (until T L = L) as ->; [|apply HL]. unfold to_u32 in H1, H2.
    destruct ((0 <=? T) && (T <=? u32_max)) eqn:Hu.
    + eapply fact_until; [|eapply Forall_impl; [exact Hmax|]; simpl; lia|exact HL].
      by eapply rows_above.
    + apply until_all. eapply Forall_impl; [by eapply Htimes|]. simpl. intros e He.
      apply andb_false_iff in Hu as [Hu|Hu]; apply Z.leb_gt in Hu; lia.
Qed.

(** Each leaflet of a chain has a log of its own. *)
Lemma chain_logs lm hi vs E :
  chain order lm hi vs → leaflet_log order (all_rows vs) (all_hist vs) E →
  Forall (λ v, ∃ E', leaflet_log order (vw_rows v) (vw_hist v) E') vs.
Proof.
  revert lm E. induction vs as [|v vs IH]; intros lm E Hc Hl; [constructor|].
  destruct vs as [|v2 vs].
  { destruct (all_one v) as [A1 A2]. rewrite A1, A2 in Hl. constructor; [by exists E|constructor]. }
  apply (chain_app_inv order lm hi [v] (v2 :: vs)) in Hc as [C1 C2]. rewrite andb_false_r in C2. cbn [next_key] in C1.
  assert (Forall (λ k, key_lt order k (vw_first v2)) (concat (view_keys <$> [v]))) as Hlow.
  { apply Forall_forall. intros k Hk. by apply (chain_below order lm (Some (vw_first v2)) [v]). }
  assert (Forall (at_least order (vw_first v2)) (concat (view_keys <$> v2 :: vs))) as Hhigh.
  { apply Forall_forall. intros k Hk. by eapply chain_above. }
  apply all_keys in Hlow as [Hl1 Hl2], Hhigh as [Hh1 Hh2].
  change (v :: v2 :: vs) with ([v] ++ v2 :: vs) in Hl. rewrite all_rows_app, all_hist_app in Hl.
  destruct (leaflet_log_split order _ _ _ _ _ Hl1 Hl2 Hh1 Hh2 E Hl) as [L1 L2].
  destruct (all_one v) as [A1 A2]. rewrite A1, A2 in L1. constructor; [by eexists|]. by eapply IH.
Qed.

(** The rows of the leaflets, one after the other, are the rows of all. *)
Lemma rows_then_join lm hi vs outs :
  chain order lm hi vs → Forall2 (λ v out, rows_then order T (vw_rows v) (vw_hist v) out) vs outs →
  rows_then order T (all_rows vs) (all_hist vs) (concat outs).
Proof.
  intros Hc Hr. revert lm Hc. induction Hr as [|v out vs outs Hv Hvs IH]; intros lm Hc.
  { split; [constructor|]. intros k L HL. simpl in HL. by apply fact_log_empty in HL as ->. }
  specialize (IH false). destruct Hc as (C1 & C2 & C3 & C4). specialize (IH C4).
  change (all_rows (v :: vs)) with (vw_rows v ++ all_rows vs). change (all_hist (v :: vs)) with (vw_hist v ++ all_hist vs).
  change (concat (out :: outs)) with (out ++ concat outs).
  destruct vs as [|v2 vs].
  { apply Forall2_nil_inv_l in Hvs as ->. unfold all_rows, all_hist. simpl. by rewrite !app_nil_r. }
  set (b := vw_first v2) in *. cbn [next_key] in C1, C2.
  assert (∀ k, k ∈ rec_key <$> out → key_lt order k b) as Ho1.
  { intros k Hk. apply (proj1 (Forall_forall _ _) C2). by eapply rows_then_keys. }
  assert (∀ k, k ∈ rec_key <$> concat outs → at_least order b k) as Ho2.
  { intros k Hk. eapply rows_then_keys, elem_of_app in Hk; [|exact IH]. eapply chain_above; [exact C4|].
    by apply elem_of_view_keys. }
  assert (Forall (at_least order b) (concat (view_keys <$> v2 :: vs))) as Hhigh.
  { apply Forall_forall. intros k Hk. by eapply chain_above. }
  apply all_keys in Hhigh as [Hh1 Hh2]. apply Forall_app in C2 as [Hl1 Hl2].
  destruct Hv as [V1 V2], IH as [I1 I2]. split.
  - rewrite fmap_app. apply StronglySorted_app_2; [|done|done]. intros x y Hx Hy.
    eapply lt_at_least; [by apply Ho1|by apply Ho2].
  - intros k L. rewrite !rows_at_app, hist_at_app. destruct (at_least_cases order b k) as [Hk|Hk].
    + destruct (high_none order b (all_rows (v2 :: vs)) (all_hist (v2 :: vs)) Hh1 Hh2 k Hk) as [-> ->].
      rewrite !app_nil_r. intros HL. rewrite (rows_at_none k (concat outs)), app_nil_r; [by apply V2|].
      intros Hin%Ho2. by apply Hin.
    + destruct (low_none order b (vw_rows v) (vw_hist v) Hl1 Hl2 k Hk) as [-> ->].
      intros HL. rewrite (rows_at_none k out); [by apply I2|]. intros Hin%Ho1. by apply Hk.
Qed.

Lemma branch_rows_at_log n leaves E :
  branch_log order n leaves E →
  ∃ vss out, branch_rows_at order T leaves = Some out
    ∧ leaflet_log order (all_rows (concat vss)) (all_hist (concat vss)) E
    ∧ rows_then order T (all_rows (concat vss)) (all_hist (concat vss)) out.
Proof.
  intros (_ & vss & Hv & Hok & Hc & Hl & _). exists vss.
  pose proof (chain_logs true None _ E Hc Hl) as Hlogs.
  assert (∃ outss : list (list (list RunRecordV2)), mapM (λ le, rows ← mapM (leaflet_rows_at order (lf_sidecar (le_leaf le)) T) (lf_entries (le_leaf le));
                               Some (concat rows)) leaves = Some ((λ o, concat o) <$> outss)
    ∧ Forall2 (Forall2 (λ v out, rows_then order T (vw_rows v) (vw_hist v) out)) vss outss) as (outss & H1 & H2).
  { clear Hc Hl. induction Hv as [|le vs leaves vss [[Hr _ _] _] Hv IH]; [by exists []|].
    csimpl in Hok. csimpl in Hlogs. apply Forall_app in Hok as [Ho1 Ho2], Hlogs as [Hl1 Hl2]. destruct (IH Ho2 Hl2) as (outss & H1 & H2).
    assert (∃ outs, mapM (leaflet_rows_at order (lf_sidecar (le_leaf le)) T) (lf_entries (le_leaf le)) = Some outs
      ∧ Forall2 (λ v out, rows_then order T (vw_rows v) (vw_hist v) out) vs outs) as (outs & H3 & H4).
    { clear -HT Hr Ho1 Hl1. induction Hr as [|e v es vs He _ IH]; [by exists []|].
      apply Forall_cons in Ho1 as [Ho1 Ho2], Hl1 as [[E' Hl1] Hl2]. destruct (IH Ho2 Hl2) as (outs & H1 & H2).
      destruct (leaflet_rows_at_log _ e v E' He Ho1 Hl1) as (out & H3 & H4).
      exists (out :: outs). split; [by apply mapM_cons_Some|by constructor]. }
    exists (outs :: outss). split; [|by constructor]. rewrite fmap_cons. apply mapM_cons_Some; [by rewrite H3|done]. }
  exists (concat ((λ o, concat o) <$> outss)). unfold branch_rows_at. rewrite H1. split; [done|]. split; [done|].
  assert (concat ((λ o, concat o) <$> outss) = concat (concat outss)) as ->.
  { clear. induction outss as [|o outss IH]; [done|]. csimpl. by rewrite concat_app, IH. }
  eapply rows_then_join; [exact Hc|]. by apply Forall2_concat_join.
Qed.

(** The branch at a time: the rows of the facts that an assertion holds at
    it. *)
Lemma branch_rows_survive n leaves E :
  branch_log order n leaves E →
  ∃ out, branch_rows_at order T leaves = Some out ∧ StronglySorted (key_lt order) (rec_key <$> out)
    ∧ (∀ r, r ∈ out → survives (E (rec_key r)) (v2_t r) T)
    ∧ (∀ k t, survives (E k) t T → k ∈ rec_key <$> out).
Proof.
  intros Hb. destruct (branch_rows_at_log n leaves E Hb) as (vss & out & Hout & [_ Hf] & Hs & Hr).
  exists out. split; [done|]. split; [done|]. split.
  - intros r Hin. destruct (Hf (rec_key r)) as (L & HL & Hshow & _). specialize (Hr _ _ HL). specialize (Hshow T).
    assert (r ∈ rows_at (rec_key r) out) as Hat by (by apply list_elem_of_filter).
    assert (row_ev r ∈ live (until T L)) as Hrl by (rewrite <- Hr; apply list_elem_of_fmap; by exists r).
    destruct (live_cases (until T L)) as [(e & _ & _ & _ & He)|[_ He]]; rewrite He in *;
      [|by apply not_elem_of_nil in Hrl]. apply list_elem_of_singleton in Hrl as <-. done.
  - intros k t Ht. destruct (Hf k) as (L & HL & Hshow & _). specialize (Hr _ _ HL). specialize (Hshow T).
    destruct (live (until T L)) as [|e l] eqn:He; [by apply Hshow in Ht|].
    destruct (decide (k ∈ rec_key <$> out)) as [|Hn]; [done|]. rewrite (rows_at_none k out Hn) in Hr. done.
Qed.
End reading.

(** ** A fresh branch *)

Section fresh.
Context `{SO : Sorting} (order : RunSortOrder) (lt ft : nat).

(** The writer after records only: those it buffers, the leaflets and the
    bounds of its leaf, the leaves it completed. *)
Definition writer_at (buf : list RunRecordV2) (encoded : list EncodedLeaflet) (n : nat)
    (first_rec last_rec : option RunRecordV2) (completed : list Leaf) : LeafWriter :=
  {| w_order := order; w_leaflet_target_rows := lt; w_leaf_target_rows := ft; w_skip_history := false;
     w_leaflet :=
       {| lb_records := buf; lb_segment_started := false; lb_hist_min := None; lb_hist_max := None;
          lb_seg_p_id := match order with Post | Psot => v2_p_id <$> last buf | _ => None end;
          lb_seg_o_type := match order with Opst => v2_o_type <$> last buf | _ => None end |};
     w_leaf := {| fb_encoded_leaflets := encoded; fb_sidecar_builder := replicate (length encoded) [];
                  fb_accumulated_rows := n; fb_first_record := first_rec; fb_last_record := last_rec |};
     w_pending_history := []; w_completed_leaves := completed |}.

Lemma flush_leaflet_at buf el encoded n f l completed :
  encode_leaflet buf order = Some el →
  flush_leaflet (writer_at buf encoded n f l completed)
  = Some (writer_at [] (encoded ++ [el]) (n + el_row_count el) f l completed).
Proof.
  intros He. destruct buf as [|r buf]; [done|]. unfold flush_leaflet, writer_at; cbn [w_leaflet lb_records w_order].
  rewrite He. cbn [mbind option_bind]. unfold with_state, widen_over; simpl.
  destruct el; simpl. unfold empty_leaflet_buf, start_leaflet. rewrite length_app, replicate_add. by destruct order.
Qed.

Definition fresh_leaf (encoded : list EncodedLeaflet) (f l : RunRecordV2) : Leaf :=
  {| lf_first_key := write_ordered_key_v2 order f; lf_last_key := write_ordered_key_v2 order l;
     lf_entries := (λ el, {| de_leaflet := el; de_history := no_history |}) <$> encoded; lf_sidecar := None |}.

Lemma no_history_replicate n : has_history (replicate n []) = false.
Proof. induction n as [|n IH]; [done|]. simpl. apply IH. Qed.

Lemma imap_no_refs (ls : list EncodedLeaflet) :
  imap (λ i l, {| de_leaflet := l; de_history := default no_history (@nil HistorySegmentRef !! i) |}) ls
  = (λ el, {| de_leaflet := el; de_history := no_history |}) <$> ls.
Proof. apply list_eq. intros i. by rewrite list_lookup_imap, list_lookup_fmap. Qed.

Lemma flush_leaf_at buf encoded n f l completed :
  encoded ≠ [] →
  flush_leaf (writer_at buf encoded n (Some f) (Some l) completed)
  = Some (writer_at buf [] 0 None None (completed ++ [fresh_leaf encoded f l])).
Proof.
  intros Hne. unfold flush_leaf. cbn [writer_at w_leaf fb_encoded_leaflets fb_first_record fb_last_record fb_sidecar_builder w_skip_history].
  rewrite no_history_replicate. destruct encoded as [|el encoded]; [done|].
  cbn [mbind option_bind negb andb]. cbv zeta. by rewrite (imap_no_refs (el :: encoded)).
Qed.

Lemma push_record_at buf encoded n f l completed r :
  match buf with [] => false | _ => should_flush_for_segmentation (writer_at buf encoded n f l completed) r end = false →
  push_record (writer_at buf encoded n f l completed) r
  = (let w := writer_at (buf ++ [r]) encoded n (match f with Some x => Some x | None => Some r end) (Some r) completed in
     w' ← (if (lt <=? length (buf ++ [r]))%nat then flush_leaflet w else Some w);
     flush_leaf_if_target_reached w').
Proof.
  intros Hseg. unfold push_record at 1. change (lb_records (w_leaflet (writer_at buf encoded n f l completed))) with buf.
  rewrite Hseg. cbn [mbind option_bind]. unfold flush_history_only_segments, commit_all_pending, with_state, writer_at; simpl.
  rewrite last_snoc. by destruct order, f.
Qed.

Lemma push_record_flush buf el encoded n f l completed r :
  buf ≠ [] → encode_leaflet buf order = Some el →
  should_flush_for_segmentation (writer_at buf encoded n f l completed) r = true →
  push_record (writer_at buf encoded n f l completed) r
  = (w ← flush_leaf_if_target_reached (writer_at [] (encoded ++ [el]) (n + el_row_count el) f l completed);
     push_record w r).
Proof.
  intros Hne He Hseg. unfold push_record at 1. change (lb_records (w_leaflet (writer_at buf encoded n f l completed))) with buf.
  rewrite Hseg. destruct buf as [|x buf]; [done|].
  assert (commit_pending_for_current_segment (writer_at (x :: buf) encoded n f l completed)
    = writer_at (x :: buf) encoded n f l completed) as -> by done.
  rewrite (flush_leaflet_at _ el) by done. cbn [mbind option_bind].
  assert (∀ w', flush_leaf_if_target_reached (writer_at [] (encoded ++ [el]) (n + el_row_count el) f l completed) = Some w' →
    lb_records (w_leaflet w') = []) as Hbuf.
  { intros w'. unfold flush_leaf_if_target_reached, flush_leaf. destruct (_ <=? _)%nat; [|by intros [= <-]].
    cbn [writer_at w_leaf fb_encoded_leaflets fb_first_record fb_last_record fb_sidecar_builder w_skip_history].
    rewrite no_history_replicate. destruct (encoded ++ [el]); [by intros [= <-]|].
    destruct f, l; cbn [mbind option_bind]; [by intros [= <-]|done..]. }
  destruct (flush_leaf_if_target_reached _) as [w'|]; [|done]. cbn [mbind option_bind].
  unfold push_record. by rewrite (Hbuf w').
Qed.

(** The chunks of the leaves completed, of the leaf under way, and the records
    of the leaflet under way. *)
Definition chunk_ok (c : list RunRecordV2) : Prop := c ≠ [] ∧ homogeneous order c.

Definition fresh_from (leaf : Leaf) (cs : list (list RunRecordV2)) : Prop :=
  Forall chunk_ok cs ∧ ∃ encoded f l, leaf = fresh_leaf encoded f l
    ∧ Forall2 (λ c el, encode_leaflet c order = Some el) cs encoded ∧ head (concat cs) = Some f ∧ last (concat cs) = Some l.

Definition built (css : list (list (list RunRecordV2))) (cs : list (list RunRecordV2)) (buf : list RunRecordV2)
    (w : LeafWriter) : Prop :=
  ∃ encoded n completed, w = writer_at buf encoded n (head (concat cs ++ buf)) (last (concat cs ++ buf)) completed
    ∧ Forall2 (λ c el, encode_leaflet c order = Some el) cs encoded ∧ Forall chunk_ok cs ∧ homogeneous order buf
    ∧ Forall2 fresh_from completed css ∧ (encoded = [] ∨ (n < ft)%nat).

Lemma encode_some c : c ≠ [] → ∃ el, encode_leaflet c order = Some el.
Proof. destruct c; [done|]. intros _. by eexists. Qed.

Lemma chunks_ends (c : list RunRecordV2) cs :
  c ≠ [] → ∃ f l, head (concat (c :: cs)) = Some f ∧ last (concat (c :: cs)) = Some l.
Proof.
  intros Hne. csimpl. destruct c as [|x c]; [done|]. exists x.
  destruct (last ((x :: c) ++ concat cs)) as [l|] eqn:El; [by exists l|by apply last_None in El].
Qed.

Lemma close_leaf css cs encoded n completed :
  Forall2 (λ c el, encode_leaflet c order = Some el) cs encoded → Forall chunk_ok cs → Forall2 fresh_from completed css →
  ∃ w css' cs', flush_leaf_if_target_reached (writer_at [] encoded n (head (concat cs)) (last (concat cs)) completed) = Some w
    ∧ built css' cs' [] w ∧ concat (concat css') ++ concat cs' = concat (concat css) ++ concat cs.
Proof.
  intros He Hc Hf. unfold flush_leaf_if_target_reached.
  change (w_leaf_target_rows (writer_at _ _ _ _ _ _)) with ft. change (fb_accumulated_rows (w_leaf (writer_at _ _ _ _ _ _))) with n.
  assert (homogeneous order []) as Hnil by (intros a b Ha; by apply not_elem_of_nil in Ha).
  destruct (Nat.leb_spec ft n) as [Hle|Hlt'].
  - destruct cs as [|c cs].
    { apply Forall2_nil_inv_l in He as ->. eexists _, css, []. split; [done|]. split; [|done].
      exists [], n, completed. split; [done|]. split; [done|]. split; [done|]. split; [done|]. split; [done|by left]. }
    assert (∃ f l, head (concat (c :: cs)) = Some f ∧ last (concat (c :: cs)) = Some l) as (f & l & Hh & Hl).
    { apply Forall_cons in Hc as [[Hne _] _]. by apply chunks_ends. }
    rewrite Hh, Hl, flush_leaf_at by (by inversion He). eexists _, (css ++ [c :: cs]), []. split; [done|]. split.
    + exists [], 0%nat, (completed ++ [fresh_leaf encoded f l]). split; [done|]. split; [done|]. split; [constructor|].
      split; [done|]. split; [|by left]. apply Forall2_app; [done|]. constructor; [|done]. split; [done|]. by exists encoded, f, l.
    + rewrite !concat_app. csimpl. by rewrite !app_nil_r.
  - eexists _, css, cs. split; [done|]. split; [|done]. exists encoded, n, completed. rewrite app_nil_r. repeat (split; [done|]). by right.
Qed.

Lemma close_leaflet css cs buf encoded n completed el :
  Forall2 (λ c el, encode_leaflet c order = Some el) cs encoded → Forall chunk_ok cs → Forall2 fresh_from completed css →
  buf ≠ [] → homogeneous order buf → encode_leaflet buf order = Some el →
  ∃ w css' cs', flush_leaf_if_target_reached
      (writer_at [] (encoded ++ [el]) (n + el_row_count el) (head (concat cs ++ buf)) (last (concat cs ++ buf)) completed) = Some w
    ∧ built css' cs' [] w ∧ concat (concat css') ++ concat cs' = concat (concat css) ++ concat cs ++ buf.
Proof.
  intros He Hc Hf Hne Hh Hel.
  destruct (close_leaf css (cs ++ [buf]) (encoded ++ [el]) (n + el_row_count el) completed) as (w & css' & cs' & H1 & H2 & H3).
  - by apply Forall2_app; [|constructor].
  - apply Forall_app. split; [done|]. by repeat constructor.
  - done.
  - rewrite concat_app in H1, H3. csimpl in H1. csimpl in H3. rewrite app_nil_r in H1, H3. by exists w, css', cs'.
Qed.

Lemma homogeneous_snoc buf r :
  homogeneous order buf → (∀ x, last buf = Some x → same_segment order x r = true) → homogeneous order (buf ++ [r]).
Proof.
  intros Hh Hl. assert (∀ a, a ∈ buf → same_segment order a r = true) as Hr.
  { intros a Ha. destruct (last buf) as [x|] eqn:El; [|by apply last_None in El as ->; apply not_elem_of_nil in Ha].
    specialize (Hl x eq_refl). apply last_Some_elem_of in El.
    eapply same_segment_join; [by apply (Hh x a)|exact Hl]. }
  intros a b [Ha|Ha]%elem_of_app [Hb|Hb]%elem_of_app.
  - by apply Hh.
  - apply list_elem_of_singleton in Hb as ->. by apply Hr.
  - apply list_elem_of_singleton in Ha as ->.
    eapply same_segment_join; [by apply (Hr b)|apply same_segment_refl].
  - apply list_elem_of_singleton in Ha as ->, Hb as ->. apply same_segment_refl.
Qed.

Lemma should_flush_last buf encoded n f l completed r :
  should_flush_for_segmentation (writer_at buf encoded n f l completed) r
  = match last buf with Some x => negb (same_segment order x r) | None => false end.
Proof.
  unfold should_flush_for_segmentation, writer_at; cbn [w_order w_leaflet lb_seg_p_id lb_seg_o_type].
  destruct order, (last buf); simpl; try done; by rewrite Z.eqb_sym.
Qed.

(** A record that goes to the leaflet under way. *)
Lemma push_built_same css cs buf w r :
  built css cs buf w → (∀ x, last buf = Some x → same_segment order x r = true) →
  ∃ w' css' cs' buf', push_record w r = Some w' ∧ built css' cs' buf' w'
    ∧ concat (concat css') ++ concat cs' ++ buf' = concat (concat css) ++ concat cs ++ buf ++ [r].
Proof.
  intros (encoded & n & completed & -> & He & Hc & Hh & Hf & Hn) Hs.
  rewrite push_record_at.
  2:{ destruct buf as [|x buf']; [done|]. rewrite should_flush_last. destruct (last (x :: buf')) as [y|]; [|done].
      by rewrite Hs. }
  cbv zeta. pose proof (homogeneous_snoc buf r Hh Hs) as Hh'.
  assert (match head (concat cs ++ buf) with Some x => Some x | None => Some r end = head (concat cs ++ buf ++ [r])) as ->.
  { rewrite app_assoc. by destruct (concat cs ++ buf). }
  assert (Some r = last (concat cs ++ buf ++ [r])) as Hl by (by rewrite app_assoc, last_snoc). rewrite Hl.
  destruct (encode_some (buf ++ [r])) as [el Hel]; [by destruct buf|].
  destruct (lt <=? length (buf ++ [r]))%nat.
  - rewrite (flush_leaflet_at _ el) by done. cbn [mbind option_bind].
    destruct (close_leaflet css cs (buf ++ [r]) encoded n completed el) as (w & css' & cs' & H1 & H2 & H3); [done..|by destruct buf|done|done|].
    exists w, css', cs', []. rewrite app_nil_r. done.
  - cbn [mbind option_bind]. unfold flush_leaf_if_target_reached.
    change (w_leaf_target_rows (writer_at _ _ _ _ _ _)) with ft. change (fb_accumulated_rows (w_leaf (writer_at _ _ _ _ _ _))) with n.
    eexists _, css, cs, (buf ++ [r]). split; [|split; [|done]].
    + destruct (Nat.leb_spec ft n); [|done]. destruct Hn as [->|?]; [done|lia].
    + exists encoded, n, completed. done.
Qed.

Lemma push_built css cs buf w r :
  built css cs buf w →
  ∃ w' css' cs' buf', push_record w r = Some w' ∧ built css' cs' buf' w'
    ∧ concat (concat css') ++ concat cs' ++ buf' = concat (concat css) ++ concat cs ++ buf ++ [r].
Proof.
  intros Hb. destruct (last buf) as [x|] eqn:El.
  2:{ apply push_built_same; [done|]. intros y. by rewrite El. }
  destruct (same_segment order x r) eqn:Hs.
  { apply push_built_same; [done|]. intros y. rewrite El. by intros [= <-]. }
  destruct Hb as (encoded & n & completed & -> & He & Hc & Hh & Hf & Hn).
  assert (buf ≠ []) as Hne by (by intros ->). destruct (encode_some buf Hne) as [el Hel].
  rewrite (push_record_flush buf el) by (try done; rewrite should_flush_last, El, Hs; done).
  destruct (close_leaflet css cs buf encoded n completed el) as (w & css' & cs' & H1 & H2 & H3); [done..|].
  rewrite H1. cbn [mbind option_bind].
  destruct (push_built_same css' cs' [] w r H2) as (w' & css2 & cs2 & buf2 & P1 & P2 & P3); [done|].
  exists w', css2, cs2, buf2. split; [done|]. split; [done|]. rewrite P3. simpl. rewrite app_assoc, H3, <- !app_assoc. done.
Qed.

Lemma pushes_built records css cs buf w :
  built css cs buf w →
  ∃ w' css' cs' buf', push_records w records = Some w' ∧ built css' cs' buf' w'
    ∧ concat (concat css') ++ concat cs' ++ buf' = concat (concat css) ++ concat cs ++ buf ++ records.
Proof.
  revert css cs buf w. induction records as [|r records IH]; intros css cs buf w Hb.
  { exists w, css, cs, buf. rewrite app_nil_r. done. }
  destruct (push_built css cs buf w r Hb) as (w1 & css1 & cs1 & buf1 & H1 & H2 & H3).
  destruct (IH css1 cs1 buf1 w1 H2) as (w2 & css2 & cs2 & buf2 & P1 & P2 & P3).
  exists w2, css2, cs2, buf2. unfold push_records in *. cbn [foldl mbind option_bind]. rewrite H1. split; [done|]. split; [done|].
  rewrite P3. rewrite (app_assoc (concat cs1)), (app_assoc (concat (concat css1))), H3, <- !app_assoc. done.
Qed.

Lemma finish_built css cs buf w :
  built css cs buf w → ∃ leaves css', finish w = Some leaves ∧ Forall2 fresh_from leaves css'
    ∧ concat (concat css') = concat (concat css) ++ concat cs ++ buf.
Proof.
  intros (encoded & n & completed & -> & He & Hc & Hh & Hf & Hn).
  assert (∃ cs2 encoded2 n2, Forall2 (λ c el, encode_leaflet c order = Some el) cs2 encoded2 ∧ Forall chunk_ok cs2
    ∧ concat cs2 = concat cs ++ buf
    ∧ finish (writer_at buf encoded n (head (concat cs ++ buf)) (last (concat cs ++ buf)) completed)
      = (w ← match encoded2 with
             | [] => Some (writer_at [] encoded2 n2 (head (concat cs2)) (last (concat cs2)) completed)
             | _ => flush_leaf (writer_at [] encoded2 n2 (head (concat cs2)) (last (concat cs2)) completed) end;
         Some (w_completed_leaves w))) as (cs2 & encoded2 & n2 & He2 & Hc2 & Hcat & ->).
  { destruct (decide (buf = [])) as [->|Hne].
    - exists cs, encoded, n. rewrite app_nil_r. split; [done|]. split; [done|]. split; [done|]. reflexivity.
    - destruct (encode_some buf Hne) as [el Hel]. exists (cs ++ [buf]), (encoded ++ [el]), (n + el_row_count el)%nat.
      split; [by apply Forall2_app; [|constructor]|]. split; [apply Forall_app; split; [done|by repeat constructor]|].
      rewrite concat_app. csimpl. rewrite app_nil_r. split; [done|]. unfold finish.
      change (lb_records (w_leaflet (writer_at buf encoded n (head (concat cs ++ buf)) (last (concat cs ++ buf)) completed))) with buf.
      assert (commit_pending_for_current_segment (writer_at buf encoded n (head (concat cs ++ buf)) (last (concat cs ++ buf)) completed)
        = writer_at buf encoded n (head (concat cs ++ buf)) (last (concat cs ++ buf)) completed) as -> by done.
      rewrite (flush_leaflet_at _ el) by done. destruct buf; [done|]. reflexivity. }
  destruct cs2 as [|c cs2].
  - apply Forall2_nil_inv_l in He2 as ->. exists completed, css. split; [done|]. split; [done|].
    rewrite <- Hcat. simpl. by rewrite app_nil_r.
  - assert (∃ f l, head (concat (c :: cs2)) = Some f ∧ last (concat (c :: cs2)) = Some l) as (f & l & Hhd & Hl).
    { apply Forall_cons in Hc2 as [[Hne _] _]. by apply chunks_ends. }
    rewrite Hhd, Hl. inversion He2 as [|? el ? encoded' E1 E2]; subst. rewrite flush_leaf_at by done.
    eexists _, (css ++ [c :: cs2]). split; [done|]. split.
    + apply Forall2_app; [done|]. constructor; [|done]. split; [done|]. by exists (el :: encoded'), f, l.
    + rewrite !concat_app. csimpl. rewrite !app_nil_r. csimpl in Hcat. by rewrite <- Hcat.
Qed.
End fresh.

Lemma encode_reads order c el v :
  chunk_view order (c, []) v → homogeneous order c → chunk_sorted order c → Forall v2_ok c → encode_leaflet c order = Some el → reads order el v.
Proof.
  intros Hv Hh Hs Hok He. destruct (encode_chunk_reads order (c, []) v Hv Hh Hs Hok (Forall_nil_2 _)) as (p & Hp & [Hr _]).
  unfold encode_chunk in Hp. cbn [fst snd] in Hp. rewrite He in Hp. cbn [mbind option_bind] in Hp. injection Hp as <-. done.
Qed.

Lemma partition_nil order (chunks : list (list RunRecordV2)) :
  partition_history_to_chunks chunks [] order = (λ _, []) <$> chunks.
Proof.
  unfold partition_history_to_chunks. generalize 0%nat. induction chunks as [|c chunks IH]; intros n; [done|].
  cbn [length seq]. rewrite !fmap_cons. by rewrite IH.
Qed.

Lemma zip_fmap_nil {A B} (l : list A) : zip l ((λ _, @nil B) <$> l) = (λ x, (x, [])) <$> l.
Proof. induction l as [|x l IH]; [done|]. by rewrite !fmap_cons, zip_cons, IH. Qed.

Lemma fresh_leaf_reads order leaf cs vs :
  fresh_from order leaf cs → Forall v2_ok (concat cs) → chunk_sorted order (concat cs) →
  Forall2 (λ c v, chunk_view order (c, []) v) cs vs → leaf_reads order leaf vs.
Proof.
  intros (Hc & encoded & f & l & -> & He & Hh & Hl) Hok Hs Hv. split; cbn [fresh_leaf lf_sidecar lf_entries lf_first_key lf_last_key].
  - rewrite Forall2_fmap_l. clear f l Hh Hl. revert vs Hv. induction He as [|c el cs encoded He _ IH]; intros vs Hv.
    { apply Forall2_nil_inv_l in Hv as ->. constructor. }
    apply Forall2_cons_inv_l in Hv as (v & vs' & Hv & Hvs & ->).
    unfold chunk_sorted in Hs. csimpl in Hok. csimpl in Hs. rewrite fmap_app in Hs. apply Forall_app in Hok as [Ho1 Ho2].
    apply Forall_cons in Hc as [[Hne Hh] Hc]. constructor; [|apply IH; [done|done|by eapply StronglySorted_app_1_r|done]].
    split; [eapply encode_reads; try done; by eapply StronglySorted_app_1_l|].
    destruct c as [|r c]; [done|]. cbn [chunk_view fst snd] in Hv. subst v. simpl.
    split; [done|]. split; [constructor|]. split; [lia|constructor].
  - destruct Hv as [|c v cs vs Hv _]; [done|]. csimpl in Hok. apply Forall_app in Hok as [Ho1 _]. apply Forall_cons in Hc as [[Hne _] _].
    destruct c as [|r c]; [done|]. cbn [chunk_view fst snd] in Hv. subst v. injection Hh as <-.
    apply Forall_cons in Ho1 as [Hr _]. eexists _, vs. split; [done|]. simpl. split; [by apply key_ok|apply ordered_key_rec].
  - assert (cs ≠ []) as Hne by (by intros ->). destruct (exists_last Hne) as (cs' & c & ->).
    apply Forall2_app_inv_l in Hv as (vs1 & vs2 & _ & Hv & ->).
    apply Forall2_cons_inv_l in Hv as (v & ? & Hv & ?%Forall2_nil_inv_l & ->). subst.
    rewrite concat_app in Hl, Hok. csimpl in Hl. csimpl in Hok. rewrite app_nil_r in Hl, Hok. exists v. rewrite last_snoc. split; [done|].
    apply Forall_app in Hc as [_ [[Hcne _] _]%Forall_cons]. apply Forall_app in Hok as [_ Hok]. destruct c as [|r c]; [done|].
    assert (l = List.last (r :: c) r) as ->.
    { destruct (exists_last Hcne) as (c' & x & Ec). rewrite Ec, app_assoc, last_snoc in Hl. injection Hl as <-.
      rewrite Ec. by rewrite last_last. }
    cbn [chunk_view fst snd] in Hv. subst v. cbn [vw_last foldl]. split; [|apply ordered_key_rec].
    apply key_ok, (proj1 (Forall_forall _ _) Hok), last_in.
Qed.

(** Operations that all assert, merged into nothing, are the rows. *)
Section first_window.
Context `{SO : Sorting}.

Lemma sort_one {A} (cmp : A → A → comparison) x : sort_unstable_by false cmp [x] = [x].
Proof. apply Permutation_singleton_r, sort_perm. Qed.

Lemma drain_asserts (nov : list (RunRecordV2 * Z)) :
  Forall (λ x, x.2 = 1) nov → drain_novelty nov [] = (nov.*1, [], [], []).
Proof.
  induction 1 as [|[r op] nov Hop _ IH]; [done|]. cbn [drain_novelty gather_identity_events gather_superseded].
  simpl in Hop. subst op. unfold merge_absent, push_transition_entries, resolve_transitions. simpl app. rewrite sort_one.
  simpl. by rewrite IH.
Qed.

Lemma asserts_log order (nov : list (RunRecordV2 * Z)) W :
  Forall (λ x, x.2 = 1) nov → streams_ok order nov [] W → leaflet_log order nov.*1 [] W.
Proof.
  intros Ha Hs.
  destruct (merge_novelty_log order empty_batch [] [] nov [] (λ _, []) W) as (out & Hout & Hl).
  - done.
  - split; [constructor|]. intros k. exists []. split; [apply fact_log_nil|]. split; [apply shows_nil|by intros e ?%not_elem_of_nil].
  - done.
  - intros k e w He. by apply not_elem_of_nil in He.
  - unfold merge_novelty in Hout. cbn [mi_batch mi_order mi_novelty mi_superseded mi_existing_history] in Hout.
    change (column_batch_to_records empty_batch) with (Some (@nil RunRecordV2)) in Hout. cbn [mbind option_bind merge_loop] in Hout.
    rewrite drain_asserts in Hout by done. injection Hout as <-. cbn [mo_records mo_history] in Hl.
    unfold assemble_history in Hl. rewrite app_nil_r in Hl.
    eapply leaflet_log_perm; [apply sort_perm|]. exact Hl.
Qed.

Lemma fresh_branch_log order (nov : list (RunRecordV2 * Z)) W leaflet_rows leaflets_per_leaf :
  Forall (λ x, x.2 = 1) nov → nov ≠ [] → Forall (λ x, v2_ok x.1) nov → streams_ok order nov [] W →
  ∃ leaves, build_fresh_default_graph_v3 nov order leaflet_rows leaflets_per_leaf = Some leaves
    ∧ branch_log order (length nov) leaves W.
Proof.
  intros Ha Hne Hok Hs. unfold build_fresh_default_graph_v3. cbv zeta.
  set (lt := Nat.max leaflet_rows 1). set (ft := (lt * Nat.max leaflets_per_leaf 1)%nat).
  assert (built order lt ft [] [] [] (LeafWriter_new order lt ft)) as Hnew.
  { exists [], 0%nat, []. split; [by destruct order|]. split; [done|]. split; [constructor|].
    split; [by intros a b Hin%not_elem_of_nil|]. split; [constructor|by left]. }
  destruct (pushes_built order lt ft nov.*1 _ _ _ _ Hnew) as (w & css & cs & buf & P1 & P2 & P3).
  rewrite P1. cbn [mbind option_bind]. destruct (finish_built order lt ft _ _ _ _ P2) as (leaves & css' & F1 & F2 & F3).
  rewrite F1. cbn [mbind option_bind]. rewrite P3 in F3. simpl in F3.
  exists (leaf_entry order <$> leaves). split; [done|].
  assert (Forall (chunk_ok order) (concat css')) as Hchunks.
  { clear -F2. induction F2 as [|leaf cs leaves css [H _] _ IH]; csimpl; [constructor|by apply Forall_app]. }
  assert (Forall v2_ok (concat (concat css'))) as Hok' by (rewrite F3; by rewrite Forall_fmap).
  destruct (asserts_log order nov W Ha Hs) as [Hsorted Hfacts].
  destruct (chunk_views order (concat css') [] None) as (v & vs & V1 & V2 & V3 & V4 & _ & _).
  { intros Hnil. rewrite Hnil in F3. simpl in F3. by destruct nov. }
  { eapply Forall_impl; [exact Hchunks|]. by intros c [? _]. }
  { by rewrite F3. }
  { apply Forall_forall. done. }
  { constructor. }
  rewrite partition_nil, zip_fmap_nil in V1. rewrite Forall2_fmap_l in V1.
  apply Forall2_concat_split in V1 as (vss & Hcat & V1).
  rewrite F3 in V3. apply Permutation_nil_r in V4.
  split; [intros Hnil; apply fmap_nil_inv in Hnil as ->; apply Forall2_nil_inv_l in F2 as ->; by destruct nov|].
  exists vss. rewrite Hcat. split; [|split; [|split; [|split]]].
  - rewrite Forall2_fmap_l. assert (chunk_sorted order (concat (concat css'))) as Hsort by (unfold chunk_sorted; by rewrite F3).
    clear -V1 F2 Hok' Hsort. revert vss V1.
    induction F2 as [|leaf cs leaves css Hf _ IH]; intros vss V1; [apply Forall2_nil_inv_l in V1 as ->; constructor|].
    apply Forall2_cons_inv_l in V1 as (vs & vss' & Hvs & V1 & ->). csimpl in Hok'. rewrite concat_app in Hok'.
    unfold chunk_sorted in Hsort. csimpl in Hsort. rewrite concat_app, fmap_app in Hsort.
    apply Forall_app in Hok' as [Ho1 Ho2]. constructor; [|apply IH; [done|by eapply StronglySorted_app_1_r|done]].
    apply leaf_entry_views. apply (fresh_leaf_reads order leaf cs); try done. by eapply StronglySorted_app_1_l.
  - apply views_ok; [rewrite V3, Forall_fmap|by rewrite V4].
    rewrite Forall_fmap. eapply Forall_impl; [exact Hok|]. intros x. apply without_graph_ok.
  - by apply chain_leftmost.
  - rewrite V3, V4. apply leaflet_log_graph. by split.
  - unfold view_size. rewrite V3, V4, !length_fmap. simpl. lia.
Qed.
End first_window.
