(* ===== verification/IndexScan.v ===== *)
(** * Scans
    ([fluree-db-binary-index/src/read/binary_cursor.rs], [column_types.rs],
    [types.rs], [fluree-db-binary-index/src/format/branch.rs])

    The cursor reads the leaflets of a branch in order, skips those whose keys
    or constants exclude the filter, filters the rest by binary search on the
    bound columns, and merges in the operations of the overlay, the novelty
    that is not indexed yet.  A scan is modelled as what its calls of
    [next_batch] return, one after the other, with every column decoded. *)

From S2P Require Import Prelude Vocab Ordering IndexFormat IndexDedup IndexMerge.
From S2P Require Import Accumulator IndexReplay IndexLeaf IndexUpdate IndexBranch.
#[local] Open Scope Z_scope.

(** ** Filters ([column_types.rs]) *)

Record BinaryFilter := {
  bf_s_id : option Z;
  bf_p_id : option Z;
  bf_o_type : option Z;
  bf_o_key : option Z;
  bf_o_i : option Z;
}.

Definition bf_is_empty (self : BinaryFilter) : bool :=
  match bf_s_id self, bf_p_id self, bf_o_type self, bf_o_key self, bf_o_i self with
  | None, None, None, None, None => true
  | _, _, _, _, _ => false
  end.

Definition field_matches (bound : option Z) (x : Z) : bool :=
  match bound with Some f => x =? f | None => true end.

Definition matches (self : BinaryFilter) (s_id p_id o_type o_key o_i : Z) : bool :=
  field_matches (bf_s_id self) s_id && field_matches (bf_p_id self) p_id
  && field_matches (bf_o_type self) o_type && field_matches (bf_o_key self) o_key
  && field_matches (bf_o_i self) o_i.

Definition skip_leaflet (self : BinaryFilter) (p_const o_type_const : option Z) : bool :=
  match bf_p_id self, p_const with Some filter_p, Some leaflet_p => negb (filter_p =? leaflet_p) | _, _ => false end
  || match bf_o_type self, o_type_const with
     | Some filter_ot, Some leaflet_ot => negb (filter_ot =? leaflet_ot)
     | _, _ => false
     end.

Inductive SortField := FieldS | FieldP | FieldOType | FieldOKey | FieldOI.

Definition sort_fields (order : RunSortOrder) : list SortField :=
  match order with
  | Spot => [FieldS; FieldP; FieldOType; FieldOKey; FieldOI]
  | Psot => [FieldP; FieldS; FieldOType; FieldOKey; FieldOI]
  | Post => [FieldP; FieldOType; FieldOKey; FieldOI; FieldS]
  | Opst => [FieldOType; FieldOKey; FieldOI; FieldP; FieldS]
  end.

Definition bound_value (self : BinaryFilter) (f : SortField) : option Z :=
  match f with
  | FieldS => bf_s_id self
  | FieldP => bf_p_id self
  | FieldOType => bf_o_type self
  | FieldOKey => bf_o_key self
  | FieldOI => bf_o_i self
  end.

Definition field_value (rec : RunRecordV2) (f : SortField) : Z :=
  match f with
  | FieldS => v2_s_id rec
  | FieldP => v2_p_id rec
  | FieldOType => v2_o_type rec
  | FieldOKey => v2_o_key rec
  | FieldOI => v2_o_i rec
  end.

Fixpoint fields_out_of_range (self : BinaryFilter) (first last : RunRecordV2) (fields : list SortField) : bool :=
  match fields with
  | [] => false
  | f :: fields =>
      let fv := field_value first f in
      let lv := field_value last f in
      match bound_value self f with
      | None => if negb (fv =? lv) then false else fields_out_of_range self first last fields
      | Some v =>
          if (v <? fv) || (lv <? v) then true
          else if negb (fv =? lv) then false
          else fields_out_of_range self first last fields
      end
  end.

Definition leaflet_out_of_range (self : BinaryFilter) (order : RunSortOrder) (first_key last_key : list Z) : bool :=
  let fields := sort_fields order in
  match fields with
  | f :: _ =>
      match bound_value self f with
      | None => false
      | Some _ =>
          fields_out_of_range self (read_ordered_key_v2 order first_key) (read_ordered_key_v2 order last_key) fields
      end
  | [] => false
  end.

(** ** Filtering a batch ([binary_cursor.rs]) *)

(** [Narrowed] goes on to the next column. *)
Inductive Cascade := Narrowed (range : nat * nat) | Stop (range : nat * nat).

Definition cascade_then (self : Cascade) (f : nat * nat → Cascade) : Cascade :=
  match self with Narrowed r => f r | Stop r => Stop r end.

Definition into_range (self : Cascade) : nat * nat :=
  match self with Narrowed r | Stop r => r end.

Definition cascade (range : nat * nat) (col : ColumnData) (bound : option Z) : Cascade :=
  match bound with
  | None => Stop range
  | Some v =>
      match col with
      | Block arr =>
          let '(lo, hi) := range in
          let window := take (hi - lo) (drop lo arr) in
          let start := partition_point (λ x, x <? v) window in
          let end_ := partition_point (λ x, x <=? v) window in
          Narrowed ((lo + start)%nat, (lo + end_)%nat)
      | Const c => if c =? v then Narrowed range else Narrowed (range.1, range.1)
      | AbsentDefault => Stop range
      end
  end.

Definition leading_bound_range (filter : BinaryFilter) (batch : ColumnBatch) (order : RunSortOrder) : nat * nat :=
  let full := (0%nat, row_count batch) in
  into_range
    match order with
    | Spot => cascade_then (cascade_then (cascade_then (cascade full (cb_s_id batch) (bf_s_id filter))
                (λ r, cascade r (cb_p_id batch) (bf_p_id filter)))
                (λ r, cascade r (cb_o_type batch) (bf_o_type filter)))
                (λ r, cascade r (cb_o_key batch) (bf_o_key filter))
    | Psot => cascade_then (cascade_then (cascade_then (cascade full (cb_p_id batch) (bf_p_id filter))
                (λ r, cascade r (cb_s_id batch) (bf_s_id filter)))
                (λ r, cascade r (cb_o_type batch) (bf_o_type filter)))
                (λ r, cascade r (cb_o_key batch) (bf_o_key filter))
    | Post => cascade_then (cascade_then (cascade full (cb_p_id batch) (bf_p_id filter))
                (λ r, cascade r (cb_o_type batch) (bf_o_type filter)))
                (λ r, cascade r (cb_o_key batch) (bf_o_key filter))
    | Opst => cascade_then (cascade full (cb_o_type batch) (bf_o_type filter))
                (λ r, cascade r (cb_o_key batch) (bf_o_key filter))
    end.

Definition gather_column (col : ColumnData) (indices : list nat) : option ColumnData :=
  match col with
  | Block arr => Block <$> mapM (λ i, arr !! i) indices
  | Const v => Some (Const v)
  | AbsentDefault => Some AbsentDefault
  end.

Definition gather_batch (src : ColumnBatch) (indices : list nat) : option ColumnBatch :=
  s_id ← gather_column (cb_s_id src) indices;
  o_key ← gather_column (cb_o_key src) indices;
  p_id ← gather_column (cb_p_id src) indices;
  o_type ← gather_column (cb_o_type src) indices;
  o_i ← gather_column (cb_o_i src) indices;
  t ← gather_column (cb_t src) indices;
  Some {| row_count := length indices; cb_s_id := s_id; cb_o_key := o_key; cb_p_id := p_id;
          cb_o_type := o_type; cb_o_i := o_i; cb_t := t |}.

(** Whether a row passes; [None] is the panic of a column with no such row. *)
Definition row_matches (filter : BinaryFilter) (batch : ColumnBatch) (i : nat) : option bool :=
  s_id ← column_get (cb_s_id batch) i;
  o_key ← column_get (cb_o_key batch) i;
  p_id ← column_get_or (cb_p_id batch) i 0;
  o_type ← column_get_or (cb_o_type batch) i 0;
  o_i ← column_get_or (cb_o_i batch) i LIST_INDEX_NONE;
  Some (matches filter s_id p_id o_type o_key o_i).

Definition filter_batch (filter : BinaryFilter) (batch : ColumnBatch) (order : RunSortOrder) : option ColumnBatch :=
  let '(start, end_) := leading_bound_range filter batch order in
  keep ← mapM (λ i, m ← row_matches filter batch i; Some (i, m)) (seq start (end_ - start));
  let matching := omap (λ im : nat * bool, if im.2 then Some im.1 else None) keep in
  if (length matching =? row_count batch)%nat then Some batch else gather_batch batch matching.

(** ** The overlay ([types.rs]) *)

Record OverlayOp := {
  ov_s_id : Z;
  ov_p_id : Z;
  ov_o_type : Z;
  ov_o_key : Z;
  ov_o_i : Z;
  ov_t : Z;
  ov_op : bool;
}.

Definition fact_key (self : OverlayOp) : FactKeyV3 :=
  {| fk_s_id := ov_s_id self; fk_p_id := ov_p_id self; fk_o_type := ov_o_type self;
     fk_o_key := ov_o_key self; fk_o_i := ov_o_i self |}.

(** [push_overlay_row]: the time is clamped to 32 bits. *)
Definition overlay_row (ov : OverlayOp) : RunRecordV2 :=
  {| v2_s_id := ov_s_id ov; v2_o_key := ov_o_key ov; v2_p_id := ov_p_id ov;
     v2_t := Z.min (Z.max (ov_t ov) 0) u32_max; v2_o_i := ov_o_i ov; v2_o_type := ov_o_type ov; v2_g_id := 0 |}.

Definition cmp_overlay_v3 (a b : OverlayOp) (order : RunSortOrder) : comparison :=
  let s_id := Z.compare (ov_s_id a) (ov_s_id b) in
  let p_id := Z.compare (ov_p_id a) (ov_p_id b) in
  let o_type := Z.compare (ov_o_type a) (ov_o_type b) in
  let o_key := Z.compare (ov_o_key a) (ov_o_key b) in
  let o_i := Z.compare (ov_o_i a) (ov_o_i b) in
  match order with
  | Spot => then_with s_id (then_with p_id (then_with o_type (then_with o_key o_i)))
  | Psot => then_with p_id (then_with s_id (then_with o_type (then_with o_key o_i)))
  | Post => then_with p_id (then_with o_type (then_with o_key (then_with o_i s_id)))
  | Opst => then_with o_type (then_with o_key (then_with o_i (then_with p_id s_id)))
  end.

Definition cmp_row_vs_overlay (row : RunRecordV2) (ov : OverlayOp) (order : RunSortOrder) : comparison :=
  let s_id := Z.compare (v2_s_id row) (ov_s_id ov) in
  let p_id := Z.compare (v2_p_id row) (ov_p_id ov) in
  let o_type := Z.compare (v2_o_type row) (ov_o_type ov) in
  let o_key := Z.compare (v2_o_key row) (ov_o_key ov) in
  let o_i := Z.compare (v2_o_i row) (ov_o_i ov) in
  match order with
  | Spot => then_with s_id (then_with p_id (then_with o_type (then_with o_key o_i)))
  | Psot => then_with p_id (then_with s_id (then_with o_type (then_with o_key o_i)))
  | Post => then_with p_id (then_with o_type (then_with o_key (then_with o_i s_id)))
  | Opst => then_with o_type (then_with o_key (then_with o_i (then_with p_id s_id)))
  end.

Definition cmp_overlay_vs_record (ov : OverlayOp) (rec : RunRecordV2) (order : RunSortOrder) : comparison :=
  let s_id := Z.compare (ov_s_id ov) (v2_s_id rec) in
  let p_id := Z.compare (ov_p_id ov) (v2_p_id rec) in
  let o_type := Z.compare (ov_o_type ov) (v2_o_type rec) in
  let o_key := Z.compare (ov_o_key ov) (v2_o_key rec) in
  let o_i := Z.compare (ov_o_i ov) (v2_o_i rec) in
  match order with
  | Spot => then_with s_id (then_with p_id (then_with o_type (then_with o_key o_i)))
  | Psot => then_with p_id (then_with s_id (then_with o_type (then_with o_key o_i)))
  | Post => then_with p_id (then_with o_type (then_with o_key (then_with o_i s_id)))
  | Opst => then_with o_type (then_with o_key (then_with o_i (then_with p_id s_id)))
  end.

(** The operation of a run of one fact that stays: the latest, a retraction
    before an assertion. *)
Fixpoint resolve_run (best : OverlayOp) (ops : list OverlayOp) : OverlayOp * list OverlayOp :=
  match ops with
  | [] => (best, [])
  | op :: rest =>
      if bool_decide (fact_key op = fact_key best)
      then
        let better := (ov_t best <? ov_t op) || ((ov_t op =? ov_t best) && negb (ov_op op) && ov_op best) in
        resolve_run (if better then op else best) rest
      else (best, ops)
  end.

(** Fuel is the number of operations. *)
Fixpoint resolve_runs (fuel : nat) (ops : list OverlayOp) : list OverlayOp :=
  match fuel, ops with
  | S fuel, op :: rest => let '(best, rest) := resolve_run op rest in best :: resolve_runs fuel rest
  | _, _ => []
  end.

Definition resolve_overlay_ops (ops : list OverlayOp) : list OverlayOp := resolve_runs (length ops) ops.

Definition overlay_window_for_range (ops : list OverlayOp) (min_key max_key : RunRecordV2) (order : RunSortOrder) :
    nat * nat :=
  let start := partition_point (λ ov, match cmp_overlay_vs_record ov min_key order with Lt => true | _ => false end) ops in
  let end_ := partition_point (λ ov, is_le (cmp_overlay_vs_record ov max_key order)) ops in
  (start, Nat.max end_ start).

Definition compute_overlay_window (ops : list OverlayOp) (leaf_first_key : RunRecordV2)
    (next_leaf_first_key : option RunRecordV2) (order : RunSortOrder) (is_first_leaf : bool) : nat * nat :=
  match ops with
  | [] => (0, 0)%nat
  | _ =>
      let before key := λ ov, match cmp_overlay_vs_record ov key order with Lt => true | _ => false end in
      (if is_first_leaf then 0%nat else partition_point (before leaf_first_key) ops,
       match next_leaf_first_key with
       | Some next_key => partition_point (before next_key) ops
       | None => length ops
       end)
  end.

Section overlay_sort.
Context `{SO : Sorting}.

Definition sort_overlay_ops (ops : list OverlayOp) (order : RunSortOrder) : list OverlayOp :=
  sort_unstable_by false (λ a b, cmp_overlay_v3 a b order) ops.
End overlay_sort.

(** ** The cursor ([binary_cursor.rs])

    What does not change in a scan: [max_t] is that of the store, [range] the
    bounds of a range cursor. *)
Record BinaryCursor := {
  bc_order : RunSortOrder;
  bc_max_t : Z;
  bc_filter : BinaryFilter;
  bc_to_t : Z;
  bc_range : option (RunRecordV2 * RunRecordV2);
}.

Definition need_replay (self : BinaryCursor) : bool := bc_to_t self <? bc_max_t self.

Definition filter_overlay (self : BinaryCursor) (ov : OverlayOp) : bool :=
  matches (bc_filter self) (ov_s_id ov) (ov_p_id ov) (ov_o_type ov) (ov_o_key ov) (ov_o_i ov).

(** The row an operation emits, if it does. *)
Definition emit (self : BinaryCursor) (ov : OverlayOp) : list RunRecordV2 :=
  if ov_op ov && (ov_t ov <=? bc_to_t self) && filter_overlay self ov then [overlay_row ov] else [].

(** Rows exhausted: the operations up to the leaflet's last key. *)
Fixpoint drain_overlay (self : BinaryCursor) (leaflet_last_key : RunRecordV2) (ops : list OverlayOp) :
    list RunRecordV2 * nat :=
  match ops with
  | [] => ([], 0%nat)
  | ov :: ops =>
      match cmp_overlay_vs_record ov leaflet_last_key (bc_order self) with
      | Gt => ([], 0%nat)
      | _ => let '(out, n) := drain_overlay self leaflet_last_key ops in (emit self ov ++ out, S n)
      end
  end.

(** The merge of rows with the operations of the leaf, and how many it
    consumed. *)
Fixpoint merge_overlay (self : BinaryCursor) (leaflet_last_key : RunRecordV2) (rows : list RunRecordV2) :
    list OverlayOp → list RunRecordV2 * nat :=
  match rows with
  | [] => drain_overlay self leaflet_last_key
  | row :: rows' =>
      fix merge_row ops :=
        match ops with
        | [] => (row :: rows', 0%nat)
        | ov :: ops' =>
            match cmp_row_vs_overlay row ov (bc_order self) with
            | Lt => let '(out, n) := merge_overlay self leaflet_last_key rows' ops in (row :: out, n)
            | Gt => let '(out, n) := merge_row ops' in (emit self ov ++ out, S n)
            | Eq =>
                if (v2_s_id row =? ov_s_id ov) && (v2_p_id row =? ov_p_id ov) && (v2_o_type row =? ov_o_type ov)
                   && (v2_o_key row =? ov_o_key ov) && (v2_o_i row =? ov_o_i ov)
                then let '(out, n) := merge_overlay self leaflet_last_key rows' ops' in (emit self ov ++ out, S n)
                else let '(out, n) := merge_overlay self leaflet_last_key rows' ops in (row :: out, n)
            end
        end
  end.

Definition emit_overlay_only (self : BinaryCursor) (ops : list OverlayOp) : list RunRecordV2 :=
  concat (emit self <$> ops).

(** The operations left to the cursor, and how many of them are the leaf's. *)
Definition OverlayState : Type := list OverlayOp * nat.

Definition slice_overlay_for_leaf (self : BinaryCursor) (st : OverlayState) (leaf : LeafEntry)
    (next : option LeafEntry) (is_first : bool) : OverlayState :=
  let '(ops, _) := st in
  let '(start, end_) := compute_overlay_window ops (le_first_key leaf) (le_first_key <$> next) (bc_order self) is_first in
  (drop start ops, (end_ - start)%nat).

Section cursor.
Context `{SO : Sorting} `{HD : HashDrain}.

(** The rows of a leaflet before the filter. *)
Definition load_leaflet (self : BinaryCursor) (sidecar : option (list Z)) (entry : LeafletDirEntryV3) : option ColumnBatch :=
  batch ← leaflet_batch entry;
  if need_replay self then
    let to_t_u32 := to_u32 (bc_to_t self) in
    let needs_leaflet_replay :=
      (to_t_u32 <? sr_max_t (de_history entry)) || batch_has_rows_above_t batch to_t_u32 in
    if needs_leaflet_replay && (0 <? sr_len (de_history entry)) then
      sc_bytes ← sidecar;
      history ← decode_history_segment sc_bytes (de_history entry);
      match history with
      | [] => Some batch
      | _ => replayed ← replay_leaflet batch history (bc_to_t self) (bc_order self); Some (default batch replayed)
      end
    else if needs_leaflet_replay then
      replayed ← replay_leaflet batch [] (bc_to_t self) (bc_order self); Some (default batch replayed)
    else Some batch
  else Some batch.

(** What a leaflet gives: the end of the leaf, or rows and the overlay
    state. *)
Definition scan_leaflet (self : BinaryCursor) (sidecar : option (list Z)) (st : OverlayState)
    (entry : LeafletDirEntryV3) : option (option (list RunRecordV2 * OverlayState)) :=
  let '(ops, n) := st in
  let leaflet := de_leaflet entry in
  let order := bc_order self in
  let last_key := read_ordered_key_v2 order (el_last_key leaflet) in
  let has_ov :=
    match take n ops with
    | [] => false
    | ov :: _ => is_le (cmp_overlay_vs_record ov last_key order)
    end in
  let past_range :=
    match bc_range self with
    | Some (_, max_key) =>
        negb (is_le (cmp_v2_for_order order (read_ordered_key_v2 order (el_first_key leaflet)) max_key))
    | None => false
    end in
  if negb has_ov && negb (need_replay self) && past_range then Some None
  else
    let needs_history_replay :=
      need_replay self && (0 <? sr_len (de_history entry)) && (to_u32 (bc_to_t self) <? sr_max_t (de_history entry)) in
    if negb has_ov && skip_leaflet (bc_filter self) (el_p_const leaflet) (el_o_type_const leaflet)
    then Some (Some ([], st))
    else if (el_row_count leaflet =? 0)%nat && negb has_ov && negb needs_history_replay then Some (Some ([], st))
    else if negb has_ov && negb needs_history_replay
            && leaflet_out_of_range (bc_filter self) order (el_first_key leaflet) (el_last_key leaflet)
    then Some (Some ([], st))
    else
      batch ← load_leaflet self sidecar entry;
      batch ← (if bf_is_empty (bc_filter self) || (row_count batch =? 0)%nat then Some batch
               else filter_batch (bc_filter self) batch order);
      rows ← column_batch_to_records batch;
      if has_ov then
        let '(out, consumed) := merge_overlay self last_key rows (take n ops) in
        Some (Some (out, (drop consumed ops, (n - consumed)%nat)))
      else Some (Some (rows, st)).

Fixpoint scan_leaflets (self : BinaryCursor) (sidecar : option (list Z)) (st : OverlayState)
    (entries : list LeafletDirEntryV3) : option (list RunRecordV2 * OverlayState) :=
  match entries with
  | [] => Some ([], st)
  | entry :: entries =>
      x ← scan_leaflet self sidecar st entry;
      match x with
      | None => Some ([], st)
      | Some (rows, st) =>
          rest ← scan_leaflets self sidecar st entries;
          Some (rows ++ rest.1, rest.2)
      end
  end.

(** The leaflets from the first one not before the range. *)
Definition range_seek (self : BinaryCursor) (entries : list LeafletDirEntryV3) : list LeafletDirEntryV3 :=
  match bc_range self with
  | Some (min_key, _) =>
      if need_replay self then entries
      else drop (partition_point (λ e,
             match cmp_v2_for_order (bc_order self) (read_ordered_key_v2 (bc_order self) (el_last_key (de_leaflet e))) min_key with
             | Lt => true | _ => false end) entries) entries
  | None => entries
  end.

(** The leaves of the range; [after] are those of the branch that follow
    it. *)
Fixpoint scan_leaves (self : BinaryCursor) (is_first : bool) (st : OverlayState) (leaves after : list LeafEntry) :
    option (list RunRecordV2) :=
  match leaves with
  | [] => Some (emit_overlay_only self st.1)
  | leaf :: leaves =>
      let st :=
        match st.1 with
        | [] => ([], 0%nat)
        | _ => slice_overlay_for_leaf self st leaf (head (leaves ++ after)) is_first
        end in
      x ← scan_leaflets self (lf_sidecar (le_leaf leaf)) st (range_seek self (lf_entries (le_leaf leaf)));
      rest ← scan_leaves self false x.2 leaves after;
      Some (x.1 ++ rest)
  end.

Definition find_leaves_in_range (leaves : list LeafEntry) (min_key max_key : RunRecordV2) (order : RunSortOrder) :
    nat * nat :=
  match leaves with
  | [] => (0, 0)%nat
  | _ =>
      (partition_point (λ e, match cmp_v2_for_order order (le_last_key e) min_key with Lt => true | _ => false end) leaves,
       partition_point (λ e, is_le (cmp_v2_for_order order (le_first_key e) max_key)) leaves)
  end.

(** A cursor over all of a branch, or over the leaves of its range. *)
Definition scan (self : BinaryCursor) (branch : list LeafEntry) (ops : list OverlayOp) : option (list RunRecordV2) :=
  match bc_range self with
  | None => scan_leaves self true (ops, length ops) branch []
  | Some (min_key, max_key) =>
      let '(start, end_) := find_leaves_in_range branch min_key max_key (bc_order self) in
      scan_leaves self true (ops, length ops) (take (end_ - start) (drop start branch)) (drop (Nat.max start end_) branch)
  end.
End cursor.

(** ** The key columns, one after the other *)

Definition passes (f : BinaryFilter) (r : RunRecordV2) : bool :=
  matches f (v2_s_id r) (v2_p_id r) (v2_o_type r) (v2_o_key r) (v2_o_i r).

Lemma passes_bound f r fd v : passes f r = true → bound_value f fd = Some v → field_value r fd = v.
Proof.
  unfold passes, matches. rewrite !andb_true_iff. intros ((((H1 & H2) & H3) & H4) & H5) Hb.
  destruct fd; simpl in *; rewrite Hb in *; simpl in *; by apply Z.eqb_eq.
Qed.

Fixpoint lex (fields : list SortField) (a b : RunRecordV2) : comparison :=
  match fields with
  | [] => Eq
  | f :: fields => then_with (Z.compare (field_value a f) (field_value b f)) (lex fields a b)
  end.

Lemma then_with_Eq_r c : then_with c Eq = c.
Proof. by destruct c. Qed.

Lemma cmp_lex order a b : cmp_v2_for_order order a b = lex (sort_fields order) a b.
Proof. destruct order; simpl; by rewrite then_with_Eq_r. Qed.

(** A record between two others is between them in each column whose
    predecessors are constant. *)
Lemma lex_step f fields a b :
  is_le (lex (f :: fields) a b) = true →
  field_value a f <= field_value b f ∧ (field_value a f = field_value b f → is_le (lex fields a b) = true).
Proof.
  simpl. destruct (Z.compare_spec (field_value a f) (field_value b f)); simpl; intros H1; (split; [lia|]); [done|lia|done].
Qed.

Lemma fields_out_sound flt first last fields r :
  is_le (lex fields first r) = true → is_le (lex fields r last) = true →
  fields_out_of_range flt first last fields = true → passes flt r = false.
Proof.
  induction fields as [|f fields IH]; [done|]. intros [H1 H1']%lex_step [H2 H2']%lex_step. cbn [fields_out_of_range].
  destruct (bound_value flt f) as [v|] eqn:Hb.
  - destruct (passes flt r) eqn:Hp; [|done]. pose proof (passes_bound flt r f v Hp Hb) as Hv.
    destruct (Z.ltb_spec v (field_value first f)); [lia|]. destruct (Z.ltb_spec (field_value last f) v); [lia|]. simpl.
    destruct (Z.eqb_spec (field_value first f) (field_value last f)); [|done]. simpl. intros Ho.
    apply IH; [apply H1'; lia|apply H2'; lia|done].
  - destruct (Z.eqb_spec (field_value first f) (field_value last f)); [|done]. simpl. apply IH; [apply H1'; lia|apply H2'; lia].
Qed.

Lemma not_lt_le order a b : ¬ key_lt order (rec_key b) (rec_key a) → is_le (cmp_v2_for_order order a b) = true.
Proof.
  intros H. rewrite cmp_v2_key. destruct (key_cmp order (rec_key a) (rec_key b)) eqn:E; [done|done|].
  exfalso. by apply H, key_cmp_gt.
Qed.

(** A leaflet that is skipped has no row that passes. *)
Lemma out_of_range_sound order flt el v :
  reads order el v → leaflet_out_of_range flt order (el_first_key el) (el_last_key el) = true →
  Forall (λ r, passes flt r = false) (vw_rows v).
Proof.
  intros [R1 R2 R3 R4 R5 _] Ho. eapply Forall_impl; [exact R5|]. intros r (I1 & I2 & _ & _).
  unfold leaflet_out_of_range in Ho.
  assert (fields_out_of_range flt (read_ordered_key_v2 order (el_first_key el)) (read_ordered_key_v2 order (el_last_key el))
            (sort_fields order) = true) as Hf.
  { destruct (sort_fields order) as [|f fs]; [done|]. by destruct (bound_value flt f). }
  rewrite R1, R2, <- (app_nil_r (write_ordered_key_v2 _ (key_rec (vw_first v)))),
    <- (app_nil_r (write_ordered_key_v2 _ (key_rec (vw_last v)))), !read_write_key, !rec_key_rec in Hf by done.
  eapply fields_out_sound; [| |exact Hf]; rewrite <- cmp_lex; apply not_lt_le; by rewrite rec_key_rec.
Qed.

Lemma skip_sound order flt el v :
  reads order el v → skip_leaflet flt (el_p_const el) (el_o_type_const el) = true →
  Forall (λ r, passes flt r = false) (vw_rows v).
Proof.
  intros [_ _ _ _ R5 _] Hs. eapply Forall_impl; [exact R5|]. intros r (_ & _ & C1 & C2).
  destruct (passes flt r) eqn:Hp; [|done]. unfold skip_leaflet in Hs. apply orb_true_iff in Hs as [Hs|Hs].
  - destruct (bf_p_id flt) as [p|] eqn:Eb; [|done]. destruct (el_p_const el) as [p'|]; [|done].
    pose proof (passes_bound flt r FieldP p Hp Eb) as Hv. simpl in Hv. rewrite (C1 p' eq_refl) in Hv.
    subst. by rewrite Z.eqb_refl in Hs.
  - destruct (bf_o_type flt) as [p|] eqn:Eb; [|done]. destruct (el_o_type_const el) as [p'|]; [|done].
    pose proof (passes_bound flt r FieldOType p Hp Eb) as Hv. simpl in Hv. rewrite (C2 p' eq_refl) in Hv.
    subst. by rewrite Z.eqb_refl in Hs.
Qed.

(** ** Filtering by binary search *)

Lemma three_parts {A} (g : A → Z) (l : list A) v :
  StronglySorted (λ a b, g a <= g b) l →
  ∃ s1 s2 s3, l = s1 ++ s2 ++ s3 ∧ Forall (λ a, g a < v) s1 ∧ Forall (λ a, g a = v) s2 ∧ Forall (λ a, v < g a) s3.
Proof.
  induction l as [|x l IH]; intros Hs; [by exists [], [], []|]. apply StronglySorted_inv in Hs as [Hs Hx].
  destruct (IH Hs) as (s1 & s2 & s3 & -> & H1 & H2 & H3). destruct (Z.lt_trichotomy (g x) v) as [Hlt|[Heq|Hgt]].
  - exists (x :: s1), s2, s3. split; [done|]. split; [by constructor|done].
  - exists [], (x :: s2), s3. destruct s1 as [|y s1]; [split; [done|]; split; [done|]; split; [by constructor|done]|].
    apply Forall_cons in Hx as [Hx _]. apply Forall_cons in H1 as [H1 _]. lia.
  - exists [], [], (x :: s1 ++ s2 ++ s3). split; [done|]. split; [done|]. split; [done|]. constructor; [done|].
    eapply Forall_impl; [exact Hx|]. simpl. lia.
Qed.

Section filter_batch_facts.
Context (order : RunSortOrder) (flt : BinaryFilter) (rows : list RunRecordV2).
Hypothesis Hsorted : StronglySorted (key_lt order) (rec_key <$> rows).

Definition column_is (col : ColumnData) (f : SortField) : Prop :=
  ∀ i r, rows !! i = Some r → column_get col i = Some (field_value r f).

(** The rows of the range are those with the bound values in the columns
    [P]. *)
Definition range_inv (range : nat * nat) (P : list SortField) : Prop :=
  (range.1 <= range.2 <= length rows)%nat
  ∧ ∀ i r, rows !! i = Some r →
      (range.1 <= i < range.2)%nat ↔ Forall (λ f, bound_value flt f = Some (field_value r f)) P.

Lemma lex_prefix P f S a b :
  is_le (lex (P ++ f :: S) a b) = true → Forall (λ g, field_value a g = field_value b g) P →
  field_value a f <= field_value b f.
Proof.
  induction P as [|g P IH]; cbn [app]; intros H HP; [by apply lex_step in H as [? _]|].
  apply Forall_cons in HP as [Hg HP]. apply lex_step in H as [_ H]. by apply IH; [apply H|].
Qed.

Definition segment (range : nat * nat) : list RunRecordV2 := take (range.2 - range.1) (drop range.1 rows).

Lemma segment_lookup lo hi j : (lo <= hi <= length rows)%nat → (j < hi - lo)%nat → segment (lo, hi) !! j = rows !! (lo + j)%nat.
Proof. intros H1 H2. unfold segment; simpl. rewrite lookup_take_lt by done. apply lookup_drop. Qed.

Lemma rows_le i j a b : rows !! i = Some a → rows !! j = Some b → (i < j)%nat → is_le (cmp_v2_for_order order a b) = true.
Proof.
  intros Ha Hb Hij. rewrite cmp_v2_key. assert (key_lt order (rec_key a) (rec_key b)) as ->; [|done].
  assert (rows = take (S i) rows ++ drop (S i) rows) as Hr by (by rewrite take_drop). rewrite Hr, fmap_app in Hsorted.
  eapply (StronglySorted_app_1_elem_of _ (rec_key <$> take (S i) rows)); [exact Hsorted|..]; apply list_elem_of_fmap.
  - exists a. split; [done|]. apply (list_elem_of_lookup_2 _ i). rewrite lookup_take_lt; [done|lia].
  - exists b. split; [done|]. apply (list_elem_of_lookup_2 _ (j - S i)). rewrite lookup_drop. by replace (S i + (j - S i))%nat with j by lia.
Qed.

(** Within a range, the next column is in order. *)
Lemma segment_sorted lo hi P f S :
  sort_fields order = P ++ f :: S → range_inv (lo, hi) P →
  StronglySorted (λ a b, field_value a f <= field_value b f) (segment (lo, hi)).
Proof.
  intros Hf [Hb Hr]. simpl in Hb.
  assert (∀ i j a b, (i < j)%nat → segment (lo, hi) !! i = Some a → segment (lo, hi) !! j = Some b →
    field_value a f <= field_value b f) as Hseg.
  { intros i j a b Hij Ha Hbb.
    assert (j < hi - lo)%nat as Hj.
    { apply lookup_lt_Some in Hbb. unfold segment in Hbb; simpl in Hbb. rewrite length_take in Hbb. lia. }
    rewrite segment_lookup in Ha by lia. rewrite segment_lookup in Hbb by lia.
    assert (is_le (lex (P ++ f :: S) a b) = true) as Hle by (rewrite <- Hf, <- cmp_lex; eapply rows_le; [exact Ha|exact Hbb|lia]).
    eapply lex_prefix; [exact Hle|]. apply Forall_forall. intros g Hg.
    destruct (Hr _ _ Ha) as [Ha' _], (Hr _ _ Hbb) as [Hb' _].
    pose proof (proj1 (Forall_forall _ _) (Ha' ltac:(simpl; lia)) g Hg) as E1.
    pose proof (proj1 (Forall_forall _ _) (Hb' ltac:(simpl; lia)) g Hg) as E2. simpl in *. congruence. }
  revert Hseg. generalize (segment (lo, hi)). clear. intros l. induction l as [|x l IH]; intros H; [constructor|].
  constructor.
  - apply IH. intros i j a b Hij Ha Hb. by apply (H (Datatypes.S i) (Datatypes.S j)); [lia|..].
  - apply Forall_forall. intros y (j & Hj)%list_elem_of_lookup_1. by apply (H 0%nat (Datatypes.S j)); [lia|..].
Qed.

Lemma cascade_inv lo hi P f S col :
  sort_fields order = P ++ f :: S → range_inv (lo, hi) P → column_is col f →
  match cascade (lo, hi) col (bound_value flt f) with
  | Narrowed r => range_inv r (P ++ [f])
  | Stop r => r = (lo, hi)
  end.
Proof.
  intros Hf Hinv Hcol. pose proof (segment_sorted lo hi P f S Hf Hinv) as Hs. destruct Hinv as [Hb Hr]. simpl in Hb.
  unfold cascade. destruct (bound_value flt f) as [v|] eqn:Ebound; [|done]. destruct col as [arr|c|]; [| |done].
  - assert (take (hi - lo) (drop lo arr) = (λ r, field_value r f) <$> segment (lo, hi)) as ->.
    { apply list_eq. intros j. rewrite list_lookup_fmap. destruct (decide (j < hi - lo)%nat) as [Hj|Hj].
      - rewrite segment_lookup by lia. rewrite lookup_take_lt, lookup_drop by lia.
        destruct (rows !! (lo + j)%nat) as [r|] eqn:Er; [by apply (Hcol _ _ Er)|]. apply lookup_ge_None in Er. lia.
      - rewrite !lookup_ge_None_2; [done| |]; [unfold segment; simpl; rewrite length_take; lia|rewrite length_take; lia]. }
    destruct (three_parts (λ r, field_value r f) (segment (lo, hi)) v Hs) as (s1 & s2 & s3 & Hseg & H1 & H2 & H3).
    assert (length (segment (lo, hi)) = hi - lo)%nat as Hlen.
    { unfold segment; simpl. rewrite length_take, length_drop. lia. }
    rewrite Hseg, !length_app in Hlen. cbv zeta.
    rewrite (partition_point_spec _ _ ((λ r, field_value r f) <$> s1) ((λ r, field_value r f) <$> s2 ++ s3)); [..|].
    2:{ by rewrite Hseg, !fmap_app. }
    2:{ rewrite Forall_fmap. eapply Forall_impl; [exact H1|]. simpl. lia. }
    2:{ rewrite Forall_fmap. apply Forall_app. split; [eapply Forall_impl; [exact H2|]|eapply Forall_impl; [exact H3|]]; simpl; lia. }
    rewrite (partition_point_spec _ _ ((λ r, field_value r f) <$> s1 ++ s2) ((λ r, field_value r f) <$> s3)); [..|].
    2:{ by rewrite Hseg, !fmap_app, app_assoc. }
    2:{ rewrite Forall_fmap. apply Forall_app. split; [eapply Forall_impl; [exact H1|]|eapply Forall_impl; [exact H2|]]; simpl; lia. }
    2:{ rewrite Forall_fmap. eapply Forall_impl; [exact H3|]. simpl. lia. }
    rewrite !length_fmap, !length_app. split; simpl; [lia|]. intros i r Hi. rewrite Forall_app, Forall_singleton, Ebound.
    rewrite <- (Hr i r Hi). simpl. split.
    + intros Hrange. split; [lia|]. f_equal. assert (segment (lo, hi) !! (i - lo)%nat = Some r) as Hsi.
      { rewrite segment_lookup by lia. by replace (lo + (i - lo))%nat with i by lia. }
      rewrite Hseg, lookup_app_r, lookup_app_l in Hsi by lia. by apply (Forall_lookup_1 _ _ _ _ H2) in Hsi.
    + intros [Hrange [= Hv]]. assert (segment (lo, hi) !! (i - lo)%nat = Some r) as Hsi.
      { rewrite segment_lookup by lia. by replace (lo + (i - lo))%nat with i by lia. }
      rewrite Hseg in Hsi. apply lookup_app_Some in Hsi as [Hsi|[Hge Hsi]].
      { apply (Forall_lookup_1 _ _ _ _ H1) in Hsi. simpl in Hsi. lia. }
      apply lookup_app_Some in Hsi as [Hsi|[Hge' Hsi]]; [apply lookup_lt_Some in Hsi; lia|].
      apply (Forall_lookup_1 _ _ _ _ H3) in Hsi. simpl in Hsi. lia.
  - assert (∀ i r, rows !! i = Some r → field_value r f = c) as Hc by (intros i r Hi; apply Hcol in Hi; simpl in Hi; congruence).
    destruct (Z.eqb_spec c v) as [->|Hne].
    + split; [done|]. intros i r Hi. rewrite (Hr i r Hi), Forall_app, Forall_singleton, Ebound, (Hc i r Hi). tauto.
    + split; simpl; [lia|]. intros i r Hi. rewrite Forall_app, Forall_singleton, Ebound, (Hc i r Hi). split; [lia|].
      intros [_ [= ?]]. congruence.
Qed.

(** Every row that passes is in the range. *)
Definition covers (range : nat * nat) : Prop :=
  (range.1 <= range.2 <= length rows)%nat
  ∧ ∀ i r, rows !! i = Some r → passes flt r = true → (range.1 <= i < range.2)%nat.

Definition good (c : Cascade) (P : list SortField) : Prop :=
  match c with
  | Narrowed r => range_inv r P ∧ Forall (λ f, is_Some (bound_value flt f)) P
  | Stop r => covers r
  end.

Lemma range_covers r P : range_inv r P → Forall (λ f, is_Some (bound_value flt f)) P → covers r.
Proof.
  intros [Hb Hr] Hs. split; [done|]. intros i rec Hi Hp. apply (Hr i rec Hi). eapply Forall_impl; [exact Hs|].
  intros f [v Hv]. rewrite Hv. f_equal. symmetry. by eapply passes_bound.
Qed.

Lemma good_covers c P : good c P → covers (into_range c).
Proof. destruct c; simpl; [|done]. intros [? ?]. by eapply range_covers. Qed.

Lemma good_step c P f S col :
  sort_fields order = P ++ f :: S → column_is col f → good c P →
  good (cascade_then c (λ r, cascade r col (bound_value flt f))) (P ++ [f]).
Proof.
  intros Hf Hcol. destruct c as [[lo hi]|r]; [|done]. intros [Hinv Hs].
  pose proof (cascade_inv lo hi P f S col Hf Hinv Hcol) as Hc. cbn [cascade_then].
  destruct (cascade (lo, hi) col (bound_value flt f)) as [r|r] eqn:E.
  - split; [done|]. apply Forall_app. split; [done|]. apply Forall_singleton. unfold cascade in E.
    by destruct (bound_value flt f).
  - subst r. by eapply range_covers.
Qed.

Context (batch : ColumnBatch).
Hypothesis Hrows : column_batch_to_records batch = Some rows.

Lemma batch_length : row_count batch = length rows.
Proof. apply length_mapM in Hrows. by rewrite length_seq in Hrows. Qed.

Lemma batch_row i r : rows !! i = Some r → batch_row_to_record batch i = Some r.
Proof.
  intros Hi. pose proof (mapM_Some_1 _ _ _ Hrows) as H. destruct (Forall2_lookup_r _ _ _ _ _ H Hi) as (j & Hj & Hr).
  by apply lookup_seq in Hj as [-> _].
Qed.

(** The columns of a row. *)
Lemma batch_columns i r :
  rows !! i = Some r →
  column_get (cb_s_id batch) i = Some (v2_s_id r) ∧ column_get (cb_o_key batch) i = Some (v2_o_key r)
  ∧ column_get (cb_p_id batch) i = Some (v2_p_id r) ∧ column_get_or (cb_t batch) i 0 = Some (v2_t r)
  ∧ column_get_or (cb_o_i batch) i LIST_INDEX_NONE = Some (v2_o_i r) ∧ column_get (cb_o_type batch) i = Some (v2_o_type r).
Proof.
  intros Hi%batch_row. unfold batch_row_to_record in Hi. repeat (apply bind_Some in Hi as (? & ? & Hi)). by injection Hi as <-.
Qed.

Lemma leading_covers : covers (leading_bound_range flt batch order).
Proof.
  assert (good (Narrowed (0%nat, row_count batch)) []) as H0.
  { split; [|done]. rewrite batch_length. split; simpl; [lia|]. intros i r Hi%lookup_lt_Some. split; [done|lia]. }
  assert (column_is (cb_s_id batch) FieldS) as Cs by (intros i r Hi%batch_columns; apply Hi).
  assert (column_is (cb_p_id batch) FieldP) as Cp by (intros i r Hi%batch_columns; apply Hi).
  assert (column_is (cb_o_type batch) FieldOType) as Ct by (intros i r Hi%batch_columns; apply Hi).
  assert (column_is (cb_o_key batch) FieldOKey) as Ck by (intros i r Hi%batch_columns; apply Hi).
  unfold leading_bound_range. cbv zeta. case_eq order; intros Ho.
  - eapply good_covers, (good_step _ [FieldS; FieldP; FieldOType] FieldOKey), (good_step _ [FieldS; FieldP] FieldOType),
      (good_step _ [FieldS] FieldP), (good_step (Narrowed (0%nat, row_count batch)) [] FieldS); try done; by rewrite Ho.
  - eapply good_covers, (good_step _ [FieldP; FieldS; FieldOType] FieldOKey), (good_step _ [FieldP; FieldS] FieldOType),
      (good_step _ [FieldP] FieldS), (good_step (Narrowed (0%nat, row_count batch)) [] FieldP); try done; by rewrite Ho.
  - eapply good_covers, (good_step _ [FieldP; FieldOType] FieldOKey), (good_step _ [FieldP] FieldOType),
      (good_step (Narrowed (0%nat, row_count batch)) [] FieldP); try done; by rewrite Ho.
  - eapply good_covers, (good_step _ [FieldOType] FieldOKey), (good_step (Narrowed (0%nat, row_count batch)) [] FieldOType); try done; by rewrite Ho.
Qed.

Lemma gather_reads idx out col :
  mapM (λ i, rows !! i) idx = Some out → (∀ i r, rows !! i = Some r → is_Some (column_get_or col i 0)) →
  ∃ col', gather_column col idx = Some col'
    ∧ ∀ j i, idx !! j = Some i → column_get col' j = column_get col i ∧ ∀ d, column_get_or col' j d = column_get_or col i d.
Proof.
  intros Hidx Hcol. destruct col as [arr|c|]; cbn [gather_column]; [|by eexists..].
  destruct (mapM_is_Some_2 (λ i, arr !! i) idx) as [arr' Harr].
  - assert (is_Some (mapM (λ i, rows !! i) idx)) as Hs by by eexists. apply mapM_is_Some_1 in Hs.
    eapply Forall_impl; [exact Hs|]. intros i [r Hr]. by eapply Hcol.
  - rewrite Harr. eexists. split; [done|]. intros j i Hj. assert (arr' !! j = arr !! i) as H; [|by simpl; rewrite H].
    apply mapM_Some_1 in Harr. destruct (Forall2_lookup_l _ _ _ _ _ Harr Hj) as (y & -> & Hy). by rewrite <- Hy.
Qed.

Lemma gather_batch_reads idx out :
  mapM (λ i, rows !! i) idx = Some out →
  ∃ b, gather_batch batch idx = Some b ∧ column_batch_to_records b = Some out.
Proof.
  intros Hidx. pose proof (λ col, gather_reads idx out col Hidx) as Hg. unfold gather_batch.
  destruct (Hg (cb_s_id batch)) as (c1 & -> & R1).
  { intros i r (H & _)%batch_columns. by destruct (cb_s_id batch); [eexists|eexists|]. }
  destruct (Hg (cb_o_key batch)) as (c2 & -> & R2).
  { intros i r (_ & H & _)%batch_columns. by destruct (cb_o_key batch); [eexists|eexists|]. }
  destruct (Hg (cb_p_id batch)) as (c3 & -> & R3).
  { intros i r (_ & _ & H & _)%batch_columns. by destruct (cb_p_id batch); [eexists|eexists|]. }
  destruct (Hg (cb_o_type batch)) as (c4 & -> & R4).
  { intros i r (_ & _ & _ & _ & _ & H)%batch_columns. by destruct (cb_o_type batch); [eexists|eexists|]. }
  destruct (Hg (cb_o_i batch)) as (c5 & -> & R5).
  { intros i r (_ & _ & _ & _ & H & _)%batch_columns. by destruct (cb_o_i batch); [eexists|eexists|]. }
  destruct (Hg (cb_t batch)) as (c6 & -> & R6).
  { intros i r (_ & _ & _ & H & _)%batch_columns. by destruct (cb_t batch); [eexists|eexists|]. }
  eexists. split; [done|]. unfold column_batch_to_records. apply mapM_Some_1 in Hidx.
  pose proof (Forall2_length _ _ _ Hidx) as Hlen. apply mapM_Some_2, Forall2_same_length_lookup_2.
  { cbn [row_count]. by rewrite length_seq. }
  intros j j' r Hj Hr. apply lookup_seq in Hj as [-> _]. destruct (Forall2_lookup_r _ _ _ _ _ Hidx Hr) as (i & Hi & Hri).
  rewrite <- (batch_row i r Hri). unfold batch_row_to_record. cbn [cb_s_id cb_o_key cb_p_id cb_t cb_o_i cb_o_type].
  simpl Nat.add. rewrite (proj1 (R1 _ _ Hi)), (proj1 (R2 _ _ Hi)), (proj1 (R3 _ _ Hi)), (proj2 (R6 _ _ Hi)), (proj2 (R5 _ _ Hi)),
    (proj1 (R4 _ _ Hi)). done.
Qed.

(** Which rows pass, by their index. *)
Definition index_passes (i : nat) : bool := match rows !! i with Some r => passes flt r | None => false end.

Lemma row_matches_spec i : (i < length rows)%nat → row_matches flt batch i = Some (index_passes i).
Proof.
  intros [r Hi]%lookup_lt_is_Some. unfold index_passes. rewrite Hi. destruct (batch_columns i r Hi) as (H1 & H2 & H3 & _ & H5 & H6).
  unfold row_matches. rewrite H1, H2, H5. unfold column_get_or. unfold column_get in H3, H6.
  destruct (cb_p_id batch), (cb_o_type batch); try done; by rewrite ?H3, ?H6; simplify_eq.
Qed.

Lemma keep_spec (l : list nat) :
  Forall (λ i, i < length rows)%nat l →
  ∃ keep, mapM (λ i, m ← row_matches flt batch i; Some (i, m)) l = Some keep
    ∧ omap (λ im : nat * bool, if im.2 then Some im.1 else None) keep = filter (λ i, index_passes i = true) l.
Proof.
  induction 1 as [|i l Hi _ IH]; [by exists []|]. destruct IH as (keep & Hk & IH). exists ((i, index_passes i) :: keep).
  cbn [mapM]. rewrite (row_matches_spec i Hi). cbn [mbind option_bind]. rewrite Hk. split; [done|].
  rewrite filter_cons. csimpl. rewrite IH. destruct (index_passes i); [by rewrite decide_True|by rewrite decide_False].
Qed.

Lemma index_filter (pre l : list RunRecordV2) :
  rows = pre ++ l →
  mapM (λ i, rows !! i) (filter (λ i, index_passes i = true) (seq (length pre) (length l)))
    = Some (filter (λ r, passes flt r = true) l).
Proof.
  revert pre. induction l as [|x l IH]; intros pre Hr; [done|]. cbn [seq length].
  assert (rows !! length pre = Some x) as Hx by (rewrite Hr, lookup_app_r, Nat.sub_diag by lia; done).
  specialize (IH (pre ++ [x]) ltac:(by rewrite <- app_assoc)). rewrite length_app, Nat.add_1_r in IH.
  assert (index_passes (length pre) = passes flt x) as Hp by (unfold index_passes; by rewrite Hx).
  destruct (passes flt x) eqn:Ex; [rewrite !filter_cons_True by done|rewrite !filter_cons_False by congruence; done].
  cbn [mapM]. rewrite Hx. cbn [mbind option_bind]. by rewrite IH.
Qed.

Lemma filter_same {A} (P : A → Prop) `{∀ x, Decision (P x)} (l : list A) : length (filter P l) = length l → filter P l = l.
Proof.
  induction l as [|x l IH]; [done|]. rewrite filter_cons. destruct (decide (P x)); simpl.
  - intros [= H']. by rewrite IH.
  - pose proof (length_filter P l). lia.
Qed.

Lemma filter_batch_reads :
  ∃ b, filter_batch flt batch order = Some b ∧ column_batch_to_records b = Some (filter (λ r, passes flt r = true) rows).
Proof.
  unfold filter_batch. destruct leading_covers as [Hb Hc]. destruct (leading_bound_range flt batch order) as [lo hi]. simpl in Hb, Hc.
  destruct (keep_spec (seq lo (hi - lo))) as (keep & -> & Hk); [apply Forall_seq; lia|]. cbn [mbind option_bind]. rewrite Hk.
  assert (∀ a n, (a + n <= lo ∨ hi <= a)%nat → filter (λ i, index_passes i = true) (seq a n) = []) as Hout.
  { intros a n Hor. apply list_filter_none, Forall_seq. intros i Hi. unfold index_passes. destruct (rows !! i) as [r|] eqn:Er; [|done].
    intros Hp. specialize (Hc i r Er Hp). lia. }
  assert (filter (λ i, index_passes i = true) (seq lo (hi - lo)) = filter (λ i, index_passes i = true) (seq 0 (length rows))) as ->.
  { replace (length rows) with (lo + ((hi - lo) + (length rows - hi)))%nat by lia. rewrite !seq_app, !filter_app.
    rewrite (Hout 0%nat lo), (Hout (0 + lo + (hi - lo))%nat) by lia. by rewrite app_nil_r. }
  pose proof (index_filter [] rows eq_refl) as Hf. simpl length in Hf. pose proof (length_mapM _ _ _ Hf) as Hlen.
  cbv zeta. match goal with |- context [(?a =? ?b)%nat] => destruct (Nat.eqb_spec a b) as [He|_] end; [|by apply gather_batch_reads].
  eexists. split; [done|]. rewrite filter_same; [done|]. by rewrite <- Hlen, He, batch_length.
Qed.
End filter_batch_facts.

(** ** Rows with the overlay on top *)

Lemma cmp_row_overlay row ov order : cmp_row_vs_overlay row ov order = key_cmp order (rec_key row) (fact_key ov).
Proof. by destruct order. Qed.

Lemma cmp_overlay_record ov rec order : cmp_overlay_vs_record ov rec order = key_cmp order (fact_key ov) (rec_key rec).
Proof. by destruct order. Qed.

Definition key_passes (f : BinaryFilter) (k : FactKeyV3) : bool := passes f (key_rec k).

Lemma passes_key f r : passes f r = key_passes f (rec_key r).
Proof. done. Qed.

Lemma rec_key_overlay ov : rec_key (overlay_row ov) = fact_key ov.
Proof. done. Qed.

Section overlaid.
Context (self : BinaryCursor).
#[local] Abbreviation order := (bc_order self).
#[local] Abbreviation lt := (key_lt (bc_order self)).

Definition ops_at (k : FactKeyV3) (ops : list OverlayOp) : list OverlayOp := filter (λ ov, fact_key ov = k) ops.

(** An operation decides its fact; the rows decide the others. *)
Definition overlaid (rows : list RunRecordV2) (ops : list OverlayOp) (out : list RunRecordV2) : Prop :=
  StronglySorted lt (rec_key <$> out)
  ∧ ∀ k, rows_at k out = match ops_at k ops with ov :: _ => emit self ov | [] => rows_at k rows end.

Definition in_keys (rows : list RunRecordV2) (ops : list OverlayOp) (k : FactKeyV3) : Prop :=
  k ∈ rec_key <$> rows ∨ k ∈ fact_key <$> ops.

Lemma ops_at_nil k ops : k ∉ fact_key <$> ops → ops_at k ops = [].
Proof. intros H. apply list_filter_none, Forall_forall. intros ov Hov <-. apply H, list_elem_of_fmap. by exists ov. Qed.

Lemma ops_at_app k o1 o2 : ops_at k (o1 ++ o2) = ops_at k o1 ++ ops_at k o2.
Proof. apply filter_app. Qed.

Lemma overlaid_keys rows ops out k : overlaid rows ops out → k ∈ rec_key <$> out → in_keys rows ops k.
Proof.
  intros [_ Hk] (r & -> & Hr)%list_elem_of_fmap. specialize (Hk (rec_key r)).
  assert (r ∈ rows_at (rec_key r) out) as Hin by by apply list_elem_of_filter. rewrite Hk in Hin.
  destruct (ops_at (rec_key r) ops) as [|ov l] eqn:E.
  - apply list_elem_of_filter in Hin as [_ Hin]. left. apply list_elem_of_fmap. by exists r.
  - assert (ov ∈ ops_at (rec_key r) ops) as [Ho Hin']%list_elem_of_filter by (rewrite E; left). right.
    apply list_elem_of_fmap. by exists ov.
Qed.

Lemma overlaid_join r1 o1 out1 r2 o2 out2 :
  overlaid r1 o1 out1 → overlaid r2 o2 out2 → (∀ x y, in_keys r1 o1 x → in_keys r2 o2 y → lt x y) →
  overlaid (r1 ++ r2) (o1 ++ o2) (out1 ++ out2).
Proof.
  intros H1 H2 Hlt. split.
  - rewrite fmap_app. apply StronglySorted_app_2; [|apply H1|apply H2]. intros x y Hx Hy. eapply Hlt; by eapply overlaid_keys.
  - intros k. rewrite !rows_at_app, ops_at_app. assert (¬ (in_keys r1 o1 k ∧ in_keys r2 o2 k)) as Hd.
    { intros [K1 K2]. by apply (key_lt_irrefl order k), Hlt. }
    assert (∀ l, k ∉ rec_key <$> l → rows_at k l = []) as Hn by (intros l; apply rows_at_none).
    destruct (decide (k ∈ rec_key <$> r2)) as [K|K2r], (decide (k ∈ fact_key <$> o2)) as [K'|K2o]; cycle 3.
    + rewrite (ops_at_nil k o2), (Hn r2), !app_nil_r, (Hn out2), app_nil_r by (done || (intros [?|?]%(overlaid_keys _ _ _ _ H2); done)).
      apply H1.
    + rewrite (ops_at_nil k o1), (Hn r1), (Hn out1); [apply H2|..]; intros ?; apply Hd;
        try (split; [by eapply overlaid_keys|by left]); split; by (left + right).
    + rewrite (ops_at_nil k o1), (Hn r1), (Hn out1); [apply H2|..]; intros ?; apply Hd;
        try (split; [by eapply overlaid_keys|by left]); split; by (left + right).
    + rewrite (ops_at_nil k o1), (Hn r1), (Hn out1); [apply H2|..]; intros ?; apply Hd;
        try (split; [by eapply overlaid_keys|by right]); split; by (left + right).
Qed.

Lemma emit_keys ov r : r ∈ emit self ov → rec_key r = fact_key ov.
Proof. unfold emit. destruct (_ && _); [|by intros ?%not_elem_of_nil]. by intros ->%list_elem_of_singleton. Qed.

Lemma overlaid_op (rows : list RunRecordV2) ov :
  Forall (λ r, rec_key r = fact_key ov) rows → overlaid rows [ov] (emit self ov).
Proof.
  intros Hr. split; [unfold emit; destruct (_ && _); csimpl; repeat constructor|]. intros k. unfold ops_at.
  rewrite filter_cons. case_decide as Hk.
  - apply list_filter_id, Forall_forall. intros r Hin. by rewrite (emit_keys ov r Hin).
  - rewrite filter_nil. unfold rows_at. rewrite !list_filter_none; [done|..]; apply Forall_forall; intros r Hin.
    + by rewrite (proj1 (Forall_forall _ _) Hr r Hin).
    + by rewrite (emit_keys ov r Hin).
Qed.

Lemma overlaid_rows rows : StronglySorted lt (rec_key <$> rows) → overlaid rows [] rows.
Proof. by split. Qed.

Lemma keys_cons_row r rows ops k : in_keys (r :: rows) ops k ↔ k = rec_key r ∨ in_keys rows ops k.
Proof. unfold in_keys. csimpl. rewrite elem_of_cons. tauto. Qed.

Lemma keys_cons_op rows ov ops k : in_keys rows (ov :: ops) k ↔ k = fact_key ov ∨ in_keys rows ops k.
Proof. unfold in_keys. csimpl. rewrite elem_of_cons. tauto. Qed.

Lemma keys_nil k : ¬ in_keys [] [] k.
Proof. by intros [?%not_elem_of_nil|?%not_elem_of_nil]. Qed.

(** All of the overlay's operations, where there are no rows. *)
Lemma overlaid_only ops : StronglySorted lt (fact_key <$> ops) → overlaid [] ops (emit_overlay_only self ops).
Proof.
  unfold emit_overlay_only. induction ops as [|ov ops IH]; intros Hs; [by apply overlaid_rows|]. csimpl in Hs.
  apply StronglySorted_inv in Hs as [Hs Hov]. csimpl. apply (overlaid_join [] [ov] _ [] ops); [by apply overlaid_op|by apply IH|].
  intros x y [->|?%keys_nil]%keys_cons_op [?%not_elem_of_nil|Hy]; try done. by apply (proj1 (Forall_forall _ _) Hov).
Qed.

(** The operations up to a key and those after it. *)
Definition cut_ops (c : FactKeyV3) (ops o1 o2 : list OverlayOp) : Prop :=
  ops = o1 ++ o2 ∧ Forall (λ ov, ¬ lt c (fact_key ov)) o1 ∧ Forall (λ ov, lt c (fact_key ov)) o2.

Lemma cut_ops_cons c ov ops o1 o2 : ¬ lt c (fact_key ov) → cut_ops c ops o1 o2 → cut_ops c (ov :: ops) (ov :: o1) o2.
Proof. intros H (-> & H1 & H2). split; [done|]. by split; [constructor|]. Qed.

Lemma cut_ops_later c ops : StronglySorted lt (fact_key <$> ops) → match ops with ov :: _ => lt c (fact_key ov) | [] => True end →
  cut_ops c ops [] ops.
Proof.
  intros Hs Hh. split; [done|]. split; [done|]. destruct ops as [|ov ops]; [done|]. csimpl in Hs.
  apply StronglySorted_inv in Hs as [_ Hs]. constructor; [done|]. rewrite Forall_fmap in Hs. eapply Forall_impl; [exact Hs|].
  intros y Hy. by eapply key_lt_trans.
Qed.

Lemma cut_keys c ops o1 o2 : cut_ops c ops o1 o2 → ∀ k, k ∈ fact_key <$> o1 → k ∈ fact_key <$> ops.
Proof. intros (-> & _) k Hk. rewrite fmap_app. apply elem_of_app. by left. Qed.

Lemma drain_overlay_spec c ops :
  StronglySorted lt (fact_key <$> ops) →
  ∃ o1 o2 out, drain_overlay self c ops = (out, length o1) ∧ cut_ops (rec_key c) ops o1 o2 ∧ overlaid [] o1 out.
Proof.
  induction ops as [|ov ops IH]; intros Hs.
  - exists [], [], []. split; [done|]. split; [by split|by apply overlaid_rows].
  - csimpl in Hs. pose proof Hs as Hall. apply StronglySorted_inv in Hs as [Hs Hov]. cbn [drain_overlay].
    rewrite cmp_overlay_record.
    assert (¬ lt (rec_key c) (fact_key ov) → ∃ o1 o2 out,
      (let '(out, n) := drain_overlay self c ops in (emit self ov ++ out, S n)) = (out, length o1)
      ∧ cut_ops (rec_key c) (ov :: ops) o1 o2 ∧ overlaid [] o1 out) as Hgo.
    { intros Hle. destruct (IH Hs) as (o1 & o2 & out & -> & Hc & Ho). exists (ov :: o1), o2, (emit self ov ++ out).
      split; [done|]. split; [by apply cut_ops_cons|]. apply (overlaid_join [] [ov] _ [] o1); [by apply overlaid_op|done|].
      intros x y [->|?%keys_nil]%keys_cons_op [?%not_elem_of_nil|Hy]; try done.
      apply (proj1 (Forall_forall _ _) Hov). by eapply cut_keys. }
    destruct (key_cmp order (fact_key ov) (rec_key c)) eqn:E.
    + apply Hgo. apply key_cmp_eq in E as ->. apply key_lt_irrefl.
    + apply Hgo. intros H. by apply (key_lt_irrefl order (rec_key c)), (key_lt_trans _ _ (fact_key ov)).
    + exists [], (ov :: ops), []. split; [done|]. split; [|apply overlaid_rows; constructor]. apply cut_ops_later; [done|].
      by apply key_cmp_gt.
Qed.

Lemma merge_overlay_spec c rows ops :
  StronglySorted lt (rec_key <$> rows) → Forall (λ r, ¬ lt (rec_key c) (rec_key r)) rows → StronglySorted lt (fact_key <$> ops) →
  ∃ o1 o2 out, merge_overlay self c rows ops = (out, length o1) ∧ cut_ops (rec_key c) ops o1 o2 ∧ overlaid rows o1 out.
Proof.
  revert ops. induction rows as [|row rows IH]; intros ops Hr Hc Ho; [by apply drain_overlay_spec|].
  pose proof Hr as Hrall. csimpl in Hr. apply StronglySorted_inv in Hr as [Hr Hrow]. apply Forall_cons in Hc as [Hcr Hc].
  assert (∀ y, y ∈ rec_key <$> rows → lt (rec_key row) y) as Hrow' by by apply Forall_forall.
  induction ops as [|ov ops IHo].
  - exists [], [], (row :: rows). split; [done|]. split; [by split|by apply overlaid_rows].
  - pose proof Ho as Hoall. csimpl in Ho. apply StronglySorted_inv in Ho as [Ho Hov].
    assert (∀ y, y ∈ fact_key <$> ops → lt (fact_key ov) y) as Hov' by by apply Forall_forall.
    cbn [merge_overlay]. rewrite cmp_row_overlay. destruct (key_cmp order (rec_key row) (fact_key ov)) eqn:E.
    + apply key_cmp_eq in E.
      assert ((v2_s_id row =? ov_s_id ov) && (v2_p_id row =? ov_p_id ov) && (v2_o_type row =? ov_o_type ov)
        && (v2_o_key row =? ov_o_key ov) && (v2_o_i row =? ov_o_i ov) = true) as ->.
      { unfold rec_key, fact_key in E. injection E as -> -> -> -> ->. by rewrite !Z.eqb_refl. }
      destruct (IH ops Hr Hc Ho) as (o1 & o2 & out & -> & Hcut & Hover). exists (ov :: o1), o2, (emit self ov ++ out).
      split; [done|]. split; [apply cut_ops_cons; [by rewrite <- E|done]|].
      apply (overlaid_join [row] [ov] _ rows o1); [by apply overlaid_op, Forall_singleton|done|].
      intros x y [->|[->|?%keys_nil]%keys_cons_op]%keys_cons_row Hy; [|rewrite <- E|done];
        (destruct Hy as [Hy|Hy]; [by apply Hrow'|]); rewrite E; eapply Hov', cut_keys; done.
    + destruct (IH (ov :: ops) Hr Hc Hoall) as (o1 & o2 & out & -> & Hcut & Hover). exists o1, o2, (row :: out).
      split; [done|]. split; [done|]. apply (overlaid_join [row] [] [row] rows o1); [apply overlaid_rows; repeat constructor|done|].
      intros x y [->|?%keys_nil]%keys_cons_row [Hy|Hy]; [by apply Hrow'| |done..].
      apply (cut_keys _ _ _ _ Hcut) in Hy. csimpl in Hy. apply elem_of_cons in Hy as [->|Hy]; [done|].
      eapply key_lt_trans; [exact E|]. by apply Hov'.
    + apply key_cmp_gt in E. destruct (IHo Ho) as (o1 & o2 & out & Hm & Hcut & Hover). cbn [merge_overlay] in Hm. rewrite Hm.
      exists (ov :: o1), o2, (emit self ov ++ out). split; [done|]. split.
      * apply cut_ops_cons; [|done]. intros Hlt. by eapply Hcr, key_lt_trans.
      * apply (overlaid_join [] [ov] _ (row :: rows) o1); [by apply overlaid_op|done|].
        intros x y [->|?%keys_nil]%keys_cons_op Hy; [|done]. destruct Hy as [Hy|Hy]; [|by eapply Hov', cut_keys].
        csimpl in Hy. apply elem_of_cons in Hy as [->|Hy]; [done|]. eapply key_lt_trans; [exact E|]. by apply Hrow'.
Qed.
End overlaid.

(** ** Scanning leaflets *)

(** A list ordered by a relation along which a test only turns false is cut
    where it does. *)
Lemma mono_split {A} (R : relation A) (p : A → bool) (l : list A) :
  StronglySorted R l → (∀ x y, R x y → p y = true → p x = true) →
  ∃ l1 l2, l = l1 ++ l2 ∧ Forall (λ x, p x = true) l1 ∧ Forall (λ x, p x = false) l2.
Proof.
  intros Hs Hm. induction Hs as [|x l Hs IH Hx]; [by exists [], []|]. destruct IH as (l1 & l2 & -> & H1 & H2).
  destruct (p x) eqn:Ep.
  - exists (x :: l1), l2. split; [done|]. by split; [constructor|].
  - exists [], (x :: l1 ++ l2). split; [done|]. split; [done|]. constructor; [done|]. apply Forall_app. split; [|done].
    apply Forall_app in Hx as [Hx _]. apply Forall_forall. intros y Hy. destruct (p y) eqn:Ey; [|done].
    rewrite (Hm x y) in Ep; [done|by apply (proj1 (Forall_forall _ _) Hx)|done].
Qed.

Lemma partition_mono {A} (R : relation A) (p : A → bool) (l : list A) :
  StronglySorted R l → (∀ x y, R x y → p y = true → p x = true) →
  Forall (λ x, p x = true) (take (partition_point p l) l) ∧ Forall (λ x, p x = false) (drop (partition_point p l) l).
Proof.
  intros Hs Hm. destruct (mono_split R p l Hs Hm) as (l1 & l2 & -> & H1 & H2).
  rewrite (partition_point_spec _ _ l1 l2) by done. by rewrite take_app_length, drop_app_length.
Qed.

Section scan_facts.
Context `{SO : Sorting} `{HD : HashDrain}.
Context (self : BinaryCursor).
#[local] Abbreviation order := (bc_order self).
#[local] Abbreviation lt := (key_lt (bc_order self)).
#[local] Abbreviation flt := (bc_filter self).
#[local] Abbreviation passing := (filter (λ r, passes (bc_filter self) r = true)).
#[local] Abbreviation passing_ops := (filter (λ ov, key_passes (bc_filter self) (fact_key ov) = true)).

(** The fields of a key have the widths of their columns. *)
Definition key_ok (k : FactKeyV3) : Prop := v2_ok (key_rec k).

(** The keys of a leaflet hold its rows, which are in order. *)
Record within (v : View) : Prop := {
  wi_keys : ¬ lt (vw_last v) (vw_first v);
  wi_rows : Forall (λ r, ¬ lt (rec_key r) (vw_first v) ∧ ¬ lt (vw_last v) (rec_key r)) (vw_rows v);
  wi_sorted : StronglySorted lt (rec_key <$> vw_rows v);
  wi_ok : Forall (λ r, key_ok (rec_key r)) (vw_rows v);
}.

(** The leaflets are apart, each before the next. *)
Definition spread (vs : list View) : Prop := StronglySorted (λ v w, lt (vw_last v) (vw_first w)) vs.

Lemma le_lt x c y : ¬ lt c x → lt c y → lt x y.
Proof. apply (below_least order (Some y) x c). Qed.

Lemma lt_le x c y : lt x c → ¬ lt y c → lt x y.
Proof. apply lt_at_least. Qed.

Lemma le_le x c y : ¬ lt c x → ¬ lt y c → ¬ lt y x.
Proof. intros H1 H2. by apply (at_least_trans order x c y). Qed.

(** A filter passes only keys of the range. *)
Definition range_covers_filter : Prop :=
  match bc_range self with
  | Some (min_key, max_key) =>
      ∀ k, key_ok k → key_passes flt k = true → ¬ lt k (rec_key min_key) ∧ ¬ lt (rec_key max_key) k
  | None => True
  end.

Hypothesis Hcur : need_replay self = false.
Hypothesis Hrange : range_covers_filter.

Lemma passing_none rows : Forall (λ r, passes flt r = false) rows → passing rows = [].
Proof. intros H. apply list_filter_none. eapply Forall_impl; [exact H|]. simpl. congruence. Qed.

Lemma passing_sorted rows : StronglySorted lt (rec_key <$> rows) → StronglySorted lt (rec_key <$> passing rows).
Proof.
  induction rows as [|r rows IH]; intros Hs; [constructor|]. csimpl in Hs. apply StronglySorted_inv in Hs as [Hs Hr].
  rewrite filter_cons. case_decide; [|by apply IH]. csimpl. constructor; [by apply IH|]. apply Forall_forall. intros k Hk.
  apply (proj1 (Forall_forall _ _) Hr). apply list_elem_of_fmap in Hk as (x & -> & Hx). apply list_elem_of_filter in Hx as [_ Hx].
  apply list_elem_of_fmap. by exists x.
Qed.

Lemma bf_empty_passes r : bf_is_empty flt = true → passes flt r = true.
Proof.
  unfold bf_is_empty, passes, matches. by destruct (bf_s_id flt), (bf_p_id flt), (bf_o_type flt), (bf_o_key flt), (bf_o_i flt).
Qed.

(** What the loaded rows become. *)
Lemma leaflet_rows sidecar entry v :
  reads order (de_leaflet entry) v → within v →
  (batch ← load_leaflet self sidecar entry;
   batch ← (if bf_is_empty flt || (row_count batch =? 0)%nat then Some batch else filter_batch flt batch order);
   column_batch_to_records batch) = Some (passing (vw_rows v)).
Proof.
  intros [_ _ _ _ _ (batch & Hb & Hrec)] [_ _ Hs _]. unfold load_leaflet, leaflet_batch. rewrite Hb, Hcur. cbn [mbind option_bind].
  destruct (bf_is_empty flt) eqn:Ee; cbn [orb mbind option_bind].
  { rewrite Hrec, list_filter_id; [done|]. apply Forall_forall. intros r _. by apply bf_empty_passes. }
  destruct (Nat.eqb_spec (row_count batch) 0) as [Hz|_].
  - cbn [mbind option_bind]. rewrite Hrec. rewrite (batch_length _ batch Hrec) in Hz. by destruct (vw_rows v).
  - destruct (filter_batch_reads order flt (vw_rows v) Hs batch Hrec) as (b & -> & Hb'). done.
Qed.

Lemma view_last_key el v : reads order el v → read_ordered_key_v2 order (el_last_key el) = key_rec (vw_last v).
Proof.
  intros [_ R2 _ R4 _ _]. by rewrite R2, <- (app_nil_r (write_ordered_key_v2 _ _)), read_write_key, rec_key_rec.
Qed.

Lemma view_first_key el v : reads order el v → read_ordered_key_v2 order (el_first_key el) = key_rec (vw_first v).
Proof.
  intros [R1 _ R3 _ _ _]. by rewrite R1, <- (app_nil_r (write_ordered_key_v2 _ _)), read_write_key, rec_key_rec.
Qed.

Lemma empty_leaflet_rows el v : reads order el v → el_row_count el = 0%nat → vw_rows v = [].
Proof.
  intros [_ _ _ _ _ (batch & Hb & Hrec)] Hz. unfold leaflet_columns in Hb. rewrite Hz in Hb. injection Hb as <-.
  by injection Hrec as <-.
Qed.

Definition leaflet_scanned (W R : list OverlayOp) (v : View) (x : option (list RunRecordV2 * OverlayState)) : Prop :=
  match x with
  | None => Forall (λ ov, lt (vw_last v) (fact_key ov)) W ∧ ∀ k, key_ok k → ¬ lt k (vw_first v) → key_passes flt k = false
  | Some (out, st) =>
      ∃ W1 W2, st = (W2 ++ R, length W2) ∧ cut_ops self (vw_last v) W W1 W2 ∧ overlaid self (passing (vw_rows v)) W1 out
  end.

Lemma is_le_le a b : is_le (key_cmp order a b) = true → ¬ lt b a.
Proof.
  destruct (key_cmp order a b) eqn:E; [|intros _ H|done].
  - apply key_cmp_eq in E as ->. intros _. apply key_lt_irrefl.
  - by apply (key_lt_irrefl order a), (key_lt_trans order a b).
Qed.

Lemma not_is_le a b : is_le (key_cmp order a b) = false → lt b a.
Proof. destruct (key_cmp order a b) eqn:E; [done..|]. intros _. by apply key_cmp_gt. Qed.

Lemma scan_leaflet_spec sidecar W R entry v :
  reads order (de_leaflet entry) v → within v → StronglySorted lt (fact_key <$> W) →
  ∃ x, scan_leaflet self sidecar (W ++ R, length W) entry = Some x ∧ leaflet_scanned W R v x.
Proof.
  intros Hr Hw Hs. unfold scan_leaflet. rewrite take_app_length, (view_last_key _ v Hr), Hcur. cbv zeta. cbn [negb andb].
  rewrite andb_true_r. set (has_ov := match W with [] => false | ov :: _ => _ end).
  pose proof (leaflet_rows sidecar entry v Hr Hw) as Hrows.
  destruct has_ov eqn:Ehas; subst has_ov; cbn [negb andb].
  - apply bind_Some in Hrows as (b1 & -> & Hrows). cbn [mbind option_bind]. rewrite andb_false_r; cbn [andb].
    apply bind_Some in Hrows as (b2 & -> & Hrows). cbn [mbind option_bind]. rewrite Hrows. cbn [mbind option_bind].
    destruct (merge_overlay_spec self (key_rec (vw_last v)) (passing (vw_rows v)) W) as (o1 & o2 & out & -> & Hc & Ho).
    { apply passing_sorted, Hw. }
    { apply Forall_forall. intros r [_ Hin]%list_elem_of_filter. rewrite rec_key_rec. by apply (proj1 (Forall_forall _ _) (wi_rows v Hw)). }
    { done. }
    rewrite rec_key_rec in Hc. eexists. split; [done|]. exists o1, o2. split; [|done]. destruct Hc as (-> & _).
    rewrite length_app, <- app_assoc, drop_app_length. f_equal. lia.
  - assert (cut_ops self (vw_last v) W [] W) as Hcut.
    { apply cut_ops_later; [done|]. destruct W as [|ov W]; [done|]. rewrite cmp_overlay_record, rec_key_rec in Ehas.
      by apply not_is_le. }
    assert (Forall (λ r, passes flt r = false) (vw_rows v) → leaflet_scanned W R v (Some ([], (W ++ R, length W)))) as Hskip.
    { intros Hn. exists [], W. split; [done|]. split; [done|]. rewrite passing_none by done. by apply overlaid_rows; constructor. }
    destruct (match bc_range self with Some (_, max_key) => _ | None => false end) eqn:Erange.
    { exists None. split; [done|]. split; [apply Hcut|]. intros k Hok Hk. unfold range_covers_filter in Hrange.
      destruct (bc_range self) as [[mn mx]|]; [|done].
      rewrite (view_first_key _ v Hr), cmp_v2_key, rec_key_rec in Erange. apply negb_true_iff, not_is_le in Erange.
      destruct (key_passes flt k) eqn:Ek; [|done]. apply Hrange in Ek as [_ Ek]; [|done]. exfalso. apply Ek. by eapply lt_le. }
    destruct (skip_leaflet _ _ _) eqn:Eskip; [eexists; split; [done|]; apply Hskip; by eapply skip_sound|].
    destruct (Nat.eqb_spec (el_row_count (de_leaflet entry)) 0) as [Hz|_]; cbn [andb].
    { eexists. split; [done|]. apply Hskip. by rewrite (empty_leaflet_rows _ v Hr Hz). }
    destruct (leaflet_out_of_range _ _ _ _) eqn:Eout; [eexists; split; [done|]; apply Hskip; by eapply out_of_range_sound|].
    apply bind_Some in Hrows as (b1 & -> & Hrows). cbn [mbind option_bind].
    apply bind_Some in Hrows as (b2 & -> & Hrows). cbn [mbind option_bind]. rewrite Hrows. cbn [mbind option_bind].
    eexists. split; [done|]. exists [], W. split; [done|]. split; [done|]. apply overlaid_rows, passing_sorted, Hw.
Qed.

(** What leaflets give: the rows and the operations up to their last key; the
    operations left are after it or excluded by the filter. *)
Definition leaflets_scanned (vs : list View) (W W1 W2 : list OverlayOp) (out : list RunRecordV2) : Prop :=
  W = W1 ++ W2 ∧ overlaid self (passing (all_rows vs)) W1 out
  ∧ Forall (λ ov, Exists (λ v, ¬ lt (vw_last v) (fact_key ov)) vs) W1
  ∧ Forall (λ ov, key_passes flt (fact_key ov) = true → Forall (λ v, lt (vw_last v) (fact_key ov)) vs) W2.

Lemma all_rows_cons v vs : all_rows (v :: vs) = vw_rows v ++ all_rows vs.
Proof. done. Qed.

Lemma all_rows_elem vs r : r ∈ all_rows vs ↔ ∃ v, v ∈ vs ∧ r ∈ vw_rows v.
Proof.
  unfold all_rows. rewrite elem_of_concat. split.
  - intros (l & (v & -> & Hv)%list_elem_of_fmap & Hr). by exists v.
  - intros (v & Hv & Hr). exists (vw_rows v). split; [|done]. apply list_elem_of_fmap. by exists v.
Qed.

Lemma passing_keys (rows : list RunRecordV2) k : k ∈ rec_key <$> passing rows → ∃ r, r ∈ rows ∧ k = rec_key r ∧ key_passes flt k = true.
Proof. intros (r & -> & [Hp Hr]%list_elem_of_filter)%list_elem_of_fmap. by exists r. Qed.

Lemma within_row v r : within v → r ∈ vw_rows v → ¬ lt (rec_key r) (vw_first v) ∧ ¬ lt (vw_last v) (rec_key r).
Proof. intros [_ Hw _ _] Hr. by apply (proj1 (Forall_forall _ _) Hw). Qed.

Lemma within_ok vs r : Forall within vs → r ∈ all_rows vs → key_ok (rec_key r).
Proof.
  intros Hw (v & Hv & Hr)%all_rows_elem. apply (proj1 (Forall_forall _ _) Hw) in Hv. by apply (proj1 (Forall_forall _ _) (wi_ok v Hv)).
Qed.

(** The rows of later leaflets are after a leaflet. *)
Lemma spread_rows v vs r : spread (v :: vs) → Forall within vs → r ∈ all_rows vs → lt (vw_last v) (rec_key r).
Proof.
  intros [_ Hs]%StronglySorted_inv Hw (w & Hv & Hr)%all_rows_elem. apply (proj1 (Forall_forall _ _) Hs) in Hv as Hlt.
  apply (proj1 (Forall_forall _ _) Hw) in Hv. eapply lt_le; [exact Hlt|]. by apply (within_row w).
Qed.

Lemma scan_leaflets_spec sidecar entries vs W R :
  Forall2 (λ e, reads order (de_leaflet e)) entries vs → Forall within vs → spread vs → StronglySorted lt (fact_key <$> W) →
  Forall (λ ov, key_ok (fact_key ov)) W →
  ∃ out W1 W2, scan_leaflets self sidecar (W ++ R, length W) entries = Some (out, (W2 ++ R, length W2))
    ∧ leaflets_scanned vs W W1 W2 out.
Proof.
  intros He. revert W. induction He as [|e v entries vs Hr He IH]; intros W Hw Hsp Hs Hok.
  - exists [], [], W. split; [done|]. split; [done|]. split; [apply overlaid_rows; constructor|]. split; [done|].
    apply Forall_forall. intros ov _ _. constructor.
  - apply Forall_cons in Hw as [Hv Hw]. pose proof Hsp as Hsp'. apply StronglySorted_inv in Hsp' as [Hsp' Hlt].
    destruct (scan_leaflet_spec sidecar W R e v Hr Hv Hs) as (x & Hx & Hsc). cbn [scan_leaflets]. rewrite Hx. cbn [mbind option_bind].
    destruct x as [[out1 st]|].
    + destruct Hsc as (W1 & W2 & -> & (-> & Hc1 & Hc2) & Hov). rewrite fmap_app in Hs. apply StronglySorted_app_1_r in Hs.
      destruct (IH W2 Hw Hsp' Hs (proj2 (proj1 (Forall_app _ _ _) Hok))) as (out2 & W1' & W2' & -> & -> & Hov' & H1 & H2). cbn [mbind option_bind].
      apply Forall_app in Hc2 as [Hc21 Hc22]. exists (out1 ++ out2), (W1 ++ W1'), W2'. split; [done|]. split; [by rewrite app_assoc|].
      rewrite all_rows_cons, filter_app. split; [|split].
      * apply overlaid_join; [done..|]. intros x y Hx' Hy.
        assert (¬ lt (vw_last v) x) as Hxv.
        { destruct Hx' as [(r & Hin & -> & _)%passing_keys|(ov & -> & Hin)%list_elem_of_fmap]; [by apply within_row|].
          by apply (proj1 (Forall_forall _ _) Hc1). }
        eapply le_lt; [exact Hxv|]. destruct Hy as [(r & Hin & -> & _)%passing_keys|(ov & -> & Hin)%list_elem_of_fmap].
        -- by eapply spread_rows.
        -- by apply (proj1 (Forall_forall _ _) Hc21).
      * apply Forall_app. split.
        -- eapply Forall_impl; [exact Hc1|]. intros ov ?. by left.
        -- eapply Forall_impl; [exact H1|]. intros ov ?. by right.
      * apply Forall_forall. intros ov Hin Hp. constructor; [by apply (proj1 (Forall_forall _ _) Hc22)|].
        by apply (proj1 (Forall_forall _ _) H2).
    + destruct Hsc as [Hc Hn]. exists [], [], W. split; [done|]. split; [done|]. split; [|split; [done|]].
      * rewrite passing_none; [apply overlaid_rows; constructor|]. apply Forall_forall. intros r Hin. rewrite passes_key. apply Hn; [by apply (within_ok (v :: vs)); [constructor|]|].
        rewrite all_rows_cons in Hin. apply elem_of_app in Hin as [Hin|Hin]; [by apply within_row|].
        eapply le_le; [apply Hv|]. intros Hx'. eapply key_lt_irrefl, key_lt_trans; [exact Hx'|]. by eapply spread_rows.
      * apply Forall_forall. intros ov Hin Hp. rewrite Hn in Hp; [done|by apply (proj1 (Forall_forall _ _) Hok)|]. apply (proj1 (Forall_forall _ _) Hc) in Hin.
        intros Hx'. eapply Hv, key_lt_trans; [exact Hin|done].
Qed.

(** The leaflets before the range have nothing that passes. *)
Lemma range_seek_spec entries vs :
  Forall2 (λ e, reads order (de_leaflet e)) entries vs → Forall within vs → spread vs →
  ∃ vs1 vs2, vs = vs1 ++ vs2 ∧ Forall2 (λ e, reads order (de_leaflet e)) (range_seek self entries) vs2
    ∧ Forall (λ v, ∀ k, key_ok k → key_passes flt k = true → lt (vw_last v) k) vs1.
Proof.
  intros He Hw Hsp. unfold range_seek. unfold range_covers_filter in Hrange.
  destruct (bc_range self) as [[mn mx]|]; [|by exists [], vs]. rewrite Hcur. match goal with |- context [partition_point ?f entries] => set (p := f) end.
  exists (take (partition_point p entries) vs), (drop (partition_point p entries) vs).
  split; [by rewrite take_drop|]. split; [by apply Forall2_drop|].
  pose (q := λ v : View, match key_cmp order (vw_last v) (rec_key mn) with Lt => true | _ => false end).
  assert (Forall2 (λ e v, p e = q v) entries vs) as Hpq.
  { eapply Forall2_impl; [exact He|]. intros e v Hr. unfold p, q. by rewrite (view_last_key _ v Hr), cmp_v2_key, rec_key_rec. }
  destruct (mono_split (λ v w, lt (vw_last v) (vw_last w)) q vs) as (l1 & l2 & -> & H1 & H2).
  { clear - Hsp Hw. induction Hsp as [|v vs Hs IH Hv]; [constructor|]. apply Forall_cons in Hw as [_ Hw]. constructor; [by apply IH|].
    apply Forall_forall. intros w Hin. eapply lt_le; [by apply (proj1 (Forall_forall _ _) Hv)|].
    by apply (wi_keys w), (proj1 (Forall_forall _ _) Hw). }
  { intros v w Hlt. unfold q. destruct (key_cmp order (vw_last w) (rec_key mn)) eqn:E; [done| |done]. intros _.
    by rewrite (key_lt_trans order _ _ _ Hlt E). }
  apply Forall2_app_inv_r in Hpq as (e1 & e2 & P1 & P2 & ->).
  rewrite (partition_point_spec _ _ e1 e2); [|done|..].
  - rewrite (Forall2_length _ _ _ P1), take_app_length. eapply Forall_impl; [exact H1|]. intros v Hq k Hok Hp. destruct (Hrange k Hok Hp) as [Hk _].
    unfold q in Hq. destruct (key_cmp order (vw_last v) (rec_key mn)) eqn:E; [done| |done]. by eapply lt_le.
  - eapply Forall2_Forall_l; [exact P1|]. eapply Forall_impl; [exact H1|]. simpl. congruence.
  - eapply Forall2_Forall_l; [exact P2|]. eapply Forall_impl; [exact H2|]. simpl. congruence.
Qed.

Lemma scan_leaf_spec sidecar entries vs W R :
  Forall2 (λ e, reads order (de_leaflet e)) entries vs → Forall within vs → spread vs → StronglySorted lt (fact_key <$> W) →
  Forall (λ ov, key_ok (fact_key ov)) W →
  ∃ out W1 W2, scan_leaflets self sidecar (W ++ R, length W) (range_seek self entries) = Some (out, (W2 ++ R, length W2))
    ∧ leaflets_scanned vs W W1 W2 out.
Proof.
  intros He Hw Hsp Hs Hok. destruct (range_seek_spec entries vs He Hw Hsp) as (vs1 & vs2 & -> & He' & Hbefore).
  apply Forall_app in Hw as [Hw1 Hw2]. pose proof (StronglySorted_app_1_r _ _ _ Hsp) as Hsp2.
  destruct (scan_leaflets_spec sidecar _ vs2 W R He' Hw2 Hsp2 Hs Hok) as (out & W1 & W2 & Hsc & -> & Hov & H1 & H2).
  exists out, W1, W2. split; [done|]. split; [done|]. rewrite all_rows_app, filter_app, (passing_none (all_rows vs1)).
  - split; [done|]. split.
    + eapply Forall_impl; [exact H1|]. intros ov Hex. apply Exists_app. by right.
    + apply Forall_app in Hok as [_ Hok]. apply Forall_forall. intros ov Hin2 Hpass.
      pose proof (proj1 (Forall_forall _ _) H2 ov Hin2) as Hp. apply Forall_app. split; [|by apply Hp].
      eapply Forall_impl; [exact Hbefore|]. intros v Hv. apply Hv; [|done]. by apply (proj1 (Forall_forall _ _) Hok).
  - apply Forall_forall. intros r (v & Hv & Hr)%all_rows_elem. rewrite passes_key. destruct (key_passes flt (rec_key r)) eqn:E; [|done].
    apply (proj1 (Forall_forall _ _) Hbefore v Hv) in E; [|apply (within_ok vs1); [done|]; apply all_rows_elem; by exists v]. exfalso. eapply within_row; [|exact Hr|exact E].
    by apply (proj1 (Forall_forall _ _) Hw1).
Qed.

(** ** Scanning leaves *)

(** An operation that passes lies in no gap between the last key of a leaf
    and the first of the next. *)
Definition no_gap (leaves : list LeafEntry) (ops : list OverlayOp) : Prop :=
  Forall (λ ab : LeafEntry * LeafEntry, Forall (λ ov, key_passes flt (fact_key ov) = true →
    lt (rec_key (le_last_key ab.1)) (fact_key ov) → ¬ lt (fact_key ov) (rec_key (le_first_key ab.2))) ops)
    (zip leaves (drop 1 leaves)).

Lemma no_gap_sub leaves ops ops' : ops' ⊆ ops → no_gap leaves ops → no_gap leaves ops'.
Proof.
  intros Hsub Hg. eapply Forall_impl; [exact Hg|]. intros ab Hab. apply Forall_forall. intros ov Hov%Hsub.
  by apply (proj1 (Forall_forall _ _) Hab).
Qed.

Lemma filter_overlay_key ov : filter_overlay self ov = key_passes flt (fact_key ov).
Proof. done. Qed.

Lemma emit_none ov : key_passes flt (fact_key ov) = false → emit self ov = [].
Proof. intros H. unfold emit. rewrite filter_overlay_key, H. by rewrite andb_false_r. Qed.

Lemma ops_at_passing k ops : ops_at k (passing_ops ops) = if key_passes flt k then ops_at k ops else [].
Proof.
  unfold ops_at. induction ops as [|ov ops IH]; [by destruct (key_passes flt k)|]. rewrite !filter_cons.
  destruct (decide (key_passes flt (fact_key ov) = true)) as [Hp|Hp]; rewrite ?filter_cons, IH;
    destruct (decide (fact_key ov = k)) as [<-|Hne]; destruct (key_passes flt _) eqn:E; congruence.
Qed.

(** Operations that do not pass are of no consequence. *)
Lemma overlaid_passing rows ops out :
  overlaid self (passing rows) ops out → overlaid self (passing rows) (passing_ops ops) out.
Proof.
  intros [Hs Hk]. split; [done|]. intros k. rewrite Hk, ops_at_passing.
  destruct (key_passes flt k) eqn:Hp; [done|]. destruct (ops_at k ops) as [|ov l] eqn:E; [done|].
  assert (ov ∈ ops_at k ops) as [Ho _]%list_elem_of_filter by (rewrite E; left). rewrite emit_none by by rewrite Ho.
  symmetry. apply rows_at_none. intros (r & _ & -> & Hp')%passing_keys. congruence.
Qed.

Lemma emit_passing ops : emit_overlay_only self ops = emit_overlay_only self (passing_ops ops).
Proof.
  unfold emit_overlay_only. induction ops as [|ov ops IH]; [done|]. rewrite filter_cons. csimpl. rewrite IH.
  case_decide as Hp; [done|]. by rewrite emit_none by by apply not_true_is_false.
Qed.

Lemma ops_filter_sorted (P : OverlayOp → Prop) `{∀ x, Decision (P x)} ops :
  StronglySorted lt (fact_key <$> ops) → StronglySorted lt (fact_key <$> filter P ops).
Proof.
  induction ops as [|r ops IH]; intros Hs; [constructor|]. csimpl in Hs. apply StronglySorted_inv in Hs as [Hs Hr].
  rewrite filter_cons. case_decide; [|by apply IH]. csimpl. constructor; [by apply IH|]. apply Forall_forall. intros k Hk.
  apply (proj1 (Forall_forall _ _) Hr). apply list_elem_of_fmap in Hk as (x & -> & Hx). apply list_elem_of_filter in Hx as [_ Hx].
  apply list_elem_of_fmap. by exists x.
Qed.

(** The operations before a key. *)
Lemma before_point b (ops l1 l2 : list OverlayOp) :
  ops = l1 ++ l2 → Forall (λ ov, lt (fact_key ov) b) l1 → Forall (λ ov, ¬ lt (fact_key ov) b) l2 →
  partition_point (λ ov, match cmp_overlay_vs_record ov (key_rec b) order with Lt => true | _ => false end) ops = length l1.
Proof.
  intros Hops H1 H2. apply (partition_point_spec _ _ l1 l2); [done|..].
  - eapply Forall_impl; [exact H1|]. intros ov Hlt. cbn beta. by rewrite cmp_overlay_record, rec_key_rec, Hlt.
  - eapply Forall_impl; [exact H2|]. intros ov Hlt. cbn beta. rewrite cmp_overlay_record, rec_key_rec. unfold key_lt in Hlt.
    by destruct (key_cmp _ _ _).
Qed.

Lemma ops_split b ops : StronglySorted lt (fact_key <$> ops) →
  ∃ l1 l2, ops = l1 ++ l2 ∧ Forall (λ ov, lt (fact_key ov) b) l1 ∧ Forall (λ ov, ¬ lt (fact_key ov) b) l2.
Proof.
  induction ops as [|ov ops IH]; intros Hs; [by exists [], []|]. csimpl in Hs. apply StronglySorted_inv in Hs as [Hs Hov].
  destruct (at_least_cases order b (fact_key ov)) as [Hlt|Hge].
  - destruct (IH Hs) as (l1 & l2 & -> & H1 & H2). exists (ov :: l1), l2. split; [done|]. by split; [constructor|].
  - exists [], (ov :: ops). split; [done|]. split; [done|]. constructor; [done|]. rewrite Forall_fmap in Hov.
    eapply Forall_impl; [exact Hov|]. intros x Hx Hlt. by eapply Hge, key_lt_trans.
Qed.

(** Where a leaf other than the first finds its operations: those left from
    the leaf before do not pass. *)
Definition pending (b : FactKeyV3) (is_first : bool) (ops : list OverlayOp) : Prop :=
  is_first = true ∨ is_first = false ∧ ∃ D R, ops = D ++ R ∧ Forall (λ ov, key_passes flt (fact_key ov) = false ∧ lt (fact_key ov) b) D
    ∧ Forall (λ ov, ¬ lt (fact_key ov) b) R.

Lemma slice_spec leaf b next nb is_first ops n :
  le_first_key leaf = key_rec b → le_first_key <$> next = key_rec <$> nb → match nb with Some nk => lt b nk | None => True end →
  StronglySorted lt (fact_key <$> ops) → pending b is_first ops →
  ∃ D W R, ops = D ++ W ++ R ∧ Forall (λ ov, key_passes flt (fact_key ov) = false) D
    ∧ match nb with
      | Some nk => Forall (λ ov, lt (fact_key ov) nk) W ∧ Forall (λ ov, ¬ lt (fact_key ov) nk) R
      | None => R = []
      end
    ∧ match ops with [] => ([], 0%nat) | _ => slice_overlay_for_leaf self (ops, n) leaf next is_first end = (W ++ R, length W).
Proof.
  intros Hb Hnext Hlt Hs Hpend.
  assert (∃ D R, ops = D ++ R ∧ Forall (λ ov, key_passes flt (fact_key ov) = false ∧ lt (fact_key ov) b) D
    ∧ (if is_first then 0%nat else partition_point (λ ov,
         match cmp_overlay_vs_record ov (key_rec b) order with Lt => true | _ => false end) ops) = length D) as (D & R0 & -> & HD' & Hstart).
  { destruct Hpend as [->|[-> (D & R & -> & H1 & H2)]]; [by exists [], ops|]. exists D, R. split; [done|]. split; [done|].
    eapply before_point; [done| |done]. eapply Forall_impl; [exact H1|]. by intros ? []. }
  assert (∃ W R, R0 = W ++ R ∧ match nb with
      | Some nk => Forall (λ ov, lt (fact_key ov) nk) W ∧ Forall (λ ov, ¬ lt (fact_key ov) nk) R
      | None => R = []
      end) as (W & R & -> & HW).
  { destruct nb as [nk|]; [|exists R0, []; by rewrite app_nil_r]. rewrite fmap_app in Hs. apply StronglySorted_app_1_r in Hs.
    apply (ops_split nk R0 Hs). }
  exists D, W, R. split; [done|]. split; [eapply Forall_impl; [exact HD'|]; by intros ? []|]. split; [done|].
  assert (slice_overlay_for_leaf self (D ++ W ++ R, n) leaf next is_first = (W ++ R, length W)) as Hslice.
  { assert (compute_overlay_window (D ++ W ++ R) (le_first_key leaf) (le_first_key <$> next) order is_first
      = (length D, length D + length W)%nat) as Hwin.
    { unfold compute_overlay_window. rewrite Hnext, Hb. cbv zeta. destruct (D ++ W ++ R) as [|ov l] eqn:E.
      { apply app_nil in E as [-> [-> ->]%app_nil]. done. }
      rewrite <- E in *. f_equal; [exact Hstart|]. destruct nb as [nk|]; cbn [fmap option_fmap option_map].
      - rewrite (before_point nk _ (D ++ W) R); [by rewrite length_app|by rewrite <- app_assoc| |apply HW].
        apply Forall_app. split; [|apply HW]. eapply Forall_impl; [exact HD'|]. intros x [_ Hx]. by eapply key_lt_trans.
      - by rewrite HW, app_nil_r, length_app. }
    unfold slice_overlay_for_leaf. rewrite Hwin, drop_app_length. f_equal. lia. }
  destruct (D ++ W ++ R) as [|ov l] eqn:E; [|done].
  apply app_nil in E as [-> [-> ->]%app_nil]. done.
Qed.

Lemma entry_reads_of leaf vs :
  entry_views order leaf vs → Forall2 (λ e, reads order (de_leaflet e)) (lf_entries (le_leaf leaf)) vs.
Proof. intros [[Hr _ _] _]. eapply Forall2_impl; [exact Hr|]. by intros e v []. Qed.

Lemma no_gap_cons a b leaves ops :
  no_gap (a :: b :: leaves) ops → Forall (λ ov, key_passes flt (fact_key ov) = true →
    lt (rec_key (le_last_key a)) (fact_key ov) → ¬ lt (fact_key ov) (rec_key (le_first_key b))) ops ∧ no_gap (b :: leaves) ops.
Proof. unfold no_gap. cbn [drop zip_with]. intros [H1 H2]%Forall_cons. done. Qed.

(** The leaf that follows others in the branch starts after them. *)
Definition starts_after (vs : list View) (after : list LeafEntry) : Prop :=
  match head after with
  | Some a => ∃ b, le_first_key a = key_rec b ∧ Forall (λ v, lt (vw_last v) b) vs
  | None => True
  end.

Lemma spread_app vs ws v w : spread (vs ++ ws) → v ∈ vs → w ∈ ws → lt (vw_last v) (vw_first w).
Proof. intros H1 H2 H3. by eapply (StronglySorted_app_1_elem_of _ vs ws) in H1. Qed.

Lemma next_starts_after vs leaves vss after :
  Forall2 (entry_views order) leaves vss → spread (vs ++ concat vss) → starts_after (vs ++ concat vss) after →
  starts_after vs (leaves ++ after).
Proof.
  intros Hl Hsp Ha. destruct Hl as [|leaf2 vs2 leaves vss (Hr2 & (b2 & Hb2 & Hf2) & _) Hl]; unfold starts_after in *; cbn [app head].
  - destruct (head after) as [a|]; [|done]. destruct Ha as (nk & Hnk & Ha). exists nk. split; [done|]. by apply Forall_app in Ha as [? _].
  - exists b2. split; [done|]. destruct vs2 as [|v2 vs2]; [done|]. injection Hb2 as <-.
    apply Forall_forall. intros v Hv. eapply spread_app; [exact Hsp|done|]. cbn. left.
Qed.

(** One leaf, then the others. *)
Lemma leaf_join vs vss W W1 W2 R out1 out2 nb :
  Forall within vs → Forall within (concat vss) → spread (vs ++ concat vss) → leaflets_scanned vs W W1 W2 out1 →
  match nb with
  | Some nk => Forall (λ ov, ¬ lt (fact_key ov) nk) R ∧ Forall (λ v, lt (vw_last v) nk) vs
  | None => R = []
  end →
  overlaid self (passing (all_rows (concat vss))) (passing_ops (W2 ++ R)) out2 →
  overlaid self (passing (all_rows (vs ++ concat vss))) (passing_ops (W ++ R)) (out1 ++ out2).
Proof.
  intros Hw1 Hw2 Hsp (-> & Hov & H1 & H2) HR Hov2. rewrite all_rows_app, filter_app, <- app_assoc, filter_app.
  apply overlaid_join; [by apply overlaid_passing|done|]. intros x y Hx Hy.
  assert (∃ v, v ∈ vs ∧ ¬ lt (vw_last v) x) as (v & Hv & Hxv).
  { destruct Hx as [(r & (v & Hv & Hin)%all_rows_elem & -> & _)%passing_keys|(ov & -> & [_ Hin]%list_elem_of_filter)%list_elem_of_fmap].
    - exists v. split; [done|]. apply within_row; [by apply (proj1 (Forall_forall _ _) Hw1)|done].
    - apply (proj1 (Forall_forall _ _) H1) in Hin. apply Exists_exists in Hin as (v & Hv & Hlt). by exists v. }
  eapply le_lt; [exact Hxv|].
  destruct Hy as [(r & (w & Hw & Hin)%all_rows_elem & -> & _)%passing_keys|(ov & -> & [Hp Hin]%list_elem_of_filter)%list_elem_of_fmap].
  - eapply lt_le; [by eapply spread_app|].
    apply within_row; [by apply (proj1 (Forall_forall _ _) Hw2)|done].
  - apply elem_of_app in Hin as [Hin|Hin].
    + by apply (proj1 (Forall_forall _ _) (proj1 (Forall_forall _ _) H2 ov Hin Hp)).
    + destruct nb as [nk|]; [|subst R; by apply not_elem_of_nil in Hin]. destruct HR as [HR Hn].
      eapply lt_le; [by apply (proj1 (Forall_forall _ _) Hn v Hv)|by apply (proj1 (Forall_forall _ _) HR)].
Qed.

Lemma scan_leaves_spec leaves vss after is_first ops n all_ops :
  Forall2 (entry_views order) leaves vss → Forall within (concat vss) → spread (concat vss) → starts_after (concat vss) after →
  no_gap leaves all_ops → ops ⊆ all_ops → StronglySorted lt (fact_key <$> ops) →
  Forall (λ ov, key_ok (fact_key ov)) all_ops →
  match leaves with leaf :: _ => pending (rec_key (le_first_key leaf)) is_first ops | [] => True end →
  ∃ out, scan_leaves self is_first (ops, n) leaves after = Some out
    ∧ overlaid self (passing (all_rows (concat vss))) (passing_ops ops) out.
Proof.
  intros Hl. revert is_first ops n. induction Hl as [|leaf vs leaves vss Hentry Hl IH]; intros is_first ops n Hw Hsp Hafter Hgap Hsub Hs Hok Hpend.
  { eexists. split; [done|]. cbn [fst]. rewrite emit_passing. by apply overlaid_only, ops_filter_sorted. }
  cbn [concat] in *. apply Forall_app in Hw as [Hw1 Hw2]. pose proof (StronglySorted_app_1_l _ _ _ Hsp) as Hsp1.
  pose proof (StronglySorted_app_1_r _ _ _ Hsp) as Hsp2. pose proof (next_starts_after vs leaves vss after Hl Hsp Hafter) as Hnext.
  destruct Hentry as (Hr & (b & Hb & Hfirst) & (lastv & Hlast & Hlk)) eqn:Eentry. clear Eentry. rewrite Hfirst, rec_key_rec in Hpend.
  assert (∃ nb, le_first_key <$> head (leaves ++ after) = key_rec <$> nb
    ∧ match nb with Some nk => Forall (λ v, lt (vw_last v) nk) vs ∧ lt b nk | None => leaves = [] end) as (nb & Hnb & Hnk).
  { unfold starts_after in Hnext. destruct (head (leaves ++ after)) as [a|] eqn:Ea; [|exists None; by destruct leaves].
    destruct Hnext as (nk & Hnk & Ha). exists (Some nk). cbn. rewrite Hnk. split; [done|]. split; [done|].
    destruct vs as [|v0 vs]; [done|]. injection Hb as <-. apply Forall_cons in Ha as [Ha _], Hw1 as [Hw1 _].
    eapply le_lt; [apply Hw1|done]. }
  destruct (slice_spec leaf b (head (leaves ++ after)) nb is_first ops n Hfirst Hnb ltac:(destruct nb; [apply Hnk|done]) Hs Hpend)
    as (D & W & R & -> & HD' & HWR & Hslice).
  cbn [scan_leaves fst]. rewrite Hslice. clear Hslice. rewrite fmap_app in Hs. apply StronglySorted_app_1_r in Hs.
  rewrite fmap_app in Hs. pose proof (StronglySorted_app_1_l _ _ _ Hs) as HsW.
  assert (Forall (λ ov, key_ok (fact_key ov)) W) as HokW.
  { apply Forall_forall. intros ov Hov. apply (proj1 (Forall_forall _ _) Hok), Hsub. set_solver. }
  destruct (scan_leaf_spec (lf_sidecar (le_leaf leaf)) _ vs W R (entry_reads_of leaf vs Hentry) Hw1 Hsp1 HsW HokW)
    as (out1 & W1 & W2 & -> & Hsc). cbn [mbind option_bind fst snd].
  pose proof Hsc as (HWeq & _ & _ & Hleft).
  assert (W2 ++ R ⊆ all_ops) as Hsub2.
  { intros x Hx. apply Hsub. rewrite HWeq. set_solver. }
  destruct (IH false (W2 ++ R) (length W2) Hw2 Hsp2) as (out2 & -> & Hov2).
  - unfold starts_after in *. destruct (head after); [|done]. destruct Hafter as (nk & Hnk' & Ha). exists nk. split; [done|].
    by apply Forall_app in Ha as [_ ?].
  - destruct leaves as [|leaf2 leaves]; [constructor|]. by apply no_gap_cons in Hgap as [_ ?].
  - done.
  - rewrite HWeq, fmap_app, <- app_assoc in Hs. apply StronglySorted_app_1_r in Hs. by rewrite fmap_app.
  - done.
  - destruct leaves as [|leaf2 leaves]; [done|]. right. split; [done|]. destruct nb as [nk|]; [|done].
    injection Hnb as Hnb. rewrite Hnb, rec_key_rec. exists W2, R. split; [done|]. destruct HWR as [HW HR]. split; [|done].
    apply Forall_forall. intros ov Hin. assert (lt (fact_key ov) nk) as Hlt.
    { apply (proj1 (Forall_forall _ _) HW). rewrite HWeq. apply elem_of_app. by right. }
    split; [|done]. destruct (key_passes flt (fact_key ov)) eqn:Hp; [|done]. exfalso.
    apply no_gap_cons in Hgap as [Hgap _]. apply (proj1 (Forall_forall _ _) Hgap ov); [apply Hsub2; set_solver|done| |].
    + rewrite Hlk, rec_key_rec. apply (proj1 (Forall_forall _ _) (proj1 (Forall_forall _ _) Hleft ov Hin Hp)). by apply last_Some_elem_of.
    + by rewrite Hnb, rec_key_rec.
  - eexists. split; [done|]. rewrite filter_app, (list_filter_none _ D), app_nil_l.
    2:{ eapply Forall_impl; [exact HD'|]. simpl. congruence. }
    apply (leaf_join vs vss W W1 W2 R out1 out2 nb); try done. destruct nb as [nk|]; [|done]. split; [apply HWR|apply Hnk].
Qed.

(** ** The leaves of a range *)

Lemma no_gap_app l1 l2 ops : no_gap (l1 ++ l2) ops → no_gap l1 ops ∧ no_gap l2 ops.
Proof.
  induction l1 as [|a l1 IH]; [by split; [constructor|]|]. destruct l1 as [|b l1].
  - intros H. split; [constructor|]. destruct l2 as [|c l2]; [constructor|]. by apply no_gap_cons in H as [_ ?].
  - intros [H1 H2]%no_gap_cons. destruct (IH H2) as [H3 H4]. split; [|done]. by constructor.
Qed.

(** The keys of a leaf hold those of its leaflets. *)
Lemma entry_bounds leaf vs :
  entry_views order leaf vs → Forall within vs → spread vs →
  Forall (λ v, ¬ lt (vw_first v) (rec_key (le_first_key leaf)) ∧ ¬ lt (rec_key (le_last_key leaf)) (vw_last v)) vs.
Proof.
  intros (_ & (b & Hb & ->) & (w & Hlast & ->)) Hw Hsp. rewrite !rec_key_rec. apply Forall_forall. intros v Hv. split.
  - destruct vs as [|v0 vs]; [done|]. injection Hb as <-. apply elem_of_cons in Hv as [->|Hv]; [apply key_lt_irrefl|].
    apply Forall_cons in Hw as [Hw _]. intros Hlt. eapply (wi_keys v0 Hw), key_lt_trans; [|exact Hlt].
    by apply (spread_app [v0] vs); [| left|].
  - apply last_Some in Hlast as [vs' ->]. apply elem_of_app in Hv as [Hv|Hv%list_elem_of_singleton]; [|subst v; apply key_lt_irrefl].
    apply Forall_app in Hw as [_ [Hw _]%Forall_cons]. intros Hlt. eapply (wi_keys w Hw), key_lt_trans; [exact Hlt|].
    apply (spread_app vs' [w]); [done..|left].
Qed.

Lemma leaves_sorted leaves vss :
  Forall2 (entry_views order) leaves vss → Forall within (concat vss) → spread (concat vss) →
  StronglySorted (λ a b, lt (rec_key (le_last_key a)) (rec_key (le_last_key b))
    ∧ lt (rec_key (le_first_key a)) (rec_key (le_first_key b))) leaves.
Proof.
  induction 1 as [|leaf vs leaves vss Hv Hl IH]; intros Hw Hsp; [constructor|]. cbn [concat] in Hw, Hsp.
  pose proof Hw as Hwall. apply Forall_app in Hw as [Hw1 Hw2]. constructor; [by apply IH; [|eapply StronglySorted_app_1_r]|].
  apply Forall_forall. intros leaf2 (i & Hi)%list_elem_of_lookup_1.
  destruct (Forall2_lookup_l _ _ _ _ _ Hl Hi) as (vs2 & Hi2 & Hv2). apply list_elem_of_lookup_2 in Hi2.
  destruct Hv as (_ & (b & Hb & ->) & (w & Hlast & ->)), Hv2 as (_ & (b2 & Hb2 & ->) & (w2 & Hlast2 & ->)). rewrite !rec_key_rec.
  assert (∀ v, v ∈ vs2 → v ∈ concat vss) as Hin by (intros v ?; apply elem_of_concat; by exists vs2).
  destruct vs as [|v0 vs]; [done|]. destruct vs2 as [|v2 vs2]; [done|]. injection Hb as <-. injection Hb2 as <-. split.
  - eapply lt_le; [by eapply spread_app; [exact Hsp|by apply last_Some_elem_of|by apply Hin, last_Some_elem_of]|].
    by apply (wi_keys w2), (proj1 (Forall_forall _ _) Hw2), Hin, last_Some_elem_of.
  - apply (le_lt _ (vw_last v0)); [apply (wi_keys v0), (proj1 (Forall_forall _ _) Hw1); left|].
    eapply spread_app; [exact Hsp|left|apply Hin; left].
Qed.

(** Leaves that are apart from what passes have no rows that do. *)
Lemma leaves_outside leaves vss :
  Forall2 (entry_views order) leaves vss → Forall within (concat vss) → spread (concat vss) →
  Forall (λ a, ∀ k, key_ok k → key_passes flt k = true → lt (rec_key (le_last_key a)) k ∨ lt k (rec_key (le_first_key a))) leaves →
  passing (all_rows (concat vss)) = [].
Proof.
  intros Hl Hw Hsp Ha. apply passing_none, Forall_forall. intros r (v & (vs & Hvs & Hv)%elem_of_concat & Hr)%all_rows_elem.
  rewrite passes_key. destruct (key_passes flt (rec_key r)) eqn:Hp; [|done]. exfalso.
  assert (key_ok (rec_key r)) as Hok.
  { apply (within_ok (concat vss)); [done|]. apply all_rows_elem. exists v. split; [|done]. apply elem_of_concat. by exists vs. }
  apply list_elem_of_lookup_1 in Hvs as (i & Hi). destruct (Forall2_lookup_r _ _ _ _ _ Hl Hi) as (leaf & Hleaf & Hentry).
  apply list_elem_of_split_length in Hi as (vss1 & vss2 & -> & _). rewrite concat_app in Hw, Hsp. cbn [concat] in Hw, Hsp.
  apply Forall_app in Hw as [_ [Hw _]%Forall_app]. apply StronglySorted_app_1_r, StronglySorted_app_1_l in Hsp.
  pose proof (proj1 (Forall_forall _ _) (entry_bounds leaf vs Hentry Hw Hsp) v Hv) as [B1 B2].
  pose proof (within_row v r (proj1 (Forall_forall _ _) Hw v Hv) Hr) as [R1 R2].
  apply list_elem_of_lookup_2 in Hleaf. destruct (proj1 (Forall_forall _ _) Ha leaf Hleaf _ Hok Hp) as [Hlt|Hlt].
  - apply R2. by eapply le_lt; [exact B2|].
  - apply R1. by eapply lt_le; [exact Hlt|].
Qed.

Lemma find_leaves_outside leaves vss mn mx start end_ :
  bc_range self = Some (mn, mx) → Forall2 (entry_views order) leaves vss → Forall within (concat vss) → spread (concat vss) →
  find_leaves_in_range leaves mn mx order = (start, end_) →
  Forall (λ a, ∀ k, key_ok k → key_passes flt k = true → lt (rec_key (le_last_key a)) k) (take start leaves)
  ∧ Forall (λ a, ∀ k, key_ok k → key_passes flt k = true → lt k (rec_key (le_first_key a))) (drop end_ leaves).
Proof.
  intros Hr Hl Hw Hsp Hf. pose proof (leaves_sorted leaves vss Hl Hw Hsp) as Hs. unfold range_covers_filter in Hrange. rewrite Hr in Hrange.
  assert (find_leaves_in_range leaves mn mx order =
    (partition_point (λ e, match cmp_v2_for_order order (le_last_key e) mn with Lt => true | _ => false end) leaves,
     partition_point (λ e, is_le (cmp_v2_for_order order (le_first_key e) mx)) leaves)) as Heq by by destruct leaves.
  rewrite Heq in Hf. apply pair_equal_spec in Hf as [<- <-]. split.
  - destruct (partition_mono _ (λ e, match cmp_v2_for_order order (le_last_key e) mn with Lt => true | _ => false end) leaves Hs) as [H _].
    { intros a b [Hlt _]. rewrite !cmp_v2_key. destruct (key_cmp order (rec_key (le_last_key b)) _) eqn:E; [done| |done].
      intros _. by rewrite (key_lt_trans order _ _ _ Hlt E). }
    eapply Forall_impl; [exact H|]. intros a Ha k Hok Hp. destruct (Hrange k Hok Hp) as [Hk _]. cbn beta in Ha. rewrite cmp_v2_key in Ha.
    destruct (key_cmp order (rec_key (le_last_key a)) _) eqn:E; [done| |done]. by eapply lt_le.
  - destruct (partition_mono _ (λ e, is_le (cmp_v2_for_order order (le_first_key e) mx)) leaves Hs) as [_ H].
    { intros a b [_ Hlt]. rewrite !cmp_v2_key. intros Hle%is_le_le. destruct (key_cmp order (rec_key (le_first_key a)) _) eqn:E; [done..|].
      exfalso. apply key_cmp_gt in E. by eapply Hle, key_lt_trans. }
    eapply Forall_impl; [exact H|]. intros a Ha k Hok Hp. destruct (Hrange k Hok Hp) as [_ Hk]. cbn beta in Ha. rewrite cmp_v2_key in Ha. apply not_is_le in Ha.
    by eapply le_lt.
Qed.

Lemma scan_spec leaves vss ops :
  Forall2 (entry_views order) leaves vss → Forall within (concat vss) → spread (concat vss) →
  no_gap leaves ops → StronglySorted lt (fact_key <$> ops) → Forall (λ ov, key_ok (fact_key ov)) ops →
  ∃ out, scan self leaves ops = Some out ∧ overlaid self (passing (all_rows (concat vss))) (passing_ops ops) out.
Proof.
  intros Hl Hw Hsp Hg Hs Hok. unfold scan. destruct (bc_range self) as [[mn mx]|] eqn:Er.
  2:{ apply (scan_leaves_spec _ _ _ _ _ _ ops); try done. destruct leaves; [done|by left]. }
  destruct (find_leaves_in_range leaves mn mx order) as [start end_] eqn:Ef.
  destruct (find_leaves_outside leaves vss mn mx start end_ Er Hl Hw Hsp Ef) as [O1 O2].
  assert (∀ {A} (l : list A), l = take start l ++ take (end_ - start) (drop start l) ++ drop (Nat.max start end_) l) as Hparts.
  { intros A l. rewrite <- (take_drop start l) at 1. f_equal. rewrite <- (take_drop (end_ - start) (drop start l)) at 1. f_equal.
    rewrite drop_drop. f_equal. lia. }
  pose proof (Forall2_take _ _ _ start Hl) as L1. pose proof (Forall2_take _ _ _ (end_ - start) (Forall2_drop _ _ _ start Hl)) as L2.
  pose proof (Forall2_drop _ _ _ (Nat.max start end_) Hl) as L3.
  rewrite (Hparts _ leaves) in Hg. apply no_gap_app in Hg as [_ [Hg _]%no_gap_app].
  rewrite (Hparts _ vss), !concat_app in Hw, Hsp |- *. apply Forall_app in Hw as [W1 [W2 W3]%Forall_app].
  pose proof (StronglySorted_app_1_l _ _ _ Hsp) as S1. apply StronglySorted_app_1_r in Hsp.
  pose proof (StronglySorted_app_1_l _ _ _ Hsp) as S2. pose proof (StronglySorted_app_1_r _ _ _ Hsp) as S3.
  rewrite !all_rows_app, !filter_app.
  rewrite (leaves_outside _ _ L1 W1 S1), (leaves_outside _ _ L3 W3 S3), app_nil_l, app_nil_r.
  - apply (scan_leaves_spec _ _ _ _ _ _ ops); try done.
    + rewrite <- (app_nil_r (drop (Nat.max start end_) leaves)).
      apply (next_starts_after _ _ _ [] L3); [done|by unfold starts_after].
    + by destruct (take (end_ - start) (drop start leaves)); [|left].
  - replace (Nat.max start end_) with (end_ + (Nat.max start end_ - end_))%nat by lia. rewrite <- drop_drop. apply Forall_drop.
    eapply Forall_impl; [exact O2|]. intros a Ha k Hk Hp. right. by apply Ha.
  - eapply Forall_impl; [exact O1|]. intros a Ha k Hk Hp. left. by apply Ha.
Qed.
End scan_facts.

(** ** What a scan returns *)

Lemma chain_spread order lm hi vs : chain order lm hi vs → StronglySorted (λ v w, key_lt order (vw_last v) (vw_first w)) vs.
Proof.
  revert lm. induction vs as [|v vs IH]; intros lm; [constructor|]. intros ([_ Hlt] & _ & _ & Hc). specialize (IH _ Hc).
  constructor; [done|]. destruct vs as [|w vs]; [constructor|]. cbn in Hlt. constructor; [done|].
  apply StronglySorted_inv in IH as [_ IH]. eapply Forall_impl; [exact IH|]. intros x Hx. destruct Hc as ([Hw _] & _).
  eapply key_lt_trans; [|exact Hx]. by eapply lt_at_least.
Qed.

Lemma chain_keys order lm hi vs : chain order lm hi vs → Forall (λ v, ¬ key_lt order (vw_last v) (vw_first v)) vs.
Proof. revert lm. induction vs as [|v vs IH]; intros lm; [constructor|]. intros ([H _] & _ & _ & Hc). constructor; [done|by eapply IH]. Qed.

Section cursor_scan_exact.
Context `{SO : Sorting} `{HD : HashDrain}.
Context (self : BinaryCursor).
#[local] Abbreviation order := (bc_order self).
#[local] Abbreviation flt := (bc_filter self).

Lemma v2_key_ok r : v2_ok r → key_ok (rec_key r).
Proof. intros (? & ? & ? & ? & ? & ? & ?). unfold key_ok, v2_ok; cbn. lia. Qed.

Lemma branch_within leaves vss :
  Forall2 (entry_views order) leaves vss → Forall view_ok (concat vss) → chain order true None (concat vss) →
  StronglySorted (key_lt order) (rec_key <$> all_rows (concat vss)) → Forall (within self) (concat vss).
Proof.
  intros Hl Hvok Hc Hs. apply chain_keys in Hc. apply Forall_forall. intros v Hv. split.
  - by apply (proj1 (Forall_forall _ _) Hc).
  - apply elem_of_concat in Hv as (vs & Hvs & Hv). apply list_elem_of_lookup_1 in Hvs as (i & Hi).
    destruct (Forall2_lookup_r _ _ _ _ _ Hl Hi) as (leaf & _ & Hr%entry_reads_of).
    apply list_elem_of_lookup_1 in Hv as (j & Hj). destruct (Forall2_lookup_r _ _ _ _ _ Hr Hj) as (e & _ & [_ _ _ _ Hin _]).
    eapply Forall_impl; [exact Hin|]. by intros r (H1 & H2 & _).
  - apply list_elem_of_split in Hv as (vs1 & vs2 & Heq). rewrite Heq, all_rows_app, all_rows_cons, !fmap_app in Hs.
    by apply StronglySorted_app_1_r, StronglySorted_app_1_l in Hs.
  - apply (proj1 (Forall_forall _ _) Hvok) in Hv as [Hok _]. eapply Forall_impl; [exact Hok|]. intros r. apply v2_key_ok.
Qed.

(** The events of the overlay, and operations that decide them: of each fact
    the latest, a retraction before an assertion. *)
Definition op_event (ov : OverlayOp) : Ev := (ov_t ov, if ov_op ov then 1 else 0).
Definition overlay_events (ops : list OverlayOp) (k : FactKeyV3) : list Ev := op_event <$> ops_at k ops.

Definition decides (ops : list OverlayOp) (O : FactKeyV3 → list Ev) : Prop :=
  ∀ k, match ops_at k ops with
       | [] => O k = []
       | ov :: _ => op_event ov ∈ O k ∧ ∀ e, e ∈ O k → e.1 <= ov_t ov ∧ (e = (ov_t ov, 0) → ov_op ov = false)
       end.

(** At most one operation per fact. *)
Lemma ops_at_one k ops : StronglySorted (key_lt order) (fact_key <$> ops) →
  ops_at k ops = [] ∨ ∃ ov, ops_at k ops = [ov] ∧ ov ∈ ops ∧ fact_key ov = k.
Proof.
  induction ops as [|ov ops IH]; intros Hs; [by left|]. csimpl in Hs. apply StronglySorted_inv in Hs as [Hs Hov].
  unfold ops_at. rewrite filter_cons. case_decide as Hk.
  - right. exists ov. subst k. rewrite list_filter_none; [by split_and!; [|left|]|]. apply Forall_forall. intros x Hx Heq.
    apply (key_lt_irrefl order (fact_key x)). rewrite Heq at 1. apply (proj1 (Forall_forall _ _) Hov), list_elem_of_fmap. by exists x.
  - destruct (IH Hs) as [H|(x & H1 & H2 & H3)]; [by left|right]. exists x. split; [done|]. split; [by right|done].
Qed.

Lemma survives_indexed (E : list Ev) rows hist L t T :
  fact_log rows hist L → shows L E → (∀ e, e ∈ L → ∃ e', e' ∈ E ∧ e.1 = e'.1) → (∀ e, e ∈ E → e.1 <= T) →
  (∀ r, r ∈ rows → survives E (v2_t r) T) ∧ (survives E t T → rows ≠ []).
Proof.
  intros [Hr _ _ _] Hshow Hin Ht. specialize (Hshow T).
  assert (until T L = L) as HL by (apply list_filter_id, Forall_forall; intros e (e' & He & ->)%Hin; by apply Ht). rewrite HL, <- Hr in Hshow.
  destruct (live_cases L) as [(e & _ & _ & _ & Hl)|[_ Hl]]; rewrite Hl in Hr.
  - destruct rows as [|r [|]]; [done| |done]. split; [|done]. by intros r' ->%list_elem_of_singleton.
  - destruct rows; [|done]. split; [by intros r ?%not_elem_of_nil|]. cbn in Hshow. intros Hs. by apply Hshow in Hs.
Qed.

Lemma row_emitted ov :
  ov_op ov = true → ov_t ov <= bc_to_t self → key_passes flt (fact_key ov) = true → emit self ov = [overlay_row ov].
Proof.
  intros H1 H2 H3. unfold emit. rewrite filter_overlay_key, H1, H3. by rewrite (proj2 (Z.leb_le _ _) H2).
Qed.

Section decided.
Context (E O : list Ev) (ov : OverlayOp).
Hypothesis Hold : ∀ e, e ∈ E → e.1 <= bc_max_t self.
Hypothesis Hov : bc_max_t self < ov_t ov <= bc_to_t self.
Hypothesis Hin : op_event ov ∈ O.
Hypothesis Hlast : ∀ e, e ∈ O → e.1 <= ov_t ov ∧ (e = (ov_t ov, 0) → ov_op ov = false).

Lemma asserted_survives : ov_op ov = true → survives (E ++ O) (ov_t ov) (bc_to_t self).
Proof.
  intros Hop. split; [apply elem_of_app; right; revert Hin; unfold op_event; by rewrite Hop|]. split; [lia|].
  intros u [Hu|Hu]%elem_of_app _.
  - apply Hold in Hu. cbn in Hu. lia.
  - apply Hlast in Hu as [Hle Hne]. cbn in Hle. destruct (decide (u = ov_t ov)) as [->|]; [|lia].
    by rewrite Hne in Hop.
Qed.

Lemma retracted_gone t : ov_op ov = false → ¬ survives (E ++ O) t (bc_to_t self).
Proof.
  intros Hop (Ha & _ & Hr). specialize (Hr (ov_t ov)). unfold op_event in Hin. rewrite Hop in Hin.
  specialize (Hr ltac:(apply elem_of_app; by right) ltac:(lia)).
  apply elem_of_app in Ha as [Ha|Ha]; [apply Hold in Ha|apply Hlast in Ha as [Ha _]]; cbn in Ha; lia.
Qed.
End decided.

(** What a scan shows of one fact. *)
Lemma fact_scanned E O rows hist ops out k :
  leaflet_log order rows hist E → (∀ k e, e ∈ E k → e.1 <= bc_max_t self) → bc_max_t self <= bc_to_t self →
  StronglySorted (key_lt order) (fact_key <$> ops) →
  decides ops O → Forall (λ ov, bc_max_t self < ov_t ov <= bc_to_t self ∧ 0 <= ov_t ov <= u32_max) ops →
  overlaid self (filter (λ r, passes flt r = true) rows) (filter (λ ov, key_passes flt (fact_key ov) = true) ops) out →
  key_passes flt k = true →
  (∀ r, r ∈ rows_at k out → survives (E k ++ O k) (v2_t r) (bc_to_t self))
  ∧ (∀ t, survives (E k ++ O k) t (bc_to_t self) → rows_at k out ≠ []).
Proof.
  intros [_ Hlog] Ht Hmax Hs Hdec Hops [_ Hk] Hp. rewrite Hk, ops_at_passing, Hp. specialize (Hdec k).
  destruct (ops_at_one k ops Hs) as [Hn|(ov & Hone & Hin & Hov)].
  - rewrite Hn in *. rewrite Hdec, app_nil_r. assert (rows_at k (filter (λ r, passes flt r = true) rows) = rows_at k rows) as ->.
    { unfold rows_at. rewrite list_filter_filter. apply list_filter_iff. intros r. rewrite passes_key. split; [tauto|].
      intros Hr. split; [done|]. by rewrite Hr. }
    destruct (Hlog k) as (L & HL & Hshow & Hin).
    assert (∀ e, e ∈ E k → e.1 <= bc_to_t self) as Ht' by (intros e He%Ht; lia).
    split; [apply (survives_indexed (E k) _ _ L 0 _ HL Hshow Hin Ht')|].
    intros t. by apply (survives_indexed (E k) _ _ L t _ HL Hshow Hin Ht').
  - rewrite Hone in *. destruct Hdec as [HO Hlast]. destruct (proj1 (Forall_forall _ _) Hops ov Hin) as [Hov1 Hov2].
    pose proof (asserted_survives _ _ ov (Ht k) Hov1 HO Hlast) as Hyes. pose proof (retracted_gone _ _ ov (Ht k) Hov1 HO Hlast) as Hno.
    clear Hlast. destruct (ov_op ov) eqn:Eop.
    + rewrite row_emitted by (done || lia || by rewrite Hov). split; [|done]. intros r ->%list_elem_of_singleton.
      cbn [overlay_row v2_t]. replace (Z.min (Z.max (ov_t ov) 0) u32_max) with (ov_t ov) by lia. by apply Hyes.
    + unfold emit. rewrite Eop. cbn [andb]. split; [by intros r ?%not_elem_of_nil|]. intros t Hsv. exfalso.
      by eapply Hno.
Qed.

(** A scan of the latest state returns the facts that pass and survive the
    events of the index followed by those of the overlay. *)
Lemma cursor_scan_exact n leaves E O ops :
  need_replay self = false → range_covers_filter self → branch_log order n leaves E →
  (∀ k e, e ∈ E k → e.1 <= bc_max_t self) → no_gap self leaves ops → StronglySorted (key_lt order) (fact_key <$> ops) →
  Forall (λ ov, key_ok (fact_key ov)) ops →
  decides ops O → Forall (λ ov, bc_max_t self < ov_t ov <= bc_to_t self ∧ 0 <= ov_t ov <= u32_max) ops →
  ∃ out, scan self leaves ops = Some out ∧ StronglySorted (key_lt order) (rec_key <$> out)
    ∧ (∀ r, r ∈ out → key_passes flt (rec_key r) = true
        ∧ survives (E (rec_key r) ++ O (rec_key r)) (v2_t r) (bc_to_t self))
    ∧ (∀ k t, key_passes flt k = true → survives (E k ++ O k) t (bc_to_t self) → k ∈ rec_key <$> out).
Proof.
  intros Hcur Hrange (Hne & vss & Hl & Hvok & Hc & [Hsort Hlog] & _) Ht Hgap Hs Hok Hdec Hops.
  pose proof (branch_within leaves vss Hl Hvok Hc Hsort) as Hw. pose proof (chain_spread _ _ _ _ Hc) as Hsp.
  destruct (scan_spec self Hcur Hrange leaves vss ops Hl Hw Hsp Hgap Hs Hok) as (out & Hout & Ho).
  assert (bc_max_t self <= bc_to_t self) as Hmax by (by apply Z.ltb_ge).
  pose proof (λ k, fact_scanned E O _ _ ops out k (Build_leaflet_log _ _ _ _ Hsort Hlog) Ht Hmax Hs Hdec Hops Ho) as Hfact.
  exists out. split; [done|]. split; [apply Ho|]. split.
  - intros r Hr. assert (key_passes flt (rec_key r) = true) as Hp.
    { assert (rec_key r ∈ rec_key <$> out) as Hin by (apply list_elem_of_fmap; by exists r).
      destruct (overlaid_keys _ _ _ _ _ Ho Hin) as [(x & _ & _ & Hx)%passing_keys|(ov & Hov & [Hx _]%list_elem_of_filter)%list_elem_of_fmap];
        [done|by rewrite Hov]. }
    split; [done|]. apply (Hfact _ Hp). by apply list_elem_of_filter.
  - intros k t Hp Hsv. apply (Hfact k Hp) in Hsv. destruct (decide (k ∈ rec_key <$> out)) as [|Hn]; [done|].
    by rewrite (rows_at_none k out Hn) in Hsv.
Qed.
End cursor_scan_exact.

(** ** Resolving the overlay *)

Lemma cmp_overlay_key order a b : cmp_overlay_v3 a b order = key_cmp order (fact_key a) (fact_key b).
Proof. by destruct order. Qed.

#[export] Instance cmp_overlay_order order P : CmpOrder P (λ a b, cmp_overlay_v3 a b order).
Proof.
  destruct order; [pose (o := Spot)|pose (o := Psot)|pose (o := Post)|pose (o := Opst)];
    (apply (cmp_on_order (λ _, True) P fact_key (key_cmp o)); [apply _|done]).
Qed.

(** The later of two operations, a retraction before an assertion. *)
Definition at_most (b x : OverlayOp) : Prop := ov_t x <= ov_t b ∧ (ov_t x = ov_t b → ov_op x = false → ov_op b = false).

Lemma at_most_trans a b c : at_most a b → at_most b c → at_most a c.
Proof. intros [H1 H2] [H3 H4]. split; [lia|]. intros H5 H6. apply H2; [lia|]. apply H4; [lia|done]. Qed.

Lemma resolve_run_spec best ops b rest :
  resolve_run best ops = (b, rest) →
  ∃ run, ops = run ++ rest ∧ Forall (λ x, fact_key x = fact_key b) (best :: run) ∧ b ∈ best :: run
    ∧ Forall (at_most b) (best :: run) ∧ match rest with x :: _ => fact_key x ≠ fact_key b | [] => True end.
Proof.
  revert best. induction ops as [|op ops IH]; intros best; cbn [resolve_run].
  - intros [= <- <-]. exists []. split; [done|]. split; [by apply Forall_singleton|]. split; [left|]. split; [|done].
    apply Forall_singleton. split; [lia|done].
  - case_bool_decide as Hk; cycle 1.
    { intros [= <- <-]. exists []. split; [done|]. split; [by apply Forall_singleton|]. split; [left|]. split; [|done].
      apply Forall_singleton. split; [lia|done]. }
    set (w := if _ : bool then op else best). cbv zeta. fold w. intros (run & -> & Hkeys & Hin & Hmost & Hrest)%IH.
    assert (at_most w best ∧ at_most w op ∧ fact_key w = fact_key best ∧ (w = op ∨ w = best)) as (M1 & M2 & Hw & Hor).
    { unfold w, at_most. destruct (Z.ltb_spec (ov_t best) (ov_t op)) as [Hlt|Hge]; cbn [orb].
      - split; [split; lia|]. split; [split; [lia|done]|]. by split; [|left].
      - destruct (Z.eqb_spec (ov_t op) (ov_t best)) as [He|Hne]; cbn [andb].
        + destruct (ov_op op) eqn:E1, (ov_op best) eqn:E2; cbn [negb andb];
            (split; [split; [lia|by intros; congruence]|]); (split; [split; [lia|by intros; congruence]|]);
            (split; [done|]); first [by right|by left].
        + split; [split; [lia|done]|]. split; [split; [lia|lia]|]. by split; [|right]. }
    apply Forall_cons in Hkeys as [Hkw Hkeys]. apply Forall_cons in Hmost as [Hmw Hmost]. exists (op :: run). split; [done|].
    split; [repeat (constructor; [congruence|]); done|]. split.
    { apply elem_of_cons in Hin as [->|Hin]; [|do 2 right; done]. destruct Hor as [->| ->]; [right; left|left]. }
    split; [|done]. constructor; [by eapply at_most_trans|]. constructor; [by eapply at_most_trans|done].
Qed.

(** A group of operations of one fact, decided by [b], before later ones. *)
Lemma decides_group b (group rest rs : list OverlayOp) :
  Forall (λ x, fact_key x = fact_key b) group → b ∈ group → Forall (at_most b) group →
  Forall (λ x, fact_key b ≠ fact_key x) rest → decides rs (overlay_events rest) →
  decides (b :: rs) (overlay_events (group ++ rest)).
Proof.
  intros Hk Hin Hm Hr Hd k. unfold overlay_events, ops_at in *. rewrite filter_app, fmap_app, filter_cons. case_decide as Hkb.
  - rewrite (list_filter_none _ rest), app_nil_r by (eapply Forall_impl; [exact Hr|]; simpl; congruence).
    rewrite list_filter_id by (eapply Forall_impl; [exact Hk|]; simpl; congruence). split; [apply list_elem_of_fmap; by exists b|].
    intros e (x & -> & Hx)%list_elem_of_fmap. destruct (proj1 (Forall_forall _ _) Hm x Hx) as [M1 M2]. split; [done|].
    unfold op_event. intros [= Ht Ho]. apply M2; [done|]. by destruct (ov_op x).
  - rewrite (list_filter_none _ group) by (eapply Forall_impl; [exact Hk|]; simpl; congruence). apply (Hd k).
Qed.

Lemma resolve_runs_spec order fuel ops :
  (length ops <= fuel)%nat → sorted_by (λ a b, cmp_overlay_v3 a b order) ops →
  StronglySorted (key_lt order) (fact_key <$> resolve_runs fuel ops) ∧ decides (resolve_runs fuel ops) (overlay_events ops)
  ∧ resolve_runs fuel ops ⊆ ops.
Proof.
  revert ops. induction fuel as [|fuel IH]; intros ops Hlen Hs.
  { destruct ops; [|cbn in Hlen; lia]. split; [constructor|]. split; [|done]. by intros k. }
  destruct ops as [|op ops]; [split; [constructor|]; split; [|done]; by intros k|]. cbn [resolve_runs].
  destruct (resolve_run op ops) as [b rest] eqn:E. apply resolve_run_spec in E as (run & -> & Hkeys & Hin & Hmost & Hrest).
  unfold sorted_by in Hs. cbn [length] in Hlen. rewrite length_app in Hlen.
  pose proof Hs as Hs'. apply StronglySorted_inv in Hs' as [Hs' Hop]. apply StronglySorted_app_1_r in Hs'.
  assert (Forall (λ x, key_lt order (fact_key b) (fact_key x)) rest) as Hlater.
  { apply Forall_app in Hop as [_ Hop]. destruct rest as [|h rest]; [done|]. apply Forall_cons in Hop as [Hh _].
    unfold cmp_le in Hh. rewrite cmp_overlay_key in Hh. apply Forall_cons in Hkeys as [Hkop _].
    assert (key_lt order (fact_key b) (fact_key h)) as Hbh by (rewrite <- Hkop in *; by apply key_le_lt).
    constructor; [done|]. apply StronglySorted_inv in Hs' as [_ Hh']. eapply Forall_impl; [exact Hh'|]. intros x Hx.
    unfold cmp_le in Hx. rewrite cmp_overlay_key in Hx. destruct (decide (fact_key h = fact_key x)) as [<-|Hne]; [done|].
    eapply key_lt_trans; [exact Hbh|]. by apply key_le_lt. }
  destruct (IH rest ltac:(lia) Hs') as (I1 & I2 & I3). split; [|split].
  - csimpl. constructor; [done|]. apply Forall_fmap, Forall_forall. intros x Hx. by apply (proj1 (Forall_forall _ _) Hlater), I3.
  - apply (decides_group b (op :: run) rest); try done. eapply Forall_impl; [exact Hlater|]. intros x. apply key_lt_ne.
  - change (op :: run ++ rest) with ((op :: run) ++ rest). intros x [->|Hx]%elem_of_cons; apply elem_of_app; [by left|].
    right. by apply I3.
Qed.

Section overlay_resolved.
Context `{SO : Sorting}.

Lemma resolve_overlay_spec ops order :
  let rs := resolve_overlay_ops (sort_overlay_ops ops order) in
  StronglySorted (key_lt order) (fact_key <$> rs) ∧ decides rs (overlay_events (sort_overlay_ops ops order)) ∧ rs ⊆ ops.
Proof.
  cbv zeta. pose proof (sort_perm false (λ a b, cmp_overlay_v3 a b order) ops) as Hp.
  destruct (resolve_runs_spec order (length (sort_overlay_ops ops order)) (sort_overlay_ops ops order)) as (H1 & H2 & H3);
    [done|apply (sort_sorted _ (λ _, True)); [apply _|by apply Forall_true]|].
  split; [done|]. split; [done|]. intros x Hx%H3. unfold sort_overlay_ops in Hx. by rewrite Hp in Hx.
Qed.

Lemma decides_perm rs ops ops' : ops ≡ₚ ops' → decides rs (overlay_events ops) → decides rs (overlay_events ops').
Proof.
  intros Hp Hd k. specialize (Hd k). assert (overlay_events ops k ≡ₚ overlay_events ops' k) as Hpk.
  { unfold overlay_events, ops_at. by rewrite Hp. }
  destruct (ops_at k rs) as [|ov l]; [rewrite Hd in Hpk; by apply Permutation_nil in Hpk|]. destruct Hd as [H1 H2].
  split; [by rewrite <- Hpk|]. intros e He. apply H2. by rewrite Hpk.
Qed.

Lemma overlay_resolved ops order :
  let rs := resolve_overlay_ops (sort_overlay_ops ops order) in
  StronglySorted (key_lt order) (fact_key <$> rs) ∧ decides rs (overlay_events ops) ∧ rs ⊆ ops.
Proof.
  cbv zeta. destruct (resolve_overlay_spec ops order) as (H1 & H2 & H3). split; [done|]. split; [|done].
  eapply decides_perm; [apply sort_perm|exact H2].
Qed.
End overlay_resolved.
