(* ===== verification/IndexTheorems.v ===== *)
(** * The index
    ([fluree-db-indexer/src/build/incremental.rs] over the index files)

    What the passes of the indexer over a graph make of its branch, window
    after window, and the theorems of the index: the history of every fact
    is exact, scans return what survives, parallel updates are serial ones,
    the byte formats read back; and what the code does where it should not. *)

From S2P Require Import Prelude Vocab Ordering IndexFormat IndexDedup IndexMerge.
From S2P Require Import Accumulator IndexReplay IndexLeaf IndexUpdate IndexBranch IndexScan.
#[local] Open Scope Z_scope.

(** ** A pass of the indexer *)

Section passes.
Context `{SO : Sorting}.
Context (o_types : OTypeRegistry) (ncpu leaflet_rows leaflets_per_leaf : nat) (g_id : Z) (order : RunSortOrder).

Definition branch_config : BranchUpdateConfig :=
  {| bu_order := order;
     bu_leaflet_target_rows := Nat.max leaflet_rows 1;
     bu_leaf_target_rows := Nat.max leaflet_rows 1 * Nat.max leaflets_per_leaf 1;
     bu_collect_matched := match order with Spot => true | _ => false end |}.

(** The task of a graph and an order, whose branch exists or not. *)
Definition execute_phase2_task (kind : option (list LeafEntry)) (sorted_records sorted_superseded : list (RunRecordV2 * Z)) :
    option (list LeafEntry) :=
  match kind with
  | Some leaves => fst <$> update_branch ncpu branch_config leaves sorted_records sorted_superseded
  | None => build_fresh_default_graph_v3 sorted_records order leaflet_rows leaflets_per_leaf
  end.

(** The pass over a window: a graph with no record has no task. *)
Definition incremental_index (branch : option (list LeafEntry)) (window : list RunRecord) : option (option (list LeafEntry)) :=
  let '(records, superseded) := resolve_window o_types window in
  match filter (λ r, v2_g_id r.1 = g_id) records with
  | [] => Some branch
  | _ => Some <$> execute_phase2_task branch (graph_stream g_id order records) (graph_stream g_id order superseded)
  end.

Definition incremental_indexes (branch : option (list LeafEntry)) (windows : list (list RunRecord)) : option (option (list LeafEntry)) :=
  foldl (λ b window, b ← b; incremental_index b window) (Some branch) windows.
End passes.

(** ** What windows hold *)

(** Records of one fact agree on its object's kind, operations are 0 or 1, and
    values have the widths of their columns. *)
Record window_ok (o_types : OTypeRegistry) (W : list RunRecord) : Prop := {
  wo_kinds : kinds_agree o_types W;
  wo_ops : Forall is_op (ev <$> W);
  wo_values : Forall (λ r, v2_ok (from_v1 o_types r)) W;
}.

Definition after_window (W W' : list RunRecord) : Prop := ∀ r r', r ∈ W → r' ∈ W' → rr_t r < rr_t r'.

(** The events of a fact in some windows. *)
Definition graph_events (o_types : OTypeRegistry) (g : Z) (windows : list (list RunRecord)) (k : FactKeyV3) : list Ev :=
  concat (window_events o_types g k <$> windows).

Section pass_facts.
Context `{SO : Sorting} (o_types : OTypeRegistry).

Lemma compact_length w keyed :
  let '(ws, ss) := compact_identities w keyed in (length ws + length ss <= S (length keyed))%nat.
Proof.
  revert w. induction keyed as [|r keyed IH]; intros w; cbn [compact_identities]; [done|].
  pose proof (IH w) as H1. pose proof (IH r) as H2. case_bool_decide; [destruct (superfluous _ _)|].
  - destruct (compact_identities w keyed). cbn [length]. lia.
  - destruct (compact_identities r keyed). cbn [length]. lia.
  - destruct (compact_identities r keyed). cbn [length]. lia.
Qed.

Lemma dedup_group_length group :
  let '(ws, ss) := dedup_group o_types group in (length ws + length ss <= length group)%nat.
Proof.
  unfold dedup_group. set (keyed := fmap (M := list) _ group).
  assert (length (sort_unstable_by false keyed_cmp keyed) = length group) as Hlen
    by (rewrite (Permutation_length (sort_perm false keyed_cmp keyed)); unfold keyed; by rewrite length_fmap).
  destruct (sort_unstable_by false keyed_cmp keyed) as [|w l]; [cbn; lia|]. pose proof (compact_length w l) as Hc.
  destruct (compact_identities w l) as [ws ss]. rewrite (Permutation_length (sort_perm false winner_cmp ws)). cbn [length] in Hlen. lia.
Qed.

Lemma prefix_group_length start records :
  let '(group, rest) := prefix_group start records in (length group + length rest = length records)%nat.
Proof.
  induction records as [|r records IH]; cbn [prefix_group]; [done|]. destruct (same_sort_prefix start r); [|done].
  destruct (prefix_group start records). cbn [length]. lia.
Qed.

Lemma window_dedup_length fuel records :
  let '(ws, ss) := dedup_loop o_types fuel records in (length ws + length ss <= length records)%nat.
Proof.
  revert records. induction fuel as [|fuel IH]; intros records; [cbn; lia|]. destruct records as [|r records]; [cbn; lia|].
  cbn [dedup_loop]. pose proof (prefix_group_length r records) as Hp. destruct (prefix_group r records) as [group rest].
  specialize (IH rest). destruct (dedup_loop o_types fuel rest) as [ws' ss']. cbn [length].
  pose proof (dedup_group_length (r :: group)) as Hg. destruct group as [|x group].
  - rewrite !length_app. cbn [length] in *. lia.
  - destruct (dedup_group o_types (r :: x :: group)) as [ws ss]. rewrite !length_app, length_fmap. cbn [length] in *. lia.
Qed.

(** The streams of a window: as many records at most, all from the window. *)
Lemma resolve_window_streams W recs sups g order :
  window_ok o_types W → resolve_window o_types W = (recs, sups) →
  (length (graph_stream g order recs) + length (graph_stream g order sups) <= length W)%nat
  ∧ Forall (λ x, v2_ok x.1) (graph_stream g order recs) ∧ Forall (λ x, v2_ok x.1) (graph_stream g order sups).
Proof.
  intros [Hk _ Hv] Hw. unfold resolve_window in Hw. set (S := sort_unstable_by false cmp_g_spot W) in *.
  assert (S ≡ₚ W) as Hp by apply sort_perm. pose proof (window_dedup_length (length S) S) as Hlen.
  assert (sorted_by cmp_g_spot S) as Hs by (apply (sort_sorted false (λ _, True)); [apply _|by apply Forall_true]).
  destruct (dedup_fact_lifecycles o_types S) as [ws ss] eqn:Hd. injection Hw as <- <-.
  destruct (dedup_loop_spec o_types _ _ _ _ (Nat.le_refl _) Hs Hd) as (_ & W1 & S1).
  unfold dedup_fact_lifecycles in Hd. rewrite Hd, (Permutation_length Hp) in Hlen.
  assert (∀ l, l ⊆ S → let st := graph_stream g order ((λ v1, (from_v1 o_types v1, rr_op v1)) <$> l) in
    (length st <= length l)%nat ∧ Forall (λ x, v2_ok x.1) st) as Hst.
  { intros l Hl. cbv zeta. unfold graph_stream. set (f := filter _ _).
    rewrite (Permutation_length (sort_perm false _ f)). split.
    - unfold f. etransitivity; [apply length_filter|]. by rewrite length_fmap.
    - rewrite (sort_perm false _ f). apply Forall_forall. intros x [_ (r & -> & Hr%Hl)%list_elem_of_fmap]%list_elem_of_filter.
      rewrite Hp in Hr. by apply (proj1 (Forall_forall _ _) Hv). }
  destruct (Hst ws W1) as [L1 F1], (Hst ss S1) as [L2 F2]. split; [lia|done].
Qed.
End pass_facts.

(** ** The passes record the windows *)

Section passes_log.
Context `{SO : Sorting}.
Context (o_types : OTypeRegistry) (ncpu leaflet_rows leaflets_per_leaf : nat) (g : Z) (order : RunSortOrder).
#[local] Abbreviation pass := (incremental_index o_types ncpu leaflet_rows leaflets_per_leaf g order).
#[local] Abbreviation passes := (incremental_indexes o_types ncpu leaflet_rows leaflets_per_leaf g order).

Lemma graph_stream_nil (l : list (RunRecordV2 * Z)) : filter (λ r, v2_g_id r.1 = g) l = [] ↔ graph_stream g order l = [].
Proof.
  unfold graph_stream. pose proof (sort_perm false (λ a b, cmp_v2_for_order order a.1 b.1) (filter (λ r, v2_g_id r.1 = g) l)) as Hp.
  split; intros H; rewrite H in *; [by apply Permutation_nil_r in Hp|by apply Permutation_nil_l in Hp].
Qed.

(** The streams of a window of assertions only: nothing is superseded. *)
Lemma asserts_only (nov sup : list (RunRecordV2 * Z)) W :
  streams_ok order nov sup W → (∀ k e, e ∈ W k → e.2 = 1) → sup = [] ∧ Forall (λ x, x.2 = 1) nov.
Proof.
  intros [_ _ Hops] Hone.
  assert (∀ D k, resolves D (W k) → (length D <= 1)%nat ∧ Forall (λ e, e.2 = 1) D) as HD.
  { intros D k [_ Ha Hi _ _ _]. assert (Forall (λ e : Ev, e.2 = 1) D) as Hall by (apply Forall_forall; intros e He; by eapply Hone, Hi).
    split; [|done]. destruct D as [|a [|b D]]; [cbn; lia|cbn; lia|]. apply Sorted_inv in Ha as [_ Ha]. apply HdRel_inv in Ha.
    apply Forall_cons in Hall as [H1 [H2 _]%Forall_cons]. exfalso. by apply Ha. }
  split.
  - destruct sup as [|x sup]; [done|]. exfalso. specialize (Hops (okey x)).
    assert (x ∈ at_key (okey x) (x :: sup)) as Hx by (apply list_elem_of_filter; split; [done|left]).
    destruct Hops as [(_ & Hs & _)|(y & D & _ & Hp & _ & Hr)]; [rewrite Hs in Hx; by apply not_elem_of_nil in Hx|].
    destruct (HD D _ Hr) as [Hl _]. apply Permutation_length in Hp. rewrite length_fmap, length_app in Hp. cbn [length] in Hp.
    destruct (at_key (okey x) (x :: sup)); [by apply not_elem_of_nil in Hx|cbn [length] in Hp; lia].
  - apply Forall_forall. intros x Hin. assert (x ∈ at_key (okey x) nov) as Hx by (by apply list_elem_of_filter).
    destruct (Hops (okey x)) as [(Hn & _)|(y & D & Hn & Hp & _ & Hr)]; rewrite Hn in Hx; [by apply not_elem_of_nil in Hx|].
    apply list_elem_of_singleton in Hx as <-. destruct (HD D _ Hr) as [_ Ha].
    assert (ev2 x ∈ D) as Hev by (rewrite <- Hp, fmap_app; apply elem_of_app; right; left).
    by apply (proj1 (Forall_forall _ _) Ha) in Hev.
Qed.

Lemma branch_log_weaken n m leaves E E' :
  (n <= m)%nat → (∀ k, E k = E' k) → branch_log order n leaves E → branch_log order m leaves E'.
Proof.
  intros Hn HE (H1 & vss & H2 & H3 & H4 & H5 & H6). split; [done|]. exists vss. split; [done|]. split; [done|]. split; [done|].
  split; [by eapply leaflet_log_ext|lia].
Qed.

Lemma first_pass W :
  window_ok o_types W → Exists (λ r, rr_g_id r = g) W → Forall (λ r, rr_op r = 1) W →
  ∃ leaves, pass None W = Some (Some leaves) ∧ branch_log order (length W) leaves (λ k, window_events o_types g k W).
Proof.
  intros HW Hg Hone. unfold incremental_index. destruct (resolve_window o_types W) as [recs sups] eqn:Hw.
  pose proof (resolve_window_ok o_types W recs sups g order (wo_kinds _ _ HW) (wo_ops _ _ HW) Hw) as Hs.
  destruct (resolve_window_streams o_types W recs sups g order HW Hw) as (Hlen & Hv & _).
  destruct (asserts_only _ _ _ Hs) as [Hsup Hops].
  { intros k e (r & -> & [_ Hr]%list_elem_of_filter)%list_elem_of_fmap. by apply (proj1 (Forall_forall _ _) Hone). }
  assert (graph_stream g order recs ≠ []) as Hne.
  { intros Hn. apply Exists_exists in Hg as (r & Hr & Hg). destruct Hs as [_ _ Hres]. specialize (Hres (rec_key (from_v1 o_types r))).
    rewrite Hn in Hres. destruct Hres as [(_ & _ & He)|(x & D & He & _)]; [|done].
    assert (ev r ∈ window_events o_types g (rec_key (from_v1 o_types r)) W) as Hin.
    { apply list_elem_of_fmap. exists r. split; [done|]. by apply list_elem_of_filter. }
    rewrite He in Hin. by apply not_elem_of_nil in Hin. }
  destruct (filter (λ r, v2_g_id r.1 = g) recs) as [|x l] eqn:Ef; [by apply graph_stream_nil in Ef|].
  rewrite Hsup in *. destruct (fresh_branch_log order (graph_stream g order recs) _ leaflet_rows leaflets_per_leaf Hops Hne Hv Hs)
    as (leaves & Hf & Hb).
  exists leaves. cbn [execute_phase2_task]. rewrite Hf. split; [done|]. eapply branch_log_weaken; [|done|exact Hb].
  cbn [length] in Hlen. lia.
Qed.

Lemma next_pass n leaves E W :
  branch_log order n leaves E → window_ok o_types W → newer E (λ k, window_events o_types g k W) → fits (n + 2 * length W) →
  ∃ leaves', pass (Some leaves) W = Some (Some leaves')
    ∧ branch_log order (n + 2 * length W) leaves' (λ k, E k ++ window_events o_types g k W).
Proof.
  intros Hb HW Hnew Hfit. unfold incremental_index. destruct (resolve_window o_types W) as [recs sups] eqn:Hw.
  pose proof (resolve_window_ok o_types W recs sups g order (wo_kinds _ _ HW) (wo_ops _ _ HW) Hw) as Hs.
  destruct (resolve_window_streams o_types W recs sups g order HW Hw) as (Hlen & Hv1 & Hv2).
  destruct (filter (λ r, v2_g_id r.1 = g) recs) as [|x l] eqn:Ef.
  - exists leaves. split; [done|]. apply graph_stream_nil in Ef. rewrite Ef in Hs. destruct (streams_empty _ _ _ Hs) as [_ HE].
    eapply branch_log_weaken; [| |exact Hb]; [lia|]. intros k. by rewrite HE, app_nil_r.
  - destruct (update_branch_log (branch_config leaflet_rows leaflets_per_leaf order) ltac:(cbn; lia) ncpu n leaves E
      (λ k, window_events o_types g k W) (graph_stream g order recs) (graph_stream g order sups) Hb Hs Hnew Hv1 Hv2)
      as (leaves' & matched & Hu & Hb').
    { unfold fits in *. lia. }
    exists leaves'. cbn [execute_phase2_task]. rewrite Hu. split; [done|]. eapply branch_log_weaken; [|done|exact Hb']. lia.
Qed.

Lemma next_passes Ws n leaves E :
  branch_log order n leaves E → Forall (window_ok o_types) Ws → StronglySorted after_window Ws →
  Forall (λ W, newer E (λ k, window_events o_types g k W)) Ws → fits (n + 2 * length (concat Ws)) →
  ∃ leaves', passes (Some leaves) Ws = Some (Some leaves')
    ∧ branch_log order (n + 2 * length (concat Ws)) leaves' (λ k, E k ++ graph_events o_types g Ws k).
Proof.
  unfold incremental_indexes. revert n leaves E. induction Ws as [|W Ws IH]; intros n leaves E Hb HW Hs Hnew Hfit; cbn [foldl].
  - exists leaves. split; [done|]. eapply branch_log_weaken; [|..|exact Hb]; [cbn; lia|]. intros k. cbn. by rewrite app_nil_r.
  - apply Forall_cons in HW as [HW HWs], Hnew as [Hn Hns]. apply StronglySorted_inv in Hs as [Hs Haft].
    cbn [concat] in *. rewrite length_app in Hfit |- *. destruct (next_pass n leaves E W Hb HW Hn) as (leaves1 & H1 & Hb1); [unfold fits in *; lia|].
    cbn [mbind option_bind]. rewrite H1.
    destruct (IH (n + 2 * length W)%nat leaves1 _ Hb1 HWs Hs) as (leaves2 & H2 & Hb2).
    + apply Forall_forall. intros W' Hin k e w [He|He]%elem_of_app Hw.
      * by apply (proj1 (Forall_forall _ _) Hns W' Hin k).
      * apply list_elem_of_fmap in He as (r & -> & [_ Hr]%list_elem_of_filter), Hw as (r' & -> & [_ Hr']%list_elem_of_filter).
        by apply (proj1 (Forall_forall _ _) Haft W' Hin).
    + unfold fits in *. lia.
    + exists leaves2. split; [done|]. eapply branch_log_weaken; [|..|exact Hb2]; [lia|]. intros k. unfold graph_events. csimpl.
      by rewrite app_assoc.
Qed.

(** From no branch: the first window asserts. *)
Lemma passes_log W0 Ws :
  Forall (window_ok o_types) (W0 :: Ws) → StronglySorted after_window (W0 :: Ws) →
  Exists (λ r, rr_g_id r = g) W0 → Forall (λ r, rr_op r = 1) W0 → fits (2 * length (concat (W0 :: Ws))) →
  ∃ leaves n, passes None (W0 :: Ws) = Some (Some leaves) ∧ branch_log order n leaves (graph_events o_types g (W0 :: Ws)).
Proof.
  intros [HW HWs]%Forall_cons [Hs Haft]%StronglySorted_inv Hg Hone Hfit. cbn [concat] in Hfit. rewrite length_app in Hfit.
  destruct (first_pass W0 HW Hg Hone) as (leaves & H1 & Hb).
  destruct (next_passes Ws (length W0) leaves _ Hb HWs Hs) as (leaves' & H2 & Hb').
  - apply Forall_forall. intros W' Hin k e w (r & -> & [_ Hr]%list_elem_of_filter)%list_elem_of_fmap (r' & -> & [_ Hr']%list_elem_of_filter)%list_elem_of_fmap.
    by apply (proj1 (Forall_forall _ _) Haft W' Hin).
  - unfold fits in *. lia.
  - exists leaves', (length W0 + 2 * length (concat Ws))%nat. split; [|done]. unfold incremental_indexes in *. cbn [foldl mbind option_bind].
    by rewrite H1.
Qed.
End passes_log.

(** ** The theorems *)

(** C16: From no branch, any windows of commits after each other, the first of
    assertions only, are indexed, and at every time the branch holds exactly
    the facts of the graph that some assertion up to then left standing: a
    row for each, with the time of such an assertion, in the branch's order
    and each once. *)
Theorem index_history_exact `{SO : Sorting} `{HD : HashDrain} o_types ncpu leaflet_rows leaflets_per_leaf g order W0 Ws T :
  Forall (window_ok o_types) (W0 :: Ws) → StronglySorted after_window (W0 :: Ws) →
  Exists (λ r, rr_g_id r = g) W0 → Forall (λ r, rr_op r = 1) W0 → fits (2 * length (concat (W0 :: Ws))) → 0 <= T →
  ∃ leaves out,
    incremental_indexes o_types ncpu leaflet_rows leaflets_per_leaf g order None (W0 :: Ws) = Some (Some leaves)
    ∧ branch_rows_at order T leaves = Some out
    ∧ StronglySorted (key_lt order) (rec_key <$> out)
    ∧ (∀ r, r ∈ out → survives (graph_events o_types g (W0 :: Ws) (rec_key r)) (v2_t r) T)
    ∧ (∀ k t, survives (graph_events o_types g (W0 :: Ws) k) t T → k ∈ rec_key <$> out).
Proof.
  intros H1 H2 H3 H4 H5 HT. destruct (passes_log o_types ncpu leaflet_rows leaflets_per_leaf g order W0 Ws H1 H2 H3 H4 H5)
    as (leaves & n & Hp & Hb).
  destruct (branch_rows_survive order T HT n leaves _ Hb) as (out & Hout). by exists leaves, out.
Qed.

(** C17: A scan of the latest state with novelty not indexed yet on top, sorted
    and resolved as the reader does, returns exactly the facts that pass the
    filter and that the events of the index followed by the novelty's leave
    standing, in order and each once; the operations that pass must not fall
    between the last key of one leaf and the first of the next. *)
Theorem index_scan_exact `{SO : Sorting} `{HD : HashDrain} o_types ncpu leaflet_rows leaflets_per_leaf g W0 Ws
    (cursor : BinaryCursor) (ops : list OverlayOp) :
  Forall (window_ok o_types) (W0 :: Ws) → StronglySorted after_window (W0 :: Ws) →
  Exists (λ r, rr_g_id r = g) W0 → Forall (λ r, rr_op r = 1) W0 → fits (2 * length (concat (W0 :: Ws))) →
  need_replay cursor = false → range_covers_filter cursor →
  Forall (λ r, rr_t r <= bc_max_t cursor) (concat (W0 :: Ws)) →
  Forall (λ ov, bc_max_t cursor < ov_t ov <= bc_to_t cursor ∧ 0 <= ov_t ov <= u32_max) ops →
  Forall (λ ov, key_ok (fact_key ov)) ops →
  ∃ leaves,
    incremental_indexes o_types ncpu leaflet_rows leaflets_per_leaf g (bc_order cursor) None (W0 :: Ws) = Some (Some leaves)
    ∧ (no_gap cursor leaves ops →
       ∃ out, scan cursor leaves (resolve_overlay_ops (sort_overlay_ops ops (bc_order cursor))) = Some out
         ∧ StronglySorted (key_lt (bc_order cursor)) (rec_key <$> out)
         ∧ (∀ r, r ∈ out → key_passes (bc_filter cursor) (rec_key r) = true
             ∧ survives (graph_events o_types g (W0 :: Ws) (rec_key r) ++ overlay_events ops (rec_key r))
                 (v2_t r) (bc_to_t cursor))
         ∧ (∀ k t, key_passes (bc_filter cursor) k = true →
             survives (graph_events o_types g (W0 :: Ws) k ++ overlay_events ops k) t (bc_to_t cursor) →
             k ∈ rec_key <$> out)).
Proof.
  intros H1 H2 H3 H4 H5 Hcur Hrange Hmax Hops Hok.
  destruct (passes_log o_types ncpu leaflet_rows leaflets_per_leaf g (bc_order cursor) W0 Ws H1 H2 H3 H4 H5) as (leaves & n & Hp & Hb).
  exists leaves. split; [done|]. intros Hgap. destruct (overlay_resolved ops (bc_order cursor)) as (R1 & R2 & R3).
  apply (cursor_scan_exact cursor n leaves _ (overlay_events ops) _ Hcur Hrange Hb); [|by eapply no_gap_sub|done| |done|].
  - intros k e (l & (W & -> & HW)%list_elem_of_fmap & (r & -> & [_ Hr]%list_elem_of_filter)%list_elem_of_fmap)%elem_of_concat.
    apply (proj1 (Forall_forall _ _) Hmax), elem_of_concat. by exists W.
  - apply Forall_forall. intros ov Hov. by apply (proj1 (Forall_forall _ _) Hok), R3.
  - apply Forall_forall. intros ov Hov. by apply (proj1 (Forall_forall _ _) Hops), R3.
Qed.

(** C18: Updating a branch with any number of processors is one run with
    updating its leaves one by one.  Whatever fetching, decoding, updating and
    the sink return: either the two have the same outcome, the same
    accumulator or the same error, and handed the same leaves to the sink in
    the same order; or some touched leaf cannot be fetched or updated, both
    fail, perhaps with different errors since a window fetches all its leaves
    first, and the windows handed over no leaf the other did not. *)
Theorem index_update_parallel `{SO : Sorting} (D : DrainEnv) ncpu config leaves novelty superseded :
  let parallel := update_branch_streaming D ncpu config leaves novelty superseded in
  let serial := update_branch_streaming D 1 config leaves novelty superseded in
  parallel = serial
  ∨ (∃ existing slices e,
       (existing, slices) ∈ zip leaves (slice_streams_to_leaves (bu_order config) leaves novelty superseded)
       ∧ slices.1 ≠ []
       ∧ (fetch D existing = inl e ∨ ∃ bytes, fetch D existing = inr bytes ∧ update_fetched D config bytes slices = inl e))
    ∧ ∃ e e' handed handed', parallel = (inl e, handed) ∧ serial = (inl e', handed') ∧ handed `prefix_of` handed'.
Proof.
  cbv zeta. unfold update_branch_streaming. cbv zeta. rewrite orb_true_l. destruct (_ || _); [by left|].
  destruct (parallel_agrees D config ncpu (zip leaves (slice_streams_to_leaves (bu_order config) leaves novelty superseded))
    (with_capacity (bu_collect_matched config)) []) as [E|[([existing slices] & Hin & e & He) Hf]]; [by left|].
  right. split; [|exact Hf]. exists existing, slices, e. split; [exact Hin|]. by apply unit_output_fails.
Qed.

(** The routing keys of leaves and leaflets compare as byte strings the way
    the records they are written from compare in their order. *)
Theorem ordered_keys_memcmp order a b :
  v2_ok a → v2_ok b →
  cmp_ordered_key_v2 (write_ordered_key_v2 order a) (write_ordered_key_v2 order b) = cmp_v2_for_order order a b.
Proof. apply ordered_key_cmp. Qed.

(** C19: A history sidecar is read back: the segment of each leaflet decodes to
    the entries pushed for it, newest first. *)
Theorem sidecar_roundtrip (leaflets : HistSidecarBuilder) bytes refs :
  Forall (λ es, Forall hist_ok es ∧ Z.of_nat (length es) < 2 ^ 32) leaflets → build leaflets = (bytes, refs) →
  Forall2 (λ es seg, decode_history_segment bytes seg = Some (segment_entries es)) leaflets refs.
Proof.
  intros Hok Hb. destruct (build_segments_decodes leaflets _ bytes refs Hok Hb) as [_ Hd].
  eapply Forall2_impl; [exact Hd|]. intros es seg H. by rewrite <- (app_nil_r bytes).
Qed.

(** ** On small graphs *)

(** A record of the default graph whose object is the long 7. *)
Definition ex_fact (s p t op : Z) : RunRecord :=
  {| rr_s_id := s; rr_o_key := 7; rr_p_id := p; rr_t := t; rr_i := LIST_INDEX_NONE; rr_g_id := 0; rr_dt := 3;
     rr_lang_id := 0; rr_o_kind := 3; rr_op := op |}.

Definition ex_op (s p t : Z) (op : bool) : OverlayOp :=
  {| ov_s_id := s; ov_p_id := p; ov_o_type := resolve_by_dt builtin_only 3; ov_o_key := 7; ov_o_i := LIST_INDEX_NONE; ov_t := t; ov_op := op |}.

Definition ex_filter (s p : option Z) : BinaryFilter :=
  {| bf_s_id := s; bf_p_id := p; bf_o_type := None; bf_o_key := None; bf_o_i := None |}.

Definition ex_cursor (order : RunSortOrder) (max_t to_t : Z) (s p : option Z) : BinaryCursor :=
  {| bc_order := order; bc_max_t := max_t; bc_filter := ex_filter s p; bc_to_t := to_t; bc_range := None |}.

(** A cursor over the range of a predicate. *)
Definition ex_bound (s p rest : Z) : RunRecordV2 :=
  {| v2_s_id := s; v2_o_key := rest; v2_p_id := p; v2_t := 0; v2_o_i := rest; v2_o_type := rest; v2_g_id := 0 |}.

Definition ex_range_cursor (max_t to_t p : Z) : BinaryCursor :=
  {| bc_order := Psot; bc_max_t := max_t; bc_filter := ex_filter None (Some p); bc_to_t := to_t;
     bc_range := Some (ex_bound 0 p 0, ex_bound (2 ^ 64 - 1) p (2 ^ 64 - 1)) |}.

(** The subjects and times of rows. *)
Definition ex_rows (rows : option (list RunRecordV2)) : option (list (Z * Z)) :=
  (λ rows : list RunRecordV2, (λ r, (v2_s_id r, v2_t r)) <$> rows) <$> rows.

(** The passes with one row in a leaflet and some leaflets in a leaf. *)
Definition ex_index (leaflets : nat) (order : RunSortOrder) (windows : list (list RunRecord)) : option (option (list LeafEntry)) :=
  incremental_indexes builtin_only 4 1 leaflets 0 order None windows.

Definition ex_read (order : RunSortOrder) (T : Z) (branch : option (option (list LeafEntry))) : option (list (Z * Z)) :=
  branch ← branch; leaves ← branch; ex_rows (branch_rows_at order T leaves).

Definition ex_scan (cursor : BinaryCursor) (ops : list OverlayOp) (branch : option (option (list LeafEntry))) : option (list (Z * Z)) :=
  branch ← branch; leaves ← branch; ex_rows (scan cursor leaves ops).

Definition v2_fits (r : RunRecordV2) : bool :=
  let in_bytes n x := (0 <=? x) && (x <? 256 ^ n) in
  in_bytes 8 (v2_s_id r) && in_bytes 8 (v2_o_key r) && in_bytes 4 (v2_p_id r) && in_bytes 4 (v2_t r)
  && in_bytes 4 (v2_o_i r) && in_bytes 2 (v2_o_type r) && in_bytes 2 (v2_g_id r).

Lemma v2_fits_ok r : v2_fits r = true → v2_ok r.
Proof. unfold v2_fits, v2_ok. rewrite !andb_true_iff, !Z.leb_le, !Z.ltb_lt. tauto. Qed.

(** Windows that evaluation shows to be well formed. *)
Lemma window_check o_types (W : list RunRecord) :
  Forall (λ a, Forall (λ b, rr_g_id a = rr_g_id b → rec_key (from_v1 o_types a) = rec_key (from_v1 o_types b) → rr_o_kind a = rr_o_kind b) W) W →
  Forall (λ r, rr_op r = 0 ∨ rr_op r = 1) W →
  Forall (λ r, v2_fits (from_v1 o_types r) = true) W →
  window_ok o_types W.
Proof.
  intros H1 H2 H3. split.
  - intros a b Ha Hb. apply (proj1 (Forall_forall _ _) (proj1 (Forall_forall _ _) H1 a Ha) b Hb).
  - by rewrite Forall_fmap.
  - eapply Forall_impl; [exact H3|]. intros r. apply v2_fits_ok.
Qed.

Lemma after_check (W W' : list RunRecord) : Forall (λ r, Forall (λ r', rr_t r < rr_t r') W') W → after_window W W'.
Proof. intros H r r' Hr Hr'. apply (proj1 (Forall_forall _ _) (proj1 (Forall_forall _ _) H r Hr) r' Hr'). Qed.

Ltac by_eval := refine (bool_decide_unpack _ _); by vm_compute.
Ltac window_eval := apply window_check; by_eval.

(** Two facts, one of them retracted, then asserted again. *)
Definition ex_windows : list (list RunRecord) := [[ex_fact 10 1 1 1; ex_fact 20 2 2 1]; [ex_fact 10 1 3 0]; [ex_fact 10 1 4 1; ex_fact 30 1 5 1]].

Lemma index_history_exact_witness :
  ∃ leaves out,
    incremental_indexes builtin_only 4 1 2 0 Psot None ex_windows = Some (Some leaves)
    ∧ branch_rows_at Psot 3 leaves = Some out
    ∧ StronglySorted (key_lt Psot) (rec_key <$> out)
    ∧ (∀ r, r ∈ out → survives (graph_events builtin_only 0 ex_windows (rec_key r)) (v2_t r) 3)
    ∧ (∀ k t, survives (graph_events builtin_only 0 ex_windows k) t 3 → k ∈ rec_key <$> out).
Proof.
  apply (index_history_exact builtin_only 4 1 2 0 Psot [ex_fact 10 1 1 1; ex_fact 20 2 2 1]
           [[ex_fact 10 1 3 0]; [ex_fact 10 1 4 1; ex_fact 30 1 5 1]] 3).
  - repeat (constructor; [window_eval|]). constructor.
  - repeat constructor; apply after_check; by_eval.
  - by_eval.
  - by_eval.
  - done.
  - done.
Defined.

(** At time 3, the fact of subject 20; a scan of the latest state with a
    retraction and an assertion on top. *)
Example index_reads :
  ex_read Psot 2 (ex_index 2 Psot ex_windows) = Some [(10, 1); (20, 2)]
  ∧ ex_read Psot 3 (ex_index 2 Psot ex_windows) = Some [(20, 2)]
  ∧ ex_read Psot 5 (ex_index 2 Psot ex_windows) = Some [(10, 4); (30, 5); (20, 2)]
  ∧ ex_scan (ex_cursor Psot 5 9 None (Some 1)) (resolve_overlay_ops (sort_overlay_ops [ex_op 10 1 6 false; ex_op 5 1 7 true] Psot))
      (ex_index 2 Psot ex_windows) = Some [(5, 7); (30, 5)].
Proof. split_and!; by vm_compute. Qed.

Lemma ex_range_covers max_t to_t p : range_covers_filter (ex_range_cursor max_t to_t p).
Proof.
  intros [s p' ot ok oi] (H1 & H2 & H3 & _ & H4 & H5 & _) Hp. cbn in *.
  unfold key_passes, passes, matches in Hp. cbn in Hp. rewrite !andb_true_r in Hp. apply Z.eqb_eq in Hp as ->.
  unfold key_lt, key_cmp. cbn. unfold cmp_v2_psot. cbn. rewrite !Z.compare_refl. cbn. split.
  - destruct (Z.compare_spec s 0); cbn; [|lia|done]. destruct (Z.compare_spec ot 0); cbn; [|lia|done].
    destruct (Z.compare_spec ok 0); cbn; [|lia|done]. destruct (Z.compare_spec oi 0); [done|lia|done].
  - destruct (Z.compare_spec (2 ^ 64 - 1) s); cbn; [|lia|done]. destruct (Z.compare_spec (2 ^ 64 - 1) ot); cbn; [|lia|done].
    destruct (Z.compare_spec (2 ^ 64 - 1) ok); cbn; [|lia|done]. destruct (Z.compare_spec (2 ^ 64 - 1) oi); [done|lia|done].
Qed.

Definition ex_ops : list OverlayOp := [ex_op 10 1 6 false; ex_op 5 1 7 true; ex_op 5 1 6 true].

Lemma index_scan_exact_witness :
  ∃ leaves,
    incremental_indexes builtin_only 4 1 2 0 Psot None ex_windows = Some (Some leaves)
    ∧ (no_gap (ex_range_cursor 5 9 1) leaves ex_ops →
       ∃ out, scan (ex_range_cursor 5 9 1) leaves (resolve_overlay_ops (sort_overlay_ops ex_ops Psot)) = Some out
         ∧ StronglySorted (key_lt Psot) (rec_key <$> out)
         ∧ (∀ r, r ∈ out → key_passes (ex_filter None (Some 1)) (rec_key r) = true
             ∧ survives (graph_events builtin_only 0 ex_windows (rec_key r) ++ overlay_events ex_ops (rec_key r)) (v2_t r) 9)
         ∧ (∀ k t, key_passes (ex_filter None (Some 1)) k = true →
             survives (graph_events builtin_only 0 ex_windows k ++ overlay_events ex_ops k) t 9 → k ∈ rec_key <$> out)).
Proof.
  apply (index_scan_exact builtin_only 4 1 2 0 [ex_fact 10 1 1 1; ex_fact 20 2 2 1]
           [[ex_fact 10 1 3 0]; [ex_fact 10 1 4 1; ex_fact 30 1 5 1]] (ex_range_cursor 5 9 1) ex_ops).
  - repeat (constructor; [window_eval|]). constructor.
  - repeat constructor; apply after_check; by_eval.
  - by_eval.
  - by_eval.
  - done.
  - done.
  - apply ex_range_covers.
  - by_eval.
  - by_eval.
  - apply (Forall_impl (λ ov, v2_fits (key_rec (fact_key ov)) = true)); [by_eval|]. intros ov. apply v2_fits_ok.
Defined.

(** The operations of the example fall into no gap. *)
Example scan_example_no_gap :
  (λ leaves, bool_decide (no_gap (ex_range_cursor 5 9 1) leaves ex_ops)) <$> (mjoin (ex_index 2 Psot ex_windows)) = Some true.
Proof. by vm_compute. Qed.

Lemma ordered_keys_memcmp_witness :
  cmp_ordered_key_v2 (write_ordered_key_v2 Post (ex_bound 258 3 9)) (write_ordered_key_v2 Post (ex_bound 257 3 9)) = Gt.
Proof. rewrite (ordered_keys_memcmp Post (ex_bound 258 3 9) (ex_bound 257 3 9)); [done|by apply v2_fits_ok..]. Defined.

Definition ex_entry (t op : Z) : HistEntryV2 :=
  {| he_s_id := 10; he_p_id := 1; he_o_type := 3; he_o_key := 7; he_o_i := LIST_INDEX_NONE; he_t := t; he_op := op |}.

Lemma sidecar_roundtrip_witness :
  Forall2 (λ es seg, decode_history_segment (build [[ex_entry 1 1; ex_entry 4 0]; []; [ex_entry 2 1]]).1 seg = Some (segment_entries es))
    [[ex_entry 1 1; ex_entry 4 0]; []; [ex_entry 2 1]] (build [[ex_entry 1 1; ex_entry 4 0]; []; [ex_entry 2 1]]).2.
Proof.
  apply (sidecar_roundtrip [[ex_entry 1 1; ex_entry 4 0]; []; [ex_entry 2 1]]).
  - repeat (apply Forall_cons; split; [split; [repeat (apply Forall_cons; split; [unfold hist_ok, ex_entry, LIST_INDEX_NONE; cbn; lia|]); apply Forall_nil_2|cbn; lia]|]).
    apply Forall_nil_2.
  - by vm_compute.
Defined.

(** Where the cursor is not exact.  An assertion of the overlay between the
    last key of one leaf and the first of the next is lost, though it is
    returned when both rows share a leaf.  At an earlier time, a row of a later
    time is returned from a leaflet with no history of its own in a leaf that
    has a sidecar, and a fact retracted since is missed when the leaflet's
    other rows are of another predicate; reading the branch at that time gives
    the right rows in both cases. *)
Theorem scan_divergences :
  (let windows := [[ex_fact 10 1 1 1; ex_fact 20 1 1 1]] in
   let cursor := ex_cursor Spot 1 5 None None in
   ex_scan cursor [ex_op 15 1 2 true] (ex_index 1 Spot windows) = Some [(10, 1); (20, 1)]
   ∧ ex_scan cursor [ex_op 15 1 2 true] (ex_index 2 Spot windows) = Some [(10, 1); (15, 2); (20, 1)])
  ∧ (let branch := ex_index 2 Spot [[ex_fact 10 1 1 1; ex_fact 20 1 5 1]; [ex_fact 10 1 6 0]] in
     ex_scan (ex_cursor Spot 6 2 None None) [] branch = Some [(10, 1); (20, 5)]
     ∧ ex_read Spot 2 branch = Some [(10, 1)])
  ∧ (let branch := ex_index 2 Psot [[ex_fact 10 1 1 1]; [ex_fact 10 2 2 1; ex_fact 10 2 3 0]] in
     ex_scan (ex_cursor Psot 3 2 None (Some 2)) [] branch = Some []
     ∧ ex_read Psot 2 branch = Some [(10, 1); (10, 2)]).
Proof. by vm_compute. Qed.

(** A first window that retracts a fact leaves it a row of the fresh branch,
    and a negative time reads the latest state. *)
Example fresh_branch_keeps_retracted :
  ex_read Spot 5 (ex_index 2 Spot [[ex_fact 10 1 1 1; ex_fact 10 1 2 0]]) = Some [(10, 2)]
  ∧ ex_read Spot (-1) (ex_index 2 Spot [[ex_fact 10 1 1 1]]) = Some [(10, 1)].
Proof. by vm_compute. Qed.
